(* ===== verification/_CoqProject ===== *)
-Q . S2P
Prelude.v
Float.v
Bytes.v
Artifact.v
Crypto.v
Attention.v
Store.v
Peering.v
Quorum.v
AttentionLog.v
Heat.v
Vault.v
VaultFacts.v
Story.v
Request.v
Exchange.v
Intention.v
Packet.v
PacketStore.v
Pending.v
Backprop.v
Router.v
Bundle.v
Custody.v
Epidemic.v
Expiration.v
Prophet.v
Dtn.v
Compact.v
LowMemory.v
DutyCycle.v
RelayConfig.v
RelayQuota.v
RelayAuth.v
Registration.v
Wire.v
BlobStore.v
RelayService.v
RelayAdmin.v
RelayNode.v
BundleStore.v
EventStore.v
Delivery.v
Index.v
Changeset.v
Braid.v
BraidFacts.v
BraidGc.v
Documents.v
Convergence.v
SyncDocs.v
Sealing.v
Recovery.v
Humanness.v
FocusDoc.v
Gratitude.v
IntentionDoc.v
ProofDoc.v
Chat.v
HomeIndex.v
ContentStore.v
AgentBraid.v
VaultSync.v
VaultWatch.v
VaultSyncFacts.v
Mesh.v
Simulation.v
SimulationFacts.v
Witnesses.v
WitnessesNet.v
WitnessesDoc.v
RedbStore.v
AppendLog.v
NodeLog.v
PendingLog.v
Storage.v
Messaging.v
Keystore.v
StoryAuth.v
WitnessesStorage.v
