(* ===== verification/Prelude.v ===== *)
(** * A verification development for Indra's Network

    Indra's Network is a Rust workspace ([src/crates]) for peer-to-peer
    collaboration: players keep artifacts in vaults, account for the attention
    they give them, exchange them, and synchronise folders of content with one
    another over a store-and-forward network with delay-tolerant routing,
    constrained devices and relays that keep encrypted events for peers who
    are away.  This library models the crates that carry that logic as
    executable definitions and proves what makes them correct.

    ** How the code is modelled

    Pure functions are functions.  A method on [&mut self] that may fail is a
    function of type [M S E A] (below): it returns the state it leaves behind
    on its error paths too.  Traits are type classes of operations; what a
    client relies on is a second class of laws, which the in-memory
    implementation is proved to satisfy, so the theorems on vaults and routers
    hold for every lawful store.  Integers are [Z] with the wrap-around of the
    release profile where it can matter; [HashMap] and [BTreeMap] are finite
    maps, iterated in key order where the source does and in an unspecified
    order otherwise.  Floats are IEEE 754 numbers computed by the Standard
    Library's [SpecFloat].  Clocks and random bytes are arguments; in
    [indras-dtn], [indras-iot] and the relay's registrations instants and
    durations count nanoseconds.  An operation on a [DashMap], a database
    transaction, and an [async] method that awaits only its store, is one
    atomic step; the compare-exchange loops of [low_memory.rs] are modelled
    access by access, and the methods of [prophet.rs] lock by lock.  The outcome of file, database, gossip and stream
    operations is an argument.  Code outside the repository is a parameter:
    BLAKE3 ([Blake3]), the [postcard] encodings ([Postcard],
    [ChangesetPostcard], [CredentialPostcard], [StoredEventPostcard],
    [WirePostcard], [BundlePostcard], [NodePostcard], [HeadTrackerPostcard],
    [RecordPostcard], [EntryPostcard], [NodeLogPostcard], [LogPostcard];
    [DocumentCodec] with [CodecLaws] and [DeltaLaws] for replicated documents,
    [Codec] with [CodecRoundtrip] and [CodecTotal] for single types),
    [serde_json] ([StringListJson], [RegistrationJson]),
    Dilithium3 ([Dilithium], with [DilithiumLaws] and [KeyBytesLaws]), Ed25519
    ([Ed25519]), ChaCha20-Poly1305 ([Aead]), ML-KEM ([Kem]), secret sharing
    ([Sharks]) and erasure coding ([ReedSolomon]), each with its documented
    laws, iroh's peer keys ([PeerKey], [PeerKeyParse]), [exp] and [powf]
    ([ExpF32], [ExpF64], [PowF64]), the standard hasher ([DefaultHasher]), and
    chrono's range and formatting ([Chrono], [Rfc3339]).

    ** The parts and their files

    The artifact crate ([indras-artifacts/src]):
    - [Artifact.v]: [artifact.rs], [access.rs], [error.rs] - identifiers,
      artifacts, grants, visibility.
    - [Crypto.v]: [indras-crypto/src/pq_identity.rs] - identities, signatures.
    - [Attention.v]: [attention/mod.rs] (events, dwell times),
      [attention/validate.rs], [attention/fraud.rs].
    - [Store.v]: [store.rs] - the storage traits, their laws and the in-memory
      stores.
    - [Peering.v]: [peering.rs].  [Quorum.v]: [attention/witness.rs] and
      [attention/certificate.rs].
    - [AttentionLog.v]: the [AttentionLog] of [attention/mod.rs] over any
      attention store.  [Heat.v]: [compute_heat] and [token.rs] in binary32
      arithmetic.
    - [Vault.v]: [vault.rs], composed of the stores, the log and the registry;
      [VaultFacts.v] has its properties.
    - [Story.v], [Request.v], [Exchange.v], [Intention.v]: the trees built on
      a vault by [story.rs], [request.rs], [exchange.rs], [intention.rs].

    The network ([indras-core], [indras-storage], [indras-routing]):
    - [Packet.v]: packets, identities, routing decisions and the core traits.
    - [PacketStore.v]: the in-memory packet store of [memory.rs]; [Pending.v]:
      its pending store and the quotas of [quota.rs].
    - Storage on disk: [RedbStore.v]: [structured/tables.rs],
      [peer_registry.rs], [interface_store.rs] and [sync_state.rs], records in
      byte-keyed tables, and what acknowledging does.
      [AppendLog.v]: [append_log/event_log.rs] and [compaction.rs], frames in a
      file with a cursor.  [NodeLog.v]: [node_log/mod.rs], [entry.rs],
      [event.rs], the hash-chained log of a node.  [PendingLog.v]:
      [persistent.rs], pending events over a log of lines.  [Storage.v]:
      [composite.rs], which composes them with the blobs of [ContentStore.v].
    - [Backprop.v]: [backprop.rs], delivery confirmations travelling back.
    - [Router.v]: [mutual.rs], [table.rs], [router.rs].

    Delay-tolerant networking ([indras-dtn/src]):
    - [Bundle.v]: [bundle.rs].  [Custody.v]: [custody.rs], the hand-over of
      responsibility for bundles.
    - [Epidemic.v]: [epidemic.rs], flooding and spray-and-wait.  [Prophet.v]:
      [prophet.rs], delivery predictabilities in binary64 over [Float.v].
    - [Expiration.v]: [expiration.rs].  [Dtn.v]: [strategy.rs] and [lib.rs].

    Constrained devices ([indras-iot/src]):
    - [Compact.v]: [compact.rs], the wire format over [Bytes.v].
      [LowMemory.v]: [low_memory.rs], budgets shared by threads and buffer
      pools.  [DutyCycle.v]: [duty_cycle.rs].

    The relay ([indras-relay/src], with [indras-transport/src/protocol.rs] and
    [indras-crypto/src/credential.rs]):
    - [RelayConfig.v]: [config.rs], [tier.rs], [error.rs] and the patches of
      [admin.rs].  [RelayQuota.v]: [quota.rs].  [RelayAuth.v]: [auth.rs] and
      the credentials.  [Registration.v]: [registration.rs].
    - [Wire.v]: the messages of [protocol.rs] and their framing.
      [BlobStore.v]: [blob_store.rs] over ordered tables.
    - [RelayService.v]: the protocol of [relay_node.rs] on a stream, composed
      of the above; [RelayAdmin.v]: the handlers of [admin.rs]; [RelayNode.v]:
      the node as a transition system of connections, messages, gossip,
      cleanup and admin requests.

    Events and offline delivery ([indras-sync/src], [indras-node/src]):
    - [EventStore.v]: the events of [indras-core/src/interface.rs],
      [event_store.rs] and [head_tracker.rs].
    - [BundleStore.v]: [bundle_store.rs] over ordered tables.  [Delivery.v]:
      [delivery_tracker.rs], [dtn_manager.rs], which composes the store with
      the delay-tolerant routers, and the signed messages of
      [message_handler.rs].
    - [Messaging.v] ([indras-messaging/src]): [message.rs], [history.rs] with
      its two maps and the order of its locks, [schema.rs] and [client.rs].

    Keys and accounts ([indras-node/src], [indras-crypto/src],
    [indras-sync-engine/src]):
    - [Keystore.v]: [keystore.rs], the plain, the encrypted and the story
      keystore over a directory of files where any operation may fail; the
      Argon2 hash is a parameter.
    - [StoryAuth.v]: [pass_story.rs], [word_frequencies.rs], [entropy.rs],
      [story_template.rs], [rehearsal.rs] and [story_auth.rs], accounts opened
      by a story of 23 words; Unicode normalisation and lower-casing, HKDF and
      [log2] are parameters.

    The braid ([indras-sync-engine/src]):
    - [Index.v]: [content_addr.rs] - path indexes, deltas, three-way merge.
    - [Changeset.v]: [braid/changeset.rs].
    - [Braid.v]: [braid/dag.rs], the two breadth-first loops, generic in the
      graph, and the DAG; [BraidFacts.v]: its properties.
    - [BraidGc.v]: [braid/gc.rs], [braid/heal.rs], [braid/gate.rs].
    - [AgentBraid.v]: [team.rs] and [braid/agent_braid.rs], the inner braid of
      the agents of a vault.  [ContentStore.v]: [blobs/store.rs] and
      [blobs/content_ref.rs] of [indras-storage].
    - [VaultSync.v]: [vault/mod.rs], [vault/sync_all.rs], [vault/trust.rs] and
      [vault/relay_sync.rs], the vault composed of the replicated braid, the
      inner braid, the local index, the blob store, the relay and the disk.
      [VaultWatch.v]: [vault/watcher.rs], [vault/sync_to_disk.rs],
      [workspace.rs], [braid/realm_braid.rs], [braid/verification.rs].
      [VaultSyncFacts.v]: the properties of vaults.

    Replicated documents and what is kept in them ([indras-network/src],
    [indras-sync-engine/src], [indras-crypto/src]):
    - [Documents.v]: [document.rs], a replica with its listener, refresh and
      storage.  [Convergence.v]: the laws a merge promises ([JoinLaws],
      [MergeLaws]), a net of replicas over one log as a transition system, and
      the shapes of merges the documents are made of.
    - [SyncDocs.v]: the smaller documents: backup peers, enrolments, share
      delivery, recovery requests, profiles, witness rosters, chain tips,
      certificates, fraud evidence, key directory, backup index, project
      registry, vault files, read tracker.
    - [Sealing.v]: [interface_key.rs], [key_distribution.rs],
      [artifact_encryption.rs], [pq_kem.rs], [shamir.rs], [steward_share.rs],
      [erasure.rs].  [Recovery.v]: [account_root.rs], [device_cert.rs],
      [device_roster.rs], [account_root_envelope.rs], [steward_recovery.rs],
      [file_shard.rs].
    - [Humanness.v]: [humanness.rs].  [FocusDoc.v]: [attention.rs] and
      [attention_sync.rs].  [Gratitude.v]: [blessing.rs],
      [token_of_gratitude.rs], [token_valuation.rs], [realm_blessings.rs],
      [realm_tokens.rs].
    - [IntentionDoc.v]: [intention.rs], [realm_intentions.rs],
      [home_realm_intentions.rs].  [ProofDoc.v]: [proof_folder.rs],
      [realm_proof_folders.rs], [note.rs], [realm_notes.rs].
    - [Chat.v]: [chat_message.rs].  [HomeIndex.v]: [access.rs],
      [artifact_index.rs], [artifact_sync.rs], [home_realm.rs],
      [artifact_recovery.rs], [contacts.rs], [sentiment.rs].

    The mesh simulation ([simulation/src]):
    - [Mesh.v]: [types.rs] and [topology.rs], peers, links and the builders of
      topologies.  [Simulation.v]: [simulation.rs], the whole tick with the
      places where it can panic.  [SimulationFacts.v]: its properties.

    [Witnesses.v], [WitnessesNet.v], [WitnessesDoc.v] and [WitnessesStorage.v]
    instantiate the theorems that have hypotheses.

    ** What the theorems show

    Attention: chain validation accepts exactly the hash chains it should, is
    tamper-evident up to collisions and never accuses the author of one chain;
    the local log only writes such chains; dwell times conserve elapsed time;
    heat stays within its bounds.  Quorums: certificates validate exactly when
    a quorum of distinct roster members signed, an honest quorum always
    succeeds, and two certificates share an honest witness.  Vaults: only
    stewards act, inactive artifacts are frozen, well-formedness is an
    invariant of every operation sequence, transfers and exchanges do exactly
    what they say on every branch; stories, requests and intentions read back
    what was written.  Network: each routing decision means what it says,
    confirmations complete exactly along the reverse path, the packet index and the relay cache are faithful, pending events
    stay within their quotas.  Storage on disk: the event log reads back what
    was written through failing writes and a restart in the middle of one, the
    node log is one verifying chain, the interface store implements finite maps
    over its byte keys, a restart finds the pending events that were written
    out of the buffer, and an event given to the composite storage, opened on
    existing files or not, is read back, inline or through its blob.  Delay
    tolerance: custody stays within its limit and is handed over whole, routing hands over exactly the copies it has,
    predictabilities are numbers when the configuration is.  Devices: messages and fragments
    round-trip, any changed byte is detected, no interleaving exceeds a memory
    budget, and the power states follow their cycle.  Relay: frames and
    streams deliver their messages, unauthenticated peers change nothing,
    stores respect tiers and quotas and can be read back, retrieval is ordered
    and can be resumed page by page, usage is exact while keys are fresh,
    cleanup removes exactly what has expired, and the running node keeps the
    invariants of all its components, its contacts changed by the owner or with
    the admin token only.  Offline delivery: operation by operation the event
    store is a table of one outbox per member, the bundle store a map of
    bundles indexed by destination, what is enqueued for a peer is handed out
    until it is delivered, replaced or expired and unwraps to the message, and
    pruning the tracker drops only the oldest finished deliveries.  Braid: deltas
    round-trip, merges are characterised path by path, searches terminate with
    exactly the reachable changesets, rollup frees exactly the unreferenced
    addresses, replicas form a semilattice when coherent.  Vaults on a braid:
    in every run the braid of the agents stays in order, the outer one as long
    as what peers send is, and no blob that something refers to is lost,
    whatever fails; commits, merges and promotions have exactly the
    index they should, and merged files are on disk.  Documents: for every
    type whose merge satisfies the laws, a replica that reads the log holds the
    join of all published states (and of its own updates that failed to be
    published), whatever was lost, reordered, repeated or restarted before;
    each document type satisfies the laws on the states it is meant for, or a
    theorem shows where it does not.  Recovery: any threshold
    of stewards gives the subkey back, any threshold of shards the file, sealed
    keys open for their recipients, and only certified devices are trusted.
    Messages: a history answers as one map of messages while every place in it
    is used once, what is sent is received, and ordered locks cannot block.
    Accounts: keys survive changes of passphrases and stories, an account opens
    in a new process for its last story only, and encoded stories are unique.
    Realms: the attention calculation agrees with the positions blessings refer
    to, a blessing releases events once and mints one token, chains of stewards
    are never rewritten, submitted proofs and verified claims are never undone,
    deltas of a chat keep a follower in step.  The home realm: a grant opens
    exactly one artifact to one member and brings its interface up.
    Simulation: every topology has exactly its edges, no step loses or
    duplicates a message, and a tick stops only over a confirmation that times
    out or an aging interval of zero.

    Some theorems record where the code differs from its intent (a failed
    [end_session], a rejected completed exchange, a permanent grant that is
    revoked, a deletion that a merge undoes, a tie that never resolves, an
    eviction that makes room for nothing, a usage that counts overwritten
    bytes, a pruned event a silent member still waits for, an edit that never
    reaches a replica, a certificate nobody signed that makes an event final,
    a revocation that leaves access, a torn write that hides later events, an
    acknowledgement that drops the events of other senders, two messages that
    share a place, locks taken in two orders, a rotation that fails half-way
    and locks its owner out, a registration lost between two locks, ...).

    ** Fuel

    The searches of [Braid.v], [trim], varint encoding, fragmenting, the stream
    loop, the replay of a log, UTF-8 decoding and the collapsing of blanks in
    a slot of a story recurse on fuel. The searches get the
    number of edges (respectively nodes) of the DAG plus one or two;
    [ancestors_spec] and [rollup_spec] state that they always return a
    result. [trim] gets the length of its input, and each round consumes a
    byte; a varint of 64 bits has at most ten bytes; fragments are not
    empty, so the length of the payload is enough; each round of the stream
    loop consumes the four bytes of a length, and [stream_spec] states that
    it returns on every input. The replay of an event log gets the length of
    the file, and each entry takes at least five bytes; the lossy decoding
    of UTF-8 and the collapsing of blanks get the length of the text and
    consume a byte each round.

    ** Not modelled

    User interfaces, viewers, Lua bindings and logging, which have no logic of
    their own; network endpoints, gossip topics, channels and the asynchronous
    orchestration on top of these parts ([indras-network/src/network.rs],
    [indras-node/src/lib.rs], the dispatch of [message_handler.rs],
    [indras-gossip], [indras-transport]), whose behaviour is that of iroh
    and tokio; the Automerge document underneath the events of an interface
    ([indras-sync/src/document.rs]), which is a wrapper of the crate; running [cargo] from the braid's
    gate; invitation and identity codes, which are text around bech32 and
    serialization formats that are parameters; text search, which lower-cases
    by Unicode tables; formatting for debugging.

    This file holds what the parts share: machine integers, results and the
    state-and-error monad with its automation, byte strings, text, sorting
    and list lemmas. *)

From Stdlib Require Export ZArith Lia.
From Stdlib Require Import Decimal DecimalString DecimalZ.
From Stdlib Require Export Strings.Byte Strings.Ascii Strings.String.
From stdpp Require Export base tactics numbers list gmap strings sorting.

#[global] Open Scope Z_scope.

(** ** Machine integers

    Rust's integer types are modelled by [Z] with the wrap-around of the
    release profile written out ([Cargo.toml] does not switch
    [overflow-checks] on). *)

Definition wrap_u64 (z : Z) : Z := z mod 2 ^ 64.

Definition wrap_i64 (z : Z) : Z := (z + 2 ^ 63) mod 2 ^ 64 - 2 ^ 63.

Definition in_u64 (z : Z) : Prop := 0 <= z < 2 ^ 64.

Definition in_i64 (z : Z) : Prop := - 2 ^ 63 <= z < 2 ^ 63.

(** [usize] subtraction on a 64-bit target, and [usize::saturating_sub]. *)
Definition usize_sub (a b : Z) : Z := wrap_u64 (a - b).

(** [usize::saturating_add] and [usize::saturating_sub]. *)
Definition usize_saturating_add (a b : Z) : Z := Z.min (2 ^ 64 - 1) (a + b).
Definition usize_saturating_sub (a b : Z) : Z := Z.max 0 (a - b).

Definition saturating_sub (a b : nat) : nat := (a - b)%nat.

(** [i64::saturating_sub]. *)
Definition i64_saturating_sub (a b : Z) : Z :=
  Z.max (- 2 ^ 63) (Z.min (2 ^ 63 - 1) (a - b)).

#[global] Instance in_u64_dec z : Decision (in_u64 z).
Proof. unfold in_u64. apply _. Defined.

#[global] Instance in_i64_dec z : Decision (in_i64 z).
Proof. unfold in_i64. apply _. Defined.

Lemma wrap_u64_range z : in_u64 (wrap_u64 z).
Proof. apply Z.mod_pos_bound. lia. Qed.

Lemma wrap_u64_small z : in_u64 z → wrap_u64 z = z.
Proof. apply Z.mod_small. Qed.

Lemma wrap_i64_range z : in_i64 (wrap_i64 z).
Proof.
  unfold in_i64, wrap_i64.
  pose proof (Z.mod_pos_bound (z + 2 ^ 63) (2 ^ 64)). lia.
Qed.

Lemma wrap_i64_small z : in_i64 z → wrap_i64 z = z.
Proof. unfold in_i64, wrap_i64. intros. rewrite Z.mod_small; lia. Qed.

Lemma wrap_i64_mod z : wrap_i64 z mod 2 ^ 64 = z mod 2 ^ 64.
Proof.
  unfold wrap_i64. rewrite Zminus_mod_idemp_l.
  f_equal. lia.
Qed.

Lemma wrap_i64_cong a b : a mod 2 ^ 64 = b mod 2 ^ 64 → wrap_i64 a = wrap_i64 b.
Proof.
  intros H. unfold wrap_i64.
  rewrite <- (Zplus_mod_idemp_l a), <- (Zplus_mod_idemp_l b), H. done.
Qed.

Lemma wrap_i64_add_l a b : wrap_i64 (wrap_i64 a + b) = wrap_i64 (a + b).
Proof.
  apply wrap_i64_cong.
  by rewrite <- Zplus_mod_idemp_l, wrap_i64_mod, Zplus_mod_idemp_l.
Qed.

Lemma wrap_i64_add_r a b : wrap_i64 (a + wrap_i64 b) = wrap_i64 (a + b).
Proof. by rewrite Z.add_comm, wrap_i64_add_l, Z.add_comm. Qed.

Lemma wrap_u64_add_l a b : wrap_u64 (wrap_u64 a + b) = wrap_u64 (a + b).
Proof. apply Zplus_mod_idemp_l. Qed.

Lemma usize_sub_ge a b : 0 <= b <= a → a < 2 ^ 64 → usize_sub a b = a - b.
Proof. intros. apply wrap_u64_small. unfold in_u64. lia. Qed.

(** ** Fallible and stateful code

    [Result] is Rust's [Result<A, E>].  A method taking [&mut self] that may
    fail is a function of type [M S E A]: it returns the state it leaves
    behind on the error paths too, so that a partial update made before an
    early return with [?] is visible.  [outcome] adds the panics of
    [assert!]. *)

Inductive Result (A E : Type) : Type :=
| Ok (a : A)
| Err (e : E).
Arguments Ok {A E} a.
Arguments Err {A E} e.

#[global] Instance Result_eq_dec `{EqDecision A, EqDecision E} : EqDecision (Result A E).
Proof. solve_decision. Defined.

Definition is_ok {A E} (r : Result A E) : bool :=
  match r with Ok _ => true | Err _ => false end.

Inductive outcome (A : Type) : Type :=
| Returns (a : A)
| Panics.
Arguments Returns {A} a.
Arguments Panics {A}.

Definition M (S E A : Type) : Type := S → S * Result A E.

#[global] Instance M_ret {S E} : MRet (M S E) := λ A a s, (s, Ok a).

#[global] Instance M_bind {S E} : MBind (M S E) := λ A B k m s,
  match m s with
  | (s', Ok a) => k a s'
  | (s', Err e) => (s', Err e)
  end.

(** An early return with an error. *)
Definition fail {S E A} (e : E) : M S E A := λ s, (s, Err e).

(** Read access to the state with a fallible [&self] method. *)
Definition reads {S E A} (f : S → Result A E) : M S E A := λ s, (s, f s).

(** Read access to the state with an infallible [&self] method. *)
Definition gets {S E A} (f : S → A) : M S E A := λ s, (s, Ok (f s)).

Definition modify {S E} (f : S → S) : M S E unit := λ s, (f s, Ok tt).

(** [Option::ok_or] followed by [?]. *)
Definition ok_or {S E A} (o : option A) (e : E) : M S E A :=
  match o with Some a => mret a | None => fail e end.

(** A call on one field of the state. *)
Definition zoom {S T E A} (get : S → T) (set : T → S → S) (m : M T E A) : M S E A :=
  λ s, match m (get s) with (t, r) => (set t s, r) end.

(** The same sequencing for [&self] methods, which only read. *)
#[global] Instance Result_ret {E} : MRet (λ A, Result A E) := λ A a, Ok a.

Definition rbind {A B E} (r : Result A E) (k : A → Result B E) : Result B E :=
  match r with Ok a => k a | Err e => Err e end.

Definition r_ok_or {A E} (o : option A) (e : E) : Result A E :=
  match o with Some a => Ok a | None => Err e end.

Declare Scope indras_scope.
Delimit Scope indras_scope with indras.
Notation "'let?' x := r 'in' k" := (rbind r (λ x, k))
  (at level 10, x name, r at level 200, k at level 200) : indras_scope.
Notation "'let?' ' x := r 'in' k" := (rbind r (λ x, k))
  (at level 10, x strict pattern, r at level 200, k at level 200) : indras_scope.
#[global] Open Scope indras_scope.

Section MonadLaws.
Context {S E : Type}.

Lemma run_bind {A B} (m : M S E A) (k : A → M S E B) s :
  (m ≫= k) s = match m s with
               | (s', Ok a) => k a s'
               | (s', Err e) => (s', Err e)
               end.
Proof. done. Qed.

Lemma run_ret {A} (a : A) (s : S) : (mret a : M S E A) s = (s, Ok a).
Proof. done. Qed.

Lemma run_bind_ok {A B} (m : M S E A) (k : A → M S E B) s s' a :
  m s = (s', Ok a) → (m ≫= k) s = k a s'.
Proof. intros H. by rewrite run_bind, H. Qed.

Lemma run_bind_err {A B} (m : M S E A) (k : A → M S E B) s s' e :
  m s = (s', Err e) → (m ≫= k) s = (s', Err e).
Proof. intros H. by rewrite run_bind, H. Qed.

Lemma bind_ok_inv {A B} (m : M S E A) (k : A → M S E B) s s' b :
  (m ≫= k) s = (s', Ok b) → ∃ s1 a, m s = (s1, Ok a) ∧ k a s1 = (s', Ok b).
Proof.
  rewrite run_bind. destruct (m s) as [s1 [a|e]]; [eauto|]. congruence.
Qed.

Lemma ok_or_inv {A} (o : option A) (e : E) (s s' : S) a :
  ok_or o e s = (s', Ok a) → o = Some a ∧ s' = s.
Proof. unfold ok_or, fail. destruct o; inversion 1; auto. Qed.
End MonadLaws.

(** ** Bytes, fixed-size arrays and their order *)

#[global] Instance byte_eq_decision : EqDecision byte := Byte.byte_eq_dec.

#[global] Instance byte_countable : Countable byte :=
  inj_countable Byte.to_N Byte.of_N Byte.of_to_N.

(** [[u8; 32]]: lists of bytes of length 32. *)
Abbreviation arr32 := (dsig (λ l : list byte, length l = 32%nat)).

Definition arr32_bytes (a : arr32) : list byte := proj1_sig a.

(** [[b; 32]], the array filled with one byte. *)
Definition arr32_fill (b : byte) : arr32 := dexist (replicate 32 b) eq_refl.

Definition zeros32 : arr32 := arr32_fill x00.

Lemma arr32_bytes_inj a b : arr32_bytes a = arr32_bytes b → a = b.
Proof. apply dsig_eq. Qed.

Lemma arr32_length a : length (arr32_bytes a) = 32%nat.
Proof. apply (proj2_dsig a). Qed.

(** Lexicographic order on byte strings, as [Ord] derives it for slices and
    arrays. *)
Fixpoint bytes_leb (a b : list byte) : bool :=
  match a, b with
  | [], _ => true
  | _ :: _, [] => false
  | x :: a, y :: b =>
      match (Byte.to_N x ?= Byte.to_N y)%N with
      | Lt => true
      | Gt => false
      | Eq => bytes_leb a b
      end
  end.

Lemma byte_compare_eq x y : (Byte.to_N x ?= Byte.to_N y)%N = Eq → x = y.
Proof.
  intros H%N.compare_eq. pose proof (Byte.of_to_N x) as Hx.
  rewrite H, Byte.of_to_N in Hx. congruence.
Qed.

Lemma bytes_leb_refl a : bytes_leb a a = true.
Proof. induction a as [|x a IH]; simpl; [done|]. by rewrite N.compare_refl. Qed.

Lemma bytes_leb_total a b : bytes_leb a b = true ∨ bytes_leb b a = true.
Proof.
  revert b. induction a as [|x a IH]; intros [|y b]; simpl; auto.
  rewrite (N.compare_antisym (Byte.to_N y)).
  destruct (Byte.to_N y ?= Byte.to_N x)%N; simpl; auto.
Qed.

Lemma bytes_leb_antisym a b : bytes_leb a b = true → bytes_leb b a = true → a = b.
Proof.
  revert b. induction a as [|x a IH]; intros [|y b]; simpl; try done.
  rewrite (N.compare_antisym (Byte.to_N x)).
  destruct (Byte.to_N x ?= Byte.to_N y)%N eqn:E; simpl; try done.
  intros. apply byte_compare_eq in E as ->. f_equal. auto.
Qed.

Lemma bytes_leb_trans a b c :
  bytes_leb a b = true → bytes_leb b c = true → bytes_leb a c = true.
Proof.
  revert b c. induction a as [|x a IH]; intros [|y b] [|z c]; simpl; try done.
  destruct (N.compare_spec (Byte.to_N x) (Byte.to_N y)) as [E1|E1|E1],
    (N.compare_spec (Byte.to_N y) (Byte.to_N z)) as [E2|E2|E2],
    (N.compare_spec (Byte.to_N x) (Byte.to_N z)) as [E3|E3|E3];
    try done; try lia. eauto.
Qed.

Definition arr32_leb (a b : arr32) : bool := bytes_leb (arr32_bytes a) (arr32_bytes b).

Lemma arr32_leb_total a b : arr32_leb a b = true ∨ arr32_leb b a = true.
Proof. apply bytes_leb_total. Qed.

Lemma arr32_leb_trans a b c :
  arr32_leb a b = true → arr32_leb b c = true → arr32_leb a c = true.
Proof. apply bytes_leb_trans. Qed.

Lemma arr32_leb_antisym a b : arr32_leb a b = true → arr32_leb b a = true → a = b.
Proof. intros. apply arr32_bytes_inj. by apply bytes_leb_antisym. Qed.

Lemma arr32_leb_refl a : arr32_leb a a = true.
Proof. apply bytes_leb_refl. Qed.

(** The canonical ordering of an unordered pair is the same whichever side
    comes first. *)
Definition ordered_pair (a b : arr32) : arr32 * arr32 :=
  if arr32_leb a b then (a, b) else (b, a).

Lemma ordered_pair_comm a b : ordered_pair a b = ordered_pair b a.
Proof.
  unfold ordered_pair.
  destruct (arr32_leb a b) eqn:E1, (arr32_leb b a) eqn:E2; try done.
  - by rewrite (arr32_leb_antisym a b).
  - destruct (arr32_leb_total a b); congruence.
Qed.

(** BLAKE3 is a third-party crate: the hash is a parameter of everything that
    uses it, passed as an operational class. *)
Class Blake3 : Type := blake3 : list byte → arr32.

(** ** Strings *)

(** The two lower-case hexadecimal digits of [format!("{b:02x}")]. *)
Definition hex_digit (n : N) : ascii :=
  match n with
  | 0 => "0" | 1 => "1" | 2 => "2" | 3 => "3" | 4 => "4" | 5 => "5" | 6 => "6"
  | 7 => "7" | 8 => "8" | 9 => "9" | 10 => "a" | 11 => "b" | 12 => "c"
  | 13 => "d" | 14 => "e" | _ => "f"
  end%N%char.

Definition hex_byte (b : byte) : string :=
  let n := Byte.to_N b in
  String (hex_digit (n / 16)) (String (hex_digit (n mod 16)) EmptyString).

Fixpoint hex (l : list byte) : string :=
  match l with
  | [] => EmptyString
  | b :: l => (hex_byte b +:+ hex l)%string
  end.

Definition hex32 (a : arr32) : string := hex (arr32_bytes a).

(** The number that a hexadecimal digit stands for, and the byte that two of
    them spell: the partial inverses used to show that [hex] loses nothing. *)
Definition unhex_digit (c : ascii) : N :=
  let n := N_of_ascii c in if (n <? 58)%N then (n - 48)%N else (n - 87)%N.

Definition unhex_byte (c d : ascii) : option byte :=
  Byte.of_N (16 * unhex_digit c + unhex_digit d).

Lemma unhex_hex_byte b :
  unhex_byte (hex_digit (Byte.to_N b / 16)) (hex_digit (Byte.to_N b mod 16)) = Some b.
Proof. by destruct b. Qed.

Lemma hex_byte_inj b c s t :
  (hex_byte b +:+ s = hex_byte c +:+ t)%string → b = c ∧ s = t.
Proof.
  intros H. injection H as H1 H2 H3. split; [|done].
  pose proof (unhex_hex_byte b) as Hb. pose proof (unhex_hex_byte c) as Hc.
  rewrite H1, H2 in Hb. congruence.
Qed.

Lemma hex_app_inj l1 l2 s t :
  length l1 = length l2 → (hex l1 +:+ s = hex l2 +:+ t)%string → l1 = l2 ∧ s = t.
Proof.
  revert l2. induction l1 as [|b l1 IH]; intros [|c l2] Hlen H; try done.
  change (hex_byte b +:+ (hex l1 +:+ s) = hex_byte c +:+ (hex l2 +:+ t))%string in H.
  apply hex_byte_inj in H as [-> H]. injection Hlen as Hlen.
  by destruct (IH l2 Hlen H) as [-> ->].
Qed.

Lemma hex32_app_inj a b s t :
  (hex32 a +:+ s = hex32 b +:+ t)%string → a = b ∧ s = t.
Proof.
  unfold hex32. intros H. apply hex_app_inj in H as [H ->].
  - split; [|done]. by apply arr32_bytes_inj.
  - by rewrite !arr32_length.
Qed.

(** [Display for i64]. *)
Definition i64_to_string (z : Z) : string := NilZero.string_of_int (Z.to_int z).

Definition parse_digits (s : string) : option Z :=
  Z.of_uint <$> NilZero.uint_of_string s.

(** [str::parse::<i64>]: an optional sign, at least one digit, in range. *)
Definition parse_i64 (s : string) : option Z :=
  z ← match s with
      | String "+" r => parse_digits r
      | String "-" r => Z.opp <$> parse_digits r
      | _ => parse_digits s
      end;
  if bool_decide (in_i64 z) then Some z else None.

Lemma parse_digits_to_uint p :
  parse_digits (NilZero.string_of_uint (Pos.to_uint p)) = Some (Z.pos p).
Proof.
  unfold parse_digits. rewrite NilZero.usu by apply DecimalPos.Unsigned.to_uint_nonnil.
  simpl. f_equal. change (Z.of_int (Z.to_int (Z.pos p)) = Z.pos p).
  apply DecimalZ.of_to.
Qed.

Lemma string_of_uint_head d :
  match NilZero.string_of_uint d with
  | String "+" _ | String "-" _ | EmptyString => False
  | _ => True
  end.
Proof. by destruct d. Qed.

Lemma parse_i64_to_string z : in_i64 z → parse_i64 (i64_to_string z) = Some z.
Proof.
  intros Hz. unfold i64_to_string, parse_i64.
  destruct z as [|p|p]; cbn [Z.to_int NilZero.string_of_int].
  - done.
  - pose proof (string_of_uint_head (Pos.to_uint p)) as Hh.
    pose proof (parse_digits_to_uint p) as Hp.
    destruct (NilZero.string_of_uint (Pos.to_uint p)) as [|c s]; [done|].
    assert (match String c s with
            | String "+" r => parse_digits r
            | String "-" r => Z.opp <$> parse_digits r
            | _ => parse_digits (String c s)
            end = Some (Z.pos p)) as ->.
    { destruct c as [[] [] [] [] [] [] [] []]; try done. }
    simpl. by rewrite bool_decide_true.
  - rewrite parse_digits_to_uint. simpl. by rewrite bool_decide_true.
Qed.

Lemma i64_to_string_inj a b :
  in_i64 a → in_i64 b → i64_to_string a = i64_to_string b → a = b.
Proof.
  intros Ha Hb H. apply parse_i64_to_string in Ha, Hb. congruence.
Qed.

(** [str::strip_prefix] and [str::starts_with]. *)
Fixpoint strip_prefix (p s : string) : option string :=
  match p, s with
  | EmptyString, _ => Some s
  | String _ _, EmptyString => None
  | String a p, String b s => if bool_decide (a = b) then strip_prefix p s else None
  end.

Definition starts_with (p s : string) : bool := bool_decide (is_Some (strip_prefix p s)).

Lemma string_app_assoc s t u : ((s +:+ t) +:+ u = s +:+ (t +:+ u))%string.
Proof.
  induction s as [|c s IH]; [done|].
  change (String c ((s +:+ t) +:+ u) = String c (s +:+ (t +:+ u)))%string. by rewrite IH.
Qed.

Lemma strip_prefix_app p s : strip_prefix p (p +:+ s)%string = Some s.
Proof. induction p as [|c p IH]; simpl; [done|]. by rewrite bool_decide_true. Qed.

Lemma strip_prefix_Some p s t : strip_prefix p s = Some t ↔ s = (p +:+ t)%string.
Proof.
  split; [|intros ->; apply strip_prefix_app].
  revert s. induction p as [|c p IH]; intros [|d s]; simpl; try (by inversion 1).
  case_bool_decide as E; [|done]. intros H%IH. by rewrite E, H.
Qed.

(** UTF-8 bytes of a string ([str::as_bytes], [String::into_bytes]). *)
Definition as_bytes (s : string) : list byte := list_byte_of_string s.

Lemma as_bytes_inj s t : as_bytes s = as_bytes t → s = t.
Proof.
  unfold as_bytes. intros H.
  by rewrite <- (string_of_list_byte_of_string s), H, string_of_list_byte_of_string.
Qed.

(** [i64::to_le_bytes] and its siblings: [n] bytes, the least significant
    first, of the two's complement representation. *)
Definition byte_of_Z (z : Z) : byte := default x00 (Byte.of_N (Z.to_N (z mod 256))).

Fixpoint le_bytes (n : nat) (z : Z) : list byte :=
  match n with
  | O => []
  | S n => byte_of_Z z :: le_bytes n (z / 256)
  end.

Definition i64_to_le_bytes (z : Z) : list byte := le_bytes 8 (wrap_u64 z).

(** [String::from_utf8]: the well-formed byte sequences of UTF-8. *)
Definition byte_in (lo hi : N) (b : byte) : bool :=
  (lo <=? Byte.to_N b)%N && (Byte.to_N b <=? hi)%N.

Definition continuation : byte → bool := byte_in 128 191.

Fixpoint utf8_valid (l : list byte) : bool :=
  match l with
  | [] => true
  | b0 :: l0 =>
      if byte_in 0 127 b0 then utf8_valid l0
      else match l0 with
      | [] => false
      | b1 :: l1 =>
          if byte_in 194 223 b0 then continuation b1 && utf8_valid l1
          else match l1 with
          | [] => false
          | b2 :: l2 =>
              if byte_in 224 239 b0 then
                byte_in (if (Byte.to_N b0 =? 224)%N then 160 else 128)
                        (if (Byte.to_N b0 =? 237)%N then 159 else 191) b1
                && continuation b2 && utf8_valid l2
              else match l2 with
              | [] => false
              | b3 :: l3 =>
                  byte_in 240 244 b0
                  && byte_in (if (Byte.to_N b0 =? 240)%N then 144 else 128)
                             (if (Byte.to_N b0 =? 244)%N then 143 else 191) b1
                  && continuation b2 && continuation b3 && utf8_valid l3
              end
          end
      end
  end.

Definition from_utf8 (l : list byte) : option string :=
  if utf8_valid l then Some (string_of_list_byte l) else None.

(** [str::lines] on the bytes of a string: a line ends with a line feed,
    possibly after a carriage return; there is no empty line at the end. *)
Definition strip_cr (line : list byte) : list byte :=
  match last line with Some x0d => removelast line | _ => line end.

Fixpoint lines_loop (l line : list byte) : list (list byte) :=
  match l with
  | [] => match line with [] => [] | _ => [line] end
  | b :: l =>
      if bool_decide (b = x0a) then strip_cr line :: lines_loop l []
      else lines_loop l (line ++ [b])
  end.

Definition lines (l : list byte) : list (list byte) := lines_loop l [].

(** The UTF-8 encodings of the characters with Unicode's [White_Space]
    property, which [str::trim] removes at both ends. *)
Definition white_space : list (list byte) :=
  [[x09]; [x0a]; [x0b]; [x0c]; [x0d]; [x20]; [xc2; x85]; [xc2; xa0]; [xe1; x9a; x80];
   [xe2; x80; x80]; [xe2; x80; x81]; [xe2; x80; x82]; [xe2; x80; x83]; [xe2; x80; x84];
   [xe2; x80; x85]; [xe2; x80; x86]; [xe2; x80; x87]; [xe2; x80; x88]; [xe2; x80; x89];
   [xe2; x80; x8a]; [xe2; x80; xa8]; [xe2; x80; xa9]; [xe2; x80; xaf]; [xe2; x81; x9f];
   [xe3; x80; x80]].

Fixpoint strip_bytes (p l : list byte) : option (list byte) :=
  match p, l with
  | [], _ => Some l
  | _ :: _, [] => None
  | a :: p, b :: l => if bool_decide (a = b) then strip_bytes p l else None
  end.

Fixpoint strip_any (ps : list (list byte)) (l : list byte) : option (list byte) :=
  match ps with
  | [] => None
  | p :: ps => match strip_bytes p l with Some r => Some r | None => strip_any ps l end
  end.

(** Every round removes at least one byte, so the length is fuel enough. *)
Fixpoint strip_while (fuel : nat) (ps : list (list byte)) (l : list byte) : list byte :=
  match fuel with
  | O => l
  | S fuel => match strip_any ps l with Some r => strip_while fuel ps r | None => l end
  end.

Definition trim (l : list byte) : list byte :=
  let l := strip_while (length l) white_space l in
  rev (strip_while (length l) ((@rev byte) <$> white_space) (rev l)).

(** ** Lists

    [Vec::retain], [Iterator::filter] and [Iterator::any] with a boolean
    closure; the stable [sort_by_key] and [Vec::dedup]. *)

Fixpoint retain {A} (f : A → bool) (l : list A) : list A :=
  match l with
  | [] => []
  | x :: l => if f x then x :: retain f l else retain f l
  end.

Fixpoint any {A} (f : A → bool) (l : list A) : bool :=
  match l with
  | [] => false
  | x :: l => f x || any f l
  end.

Fixpoint find_first {A} (f : A → bool) (l : list A) : option A :=
  match l with
  | [] => None
  | x :: l => if f x then Some x else find_first f l
  end.

Fixpoint insert_by {A} (leb : A → A → bool) (x : A) (l : list A) : list A :=
  match l with
  | [] => [x]
  | y :: l => if leb x y then x :: y :: l else y :: insert_by leb x l
  end.

(** A stable sort: an element goes in front of the later elements that are
    not smaller. *)
Fixpoint sort_by {A} (leb : A → A → bool) (l : list A) : list A :=
  match l with
  | [] => []
  | x :: l => insert_by leb x (sort_by leb l)
  end.

(** [Vec::dedup]: drop an element equal to its predecessor. *)
Fixpoint dedup {A} `{EqDecision A} (l : list A) : list A :=
  match l with
  | [] => []
  | x :: l' => match l' with
               | [] => [x]
               | y :: _ => if bool_decide (x = y) then dedup l' else x :: dedup l'
               end
  end.

Section ListLemmas.
Context {A : Type}.
Implicit Types (f g : A → bool) (l : list A) (x : A).

Lemma elem_of_retain f l x : x ∈ retain f l ↔ x ∈ l ∧ f x = true.
Proof.
  induction l as [|y l IH]; simpl; [by rewrite elem_of_nil; naive_solver|].
  destruct (f y) eqn:E; rewrite ?elem_of_cons, IH; naive_solver congruence.
Qed.

Lemma retain_app f l1 l2 : retain f (l1 ++ l2) = retain f l1 ++ retain f l2.
Proof.
  induction l1 as [|y l1 IH]; simpl; [done|]. destruct (f y); by rewrite IH.
Qed.

Lemma retain_ext f g l : (∀ x, x ∈ l → f x = g x) → retain f l = retain g l.
Proof.
  induction l as [|x l IH]; intros Hfg; [done|]. cbn [retain]. rewrite Hfg by left.
  rewrite IH; [done|]. intros y Hy. apply Hfg. by right.
Qed.

Lemma retain_all f l : (∀ x, x ∈ l → f x = true) → retain f l = l.
Proof.
  induction l as [|y l IH]; simpl; [done|]. intros H.
  rewrite H by constructor. f_equal. apply IH. intros. apply H. by constructor.
Qed.

Lemma retain_none f l : (∀ x, x ∈ l → f x = false) → retain f l = [].
Proof.
  induction l as [|y l IH]; simpl; [done|]. intros H.
  rewrite H by constructor. apply IH. intros. apply H. by constructor.
Qed.

Lemma retain_length f l : (length (retain f l) <= length l)%nat.
Proof. induction l as [|y l IH]; simpl; [done|]. destruct (f y); simpl; lia. Qed.

Lemma retain_length_eq f l : length (retain f l) = length l → retain f l = l.
Proof.
  induction l as [|y l IH]; simpl; [done|]. pose proof (retain_length f l).
  destruct (f y); simpl; [|lia]. intros [=]. by rewrite IH.
Qed.

Lemma retain_sublist f l : retain f l `sublist_of` l.
Proof. induction l as [|y l IH]; simpl; [done|]. destruct (f y); by constructor. Qed.

Lemma NoDup_retain f l : NoDup l → NoDup (retain f l).
Proof. intros. eapply sublist_NoDup; [done|apply retain_sublist]. Qed.

Lemma NoDup_fmap_retain {B} (h : A → B) f l : NoDup (h <$> l) → NoDup (h <$> retain f l).
Proof.
  induction l as [|y l IH]; csimpl; [done|]. intros [Hy Hn]%NoDup_cons.
  destruct (f y); csimpl; [|auto]. apply NoDup_cons. split; [|auto].
  rewrite list_elem_of_fmap. intros (z & Hz & [Hin _]%elem_of_retain).
  apply Hy. rewrite Hz. apply list_elem_of_fmap. eauto.
Qed.

Lemma any_true f l : any f l = true ↔ ∃ x, x ∈ l ∧ f x = true.
Proof.
  induction l as [|y l IH]; simpl; [split; [done|]; by intros (? & ?%elem_of_nil & _)|].
  rewrite orb_true_iff, IH. setoid_rewrite elem_of_cons. naive_solver.
Qed.

Lemma any_false f l : any f l = false ↔ ∀ x, x ∈ l → f x = false.
Proof.
  induction l as [|y l IH]; simpl; [split; [|done]; by intros _ ? ?%elem_of_nil|].
  rewrite orb_false_iff, IH. setoid_rewrite elem_of_cons. naive_solver.
Qed.

Lemma any_ext f g l : (∀ x, x ∈ l → f x = g x) → any f l = any g l.
Proof.
  induction l as [|y l IH]; simpl; [done|]. intros H.
  rewrite H, IH; [done| |by constructor]. intros. apply H. by constructor.
Qed.

Lemma find_first_Some f l x : find_first f l = Some x → x ∈ l ∧ f x = true.
Proof.
  induction l as [|y l IH]; simpl; [done|]. rewrite elem_of_cons.
  destruct (f y) eqn:E; naive_solver.
Qed.

Lemma find_first_None f l : find_first f l = None ↔ ∀ x, x ∈ l → f x = false.
Proof.
  induction l as [|y l IH]; simpl; [split; [|done]; by intros _ ? ?%elem_of_nil|].
  setoid_rewrite elem_of_cons. destruct (f y) eqn:E; naive_solver congruence.
Qed.

Lemma find_first_app f l1 l2 :
  find_first f (l1 ++ l2) =
  match find_first f l1 with Some x => Some x | None => find_first f l2 end.
Proof. induction l1 as [|y l1 IH]; simpl; [done|]. by destruct (f y). Qed.
End ListLemmas.

Section DedupLemmas.
Context {A : Type} `{EqDecision A}.
Implicit Types (l : list A) (x : A).

Lemma dedup_cons x y l :
  dedup (x :: y :: l) = if bool_decide (x = y) then dedup (y :: l) else x :: dedup (y :: l).
Proof. done. Qed.

Lemma elem_of_dedup l x : x ∈ dedup l ↔ x ∈ l.
Proof.
  induction l as [|y l IH]; [done|].
  destruct l as [|z l]; [done|]. rewrite dedup_cons. case_bool_decide as E.
  - subst. rewrite IH. set_solver.
  - rewrite elem_of_cons, IH. set_solver.
Qed.
End DedupLemmas.

(** What the sorting routines need from a boolean comparison. *)
Class TotalPreorder {A} (leb : A → A → bool) : Prop := {
  leb_total x y : leb x y = true ∨ leb y x = true;
  leb_trans x y z : leb x y = true → leb y z = true → leb x z = true;
}.

Class LinearOrder {A} (leb : A → A → bool) : Prop := {
  #[global] linear_preorder :: TotalPreorder leb;
  leb_antisym x y : leb x y = true → leb y x = true → x = y;
}.

#[global] Instance arr32_linear : LinearOrder arr32_leb.
Proof.
  split; [split|]; eauto using arr32_leb_total, arr32_leb_trans, arr32_leb_antisym.
Qed.

(** Comparison of integer keys, for [sort_by_key]. *)
Definition by_key {A} (k : A → Z) (x y : A) : bool := k x <=? k y.

#[global] Instance by_key_preorder {A} (k : A → Z) : TotalPreorder (by_key k).
Proof. unfold by_key. split; intros *; rewrite !Z.leb_le; lia. Qed.

Section SortLemmas.
Context {A : Type} (leb : A → A → bool) `{!TotalPreorder leb}.
Implicit Types (l : list A) (x : A).

Let le x y : Prop := leb x y = true.

Lemma insert_by_perm x l : insert_by leb x l ≡ₚ x :: l.
Proof.
  induction l as [|y l IH]; simpl; [done|]. destruct (leb x y); [done|].
  rewrite IH. constructor.
Qed.

Lemma sort_by_perm l : sort_by leb l ≡ₚ l.
Proof. induction l as [|x l IH]; simpl; [done|]. by rewrite insert_by_perm, IH. Qed.

Lemma insert_by_sorted x l : StronglySorted le l → StronglySorted le (insert_by leb x l).
Proof.
  induction 1 as [|y l Hs IH Hall]; simpl; [by repeat constructor|].
  destruct (leb x y) eqn:E.
  - constructor; [by constructor|]. constructor; [done|].
    eapply Forall_impl; [done|]. intros z Hz. unfold le in *. eauto using leb_trans.
  - constructor; [done|]. rewrite insert_by_perm. constructor; [|done].
    unfold le. destruct (leb_total (leb:=leb) x y); congruence.
Qed.

Lemma sort_by_sorted l : StronglySorted le (sort_by leb l).
Proof. induction l; simpl; [constructor|]. by apply insert_by_sorted. Qed.

(** Sorting a sorted list changes nothing. *)
Lemma sort_by_id l : StronglySorted le l → sort_by leb l = l.
Proof.
  induction 1 as [|x l Hs IH Hall]; simpl; [done|]. rewrite IH.
  destruct Hall as [|y l Hy Hall]; simpl; [done|]. by rewrite Hy.
Qed.

Lemma sort_by_snoc l x :
  StronglySorted le l → Forall (λ y, le y x) l → sort_by leb (l ++ [x]) = l ++ [x].
Proof.
  intros Hs Hall. apply sort_by_id.
  induction Hs as [|y l Hs IH Hy]; simpl; [by repeat constructor|].
  inversion Hall; subst. constructor; [by apply IH|].
  apply Forall_app. split; [done|]. by repeat constructor.
Qed.

(** A new element goes behind those that are not larger. *)
Lemma sort_by_insert l1 l2 x :
  StronglySorted le (l1 ++ l2) → Forall (λ y, le y x) l1 → Forall (λ y, leb y x = false) l2 →
  sort_by leb (l1 ++ l2 ++ [x]) = l1 ++ x :: l2.
Proof.
  induction l1 as [|y l1 IH]; simpl; intros Hs H1 H2.
  - induction Hs as [|y l Hs IH Hy]; simpl; [done|]. inversion H2 as [|? ? Hyx H2']; subst.
    rewrite IH by done. simpl. rewrite Hyx. f_equal.
    destruct Hy as [|z l Hz]; simpl; [done|]. by rewrite Hz.
  - inversion Hs as [|? ? Hs' Hall]; subst. inversion H1 as [|? ? Hyx H1']; subst.
    rewrite IH by done. destruct l1 as [|z l1]; simpl; [by rewrite Hyx|].
    inversion Hall as [|? ? Hz]; subst. by rewrite Hz.
Qed.
End SortLemmas.

(** Over an antisymmetric order sorting is canonical: lists with the same
    elements have the same sorted, deduplicated form. *)
Section CanonicalSort.
Context {A : Type} `{EqDecision A} (leb : A → A → bool) `{!LinearOrder leb}.
Implicit Types (l : list A) (x : A).

Let le x y : Prop := leb x y = true.

Lemma dedup_sorted l : StronglySorted le l → StronglySorted le (dedup l) ∧ NoDup (dedup l).
Proof.
  induction 1 as [|x l Hs [IH IHn] Hall]; [split; constructor|].
  destruct l as [|y l]; [split; [repeat constructor|apply NoDup_singleton]|].
  rewrite dedup_cons. case_bool_decide as E; [done|]. split.
  - constructor; [done|]. apply Forall_forall. intros z Hz. rewrite elem_of_dedup in Hz.
    rewrite Forall_forall in Hall. by apply Hall.
  - constructor; [|done]. intros Hx. rewrite elem_of_dedup in Hx. apply E.
    apply leb_antisym; [by inversion Hall|].
    inversion Hs as [|? ? ? Hy]; subst. apply elem_of_cons in Hx as [->|Hx]; [done|].
    rewrite Forall_forall in Hy. by apply Hy.
Qed.

Lemma sorted_nodup_unique l1 l2 :
  StronglySorted le l1 → StronglySorted le l2 → NoDup l1 → NoDup l2 →
  (∀ x, x ∈ l1 ↔ x ∈ l2) → l1 = l2.
Proof.
  intros Hs1 Hs2 Hn1 Hn2 Heq.
  assert (AntiSymm (=) le) by (intros ??; apply leb_antisym).
  eapply StronglySorted_unique; [apply _|done|done|].
  by apply NoDup_Permutation.
Qed.

Lemma sort_dedup_ext l1 l2 :
  (∀ x, x ∈ l1 ↔ x ∈ l2) → dedup (sort_by leb l1) = dedup (sort_by leb l2).
Proof.
  intros Heq.
  destruct (dedup_sorted _ (sort_by_sorted leb l1)),
    (dedup_sorted _ (sort_by_sorted leb l2)).
  apply sorted_nodup_unique; try done.
  intros x. by rewrite !elem_of_dedup, !sort_by_perm.
Qed.
End CanonicalSort.

(** ** Sums *)

Definition sumZ {A} (f : A → Z) (l : list A) : Z := foldr (λ a s, f a + s) 0 l.

Section Sums.
Context {A : Type}.
Implicit Types (f g : A → Z) (l : list A).

Lemma sumZ_cons f x l : sumZ f (x :: l) = f x + sumZ f l.
Proof. done. Qed.

Lemma sumZ_app f l1 l2 : sumZ f (l1 ++ l2) = sumZ f l1 + sumZ f l2.
Proof. induction l1 as [|x l1 IH]; [done|]. rewrite <- app_comm_cons, !sumZ_cons, IH. lia. Qed.

Lemma sumZ_add f g l : sumZ (λ x, f x + g x) l = sumZ f l + sumZ g l.
Proof. induction l as [|x l IH]; [done|]. rewrite !sumZ_cons, IH. lia. Qed.

Lemma sumZ_ext f g l : (∀ x, x ∈ l → f x = g x) → sumZ f l = sumZ g l.
Proof.
  induction l as [|x l IH]; [done|]. intros Hfg. rewrite !sumZ_cons, Hfg by left.
  f_equal. apply IH. intros. apply Hfg. by right.
Qed.

Lemma sumZ_perm f l1 l2 : l1 ≡ₚ l2 → sumZ f l1 = sumZ f l2.
Proof. induction 1; rewrite ?sumZ_cons; lia. Qed.

Lemma sumZ_zero l : sumZ (λ _, 0) l = 0.
Proof. induction l as [|x l IH]; [done|]. by rewrite sumZ_cons, IH. Qed.

(** Wrapping each summand does not change the sum modulo the width. *)
Lemma sumZ_wrap_i64 f l b : wrap_i64 (sumZ (λ x, wrap_i64 (f x)) l + b) = wrap_i64 (sumZ f l + b).
Proof.
  revert b. induction l as [|x l IH]; intros b; [done|].
  rewrite !sumZ_cons, <- !Z.add_assoc, wrap_i64_add_l.
  rewrite (Z.add_comm (f x)), (Z.add_comm (f x)), <- !Z.add_assoc. apply IH.
Qed.

(** Exactly one summand of a duplicate-free list is selected. *)
Lemma sumZ_indicator `{EqDecision A} (a : A) (z : Z) l :
  NoDup l → a ∈ l → sumZ (λ x, if bool_decide (Some a = Some x) then z else 0) l = z.
Proof.
  induction 1 as [|x l Hx Hn IH]; [by intros ?%elem_of_nil|].
  rewrite sumZ_cons. intros [->|Ha]%elem_of_cons.
  - rewrite bool_decide_true by done.
    rewrite (sumZ_ext _ (λ _, 0)), sumZ_zero; [lia|].
    intros y Hy. rewrite bool_decide_false; [done|]. by intros [= ->].
  - rewrite bool_decide_false, IH by (done || (intros [= ->]; done)). done.
Qed.
End Sums.

(** ** More on stateful calls *)

Section Calls.
Context {S E : Type}.

(** [let _ = call();]: the result is dropped, the state change stays. *)
Definition ignore {A} (m : M S E A) : M S E unit := λ s, ((m s).1, Ok tt).

(** [Result::map_err]. *)
Definition map_err {A} (f : E → E) (m : M S E A) : M S E A :=
  λ s, match m s with
       | (s', Ok a) => (s', Ok a)
       | (s', Err e) => (s', Err (f e))
       end.

Lemma run_reads {A} (f : S → Result A E) s : reads f s = (s, f s).
Proof. done. Qed.

Lemma run_reads_bind {A B} (f : S → Result A E) (k : A → M S E B) s :
  (reads f ≫= k) s = match f s with Ok a => k a s | Err e => (s, Err e) end.
Proof. rewrite run_bind, run_reads. by destruct (f s). Qed.

Lemma run_gets_bind {A B} (f : S → A) (k : A → M S E B) s : (gets f ≫= k) s = k (f s) s.
Proof. done. Qed.

Lemma run_zoom {T A} (get : S → T) (set : T → S → S) (m : M T E A) s :
  zoom get set m s = (set (m (get s)).1 s, (m (get s)).2).
Proof. unfold zoom. by destruct (m (get s)). Qed.
End Calls.

Lemma StronglySorted_retain {A} (R : A → A → Prop) (f : A → bool) l :
  StronglySorted R l → StronglySorted R (retain f l).
Proof.
  induction 1 as [|x l Hs IH Hall]; simpl; [constructor|].
  destruct (f x); [|done]. constructor; [done|].
  rewrite Forall_forall in *. intros y [Hy _]%elem_of_retain. by apply Hall.
Qed.

(** What every step of a loop keeps, the loop keeps. *)
Lemma foldl_invariant {A B} (P : A → Prop) (f : A → B → A) l a :
  (∀ a x, P a → P (f a x)) → P a → P (foldl f a l).
Proof. intros Hf. revert a. induction l as [|x l IH]; intros a Ha; simpl; auto. Qed.

(** What every step keeps, every run keeps. *)
Lemma rtc_invariant {A} (P : A → Prop) (R : relation A) x y :
  (∀ a b, R a b → P a → P b) → rtc R x y → P x → P y.
Proof. intros HR. induction 1 as [|a b c Hab _ IH]; eauto. Qed.

(** Deleting the keys of a list one by one. *)
Lemma delete_all_lookup {K A : Type} `{Countable K} (t : gmap K A) (ids : list K) k :
  foldl (λ t id, delete id t) t ids !! k = if decide (k ∈ ids) then None else t !! k.
Proof.
  revert t. induction ids as [|id ids IH]; intros t; cbn [foldl]; [by simpl|].
  rewrite IH, lookup_delete.
  assert (k ∈ id :: ids ↔ id = k ∨ k ∈ ids) as Hiff by (rewrite elem_of_cons; naive_solver).
  destruct (decide (k ∈ ids)), (decide (id = k)), (decide (k ∈ id :: ids)); naive_solver.
Qed.

(** ** Automation

    [indras] collects the facts that close side conditions; [indras_run] the
    equations that execute the calls of the state-error monad; [run_with]
    executes a call whose successful run is known. *)

Create HintDb indras.

#[export] Hint Resolve wrap_u64_range wrap_i64_range wrap_i64_small wrap_u64_small
  NoDup_retain NoDup_fmap_retain StronglySorted_retain : indras.
#[export] Hint Extern 1 (StronglySorted _ (sort_by _ _)) => apply sort_by_sorted, _ : indras.

#[export] Hint Rewrite @run_reads_bind @run_gets_bind @run_ret @run_zoom : indras_run.

Ltac run_with H := rewrite (run_bind_ok _ _ _ _ _ H).

Ltac run_step := autorewrite with indras_run; simpl.
