(* ===== verification/Float.v ===== *)
(** * IEEE 754 arithmetic

    The floating-point types of the source, over the Standard Library's
    [spec_float]: [f64] is binary64 (precision 53, exponent bound 1024).  The
    order of the numbers and the absence of NaN are shown here for the
    components that compare and scale probabilities. *)

From Stdlib Require Import Floats.SpecFloat.
From S2P Require Import Prelude.

Abbreviation f64 := spec_float.

Definition f64_of_Z (z : Z) : f64 := binary_normalize 53 1024 z 0 false.

Definition f64_add : f64 → f64 → f64 := SFadd 53 1024.
Definition f64_sub : f64 → f64 → f64 := SFsub 53 1024.
Definition f64_mul : f64 → f64 → f64 := SFmul 53 1024.
Definition f64_div : f64 → f64 → f64 := SFdiv 53 1024.

Definition f64_zero : f64 := S754_zero false.
Definition f64_one : f64 := S754_finite false 4503599627370496 (-52).

Example f64_one_value : f64_of_Z 1 = f64_one.
Proof. vm_compute. reflexivity. Qed.

(** A decimal literal [n / d], correctly rounded. *)
Definition f64_ratio (n d : Z) : f64 := f64_div (f64_of_Z n) (f64_of_Z d).

Definition is_nan (x : spec_float) : bool := match x with S754_nan => true | _ => false end.

(** [f64::min]: a NaN loses to a number. *)
Definition f64_min (x y : f64) : f64 :=
  if is_nan x then y else if is_nan y then x else if SFltb y x then y else x.

(** [partial_cmp(..).unwrap_or(Equal)]. *)
Definition cmp_or_equal (x y : spec_float) : comparison := default Eq (SFcompare x y).

(** ** The order of the numbers *)

(** A number's class, exponent and mantissa, each signed: the order of
    [SFcompare] is the lexicographic order of these. *)
Definition float_key (x : spec_float) : Z * Z * Z :=
  match x with
  | S754_infinity s => (if s then -2 else 2, 0, 0)
  | S754_finite s m e => if s then (-1, - e, Z.neg m) else (1, e, Z.pos m)
  | S754_zero _ | S754_nan => (0, 0, 0)
  end.

Definition key_lt (a b : Z * Z * Z) : Prop :=
  a.1.1 < b.1.1 ∨ a.1.1 = b.1.1 ∧ (a.1.2 < b.1.2 ∨ a.1.2 = b.1.2 ∧ a.2 < b.2).

Lemma SFltb_key x y :
  is_nan x = false → is_nan y = false → SFltb x y = true ↔ key_lt (float_key x) (float_key y).
Proof.
  intros Hx Hy. unfold SFltb, key_lt.
  destruct x as [sx|sx| |sx mx ex], y as [sy|sy| |sy my ey]; try discriminate;
    destruct sx, sy; cbn; try (split; [done|lia]); try (split; [lia|done]); try lia.
  - change (Pos.compare_cont Eq mx my) with (mx ?= my)%positive.
    destruct (Z.compare_spec ex ey), (Pos.compare_spec mx my); cbn; split; try done; lia.
  - change (Pos.compare_cont Eq mx my) with (mx ?= my)%positive.
    destruct (Z.compare_spec ex ey), (Pos.compare_spec mx my); cbn; split; try done; lia.
Qed.

Lemma SFcompare_swap x y : SFcompare y x = CompOpp <$> SFcompare x y.
Proof.
  destruct x as [sx|sx| |sx mx ex], y as [sy|sy| |sy my ey]; try done;
    destruct sx, sy; try done; cbn; f_equal;
    change (Pos.compare_cont Eq mx my) with (mx ?= my)%positive;
    change (Pos.compare_cont Eq my mx) with (my ?= mx)%positive;
    rewrite (Z.compare_antisym ex ey), (Pos.compare_antisym mx my);
    destruct (ex ?= ey); cbn; try done; by rewrite CompOpp_involutive.
Qed.

Lemma SFcompare_nan x y : SFcompare x y = None ↔ is_nan x = true ∨ is_nan y = true.
Proof. destruct x as [[]|[]| |[] ? ?], y as [[]|[]| |[] ? ?]; cbn; naive_solver. Qed.

Lemma SFleb_SFltb x y : is_nan x = false → is_nan y = false → SFleb x y = negb (SFltb y x).
Proof.
  intros Hx Hy. unfold SFleb, SFltb. rewrite (SFcompare_swap x y).
  destruct (SFcompare x y) as [[]|] eqn:E; try done.
  apply SFcompare_nan in E. destruct E; congruence.
Qed.

Lemma SFltb_nan x y : SFltb x y = true → is_nan x = false ∧ is_nan y = false.
Proof. unfold SFltb. by destruct x, y. Qed.

Lemma SFltb_irrefl x : SFltb x x = false.
Proof.
  unfold SFltb. destruct x as [[]|[]| |[] m e]; try done; cbn; rewrite Z.compare_refl;
    change (Pos.compare_cont Eq m m) with (m ?= m)%positive; by rewrite Pos.compare_refl.
Qed.

(** "Not below" is transitive on numbers. *)
Lemma SFltb_ge_trans x y z :
  is_nan x = false → is_nan y = false → is_nan z = false →
  SFltb x y = false → SFltb y z = false → SFltb x z = false.
Proof.
  intros Hx Hy Hz. rewrite <- !not_true_iff_false, !SFltb_key by done. unfold key_lt. lia.
Qed.

Lemma SFltb_lt_trans x y z :
  is_nan z = false → SFltb x y = true → SFltb z y = false → SFltb x z = true.
Proof.
  intros Hz Hxy. destruct (SFltb_nan x y Hxy) as [Hx Hy].
  apply SFltb_key in Hxy; [|done..].
  rewrite <- not_true_iff_false, !SFltb_key by done. unfold key_lt in *. lia.
Qed.

Lemma f64_min_le x y : is_nan y = false → is_nan (f64_min x y) = false ∧ SFltb y (f64_min x y) = false.
Proof.
  intros Hy. unfold f64_min. destruct (is_nan x) eqn:Hx; [by rewrite SFltb_irrefl|].
  rewrite Hy. destruct (SFltb y x) eqn:E; [by rewrite SFltb_irrefl|done].
Qed.

(** ** Products of numbers are numbers *)

Lemma shr_1_nonneg r : 0 <= shr_m r → 0 <= shr_m (shr_1 r).
Proof. destruct r as [[|[]|[]] ? ?]; cbn; lia. Qed.

Lemma iter_pos_invariant {A} (f : A → A) (Q : A → Prop) n x :
  (∀ y, Q y → Q (f y)) → Q x → Q (SpecFloat.iter_pos f n x).
Proof. intros Hf. revert x. induction n; cbn; auto. Qed.

Lemma shr_fexp_nonneg p e m ex l : 0 <= m → 0 <= shr_m (shr_fexp p e m ex l).1.
Proof.
  intros Hm. unfold shr_fexp, shr.
  assert (0 <= shr_m (shr_record_of_loc m l)) by (by destruct l as [|[]]).
  destruct (_ - _); cbn; try done.
  apply (iter_pos_invariant _ (λ r, 0 <= shr_m r)); [apply shr_1_nonneg|done].
Qed.

Lemma round_nearest_even_nonneg m l : 0 <= m → 0 <= round_nearest_even m l.
Proof. destruct l as [|[]]; cbn; try lia. destruct (Z.even m); lia. Qed.

Lemma binary_round_aux_number p e s m ex l : 0 <= m → is_nan (binary_round_aux p e s m ex l) = false.
Proof.
  intros Hm. unfold binary_round_aux.
  pose proof (shr_fexp_nonneg p e m ex l Hm) as H1.
  destruct (shr_fexp p e m ex l) as [r1 e1]. cbn [fst] in H1.
  pose proof (shr_fexp_nonneg p e _ e1 loc_Exact
    (round_nearest_even_nonneg _ (loc_of_shr_record r1) H1)) as H2.
  destruct (shr_fexp p e _ e1 loc_Exact) as [r2 e2]. cbn [fst] in H2.
  destruct (shr_m r2); [done| |lia]. by destruct (_ <=? _).
Qed.

Definition is_finite_nonzero (x : spec_float) : bool :=
  match x with S754_finite _ _ _ => true | _ => false end.

Lemma f64_mul_number x y :
  is_nan x = false → is_finite_nonzero y = true → is_nan (f64_mul x y) = false.
Proof.
  intros Hx Hy. destruct x, y; try done. unfold f64_mul. cbn [SFmul].
  apply binary_round_aux_number. lia.
Qed.
