(* ===== verification/Bytes.v ===== *)
(** * Bytes and big-endian integers

    Bytes as numbers, and [to_be_bytes], whose lexicographic order is the order
    of the integers: the keys of the relay's tables rely on it. *)

From S2P Require Import Prelude.

Definition byte_val (b : byte) : Z := Z.of_N (Byte.to_N b).

Lemma byte_val_range b : 0 <= byte_val b < 256.
Proof. unfold byte_val. pose proof (Byte.to_N_bounded b). lia. Qed.

Lemma byte_val_of_Z z : byte_val (byte_of_Z z) = z mod 256.
Proof.
  unfold byte_val, byte_of_Z. pose proof (Z.mod_pos_bound z 256 ltac:(lia)) as Hb.
  destruct (Byte.of_N (Z.to_N (z mod 256))) as [b|] eqn:E; simpl.
  - apply Byte.to_of_N in E. rewrite E. lia.
  - apply Byte.of_N_None_iff in E. lia.
Qed.

Lemma byte_of_Z_val b : byte_of_Z (byte_val b) = b.
Proof.
  unfold byte_of_Z. rewrite Z.mod_small by apply byte_val_range.
  unfold byte_val. by rewrite N2Z.id, Byte.of_to_N.
Qed.

Lemma byte_val_inj a b : byte_val a = byte_val b → a = b.
Proof. intros H. by rewrite <- (byte_of_Z_val a), H, byte_of_Z_val. Qed.

(** A decidable fact of every value below [n], by enumeration. *)
Lemma below_all (P : Z → bool) n z :
  forallb P (seqZ 0 n) = true → 0 <= z < n → P z = true.
Proof. intros H Hz. rewrite forallb_forall in H. apply H, list_elem_of_In, elem_of_seqZ. lia. Qed.

(** [copy_from_slice] into a 32-byte array, where the lengths agree. *)
Definition to_arr32 (l : list byte) : option arr32 :=
  match decide (length l = 32%nat) with left h => Some (dexist l h) | right _ => None end.

Lemma to_arr32_bytes a : to_arr32 (arr32_bytes a) = Some a.
Proof.
  unfold to_arr32. destruct (decide _) as [h|h]; [f_equal; by apply arr32_bytes_inj|].
  by rewrite arr32_length in h.
Qed.

(** ** Big-endian integers *)

(** [to_be_bytes] of an [n]-byte integer, and its inverse. *)
Fixpoint be_bytes (n : nat) (z : Z) : list byte :=
  match n with
  | O => []
  | S n => byte_of_Z (z / 256 ^ Z.of_nat n) :: be_bytes n z
  end.

Definition from_be_bytes (l : list byte) : Z := foldl (λ a b, a * 256 + byte_val b) 0 l.

Lemma be_bytes_length n z : length (be_bytes n z) = n.
Proof. induction n as [|n IH]; [done|]. cbn. by rewrite IH. Qed.

Lemma mod_pow_succ n z :
  z mod 256 ^ Z.of_nat (S n) = (z / 256 ^ Z.of_nat n) mod 256 * 256 ^ Z.of_nat n + z mod 256 ^ Z.of_nat n.
Proof.
  assert (0 < 256 ^ Z.of_nat n) by lia.
  rewrite Nat2Z.inj_succ, Z.pow_succ_r by lia. rewrite (Z.mul_comm 256).
  rewrite Z.rem_mul_r by lia. lia.
Qed.

Lemma from_be_bytes_app l1 l2 :
  from_be_bytes (l1 ++ l2) = from_be_bytes l1 * 256 ^ Z.of_nat (length l2) + from_be_bytes l2.
Proof.
  unfold from_be_bytes. rewrite foldl_app.
  generalize (foldl (λ a b, a * 256 + byte_val b) 0 l1) as c.
  assert (∀ l c, foldl (λ a b, a * 256 + byte_val b) c l =
    c * 256 ^ Z.of_nat (length l) + foldl (λ a b, a * 256 + byte_val b) 0 l) as Hgen; [|by intros].
  induction l as [|b l IH]; intros c; cbn [foldl length]; [lia|].
  rewrite IH, (IH (0 * 256 + byte_val b)), Nat2Z.inj_succ, Z.pow_succ_r by lia. lia.
Qed.

Lemma from_be_bytes_cons b l :
  from_be_bytes (b :: l) = byte_val b * 256 ^ Z.of_nat (length l) + from_be_bytes l.
Proof. change (b :: l) with ([b] ++ l). rewrite from_be_bytes_app. unfold from_be_bytes at 1. simpl. lia. Qed.

Lemma from_to_be_bytes n z : from_be_bytes (be_bytes n z) = z mod 256 ^ Z.of_nat n.
Proof.
  induction n as [|n IH]; [cbn; by rewrite Z.mod_1_r|].
  cbn [be_bytes]. by rewrite from_be_bytes_cons, byte_val_of_Z, be_bytes_length, IH, mod_pow_succ.
Qed.

Lemma be_bytes_mod n a b : a mod 256 ^ Z.of_nat n = b mod 256 ^ Z.of_nat n → be_bytes n a = be_bytes n b.
Proof.
  induction n as [|n IH]; [done|]. rewrite !mod_pow_succ. intros Hm. cbn [be_bytes].
  assert (0 < 256 ^ Z.of_nat n) by lia.
  pose proof (Z.mod_pos_bound a (256 ^ Z.of_nat n) ltac:(lia)).
  pose proof (Z.mod_pos_bound b (256 ^ Z.of_nat n) ltac:(lia)).
  assert ((a / 256 ^ Z.of_nat n) mod 256 = (b / 256 ^ Z.of_nat n) mod 256) as Hd by nia.
  f_equal; [apply byte_val_inj; by rewrite !byte_val_of_Z|]. apply IH. nia.
Qed.

Lemma from_be_bytes_range l : 0 <= from_be_bytes l < 256 ^ Z.of_nat (length l).
Proof.
  induction l as [|b l IH]; [done|]. rewrite from_be_bytes_cons. cbn [length].
  rewrite Nat2Z.inj_succ, Z.pow_succ_r by lia. pose proof (byte_val_range b). nia.
Qed.

Lemma be_from_bytes l : be_bytes (length l) (from_be_bytes l) = l.
Proof.
  induction l as [|b l IH]; [done|]. cbn [length be_bytes]. pose proof (from_be_bytes_range l) as Hl.
  rewrite from_be_bytes_cons. rewrite Z.div_add_l, (Z.div_small (from_be_bytes l)), Z.add_0_r by lia.
  rewrite byte_of_Z_val. f_equal. etrans; [|exact IH]. apply be_bytes_mod.
  rewrite Z.add_comm. by rewrite Z_mod_plus_full.
Qed.

Lemma be_bytes_inj n a b :
  0 <= a < 256 ^ Z.of_nat n → 0 <= b < 256 ^ Z.of_nat n → be_bytes n a = be_bytes n b → a = b.
Proof.
  intros Ha Hb H. apply (f_equal from_be_bytes) in H. rewrite !from_to_be_bytes in H.
  by rewrite !Z.mod_small in H.
Qed.

Lemma bytes_leb_cons x y l m :
  bytes_leb (x :: l) (y :: m) =
  if byte_val x <? byte_val y then true else if byte_val x =? byte_val y then bytes_leb l m else false.
Proof.
  cbn [bytes_leb]. unfold byte_val.
  destruct (N.compare_spec (Byte.to_N x) (Byte.to_N y)); repeat case_match; try done; lia.
Qed.

(** The order of encodings is the order of the integers. *)
Lemma be_bytes_leb n a b s t :
  bytes_leb (be_bytes n a ++ s) (be_bytes n b ++ t) =
  if a mod 256 ^ Z.of_nat n <? b mod 256 ^ Z.of_nat n then true
  else if a mod 256 ^ Z.of_nat n =? b mod 256 ^ Z.of_nat n then bytes_leb s t else false.
Proof.
  induction n as [|n IH].
  - change (256 ^ Z.of_nat 0) with 1. by rewrite !Z.mod_1_r.
  - cbn [be_bytes app]. rewrite bytes_leb_cons, !byte_val_of_Z, IH, !mod_pow_succ.
    set (P := 256 ^ Z.of_nat n). assert (0 < P) by (subst P; lia).
    pose proof (Z.mod_pos_bound a P ltac:(lia)). pose proof (Z.mod_pos_bound b P ltac:(lia)).
    set (x := (a / P) mod 256). set (y := (b / P) mod 256).
    repeat case_match; try done; exfalso; nia.
Qed.

(** A string between a prefix and a string that has the prefix has it too. *)
Lemma bytes_leb_prefix p k k' :
  bytes_leb p k = true → bytes_leb k k' = true → p `prefix_of` k' → p `prefix_of` k.
Proof.
  revert k k'. induction p as [|x p IH]; intros k k' Hpk Hkk' Hp; [apply prefix_nil|].
  destruct Hp as [m ->]. destruct k as [|y k]; [done|]. cbn [app] in Hkk'.
  rewrite bytes_leb_cons in Hpk, Hkk'.
  destruct (byte_val x <? byte_val y) eqn:E1; [destruct (byte_val y <? byte_val x) eqn:E2; [lia|];
    destruct (byte_val y =? byte_val x) eqn:E3; [lia|done]|].
  destruct (byte_val x =? byte_val y) eqn:E4; [|done].
  destruct (byte_val y <? byte_val x) eqn:E2; [lia|].
  destruct (byte_val y =? byte_val x) eqn:E3; [|done].
  assert (y = x) as -> by (apply byte_val_inj; lia).
  apply prefix_cons. apply (IH k (p ++ m)); [done|done|apply prefix_app_r, reflexivity].
Qed.

Lemma bytes_leb_prefix_le p k : p `prefix_of` k → bytes_leb p k = true.
Proof.
  intros [m ->]. induction p as [|x p IH]; [by destruct m|].
  cbn [app]. rewrite bytes_leb_cons, Z.eqb_refl. by destruct (_ <? _).
Qed.
