(* ===== verification/Artifact.v ===== *)
(** * Artifacts, access grants and identifiers

    Models [indras-artifacts/src/artifact.rs], [access.rs] and [error.rs]:
    the data every other component works on, the access-control predicates,
    and the identifiers derived by hashing.  BLAKE3 is a parameter. *)

From S2P Require Import Prelude.

(** ** Identifiers *)

Abbreviation PlayerId := arr32.

Inductive ArtifactId : Type :=
| Blob (b : arr32)
| Doc (d : arr32).

#[global] Instance ArtifactId_eq_dec : EqDecision ArtifactId.
Proof. solve_decision. Defined.

#[global] Instance ArtifactId_countable : Countable ArtifactId.
Proof.
  refine (inj_countable'
    (λ i, match i with Blob b => inl b | Doc d => inr d end)
    (λ s, match s with inl b => Blob b | inr d => Doc d end) _).
  by intros [].
Defined.

Definition artifact_id_bytes (i : ArtifactId) : arr32 :=
  match i with Blob b => b | Doc d => d end.

Definition is_blob (i : ArtifactId) : bool :=
  match i with Blob _ => true | Doc _ => false end.

Definition is_doc (i : ArtifactId) : bool :=
  match i with Blob _ => false | Doc _ => true end.

(** ** Errors *)

Inductive VaultError : Type :=
| NotSteward
| ArtifactNotFound
| AlreadyPeered
| NotPeered
| PayloadNotLoaded
| ExchangeNotFullyAccepted
| ExchangeClosed
| StoreError (msg : string)
| NotActive
| ArtifactRecalled
| ArtifactTransferred
| AlreadyGranted
| CannotRevoke.

#[global] Instance VaultError_eq_dec : EqDecision VaultError.
Proof. solve_decision. Defined.

(** ** Access control *)

Inductive AccessMode : Type :=
| Public
| Revocable
| Permanent
| Timed (expires_at : Z)
| Transfer.

#[global] Instance AccessMode_eq_dec : EqDecision AccessMode.
Proof. solve_decision. Defined.

Definition allows_download (m : AccessMode) : bool :=
  match m with Permanent => true | _ => false end.

Definition allows_reshare (m : AccessMode) : bool :=
  match m with Permanent => true | _ => false end.

Definition is_expired (m : AccessMode) (now : Z) : bool :=
  match m with
  | Timed expires_at => expires_at <=? now
  | _ => false
  end.

Definition access_mode_label (m : AccessMode) : string :=
  match m with
  | Public => "public"
  | Revocable => "revocable"
  | Permanent => "permanent"
  | Timed _ => "timed"
  | Transfer => "transfer"
  end.

Definition access_mode_default : AccessMode := Revocable.

Record AccessGrant : Type := {
  grantee : PlayerId;
  mode : AccessMode;
  granted_at : Z;
  granted_by : PlayerId;
}.

#[global] Instance AccessGrant_eq_dec : EqDecision AccessGrant.
Proof. solve_decision. Defined.

Inductive ArtifactStatus : Type :=
| Active
| Recalled (recalled_at : Z)
| Transferred (to : PlayerId) (transferred_at : Z).

#[global] Instance ArtifactStatus_eq_dec : EqDecision ArtifactStatus.
Proof. solve_decision. Defined.

Definition artifact_status_default : ArtifactStatus := Active.

Definition is_active (s : ArtifactStatus) : bool :=
  match s with Active => true | _ => false end.

Definition is_public (m : AccessMode) : bool :=
  match m with Public => true | _ => false end.

(** A grant that gives [p] access at time [now]; the closure used by
    [can_view], [grant_access] and [accessible_by]. *)
Definition grants_to (p : PlayerId) (now : Z) (g : AccessGrant) : bool :=
  bool_decide (grantee g = p) && negb (is_expired (mode g) now).

Definition can_view (viewer : option PlayerId) (steward : PlayerId)
    (grants : list AccessGrant) (now : Z) : bool :=
  if any (λ g, is_public (mode g)) grants then true
  else match viewer with
       | None => false
       | Some viewer =>
           if bool_decide (viewer = steward) then true
           else any (grants_to viewer now) grants
       end.

Definition extract_contact_ids (grants : list AccessGrant) (now : Z) : list PlayerId :=
  dedup (sort_by arr32_leb
    (grantee <$> retain (λ g, negb (is_expired (mode g) now)) grants)).

Inductive ProvenanceType : Type :=
| CoStewardship
| ProvenanceTransfer.

#[global] Instance ProvenanceType_eq_dec : EqDecision ProvenanceType.
Proof. solve_decision. Defined.

Record ArtifactProvenance : Type := {
  original_steward : PlayerId;
  received_from : PlayerId;
  received_at : Z;
  received_via : ProvenanceType;
}.

#[global] Instance ArtifactProvenance_eq_dec : EqDecision ArtifactProvenance.
Proof. solve_decision. Defined.

(** ** Artifacts *)

Record StewardshipRecord : Type := {
  sr_from : PlayerId;
  sr_to : PlayerId;
  sr_timestamp : Z;
}.

#[global] Instance StewardshipRecord_eq_dec : EqDecision StewardshipRecord.
Proof. solve_decision. Defined.

Record BlessingRecord : Type := {
  br_from : PlayerId;
  br_quest_id : option ArtifactId;
  br_timestamp : Z;
  br_message : option string;
}.

#[global] Instance BlessingRecord_eq_dec : EqDecision BlessingRecord.
Proof. solve_decision. Defined.

Record ArtifactRef : Type := {
  ref_artifact_id : ArtifactId;
  position : Z;
  label : option string;
}.

#[global] Instance ArtifactRef_eq_dec : EqDecision ArtifactRef.
Proof. solve_decision. Defined.

(** [r.label.as_deref() == Some(l)]. *)
Definition labelled (l : string) (r : ArtifactRef) : bool := bool_decide (label r = Some l).

Record PayloadRef : Type := {
  payload_name : string;
  payload_size : Z;
  mime_type : option string;
}.

#[global] Instance PayloadRef_eq_dec : EqDecision PayloadRef.
Proof. solve_decision. Defined.

Record Artifact : Type := {
  artifact_id : ArtifactId;
  artifact_type : string;
  steward : PlayerId;
  grants : list AccessGrant;
  status : ArtifactStatus;
  provenance : option ArtifactProvenance;
  created_at : Z;
  payload : option PayloadRef;
  references : list ArtifactRef;
  metadata : gmap string (list byte);
  blessing_history : list BlessingRecord;
}.

#[global] Instance Artifact_eq_dec : EqDecision Artifact.
Proof. solve_decision. Defined.

Definition audience (a : Artifact) (now : Z) : list PlayerId :=
  grantee <$> retain (λ g, negb (is_expired (mode g) now)) (grants a).

Definition artifact_name (a : Artifact) : option string := payload_name <$> payload a.

Definition artifact_has_payload (a : Artifact) : bool :=
  match payload a with Some _ => true | None => false end.

Definition artifact_has_references (a : Artifact) : bool :=
  match references a with [] => false | _ => true end.

(** Field assignments [artifact.f = v]. *)
Definition set_steward (p : PlayerId) (a : Artifact) : Artifact :=
  {| artifact_id := artifact_id a; artifact_type := artifact_type a; steward := p;
     grants := grants a; status := status a; provenance := provenance a;
     created_at := created_at a; payload := payload a; references := references a;
     metadata := metadata a; blessing_history := blessing_history a |}.

Definition set_status (s : ArtifactStatus) (a : Artifact) : Artifact :=
  {| artifact_id := artifact_id a; artifact_type := artifact_type a; steward := steward a;
     grants := grants a; status := s; provenance := provenance a;
     created_at := created_at a; payload := payload a; references := references a;
     metadata := metadata a; blessing_history := blessing_history a |}.

Definition set_grants (gs : list AccessGrant) (a : Artifact) : Artifact :=
  {| artifact_id := artifact_id a; artifact_type := artifact_type a; steward := steward a;
     grants := gs; status := status a; provenance := provenance a;
     created_at := created_at a; payload := payload a; references := references a;
     metadata := metadata a; blessing_history := blessing_history a |}.

Definition set_references (rs : list ArtifactRef) (a : Artifact) : Artifact :=
  {| artifact_id := artifact_id a; artifact_type := artifact_type a; steward := steward a;
     grants := grants a; status := status a; provenance := provenance a;
     created_at := created_at a; payload := payload a; references := rs;
     metadata := metadata a; blessing_history := blessing_history a |}.

Definition set_metadata (m : gmap string (list byte)) (a : Artifact) : Artifact :=
  {| artifact_id := artifact_id a; artifact_type := artifact_type a; steward := steward a;
     grants := grants a; status := status a; provenance := provenance a;
     created_at := created_at a; payload := payload a; references := references a;
     metadata := m; blessing_history := blessing_history a |}.

Definition set_blessing_history (b : list BlessingRecord) (a : Artifact) : Artifact :=
  {| artifact_id := artifact_id a; artifact_type := artifact_type a; steward := steward a;
     grants := grants a; status := status a; provenance := provenance a;
     created_at := created_at a; payload := payload a; references := references a;
     metadata := metadata a; blessing_history := b |}.

(** [artifact.metadata.insert(key, value)]. *)
Definition insert_metadata (key : string) (value : list byte) (a : Artifact) : Artifact :=
  set_metadata (<[key := value]> (metadata a)) a.

(** ** Derived identifiers *)

Section Hashed.
Context `{Blake3}.

Definition leaf_id (payload : list byte) : ArtifactId := Blob (blake3 payload).

(** [generate_tree_id], on the 32 random bytes drawn. *)
Definition generate_tree_id (rnd : arr32) : ArtifactId := Doc rnd.

(** The string hashed by [dm_story_id]. *)
Definition dm_story_input (a b : PlayerId) : list byte :=
  let '(first, second) := ordered_pair a b in
  as_bytes ("dm-v1:" +:+ (hex32 first +:+ hex32 second)).

Definition dm_story_id (a b : PlayerId) : ArtifactId := Doc (blake3 (dm_story_input a b)).

(** The bytes fed to the hasher by [group_tree_id]. *)
Definition group_tree_input (creator : PlayerId) (members : list PlayerId) : list byte :=
  let set := dedup (sort_by arr32_leb (creator :: members)) in
  as_bytes "group-tree-v1:" ++ arr32_bytes creator ++ concat (arr32_bytes <$> set).

Definition group_tree_id (creator : PlayerId) (members : list PlayerId) : ArtifactId :=
  Doc (blake3 (group_tree_input creator members)).
End Hashed.

(** ** Access control: lemmas and properties *)

Lemma grants_to_true p now g :
  grants_to p now g = true ↔ grantee g = p ∧ is_expired (mode g) now = false.
Proof.
  unfold grants_to. rewrite andb_true_iff, bool_decide_eq_true, negb_true_iff. done.
Qed.

(** An expired grant stays expired. *)
Lemma is_expired_mono m t1 t2 : t1 <= t2 → is_expired m t1 = true → is_expired m t2 = true.
Proof. destruct m; simpl; try done. rewrite !Z.leb_le. lia. Qed.

(** A viewer sees an item exactly when it is public, or the viewer is known
    and is the steward or holds a grant that has not expired. *)
Theorem can_view_spec viewer owner gs now :
  can_view viewer owner gs now = true ↔
  (∃ g, g ∈ gs ∧ mode g = Public) ∨
  (∃ p, viewer = Some p ∧
    (p = owner ∨ ∃ g, g ∈ gs ∧ grantee g = p ∧ is_expired (mode g) now = false)).
Proof.
  unfold can_view. destruct (any _ gs) eqn:Hpub.
  - apply any_true in Hpub as (g & Hg & Hm). split; [|done]. intros _. left.
    exists g. by destruct (mode g).
  - rewrite any_false in Hpub.
    assert (¬ ∃ g, g ∈ gs ∧ mode g = Public) as Hno.
    { intros (g & Hg & Hm). apply Hpub in Hg. by rewrite Hm in Hg. }
    destruct viewer as [p|]; [|naive_solver].
    case_bool_decide as Hp; [naive_solver|].
    rewrite any_true. setoid_rewrite grants_to_true. naive_solver.
Qed.

(** The contact list handed to the relay is sorted, free of duplicates, and
    holds exactly the grantees with an unexpired grant. *)
Theorem extract_contact_ids_spec gs now :
  StronglySorted (λ a b, arr32_leb a b = true) (extract_contact_ids gs now) ∧
  NoDup (extract_contact_ids gs now) ∧
  ∀ p, p ∈ extract_contact_ids gs now ↔
       ∃ g, g ∈ gs ∧ grantee g = p ∧ is_expired (mode g) now = false.
Proof.
  unfold extract_contact_ids.
  set (l := grantee <$> _).
  destruct (dedup_sorted arr32_leb (sort_by arr32_leb l)) as [Hs Hn].
  { apply sort_by_sorted, _. }
  split_and!; [done..|]. intros p.
  rewrite elem_of_dedup, sort_by_perm. subst l.
  rewrite list_elem_of_fmap. setoid_rewrite elem_of_retain.
  setoid_rewrite negb_true_iff. naive_solver.
Qed.

(** ** Derived identifiers: properties *)

Lemma hex32_pair_inj a b c d :
  (hex32 a +:+ hex32 b = hex32 c +:+ hex32 d)%string → a = c ∧ b = d.
Proof.
  intros H. apply hex32_app_inj in H as [-> H]. split; [done|].
  unfold hex32 in H. apply arr32_bytes_inj.
  destruct (hex_app_inj (arr32_bytes b) (arr32_bytes d) "" "") as [? _]; [|by rewrite H|done].
  by rewrite !arr32_length.
Qed.

Lemma ordered_pair_inj a b c d :
  ordered_pair a b = ordered_pair c d → (a = c ∧ b = d) ∨ (a = d ∧ b = c).
Proof.
  unfold ordered_pair. destruct (arr32_leb a b), (arr32_leb c d); naive_solver.
Qed.

(** Both players derive the same direct-message story, and the hashed string
    determines the unordered pair of players: distinct pairs can only share a
    story through a BLAKE3 collision. *)
Theorem dm_story_id_pair `{Blake3} a b c d :
  dm_story_id a b = dm_story_id b a ∧
  (dm_story_input a b = dm_story_input c d ↔
   (a = c ∧ b = d) ∨ (a = d ∧ b = c)).
Proof.
  unfold dm_story_id, dm_story_input. split; [by rewrite ordered_pair_comm|].
  split.
  - intros Heq. apply ordered_pair_inj.
    destruct (ordered_pair a b) as [p q], (ordered_pair c d) as [r s].
    apply as_bytes_inj in Heq. injection Heq as Heq.
    by apply hex32_pair_inj in Heq as [-> ->].
  - intros [[-> ->]|[-> ->]]; [done|]. by rewrite ordered_pair_comm.
Qed.

Lemma concat_arr32_inj l1 l2 :
  concat (arr32_bytes <$> l1) = concat (arr32_bytes <$> l2) → l1 = l2.
Proof.
  revert l2. induction l1 as [|a l1 IH]; intros [|b l2]; simpl; [done| | |].
  - intros H. apply (f_equal length) in H. rewrite length_app, arr32_length in H. done.
  - intros H. apply (f_equal length) in H. rewrite length_app, arr32_length in H. done.
  - intros [Ha H]%app_inj_1; [|by rewrite !arr32_length].
    apply arr32_bytes_inj in Ha as ->. f_equal. by apply IH.
Qed.

(** The identity of a group is its creator and its set of members: order and
    repetitions do not matter, and the hashed bytes determine both. *)
Theorem group_tree_input_spec c1 c2 ms1 ms2 :
  group_tree_input c1 ms1 = group_tree_input c2 ms2 ↔
  c1 = c2 ∧ ∀ p, p ∈ c1 :: ms1 ↔ p ∈ c2 :: ms2.
Proof.
  unfold group_tree_input. split.
  - intros H. apply app_inv_head in H.
    apply app_inj_1 in H as [Hc H]; [|by rewrite !arr32_length].
    apply arr32_bytes_inj in Hc as ->. split; [done|].
    apply concat_arr32_inj in H. intros p.
    by rewrite <- (sort_by_perm arr32_leb (c2 :: ms1)), <- elem_of_dedup, H,
      elem_of_dedup, sort_by_perm.
  - intros [-> Heq]. do 4 f_equal.
    by apply sort_dedup_ext; [apply _|].
Qed.
