(* ===== verification/Crypto.v ===== *)
(** * Post-quantum identities and signatures

    Models the identity and signature types of
    [indras-crypto/src/pq_identity.rs].  The Dilithium3 implementation
    ([pqcrypto_dilithium]) is a third-party crate and a parameter; its
    documented correctness is the class [DilithiumLaws]. *)

From S2P Require Import Prelude.

(** What [pq_identity.rs] uses of the [dilithium3] module. *)
Class Dilithium : Type := {
  SecretKey : Type;
  PublicKey : Type;
  DetachedSignature : Type;
  signature_bytes : nat;
  secret_key_bytes : nat;
  public_key_bytes : nat;
  detached_sign : list byte → SecretKey → DetachedSignature;
  signature_as_bytes : DetachedSignature → list byte;
  signature_from_bytes : list byte → option DetachedSignature;
  verify_detached_signature : DetachedSignature → list byte → PublicKey → bool;
  secret_key_from_bytes : list byte → option SecretKey;
  secret_key_as_bytes : SecretKey → list byte;
  public_key_from_bytes : list byte → option PublicKey;
  public_key_as_bytes : PublicKey → list byte;
}.

Section PQIdentity.
Context `{Dilithium}.

Record PQIdentity : Type := {
  signing_key : SecretKey;
  verifying_key : PublicKey;
}.

Record PQPublicIdentity : Type := { public_verifying_key : PublicKey }.

Record PQSignature : Type := { pq_signature_bytes : list byte }.

Definition pq_identity_verifying_key (i : PQIdentity) : PQPublicIdentity :=
  {| public_verifying_key := verifying_key i |}.

(** [CryptoError::InvalidKey], the message left out. *)
Inductive CryptoError : Type := InvalidKey.

Definition pq_identity_from_keypair_bytes (sk_bytes pk_bytes : list byte)
    : Result PQIdentity CryptoError :=
  if negb (length sk_bytes =? secret_key_bytes)%nat then Err InvalidKey
  else if negb (length pk_bytes =? public_key_bytes)%nat then Err InvalidKey
  else
    let? signing_key := r_ok_or (secret_key_from_bytes sk_bytes) InvalidKey in
    let? verifying_key := r_ok_or (public_key_from_bytes pk_bytes) InvalidKey in
    Ok {| signing_key := signing_key; verifying_key := verifying_key |}.

Definition pq_identity_to_keypair_bytes (i : PQIdentity) : list byte * list byte :=
  (secret_key_as_bytes (signing_key i), public_key_as_bytes (verifying_key i)).

Definition pq_signature_dummy : PQSignature :=
  {| pq_signature_bytes := replicate signature_bytes x00 |}.

Definition pq_signature_from_bytes (bytes : list byte) : Result PQSignature CryptoError :=
  if negb (length bytes =? signature_bytes)%nat then Err InvalidKey
  else Ok {| pq_signature_bytes := bytes |}.

Definition pq_sign (i : PQIdentity) (message : list byte) : PQSignature :=
  {| pq_signature_bytes := signature_as_bytes (detached_sign message (signing_key i)) |}.

Definition pq_verify (i : PQPublicIdentity) (message : list byte) (s : PQSignature) : bool :=
  if negb (length (pq_signature_bytes s) =? signature_bytes)%nat then false
  else match signature_from_bytes (pq_signature_bytes s) with
       | Some sig => verify_detached_signature sig message (public_verifying_key i)
       | None => false
       end.

(** [PQIdentity::user_id]. *)
Definition user_id `{Blake3} (i : PQIdentity) : arr32 :=
  blake3 (public_key_as_bytes (verifying_key i)).
End PQIdentity.

(** The documented contract of a detached-signature scheme: keys come in
    pairs, signatures have the advertised size and parse back, and a
    signature made with a secret key verifies under its public key. *)
Class DilithiumLaws `{Dilithium} : Type := {
  is_keypair : SecretKey → PublicKey → Prop;
  signature_size_pos : (0 < signature_bytes)%nat;
  signature_size m sk : length (signature_as_bytes (detached_sign m sk)) = signature_bytes;
  signature_parses s : length (signature_as_bytes s) = signature_bytes →
    signature_from_bytes (signature_as_bytes s) = Some s;
  sign_verify m sk pk : is_keypair sk pk →
    verify_detached_signature (detached_sign m sk) m pk = true;
}.

Section Laws.
Context `{DilithiumLaws}.

Definition identity_ok (i : PQIdentity) : Prop := is_keypair (signing_key i) (verifying_key i).

Lemma pq_sign_length i m : length (pq_signature_bytes (pq_sign i m)) = signature_bytes.
Proof. apply signature_size. Qed.

Lemma pq_sign_verify i m :
  identity_ok i → pq_verify (pq_identity_verifying_key i) m (pq_sign i m) = true.
Proof.
  intros Hi. unfold pq_verify. rewrite pq_sign_length, Nat.eqb_refl. simpl.
  rewrite signature_parses by apply signature_size. by apply sign_verify.
Qed.

(** A signature survives the trip through its byte representation. *)
Lemma pq_signature_roundtrip i m :
  pq_signature_from_bytes (pq_signature_bytes (pq_sign i m)) = Ok (pq_sign i m).
Proof.
  unfold pq_signature_from_bytes. by rewrite pq_sign_length, Nat.eqb_refl.
Qed.
End Laws.

(** A concrete instance, so that statements relying on the laws can be
    evaluated: keys and signatures are single bytes, a signature is the key
    followed by nothing else. *)
Definition toy_dilithium : Dilithium := {|
  SecretKey := byte; PublicKey := byte; DetachedSignature := byte;
  signature_bytes := 1; secret_key_bytes := 1; public_key_bytes := 1;
  detached_sign := λ _ sk, sk;
  signature_as_bytes := λ s, [s];
  signature_from_bytes := λ l, match l with [s] => Some s | _ => None end;
  verify_detached_signature := λ s _ pk, bool_decide (s = pk);
  secret_key_from_bytes := λ l, match l with [s] => Some s | _ => None end;
  secret_key_as_bytes := λ s, [s];
  public_key_from_bytes := λ l, match l with [s] => Some s | _ => None end;
  public_key_as_bytes := λ s, [s];
|}.

Lemma toy_sign_verify (m : list byte) (sk pk : byte) :
  sk = pk → @verify_detached_signature toy_dilithium (@detached_sign toy_dilithium m sk) m pk = true.
Proof. intros ->. by apply bool_decide_eq_true. Qed.

Definition toy_dilithium_laws : @DilithiumLaws toy_dilithium :=
  {| is_keypair := λ (sk pk : @SecretKey toy_dilithium), (sk : byte) = pk;
     signature_size_pos := Nat.lt_0_1;
     signature_size := λ _ _, eq_refl;
     signature_parses := λ _ _, eq_refl;
     sign_verify := toy_sign_verify |}.
