(* ===== verification/Attention.v ===== *)
(** * The attention ledger

    Models [indras-artifacts/src/attention/mod.rs] (events and dwell times),
    [attention/validate.rs] (chain validation) and [attention/fraud.rs]
    (equivocation).  The wire format of the events ([postcard]) and BLAKE3
    are parameters. *)

From S2P Require Import Prelude Artifact Crypto.

(** ** Events *)

Record AttentionSwitchEvent : Type := {
  version : Z;
  author : PlayerId;
  seq : Z;
  wall_time_ms : Z;
  from : option ArtifactId;
  to : option ArtifactId;
  prev : arr32;
  sig : list byte;
}.

#[global] Instance AttentionSwitchEvent_eq_dec : EqDecision AttentionSwitchEvent.
Proof. solve_decision. Defined.

Definition attention_switch_event_new (author : PlayerId) (seq wall_time_ms : Z)
    (from to : option ArtifactId) (prev : arr32) : AttentionSwitchEvent :=
  {| version := 1; author := author; seq := seq; wall_time_ms := wall_time_ms;
     from := from; to := to; prev := prev; sig := [] |}.

Definition set_sig (s : list byte) (e : AttentionSwitchEvent) : AttentionSwitchEvent :=
  {| version := version e; author := author e; seq := seq e;
     wall_time_ms := wall_time_ms e; from := from e; to := to e; prev := prev e;
     sig := s |}.

Definition is_signed (e : AttentionSwitchEvent) : bool :=
  match sig e with [] => false | _ => true end.

Definition is_genesis (e : AttentionSwitchEvent) : bool :=
  (seq e =? 0) && bool_decide (prev e = zeros32) && bool_decide (from e = None).

(** The fields covered by a signature: all but [sig]. *)
Record SignableFields : Type := {
  sf_version : Z;
  sf_author : PlayerId;
  sf_seq : Z;
  sf_wall_time_ms : Z;
  sf_from : option ArtifactId;
  sf_to : option ArtifactId;
  sf_prev : arr32;
}.

Definition signable_fields (e : AttentionSwitchEvent) : SignableFields :=
  {| sf_version := version e; sf_author := author e; sf_seq := seq e;
     sf_wall_time_ms := wall_time_ms e; sf_from := from e; sf_to := to e;
     sf_prev := prev e |}.

(** [postcard::to_allocvec] at the types serialized here. *)
Class Postcard : Type := {
  postcard_event : AttentionSwitchEvent → list byte;
  postcard_signable : SignableFields → list byte;
  postcard_witness : arr32 → ArtifactId → list byte;
}.

Section Events.
Context `{Blake3, Postcard, Dilithium}.

Definition event_signable_bytes (e : AttentionSwitchEvent) : list byte :=
  postcard_signable (signable_fields e).

Definition event_hash (e : AttentionSwitchEvent) : arr32 := blake3 (postcard_event e).

Definition event_sign (identity : PQIdentity) (e : AttentionSwitchEvent) : AttentionSwitchEvent :=
  set_sig (pq_signature_bytes (pq_sign identity (event_signable_bytes e))) e.

Definition verify_signature (e : AttentionSwitchEvent) (public_key : PQPublicIdentity) : bool :=
  if negb (is_signed e) then false
  else match pq_signature_from_bytes (sig e) with
       | Err _ => false
       | Ok signature => pq_verify public_key (event_signable_bytes e) signature
       end.

(** ** Validation *)

Inductive ValidationError : Type :=
| InvalidSignature
| SequenceGap (expected got : Z)
| PrevHashMismatch (at_seq : Z)
| AttentionContinuity (at_seq : Z) (expected got : option ArtifactId)
| InvalidGenesis
| EmptyChain.

Record AuthorState : Type := {
  latest_seq : Z;
  latest_hash : arr32;
  current_attention : option ArtifactId;
}.

(** The signature test shared by [validate_event] and [validate_genesis]. *)
Definition signature_ok (public_key : option PQPublicIdentity) (e : AttentionSwitchEvent) : bool :=
  match public_key with
  | Some pk => verify_signature e pk
  | None => true
  end.

Definition validate_event (event : AttentionSwitchEvent) (author_state : AuthorState)
    (public_key : option PQPublicIdentity) : Result unit ValidationError :=
  if negb (signature_ok public_key event) then Err InvalidSignature
  else
    let expected_seq := wrap_u64 (latest_seq author_state + 1) in
    if negb (seq event =? expected_seq) then Err (SequenceGap expected_seq (seq event))
    else if negb (bool_decide (prev event = latest_hash author_state)) then
      Err (PrevHashMismatch (seq event))
    else if negb (bool_decide (from event = current_attention author_state)) then
      Err (AttentionContinuity (seq event) (current_attention author_state) (from event))
    else Ok tt.

Definition validate_genesis (event : AttentionSwitchEvent)
    (public_key : option PQPublicIdentity) : Result unit ValidationError :=
  if negb (signature_ok public_key event) then Err InvalidSignature
  else if negb (is_genesis event) then Err InvalidGenesis
  else Ok tt.

(** The state after an accepted event. *)
Definition advance_state (event : AttentionSwitchEvent) : AuthorState :=
  {| latest_seq := seq event; latest_hash := event_hash event;
     current_attention := to event |}.

(** The loop over [events[1..]]. *)
Fixpoint validate_rest (events : list AttentionSwitchEvent) (state : AuthorState)
    (public_key : option PQPublicIdentity) : Result AuthorState ValidationError :=
  match events with
  | [] => Ok state
  | event :: events =>
      let? _ := validate_event event state public_key in
      validate_rest events (advance_state event) public_key
  end.

Definition validate_chain (events : list AttentionSwitchEvent)
    (public_key : option PQPublicIdentity) : Result AuthorState ValidationError :=
  match events with
  | [] => Err EmptyChain
  | first :: rest =>
      let? _ := validate_genesis first public_key in
      validate_rest rest
        {| latest_seq := 0; latest_hash := event_hash first;
           current_attention := to first |} public_key
  end.

(** ** Equivocation *)

Record EquivocationProof : Type := {
  ep_author : PlayerId;
  ep_seq : Z;
  event_a : AttentionSwitchEvent;
  event_b : AttentionSwitchEvent;
}.

Definition equivocation_is_valid (p : EquivocationProof) : bool :=
  bool_decide (author (event_a p) = author (event_b p))
  && bool_decide (author (event_a p) = ep_author p)
  && (seq (event_a p) =? seq (event_b p))
  && (seq (event_a p) =? ep_seq p)
  && negb (bool_decide (event_hash (event_a p) = event_hash (event_b p))).

Definition equivocation_verify_signatures (p : EquivocationProof)
    (public_key : PQPublicIdentity) : bool :=
  verify_signature (event_a p) public_key && verify_signature (event_b p) public_key.

Fixpoint check_equivocation (new_event : AttentionSwitchEvent)
    (existing_events : list AttentionSwitchEvent) : option EquivocationProof :=
  match existing_events with
  | [] => None
  | existing :: rest =>
      if bool_decide (author existing = author new_event)
         && (seq existing =? seq new_event)
         && negb (bool_decide (event_hash existing = event_hash new_event))
      then Some {| ep_author := author new_event; ep_seq := seq new_event;
                   event_a := existing; event_b := new_event |}
      else check_equivocation new_event rest
  end.
End Events.

(** ** Dwell times *)

Record DwellWindow : Type := {
  dw_player : PlayerId;
  dw_artifact_id : ArtifactId;
  start_timestamp : Z;
  end_timestamp : Z;
  duration_ms : Z;
}.

#[global] Instance DwellWindow_eq_dec : EqDecision DwellWindow.
Proof. solve_decision. Defined.

(** One round of the [while] loop of [compute_dwell_time] per event: [i + 1 <
    events.len()] holds when the tail is not empty. *)
Fixpoint dwell_loop (events : list AttentionSwitchEvent) (a : ArtifactId) (now total : Z) : Z :=
  match events with
  | [] => total
  | e :: rest =>
      let total :=
        if bool_decide (to e = Some a) then
          match rest with
          | next :: _ =>
              if bool_decide (from next = Some a)
              then wrap_i64 (total + wrap_i64 (wall_time_ms next - wall_time_ms e))
              else total
          | [] => wrap_i64 (total + wrap_i64 (now - wall_time_ms e))
          end
        else total in
      dwell_loop rest a now total
  end.

Definition compute_dwell_time (events : list AttentionSwitchEvent) (a : ArtifactId) (now : Z) : Z :=
  dwell_loop events a now 0.

Fixpoint windows_loop (player : PlayerId) (a : ArtifactId)
    (events : list AttentionSwitchEvent) : list DwellWindow :=
  match events with
  | [] => []
  | e :: rest =>
      (if bool_decide (to e = Some a) then
         match rest with
         | next :: _ =>
             if bool_decide (from next = Some a) then
               [{| dw_player := player; dw_artifact_id := a;
                   start_timestamp := wall_time_ms e;
                   end_timestamp := wall_time_ms next;
                   duration_ms := wrap_i64 (wall_time_ms next - wall_time_ms e) |}]
             else []
         | [] => []
         end
       else [])
      ++ windows_loop player a rest
  end.

Definition extract_dwell_windows (player : PlayerId) (a : ArtifactId)
    (events : list AttentionSwitchEvent) : list DwellWindow :=
  windows_loop player a (retain (λ e, bool_decide (author e = player)) events).

(** ** Hash chains

    The declarative reading of a valid chain: a genesis event first, and each
    event follows its predecessor. *)

Section Chains.
Context `{Blake3, Postcard, Dilithium}.
Implicit Types (e p : AttentionSwitchEvent) (l : list AttentionSwitchEvent).

Definition follows p e : Prop :=
  seq e = wrap_u64 (seq p + 1) ∧ prev e = event_hash p ∧ from e = to p.

Definition linked l : Prop :=
  ∀ i p e, l !! i = Some p → l !! S i = Some e → follows p e.

Lemma linked_singleton e : linked [e].
Proof. intros i p e' _ Hi. by rewrite lookup_cons_ne_0 in Hi. Qed.

Lemma linked_cons p e l : linked (p :: e :: l) ↔ follows p e ∧ linked (e :: l).
Proof.
  split.
  - intros Hl. split; [by apply (Hl 0%nat)|]. intros i q f Hq Hf. by apply (Hl (S i)).
  - intros [Hf Hl] [|i] q f Hq Hf'; simpl in *; [by simplify_eq|]. by apply (Hl i).
Qed.

Lemma linked_snoc_inv l e : linked (l ++ [e]) → linked l.
Proof.
  intros Hl i p q Hp Hq. apply (Hl i); by apply lookup_app_l_Some.
Qed.

Lemma linked_snoc l p e : linked (l ++ [p]) → follows p e → linked (l ++ [p] ++ [e]).
Proof.
  induction l as [|x [|y l] IH]; simpl.
  - intros _ Hf. apply linked_cons. split; [done|apply linked_singleton].
  - intros [Hxp _]%linked_cons Hf. apply linked_cons. split; [done|].
    apply linked_cons. split; [done|apply linked_singleton].
  - intros [Hxy Hl]%linked_cons Hf. apply linked_cons. split; [done|]. by apply IH.
Qed.

Lemma linked_last l p e : linked (l ++ [p; e]) → follows p e.
Proof.
  intros Hl. apply (Hl (length l)).
  - by rewrite lookup_app_r, Nat.sub_diag.
  - rewrite lookup_app_r by lia. by rewrite Nat.sub_succ_l, Nat.sub_diag.
Qed.

Lemma is_genesis_true e :
  is_genesis e = true ↔ seq e = 0 ∧ prev e = zeros32 ∧ from e = None.
Proof.
  unfold is_genesis. rewrite !andb_true_iff, !bool_decide_eq_true, Z.eqb_eq. tauto.
Qed.

Lemma validate_genesis_ok e pk :
  validate_genesis e pk = Ok tt ↔ signature_ok pk e = true ∧ is_genesis e = true.
Proof.
  unfold validate_genesis. destruct (signature_ok pk e), (is_genesis e); naive_solver.
Qed.

Lemma validate_event_ok e p pk :
  validate_event e (advance_state p) pk = Ok tt ↔ signature_ok pk e = true ∧ follows p e.
Proof.
  unfold validate_event, follows, advance_state; simpl.
  destruct (signature_ok pk e); simpl; [|naive_solver].
  destruct (Z.eqb_spec (seq e) (wrap_u64 (seq p + 1))); simpl; [|naive_solver].
  case_bool_decide; simpl; [|naive_solver]. case_bool_decide; naive_solver.
Qed.

Lemma validate_rest_ok l p pk st :
  validate_rest l (advance_state p) pk = Ok st ↔
  Forall (λ e, signature_ok pk e = true) l ∧ linked (p :: l) ∧
  st = advance_state (default p (last l)).
Proof.
  revert p. induction l as [|e l IH]; intros p; simpl.
  - split; [intros [= <-]|intros (_ & _ & ->)]; [|done].
    split_and!; [constructor|apply linked_singleton|done].
  - unfold rbind. destruct (validate_event e (advance_state p) pk) as [[]|err] eqn:E.
    + apply validate_event_ok in E as [Hs Hf].
      rewrite IH, Forall_cons, linked_cons, last_cons.
      destruct (last l); simpl; naive_solver.
    + split; [done|]. rewrite Forall_cons, linked_cons. intros ([Hs _] & [Hf _] & _).
      rewrite (proj2 (validate_event_ok e p pk)) in E by done. done.
Qed.

Lemma genesis_state e :
  is_genesis e = true →
  {| latest_seq := 0; latest_hash := event_hash e; current_attention := to e |}
  = advance_state e.
Proof. intros (Hs & _ & _)%is_genesis_true. unfold advance_state. by rewrite Hs. Qed.

Lemma validate_chain_ok l pk st :
  validate_chain l pk = Ok st ↔
  ∃ first tip, head l = Some first ∧ last l = Some tip ∧ is_genesis first = true ∧
    Forall (λ e, signature_ok pk e = true) l ∧ linked l ∧ st = advance_state tip.
Proof.
  destruct l as [|e l]; simpl; [naive_solver|].
  unfold rbind. destruct (validate_genesis e pk) as [[]|err] eqn:E.
  - apply validate_genesis_ok in E as [Hs Hg].
    rewrite genesis_state, validate_rest_ok, last_cons by done.
    setoid_rewrite Forall_cons. destruct (last l); naive_solver.
  - split; [done|]. setoid_rewrite Forall_cons. intros (f & t & [= <-] & _ & Hg & [Hs _] & _).
    rewrite (proj2 (validate_genesis_ok e pk)) in E by done. done.
Qed.

(** Sequence numbers count the events from zero. *)
Lemma linked_seq l first i e :
  linked l → head l = Some first → is_genesis first = true →
  l !! i = Some e → seq e = wrap_u64 (Z.of_nat i).
Proof.
  intros Hl Hh (Hg & _ & _)%is_genesis_true. revert e.
  induction i as [|i IH]; intros e Hi.
  - destruct l; simplify_eq/=. by rewrite Hg.
  - destruct (lookup_lt_is_Some_2 l i) as [p Hp].
    { apply lookup_lt_Some in Hi. lia. }
    destruct (Hl i p e Hp Hi) as [-> _]. rewrite (IH p Hp), wrap_u64_add_l.
    f_equal. lia.
Qed.

(** Two chains of the same length whose last events have the same hash are
    equal, unless two different events at the same position collide. *)
Lemma linked_tip_unique l1 l2 t1 t2 :
  linked l1 → linked l2 → length l1 = length l2 →
  last l1 = Some t1 → last l2 = Some t2 → event_hash t1 = event_hash t2 →
  l1 = l2 ∨ ∃ i e1 e2, l1 !! i = Some e1 ∧ l2 !! i = Some e2 ∧ e1 ≠ e2 ∧
                        event_hash e1 = event_hash e2.
Proof.
  revert l2 t1 t2. induction l1 as [|x l1 IH] using rev_ind; intros l2 t1 t2 Hl1 Hl2 Hlen.
  { by rewrite last_nil. }
  destruct l2 as [|y l2 _] using rev_ind; [by rewrite last_nil|].
  rewrite !last_snoc. intros [= ->] [= ->] Hh.
  rewrite !length_app in Hlen; simpl in Hlen. assert (length l1 = length l2) as Hlen' by lia.
  destruct (decide (t1 = t2)) as [<-|Hne].
  - destruct l1 as [|p1 l1 _] using rev_ind; [left; by destruct l2|].
    destruct l2 as [|p2 l2 _] using rev_ind; [by rewrite length_app in Hlen'; simpl in *; lia|].
    assert (follows p1 t1) as (_ & Hp1 & _) by (apply (linked_last l1); by rewrite <- app_assoc in Hl1).
    assert (follows p2 t1) as (_ & Hp2 & _) by (apply (linked_last l2); by rewrite <- app_assoc in Hl2).
    apply linked_snoc_inv in Hl1, Hl2.
    destruct (IH (l2 ++ [p2]) p1 p2) as [->|(i & e1 & e2 & Hi1 & Hi2 & ?)];
      [done|done|done|by rewrite last_snoc|by rewrite last_snoc|congruence|by left|].
    right. exists i, e1, e2. split_and!; try tauto; by apply lookup_app_l_Some.
  - right. exists (length l1), t1, t2.
    rewrite list_lookup_middle, Hlen', list_lookup_middle by done. done.
Qed.
End Chains.

(** ** Properties of validation *)

Section ChainProperties.
Context `{Blake3, Postcard, Dilithium}.
Implicit Types (e p : AttentionSwitchEvent) (l : list AttentionSwitchEvent).

(** C1. [validate_chain] accepts exactly the chains that start with a genesis
    event, whose signatures verify (when a key is given), in which the event
    at index i carries sequence number i, the hash of its predecessor and, as
    origin, the artifact its predecessor moved to; it returns the state of
    the last event. *)
Theorem validate_chain_spec l pk st :
  validate_chain l pk = Ok st ↔
  (∀ i e, l !! i = Some e →
     signature_ok pk e = true ∧ seq e = wrap_u64 (Z.of_nat i) ∧
     match i with
     | O => prev e = zeros32 ∧ from e = None
     | S j => ∃ p, l !! j = Some p ∧ prev e = event_hash p ∧ from e = to p
     end) ∧
  ∃ tip, last l = Some tip ∧ st = advance_state tip.
Proof.
  rewrite validate_chain_ok. split.
  - intros (first & tip & Hh & Ht & Hg & Hsig & Hl & ->). split; [|eauto].
    intros i e Hi. rewrite Forall_lookup in Hsig.
    split; [by eapply Hsig|]. split; [by eapply linked_seq|].
    destruct i as [|j].
    + destruct l; simplify_eq/=. apply is_genesis_true in Hg. tauto.
    + destruct (lookup_lt_is_Some_2 l j) as [p Hp]; [apply lookup_lt_Some in Hi; lia|].
      destruct (Hl j p e Hp Hi) as (_ & ? & ?). eauto.
  - intros (Hall & tip & Ht & ->). destruct l as [|first l]; [done|].
    exists first, tip. split_and!; try done.
    + destruct (Hall 0%nat first) as (_ & ? & ? & ?); [done|].
      by apply is_genesis_true.
    + apply Forall_lookup. intros i e Hi. by apply (Hall i).
    + intros i p e Hp He. destruct (Hall i p Hp) as (_ & Hsp & _).
      destruct (Hall (S i) e He) as (_ & Hse & q & Hq & ? & ?).
      rewrite Hp in Hq. injection Hq as <-. split_and!; [|done..].
      rewrite Hse, Hsp, wrap_u64_add_l. f_equal. lia.
Qed.

(** Tamper evidence: two chains that validate to the same author state are
    the same chain, unless two different events at the same position have the
    same BLAKE3 hash. *)
Theorem validate_chain_tamper_evident l1 l2 pk st :
  Z.of_nat (length l1) <= 2 ^ 64 → Z.of_nat (length l2) <= 2 ^ 64 →
  validate_chain l1 pk = Ok st → validate_chain l2 pk = Ok st →
  l1 = l2 ∨
  ∃ i e1 e2, l1 !! i = Some e1 ∧ l2 !! i = Some e2 ∧ e1 ≠ e2 ∧
             event_hash e1 = event_hash e2.
Proof.
  intros Hb1 Hb2 (f1 & t1 & Hh1 & Ht1 & Hg1 & _ & Hl1 & ->)%validate_chain_ok
    (f2 & t2 & Hh2 & Ht2 & Hg2 & _ & Hl2 & Hst)%validate_chain_ok.
  injection Hst as Hseq Hhash _.
  eapply linked_tip_unique; try done.
  rewrite last_lookup in Ht1, Ht2.
  rewrite (linked_seq l1 f1 _ t1), (linked_seq l2 f2 _ t2) in Hseq by done.
  apply lookup_lt_Some in Ht1, Ht2.
  rewrite !wrap_u64_small in Hseq by (unfold in_u64; lia). lia.
Qed.

Lemma check_equivocation_Some e l proof :
  check_equivocation e l = Some proof →
  equivocation_is_valid proof = true ∧ event_b proof = e ∧ event_a proof ∈ l.
Proof.
  induction l as [|x l IH]; simpl; [done|].
  destruct (bool_decide (author x = author e) && _ && _) eqn:E.
  - intros [= <-]. apply andb_true_iff in E as [[Ha Hs]%andb_true_iff Hh].
    unfold equivocation_is_valid; simpl. apply bool_decide_eq_true in Ha.
    apply Z.eqb_eq in Hs. rewrite Ha, Hs, Z.eqb_refl, Hh, !bool_decide_true by done.
    split_and!; [done|done|left].
  - intros (? & ? & ?)%IH. auto using list_elem_of_further.
Qed.

Lemma check_equivocation_None e l :
  check_equivocation e l = None →
  ∀ e', e' ∈ l → author e' = author e → seq e' = seq e → event_hash e' = event_hash e.
Proof.
  induction l as [|x l IH]; simpl; [by intros _ e' ?%elem_of_nil|].
  destruct (bool_decide (author x = author e) && _ && _) eqn:E; [done|].
  intros Hn e' [->|He']%elem_of_cons Ha Hs; [|by apply IH].
  rewrite (bool_decide_true (author x = author e)), (proj2 (Z.eqb_eq _ _)) in E by done.
  simpl in E. apply negb_false_iff, bool_decide_eq_true in E. done.
Qed.

(** [check_equivocation] is sound and complete: the proof it returns is valid
    and names the new event and a recorded one, and it returns none exactly
    when every recorded event of that author and sequence number has the same
    hash. *)
Theorem check_equivocation_spec e l :
  match check_equivocation e l with
  | Some p => equivocation_is_valid p = true ∧ event_b p = e ∧ event_a p ∈ l
  | None => ∀ e', e' ∈ l → author e' = author e → seq e' = seq e →
                  event_hash e' = event_hash e
  end.
Proof.
  destruct (check_equivocation e l) eqn:E.
  - by apply check_equivocation_Some.
  - by apply check_equivocation_None.
Qed.

(** An author who publishes a single valid chain is never accused: no event
    of the chain equivocates with another. *)
Theorem valid_chain_no_equivocation l pk st e :
  Z.of_nat (length l) <= 2 ^ 64 → validate_chain l pk = Ok st → e ∈ l →
  check_equivocation e l = None.
Proof.
  intros Hb (f & t & Hh & Ht & Hg & _ & Hl & ->)%validate_chain_ok [i Hi]%list_elem_of_lookup.
  destruct (check_equivocation e l) as [p|] eqn:E; [|done].
  apply check_equivocation_Some in E as (Hv & Hb' & [j Hj]%list_elem_of_lookup).
  unfold equivocation_is_valid in Hv. rewrite !andb_true_iff in Hv.
  destruct Hv as ((([_ _] & Hs%Z.eqb_eq) & _) & Hne%negb_true_iff%bool_decide_eq_false).
  rewrite Hb' in Hs, Hne.
  rewrite (linked_seq l f j _ Hl Hh Hg Hj), (linked_seq l f i _ Hl Hh Hg Hi) in Hs.
  pose proof (lookup_lt_Some _ _ _ Hi). pose proof (lookup_lt_Some _ _ _ Hj).
  rewrite !wrap_u64_small in Hs by (unfold in_u64; lia).
  assert (j = i) as -> by lia. congruence.
Qed.

(** The chain validator does not look at the [author] field: for any two
    players there is a chain it accepts that mixes their events. *)
Theorem validate_chain_mixed_authors (a b : PlayerId) :
  ∃ e1 e2 st, author e1 = a ∧ author e2 = b ∧ validate_chain [e1; e2] None = Ok st.
Proof.
  set (e1 := attention_switch_event_new a 0 0 None None zeros32).
  set (e2 := attention_switch_event_new b 1 0 None None (event_hash e1)).
  exists e1, e2, (advance_state e2). split_and!; [done..|].
  apply validate_chain_ok. exists e1, e2. split_and!; try done.
  - by repeat constructor.
  - apply linked_cons. split; [done|apply linked_singleton].
Qed.
End ChainProperties.

(** Signing and verifying agree: an event signed by an identity verifies
    under that identity's public key, the hash link is unaffected by which
    fields were signed, and an unsigned event never verifies. *)
Theorem event_sign_verify `{Blake3, Postcard, DilithiumLaws} identity e :
  identity_ok identity →
  verify_signature (event_sign identity e) (pq_identity_verifying_key identity) = true ∧
  signable_fields (event_sign identity e) = signable_fields e ∧
  ∀ pk, sig e = [] → verify_signature e pk = false.
Proof.
  intros Hi. split_and!; [|done|].
  - assert (is_signed (event_sign identity e) = true) as Hs.
    { unfold is_signed, event_sign; simpl.
      pose proof (pq_sign_length identity (event_signable_bytes e)) as Hlen.
      pose proof signature_size_pos. simpl in Hlen.
      destruct (signature_as_bytes _); simpl in *; [lia|done]. }
    unfold verify_signature. rewrite Hs. simpl.
    change (pq_signature_from_bytes _) with
      (pq_signature_from_bytes (pq_signature_bytes (pq_sign identity (event_signable_bytes e)))).
    rewrite pq_signature_roundtrip. by apply pq_sign_verify.
  - intros pk Hsig. unfold verify_signature, is_signed. by rewrite Hsig.
Qed.

(** ** Conservation of attention

    Between two consecutive events of a valid chain the author attends to one
    artifact, or to none: [attended] is the time credited to an artifact by
    the declarative reading, [idle_time] the time spent between a farewell
    event and the next one. *)

Section Dwell.
Implicit Types (e : AttentionSwitchEvent) (l : list AttentionSwitchEvent).

Definition gap (e : AttentionSwitchEvent) (rest : list AttentionSwitchEvent) (now : Z) : Z :=
  match rest with
  | next :: _ => wall_time_ms next - wall_time_ms e
  | [] => now - wall_time_ms e
  end.

(** The time [z] between [e] and its successor, if [e] moved to [target]. *)
Definition credit (target : option ArtifactId) (e : AttentionSwitchEvent) (z : Z) : Z :=
  if bool_decide (to e = target) then z else 0.

Fixpoint attended (target : option ArtifactId) (l : list AttentionSwitchEvent) (now : Z) : Z :=
  match l with
  | [] => 0
  | e :: rest =>
      credit target e (gap e rest now) + attended target rest now
  end.

Definition idle_time (l : list AttentionSwitchEvent) (now : Z) : Z := attended None l now.

(** Attention continuity alone. *)
Definition continuous (l : list AttentionSwitchEvent) : Prop :=
  ∀ i p e, l !! i = Some p → l !! S i = Some e → from e = to p.

Lemma continuous_tail e l : continuous (e :: l) → continuous l.
Proof. intros Hc i p f Hp Hf. by apply (Hc (S i)). Qed.

Lemma dwell_loop_wrap l a now t :
  continuous l → in_i64 t → dwell_loop l a now t = wrap_i64 (t + attended (Some a) l now).
Proof.
  revert t. induction l as [|e l IH]; intros t Hc Ht.
  - simpl. by rewrite Z.add_0_r, wrap_i64_small.
  - cbn [dwell_loop attended]. unfold credit.
    pose proof (continuous_tail e l Hc) as Hct.
    case_bool_decide as Hto; [|by rewrite IH, Z.add_0_l].
    destruct l as [|next l]; cbn [gap].
    + simpl. by rewrite wrap_i64_add_r, Z.add_0_r.
    + assert (from next = Some a) as Hf by (rewrite <- Hto; by apply (Hc 0%nat)).
      rewrite bool_decide_true by done.
      rewrite IH by (done || apply wrap_i64_range).
      rewrite wrap_i64_add_l, <- Z.add_assoc, (Z.add_comm (wrap_i64 _)), Z.add_assoc,
        wrap_i64_add_r. f_equal. lia.
Qed.

Lemma compute_dwell_time_attended l a now :
  continuous l → compute_dwell_time l a now = wrap_i64 (attended (Some a) l now).
Proof. intros. unfold compute_dwell_time. by rewrite dwell_loop_wrap. Qed.

Lemma credit_sum e (A : list ArtifactId) z :
  NoDup A → (∀ a, to e = Some a → a ∈ A) →
  sumZ (λ a, credit (Some a) e z) A + credit None e z = z.
Proof.
  intros HA Hin. unfold credit. destruct (to e) as [a|] eqn:Hto.
  - rewrite bool_decide_false, Z.add_0_r by done.
    etrans; [|apply (sumZ_indicator a z A); auto].
    apply sumZ_ext. intros x _. by repeat case_bool_decide.
  - rewrite bool_decide_true by done.
    rewrite (sumZ_ext _ (λ _, 0)), sumZ_zero; [lia|].
    intros x _. by case_bool_decide.
Qed.

(** The gaps of a chain add up to the time since its first event, and each is
    credited to exactly one target. *)
Lemma attended_total l (A : list ArtifactId) now first :
  NoDup A → (∀ e a, e ∈ l → to e = Some a → a ∈ A) → head l = Some first →
  sumZ (λ a, attended (Some a) l now) A + idle_time l now = now - wall_time_ms first.
Proof.
  intros HA. revert first. induction l as [|e l IH]; intros first Hin Hh; [done|].
  injection Hh as <-. unfold idle_time in *. cbn [attended]. rewrite sumZ_add.
  assert (∀ a, to e = Some a → a ∈ A) as Hin' by (intros; eapply Hin; [left|done]).
  pose proof (credit_sum e A (gap e l now) HA Hin') as Hone.
  destruct l as [|next l].
  - cbn [attended gap] in *. rewrite sumZ_zero. lia.
  - specialize (IH next). cbn [gap] in *. unshelve epose proof (IH _ eq_refl) as IH'; [set_solver|]. lia.
Qed.

(** The closed windows and the still open one account for all the dwell time
    that [compute_dwell_time] reports. *)
Definition open_dwell (l : list AttentionSwitchEvent) (a : ArtifactId) (now : Z) : Z :=
  match last l with
  | Some e => if bool_decide (to e = Some a) then now - wall_time_ms e else 0
  | None => 0
  end.

Lemma windows_loop_dwell player a l now t :
  in_i64 t →
  dwell_loop l a now t
  = wrap_i64 (t + (sumZ duration_ms (windows_loop player a l) + open_dwell l a now)).
Proof.
  revert t. induction l as [|e l IH]; intros t Ht.
  - unfold open_dwell. simpl. by rewrite Z.add_0_r, wrap_i64_small.
  - cbn [dwell_loop windows_loop]. rewrite sumZ_app. destruct l as [|next l].
    + unfold open_dwell. simpl. case_bool_decide; simpl.
      * by rewrite wrap_i64_add_r.
      * by rewrite Z.add_0_r, wrap_i64_small.
    + assert (open_dwell (e :: next :: l) a now = open_dwell (next :: l) a now) as -> by done.
      destruct (bool_decide (to e = Some a)); [destruct (bool_decide (from next = Some a))|].
      * rewrite IH by apply wrap_i64_range. rewrite sumZ_cons. cbn [duration_ms].
        rewrite wrap_i64_add_l. f_equal. simpl. lia.
      * by rewrite IH.
      * by rewrite IH.
Qed.
End Dwell.

(** C10. The conservation law: on a valid chain, the dwell times of all artifacts
    together with the idle time add up to the time elapsed since the first
    event, in 64-bit arithmetic; what one artifact gains another loses. *)
Theorem attention_conserved `{Blake3, Postcard, Dilithium} l pk st A now first :
  validate_chain l pk = Ok st → head l = Some first →
  NoDup A → (∀ e a, e ∈ l → to e = Some a → a ∈ A) →
  wrap_i64 (sumZ (λ a, compute_dwell_time l a now) A + idle_time l now)
  = wrap_i64 (now - wall_time_ms first).
Proof.
  intros (f & t & Hh & _ & _ & _ & Hl & _)%validate_chain_ok Hfirst HA Hin.
  assert (continuous l) as Hc by (intros i p e Hp He; by apply (Hl i)).
  rewrite (sumZ_ext _ (λ a, wrap_i64 (attended (Some a) l now)))
    by (intros; by apply compute_dwell_time_attended).
  rewrite sumZ_wrap_i64. f_equal. by apply attended_total.
Qed.

(** Dwell windows and dwell time agree on any event list: the durations of
    the extracted windows plus the window still open are the dwell time of
    the player's events. *)
Theorem extract_dwell_windows_total player a l now :
  compute_dwell_time (retain (λ e, bool_decide (author e = player)) l) a now
  = wrap_i64 (sumZ duration_ms (extract_dwell_windows player a l)
              + open_dwell (retain (λ e, bool_decide (author e = player)) l) a now).
Proof.
  unfold compute_dwell_time, extract_dwell_windows.
  by rewrite (windows_loop_dwell player) by done.
Qed.
