(* ===== verification/Store.v ===== *)
(** * Storage traits and the in-memory stores

    Models [indras-artifacts/src/store.rs].  The traits [ArtifactStore],
    [PayloadStore] and [AttentionStore] are type classes of operations; what
    the clients of a store may rely on is a second class of laws, stated
    against a finite-map view of the store.  The in-memory stores are
    instances of both. *)

From S2P Require Import Prelude Artifact Crypto Attention.

(** ** Traits *)

Class ArtifactStore (S : Type) : Type := {
  put_artifact : Artifact → M S VaultError unit;
  get_artifact : ArtifactId → S → Result (option Artifact) VaultError;
  list_by_type : string → S → Result (list ArtifactId) VaultError;
  list_by_steward : PlayerId → S → Result (list ArtifactId) VaultError;
  update_steward : ArtifactId → PlayerId → M S VaultError unit;
  update_status : ArtifactId → ArtifactStatus → M S VaultError unit;
  add_grant : ArtifactId → AccessGrant → M S VaultError unit;
  remove_grant : ArtifactId → PlayerId → M S VaultError unit;
  list_by_status : ArtifactStatus → S → Result (list ArtifactId) VaultError;
  accessible_by : PlayerId → Z → S → Result (list ArtifactId) VaultError;
  delete_artifact : ArtifactId → M S VaultError unit;
  add_ref : ArtifactId → ArtifactRef → M S VaultError unit;
  remove_ref : ArtifactId → ArtifactId → M S VaultError unit;
  record_stewardship_transfer : ArtifactId → StewardshipRecord → M S VaultError unit;
  steward_history : ArtifactId → S → Result (list StewardshipRecord) VaultError;
}.

Class PayloadStore (S : Type) : Type := {
  store_payload : list byte → M S VaultError ArtifactId;
  get_payload : ArtifactId → S → Result (option (list byte)) VaultError;
  has_payload : ArtifactId → S → bool;
  delete_payload : ArtifactId → M S VaultError unit;
}.

Inductive IntegrityResult : Type :=
| Consistent
| Extended (new_events : Z)
| Diverged (first_mismatch_index : nat)
| NoPriorReplica.

Class AttentionStore (S : Type) : Type := {
  append_event : AttentionSwitchEvent → M S VaultError unit;
  events : PlayerId → S → Result (list AttentionSwitchEvent) VaultError;
  events_since : PlayerId → Z → S → Result (list AttentionSwitchEvent) VaultError;
  events_by_seq_range : PlayerId → Z → Z → S → Result (list AttentionSwitchEvent) VaultError;
  latest_tip : PlayerId → S → Result (option (Z * arr32)) VaultError;
  store_ingest_peer_log : PlayerId → list AttentionSwitchEvent → M S VaultError unit;
  check_integrity : PlayerId → list AttentionSwitchEvent → S → IntegrityResult;
}.

(** ** The in-memory artifact store *)

Record InMemoryArtifactStore : Type := {
  artifacts : gmap ArtifactId Artifact;
  stewardship_history : gmap ArtifactId (list StewardshipRecord);
}.

Definition in_memory_artifact_store_new : InMemoryArtifactStore :=
  {| artifacts := ∅; stewardship_history := ∅ |}.

Definition set_artifacts (m : gmap ArtifactId Artifact) (s : InMemoryArtifactStore)
    : InMemoryArtifactStore :=
  {| artifacts := m; stewardship_history := stewardship_history s |}.

(** [get_mut] with [ok_or(ArtifactNotFound)?] and an update in place. *)
Definition im_modify (id : ArtifactId) (f : Artifact → Artifact)
    : M InMemoryArtifactStore VaultError unit :=
  λ s, match artifacts s !! id with
       | None => (s, Err ArtifactNotFound)
       | Some a => (set_artifacts (<[id := f a]> (artifacts s)) s, Ok tt)
       end.

(** [values().filter(p).map(|a| a.id)]. *)
Definition im_list (p : Artifact → bool) (s : InMemoryArtifactStore) : list ArtifactId :=
  artifact_id <$> retain p (snd <$> map_to_list (artifacts s)).

Definition im_put_artifact (a : Artifact) : M InMemoryArtifactStore VaultError unit :=
  modify (λ s, set_artifacts (<[artifact_id a := a]> (artifacts s)) s).

Definition im_get_artifact (id : ArtifactId) (s : InMemoryArtifactStore)
    : Result (option Artifact) VaultError := Ok (artifacts s !! id).

Definition im_list_by_type (t : string) (s : InMemoryArtifactStore)
    : Result (list ArtifactId) VaultError :=
  Ok (im_list (λ a, bool_decide (artifact_type a = t)) s).

Definition im_list_by_steward (p : PlayerId) (s : InMemoryArtifactStore)
    : Result (list ArtifactId) VaultError :=
  Ok (im_list (λ a, bool_decide (steward a = p)) s).

Definition im_update_steward (id : ArtifactId) (new_steward : PlayerId) :=
  im_modify id (set_steward new_steward).

Definition im_update_status (id : ArtifactId) (st : ArtifactStatus) :=
  im_modify id (set_status st).

Definition im_add_grant (id : ArtifactId) (grant : AccessGrant) :=
  im_modify id (λ a, set_grants (grants a ++ [grant]) a).

Definition im_remove_grant (id : ArtifactId) (p : PlayerId) :=
  im_modify id (λ a, set_grants (retain (λ g, negb (bool_decide (grantee g = p))) (grants a)) a).

Definition im_list_by_status (st : ArtifactStatus) (s : InMemoryArtifactStore)
    : Result (list ArtifactId) VaultError :=
  Ok (im_list (λ a, bool_decide (status a = st)) s).

Definition im_accessible_by (p : PlayerId) (now : Z) (s : InMemoryArtifactStore)
    : Result (list ArtifactId) VaultError :=
  Ok (im_list (λ a, is_active (status a) && any (grants_to p now) (grants a)) s).

Definition im_delete_artifact (id : ArtifactId) : M InMemoryArtifactStore VaultError unit :=
  λ s, match artifacts s !! id with
       | None => (s, Err ArtifactNotFound)
       | Some _ => (set_artifacts (delete id (artifacts s)) s, Ok tt)
       end.

Definition im_add_ref (id : ArtifactId) (child_ref : ArtifactRef) :=
  im_modify id (λ a,
    set_references (sort_by (by_key position) (references a ++ [child_ref])) a).

Definition im_remove_ref (id : ArtifactId) (child_id : ArtifactId) :=
  im_modify id (λ a,
    set_references
      (retain (λ r, negb (bool_decide (ref_artifact_id r = child_id))) (references a)) a).

Definition im_record_stewardship_transfer (id : ArtifactId) (record : StewardshipRecord)
    : M InMemoryArtifactStore VaultError unit :=
  modify (λ s, {| artifacts := artifacts s;
                  stewardship_history :=
                    <[id := default [] (stewardship_history s !! id) ++ [record]]>
                      (stewardship_history s) |}).

Definition im_steward_history (id : ArtifactId) (s : InMemoryArtifactStore)
    : Result (list StewardshipRecord) VaultError :=
  Ok (default [] (stewardship_history s !! id)).

#[global] Instance in_memory_artifact_store : ArtifactStore InMemoryArtifactStore := {|
  put_artifact := im_put_artifact;
  get_artifact := im_get_artifact;
  list_by_type := im_list_by_type;
  list_by_steward := im_list_by_steward;
  update_steward := im_update_steward;
  update_status := im_update_status;
  add_grant := im_add_grant;
  remove_grant := im_remove_grant;
  list_by_status := im_list_by_status;
  accessible_by := im_accessible_by;
  delete_artifact := im_delete_artifact;
  add_ref := im_add_ref;
  remove_ref := im_remove_ref;
  record_stewardship_transfer := im_record_stewardship_transfer;
  steward_history := im_steward_history;
|}.

(** ** The in-memory payload store *)

Record InMemoryPayloadStore : Type := { payloads : gmap ArtifactId (list byte) }.

Definition in_memory_payload_store_new : InMemoryPayloadStore := {| payloads := ∅ |}.

Definition im_store_payload `{Blake3} (bytes : list byte)
    : M InMemoryPayloadStore VaultError ArtifactId :=
  λ s, ({| payloads := <[leaf_id bytes := bytes]> (payloads s) |}, Ok (leaf_id bytes)).

Definition im_get_payload (id : ArtifactId) (s : InMemoryPayloadStore)
    : Result (option (list byte)) VaultError := Ok (payloads s !! id).

Definition im_has_payload (id : ArtifactId) (s : InMemoryPayloadStore) : bool :=
  bool_decide (is_Some (payloads s !! id)).

Definition im_delete_payload (id : ArtifactId) : M InMemoryPayloadStore VaultError unit :=
  λ s, match payloads s !! id with
       | None => (s, Err ArtifactNotFound)
       | Some _ => ({| payloads := delete id (payloads s) |}, Ok tt)
       end.

#[global] Instance in_memory_payload_store `{Blake3} : PayloadStore InMemoryPayloadStore := {|
  store_payload := im_store_payload;
  get_payload := im_get_payload;
  has_payload := im_has_payload;
  delete_payload := im_delete_payload;
|}.

(** ** The in-memory attention store *)

Record InMemoryAttentionStore : Type := {
  logs : gmap PlayerId (list AttentionSwitchEvent);
}.

Definition in_memory_attention_store_new : InMemoryAttentionStore := {| logs := ∅ |}.

Definition im_append_event (event : AttentionSwitchEvent)
    : M InMemoryAttentionStore VaultError unit :=
  modify (λ s, {| logs := <[author event := default [] (logs s !! author event) ++ [event]]>
                            (logs s) |}).

Definition im_events (p : PlayerId) (s : InMemoryAttentionStore)
    : Result (list AttentionSwitchEvent) VaultError :=
  Ok (default [] (logs s !! p)).

Definition im_events_since (p : PlayerId) (since : Z) (s : InMemoryAttentionStore)
    : Result (list AttentionSwitchEvent) VaultError :=
  Ok (default [] (retain (λ e, since <=? wall_time_ms e) <$> logs s !! p)).

Definition im_events_by_seq_range (p : PlayerId) (from_seq to_seq : Z)
    (s : InMemoryAttentionStore) : Result (list AttentionSwitchEvent) VaultError :=
  Ok (default [] (retain (λ e, (from_seq <=? seq e) && (seq e <=? to_seq)) <$> logs s !! p)).

Definition im_latest_tip `{Blake3, Postcard} (p : PlayerId) (s : InMemoryAttentionStore)
    : Result (option (Z * arr32)) VaultError :=
  Ok (l ← logs s !! p; (λ e, (seq e, event_hash e)) <$> last l).

Definition im_ingest_peer_log (peer : PlayerId) (l : list AttentionSwitchEvent)
    : M InMemoryAttentionStore VaultError unit :=
  modify (λ s, {| logs := <[peer := l]> (logs s) |}).

(** The index of the first of our events that theirs does not match. *)
Fixpoint first_mismatch (ours theirs : list AttentionSwitchEvent) (i : nat) : option nat :=
  match ours with
  | [] => None
  | our_event :: ours =>
      match theirs !! i with
      | None => Some i
      | Some their_event =>
          if bool_decide (our_event = their_event) then first_mismatch ours theirs (S i)
          else Some i
      end
  end.

Definition im_check_integrity (peer : PlayerId) (theirs : list AttentionSwitchEvent)
    (s : InMemoryAttentionStore) : IntegrityResult :=
  match logs s !! peer with
  | None => NoPriorReplica
  | Some ours =>
      match first_mismatch ours theirs 0 with
      | Some i => Diverged i
      | None =>
          let new_count := usize_sub (Z.of_nat (length theirs)) (Z.of_nat (length ours)) in
          if new_count =? 0 then Consistent else Extended new_count
      end
  end.

#[global] Instance in_memory_attention_store `{Blake3, Postcard}
    : AttentionStore InMemoryAttentionStore := {|
  append_event := im_append_event;
  events := im_events;
  events_since := im_events_since;
  events_by_seq_range := im_events_by_seq_range;
  latest_tip := im_latest_tip;
  store_ingest_peer_log := im_ingest_peer_log;
  check_integrity := im_check_integrity;
|}.

(** ** What clients rely on

    A store is lawful when its operations are simulated, through a view, by
    operations on finite maps.  An artifact store's view is the in-memory
    store itself. *)

Definition simulated {S V E A} (view : S → V) (m : M S E A) (m' : M V E A) : Prop :=
  ∀ s, view (m s).1 = (m' (view s)).1 ∧ (m s).2 = (m' (view s)).2.

Class ArtifactStoreLaws (S : Type) `{ArtifactStore S} : Type := {
  store_view : S → InMemoryArtifactStore;
  put_artifact_law a : simulated store_view (put_artifact a) (im_put_artifact a);
  get_artifact_law id s : get_artifact id s = Ok (artifacts (store_view s) !! id);
  update_steward_law id p : simulated store_view (update_steward id p) (im_update_steward id p);
  update_status_law id st : simulated store_view (update_status id st) (im_update_status id st);
  add_grant_law id g : simulated store_view (add_grant id g) (im_add_grant id g);
  remove_grant_law id p : simulated store_view (remove_grant id p) (im_remove_grant id p);
  delete_artifact_law id : simulated store_view (delete_artifact id) (im_delete_artifact id);
  add_ref_law id r : simulated store_view (add_ref id r) (im_add_ref id r);
  remove_ref_law id c : simulated store_view (remove_ref id c) (im_remove_ref id c);
  record_stewardship_transfer_law id r :
    simulated store_view (record_stewardship_transfer id r) (im_record_stewardship_transfer id r);
  steward_history_law id s :
    steward_history id s = Ok (default [] (stewardship_history (store_view s) !! id));
  list_by_type_law t s : ∃ l, list_by_type t s = Ok l ∧
    l ≡ₚ im_list (λ a, bool_decide (artifact_type a = t)) (store_view s);
  list_by_steward_law p s : ∃ l, list_by_steward p s = Ok l ∧
    l ≡ₚ im_list (λ a, bool_decide (steward a = p)) (store_view s);
  list_by_status_law st s : ∃ l, list_by_status st s = Ok l ∧
    l ≡ₚ im_list (λ a, bool_decide (status a = st)) (store_view s);
  accessible_by_law p now s : ∃ l, accessible_by p now s = Ok l ∧
    l ≡ₚ im_list (λ a, is_active (status a) && any (grants_to p now) (grants a)) (store_view s);
}.

#[global] Instance in_memory_artifact_store_laws : ArtifactStoreLaws InMemoryArtifactStore.
Proof. refine {| store_view := λ s, s |}; by (eauto || (intros; split)). Defined.

(** A payload store is content-addressed: what is stored is found under the
    hash of its content. *)
Class PayloadStoreLaws (S : Type) `{Blake3, PayloadStore S} : Type := {
  payload_view : S → gmap ArtifactId (list byte);
  store_payload_law bytes s : ∃ s', store_payload bytes s = (s', Ok (leaf_id bytes)) ∧
    payload_view s' = <[leaf_id bytes := bytes]> (payload_view s);
  get_payload_law id s : get_payload id s = Ok (payload_view s !! id);
  has_payload_law id s : has_payload id s = bool_decide (is_Some (payload_view s !! id));
}.

#[global] Instance in_memory_payload_store_laws `{Blake3} : PayloadStoreLaws InMemoryPayloadStore.
Proof. refine {| payload_view := payloads |}; by eauto. Defined.

(** An attention store either appends the event to its author's log or
    reports an error and changes no log. *)
Class AttentionStoreLaws (S : Type) `{AttentionStore S} : Type := {
  log_view : S → gmap PlayerId (list AttentionSwitchEvent);
  append_event_ok e s s' u : append_event e s = (s', Ok u) →
    log_view s' = <[author e := default [] (log_view s !! author e) ++ [e]]> (log_view s);
  append_event_err e s s' err : append_event e s = (s', Err err) → log_view s' = log_view s;
  events_law p s : events p s = Ok (default [] (log_view s !! p));
}.

#[global] Instance in_memory_attention_store_laws `{Blake3, Postcard}
    : AttentionStoreLaws InMemoryAttentionStore.
Proof.
  refine {| log_view := logs |}; try done.
  - intros e s s' u Happ. by injection Happ as <-.
Defined.

(** A lawful store whose next [failures] appends report an error. *)
Record FlakyAttentionStore : Type := { flaky_logs : InMemoryAttentionStore; failures : nat }.

Definition flaky_append_event (e : AttentionSwitchEvent) : M FlakyAttentionStore VaultError unit :=
  λ s, match failures s with
       | O => ({| flaky_logs := (im_append_event e (flaky_logs s)).1; failures := 0 |}, Ok tt)
       | S n => ({| flaky_logs := flaky_logs s; failures := n |}, Err (StoreError "append"))
       end.

#[global] Instance flaky_attention_store `{Blake3, Postcard} : AttentionStore FlakyAttentionStore := {|
  append_event := flaky_append_event;
  events := λ p s, im_events p (flaky_logs s);
  events_since := λ p t s, im_events_since p t (flaky_logs s);
  events_by_seq_range := λ p a b s, im_events_by_seq_range p a b (flaky_logs s);
  latest_tip := λ p s, im_latest_tip p (flaky_logs s);
  store_ingest_peer_log := λ p l s,
    ({| flaky_logs := (im_ingest_peer_log p l (flaky_logs s)).1; failures := failures s |}, Ok tt);
  check_integrity := λ p l s, im_check_integrity p l (flaky_logs s);
|}.

#[global] Instance flaky_attention_store_laws `{Blake3, Postcard}
    : AttentionStoreLaws FlakyAttentionStore.
Proof.
  refine {| log_view := λ s, logs (flaky_logs s) |}; try done.
  - intros e [ls []] s' u Happ; by inversion Happ.
  - intros e [ls []] s' u Happ; by inversion Happ.
Defined.

(** ** Properties *)

Lemma first_mismatch_Some ours theirs i j :
  first_mismatch ours theirs i = Some j ↔
  (i <= j)%nat ∧ ∃ o, ours !! (j - i)%nat = Some o ∧ theirs !! j ≠ Some o ∧
  ∀ k, (i <= k < j)%nat → theirs !! k = ours !! (k - i)%nat.
Proof.
  revert i. induction ours as [|o ours IH]; intros i; simpl.
  { split; [done|]. intros (_ & o & Ho & _). by rewrite lookup_nil in Ho. }
  assert (∀ k, (S i <= k)%nat → (o :: ours) !! (k - i)%nat = ours !! (k - S i)%nat) as Hshift.
  { intros k Hk. replace (k - i)%nat with (S (k - S i)) by lia. done. }
  destruct (theirs !! i) as [t|] eqn:Ht; [case_bool_decide as E|].
  - subst t. rewrite IH. split.
    + intros (Hij & o' & Ho' & Hne & Hk). split; [lia|]. exists o'.
      rewrite Hshift by lia. split_and!; [done..|]. intros k Hki.
      destruct (decide (k = i)) as [->|]; [by rewrite Nat.sub_diag|].
      rewrite Hshift by lia. apply Hk. lia.
    + intros (Hij & o' & Ho' & Hne & Hk). assert (i ≠ j) as Hne'.
      { intros ->. rewrite Nat.sub_diag in Ho'. simplify_eq/=. }
      split; [lia|]. exists o'. rewrite <- Hshift by lia. split_and!; [done..|].
      intros k Hki. rewrite <- Hshift by lia. apply Hk. lia.
  - split.
    + intros [= <-]. split; [lia|]. exists o. rewrite Nat.sub_diag.
      split_and!; [done|congruence|]. intros; lia.
    + intros (Hij & o' & Ho' & Hne & Hk). f_equal.
      destruct (decide (i = j)); [done|]. exfalso. specialize (Hk i ltac:(lia)).
      rewrite Nat.sub_diag, Ht in Hk. simpl in Hk. congruence.
  - split.
    + intros [= <-]. split; [lia|]. exists o. rewrite Nat.sub_diag.
      split_and!; [done|congruence|]. intros; lia.
    + intros (Hij & o' & Ho' & Hne & Hk). f_equal.
      destruct (decide (i = j)); [done|]. exfalso. specialize (Hk i ltac:(lia)).
      rewrite Nat.sub_diag, Ht in Hk. done.
Qed.

Lemma first_mismatch_None ours theirs i :
  first_mismatch ours theirs i = None → ours `prefix_of` drop i theirs.
Proof.
  revert i. induction ours as [|o ours IH]; intros i; simpl; [intros; apply prefix_nil|].
  destruct (theirs !! i) as [t|] eqn:Ht; [|done]. case_bool_decide as E; [|done].
  subst t. intros Hm%IH. rewrite (drop_S theirs o i) by done. by apply prefix_cons.
Qed.

(** [check_integrity] classifies a peer's claimed log against our replica:
    consistent when equal, extended by n when ours is a proper prefix and n
    events follow, diverged at the first index where theirs is missing or
    different, and without a replica it says so. *)
Theorem check_integrity_spec p theirs s :
  Z.of_nat (length theirs) < 2 ^ 64 →
  match im_check_integrity p theirs s with
  | NoPriorReplica => logs s !! p = None
  | Consistent => logs s !! p = Some theirs
  | Extended n => ∃ ours ext, logs s !! p = Some ours ∧ theirs = ours ++ ext ∧
                              ext ≠ [] ∧ n = Z.of_nat (length ext)
  | Diverged i => ∃ ours o, logs s !! p = Some ours ∧ ours !! i = Some o ∧
                            theirs !! i ≠ Some o ∧ take i theirs = take i ours
  end.
Proof.
  intros Hlen. unfold im_check_integrity. destruct (logs s !! p) as [ours|]; [|done].
  destruct (first_mismatch ours theirs 0) as [i|] eqn:Hm.
  - apply first_mismatch_Some in Hm as (_ & o & Ho & Hne & Hk).
    exists ours, o. rewrite Nat.sub_0_r in Ho. split_and!; [done..|].
    apply list_eq. intros k. destruct (decide (k < i)%nat).
    + rewrite !lookup_take_lt by done. rewrite Hk, Nat.sub_0_r by lia. done.
    + by rewrite !lookup_take_ge by lia.
  - apply first_mismatch_None in Hm as [ext Hext]. rewrite drop_0 in Hext. subst theirs.
    rewrite length_app in *. rewrite usize_sub_ge by lia.
    destruct (Z.eqb_spec (Z.of_nat (length ours + length ext) - Z.of_nat (length ours)) 0).
    + assert (ext = []) as -> by (apply nil_length_inv; lia). by rewrite app_nil_r.
    + exists ours, ext. split_and!; [done..| |lia]. intros ->. simpl in *. lia.
Qed.
