(* ===== verification/Peering.v ===== *)
(** * Mutual peers

    Models [indras-artifacts/src/peering.rs]. *)

From S2P Require Import Prelude Artifact.

Record PeerEntry : Type := {
  peer_id : PlayerId;
  since : Z;
  display_name : option string;
}.

#[global] Instance PeerEntry_eq_dec : EqDecision PeerEntry.
Proof. solve_decision. Defined.

Record PeerRegistry : Type := {
  registry_player : PlayerId;
  registry_peers : list PeerEntry;
}.

Definition peer_registry_new (player : PlayerId) : PeerRegistry :=
  {| registry_player := player; registry_peers := [] |}.

Definition set_registry_peers (l : list PeerEntry) (r : PeerRegistry) : PeerRegistry :=
  {| registry_player := registry_player r; registry_peers := l |}.

Definition is_peer (p : PlayerId) (r : PeerRegistry) : bool :=
  any (λ e, bool_decide (peer_id e = p)) (registry_peers r).

Definition add_peer (p : PlayerId) (name : option string) (now : Z)
    : M PeerRegistry VaultError unit :=
  λ r, if is_peer p r then (r, Err AlreadyPeered)
       else (set_registry_peers
               (registry_peers r ++ [{| peer_id := p; since := now; display_name := name |}]) r,
             Ok tt).

Definition remove_peer (p : PlayerId) : M PeerRegistry VaultError unit :=
  λ r, let before := length (registry_peers r) in
       let kept := retain (λ e, negb (bool_decide (peer_id e = p))) (registry_peers r) in
       let r' := set_registry_peers kept r in
       if (length kept =? before)%nat then (r', Err NotPeered) else (r', Ok tt).

Definition peer_count (r : PeerRegistry) : nat := length (registry_peers r).

Record MutualPeering : Type := {
  peer_a : PlayerId;
  peer_b : PlayerId;
  mutual_since : Z;
}.

Definition mutual_peering_new (a b : PlayerId) (since : Z) : MutualPeering :=
  if arr32_leb a b
  then {| peer_a := a; peer_b := b; mutual_since := since |}
  else {| peer_a := b; peer_b := a; mutual_since := since |}.

Definition mutual_peering_contains (m : MutualPeering) (p : PlayerId) : bool :=
  bool_decide (peer_a m = p) || bool_decide (peer_b m = p).

Definition mutual_peering_other (m : MutualPeering) (p : PlayerId) : option PlayerId :=
  if bool_decide (peer_a m = p) then Some (peer_b m)
  else if bool_decide (peer_b m = p) then Some (peer_a m)
  else None.

(** ** Properties *)

(** No player is listed twice. *)
Definition registry_wf (r : PeerRegistry) : Prop := NoDup (peer_id <$> registry_peers r).

Lemma is_peer_true p r : is_peer p r = true ↔ p ∈ peer_id <$> registry_peers r.
Proof.
  unfold is_peer. rewrite any_true, list_elem_of_fmap.
  setoid_rewrite bool_decide_eq_true. naive_solver.
Qed.

Lemma is_peer_false p r : is_peer p r = false ↔ p ∉ peer_id <$> registry_peers r.
Proof. rewrite <- is_peer_true. destruct (is_peer p r); naive_solver. Qed.

Lemma fmap_retain_peers p l :
  peer_id <$> retain (λ e, negb (bool_decide (peer_id e = p))) l
  = retain (λ q, negb (bool_decide (q = p))) (peer_id <$> l).
Proof.
  induction l as [|e l IH]; csimpl; [done|].
  destruct (negb (bool_decide (peer_id e = p))); csimpl; by rewrite IH.
Qed.

Lemma registry_wf_new p : registry_wf (peer_registry_new p).
Proof. constructor. Qed.

Lemma registry_wf_add p name now r : registry_wf r → registry_wf (add_peer p name now r).1.
Proof.
  unfold registry_wf, add_peer. intros Hwf. destruct (is_peer p r) eqn:E; simpl; [done|].
  apply is_peer_false in E. rewrite fmap_app. apply NoDup_app. split_and!; [done| |].
  - simpl. intros q Hq ->%list_elem_of_singleton. done.
  - apply NoDup_singleton.
Qed.

Lemma registry_wf_remove p r : registry_wf r → registry_wf (remove_peer p r).1.
Proof.
  unfold registry_wf, remove_peer. intros Hwf.
  assert (NoDup (peer_id <$> retain (λ e, negb (bool_decide (peer_id e = p))) (registry_peers r))).
  { rewrite fmap_retain_peers. by apply NoDup_retain. }
  by destruct (_ =? _)%nat.
Qed.

Lemma remove_peer_err p r r' e : remove_peer p r = (r', Err e) → r' = r ∧ e = NotPeered ∧ is_peer p r = false.
Proof.
  unfold remove_peer. destruct (_ =? _)%nat eqn:E; [|done]. intros [= <- <-].
  apply Nat.eqb_eq, retain_length_eq in E. rewrite E. split_and!; [by destruct r|done|].
  unfold is_peer. apply any_false. intros x Hx. rewrite <- E in Hx.
  apply elem_of_retain in Hx as [_ Hx]. by apply negb_true_iff.
Qed.

(** Adding and removing peers does what it says on every branch: a success
    changes the membership of exactly that player, a failure changes nothing
    and reports the membership that caused it; no player is ever listed
    twice. *)
Theorem peer_registry_ops p name now r :
  registry_wf r →
  (let '(r', res) := add_peer p name now r in
   registry_wf r' ∧
   match res with
   | Ok _ => is_peer p r = false ∧ ∀ q, is_peer q r' = true ↔ q = p ∨ is_peer q r = true
   | Err e => e = AlreadyPeered ∧ is_peer p r = true ∧ r' = r
   end) ∧
  (let '(r', res) := remove_peer p r in
   registry_wf r' ∧
   match res with
   | Ok _ => is_peer p r = true ∧ ∀ q, is_peer q r' = true ↔ q ≠ p ∧ is_peer q r = true
   | Err e => e = NotPeered ∧ is_peer p r = false ∧ r' = r
   end).
Proof.
  intros Hwf. split.
  - pose proof (registry_wf_add p name now r Hwf) as Hwf'.
    unfold add_peer in *. destruct (is_peer p r) eqn:E; [done|]. split_and!; [done..|].
    intros q. rewrite !is_peer_true. simpl. rewrite fmap_app, elem_of_app. simpl.
    rewrite list_elem_of_singleton. tauto.
  - pose proof (registry_wf_remove p r Hwf) as Hwf'.
    destruct (remove_peer p r) as [r' [u|e]] eqn:E.
    + split; [done|]. unfold remove_peer in E. destruct (_ =? _)%nat eqn:Hl; [done|].
      injection E as <- _. apply Nat.eqb_neq in Hl. split.
      * destruct (is_peer p r) eqn:Hp; [done|]. exfalso. apply Hl. f_equal. apply retain_all.
        intros x Hx. unfold is_peer in Hp. rewrite any_false in Hp.
        by apply negb_true_iff, Hp.
      * intros q. rewrite !is_peer_true. simpl.
        rewrite fmap_retain_peers, elem_of_retain, negb_true_iff, bool_decide_eq_false. tauto.
    + split; [done|]. apply remove_peer_err in E. naive_solver.
Qed.

(** A mutual peering is the same whichever side records it, and [other] maps
    each side to the other. *)
Theorem mutual_peering_symmetric a b t :
  mutual_peering_new a b t = mutual_peering_new b a t ∧
  mutual_peering_other (mutual_peering_new a b t) a = Some b ∧
  ∀ p, mutual_peering_contains (mutual_peering_new a b t) p = true ↔ p = a ∨ p = b.
Proof.
  assert (∀ x y, mutual_peering_new x y t
    = {| peer_a := (ordered_pair x y).1; peer_b := (ordered_pair x y).2; mutual_since := t |}) as Hop.
  { intros x y. unfold mutual_peering_new, ordered_pair. by destruct (arr32_leb x y). }
  split; [by rewrite !Hop, ordered_pair_comm|].
  rewrite Hop. unfold mutual_peering_other, mutual_peering_contains, ordered_pair; simpl.
  split.
  - destruct (arr32_leb a b); simpl; repeat case_bool_decide; congruence.
  - intros p. rewrite orb_true_iff, !bool_decide_eq_true.
    destruct (arr32_leb a b); simpl; naive_solver.
Qed.
