(* ===== verification/Quorum.v ===== *)
(** * Witness quorums and certificates

    Models [indras-artifacts/src/attention/witness.rs] and
    [attention/certificate.rs].  [usize] values are naturals: they count the
    elements of in-memory vectors. *)

From S2P Require Import Prelude Artifact Crypto Attention Peering.

Definition bft_quorum_threshold (n : nat) : nat * nat :=
  if (n =? 0)%nat then (0%nat, 0%nat)
  else let f := ((n - 1) / 3)%nat in (f, (n - f)%nat).

Definition mutual_peers (registry_p registry_q : PeerRegistry) : list PlayerId :=
  peer_id <$> retain (λ entry, is_peer (peer_id entry) registry_q) (registry_peers registry_p).

Definition select_witnesses (mutual : list PlayerId) (m_min : nat)
    : option (list PlayerId * nat) :=
  if (length mutual <? m_min)%nat then None
  else let '(_, k) := bft_quorum_threshold (length mutual) in Some (mutual, k).

Record WitnessSignature : Type := {
  witness : PlayerId;
  ws_sig : list byte;
}.

Record QuorumCertificate : Type := {
  qc_version : Z;
  qc_event_hash : arr32;
  intention_scope : ArtifactId;
  witnesses : list WitnessSignature;
}.

Inductive CertificateError : Type :=
| InsufficientSignatures (have need : nat)
| SignerNotInRoster (signer : PlayerId)
| MissingPublicKey (w : PlayerId)
| CertInvalidSignature (w : PlayerId)
| DuplicateWitness (w : PlayerId).

Definition certificate_error_message (e : CertificateError) : string :=
  match e with
  | InsufficientSignatures have need =>
      "insufficient signatures: have " +:+ (i64_to_string (Z.of_nat have) +:+
        (", need " +:+ i64_to_string (Z.of_nat need)))
  | SignerNotInRoster _ => "signer not in witness roster"
  | MissingPublicKey _ => "missing public key for witness"
  | CertInvalidSignature _ => "invalid witness signature"
  | DuplicateWitness _ => "duplicate witness in certificate"
  end.

Definition quorum_certificate_new (event_hash : arr32) (scope : ArtifactId) : QuorumCertificate :=
  {| qc_version := 1; qc_event_hash := event_hash; intention_scope := scope; witnesses := [] |}.

Definition add_witness (s : WitnessSignature) (c : QuorumCertificate) : QuorumCertificate :=
  if negb (any (λ w, bool_decide (witness w = witness s)) (witnesses c))
  then {| qc_version := qc_version c; qc_event_hash := qc_event_hash c;
          intention_scope := intention_scope c; witnesses := witnesses c ++ [s] |}
  else c.

Section Certificates.
Context `{Postcard, Dilithium}.

Definition cert_signable_bytes (event_hash : arr32) (scope : ArtifactId) : list byte :=
  postcard_witness event_hash scope.

Definition witness_sign (event_hash : arr32) (scope : ArtifactId) (identity : PQIdentity)
    (w : PlayerId) : WitnessSignature :=
  {| witness := w;
     ws_sig := pq_signature_bytes (pq_sign identity (cert_signable_bytes event_hash scope)) |}.

Definition witness_verify (s : WitnessSignature) (event_hash : arr32) (scope : ArtifactId)
    (public_key : PQPublicIdentity) : bool :=
  match pq_signature_from_bytes (ws_sig s) with
  | Err _ => false
  | Ok signature => pq_verify public_key (cert_signable_bytes event_hash scope) signature
  end.

(** The pass that rejects repeated witnesses; [seen] is the hash set. *)
Fixpoint check_duplicates (ws : list WitnessSignature) (seen : gset PlayerId)
    : Result unit CertificateError :=
  match ws with
  | [] => Ok tt
  | w :: ws =>
      if bool_decide (witness w ∈ seen) then Err (DuplicateWitness (witness w))
      else check_duplicates ws ({[witness w]} ∪ seen)
  end.

(** The pass over signers: roster, key, signature. *)
Fixpoint check_signers (ws : list WitnessSignature) (cert : QuorumCertificate)
    (roster : list PlayerId) (public_keys : gmap PlayerId PQPublicIdentity)
    : Result unit CertificateError :=
  match ws with
  | [] => Ok tt
  | w :: ws =>
      if negb (bool_decide (witness w ∈ roster)) then Err (SignerNotInRoster (witness w))
      else match public_keys !! witness w with
           | None => Err (MissingPublicKey (witness w))
           | Some pubkey =>
               if negb (witness_verify w (qc_event_hash cert) (intention_scope cert) pubkey)
               then Err (CertInvalidSignature (witness w))
               else check_signers ws cert roster public_keys
           end
  end.

(** The [assert!] on [k] panics. *)
Definition validate_certificate (cert : QuorumCertificate) (roster : list PlayerId) (k : nat)
    (public_keys : gmap PlayerId PQPublicIdentity) : outcome (Result unit CertificateError) :=
  let '(_, expected_k) := bft_quorum_threshold (length roster) in
  if negb (k =? expected_k)%nat then Panics
  else Returns (
    if (length (witnesses cert) <? k)%nat
    then Err (InsufficientSignatures (length (witnesses cert)) k)
    else
      let? _ := check_duplicates (witnesses cert) ∅ in
      check_signers (witnesses cert) cert roster public_keys).

Definition certificate_verify (cert : QuorumCertificate) (roster : list PlayerId) (k : nat)
    (public_keys : gmap PlayerId PQPublicIdentity) : outcome (Result unit CertificateError) :=
  validate_certificate cert roster k public_keys.
End Certificates.

(** ** Thresholds *)

Lemma bft_threshold_bounds n f k :
  bft_quorum_threshold n = (f, k) → n ≠ 0%nat →
  (3 * f < n)%nat ∧ k = (n - f)%nat ∧ (f < k <= n)%nat.
Proof.
  unfold bft_quorum_threshold. intros H Hn.
  rewrite (proj2 (Nat.eqb_neq n 0)) in H by done.
  assert (f = ((n - 1) / 3)%nat ∧ k = (n - (n - 1) / 3)%nat) as [-> ->] by (split; congruence).
  pose proof (Nat.Div0.mul_div_le (n - 1) 3). lia.
Qed.

(** [f] is the largest number of faults for which [3 f + 1 <= n]. *)
Lemma bft_threshold_maximal n f k :
  bft_quorum_threshold n = (f, k) → n ≠ 0%nat → (n < 3 * (f + 1) + 1)%nat.
Proof.
  unfold bft_quorum_threshold. intros H Hn.
  rewrite (proj2 (Nat.eqb_neq n 0)) in H by done.
  assert (f = ((n - 1) / 3)%nat ∧ k = (n - (n - 1) / 3)%nat) as [-> ->] by (split; congruence).
  pose proof (Nat.mul_succ_div_gt (n - 1) 3). lia.
Qed.

Lemma size_inter_ge (A B U : gset PlayerId) :
  A ⊆ U → B ⊆ U → (size A + size B <= size (A ∩ B) + size U)%nat.
Proof.
  intros HA HB.
  pose proof (size_union_alt A B) as HU. pose proof (size_difference_alt B A) as HD.
  assert (size (A ∪ B) <= size U)%nat by (apply subseteq_size; set_solver).
  assert (size (B ∩ A) <= size B)%nat by (apply subseteq_size; set_solver).
  rewrite (intersection_comm_L A B). lia.
Qed.

Lemma not_subseteq_witness (X Y : gset PlayerId) : (size Y < size X)%nat → ∃ w, w ∈ X ∧ w ∉ Y.
Proof.
  intros Hs. destruct (set_choose_or_empty (X ∖ Y)) as [[w Hw]|He].
  - apply elem_of_difference in Hw. eauto.
  - assert (X ⊆ Y) as Hsub%subseteq_size; [|lia].
    intros w Hw. destruct (decide (w ∈ Y)) as [|Hn]; [done|]. exfalso.
    apply (not_elem_of_empty (C:=gset PlayerId) w), He. by apply elem_of_difference.
Qed.

Lemma quorum_overlap (roster : list PlayerId) (f k : nat) (A B : gset PlayerId) :
  NoDup roster → roster ≠ [] → bft_quorum_threshold (length roster) = (f, k) →
  A ⊆ list_to_set roster → B ⊆ list_to_set roster →
  (k <= size A)%nat → (k <= size B)%nat → (f + 1 <= size (A ∩ B))%nat.
Proof.
  intros Hnd Hne Hbft HA HB HkA HkB.
  assert (length roster ≠ 0%nat) as Hn by (destruct roster; simpl in *; congruence).
  pose proof (bft_threshold_bounds _ _ _ Hbft Hn).
  pose proof (size_inter_ge A B (list_to_set roster) HA HB) as Hs.
  rewrite size_list_to_set in Hs by done. lia.
Qed.

(** Quorum intersection: two sets of at least k members of a roster without
    repetitions share at least f + 1 members, so that whatever set of at most
    f members is faulty, some member of both is not; f is the largest number
    of faults the roster size allows. *)
Theorem quorum_intersection (roster : list PlayerId) (f k : nat) (A B byz : gset PlayerId) :
  NoDup roster → roster ≠ [] → bft_quorum_threshold (length roster) = (f, k) →
  A ⊆ list_to_set roster → B ⊆ list_to_set roster →
  (k <= size A)%nat → (k <= size B)%nat → (size byz <= f)%nat →
  (3 * f < length roster < 3 * (f + 1) + 1)%nat ∧
  (f + 1 <= size (A ∩ B))%nat ∧ ∃ w, w ∈ A ∧ w ∈ B ∧ w ∉ byz.
Proof.
  intros Hnd Hne Hbft HA HB HkA HkB Hbyz.
  assert (length roster ≠ 0%nat) as Hn by (destruct roster; simpl in *; congruence).
  pose proof (bft_threshold_bounds _ _ _ Hbft Hn).
  pose proof (bft_threshold_maximal _ _ _ Hbft Hn).
  pose proof (quorum_overlap roster f k A B Hnd Hne Hbft HA HB HkA HkB).
  split_and!; [lia..|].
  destruct (not_subseteq_witness (A ∩ B) byz) as (w & [? ?]%elem_of_intersection & ?); [lia|].
  eauto.
Qed.

(** ** Certificate validation *)

Section CertificateProperties.
Context `{Postcard, Dilithium}.
Implicit Types (ws : list WitnessSignature) (c : QuorumCertificate).

Lemma check_duplicates_ok ws seen :
  check_duplicates ws seen = Ok tt ↔
  NoDup (witness <$> ws) ∧ ∀ w, w ∈ witness <$> ws → w ∉ seen.
Proof.
  revert seen. induction ws as [|w ws IH]; intros seen; csimpl.
  { split; [|done]. split; [constructor|by intros ? ?%elem_of_nil]. }
  rewrite NoDup_cons. setoid_rewrite elem_of_cons.
  case_bool_decide as E; [split; [done|naive_solver]|].
  rewrite IH. set_solver.
Qed.

(** The three tests a signer has to pass. *)
Definition signer_ok c (roster : list PlayerId) (keys : gmap PlayerId PQPublicIdentity)
    (w : WitnessSignature) : Prop :=
  witness w ∈ roster ∧ ∃ pk, keys !! witness w = Some pk ∧
  witness_verify w (qc_event_hash c) (intention_scope c) pk = true.

Lemma check_signers_ok ws c roster keys :
  check_signers ws c roster keys = Ok tt ↔ Forall (signer_ok c roster keys) ws.
Proof.
  induction ws as [|w ws IH]; simpl; [by split|].
  rewrite Forall_cons, <- IH. unfold signer_ok.
  case_bool_decide; simpl; [|naive_solver].
  destruct (keys !! witness w) as [pk|]; [|naive_solver].
  destruct (witness_verify w _ _ pk) eqn:E; simpl.
  - split; [|tauto]. intros. split; eauto.
  - split; [done|]. intros [(_ & pk' & [= <-] & Hv) _]. congruence.
Qed.

Lemma validate_certificate_ok c roster k keys :
  validate_certificate c roster k keys = Returns (Ok tt) ↔
  k = (bft_quorum_threshold (length roster)).2 ∧
  (k <= length (witnesses c))%nat ∧ NoDup (witness <$> witnesses c) ∧
  Forall (signer_ok c roster keys) (witnesses c).
Proof.
  unfold validate_certificate.
  destruct (bft_quorum_threshold (length roster)) as [f ek]; simpl.
  destruct (Nat.eqb_spec k ek) as [->|Hk]; simpl; [|naive_solver].
  destruct (Nat.ltb_spec (length (witnesses c)) ek) as [Hlt|Hge].
  { split; [done|]. intros (_ & ? & _). lia. }
  rewrite <- check_signers_ok.
  assert (check_duplicates (witnesses c) ∅ = Ok tt ↔ NoDup (witness <$> witnesses c)) as Hdup.
  { rewrite check_duplicates_ok. set_solver. }
  rewrite <- Hdup. unfold rbind.
  destruct (check_duplicates (witnesses c) ∅) as [[]|e].
  - split; [by intros [= ->]|]. by intros (_ & _ & _ & ->).
  - split; [done|]. by intros (_ & _ & ? & _).
Qed.

(** [validate_certificate] accepts exactly the certificates with at least the
    quorum of signatures, from pairwise different members of the roster, each
    of which verifies under the registered key; it panics exactly when the
    caller's threshold is not the one of the roster. *)
Theorem validate_certificate_spec c roster k keys :
  (validate_certificate c roster k keys = Panics ↔
     k ≠ (bft_quorum_threshold (length roster)).2) ∧
  (validate_certificate c roster k keys = Returns (Ok tt) ↔
     k = (bft_quorum_threshold (length roster)).2 ∧
     (k <= length (witnesses c))%nat ∧ NoDup (witness <$> witnesses c) ∧
     Forall (signer_ok c roster keys) (witnesses c)).
Proof.
  split; [|apply validate_certificate_ok]. unfold validate_certificate.
  destruct (bft_quorum_threshold (length roster)) as [f ek]; simpl.
  destruct (Nat.eqb_spec k ek); simpl; naive_solver.
Qed.

(** C3. Agreement: if two certificates validate against the same roster, then
    outside any set of at most f faulty witnesses there is a witness whose
    registered key verifies a signature on both certificates' messages. *)
Theorem certificates_share_witness c1 c2 (roster : list PlayerId) (f k : nat)
    (keys : gmap PlayerId PQPublicIdentity) (byz : gset PlayerId) :
  NoDup roster → roster ≠ [] → bft_quorum_threshold (length roster) = (f, k) →
  validate_certificate c1 roster k keys = Returns (Ok tt) →
  validate_certificate c2 roster k keys = Returns (Ok tt) →
  (size byz <= f)%nat →
  ∃ w pk s1 s2, w ∈ roster ∧ w ∉ byz ∧ keys !! w = Some pk ∧
    s1 ∈ witnesses c1 ∧ witness s1 = w ∧
    witness_verify s1 (qc_event_hash c1) (intention_scope c1) pk = true ∧
    s2 ∈ witnesses c2 ∧ witness s2 = w ∧
    witness_verify s2 (qc_event_hash c2) (intention_scope c2) pk = true.
Proof.
  intros Hnd Hne Hbft (_ & Hk1 & Hd1 & Hs1)%validate_certificate_ok
    (_ & Hk2 & Hd2 & Hs2)%validate_certificate_ok Hbyz.
  assert (∀ c, NoDup (witness <$> witnesses c) → Forall (signer_ok c roster keys) (witnesses c) →
    (list_to_set (witness <$> witnesses c) : gset PlayerId) ⊆ list_to_set roster ∧
    size (list_to_set (witness <$> witnesses c) : gset PlayerId) = length (witnesses c)) as Hset.
  { intros c Hd Hs. rewrite size_list_to_set, length_fmap by done. split; [|done].
    intros w. rewrite !elem_of_list_to_set, list_elem_of_fmap. intros (s & -> & Hin).
    rewrite Forall_forall in Hs. by apply Hs in Hin as [? _]. }
  destruct (Hset c1 Hd1 Hs1) as [Hsub1 Hz1], (Hset c2 Hd2 Hs2) as [Hsub2 Hz2].
  pose proof (quorum_overlap roster f k _ _ Hnd Hne Hbft Hsub1 Hsub2) as Hov.
  rewrite Hz1, Hz2 in Hov. specialize (Hov Hk1 Hk2).
  destruct (not_subseteq_witness (list_to_set (witness <$> witnesses c1)
    ∩ list_to_set (witness <$> witnesses c2)) byz)
    as (w & [Hw1 Hw2]%elem_of_intersection & Hh); [lia|].
  rewrite elem_of_list_to_set, list_elem_of_fmap in Hw1, Hw2.
  destruct Hw1 as (s1 & -> & Hi1), Hw2 as (s2 & Heq & Hi2).
  rewrite Forall_forall in Hs1, Hs2.
  destruct (Hs1 s1 Hi1) as (Hr & pk & Hpk & Hv1), (Hs2 s2 Hi2) as (_ & pk2 & Hpk2 & Hv2).
  rewrite <- Heq, Hpk in Hpk2. injection Hpk2 as <-. exists (witness s1), pk, s1, s2. done.
Qed.
End CertificateProperties.

(** ** Rosters and honest certificates *)

(** The roster computed from two registries has no repetitions and holds
    exactly the players both sides are peered with; [select_witnesses]
    returns it whole, with its threshold, when it is large enough. *)
Theorem select_witnesses_spec rp rq (m_min : nat) :
  registry_wf rp →
  NoDup (mutual_peers rp rq) ∧
  (∀ p, p ∈ mutual_peers rp rq ↔ is_peer p rp = true ∧ is_peer p rq = true) ∧
  select_witnesses (mutual_peers rp rq) m_min =
    if (length (mutual_peers rp rq) <? m_min)%nat then None
    else Some (mutual_peers rp rq, (bft_quorum_threshold (length (mutual_peers rp rq))).2).
Proof.
  intros Hwf. unfold mutual_peers, registry_wf in *. split_and!.
  - by apply NoDup_fmap_retain.
  - intros p. rewrite (is_peer_true p rp), !list_elem_of_fmap.
    setoid_rewrite elem_of_retain. naive_solver.
  - unfold select_witnesses. by destruct (bft_quorum_threshold _).
Qed.

Section Honest.
Context `{Postcard, DilithiumLaws}.

(** Collecting signatures: the fold that builds a certificate. *)
Definition collect (event_hash : arr32) (scope : ArtifactId)
    (signers : list (PlayerId * PQIdentity)) : QuorumCertificate :=
  foldl (λ c '(w, i), add_witness (witness_sign event_hash scope i w) c)
    (quorum_certificate_new event_hash scope) signers.

Lemma add_witness_fresh s c :
  witness s ∉ witness <$> witnesses c → witnesses (add_witness s c) = witnesses c ++ [s].
Proof.
  intros Hs. unfold add_witness. destruct (any _ _) eqn:E; [|done]. exfalso. apply Hs.
  apply any_true in E as (w & Hw & <-%bool_decide_eq_true).
  apply list_elem_of_fmap. eauto.
Qed.

Lemma add_witness_fields s c :
  qc_event_hash (add_witness s c) = qc_event_hash c ∧
  intention_scope (add_witness s c) = intention_scope c.
Proof. unfold add_witness. by destruct (any _ _). Qed.

Lemma collect_spec h scope signers :
  NoDup signers.*1 →
  witnesses (collect h scope signers)
    = (λ '(w, i), witness_sign h scope i w) <$> signers ∧
  qc_event_hash (collect h scope signers) = h ∧
  intention_scope (collect h scope signers) = scope.
Proof.
  induction signers as [|[w i] l IH] using rev_ind; [done|].
  rewrite fmap_app, NoDup_app. intros (Hnd & Hd & _).
  destruct (IH Hnd) as (Hw & Hh & Hs). unfold collect in *. rewrite foldl_app. simpl.
  destruct (add_witness_fields (witness_sign h scope i w)
    (foldl (λ c '(w, i), add_witness (witness_sign h scope i w) c)
       (quorum_certificate_new h scope) l)) as [-> ->].
  split_and!; [|done..].
  rewrite add_witness_fresh, Hw, fmap_app; [done|].
  rewrite Hw, <- list_fmap_compose. simpl. intros Hin. apply (Hd w); [|left].
  apply list_elem_of_fmap in Hin as ([w' i'] & -> & Hin).
  apply list_elem_of_fmap. by exists (w', i').
Qed.

(** Completeness: when enough distinct roster members sign with the keys
    registered for them, the collected certificate validates. *)
Theorem honest_quorum_validates (h : arr32) (scope : ArtifactId) (roster : list PlayerId)
    (keys : gmap PlayerId PQPublicIdentity) (signers : list (PlayerId * PQIdentity)) :
  NoDup signers.*1 →
  ((bft_quorum_threshold (length roster)).2 <= length signers)%nat →
  (∀ w i, (w, i) ∈ signers →
     w ∈ roster ∧ identity_ok i ∧ keys !! w = Some (pq_identity_verifying_key i)) →
  validate_certificate (collect h scope signers) roster
    (bft_quorum_threshold (length roster)).2 keys = Returns (Ok tt).
Proof.
  intros Hnd Hk Hall. destruct (collect_spec h scope signers Hnd) as (Hw & Hh & Hs).
  apply validate_certificate_ok. rewrite Hw, length_fmap. split_and!; [done..| |].
  - rewrite <- list_fmap_compose. replace (_ <$> signers) with signers.*1; [done|].
    apply list_fmap_ext. by intros ? [w i] _.
  - apply Forall_fmap, Forall_forall. intros [w i] Hin.
    destruct (Hall w i Hin) as (Hr & Hi & Hkey). split; [done|].
    exists (pq_identity_verifying_key i). split; [done|].
    rewrite Hh, Hs. unfold witness_verify. simpl.
    change (pq_signature_from_bytes _) with
      (pq_signature_from_bytes (pq_signature_bytes (pq_sign i (cert_signable_bytes h scope)))).
    rewrite pq_signature_roundtrip. by apply pq_sign_verify.
Qed.
End Honest.
