(* ===== verification/AttentionLog.v ===== *)
(** * The per-player attention log

    Models [AttentionLog] of [indras-artifacts/src/attention/mod.rs], generic
    over the attention store as in the source, and proves that the log it
    writes is a chain its peers accept. *)

From S2P Require Import Prelude Artifact Crypto Attention Store.

Record AttentionLog (S : Type) : Type := {
  al_player : PlayerId;
  al_current_focus : option ArtifactId;
  al_next_seq : Z;
  al_latest_hash : arr32;
  al_store : S;
}.
Arguments al_player {S} _.
Arguments al_current_focus {S} _.
Arguments al_next_seq {S} _.
Arguments al_latest_hash {S} _.
Arguments al_store {S} _.

Section AttentionLog.
Context `{Blake3, Postcard}.
Context {S : Type} `{AttentionStore S}.

Definition attention_log_new (player : PlayerId) (store : S) : AttentionLog S :=
  {| al_player := player; al_current_focus := None; al_next_seq := 0;
     al_latest_hash := zeros32; al_store := store |}.

(** The event recorded next when attention moves to [target]. *)
Definition next_event (log : AttentionLog S) (target : option ArtifactId) (now : Z)
    : AttentionSwitchEvent :=
  attention_switch_event_new (al_player log) (al_next_seq log) now
    (al_current_focus log) target (al_latest_hash log).

Definition log_navigate_to (artifact : ArtifactId) (now : Z)
    : M (AttentionLog S) VaultError unit :=
  λ log,
    let event := next_event log (Some artifact) now in
    let hash := event_hash event in
    match append_event event (al_store log) with
    | (store', Err e) =>
        ({| al_player := al_player log; al_current_focus := al_current_focus log;
            al_next_seq := al_next_seq log; al_latest_hash := al_latest_hash log;
            al_store := store' |}, Err e)
    | (store', Ok _) =>
        ({| al_player := al_player log; al_current_focus := Some artifact;
            al_next_seq := wrap_u64 (al_next_seq log + 1); al_latest_hash := hash;
            al_store := store' |}, Ok tt)
    end.

Definition log_navigate_back (parent : ArtifactId) (now : Z)
    : M (AttentionLog S) VaultError unit :=
  λ log,
    let event := next_event log (Some parent) now in
    let hash := event_hash event in
    match append_event event (al_store log) with
    | (store', Err e) =>
        ({| al_player := al_player log; al_current_focus := al_current_focus log;
            al_next_seq := al_next_seq log; al_latest_hash := al_latest_hash log;
            al_store := store' |}, Err e)
    | (store', Ok _) =>
        ({| al_player := al_player log; al_current_focus := Some parent;
            al_next_seq := wrap_u64 (al_next_seq log + 1); al_latest_hash := hash;
            al_store := store' |}, Ok tt)
    end.

(** [current_focus.take()] clears the focus before the store is asked to
    append. *)
Definition log_end_session (now : Z) : M (AttentionLog S) VaultError unit :=
  λ log,
    let event := next_event log None now in
    let hash := event_hash event in
    match append_event event (al_store log) with
    | (store', Err e) =>
        ({| al_player := al_player log; al_current_focus := None;
            al_next_seq := al_next_seq log; al_latest_hash := al_latest_hash log;
            al_store := store' |}, Err e)
    | (store', Ok _) =>
        ({| al_player := al_player log; al_current_focus := None;
            al_next_seq := wrap_u64 (al_next_seq log + 1); al_latest_hash := hash;
            al_store := store' |}, Ok tt)
    end.

Definition log_current_focus (log : AttentionLog S) : option ArtifactId := al_current_focus log.

Definition log_events (log : AttentionLog S) : Result (list AttentionSwitchEvent) VaultError :=
  events (al_player log) (al_store log).

Definition log_check_peer_integrity (peer : PlayerId) (theirs : list AttentionSwitchEvent)
    (log : AttentionLog S) : IntegrityResult :=
  check_integrity peer theirs (al_store log).

End AttentionLog.

(** ** The chain invariant *)

Section Invariant.
Context `{Blake3, Postcard, Dilithium}.
Context {S : Type} `{AttentionStoreLaws S}.
Implicit Types (log : AttentionLog S) (l : list AttentionSwitchEvent).

(** The player's events, as the store holds them. *)
Definition chain_of log : list AttentionSwitchEvent :=
  default [] (log_view (al_store log) !! al_player log).

(** Either nothing was recorded yet, or the recorded chain validates to
    exactly the state the log tracks. *)
Definition log_ok log : Prop :=
  Forall (λ e, author e = al_player log) (chain_of log) ∧
  if decide (chain_of log = []) then
    al_current_focus log = None ∧ al_next_seq log = 0 ∧ al_latest_hash log = zeros32
  else ∃ st, validate_chain (chain_of log) None = Ok st ∧
    al_next_seq log = wrap_u64 (latest_seq st + 1) ∧
    al_latest_hash log = latest_hash st ∧ al_current_focus log = current_attention st.

Lemma validate_chain_snoc l e pk st :
  validate_chain l pk = Ok st →
  validate_chain (l ++ [e]) pk = let? _ := validate_event e st pk in Ok (advance_state e).
Proof.
  intros Hv. destruct l as [|first l]; [done|]. simpl in *.
  destruct (validate_genesis first pk) as [[]|]; simpl in *; [|done]. revert Hv.
  generalize {| latest_seq := 0; latest_hash := event_hash first; current_attention := to first |}.
  induction l as [|x l IH]; intros st0 Hv; simpl in *.
  - by injection Hv as ->.
  - destruct (validate_event x st0 pk) as [[]|]; simpl in *; [|done]. by apply IH.
Qed.

(** Appending the next event of a log that satisfies the invariant keeps the
    chain valid, and leads to the state of that event. *)
Lemma next_event_chain log target now :
  log_ok log →
  validate_chain (chain_of log ++ [next_event log target now]) None
  = Ok (advance_state (next_event log target now)).
Proof.
  intros [_ Hok]. destruct (decide (chain_of log = [])) as [->|Hne].
  - destruct Hok as (Hf & Hs & Hh). simpl. unfold next_event. rewrite Hf, Hs, Hh.
    rewrite (proj2 (validate_genesis_ok _ None)); [done|]. split; [done|].
    by apply is_genesis_true.
  - destruct Hok as (st & Hv & Hs & Hh & Hf). rewrite (validate_chain_snoc _ _ _ st) by done.
    unfold validate_event, next_event; simpl.
    rewrite Hs, Hh, Hf, Z.eqb_refl, !bool_decide_true by done. done.
Qed.

Lemma log_ok_new p store :
  log_view store !! p = None → log_ok (attention_log_new p store).
Proof.
  intros Hp. unfold log_ok, chain_of; simpl. rewrite Hp; simpl. by split.
Qed.

(** The common part of the three recording operations. *)
Lemma log_ok_append log target now store' u :
  log_ok log →
  append_event (next_event log target now) (al_store log) = (store', Ok u) →
  log_ok {| al_player := al_player log; al_current_focus := target;
            al_next_seq := wrap_u64 (al_next_seq log + 1);
            al_latest_hash := event_hash (next_event log target now);
            al_store := store' |}.
Proof.
  intros Hok Happ. pose proof (next_event_chain log target now Hok) as Hv.
  apply append_event_ok in Happ. unfold log_ok, chain_of in *; simpl in *.
  rewrite Happ, lookup_insert_eq. simpl. split.
  - apply Forall_app. destruct Hok. by split; [|repeat constructor].
  - rewrite decide_False by (intros ?%app_eq_nil; naive_solver). eauto.
Qed.

Lemma log_ok_unchanged log log' :
  log_ok log → al_player log' = al_player log → al_current_focus log' = al_current_focus log →
  al_next_seq log' = al_next_seq log → al_latest_hash log' = al_latest_hash log →
  log_view (al_store log') = log_view (al_store log) → log_ok log'.
Proof. unfold log_ok, chain_of. intros Hok -> -> -> -> ->. done. Qed.

(** ** The log as a transition system *)

Inductive log_step : AttentionLog S → AttentionLog S → Prop :=
| step_navigate_to log log' a now r :
    log_navigate_to a now log = (log', r) → log_step log log'
| step_navigate_back log log' a now r :
    log_navigate_back a now log = (log', r) → log_step log log'
| step_end_session log log' now u :
    log_end_session now log = (log', Ok u) → log_step log log'.

Lemma log_step_ok log log' : log_step log log' → log_ok log → log_ok log'.
Proof.
  intros [??? now r Hs|??? now r Hs|?? now r Hs] Hok;
    [unfold log_navigate_to in Hs|unfold log_navigate_back in Hs|unfold log_end_session in Hs];
    destruct (append_event _ _) as [st' [u|e]] eqn:Happ; simplify_eq;
    try (by eapply log_ok_append); apply append_event_err in Happ;
    by eapply log_ok_unchanged.
Qed.

Lemma log_steps_ok log log' : rtc log_step log log' → log_ok log → log_ok log'.
Proof. induction 1; eauto using log_step_ok. Qed.
End Invariant.

(** Every log written by [navigate_to], [navigate_back] (whether or not the
    store accepts the event) and successful [end_session] calls is a chain
    that the validator accepts, authored by the player throughout, and its
    final state is the focus, sequence number and hash the log tracks. *)
Theorem attention_log_chain_valid {T : Type} `{Blake3, Postcard, Dilithium, AttentionStoreLaws T}
    (p : PlayerId) (store : T) (log : AttentionLog T) :
  log_view store !! p = None →
  rtc log_step (attention_log_new p store) log →
  Forall (λ e, author e = al_player log) (chain_of log) ∧
  (chain_of log ≠ [] → ∃ st,
    validate_chain (chain_of log) None = Ok st ∧
    al_next_seq log = wrap_u64 (latest_seq st + 1) ∧
    al_latest_hash log = latest_hash st ∧
    al_current_focus log = current_attention st).
Proof.
  intros Hp Hr.
  assert (log_ok log) as [Ha Hok] by eauto using log_steps_ok, log_ok_new.
  split; [done|]. intros Hne. by rewrite decide_False in Hok.
Qed.

(** A failed [end_session] is not harmless: the focus is already cleared, so
    the next event the log records claims to come from nowhere and every
    validator rejects the chain from there on. *)
Theorem end_session_error_breaks_chain {T : Type} `{Blake3, Postcard, Dilithium, AttentionStoreLaws T}
    (log log1 log2 : AttentionLog T) a b now1 now2 err u :
  log_ok log → al_current_focus log = Some a →
  log_end_session now1 log = (log1, Err err) →
  log_navigate_to b now2 log1 = (log2, Ok u) →
  validate_chain (chain_of log2) None
  = Err (AttentionContinuity (al_next_seq log) (Some a) None).
Proof.
  intros [_ Hok] Hf He Hn. unfold log_end_session in He.
  destruct (append_event _ _) as [s1 [|]] eqn:Happ1; simplify_eq.
  unfold log_navigate_to in Hn.
  destruct (append_event _ _) as [s2 [|]] eqn:Happ2 in Hn; simplify_eq.
  apply append_event_err in Happ1. apply append_event_ok in Happ2.
  unfold chain_of in *; simpl in *. rewrite Happ2, Happ1, lookup_insert_eq. simpl.
  destruct (decide _) as [|Hne] in Hok; [naive_solver|].
  destruct Hok as (st & Hv & Hs & Hh & Hc). rewrite (validate_chain_snoc _ _ _ st) by done.
  unfold validate_event; simpl. rewrite Hs, Hh, Z.eqb_refl, bool_decide_true by done. simpl.
  rewrite <- Hc, Hf. by rewrite bool_decide_false.
Qed.
