(* ===== verification/Heat.v ===== *)
(** * Heat and token value

    Models [compute_heat] of [indras-artifacts/src/attention/mod.rs] and
    [compute_token_value] of [token.rs].  [f32] is IEEE 754 binary32: the
    Standard Library's [spec_float] at precision 24 and exponent bound 128.
    [f32::exp], whose precision the language leaves unspecified, is a
    parameter. *)

From Stdlib Require Import Floats.SpecFloat.
From S2P Require Import Prelude Float Artifact Attention.

(** ** Single-precision arithmetic *)

Abbreviation f32 := spec_float.

(** Conversion of an integer with rounding to nearest even ([z as f32]). *)
Definition f32_of_Z (z : Z) : f32 := binary_normalize 24 128 z 0 false.

Definition f32_add : f32 → f32 → f32 := SFadd 24 128.
Definition f32_mul : f32 → f32 → f32 := SFmul 24 128.
Definition f32_div : f32 → f32 → f32 := SFdiv 24 128.
Definition f32_neg : f32 → f32 := SFopp.

Definition f32_zero : f32 := S754_zero false.
Definition f32_one : f32 := S754_finite false 8388608 (-23).

Example f32_one_value : f32_of_Z 1 = f32_one.
Proof. vm_compute. reflexivity. Qed.

(** [f32::clamp(lo, hi)]; a NaN passes through. *)
Definition f32_clamp (lo hi x : f32) : f32 :=
  if SFltb x lo then lo else if SFltb hi x then hi else x.

(** A literal [n / d], correctly rounded. *)
Definition f32_ratio (n d : Z) : f32 := f32_div (f32_of_Z n) (f32_of_Z d).

Class ExpF32 : Type := f32_exp : f32 → f32.

(** ** Attention value *)

Record AttentionValue : Type := {
  total_dwell_ms : Z;
  heat : f32;
  self_dwell_ms : Z;
}.

(** [Iterator::max]. *)
Definition max_of (l : list Z) : option Z :=
  match l with [] => None | x :: l => Some (foldl Z.max x l) end.

(** The events of [member] in the logs kept under its id. *)
Definition member_events (peer_logs : list (PlayerId * list AttentionSwitchEvent))
    (member : PlayerId) : list AttentionSwitchEvent :=
  retain (λ e, bool_decide (author e = member))
    (concat (snd <$> retain (λ pl, bool_decide (pl.1 = member)) peer_logs)).

Definition touches (a : ArtifactId) (e : AttentionSwitchEvent) : bool :=
  bool_decide (to e = Some a) || bool_decide (from e = Some a).

Section Heat.
Context `{ExpF32}.

(** The heat contribution of a member with positive dwell time. *)
Definition heat_contribution (owned : list AttentionSwitchEvent) (a : ArtifactId)
    (dwell now : Z) : f32 :=
  let saturation :=
    f32_div (f32_of_Z dwell) (f32_add (f32_of_Z dwell) (f32_of_Z 60000)) in
  let last_touch := default 0 (max_of (wall_time_ms <$> retain (touches a) owned)) in
  let age_ms := f32_of_Z (Z.max (wrap_i64 (now - last_touch)) 0) in
  let recency := f32_exp (f32_div (f32_neg age_ms) (f32_of_Z 300000)) in
  f32_mul saturation recency.

(** The loop over the audience; [self] is [audience[0]]. *)
Fixpoint heat_loop (a : ArtifactId) (peer_logs : list (PlayerId * list AttentionSwitchEvent))
    (self : PlayerId) (members : list PlayerId) (now : Z)
    (total_dwell self_dwell : Z) (heat_sum : f32) : Z * Z * f32 :=
  match members with
  | [] => (total_dwell, self_dwell, heat_sum)
  | member :: members =>
      let owned := member_events peer_logs member in
      let dwell := compute_dwell_time owned a now in
      let total_dwell := wrap_i64 (total_dwell + dwell) in
      let heat_sum :=
        if 0 <? dwell then f32_add heat_sum (heat_contribution owned a dwell now)
        else heat_sum in
      let self_dwell := if bool_decide (member = self) then dwell else self_dwell in
      heat_loop a peer_logs self members now total_dwell self_dwell heat_sum
  end.

Definition compute_heat (a : ArtifactId)
    (peer_logs : list (PlayerId * list AttentionSwitchEvent))
    (audience : list PlayerId) (now : Z) : AttentionValue :=
  match audience with
  | [] => {| total_dwell_ms := 0; heat := f32_zero; self_dwell_ms := 0 |}
  | self :: _ =>
      let '(total_dwell, self_dwell, heat_sum) :=
        heat_loop a peer_logs self audience now 0 0 f32_zero in
      {| total_dwell_ms := total_dwell;
         heat := f32_clamp f32_zero f32_one
                   (f32_div heat_sum (f32_of_Z (Z.of_nat (length audience))));
         self_dwell_ms := self_dwell |}
  end.
End Heat.

(** ** Token value *)

Definition compute_token_value (token : Artifact) (steward_history : list StewardshipRecord)
    (heat : f32) : f32 :=
  let heat_component := f32_clamp f32_zero f32_one heat in
  let blessing_count := f32_of_Z (Z.of_nat (length (blessing_history token))) in
  let blessing_component := f32_div blessing_count (f32_add blessing_count (f32_of_Z 5)) in
  let chain_len := f32_of_Z (Z.of_nat (length steward_history)) in
  let chain_component := f32_div chain_len (f32_add chain_len (f32_of_Z 3)) in
  let value :=
    f32_add (f32_add (f32_mul (f32_ratio 4 10) heat_component)
                     (f32_mul (f32_ratio 3 10) blessing_component))
            (f32_mul (f32_ratio 3 10) chain_component) in
  f32_clamp f32_zero f32_one value.

(** ** Properties *)

(** Within [0, 1] in the order of [f32]. *)
Definition in_unit (x : f32) : Prop := SFleb f32_zero x = true ∧ SFleb x f32_one = true.

Lemma f32_zero_unit : in_unit f32_zero.
Proof. split; vm_compute; reflexivity. Qed.

Lemma f32_one_unit : in_unit f32_one.
Proof. split; vm_compute; reflexivity. Qed.

Lemma finite_le_one m e :
  SFltb f32_one (S754_finite false m e) = false → in_unit (S754_finite false m e).
Proof.
  unfold in_unit, SFltb, SFleb, f32_one. cbn [SFcompare f32_zero].
  rewrite (Z.compare_antisym e (-23)).
  destruct (e ?= -23); cbn [CompOpp]; [|done|done].
  pose proof (Pos.compare_cont_antisym 8388608 m Eq) as Ha. cbn [CompOpp] in Ha.
  rewrite <- Ha. by destruct (Pos.compare_cont Eq 8388608 m).
Qed.

Lemma f32_clamp_unit x : is_nan x = false → in_unit (f32_clamp f32_zero f32_one x).
Proof.
  intros Hx. unfold f32_clamp.
  destruct (SFltb x f32_zero) eqn:E0; [apply f32_zero_unit|].
  destruct (SFltb f32_one x) eqn:E1; [apply f32_one_unit|].
  destruct x as [b|[]| |[] m e]; try discriminate.
  - split; by destruct b.
  - by apply finite_le_one.
Qed.

Section HeatProperties.
Context `{ExpF32}.

Lemma heat_loop_total a pl self ms now t s h :
  in_i64 t →
  (heat_loop a pl self ms now t s h).1.1
  = wrap_i64 (t + sumZ (λ m, compute_dwell_time (member_events pl m) a now) ms).
Proof.
  revert t s h. induction ms as [|m ms IH]; intros t s h Ht.
  - simpl. by rewrite Z.add_0_r, wrap_i64_small.
  - cbn [heat_loop]. rewrite IH by apply wrap_i64_range.
    rewrite sumZ_cons, wrap_i64_add_l. f_equal. lia.
Qed.

Lemma heat_loop_self a pl self ms now t s h :
  (heat_loop a pl self ms now t s h).1.2
  = if bool_decide (self ∈ ms) then compute_dwell_time (member_events pl self) a now else s.
Proof.
  revert t s h. induction ms as [|m ms IH]; intros t s h; [done|].
  cbn [heat_loop]. rewrite IH.
  destruct (decide (m = self)) as [->|Hne].
  - rewrite (bool_decide_true (self = self)), (bool_decide_true (self ∈ self :: ms)) by (done || left).
    by case_bool_decide.
  - rewrite (bool_decide_false (m = self)) by done.
    rewrite (bool_decide_ext (self ∈ m :: ms) (self ∈ ms)); [done|].
    rewrite elem_of_cons. naive_solver.
Qed.
End HeatProperties.

(** The attention value of an artifact reports the dwell times of its
    audience added up in 64-bit arithmetic, the dwell time of the first
    member as its own, and a heat within [0, 1] unless it is NaN. *)
Theorem compute_heat_spec `{ExpF32} a pl (self : PlayerId) (others : list PlayerId) now :
  let v := compute_heat a pl (self :: others) now in
  total_dwell_ms v
    = wrap_i64 (sumZ (λ m, compute_dwell_time (member_events pl m) a now) (self :: others)) ∧
  self_dwell_ms v = compute_dwell_time (member_events pl self) a now ∧
  (is_nan (heat v) = false → in_unit (heat v)).
Proof.
  intros v. subst v. unfold compute_heat.
  pose proof (heat_loop_total a pl self (self :: others) now 0 0 f32_zero) as Ht.
  pose proof (heat_loop_self a pl self (self :: others) now 0 0 f32_zero) as Hs.
  rewrite bool_decide_true in Hs by left.
  destruct (heat_loop _ _ _ _ _ _ _ _) as [[t s] h]. cbn [fst snd] in *.
  cbn [total_dwell_ms self_dwell_ms heat]. split_and!.
  - by rewrite Ht.
  - done.
  - intros Hn. apply f32_clamp_unit. unfold f32_clamp in Hn.
    destruct (SFltb _ f32_zero) eqn:E0.
    + by destruct (f32_div h _).
    + destruct (SFltb f32_one _) eqn:E1; [by destruct (f32_div h _)|done].
Qed.
