(* ===== verification/Vault.v ===== *)
(** * The vault

    Models [indras-artifacts/src/vault.rs]: a player's root artifact, their
    stores, attention log and peers, generic over the three storage traits.
    The 32 random bytes that [generate_tree_id] draws are an argument of the
    operations that draw them. *)

From S2P Require Import Prelude Artifact Crypto Attention Store AttentionLog Peering Heat.

Record Vault (A P T : Type) : Type := {
  root : Artifact;
  v_artifact_store : A;
  v_payload_store : P;
  v_attention_log : AttentionLog T;
  v_peer_registry : PeerRegistry;
  v_peer_attention : gmap PlayerId (list AttentionSwitchEvent);
}.
Arguments root {A P T} _.
Arguments v_artifact_store {A P T} _.
Arguments v_payload_store {A P T} _.
Arguments v_attention_log {A P T} _.
Arguments v_peer_registry {A P T} _.
Arguments v_peer_attention {A P T} _.

(** [thiserror]'s messages, which [to_string] renders. *)
Definition vault_error_message (e : VaultError) : string :=
  match e with
  | NotSteward => "not the steward of this artifact"
  | ArtifactNotFound => "artifact not found"
  | AlreadyPeered => "already peered with this player"
  | NotPeered => "not peered with this player"
  | PayloadNotLoaded => "payload not loaded (fetch it first)"
  | ExchangeNotFullyAccepted => "exchange not fully accepted by both parties"
  | ExchangeClosed => "exchange is already closed (rejected or completed)"
  | StoreError msg => "store error: " +:+ msg
  | NotActive => "artifact is not active"
  | ArtifactRecalled => "artifact has been recalled"
  | ArtifactTransferred => "artifact has been transferred"
  | AlreadyGranted => "grantee already has access"
  | CannotRevoke => "cannot revoke a permanent grant"
  end.

Definition audience_to_grants (audience : list PlayerId) (now : Z) (by_ : PlayerId)
    : list AccessGrant :=
  (λ p, {| grantee := p; mode := Permanent; granted_at := now; granted_by := by_ |}) <$> audience.

(** A new artifact with the given identity, type, grants and payload. *)
Definition fresh_artifact (id : ArtifactId) (ty : string) (player : PlayerId)
    (gs : list AccessGrant) (now : Z) (payload : option PayloadRef) : Artifact :=
  {| artifact_id := id; artifact_type := ty; steward := player; grants := gs;
     status := Active; provenance := None; created_at := now; payload := payload;
     references := []; metadata := ∅; blessing_history := [] |}.

Section Vault.
Context `{Blake3, Postcard}.
Context {A P T : Type} `{ArtifactStore A, PayloadStore P, AttentionStore T}.

Abbreviation V := (Vault A P T).
Abbreviation VM := (M V VaultError).

Definition set_artifact_store (s : A) (v : V) : V :=
  {| root := root v; v_artifact_store := s; v_payload_store := v_payload_store v;
     v_attention_log := v_attention_log v; v_peer_registry := v_peer_registry v;
     v_peer_attention := v_peer_attention v |}.

Definition set_payload_store (s : P) (v : V) : V :=
  {| root := root v; v_artifact_store := v_artifact_store v; v_payload_store := s;
     v_attention_log := v_attention_log v; v_peer_registry := v_peer_registry v;
     v_peer_attention := v_peer_attention v |}.

Definition set_attention_log (l : AttentionLog T) (v : V) : V :=
  {| root := root v; v_artifact_store := v_artifact_store v;
     v_payload_store := v_payload_store v; v_attention_log := l;
     v_peer_registry := v_peer_registry v; v_peer_attention := v_peer_attention v |}.

Definition set_peer_registry (r : PeerRegistry) (v : V) : V :=
  {| root := root v; v_artifact_store := v_artifact_store v;
     v_payload_store := v_payload_store v; v_attention_log := v_attention_log v;
     v_peer_registry := r; v_peer_attention := v_peer_attention v |}.

Definition set_peer_attention (m : gmap PlayerId (list AttentionSwitchEvent)) (v : V) : V :=
  {| root := root v; v_artifact_store := v_artifact_store v;
     v_payload_store := v_payload_store v; v_attention_log := v_attention_log v;
     v_peer_registry := v_peer_registry v; v_peer_attention := m |}.

Definition on_artifacts {X} : M A VaultError X → VM X := zoom v_artifact_store set_artifact_store.
Definition on_payloads {X} : M P VaultError X → VM X := zoom v_payload_store set_payload_store.
Definition on_log {X} : M (AttentionLog T) VaultError X → VM X :=
  zoom v_attention_log set_attention_log.
Definition on_peers {X} : M PeerRegistry VaultError X → VM X :=
  zoom v_peer_registry set_peer_registry.

Definition vault_player (v : V) : PlayerId := steward (root v).

Definition vault_get_artifact (id : ArtifactId) (v : V) : Result (option Artifact) VaultError :=
  get_artifact id (v_artifact_store v).

(** [get_artifact(id)?.ok_or(ArtifactNotFound)?]. *)
Definition vault_require_artifact (id : ArtifactId) (v : V) : Result Artifact VaultError :=
  let? o := vault_get_artifact id v in r_ok_or o ArtifactNotFound.

Definition require_steward (id : ArtifactId) (v : V) : Result unit VaultError :=
  let? a := vault_require_artifact id v in
  if negb (bool_decide (steward a = vault_player v)) then Err NotSteward else Ok tt.

Definition require_active (id : ArtifactId) (v : V) : Result unit VaultError :=
  let? a := vault_require_artifact id v in
  if negb (is_active (status a)) then Err NotActive else Ok tt.

(** ** Artifacts *)

Definition vault_place_leaf (bytes : list byte) (name : string) (mime : option string)
    (ty : string) (now : Z) : VM Artifact :=
  id ← map_err (λ e, StoreError (vault_error_message e)) (on_payloads (store_payload bytes));
  player ← gets vault_player;
  let artifact := fresh_artifact id ty player
    [{| grantee := player; mode := Permanent; granted_at := now; granted_by := player |}] now
    (Some {| payload_name := name; payload_size := Z.of_nat (length bytes); mime_type := mime |}) in
  on_artifacts (put_artifact artifact);;
  mret artifact.

Definition vault_place_tree_with_id (id : ArtifactId) (ty : string) (audience : list PlayerId)
    (now : Z) : VM Artifact :=
  player ← gets vault_player;
  let artifact := fresh_artifact id ty player (audience_to_grants audience now player) now None in
  on_artifacts (put_artifact artifact);;
  mret artifact.

Definition vault_place_tree (rnd : arr32) (ty : string) (audience : list PlayerId)
    (now : Z) : VM Artifact :=
  player ← gets vault_player;
  let artifact := fresh_artifact (generate_tree_id rnd) ty player
                    (audience_to_grants audience now player) now None in
  on_artifacts (put_artifact artifact);;
  mret artifact.

Definition vault_get_payload (id : ArtifactId) (v : V) : Result (option (list byte)) VaultError :=
  get_payload id (v_payload_store v).

Definition vault_store_payload (bytes : list byte) : VM ArtifactId :=
  on_payloads (store_payload bytes).

Definition vault_has_payload (id : ArtifactId) (v : V) : bool := has_payload id (v_payload_store v).

Definition vault_compose (id child : ArtifactId) (pos : Z) (lbl : option string) : VM unit :=
  reads (require_steward id);;
  on_artifacts (add_ref id {| ref_artifact_id := child; position := pos; label := lbl |}).

Definition vault_remove_ref (id child : ArtifactId) : VM unit :=
  reads (require_steward id);;
  on_artifacts (remove_ref id child).

Definition vault_grant_access (id : ArtifactId) (p : PlayerId) (m : AccessMode) (now : Z) : VM unit :=
  reads (require_steward id);;
  reads (require_active id);;
  artifact ← reads (vault_require_artifact id);
  if any (grants_to p now) (grants artifact) then fail AlreadyGranted
  else
    player ← gets vault_player;
    on_artifacts (add_grant id
      {| grantee := p; mode := m; granted_at := now; granted_by := player |}).

Definition vault_revoke_access (id : ArtifactId) (p : PlayerId) : VM unit :=
  reads (require_steward id);;
  reads (require_active id);;
  artifact ← reads (vault_require_artifact id);
  match find_first (λ g, bool_decide (grantee g = p)) (grants artifact) with
  | Some g => match mode g with
              | Permanent => fail CannotRevoke
              | _ => on_artifacts (remove_grant id p)
              end
  | None => fail ArtifactNotFound
  end.

Definition vault_recall (id : ArtifactId) (now : Z) : VM unit :=
  reads (require_steward id);;
  reads (require_active id);;
  on_artifacts (update_status id (Recalled now)).

Definition vault_transfer_stewardship (id : ArtifactId) (new_steward : PlayerId) (now : Z) : VM unit :=
  reads (require_steward id);;
  reads (require_active id);;
  artifact ← reads (vault_require_artifact id);
  let record := {| sr_from := steward artifact; sr_to := new_steward; sr_timestamp := now |} in
  on_artifacts (record_stewardship_transfer id record);;
  on_artifacts (update_steward id new_steward);;
  on_artifacts (update_status id (Transferred new_steward now)).

(** ** Attention *)

Definition vault_navigate_to (id : ArtifactId) (now : Z) : VM unit := on_log (log_navigate_to id now).

Definition vault_navigate_back (id : ArtifactId) (now : Z) : VM unit :=
  on_log (log_navigate_back id now).

Definition vault_current_focus (v : V) : option ArtifactId := log_current_focus (v_attention_log v).

Definition vault_attention_value `{ExpF32} (id : ArtifactId) (now : Z) (v : V)
    : Result AttentionValue VaultError :=
  let? o := vault_get_artifact id v in
  let? a := r_ok_or o ArtifactNotFound in
  Ok (compute_heat id (map_to_list (v_peer_attention v)) (audience a now) now).

Definition vault_heat `{ExpF32} (id : ArtifactId) (now : Z) (v : V) : Result f32 VaultError :=
  let? val := vault_attention_value id now v in Ok (heat val).

Definition vault_attention_events (v : V) : Result (list AttentionSwitchEvent) VaultError :=
  log_events (v_attention_log v).

(** ** Inbox *)

Definition vault_create_inbox (rnd : arr32) (now : Z) : VM Artifact :=
  player ← gets vault_player;
  vault_place_tree rnd "inbox" [player] now.

Definition vault_add_connection_request (inbox : ArtifactId) (from_player : PlayerId)
    (id : ArtifactId) (now : Z) : VM unit :=
  reads (require_steward inbox);;
  inbox_artifact ← reads (vault_require_artifact inbox);
  on_artifacts (add_ref inbox
    {| ref_artifact_id := id;
       position := Z.of_nat (length (references inbox_artifact));
       label := Some ("connection-request:" +:+ hex32 from_player) |});;
  ignore (vault_navigate_to inbox now).

Definition vault_steward_history (id : ArtifactId) (v : V)
    : Result (list StewardshipRecord) VaultError :=
  steward_history id (v_artifact_store v).

(** ** Peers *)

Definition vault_peer (p : PlayerId) (name : option string) (now : Z) : VM unit :=
  on_peers (add_peer p name now).

Definition vault_unpeer (p : PlayerId) : VM unit :=
  on_peers (remove_peer p);;
  modify (λ v, set_peer_attention (delete p (v_peer_attention v)) v).

Definition vault_peers (v : V) : list PeerEntry := registry_peers (v_peer_registry v).

Definition vault_ingest_peer_log (p : PlayerId) (l : list AttentionSwitchEvent) : VM unit :=
  known ← gets (λ v, is_peer p (v_peer_registry v));
  if negb known then fail NotPeered
  else modify (λ v, set_peer_attention (<[p := l]> (v_peer_attention v)) v).

Definition vault_check_peer_integrity (p : PlayerId) (theirs : list AttentionSwitchEvent) (v : V)
    : IntegrityResult :=
  log_check_peer_integrity p theirs (v_attention_log v).
End Vault.

(** [Vault::in_memory]. *)
Definition vault_in_memory (rnd : arr32) (player : PlayerId) (now : Z)
    : Result (Vault InMemoryArtifactStore InMemoryPayloadStore InMemoryAttentionStore) VaultError :=
  let root := fresh_artifact (generate_tree_id rnd) "vault" player
    [{| grantee := player; mode := Permanent; granted_at := now; granted_by := player |}] now None in
  match put_artifact root in_memory_artifact_store_new with
  | (_, Err e) => Err e
  | (store, Ok _) =>
      Ok {| root := root; v_artifact_store := store;
            v_payload_store := in_memory_payload_store_new;
            v_attention_log := attention_log_new player in_memory_attention_store_new;
            v_peer_registry := peer_registry_new player;
            v_peer_attention := ∅ |}
  end.
