(* ===== verification/VaultFacts.v ===== *)
(** * Properties of the vault

    The steward-only operations, the life cycle of an artifact and the
    vault's invariants, proved for any lawful stores. *)

From S2P Require Import Prelude Artifact Crypto Attention Store AttentionLog Peering Heat.
From S2P Require Import Vault.

Section VaultFacts.
Context `{Blake3, Postcard}.
Context {A P T : Type} `{ArtifactStoreLaws A, PayloadStore P, !PayloadStoreLaws P, AttentionStoreLaws T}.
Implicit Types (v : Vault A P T) (id : ArtifactId).

(** What the vault's artifact store holds. *)
Definition view v : InMemoryArtifactStore := store_view (v_artifact_store v).

Lemma on_artifacts_sim {X} (m : M A VaultError X) m' v :
  simulated store_view m m' →
  ∃ s', on_artifacts m v = (set_artifact_store s' v, (m' (view v)).2) ∧
        store_view s' = (m' (view v)).1.
Proof.
  intros Hs. destruct (Hs (v_artifact_store v)) as [Hv Hr].
  exists (m (v_artifact_store v)).1. unfold on_artifacts. rewrite run_zoom, Hr. done.
Qed.

Lemma on_artifacts_modify (m : M A VaultError unit) id f v a :
  simulated store_view m (im_modify id f) → artifacts (view v) !! id = Some a →
  ∃ s', on_artifacts m v = (set_artifact_store s' v, Ok tt) ∧
        store_view s' = set_artifacts (<[id := f a]> (artifacts (view v))) (view v).
Proof.
  intros Hs Ha. destruct (on_artifacts_sim m _ v Hs) as (s' & Hrun & Hview).
  unfold im_modify in *. rewrite Ha in Hrun, Hview. eauto.
Qed.

Lemma require_artifact_view id v :
  vault_require_artifact id v = r_ok_or (artifacts (view v) !! id) ArtifactNotFound.
Proof. unfold vault_require_artifact, vault_get_artifact. by rewrite get_artifact_law. Qed.

Lemma require_steward_view id v :
  require_steward id v =
  match artifacts (view v) !! id with
  | None => Err ArtifactNotFound
  | Some a => if negb (bool_decide (steward a = vault_player v)) then Err NotSteward else Ok tt
  end.
Proof. unfold require_steward. rewrite require_artifact_view. by destruct (_ !! id). Qed.

Lemma require_active_view id v :
  require_active id v =
  match artifacts (view v) !! id with
  | None => Err ArtifactNotFound
  | Some a => if negb (is_active (status a)) then Err NotActive else Ok tt
  end.
Proof. unfold require_active. rewrite require_artifact_view. by destruct (_ !! id). Qed.

(** ** Steward-only operations *)

Inductive steward_op : Type :=
| OpCompose (child : ArtifactId) (pos : Z) (lbl : option string)
| OpRemoveRef (child : ArtifactId)
| OpGrant (p : PlayerId) (m : AccessMode) (now : Z)
| OpRevoke (p : PlayerId)
| OpRecall (now : Z)
| OpTransfer (p : PlayerId) (now : Z)
| OpConnectionRequest (from_player : PlayerId) (req : ArtifactId) (now : Z).

Definition run_op id (op : steward_op) : M (Vault A P T) VaultError unit :=
  match op with
  | OpCompose child pos lbl => vault_compose id child pos lbl
  | OpRemoveRef child => vault_remove_ref id child
  | OpGrant p m now => vault_grant_access id p m now
  | OpRevoke p => vault_revoke_access id p
  | OpRecall now => vault_recall id now
  | OpTransfer p now => vault_transfer_stewardship id p now
  | OpConnectionRequest p req now => vault_add_connection_request id p req now
  end.

Lemma run_op_denied id op v e : require_steward id v = Err e → run_op id op v = (v, Err e).
Proof.
  intros He. destruct op; simpl;
    unfold vault_compose, vault_remove_ref, vault_grant_access, vault_revoke_access,
      vault_recall, vault_transfer_stewardship, vault_add_connection_request;
    by rewrite run_reads_bind, He.
Qed.

Lemma run_op_not_steward id op v a :
  artifacts (view v) !! id = Some a → steward a ≠ vault_player v →
  run_op id op v = (v, Err NotSteward).
Proof.
  intros Ha Hne. apply run_op_denied. by rewrite require_steward_view, Ha, bool_decide_false.
Qed.

Lemma run_op_missing id op v :
  artifacts (view v) !! id = None → run_op id op v = (v, Err ArtifactNotFound).
Proof. intros Ha. apply run_op_denied. by rewrite require_steward_view, Ha. Qed.

(** C9. Only the steward acts: on an artifact someone else stewards, each of the
    seven operations fails with [NotSteward] and leaves the vault untouched;
    on an unknown artifact it fails with [ArtifactNotFound]. *)
Theorem steward_only id op v :
  (∀ a, artifacts (view v) !! id = Some a → steward a ≠ vault_player v →
        run_op id op v = (v, Err NotSteward)) ∧
  (artifacts (view v) !! id = None → run_op id op v = (v, Err ArtifactNotFound)).
Proof. split; [intros a; apply run_op_not_steward|apply run_op_missing]. Qed.

(** Running an operation that passed the steward and activity checks. *)
Lemma run_steward_bind {X} (k : unit → M (Vault A P T) VaultError X) id v a :
  artifacts (view v) !! id = Some a → steward a = vault_player v →
  (reads (require_steward id) ≫= k) v = k tt v.
Proof.
  intros Ha Hs. by rewrite run_reads_bind, require_steward_view, Ha, bool_decide_true.
Qed.

Lemma run_active_bind {X} (k : unit → M (Vault A P T) VaultError X) id v a :
  artifacts (view v) !! id = Some a →
  (reads (require_active id) ≫= k) v =
  if is_active (status a) then k tt v else (v, Err NotActive).
Proof.
  intros Ha. rewrite run_reads_bind, require_active_view, Ha.
  by destruct (is_active (status a)).
Qed.

Lemma run_artifact_bind {X} (k : Artifact → M (Vault A P T) VaultError X) id v a :
  artifacts (view v) !! id = Some a →
  (reads (vault_require_artifact id) ≫= k) v = k a v.
Proof. intros Ha. by rewrite run_reads_bind, require_artifact_view, Ha. Qed.

(** ** Operations one by one *)

Lemma grant_access_run id p m now v a :
  artifacts (view v) !! id = Some a → steward a = vault_player v → is_active (status a) = true →
  any (grants_to p now) (grants a) = false →
  ∃ s', vault_grant_access id p m now v = (set_artifact_store s' v, Ok tt) ∧
    store_view s' = set_artifacts (<[id := set_grants (grants a ++
      [{| grantee := p; mode := m; granted_at := now; granted_by := vault_player v |}]) a]>
      (artifacts (view v))) (view v).
Proof.
  intros Ha Hs Hact Hno. unfold vault_grant_access.
  rewrite (run_steward_bind _ id v a) by done.
  rewrite (run_active_bind _ id v a), Hact by done.
  rewrite (run_artifact_bind _ id v a), Hno, run_gets_bind by done.
  by apply (on_artifacts_modify _ id (λ a, set_grants (grants a ++ _) a) v a (add_grant_law _ _)).
Qed.

Lemma revoke_access_run id p v a g :
  artifacts (view v) !! id = Some a → steward a = vault_player v → is_active (status a) = true →
  find_first (λ g, bool_decide (grantee g = p)) (grants a) = Some g → mode g ≠ Permanent →
  ∃ s', vault_revoke_access id p v = (set_artifact_store s' v, Ok tt) ∧
    store_view s' = set_artifacts (<[id := set_grants
      (retain (λ g, negb (bool_decide (grantee g = p))) (grants a)) a]>
      (artifacts (view v))) (view v).
Proof.
  intros Ha Hs Hact Hg Hm. unfold vault_revoke_access.
  rewrite (run_steward_bind _ id v a) by done.
  rewrite (run_active_bind _ id v a), Hact by done.
  rewrite (run_artifact_bind _ id v a), Hg by done.
  destruct (on_artifacts_modify _ id
    (λ a, set_grants (retain (λ g, negb (bool_decide (grantee g = p))) (grants a)) a)
    v a (remove_grant_law id p) Ha) as (s' & Hrun & Hv).
  exists s'. split; [|done]. by destruct (mode g).
Qed.

Lemma recall_run id now v a :
  artifacts (view v) !! id = Some a → steward a = vault_player v → is_active (status a) = true →
  ∃ s', vault_recall id now v = (set_artifact_store s' v, Ok tt) ∧
    store_view s' = set_artifacts (<[id := set_status (Recalled now) a]>
      (artifacts (view v))) (view v).
Proof.
  intros Ha Hs Hact. unfold vault_recall.
  rewrite (run_steward_bind _ id v a) by done.
  rewrite (run_active_bind _ id v a), Hact by done.
  by apply (on_artifacts_modify _ id _ v a (update_status_law _ _)).
Qed.

Lemma compose_run id child pos lbl v a :
  artifacts (view v) !! id = Some a → steward a = vault_player v →
  ∃ s', vault_compose id child pos lbl v = (set_artifact_store s' v, Ok tt) ∧
    store_view s' = set_artifacts (<[id := set_references (sort_by (by_key position)
      (references a ++ [{| ref_artifact_id := child; position := pos; label := lbl |}])) a]>
      (artifacts (view v))) (view v).
Proof.
  intros Ha Hs. unfold vault_compose. rewrite (run_steward_bind _ id v a) by done.
  by apply (on_artifacts_modify _ id (λ a, set_references (sort_by _ (references a ++ _)) a)
    v a (add_ref_law _ _)).
Qed.

(** A tree to which references were only ever appended: in position order,
    none at or beyond the next free position. *)
Definition refs_bounded (a : Artifact) : Prop :=
  StronglySorted (λ r1 r2, by_key position r1 r2 = true) (references a) ∧
  Forall (λ r, position r < Z.of_nat (length (references a))) (references a).

Definition append_ref (child : ArtifactId) (lbl : option string) (a : Artifact) : Artifact :=
  set_references (references a ++ [{| ref_artifact_id := child;
    position := Z.of_nat (length (references a)); label := lbl |}]) a.

Lemma refs_bounded_append child lbl a :
  refs_bounded a →
  refs_bounded (append_ref child lbl a) ∧
  sort_by (by_key position) (references (append_ref child lbl a)) = references (append_ref child lbl a).
Proof.
  intros [Hs Hp]. unfold refs_bounded; simpl.
  set (r := {| ref_artifact_id := child; position := _; label := lbl |}).
  assert (Forall (λ r', by_key position r' r = true) (references a)) as Hle.
  { eapply Forall_impl; [exact Hp|]. intros r' Hr'. apply Z.leb_le. simpl in *. lia. }
  pose proof (sort_by_snoc (by_key position) _ r Hs Hle) as Heq. split_and!; [| |done].
  - rewrite <- Heq. apply sort_by_sorted, _.
  - rewrite length_app. simpl. apply Forall_app. split; [|repeat constructor; simpl; lia].
    eapply Forall_impl; [exact Hp|]. simpl. lia.
Qed.

Lemma compose_append_run id child lbl v a :
  artifacts (view v) !! id = Some a → steward a = vault_player v → refs_bounded a →
  ∃ s', vault_compose id child (Z.of_nat (length (references a))) lbl v
          = (set_artifact_store s' v, Ok tt) ∧
    store_view s'
      = set_artifacts (<[id := append_ref child lbl a]> (artifacts (view v))) (view v).
Proof.
  intros Ha Hs Hb. destruct (compose_run id child (Z.of_nat (length (references a))) lbl v a Ha Hs)
    as (s' & Hr & Hv).
  exists s'. split; [done|]. rewrite Hv. do 2 f_equal. unfold append_ref at 1. f_equal.
  by apply refs_bounded_append.
Qed.

Lemma remove_ref_run id child v a :
  artifacts (view v) !! id = Some a → steward a = vault_player v →
  ∃ s', vault_remove_ref id child v = (set_artifact_store s' v, Ok tt) ∧
    store_view s' = set_artifacts (<[id := set_references
      (retain (λ r, negb (bool_decide (ref_artifact_id r = child))) (references a)) a]>
      (artifacts (view v))) (view v).
Proof.
  intros Ha Hs. unfold vault_remove_ref. rewrite (run_steward_bind _ id v a) by done.
  by apply (on_artifacts_modify _ id
    (λ a, set_references (retain (λ r, negb (bool_decide (ref_artifact_id r = child))) (references a)) a)
    v a (remove_ref_law _ _)).
Qed.

Lemma record_transfer_run id r v :
  ∃ s', on_artifacts (record_stewardship_transfer id r) v = (set_artifact_store s' v, Ok tt) ∧
    artifacts (store_view s') = artifacts (view v) ∧
    stewardship_history (store_view s')
    = <[id := default [] (stewardship_history (view v) !! id) ++ [r]]> (stewardship_history (view v)).
Proof.
  destruct (on_artifacts_sim _ _ v (record_stewardship_transfer_law id r)) as (s' & Hrun & Hv).
  exists s'. split; [done|]. by rewrite Hv.
Qed.

Lemma put_artifact_run a v :
  ∃ s', on_artifacts (put_artifact a) v = (set_artifact_store s' v, Ok tt) ∧
    store_view s' = set_artifacts (<[artifact_id a := a]> (artifacts (view v))) (view v).
Proof.
  destruct (on_artifacts_sim _ _ v (put_artifact_law a)) as (s' & Hrun & Hv). eauto.
Qed.

(** Reading an artifact, changing a field and putting it back. *)
Lemma get_modify_put_run id (f : Artifact → Artifact) v a :
  artifacts (view v) !! id = Some a → artifact_id (f a) = id →
  ∃ s', (x ← reads (vault_require_artifact id); on_artifacts (put_artifact (f x))) v
          = (set_artifact_store s' v, Ok tt) ∧
    store_view s' = set_artifacts (<[id := f a]> (artifacts (view v))) (view v).
Proof.
  intros Ha Hid. rewrite (run_artifact_bind _ id v a) by done.
  destruct (put_artifact_run (f a) v) as (s' & Hr & Hv). rewrite Hid in Hv. eauto.
Qed.

Lemma transfer_run id p now v a :
  artifacts (view v) !! id = Some a → steward a = vault_player v → is_active (status a) = true →
  ∃ s', vault_transfer_stewardship id p now v = (set_artifact_store s' v, Ok tt) ∧
    artifacts (store_view s')
      = <[id := set_status (Transferred p now) (set_steward p a)]> (artifacts (view v)) ∧
    stewardship_history (store_view s')
      = <[id := default [] (stewardship_history (view v) !! id)
            ++ [{| sr_from := vault_player v; sr_to := p; sr_timestamp := now |}]]>
          (stewardship_history (view v)).
Proof.
  intros Ha Hs Hact. unfold vault_transfer_stewardship.
  rewrite (run_steward_bind _ id v a) by done.
  rewrite (run_active_bind _ id v a), Hact by done.
  rewrite (run_artifact_bind _ id v a), Hs by done.
  edestruct (record_transfer_run id
    {| sr_from := vault_player v; sr_to := p; sr_timestamp := now |} v) as (s1 & Hr1 & Ha1 & Hh1).
  run_with Hr1.
  destruct (on_artifacts_modify _ id _ (set_artifact_store s1 v) a (update_steward_law id p))
    as (s2 & Hr2 & Hv2); [by unfold view; simpl; rewrite Ha1|].
  run_with Hr2.
  destruct (on_artifacts_modify _ id _ (set_artifact_store s2 (set_artifact_store s1 v))
    (set_steward p a) (update_status_law id (Transferred p now))) as (s3 & Hr3 & Hv3).
  { unfold view; simpl. rewrite Hv2. simpl. by rewrite lookup_insert_eq. }
  exists s3. split; [done|]. rewrite Hv3. unfold view; simpl. rewrite Hv2. simpl.
  rewrite insert_insert_eq. unfold view; simpl. by rewrite Ha1, Hh1.
Qed.
(** ** What an operation can do to an artifact *)

Definition refs_sorted (a : Artifact) : Prop :=
  StronglySorted (λ r1 r2, by_key position r1 r2 = true) (references a).

Inductive op_effect : Artifact → Artifact → Prop :=
| effect_references a rs :
    (refs_sorted a → refs_sorted (set_references rs a)) → op_effect a (set_references rs a)
| effect_grants a gs : is_active (status a) = true → op_effect a (set_grants gs a)
| effect_recall a now : is_active (status a) = true → op_effect a (set_status (Recalled now) a)
| effect_transfer a p now : is_active (status a) = true →
    op_effect a (set_status (Transferred p now) (set_steward p a)).

(** The artifacts after an operation: unchanged, or the steward's target
    changed in one of the ways of [op_effect]. *)
Definition op_outcome id v (v' : Vault A P T) : Prop :=
  root v' = root v ∧ v_peer_registry v' = v_peer_registry v ∧
  v_peer_attention v' = v_peer_attention v ∧
  (artifacts (view v') = artifacts (view v) ∨
   ∃ a a', artifacts (view v) !! id = Some a ∧ steward a = vault_player v ∧
           op_effect a a' ∧ artifacts (view v') = <[id := a']> (artifacts (view v))).

Lemma op_outcome_refl id v : op_outcome id v v.
Proof. split_and!; auto. Qed.

Lemma op_outcome_store id v s' a a' :
  artifacts (view v) !! id = Some a → steward a = vault_player v → op_effect a a' →
  artifacts (store_view s') = <[id := a']> (artifacts (view v)) →
  op_outcome id v (set_artifact_store s' v).
Proof. intros. split_and!; [done..|]. right. exists a, a'. done. Qed.

Lemma sorted_add_ref r a :
  refs_sorted (set_references (sort_by (by_key position) (references a ++ [r])) a).
Proof. unfold refs_sorted; simpl. apply sort_by_sorted, _. Qed.

Lemma connection_request_run id p req now v a :
  artifacts (view v) !! id = Some a → steward a = vault_player v →
  op_outcome id v (vault_add_connection_request id p req now v).1.
Proof.
  intros Ha Hs. unfold vault_add_connection_request.
  rewrite (run_steward_bind _ id v a), (run_artifact_bind _ id v a) by done.
  edestruct (on_artifacts_modify (add_ref id
      {| ref_artifact_id := req; position := Z.of_nat (length (references a));
         label := Some ("connection-request:" +:+ hex32 p) |}) id
      (λ a', set_references (sort_by (by_key position) (references a' ++ _)) a') v a
      (add_ref_law _ _) Ha) as (s' & Hrun & Hv).
  run_with Hrun. unfold ignore, vault_navigate_to, on_log.
  rewrite run_zoom. unfold op_outcome, view in *; simpl. split_and!; [done..|]. right.
  exists a. eexists. split_and!; [done|done|constructor; intros _; apply sorted_add_ref|].
  by rewrite Hv.
Qed.

(** The operations that [require_active] guards. *)
Definition needs_active (op : steward_op) : bool :=
  match op with
  | OpGrant _ _ _ | OpRevoke _ | OpRecall _ | OpTransfer _ _ => true
  | _ => false
  end.

Lemma run_op_inactive id op v a :
  artifacts (view v) !! id = Some a → steward a = vault_player v →
  is_active (status a) = false → needs_active op = true →
  run_op id op v = (v, Err NotActive).
Proof.
  intros Ha Hs Hact Hop. destruct op; try done; simpl;
    unfold vault_grant_access, vault_revoke_access, vault_recall, vault_transfer_stewardship;
    by rewrite (run_steward_bind _ id v a), (run_active_bind _ id v a), Hact.
Qed.

Lemma grant_outcome id p m now v a :
  artifacts (view v) !! id = Some a → steward a = vault_player v → is_active (status a) = true →
  op_outcome id v (vault_grant_access id p m now v).1.
Proof.
  intros Ha Hs Hact. destruct (any (grants_to p now) (grants a)) eqn:Hno.
  - unfold vault_grant_access.
    rewrite (run_steward_bind _ id v a), (run_active_bind _ id v a), Hact by done.
    rewrite (run_artifact_bind _ id v a), Hno by done. apply op_outcome_refl.
  - destruct (grant_access_run id p m now v a Ha Hs Hact Hno) as (s' & -> & Hv).
    eapply op_outcome_store; [done..| |by rewrite Hv]. by constructor.
Qed.

Lemma revoke_outcome id p v a :
  artifacts (view v) !! id = Some a → steward a = vault_player v → is_active (status a) = true →
  op_outcome id v (vault_revoke_access id p v).1.
Proof.
  intros Ha Hs Hact.
  destruct (find_first (λ g, bool_decide (grantee g = p)) (grants a)) as [g|] eqn:Hg;
    [destruct (decide (mode g = Permanent)) as [Hm|Hm]|].
  2: { destruct (revoke_access_run id p v a g Ha Hs Hact Hg Hm) as (s' & -> & Hv).
       eapply op_outcome_store; [done..| |by rewrite Hv]. by constructor. }
  all: unfold vault_revoke_access;
    rewrite (run_steward_bind _ id v a), (run_active_bind _ id v a), Hact by done;
    rewrite (run_artifact_bind _ id v a), Hg, ?Hm by done; apply op_outcome_refl.
Qed.

Lemma run_op_outcome id op v : op_outcome id v (run_op id op v).1.
Proof.
  destruct (artifacts (view v) !! id) as [a|] eqn:Ha.
  2: { rewrite run_op_missing by done. apply op_outcome_refl. }
  destruct (decide (steward a = vault_player v)) as [Hs|Hs].
  2: { rewrite (run_op_not_steward id op v a) by done. apply op_outcome_refl. }
  destruct (needs_active op && negb (is_active (status a))) eqn:Hgate.
  { apply andb_true_iff in Hgate as [? ?%negb_true_iff].
    rewrite (run_op_inactive id op v a) by done. apply op_outcome_refl. }
  destruct op as [child pos lbl|child|p m now|p|now|p now|p req now]; simpl in *;
    try apply negb_false_iff in Hgate.
  - destruct (compose_run id child pos lbl v a Ha Hs) as (s' & -> & Hv).
    eapply op_outcome_store; [done..| |by rewrite Hv]. constructor. intros _. apply sorted_add_ref.
  - destruct (remove_ref_run id child v a Ha Hs) as (s' & -> & Hv).
    eapply op_outcome_store; [done..| |by rewrite Hv]. constructor. apply StronglySorted_retain.
  - by eapply grant_outcome.
  - by eapply revoke_outcome.
  - destruct (recall_run id now v a Ha Hs Hgate) as (s' & -> & Hv).
    eapply op_outcome_store; [done..| |by rewrite Hv]. by constructor.
  - destruct (transfer_run id p now v a Ha Hs Hgate) as (s' & -> & Hv & _).
    eapply op_outcome_store; [done..| |done]. by constructor.
  - by eapply connection_request_run.
Qed.

(** ** The life cycle *)

Definition run_ops (ops : list (ArtifactId * steward_op)) v : Vault A P T :=
  foldl (λ v '(id, op), (run_op id op v).1) v ops.

(** Steward, status and grants: what a recalled or transferred artifact
    keeps. *)
Definition same_control (a a' : Artifact) : Prop :=
  steward a' = steward a ∧ status a' = status a ∧ grants a' = grants a.

Lemma run_op_frozen id0 op v id a :
  artifacts (view v) !! id = Some a → is_active (status a) = false →
  ∃ a', artifacts (view (run_op id0 op v).1) !! id = Some a' ∧ same_control a a'.
Proof.
  intros Ha Hact. destruct (run_op_outcome id0 op v) as (_ & _ & _ & Hout).
  destruct Hout as [->|(b & b' & Hb & _ & Heff & ->)]; [by exists a|].
  destruct (decide (id0 = id)) as [->|Hne].
  - rewrite Hb in Ha. injection Ha as ->. exists b'. rewrite lookup_insert_eq.
    split; [done|]. destruct Heff; try congruence. done.
  - exists a. by rewrite lookup_insert_ne.
Qed.

(** C15. A recalled or transferred artifact is frozen: no sequence of steward
    operations, on it or on other artifacts, changes its steward, its status
    or its grants again. *)
Theorem inactive_frozen ops v id a :
  artifacts (view v) !! id = Some a → is_active (status a) = false →
  ∃ a', artifacts (view (run_ops ops v)) !! id = Some a' ∧ same_control a a'.
Proof.
  revert v a. induction ops as [|[id0 op] ops IH]; intros v a Ha Hact; simpl.
  - by exists a.
  - destruct (run_op_frozen id0 op v id a Ha Hact) as (a1 & Ha1 & Hs1 & Ht1 & Hg1).
    destruct (IH _ a1 Ha1) as (a2 & Ha2 & Hs2 & Ht2 & Hg2); [by rewrite Ht1|].
    exists a2. split; [done|]. split_and!; congruence.
Qed.

(** [transfer_stewardship] on every branch: the errors leave the vault as it
    was; on success the new steward and the transfer are recorded in the
    artifact and in its history, and nothing else changes. *)
Theorem transfer_stewardship_spec id p now v :
  match artifacts (view v) !! id with
  | None => vault_transfer_stewardship id p now v = (v, Err ArtifactNotFound)
  | Some a =>
      if bool_decide (steward a ≠ vault_player v) then
        vault_transfer_stewardship id p now v = (v, Err NotSteward)
      else if negb (is_active (status a)) then
        vault_transfer_stewardship id p now v = (v, Err NotActive)
      else ∃ s', vault_transfer_stewardship id p now v = (set_artifact_store s' v, Ok tt) ∧
        artifacts (store_view s')
          = <[id := set_status (Transferred p now) (set_steward p a)]> (artifacts (view v)) ∧
        stewardship_history (store_view s')
          = <[id := default [] (stewardship_history (view v) !! id)
                ++ [{| sr_from := steward a; sr_to := p; sr_timestamp := now |}]]>
              (stewardship_history (view v))
  end.
Proof.
  destruct (artifacts (view v) !! id) as [a|] eqn:Ha.
  2: by apply (run_op_missing id (OpTransfer p now)).
  case_bool_decide as Hs; [by apply (run_op_not_steward id (OpTransfer p now) v a)|].
  destruct (is_active (status a)) eqn:Hact; simpl.
  - rewrite Hs. by apply transfer_run.
  - by apply (run_op_inactive id (OpTransfer p now) v a).
Qed.

(** A permanent grant is revocable once an expired timed grant for the same
    player precedes it: granting for a limited time, granting permanently
    after the expiry, then revoking succeeds at every step and leaves the
    player without any grant. *)
Theorem permanent_grant_revoked id p (t0 expires t1 : Z) v a :
  artifacts (view v) !! id = Some a → steward a = vault_player v → is_active (status a) = true →
  (∀ g, g ∈ grants a → grantee g ≠ p) → expires <= t1 →
  ∃ v1 v2 v3 a2 a3,
    vault_grant_access id p (Timed expires) t0 v = (v1, Ok tt) ∧
    vault_grant_access id p Permanent t1 v1 = (v2, Ok tt) ∧
    vault_revoke_access id p v2 = (v3, Ok tt) ∧
    artifacts (view v2) !! id = Some a2 ∧ p ∈ audience a2 t1 ∧
    artifacts (view v3) !! id = Some a3 ∧ ∀ g, g ∈ grants a3 → grantee g ≠ p.
Proof.
  intros Ha Hs Hact Hno Hexp.
  assert (any (grants_to p t0) (grants a) = false) as Hn0.
  { apply any_false. intros g Hg. unfold grants_to.
    by rewrite bool_decide_false by (by apply Hno). }
  destruct (grant_access_run id p (Timed expires) t0 v a Ha Hs Hact Hn0) as (s1 & Hr1 & Hv1).
  set (g1 := {| grantee := p; mode := Timed expires; granted_at := t0;
                granted_by := vault_player v |}) in *.
  set (a1 := set_grants (grants a ++ [g1]) a) in *.
  assert (artifacts (view (set_artifact_store s1 v)) !! id = Some a1) as Ha1.
  { unfold view; simpl. rewrite Hv1. simpl. by rewrite lookup_insert_eq. }
  assert (any (grants_to p t1) (grants a1) = false) as Hn1.
  { apply any_false. intros g. simpl. rewrite elem_of_app, list_elem_of_singleton.
    unfold grants_to. intros [Hg| ->]; [by rewrite bool_decide_false by (by apply Hno)|].
    simpl. rewrite (proj2 (Z.leb_le _ _)) by done. by rewrite andb_false_r. }
  destruct (grant_access_run id p Permanent t1 (set_artifact_store s1 v) a1 Ha1 Hs Hact Hn1)
    as (s2 & Hr2 & Hv2).
  set (a2 := set_grants _ a1) in *.
  assert (artifacts (view (set_artifact_store s2 (set_artifact_store s1 v))) !! id = Some a2) as Ha2.
  { unfold view; simpl. rewrite Hv2. simpl. by rewrite lookup_insert_eq. }
  assert (find_first (λ g, bool_decide (grantee g = p)) (grants a2) = Some g1) as Hf.
  { simpl. rewrite <- app_assoc, find_first_app.
    rewrite (proj2 (find_first_None _ _)); simpl; [by rewrite bool_decide_true|].
    intros g Hg. by apply bool_decide_false, Hno. }
  destruct (revoke_access_run id p _ a2 g1 Ha2 Hs Hact Hf) as (s3 & Hr3 & Hv3); [done|].
  do 3 eexists. exists a2. eexists. split_and!; [done..| | |].
  - unfold audience. apply list_elem_of_fmap.
    exists {| grantee := p; mode := Permanent; granted_at := t1; granted_by := vault_player v |}.
    split; [done|]. apply elem_of_retain. split; [|done]. simpl.
    apply elem_of_app. right. apply list_elem_of_singleton. done.
  - unfold view; simpl. rewrite Hv3. simpl. by rewrite lookup_insert_eq.
  - intros g. simpl. intros [_ Hg]%elem_of_retain.
    by apply negb_true_iff, bool_decide_eq_false in Hg.
Qed.
(** ** Placing artifacts *)

(** Everything but the stores is as before, and the artifact store holds
    [art] in addition. *)
Definition placed v (v' : Vault A P T) (art : Artifact) : Prop :=
  root v' = root v ∧ v_attention_log v' = v_attention_log v ∧
  v_peer_registry v' = v_peer_registry v ∧ v_peer_attention v' = v_peer_attention v ∧
  view v' = set_artifacts (<[artifact_id art := art]> (artifacts (view v))) (view v).

(** The artifact [place_leaf] creates. *)
Definition leaf_artifact v (bytes : list byte) (name : string) (mime : option string)
    (ty : string) (now : Z) : Artifact :=
  fresh_artifact (leaf_id bytes) ty (vault_player v)
    [{| grantee := vault_player v; mode := Permanent; granted_at := now;
        granted_by := vault_player v |}] now
    (Some {| payload_name := name; payload_size := Z.of_nat (length bytes); mime_type := mime |}).

Lemma place_leaf_run bytes name mime ty now v :
  ∃ v', vault_place_leaf bytes name mime ty now v = (v', Ok (leaf_artifact v bytes name mime ty now)) ∧
        placed v v' (leaf_artifact v bytes name mime ty now) ∧
        payload_view (v_payload_store v') = <[leaf_id bytes := bytes]> (payload_view (v_payload_store v)).
Proof.
  unfold vault_place_leaf.
  destruct (store_payload_law bytes (v_payload_store v)) as (ps & Hps & Hpv).
  set (v1 := set_payload_store ps v).
  assert (map_err (λ e, StoreError (vault_error_message e)) (on_payloads (store_payload bytes)) v
          = (v1, Ok (leaf_id bytes))) as Hr1.
  { unfold map_err, on_payloads, zoom. by rewrite Hps. }
  run_with Hr1. rewrite run_gets_bind.
  destruct (put_artifact_run (leaf_artifact v bytes name mime ty now) v1) as (s' & Hr2 & Hv2).
  exists (set_artifact_store s' v1). split; [|split].
  - exact (run_bind_ok _ _ _ _ _ Hr2).
  - split_and!; [done..|]. unfold view; simpl. by rewrite Hv2.
  - done.
Qed.

Lemma place_tree_with_id_run id ty aud now v :
  let art := fresh_artifact id ty (vault_player v)
               (audience_to_grants aud now (vault_player v)) now None in
  ∃ v', vault_place_tree_with_id id ty aud now v = (v', Ok art) ∧ placed v v' art.
Proof.
  intros art. unfold vault_place_tree_with_id. rewrite run_gets_bind.
  destruct (put_artifact_run art v) as (s' & Hr & Hv).
  exists (set_artifact_store s' v). split; [exact (run_bind_ok _ _ _ _ _ Hr)|].
  split_and!; [done..|]. unfold view; simpl. by rewrite Hv.
Qed.

(** [place_tree] is [place_tree_with_id] at a random identifier. *)
Lemma place_tree_eq rnd ty aud now v :
  vault_place_tree rnd ty aud now v = vault_place_tree_with_id (generate_tree_id rnd) ty aud now v.
Proof. done. Qed.

Lemma place_tree_run rnd ty aud now v :
  let art := fresh_artifact (generate_tree_id rnd) ty (vault_player v)
               (audience_to_grants aud now (vault_player v)) now None in
  ∃ v', vault_place_tree rnd ty aud now v = (v', Ok art) ∧ placed v v' art.
Proof. rewrite place_tree_eq. apply place_tree_with_id_run. Qed.

(** Content addressing cuts both ways: after transferring a leaf away, its
    former steward gets it back, active and with only their own grant, by
    placing the same payload again. *)
Theorem place_leaf_reclaims bytes name mime ty p now1 now2 v a :
  artifacts (view v) !! leaf_id bytes = Some a → steward a = vault_player v →
  is_active (status a) = true → p ≠ vault_player v →
  ∃ v1 v2 a1 a2,
    vault_transfer_stewardship (leaf_id bytes) p now1 v = (v1, Ok tt) ∧
    artifacts (view v1) !! leaf_id bytes = Some a1 ∧ steward a1 = p ∧
    vault_place_leaf bytes name mime ty now2 v1 = (v2, Ok a2) ∧
    artifacts (view v2) !! leaf_id bytes = Some a2 ∧
    steward a2 = vault_player v ∧ status a2 = Active ∧ audience a2 now2 = [vault_player v].
Proof.
  intros Ha Hs Hact Hp.
  destruct (transfer_run (leaf_id bytes) p now1 v a Ha Hs Hact) as (s1 & Hr1 & Ha1 & _).
  destruct (place_leaf_run bytes name mime ty now2 (set_artifact_store s1 v))
    as (v2 & Hr2 & (_ & _ & _ & _ & Hv2) & _).
  do 4 eexists. split_and!; [exact Hr1| | |exact Hr2| |done..].
  - unfold view; simpl. rewrite Ha1. apply lookup_insert_eq.
  - done.
  - rewrite Hv2. simpl. apply lookup_insert_eq.
Qed.

(** ** The vault as a transition system *)

Inductive vault_step : Vault A P T → Vault A P T → Prop :=
| step_op id op v : vault_step v (run_op id op v).1
| step_place_leaf bytes name mime ty now v :
    vault_step v (vault_place_leaf bytes name mime ty now v).1
| step_place_tree rnd ty aud now v : vault_step v (vault_place_tree rnd ty aud now v).1
| step_place_tree_with_id id ty aud now v :
    vault_step v (vault_place_tree_with_id id ty aud now v).1
| step_store_payload bytes v : vault_step v (vault_store_payload bytes v).1
| step_vault_navigate_to id now v : vault_step v (vault_navigate_to id now v).1
| step_vault_navigate_back id now v : vault_step v (vault_navigate_back id now v).1
| step_create_inbox rnd now v : vault_step v (vault_create_inbox rnd now v).1
| step_peer p name now v : vault_step v (vault_peer p name now v).1
| step_unpeer p v : vault_step v (vault_unpeer p v).1
| step_ingest p l v : vault_step v (vault_ingest_peer_log p l v).1.

(** Artifacts are stored under their own id with references in position
    order, no peer is listed twice, and only peers' logs are kept. *)
Record vault_wf v : Prop := {
  wf_artifacts k a : artifacts (view v) !! k = Some a → artifact_id a = k ∧ refs_sorted a;
  wf_registry : registry_wf (v_peer_registry v);
  wf_peer_attention p : is_Some (v_peer_attention v !! p) → is_peer p (v_peer_registry v) = true;
}.

Lemma op_effect_wf a a' : op_effect a a' → artifact_id a' = artifact_id a ∧ (refs_sorted a → refs_sorted a').
Proof. by destruct 1. Qed.

Lemma vault_wf_placed v v' art :
  placed v v' art → references art = [] → vault_wf v → vault_wf v'.
Proof.
  intros (_ & _ & Hr & Hp & Hv) Href [Ha Hreg Hatt]. split; rewrite ?Hr, ?Hp; [|done..].
  intros k a. rewrite Hv. simpl. destruct (decide (artifact_id art = k)) as [<-|Hne].
  - rewrite lookup_insert_eq. intros [= <-]. split; [done|]. unfold refs_sorted.
    rewrite Href. constructor.
  - rewrite lookup_insert_ne by done. apply Ha.
Qed.

Lemma vault_wf_op id v v' : op_outcome id v v' → vault_wf v → vault_wf v'.
Proof.
  intros (_ & Hr & Hp & Hout) [Ha Hreg Hatt]. split; rewrite ?Hr, ?Hp; [|done..].
  destruct Hout as [->|(a & a' & Hl & _ & Heff & ->)]; [done|].
  intros k b. destruct (decide (id = k)) as [<-|Hne].
  - rewrite lookup_insert_eq. intros [= <-]. destruct (Ha id a Hl), (op_effect_wf a a' Heff).
    split; [congruence|auto].
  - rewrite lookup_insert_ne by done. apply Ha.
Qed.

Lemma vault_wf_view v v' :
  view v' = view v → v_peer_registry v' = v_peer_registry v →
  v_peer_attention v' = v_peer_attention v → vault_wf v → vault_wf v'.
Proof. intros Hv Hr Hp [Ha Hreg Hatt]. split; by rewrite ?Hv, ?Hr, ?Hp. Qed.

Lemma vault_wf_unpeer p v : vault_wf v → vault_wf (vault_unpeer p v).1.
Proof.
  intros [Ha Hreg Hatt]. unfold vault_unpeer. rewrite run_bind. unfold on_peers, zoom.
  pose proof (registry_wf_remove p (v_peer_registry v) Hreg) as Hreg'.
  destruct (remove_peer p (v_peer_registry v)) as [r' [u|e]] eqn:Hrm; simpl in *.
  - split; [done..|]. simpl. intros q. destruct (decide (p = q)) as [<-|Hne].
    { rewrite lookup_delete_eq. by intros [? ?]. }
    rewrite lookup_delete_ne by done. intros Hq%Hatt.
    unfold remove_peer in Hrm. destruct (_ =? _)%nat; [done|]. injection Hrm as <- _.
    rewrite is_peer_true in *. simpl. rewrite fmap_retain_peers, elem_of_retain.
    split; [done|]. by apply negb_true_iff, bool_decide_false.
  - apply remove_peer_err in Hrm as (-> & _ & _). by split.
Qed.

Lemma vault_wf_peer p name now v : vault_wf v → vault_wf (vault_peer p name now v).1.
Proof.
  intros [Ha Hreg Hatt]. unfold vault_peer, on_peers. rewrite run_zoom. split; [done| |].
  - by apply registry_wf_add.
  - intros q Hq%Hatt. simpl. unfold add_peer. destruct (is_peer p _); [done|]. simpl.
    rewrite is_peer_true in *. simpl. rewrite fmap_app, elem_of_app. by left.
Qed.

Lemma vault_wf_ingest p l v : vault_wf v → vault_wf (vault_ingest_peer_log p l v).1.
Proof.
  intros [Ha Hreg Hatt]. unfold vault_ingest_peer_log. rewrite run_gets_bind.
  destruct (is_peer p (v_peer_registry v)) eqn:Hp; simpl; [|done]. split; [done..|]. simpl.
  intros q. destruct (decide (p = q)) as [<-|Hne]; [done|].
  rewrite lookup_insert_ne by done. apply Hatt.
Qed.

Lemma vault_wf_step v v' : vault_step v v' → vault_wf v → vault_wf v'.
Proof.
  intros Hstep Hwf. destruct Hstep as
    [id op v|bytes name mime ty now v|rnd ty aud now v|id ty aud now v|bytes v|id now v|id now v
    |rnd now v|p name now v|p v|p l v].
  - by eapply vault_wf_op; [apply run_op_outcome|].
  - destruct (place_leaf_run bytes name mime ty now v) as (v' & -> & Hp & _).
    by eapply vault_wf_placed.
  - destruct (place_tree_run rnd ty aud now v) as (v' & -> & Hp).
    by apply (vault_wf_placed _ _ _ Hp).
  - destruct (place_tree_with_id_run id ty aud now v) as (v' & -> & Hp).
    by apply (vault_wf_placed _ _ _ Hp).
  - unfold vault_store_payload, on_payloads. rewrite run_zoom. by apply (vault_wf_view v).
  - unfold vault_navigate_to, on_log. rewrite run_zoom. by apply (vault_wf_view v).
  - unfold vault_navigate_back, on_log. rewrite run_zoom. by apply (vault_wf_view v).
  - unfold vault_create_inbox. rewrite run_gets_bind.
    destruct (place_tree_run rnd "inbox" [vault_player v] now v) as (v' & -> & Hp).
    by apply (vault_wf_placed _ _ _ Hp).
  - by apply vault_wf_peer.
  - by apply vault_wf_unpeer.
  - by apply vault_wf_ingest.
Qed.

(** C4. The well-formedness of a vault is preserved by any sequence of its
    operations, successful or not: artifacts stay filed under their own
    identifiers with references in position order, the peer list stays free of
    duplicates, and attention replicas are only kept for current peers. *)
Theorem vault_wf_reachable v v' : rtc vault_step v v' → vault_wf v → vault_wf v'.
Proof. induction 1; eauto using vault_wf_step. Qed.
End VaultFacts.

(** A vault just created in memory is well formed. *)
Lemma vault_in_memory_wf `{Blake3, Postcard} rnd player now :
  ∃ v, vault_in_memory rnd player now = Ok v ∧ vault_wf v ∧ vault_player v = player ∧
       v_attention_log v = attention_log_new player in_memory_attention_store_new.
Proof.
  eexists. split; [done|]. split; [|done]. split.
  - intros k a. unfold view; simpl. rewrite lookup_insert. case_decide as Hk; [|by rewrite lookup_empty].
    intros [= <-]. split; [done|constructor].
  - constructor.
  - simpl. intros p. rewrite lookup_empty. by intros [? ?].
Qed.
