(* ===== verification/Story.v ===== *)
(** * Stories

    Models [indras-artifacts/src/story.rs]: a story is a tree artifact whose
    references, in position order, are its entries. *)

From S2P Require Import Prelude Artifact Crypto Attention Store AttentionLog Peering Heat.
From S2P Require Import Vault VaultFacts.

Record Story : Type := story_from_id { story_id : ArtifactId }.

Section Story.
Context `{Blake3, Postcard}.
Context {A P T : Type} `{ArtifactStore A, PayloadStore P, AttentionStore T}.

Definition story_create (rnd : arr32) (audience : list PlayerId) (now : Z)
    : M (Vault A P T) VaultError Story :=
  artifact ← vault_place_tree rnd "story" audience now;
  mret (story_from_id (artifact_id artifact)).

Definition story_create_dm (peer_id : PlayerId) (now : Z) : M (Vault A P T) VaultError Story :=
  self_id ← gets vault_player;
  let id := dm_story_id self_id peer_id in
  artifact ← vault_place_tree_with_id id "story" [self_id; peer_id] now;
  mret (story_from_id (artifact_id artifact)).

Definition story_entry_count (s : Story) (v : Vault A P T) : Result nat VaultError :=
  let? story := vault_require_artifact (story_id s) v in
  Ok (length (references story)).

Definition story_append (s : Story) (id : ArtifactId) (lbl : option string)
    : M (Vault A P T) VaultError unit :=
  next_pos ← reads (story_entry_count s);
  vault_compose (story_id s) id (Z.of_nat next_pos) lbl.

Definition story_send_message (s : Story) (text : string) (now : Z)
    : M (Vault A P T) VaultError ArtifactId :=
  leaf ← vault_place_leaf (as_bytes text) "message" None "message" now;
  story_append s (artifact_id leaf) None;;
  mret (artifact_id leaf).

(** The loop that resolves the references one by one. *)
Fixpoint story_entries_loop (refs : list ArtifactRef) (v : Vault A P T)
    : Result (list (ArtifactRef * option Artifact)) VaultError :=
  match refs with
  | [] => Ok []
  | r :: refs =>
      let? artifact := vault_get_artifact (ref_artifact_id r) v in
      let? entries := story_entries_loop refs v in
      Ok ((r, artifact) :: entries)
  end.

Definition story_entries (s : Story) (v : Vault A P T)
    : Result (list (ArtifactRef * option Artifact)) VaultError :=
  let? story := vault_require_artifact (story_id s) v in
  let? entries := story_entries_loop (references story) v in
  Ok (sort_by (by_key (λ e, position e.1)) entries).

Definition story_branch (s : Story) (from_position : Z) (rnd : arr32) (audience : list PlayerId)
    (now : Z) : M (Vault A P T) VaultError Story :=
  sub ← story_create rnd audience now;
  vault_compose (story_id s) (story_id sub) from_position (Some "branch");;
  mret sub.
End Story.

Section StoryFacts.
Context `{Blake3, Postcard}.
Context {A P T : Type} `{ArtifactStoreLaws A, PayloadStore P, !PayloadStoreLaws P, AttentionStoreLaws T}.
Implicit Types (v : Vault A P T).

(** The entries of a story that was only appended to carry the positions
    0, 1, 2, ... in order. *)
Definition dense (a : Artifact) : Prop :=
  position <$> references a = Z.of_nat <$> List.seq 0 (length (references a)).

Lemma dense_lookup a i r : dense a → references a !! i = Some r → position r = Z.of_nat i.
Proof.
  intros Hd Hi.
  assert ((position <$> references a) !! i = Some (position r)) as Hp
    by (by rewrite list_lookup_fmap, Hi).
  rewrite Hd, list_lookup_fmap in Hp.
  apply fmap_Some in Hp as (j & Hj & ->). apply lookup_seq in Hj. lia.
Qed.

Lemma seq_sorted m n : StronglySorted Z.le (Z.of_nat <$> List.seq m n).
Proof.
  revert m. induction n as [|n IH]; intros m; csimpl; constructor; [done|].
  apply Forall_forall. intros z (j & -> & Hj)%list_elem_of_fmap. apply elem_of_seq in Hj. lia.
Qed.

Lemma sorted_of_positions (l : list ArtifactRef) :
  StronglySorted Z.le (position <$> l) →
  StronglySorted (λ r1 r2, by_key position r1 r2 = true) l.
Proof.
  induction l as [|r l IH]; csimpl; [constructor|]. inversion_clear 1 as [|? ? Hs Hall].
  constructor; [auto|]. rewrite Forall_fmap in Hall. eapply Forall_impl; [done|].
  intros r'. simpl. unfold by_key. by rewrite Z.leb_le.
Qed.

Lemma dense_sorted a : dense a → refs_sorted a.
Proof. intros Hd. apply sorted_of_positions. rewrite Hd. apply seq_sorted. Qed.

(** The reference an append adds to a dense story. *)
Definition appended (a : Artifact) (id : ArtifactId) (lbl : option string) : Artifact :=
  set_references (references a ++ [{| ref_artifact_id := id;
    position := Z.of_nat (length (references a)); label := lbl |}]) a.

Lemma dense_appended a id lbl : dense a → dense (appended a id lbl).
Proof.
  unfold dense. simpl. intros Hd. rewrite fmap_app, length_app, Hd. simpl.
  rewrite seq_app, fmap_app. done.
Qed.

Lemma dense_append_sort a id lbl :
  dense a →
  sort_by (by_key position) (references (appended a id lbl)) = references (appended a id lbl).
Proof. intros Hd. apply (sort_by_id _), dense_sorted, dense_appended, Hd. Qed.

Lemma story_append_run (s : Story) id lbl v a :
  artifacts (view v) !! story_id s = Some a → steward a = vault_player v → dense a →
  ∃ s', story_append s id lbl v = (set_artifact_store s' v, Ok tt) ∧
    store_view s' = set_artifacts (<[story_id s := appended a id lbl]> (artifacts (view v))) (view v).
Proof.
  intros Ha Hs Hd. unfold story_append. rewrite run_reads_bind.
  unfold story_entry_count. rewrite require_artifact_view, Ha. simpl.
  destruct (compose_run (story_id s) id (Z.of_nat (length (references a))) lbl v a Ha Hs)
    as (s' & Hrun & Hv).
  exists s'. split; [done|]. rewrite Hv. do 2 f_equal.
  unfold appended at 1. f_equal. by apply dense_append_sort.
Qed.

Lemma story_entries_loop_view refs v :
  story_entries_loop refs v
  = Ok ((λ r, (r, artifacts (view v) !! ref_artifact_id r)) <$> refs).
Proof.
  induction refs as [|r refs IH]; simpl; [done|].
  unfold vault_get_artifact. rewrite get_artifact_law. simpl. by rewrite IH.
Qed.

Lemma story_entries_view (s : Story) v a :
  artifacts (view v) !! story_id s = Some a → refs_sorted a →
  story_entries s v = Ok ((λ r, (r, artifacts (view v) !! ref_artifact_id r)) <$> references a).
Proof.
  intros Ha Hsorted. unfold story_entries. rewrite require_artifact_view, Ha. simpl.
  rewrite story_entries_loop_view. simpl. f_equal. apply (sort_by_id _).
  unfold refs_sorted in Hsorted. induction Hsorted as [|r l Hs IH Hall]; csimpl; [constructor|].
  constructor; [done|]. by rewrite Forall_fmap.
Qed.

(** A leaf never takes the place of a tree: their identifiers differ. *)
Lemma leaf_not_doc bytes (d : arr32) : leaf_id bytes ≠ Doc d.
Proof. done. Qed.

Lemma send_message_run (d : arr32) text now v a :
  let leaf := leaf_id (as_bytes text) in
  artifacts (view v) !! Doc d = Some a → steward a = vault_player v → dense a →
  ∃ v', story_send_message (story_from_id (Doc d)) text now v = (v', Ok leaf) ∧
    root v' = root v ∧
    artifacts (view v') = <[Doc d := appended a leaf None]>
      (<[leaf := leaf_artifact v (as_bytes text) "message" None "message" now]>
         (artifacts (view v))) ∧
    payload_view (v_payload_store v')
      = <[leaf := as_bytes text]> (payload_view (v_payload_store v)).
Proof.
  intros leaf Ha Hs Hd. unfold story_send_message.
  destruct (place_leaf_run (as_bytes text) "message" None "message" now v)
    as (v1 & Hr1 & (Hroot & _ & _ & _ & Hv1) & Hp1).
  run_with Hr1.
  assert (artifacts (view v1) !! Doc d = Some a) as Ha1.
  { rewrite Hv1. simpl. by rewrite lookup_insert_ne. }
  destruct (story_append_run (story_from_id (Doc d)) leaf None v1 a Ha1) as (s2 & Hr2 & Hv2);
    [by unfold vault_player; rewrite Hroot|done|].
  exists (set_artifact_store s2 v1). split; [exact (run_bind_ok _ _ _ _ _ Hr2)|].
  split; [done|]. split; [|done]. unfold view; simpl. rewrite Hv2. simpl. by rewrite Hv1.
Qed.

Fixpoint send_messages (s : Story) (msgs : list (string * Z))
    : M (Vault A P T) VaultError (list ArtifactId) :=
  match msgs with
  | [] => mret []
  | (text, now) :: msgs =>
      id ← story_send_message s text now;
      ids ← send_messages s msgs;
      mret (id :: ids)
  end.

Definition message_ids (msgs : list (string * Z)) : list ArtifactId :=
  (λ m, leaf_id (as_bytes m.1)) <$> msgs.

(** The state of a conversation: the story lists the messages [ids] in
    order, each filed as a message of the vault's player. *)
Record conversation_ok (d : arr32) (ids : list ArtifactId) v : Prop := {
  conv_story : ∃ a, artifacts (view v) !! Doc d = Some a ∧ steward a = vault_player v ∧
                    dense a ∧ ref_artifact_id <$> references a = ids;
  conv_leaves i : i ∈ ids → ∃ a, artifacts (view v) !! i = Some a ∧
                    artifact_type a = "message" ∧ steward a = vault_player v;
}.

Lemma conversation_send d ids text now v :
  conversation_ok d ids v →
  ∃ v', story_send_message (story_from_id (Doc d)) text now v = (v', Ok (leaf_id (as_bytes text))) ∧
    conversation_ok d (ids ++ [leaf_id (as_bytes text)]) v' ∧
    payload_view (v_payload_store v')
      = <[leaf_id (as_bytes text) := as_bytes text]> (payload_view (v_payload_store v)).
Proof.
  intros [(a & Ha & Hs & Hd & Hids) Hl].
  destruct (send_message_run d text now v a Ha Hs Hd) as (v' & Hrun & Hroot & Hart & Hp).
  exists v'. split; [done|]. split; [|done].
  assert (vault_player v' = vault_player v) as Hpl by (unfold vault_player; by rewrite Hroot).
  split; rewrite Hart, ?Hpl.
  - exists (appended a (leaf_id (as_bytes text)) None). rewrite lookup_insert_eq.
    split_and!; [done|done|by apply dense_appended|]. simpl. by rewrite fmap_app, Hids.
  - intros i. rewrite elem_of_app, list_elem_of_singleton. intros Hi.
    destruct (decide (i = leaf_id (as_bytes text))) as [->|Hne].
    + rewrite lookup_insert_ne, lookup_insert_eq by done. eauto.
    + destruct Hi as [Hi| ->]; [|done]. destruct (Hl i Hi) as (b & Hb & Ht & Hbs).
      destruct (decide (i = Doc d)) as [->|Hnd].
      * rewrite lookup_insert_eq. rewrite Ha in Hb. injection Hb as ->. by eexists.
      * rewrite !lookup_insert_ne by done. eauto.
Qed.

Definition collision_free (texts : list string) : Prop :=
  ∀ t t', t ∈ texts → t' ∈ texts → leaf_id (as_bytes t) = leaf_id (as_bytes t') → t = t'.

Definition payloads_kept (texts : list string) v : Prop :=
  ∀ t, t ∈ texts → payload_view (v_payload_store v) !! leaf_id (as_bytes t) = Some (as_bytes t).

Lemma conversation_send_all d ids msgs v (old : list string) :
  conversation_ok d ids v → payloads_kept old v → collision_free (old ++ msgs.*1) →
  ∃ v', send_messages (story_from_id (Doc d)) msgs v = (v', Ok (message_ids msgs)) ∧
    conversation_ok d (ids ++ message_ids msgs) v' ∧ payloads_kept (old ++ msgs.*1) v'.
Proof.
  revert ids v old. induction msgs as [|[text now] msgs IH]; intros ids v old Hc Hk Hf; csimpl in *.
  { exists v. by rewrite !app_nil_r. }
  destruct (conversation_send d ids text now v Hc) as (v1 & Hr1 & Hc1 & Hp1).
  rewrite (cons_middle text), app_assoc in Hf.
  destruct (IH (ids ++ [leaf_id (as_bytes text)]) v1 (old ++ [text]) Hc1) as (v2 & Hr2 & Hc2 & Hk2);
    [|done|].
  - intros t. rewrite elem_of_app, list_elem_of_singleton, Hp1. intros Ht.
    destruct (decide (leaf_id (as_bytes text) = leaf_id (as_bytes t))) as [Heq|Hne].
    + assert (text = t) as <- by (apply Hf; set_solver). apply lookup_insert_eq.
    + rewrite lookup_insert_ne by done. destruct Ht as [Ht| ->]; [by apply Hk|done].
  - exists v2. run_with Hr1. run_with Hr2.
    split; [done|]. rewrite <- !app_assoc in *. done.
Qed.

Lemma conversation_created rnd aud now v :
  ∃ v', story_create rnd aud now v = (v', Ok (story_from_id (generate_tree_id rnd))) ∧
        conversation_ok rnd [] v'.
Proof.
  unfold story_create. destruct (place_tree_run rnd "story" aud now v) as (v' & Hr & Hp).
  exists v'. split; [exact (run_bind_ok _ _ _ _ _ Hr)|].
  destruct Hp as (Hroot & _ & _ & _ & Hv). split; [|by intros i ?%elem_of_nil].
  eexists. rewrite Hv. simpl. rewrite lookup_insert_eq. split_and!; try done.
  unfold vault_player. by rewrite Hroot.
Qed.

(** A conversation reads back as it was written: creating a story and
    sending messages succeeds, and its entries are then exactly those
    messages, in the order sent, at positions 0, 1, 2, ..., each resolved to a
    message of the vault's player whose payload is the text that was sent
    (provided the hash does not collide on the texts). *)
Theorem story_transcript rnd aud now msgs v :
  collision_free msgs.*1 →
  ∃ v1 v2 st es, story_create rnd aud now v = (v1, Ok st) ∧
    send_messages st msgs v1 = (v2, Ok (message_ids msgs)) ∧
    story_entries st v2 = Ok es ∧
    ref_artifact_id ∘ fst <$> es = message_ids msgs ∧
    position ∘ fst <$> es = Z.of_nat <$> List.seq 0 (length msgs) ∧
    (∀ r o, (r, o) ∈ es → ∃ a, o = Some a ∧ artifact_type a = "message" ∧ steward a = vault_player v2) ∧
    ∀ t, t ∈ msgs.*1 → vault_get_payload (leaf_id (as_bytes t)) v2 = Ok (Some (as_bytes t)).
Proof.
  intros Hf. destruct (conversation_created rnd aud now v) as (v1 & Hr1 & Hc1).
  destruct (conversation_send_all rnd [] msgs v1 [] Hc1) as (v2 & Hr2 & Hc2 & Hk2);
    [by intros ? ?%elem_of_nil|done|].
  destruct Hc2 as [(a & Ha & Hs & Hd & Hids) Hl]. simpl in *.
  exists v1, v2, (story_from_id (Doc rnd)). eexists.
  split_and!; [done|done|by apply story_entries_view, dense_sorted| | | |].
  - by rewrite <- Hids, <- list_fmap_compose.
  - rewrite <- list_fmap_compose. etransitivity; [exact Hd|]. do 2 f_equal.
    apply (f_equal length) in Hids. unfold message_ids in Hids. by rewrite !length_fmap in Hids.
  - intros r o (r' & [= -> ->] & Hin)%list_elem_of_fmap. apply Hl. rewrite <- Hids.
    apply list_elem_of_fmap. eauto.
  - intros t Ht. unfold vault_get_payload. rewrite get_payload_law. f_equal. by apply Hk2.
Qed.

(** Where a branch goes in the story's references. *)
Definition branch_ref (sub : ArtifactId) (from_position : Z) : ArtifactRef :=
  {| ref_artifact_id := sub; position := from_position; label := Some "branch" |}.

Lemma dense_split a (n : nat) :
  dense a → (n < length (references a))%nat →
  Forall (λ r, by_key position r (branch_ref (Doc zeros32) (Z.of_nat n)) = true)
    (take (S n) (references a)) ∧
  Forall (λ r, by_key position r (branch_ref (Doc zeros32) (Z.of_nat n)) = false)
    (drop (S n) (references a)).
Proof.
  intros Hd Hn. unfold by_key. simpl. split; apply Forall_lookup; intros i r.
  - intros [Hi Hlt]%lookup_take_Some. apply Z.leb_le.
    rewrite (dense_lookup a i r Hd Hi). lia.
  - rewrite lookup_drop. intros Hi. apply Z.leb_gt.
    rewrite (dense_lookup a _ r Hd Hi). lia.
Qed.

(** Branching from the entry at [from_position] of a story that was only
    appended to succeeds, creates the sub-story and lists it right behind
    that entry: the entries before and after keep their order. *)
Theorem story_branch_spec (d rnd : arr32) (n : nat) aud now v a :
  artifacts (view v) !! Doc d = Some a → steward a = vault_player v → dense a →
  (n < length (references a))%nat → rnd ≠ d →
  ∃ v' sub a', story_branch (story_from_id (Doc d)) (Z.of_nat n) rnd aud now v
                 = (v', Ok (story_from_id (Doc rnd))) ∧
    artifacts (view v') !! Doc rnd = Some sub ∧ artifact_type sub = "story" ∧
    artifacts (view v') !! Doc d = Some a' ∧
    references a' = take (S n) (references a) ++ [branch_ref (Doc rnd) (Z.of_nat n)]
                      ++ drop (S n) (references a) ∧
    story_entries (story_from_id (Doc d)) v'
      = Ok ((λ r, (r, artifacts (view v') !! ref_artifact_id r)) <$> references a').
Proof.
  intros Ha Hs Hd Hn Hne. unfold story_branch, story_create. rewrite !run_bind.
  destruct (place_tree_run rnd "story" aud now v) as (v1 & -> & Hroot & _ & _ & _ & Hv1).
  simpl.
  assert (artifacts (view v1) !! Doc d = Some a) as Ha1.
  { rewrite Hv1. simpl. rewrite lookup_insert_ne; [done|]. by intros [=]. }
  destruct (compose_run (Doc d) (Doc rnd) (Z.of_nat n) (Some "branch") v1 a Ha1)
    as (s2 & Hr2 & Hv2); [by unfold vault_player; rewrite Hroot|]. run_with Hr2.
  set (a' := set_references _ a) in Hv2.
  assert (artifacts (view (set_artifact_store s2 v1)) !! Doc d = Some a') as Ha'.
  { unfold view; simpl. rewrite Hv2. apply lookup_insert_eq. }
  assert (artifacts (view (set_artifact_store s2 v1)) !! Doc rnd
          = artifacts (view v1) !! Doc rnd) as Hsub.
  { unfold view; simpl. rewrite Hv2. apply lookup_insert_ne. by intros [=]. }
  exists (set_artifact_store s2 v1). eexists. exists a'. split_and!; [done| | |done| |].
  - rewrite Hsub, Hv1. simpl. by rewrite lookup_insert_eq.
  - done.
  - unfold a'. simpl. destruct (dense_split a n Hd Hn) as [Hle Hgt].
    rewrite <- (take_drop (S n) (references a)) at 1. rewrite <- app_assoc.
    apply (sort_by_insert (by_key position)); [|done|done].
    rewrite take_drop. by apply dense_sorted.
  - apply story_entries_view; [done|]. apply sorted_add_ref.
Qed.
End StoryFacts.
