(* ===== verification/Request.v ===== *)
(** * Requests

    Models [indras-artifacts/src/request.rs]: a request is a tree artifact
    whose labelled references are its description and the offers made. *)

From S2P Require Import Prelude Artifact Crypto Attention Store AttentionLog Peering Heat.
From S2P Require Import Vault VaultFacts.

Record Request : Type := request_from_id { request_id : ArtifactId }.

Definition DESCRIPTION_LABEL : string := "description".
Definition OFFER_LABEL : string := "offer".

Section Request.
Context `{Blake3, Postcard}.
Context {A P T : Type} `{ArtifactStore A, PayloadStore P, AttentionStore T}.

Definition request_create (rnd : arr32) (description_text : string) (audience : list PlayerId)
    (now : Z) : M (Vault A P T) VaultError Request :=
  artifact ← vault_place_tree rnd "request" audience now;
  let request_id := artifact_id artifact in
  desc_leaf ← vault_place_leaf (as_bytes description_text) "description" None "message" now;
  vault_compose request_id (artifact_id desc_leaf) 0 (Some DESCRIPTION_LABEL);;
  mret (request_from_id request_id).

Definition request_ref_count (q : Request) (v : Vault A P T) : Result nat VaultError :=
  let? artifact := vault_require_artifact (request_id q) v in
  Ok (length (references artifact)).

Definition request_add_offer (q : Request) (offer : ArtifactId)
    : M (Vault A P T) VaultError unit :=
  next_pos ← reads (request_ref_count q);
  vault_compose (request_id q) offer (Z.of_nat next_pos) (Some OFFER_LABEL).

Fixpoint request_offers_loop (refs : list ArtifactRef) (v : Vault A P T)
    : Result (list (ArtifactRef * option Artifact)) VaultError :=
  match refs with
  | [] => Ok []
  | r :: refs =>
      if labelled OFFER_LABEL r then
        let? child := vault_get_artifact (ref_artifact_id r) v in
        let? offers := request_offers_loop refs v in
        Ok ((r, child) :: offers)
      else request_offers_loop refs v
  end.

Definition request_offers (q : Request) (v : Vault A P T)
    : Result (list (ArtifactRef * option Artifact)) VaultError :=
  let? artifact := vault_require_artifact (request_id q) v in
  request_offers_loop (references artifact) v.

Definition request_description (q : Request) (v : Vault A P T)
    : Result (option Artifact) VaultError :=
  let? artifact := vault_require_artifact (request_id q) v in
  match find_first (labelled DESCRIPTION_LABEL) (references artifact) with
  | Some r => vault_get_artifact (ref_artifact_id r) v
  | None => Ok None
  end.

Definition request_offer_count (q : Request) (v : Vault A P T) : Result nat VaultError :=
  let? artifact := vault_require_artifact (request_id q) v in
  Ok (length (retain (labelled OFFER_LABEL) (references artifact))).
End Request.

Section RequestFacts.
Context `{Blake3, Postcard}.
Context {A P T : Type}
  `{ArtifactStoreLaws A, PayloadStore P, !PayloadStoreLaws P, AttentionStoreLaws T}.
Implicit Types (v : Vault A P T).

Lemma request_offers_loop_view refs v :
  request_offers_loop refs v
  = Ok ((λ r, (r, artifacts (view v) !! ref_artifact_id r)) <$> retain (labelled OFFER_LABEL) refs).
Proof.
  induction refs as [|r refs IH]; simpl; [done|]. rewrite IH.
  unfold vault_get_artifact. rewrite get_artifact_law. by destruct (labelled OFFER_LABEL r).
Qed.

(** The offers a request's artifact lists. *)
Definition offered_ids (a : Artifact) : list ArtifactId :=
  ref_artifact_id <$> retain (labelled OFFER_LABEL) (references a).

(** An open request: its description first, then its offers, no reference
    placed at or beyond the next free position. *)
Record request_ok (q : Request) (text : string) (ids : list ArtifactId) v : Prop := {
  req_artifact : ∃ a, artifacts (view v) !! request_id q = Some a ∧ steward a = vault_player v ∧
    refs_bounded a ∧ offered_ids a = ids ∧
    ref_artifact_id <$> find_first (labelled DESCRIPTION_LABEL) (references a)
      = Some (leaf_id (as_bytes text));
}.

Lemma request_create_ok rnd text aud now v :
  ∃ v', request_create rnd text aud now v = (v', Ok (request_from_id (generate_tree_id rnd))) ∧
        request_ok (request_from_id (generate_tree_id rnd)) text [] v' ∧
        artifacts (view v') !! leaf_id (as_bytes text)
          = Some (leaf_artifact v (as_bytes text) "description" None "message" now).
Proof.
  unfold request_create.
  destruct (place_tree_run rnd "request" aud now v) as (v1 & Hr1 & Hroot1 & _ & _ & _ & Hv1).
  run_with Hr1.
  destruct (place_leaf_run (as_bytes text) "description" None "message" now v1)
    as (v2 & Hr2 & (Hroot2 & _ & _ & _ & Hv2) & _).
  run_with Hr2. set (art := fresh_artifact _ _ _ _ _ _) in *. set (leaf := leaf_artifact _ _ _ _ _ _) in *.
  assert (artifacts (view v2) !! artifact_id art = Some art) as Ha.
  { rewrite Hv2. simpl. rewrite lookup_insert_ne by done. rewrite Hv1. apply lookup_insert_eq. }
  destruct (compose_run (artifact_id art) (artifact_id leaf) 0 (Some DESCRIPTION_LABEL) v2 art Ha)
    as (s3 & Hr3 & Hv3); [by unfold vault_player; rewrite Hroot2, Hroot1|].
  exists (set_artifact_store s3 v2). split; [exact (run_bind_ok _ _ _ _ _ Hr3)|]. split.
  - split. eexists. unfold view; simpl. rewrite Hv3. simpl. rewrite lookup_insert_eq.
    split_and!; try done; [|split; repeat constructor].
    unfold vault_player. simpl. by rewrite Hroot2, Hroot1.
  - unfold view; simpl. rewrite Hv3. simpl. rewrite lookup_insert_ne by done. rewrite Hv2. simpl.
    rewrite lookup_insert_eq. unfold leaf, leaf_artifact, vault_player. by rewrite Hroot1.
Qed.

Lemma find_first_snoc_kept {X} (f : X → bool) l x y :
  find_first f l = Some y → find_first f (l ++ [x]) = Some y.
Proof. intros Hf. by rewrite find_first_app, Hf. Qed.

Lemma request_add_offer_ok (q : Request) text ids id v :
  request_ok q text ids v →
  ∃ v', request_add_offer q id v = (v', Ok tt) ∧ request_ok q text (ids ++ [id]) v' ∧
        ∀ k, k ≠ request_id q → artifacts (view v') !! k = artifacts (view v) !! k.
Proof.
  intros [(a & Ha & Hs & Hb & Hids & Hdesc)].
  unfold request_add_offer. rewrite run_reads_bind. unfold request_ref_count.
  rewrite require_artifact_view, Ha. simpl.
  destruct (compose_append_run (request_id q) id (Some OFFER_LABEL) v a Ha Hs Hb) as (s' & Hr & Hv).
  exists (set_artifact_store s' v). split; [done|]. split.
  2: { intros k Hk. unfold view; simpl. rewrite Hv. simpl. by rewrite lookup_insert_ne. }
  split. exists (append_ref id (Some OFFER_LABEL) a). unfold view; simpl. rewrite Hv. simpl.
  rewrite lookup_insert_eq. split_and!; [done|done|by apply refs_bounded_append| |].
  - unfold offered_ids in *. simpl. by rewrite retain_app, fmap_app, Hids.
  - apply fmap_Some in Hdesc as (y & Hy & ->). by rewrite (find_first_snoc_kept _ _ _ y).
Qed.

Fixpoint add_offers (q : Request) (ids : list ArtifactId) : M (Vault A P T) VaultError unit :=
  match ids with
  | [] => mret tt
  | id :: ids => request_add_offer q id;; add_offers q ids
  end.

Lemma add_offers_ok (q : Request) text old ids v :
  request_ok q text old v →
  ∃ v', add_offers q ids v = (v', Ok tt) ∧ request_ok q text (old ++ ids) v' ∧
        ∀ k, k ≠ request_id q → artifacts (view v') !! k = artifacts (view v) !! k.
Proof.
  revert old v. induction ids as [|id ids IH]; intros old v Hok; simpl.
  { exists v. by rewrite app_nil_r. }
  destruct (request_add_offer_ok q text old id v Hok) as (v1 & Hr1 & Hok1 & Hk1).
  destruct (IH _ v1 Hok1) as (v2 & Hr2 & Hok2 & Hk2).
  exists v2. run_with Hr1. rewrite <- app_assoc in Hok2. split_and!; [done|done|].
  intros k Hk. by rewrite Hk2, Hk1.
Qed.

(** A request collects its offers in the order they are made: after creating
    it and adding any offers (the same artifact possibly twice), the offers
    listed are exactly those, their count agrees, and the description is
    still the leaf holding the request's text. *)
Theorem request_collects_offers rnd text aud now ids v :
  ∃ v1 v2 q es leaf, request_create rnd text aud now v = (v1, Ok q) ∧
    add_offers q ids v1 = (v2, Ok tt) ∧
    request_offers q v2 = Ok es ∧ ref_artifact_id ∘ fst <$> es = ids ∧
    request_offer_count q v2 = Ok (length ids) ∧
    request_description q v2 = Ok (Some leaf) ∧
    artifact_id leaf = leaf_id (as_bytes text) ∧ artifact_name leaf = Some "description".
Proof.
  destruct (request_create_ok rnd text aud now v) as (v1 & Hr1 & Hok1 & Hleaf).
  destruct (add_offers_ok _ text [] ids v1 Hok1) as (v2 & Hr2 & Hok2 & Hk2).
  destruct Hok2 as [(a & Ha & _ & _ & Hids & Hdesc)]. simpl in Hids.
  exists v1, v2, (request_from_id (generate_tree_id rnd)). do 2 eexists.
  split_and!; [done|done| | | | | |].
  - unfold request_offers. rewrite require_artifact_view, Ha. simpl. apply request_offers_loop_view.
  - rewrite <- list_fmap_compose. exact Hids.
  - unfold request_offer_count. rewrite require_artifact_view, Ha. simpl. f_equal.
    rewrite <- Hids. unfold offered_ids. by rewrite length_fmap.
  - unfold request_description. rewrite require_artifact_view, Ha. simpl.
    destruct (find_first _ _) as [r|]; [|done]. injection Hdesc as Hr.
    unfold vault_get_artifact. rewrite get_artifact_law, Hr. f_equal.
    etransitivity; [apply Hk2; done|exact Hleaf].
  - done.
  - done.
Qed.
End RequestFacts.
