(* ===== verification/Exchange.v ===== *)
(** * Exchanges

    Models [indras-artifacts/src/exchange.rs]: a negotiation between two
    stewards, whose acceptances and status live in the metadata of the
    exchange's artifact. *)

From S2P Require Import Prelude Artifact Crypto Attention Store AttentionLog Peering Heat.
From S2P Require Import Vault VaultFacts Story.

Record Exchange : Type := exchange_from_id { exchange_id : ArtifactId }.

Definition ACCEPT_KEY_PREFIX : string := "accept:".
Definition STATUS_KEY : string := "status".
Definition OFFERED_LABEL : string := "offered".
Definition REQUESTED_LABEL : string := "requested".
Definition CONVERSATION_LABEL : string := "conversation".

Definition accept_key (p : PlayerId) : string := ACCEPT_KEY_PREFIX +:+ hex32 p.

Section Exchange.
Context `{Blake3, Postcard}.
Context {A P T : Type} `{ArtifactStore A, PayloadStore P, AttentionStore T}.

Definition exchange_propose (rnd_exchange rnd_story : arr32) (mine theirs : ArtifactId)
    (audience : list PlayerId) (now : Z) : M (Vault A P T) VaultError Exchange :=
  artifact ← vault_place_tree rnd_exchange "exchange" audience now;
  let exchange_id := artifact_id artifact in
  vault_compose exchange_id mine 0 (Some OFFERED_LABEL);;
  vault_compose exchange_id theirs 1 (Some REQUESTED_LABEL);;
  story ← story_create rnd_story audience now;
  vault_compose exchange_id (story_id story) 2 (Some CONVERSATION_LABEL);;
  mret (exchange_from_id exchange_id).

Definition exchange_get_refs (x : Exchange) (v : Vault A P T)
    : Result (list ArtifactRef) VaultError :=
  let? artifact := vault_require_artifact (exchange_id x) v in Ok (references artifact).

Definition exchange_conversation (x : Exchange) (v : Vault A P T) : Result Story VaultError :=
  let? refs := exchange_get_refs x v in
  let? conv_ref := r_ok_or (find_first (labelled CONVERSATION_LABEL) refs) ArtifactNotFound in
  Ok (story_from_id (ref_artifact_id conv_ref)).

Definition exchange_offered (x : Exchange) (v : Vault A P T) : Result (option Artifact) VaultError :=
  let? refs := exchange_get_refs x v in
  match find_first (labelled OFFERED_LABEL) refs with
  | Some r => vault_get_artifact (ref_artifact_id r) v
  | None => Ok None
  end.

Definition exchange_requested (x : Exchange) (v : Vault A P T)
    : Result (option Artifact) VaultError :=
  let? refs := exchange_get_refs x v in
  match find_first (labelled REQUESTED_LABEL) refs with
  | Some r => vault_get_artifact (ref_artifact_id r) v
  | None => Ok None
  end.

Definition exchange_is_closed (x : Exchange) (v : Vault A P T) : Result bool VaultError :=
  let? artifact := vault_require_artifact (exchange_id x) v in
  match metadata artifact !! STATUS_KEY with
  | Some val => Ok (bool_decide (val = as_bytes "rejected") || bool_decide (val = as_bytes "completed"))
  | None => Ok false
  end.

Definition exchange_is_accepted_by (x : Exchange) (player : PlayerId) (v : Vault A P T)
    : Result bool VaultError :=
  let? artifact := vault_require_artifact (exchange_id x) v in
  Ok (bool_decide (is_Some (metadata artifact !! accept_key player))).

Definition exchange_accept (x : Exchange) : M (Vault A P T) VaultError unit :=
  closed ← reads (exchange_is_closed x);
  if (closed : bool) then fail ExchangeClosed
  else
    player ← gets vault_player;
    artifact ← reads (vault_require_artifact (exchange_id x));
    on_artifacts (put_artifact (insert_metadata (accept_key player) (as_bytes "true") artifact)).

Definition exchange_reject (x : Exchange) : M (Vault A P T) VaultError unit :=
  player ← gets vault_player;
  artifact ← reads (vault_require_artifact (exchange_id x));
  on_artifacts (put_artifact
    (insert_metadata ("rejected_by:" +:+ hex32 player) (as_bytes "true")
       (insert_metadata STATUS_KEY (as_bytes "rejected") artifact))).

(** [!accepted(offerer)? || !accepted(requester)?], the second operand read
    only when the first party has accepted. *)
Definition exchange_both_accepted (x : Exchange) (offerer requester : PlayerId) (v : Vault A P T)
    : Result bool VaultError :=
  let? first := exchange_is_accepted_by x offerer v in
  if (first : bool) then exchange_is_accepted_by x requester v else Ok false.

Definition exchange_complete (x : Exchange) (now : Z) : M (Vault A P T) VaultError unit :=
  closed ← reads (exchange_is_closed x);
  if (closed : bool) then fail ExchangeClosed
  else
    refs ← reads (exchange_get_refs x);
    offered_ref ← ok_or (find_first (labelled OFFERED_LABEL) refs) ArtifactNotFound;
    requested_ref ← ok_or (find_first (labelled REQUESTED_LABEL) refs) ArtifactNotFound;
    let offered_id := ref_artifact_id offered_ref in
    let requested_id := ref_artifact_id requested_ref in
    offered ← reads (vault_require_artifact offered_id);
    requested ← reads (vault_require_artifact requested_id);
    let offerer := steward offered in
    let requester := steward requested in
    accepted ← reads (exchange_both_accepted x offerer requester);
    if negb accepted then fail ExchangeNotFullyAccepted
    else
      on_artifacts (record_stewardship_transfer offered_id
        {| sr_from := offerer; sr_to := requester; sr_timestamp := now |});;
      on_artifacts (update_steward offered_id requester);;
      on_artifacts (record_stewardship_transfer requested_id
        {| sr_from := requester; sr_to := offerer; sr_timestamp := now |});;
      on_artifacts (update_steward requested_id offerer);;
      artifact ← reads (vault_require_artifact (exchange_id x));
      on_artifacts (put_artifact (insert_metadata STATUS_KEY (as_bytes "completed") artifact)).
End Exchange.

(** What the metadata of an exchange's artifact says. *)
Definition closed_exchange (a : Artifact) : bool :=
  match metadata a !! STATUS_KEY with
  | Some val => bool_decide (val = as_bytes "rejected") || bool_decide (val = as_bytes "completed")
  | None => false
  end.

Definition accepted_by (p : PlayerId) (a : Artifact) : bool :=
  bool_decide (is_Some (metadata a !! accept_key p)).

Definition add_record (id : ArtifactId) (r : StewardshipRecord)
    (h : gmap ArtifactId (list StewardshipRecord)) : gmap ArtifactId (list StewardshipRecord) :=
  <[id := default [] (h !! id) ++ [r]]> h.

(** The artifacts after a completed exchange. *)
Definition swapped (x : Exchange) (io iq : ArtifactId) (offerer requester : PlayerId)
    (m : gmap ArtifactId Artifact) : gmap ArtifactId Artifact :=
  alter (insert_metadata STATUS_KEY (as_bytes "completed")) (exchange_id x)
    (alter (set_steward offerer) iq (alter (set_steward requester) io m)).

Lemma alter_present {K V} `{Countable K} (f : V → V) (m : gmap K V) k a :
  m !! k = Some a → alter f k m = <[k := f a]> m.
Proof.
  intros Hk. apply map_eq. intros j. destruct (decide (k = j)) as [<-|Hne].
  - by rewrite lookup_alter_eq, lookup_insert_eq, Hk.
  - by rewrite lookup_alter_ne, lookup_insert_ne.
Qed.

Lemma lookup_alter_present {K V} `{Countable K} (f : V → V) (m : gmap K V) i k a :
  m !! k = Some a → alter f i m !! k = Some (if decide (i = k) then f a else a).
Proof.
  intros Hk. case_decide as E; [by rewrite E, lookup_alter_eq, Hk|by rewrite lookup_alter_ne].
Qed.

Section ExchangeFacts.
Context `{Blake3, Postcard}.
Context {A P T : Type}
  `{ArtifactStoreLaws A, PayloadStore P, !PayloadStoreLaws P, AttentionStoreLaws T}.
Implicit Types (v : Vault A P T) (x : Exchange).

Lemma is_closed_view x v a :
  artifacts (view v) !! exchange_id x = Some a → exchange_is_closed x v = Ok (closed_exchange a).
Proof.
  intros Ha. unfold exchange_is_closed, closed_exchange. rewrite require_artifact_view, Ha. simpl.
  by destruct (metadata a !! STATUS_KEY).
Qed.

Lemma is_accepted_by_view x p v a :
  artifacts (view v) !! exchange_id x = Some a → exchange_is_accepted_by x p v = Ok (accepted_by p a).
Proof.
  intros Ha. unfold exchange_is_accepted_by. by rewrite require_artifact_view, Ha.
Qed.

Lemma both_accepted_view x p q v a :
  artifacts (view v) !! exchange_id x = Some a →
  exchange_both_accepted x p q v = Ok (accepted_by p a && accepted_by q a).
Proof.
  intros Ha. unfold exchange_both_accepted. rewrite !(is_accepted_by_view x _ v a) by done.
  simpl. by destruct (accepted_by p a).
Qed.

Lemma accept_key_inj p q : accept_key p = accept_key q → p = q.
Proof.
  unfold accept_key. intros Hk.
  apply (f_equal (strip_prefix ACCEPT_KEY_PREFIX)) in Hk. rewrite !strip_prefix_app in Hk.
  injection Hk as Hk. assert (hex32 p +:+ "" = hex32 q +:+ "")%string as Hk' by congruence.
  by apply hex32_app_inj in Hk' as [-> _].
Qed.

Lemma accepted_by_insert p q val a :
  accepted_by p (insert_metadata (accept_key q) val a)
  = bool_decide (p = q) || accepted_by p a.
Proof.
  unfold accepted_by. simpl. case_bool_decide as E.
  - destruct (decide (p = q)) as [->|Hne]; [by rewrite bool_decide_true|].
    rewrite lookup_insert_ne in E by (by intros ->%accept_key_inj).
    rewrite bool_decide_false by done. simpl. by rewrite bool_decide_true.
  - destruct (decide (p = q)) as [->|Hne].
    { exfalso. apply E. rewrite lookup_insert_eq. eauto. }
    rewrite lookup_insert_ne in E by (by intros ->%accept_key_inj).
    rewrite bool_decide_false by done. simpl. by rewrite bool_decide_false.
Qed.

(** [accept] on every branch: a closed exchange refuses with
    [ExchangeClosed]; otherwise exactly the vault's player is added to those
    who have accepted, and no other artifact changes. *)
Theorem exchange_accept_spec x v a :
  artifacts (view v) !! exchange_id x = Some a → artifact_id a = exchange_id x →
  if closed_exchange a then exchange_accept x v = (v, Err ExchangeClosed)
  else ∃ v', exchange_accept x v = (v', Ok tt) ∧
    (∀ p, exchange_is_accepted_by x p v' = Ok (bool_decide (p = vault_player v) || accepted_by p a)) ∧
    exchange_is_closed x v' = Ok false ∧
    (∀ k, k ≠ exchange_id x → artifacts (view v') !! k = artifacts (view v) !! k).
Proof.
  intros Ha Hid. unfold exchange_accept. rewrite run_reads_bind, (is_closed_view x v a) by done.
  destruct (closed_exchange a) eqn:Hc; [done|]. rewrite run_gets_bind.
  destruct (get_modify_put_run (exchange_id x)
    (insert_metadata (accept_key (vault_player v)) (as_bytes "true")) v a Ha) as (s' & Hr & Hv); [done|].
  exists (set_artifact_store s' v). split; [exact Hr|].
  assert (artifacts (view (set_artifact_store s' v)) !! exchange_id x
          = Some (insert_metadata (accept_key (vault_player v)) (as_bytes "true") a)) as Ha'.
  { unfold view; simpl. rewrite Hv. apply lookup_insert_eq. }
  split_and!.
  - intros p. rewrite (is_accepted_by_view x p _ _ Ha'). f_equal. apply accepted_by_insert.
  - rewrite (is_closed_view x _ _ Ha'). f_equal. unfold closed_exchange in *. simpl.
    by rewrite lookup_insert_ne.
  - intros k Hk. unfold view; simpl. rewrite Hv. simpl. by rewrite lookup_insert_ne.
Qed.

Lemma update_steward_alter id p v a :
  artifacts (view v) !! id = Some a →
  ∃ s', on_artifacts (update_steward id p) v = (set_artifact_store s' v, Ok tt) ∧
    artifacts (store_view s') = alter (set_steward p) id (artifacts (view v)) ∧
    stewardship_history (store_view s') = stewardship_history (view v).
Proof.
  intros Ha. destruct (on_artifacts_modify _ id _ v a (update_steward_law id p) Ha) as (s' & Hr & Hv).
  exists s'. split; [done|]. rewrite Hv, (alter_present _ _ _ a) by done. done.
Qed.

(** Transferring one artifact and recording it, as [complete] does twice. *)
Lemma hand_over_run id p q now v a :
  artifacts (view v) !! id = Some a →
  ∃ s', (∀ X (k : M (Vault A P T) VaultError X),
           (on_artifacts (record_stewardship_transfer id
              {| sr_from := p; sr_to := q; sr_timestamp := now |});;
            on_artifacts (update_steward id q);; k) v = k (set_artifact_store s' v)) ∧
    artifacts (store_view s') = alter (set_steward q) id (artifacts (view v)) ∧
    stewardship_history (store_view s') = add_record id
      {| sr_from := p; sr_to := q; sr_timestamp := now |} (stewardship_history (view v)).
Proof.
  intros Ha.
  destruct (record_transfer_run id {| sr_from := p; sr_to := q; sr_timestamp := now |} v)
    as (s1 & Hr1 & Ha1 & Hh1).
  destruct (update_steward_alter id q (set_artifact_store s1 v) a) as (s2 & Hr2 & Ha2 & Hh2);
    [by unfold view; simpl; rewrite Ha1|].
  exists s2. split; [intros X k; run_with Hr1; by run_with Hr2|]. rewrite Ha2, Hh2. unfold view in *; simpl. by rewrite Ha1, Hh1.
Qed.

Lemma swapped_lookup x io iq p q m k :
  swapped x io iq p q m !! k
  = (λ a, (if decide (exchange_id x = k)
           then insert_metadata STATUS_KEY (as_bytes "completed") else Datatypes.id)
       ((if decide (iq = k) then set_steward p else Datatypes.id)
          ((if decide (io = k) then set_steward q else Datatypes.id) a))) <$> m !! k.
Proof.
  unfold swapped. destruct (m !! k) as [a|] eqn:Ha; simpl;
    destruct (decide (exchange_id x = k)) as [E1|E1], (decide (iq = k)) as [E2|E2],
      (decide (io = k)) as [E3|E3];
    rewrite ?E1, ?E2, ?E3, ?lookup_alter_eq, ?lookup_alter_ne, ?lookup_alter_eq,
      ?lookup_alter_ne, ?lookup_alter_eq, ?lookup_alter_ne, Ha by done; done.
Qed.

Lemma steward_swapped x io iq o q ex m :
  m !! exchange_id x = Some ex → m !! io = Some o → m !! iq = Some q →
  (∃ o', swapped x io iq (steward o) (steward q) m !! io = Some o' ∧ steward o' = steward q) ∧
  (∃ q', swapped x io iq (steward o) (steward q) m !! iq = Some q' ∧ steward q' = steward o) ∧
  (∃ ex', swapped x io iq (steward o) (steward q) m !! exchange_id x = Some ex' ∧
          closed_exchange ex' = true).
Proof.
  intros Hx Ho Hq. rewrite !swapped_lookup, Hx, Ho, Hq.
  assert (io = iq → steward o = steward q) as Heq by congruence.
  split_and!; eexists; (split; [done|]).
  - rewrite (decide_True (P:=io = io)) by done. repeat case_decide; simpl; auto.
  - rewrite (decide_True (P:=iq = iq)) by done. repeat case_decide; done.
  - rewrite decide_True by done. unfold closed_exchange. simpl. by rewrite lookup_insert_eq.
Qed.

(** An exchange whose references resolve. *)
Record exchange_found x v (ex : Artifact) (io iq : ArtifactId) (o q : Artifact) : Prop := {
  found_exchange : artifacts (view v) !! exchange_id x = Some ex;
  found_id : artifact_id ex = exchange_id x;
  found_offered : ref_artifact_id <$> find_first (labelled OFFERED_LABEL) (references ex) = Some io;
  found_requested : ref_artifact_id <$> find_first (labelled REQUESTED_LABEL) (references ex) = Some iq;
  found_offer : artifacts (view v) !! io = Some o;
  found_request : artifacts (view v) !! iq = Some q;
}.

(** Executing [complete] up to the transfers. *)
Lemma exchange_complete_checks x now v ex io iq o q :
  exchange_found x v ex io iq o q → closed_exchange ex = false →
  exchange_complete x now v =
  if accepted_by (steward o) ex && accepted_by (steward q) ex then
    (on_artifacts (record_stewardship_transfer io
       {| sr_from := steward o; sr_to := steward q; sr_timestamp := now |});;
     on_artifacts (update_steward io (steward q));;
     on_artifacts (record_stewardship_transfer iq
       {| sr_from := steward q; sr_to := steward o; sr_timestamp := now |});;
     on_artifacts (update_steward iq (steward o));;
     artifact ← reads (vault_require_artifact (exchange_id x));
     on_artifacts (put_artifact (insert_metadata STATUS_KEY (as_bytes "completed") artifact))) v
  else (v, Err ExchangeNotFullyAccepted).
Proof.
  intros [Hx Hid Hro Hrq Ho Hq] Hc. unfold exchange_complete.
  rewrite run_reads_bind, (is_closed_view x v ex), Hc, run_reads_bind by done.
  assert (exchange_get_refs x v = Ok (references ex)) as ->
    by (unfold exchange_get_refs; by rewrite require_artifact_view, Hx).
  apply fmap_Some in Hro as (ro & -> & ->), Hrq as (rq & -> & ->).
  rewrite !(run_bind_ok (ok_or (Some _) _) _ v v _ eq_refl).
  rewrite (run_artifact_bind _ _ v o), (run_artifact_bind _ _ v q) by done.
  rewrite run_reads_bind, (both_accepted_view x _ _ v ex) by done.
  by destruct (accepted_by (steward o) ex && accepted_by (steward q) ex).
Qed.

Lemma exchange_complete_run x now v ex io iq o q :
  exchange_found x v ex io iq o q → closed_exchange ex = false →
  accepted_by (steward o) ex = true → accepted_by (steward q) ex = true →
  ∃ s', exchange_complete x now v = (set_artifact_store s' v, Ok tt) ∧
    artifacts (store_view s') = swapped x io iq (steward o) (steward q) (artifacts (view v)) ∧
    stewardship_history (store_view s') =
      add_record iq {| sr_from := steward q; sr_to := steward o; sr_timestamp := now |}
        (add_record io {| sr_from := steward o; sr_to := steward q; sr_timestamp := now |}
           (stewardship_history (view v))).
Proof.
  intros Hf Hc Hao Haq. rewrite (exchange_complete_checks x now v ex io iq o q) by done.
  rewrite Hao, Haq. simpl. destruct Hf as [Hx Hid _ _ Ho Hq].
  destruct (hand_over_run io (steward o) (steward q) now v o) as (s1 & -> & Ha1 & Hh1); [done|].
  set (v1 := set_artifact_store s1 v).
  assert (∃ q1, artifacts (view v1) !! iq = Some q1) as [q1 Hq1].
  { unfold v1, view; simpl. rewrite Ha1, (lookup_alter_present _ _ _ _ q) by done. eauto. }
  destruct (hand_over_run iq (steward q) (steward o) now v1 q1) as (s2 & -> & Ha2 & Hh2); [done|].
  set (v2 := set_artifact_store s2 v1).
  assert (∃ ex2, artifacts (view v2) !! exchange_id x = Some ex2 ∧ artifact_id ex2 = exchange_id x)
    as (ex2 & Hx2 & Hid2).
  { unfold v2, v1, view; simpl. rewrite Ha2. unfold view; simpl. rewrite Ha1.
    eexists. split; [by apply lookup_alter_present, lookup_alter_present|].
    by repeat case_decide. }
  destruct (get_modify_put_run (exchange_id x) (insert_metadata STATUS_KEY (as_bytes "completed"))
    v2 ex2 Hx2 Hid2) as (s3 & Hr3 & Hv3).
  exists s3. split; [exact Hr3|]. rewrite Hv3. simpl. unfold swapped.
  rewrite <- (alter_present _ _ _ ex2) by done. unfold v2, v1, view in *; simpl in *.
  by rewrite Ha2, Ha1, Hh2, Hh1.
Qed.

(** What the exchange refers to under a label, where it is in the vault. *)
Definition offered_in (lbl : string) (m : gmap ArtifactId Artifact) (ex : Artifact) : option (ArtifactId * Artifact) :=
  r ← find_first (labelled lbl) (references ex); a ← m !! ref_artifact_id r; Some (ref_artifact_id r, a).

Lemma complete_unresolved x now v ex :
  artifacts (view v) !! exchange_id x = Some ex → closed_exchange ex = false →
  offered_in OFFERED_LABEL (artifacts (view v)) ex = None ∨ offered_in REQUESTED_LABEL (artifacts (view v)) ex = None →
  exchange_complete x now v = (v, Err ArtifactNotFound).
Proof.
  intros Hx Hc Hno. unfold exchange_complete. rewrite run_reads_bind, (is_closed_view x v ex), Hc, run_reads_bind by done.
  assert (exchange_get_refs x v = Ok (references ex)) as ->
    by (unfold exchange_get_refs; by rewrite require_artifact_view, Hx).
  unfold offered_in in Hno. destruct (find_first (labelled OFFERED_LABEL) (references ex)) as [ro|] eqn:Ero; simpl in Hno; [|done].
  rewrite (run_bind_ok (ok_or (Some _) _) _ v v _ eq_refl).
  destruct (find_first (labelled REQUESTED_LABEL) (references ex)) as [rq|] eqn:Erq; simpl in Hno; [|done].
  rewrite (run_bind_ok (ok_or (Some _) _) _ v v _ eq_refl). rewrite run_reads_bind, require_artifact_view.
  destruct (artifacts (view v) !! ref_artifact_id ro) as [o|] eqn:Eo; simpl in Hno; [|done]. simpl.
  rewrite run_reads_bind, require_artifact_view.
  destruct (artifacts (view v) !! ref_artifact_id rq) as [q|] eqn:Eq; simpl in Hno; [naive_solver|done].
Qed.

(** What may be done with an exchange. *)
Inductive exchange_op : Type := XAccept | XReject | XComplete (now : Z).

Definition run_exchange_op x (op : exchange_op) : M (Vault A P T) VaultError unit :=
  match op with XAccept => exchange_accept x | XReject => exchange_reject x | XComplete now => exchange_complete x now end.

(** A closed exchange: its stewards and history are as in [v0]. *)
Record stays_closed x v0 v : Prop := {
  sc_closed : ∃ ex, artifacts (view v) !! exchange_id x = Some ex ∧ artifact_id ex = exchange_id x ∧ closed_exchange ex = true;
  sc_stewards k : steward <$> artifacts (view v) !! k = steward <$> artifacts (view v0) !! k;
  sc_history : stewardship_history (view v) = stewardship_history (view v0);
}.

Lemma closed_op x op v ex : artifacts (view v) !! exchange_id x = Some ex → closed_exchange ex = true → op ≠ XReject →
  run_exchange_op x op v = (v, Err ExchangeClosed).
Proof.
  intros Hx Hc Hop. destruct op as [| |now]; [|done|]; simpl; unfold exchange_accept, exchange_complete;
    by rewrite run_reads_bind, (is_closed_view x v ex), Hc.
Qed.

Lemma stays_closed_op x op v0 v : stays_closed x v0 v → stays_closed x v0 (run_exchange_op x op v).1.
Proof.
  intros [(ex & Hx & Hid & Hc) Hs Hh]. assert (op = XReject ∨ op ≠ XReject) as [->|Hop] by (destruct op; auto).
  2: { rewrite (closed_op x op v ex) by done. split; eauto. }
  simpl. unfold exchange_reject. rewrite run_gets_bind.
  edestruct (get_modify_put_run (exchange_id x) (λ a,
    insert_metadata ("rejected_by:" +:+ hex32 (vault_player v)) (as_bytes "true")
      (insert_metadata STATUS_KEY (as_bytes "rejected") a)) v ex Hx) as (s' & Hr & Hv); [done|].
  rewrite Hr. split; unfold view in *; simpl; rewrite Hv; simpl.
  - eexists. split; [apply lookup_insert_eq|]. split; [done|]. unfold closed_exchange. simpl.
    by rewrite lookup_insert_ne, lookup_insert_eq.
  - intros k. rewrite <- Hs. destruct (decide (exchange_id x = k)) as [<-|Hne].
    + by rewrite lookup_insert_eq, Hx.
    + by rewrite lookup_insert_ne.
  - done.
Qed.

Lemma stays_closed_run x ops v0 v : stays_closed x v0 v → stays_closed x v0 (foldl (λ v op, (run_exchange_op x op v).1) v ops).
Proof. revert v. induction ops as [|op ops IH]; intros v Hv; simpl; [done|]. by apply IH, stays_closed_op. Qed.

(** C2. Completing an exchange, stored under its own identifier, is all or
    nothing.  It is refused without any change when the exchange or what it
    refers to is not in the vault, when it is closed, and when an acceptance is
    missing.  Otherwise only the artifact store changes: the two artifacts
    change hands, both transfers enter the history, the exchange is marked
    completed.  From then on it stays closed whatever is done with it: no
    acceptance and no completion succeeds, and no steward changes. *)
Theorem exchange_complete_spec x now v :
  (∀ ex, artifacts (view v) !! exchange_id x = Some ex → artifact_id ex = exchange_id x) →
  let m := artifacts (view v) in
  match m !! exchange_id x with
  | None => exchange_complete x now v = (v, Err ArtifactNotFound)
  | Some ex =>
      if closed_exchange ex then exchange_complete x now v = (v, Err ExchangeClosed)
      else match offered_in OFFERED_LABEL m ex, offered_in REQUESTED_LABEL m ex with
      | Some (io, o), Some (iq, q) =>
          if negb (accepted_by (steward o) ex && accepted_by (steward q) ex)
          then exchange_complete x now v = (v, Err ExchangeNotFullyAccepted)
          else ∃ s', let v' := set_artifact_store s' v in
            exchange_complete x now v = (v', Ok tt) ∧
            view v' = {| artifacts := swapped x io iq (steward o) (steward q) m;
              stewardship_history :=
                add_record iq {| sr_from := steward q; sr_to := steward o; sr_timestamp := now |}
                  (add_record io {| sr_from := steward o; sr_to := steward q; sr_timestamp := now |}
                    (stewardship_history (view v))) |} ∧
            steward <$> artifacts (view v') !! io = Some (steward q) ∧
            steward <$> artifacts (view v') !! iq = Some (steward o) ∧
            ∀ ops, let v'' := foldl (λ v op, (run_exchange_op x op v).1) v' ops in
              (∀ op, op ≠ XReject → run_exchange_op x op v'' = (v'', Err ExchangeClosed)) ∧
              (∀ k, steward <$> artifacts (view v'') !! k = steward <$> artifacts (view v') !! k) ∧
              stewardship_history (view v'') = stewardship_history (view v')
      | _, _ => exchange_complete x now v = (v, Err ArtifactNotFound)
      end
  end.
Proof.
  intros Hown m. destruct (m !! exchange_id x) as [ex|] eqn:Hx; unfold m in *.
  2: { unfold exchange_complete, exchange_is_closed. by rewrite run_reads_bind, require_artifact_view, Hx. }
  destruct (closed_exchange ex) eqn:Hc.
  { unfold exchange_complete. by rewrite run_reads_bind, (is_closed_view x v ex), Hc by done. }
  destruct (offered_in OFFERED_LABEL _ ex) as [[io o]|] eqn:Eo; [|by apply (complete_unresolved x now v ex); auto].
  destruct (offered_in REQUESTED_LABEL _ ex) as [[iq q]|] eqn:Eq; [|by apply (complete_unresolved x now v ex); auto].
  assert (Hf : exchange_found x v ex io iq o q).
  { unfold offered_in in Eo, Eq. apply bind_Some in Eo as (ro & Ero & Eo), Eq as (rq & Erq & Eq).
    apply bind_Some in Eo as (o' & Ho & [= <- ->]), Eq as (q' & Hq & [= <- ->]).
    split; rewrite ?Ero, ?Erq; auto. }
  destruct (accepted_by (steward o) ex && accepted_by (steward q) ex) eqn:Hacc; simpl negb; cbv iota.
  2: { by rewrite (exchange_complete_checks x now v ex io iq o q), Hacc. }
  apply andb_true_iff in Hacc as [Hao Haq]. pose proof Hf as [_ _ _ _ Ho Hq].
  destruct (exchange_complete_run x now v ex io iq o q Hf Hc Hao Haq) as (s' & Hr & Hv & Hh).
  destruct (steward_swapped x io iq o q ex (artifacts (view v)) Hx Ho Hq)
    as ((o' & Ho' & Hso) & (q' & Hq' & Hsq) & (ex' & Hx' & Hc')).
  exists s'. set (v' := set_artifact_store s' v). cbv zeta. assert (Ha : artifacts (view v') = swapped x io iq (steward o) (steward q) (artifacts (view v))) by exact Hv.
  split; [exact Hr|]. split; [unfold v', view; simpl; destruct (store_view s'); simpl in *; by subst|].
  rewrite !Ha, Ho', Hq'. simpl. rewrite Hso, Hsq. split; [done|]. split; [done|]. intros ops.
  assert (Hst : stays_closed x v' v').
  { split; [|done|done]. exists ex'. rewrite Ha. split; [done|]. split; [|done].
    rewrite swapped_lookup, Hx in Hx'. injection Hx' as <-. pose proof (Hown ex Hx) as He. repeat case_decide; exact He. }
  destruct (stays_closed_run x ops v' v' Hst) as [(ex2 & Hx2 & _ & Hc2) Hs2 Hh2].
  split; [intros op Hop; by apply (closed_op x op _ ex2)|]. split; [|exact Hh2]. intros k. rewrite <- Ha. apply Hs2.
Qed.

(** [reject] never looks at the status: a completed exchange can still be
    rejected, which succeeds and replaces the status by "rejected" although
    the two artifacts have already changed hands. *)
Theorem completed_exchange_rejected x now v ex io iq o q :
  exchange_found x v ex io iq o q → closed_exchange ex = false →
  accepted_by (steward o) ex = true → accepted_by (steward q) ex = true →
  exchange_id x ≠ io → exchange_id x ≠ iq →
  ∃ v1 v2 ex2 o2 q2,
    exchange_complete x now v = (v1, Ok tt) ∧ exchange_reject x v1 = (v2, Ok tt) ∧
    artifacts (view v2) !! exchange_id x = Some ex2 ∧
    metadata ex2 !! STATUS_KEY = Some (as_bytes "rejected") ∧
    artifacts (view v2) !! io = Some o2 ∧ steward o2 = steward q ∧
    artifacts (view v2) !! iq = Some q2 ∧ steward q2 = steward o.
Proof.
  intros Hf Hc Hao Haq Hno Hnq. pose proof Hf as [Hx Hid _ _ Ho Hq].
  destruct (exchange_complete_run x now v ex io iq o q Hf Hc Hao Haq) as (s1 & Hr1 & Hv1 & _).
  destruct (steward_swapped x io iq o q ex (artifacts (view v)) Hx Ho Hq)
    as ((o' & Ho' & Hso) & (q' & Hq' & Hsq) & (ex' & Hx' & _)).
  pose proof Hx' as Hx''. rewrite swapped_lookup, Hx in Hx''. injection Hx'' as Hx''.
  edestruct (get_modify_put_run (exchange_id x) (λ a,
    insert_metadata ("rejected_by:" +:+ hex32 (vault_player v)) (as_bytes "true")
      (insert_metadata STATUS_KEY (as_bytes "rejected") a)) (set_artifact_store s1 v) ex')
    as (s2 & Hr2 & Hv2); [by unfold view; simpl; rewrite Hv1| |].
  { rewrite <- Hx''. repeat case_decide; done. }
  exists (set_artifact_store s1 v), (set_artifact_store s2 v). eexists. exists o', q'.
  split_and!; [done|exact Hr2| | | |done| |done]; unfold view in *; simpl in *; rewrite ?Hv2; simpl.
  - apply lookup_insert_eq.
  - simpl. rewrite lookup_insert_ne by done. apply lookup_insert_eq.
  - rewrite lookup_insert_ne by done. by rewrite Hv1.
  - rewrite lookup_insert_ne by done. by rewrite Hv1.
Qed.

(** A [compose] on a stewarded tree, seen as a change of its references. *)
Lemma compose_references id child pos lbl v a :
  artifacts (view v) !! id = Some a → steward a = vault_player v →
  ∃ v', vault_compose id child pos lbl v = (v', Ok tt) ∧ root v' = root v ∧
    artifacts (view v') !! id = Some (set_references (sort_by (by_key position)
      (references a ++ [{| ref_artifact_id := child; position := pos; label := lbl |}])) a) ∧
    ∀ k, k ≠ id → artifacts (view v') !! k = artifacts (view v) !! k.
Proof.
  intros Ha Hs. destruct (compose_run id child pos lbl v a Ha Hs) as (s' & Hr & Hv).
  exists (set_artifact_store s' v). unfold view; simpl. rewrite Hv. simpl.
  split_and!; [done|done|apply lookup_insert_eq|]. intros k Hk. by rewrite lookup_insert_ne.
Qed.

(** Proposing an exchange (with two distinct fresh identifiers) opens it: it
    names the offered and the requested artifact and an empty conversation,
    is not closed, and nobody has accepted yet. *)
Theorem exchange_propose_spec rx rs mine theirs aud now v :
  rx ≠ rs →
  ∃ v' st, exchange_propose rx rs mine theirs aud now v = (v', Ok (exchange_from_id (Doc rx))) ∧
    let x := exchange_from_id (Doc rx) in
    exchange_offered x v' = Ok (artifacts (view v') !! mine) ∧
    exchange_requested x v' = Ok (artifacts (view v') !! theirs) ∧
    exchange_conversation x v' = Ok st ∧ story_entries st v' = Ok [] ∧
    exchange_is_closed x v' = Ok false ∧ ∀ p, exchange_is_accepted_by x p v' = Ok false.
Proof.
  intros Hne. unfold exchange_propose.
  destruct (place_tree_run rx "exchange" aud now v) as (v1 & Hr1 & Hroot1 & _ & _ & _ & Hv1).
  run_with Hr1. set (ex := fresh_artifact _ _ _ _ _ _) in *.
  destruct (compose_references (Doc rx) mine 0 (Some OFFERED_LABEL) v1 ex)
    as (v2 & Hr2 & Hroot2 & Ha2 & _); [rewrite Hv1; apply lookup_insert_eq| |].
  { unfold vault_player. by rewrite Hroot1. }
  run_with Hr2.
  destruct (compose_references (Doc rx) theirs 1 (Some REQUESTED_LABEL) v2 _ Ha2)
    as (v3 & Hr3 & Hroot3 & Ha3 & _); [unfold vault_player; by rewrite Hroot2, Hroot1|].
  run_with Hr3. unfold story_create. rewrite run_bind, run_bind.
  destruct (place_tree_run rs "story" aud now v3) as (v4 & -> & Hroot4 & _ & _ & _ & Hv4).
  simpl. edestruct (compose_references (Doc rx) (Doc rs) 2 (Some CONVERSATION_LABEL) v4)
    as (v5 & Hr5 & _ & Ha5 & Hk5).
  { rewrite Hv4. simpl. rewrite lookup_insert_ne by (by intros [=]). exact Ha3. }
  { unfold vault_player. simpl. by rewrite Hroot4, Hroot3, Hroot2, Hroot1. }
  run_with Hr5. exists v5, (story_from_id (Doc rs)). split; [done|]. cbv zeta.
  unfold exchange_offered, exchange_requested, exchange_conversation, exchange_get_refs.
  cbn [exchange_id]. rewrite require_artifact_view, Ha5. simpl.
  unfold vault_get_artifact. rewrite !get_artifact_law.
  split_and!; [done|done|done| | |].
  - assert (artifacts (view v5) !! Doc rs = artifacts (view v4) !! Doc rs) as Hst
      by (apply Hk5; congruence).
    rewrite Hv4 in Hst. simpl in Hst. rewrite lookup_insert_eq in Hst.
    by rewrite (story_entries_view (story_from_id (Doc rs)) v5 _ Hst) by constructor.
  - by rewrite (is_closed_view (exchange_from_id (Doc rx)) _ _ Ha5).
  - intros p. by rewrite (is_accepted_by_view (exchange_from_id (Doc rx)) _ _ _ Ha5).
Qed.
End ExchangeFacts.
