(* ===== verification/Intention.v ===== *)
(** * Intentions

    Models [indras-artifacts/src/intention.rs]: a goal that collects proofs of
    service and pledged tokens, and turns the attention given to it into
    tokens.  Status and released windows live in the metadata of the
    intention's artifact. *)

From S2P Require Import Prelude Artifact Crypto Attention Store AttentionLog Peering Heat.
From S2P Require Import Vault VaultFacts.

Record Intention : Type := intention_from_id { intention_id : ArtifactId }.

Definition DESCRIPTION_LABEL : string := "description".
Definition PROOF_PREFIX : string := "proof:".
Definition PLEDGE_PREFIX : string := "pledge:".
Definition STATUS_KEY : string := "status".
Definition RELEASED_PREFIX : string := "released:".

(** [r.label.as_deref().map_or(false, |l| l.starts_with(prefix))]. *)
Definition label_starts_with (p : string) (r : ArtifactRef) : bool :=
  match label r with Some l => starts_with p l | None => false end.

(** The timestamps recorded in an intention's metadata for a player. *)
Definition released_timestamps (player : PlayerId) (m : gmap string (list byte)) : list Z :=
  omap (λ k, ts ← strip_prefix (RELEASED_PREFIX +:+ hex32 player +:+ ":") k; parse_i64 ts)
    (map_to_list m).*1.

Section Intention.
Context `{Blake3, Postcard}.
Context {A P T : Type} `{ArtifactStore A, PayloadStore P, AttentionStore T}.
Implicit Types (x : Intention).

Definition intention_create (rnd : arr32) (description_text : string) (audience : list PlayerId)
    (now : Z) : M (Vault A P T) VaultError Intention :=
  tree ← vault_place_tree rnd "intention" audience now;
  let id := artifact_id tree in
  desc_leaf ← vault_place_leaf (as_bytes description_text) "description" None "message" now;
  vault_compose id (artifact_id desc_leaf) 0 (Some DESCRIPTION_LABEL);;
  artifact ← reads (vault_require_artifact id);
  on_artifacts (put_artifact (insert_metadata STATUS_KEY (as_bytes "active") artifact));;
  mret (intention_from_id id).

Definition intention_get_refs x (v : Vault A P T) : Result (list ArtifactRef) VaultError :=
  let? artifact := vault_require_artifact (intention_id x) v in Ok (references artifact).

Definition intention_ref_count x (v : Vault A P T) : Result nat VaultError :=
  let? artifact := vault_require_artifact (intention_id x) v in Ok (length (references artifact)).

Definition intention_description x (v : Vault A P T) : Result (option Artifact) VaultError :=
  let? refs := intention_get_refs x v in
  match find_first (labelled DESCRIPTION_LABEL) refs with
  | Some r => vault_get_artifact (ref_artifact_id r) v
  | None => Ok None
  end.

Definition proof_ref_label (submitter : PlayerId) (now : Z) : string :=
  PROOF_PREFIX +:+ hex32 submitter +:+ ":" +:+ i64_to_string now.

Definition intention_submit_proof x (body : string) (now : Z)
    : M (Vault A P T) VaultError ArtifactId :=
  submitter ← gets vault_player;
  proof_leaf ← vault_place_leaf (as_bytes body) ("proof-" +:+ hex32 submitter) None "attestation" now;
  next_pos ← reads (intention_ref_count x);
  vault_compose (intention_id x) (artifact_id proof_leaf) (Z.of_nat next_pos)
    (Some (proof_ref_label submitter now));;
  mret (artifact_id proof_leaf).

Definition intention_submit_proof_folder x (folder_id : ArtifactId) (now : Z)
    : M (Vault A P T) VaultError unit :=
  submitter ← gets vault_player;
  next_pos ← reads (intention_ref_count x);
  vault_compose (intention_id x) folder_id (Z.of_nat next_pos)
    (Some (proof_ref_label submitter now)).

Definition intention_proofs x (v : Vault A P T) : Result (list ArtifactRef) VaultError :=
  let? refs := intention_get_refs x v in Ok (retain (label_starts_with PROOF_PREFIX) refs).

Definition pledge_label (pledger : PlayerId) (token : ArtifactId) : string :=
  PLEDGE_PREFIX +:+ hex32 pledger +:+ ":" +:+ hex (take 8 (arr32_bytes (artifact_id_bytes token))).

Definition intention_pledge_token x (token_id : ArtifactId) : M (Vault A P T) VaultError unit :=
  pledger ← gets vault_player;
  next_pos ← reads (intention_ref_count x);
  vault_compose (intention_id x) token_id (Z.of_nat next_pos) (Some (pledge_label pledger token_id)).

Definition intention_pledged_tokens x (v : Vault A P T) : Result (list ArtifactRef) VaultError :=
  let? refs := intention_get_refs x v in Ok (retain (label_starts_with PLEDGE_PREFIX) refs).

Definition intention_unreleased_attention x (player : PlayerId) (v : Vault A P T)
    : Result (list DwellWindow) VaultError :=
  let? events :=
    if bool_decide (player = vault_player v) then vault_attention_events v
    else Ok (default [] (v_peer_attention v !! player)) in
  let windows := extract_dwell_windows player (intention_id x) events in
  let? artifact := vault_require_artifact (intention_id x) v in
  let released := released_timestamps player (metadata artifact) in
  Ok (retain (λ w, negb (bool_decide (start_timestamp w ∈ released))) windows).

Definition released_key (player : PlayerId) (ts : Z) : string :=
  RELEASED_PREFIX +:+ hex32 player +:+ ":" +:+ i64_to_string ts.

Definition token_name (w : DwellWindow) : string :=
  "token-" +:+ i64_to_string (duration_ms w) +:+ "ms-" +:+ i64_to_string (start_timestamp w).

(** One round of the loop of [release_attention]. *)
Definition release_window x (player proof_submitter : PlayerId) (now : Z) (w : DwellWindow)
    : M (Vault A P T) VaultError ArtifactId :=
  token_leaf ← vault_place_leaf (i64_to_le_bytes (duration_ms w))
    (token_name w) None "token" now;
  let token_id := artifact_id token_leaf in
  token_artifact ← reads (vault_require_artifact token_id);
  on_artifacts (put_artifact (set_blessing_history (blessing_history token_artifact ++
    [{| br_from := player; br_quest_id := Some (intention_id x); br_timestamp := now;
        br_message := None |}]) token_artifact));;
  vault_transfer_stewardship token_id proof_submitter now;;
  intention_artifact ← reads (vault_require_artifact (intention_id x));
  on_artifacts (put_artifact (insert_metadata (released_key player (start_timestamp w))
    (as_bytes (PROOF_PREFIX +:+ hex32 proof_submitter)) intention_artifact));;
  mret token_id.

Fixpoint release_windows x (player proof_submitter : PlayerId) (now : Z) (ws : list DwellWindow)
    : M (Vault A P T) VaultError (list ArtifactId) :=
  match ws with
  | [] => mret []
  | w :: ws =>
      token_id ← release_window x player proof_submitter now w;
      created_tokens ← release_windows x player proof_submitter now ws;
      mret (token_id :: created_tokens)
  end.

Definition intention_release_attention x (ws : list DwellWindow) (proof_submitter : PlayerId)
    (now : Z) : M (Vault A P T) VaultError (list ArtifactId) :=
  player ← gets vault_player;
  release_windows x player proof_submitter now ws.

Fixpoint intention_release_pledged_tokens x (token_ids : list ArtifactId)
    (proof_submitter : PlayerId) (now : Z) : M (Vault A P T) VaultError unit :=
  match token_ids with
  | [] => mret tt
  | token_id :: token_ids =>
      vault_transfer_stewardship token_id proof_submitter now;;
      vault_remove_ref (intention_id x) token_id;;
      intention_release_pledged_tokens x token_ids proof_submitter now
  end.

Definition intention_status x (v : Vault A P T) : Result (option string) VaultError :=
  let? artifact := vault_require_artifact (intention_id x) v in
  Ok (val ← metadata artifact !! STATUS_KEY; from_utf8 val).

Definition intention_fulfill x : M (Vault A P T) VaultError unit :=
  artifact ← reads (vault_require_artifact (intention_id x));
  on_artifacts (put_artifact (insert_metadata STATUS_KEY (as_bytes "fulfilled") artifact)).
End Intention.

(** ** Release bookkeeping *)

Lemma released_timestamps_spec player (m : gmap string (list byte)) t :
  t ∈ released_timestamps player m ↔
  ∃ k s, is_Some (m !! k) ∧ k = RELEASED_PREFIX +:+ hex32 player +:+ ":" +:+ s ∧
         parse_i64 s = Some t.
Proof.
  unfold released_timestamps. rewrite list_elem_of_omap. split.
  - intros (k & ([k' val] & -> & Hk)%list_elem_of_fmap & Ht). cbn [fst] in *.
    apply elem_of_map_to_list in Hk. apply bind_Some in Ht as (s & Hs & Ht).
    apply strip_prefix_Some in Hs. rewrite !string_app_assoc in Hs. eauto.
  - intros (k & s & [val Hk] & -> & Ht). eexists. split.
    + apply list_elem_of_fmap. eexists (_, val). split; [done|]. by apply elem_of_map_to_list.
    + cbn [fst]. apply bind_Some. exists s. split; [|done]. apply strip_prefix_Some.
      by rewrite !string_app_assoc.
Qed.

Lemma released_timestamps_insert player ts val (m : gmap string (list byte)) t :
  in_i64 ts →
  t ∈ released_timestamps player (<[released_key player ts := val]> m)
  ↔ t = ts ∨ t ∈ released_timestamps player m.
Proof.
  intros Hts. rewrite !released_timestamps_spec. split.
  - intros (k & s & Hk & -> & Ht).
    destruct (decide (released_key player ts = RELEASED_PREFIX +:+ hex32 player +:+ ":" +:+ s))
      as [Heq|Hne].
    + left. unfold released_key in Heq. apply String.app_inj, String.app_inj, String.app_inj in Heq.
      subst. rewrite parse_i64_to_string in Ht by done. congruence.
    + rewrite lookup_insert_ne in Hk by done. eauto 6.
  - intros [->|(k & s & Hk & -> & Ht)].
    + exists (released_key player ts), (i64_to_string ts). rewrite lookup_insert_eq.
      split_and!; [eauto|done|by apply parse_i64_to_string].
    + do 2 eexists. split_and!; [|done|done]. apply lookup_insert_is_Some'. by right.
Qed.

Section IntentionFacts.
Context `{Blake3, Postcard}.
Context {A P T : Type}
  `{ArtifactStoreLaws A, PayloadStore P, !PayloadStoreLaws P, AttentionStoreLaws T}.
Implicit Types (v : Vault A P T) (w : DwellWindow).

(** The identifier of the token a window is turned into: it depends on the
    duration only. *)
Definition token_of w : ArtifactId := leaf_id (i64_to_le_bytes (duration_ms w)).

(** The token itself, as its new steward finds it. *)
Definition released_token v (d : arr32) (sub : PlayerId) (now : Z) w : Artifact :=
  set_status (Transferred sub now) (set_steward sub (set_blessing_history
    [{| br_from := vault_player v; br_quest_id := Some (Doc d); br_timestamp := now;
        br_message := None |}]
    (leaf_artifact v (i64_to_le_bytes (duration_ms w))
       (token_name w) None "token" now))).

Definition mark_released (player sub : PlayerId) w (a : Artifact) : Artifact :=
  insert_metadata (released_key player (start_timestamp w))
    (as_bytes (PROOF_PREFIX +:+ hex32 sub)) a.

Lemma release_window_run (d : arr32) sub now w v a :
  artifacts (view v) !! Doc d = Some a → artifact_id a = Doc d →
  ∃ v', release_window (intention_from_id (Doc d)) (vault_player v) sub now w v
          = (v', Ok (token_of w)) ∧
    root v' = root v ∧ v_attention_log v' = v_attention_log v ∧
    v_peer_attention v' = v_peer_attention v ∧
    artifacts (view v') = <[Doc d := mark_released (vault_player v) sub w a]>
      (<[token_of w := released_token v d sub now w]> (artifacts (view v))).
Proof.
  intros Ha Hid. unfold release_window.
  destruct (place_leaf_run (i64_to_le_bytes (duration_ms w)) (token_name w) None "token" now v)
    as (v1 & Hr1 & (Hroot1 & Hlog1 & _ & Hp1 & Hv1) & _).
  run_with Hr1. clear Hr1. set (leaf := leaf_artifact _ _ _ _ _ _) in *.
  assert (artifacts (view v1) = <[token_of w := leaf]> (artifacts (view v))) as Ha1 by (by rewrite Hv1).
  assert (artifacts (view v1) !! token_of w = Some leaf) as Hl1 by (rewrite Ha1; apply lookup_insert_eq).
  rewrite (run_artifact_bind _ _ v1 leaf Hl1).
  set (token := set_blessing_history _ leaf).
  destruct (put_artifact_run token v1) as (s2 & Hr2 & Hv2). run_with Hr2.
  set (v2 := set_artifact_store s2 v1).
  assert (artifacts (view v2) = <[token_of w := token]> (artifacts (view v))) as Ha2.
  { unfold v2, view; simpl. rewrite Hv2. simpl. rewrite Ha1. apply insert_insert_eq. }
  destruct (transfer_run (token_of w) sub now v2 token) as (s3 & Hr3 & Ha3 & _);
    [rewrite Ha2; apply lookup_insert_eq|unfold vault_player; simpl; by rewrite Hroot1|done|].
  run_with Hr3. set (v3 := set_artifact_store s3 v2).
  assert (artifacts (view v3) = <[token_of w := released_token v d sub now w]> (artifacts (view v)))
    as Ha3' by (unfold v3, view; simpl; rewrite Ha3, Ha2; apply insert_insert_eq).
  rewrite (run_artifact_bind _ (Doc d) v3 a)
    by (rewrite Ha3'; by rewrite lookup_insert_ne).
  destruct (put_artifact_run (mark_released (vault_player v) sub w a) v3) as (s4 & Hr4 & Hv4).
  exists (set_artifact_store s4 v3). split; [exact (run_bind_ok _ _ _ _ _ Hr4)|].
  split_and!; [done..|]. unfold view at 1; simpl. rewrite Hv4. simpl. by rewrite Hid, Ha3'.
Qed.

(** The intention's metadata and the attention it reads, during a release. *)
Record releasing (d : arr32) v (v' : Vault A P T) (ws : list DwellWindow) : Prop := {
  rel_root : root v' = root v;
  rel_log : v_attention_log v' = v_attention_log v;
  rel_artifact : ∃ a a', artifacts (view v) !! Doc d = Some a ∧ artifacts (view v') !! Doc d = Some a' ∧
    artifact_id a' = Doc d ∧
    ∀ t, t ∈ released_timestamps (vault_player v) (metadata a') ↔
         t ∈ start_timestamp <$> ws ∨ t ∈ released_timestamps (vault_player v) (metadata a);
}.

Lemma release_windows_run (d : arr32) sub now ws v a :
  artifacts (view v) !! Doc d = Some a → artifact_id a = Doc d →
  Forall (λ w, in_i64 (start_timestamp w)) ws →
  ∃ v', release_windows (intention_from_id (Doc d)) (vault_player v) sub now ws v
          = (v', Ok (token_of <$> ws)) ∧ releasing d v v' ws.
Proof.
  intros Ha Hid Hts. revert v a Ha Hid. induction Hts as [|w ws Hw Hws IH]; intros v a Ha Hid; simpl.
  { exists v. split; [done|]. split; [done|done|]. exists a, a. split_and!; [done..|].
    intros t. rewrite elem_of_nil. tauto. }
  destruct (release_window_run d sub now w v a Ha Hid) as (v1 & Hr1 & Hroot1 & Hlog1 & _ & Ha1).
  run_with Hr1.
  assert (artifacts (view v1) !! Doc d = Some (mark_released (vault_player v) sub w a)) as Hd1
    by (rewrite Ha1; apply lookup_insert_eq).
  destruct (IH v1 _ Hd1 Hid) as (v2 & Hr2 & [Hroot2 Hlog2 (b & a' & Hb & Ha' & Hid' & Hrel)]).
  assert (vault_player v1 = vault_player v) as Hpl by (unfold vault_player; by rewrite Hroot1).
  rewrite Hpl in *. run_with Hr2. exists v2. split; [done|]. split; [congruence..|].
  exists a, a'. split_and!; [done..|]. intros t. rewrite Hrel.
  rewrite Hd1 in Hb. injection Hb as <-. simpl.
  rewrite released_timestamps_insert by done. rewrite elem_of_cons. tauto.
Qed.

Lemma unreleased_view (d : arr32) v a :
  artifacts (view v) !! Doc d = Some a →
  ∃ evs, vault_attention_events v = Ok evs ∧
    intention_unreleased_attention (intention_from_id (Doc d)) (vault_player v) v
    = Ok (retain (λ w, negb (bool_decide
            (start_timestamp w ∈ released_timestamps (vault_player v) (metadata a))))
          (extract_dwell_windows (vault_player v) (Doc d) evs)).
Proof.
  intros Ha. unfold intention_unreleased_attention, vault_attention_events, log_events.
  rewrite bool_decide_true by done. rewrite events_law. eexists. split; [done|]. simpl.
  by rewrite require_artifact_view, Ha.
Qed.

(** Releasing windows of one's attention always succeeds, yields one token per
    window, and the released windows are gone from the unreleased attention
    afterwards, while all others remain. *)
Theorem release_attention_spec (d : arr32) sub now ws v a :
  artifacts (view v) !! Doc d = Some a → artifact_id a = Doc d →
  Forall (λ w, in_i64 (start_timestamp w)) ws →
  let x := intention_from_id (Doc d) in
  ∃ v' before, intention_release_attention x ws sub now v = (v', Ok (token_of <$> ws)) ∧
    intention_unreleased_attention x (vault_player v) v = Ok before ∧
    intention_unreleased_attention x (vault_player v) v'
      = Ok (retain (λ w, negb (bool_decide (start_timestamp w ∈ start_timestamp <$> ws))) before).
Proof.
  intros Ha Hid Hts x. subst x. unfold intention_release_attention. rewrite run_gets_bind.
  destruct (release_windows_run d sub now ws v a Ha Hid Hts)
    as (v' & Hr & [Hroot Hlog (b & a' & Hb & Ha' & Hid' & Hrel)]).
  rewrite Ha in Hb. injection Hb as <-.
  destruct (unreleased_view d v a Ha) as (evs & Hevs & Hb).
  destruct (unreleased_view d v' a' Ha') as (evs' & Hevs' & Hb').
  assert (vault_player v' = vault_player v) as Hpl by (unfold vault_player; by rewrite Hroot).
  rewrite Hpl in Hb'. unfold vault_attention_events in *. rewrite Hlog, Hevs in Hevs'.
  injection Hevs' as <-. do 2 eexists. split_and!; [exact Hr|exact Hb|]. rewrite Hb'. f_equal. clear Hb Hb'.
  induction (extract_dwell_windows _ _ _) as [|w l IH]; simpl; [done|]. rewrite IH.
  rewrite (bool_decide_ext _ _ (Hrel (start_timestamp w))).
  rewrite bool_decide_or, negb_orb.
  destruct (bool_decide (start_timestamp w ∈ start_timestamp <$> ws)) eqn:E1,
    (bool_decide (start_timestamp w ∈ released_timestamps _ (metadata a))); simpl;
    rewrite ?E1; done.
Qed.

(** Tokens are identified by the duration alone and released windows are not
    checked: releasing a window to one person and then a window of the same
    duration (or the same window again) to another succeeds twice, with one
    and the same token, which ends up with the second person only. *)
Theorem equal_durations_one_token (d : arr32) sub1 sub2 now1 now2 w1 w2 v a :
  artifacts (view v) !! Doc d = Some a → artifact_id a = Doc d →
  duration_ms w1 = duration_ms w2 →
  let x := intention_from_id (Doc d) in
  ∃ v1 v2 t t1 t2,
    intention_release_attention x [w1] sub1 now1 v = (v1, Ok [t]) ∧
    artifacts (view v1) !! t = Some t1 ∧ steward t1 = sub1 ∧
    intention_release_attention x [w2] sub2 now2 v1 = (v2, Ok [t]) ∧
    artifacts (view v2) !! t = Some t2 ∧ steward t2 = sub2 ∧ length (blessing_history t2) = 1%nat.
Proof.
  intros Ha Hid Hdur x. subst x.
  destruct (release_window_run d sub1 now1 w1 v a Ha Hid) as (v1 & Hr1 & Hroot1 & _ & _ & Ha1).
  destruct (release_window_run d sub2 now2 w2 v1 (mark_released (vault_player v) sub1 w1 a))
    as (v2 & Hr2 & Hroot2 & _ & _ & Ha2); [rewrite Ha1; apply lookup_insert_eq|done|].
  assert (token_of w2 = token_of w1) as Htok by (unfold token_of; by rewrite Hdur).
  rewrite Htok in *.
  exists v1, v2, (token_of w1), (released_token v d sub1 now1 w1), (released_token v1 d sub2 now2 w2).
  split_and!; [| |done| | |done|done].
  - unfold intention_release_attention. rewrite run_gets_bind. simpl. by run_with Hr1.
  - rewrite Ha1. rewrite lookup_insert_ne by done. apply lookup_insert_eq.
  - unfold intention_release_attention. rewrite run_gets_bind. simpl. by run_with Hr2.
  - rewrite Ha2. rewrite lookup_insert_ne by done. apply lookup_insert_eq.
Qed.

(** ** Proofs and pledges *)

Inductive contribution : Type :=
| SubmitProof (body : string) (now : Z)
| SubmitFolder (folder : ArtifactId) (now : Z)
| PledgeToken (token : ArtifactId).

Definition contribute (x : Intention) (c : contribution) : M (Vault A P T) VaultError unit :=
  match c with
  | SubmitProof body now => intention_submit_proof x body now;; mret tt
  | SubmitFolder folder now => intention_submit_proof_folder x folder now
  | PledgeToken token => intention_pledge_token x token
  end.

Fixpoint contribute_all (x : Intention) (cs : list contribution) : M (Vault A P T) VaultError unit :=
  match cs with
  | [] => mret tt
  | c :: cs => contribute x c;; contribute_all x cs
  end.

Definition proof_ids (cs : list contribution) : list ArtifactId :=
  omap (λ c, match c with
             | SubmitProof body _ => Some (leaf_id (as_bytes body))
             | SubmitFolder folder _ => Some folder
             | PledgeToken _ => None
             end) cs.

Definition pledge_ids (cs : list contribution) : list ArtifactId :=
  omap (λ c, match c with PledgeToken token => Some token | _ => None end) cs.

(** The intention lists [cs] in order and carries [st] as its status. *)
Record intention_ok (d : arr32) (st : string) (proofs pledges : list ArtifactId) v : Prop := {
  int_artifact : ∃ a, artifacts (view v) !! Doc d = Some a ∧ artifact_id a = Doc d ∧
    steward a = vault_player v ∧ refs_bounded a ∧
    metadata a !! STATUS_KEY = Some (as_bytes st) ∧
    ref_artifact_id <$> retain (label_starts_with PROOF_PREFIX) (references a) = proofs ∧
    ref_artifact_id <$> retain (label_starts_with PLEDGE_PREFIX) (references a) = pledges;
}.

Lemma proof_label_starts p now :
  starts_with PROOF_PREFIX (proof_ref_label p now) = true ∧
  starts_with PLEDGE_PREFIX (proof_ref_label p now) = false.
Proof. done. Qed.

Lemma pledge_label_starts p token :
  starts_with PROOF_PREFIX (pledge_label p token) = false ∧
  starts_with PLEDGE_PREFIX (pledge_label p token) = true.
Proof. done. Qed.

Lemma retain_label_singleton p child pos lbl :
  ref_artifact_id <$> retain (label_starts_with p)
    [{| ref_artifact_id := child; position := pos; label := Some lbl |}]
  = if starts_with p lbl then [child] else [].
Proof. simpl. unfold label_starts_with. simpl. by destruct (starts_with p lbl). Qed.

Lemma intention_compose_ok (d : arr32) st ps qs child lbl v :
  intention_ok d st ps qs v →
  ∃ v', (n ← reads (intention_ref_count (intention_from_id (Doc d)));
         vault_compose (Doc d) child (Z.of_nat n) (Some lbl)) v = (v', Ok tt) ∧
    intention_ok d st (ps ++ (if starts_with PROOF_PREFIX lbl then [child] else []))
      (qs ++ (if starts_with PLEDGE_PREFIX lbl then [child] else [])) v'.
Proof.
  intros [(a & Ha & Hid & Hs & Hb & Hst & Hps & Hqs)]. rewrite run_reads_bind.
  unfold intention_ref_count. cbn [intention_id]. rewrite require_artifact_view, Ha. simpl.
  destruct (compose_append_run (Doc d) child (Some lbl) v a Ha Hs Hb) as (s' & Hr & Hv).
  exists (set_artifact_store s' v). split; [done|]. split.
  exists (append_ref child (Some lbl) a). unfold view; simpl. rewrite Hv. simpl.
  rewrite lookup_insert_eq. split_and!; [done..|by apply refs_bounded_append|done| |];
    by rewrite retain_app, fmap_app, retain_label_singleton, ?Hps, ?Hqs.
Qed.

Lemma intention_ok_leaf d st ps qs bytes name ty now v :
  intention_ok d st ps qs v →
  ∃ v' leaf, vault_place_leaf bytes name None ty now v = (v', Ok leaf) ∧
    artifact_id leaf = leaf_id bytes ∧ vault_player v' = vault_player v ∧ intention_ok d st ps qs v'.
Proof.
  intros [(a & Ha & Hid & Hs & Hrest)].
  destruct (place_leaf_run bytes name None ty now v) as (v' & Hr & (Hroot & _ & _ & _ & Hv) & _).
  assert (vault_player v' = vault_player v) as Hpl by (unfold vault_player; by rewrite Hroot).
  do 2 eexists. split_and!; [exact Hr|done|done|]. split. exists a.
  rewrite Hpl, Hv. simpl. by rewrite lookup_insert_ne.
Qed.

Lemma contribute_ok (d : arr32) st ps qs c v :
  intention_ok d st ps qs v →
  ∃ v', contribute (intention_from_id (Doc d)) c v = (v', Ok tt) ∧
        intention_ok d st (ps ++ proof_ids [c]) (qs ++ pledge_ids [c]) v'.
Proof.
  intros Hok. destruct c as [body now|folder now|token]; simpl.
  - destruct (intention_ok_leaf d st ps qs (as_bytes body) ("proof-" +:+ hex32 (vault_player v))
      "attestation" now v Hok) as (v1 & leaf & Hr1 & Hleaf & _ & Hok1).
    destruct (intention_compose_ok d st ps qs (artifact_id leaf)
      (proof_ref_label (vault_player v) now) v1 Hok1) as (v2 & Hr2 & Hok2).
    assert (intention_submit_proof (intention_from_id (Doc d)) body now v
            = (v2, Ok (artifact_id leaf))) as Hr.
    { unfold intention_submit_proof. rewrite run_gets_bind. run_with Hr1.
      rewrite run_reads_bind in Hr2. rewrite run_reads_bind. revert Hr2.
      destruct (intention_ref_count _ _) as [n|e]; [intros Hr2; by run_with Hr2|done]. }
    exists v2. run_with Hr. rewrite <- Hleaf. by split.
  - unfold intention_submit_proof_folder. rewrite run_gets_bind. by apply (intention_compose_ok d).
  - unfold intention_pledge_token. rewrite run_gets_bind. by apply (intention_compose_ok d).
Qed.

Lemma contribute_all_ok (d : arr32) st ps qs cs v :
  intention_ok d st ps qs v →
  ∃ v', contribute_all (intention_from_id (Doc d)) cs v = (v', Ok tt) ∧
        intention_ok d st (ps ++ proof_ids cs) (qs ++ pledge_ids cs) v'.
Proof.
  revert ps qs v. induction cs as [|c cs IH]; intros ps qs v Hok; simpl.
  { exists v. by rewrite !app_nil_r. }
  destruct (contribute_ok d st ps qs c v Hok) as (v1 & Hr1 & Hok1).
  destruct (IH _ _ v1 Hok1) as (v2 & Hr2 & Hok2). exists v2. run_with Hr1. split; [done|].
  rewrite <- !app_assoc in Hok2. by destruct c.
Qed.

Lemma intention_create_ok rnd text aud now v :
  ∃ v', intention_create rnd text aud now v = (v', Ok (intention_from_id (generate_tree_id rnd))) ∧
        intention_ok rnd "active" [] [] v'.
Proof.
  unfold intention_create.
  destruct (place_tree_run rnd "intention" aud now v) as (v1 & Hr1 & Hroot1 & _ & _ & _ & Hv1).
  run_with Hr1.
  destruct (place_leaf_run (as_bytes text) "description" None "message" now v1)
    as (v2 & Hr2 & (Hroot2 & _ & _ & _ & Hv2) & _).
  run_with Hr2. set (art := fresh_artifact _ _ _ _ _ _) in *. set (leaf := leaf_artifact _ _ _ _ _ _) in *.
  assert (artifacts (view v2) !! Doc rnd = Some art) as Ha.
  { rewrite Hv2. simpl. rewrite lookup_insert_ne by done. rewrite Hv1. apply lookup_insert_eq. }
  destruct (compose_run (Doc rnd) (artifact_id leaf) 0 (Some DESCRIPTION_LABEL) v2 art Ha)
    as (s3 & Hr3 & Hv3); [by unfold vault_player; rewrite Hroot2, Hroot1|]. run_with Hr3.
  set (v3 := set_artifact_store s3 v2). set (a3 := set_references _ art) in Hv3.
  assert (artifacts (view v3) !! Doc rnd = Some a3) as Ha3.
  { unfold v3, view; simpl. rewrite Hv3. apply lookup_insert_eq. }
  rewrite (run_artifact_bind _ (Doc rnd) v3 a3 Ha3).
  destruct (put_artifact_run (insert_metadata STATUS_KEY (as_bytes "active") a3) v3) as (s4 & Hr4 & Hv4).
  exists (set_artifact_store s4 v3). split; [exact (run_bind_ok _ _ _ _ _ Hr4)|].
  split. exists (insert_metadata STATUS_KEY (as_bytes "active") a3).
  unfold view at 1; simpl. rewrite Hv4. simpl. rewrite lookup_insert_eq.
  split_and!; try done; [|split; repeat constructor].
  unfold vault_player, v3. simpl. by rewrite Hroot2, Hroot1.
Qed.

Lemma fulfill_ok d st ps qs v :
  intention_ok d st ps qs v →
  ∃ v', intention_fulfill (intention_from_id (Doc d)) v = (v', Ok tt) ∧
        intention_ok d "fulfilled" ps qs v'.
Proof.
  intros [(a & Ha & Hid & Hs & Hb & Hst & Hps & Hqs)].
  destruct (get_modify_put_run (Doc d) (insert_metadata STATUS_KEY (as_bytes "fulfilled")) v a Ha Hid)
    as (s' & Hr & Hv).
  exists (set_artifact_store s' v). split; [exact Hr|]. split.
  exists (insert_metadata STATUS_KEY (as_bytes "fulfilled") a).
  unfold view; simpl. rewrite Hv. simpl. rewrite lookup_insert_eq.
  split_and!; try done. apply lookup_insert_eq.
Qed.

Lemma intention_ok_reads d st ps qs v :
  utf8_valid (as_bytes st) = true → intention_ok d st ps qs v →
  let x := intention_from_id (Doc d) in
  intention_status x v = Ok (Some st) ∧
  (∃ l, intention_proofs x v = Ok l ∧ ref_artifact_id <$> l = ps) ∧
  (∃ l, intention_pledged_tokens x v = Ok l ∧ ref_artifact_id <$> l = qs).
Proof.
  intros Hutf [(a & Ha & Hid & Hs & Hb & Hst & Hps & Hqs)] x.
  unfold intention_status, intention_proofs, intention_pledged_tokens, intention_get_refs.
  subst x. cbn [intention_id]. rewrite require_artifact_view, Ha. simpl. split_and!; [|eauto..].
  rewrite Hst. simpl. unfold from_utf8. rewrite Hutf. unfold as_bytes.
  by rewrite string_of_list_byte_of_string.
Qed.

(** The life of an intention: created it is active; whatever proofs, proof
    folders and pledges are then contributed are listed in order, proofs and
    pledges apart; fulfilling it changes the status and nothing else. *)
Theorem intention_lifecycle rnd text aud now cs v :
  let x := intention_from_id (generate_tree_id rnd) in
  ∃ v1 v2 v3 ps qs,
    intention_create rnd text aud now v = (v1, Ok x) ∧ intention_status x v1 = Ok (Some "active") ∧
    contribute_all x cs v1 = (v2, Ok tt) ∧ intention_status x v2 = Ok (Some "active") ∧
    intention_fulfill x v2 = (v3, Ok tt) ∧ intention_status x v3 = Ok (Some "fulfilled") ∧
    intention_proofs x v3 = Ok ps ∧ ref_artifact_id <$> ps = proof_ids cs ∧
    intention_pledged_tokens x v3 = Ok qs ∧ ref_artifact_id <$> qs = pledge_ids cs.
Proof.
  intros x. destruct (intention_create_ok rnd text aud now v) as (v1 & Hr1 & Hok1).
  destruct (contribute_all_ok rnd "active" [] [] cs v1 Hok1) as (v2 & Hr2 & Hok2).
  destruct (fulfill_ok rnd _ _ _ v2 Hok2) as (v3 & Hr3 & Hok3).
  apply intention_ok_reads in Hok1 as [Hst1 _], Hok2 as [Hst2 _],
    Hok3 as (Hst3 & (ps & Hps & Hps') & (qs & Hqs & Hqs')); try done.
  exists v1, v2, v3, ps, qs. by split_and!.
Qed.

(** The references left on an intention once [ids] are released. *)
Definition drop_refs (ids : list ArtifactId) (refs : list ArtifactRef) : list ArtifactRef :=
  retain (λ r, negb (bool_decide (ref_artifact_id r ∈ ids))) refs.

Lemma drop_refs_cons i ids refs :
  drop_refs ids (retain (λ r, negb (bool_decide (ref_artifact_id r = i))) refs)
  = drop_refs (i :: ids) refs.
Proof.
  unfold drop_refs. induction refs as [|r refs IH]; simpl; [done|].
  rewrite (bool_decide_ext (ref_artifact_id r ∈ i :: ids)
             (ref_artifact_id r = i ∨ ref_artifact_id r ∈ ids)) by apply elem_of_cons.
  rewrite bool_decide_or. destruct (bool_decide (ref_artifact_id r = i)); simpl; [done|].
  destruct (bool_decide (ref_artifact_id r ∈ ids)); simpl; by rewrite IH.
Qed.

(** Releasing pledged tokens that the player stewards and that are active
    (each listed once) transfers every one of them to the submitter and takes
    exactly their references off the intention; no other artifact changes. *)
Theorem release_pledged_tokens_spec (d : arr32) ids sub now v a :
  artifacts (view v) !! Doc d = Some a → steward a = vault_player v →
  NoDup ids → Doc d ∉ ids →
  (∀ i, i ∈ ids → ∃ t, artifacts (view v) !! i = Some t ∧ steward t = vault_player v ∧
                       is_active (status t) = true) →
  ∃ v' a', intention_release_pledged_tokens (intention_from_id (Doc d)) ids sub now v = (v', Ok tt) ∧
    artifacts (view v') !! Doc d = Some a' ∧ references a' = drop_refs ids (references a) ∧
    (∀ i, i ∈ ids → ∃ t', artifacts (view v') !! i = Some t' ∧ steward t' = sub ∧
                          status t' = Transferred sub now) ∧
    ∀ k, k ∉ ids → k ≠ Doc d → artifacts (view v') !! k = artifacts (view v) !! k.
Proof.
  intros Ha Hs Hn. revert v a Ha Hs. induction Hn as [|i ids Hi Hn IH]; intros v a Ha Hs Hd Htok; simpl.
  { exists v, a. split_and!; [done|done| |by intros ? ?%elem_of_nil|done]. unfold drop_refs.
    by rewrite retain_all. }
  apply not_elem_of_cons in Hd as [Hdi Hd].
  destruct (Htok i) as (t & Ht & Hts & Hta); [by left|].
  destruct (transfer_run i sub now v t Ht Hts Hta) as (s1 & Hr1 & Ha1 & _). run_with Hr1.
  destruct (remove_ref_run (Doc d) i (set_artifact_store s1 v) a) as (s2 & Hr2 & Hv2);
    [unfold view; simpl; rewrite Ha1; by rewrite lookup_insert_ne|done|]. run_with Hr2.
  set (v2 := set_artifact_store s2 (set_artifact_store s1 v)) in *.
  set (a2 := set_references _ a) in Hv2.
  assert (artifacts (view v2) = <[Doc d := a2]>
    (<[i := set_status (Transferred sub now) (set_steward sub t)]> (artifacts (view v)))) as Ha2.
  { unfold v2, view; simpl. rewrite Hv2. simpl. unfold view; simpl. by rewrite Ha1. }
  destruct (IH v2 a2) as (v' & a' & Hr & Ha' & Hrefs & Hdone & Hkeep); [by rewrite Ha2, lookup_insert_eq|done..| |].
  { intros j Hj. destruct (Htok j) as (t' & Ht' & Hrest); [by right|]. exists t'. split; [|done].
    rewrite Ha2, !lookup_insert_ne; [done|congruence|congruence]. }
  exists v', a'. split_and!; [done|done|rewrite Hrefs; apply drop_refs_cons| |].
  - intros j [->|Hj]%elem_of_cons; [|by apply Hdone]. eexists.
    rewrite Hkeep, Ha2, lookup_insert_ne, lookup_insert_eq by done. done.
  - intros k [Hki Hk]%not_elem_of_cons Hkd. rewrite Hkeep, Ha2 by done. by rewrite !lookup_insert_ne.
Qed.
End IntentionFacts.
