(* ===== verification/Packet.v ===== *)
(** * Identities, packets and packet stores

    Models [indras-core]: [identity.rs], [packet.rs], [routing.rs] and the
    topology and packet-store traits of [traits.rs]; and the in-memory packet
    store of [indras-storage/src/memory.rs].  Clock readings are arguments
    ([now], in nanoseconds); the standard library's [DefaultHasher] is
    the parameter [hash_identity]. *)

From S2P Require Import Prelude.

(** ** Peer identities *)

Inductive IdentityError : Type :=
| InvalidKeyLength (expected actual : Z)
| InvalidFormat (msg : string).

Class PeerIdentity (I : Type) : Type := {
  #[global] pid_eq_dec :: EqDecision I;
  pid_as_bytes : I → list byte;
  pid_from_bytes : list byte → Result I IdentityError;
}.

(** [Packet::hash_identity]: the 64-bit hash of an identity under the standard
    library's [DefaultHasher], whose algorithm is not specified. *)
Class DefaultHasher (I : Type) : Type := hash_identity : I → Z.

(** What the components rely on: the byte form identifies the peer. *)
Class PeerIdentityLaws (I : Type) `{PeerIdentity I} : Prop :=
  pid_roundtrip i : pid_from_bytes (pid_as_bytes i) = Ok i.

Lemma pid_as_bytes_inj {I : Type} `{PeerIdentityLaws I} (i j : I) : pid_as_bytes i = pid_as_bytes j → i = j.
Proof. intros Hij. pose proof (pid_roundtrip i) as Hi. rewrite Hij, pid_roundtrip in Hi. congruence. Qed.

(** [SimulationIdentity(char)], as [new] creates it: the code points of the
    capital letters. *)
Abbreviation SimulationIdentity := (dsig (λ c : Z, 65 <= c <= 90)).

Definition is_ascii_uppercase (c : Z) : bool := (65 <=? c) && (c <=? 90).

Definition sim_new (c : Z) : option SimulationIdentity :=
  match decide (65 <= c <= 90) with
  | left H => Some (dexist c H)
  | right _ => None
  end.

Definition sim_as_char (i : SimulationIdentity) : Z := proj1_sig i.

(** [('A'..=end).filter_map(Self::new).collect()]. *)
Definition sim_range_to (last : Z) : list SimulationIdentity :=
  omap (λ n, sim_new (65 + Z.of_nat n)) (seq 0 (Z.to_nat (last - 64))).

Definition sim_as_bytes (i : SimulationIdentity) : list byte := [byte_of_Z (sim_as_char i)].

Definition sim_from_bytes (l : list byte) : Result SimulationIdentity IdentityError :=
  match l with
  | [b] =>
      let c := Z.of_N (Byte.to_N b) in
      r_ok_or (sim_new c)
        (InvalidFormat ("Invalid simulation identity: " +:+ String (ascii_of_byte b) EmptyString))
  | _ => Err (InvalidKeyLength 1 (Z.of_nat (length l)))
  end.

#[global] Instance simulation_identity : PeerIdentity SimulationIdentity := {|
  pid_as_bytes := sim_as_bytes;
  pid_from_bytes := sim_from_bytes;
|}.

Lemma sim_new_char (i : SimulationIdentity) : sim_new (sim_as_char i) = Some i.
Proof.
  unfold sim_new. destruct (decide _) as [Hc|Hc].
  - f_equal. by apply dsig_eq.
  - destruct Hc. apply (proj2_dsig i).
Qed.

Lemma byte_of_Z_to_Z z : 0 <= z < 256 → Z.of_N (Byte.to_N (byte_of_Z z)) = z.
Proof.
  intros Hz. unfold byte_of_Z. rewrite Z.mod_small by done.
  destruct (Byte.of_N (Z.to_N z)) as [b|] eqn:Hb; simpl.
  - apply Byte.to_of_N in Hb. rewrite Hb. lia.
  - apply Byte.of_N_None_iff in Hb. lia.
Qed.

#[global] Instance simulation_identity_laws : PeerIdentityLaws SimulationIdentity.
Proof.
  intros i. simpl. unfold sim_from_bytes, sim_as_bytes. rewrite byte_of_Z_to_Z.
  - by rewrite sim_new_char.
  - pose proof (proj2_dsig i) as Hi. simpl in Hi. unfold sim_as_char. simpl in *. lia.
Qed.

(** ** Packets *)

Record PacketId : Type := { source_hash : Z; sequence : Z }.

#[global] Instance PacketId_eq_dec : EqDecision PacketId.
Proof. solve_decision. Defined.

#[global] Instance PacketId_countable : Countable PacketId.
Proof.
  refine (inj_countable' (λ p, (source_hash p, sequence p))
    (λ '(a, b), {| source_hash := a; sequence := b |}) _).
  by intros [].
Defined.

(** The derived [Ord]: lexicographic. *)
Definition packet_id_leb (a b : PacketId) : bool :=
  (source_hash a <? source_hash b)
  || ((source_hash a =? source_hash b) && (sequence a <=? sequence b)).

Inductive Priority : Type := Low | Normal | High | Critical.

#[global] Instance Priority_eq_dec : EqDecision Priority.
Proof. solve_decision. Defined.

Record EncryptedPayload : Type := { data : list byte; encrypted : bool }.

#[global] Instance EncryptedPayload_eq_dec : EqDecision EncryptedPayload.
Proof. solve_decision. Defined.

Definition payload_plaintext (d : list byte) : EncryptedPayload := {| data := d; encrypted := false |}.

Definition payload_encrypted (d : list byte) : EncryptedPayload := {| data := d; encrypted := true |}.

(** [visited] holds identity hashes; [correlation_id] is a UUID (128 bits). *)
Record Packet (I : Type) : Type := {
  packet_id : PacketId;
  source : I;
  destination : I;
  packet_payload : EncryptedPayload;
  routing_hints : list I;
  packet_created_at : Z;
  ttl : Z;
  visited : gset Z;
  priority : Priority;
  correlation_id : option Z;
}.
Arguments packet_id {I} _.
Arguments source {I} _.
Arguments destination {I} _.
Arguments packet_payload {I} _.
Arguments routing_hints {I} _.
Arguments packet_created_at {I} _.
Arguments ttl {I} _.
Arguments visited {I} _.
Arguments priority {I} _.
Arguments correlation_id {I} _.

#[global] Instance Packet_eq_dec {I : Type} `{EqDecision I} : EqDecision (Packet I).
Proof. solve_decision. Defined.

Section Packets.
Context {I : Type} `{PeerIdentity I, DefaultHasher I}.
Implicit Types (p : Packet I) (i : I).

Definition packet_new (id : PacketId) (src dst : I) (payload : EncryptedPayload) (hints : list I)
    (now uuid : Z) : Packet I :=
  {| packet_id := id; source := src; destination := dst; packet_payload := payload;
     routing_hints := hints; packet_created_at := now; ttl := 10; visited := {[ hash_identity src ]};
     priority := Normal; correlation_id := Some uuid |}.

Definition with_ttl (t : Z) p : Packet I :=
  {| packet_id := packet_id p; source := source p; destination := destination p;
     packet_payload := packet_payload p; routing_hints := routing_hints p;
     packet_created_at := packet_created_at p; ttl := t; visited := visited p;
     priority := priority p; correlation_id := correlation_id p |}.

Definition with_priority (pr : Priority) p : Packet I :=
  {| packet_id := packet_id p; source := source p; destination := destination p;
     packet_payload := packet_payload p; routing_hints := routing_hints p;
     packet_created_at := packet_created_at p; ttl := ttl p; visited := visited p;
     priority := pr; correlation_id := correlation_id p |}.

Definition set_correlation_id (c : option Z) p : Packet I :=
  {| packet_id := packet_id p; source := source p; destination := destination p;
     packet_payload := packet_payload p; routing_hints := routing_hints p;
     packet_created_at := packet_created_at p; ttl := ttl p; visited := visited p;
     priority := priority p; correlation_id := c |}.

Definition with_correlation_id (c : Z) p : Packet I := set_correlation_id (Some c) p.

Definition without_correlation_id p : Packet I := set_correlation_id None p.

Definition set_visited (s : gset Z) p : Packet I :=
  {| packet_id := packet_id p; source := source p; destination := destination p;
     packet_payload := packet_payload p; routing_hints := routing_hints p;
     packet_created_at := packet_created_at p; ttl := ttl p; visited := s;
     priority := priority p; correlation_id := correlation_id p |}.

Definition mark_visited i p : Packet I := set_visited ({[ hash_identity i ]} ∪ visited p) p.

Definition was_visited i p : bool := bool_decide (hash_identity i ∈ visited p).

(** The packet after the call and whether it may travel on. *)
Definition decrement_ttl p : Packet I * bool :=
  if ttl p =? 0 then (p, false) else (with_ttl (ttl p - 1) p, true).

Definition hop_count p : nat := size (visited p).

Definition packet_age (now : Z) p : Z := now - packet_created_at p.
End Packets.

Record DeliveryConfirmation (I : Type) : Type := {
  dc_packet_id : PacketId;
  delivered_to : I;
  delivered_at : Z;
  dc_path : list I;
}.

Definition delivery_confirmation_new {I} (id : PacketId) (to : I) (path : list I) (now : Z)
    : DeliveryConfirmation I :=
  {| dc_packet_id := id; delivered_to := to; delivered_at := now; dc_path := path |}.

(** ** Routing decisions *)

Inductive DropReason : Type :=
| TtlExpired | NoRoute | Duplicate | Expired | SenderOffline | StorageFull | TooLarge.

#[global] Instance DropReason_eq_dec : EqDecision DropReason.
Proof. solve_decision. Defined.

Inductive RoutingDecision (I : Type) : Type :=
| DirectDelivery (destination : I)
| RelayThrough (next_hops : list I)
| HoldForLater
| Drop (reason : DropReason).
Arguments DirectDelivery {I} _.
Arguments RelayThrough {I} _.
Arguments HoldForLater {I}.
Arguments Drop {I} _.

Definition is_delivery {I} (d : RoutingDecision I) : bool :=
  match d with DirectDelivery _ => true | _ => false end.
Definition is_relay {I} (d : RoutingDecision I) : bool :=
  match d with RelayThrough _ => true | _ => false end.
Definition is_hold {I} (d : RoutingDecision I) : bool :=
  match d with HoldForLater => true | _ => false end.
Definition is_drop {I} (d : RoutingDecision I) : bool :=
  match d with Drop _ => true | _ => false end.

Inductive CoreRoutingError : Type :=
| ErrNoRoute | ErrTtlExpired | ErrAlreadyVisited | ErrDestinationNotFound | ErrTimeout (ticks : Z).

Inductive StorageError : Type :=
| Io (msg : string)
| PacketNotFound (msg : string)
| CapacityExceeded
| Serialization (msg : string)
| Deserialization (msg : string).

(** ** The topology and packet-store traits *)

Class NetworkTopology (T I : Type) : Type := {
  topo_peers : T → list I;
  topo_neighbors : I → T → list I;
  topo_are_connected : I → I → T → bool;
  topo_is_online : I → T → bool;
}.

(** The provided method [mutual_peers]: the common neighbours, once each (the
    order of a [HashSet] is not specified). *)
Definition topo_mutual_peers {T I : Type} `{EqDecision I} `{NetworkTopology T I} (a b : I) (t : T)
    : list I :=
  retain (λ i, bool_decide (i ∈ topo_neighbors b t)) (remove_dups (topo_neighbors a t)).

Class PacketStore (S I : Type) : Type := {
  ps_store : Packet I → M S StorageError unit;
  ps_retrieve : PacketId → S → Result (option (Packet I)) StorageError;
  ps_pending_for : I → S → Result (list (Packet I)) StorageError;
  ps_delete : PacketId → M S StorageError unit;
  ps_all_packets : S → Result (list (Packet I)) StorageError;
  ps_count : S → Result nat StorageError;
  ps_clear : M S StorageError unit;
}.
