(* ===== verification/PacketStore.v ===== *)
(** * The in-memory packet store

    Models [InMemoryPacketStore] of [indras-storage/src/memory.rs]: the packets
    by identifier and, next to them, an index of identifiers by
    destination. *)

From S2P Require Import Prelude Packet.

#[global] Instance packet_id_leb_linear : LinearOrder packet_id_leb.
Proof.
  unfold packet_id_leb. split; [split|].
  - intros [a b] [c d]; simpl. lia.
  - intros [a b] [c d] [e f]; simpl. lia.
  - intros [a b] [c d]; simpl. intros H1 H2. f_equal; lia.
Qed.

Record InMemoryPacketStore (I : Type) : Type := {
  packets : gmap PacketId (Packet I);
  by_destination : gmap (list byte) (gset PacketId);
}.
Arguments packets {I} _.
Arguments by_destination {I} _.

(** A [BTreeSet] iterates in order. *)
Definition in_order (s : gset PacketId) : list PacketId := sort_by packet_id_leb (elements s).

Section PacketStore.
Context {I : Type} `{PeerIdentity I}.
Implicit Types (s : InMemoryPacketStore I) (p : Packet I) (d : I).

Definition packet_store_new : InMemoryPacketStore I := {| packets := ∅; by_destination := ∅ |}.

Definition mem_store p : M (InMemoryPacketStore I) StorageError unit := λ s,
  let dest_key := pid_as_bytes (destination p) in
  ({| packets := <[packet_id p := p]> (packets s);
      by_destination :=
        <[dest_key := {[ packet_id p ]} ∪ default ∅ (by_destination s !! dest_key)]>
          (by_destination s) |}, Ok tt).

Definition mem_retrieve (id : PacketId) s : Result (option (Packet I)) StorageError :=
  Ok (packets s !! id).

Definition mem_pending_for d s : Result (list (Packet I)) StorageError :=
  match by_destination s !! pid_as_bytes d with
  | Some ids => Ok (omap (λ id, packets s !! id) (in_order ids))
  | None => Ok []
  end.

Definition mem_delete (id : PacketId) : M (InMemoryPacketStore I) StorageError unit := λ s,
  match packets s !! id with
  | Some p =>
      let dest_key := pid_as_bytes (destination p) in
      ({| packets := delete id (packets s);
          by_destination := alter (λ ids, ids ∖ {[ id ]}) dest_key (by_destination s) |}, Ok tt)
  | None => (s, Ok tt)
  end.

Definition mem_all_packets s : Result (list (Packet I)) StorageError :=
  Ok (map_to_list (packets s)).*2.

Definition mem_count s : Result nat StorageError := Ok (size (packets s)).

Definition mem_clear : M (InMemoryPacketStore I) StorageError unit := λ _,
  (packet_store_new, Ok tt).
End PacketStore.

#[global] Instance in_memory_packet_store {I : Type} `{PeerIdentity I}
    : PacketStore (InMemoryPacketStore I) I := {|
  ps_store := mem_store;
  ps_retrieve := mem_retrieve;
  ps_pending_for := mem_pending_for;
  ps_delete := mem_delete;
  ps_all_packets := mem_all_packets;
  ps_count := mem_count;
  ps_clear := mem_clear;
|}.

(** What the router relies on: a packet whose storing succeeded is there. *)
Class PacketStoreLaws (S I : Type) `{PacketStore S I} : Prop :=
  ps_store_retrieve p (s s' : S) :
    ps_store p s = (s', Ok tt) → ps_retrieve (packet_id p) s' = Ok (Some p).

#[global] Instance in_memory_packet_store_laws {I : Type} `{PeerIdentity I}
    : PacketStoreLaws (InMemoryPacketStore I) I.
Proof. intros p s s' [= <-]. simpl. unfold mem_retrieve. simpl. by rewrite lookup_insert_eq. Qed.

Section PacketStoreFacts.
Context {I : Type} `{PeerIdentityLaws I}.
Implicit Types (s : InMemoryPacketStore I) (p : Packet I) (d : I).

(** The index lists exactly the stored packets, each under its destination. *)
Definition index_ok s : Prop :=
  ∀ id key, id ∈ default ∅ (by_destination s !! key) ↔
            ∃ p, packets s !! id = Some p ∧ pid_as_bytes (destination p) = key.

Lemma index_ok_new : index_ok packet_store_new.
Proof. intros id key. simpl. rewrite lookup_empty. simpl. split; [set_solver|]. by intros (p & Hp & _). Qed.

(** Storing keeps the index right as long as a stored identifier keeps its
    destination. *)
Lemma index_ok_store p s :
  index_ok s →
  (∀ q, packets s !! packet_id p = Some q → destination q = destination p) →
  index_ok (mem_store p s).1.
Proof.
  unfold index_ok. intros Hok Hdest id key. simpl. rewrite !lookup_insert.
  destruct (decide (pid_as_bytes (destination p) = key)) as [<-|Hne];
    destruct (decide (packet_id p = id)) as [<-|Hid]; simpl.
  - split; [eauto|set_solver].
  - rewrite <- (Hok id). set_solver.
  - rewrite Hok. split; [|naive_solver]. intros (q & Hq & Hk). rewrite (Hdest q Hq) in Hk. done.
  - apply Hok.
Qed.

Lemma index_ok_delete id s : index_ok s → index_ok (mem_delete id s).1.
Proof.
  unfold index_ok. intros Hok. unfold mem_delete. destruct (packets s !! id) as [p|] eqn:Hp; [|done].
  intros id' key. simpl.
  rewrite lookup_delete. destruct (decide (pid_as_bytes (destination p) = key)) as [<-|Hne].
  - rewrite lookup_alter_eq. pose proof (Hok id' (pid_as_bytes (destination p))) as Hk.
    destruct (by_destination s !! pid_as_bytes (destination p)) as [ids|]; simpl in *;
      case_decide; subst; set_solver.
  - rewrite lookup_alter_ne by done. rewrite Hok. case_decide as Hid; [subst|done].
    split; [|naive_solver]. intros (q & Hq & Hk). congruence.
Qed.

Inductive store_op : Type :=
| StStore (p : Packet I)
| StDelete (id : PacketId)
| StClear.

Definition run_store_op (op : store_op) : M (InMemoryPacketStore I) StorageError unit :=
  match op with
  | StStore p => mem_store p
  | StDelete id => mem_delete id
  | StClear => mem_clear
  end.

Definition run_store_ops (ops : list store_op) s : InMemoryPacketStore I :=
  foldl (λ s op, (run_store_op op s).1) s ops.

(** Every packet of a run with the same identifier has the same destination. *)
Definition stable_destinations (ops : list store_op) : Prop :=
  ∀ p q, StStore p ∈ ops → StStore q ∈ ops → packet_id p = packet_id q →
         destination p = destination q.

(** The packets of the store were stored by an operation of [ops] and are
    filed under their own identifier. *)
Definition stored_by (ops : list store_op) s : Prop :=
  ∀ id p, packets s !! id = Some p → packet_id p = id ∧ StStore p ∈ ops.

Lemma run_store_op_ok (ops : list store_op) op s :
  op ∈ ops → stable_destinations ops → index_ok s → stored_by ops s →
  index_ok (run_store_op op s).1 ∧ stored_by ops (run_store_op op s).1.
Proof.
  intros Hin Hst Hok Hby. destruct op as [p|id|]; simpl.
  - split.
    + apply index_ok_store; [done|]. intros q Hq. destruct (Hby _ _ Hq) as [Hid Hq'].
      by apply Hst.
    + intros id q. simpl. rewrite lookup_insert. case_decide as Hid; [|apply Hby].
      intros [= <-]. by split.
  - split; [by apply index_ok_delete|]. unfold mem_delete.
    destruct (packets s !! id) as [p|]; [|done]. intros id' q. simpl.
    rewrite lookup_delete. case_decide; [done|apply Hby].
  - split; [apply index_ok_new|]. intros id p. simpl. by rewrite lookup_empty.
Qed.

Lemma run_store_ops_ok (ops done_ : list store_op) s :
  stable_destinations (done_ ++ ops) → index_ok s → stored_by (done_ ++ ops) s →
  index_ok (run_store_ops ops s) ∧ stored_by (done_ ++ ops) (run_store_ops ops s).
Proof.
  revert done_ s. induction ops as [|op ops IH]; intros done_ s Hst Hok Hby; simpl; [done|].
  destruct (run_store_op_ok (done_ ++ op :: ops) op s) as [Hok1 Hby1]; try done.
  { apply elem_of_app. right. by left. }
  rewrite (cons_middle op), app_assoc in *. by apply IH.
Qed.

(** Identifiers in order: what a pending list is sorted by. *)
Definition id_sorted (l : list (Packet I)) : Prop :=
  StronglySorted (λ a b, packet_id_leb a b = true) (packet_id <$> l).

Lemma pending_ids_sorted s (ids : list PacketId) :
  (∀ id p, packets s !! id = Some p → packet_id p = id) →
  StronglySorted (λ a b, packet_id_leb a b = true) ids →
  id_sorted (omap (λ id, packets s !! id) ids).
Proof.
  intros Hfiled. unfold id_sorted. induction 1 as [|id ids Hs IH Hall]; csimpl; [constructor|].
  destruct (packets s !! id) as [p|] eqn:Hp; csimpl; [|done]. constructor; [done|].
  rewrite (Hfiled id p Hp). rewrite Forall_forall in *.
  intros id' (q & -> & (j & Hj & Hq)%list_elem_of_omap)%list_elem_of_fmap.
  rewrite (Hfiled j q Hq). by apply Hall.
Qed.

(** The destination index is a faithful view of the store: after any run of
    stores, deletions and clears in which an identifier always goes to the
    same destination, the pending packets of a peer are exactly the stored
    packets addressed to it, in identifier order. *)
Theorem packet_store_pending ops d :
  stable_destinations ops →
  ∃ l, mem_pending_for d (run_store_ops ops packet_store_new) = Ok l ∧ id_sorted l ∧
    ∀ p, p ∈ l ↔ ∃ id, mem_retrieve id (run_store_ops ops packet_store_new) = Ok (Some p) ∧
                       destination p = d.
Proof.
  intros Hst. destruct (run_store_ops_ok ops [] packet_store_new) as [Hok Hby];
    [done|apply index_ok_new|by intros id p; simpl; rewrite lookup_empty|].
  set (s := run_store_ops ops packet_store_new) in *. unfold mem_pending_for, mem_retrieve.
  pose proof (λ id, Hok id (pid_as_bytes d)) as Hd.
  destruct (by_destination s !! pid_as_bytes d) as [ids|] eqn:Hids; simpl in Hd;
    eexists; (split; [done|split]).
  - apply pending_ids_sorted; [intros; by apply Hby|]. apply sort_by_sorted, _.
  - intros p. rewrite list_elem_of_omap. unfold in_order. setoid_rewrite sort_by_perm.
    setoid_rewrite elem_of_elements. split.
    + intros (id & Hin & Hp). exists id. split; [by rewrite Hp|].
      apply Hd in Hin as (q & Hq & Hk). rewrite Hp in Hq. injection Hq as <-.
      by apply pid_as_bytes_inj.
    + intros (id & [= Hp] & <-). exists id. split; [|done]. apply Hd. eauto.
  - constructor.
  - intros p. rewrite elem_of_nil. split; [done|]. intros (id & [= Hp] & <-).
    assert (id ∈ (∅ : gset PacketId)) as Hin by (apply Hd; eauto). set_solver.
Qed.

(** Storing under an identifier that is already stored for another peer leaves
    the old index entry behind: the former destination's pending list then
    contains a packet addressed to somebody else. *)
Theorem packet_store_stale_index p q :
  packet_id p = packet_id q → destination p ≠ destination q →
  mem_pending_for (destination p) (run_store_ops [StStore p; StStore q] packet_store_new)
  = Ok [q].
Proof.
  intros Hid Hne. unfold mem_pending_for. simpl.
  rewrite lookup_insert_ne by (intros ?%pid_as_bytes_inj; done).
  rewrite lookup_insert_eq, lookup_empty. simpl. rewrite union_empty_r_L.
  unfold in_order. rewrite elements_singleton. simpl.
  by rewrite Hid, lookup_insert_eq.
Qed.
End PacketStoreFacts.
