(* ===== verification/Pending.v ===== *)
(** * The pending store and its quotas

    Models [InMemoryPendingStore] of [indras-storage/src/memory.rs] (which
    events still have to reach which peer), the quotas of [quota.rs] it
    enforces and the event identifiers of [indras-core/src/interface.rs].
    Counters are [usize] with wrap-around ([AtomicUsize]). *)

From S2P Require Import Prelude Packet.

(** ** Event identifiers *)

Record EventId : Type := { sender_hash : Z; ev_sequence : Z }.

#[global] Instance EventId_eq_dec : EqDecision EventId.
Proof. solve_decision. Defined.

#[global] Instance EventId_countable : Countable EventId.
Proof.
  refine (inj_countable' (λ e, (sender_hash e, ev_sequence e))
    (λ '(a, b), {| sender_hash := a; ev_sequence := b |}) _).
  by intros [].
Defined.

(** The derived [Ord]: lexicographic. *)
Definition event_id_leb (a b : EventId) : bool :=
  (sender_hash a <? sender_hash b)
  || ((sender_hash a =? sender_hash b) && (ev_sequence a <=? ev_sequence b)).

#[global] Instance event_id_leb_linear : LinearOrder event_id_leb.
Proof.
  unfold event_id_leb. split; [split|].
  - intros [a b] [c d]; simpl. lia.
  - intros [a b] [c d] [e f]; simpl. lia.
  - intros [a b] [c d]; simpl. intros Hab Hba. f_equal; lia.
Qed.

(** A [BTreeSet] iterates in order. *)
Definition events_in_order (s : gset EventId) : list EventId := sort_by event_id_leb (elements s).

(** ** Quotas *)

Inductive EvictionPolicy : Type := Fifo | OldestFirst.

Record QuotaManager : Type := {
  max_pending_per_peer : Z;
  max_total_pending : Z;
  eviction_policy : EvictionPolicy;
}.

Definition quota_default : QuotaManager :=
  {| max_pending_per_peer := 1000; max_total_pending := 100000; eviction_policy := Fifo |}.

Definition quota_new (per_peer total : Z) : QuotaManager :=
  {| max_pending_per_peer := per_peer; max_total_pending := total; eviction_policy := Fifo |}.

Definition with_eviction_policy (p : EvictionPolicy) (q : QuotaManager) : QuotaManager :=
  {| max_pending_per_peer := max_pending_per_peer q; max_total_pending := max_total_pending q;
     eviction_policy := p |}.

Definition would_exceed_peer_quota (q : QuotaManager) (current_count : Z) : bool :=
  max_pending_per_peer q <=? current_count.

Definition would_exceed_total_quota (q : QuotaManager) (current_total : Z) : bool :=
  max_total_pending q <=? current_total.

Definition select_for_eviction (q : QuotaManager) (events : gset EventId) (count : Z)
    : list EventId :=
  if (count =? 0) || bool_decide (size events = 0%nat) then []
  else
    let to_evict := Z.min count (Z.of_nat (size events)) in
    match eviction_policy q with
    | Fifo | OldestFirst => take (Z.to_nat to_evict) (events_in_order events)
    end.

Definition events_to_evict_for_peer (q : QuotaManager) (current_count to_add : Z) : Z :=
  usize_saturating_sub (usize_saturating_add current_count to_add) (max_pending_per_peer q).

Definition events_to_evict_for_total (q : QuotaManager) (current_total to_add : Z) : Z :=
  usize_saturating_sub (usize_saturating_add current_total to_add) (max_total_pending q).

Record QuotaManagerBuilder : Type := {
  b_max_pending_per_peer : option Z;
  b_max_total_pending : option Z;
  b_eviction_policy : option EvictionPolicy;
}.

Definition builder_new : QuotaManagerBuilder :=
  {| b_max_pending_per_peer := None; b_max_total_pending := None; b_eviction_policy := None |}.

Definition quota_build (b : QuotaManagerBuilder) : QuotaManager :=
  {| max_pending_per_peer := default (max_pending_per_peer quota_default) (b_max_pending_per_peer b);
     max_total_pending := default (max_total_pending quota_default) (b_max_total_pending b);
     eviction_policy := default (eviction_policy quota_default) (b_eviction_policy b) |}.

(** ** The store *)

(** [indras_storage::StorageError]. *)
Inductive PendingError : Type :=
| SeIo (msg : string)
| SeNotFound (msg : string)
| SePacketNotFound (msg : string)
| SeCapacityExceeded
| SeSerialization (msg : string)
| SeDeserialization (msg : string)
| SeIdentity (msg : string)
| SeDatabase (msg : string)
| SeDatabaseLocked.

Record InMemoryPendingStore : Type := {
  pending : gmap (list byte) (gset EventId);
  quota : QuotaManager;
  total_count : Z;
}.

Definition pending_with_quota (q : QuotaManager) : InMemoryPendingStore :=
  {| pending := ∅; quota := q; total_count := 0 |}.

Definition pending_store_new : InMemoryPendingStore := pending_with_quota quota_default.

Definition total_pending (s : InMemoryPendingStore) : Z := total_count s.

Definition pending_peer_count (s : InMemoryPendingStore) : nat := size (pending s).

Definition pending_is_empty (s : InMemoryPendingStore) : bool := total_count s =? 0.

Definition set_peer_pending (k : list byte) (e : gset EventId) (total : Z)
    (s : InMemoryPendingStore) : InMemoryPendingStore :=
  {| pending := <[k := e]> (pending s); quota := quota s; total_count := total |}.

(** [for id in ids { events.remove(&id); total_count.fetch_sub(1) }]. *)
Fixpoint evict_all (ids : list EventId) (events : gset EventId) (total : Z) : gset EventId * Z :=
  match ids with
  | [] => (events, total)
  | id :: ids => evict_all ids (events ∖ {[ id ]}) (usize_sub total 1)
  end.

Section Pending.
Context {I : Type} `{PeerIdentity I}.
Implicit Types (s : InMemoryPendingStore) (p : I).

Definition mark_pending p (event_id : EventId) : M InMemoryPendingStore PendingError unit := λ s,
  let key := pid_as_bytes p in
  if would_exceed_total_quota (quota s) (total_count s) then (s, Err SeCapacityExceeded)
  else
    let events := default ∅ (pending s !! key) in
    let (events, total) :=
      if would_exceed_peer_quota (quota s) (Z.of_nat (size events)) then
        let to_evict := events_to_evict_for_peer (quota s) (Z.of_nat (size events)) 1 in
        evict_all (select_for_eviction (quota s) events to_evict) events (total_count s)
      else (events, total_count s) in
    if bool_decide (event_id ∈ events) then (set_peer_pending key events total s, Ok tt)
    else (set_peer_pending key ({[ event_id ]} ∪ events) (wrap_u64 (total + 1)) s, Ok tt).

Definition events_pending_for p s : Result (list EventId) PendingError :=
  match pending s !! pid_as_bytes p with
  | Some events => Ok (events_in_order events)
  | None => Ok []
  end.

Definition mark_delivered p (event_id : EventId) : M InMemoryPendingStore PendingError unit := λ s,
  let key := pid_as_bytes p in
  match pending s !! key with
  | Some events =>
      if bool_decide (event_id ∈ events)
      then (set_peer_pending key (events ∖ {[ event_id ]}) (usize_sub (total_count s) 1) s, Ok tt)
      else (s, Ok tt)
  | None => (s, Ok tt)
  end.

(** The events of [up_to]'s sender up to its sequence number. *)
Definition delivered_up_to (up_to : EventId) (id : EventId) : bool :=
  (sender_hash id =? sender_hash up_to) && (ev_sequence id <=? ev_sequence up_to).

Definition mark_delivered_up_to p (up_to : EventId) : M InMemoryPendingStore PendingError unit := λ s,
  let key := pid_as_bytes p in
  match pending s !! key with
  | Some events =>
      let to_remove := retain (delivered_up_to up_to) (events_in_order events) in
      let removed_count := Z.of_nat (length to_remove) in
      let events' := foldl (λ e id, e ∖ {[ id ]}) events to_remove in
      (set_peer_pending key events'
         (if 0 <? removed_count then usize_sub (total_count s) removed_count else total_count s) s,
       Ok tt)
  | None => (s, Ok tt)
  end.

Definition clear_pending p : M InMemoryPendingStore PendingError unit := λ s,
  match pending s !! pid_as_bytes p with
  | Some events =>
      ({| pending := delete (pid_as_bytes p) (pending s); quota := quota s;
          total_count := usize_sub (total_count s) (Z.of_nat (size events)) |}, Ok tt)
  | None => (s, Ok tt)
  end.
End Pending.

(** ** Counting *)

Section Counting.
Implicit Types (m : gmap (list byte) (gset EventId)) (k : list byte) (e : gset EventId).

Definition sum_sizes (m : gmap (list byte) (gset EventId)) : Z :=
  sumZ (λ x, Z.of_nat (size x.2)) (map_to_list m).

Lemma sum_sizes_delete m k e :
  m !! k = Some e → sum_sizes (delete k m) = sum_sizes m - Z.of_nat (size e).
Proof.
  intros Hk. unfold sum_sizes. rewrite <- (sumZ_perm _ _ _ (map_to_list_delete m k e Hk)).
  rewrite sumZ_cons. simpl. lia.
Qed.

Lemma sum_sizes_insert m k e :
  sum_sizes (<[k := e]> m)
  = sum_sizes m - Z.of_nat (size (default ∅ (m !! k))) + Z.of_nat (size e).
Proof.
  assert (∀ m', m' !! k = None → sum_sizes (<[k := e]> m') = sum_sizes m' + Z.of_nat (size e)) as Hnew.
  { intros m' Hk. unfold sum_sizes. rewrite (sumZ_perm _ _ _ (map_to_list_insert m' k e Hk)).
    rewrite sumZ_cons. simpl. lia. }
  destruct (m !! k) as [e0|] eqn:Hk.
  - pose proof (Hnew (delete k m) (lookup_delete_eq m k)) as Hd.
    rewrite insert_delete_eq, (sum_sizes_delete m k e0 Hk) in Hd. exact Hd.
  - rewrite (Hnew m Hk). change (size (default (∅ : gset EventId) None)) with 0%nat. lia.
Qed.

Lemma sum_sizes_ge m k : Z.of_nat (size (default ∅ (m !! k))) <= sum_sizes m.
Proof.
  assert (∀ m', 0 <= sum_sizes m') as Hpos.
  { intros m'. unfold sum_sizes. induction (map_to_list m') as [|x l IH]; [done|].
    rewrite sumZ_cons. lia. }
  destruct (m !! k) as [e|] eqn:Hk; [|apply Hpos].
  pose proof (sum_sizes_delete m k e Hk). pose proof (Hpos (delete k m)). simpl. lia.
Qed.

Lemma evict_all_spec ids e total :
  Z.of_nat (length ids) <= total < 2 ^ 64 →
  evict_all ids e total = (e ∖ list_to_set ids, total - Z.of_nat (length ids)).
Proof.
  revert e total. induction ids as [|id ids IH]; intros e total Hb; simpl.
  - f_equal; [set_solver|lia].
  - simpl in Hb. rewrite usize_sub_ge by lia. rewrite IH by lia. f_equal; [set_solver|lia].
Qed.

Lemma remove_all_eq ids e : foldl (λ e id, e ∖ {[ id ]}) e ids = e ∖ list_to_set ids.
Proof.
  revert e. induction ids as [|id ids IH]; intros e; simpl; [set_solver|]. rewrite IH. set_solver.
Qed.

Lemma size_remove_all ids e :
  NoDup ids → (∀ id, id ∈ ids → id ∈ e) →
  Z.of_nat (size (e ∖ list_to_set ids)) = Z.of_nat (size e) - Z.of_nat (length ids).
Proof.
  intros Hn Hin. rewrite size_difference by set_solver.
  rewrite size_list_to_set by done.
  assert (length ids <= size e)%nat; [|lia].
  rewrite <- (size_list_to_set (C:=gset EventId) ids) by done. apply subseteq_size. set_solver.
Qed.

Lemma events_in_order_spec e :
  StronglySorted (λ a b, event_id_leb a b = true) (events_in_order e) ∧
  NoDup (events_in_order e) ∧ (∀ id, id ∈ events_in_order e ↔ id ∈ e) ∧
  length (events_in_order e) = size e.
Proof.
  unfold events_in_order. split; [apply (sort_by_sorted event_id_leb)|].
  rewrite sort_by_perm. split; [apply NoDup_elements|]. split; [|done].
  intros id. by rewrite sort_by_perm, elem_of_elements.
Qed.

Lemma select_for_eviction_spec q e n :
  0 <= n → ∃ ids, select_for_eviction q e n = ids ∧ NoDup ids ∧ (∀ id, id ∈ ids → id ∈ e) ∧
    Z.of_nat (length ids) = Z.min n (Z.of_nat (size e)) ∧ ids = take (length ids) (events_in_order e).
Proof.
  intros Hn. destruct (events_in_order_spec e) as (_ & Hnd & Hin & Hlen).
  eexists. split; [reflexivity|]. unfold select_for_eviction.
  destruct (n =? 0) eqn:Hn0; simpl.
  { split_and!; [constructor|by intros ? ?%elem_of_nil|simpl; lia|done]. }
  case_bool_decide as Hs; simpl.
  { split_and!; [constructor|by intros ? ?%elem_of_nil|lia|done]. }
  assert (length (take (Z.to_nat (Z.min n (Z.of_nat (size e)))) (events_in_order e))
          = Z.to_nat (Z.min n (Z.of_nat (size e)))) as Hl by (rewrite length_take; lia).
  assert (∀ i : nat, NoDup (take i (events_in_order e))) as Hnt.
  { intros i. rewrite <- (take_drop i (events_in_order e)) in Hnd. by apply NoDup_app in Hnd as [? _]. }
  destruct (eviction_policy q); rewrite Hl;
    (split_and!; [apply Hnt|intros id Hid; by apply Hin, (subseteq_take _ _ _ Hid)|lia|done]).
Qed.
End Counting.

(** ** Properties *)

(** The counter is the number of pending events, which is within the total
    quota; no peer has more than its quota (a quota of zero still admits
    one). *)
Record pending_ok (s : InMemoryPendingStore) : Prop := {
  count_exact : total_count s = sum_sizes (pending s);
  total_bound : total_count s <= max_total_pending (quota s) < 2 ^ 64;
  peer_bound k e : pending s !! k = Some e →
    Z.of_nat (size e) <= Z.max 1 (max_pending_per_peer (quota s));
}.

Lemma pending_ok_new q :
  0 <= max_total_pending q < 2 ^ 64 → pending_ok (pending_with_quota q).
Proof. intros Hq. split; [done|done|]. intros k e. simpl. by rewrite lookup_empty. Qed.

(** Replacing a peer's events by a smaller set, counting the difference. *)
Lemma pending_ok_set s k e total :
  pending_ok s → total = total_count s - Z.of_nat (size (default ∅ (pending s !! k))) + Z.of_nat (size e) →
  total <= max_total_pending (quota s) → Z.of_nat (size e) <= Z.max 1 (max_pending_per_peer (quota s)) →
  pending_ok (set_peer_pending k e total s).
Proof.
  intros [Hc Ht Hp] -> Hle He. split; simpl.
  - by rewrite sum_sizes_insert, Hc.
  - lia.
  - intros k' e'. rewrite lookup_insert. case_decide; [|apply Hp]. by intros [= <-].
Qed.

Section PendingFacts.
Context {I : Type} `{PeerIdentityLaws I}.
Implicit Types (s : InMemoryPendingStore) (p : I) (id : EventId).

Definition peer_events p s : gset EventId := default ∅ (pending s !! pid_as_bytes p).

Lemma peer_events_set p p' e total s :
  peer_events p' (set_peer_pending (pid_as_bytes p) e total s)
  = if decide (p' = p) then e else peer_events p' s.
Proof.
  unfold peer_events. simpl. rewrite lookup_insert. case_decide as Hk; case_decide as Hp; try done.
  - apply pid_as_bytes_inj in Hk. congruence.
  - subst. done.
Qed.

Lemma peer_events_bound p s :
  pending_ok s →
  Z.of_nat (size (peer_events p s)) <= Z.max 1 (max_pending_per_peer (quota s)) ∧
  Z.of_nat (size (peer_events p s)) <= total_count s.
Proof.
  intros Hok. split.
  - unfold peer_events. destruct (pending s !! pid_as_bytes p) as [e|] eqn:Hk.
    + by apply (peer_bound s Hok (pid_as_bytes p)).
    + change (size (default (∅ : gset EventId) None)) with 0%nat. lia.
  - rewrite (count_exact s Hok). apply sum_sizes_ge.
Qed.

(** What [mark_pending] keeps of the peer's events: all but the first few. *)
Definition kept_events p s : gset EventId :=
  if would_exceed_peer_quota (quota s) (Z.of_nat (size (peer_events p s))) then
    peer_events p s ∖ list_to_set (select_for_eviction (quota s) (peer_events p s)
      (events_to_evict_for_peer (quota s) (Z.of_nat (size (peer_events p s))) 1))
  else peer_events p s.

Lemma kept_events_subset p s : kept_events p s ⊆ peer_events p s.
Proof. unfold kept_events. destruct (would_exceed_peer_quota _ _); set_solver. Qed.

Lemma kept_events_size p s :
  pending_ok s → total_count s < max_total_pending (quota s) →
  Z.of_nat (size (kept_events p s)) <= Z.max 0 (max_pending_per_peer (quota s) - 1) ∧
  (let e := peer_events p s in
   (if would_exceed_peer_quota (quota s) (Z.of_nat (size e)) then
      evict_all (select_for_eviction (quota s) e
        (events_to_evict_for_peer (quota s) (Z.of_nat (size e)) 1)) e (total_count s)
    else (e, total_count s))
   = (kept_events p s,
      total_count s - Z.of_nat (size e) + Z.of_nat (size (kept_events p s)))).
Proof.
  intros Hok Ht. destruct (peer_events_bound p s Hok) as [Hb1 Hb2].
  pose proof (total_bound s Hok). unfold kept_events. cbv zeta.
  destruct (would_exceed_peer_quota _ _) eqn:Hq; unfold would_exceed_peer_quota in Hq.
  2: { split; [lia|]. f_equal. lia. }
  set (n := events_to_evict_for_peer _ _ _).
  assert (n = Z.max 0 (Z.of_nat (size (peer_events p s)) + 1 - max_pending_per_peer (quota s))) as Hn.
  { unfold n, events_to_evict_for_peer, usize_saturating_add, usize_saturating_sub. lia. }
  destruct (select_for_eviction_spec (quota s) (peer_events p s) n) as (ids & -> & Hnd & Hin & Hlen & _);
    [lia|].
  rewrite evict_all_spec by lia. rewrite size_remove_all by done. split; [lia|]. f_equal. lia.
Qed.

Lemma mark_pending_full p id s :
  max_total_pending (quota s) <= total_count s → mark_pending p id s = (s, Err SeCapacityExceeded).
Proof.
  intros Ht. unfold mark_pending, would_exceed_total_quota. by rewrite (proj2 (Z.leb_le _ _)).
Qed.

(** The outcome of [mark_pending]. *)
Lemma mark_pending_run p id s :
  pending_ok s → total_count s < max_total_pending (quota s) →
  ∃ total, mark_pending p id s
    = (set_peer_pending (pid_as_bytes p) ({[ id ]} ∪ kept_events p s) total s, Ok tt) ∧
    total = total_count s - Z.of_nat (size (peer_events p s))
            + Z.of_nat (size ({[ id ]} ∪ kept_events p s)).
Proof.
  intros Hok Ht. destruct (kept_events_size p s Hok Ht) as [Hsz Hkept].
  destruct (peer_events_bound p s Hok) as [_ Hb]. pose proof (total_bound s Hok) as Hmax.
  unfold mark_pending. unfold would_exceed_total_quota at 1.
  rewrite (proj2 (Z.leb_gt _ _)) by lia. cbv zeta in Hkept |- *.
  change (default ∅ (pending s !! pid_as_bytes p)) with (peer_events p s). rewrite Hkept. case_bool_decide as Hid.
  - assert ({[ id ]} ∪ kept_events p s = kept_events p s) as -> by set_solver. eauto.
  - exists (total_count s - Z.of_nat (size (peer_events p s)) + Z.of_nat (size (kept_events p s)) + 1).
    split.
    + rewrite wrap_u64_small; [done|]. pose proof (subseteq_size _ _ (kept_events_subset p s)).
      unfold in_u64. lia.
    + rewrite size_union by set_solver. rewrite size_singleton. lia.
Qed.

Lemma mark_delivered_run p id s :
  pending_ok s →
  ∃ s', mark_delivered p id s = (s', Ok tt) ∧ pending_ok s' ∧ quota s' = quota s ∧
        ∀ p', peer_events p' s' = if decide (p' = p) then peer_events p s ∖ {[ id ]} else peer_events p' s.
Proof.
  intros Hok. destruct (peer_events_bound p s Hok) as [Hb1 Hb2]. pose proof (total_bound s Hok) as Hmax.
  unfold mark_delivered.
  assert (id ∉ peer_events p s → ∀ p', peer_events p' s
    = if decide (p' = p) then peer_events p s ∖ {[ id ]} else peer_events p' s) as Hsame.
  { intros Hid p'. case_decide; [subst; set_solver|done]. }
  destruct (pending s !! pid_as_bytes p) as [e|] eqn:Hk.
  2: { exists s. split_and!; [done..|]. apply Hsame. unfold peer_events. rewrite Hk. set_solver. }
  assert (peer_events p s = e) as He by (unfold peer_events; by rewrite Hk). rewrite He in *.
  case_bool_decide as Hid; [|exists s; split_and!; [done..|]; by apply Hsame].
  assert (Z.of_nat (size (e ∖ {[ id ]})) = Z.of_nat (size e) - 1) as Hsz.
  { rewrite size_difference, size_singleton by set_solver.
    assert (size ({[ id ]} : gset EventId) <= size e)%nat by (apply subseteq_size; set_solver).
    rewrite size_singleton in *. lia. }
  eexists. split; [reflexivity|]. split_and!; [|done|by intros p'; rewrite peer_events_set].
  rewrite usize_sub_ge by lia. apply pending_ok_set; [done| |lia|lia].
  rewrite Hk. simpl. lia.
Qed.

Lemma mark_delivered_up_to_run p up_to s :
  pending_ok s →
  ∃ s', mark_delivered_up_to p up_to s = (s', Ok tt) ∧ pending_ok s' ∧ quota s' = quota s ∧
        ∀ p' id, id ∈ peer_events p' s' ↔
                 id ∈ peer_events p' s ∧ ¬ (p' = p ∧ delivered_up_to up_to id = true).
Proof.
  intros Hok. destruct (peer_events_bound p s Hok) as [Hb1 Hb2]. pose proof (total_bound s Hok) as Hmax.
  unfold mark_delivered_up_to. destruct (pending s !! pid_as_bytes p) as [e|] eqn:Hk.
  2: { exists s. split_and!; [done..|]. intros p' id. split; [|tauto]. intros Hid. split; [done|].
       intros [-> _]. unfold peer_events in Hid. rewrite Hk in Hid. set_solver. }
  assert (peer_events p s = e) as He by (unfold peer_events; by rewrite Hk). rewrite He in *.
  destruct (events_in_order_spec e) as (_ & Hnd & Hin & _).
  set (ids := retain (delivered_up_to up_to) (events_in_order e)).
  assert (∀ id, id ∈ ids ↔ id ∈ e ∧ delivered_up_to up_to id = true) as Hids
    by (intros id; unfold ids; by rewrite elem_of_retain, Hin).
  assert (Z.of_nat (size (e ∖ list_to_set ids)) = Z.of_nat (size e) - Z.of_nat (length ids)) as Hsz
    by (apply size_remove_all; [by apply NoDup_retain|intros id; rewrite Hids; tauto]).
  eexists. split; [reflexivity|]. rewrite remove_all_eq. split_and!; [|done|].
  - apply pending_ok_set; [done| | |lia];
      destruct (0 <? Z.of_nat (length ids)) eqn:Hl; rewrite ?usize_sub_ge by lia; try lia;
      rewrite Hk; simpl; lia.
  - intros p' id. rewrite peer_events_set. case_decide as Hp; [subst p'|naive_solver].
    rewrite elem_of_difference, elem_of_list_to_set, Hids, He. naive_solver.
Qed.

Lemma clear_pending_run p s :
  pending_ok s →
  ∃ s', clear_pending p s = (s', Ok tt) ∧ pending_ok s' ∧ quota s' = quota s ∧
        ∀ p', peer_events p' s' = if decide (p' = p) then ∅ else peer_events p' s.
Proof.
  intros Hok. destruct (peer_events_bound p s Hok) as [Hb1 Hb2]. pose proof (total_bound s Hok) as Hmax.
  unfold clear_pending. destruct (pending s !! pid_as_bytes p) as [e|] eqn:Hk.
  2: { exists s. split_and!; [done..|]. intros p'. case_decide; [subst|done].
       unfold peer_events. by rewrite Hk. }
  assert (peer_events p s = e) as He by (unfold peer_events; by rewrite Hk). rewrite He in *.
  eexists. split; [reflexivity|]. split_and!; [|done|].
  - rewrite usize_sub_ge by lia. split; simpl.
    + rewrite (sum_sizes_delete _ _ e) by done. by rewrite (count_exact s Hok).
    + lia.
    + intros k e'. rewrite lookup_delete. case_decide; [done|]. apply (peer_bound s Hok).
  - intros p'. unfold peer_events. simpl. rewrite lookup_delete.
    case_decide as Hkey; case_decide as Hp; try done.
    + apply pid_as_bytes_inj in Hkey. congruence.
    + by subst.
Qed.

Lemma mark_pending_ok p id s :
  pending_ok s → pending_ok (mark_pending p id s).1 ∧ quota (mark_pending p id s).1 = quota s.
Proof.
  intros Hok. destruct (decide (total_count s < max_total_pending (quota s))) as [Ht|Ht].
  - destruct (mark_pending_run p id s Hok Ht) as (total & -> & ->). split; [|done].
    destruct (kept_events_size p s Hok Ht) as [Hsz _].
    pose proof (subseteq_size _ _ (kept_events_subset p s)).
    pose proof (size_union_alt ({[ id ]} : gset EventId) (kept_events p s)) as Hu.
    rewrite size_singleton in Hu.
    pose proof (subseteq_size (kept_events p s ∖ {[ id ]}) (kept_events p s) ltac:(set_solver)).
    apply pending_ok_set; [done|done|lia|lia].
  - rewrite mark_pending_full by lia. done.
Qed.

Inductive pending_op : Type :=
| PMark (p : I) (id : EventId)
| PDelivered (p : I) (id : EventId)
| PDeliveredUpTo (p : I) (id : EventId)
| PClear (p : I).

Definition run_pending_op (op : pending_op) : M InMemoryPendingStore PendingError unit :=
  match op with
  | PMark p id => mark_pending p id
  | PDelivered p id => mark_delivered p id
  | PDeliveredUpTo p id => mark_delivered_up_to p id
  | PClear p => clear_pending p
  end.

Definition run_pending_ops (ops : list pending_op) s : InMemoryPendingStore :=
  foldl (λ s op, (run_pending_op op s).1) s ops.

Lemma run_pending_op_ok op s :
  pending_ok s → pending_ok (run_pending_op op s).1 ∧ quota (run_pending_op op s).1 = quota s.
Proof.
  intros Hok. destruct op as [p id|p id|p id|p]; simpl.
  - by apply mark_pending_ok.
  - destruct (mark_delivered_run p id s Hok) as (s' & -> & ? & ? & _). done.
  - destruct (mark_delivered_up_to_run p id s Hok) as (s' & -> & ? & ? & _). done.
  - destruct (clear_pending_run p s Hok) as (s' & -> & ? & ? & _). done.
Qed.

Lemma run_pending_ops_ok ops s :
  pending_ok s → pending_ok (run_pending_ops ops s) ∧ quota (run_pending_ops ops s) = quota s.
Proof.
  revert s. induction ops as [|op ops IH]; intros s Hok; simpl; [done|].
  destruct (run_pending_op_ok op s Hok) as [Hok1 Hq1]. rewrite <- Hq1. by apply IH.
Qed.

Lemma events_pending_for_spec p s :
  ∃ l, events_pending_for p s = Ok l ∧ StronglySorted (λ a b, event_id_leb a b = true) l ∧
       NoDup l ∧ (∀ id, id ∈ l ↔ id ∈ peer_events p s) ∧ length l = size (peer_events p s).
Proof.
  unfold events_pending_for, peer_events. destruct (pending s !! pid_as_bytes p) as [e|].
  - destruct (events_in_order_spec e) as (? & ? & ? & ?). eauto 6.
  - exists []. split_and!; [done|constructor|constructor| |done]. intros id. split; by intros ?%elem_of_nil || set_solver.
Qed.

(** Quotas hold at all times: after any run of operations the counter is the
    number of pending events over all peers (it never wraps around below
    zero), it is within the total quota, and every peer's list is sorted,
    free of repetitions and within the quota per peer. *)
Theorem pending_store_bounded q ops p :
  0 <= max_total_pending q < 2 ^ 64 →
  let s := run_pending_ops ops (pending_with_quota q) in
  total_pending s = sum_sizes (pending s) ∧ total_pending s <= max_total_pending q ∧
  ∃ l, events_pending_for p s = Ok l ∧ StronglySorted (λ a b, event_id_leb a b = true) l ∧ NoDup l ∧
       Z.of_nat (length l) <= Z.max 1 (max_pending_per_peer q).
Proof.
  intros Hq s. destruct (run_pending_ops_ok ops _ (pending_ok_new q Hq)) as [Hok Hqs].
  fold s in Hok, Hqs. simpl in Hqs. rewrite <- Hqs.
  split_and!; [apply (count_exact s Hok)|apply (total_bound s Hok)|].
  destruct (events_pending_for_spec p s) as (l & ? & ? & ? & _ & Hlen). exists l.
  split_and!; [done..|]. rewrite Hlen. apply (peer_events_bound p s Hok).
Qed.

(** What the operations do to the events of a peer [p] and of every other
    peer [p']: a successful [mark_pending] adds the event, dropping others of
    that peer only when its quota is reached; it fails exactly when the total
    quota is reached, changing nothing.  The three others remove exactly the
    event, the sender's events up to it, or all events of the peer. *)
Theorem pending_ops_spec p id s :
  pending_ok s →
  (if would_exceed_total_quota (quota s) (total_pending s)
   then mark_pending p id s = (s, Err SeCapacityExceeded)
   else ∃ s', mark_pending p id s = (s', Ok tt) ∧ id ∈ peer_events p s' ∧
     peer_events p s' ⊆ {[ id ]} ∪ peer_events p s ∧
     (would_exceed_peer_quota (quota s) (Z.of_nat (size (peer_events p s))) = false →
      peer_events p s' = {[ id ]} ∪ peer_events p s) ∧
     ∀ p', p' ≠ p → peer_events p' s' = peer_events p' s) ∧
  (∃ s', mark_delivered p id s = (s', Ok tt) ∧
     ∀ p', peer_events p' s' = if decide (p' = p) then peer_events p s ∖ {[ id ]} else peer_events p' s) ∧
  (∃ s', mark_delivered_up_to p id s = (s', Ok tt) ∧
     ∀ p' x, x ∈ peer_events p' s' ↔ x ∈ peer_events p' s ∧
             ¬ (p' = p ∧ sender_hash x = sender_hash id ∧ ev_sequence x <= ev_sequence id)) ∧
  (∃ s', clear_pending p s = (s', Ok tt) ∧
     ∀ p', peer_events p' s' = if decide (p' = p) then ∅ else peer_events p' s).
Proof.
  intros Hok. split_and!.
  - unfold would_exceed_total_quota at 1, total_pending.
    destruct (max_total_pending (quota s) <=? total_count s) eqn:Ht.
    { apply mark_pending_full. lia. }
    destruct (mark_pending_run p id s Hok ltac:(lia)) as (total & -> & _).
    eexists. split; [reflexivity|]. rewrite !peer_events_set, !decide_True by done.
    pose proof (kept_events_subset p s). split_and!; [set_solver|set_solver| |].
    + intros Hq. unfold kept_events. by rewrite Hq.
    + intros p' Hp. by rewrite peer_events_set, decide_False.
  - destruct (mark_delivered_run p id s Hok) as (s' & ? & _ & _ & ?). eauto.
  - destruct (mark_delivered_up_to_run p id s Hok) as (s' & Hr & _ & _ & Hs'). exists s'.
    split; [done|]. intros p' x. rewrite Hs'. unfold delivered_up_to.
    rewrite andb_true_iff, Z.eqb_eq, Z.leb_le. done.
  - destruct (clear_pending_run p s Hok) as (s' & ? & _ & _ & ?). eauto.
Qed.

(** Marking an event that is pending already is not harmless at the quota: the
    peer's first event is evicted although nothing has to be added. *)
Theorem remark_evicts p id first rest s :
  pending_ok s → total_pending s < max_total_pending (quota s) → 0 < max_pending_per_peer (quota s) →
  Z.of_nat (size (peer_events p s)) = max_pending_per_peer (quota s) → id ∈ peer_events p s →
  events_pending_for p s = Ok (first :: rest) → first ≠ id →
  ∃ s', mark_pending p id s = (s', Ok tt) ∧ peer_events p s' = peer_events p s ∖ {[ first ]}.
Proof.
  unfold total_pending. intros Hok Ht Hpos Hfull Hid Hfirst Hne.
  destruct (mark_pending_run p id s Hok Ht) as (total & -> & _). eexists. split; [reflexivity|].
  rewrite peer_events_set, decide_True by done.
  assert (events_in_order (peer_events p s) = first :: rest) as Hord.
  { unfold events_pending_for, peer_events in *. destruct (pending s !! pid_as_bytes p); [|done].
    by injection Hfirst. }
  pose proof (total_bound s Hok). destruct (peer_events_bound p s Hok) as [_ Hb].
  assert (kept_events p s = peer_events p s ∖ {[ first ]}) as ->; [|set_solver].
  unfold kept_events, would_exceed_peer_quota. rewrite (proj2 (Z.leb_le _ _)) by lia.
  assert (events_to_evict_for_peer (quota s) (Z.of_nat (size (peer_events p s))) 1 = 1) as ->.
  { unfold events_to_evict_for_peer, usize_saturating_add, usize_saturating_sub. lia. }
  destruct (select_for_eviction_spec (quota s) (peer_events p s) 1) as (ids & -> & _ & _ & Hlen & Hids); [lia|].
  assert (length ids = 1%nat) as Hl by lia. rewrite Hids, Hl, Hord. simpl. set_solver.
Qed.
End PendingFacts.
