(* ===== verification/Backprop.v ===== *)
(** * Back-propagation of delivery confirmations

    Models [indras-routing/src/backprop.rs].  Instants are nanoseconds passed
    as [now]; [Instant::elapsed] saturates at zero.  The [DashMap] of pending
    confirmations is a finite map; each method is one atomic step. *)

From S2P Require Import Prelude Packet.

Record BackPropState (I : Type) : Type := {
  bp_path : list I;
  current_hop : nat;
  bp_created_at : Z;
  bp_timeout : Z;
}.
Arguments bp_path {I} _.
Arguments current_hop {I} _.
Arguments bp_created_at {I} _.
Arguments bp_timeout {I} _.

Inductive BackPropStatus : Type :=
| Complete
| InProgress (hop : nat)
| TimedOut
| NotFound.

#[global] Instance BackPropStatus_eq_dec : EqDecision BackPropStatus.
Proof. solve_decision. Defined.

Record BackPropManager (I : Type) : Type := {
  bp_pending : gmap PacketId (BackPropState I);
  default_timeout : Z;
}.
Arguments bp_pending {I} _.
Arguments default_timeout {I} _.

Section Backprop.
Context {I : Type} `{PeerIdentity I}.
Implicit Types (m : BackPropManager I) (st : BackPropState I) (id : PacketId).

Definition bp_state_new (path : list I) (timeout now : Z) : BackPropState I :=
  {| bp_path := path; current_hop := saturating_sub (length path) 1;
     bp_created_at := now; bp_timeout := timeout |}.

Definition bp_elapsed (now : Z) st : Z := Z.max 0 (now - bp_created_at st).

Definition is_timed_out (now : Z) st : bool := bp_timeout st <? bp_elapsed now st.

(** [&self.path[self.current_hop - 1]] panics when out of range. *)
Definition next_confirmer st : outcome (option I) :=
  if (0 <? current_hop st)%nat then
    match bp_path st !! (current_hop st - 1)%nat with
    | Some i => Returns (Some i)
    | None => Panics
    end
  else Returns None.

Definition current_peer st : option I := bp_path st !! current_hop st.

Definition is_complete st : bool := (current_hop st =? 0)%nat.

Definition bp_manager_new (timeout : Z) : BackPropManager I :=
  {| bp_pending := ∅; default_timeout := timeout |}.

Definition set_pending (p : gmap PacketId (BackPropState I)) m : BackPropManager I :=
  {| bp_pending := p; default_timeout := default_timeout m |}.

Definition start_backprop_with_timeout id (path : list I) (timeout now : Z) m : BackPropManager I :=
  if (length path <? 2)%nat then m
  else set_pending (<[id := bp_state_new path timeout now]> (bp_pending m)) m.

Definition start_backprop id (path : list I) (now : Z) m : BackPropManager I :=
  if (length path <? 2)%nat then m
  else set_pending (<[id := bp_state_new path (default_timeout m) now]> (bp_pending m)) m.

Definition bp_remove id m : BackPropManager I := set_pending (delete id (bp_pending m)) m.

Definition set_current_hop (h : nat) st : BackPropState I :=
  {| bp_path := bp_path st; current_hop := h; bp_created_at := bp_created_at st;
     bp_timeout := bp_timeout st |}.

(** The part of [advance] after the confirming peer was accepted. *)
Definition bp_step_hop id st m : BackPropManager I * outcome BackPropStatus :=
  let st := if (0 <? current_hop st)%nat then set_current_hop (current_hop st - 1) st else st in
  let m := set_pending (<[id := st]> (bp_pending m)) m in
  if is_complete st then (bp_remove id m, Returns Complete)
  else (m, Returns (InProgress (current_hop st))).

Definition bp_advance (now : Z) id (confirming_peer : I) m
    : BackPropManager I * outcome BackPropStatus :=
  match bp_pending m !! id with
  | None => (m, Returns NotFound)
  | Some st =>
      if is_timed_out now st then (bp_remove id m, Returns TimedOut)
      else match next_confirmer st with
           | Panics => (m, Panics)
           | Returns (Some expected) =>
               if negb (bool_decide (expected = confirming_peer))
               then (m, Returns (InProgress (current_hop st)))
               else bp_step_hop id st m
           | Returns None => bp_step_hop id st m
           end
  end.

Definition bp_check_timeouts (now : Z) m : list PacketId :=
  (retain (λ e, is_timed_out now e.2) (map_to_list (bp_pending m))).*1.

Definition bp_get_state id m : option (BackPropState I) := bp_pending m !! id.

Definition pending_count m : nat := size (bp_pending m).

Definition is_pending id m : bool := bool_decide (is_Some (bp_pending m !! id)).

Definition bp_clear m : BackPropManager I := set_pending ∅ m.

Definition bp_status (now : Z) id m : BackPropStatus :=
  match bp_pending m !! id with
  | None => NotFound
  | Some st =>
      if is_timed_out now st then TimedOut
      else if is_complete st then Complete
      else InProgress (current_hop st)
  end.

(** ** The contract

    A back-propagation is the list of peers whose confirmation is still
    missing, next first. *)

Definition confirm_spec (missing : list I) (peer : I) : list I :=
  match missing with
  | next :: rest => if bool_decide (next = peer) then rest else missing
  | [] => []
  end.

Definition missing st : list I := rev (take (current_hop st) (bp_path st)).

(** A pending entry waits for at least one peer of its path. *)
Definition state_ok st : Prop := (0 < current_hop st < length (bp_path st))%nat.

Definition manager_ok m : Prop := ∀ id st, bp_pending m !! id = Some st → state_ok st.

Lemma missing_length st : state_ok st → length (missing st) = current_hop st.
Proof. intros []. unfold missing. rewrite length_rev, length_take. lia. Qed.

Lemma missing_next st :
  state_ok st →
  ∃ i, next_confirmer st = Returns (Some i) ∧
       missing st = i :: missing (set_current_hop (current_hop st - 1) st).
Proof.
  intros [Hlo Hhi]. unfold next_confirmer, missing. simpl.
  destruct (lookup_lt_is_Some_2 (bp_path st) (current_hop st - 1)) as [i Hi]; [lia|].
  exists i. rewrite (proj2 (Nat.ltb_lt _ _)), Hi by done. split; [done|].
  replace (current_hop st) with (S (current_hop st - 1)) at 1 by lia.
  by rewrite (take_S_r _ _ i Hi), rev_app_distr.
Qed.

(** [advance] on a pending entry that has not timed out implements
    [confirm_spec]. *)
Lemma bp_advance_refines now id peer m st :
  bp_pending m !! id = Some st → state_ok st → is_timed_out now st = false →
  ∃ m', bp_advance now id peer m
          = (m', Returns (match confirm_spec (missing st) peer with
                          | [] => Complete
                          | rem => InProgress (length rem)
                          end)) ∧
    match confirm_spec (missing st) peer with
    | [] => bp_pending m' = delete id (bp_pending m)
    | rem => ∃ st', bp_pending m' = <[id := st']> (bp_pending m) ∧ state_ok st' ∧
                missing st' = rem ∧ bp_created_at st' = bp_created_at st ∧
                bp_timeout st' = bp_timeout st
    end.
Proof.
  intros Hst Hok Hto. unfold bp_advance. rewrite Hst, Hto.
  destruct (missing_next st Hok) as (i & -> & Hmiss).
  pose proof (missing_length st Hok) as Hlen.
  unfold confirm_spec. rewrite Hmiss. case_bool_decide as Hi; simpl.
  - unfold bp_step_hop. destruct Hok as [Hlo Hhi]. rewrite (proj2 (Nat.ltb_lt _ _)) by done.
    set (st' := set_current_hop (current_hop st - 1) st) in *.
    rewrite Hmiss in Hlen. simpl in Hlen. unfold is_complete.
    destruct (missing st') as [|j rem] eqn:Hleft; simpl in Hlen.
    + exists (bp_remove id (set_pending (<[id:=st']> (bp_pending m)) m)).
      assert (current_hop st' = 0)%nat as -> by (simpl; lia). split; [done|]. simpl.
      by rewrite delete_insert_eq.
    + exists (set_pending (<[id:=st']> (bp_pending m)) m).
      assert (current_hop st' = S (length rem)) as Hh by (simpl; lia). rewrite Hh. simpl.
      split; [done|]. exists st'. split_and!; try done.
      unfold state_ok, st' in *. simpl in *. lia.
  - exists m. rewrite Hmiss in Hlen. simpl in Hlen. rewrite Hlen. split; [done|]. exists st.
    split_and!; try done. by rewrite insert_id.
Qed.

Lemma manager_ok_start id path now m :
  manager_ok m → manager_ok (start_backprop id path now m).
Proof.
  intros Hok. unfold start_backprop. destruct (length path <? 2)%nat eqn:Hlen; [done|].
  apply Nat.ltb_ge in Hlen. intros id' st. simpl. rewrite lookup_insert. case_decide; [|apply Hok].
  intros [= <-]. unfold state_ok. simpl. unfold saturating_sub. lia.
Qed.

Lemma manager_ok_start_with id path timeout now m :
  manager_ok m → manager_ok (start_backprop_with_timeout id path timeout now m).
Proof.
  intros Hok. unfold start_backprop_with_timeout. destruct (length path <? 2)%nat eqn:Hlen; [done|].
  apply Nat.ltb_ge in Hlen. intros id' st. simpl. rewrite lookup_insert. case_decide; [|apply Hok].
  intros [= <-]. unfold state_ok. simpl. unfold saturating_sub. lia.
Qed.

Lemma manager_ok_remove id m : manager_ok m → manager_ok (bp_remove id m).
Proof. intros Hok id' st. simpl. rewrite lookup_delete. case_decide; [done|apply Hok]. Qed.

Lemma manager_ok_advance now id peer m :
  manager_ok m →
  manager_ok (bp_advance now id peer m).1 ∧ (bp_advance now id peer m).2 ≠ Panics.
Proof.
  intros Hok. destruct (bp_pending m !! id) as [st|] eqn:Hst.
  2: { unfold bp_advance. by rewrite Hst. }
  destruct (is_timed_out now st) eqn:Hto.
  { unfold bp_advance. rewrite Hst, Hto. split; [by apply manager_ok_remove|done]. }
  destruct (bp_advance_refines now id peer m st Hst (Hok _ _ Hst) Hto) as (m' & -> & Hm').
  split; [|done]. simpl. destruct (confirm_spec _ _) as [|j rem].
  - intros id' st'. rewrite Hm', lookup_delete. case_decide; [done|apply Hok].
  - destruct Hm' as (st1 & Hp & Hst1 & _). intros id' st'. rewrite Hp, lookup_insert.
    case_decide; [intros [= <-]; done|apply Hok].
Qed.

Inductive bp_step : BackPropManager I → BackPropManager I → Prop :=
| bp_step_start id path now m : bp_step m (start_backprop id path now m)
| bp_step_start_with id path timeout now m :
    bp_step m (start_backprop_with_timeout id path timeout now m)
| bp_step_advance now id peer m : bp_step m (bp_advance now id peer m).1
| bp_step_remove id m : bp_step m (bp_remove id m)
| bp_step_clear m : bp_step m (bp_clear m).

Lemma manager_ok_step m m' : bp_step m m' → manager_ok m → manager_ok m'.
Proof.
  destruct 1; eauto using manager_ok_start, manager_ok_start_with, manager_ok_remove.
  - intros Hok. by apply manager_ok_advance.
  - intros _ id st. simpl. by rewrite lookup_empty.
Qed.

(** In any manager that its operations can produce, every pending entry still
    waits for a peer inside its path, so that [advance] never panics on an
    index and never leaves a finished entry behind. *)
Theorem backprop_reachable_ok timeout m now id peer :
  rtc bp_step (bp_manager_new timeout) m →
  manager_ok m ∧ (bp_advance now id peer m).2 ≠ Panics ∧ bp_status now id m ≠ Complete.
Proof.
  intros Hr. assert (manager_ok m) as Hok.
  { eapply rtc_invariant; [|exact Hr|intros ? ?; simpl; by rewrite lookup_empty].
    eauto using manager_ok_step. }
  split_and!; [done|by apply manager_ok_advance|]. unfold bp_status.
  destruct (bp_pending m !! id) as [st|] eqn:Hst; [|done]. destruct (Hok id st Hst) as [Hlo _].
  unfold is_complete. destruct (is_timed_out now st); [done|].
  rewrite (proj2 (Nat.eqb_neq _ _)) by lia. done.
Qed.

(** A run of confirmations for one packet, each at its own time. *)
Fixpoint bp_confirm_all id (cs : list (I * Z)) m
    : BackPropManager I * list (outcome BackPropStatus) :=
  match cs with
  | [] => (m, [])
  | (peer, now) :: cs =>
      let (m1, r) := bp_advance now id peer m in
      let (m2, rs) := bp_confirm_all id cs m1 in (m2, r :: rs)
  end.

Lemma confirm_spec_sublist (l ps : list I) : foldl confirm_spec l ps = [] ↔ l `sublist_of` ps.
Proof.
  revert l. induction ps as [|p ps IH]; intros l; simpl.
  - split; [by intros ->|]. by intros ->%sublist_nil_r.
  - rewrite IH. destruct l as [|q l]; simpl.
    { split; intros _; apply sublist_nil_l. }
    case_bool_decide as Hq; [subst|]; split.
    + intros. by constructor.
    + intros Hs. inversion Hs; subst; [done|]. etransitivity; [|done]. by constructor.
    + intros. by constructor.
    + intros Hs. by inversion Hs; subst.
Qed.

Lemma bp_confirm_not_found id cs m :
  bp_pending m !! id = None →
  bp_confirm_all id cs m = (m, replicate (length cs) (Returns NotFound)).
Proof.
  intros Hn. induction cs as [|[peer now] cs IH]; simpl; [done|].
  unfold bp_advance. by rewrite Hn, IH.
Qed.

Lemma bp_confirm_all_run id cs m st :
  bp_pending m !! id = Some st → state_ok st →
  (∀ peer now, (peer, now) ∈ cs → is_timed_out now st = false) →
  let r := bp_confirm_all id cs m in
  let rem := foldl confirm_spec (missing st) cs.*1 in
  (Returns Complete ∈ r.2 ↔ rem = []) ∧
  (rem = [] → bp_pending r.1 !! id = None) ∧
  (rem ≠ [] → ∃ st', bp_pending r.1 !! id = Some st' ∧ missing st' = rem).
Proof.
  revert m st. induction cs as [|[peer now] cs IH]; intros m st Hst Hok Hto; csimpl.
  { destruct (missing_next st Hok) as (i & _ & Hmiss). rewrite elem_of_nil, Hmiss.
    split_and!; [done|done|]. intros _. exists st. by rewrite Hmiss. }
  destruct (bp_advance_refines now id peer m st Hst Hok) as (m1 & -> & Hm1); [eapply Hto; by left|].
  destruct (confirm_spec (missing st) peer) as [|j left] eqn:Hc.
  - assert (bp_pending m1 !! id = None) as Hn by (rewrite Hm1; apply lookup_delete_eq).
    rewrite bp_confirm_not_found by done. cbn [fst snd].
    assert (foldl confirm_spec [] cs.*1 = []) as Hnil by (by apply confirm_spec_sublist, sublist_nil_l).
    rewrite Hnil. split_and!; [|done|done]. split; [done|]. intros _. by left.
  - destruct Hm1 as (st1 & Hp & Hok1 & Hmiss & Hcr & Htm).
    destruct (IH m1 st1) as (Hcomp & Hnil & Hcons); [by rewrite Hp, lookup_insert_eq|done| |].
    { intros peer' now' Hin. unfold is_timed_out, bp_elapsed. rewrite Hcr, Htm.
      apply (Hto peer'). by right. }
    rewrite Hmiss in *. destruct (bp_confirm_all id cs m1) as [m2 rs]. simpl in *.
    split_and!; [|done|done]. rewrite elem_of_cons, Hcomp. split; [by intros [?|?]|auto].
Qed.

Lemma missing_start path timeout now :
  (2 <= length path)%nat →
  missing (bp_state_new path timeout now) = rev (take (length path - 1) path) ∧
  state_ok (bp_state_new path timeout now).
Proof. intros Hlen. split; [done|]. unfold state_ok, bp_state_new, saturating_sub. simpl. lia. Qed.

(** C7. Delivery is confirmed exactly when the reverse path says so.  Start a
    back-propagation along a path of at least two peers and feed it any
    confirmations before the timeout: it completes if and only if all peers
    but the destination confirm in order from the last relay to the source
    (possibly with other confirmations in between, which are ignored); then
    it is no longer pending, otherwise it still is. *)
Theorem backprop_complete_iff id path now0 cs m :
  (2 <= length path)%nat →
  (∀ peer now, (peer, now) ∈ cs → now - now0 <= default_timeout m) → 0 <= default_timeout m →
  let r := bp_confirm_all id cs (start_backprop id path now0 m) in
  (Returns Complete ∈ r.2 ↔ rev (take (length path - 1) path) `sublist_of` cs.*1) ∧
  (is_pending id r.1 = false ↔ rev (take (length path - 1) path) `sublist_of` cs.*1).
Proof.
  intros Hlen Hin Ht r. subst r. unfold start_backprop. rewrite (proj2 (Nat.ltb_ge _ _)) by done.
  set (st := bp_state_new path (default_timeout m) now0).
  destruct (missing_start path (default_timeout m) now0 Hlen) as [Hmiss Hok].
  destruct (bp_confirm_all_run id cs (set_pending (<[id := st]> (bp_pending m)) m) st)
    as (Hcomp & Hnil & Hcons); [apply lookup_insert_eq|done| |].
  { intros peer now Hp. apply Z.ltb_ge. unfold bp_elapsed. simpl. specialize (Hin peer now Hp). lia. }
  fold st in Hmiss. rewrite Hmiss in *. split; [by rewrite Hcomp, confirm_spec_sublist|].
  rewrite <- confirm_spec_sublist. unfold is_pending. split.
  - intros Hf. apply bool_decide_eq_false in Hf.
    destruct (decide (foldl confirm_spec (rev (take (length path - 1) path)) cs.*1 = [])) as [|Hne]; [done|].
    destruct (Hcons Hne) as (st' & Hst' & _). exfalso. apply Hf. eauto.
  - intros Hrem. rewrite (Hnil Hrem). done.
Qed.

(** Timeouts: an entry that has timed out is reported by [check_timeouts] and
    by [status], and the next [advance] removes it whoever confirms; no other
    entry is reported. *)
Theorem backprop_timeout_spec now id peer m :
  (id ∈ bp_check_timeouts now m ↔ bp_status now id m = TimedOut) ∧
  (id ∈ bp_check_timeouts now m ↔ (bp_advance now id peer m).2 = Returns TimedOut) ∧
  (id ∈ bp_check_timeouts now m → is_pending id (bp_advance now id peer m).1 = false).
Proof.
  assert (id ∈ bp_check_timeouts now m ↔
          ∃ st, bp_pending m !! id = Some st ∧ is_timed_out now st = true) as Hiff.
  { unfold bp_check_timeouts. rewrite list_elem_of_fmap. split.
    - intros ([i st] & -> & [Hin Ht]%elem_of_retain). apply elem_of_map_to_list in Hin. eauto.
    - intros (st & Hst & Ht). exists (id, st). split; [done|]. apply elem_of_retain.
      by rewrite elem_of_map_to_list. }
  rewrite Hiff. unfold bp_status, bp_advance, bp_step_hop, is_pending.
  destruct (bp_pending m !! id) as [st|]; simpl.
  2: { split_and!; [split; [by intros (? & ? & _)|done]..|by intros (? & ? & _)]. }
  destruct (is_timed_out now st) eqn:Ht; simpl.
  - split_and!; [by split; eauto..|]. intros _. by rewrite lookup_delete_eq.
  - split_and!; [| |naive_solver congruence]; split; try (intros (? & ? & ?); congruence).
    + by destruct (is_complete st).
    + destruct (next_confirmer st) as [[i|]|]; simpl; try done; repeat case_match; simpl; done.
Qed.
End Backprop.
