(* ===== verification/Router.v ===== *)
(** * The store-and-forward router

    Models [indras-routing]: the mutual-peer tracker ([mutual.rs]), the
    routing table ([table.rs]) and the router ([router.rs]), with the route
    data of [indras-core/src/routing.rs].  The topology and the packet store
    are the interfaces of [Packet.v].  Clock readings are arguments;
    [chrono::Duration::from_std] is a parameter. *)

From S2P Require Import Prelude Packet PacketStore Backprop.

(** ** Mutual peers *)

Record MutualPeerTracker (I : Type) : Type := {
  pairwise_mutuals : gmap (list byte * list byte) (list I);
}.
Arguments pairwise_mutuals {I} _.

Section Mutual.
Context {I : Type} `{PeerIdentity I}.
Implicit Types (t : MutualPeerTracker I) (a b : I).

Definition tracker_new : MutualPeerTracker I := {| pairwise_mutuals := ∅ |}.

Definition make_key a b : list byte * list byte :=
  let a_bytes := pid_as_bytes a in
  let b_bytes := pid_as_bytes b in
  if bytes_leb a_bytes b_bytes then (a_bytes, b_bytes) else (b_bytes, a_bytes).

Definition tracker_on_connect {T} `{NetworkTopology T I} a b (topology : T) t : MutualPeerTracker I :=
  {| pairwise_mutuals :=
       <[make_key a b := topo_mutual_peers a b topology]> (pairwise_mutuals t) |}.

Definition tracker_on_disconnect a b t : MutualPeerTracker I :=
  {| pairwise_mutuals := delete (make_key a b) (pairwise_mutuals t) |}.

Definition get_relays_for a b t : list I := default [] (pairwise_mutuals t !! make_key a b).

(** The inner loop: [all_relays] holds the byte forms already listed. *)
Fixpoint push_relays (relays : list I) (acc : gset (list byte) * list I)
    : gset (list byte) * list I :=
  match relays with
  | [] => acc
  | relay :: relays =>
      let (all_relays, out) := acc in
      let relay_bytes := pid_as_bytes relay in
      push_relays relays
        (if bool_decide (relay_bytes ∈ all_relays) then acc
         else ({[ relay_bytes ]} ∪ all_relays, out ++ [relay]))
  end.

Fixpoint group_relays_loop a (members : list I) t (acc : gset (list byte) * list I)
    : gset (list byte) * list I :=
  match members with
  | [] => acc
  | member :: members =>
      group_relays_loop a members t
        (if bool_decide (member = a) then acc
         else match pairwise_mutuals t !! make_key a member with
              | Some mutuals => push_relays mutuals acc
              | None => acc
              end)
  end.

Definition get_group_relays a (members : list I) t : list I :=
  (group_relays_loop a members t (∅, [])).2.

Definition tracker_refresh {T} `{NetworkTopology T I} a b (topology : T) t : MutualPeerTracker I :=
  tracker_on_connect a b topology t.

Definition tracker_clear t : MutualPeerTracker I := {| pairwise_mutuals := ∅ |}.

Definition tracker_len t : nat := size (pairwise_mutuals t).

Definition tracker_is_empty t : bool := bool_decide (pairwise_mutuals t = ∅).
End Mutual.

(** ** The routing table *)

(** [chrono::Duration::from_std] fails on durations beyond [chrono::Duration::MAX]. *)
Class Chrono : Type := {
  chrono_from_std : Z → option Z;
  chrono_max : Z;
}.

Record RouteInfo (I : Type) : Type := {
  ri_destination : I;
  next_hop : I;
  ri_hop_count : Z;
  metric : Z;
  last_confirmed : option Z;
}.
Arguments ri_destination {I} _.
Arguments next_hop {I} _.
Arguments ri_hop_count {I} _.
Arguments metric {I} _.
Arguments last_confirmed {I} _.

Record RouteEntry (I : Type) : Type := { info : RouteInfo I; inserted_at : Z }.
Arguments info {I} _.
Arguments inserted_at {I} _.

Record RoutingTable (I : Type) : Type := {
  routes : gmap (list byte) (RouteEntry I);
  stale_timeout : Z;
}.
Arguments routes {I} _.
Arguments stale_timeout {I} _.

Section Table.
Context {I : Type} `{PeerIdentity I, Chrono}.
Implicit Types (t : RoutingTable I) (d : I) (r : RouteInfo I).

Definition route_info_new (dest hop : I) (hops : Z) : RouteInfo I :=
  {| ri_destination := dest; next_hop := hop; ri_hop_count := hops; metric := hops;
     last_confirmed := None |}.

Definition route_confirm (now : Z) r : RouteInfo I :=
  {| ri_destination := ri_destination r; next_hop := next_hop r; ri_hop_count := ri_hop_count r;
     metric := metric r; last_confirmed := Some now |}.

Definition route_is_stale (max_age now : Z) r : bool :=
  match last_confirmed r with
  | Some confirmed => max_age <? now - confirmed
  | None => true
  end.

Definition table_new (timeout : Z) : RoutingTable I := {| routes := ∅; stale_timeout := timeout |}.

Definition set_routes (m : gmap (list byte) (RouteEntry I)) t : RoutingTable I :=
  {| routes := m; stale_timeout := stale_timeout t |}.

Definition table_insert d r (now : Z) t : RoutingTable I :=
  set_routes (<[pid_as_bytes d := {| info := r; inserted_at := now |}]> (routes t)) t.

Definition table_get d t : option (RouteInfo I) := info <$> routes t !! pid_as_bytes d.

Definition table_remove d t : RoutingTable I := set_routes (delete (pid_as_bytes d) (routes t)) t.

Definition stale_duration t : Z := default chrono_max (chrono_from_std (stale_timeout t)).

Definition table_is_stale d (now : Z) t : bool :=
  match routes t !! pid_as_bytes d with
  | None => true
  | Some entry => stale_duration t <? now - inserted_at entry
  end.

Definition prune_stale (now : Z) t : RoutingTable I :=
  set_routes (filter (λ e, now - inserted_at e.2 <= stale_duration t) (routes t)) t.

Definition table_confirm d (now : Z) t : RoutingTable I :=
  set_routes (alter (λ e, {| info := route_confirm now (info e); inserted_at := now |})
    (pid_as_bytes d) (routes t)) t.

Definition table_len t : nat := size (routes t).

Definition table_is_empty t : bool := bool_decide (size (routes t) = 0%nat).

Definition table_clear t : RoutingTable I := set_routes ∅ t.

Definition table_destinations t : list I :=
  omap (λ k, match pid_from_bytes k with Ok i => Some i | Err _ => None end)
    (map_to_list (routes t)).*1.

Definition table_update_metric d (m : Z) t : RoutingTable I :=
  set_routes (alter (λ e, {| info :=
      {| ri_destination := ri_destination (info e); next_hop := next_hop (info e);
         ri_hop_count := ri_hop_count (info e); metric := m;
         last_confirmed := last_confirmed (info e) |};
      inserted_at := inserted_at e |}) (pid_as_bytes d) (routes t)) t.

Definition routes_by_metric t : list (RouteInfo I) :=
  sort_by (by_key metric) (info <$> (map_to_list (routes t)).*2).
End Table.

(** ** The router *)

Inductive RoutingError : Type :=
| RouteCore (e : CoreRoutingError)
| StorageFailed
| BackPropTimeout
| InvalidRouteState (msg : string)
| TopologyError (msg : string)
| RouteCacheMiss
| RouteStale
| NoRelayCandidates.

Record StoreForwardRouter (I T S : Type) : Type := {
  topology : T;
  storage : S;
  mutual_tracker : MutualPeerTracker I;
  routing_table : RoutingTable I;
  backprop : BackPropManager I;
}.
Arguments topology {I T S} _.
Arguments storage {I T S} _.
Arguments mutual_tracker {I T S} _.
Arguments routing_table {I T S} _.
Arguments backprop {I T S} _.

Section Router.
Context {I T S : Type} `{PeerIdentity I, DefaultHasher I, NetworkTopology T I, PacketStore S I, Chrono}.
Implicit Types (r : StoreForwardRouter I T S) (p : Packet I).

Definition router_with_timeouts (topo : T) (store : S) (route_stale_timeout backprop_timeout : Z)
    : StoreForwardRouter I T S :=
  {| topology := topo; storage := store; mutual_tracker := tracker_new;
     routing_table := table_new route_stale_timeout;
     backprop := bp_manager_new backprop_timeout |}.

(** Five minutes and thirty seconds, in nanoseconds. *)
Definition router_new (topo : T) (store : S) : StoreForwardRouter I T S :=
  router_with_timeouts topo store (300 * 10 ^ 9) (30 * 10 ^ 9).

Definition set_storage (s : S) r : StoreForwardRouter I T S :=
  {| topology := topology r; storage := s; mutual_tracker := mutual_tracker r;
     routing_table := routing_table r; backprop := backprop r |}.

Definition set_tracker (t : MutualPeerTracker I) r : StoreForwardRouter I T S :=
  {| topology := topology r; storage := storage r; mutual_tracker := t;
     routing_table := routing_table r; backprop := backprop r |}.

Definition set_table (t : RoutingTable I) r : StoreForwardRouter I T S :=
  {| topology := topology r; storage := storage r; mutual_tracker := mutual_tracker r;
     routing_table := t; backprop := backprop r |}.

Definition set_backprop (b : BackPropManager I) r : StoreForwardRouter I T S :=
  {| topology := topology r; storage := storage r; mutual_tracker := mutual_tracker r;
     routing_table := routing_table r; backprop := b |}.

Definition on_peer_connect (a b : I) r : StoreForwardRouter I T S :=
  set_tracker (tracker_on_connect a b (topology r) (mutual_tracker r)) r.

Definition on_peer_disconnect (a b : I) r : StoreForwardRouter I T S :=
  set_tracker (tracker_on_disconnect a b (mutual_tracker r)) r.

(** A call on the packet store whose error becomes [e]. *)
Definition on_storage {X E} (e : E) (m : M S StorageError X) : M (StoreForwardRouter I T S) E X :=
  λ r, match m (storage r) with
       | (s, Ok x) => (set_storage s r, Ok x)
       | (s, Err _) => (set_storage s r, Err e)
       end.

Definition store_packet p : M (StoreForwardRouter I T S) RoutingError unit :=
  on_storage StorageFailed (ps_store p).

Definition get_pending (dest : I) : M (StoreForwardRouter I T S) RoutingError (list (Packet I)) :=
  on_storage StorageFailed (reads (ps_pending_for dest)).

Definition delete_packet p : M (StoreForwardRouter I T S) RoutingError unit :=
  on_storage StorageFailed (ps_delete (packet_id p)).

Definition router_start_backprop p (path : list I) (now : Z) r : StoreForwardRouter I T S :=
  set_backprop (start_backprop (packet_id p) path now (backprop r)) r.

Definition check_backprop_timeouts (now : Z) r : list PacketId :=
  bp_check_timeouts now (backprop r).

Definition prune_stale_routes (now : Z) r : StoreForwardRouter I T S :=
  set_table (prune_stale now (routing_table r)) r.

Definition filter_relays (relays : list I) p r : list I :=
  retain (λ i, if negb (topo_is_online i (topology r)) then false
               else if was_visited i p then false else true) relays.

(** The candidates: the packet's hints, then the cached mutual peers that are
    not listed yet. *)
Fixpoint add_candidates (relays candidates : list I) : list I :=
  match relays with
  | [] => candidates
  | relay :: relays =>
      add_candidates relays
        (if negb (bool_decide (relay ∈ candidates)) then candidates ++ [relay] else candidates)
  end.

Definition route p (current : I) : M (StoreForwardRouter I T S) CoreRoutingError (RoutingDecision I) :=
  topo ← gets topology;
  let dest := destination p in
  if ttl p =? 0 then mret (Drop TtlExpired)
  else if topo_is_online dest topo && topo_are_connected current dest topo then
    mret (DirectDelivery dest)
  else if negb (topo_is_online dest topo) && topo_are_connected current dest topo then
    on_storage ErrNoRoute (ps_store p);; mret HoldForLater
  else
    mutual_relays ← gets (λ r, get_relays_for current dest (mutual_tracker r));
    let candidates := add_candidates mutual_relays (routing_hints p) in
    online_relays ← gets (filter_relays candidates p);
    match online_relays with
    | [] => mret (Drop NoRoute)
    | _ => mret (RelayThrough online_relays)
    end.
End Router.

(** ** Properties *)

Section MutualFacts.
Context {I : Type} `{PeerIdentityLaws I}.
Implicit Types (t : MutualPeerTracker I) (a b : I).

Lemma make_key_comm a b : make_key a b = make_key b a.
Proof.
  unfold make_key.
  destruct (bytes_leb (pid_as_bytes a) (pid_as_bytes b)) eqn:E1,
    (bytes_leb (pid_as_bytes b) (pid_as_bytes a)) eqn:E2; try done.
  - by rewrite (bytes_leb_antisym _ _ E1 E2).
  - destruct (bytes_leb_total (pid_as_bytes a) (pid_as_bytes b)); congruence.
Qed.

Lemma make_key_inj a b c d : make_key a b = make_key c d → (a = c ∧ b = d) ∨ (a = d ∧ b = c).
Proof.
  unfold make_key.
  destruct (bytes_leb (pid_as_bytes a) (pid_as_bytes b)), (bytes_leb (pid_as_bytes c) (pid_as_bytes d));
    intros [= E1%pid_as_bytes_inj E2%pid_as_bytes_inj]; auto.
Qed.

Lemma elem_of_mutual_peers {T} `{NetworkTopology T I} a b (topo : T) i :
  i ∈ topo_mutual_peers a b topo ↔ i ∈ topo_neighbors a topo ∧ i ∈ topo_neighbors b topo.
Proof.
  unfold topo_mutual_peers. rewrite elem_of_retain, elem_of_remove_dups.
  by rewrite bool_decide_eq_true.
Qed.

(** The cache of mutual peers: after [on_connect] the relays of the pair, asked
    for in either order, are the common neighbours of the two peers, each
    once; after [on_disconnect] there are none; other pairs keep theirs. *)
Theorem mutual_tracker_spec {T} `{NetworkTopology T I} a b (topo : T) t :
  let c := tracker_on_connect a b topo t in
  let d := tracker_on_disconnect a b t in
  NoDup (get_relays_for a b c) ∧
  (∀ i, i ∈ get_relays_for a b c ↔ i ∈ topo_neighbors a topo ∧ i ∈ topo_neighbors b topo) ∧
  get_relays_for b a c = get_relays_for a b c ∧
  get_relays_for a b d = [] ∧ get_relays_for b a d = [] ∧
  (∀ x y, ¬ (x = a ∧ y = b) → ¬ (x = b ∧ y = a) →
          get_relays_for x y c = get_relays_for x y t ∧ get_relays_for x y d = get_relays_for x y t).
Proof.
  intros c d. subst c d. unfold get_relays_for. simpl.
  rewrite (make_key_comm b a), lookup_insert_eq, lookup_delete_eq. simpl. split_and!; try done.
  - unfold topo_mutual_peers. apply NoDup_retain, NoDup_remove_dups.
  - intros i. apply elem_of_mutual_peers.
  - intros x y H1' H2'. assert (make_key a b ≠ make_key x y) as Hk.
    { intros [[-> ->]|[-> ->]]%make_key_inj; auto. }
    by rewrite lookup_insert_ne, lookup_delete_ne.
Qed.

(** The accumulator of the relay loops: distinct relays and their byte forms. *)
Definition relays_acc_ok (acc : gset (list byte) * list I) : Prop :=
  NoDup acc.2 ∧ ∀ i, pid_as_bytes i ∈ acc.1 ↔ i ∈ acc.2.

Lemma push_relays_ok relays acc :
  relays_acc_ok acc →
  relays_acc_ok (push_relays relays acc) ∧
  ∀ i, i ∈ (push_relays relays acc).2 ↔ i ∈ relays ∨ i ∈ acc.2.
Proof.
  revert acc. induction relays as [|r relays IH]; intros [seen out] [Hn Hs]; simpl in *.
  { split; [done|]. intros i. rewrite elem_of_nil. naive_solver. }
  case_bool_decide as Hr.
  - destruct (IH (seen, out)) as [Hok Hmem]; [done|]. split; [done|]. intros i.
    rewrite Hmem, elem_of_cons. simpl. apply Hs in Hr. naive_solver.
  - destruct (IH ({[pid_as_bytes r]} ∪ seen, out ++ [r])) as [Hok Hmem].
    { split; simpl.
      - apply NoDup_app. split_and!; [done| |apply NoDup_singleton].
        intros i Hi ->%list_elem_of_singleton. apply Hr, Hs, Hi.
      - intros i. rewrite elem_of_union, elem_of_singleton, elem_of_app, list_elem_of_singleton, Hs.
        split; [|naive_solver]. intros [?%pid_as_bytes_inj|?]; auto. }
    split; [done|]. intros i. rewrite Hmem, elem_of_cons. simpl.
    rewrite elem_of_app, list_elem_of_singleton. naive_solver.
Qed.

Lemma group_relays_loop_ok a members t acc :
  relays_acc_ok acc →
  relays_acc_ok (group_relays_loop a members t acc) ∧
  ∀ i, i ∈ (group_relays_loop a members t acc).2 ↔
       i ∈ acc.2 ∨ ∃ m, m ∈ members ∧ m ≠ a ∧ i ∈ get_relays_for a m t.
Proof.
  revert acc. induction members as [|m members IH]; intros acc Hok; simpl.
  { split; [done|]. intros i. setoid_rewrite elem_of_nil. naive_solver. }
  setoid_rewrite elem_of_cons. case_bool_decide as Hm.
  { destruct (IH acc Hok) as [Hok' Hmem]. split; [done|]. intros i. rewrite Hmem. naive_solver. }
  destruct (pairwise_mutuals t !! make_key a m) as [ms|] eqn:Hms.
  - destruct (push_relays_ok ms acc Hok) as [Hok1 Hmem1].
    destruct (IH _ Hok1) as [Hok' Hmem]. split; [done|]. intros i. rewrite Hmem, Hmem1.
    assert (get_relays_for a m t = ms) as Hg by (unfold get_relays_for; by rewrite Hms).
    naive_solver.
  - destruct (IH acc Hok) as [Hok' Hmem]. split; [done|]. intros i. rewrite Hmem.
    assert (get_relays_for a m t = []) as Hg by (unfold get_relays_for; by rewrite Hms).
    split; [naive_solver|]. intros [?|(x & [->|?] & ? & Hi)]; [auto| |eauto 6].
    rewrite Hg in Hi. by apply elem_of_nil in Hi.
Qed.

(** Group relays are the union of the pairwise relays: each relay once, and
    exactly those cached for the source and some other member. *)
Theorem group_relays_spec a members t :
  NoDup (get_group_relays a members t) ∧
  ∀ i, i ∈ get_group_relays a members t ↔
       ∃ m, m ∈ members ∧ m ≠ a ∧ i ∈ get_relays_for a m t.
Proof.
  destruct (group_relays_loop_ok a members t (∅, [])) as [[Hn _] Hmem].
  { split; [constructor|]. intros i. simpl. set_solver. }
  split; [done|]. intros i. unfold get_group_relays. rewrite Hmem. simpl.
  rewrite elem_of_nil. naive_solver.
Qed.
End MutualFacts.

Section TableFacts.
Context {I : Type} `{PeerIdentityLaws I, Chrono}.
Implicit Types (t : RoutingTable I) (d : I) (r : RouteInfo I).

(** The routing table: an inserted route is returned until it is replaced or
    removed; pruning removes exactly the routes [is_stale] reports and keeps
    the others; a confirmed route counts as fresh from the confirmation on;
    and [routes_by_metric] lists all routes, best first. *)
Theorem routing_table_spec d d' r now now' t :
  table_get d' (table_insert d r now t) = (if decide (d' = d) then Some r else table_get d' t) ∧
  table_get d' (table_remove d t) = (if decide (d' = d) then None else table_get d' t) ∧
  table_get d' (prune_stale now t) = (if table_is_stale d' now t then None else table_get d' t) ∧
  (is_Some (table_get d t) →
   table_is_stale d now' (table_confirm d now t) = (stale_duration t <? now' - now)) ∧
  StronglySorted (λ a b, by_key metric a b = true) (routes_by_metric t) ∧
  routes_by_metric t ≡ₚ info <$> (map_to_list (routes t)).*2.
Proof.
  assert (∀ x y : I, pid_as_bytes x = pid_as_bytes y ↔ x = y) as Hinj.
  { intros x y. split; [apply pid_as_bytes_inj|by intros ->]. }
  unfold table_get, table_is_stale, routes_by_metric; simpl. split_and!.
  - rewrite lookup_insert. rewrite (decide_ext _ (d' = d)); [by case_decide|]. rewrite Hinj. naive_solver.
  - rewrite lookup_delete. rewrite (decide_ext _ (d' = d)); [by case_decide|]. rewrite Hinj. naive_solver.
  - destruct (routes t !! pid_as_bytes d') as [e|] eqn:He; simpl.
    + destruct (stale_duration t <? now - inserted_at e) eqn:Hs.
      * rewrite map_lookup_filter_None_2; [done|]. right. intros e' He'. rewrite He in He'.
        injection He' as <-. simpl. lia.
      * rewrite (map_lookup_filter_Some_2 _ _ _ e); [done|done|]. simpl. lia.
    + by rewrite map_lookup_filter_None_2 by auto.
  - intros Hd. rewrite lookup_alter_eq. by destruct (routes t !! pid_as_bytes d) as [e|], Hd.
  - apply sort_by_sorted, _.
  - apply sort_by_perm.
Qed.
End TableFacts.

Section RouterFacts.
Context {I T S : Type}
  `{PeerIdentity I, DefaultHasher I, NetworkTopology T I, PacketStore S I, !PacketStoreLaws S I}.
Implicit Types (r : StoreForwardRouter I T S) (p : Packet I) (i : I).

Lemma elem_of_add_candidates relays cands i :
  i ∈ add_candidates relays cands ↔ i ∈ cands ∨ i ∈ relays.
Proof.
  revert cands. induction relays as [|x relays IH]; intros cands; simpl.
  { rewrite elem_of_nil. naive_solver. }
  rewrite IH, elem_of_cons. case_bool_decide; simpl; [naive_solver|].
  rewrite elem_of_app, list_elem_of_singleton. naive_solver.
Qed.

Lemma NoDup_add_candidates (relays cands : list I) :
  NoDup cands → NoDup (add_candidates relays cands).
Proof.
  revert cands. induction relays as [|x relays IH]; intros cands Hn; simpl; [done|].
  apply IH. case_bool_decide as Hx; simpl; [done|]. apply NoDup_app.
  split_and!; [done| |apply NoDup_singleton]. intros y Hy ->%list_elem_of_singleton. done.
Qed.

(** A peer the packet could be relayed to from [current]. *)
Definition usable_relay p (current : I) r i : Prop :=
  (i ∈ routing_hints p ∨ i ∈ get_relays_for current (destination p) (mutual_tracker r)) ∧
  topo_is_online i (topology r) = true ∧ was_visited i p = false.

Lemma elem_of_filter_relays relays p r i :
  i ∈ filter_relays relays p r ↔
  i ∈ relays ∧ topo_is_online i (topology r) = true ∧ was_visited i p = false.
Proof.
  unfold filter_relays. rewrite elem_of_retain.
  destruct (topo_is_online i (topology r)), (was_visited i p); simpl; naive_solver.
Qed.

Definition online p r : bool := topo_is_online (destination p) (topology r).
Definition connected p (current : I) r : bool :=
  topo_are_connected current (destination p) (topology r).

Lemma usable_relays_spec p current r i :
  i ∈ filter_relays (add_candidates (get_relays_for current (destination p) (mutual_tracker r))
                       (routing_hints p)) p r ↔ usable_relay p current r i.
Proof. rewrite elem_of_filter_relays, elem_of_add_candidates. done. Qed.

(** C5. What a routing decision means.  Direct delivery: the destination is online
    and connected.  Hold: it is connected but offline, and the packet is now
    in the store.  Relay: it is not connected, and the next hops are exactly
    the hinted or mutual peers that are online and unvisited (at least one,
    none twice unless the hints repeat one).  Drops happen only for an expired
    TTL or when no such relay exists; the one error is a failure to store.
    Only holding touches the router's state. *)
Theorem route_spec p current r :
  let (r', res) := route p current r in
  match res with
  | Ok (DirectDelivery d) =>
      r' = r ∧ ttl p ≠ 0 ∧ d = destination p ∧ online p r = true ∧ connected p current r = true
  | Ok HoldForLater =>
      ttl p ≠ 0 ∧ online p r = false ∧ connected p current r = true ∧
      ps_retrieve (packet_id p) (storage r') = Ok (Some p)
  | Ok (RelayThrough hops) =>
      r' = r ∧ ttl p ≠ 0 ∧ connected p current r = false ∧ hops ≠ [] ∧
      (∀ i, i ∈ hops ↔ usable_relay p current r i) ∧ (NoDup (routing_hints p) → NoDup hops)
  | Ok (Drop TtlExpired) => r' = r ∧ ttl p = 0
  | Ok (Drop NoRoute) =>
      r' = r ∧ ttl p ≠ 0 ∧ connected p current r = false ∧ ∀ i, ¬ usable_relay p current r i
  | Ok (Drop _) => False
  | Err e => e = ErrNoRoute ∧ online p r = false ∧ connected p current r = true
  end.
Proof.
  unfold route. rewrite run_gets_bind. fold (online p r) (connected p current r).
  destruct (ttl p =? 0) eqn:Httl; [apply Z.eqb_eq in Httl; by split|]. apply Z.eqb_neq in Httl.
  destruct (online p r) eqn:Hon, (connected p current r) eqn:Hcon; simpl; try (by split_and!).
  2: { rewrite run_bind. unfold on_storage. destruct (ps_store p (storage r)) as [s [[]|e]] eqn:Hs.
       - split_and!; [done..|]. by eapply ps_store_retrieve.
       - done. }
  all: rewrite !run_gets_bind.
  all: set (hops := filter_relays _ p r).
  all: assert (∀ i, i ∈ hops ↔ usable_relay p current r i) as Hhops by (intros; apply usable_relays_spec).
  all: destruct hops as [|h hs] eqn:Eh.
  all: split_and!; try done.
  1, 3: intros i Hi; by apply Hhops, elem_of_nil in Hi.
  all: intros Hn; rewrite <- Eh; by apply NoDup_retain, NoDup_add_candidates.
Qed.
End RouterFacts.
