(* ===== verification/Bundle.v ===== *)
(** * Bundles

    Models [indras-dtn/src/bundle.rs] and [error.rs]: a packet wrapped with
    lifetime, custody and spray-and-wait metadata.  Instants and durations are
    in nanoseconds; the clock readings of one call are one argument [now];
    chrono's [num_milliseconds] and [num_seconds] round towards zero, its
    [dt_timestamp_millis] rounds down. *)

From S2P Require Import Prelude Packet.

Definition num_milliseconds (d : Z) : Z := Z.quot d (10 ^ 6).
Definition num_seconds (d : Z) : Z := Z.quot d (10 ^ 9).
Definition dt_timestamp_millis (t : Z) : Z := t / 10 ^ 6.

(** [Duration::from_millis] and [Duration::from_secs]. *)
Definition from_millis (ms : Z) : Z := ms * 10 ^ 6.
Definition from_secs (s : Z) : Z := s * 10 ^ 9.

Definition wrap_u32 (z : Z) : Z := z mod 2 ^ 32.

(** The derived order of [Priority]. *)
Definition priority_rank (p : Priority) : Z :=
  match p with Low => 0 | Normal => 1 | High => 2 | Critical => 3 end.

Definition priority_ltb (a b : Priority) : bool := priority_rank a <? priority_rank b.
Definition priority_leb (a b : Priority) : bool := priority_rank a <=? priority_rank b.

#[global] Instance priority_leb_linear : LinearOrder priority_leb.
Proof.
  unfold priority_leb. split; [split|].
  - intros a b. lia.
  - intros a b c. lia.
  - intros [] [] Hab Hba; simpl in *; done.
Qed.

Record BundleId : Type := {
  bid_source_hash : Z;
  creation_timestamp : Z;
  bid_sequence : Z;
}.

#[global] Instance BundleId_eq_dec : EqDecision BundleId.
Proof. solve_decision. Defined.

#[global] Instance BundleId_countable : Countable BundleId.
Proof.
  refine (inj_countable' (λ b, (bid_source_hash b, creation_timestamp b, bid_sequence b))
    (λ '(h, t, s), {| bid_source_hash := h; creation_timestamp := t; bid_sequence := s |}) _).
  by intros [].
Defined.

Definition bundle_id_new (h s now : Z) : BundleId :=
  {| bid_source_hash := h; creation_timestamp := dt_timestamp_millis now; bid_sequence := s |}.

Definition bundle_id_from_packet {I} (p : Packet I) : BundleId :=
  {| bid_source_hash := source_hash (packet_id p);
     creation_timestamp := dt_timestamp_millis (packet_created_at p);
     bid_sequence := wrap_u32 (sequence (packet_id p)) |}.

Inductive ClassOfService : Type := BulkTransfer | CosNormal | Expedited | CosCritical.

Definition to_priority (c : ClassOfService) : Priority :=
  match c with
  | BulkTransfer => Low
  | CosNormal => Normal
  | Expedited => High
  | CosCritical => Critical
  end.

Definition from_priority (p : Priority) : ClassOfService :=
  match p with
  | Low => BulkTransfer
  | Normal => CosNormal
  | High => Expedited
  | Critical => CosCritical
  end.

Record CustodyTransfer (I : Type) : Type := {
  ct_from : I;
  ct_to : I;
  ct_timestamp : Z;
  ct_accepted : bool;
}.
Arguments ct_from {I} _.
Arguments ct_to {I} _.
Arguments ct_timestamp {I} _.
Arguments ct_accepted {I} _.

Record BundleSummary (I : Type) : Type := {
  bs_bundle_id : BundleId;
  bs_destination : I;
  bs_payload_size : Z;
  bs_class_of_service : ClassOfService;
  time_remaining : Z;
  custody_hop_count : nat;
}.
Arguments bs_bundle_id {I} _.
Arguments bs_destination {I} _.
Arguments bs_payload_size {I} _.
Arguments bs_class_of_service {I} _.
Arguments time_remaining {I} _.
Arguments custody_hop_count {I} _.

Record Bundle (I : Type) : Type := {
  packet : Packet I;
  bundle_id : BundleId;
  lifetime : Z;
  custody_requested : bool;
  current_custodian : option I;
  custody_history : list (CustodyTransfer I);
  class_of_service : ClassOfService;
  report_delivery : bool;
  report_custody : bool;
  copies_remaining : Z;
}.
Arguments packet {I} _.
Arguments bundle_id {I} _.
Arguments lifetime {I} _.
Arguments custody_requested {I} _.
Arguments current_custodian {I} _.
Arguments custody_history {I} _.
Arguments class_of_service {I} _.
Arguments report_delivery {I} _.
Arguments report_custody {I} _.
Arguments copies_remaining {I} _.

(** ** Errors *)

Inductive CustodyError : Type :=
| CuStorageFull (max : Z)
| CuAlreadyHaveCustody
| NotInCustody
| TransferTimeout
| CuRefused (reason : string)
| CuNoPendingTransfer.

Inductive BundleError : Type :=
| BundleHasExpired
| BundleInvalid (msg : string)
| BundleTooLarge (size max : Z)
| BundleDuplicate.

Section Bundle.
Context {I : Type}.
Implicit Types (b : Bundle I) (i : I).

Definition custody_transfer_new (src dst : I) (ok : bool) (now : Z) : CustodyTransfer I :=
  {| ct_from := src; ct_to := dst; ct_timestamp := now; ct_accepted := ok |}.

Definition bundle_from_packet (p : Packet I) (life : Z) : Bundle I :=
  {| packet := p; bundle_id := bundle_id_from_packet p; lifetime := life;
     custody_requested := false; current_custodian := None; custody_history := [];
     class_of_service := from_priority (priority p); report_delivery := false;
     report_custody := false; copies_remaining := 1 |}.

(** Assigning the custody fields. *)
Definition set_custody (req : bool) (cur : option I) (hist : list (CustodyTransfer I)) b : Bundle I :=
  {| packet := packet b; bundle_id := bundle_id b; lifetime := lifetime b;
     custody_requested := req; current_custodian := cur; custody_history := hist;
     class_of_service := class_of_service b; report_delivery := report_delivery b;
     report_custody := report_custody b; copies_remaining := copies_remaining b |}.

Definition with_custody (initial : I) b : Bundle I :=
  set_custody true (Some initial) (custody_history b) b.

Definition with_class_of_service (c : ClassOfService) b : Bundle I :=
  {| packet := with_priority (to_priority c) (packet b); bundle_id := bundle_id b;
     lifetime := lifetime b; custody_requested := custody_requested b;
     current_custodian := current_custodian b; custody_history := custody_history b;
     class_of_service := c; report_delivery := report_delivery b;
     report_custody := report_custody b; copies_remaining := copies_remaining b |}.

Definition with_delivery_report b : Bundle I :=
  {| packet := packet b; bundle_id := bundle_id b; lifetime := lifetime b;
     custody_requested := custody_requested b; current_custodian := current_custodian b;
     custody_history := custody_history b; class_of_service := class_of_service b;
     report_delivery := true; report_custody := report_custody b;
     copies_remaining := copies_remaining b |}.

Definition with_custody_report b : Bundle I :=
  {| packet := packet b; bundle_id := bundle_id b; lifetime := lifetime b;
     custody_requested := custody_requested b; current_custodian := current_custodian b;
     custody_history := custody_history b; class_of_service := class_of_service b;
     report_delivery := report_delivery b; report_custody := true;
     copies_remaining := copies_remaining b |}.

Definition with_copies (c : Z) b : Bundle I :=
  {| packet := packet b; bundle_id := bundle_id b; lifetime := lifetime b;
     custody_requested := custody_requested b; current_custodian := current_custodian b;
     custody_history := custody_history b; class_of_service := class_of_service b;
     report_delivery := report_delivery b; report_custody := report_custody b;
     copies_remaining := c |}.

Definition bundle_age (now : Z) b : Z := now - packet_created_at (packet b).

Definition bundle_is_expired (now : Z) b : bool := lifetime b <=? bundle_age now b.

Definition time_to_live (now : Z) b : Z :=
  let age := bundle_age now b in
  if lifetime b <=? age then 0 else lifetime b - age.

(** [current_custodian.take()?]: without a custodian nothing changes. *)
Definition transfer_custody (dst : I) (now : Z) b : Bundle I * option (CustodyTransfer I) :=
  if negb (custody_requested b) then (b, None)
  else match current_custodian b with
       | None => (b, None)
       | Some src =>
           let transfer := custody_transfer_new src dst true now in
           (set_custody (custody_requested b) (Some dst) (custody_history b ++ [transfer]) b,
            Some transfer)
       end.

Definition accept_initial_custody (custodian : I) b : Bundle I :=
  set_custody true (Some custodian) (custody_history b) b.

Definition bundle_effective_priority b : Priority := to_priority (class_of_service b).

Definition bundle_destination b : I := destination (packet b).
Definition bundle_source b : I := source (packet b).

Definition bundle_summary (now : Z) b : BundleSummary I :=
  {| bs_bundle_id := bundle_id b; bs_destination := destination (packet b);
     bs_payload_size := Z.of_nat (length (data (packet_payload (packet b))));
     bs_class_of_service := class_of_service b; time_remaining := time_to_live now b;
     custody_hop_count := length (custody_history b) |}.

Definition decrement_copies b : Bundle I * bool :=
  if 1 <? copies_remaining b then (with_copies (copies_remaining b - 1) b, true) else (b, false).
End Bundle.

(** ** Properties *)

Section BundleFacts.
Context {I : Type}.
Implicit Types (b : Bundle I) (i : I).

(** The history is a chain of hand-overs that starts at [first] and ends at
    the current custodian. *)
Inductive custody_chain : I → list (CustodyTransfer I) → I → Prop :=
| chain_start i : custody_chain i [] i
| chain_step first hist last t :
    custody_chain first hist last → ct_from t = last → ct_accepted t = true →
    custody_chain first (hist ++ [t]) (ct_to t).

Fixpoint transfers (l : list (I * Z)) b : Bundle I :=
  match l with
  | [] => b
  | (dst, now) :: l => transfers l (transfer_custody dst now b).1
  end.

Lemma transfer_custody_chain first dst now b last :
  custody_requested b = true → current_custodian b = Some last →
  custody_chain first (custody_history b) last →
  let b' := (transfer_custody dst now b).1 in
  custody_requested b' = true ∧ current_custodian b' = Some dst ∧
  custody_chain first (custody_history b') dst ∧
  custody_history b' = custody_history b ++ [custody_transfer_new last dst true now].
Proof.
  intros Hr Hc Hch. unfold transfer_custody. rewrite Hr, Hc. simpl. split_and!; try done.
  by apply (chain_step first _ last (custody_transfer_new last dst true now)).
Qed.

Lemma transfers_chain l first b cur :
  custody_requested b = true → current_custodian b = Some cur →
  custody_chain first (custody_history b) cur →
  custody_requested (transfers l b) = true ∧
  current_custodian (transfers l b) = Some (default cur (last l.*1)) ∧
  custody_chain first (custody_history (transfers l b)) (default cur (last l.*1)) ∧
  ct_to <$> custody_history (transfers l b) = (ct_to <$> custody_history b) ++ l.*1.
Proof.
  revert b cur. induction l as [|[dst now] l IH]; intros b cur Hr Hc Hch; cbn [transfers].
  { simpl. by rewrite app_nil_r. }
  destruct (transfer_custody_chain first dst now b cur Hr Hc Hch) as (Hr' & Hc' & Hch' & Hh).
  destruct (IH _ _ Hr' Hc' Hch') as (? & Hcur & Hchain & Hto).
  assert (default cur (last ((dst, now) :: l).*1) = default dst (last l.*1)) as ->
    by (rewrite fmap_cons, last_cons; by destruct (last l.*1)).
  split_and!; [done..|]. rewrite Hto, Hh, fmap_app, <- app_assoc. done.
Qed.

(** Custody of a bundle is traceable: from the moment custody is requested,
    whatever hand-overs follow, the history lists all of them in order, each
    one made by the custodian the previous one named, the first by the initial
    custodian, and the last one names the current custodian. *)
Theorem custody_traceable (p : Packet I) life initial l :
  let b := transfers l (with_custody initial (bundle_from_packet p life)) in
  let cur := default initial (last l.*1) in
  current_custodian b = Some cur ∧ custody_chain initial (custody_history b) cur ∧
  ct_to <$> custody_history b = l.*1.
Proof.
  intros b cur.
  destruct (transfers_chain l initial (with_custody initial (bundle_from_packet p life)) initial)
    as (_ & ? & ? & ?); try done. apply chain_start.
Qed.

(** Expiry and the time to live agree: a bundle has expired exactly when no
    time is left (for a positive lifetime or a bundle from the past), the time
    left never exceeds the lifetime of a bundle already created, and both only
    go one way as the clock advances. *)
Theorem bundle_expiry b now later :
  now <= later →
  (bundle_is_expired now b = true ↔ time_to_live now b = 0) ∧
  0 <= time_to_live now b ∧ time_to_live later b <= time_to_live now b ∧
  (bundle_is_expired now b = true → bundle_is_expired later b = true) ∧
  (packet_created_at (packet b) <= now → 0 <= lifetime b → time_to_live now b <= lifetime b).
Proof.
  unfold bundle_is_expired, time_to_live, bundle_age. intros Hle.
  destruct (lifetime b <=? now - packet_created_at (packet b)) eqn:Hn,
    (lifetime b <=? later - packet_created_at (packet b)) eqn:Hl; split_and!; try done; lia.
Qed.

Lemma from_to_priority c : from_priority (to_priority c) = c.
Proof. by destruct c. Qed.

Lemma to_from_priority p : to_priority (from_priority p) = p.
Proof. by destruct p. Qed.
End BundleFacts.
