(* ===== verification/Custody.v ===== *)
(** * Custody of bundles

    Models [indras-dtn/src/custody.rs]: the bundles a node is responsible for
    and the offers it has made to hand them over.  Each method on the
    [DashMap]s is one atomic step; [now] is the UTC clock, [inst] the
    monotonic one. *)

From S2P Require Import Prelude Packet Bundle.

Record CustodyConfig : Type := {
  max_custody_bundles : Z;
  acceptance_timeout : Z;
  accept_from_unknown : bool;
}.

Definition custody_config_default : CustodyConfig :=
  {| max_custody_bundles := 1000; acceptance_timeout := from_secs 30; accept_from_unknown := true |}.

Record CustodyRecord (I : Type) : Type := {
  cr_bundle_id : BundleId;
  accepted_at : Z;
  accepted_from : option I;
  cr_destination : I;
  expiration : Z;
  transfer_attempts : Z;
}.
Arguments cr_bundle_id {I} _.
Arguments accepted_at {I} _.
Arguments accepted_from {I} _.
Arguments cr_destination {I} _.
Arguments expiration {I} _.
Arguments transfer_attempts {I} _.

Record PendingCustodyTransfer (I : Type) : Type := {
  pc_bundle_id : BundleId;
  offered_to : I;
  offered_at : Z;
  pc_timeout : Z;
}.
Arguments pc_bundle_id {I} _.
Arguments offered_to {I} _.
Arguments offered_at {I} _.
Arguments pc_timeout {I} _.

Inductive RefuseReason : Type :=
| RefStorageFull | RefNotInterested | RefAlreadyHaveCustody | RefBundleExpired.

Inductive ReleaseReason : Type := RelDelivered | RelExpired | RelTransferred.

Definition refuse_reason_message (r : RefuseReason) : string :=
  match r with
  | RefStorageFull => "storage full"
  | RefNotInterested => "not interested"
  | RefAlreadyHaveCustody => "already have custody"
  | RefBundleExpired => "bundle expired"
  end.

Inductive CustodyTransferResult (I : Type) : Type :=
| TransferAccepted (id : BundleId) (new_custodian : I)
| TransferRefused (id : BundleId) (reason : RefuseReason)
| NoPendingTransfer.
Arguments TransferAccepted {I} _ _.
Arguments TransferRefused {I} _ _.
Arguments NoPendingTransfer {I}.

Inductive CustodyMessage (I : Type) : Type :=
| CustodyOffer (id : BundleId) (summary : BundleSummary I)
| CustodyAccept (id : BundleId)
| CustodyRefuse (id : BundleId) (reason : RefuseReason)
| CustodyRelease (id : BundleId) (reason : ReleaseReason).

Record CustodyManager (I : Type) : Type := {
  custody_records : gmap BundleId (CustodyRecord I);
  pending_transfers : gmap BundleId (PendingCustodyTransfer I);
  cm_config : CustodyConfig;
}.
Arguments custody_records {I} _.
Arguments pending_transfers {I} _.
Arguments cm_config {I} _.

Section Custody.
Context {I : Type}.
Implicit Types (m : CustodyManager I) (b : Bundle I) (id : BundleId).

(** [self.offered_at.elapsed() > self.timeout]; [elapsed] saturates. *)
Definition offer_timed_out (inst : Z) (p : PendingCustodyTransfer I) : bool :=
  pc_timeout p <? Z.max 0 (inst - offered_at p).

Definition custody_new (c : CustodyConfig) : CustodyManager I :=
  {| custody_records := ∅; pending_transfers := ∅; cm_config := c |}.

Definition set_records (r : gmap BundleId (CustodyRecord I)) m : CustodyManager I :=
  {| custody_records := r; pending_transfers := pending_transfers m; cm_config := cm_config m |}.

Definition set_transfers (p : gmap BundleId (PendingCustodyTransfer I)) m : CustodyManager I :=
  {| custody_records := custody_records m; pending_transfers := p; cm_config := cm_config m |}.

Definition accept_custody b (src : option I) (now inst : Z)
    : M (CustodyManager I) CustodyError unit := λ m,
  if max_custody_bundles (cm_config m) <=? Z.of_nat (size (custody_records m)) then
    (m, Err (CuStorageFull (max_custody_bundles (cm_config m))))
  else if bool_decide (is_Some (custody_records m !! bundle_id b)) then
    (m, Err CuAlreadyHaveCustody)
  else
    let ttl := time_to_live now b in
    let expires := inst + from_millis (wrap_u64 (num_milliseconds ttl)) in
    let record := {| cr_bundle_id := bundle_id b; accepted_at := inst; accepted_from := src;
                     cr_destination := bundle_destination b; expiration := expires;
                     transfer_attempts := 0 |} in
    (set_records (<[bundle_id b := record]> (custody_records m)) m, Ok tt).

Definition offer_custody id (dst : I) (inst : Z) : M (CustodyManager I) CustodyError unit := λ m,
  if negb (bool_decide (is_Some (custody_records m !! id))) then (m, Err NotInCustody)
  else
    let offer := {| pc_bundle_id := id; offered_to := dst; offered_at := inst;
                    pc_timeout := acceptance_timeout (cm_config m) |} in
    (set_transfers (<[id := offer]> (pending_transfers m)) m, Ok tt).

(** [record.transfer_attempts += 1]. *)
Definition count_attempt (r : CustodyRecord I) : CustodyRecord I :=
  {| cr_bundle_id := cr_bundle_id r; accepted_at := accepted_at r; accepted_from := accepted_from r;
     cr_destination := cr_destination r; expiration := expiration r;
     transfer_attempts := wrap_u32 (transfer_attempts r + 1) |}.

Definition handle_acceptance id (accepted : bool) m : CustodyManager I * CustodyTransferResult I :=
  match pending_transfers m !! id with
  | None => (m, NoPendingTransfer)
  | Some offer =>
      let m := set_transfers (delete id (pending_transfers m)) m in
      if accepted then
        (set_records (delete id (custody_records m)) m, TransferAccepted id (offered_to offer))
      else
        (set_records (alter count_attempt id (custody_records m)) m,
         TransferRefused id RefNotInterested)
  end.

Definition custodied_bundles m : list BundleId :=
  cr_bundle_id <$> (map_to_list (custody_records m)).*2.

Definition has_custody id m : bool := bool_decide (is_Some (custody_records m !! id)).

Definition get_custody_record id m : option (CustodyRecord I) := custody_records m !! id.

Definition release_custody id m : CustodyManager I * option (CustodyRecord I) :=
  (set_records (delete id (custody_records m))
     (set_transfers (delete id (pending_transfers m)) m), custody_records m !! id).

(** One round of the loop of [check_timeouts]. *)
Definition drop_offer m id : CustodyManager I :=
  set_records (alter count_attempt id (custody_records m))
    (set_transfers (delete id (pending_transfers m)) m).

Definition custody_check_timeouts (inst : Z) m : CustodyManager I * list BundleId :=
  let timed_out := pc_bundle_id <$>
    retain (offer_timed_out inst) (map_to_list (pending_transfers m)).*2 in
  (foldl drop_offer m timed_out, timed_out).

Definition custody_get_expired (inst : Z) m : list BundleId :=
  cr_bundle_id <$> retain (λ r, expiration r <? inst) (map_to_list (custody_records m)).*2.

Definition custody_count m : Z := Z.of_nat (size (custody_records m)).

Definition remaining_capacity m : Z :=
  Z.max 0 (max_custody_bundles (cm_config m) - Z.of_nat (size (custody_records m))).

Definition cleanup_expired (inst : Z) m : CustodyManager I * list BundleId :=
  let expired := custody_get_expired inst m in
  (foldl (λ m id, (release_custody id m).1) m expired, expired).
End Custody.

(** ** Properties *)

(** A map whose values are filed under their own keys. *)
Section Filed.
Context {K V : Type} `{Countable K} (key : V → K) (m : gmap K V).
Hypothesis filed : ∀ k v, m !! k = Some v → key v = k.

Lemma filed_fst : key <$> (map_to_list m).*2 = (map_to_list m).*1.
Proof.
  rewrite <- list_fmap_compose. apply list_fmap_ext. intros i [k v] Hi. simpl. apply filed.
  apply elem_of_map_to_list. by eapply list_elem_of_lookup_2.
Qed.

Lemma filed_NoDup f : NoDup (key <$> retain f (map_to_list m).*2).
Proof.
  apply NoDup_fmap_retain. rewrite filed_fst. apply NoDup_fst_map_to_list.
Qed.

Lemma elem_of_filed f k :
  k ∈ key <$> retain f (map_to_list m).*2 ↔ ∃ v, m !! k = Some v ∧ f v = true.
Proof.
  rewrite list_elem_of_fmap. setoid_rewrite elem_of_retain. split.
  - intros (v & -> & ([k' v'] & -> & Hin)%list_elem_of_fmap & Hf).
    apply elem_of_map_to_list in Hin. simpl in *. rewrite (filed k' v' Hin). eauto.
  - intros (v & Hk & Hf). exists v. split; [symmetry; by apply filed|]. split; [|done].
    apply list_elem_of_fmap. exists (k, v). split; [done|]. by apply elem_of_map_to_list.
Qed.
End Filed.

Section CustodyFacts.
Context {I : Type}.
Implicit Types (m : CustodyManager I) (b : Bundle I) (id : BundleId).

(** Offers are made only for bundles in custody, everything is filed under
    its own identifier, and the capacity is respected. *)
Record custody_ok m : Prop := {
  offers_in_custody id : is_Some (pending_transfers m !! id) → is_Some (custody_records m !! id);
  records_filed id r : custody_records m !! id = Some r → cr_bundle_id r = id;
  offers_filed id p : pending_transfers m !! id = Some p → pc_bundle_id p = id;
  custody_capacity : Z.of_nat (size (custody_records m)) <= Z.max 0 (max_custody_bundles (cm_config m));
}.

Inductive custody_step : CustodyManager I → CustodyManager I → Prop :=
| cstep_accept b src now inst m : custody_step m (accept_custody b src now inst m).1
| cstep_offer id dst inst m : custody_step m (offer_custody id dst inst m).1
| cstep_response id ok m : custody_step m (handle_acceptance id ok m).1
| cstep_release id m : custody_step m (release_custody id m).1
| cstep_timeouts inst m : custody_step m (custody_check_timeouts inst m).1
| cstep_cleanup inst m : custody_step m (cleanup_expired inst m).1.

Lemma lookup_alter_is_Some (r : gmap BundleId (CustodyRecord I)) id k :
  is_Some (alter count_attempt id r !! k) ↔ is_Some (r !! k).
Proof.
  destruct (decide (id = k)) as [<-|Hne]; [|by rewrite lookup_alter_ne].
  rewrite lookup_alter_eq. by rewrite fmap_is_Some.
Qed.

Lemma custody_ok_drop m id : custody_ok m → custody_ok (drop_offer m id).
Proof.
  intros [Ho Hr Hp Hc]. split; simpl.
  - intros k. rewrite lookup_delete, lookup_alter_is_Some. case_decide; [by intros [? [=]]|apply Ho].
  - intros k r. destruct (decide (id = k)) as [<-|Hne].
    + rewrite lookup_alter_eq. destruct (custody_records m !! id) as [r0|] eqn:Hk; [|done].
      intros [= <-]. apply (Hr id r0 Hk).
    + rewrite lookup_alter_ne by done. apply Hr.
  - intros k p. rewrite lookup_delete. case_decide; [done|apply Hp].
  - rewrite <- (size_dom (alter _ _ _)), dom_alter_L, size_dom. done.
Qed.

Lemma custody_ok_release m id : custody_ok m → custody_ok (release_custody id m).1.
Proof.
  intros [Ho Hr Hp Hc]. split; simpl.
  - intros k. rewrite !lookup_delete. case_decide; [by intros [? [=]]|apply Ho].
  - intros k r. rewrite lookup_delete. case_decide; [done|apply Hr].
  - intros k p. rewrite lookup_delete. case_decide; [done|apply Hp].
  - assert (size (delete id (custody_records m)) <= size (custody_records m))%nat; [|lia].
    apply map_subseteq_size, delete_subseteq.
Qed.

Lemma custody_ok_step m m' : custody_step m m' → custody_ok m → custody_ok m'.
Proof.
  intros Hs Hok. pose proof Hok as [Ho Hr Hp Hc].
  destruct Hs as [b src now inst m|id dst inst m|id ok m|id m|inst m|inst m].
  - unfold accept_custody. destruct (max_custody_bundles _ <=? _) eqn:Hfull; [done|].
    case_bool_decide as Hh; [done|]. split; simpl; try done.
    + intros k Hk. rewrite lookup_insert_is_Some. destruct (decide (bundle_id b = k)); auto.
    + intros k r. rewrite lookup_insert. case_decide as Hk; [by intros [= <-]|apply Hr].
    + rewrite map_size_insert_None; [lia|]. by apply eq_None_not_Some.
  - unfold offer_custody. case_bool_decide as Hh; simpl; [|done]. split; simpl; try done.
    + intros k. rewrite lookup_insert. case_decide as Hk; [by subst|apply Ho].
    + intros k p. rewrite lookup_insert. case_decide as Hk; [by intros [= <-]|apply Hp].
  - unfold handle_acceptance. destruct (pending_transfers m !! id) as [p|]; [|done].
    destruct ok; [apply (custody_ok_release m id Hok)|apply (custody_ok_drop m id Hok)].
  - by apply custody_ok_release.
  - apply (foldl_invariant custody_ok drop_offer); [|done]. intros ? ?. apply custody_ok_drop.
  - apply (foldl_invariant custody_ok (λ m id, (release_custody id m).1)); [|done].
    intros ? ?. apply custody_ok_release.
Qed.

(** In every state the custody manager can reach, each open offer is for a
    bundle in custody, records and offers are filed under their own
    identifiers, and no more bundles are held than configured. *)
Theorem custody_invariant c m :
  rtc custody_step (custody_new c) m → custody_ok m ∧ custody_count m <= Z.max 0 (max_custody_bundles (cm_config m)).
Proof.
  intros Hs. assert (custody_ok m) as Hok; [|split; [done|apply Hok]].
  assert (custody_ok (custody_new c : CustodyManager I)) as Hnew.
  { split; simpl; try (intros ? ?; rewrite lookup_empty; done).
    - intros id. rewrite lookup_empty. by intros [? [=]].
    - rewrite map_size_empty. lia. }
  clear -Hs Hnew. remember (custody_new c) as m0. clear Heqm0. induction Hs; eauto using custody_ok_step.
Qed.

(** [m'] differs from [m] at most in its records and offers for [id]. *)
Definition same_elsewhere id m m' : Prop :=
  cm_config m' = cm_config m ∧
  ∀ k, k ≠ id → custody_records m' !! k = custody_records m !! k ∧
                pending_transfers m' !! k = pending_transfers m !! k.

(** The hand-over protocol never loses a bundle.  When [m1] has custody of a
    bundle and offers it to the owner of [m2], then [m2] either takes custody
    or refuses with an error that leaves it unchanged; reporting that answer
    back makes [m1] give the bundle up exactly in the first case, and in the
    second keep it with one more attempt on record.  At the end exactly one of
    them (or [m2] already before) is the custodian, and nothing else changed
    on either side. *)
Theorem custody_handover b src (peer : I) now inst m1 m2 r :
  custody_records m1 !! bundle_id b = Some r →
  let id := bundle_id b in
  let (m1a, offer) := offer_custody id peer inst m1 in
  let (m2', answer) := accept_custody b src now inst m2 in
  let (m1', res) := handle_acceptance id (is_ok answer) m1a in
  offer = Ok tt ∧ same_elsewhere id m1 m1' ∧ same_elsewhere id m2 m2' ∧
  match answer with
  | Ok _ => res = TransferAccepted id peer ∧ has_custody id m1' = false ∧
            has_custody id m2 = false ∧ has_custody id m2' = true
  | Err e => res = TransferRefused id RefNotInterested ∧ m2' = m2 ∧
             get_custody_record id m1' = Some (count_attempt r) ∧
             (e = CuAlreadyHaveCustody ∧ has_custody id m2 = true ∨
              e = CuStorageFull (max_custody_bundles (cm_config m2)) ∧
              max_custody_bundles (cm_config m2) <= custody_count m2)
  end.
Proof.
  intros Hr id. unfold offer_custody, has_custody, get_custody_record, custody_count.
  fold id in Hr. rewrite Hr, bool_decide_true by done. simpl.
  unfold accept_custody. fold id.
  destruct (max_custody_bundles (cm_config m2) <=? Z.of_nat (size (custody_records m2))) eqn:Hfull;
    [|case_bool_decide as Hh]; simpl; unfold handle_acceptance; simpl;
    rewrite lookup_insert_eq; simpl; rewrite ?delete_insert_eq, ?lookup_alter_eq, ?Hr.
  - split_and!; try done.
    + split; [done|]. intros k Hk. simpl. by rewrite lookup_alter_ne, lookup_delete_ne.
    + right. split; [done|lia].
  - split_and!; try done.
    + split; [done|]. intros k Hk. simpl. by rewrite lookup_alter_ne, lookup_delete_ne.
    + left. by rewrite ?bool_decide_true.
  - rewrite lookup_delete_eq, lookup_insert_eq. split_and!; try done.
    + split; [done|]. intros k Hk. simpl. by rewrite !lookup_delete_ne.
    + split; [done|]. intros k Hk. simpl. by rewrite lookup_insert_ne.
Qed.

Lemma drop_offers_lookup ids m k :
  NoDup ids →
  pending_transfers (foldl drop_offer m ids) !! k
  = (if decide (k ∈ ids) then None else pending_transfers m !! k) ∧
  custody_records (foldl drop_offer m ids) !! k
  = (if decide (k ∈ ids) then count_attempt <$> custody_records m !! k else custody_records m !! k).
Proof.
  intros Hn. revert m. induction Hn as [|id ids Hid Hn IH]; intros m; cbn [foldl].
  { by simpl. }
  destruct (IH (drop_offer m id)) as [-> ->].
  assert (pending_transfers (drop_offer m id) !! k
          = if decide (id = k) then None else pending_transfers m !! k) as -> by apply lookup_delete.
  assert (custody_records (drop_offer m id) !! k
          = if decide (id = k) then count_attempt <$> custody_records m !! k
            else custody_records m !! k) as ->.
  { clear IH. case_decide as Hk; [subst; apply lookup_alter_eq|by apply lookup_alter_ne]. }
  assert (k ∈ id :: ids ↔ id = k ∨ k ∈ ids) as Hiff by (rewrite elem_of_cons; naive_solver).
  destruct (decide (id = k)), (decide (k ∈ ids)), (decide (k ∈ id :: ids)); naive_solver.
Qed.

(** Timed-out offers: [check_timeouts] reports exactly the offers that have
    timed out and withdraws exactly those, counting one attempt for each
    bundle; custody itself is kept. *)
Theorem custody_timeouts_spec m inst k :
  custody_ok m →
  let (m', timed_out) := custody_check_timeouts inst m in
  (k ∈ timed_out ↔ ∃ p, pending_transfers m !! k = Some p ∧ pc_timeout p < Z.max 0 (inst - offered_at p)) ∧
  pending_transfers m' !! k = (if decide (k ∈ timed_out) then None else pending_transfers m !! k) ∧
  get_custody_record k m'
  = (if decide (k ∈ timed_out) then count_attempt <$> get_custody_record k m
     else get_custody_record k m).
Proof.
  intros Hok. unfold custody_check_timeouts. set (ids := pc_bundle_id <$> _).
  assert (NoDup ids) as Hn.
  { subst ids. apply (filed_NoDup pc_bundle_id). apply (offers_filed m Hok). }
  destruct (drop_offers_lookup ids m k Hn) as [-> Hrec]. unfold get_custody_record. rewrite Hrec.
  split; [|done]. subst ids. rewrite (elem_of_filed pc_bundle_id) by apply (offers_filed m Hok).
  by setoid_rewrite Z.ltb_lt.
Qed.
End CustodyFacts.
