(* ===== verification/Epidemic.v ===== *)
(** * Epidemic routing

    Models [indras-dtn/src/epidemic.rs]: flooding and spray-and-wait with
    duplicate suppression.  [now] is the UTC clock, [inst] the monotonic one;
    each method on the [DashMap] is one atomic step. *)

From S2P Require Import Prelude Packet Bundle.

Record EpidemicConfig : Type := {
  max_copies : Z;
  spray_and_wait : bool;
  spray_count : Z;
  seen_timeout : Z;
  max_bundle_age : Z;
}.

Definition epidemic_config_default : EpidemicConfig :=
  {| max_copies := 8; spray_and_wait := true; spray_count := 4; seen_timeout := from_secs 3600;
     max_bundle_age := from_secs 86400 |}.

Record SeenRecord : Type := { first_seen : Z; seen_times : Z }.

Inductive SuppressReason : Type := SupDuplicate | NoNeighbors | WaitPhase.

Inductive EpidemicDecision (I : Type) : Type :=
| FloodAll (neighbors : list I)
| SprayTo (targets : list I) (copies_left : Z)
| EpDirectDelivery (dest : I)
| Suppress (reason : SuppressReason)
| EpExpired.
Arguments FloodAll {I} _.
Arguments SprayTo {I} _ _.
Arguments EpDirectDelivery {I} _.
Arguments Suppress {I} _.
Arguments EpExpired {I}.

Definition is_forwarding {I} (d : EpidemicDecision I) : bool :=
  match d with FloodAll _ | SprayTo _ _ | EpDirectDelivery _ => true | _ => false end.

Definition is_suppress {I} (d : EpidemicDecision I) : bool :=
  match d with Suppress _ => true | _ => false end.

Definition suppress_reason {I} (d : EpidemicDecision I) : option SuppressReason :=
  match d with Suppress r => Some r | _ => None end.

Definition decision_targets {I} (d : EpidemicDecision I) : list I :=
  match d with
  | FloodAll l => l
  | SprayTo l _ => l
  | EpDirectDelivery i => [i]
  | Suppress _ | EpExpired => []
  end.

Record EpidemicRouter : Type := {
  seen_bundles : gmap BundleId SeenRecord;
  ep_config : EpidemicConfig;
}.

Definition epidemic_new (c : EpidemicConfig) : EpidemicRouter :=
  {| seen_bundles := ∅; ep_config := c |}.

Definition set_seen (m : gmap BundleId SeenRecord) (r : EpidemicRouter) : EpidemicRouter :=
  {| seen_bundles := m; ep_config := ep_config r |}.

Definition mark_seen (id : BundleId) (inst : Z) (r : EpidemicRouter) : EpidemicRouter :=
  set_seen (<[id := match seen_bundles r !! id with
                    | Some s => {| first_seen := first_seen s; seen_times := wrap_u32 (seen_times s + 1) |}
                    | None => {| first_seen := inst; seen_times := 1 |}
                    end]> (seen_bundles r)) r.

Definition have_seen (id : BundleId) (r : EpidemicRouter) : bool :=
  bool_decide (is_Some (seen_bundles r !! id)).

Definition seen_count (id : BundleId) (r : EpidemicRouter) : Z :=
  default 0 (seen_times <$> seen_bundles r !! id).

(** [now.duration_since(first_seen) < seen_timeout]; the difference saturates
    at zero. *)
Definition seen_keep (inst : Z) (r : EpidemicRouter) (s : SeenRecord) : bool :=
  Z.max 0 (inst - first_seen s) <? seen_timeout (ep_config r).

Definition cleanup_seen (inst : Z) (r : EpidemicRouter) : EpidemicRouter * nat :=
  let kept := filter (λ e, seen_keep inst r e.2 = true) (seen_bundles r) in
  (set_seen kept r, (size (seen_bundles r) - size kept)%nat).

Definition seen_bundle_count (r : EpidemicRouter) : nat := size (seen_bundles r).

(** [u8::div_ceil(2)]. *)
Definition div_ceil2 (c : Z) : Z := (c + 1) / 2.

Definition calculate_spray_targets (copies : Z) (available : nat) : nat :=
  if copies <=? 1 then 0%nat else Nat.min (Z.to_nat (div_ceil2 copies)) available.

Section Epidemic.
Context {I T : Type} `{PeerIdentity I, DefaultHasher I, NetworkTopology T I}.
Implicit Types (b : Bundle I) (r : EpidemicRouter).

Definition spray_and_wait_decision b (neighbors : list I) : EpidemicDecision I :=
  let copies := copies_remaining b in
  if copies <=? 1 then Suppress WaitPhase
  else
    let copies_to_spray := Z.to_nat (div_ceil2 copies) in
    let targets := take copies_to_spray neighbors in
    SprayTo targets (Z.max 0 (copies - Z.of_nat (length targets) mod 256)).

(** The neighbours a bundle may be handed to. *)
Definition open_neighbors b (current : I) (topo : T) : list I :=
  retain (λ n, negb (bool_decide (n = current)))
    (retain (λ n, negb (was_visited n (packet b)))
       (retain (λ n, topo_is_online n topo) (topo_neighbors current topo))).

Definition epidemic_route b (current : I) (topo : T) (now inst : Z) r
    : EpidemicRouter * EpidemicDecision I :=
  if bundle_is_expired now b then (r, EpExpired)
  else if wrap_i64 (num_seconds (max_bundle_age (ep_config r))) <? num_seconds (bundle_age now b) then
    (r, EpExpired)
  else if have_seen (bundle_id b) r then (r, Suppress SupDuplicate)
  else
    let r := mark_seen (bundle_id b) inst r in
    let neighbors := open_neighbors b current topo in
    let dest := bundle_destination b in
    (r, if bool_decide (dest ∈ neighbors) then EpDirectDelivery dest
        else match neighbors with
             | [] => Suppress NoNeighbors
             | _ => if spray_and_wait (ep_config r) then spray_and_wait_decision b neighbors
                    else FloodAll neighbors
             end).

(** [EpidemicRouter::decrement_copies]. *)
Definition router_decrement_copies b : Bundle I * bool := decrement_copies b.
End Epidemic.

(** ** Properties *)

Section EpidemicFacts.
Context {I T : Type} `{PeerIdentity I, DefaultHasher I, NetworkTopology T I}.
Implicit Types (b : Bundle I) (r : EpidemicRouter) (topo : T).

Lemma elem_of_open_neighbors b current topo i :
  i ∈ open_neighbors b current topo ↔
  i ∈ topo_neighbors current topo ∧ topo_is_online i topo = true ∧
  was_visited i (packet b) = false ∧ i ≠ current.
Proof.
  unfold open_neighbors. rewrite !elem_of_retain, !negb_true_iff, bool_decide_eq_false. tauto.
Qed.

(** What a decision means.  Every target is an online neighbour that the
    bundle has not visited; direct delivery goes to the destination; flooding
    reaches all open neighbours; spraying sends one copy to each of at most
    half of the copies (rounded up), the copies sent and kept add up to those
    the bundle had, and at least one copy is sent and at least half (rounded
    down) are kept.  A bundle is held back only if it is a duplicate, has no
    open neighbour, or is down to its last copy in spray mode. *)
Theorem epidemic_route_spec b current topo now inst r :
  0 <= copies_remaining b < 256 →
  let (r', d) := epidemic_route b current topo now inst r in
  (∀ i, i ∈ decision_targets d → i ∈ open_neighbors b current topo) ∧
  match d with
  | EpDirectDelivery i => i = bundle_destination b
  | FloodAll l => l = open_neighbors b current topo ∧ l ≠ [] ∧ spray_and_wait (ep_config r) = false
  | SprayTo l n =>
      spray_and_wait (ep_config r) = true ∧ l ≠ [] ∧
      Z.of_nat (length l) + n = copies_remaining b ∧ copies_remaining b / 2 <= n ∧
      length l = calculate_spray_targets (copies_remaining b) (length (open_neighbors b current topo))
  | Suppress SupDuplicate => have_seen (bundle_id b) r = true
  | Suppress NoNeighbors => open_neighbors b current topo = []
  | Suppress WaitPhase => copies_remaining b <= 1
  | EpExpired => bundle_is_expired now b = true ∨
                 wrap_i64 (num_seconds (max_bundle_age (ep_config r))) < num_seconds (bundle_age now b)
  end.
Proof.
  intros Hc. unfold epidemic_route.
  destruct (bundle_is_expired now b) eqn:He; [split; [by intros ? ?%elem_of_nil|by left]|].
  destruct (_ <? _) eqn:Ha; [split; [by intros ? ?%elem_of_nil|right; lia]|].
  destruct (have_seen (bundle_id b) r) eqn:Hs; [split; [by intros ? ?%elem_of_nil|done]|].
  case_bool_decide as Hd; [split; [by intros ? ->%list_elem_of_singleton|done]|].
  destruct (open_neighbors b current topo) as [|n ns] eqn:Hn; [split; [by intros ? ?%elem_of_nil|done]|].
  cbn [set_seen mark_seen ep_config]. destruct (spray_and_wait (ep_config r)) eqn:Hm; [|by split].
  unfold spray_and_wait_decision, calculate_spray_targets.
  destruct (copies_remaining b <=? 1) eqn:Hw; [split; [by intros ? ?%elem_of_nil|lia]|].
  assert (1 <= div_ceil2 (copies_remaining b) <= copies_remaining b ∧
          copies_remaining b / 2 = copies_remaining b - div_ceil2 (copies_remaining b)) as [Hdc Hhalf]
    by (unfold div_ceil2; Z.to_euclidean_division_equations; lia).
  set (l := take (Z.to_nat (div_ceil2 (copies_remaining b))) (n :: ns)).
  assert (length l = Nat.min (Z.to_nat (div_ceil2 (copies_remaining b))) (length (n :: ns))) as Hl
    by apply length_take.
  assert (Z.of_nat (length l) mod 256 = Z.of_nat (length l)) as -> by (apply Z.mod_small; lia).
  split; [intros i Hi; by apply (subseteq_take _ _ _ Hi)|]. cbn [decision_targets].
  split_and!; [done| |lia|lia|done]. intros Hnil. rewrite Hnil in Hl. simpl in Hl. lia.
Qed.

(** At most one decision to forward: once a bundle has been routed (and was not
    expired), routing it again through the same router never forwards it, as
    long as its record is not cleaned up.  This also covers bundles that were
    held back for later delivery. *)
Theorem epidemic_forwards_once b current topo now inst r later current' topo' inst' :
  let (r1, d) := epidemic_route b current topo now inst r in
  d ≠ EpExpired →
  let (r2, d') := epidemic_route b current' topo' later inst' r1 in
  r2 = r1 ∧ is_forwarding d' = false ∧ (d' = EpExpired ∨ d' = Suppress SupDuplicate).
Proof.
  assert (∀ r1, have_seen (bundle_id b) r1 = true →
    let (r2, d') := epidemic_route b current' topo' later inst' r1 in
    r2 = r1 ∧ is_forwarding d' = false ∧ (d' = EpExpired ∨ d' = Suppress SupDuplicate)) as Hseen.
  { intros r1 Hs. unfold epidemic_route. destruct (bundle_is_expired later b); [by auto|].
    destruct (_ <? _); [by auto|]. rewrite Hs. by auto. }
  unfold epidemic_route at 1. destruct (bundle_is_expired now b); [done|].
  destruct (_ <? _); [done|].
  destruct (have_seen (bundle_id b) r) eqn:Hs; intros _; apply Hseen; [done|].
  unfold have_seen. simpl. by rewrite lookup_insert_eq, bool_decide_true.
Qed.

(** [cleanup_seen] forgets exactly the bundles first seen at least the timeout
    ago and counts them. *)
Lemma cleanup_seen_spec inst r id :
  let (r', n) := cleanup_seen inst r in
  (have_seen id r' = true ↔ ∃ s, seen_bundles r !! id = Some s ∧ seen_keep inst r s = true) ∧
  (n + seen_bundle_count r' = seen_bundle_count r)%nat.
Proof.
  unfold cleanup_seen, have_seen, seen_bundle_count. simpl. split.
  - rewrite bool_decide_eq_true. split.
    + intros [s [? ?]%map_lookup_filter_Some]. eauto.
    + intros (s & ? & ?). exists s. by apply map_lookup_filter_Some.
  - assert (size (filter (λ e, seen_keep inst r e.2 = true) (seen_bundles r)) <= size (seen_bundles r))%nat;
      [|lia]. apply map_subseteq_size, map_filter_subseteq.
Qed.
End EpidemicFacts.
