(* ===== verification/Expiration.v ===== *)
(** * Expiration and age-based priorities

    Models [indras-dtn/src/expiration.rs].  The standard library's durations
    are non-negative nanoseconds; converting them to chrono's is the parameter
    [Chrono] of the routing table. *)

From S2P Require Import Prelude Packet Bundle Custody Router.

Record ExpirationConfig : Type := {
  default_lifetime : Z;
  max_lifetime : Z;
  demotion_thresholds : list (Z * Priority);
  cleanup_interval : Z;
}.

Definition expiration_config_default : ExpirationConfig :=
  {| default_lifetime := from_secs 3600; max_lifetime := from_secs (86400 * 7);
     demotion_thresholds := [(from_secs 300, Normal); (from_secs 900, Low)];
     cleanup_interval := from_secs 60 |}.

Record ExpirationRecord : Type := {
  er_bundle_id : BundleId;
  er_created_at : Z;
  expires_at : Z;
  priority_at_creation : Priority;
}.

Record AgeManager : Type := {
  tracked : gmap BundleId ExpirationRecord;
  age_config : ExpirationConfig;
}.

Definition age_manager_new (c : ExpirationConfig) : AgeManager := {| tracked := ∅; age_config := c |}.

Definition set_tracked (t : gmap BundleId ExpirationRecord) (m : AgeManager) : AgeManager :=
  {| tracked := t; age_config := age_config m |}.

(** The lifetime a bundle is tracked with; [as u64] wraps a negative one. *)
Definition capped_lifetime (life : Z) (m : AgeManager) : Z :=
  Z.min (from_millis (wrap_u64 (num_milliseconds life))) (max_lifetime (age_config m)).

Definition track `{Chrono} {I : Type} (b : Bundle I) (m : AgeManager) : AgeManager :=
  let created_at := packet_created_at (packet b) in
  let expires := created_at + default (from_secs 3600) (chrono_from_std (capped_lifetime (lifetime b) m)) in
  set_tracked (<[bundle_id b :=
    {| er_bundle_id := bundle_id b; er_created_at := created_at; expires_at := expires;
       priority_at_creation := priority (packet b) |}]> (tracked m)) m.

Definition untrack (id : BundleId) (m : AgeManager) : AgeManager :=
  set_tracked (delete id (tracked m)) m.

Definition age_is_expired (now : Z) (id : BundleId) (m : AgeManager) : bool :=
  match tracked m !! id with
  | Some r => expires_at r <? now
  | None => false
  end.

(** One round of the loop over the thresholds. *)
Definition demote (age : Z) (effective : Priority) (t : Z * Priority) : Priority :=
  if (t.1 <=? age) && priority_ltb t.2 effective then t.2 else effective.

Definition age_effective_priority {I : Type} (now : Z) (b : Bundle I) (m : AgeManager) : Priority :=
  let age := from_millis (Z.max 0 (num_milliseconds (bundle_age now b))) in
  foldl (demote age) (priority (packet b)) (demotion_thresholds (age_config m)).

Definition age_get_expired (now : Z) (m : AgeManager) : list BundleId :=
  er_bundle_id <$> retain (λ r, expires_at r <? now) (map_to_list (tracked m)).*2.

Definition age_time_remaining (now : Z) (id : BundleId) (m : AgeManager) : option Z :=
  r ← tracked m !! id;
  if expires_at r <? now then None
  else Some (from_millis (Z.max 0 (num_milliseconds (expires_at r - now)))).

Definition tracked_age (now : Z) (id : BundleId) (m : AgeManager) : option Z :=
  r ← tracked m !! id;
  Some (from_millis (Z.max 0 (num_milliseconds (now - er_created_at r)))).

Definition age_cleanup (now : Z) (m : AgeManager) : AgeManager * list BundleId :=
  let expired := age_get_expired now m in
  (set_tracked (foldl (λ t id, delete id t) (tracked m) expired) m, expired).

Definition tracked_count (m : AgeManager) : nat := size (tracked m).

Definition is_tracked (id : BundleId) (m : AgeManager) : bool :=
  bool_decide (is_Some (tracked m !! id)).

Definition expiring_soon (now threshold : Z) (m : AgeManager) : list BundleId :=
  omap (λ r, remaining ← age_time_remaining now (er_bundle_id r) m;
             if remaining <=? threshold then Some (er_bundle_id r) else None)
    (map_to_list (tracked m)).*2.

Definition by_expiration (m : AgeManager) : list BundleId :=
  (sort_by (by_key snd) ((λ r, (er_bundle_id r, expires_at r)) <$> (map_to_list (tracked m)).*2)).*1.

(** ** Properties *)

Definition age_ok (m : AgeManager) : Prop :=
  ∀ id r, tracked m !! id = Some r → er_bundle_id r = id.

Lemma age_ok_new c : age_ok (age_manager_new c).
Proof. intros id r. simpl. by rewrite lookup_empty. Qed.

Lemma age_ok_track `{Chrono} {I : Type} (b : Bundle I) m : age_ok m → age_ok (track b m).
Proof.
  intros Hok id r. simpl. rewrite lookup_insert. case_decide as Hid; [by intros [= <-]|apply Hok].
Qed.

Lemma age_ok_untrack id m : age_ok m → age_ok (untrack id m).
Proof. intros Hok k r. simpl. rewrite lookup_delete. case_decide; [done|apply Hok]. Qed.

Lemma age_ok_cleanup now m : age_ok m → age_ok (age_cleanup now m).1.
Proof. intros Hok k r. simpl. rewrite delete_all_lookup. case_decide; [done|apply Hok]. Qed.

Lemma elem_of_get_expired now m id :
  age_ok m → id ∈ age_get_expired now m ↔ age_is_expired now id m = true.
Proof.
  intros Hok. unfold age_get_expired, age_is_expired.
  rewrite (elem_of_filed er_bundle_id (tracked m) Hok). split.
  - by intros (r & -> & ?).
  - destruct (tracked m !! id) as [r|]; [|done]. eauto.
Qed.

Lemma age_time_remaining_None now m id :
  age_time_remaining now id m = None ↔ is_tracked id m = false ∨ age_is_expired now id m = true.
Proof.
  unfold age_time_remaining, age_is_expired. rewrite <- not_true_iff_false. unfold is_tracked.
  rewrite bool_decide_eq_true, <- not_eq_None_Some.
  destruct (tracked m !! id) as [r|]; simpl; [|naive_solver].
  destruct (expires_at r <? now); naive_solver.
Qed.

(** The age manager tells the truth about what it tracks.  The expired bundles
    are those whose deadline has passed; a time is reported exactly for the
    tracked ones that have not expired; cleaning up forgets exactly the
    expired ones; and [by_expiration] lists every tracked bundle once, the
    earliest deadline first. *)
Theorem age_manager_spec now m id :
  age_ok m →
  (id ∈ age_get_expired now m ↔ age_is_expired now id m = true) ∧
  (is_Some (age_time_remaining now id m) ↔ is_tracked id m = true ∧ age_is_expired now id m = false) ∧
  (let (m', removed) := age_cleanup now m in
   removed = age_get_expired now m ∧
   tracked m' !! id = (if age_is_expired now id m then None else tracked m !! id)) ∧
  NoDup (by_expiration m) ∧ (id ∈ by_expiration m ↔ is_tracked id m = true) ∧
  StronglySorted (λ a b, ∀ ra rb, tracked m !! a = Some ra → tracked m !! b = Some rb →
                         expires_at ra <= expires_at rb) (by_expiration m).
Proof.
  intros Hok. pose proof (elem_of_get_expired now m id Hok) as Hexp.
  set (l := (λ r, (er_bundle_id r, expires_at r)) <$> (map_to_list (tracked m)).*2).
  assert (l.*1 = (map_to_list (tracked m)).*1) as Hl.
  { subst l. rewrite <- list_fmap_compose. by apply (filed_fst er_bundle_id). }
  assert (by_expiration m ≡ₚ (map_to_list (tracked m)).*1) as Hperm
    by (unfold by_expiration; fold l; by rewrite sort_by_perm, Hl).
  split_and!.
  - done.
  - rewrite <- not_eq_None_Some, age_time_remaining_None.
    destruct (is_tracked id m), (age_is_expired now id m); naive_solver.
  - unfold age_cleanup. split; [done|]. simpl. rewrite delete_all_lookup.
    destruct (age_is_expired now id m); case_decide; naive_solver.
  - rewrite Hperm. apply NoDup_fst_map_to_list.
  - rewrite Hperm. unfold is_tracked. rewrite bool_decide_eq_true, list_elem_of_fmap. split.
    + intros ([k r] & -> & Hin%elem_of_map_to_list). by exists r.
    + intros [r Hr]. exists (id, r). by rewrite elem_of_map_to_list.
  - unfold by_expiration. fold l.
    assert (∀ p, p ∈ sort_by (by_key snd) l → ∃ r, tracked m !! p.1 = Some r ∧ expires_at r = p.2) as Hin.
    { intros p. rewrite sort_by_perm. subst l. intros (r & -> & ([k r'] & -> & Hk)%list_elem_of_fmap)%list_elem_of_fmap.
      apply elem_of_map_to_list in Hk. simpl. rewrite (Hok k r' Hk). eauto. }
    pose proof (sort_by_sorted (by_key (snd : BundleId * Z → Z)) l) as Hs.
    induction Hs as [|p ps Hs IH Hall]; simpl; constructor.
    + apply IH. intros q Hq. apply Hin. by right.
    + apply Forall_forall. intros q (q' & -> & Hq)%list_elem_of_fmap ra rb Ha Hb.
      pose proof (proj1 (Forall_forall _ ps) Hall q' Hq) as Hle. unfold by_key in Hle.
      destruct (Hin p) as (r1 & Hr1 & He1); [by left|]. destruct (Hin q') as (r2 & Hr2 & He2); [by right|].
      rewrite Ha in Hr1. rewrite Hb in Hr2. simplify_eq. lia.
Qed.

(** ** Demotion *)

Lemma demote_foldl age l p q :
  priority_leb q (foldl (demote age) p l) = true ↔
  priority_leb q p = true ∧ ∀ t d, (t, d) ∈ l → t <= age → priority_leb q d = true.
Proof.
  revert p. induction l as [|[t d] l IH]; intros p; simpl.
  { split; [|tauto]. intros Hq. split; [done|]. by intros ? ? ?%elem_of_nil. }
  rewrite IH. setoid_rewrite elem_of_cons. unfold demote, priority_ltb, priority_leb. simpl.
  destruct (t <=? age) eqn:Ht; simpl.
  - destruct (priority_rank d <? priority_rank p) eqn:Hd; split.
    + intros [Hq Hl]. split; [lia|]. intros t' d' [[= -> ->]|Hin]; eauto.
    + intros [Hq Hl]. split; [apply (Hl t); [by left|lia]|]. eauto.
    + intros [Hq Hl]. split; [lia|]. intros t' d' [[= -> ->]|Hin]; [lia|eauto].
    + intros [Hq Hl]. split; [done|]. eauto.
  - split; intros [Hq Hl]; (split; [done|]); [|by eauto].
    intros t' d' [[= -> ->]|Hin]; [lia|eauto].
Qed.

(** Demotion computes the least priority that applies, whatever the order of
    the thresholds: the effective priority is at least [q] exactly when the
    bundle's own is and so is that of every threshold its age has reached.  It
    never exceeds the bundle's own priority and never rises with age. *)
Theorem effective_priority_spec {I : Type} (b : Bundle I) m now later q :
  let age := from_millis (Z.max 0 (num_milliseconds (bundle_age now b))) in
  (priority_leb q (age_effective_priority now b m) = true ↔
   priority_leb q (priority (packet b)) = true ∧
   ∀ t d, (t, d) ∈ demotion_thresholds (age_config m) → t <= age → priority_leb q d = true) ∧
  priority_leb (age_effective_priority now b m) (priority (packet b)) = true ∧
  (now <= later →
   priority_leb (age_effective_priority later b m) (age_effective_priority now b m) = true).
Proof.
  intros age. unfold age_effective_priority. fold age. split_and!.
  - apply demote_foldl.
  - apply (demote_foldl age (demotion_thresholds (age_config m))). unfold priority_leb. lia.
  - intros Hle. apply demote_foldl.
    pose proof (proj1 (demote_foldl (from_millis (Z.max 0 (num_milliseconds (bundle_age later b))))
      (demotion_thresholds (age_config m)) (priority (packet b))
      (foldl (demote (from_millis (Z.max 0 (num_milliseconds (bundle_age later b)))))
         (priority (packet b)) (demotion_thresholds (age_config m))))) as Hself.
    destruct Hself as [Hp Ht]; [unfold priority_leb; lia|]. split; [done|].
    intros t d Hin Hage. apply (Ht t d Hin).
    assert (num_milliseconds (bundle_age now b) <= num_milliseconds (bundle_age later b)) as Hmono.
    { unfold num_milliseconds, bundle_age. apply Z.quot_le_mono; lia. }
    subst age. unfold from_millis in *. lia.
Qed.
