(* ===== verification/Prophet.v ===== *)
(** * Probabilistic routing

    Models [indras-dtn/src/prophet.rs] in binary64.  [transitive_update] and
    [age_all] release a lock and take another one: what each does under one
    lock is a definition of its own ([transitive_loop], [set_last_aging],
    [age_sweep]), and the invariant allows other calls in between.  [now] is
    the monotonic clock in nanoseconds, whose [duration_since] saturates at
    zero. *)

From Stdlib Require Import Floats.SpecFloat.
From S2P Require Import Prelude Float Bundle.

Record ProphetConfig : Type := {
  initial_probability : f64;
  aging_constant : f64;
  transitivity_constant : f64;
  decay_interval : Z;
  max_probability : f64;
  min_probability : f64;
}.

Definition prophet_config_default : ProphetConfig :=
  {| initial_probability := f64_ratio 75 100; aging_constant := f64_ratio 98 100;
     transitivity_constant := f64_ratio 25 100; decay_interval := from_secs 3600;
     max_probability := f64_ratio 99 100; min_probability := f64_ratio 1 100 |}.

Record ProbabilityEntry : Type := {
  probability : f64;
  last_updated : Z;
  last_encounter : option Z;
}.

Definition entry_new (now : Z) (p : f64) : ProbabilityEntry :=
  {| probability := p; last_updated := now; last_encounter := None |}.

Definition entry_with_encounter (now : Z) (p : f64) : ProbabilityEntry :=
  {| probability := p; last_updated := now; last_encounter := Some now |}.

Section Prophet.
Context {I : Type} `{Countable I}.

Record ProphetState : Type := {
  prophet_local_id : I;
  probabilities : gmap I ProbabilityEntry;
  prophet_config : ProphetConfig;
  last_aging : Z;
}.

Definition prophet_new (now : Z) (local_id : I) (c : ProphetConfig) : ProphetState :=
  {| prophet_local_id := local_id; probabilities := ∅; prophet_config := c; last_aging := now |}.

Definition prophet_with_defaults (now : Z) (local_id : I) : ProphetState :=
  prophet_new now local_id prophet_config_default.

Definition set_probabilities (t : gmap I ProbabilityEntry) (s : ProphetState) : ProphetState :=
  {| prophet_local_id := prophet_local_id s; probabilities := t;
     prophet_config := prophet_config s; last_aging := last_aging s |}.

Definition set_last_aging (t : Z) (s : ProphetState) : ProphetState :=
  {| prophet_local_id := prophet_local_id s; probabilities := probabilities s;
     prophet_config := prophet_config s; last_aging := t |}.

(** The probability kept in a table; 0 for an unknown destination. *)
Definition table_probability (t : gmap I ProbabilityEntry) (destination : I) : f64 :=
  default f64_zero (probability <$> t !! destination).

Definition get_probability (destination : I) (s : ProphetState) : f64 :=
  table_probability (probabilities s) destination.

Definition all_probabilities (s : ProphetState) : list (I * f64) :=
  (λ p, (p.1, probability p.2)) <$> map_to_list (probabilities s).

(** [p + (1 - p) * gain], capped. *)
Definition raise (c : ProphetConfig) (p gain : f64) : f64 :=
  f64_min (f64_add p (f64_mul (f64_sub f64_one p) gain)) (max_probability c).

Definition prophet_encounter (now : Z) (peer : I) (s : ProphetState) : ProphetState :=
  if bool_decide (peer = prophet_local_id s) then s
  else
    let c := prophet_config s in
    let new_prob :=
      match probabilities s !! peer with
      | Some entry => raise c (probability entry) (initial_probability c)
      | None => initial_probability c
      end in
    set_probabilities (<[peer := entry_with_encounter now new_prob]> (probabilities s)) s.

(** One round of the loop over the intermediary's table. *)
Definition transitive_step (now : Z) (c : ProphetConfig) (local_id intermediary : I)
    (p_to_intermediary : f64) (probs : gmap I ProbabilityEntry) (d : I * f64)
    : gmap I ProbabilityEntry :=
  if bool_decide (d.1 = local_id) || bool_decide (d.1 = intermediary) then probs
  else
    let p_old := table_probability probs d.1 in
    let transitive_prob := f64_mul (f64_mul p_to_intermediary d.2) (transitivity_constant c) in
    let p_capped := raise c p_old transitive_prob in
    if SFltb p_old p_capped then
      match probs !! d.1 with
      | Some entry =>
          <[d.1 := {| probability := p_capped; last_updated := now;
                      last_encounter := last_encounter entry |}]> probs
      | None => <[d.1 := entry_new now p_capped]> probs
      end
    else probs.

(** The loop, under the lock of the table; the probability of the intermediary
    was read before. *)
Definition transitive_loop (now : Z) (intermediary : I) (p_to_intermediary : f64) (intermediary_probs : list (I * f64))
    (s : ProphetState) : ProphetState :=
  set_probabilities
    (foldl (transitive_step now (prophet_config s) (prophet_local_id s) intermediary p_to_intermediary)
       (probabilities s) intermediary_probs) s.

Definition transitive_update (now : Z) (intermediary : I) (intermediary_probs : list (I * f64))
    (s : ProphetState) : ProphetState :=
  let p_to_intermediary := get_probability intermediary s in
  if SFleb p_to_intermediary (min_probability (prophet_config s)) then s
  else transitive_loop now intermediary p_to_intermediary intermediary_probs s.

Definition aged (c : ProphetConfig) (e : ProbabilityEntry) : f64 :=
  f64_mul (probability e) (aging_constant c).

(** The part of [age_all] under the lock of the table. *)
Definition age_sweep (now : Z) (s : ProphetState) : ProphetState :=
  let c := prophet_config s in
  let probs := probabilities s in
  let to_remove := fst <$> retain (λ p, SFltb (aged c p.2) (min_probability c)) (map_to_list probs) in
  let probs := foldl (λ t id, delete id t) probs to_remove in
  set_probabilities
    ((λ e, {| probability := aged c e; last_updated := now; last_encounter := last_encounter e |})
       <$> probs) s.

Definition age_all (now : Z) (s : ProphetState) : ProphetState :=
  if Z.max 0 (now - last_aging s) <? decay_interval (prophet_config s) then s
  else age_sweep now (set_last_aging now s).

(** Whether [Instant::now() - interval * 2] can be computed: the seconds of a
    [Duration] have 64 bits, those of an [Instant] (on Unix) 64 with a sign.
    Otherwise the source panics, before it changes anything. *)
Definition force_age_fits (now : Z) (s : ProphetState) : bool :=
  let back := decay_interval (prophet_config s) * 2 in
  (back <? 2 ^ 64 * from_secs 1) && (- 2 ^ 63 * from_secs 1 <=? now - back).

(** A call that returns.  The clock is read once to move the last aging back
    and once to age. *)
Definition force_age (now now' : Z) (s : ProphetState) : ProphetState :=
  age_all now' (set_last_aging (now - decay_interval (prophet_config s) * 2) s).

(** [Iterator::max_by] with a comparison: the last of the largest. *)
Definition max_by {A : Type} (cmp : A → A → comparison) (l : list A) : option A :=
  match l with
  | [] => None
  | x :: l => Some (foldl (λ x y, match cmp x y with Gt => x | _ => y end) x l)
  end.

Definition best_candidate (destination : I) (candidates : list I) (s : ProphetState) : option I :=
  let our_prob := get_probability destination s in
  best ← max_by (λ a b, cmp_or_equal (get_probability a s) (get_probability b s))
           (retain (λ c, negb (bool_decide (c = prophet_local_id s)) &&
                         negb (bool_decide (c = destination))) candidates);
  if SFltb our_prob (get_probability best s) then Some best else None.

Definition should_forward_to (destination candidate : I) (s : ProphetState) : bool :=
  if bool_decide (candidate = prophet_local_id s) || bool_decide (candidate = destination) then false
  else SFltb (get_probability destination s) (get_probability candidate s).

Definition known_destinations (s : ProphetState) : nat := size (probabilities s).

Definition prophet_clear (s : ProphetState) : ProphetState := set_probabilities ∅ s.

Record ProphetSummary : Type := {
  ps_node_id : I;
  ps_probabilities : list (I * f64);
}.

Definition summary_from_state (s : ProphetState) : ProphetSummary :=
  {| ps_node_id := prophet_local_id s; ps_probabilities := all_probabilities s |}.

(** ** Invariant *)

(** A configuration whose bounds are numbers and whose decay factor is finite
    and not zero. *)
Definition config_sane (c : ProphetConfig) : bool :=
  negb (is_nan (initial_probability c)) && negb (is_nan (max_probability c)) &&
  negb (is_nan (min_probability c)) && is_finite_nonzero (aging_constant c).

(** The node keeps no probability for itself, and every entry is a number. *)
Definition table_ok (local_id : I) (t : gmap I ProbabilityEntry) : Prop :=
  t !! local_id = None ∧ ∀ i e, t !! i = Some e → is_nan (probability e) = false.

Definition prophet_ok (s : ProphetState) : Prop := table_ok (prophet_local_id s) (probabilities s).

(** What a node does with its table: whole calls, and the parts of calls that
    others come in between, with whatever was read before. *)
Inductive prophet_step : ProphetState → ProphetState → Prop :=
| ps_encounter s now peer : prophet_step s (prophet_encounter now peer s)
| ps_transitive s now via l : prophet_step s (transitive_update now via l s)
| ps_age s now : prophet_step s (age_all now s)
| ps_force s now now' : force_age_fits now s = true → prophet_step s (force_age now now' s)
| ps_transitive_loop s now via p l : prophet_step s (transitive_loop now via p l s)
| ps_last_aging s t : prophet_step s (set_last_aging t s)
| ps_age_sweep s now : prophet_step s (age_sweep now s)
| ps_clear s : prophet_step s (prophet_clear s).

Lemma table_probability_number local_id t i :
  table_ok local_id t → is_nan (table_probability t i) = false.
Proof.
  intros [_ Hn]. unfold table_probability. destruct (t !! i) as [e|] eqn:E; [by apply (Hn i)|done].
Qed.

Lemma table_ok_insert local_id t i e :
  i ≠ local_id → is_nan (probability e) = false → table_ok local_id t → table_ok local_id (<[i:=e]> t).
Proof.
  intros Hi He [Hl Hn]. split; [by rewrite lookup_insert_ne|].
  intros j e'. rewrite lookup_insert. case_decide; [by intros [= <-]|apply Hn].
Qed.

Lemma config_sane_max c : config_sane c = true → is_nan (max_probability c) = false.
Proof. unfold config_sane. by destruct (is_nan (initial_probability c)), (is_nan (max_probability c)). Qed.

Lemma raise_le c p g :
  config_sane c = true →
  is_nan (raise c p g) = false ∧ SFltb (max_probability c) (raise c p g) = false.
Proof. intros Hc. by apply f64_min_le, config_sane_max. Qed.

Lemma transitive_step_ok now c local_id via pv t d :
  config_sane c = true → table_ok local_id t →
  table_ok local_id (transitive_step now c local_id via pv t d).
Proof.
  intros Hc Ht. unfold transitive_step.
  case_bool_decide as Hl; [done|]. case_bool_decide; [done|]. cbn [orb].
  destruct (SFltb _ _); [|done].
  assert (∀ p, is_nan (raise c p (f64_mul (f64_mul pv d.2) (transitivity_constant c))) = false)
    as Hr by (intros p; by apply raise_le).
  destruct (t !! d.1); apply table_ok_insert; try done; apply Hr.
Qed.

Lemma age_sweep_lookup now s i :
  let c := prophet_config s in
  probabilities (age_sweep now s) !! i =
    e ← probabilities s !! i;
    if SFltb (aged c e) (min_probability c) then None
    else Some {| probability := aged c e; last_updated := now; last_encounter := last_encounter e |}.
Proof.
  intros c. unfold age_sweep. fold c. cbn [set_probabilities probabilities].
  rewrite lookup_fmap, delete_all_lookup.
  destruct (probabilities s !! i) as [e|] eqn:E; cbn [mbind option_bind].
  - assert (i ∈ (retain (λ p, SFltb (aged c p.2) (min_probability c)) (map_to_list (probabilities s))).*1
            ↔ SFltb (aged c e) (min_probability c) = true) as Hin.
    { rewrite list_elem_of_fmap. split.
      - intros ([j e'] & -> & [Hm Hp]%elem_of_retain). apply elem_of_map_to_list in Hm.
        cbn [fst snd] in *. congruence.
      - intros Hp. exists (i, e). split; [done|]. apply elem_of_retain. by rewrite elem_of_map_to_list. }
    case_decide as Hi; [by rewrite (proj1 Hin Hi)|].
    destruct (SFltb (aged c e) (min_probability c)); [tauto|done].
  - by case_decide.
Qed.

Lemma age_all_lookup now s i :
  let c := prophet_config s in
  Z.max 0 (now - last_aging s) <? decay_interval c = false →
  probabilities (age_all now s) !! i =
    e ← probabilities s !! i;
    if SFltb (aged c e) (min_probability c) then None
    else Some {| probability := aged c e; last_updated := now; last_encounter := last_encounter e |}.
Proof. intros c Hd. unfold age_all. fold c. rewrite Hd. exact (age_sweep_lookup now (set_last_aging now s) i). Qed.

Lemma aged_number c e :
  config_sane c = true → is_nan (probability e) = false → is_nan (aged c e) = false.
Proof.
  intros Hc He. apply f64_mul_number; [done|]. unfold config_sane in Hc.
  by apply andb_true_iff in Hc as [_ Hc].
Qed.

Lemma age_sweep_ok now s :
  config_sane (prophet_config s) = true → prophet_ok s → prophet_ok (age_sweep now s).
Proof.
  intros Hc [Hl Hn]. pose proof (λ i, age_sweep_lookup now s i) as Hlk. cbn zeta in Hlk.
  split; change (prophet_local_id (age_sweep now s)) with (prophet_local_id s); [by rewrite Hlk, Hl|].
  intros i e. rewrite Hlk. destruct (probabilities s !! i) as [e0|] eqn:E; [|done]. cbn [mbind option_bind].
  destruct (SFltb _ _); [done|]. intros [= <-]. cbn [probability]. by apply aged_number, (Hn i).
Qed.

Lemma age_all_ok now s :
  config_sane (prophet_config s) = true → prophet_ok s → prophet_ok (age_all now s).
Proof. intros Hc Hok. unfold age_all. destruct (_ <? _); [done|]. by apply age_sweep_ok. Qed.

Lemma transitive_loop_ok now via p l s :
  config_sane (prophet_config s) = true → prophet_ok s → prophet_ok (transitive_loop now via p l s).
Proof.
  intros Hc Hok. unfold prophet_ok, transitive_loop. cbn [set_probabilities prophet_local_id probabilities].
  apply foldl_invariant; [|done]. intros t d Ht. by apply transitive_step_ok.
Qed.

Lemma transitive_update_ok now via l s :
  config_sane (prophet_config s) = true → prophet_ok s → prophet_ok (transitive_update now via l s).
Proof. intros Hc Hok. unfold transitive_update. destruct (SFleb _ _); [done|]. by apply transitive_loop_ok. Qed.

Lemma encounter_ok now peer s :
  config_sane (prophet_config s) = true → prophet_ok s → prophet_ok (prophet_encounter now peer s).
Proof.
  intros Hc Hok. unfold prophet_encounter. case_bool_decide; [done|].
  apply table_ok_insert; [done| |done]. cbn [entry_with_encounter probability].
  destruct (probabilities s !! peer); [by apply raise_le|].
  unfold config_sane in Hc. by destruct (is_nan (initial_probability (prophet_config s))).
Qed.

Lemma prophet_step_config s s' : prophet_step s s' → prophet_config s' = prophet_config s.
Proof.
  intros []; unfold prophet_encounter, transitive_update, force_age, age_all, transitive_loop, age_sweep;
    cbn [set_last_aging prophet_config last_aging]; repeat case_match; done.
Qed.

Lemma prophet_step_ok s s' :
  prophet_step s s' → config_sane (prophet_config s) = true → prophet_ok s → prophet_ok s'.
Proof.
  intros Hstep Hc Hok. destruct Hstep.
  - by apply encounter_ok.
  - by apply transitive_update_ok.
  - by apply age_all_ok.
  - by apply age_all_ok.
  - by apply transitive_loop_ok.
  - done.
  - by apply age_sweep_ok.
  - split; [apply lookup_empty|]. intros i e. cbn. by rewrite lookup_empty.
Qed.

Lemma prophet_new_ok now i c : prophet_ok (prophet_new now i c).
Proof. split; [apply lookup_empty|]. intros j e. cbn. by rewrite lookup_empty. Qed.

(** C29. For a configuration whose probabilities are numbers (not NaN) and whose
    aging constant is finite and not zero: whatever encounters, exchanged
    tables (of any content), agings and interleavings of them a node goes
    through, it keeps no delivery probability for itself and every probability
    it reports is a number, never NaN. *)
Theorem prophet_invariant now i c s :
  config_sane c = true → rtc prophet_step (prophet_new now i c) s →
  prophet_config s = c ∧ prophet_ok s ∧ ∀ d, is_nan (get_probability d s) = false.
Proof.
  intros Hc Hrtc.
  assert (prophet_config s = c ∧ prophet_ok s) as [Hcs Hok].
  { revert Hrtc. generalize (prophet_new_ok now i c).
    assert (prophet_config (prophet_new now i c) = c) as Hi by done. revert Hi.
    generalize (prophet_new now i c) as s0. intros s0 Hi H0 Hrtc.
    induction Hrtc as [s|s1 s2 s3 Hstep _ IH]; [done|]. apply IH.
    - rewrite <- Hi. by apply prophet_step_config.
    - apply (prophet_step_ok s1); [done|by rewrite Hi|done]. }
  split_and!; [done|done|]. intros d. by apply (table_probability_number (prophet_local_id s)).
Qed.

(** ** The operations *)

Lemma transitive_step_mono now c local_id via pv t d i :
  config_sane c = true → table_ok local_id t →
  let t' := transitive_step now c local_id via pv t d in
  SFltb (table_probability t' i) (table_probability t i) = false ∧
  (i = local_id ∨ i = via ∨ i ≠ d.1 → t' !! i = t !! i) ∧
  (t' !! i = t !! i ∨ SFltb (max_probability c) (table_probability t' i) = false).
Proof.
  intros Hc Ht t'. subst t'. unfold transitive_step.
  case_bool_decide as Hl; cbn [orb]; [rewrite SFltb_irrefl; auto|].
  case_bool_decide as Hv; [rewrite SFltb_irrefl; auto|].
  set (p := raise c _ _).
  assert (is_nan p = false ∧ SFltb (max_probability c) p = false) as [Hp Hm] by by apply raise_le.
  clearbody p. destruct (SFltb (table_probability t d.1) p) eqn:Hlt; [|rewrite SFltb_irrefl; auto].
  assert (∀ e, probability e = p →
    SFltb (table_probability (<[d.1:=e]> t) i) (table_probability t i) = false ∧
    (i = local_id ∨ i = via ∨ i ≠ d.1 → <[d.1:=e]> t !! i = t !! i) ∧
    (<[d.1:=e]> t !! i = t !! i ∨
     SFltb (max_probability c) (table_probability (<[d.1:=e]> t) i) = false)) as Hgen.
  { intros e He. destruct (decide (i = d.1)) as [->|Hi].
    - unfold table_probability at 1 3. rewrite lookup_insert_eq. cbn. rewrite He.
      split_and!; [|naive_solver|by right].
      destruct (SFltb p _) eqn:Hc2; [|done].
      apply SFltb_key in Hlt; [|by apply (SFltb_nan _ _ Hlt)|done].
      apply SFltb_key in Hc2; [|done|by apply (table_probability_number local_id)].
      unfold key_lt in *. lia.
    - unfold table_probability. rewrite lookup_insert_ne by done. rewrite SFltb_irrefl. auto. }
  destruct (t !! d.1); apply Hgen; done.
Qed.

Lemma transitive_fold now c local_id via pv l t i :
  config_sane c = true → table_ok local_id t →
  let t' := foldl (transitive_step now c local_id via pv) t l in
  SFltb (table_probability t' i) (table_probability t i) = false ∧
  (i = local_id ∨ i = via ∨ i ∉ l.*1 → t' !! i = t !! i) ∧
  (t' !! i = t !! i ∨ SFltb (max_probability c) (table_probability t' i) = false).
Proof.
  intros Hc. revert t. induction l as [|d l IH]; intros t Ht; cbn [foldl].
  { rewrite SFltb_irrefl. auto. }
  pose proof (transitive_step_mono now c local_id via pv t d i Hc Ht) as (Hm1 & Hf1 & Hb1).
  pose proof (transitive_step_ok now c local_id via pv t d Hc Ht) as Ht1.
  set (t1 := transitive_step _ _ _ _ _ _ _) in *.
  destruct (IH t1 Ht1) as (Hm2 & Hf2 & Hb2). split_and!.
  - apply (SFltb_ge_trans _ (table_probability t1 i)); try done;
      apply (table_probability_number local_id); try done.
    apply foldl_invariant; [|done]. intros. by apply transitive_step_ok.
  - intros Hi. rewrite Hf2, Hf1; [done| |];
      (destruct Hi as [?|[?|Hi]]; [tauto|tauto|]; right; right).
    + intros ->. apply Hi. left.
    + intros Hin. apply Hi. by right.
  - destruct Hb2 as [Hb2|Hb2]; [|by right]. destruct Hb1 as [Hb1|Hb1]; [left; congruence|right].
    unfold table_probability in *. by rewrite Hb2.
Qed.

(** Learning from an encountered peer's table only ever helps: no probability
    falls, the node's own entry and the intermediary's are untouched, so is
    every destination the table does not name, and what changes stays within
    the configured maximum.  A node that barely knows the intermediary learns
    nothing. *)
Theorem transitive_update_spec now via l s i :
  config_sane (prophet_config s) = true → prophet_ok s →
  let s' := transitive_update now via l s in
  SFltb (get_probability i s') (get_probability i s) = false ∧
  (i = prophet_local_id s ∨ i = via ∨ i ∉ l.*1 → probabilities s' !! i = probabilities s !! i) ∧
  (probabilities s' !! i = probabilities s !! i ∨
   SFltb (max_probability (prophet_config s)) (get_probability i s') = false) ∧
  (SFleb (get_probability via s) (min_probability (prophet_config s)) = true → s' = s).
Proof.
  intros Hc Hok s'. subst s'. unfold transitive_update. cbv zeta.
  destruct (SFleb _ _) eqn:Hmin; [rewrite SFltb_irrefl; auto|].
  destruct (transitive_fold now (prophet_config s) (prophet_local_id s) via (get_probability via s)
    l (probabilities s) i Hc Hok) as (Hm & Hf & Hb).
  by split_and!.
Qed.

(** Aging decays every entry once per interval and drops exactly the entries
    whose decayed value falls below the minimum, so that right after it no
    entry is below the minimum; forcing it always ages. *)
Theorem age_all_spec now later s i :
  now <= later → 0 <= decay_interval (prophet_config s) →
  let c := prophet_config s in
  let s' := force_age now later s in
  last_aging s' = later ∧
  probabilities s' !! i =
    (e ← probabilities s !! i;
     if SFltb (aged c e) (min_probability c) then None
     else Some {| probability := aged c e; last_updated := later;
                  last_encounter := last_encounter e |}) ∧
  (∀ e, probabilities s' !! i = Some e → SFltb (probability e) (min_probability c) = false) ∧
  (later - last_aging s < decay_interval c → 0 < decay_interval c → age_all later s = s).
Proof.
  intros Hle Hd c s'. subst s'. unfold force_age.
  set (s0 := set_last_aging _ s).
  assert (Z.max 0 (later - last_aging s0) <? decay_interval (prophet_config s0) = false) as Hage.
  { apply Z.ltb_ge. cbn. lia. }
  pose proof (age_all_lookup later s0 i Hage) as Hlk. cbn zeta in Hlk.
  change (prophet_config s0) with c in Hlk. change (probabilities s0) with (probabilities s) in Hlk.
  split_and!.
  - unfold age_all. by rewrite Hage.
  - done.
  - intros e. rewrite Hlk. destruct (probabilities s !! i) as [e0|]; [|done]. cbn [mbind option_bind].
    destruct (SFltb _ _) eqn:Hlt; [done|]. by intros [= <-].
  - intros Hi Hp. unfold age_all. fold c. rewrite (proj2 (Z.ltb_lt _ _)); [done|lia].
Qed.

Lemma max_by_spec {A} (f : A → f64) (l : list A) :
  (∀ x, x ∈ l → is_nan (f x) = false) →
  match max_by (λ a b, cmp_or_equal (f a) (f b)) l with
  | None => l = []
  | Some b => b ∈ l ∧ ∀ x, x ∈ l → SFltb (f b) (f x) = false
  end.
Proof.
  intros Hn. destruct l as [|x l]; [done|]. cbn [max_by]. revert x Hn.
  induction l as [|y l IH]; intros x Hn; cbn [foldl].
  { split; [left|]. intros z ->%list_elem_of_singleton. apply SFltb_irrefl. }
  set (w := match _ with Gt => x | _ => y end).
  assert (SFltb (f w) (f x) = false ∧ SFltb (f w) (f y) = false ∧ (w = x ∨ w = y)) as (Hx & Hy & Hw).
  { subst w. unfold cmp_or_equal.
    destruct (SFcompare (f x) (f y)) as [[]|] eqn:E; cbn; split_and!; auto using SFltb_irrefl;
      unfold SFltb; rewrite ?(SFcompare_swap (f x) (f y)), E; done. }
  assert (∀ z, z ∈ w :: l → z ∈ x :: y :: l) as Hsub
    by (intros z; rewrite !elem_of_cons; naive_solver).
  destruct (IH w (λ z Hz, Hn z (Hsub z Hz))) as [Hin Hmax].
  set (b := foldl _ w l) in *. split; [by apply Hsub|].
  assert (is_nan (f b) = false ∧ is_nan (f w) = false ∧ SFltb (f b) (f w) = false) as (Hb & Hfw & Hbw).
  { split_and!; [by apply Hn, Hsub|apply Hn, Hsub; left|apply Hmax; left]. }
  intros z [->|[->|Hz]%elem_of_cons]%elem_of_cons.
  - apply (SFltb_ge_trans _ (f w)); try done. apply Hn. left.
  - apply (SFltb_ge_trans _ (f w)); try done. apply Hn. right. left.
  - apply Hmax. by right.
Qed.

Lemma should_forward_spec d c s :
  should_forward_to d c s = true ↔
  c ≠ prophet_local_id s ∧ c ≠ d ∧ SFltb (get_probability d s) (get_probability c s) = true.
Proof. unfold should_forward_to. repeat case_bool_decide; cbn [orb]; naive_solver. Qed.

(** Choosing the best candidate agrees with judging candidates one by one:
    one is chosen exactly when some candidate should be forwarded to, the
    chosen one should be, and no candidate that should be has a higher
    probability. *)
Theorem best_candidate_spec d cands s :
  prophet_ok s →
  match best_candidate d cands s with
  | Some b => b ∈ cands ∧ should_forward_to d b s = true ∧
      ∀ c, c ∈ cands → should_forward_to d c s = true →
        SFltb (get_probability b s) (get_probability c s) = false
  | None => ∀ c, c ∈ cands → should_forward_to d c s = false
  end.
Proof.
  intros Hok. unfold best_candidate.
  assert (∀ x, is_nan (get_probability x s) = false) as Hn
    by (intros; by apply (table_probability_number (prophet_local_id s))).
  set (l := retain _ cands).
  assert (∀ c, c ∈ l ↔ c ∈ cands ∧ c ≠ prophet_local_id s ∧ c ≠ d) as Hl.
  { intros c. subst l. rewrite elem_of_retain, andb_true_iff, !negb_true_iff, !bool_decide_eq_false. done. }
  pose proof (max_by_spec (λ x, get_probability x s) l (λ x _, Hn x)) as Hmax.
  destruct (max_by _ l) as [b|]; cbn [mbind option_bind].
  - destruct Hmax as [Hb Hmax]. destruct (SFltb _ (get_probability b s)) eqn:Hlt.
    + apply Hl in Hb as (Hb & Hbl & Hbd). split_and!; [done|by apply should_forward_spec|].
      intros c Hc (Hcl & Hcd & _)%should_forward_spec. apply Hmax. by apply Hl.
    + intros c Hc. apply not_true_iff_false. intros (Hcl & Hcd & Hgt)%should_forward_spec.
      apply (SFltb_lt_trans _ _ (get_probability b s)) in Hgt; [congruence|done|].
      apply Hmax. by apply Hl.
  - intros c Hc. apply not_true_iff_false. intros (Hcl & Hcd & _)%should_forward_spec.
    assert (c ∈ l) as Hin by by apply Hl. rewrite Hmax in Hin. by apply elem_of_nil in Hin.
Qed.

(** A table that advertises NaN for a destination is not ignored: the cap
    turns the NaN into the configured maximum, so one exchange raises the
    destination from unknown to the highest probability. *)
Lemma transitive_nan now via d s :
  config_sane (prophet_config s) = true → prophet_ok s →
  d ≠ prophet_local_id s → d ≠ via → probabilities s !! d = None →
  SFltb f64_zero (max_probability (prophet_config s)) = true →
  SFleb (get_probability via s) (min_probability (prophet_config s)) = false →
  get_probability d (transitive_update now via [(d, S754_nan)] s) = max_probability (prophet_config s).
Proof.
  intros Hc Hok Hl Hv Hd Hmax Hmin. unfold transitive_update, transitive_loop. rewrite Hmin.
  unfold get_probability at 1. cbn [set_probabilities probabilities foldl].
  unfold transitive_step. rewrite !bool_decide_false by done. cbn [fst snd orb].
  assert (∀ p, raise (prophet_config s) p
    (f64_mul (f64_mul (get_probability via s) S754_nan) (transitivity_constant (prophet_config s)))
    = max_probability (prophet_config s)) as Hr.
  { intros p. unfold raise.
    assert (∀ x, f64_mul x S754_nan = S754_nan) as -> by by intros [].
    assert (∀ x, f64_mul S754_nan x = S754_nan) as -> by done.
    assert (∀ x, f64_mul x S754_nan = S754_nan) as -> by by intros [].
    assert (∀ x, f64_add x S754_nan = S754_nan) as -> by by intros []. done. }
  unfold table_probability at 1 2. rewrite Hr, Hd. cbn [option_fmap option_map default fmap].
  change (id f64_zero) with f64_zero. rewrite Hmax. unfold table_probability. by rewrite lookup_insert_eq.
Qed.
End Prophet.
