(* ===== verification/Dtn.v ===== *)
(** * Strategies and configuration of delay-tolerant networking

    Models [indras-dtn/src/strategy.rs] and the configuration of
    [indras-dtn/src/lib.rs]. *)

From Stdlib Require Import Strings.String Floats.SpecFloat.
From S2P Require Import Prelude Heat Packet Bundle Custody Epidemic Expiration.

(** ** Strategies *)

Inductive DtnStrategy : Type :=
| StoreAndForward
| Epidemic
| SprayAndWait (copies : Z)
| Prophet.

#[global] Instance DtnStrategy_eq_dec : EqDecision DtnStrategy.
Proof. solve_decision. Defined.

Definition dtn_strategy_default : DtnStrategy := SprayAndWait 4.

Definition initial_copies (s : DtnStrategy) : Z :=
  match s with SprayAndWait copies => copies | Epidemic => 8 | _ => 1 end.

Definition is_epidemic (s : DtnStrategy) : bool :=
  match s with Epidemic | SprayAndWait _ => true | _ => false end.

Inductive StrategyCondition : Type :=
| LowConnectivity (threshold : f32)
| PriorityAtLeast (p : Priority)
| AgeAbove (d : Z)
| DestinationUnreachable (d : Z)
| Always.

Record StrategyRule : Type := { condition : StrategyCondition; strategy : DtnStrategy }.

Definition strategy_rule_new (c : StrategyCondition) (s : DtnStrategy) : StrategyRule :=
  {| condition := c; strategy := s |}.

Record StrategySelector : Type := { sel_default : DtnStrategy; rules : list StrategyRule }.

Definition selector_new (d : DtnStrategy) : StrategySelector := {| sel_default := d; rules := [] |}.

Definition add_rule (r : StrategyRule) (s : StrategySelector) : StrategySelector :=
  {| sel_default := sel_default s; rules := rules s ++ [r] |}.

Definition selector_with_defaults : StrategySelector :=
  let selector := selector_new (SprayAndWait 4) in
  let selector := add_rule (strategy_rule_new (PriorityAtLeast Critical) Epidemic) selector in
  let selector :=
    add_rule (strategy_rule_new (LowConnectivity (f32_ratio 3 10)) Epidemic) selector in
  add_rule (strategy_rule_new (AgeAbove (from_secs 600)) (SprayAndWait 2)) selector.

Definition default_strategy_of (s : StrategySelector) : DtnStrategy := sel_default s.

Definition set_default (d : DtnStrategy) (s : StrategySelector) : StrategySelector :=
  {| sel_default := d; rules := rules s |}.

Definition rule_count (s : StrategySelector) : nat := length (rules s).

Definition clear_rules (s : StrategySelector) : StrategySelector :=
  {| sel_default := sel_default s; rules := [] |}.

Section Selection.
Context {T I : Type} `{NetworkTopology T I}.

Definition online_count (topology : T) : nat :=
  length (retain (λ p, topo_is_online p topology) (topo_peers topology)).

Definition condition_matches (now : Z) (b : Bundle I) (topology : T) (c : StrategyCondition) : bool :=
  match c with
  | LowConnectivity threshold =>
      match topo_peers topology with
      | [] => true
      | peers =>
          let ratio := f32_div (f32_of_Z (Z.of_nat (online_count topology)))
                               (f32_of_Z (Z.of_nat (length peers))) in
          SFltb ratio threshold
      end
  | PriorityAtLeast min_priority => priority_leb min_priority (bundle_effective_priority b)
  | AgeAbove threshold =>
      threshold <? from_millis (Z.max 0 (num_milliseconds (bundle_age now b)))
  | DestinationUnreachable _ => negb (topo_is_online (bundle_destination b) topology)
  | Always => true
  end.

(** The loop over the rules. *)
Fixpoint select_rule (now : Z) (b : Bundle I) (topology : T) (rs : list StrategyRule)
    (d : DtnStrategy) : DtnStrategy :=
  match rs with
  | [] => d
  | r :: rs =>
      if condition_matches now b topology (condition r) then strategy r
      else select_rule now b topology rs d
  end.

Definition select (now : Z) (b : Bundle I) (topology : T) (s : StrategySelector) : DtnStrategy :=
  select_rule now b topology (rules s) (sel_default s).

Lemma select_rule_spec now b topology rs d :
  (Forall (λ r, condition_matches now b topology (condition r) = false) rs ∧
   select_rule now b topology rs d = d) ∨
  ∃ before r after, rs = before ++ r :: after ∧
    Forall (λ r, condition_matches now b topology (condition r) = false) before ∧
    condition_matches now b topology (condition r) = true ∧
    select_rule now b topology rs d = strategy r.
Proof.
  induction rs as [|r rs IH]; simpl; [by left|].
  destruct (condition_matches now b topology (condition r)) eqn:E.
  - right. exists [], r, rs. by split_and!.
  - destruct IH as [[Hall ->]|(before & r' & after & -> & Hall & Hm & ->)].
    + left. by split; [constructor|].
    + right. exists (r :: before), r', after. split_and!; try done. by constructor.
Qed.

Lemma select_rule_app now b topology rs rs' d :
  select_rule now b topology (rs ++ rs') d =
  select_rule now b topology rs (select_rule now b topology rs' d).
Proof.
  induction rs as [|r rs IH]; simpl; [done|]. by rewrite IH.
Qed.

(** Rules are tried in the order they were added: the first that matches
    decides, the default only when none does; so a rule added later changes
    nothing for a bundle an earlier rule matches, and clearing the rules leaves
    the default. *)
Theorem select_spec now b topology s r :
  ((∀ q, q ∈ rules s → condition_matches now b topology (condition q) = false) ∧
     select now b topology s = default_strategy_of s ∨
   ∃ before q after, rules s = before ++ q :: after ∧
     (∀ p, p ∈ before → condition_matches now b topology (condition p) = false) ∧
     condition_matches now b topology (condition q) = true ∧
     select now b topology s = strategy q) ∧
  ((∃ q, q ∈ rules s ∧ condition_matches now b topology (condition q) = true) →
   select now b topology (add_rule r s) = select now b topology s) ∧
  select now b topology (clear_rules s) = default_strategy_of s.
Proof.
  unfold select. split_and!.
  - destruct (select_rule_spec now b topology (rules s) (sel_default s))
      as [[Hall ->]|(before & q & after & Hr & Hall & Hm & Hs)].
    + left. split; [|done]. by apply Forall_forall.
    + right. exists before, q, after. split_and!; try done. by apply Forall_forall.
  - intros (q & Hq & Hm). unfold add_rule. cbn [rules sel_default]. rewrite select_rule_app.
    induction (rules s) as [|p ps IH]; [by apply elem_of_nil in Hq|]. cbn [select_rule].
    destruct (condition_matches now b topology (condition p)) eqn:E; [done|].
    apply elem_of_cons in Hq as [->|Hq]; [congruence|]. by apply IH.
  - done.
Qed.

(** What the default rules do: critical bundles and sparse networks flood,
    older bundles are sprayed with two copies, all others with four; no bundle
    is ever given more than eight copies. *)
Theorem default_selector_spec now b topology :
  let s := select now b topology selector_with_defaults in
  let sparse := condition_matches now b topology (LowConnectivity (f32_ratio 3 10)) in
  s = (if priority_leb Critical (bundle_effective_priority b) || sparse then Epidemic
       else if from_secs 600 <? from_millis (Z.max 0 (num_milliseconds (bundle_age now b)))
            then SprayAndWait 2 else SprayAndWait 4) ∧
  is_epidemic s = true ∧ 1 <= initial_copies s <= 8.
Proof.
  unfold select. cbn [selector_with_defaults add_rule selector_new rules app select_rule
    strategy_rule_new condition strategy sel_default].
  set (sparse := condition_matches now b topology (LowConnectivity _)).
  cbn [condition_matches].
  destruct (priority_leb Critical _), sparse, (_ <? _); by vm_compute.
Qed.
End Selection.

(** ** Configuration *)

Record DtnConfig : Type := {
  dtn_custody : CustodyConfig;
  dtn_epidemic : EpidemicConfig;
  dtn_expiration : ExpirationConfig;
  dtn_default_strategy : DtnStrategy;
}.

Definition dtn_config_default : DtnConfig :=
  {| dtn_custody :=
       {| max_custody_bundles := 1000; acceptance_timeout := from_secs 30; accept_from_unknown := true |};
     dtn_epidemic :=
       {| max_copies := 8; spray_and_wait := true; spray_count := 4; seen_timeout := from_secs 3600;
          max_bundle_age := from_secs 86400 |};
     dtn_expiration :=
       {| default_lifetime := from_secs 3600; max_lifetime := from_secs (86400 * 7);
          demotion_thresholds := [(from_secs 300, Normal); (from_secs 900, Low)];
          cleanup_interval := from_secs 60 |};
     dtn_default_strategy := SprayAndWait 4 |}.

Definition low_latency : DtnConfig :=
  {| dtn_custody :=
       {| max_custody_bundles := 500; acceptance_timeout := from_secs 10; accept_from_unknown := true |};
     dtn_epidemic :=
       {| max_copies := 4; spray_and_wait := false; spray_count := 2; seen_timeout := from_secs 600;
          max_bundle_age := from_secs 3600 |};
     dtn_expiration :=
       {| default_lifetime := from_secs 600; max_lifetime := from_secs 3600;
          demotion_thresholds := [(from_secs 60, Normal); (from_secs 180, Low)];
          cleanup_interval := from_secs 30 |};
     dtn_default_strategy := StoreAndForward |}.

Definition challenged_network : DtnConfig :=
  {| dtn_custody :=
       {| max_custody_bundles := 2000; acceptance_timeout := from_secs 120; accept_from_unknown := true |};
     dtn_epidemic :=
       {| max_copies := 16; spray_and_wait := true; spray_count := 8; seen_timeout := from_secs 7200;
          max_bundle_age := from_secs (86400 * 3) |};
     dtn_expiration :=
       {| default_lifetime := from_secs 86400; max_lifetime := from_secs (86400 * 14);
          demotion_thresholds := [(from_secs 3600, Normal); (from_secs 7200, Low)];
          cleanup_interval := from_secs 300 |};
     dtn_default_strategy := Epidemic |}.

Definition resource_constrained : DtnConfig :=
  {| dtn_custody :=
       {| max_custody_bundles := 100; acceptance_timeout := from_secs 15; accept_from_unknown := false |};
     dtn_epidemic :=
       {| max_copies := 2; spray_and_wait := true; spray_count := 2; seen_timeout := from_secs 300;
          max_bundle_age := from_secs 1800 |};
     dtn_expiration :=
       {| default_lifetime := from_secs 300; max_lifetime := from_secs 1800;
          demotion_thresholds := [(from_secs 60, Normal); (from_secs 120, Low)];
          cleanup_interval := from_secs 30 |};
     dtn_default_strategy := SprayAndWait 2 |}.

Inductive ConfigWarning : Type :=
| DefaultLifetimeExceedsMax
| SprayCountExceedsMaxCopies
| StrategyExceedsMaxCopies
| CleanupIntervalTooShort
| LargeCustodyLimit.

Definition config_warning_display (w : ConfigWarning) : string :=
  (match w with
   | DefaultLifetimeExceedsMax => "default_lifetime exceeds max_lifetime"
   | SprayCountExceedsMaxCopies => "spray_count exceeds max_copies"
   | StrategyExceedsMaxCopies => "default strategy copies exceeds max_copies"
   | CleanupIntervalTooShort => "cleanup_interval is very short (< 10s)"
   | LargeCustodyLimit => "max_custody_bundles is very large (> 10000)"
   end)%string.

Definition dtn_validate (c : DtnConfig) : list ConfigWarning :=
  let warn (b : bool) (w : ConfigWarning) := if b then [w] else [] in
  warn (max_lifetime (dtn_expiration c) <? default_lifetime (dtn_expiration c)) DefaultLifetimeExceedsMax ++
  warn (spray_and_wait (dtn_epidemic c) && (max_copies (dtn_epidemic c) <? spray_count (dtn_epidemic c)))
    SprayCountExceedsMaxCopies ++
  warn (match dtn_default_strategy c with
        | SprayAndWait copies => max_copies (dtn_epidemic c) <? copies
        | _ => false
        end) StrategyExceedsMaxCopies ++
  warn (cleanup_interval (dtn_expiration c) <? from_secs 10) CleanupIntervalTooShort ++
  warn (10000 <? max_custody_bundles (dtn_custody c)) LargeCustodyLimit.

Definition dtn_is_valid (c : DtnConfig) : bool :=
  match dtn_validate c with [] => true | _ => false end.

(** A configuration is valid exactly when no limit contradicts another; the
    default and the three presets are, and each keeps at least one custody
    bundle, sprays at least one copy and demotes in order of age. *)
Theorem dtn_config_spec c :
  (dtn_is_valid c = true ↔
   default_lifetime (dtn_expiration c) <= max_lifetime (dtn_expiration c) ∧
   (spray_and_wait (dtn_epidemic c) = true → spray_count (dtn_epidemic c) <= max_copies (dtn_epidemic c)) ∧
   (∀ copies, dtn_default_strategy c = SprayAndWait copies → copies <= max_copies (dtn_epidemic c)) ∧
   from_secs 10 <= cleanup_interval (dtn_expiration c) ∧
   max_custody_bundles (dtn_custody c) <= 10000) ∧
  Forall (λ p, dtn_is_valid p = true ∧ 1 <= max_custody_bundles (dtn_custody p) ∧
               1 <= spray_count (dtn_epidemic p) ∧
               1 <= initial_copies (dtn_default_strategy p) <= max_copies (dtn_epidemic p) ∧
               StronglySorted Z.lt (demotion_thresholds (dtn_expiration p)).*1)
    [dtn_config_default; low_latency; challenged_network; resource_constrained].
Proof.
  split.
  - unfold dtn_is_valid, dtn_validate.
    destruct (_ <? default_lifetime _) eqn:E1; [split; [done|lia]|].
    destruct (spray_and_wait _ && _) eqn:E2.
    { split; [done|]. intros (_ & H2 & _). apply andb_true_iff in E2 as [Hs Hc]. specialize (H2 Hs). lia. }
    destruct (dtn_default_strategy c) as [| |copies|] eqn:E3.
    3: destruct (_ <? copies) eqn:E4;
         [split; [done|]; intros (_ & _ & H3 & _); specialize (H3 copies eq_refl); lia|].
    all: destruct (_ <? from_secs 10) eqn:E5; [split; [done|lia]|];
         destruct (10000 <? _) eqn:E6; [split; [done|lia]|];
         split; [intros _|done]; split_and!; try lia; try (by intros ? [=]);
         try (intros Hs; rewrite Hs in E2; simpl in E2; lia).
    intros ? [= <-]. lia.
  - repeat constructor; vm_compute; done.
Qed.
