(* ===== verification/Compact.v ===== *)
(** * Compact wire format

    Models [indras-iot/src/compact.rs]: varints, the CRC-8 checksum, the
    encoding of messages and their fragmentation.  A cursor over a slice is the
    list of the bytes still to be read; writing to a [Vec] cannot fail.  A
    panic is [None]. *)

From S2P Require Import Prelude Bytes.

Definition MAX_PAYLOAD_SIZE : Z := 65536.
Definition MIN_MESSAGE_SIZE : Z := 5.

(** The two causes of an unexpected end of input carry different messages. *)
Inductive CompactError : Type :=
| IoUnexpectedEof
| IoTooShort (len : Z)
| IoPayloadTruncated
| InvalidVarint
| MessageTooLarge (size limit : Z)
| InvalidMessageType (b : byte)
| ChecksumMismatch
| SequenceOverflow.

Inductive CompactMessageType : Type :=
  Ping | Pong | Data | Ack | SyncRequest | SyncResponse | Presence.

(** [as u8]. *)
Definition msg_type_byte (t : CompactMessageType) : byte :=
  match t with
  | Ping => x00 | Pong => x01 | Data => x02 | Ack => x03
  | SyncRequest => x04 | SyncResponse => x05 | Presence => x06
  end.

Definition msg_type_try_from (value : byte) : Result CompactMessageType CompactError :=
  match value with
  | x00 => Ok Ping | x01 => Ok Pong | x02 => Ok Data | x03 => Ok Ack
  | x04 => Ok SyncRequest | x05 => Ok SyncResponse | x06 => Ok Presence
  | _ => Err (InvalidMessageType value)
  end.

Record CompactMessage : Type := {
  msg_type : CompactMessageType;
  flags : Z;
  cm_sequence : Z;
  cm_payload : list byte;
}.

Definition compact_new (t : CompactMessageType) (payload : list byte) : CompactMessage :=
  {| msg_type := t; flags := 0; cm_sequence := 0; cm_payload := payload |}.

Definition compact_ping : CompactMessage := compact_new Ping [].
Definition compact_pong : CompactMessage := compact_new Pong [].
Definition compact_data (payload : list byte) : CompactMessage := compact_new Data payload.

Definition with_sequence (seq : Z) (m : CompactMessage) : CompactMessage :=
  {| msg_type := msg_type m; flags := flags m; cm_sequence := seq; cm_payload := cm_payload m |}.

Definition compact_ack (sequence : Z) : CompactMessage := with_sequence sequence (compact_new Ack []).

Definition or_flags (bits : Z) (m : CompactMessage) : CompactMessage :=
  {| msg_type := msg_type m; flags := Z.lor (flags m) bits; cm_sequence := cm_sequence m;
     cm_payload := cm_payload m |}.

Definition with_ack_requested (m : CompactMessage) : CompactMessage := or_flags 1 m.
Definition ack_requested (m : CompactMessage) : bool := negb (Z.land (flags m) 1 =? 0).
Definition with_fragmented (m : CompactMessage) : CompactMessage := or_flags 2 m.
Definition is_fragmented (m : CompactMessage) : bool := negb (Z.land (flags m) 2 =? 0).
Definition is_last_fragment (m : CompactMessage) : bool := negb (Z.land (flags m) 4 =? 0).

Definition fragment_index (m : CompactMessage) : Z := Z.shiftr (cm_sequence m) 16 mod 2 ^ 16.

Definition original_sequence (m : CompactMessage) : Z :=
  if is_fragmented m then Z.land (cm_sequence m) 65535 else cm_sequence m.

(** ** Varints *)

(** The loop of [encode_varint]; ten rounds are enough for a [u64]. *)
Fixpoint encode_varint_loop (fuel : nat) (value : Z) : list byte :=
  match fuel with
  | O => []
  | S fuel =>
      let b := Z.land value 127 in
      let value := Z.shiftr value 7 in
      if value =? 0 then [byte_of_Z b]
      else byte_of_Z (Z.lor b 128) :: encode_varint_loop fuel value
  end.

Definition encode_varint (value : Z) : list byte := encode_varint_loop 10 value.

(** The loop of [decode_varint]; the cursor shrinks in every round. *)
Fixpoint decode_varint_loop (r : list byte) (result shift : Z) : Result (Z * list byte) CompactError :=
  if 64 <=? shift then Err InvalidVarint
  else
    match r with
    | [] => Err IoUnexpectedEof
    | b :: r =>
        let value := Z.land (byte_val b) 127 in
        if (shift =? 63) && (1 <? value) then Err InvalidVarint
        else
          let result := Z.lor result (wrap_u64 (Z.shiftl value shift)) in
          if Z.land (byte_val b) 128 =? 0 then Ok (result, r)
          else decode_varint_loop r result (shift + 7)
    end.

Definition decode_varint (r : list byte) : Result (Z * list byte) CompactError :=
  decode_varint_loop r 0 0.

(** [u64::leading_zeros] and [usize::div_ceil]. *)
Definition leading_zeros (v : Z) : Z := if v =? 0 then 64 else 63 - Z.log2 v.
Definition div_ceil (a b : Z) : Z := (a + (b - 1)) / b.

Definition varint_size (value : Z) : Z :=
  if value =? 0 then 1 else div_ceil (64 - leading_zeros value) 7.

(** ** Checksum *)

Definition crc8_bit (crc : Z) : Z :=
  if negb (Z.land crc 128 =? 0) then Z.lxor (Z.shiftl crc 1 mod 256) 7 else Z.shiftl crc 1 mod 256.

Definition crc8_byte (crc : Z) (b : byte) : Z :=
  Nat.iter 8 crc8_bit (Z.lxor crc (byte_val b)).

Definition crc8 (data : list byte) : Z := foldl crc8_byte 0 data.

(** ** Messages *)

Definition encode_body (m : CompactMessage) : list byte :=
  msg_type_byte (msg_type m) :: byte_of_Z (flags m) ::
    encode_varint (cm_sequence m) ++ encode_varint (Z.of_nat (length (cm_payload m))) ++ cm_payload m.

Definition encode (m : CompactMessage) : list byte :=
  encode_body m ++ [byte_of_Z (crc8 (encode_body m))].

Definition read_byte (r : list byte) : Result (byte * list byte) CompactError :=
  match r with [] => Err IoUnexpectedEof | b :: r => Ok (b, r) end.

(** Decoding the bytes before the checksum. *)
Definition decode_body (cursor : list byte) : Result CompactMessage CompactError :=
  rbind (read_byte cursor) (λ '(type_byte, cursor),
  rbind (msg_type_try_from type_byte) (λ t,
  rbind (read_byte cursor) (λ '(flags_byte, cursor),
  rbind (decode_varint cursor) (λ '(seq, cursor),
  if 2 ^ 32 - 1 <? seq then Err SequenceOverflow
  else rbind (decode_varint cursor) (λ '(len, remaining),
  if MAX_PAYLOAD_SIZE <? len then Err (MessageTooLarge len MAX_PAYLOAD_SIZE)
  else if Z.of_nat (length remaining) <? len then Err IoPayloadTruncated
  else Ok {| msg_type := t; flags := byte_val flags_byte; cm_sequence := seq;
             cm_payload := take (Z.to_nat len) remaining |}))))).

Definition decode (data : list byte) : Result CompactMessage CompactError :=
  if Z.of_nat (length data) <? MIN_MESSAGE_SIZE then Err (IoTooShort (Z.of_nat (length data)))
  else
    let crc_received := default x00 (last data) in
    let body := take (length data - 1) data in
    if negb (byte_val crc_received =? crc8 body) then Err ChecksumMismatch
    else decode_body body.

Definition encoded_size (m : CompactMessage) : Z :=
  2 + varint_size (cm_sequence m) + varint_size (Z.of_nat (length (cm_payload m)))
  + Z.of_nat (length (cm_payload m)) + 1.

(** ** Fragmentation *)

Record Fragmenter : Type := { max_fragment_size : nat }.

Definition fragmenter_new (n : nat) : option Fragmenter :=
  match n with O => None | S _ => Some {| max_fragment_size := n |} end.

(** [slice::chunks]. *)
Fixpoint chunks_loop {A} (fuel n : nat) (l : list A) : list (list A) :=
  match fuel, l with
  | O, _ | _, [] => []
  | S fuel, _ => take n l :: chunks_loop fuel n (drop n l)
  end.

Definition chunks {A} (n : nat) (l : list A) : list (list A) := chunks_loop (length l) n l.

(** The fragment built for chunk number [i] of [count]. *)
Definition fragment_of (m : CompactMessage) (count i : nat) (chunk : list byte) : CompactMessage :=
  let fl := Z.lor (flags m) 2 in
  {| msg_type := msg_type m;
     flags := if Nat.eqb i (count - 1) then Z.lor fl 4 else fl;
     cm_sequence := Z.lor (Z.land (cm_sequence m) 65535) (Z.shiftl (Z.of_nat i) 16 mod 2 ^ 32);
     cm_payload := chunk |}.

Definition fragment (f : Fragmenter) (m : CompactMessage) : option (list CompactMessage) :=
  if (length (cm_payload m) <=? max_fragment_size f)%nat then Some [m]
  else
    let cs := chunks (max_fragment_size f) (cm_payload m) in
    if (65535 <? Z.of_nat (length cs)) then None
    else Some (imap (fragment_of m (length cs)) cs).

Lemma low_bits_continued z :
  0 <= z < 128 →
  Z.lor z 128 mod 256 = Z.lor z 128 ∧ Z.land (Z.lor z 128) 127 = z ∧ Z.land (Z.lor z 128) 128 = 128 ∧
  z mod 256 = z ∧ Z.land z 127 = z ∧ Z.land z 128 = 0.
Proof.
  intros Hz.
  set (P := λ z, (Z.lor z 128 mod 256 =? Z.lor z 128) && (Z.land (Z.lor z 128) 127 =? z) &&
    (Z.land (Z.lor z 128) 128 =? 128) && (z mod 256 =? z) && (Z.land z 127 =? z) && (Z.land z 128 =? 0)).
  assert (P z = true) as HP by (apply (below_all P 128); [vm_compute; reflexivity|done]).
  unfold P in HP. rewrite !andb_true_iff, !Z.eqb_eq in HP. tauto.
Qed.

Lemma lor_shiftl_add a v s : 0 <= s → 0 <= a < 2 ^ s → Z.lor a (Z.shiftl v s) = a + v * 2 ^ s.
Proof.
  intros Hs Ha. rewrite <- Z.shiftl_mul_pow2 by done.
  rewrite <- Z.lxor_lor, Z.add_nocarry_lxor; [done| |]; apply Z.bits_inj'; intros n Hn;
    rewrite Z.land_spec, Z.bits_0, Z.shiftl_spec by done.
  all: destruct (Z.lt_ge_cases n s) as [Hlt|Hge];
    [rewrite (Z.testbit_neg_r v) by lia; apply andb_false_r|].
  all: rewrite <- (Z.mod_small a (2 ^ s)) by done; by rewrite Z.mod_pow2_bits_high by lia.
Qed.

(** ** Varints *)

Lemma varint_loop_roundtrip fuel v acc shift rest :
  (1 <= fuel <= 10)%nat → shift = 7 * (10 - Z.of_nat fuel) →
  0 <= v < 2 ^ (64 - shift) → 0 <= acc < 2 ^ shift →
  decode_varint_loop (encode_varint_loop fuel v ++ rest) acc shift = Ok (acc + v * 2 ^ shift, rest).
Proof.
  revert v acc shift. induction fuel as [|fuel IH]; intros v acc shift Hf Hs Hv Hacc; [lia|].
  assert (0 < 2 ^ shift) as Hpos by lia.
  assert (2 ^ shift * 2 ^ (64 - shift) = 2 ^ 64) as Hpow by (rewrite <- Z.pow_add_r by lia; f_equal; lia).
  cbn [encode_varint_loop]. change 127 with (Z.ones 7). rewrite Z.land_ones by lia.
  change (2 ^ 7) with 128. rewrite Z.shiftr_div_pow2 by lia. change (2 ^ 7) with 128.
  pose proof (Z.mod_pos_bound v 128 ltac:(lia)) as Hm. pose proof (Z.div_mod v 128 ltac:(lia)) as Hdm.
  destruct (low_bits_continued (v mod 128) Hm) as (H1 & H2 & H3 & H4 & H5 & H6).
  set (x := v mod 128) in *.
  assert (x <= v) as Hxv by (apply Z.mod_le; lia).
  assert (shift = 63 → x <= 1) as H63 by (intros ->; change (2 ^ (64 - 63)) with 2 in Hv; lia).
  assert (wrap_u64 (Z.shiftl x shift) = Z.shiftl x shift) as Hw.
  { apply wrap_u64_small. unfold in_u64. rewrite Z.shiftl_mul_pow2 by lia. nia. }
  assert ((64 <=? shift) = false) as H64 by lia.
  assert ((shift =? 63) && (1 <? x) = false) as Hc.
  { destruct (shift =? 63) eqn:E; [|done]. apply Z.eqb_eq in E. apply H63 in E. simpl. lia. }
  destruct (v / 128 =? 0) eqn:Hd; cbn [app decode_varint_loop]; rewrite H64, byte_val_of_Z.
  - rewrite H4, H5, H6, Hc, Hw, lor_shiftl_add by lia. simpl. do 2 f_equal. nia.
  - rewrite H1, H2, H3, Hc, Hw, lor_shiftl_add by lia. cbn [Z.eqb].
    assert (0 < v / 128) by (pose proof (Z.div_pos v 128); lia).
    assert (7 < 64 - shift) as Hlt.
    { destruct (Z.lt_ge_cases 7 (64 - shift)) as [?|Hge]; [done|].
      assert (2 ^ (64 - shift) <= 2 ^ 7) by (apply Z.pow_le_mono_r; lia). lia. }
    assert (2 ^ (shift + 7) = 2 ^ shift * 128) as Hp7 by (rewrite Z.pow_add_r by lia; done).
    assert (2 ^ (64 - shift) = 2 ^ (64 - (shift + 7)) * 128) as Hp8.
    { replace (64 - shift) with (64 - (shift + 7) + 7) by lia. by rewrite Z.pow_add_r by lia. }
    rewrite IH; [|lia|lia|split; [lia|]; apply Z.div_lt_upper_bound; lia|nia].
    do 2 f_equal. rewrite Hp7. nia.
Qed.

Lemma varint_roundtrip v rest :
  in_u64 v → decode_varint (encode_varint v ++ rest) = Ok (v, rest).
Proof.
  intros Hv. unfold decode_varint, encode_varint, in_u64 in *.
  rewrite varint_loop_roundtrip; [do 2 f_equal; lia|lia|lia|done|done].
Qed.

Lemma varint_size_step v :
  0 <= v → varint_size v = if v / 128 =? 0 then 1 else 1 + varint_size (v / 128).
Proof.
  intros Hv. unfold varint_size, div_ceil, leading_zeros.
  destruct (v =? 0) eqn:Hz; [by replace v with 0 by lia|].
  pose proof (Z.div_mod v 128 ltac:(lia)) as Hdm. pose proof (Z.mod_pos_bound v 128 ltac:(lia)).
  destruct (v / 128 =? 0) eqn:Hd.
  - assert (Z.log2 v < 7) by (apply Z.log2_lt_pow2; lia). pose proof (Z.log2_nonneg v).
    replace (64 - (63 - Z.log2 v) + (7 - 1)) with (Z.log2 v + 1 * 7) by lia.
    rewrite Z.div_add, Z.div_small by lia. done.
  - change 128 with (2 ^ 7) at 1. rewrite <- Z.shiftr_div_pow2 by lia.
    pose proof (Z.div_pos v 128 ltac:(lia) ltac:(lia)).
    assert (7 <= Z.log2 v) by (apply Z.log2_le_pow2; lia).
    rewrite Z.log2_shiftr by lia. rewrite Z.max_r by lia.
    replace (64 - (63 - Z.log2 v) + (7 - 1)) with (64 - (63 - (Z.log2 v - 7)) + (7 - 1) + 1 * 7) by lia.
    rewrite Z.div_add by lia. lia.
Qed.

Lemma encode_varint_loop_length fuel v :
  0 <= v < 2 ^ (7 * Z.of_nat fuel) →
  (0 < fuel)%nat → Z.of_nat (length (encode_varint_loop fuel v)) = varint_size v.
Proof.
  revert v. induction fuel as [|fuel IH]; intros v Hv Hf; [lia|]. cbn [encode_varint_loop].
  rewrite (varint_size_step v) by lia. rewrite Z.shiftr_div_pow2 by lia. change (2 ^ 7) with 128.
  destruct (v / 128 =? 0) eqn:Hd; [done|]. cbn [length].
  assert (0 < v / 128) by (pose proof (Z.div_pos v 128); lia).
  assert (2 ^ (7 * Z.of_nat (S fuel)) = 2 ^ (7 * Z.of_nat fuel) * 128) as Hp.
  { replace (7 * Z.of_nat (S fuel)) with (7 * Z.of_nat fuel + 7) by lia. by rewrite Z.pow_add_r by lia. }
  assert (v / 128 < 2 ^ (7 * Z.of_nat fuel)) by (apply Z.div_lt_upper_bound; lia).
  destruct fuel as [|fuel]; [simpl in *; lia|].
  rewrite Nat2Z.inj_succ, IH; [lia|lia|lia].
Qed.

Lemma encode_varint_length v : in_u64 v → Z.of_nat (length (encode_varint v)) = varint_size v.
Proof.
  intros Hv. apply encode_varint_loop_length; [|lia]. unfold in_u64 in Hv.
  assert (2 ^ 64 <= 2 ^ (7 * Z.of_nat 10)) by (apply Z.pow_le_mono_r; lia). lia.
Qed.

Lemma varint_size_range v : in_u64 v → 1 <= varint_size v <= 10.
Proof.
  intros Hv. unfold in_u64 in Hv. unfold varint_size, div_ceil, leading_zeros. destruct (v =? 0) eqn:Hz; [lia|].
  assert (Z.log2 v < 64) by (apply Z.log2_lt_pow2; lia). pose proof (Z.log2_nonneg v).
  split; [apply Z.div_le_lower_bound; lia|].
  assert ((64 - (63 - Z.log2 v) + (7 - 1)) / 7 < 11) by (apply Z.div_lt_upper_bound; lia). lia.
Qed.

Lemma log2_below n x : 0 < n → 0 <= x < 2 ^ n → Z.log2 x < n.
Proof.
  intros Hn Hx. destruct (Z.eq_dec x 0) as [->|?]; [done|]. apply Z.log2_lt_pow2; lia.
Qed.

Lemma lor_range n a b : 0 < n → 0 <= a < 2 ^ n → 0 <= b < 2 ^ n → 0 <= Z.lor a b < 2 ^ n.
Proof.
  intros Hn Ha Hb. assert (0 <= Z.lor a b) by (apply Z.lor_nonneg; lia). split; [done|].
  destruct (Z.eq_dec (Z.lor a b) 0) as [->|Hne]; [lia|].
  apply Z.log2_lt_pow2; [lia|]. rewrite Z.log2_lor by lia. apply Z.max_lub_lt; by apply log2_below.
Qed.

Lemma decode_varint_loop_range r acc shift v rest :
  in_u64 acc → 0 <= shift →
  decode_varint_loop r acc shift = Ok (v, rest) →
  in_u64 v ∧ (length rest < length r)%nat.
Proof.
  revert acc shift. induction r as [|b r IH]; intros acc shift Ha Hs; cbn [decode_varint_loop];
    (destruct (64 <=? shift); [done|]); [done|].
  destruct ((shift =? 63) && _); [done|].
  assert (in_u64 (Z.lor acc (wrap_u64 (Z.shiftl (Z.land (byte_val b) 127) shift)))) as Hr.
  { pose proof (wrap_u64_range (Z.shiftl (Z.land (byte_val b) 127) shift)) as Hw.
    by apply (lor_range 64). }
  destruct (Z.land (byte_val b) 128 =? 0).
  - intros [= <- <-]. split; [done|simpl; lia].
  - intros H. apply IH in H as [??]; [|done|lia]. split; [done|simpl; lia].
Qed.

(** ** Checksum *)

(** The inverse of one round of the checksum. *)
Definition crc8_bit_inv (y : Z) : Z :=
  if Z.testbit y 0 then Z.lor (Z.shiftr (Z.lxor y 7) 1) 128 else Z.shiftr y 1.

Lemma crc8_bit_spec c :
  0 <= c < 256 → 0 <= crc8_bit c < 256 ∧ crc8_bit_inv (crc8_bit c) = c.
Proof.
  intros Hc.
  set (P := λ c, (0 <=? crc8_bit c) && (crc8_bit c <? 256) && (crc8_bit_inv (crc8_bit c) =? c)).
  assert (P c = true) as HP by (apply (below_all P 256); [vm_compute; reflexivity|done]).
  unfold P in HP. rewrite !andb_true_iff, Z.eqb_eq in HP. lia.
Qed.

Lemma crc8_rounds n c :
  0 <= c < 256 →
  0 <= Nat.iter n crc8_bit c < 256 ∧ Nat.iter n crc8_bit_inv (Nat.iter n crc8_bit c) = c.
Proof.
  intros Hc. induction n as [|n IH]; [done|]. destruct IH as [IHr IHi].
  rewrite Nat.iter_succ. destruct (crc8_bit_spec _ IHr) as [Hr Hi]. split; [done|].
  by rewrite Nat.iter_succ_r, Hi.
Qed.

Lemma lxor_byte c b : 0 <= c < 256 → 0 <= Z.lxor c (byte_val b) < 256.
Proof.
  intros Hc. pose proof (byte_val_range b) as Hb.
  assert (0 <= Z.lxor c (byte_val b)) by (apply Z.lxor_nonneg; lia). split; [done|].
  destruct (Z.eq_dec (Z.lxor c (byte_val b)) 0) as [->|Hne]; [lia|]. change 256 with (2 ^ 8).
  apply Z.log2_lt_pow2; [lia|].
  eapply Z.le_lt_trans; [apply Z.log2_lxor; lia|]. apply Z.max_lub_lt; by apply log2_below.
Qed.

Lemma crc8_byte_range c b : 0 <= c < 256 → 0 <= crc8_byte c b < 256.
Proof. intros Hc. by apply crc8_rounds, lxor_byte. Qed.

Lemma crc8_byte_inj c c' b b' :
  0 <= c < 256 → 0 <= c' < 256 → crc8_byte c b = crc8_byte c' b' →
  Z.lxor c (byte_val b) = Z.lxor c' (byte_val b').
Proof.
  intros Hc Hc' H. unfold crc8_byte in H.
  rewrite <- (proj2 (crc8_rounds 8 _ (lxor_byte c b Hc))), H. by apply crc8_rounds, lxor_byte.
Qed.

Lemma crc8_from_range data c : 0 <= c < 256 → 0 <= foldl crc8_byte c data < 256.
Proof.
  intros Hc. apply (foldl_invariant (λ c, 0 <= c < 256)); [|done]. intros. by apply crc8_byte_range.
Qed.

Lemma crc8_range data : 0 <= crc8 data < 256.
Proof. by apply crc8_from_range. Qed.

Lemma crc8_from_inj data c c' :
  0 <= c < 256 → 0 <= c' < 256 → foldl crc8_byte c data = foldl crc8_byte c' data → c = c'.
Proof.
  revert c c'. induction data as [|b data IH]; intros c c' Hc Hc' H; [done|].
  apply IH, crc8_byte_inj in H; [|by try apply crc8_byte_range..].
  rewrite <- (Z.lxor_0_r c), <- (Z.lxor_nilpotent (byte_val b)), <- Z.lxor_assoc, H.
  by rewrite Z.lxor_assoc, Z.lxor_nilpotent, Z.lxor_0_r.
Qed.

Lemma crc8_detects pre b b' post :
  b ≠ b' → crc8 (pre ++ b :: post) ≠ crc8 (pre ++ b' :: post).
Proof.
  intros Hb H. apply Hb, byte_val_inj. unfold crc8 in H. rewrite !foldl_app in H. cbn [foldl] in H.
  pose proof (crc8_from_range pre 0 ltac:(lia)) as Hp.
  apply crc8_from_inj, crc8_byte_inj in H; [|by try apply crc8_byte_range..].
  apply (f_equal (Z.lxor (foldl crc8_byte 0 pre))) in H.
  by rewrite <- !Z.lxor_assoc, Z.lxor_nilpotent, !Z.lxor_0_l in H.
Qed.

(** ** Messages *)

(** The ranges of the fields' types, and a payload within the limit. *)
Definition header_ok (m : CompactMessage) : Prop :=
  0 <= flags m < 256 ∧ 0 <= cm_sequence m < 2 ^ 32 ∧ Z.of_nat (length (cm_payload m)) < 2 ^ 64.

Definition compact_ok (m : CompactMessage) : Prop :=
  0 <= flags m < 256 ∧ 0 <= cm_sequence m < 2 ^ 32 ∧
  Z.of_nat (length (cm_payload m)) <= MAX_PAYLOAD_SIZE.

Lemma compact_header_ok m : compact_ok m → header_ok m.
Proof. intros (?&?&?). unfold MAX_PAYLOAD_SIZE in *. split_and!; lia. Qed.

Lemma msg_type_roundtrip t : msg_type_try_from (msg_type_byte t) = Ok t.
Proof. by destruct t. Qed.

Lemma encode_length m : header_ok m → Z.of_nat (length (encode m)) = encoded_size m.
Proof.
  intros (Hf & Hs & Hp). unfold encode, encode_body, encoded_size. rewrite length_app. cbn [length].
  rewrite !length_app, !Nat2Z.inj_add, !Nat2Z.inj_succ, !Nat2Z.inj_add, !encode_varint_length
    by (unfold in_u64; lia).
  simpl. lia.
Qed.

Lemma decode_snoc body crc :
  decode (body ++ [crc]) =
  if Z.of_nat (length body) + 1 <? MIN_MESSAGE_SIZE then Err (IoTooShort (Z.of_nat (length body) + 1))
  else if negb (byte_val crc =? crc8 body) then Err ChecksumMismatch else decode_body body.
Proof.
  unfold decode. rewrite length_app, last_snoc. cbn [length default].
  rewrite Nat.add_sub, take_app_length, Nat2Z.inj_add. done.
Qed.

Lemma encoded_size_ge m : header_ok m → 5 <= encoded_size m.
Proof.
  intros (Hf & Hs & Hp). unfold encoded_size.
  pose proof (varint_size_range (cm_sequence m)). pose proof (varint_size_range (Z.of_nat (length (cm_payload m)))).
  unfold in_u64 in *. lia.
Qed.

Lemma decode_encode m :
  header_ok m →
  decode (encode m) =
  if MAX_PAYLOAD_SIZE <? Z.of_nat (length (cm_payload m))
  then Err (MessageTooLarge (Z.of_nat (length (cm_payload m))) MAX_PAYLOAD_SIZE) else Ok m.
Proof.
  intros Hok. pose proof (encode_length m Hok) as Hlen. pose proof (encoded_size_ge m Hok) as Hge.
  destruct Hok as (Hf & Hs & Hp). unfold encode in *. rewrite length_app in Hlen. cbn [length] in Hlen.
  rewrite decode_snoc, byte_val_of_Z, (Z.mod_small (crc8 _)) by apply crc8_range.
  rewrite Z.eqb_refl. destruct (_ <? MIN_MESSAGE_SIZE) eqn:Hmin; [unfold MIN_MESSAGE_SIZE in *; lia|].
  cbn [negb]. unfold decode_body, encode_body. cbn [read_byte rbind].
  rewrite msg_type_roundtrip. cbn [rbind read_byte].
  rewrite varint_roundtrip by (unfold in_u64; lia). cbn [rbind].
  destruct (_ <? cm_sequence m) eqn:Hseq; [lia|].
  rewrite varint_roundtrip by (unfold in_u64; lia). cbn [rbind].
  destruct (MAX_PAYLOAD_SIZE <? _); [done|].
  destruct (_ <? Z.of_nat (length _)) eqn:Ht; [lia|].
  rewrite Nat2Z.id, byte_val_of_Z, Z.mod_small, firstn_all by done. by destruct m.
Qed.

(** A message whose fields are within their types and whose payload is within
    the limit survives the wire: decoding its encoding gives it back, and the
    encoding has the advertised size.  The encoder accepts a payload beyond
    the limit all the same, and its output is then refused as too large. *)
Theorem compact_roundtrip m :
  header_ok m →
  Z.of_nat (length (encode m)) = encoded_size m ∧ 5 <= encoded_size m ∧
  (compact_ok m → decode (encode m) = Ok m) ∧
  (MAX_PAYLOAD_SIZE < Z.of_nat (length (cm_payload m)) →
   decode (encode m) = Err (MessageTooLarge (Z.of_nat (length (cm_payload m))) MAX_PAYLOAD_SIZE)).
Proof.
  intros Hok. split_and!; [by apply encode_length|by apply encoded_size_ge| |].
  - intros (_ & _ & Hp). rewrite decode_encode by done.
    by rewrite (proj2 (Z.ltb_ge _ _)).
  - intros Hp. rewrite decode_encode by done. by rewrite (proj2 (Z.ltb_lt _ _)).
Qed.

(** C21. Any change confined to one byte of an encoded message, the checksum byte
    included, is detected: the altered bytes decode to a checksum mismatch. *)
Theorem corruption_detected m pre b b' post :
  header_ok m → encode m = pre ++ b :: post → b ≠ b' →
  decode (pre ++ b' :: post) = Err ChecksumMismatch.
Proof.
  intros Hok He Hb.
  assert (5 <= Z.of_nat (length (pre ++ b :: post)))
    as H by (rewrite <- He, (encode_length m Hok); by apply encoded_size_ge).
  rewrite length_app in H. cbn [length] in H. unfold encode in He.
  pose proof (crc8_range (encode_body m)) as Hr.
  destruct post as [|c post _] using rev_ind.
  - apply app_inj_tail in He as [<- <-]. rewrite decode_snoc.
    destruct (_ <? MIN_MESSAGE_SIZE) eqn:Hmin; [unfold MIN_MESSAGE_SIZE in *; cbn [length] in *; lia|].
    destruct (byte_val b' =? crc8 (encode_body m)) eqn:Hc; [|done]. apply Z.eqb_eq in Hc.
    destruct Hb. apply byte_val_inj. rewrite Hc, byte_val_of_Z. by apply Z.mod_small.
  - change (b :: post ++ [c]) with ((b :: post) ++ [c]) in He.
    change (b' :: post ++ [c]) with ((b' :: post) ++ [c]). rewrite app_assoc in *.
    apply app_inj_tail in He as [Hbody <-]. rewrite decode_snoc.
    destruct (_ <? MIN_MESSAGE_SIZE) eqn:Hmin.
    { unfold MIN_MESSAGE_SIZE in *. rewrite length_app in H, Hmin. cbn [length] in H, Hmin.
      apply Z.ltb_lt in Hmin. rewrite !Nat2Z.inj_add, !Nat2Z.inj_succ in *. exfalso. lia. }
    destruct (byte_val _ =? crc8 _) eqn:Hc; [|done]. apply Z.eqb_eq in Hc.
    rewrite byte_val_of_Z, Z.mod_small, Hbody in Hc by done. by apply crc8_detects in Hc.
Qed.

Lemma rbind_ok {A B E} (r : Result A E) (k : A → Result B E) b :
  rbind r k = Ok b → ∃ a, r = Ok a ∧ k a = Ok b.
Proof. destruct r as [a|e]; [|done]. intros H. by exists a. Qed.

(** What an accepted message is, whatever bytes came in: its fields are within
    their types, its payload within the limit and no longer than the input,
    and the checksum matched; so a message that was accepted is encoded again
    without loss. *)
Theorem decode_accepts data m :
  decode data = Ok m →
  compact_ok m ∧ 5 + Z.of_nat (length (cm_payload m)) <= Z.of_nat (length data) ∧
  (∃ body c, data = body ++ [c] ∧ byte_val c = crc8 body) ∧
  decode (encode m) = Ok m.
Proof.
  intros Hd.
  assert (∃ body c, data = body ++ [c]) as (body & c & ->).
  { destruct data as [|c body _] using rev_ind; [done|eauto]. }
  rewrite decode_snoc in Hd. destruct (_ <? MIN_MESSAGE_SIZE) eqn:Hmin; [done|].
  destruct (byte_val c =? crc8 body) eqn:Hc; [|done]. apply Z.eqb_eq in Hc. cbn [negb] in Hd.
  unfold decode_body in Hd.
  apply rbind_ok in Hd as ([tb r1] & H1 & Hd). apply rbind_ok in Hd as (t & H2 & Hd).
  apply rbind_ok in Hd as ([fb r2] & H3 & Hd). apply rbind_ok in Hd as ([seq r3] & H4 & Hd).
  destruct (_ <? seq) eqn:Hseq; [done|]. apply rbind_ok in Hd as ([len r4] & H5 & Hd).
  destruct (_ <? len) eqn:Hlen; [done|]. destruct (_ <? len) eqn:Hrem in Hd; [done|].
  injection Hd as <-.
  apply decode_varint_loop_range in H4 as [Hs4 Hl4]; [|done|done].
  apply decode_varint_loop_range in H5 as [Hs5 Hl5]; [|done|done].
  destruct body as [|b0 [|b1 body]]; try done. injection H1 as <- <-. injection H3 as <- <-.
  unfold MAX_PAYLOAD_SIZE, in_u64 in *.
  assert (Z.of_nat (length (take (Z.to_nat len) r4)) = len) as Hpay by (rewrite length_take; lia).
  set (m := {| msg_type := t; flags := byte_val b1; cm_sequence := seq;
               cm_payload := take (Z.to_nat len) r4 |}).
  assert (compact_ok m) as Hok.
  { unfold compact_ok, MAX_PAYLOAD_SIZE. cbn. pose proof (byte_val_range b1). lia. }
  split_and!; [done| |by eexists _, _|].
  - cbn [m cm_payload]. rewrite Hpay, length_app. cbn [length]. lia.
  - rewrite decode_encode by by apply compact_header_ok.
    destruct Hok as (_ & _ & Hp). by rewrite (proj2 (Z.ltb_ge _ _)).
Qed.

(** ** Fragmentation *)

Lemma chunks_loop_spec {A} fuel n (l : list A) :
  (0 < n)%nat → (length l <= fuel)%nat →
  concat (chunks_loop fuel n l) = l ∧
  Forall (λ c, (0 < length c <= n)%nat) (chunks_loop fuel n l) ∧
  length (chunks_loop fuel n l) = ((length l + (n - 1)) / n)%nat.
Proof.
  intros Hn. revert l. induction fuel as [|fuel IH]; intros l Hl.
  { destruct l; [|simpl in Hl; lia]. split_and!; [done|constructor|]. cbn. symmetry. apply Nat.div_small. lia. }
  destruct l as [|x l].
  { split_and!; [done|constructor|]. cbn. symmetry. apply Nat.div_small. lia. }
  cbn [chunks_loop]. set (l' := x :: l) in *.
  assert (length l' = S (length l)) as Hlen by done.
  destruct (IH (drop n l')) as (Hc & Hf & Hk); [rewrite length_drop; lia|]. split_and!.
  - cbn [concat]. rewrite Hc. apply take_drop.
  - constructor; [|done]. rewrite length_take. lia.
  - cbn [length]. rewrite Hk, length_drop. destruct (le_lt_dec (length l') n) as [Hle|Hgt].
    + replace (length l' - n)%nat with 0%nat by lia. rewrite (Nat.div_small (0 + (n - 1))) by lia.
      apply (Nat.div_unique _ _ _ (length l' - 1)); lia.
    + replace (length l' + (n - 1))%nat with (length l' - n + (n - 1) + 1 * n)%nat by lia.
      rewrite Nat.div_add by lia. lia.
Qed.

Lemma fragment_of_index m count i c :
  Z.of_nat i < 65536 → fragment_index (fragment_of m count i c) = Z.of_nat i.
Proof.
  intros Hi. unfold fragment_index, fragment_of. cbn [cm_sequence].
  change 65535 with (Z.ones 16). rewrite Z.land_ones by lia.
  assert (0 <= cm_sequence m mod 2 ^ 16 < 2 ^ 16) by (apply Z.mod_pos_bound; lia).
  rewrite (Z.mod_small (Z.shiftl _ _)) by (rewrite Z.shiftl_mul_pow2; lia).
  rewrite lor_shiftl_add, Z.shiftr_div_pow2, Z.div_add, Z.div_small by lia.
  apply Z.mod_small. lia.
Qed.

Lemma fragment_of_fragmented m count i c : is_fragmented (fragment_of m count i c) = true.
Proof.
  unfold is_fragmented, fragment_of. cbn [flags]. apply negb_true_iff, Z.eqb_neq. intros H.
  apply (f_equal (λ z, Z.testbit z 1)) in H. rewrite Z.land_spec in H.
  destruct (Nat.eqb _ _); rewrite ?Z.lor_spec, orb_true_r in H; done.
Qed.

Lemma fragment_of_original m count i c :
  Z.of_nat i < 65536 → original_sequence (fragment_of m count i c) = cm_sequence m mod 2 ^ 16.
Proof.
  intros Hi. unfold original_sequence.
  rewrite fragment_of_fragmented.
  unfold fragment_of. cbn [cm_sequence].
  change 65535 with (Z.ones 16). rewrite !Z.land_ones by lia.
  assert (0 <= cm_sequence m mod 2 ^ 16 < 2 ^ 16) by (apply Z.mod_pos_bound; lia).
  rewrite (Z.mod_small (Z.shiftl _ _)) by (rewrite Z.shiftl_mul_pow2; lia).
  rewrite lor_shiftl_add, Z.mod_add, Z.mod_mod by lia. done.
Qed.

Lemma fragment_of_last m count i c :
  Z.testbit (flags m) 2 = false →
  is_last_fragment (fragment_of m count i c) = Nat.eqb i (count - 1).
Proof.
  intros Hf. unfold is_last_fragment, fragment_of. cbn [flags].
  assert (∀ z, Z.land z 4 = if Z.testbit z 2 then 4 else 0) as Hland.
  { intros z. apply Z.bits_inj'. intros n Hn. rewrite Z.land_spec. change 4 with (2 ^ 2) at 1.
    rewrite Z.pow2_bits_eqb by lia. destruct (2 =? n) eqn:E.
    - apply Z.eqb_eq in E as <-. rewrite andb_true_r. by destruct (Z.testbit z 2).
    - rewrite andb_false_r. destruct (Z.testbit z 2); [|by rewrite Z.bits_0].
      change 4 with (2 ^ 2). rewrite Z.pow2_bits_eqb by lia. by rewrite E. }
  destruct (Nat.eqb i (count - 1)); rewrite Hland, ?Z.lor_spec, ?Hf; done.
Qed.

Lemma compact_roundtrip_ok m : compact_ok m → decode (encode m) = Ok m.
Proof.
  intros Hok. rewrite decode_encode by by apply compact_header_ok.
  destruct Hok as (_ & _ & Hp). by rewrite (proj2 (Z.ltb_ge _ _)).
Qed.

Lemma imap_payloads m k i cs : cm_payload <$> imap (λ j, fragment_of m k (i + j)) cs = cs.
Proof.
  revert i. induction cs as [|c cs IH]; intros i; [done|]. cbn [imap fmap list_fmap].
  f_equal. etrans; [|apply (IH (S i))]. f_equal. apply imap_ext. intros j x _. simpl. by rewrite Nat.add_succ_r.
Qed.

Lemma fragment_indices m k i cs :
  Z.of_nat (i + length cs) <= 65536 →
  fragment_index <$> imap (λ j, fragment_of m k (i + j)) cs = seqZ (Z.of_nat i) (Z.of_nat (length cs)).
Proof.
  revert i. induction cs as [|c cs IH]; intros i Hi; [done|]. cbn [imap fmap list_fmap length] in *.
  rewrite Nat2Z.inj_succ, seqZ_cons by lia. rewrite Nat.add_0_r, fragment_of_index by lia. f_equal.
  replace (Z.succ (Z.of_nat i)) with (Z.of_nat (S i)) by lia.
  replace (Z.pred (Z.succ (Z.of_nat (length cs)))) with (Z.of_nat (length cs)) by lia.
  rewrite <- (IH (S i)) by lia. f_equal. apply imap_ext. intros j x _. simpl. by rewrite Nat.add_succ_r.
Qed.

Lemma StronglySorted_seqZ a n : StronglySorted Z.lt (seqZ a (Z.of_nat n)).
Proof.
  revert a. induction n as [|n IH]; intros a; [constructor|].
  rewrite Nat2Z.inj_succ, seqZ_cons by lia. rewrite Z.pred_succ. constructor; [apply IH|].
  apply Forall_forall. intros x Hx%elem_of_seqZ. lia.
Qed.

(** A list whose keys strictly increase is recovered from any reordering by
    sorting on the keys. *)
Lemma sort_by_recover {A} (k : A → Z) (l l' : list A) :
  StronglySorted Z.lt (k <$> l) → l' ≡ₚ l → sort_by (by_key k) l' = l.
Proof.
  intros Hs Hp.
  assert (StronglySorted (λ x y, by_key k x y = true) l ∧
          ∀ x y, x ∈ l → y ∈ l → by_key k x y = true → by_key k y x = true → x = y) as [Hl Hinj].
  { clear Hp l'. induction l as [|x l IH]; cbn in Hs.
    { split; [constructor|]. by intros x y ?%elem_of_nil. }
    apply StronglySorted_inv in Hs as [Hs Hall]. destruct (IH Hs) as [IHs IHi].
    rewrite Forall_forall in Hall.
    assert (∀ y, y ∈ l → k x < k y) as Hlt by (intros y Hy; by apply Hall, list_elem_of_fmap_2).
    unfold by_key in *. split.
    - constructor; [done|]. apply Forall_forall. intros y Hy. specialize (Hlt y Hy). lia.
    - intros a b [->|Ha]%elem_of_cons [->|Hb]%elem_of_cons H1 H2; try done.
      + specialize (Hlt b Hb). lia.
      + specialize (Hlt a Ha). lia.
      + by apply IHi. }
  apply (StronglySorted_unique_strong (λ x y, by_key k x y = true)).
  - intros x y Hx Hy. rewrite sort_by_perm, Hp in Hx. auto.
  - apply sort_by_sorted, _.
  - done.
  - by rewrite sort_by_perm.
Qed.

Lemma fragment_of_ok m count i c :
  0 <= flags m < 256 → Z.of_nat i < 65536 → Z.of_nat (length c) <= MAX_PAYLOAD_SIZE →
  compact_ok (fragment_of m count i c).
Proof.
  intros Hf Hi Hc. unfold compact_ok, fragment_of. cbn [flags cm_sequence cm_payload]. split; [|split; [|done]].
  - assert (0 <= Z.lor (flags m) 2 < 256) by (apply (lor_range 8); lia).
    destruct (Nat.eqb _ _); [apply (lor_range 8); lia|done].
  - apply (lor_range 32); [lia| |apply Z.mod_pos_bound; lia].
    change 65535 with (Z.ones 16). rewrite Z.land_ones by lia.
    pose proof (Z.mod_pos_bound (cm_sequence m) (2 ^ 16)). lia.
Qed.

(** Fragmenting cuts a payload into pieces of at most the given size and
    panics only beyond 65535 of them.  Every fragment is marked, carries the
    low 16 bits of the message's sequence number and survives the wire; only
    the last is marked as last; and from any reordering of the fragments,
    sorting by fragment index recovers their order and so the payload. *)
Theorem fragment_spec f m :
  let n := max_fragment_size f in
  (0 < n)%nat → Z.of_nat n <= MAX_PAYLOAD_SIZE → 0 <= flags m < 256 →
  (length (cm_payload m) <= n → fragment f m = Some [m])%nat ∧
  (n < length (cm_payload m) →
   match fragment f m with
   | None => (65535 * Z.of_nat n < Z.of_nat (length (cm_payload m)))%Z
   | Some frags =>
       (Z.of_nat (length (cm_payload m)) <= 65535 * Z.of_nat n)%Z ∧ concat (cm_payload <$> frags) = cm_payload m ∧
       Forall (λ p, length (cm_payload p) <= n ∧ is_fragmented p = true ∧
                    original_sequence p = (cm_sequence m mod 2 ^ 16)%Z ∧ decode (encode p) = Ok p) frags ∧
       (∀ received, received ≡ₚ frags → sort_by (by_key fragment_index) received = frags) ∧
       (Z.testbit (flags m) 2 = false → ∀ i p, frags !! i = Some p →
          is_last_fragment p = Nat.eqb i (length frags - 1))
   end)%nat.
Proof.
  intros n Hn Hmax Hf. unfold fragment. fold n. split; intros Hlen.
  { by rewrite (proj2 (Nat.leb_le _ _)). }
  rewrite (proj2 (Nat.leb_gt _ _)) by done. cbn zeta. unfold chunks.
  destruct (chunks_loop_spec (length (cm_payload m)) n (cm_payload m) Hn) as (Hc & Hall & Hk); [lia|].
  set (cs := chunks_loop _ n _) in *.
  pose proof (Nat.div_mod (length (cm_payload m) + (n - 1)) n ltac:(lia)) as Hdm.
  pose proof (Nat.mod_upper_bound (length (cm_payload m) + (n - 1)) n ltac:(lia)) as Hub.
  rewrite <- Hk in Hdm.
  destruct (65535 <? Z.of_nat (length cs)) eqn:Hcount; [nia|].
  assert (Z.of_nat (length cs) <= 65535) as Hcs by lia. split_and!.
  - nia.
  - etrans; [|exact Hc]. f_equal. apply (imap_payloads m (length cs) 0).
  - apply Forall_lookup. intros i p Hp. apply list_lookup_imap_Some in Hp as (c & Hi & ->).
    pose proof (lookup_lt_Some _ _ _ Hi) as Hlt. rewrite Forall_lookup in Hall.
    specialize (Hall i c Hi). split_and!; [simpl; lia|apply fragment_of_fragmented| |].
    + apply fragment_of_original. lia.
    + apply compact_roundtrip_ok, fragment_of_ok; [done|lia|lia].
  - intros received Hrec. apply sort_by_recover; [|done].
    rewrite (fragment_indices m (length cs) 0) by lia. apply StronglySorted_seqZ.
  - intros Hb i p Hp. apply list_lookup_imap_Some in Hp as (c & Hi & ->).
    rewrite length_imap. by apply fragment_of_last.
Qed.
