(* ===== verification/LowMemory.v ===== *)
(** * Memory budgets and buffer pools

    Models [indras-iot/src/low_memory.rs].  The tracker's three counters are
    [usize] atomics updated by load and compare-exchange loops; any number of
    threads interleave at the level of these atomic accesses, and a weak
    exchange may fail spuriously.  A panic is [None]. *)

From S2P Require Import Prelude.

Record MemoryBudget : Type := {
  max_heap_bytes : Z;
  max_message_size : Z;
  max_connections : Z;
  max_pending_ops : Z;
}.

Definition memory_budget_default : MemoryBudget :=
  {| max_heap_bytes := 64 * 1024; max_message_size := 1024; max_connections := 4; max_pending_ops := 8 |}.

Definition memory_budget_minimal : MemoryBudget :=
  {| max_heap_bytes := 16 * 1024; max_message_size := 256; max_connections := 2; max_pending_ops := 4 |}.

Definition memory_budget_moderate : MemoryBudget :=
  {| max_heap_bytes := 128 * 1024; max_message_size := 4096; max_connections := 8; max_pending_ops := 16 |}.

Inductive MemoryError : Type :=
| BudgetExceeded (requested available : Z)
| MemMessageTooLarge (size limit : Z)
| ConnectionLimitReached (current max : Z)
| OperationQueueFull (current max : Z)
| NoBuffersAvailable.

Record MemoryTracker : Type := {
  budget : MemoryBudget;
  allocated : Z;
  connections : Z;
  pending_ops : Z;
}.

Definition memory_tracker_new (b : MemoryBudget) : MemoryTracker :=
  {| budget := b; allocated := 0; connections := 0; pending_ops := 0 |}.

(** What a guard holds, and so what a call asks for. *)
Inductive Guard : Type := MemoryGuard (bytes : Z) | ConnectionGuard | OpGuard.

#[global] Instance Guard_eq_dec : EqDecision Guard.
Proof. solve_decision. Defined.

Definition set_allocated (v : Z) (t : MemoryTracker) : MemoryTracker :=
  {| budget := budget t; allocated := v; connections := connections t; pending_ops := pending_ops t |}.
Definition set_connections (v : Z) (t : MemoryTracker) : MemoryTracker :=
  {| budget := budget t; allocated := allocated t; connections := v; pending_ops := pending_ops t |}.
Definition set_pending_ops (v : Z) (t : MemoryTracker) : MemoryTracker :=
  {| budget := budget t; allocated := allocated t; connections := connections t; pending_ops := v |}.

(** The counter a guard is counted in. *)
Definition counter (g : Guard) (t : MemoryTracker) : Z :=
  match g with
  | MemoryGuard _ => allocated t
  | ConnectionGuard => connections t
  | OpGuard => pending_ops t
  end.

Definition set_counter (g : Guard) (v : Z) (t : MemoryTracker) : MemoryTracker :=
  match g with
  | MemoryGuard _ => set_allocated v t
  | ConnectionGuard => set_connections v t
  | OpGuard => set_pending_ops v t
  end.

(** [usize::checked_add]. *)
Definition usize_checked_add (a b : Z) : option Z := if a + b <? 2 ^ 64 then Some (a + b) else None.

(** One round of each loop, from the loaded value to the value to exchange it
    for. *)
Definition allocate_round (bytes current : Z) (b : MemoryBudget) : Result Z MemoryError :=
  let refused := Err (BudgetExceeded bytes (usize_saturating_sub (max_heap_bytes b) current)) in
  match usize_checked_add current bytes with
  | Some v => if v <=? max_heap_bytes b then Ok v else refused
  | None => refused
  end.

Definition connection_round (current : Z) (b : MemoryBudget) : Result Z MemoryError :=
  if max_connections b <=? current then Err (ConnectionLimitReached current (max_connections b))
  else Ok (wrap_u64 (current + 1)).

Definition queue_round (current : Z) (b : MemoryBudget) : Result Z MemoryError :=
  if max_pending_ops b <=? current then Err (OperationQueueFull current (max_pending_ops b))
  else Ok (wrap_u64 (current + 1)).

Definition guard_round (g : Guard) (current : Z) (b : MemoryBudget) : Result Z MemoryError :=
  match g with
  | MemoryGuard bytes => allocate_round bytes current b
  | ConnectionGuard => connection_round current b
  | OpGuard => queue_round current b
  end.

(** A call that no other thread disturbs: its first exchange succeeds. *)
Definition try_guard (g : Guard) (t : MemoryTracker) : MemoryTracker * Result Guard MemoryError :=
  match guard_round g (counter g t) (budget t) with
  | Ok v => (set_counter g v t, Ok g)
  | Err e => (t, Err e)
  end.

Definition try_allocate (bytes : Z) := try_guard (MemoryGuard bytes).
Definition try_add_connection := try_guard ConnectionGuard.
Definition try_queue_op := try_guard OpGuard.

(** [fetch_sub] by the guards' [Drop]; the flag is the [debug_assert]. *)
Definition guard_weight (g : Guard) : Z := match g with MemoryGuard bytes => bytes | _ => 1 end.

Definition drop_guard (g : Guard) (t : MemoryTracker) : MemoryTracker * bool :=
  let prev := counter g t in
  (set_counter g (usize_sub prev (guard_weight g)) t, guard_weight g <=? prev).

Definition check_message_size (size : Z) (t : MemoryTracker) : Result unit MemoryError :=
  if max_message_size (budget t) <? size then Err (MemMessageTooLarge size (max_message_size (budget t)))
  else Ok tt.

Definition allocated_bytes (t : MemoryTracker) : Z := allocated t.
Definition available_bytes (t : MemoryTracker) : Z :=
  usize_saturating_sub (max_heap_bytes (budget t)) (allocated t).
Definition connection_count (t : MemoryTracker) : Z := connections t.
Definition pending_ops_count (t : MemoryTracker) : Z := pending_ops t.

(** ** Threads *)

(** A thread holds guards and may be inside a call: before its load, or with
    the value it loaded. *)
Record Thread : Type := { guards : list Guard; trying : option (Guard * option Z) }.

Record Machine : Type := { tracker : MemoryTracker; threads : list Thread }.

Definition put (i : nat) (th : Thread) (t : MemoryTracker) (m : Machine) : Machine :=
  {| tracker := t; threads := <[i := th]> (threads m) |}.

Inductive machine_step (m : Machine) : Machine → Prop :=
| ms_call i th g :
    threads m !! i = Some th → trying th = None → 0 <= guard_weight g < 2 ^ 64 →
    machine_step m (put i {| guards := guards th; trying := Some (g, None) |} (tracker m) m)
| ms_load i th g :
    threads m !! i = Some th → trying th = Some (g, None) →
    machine_step m (put i {| guards := guards th; trying := Some (g, Some (counter g (tracker m))) |}
                        (tracker m) m)
| ms_refuse i th g current e :
    threads m !! i = Some th → trying th = Some (g, Some current) →
    guard_round g current (budget (tracker m)) = Err e →
    machine_step m (put i {| guards := guards th; trying := None |} (tracker m) m)
| ms_exchange i th g current v :
    threads m !! i = Some th → trying th = Some (g, Some current) →
    guard_round g current (budget (tracker m)) = Ok v → counter g (tracker m) = current →
    machine_step m (put i {| guards := g :: guards th; trying := None |}
                        (set_counter g v (tracker m)) m)
| ms_retry i th g current v :
    threads m !! i = Some th → trying th = Some (g, Some current) →
    guard_round g current (budget (tracker m)) = Ok v →
    machine_step m (put i {| guards := guards th; trying := Some (g, None) |} (tracker m) m)
| ms_drop i th g before after :
    threads m !! i = Some th → trying th = None → guards th = before ++ g :: after →
    machine_step m (put i {| guards := before ++ after; trying := None |}
                        (drop_guard g (tracker m)).1 m).

Definition idle_thread : Thread := {| guards := []; trying := None |}.

Definition machine_new (b : MemoryBudget) (n : nat) : Machine :=
  {| tracker := memory_tracker_new b; threads := replicate n idle_thread |}.

(** ** Buffer pools *)

Record BufferPool : Type := {
  buffers : list (option (list byte));
  buffer_size : nat;
  pool_available : Z;
}.

Record PooledBuffer : Type := { buffer : list byte; pb_index : nat }.

Definition buffer_pool_new (count size : nat) : option BufferPool :=
  match size with
  | O => None
  | S _ => Some {| buffers := replicate count (Some (replicate size x00)); buffer_size := size;
                   pool_available := Z.of_nat count |}
  end.

(** The loop over the slots: the first full one is taken. *)
Fixpoint take_first (slots : list (option (list byte))) (index : nat)
    : option (list (option (list byte)) * PooledBuffer) :=
  match slots with
  | [] => None
  | Some b :: slots => Some (None :: slots, {| buffer := b; pb_index := index |})
  | None :: slots => '(slots, pooled) ← take_first slots (S index); Some (None :: slots, pooled)
  end.

Definition pool_try_acquire (p : BufferPool) : BufferPool * option PooledBuffer :=
  match take_first (buffers p) 0 with
  | Some (slots, pooled) =>
      ({| buffers := slots; buffer_size := buffer_size p;
          pool_available := usize_sub (pool_available p) 1 |}, Some pooled)
  | None => (p, None)
  end.

(** [Vec::resize]. *)
Definition vec_resize {A} (n : nat) (x : A) (l : list A) : list A := take n l ++ replicate (n - length l) x.

Definition pool_release (pooled : PooledBuffer) (p : BufferPool) : option BufferPool :=
  match buffers p !! pb_index pooled with
  | None => None
  | Some (Some _) => None
  | Some None =>
      let b := (λ _, x00) <$> buffer pooled in
      let b := vec_resize (buffer_size p) x00 b in
      Some {| buffers := <[pb_index pooled := Some b]> (buffers p); buffer_size := buffer_size p;
              pool_available := wrap_u64 (pool_available p + 1) |}
  end.

Definition pool_capacity (p : BufferPool) : Z := Z.of_nat (length (buffers p)).
Definition in_use (p : BufferPool) : Z := usize_sub (pool_capacity p) (pool_available p).

(** ** The counters under any interleaving *)

Definition same_counter (k g : Guard) : bool :=
  match k, g with
  | MemoryGuard _, MemoryGuard _ | ConnectionGuard, ConnectionGuard | OpGuard, OpGuard => true
  | _, _ => false
  end.

Definition limit (k : Guard) (b : MemoryBudget) : Z :=
  match k with
  | MemoryGuard _ => max_heap_bytes b
  | ConnectionGuard => max_connections b
  | OpGuard => max_pending_ops b
  end.

(** What a thread, and all threads together, hold in the counter of [k]. *)
Definition weight_in (k g : Guard) : Z := if same_counter k g then guard_weight g else 0.
Definition held (k : Guard) (th : Thread) : Z := sumZ (weight_in k) (guards th).
Definition held_by_all (k : Guard) (m : Machine) : Z := sumZ (held k) (threads m).

Definition budget_ok (b : MemoryBudget) : Prop := ∀ k, 0 <= limit k b < 2 ^ 64.

Definition thread_ok (th : Thread) : Prop :=
  (∀ g, g ∈ guards th → 0 <= guard_weight g < 2 ^ 64) ∧
  (∀ g o, trying th = Some (g, o) → 0 <= guard_weight g < 2 ^ 64).

Record machine_ok (b : MemoryBudget) (m : Machine) : Prop := {
  mo_budget : budget (tracker m) = b;
  mo_threads : ∀ i th, threads m !! i = Some th → thread_ok th;
  mo_counted : ∀ k, counter k (tracker m) = held_by_all k m;
  mo_within : ∀ k, held_by_all k m <= limit k b;
}.

Lemma sumZ_insert {A} (f : A → Z) l i x y :
  l !! i = Some x → sumZ f (<[i:=y]> l) = sumZ f l - f x + f y.
Proof.
  revert i. induction l as [|z l IH]; intros [|i] Hi; simplify_eq/=; try done.
  - unfold sumZ. simpl. lia.
  - unfold sumZ in *. simpl. rewrite (IH i Hi). lia.
Qed.

Lemma sumZ_nonneg {A} (f : A → Z) l : (∀ x, x ∈ l → 0 <= f x) → 0 <= sumZ f l.
Proof.
  induction l as [|x l IH]; intros Hf; [done|]. rewrite sumZ_cons.
  assert (0 <= f x) by (apply Hf; left). assert (0 <= sumZ f l); [|lia].
  apply IH. intros y Hy. apply Hf. by right.
Qed.

Lemma sumZ_elem_le {A} (f : A → Z) l x : (∀ y, y ∈ l → 0 <= f y) → x ∈ l → f x <= sumZ f l.
Proof.
  intros Hf [l1 [l2 ->]]%list_elem_of_split. rewrite sumZ_app, sumZ_cons.
  assert (0 <= sumZ f l1 ∧ 0 <= sumZ f l2); [|lia].
  split; apply sumZ_nonneg; intros y Hy; apply Hf; set_solver.
Qed.

Lemma counter_set k g v t :
  counter k (set_counter g v t) = if same_counter k g then v else counter k t.
Proof. by destruct k, g. Qed.

Lemma set_counter_budget g v t : budget (set_counter g v t) = budget t.
Proof. by destruct g. Qed.

Lemma limit_same k g b : same_counter k g = true → limit k b = limit g b.
Proof. by destruct k, g. Qed.

Lemma counter_same k g t : same_counter k g = true → counter k t = counter g t.
Proof. by destruct k, g. Qed.

Lemma guard_round_ok g current b v :
  budget_ok b → 0 <= current → guard_round g current b = Ok v →
  v = current + guard_weight g ∧ v <= limit g b.
Proof.
  intros Hb Hc. specialize (Hb g).
  destruct g; cbn; unfold allocate_round, connection_round, queue_round, usize_checked_add;
    repeat case_match; try done; intros [= <-]; simplify_eq; cbn in *; try lia.
  - rewrite wrap_u64_small by (unfold in_u64; lia). lia.
  - rewrite wrap_u64_small by (unfold in_u64; lia). lia.
Qed.

Section Invariant.
Context (b : MemoryBudget) (m : Machine) (Hb : budget_ok b) (Hm : machine_ok b m).

Lemma weight_in_nonneg i th k g : threads m !! i = Some th → g ∈ guards th → 0 <= weight_in k g.
Proof.
  intros Hi Hg. unfold weight_in. destruct (same_counter k g); [|done].
  by apply (proj1 (mo_threads _ _ Hm i th Hi)).
Qed.

Lemma held_nonneg i th k : threads m !! i = Some th → 0 <= held k th.
Proof. intros Hi. apply sumZ_nonneg. intros g. by apply (weight_in_nonneg i). Qed.

Lemma held_le_all i th k : threads m !! i = Some th → held k th <= held_by_all k m.
Proof.
  intros Hi. apply (sumZ_elem_le (held k)); [|by eapply list_elem_of_lookup_2].
  intros th' [j Hj]%list_elem_of_lookup. by apply (held_nonneg j).
Qed.

Lemma held_guard_le i th g :
  threads m !! i = Some th → g ∈ guards th → guard_weight g <= counter g (tracker m).
Proof.
  intros Hi Hg. rewrite (mo_counted _ _ Hm). etrans; [|by apply (held_le_all i th)].
  assert (weight_in g g = guard_weight g) as <- by by destruct g.
  apply (sumZ_elem_le (weight_in g)); [|done]. intros g'. by apply (weight_in_nonneg i).
Qed.

Lemma held_put i th th' t k :
  threads m !! i = Some th → held_by_all k (put i th' t m) = held_by_all k m - held k th + held k th'.
Proof. intros Hi. by apply sumZ_insert. Qed.

(** A thread's state may be replaced when the tracker accounts for the
    difference in what it holds. *)
Lemma machine_ok_put i th th' t :
  threads m !! i = Some th → budget t = b → thread_ok th' →
  (∀ k, counter k t = counter k (tracker m) - held k th + held k th' ∧
        (held k th' <= held k th ∨ counter k t <= limit k b)) →
  machine_ok b (put i th' t m).
Proof.
  intros Hi Ht Hth' Hk. split.
  - done.
  - intros j thj. cbn. rewrite list_lookup_insert. destruct (decide _) as [[-> ?]|].
    + by intros [= <-].
    + apply (mo_threads _ _ Hm).
  - intros k. rewrite (held_put i th) by done. rewrite <- (mo_counted _ _ Hm). by apply Hk.
  - intros k. rewrite (held_put i th) by done. pose proof (mo_within _ _ Hm k).
    pose proof (mo_counted _ _ Hm k). destruct (Hk k) as [Hc [?|?]]; lia.
Qed.

Lemma machine_ok_step m' : machine_step m m' → machine_ok b m'.
Proof.
  assert (∀ i th o, threads m !! i = Some th →
    (∀ g c, o = Some (g, c) → 0 <= guard_weight g < 2 ^ 64) →
    machine_ok b (put i {| guards := guards th; trying := o |} (tracker m) m)) as Hsame.
  { intros i th o Hi Ho. apply (machine_ok_put i th); [done|apply Hm| |].
    - split; [apply (mo_threads _ _ Hm i th Hi)|exact Ho].
    - intros k. unfold held. cbn [guards]. split; [lia|left; lia]. }
  intros [i th g Hi Htr Hg|i th g Hi Htr|i th g cur e Hi Htr Hr|i th g cur v Hi Htr Hr Hcur
         |i th g cur v Hi Htr Hr|i th g before after Hi Htr Hgs].
  - apply Hsame; [done|]. by intros g' c [= <- <-].
  - apply Hsame; [done|]. intros g' c [= <- <-]. by apply (mo_threads _ _ Hm i th Hi) in Htr.
  - by apply Hsame.
  - assert (0 <= cur) as Hc0.
    { rewrite <- Hcur, (mo_counted _ _ Hm). apply sumZ_nonneg.
      intros th' [j Hj]%list_elem_of_lookup. by apply (held_nonneg j). }
    rewrite (mo_budget _ _ Hm) in Hr. apply guard_round_ok in Hr as [-> Hlim]; [|done|done].
    apply (machine_ok_put i th); [done|rewrite set_counter_budget; apply Hm| |].
    + destruct (mo_threads _ _ Hm i th Hi) as [Hgs Hgt]. split; [|done]. cbn [guards].
      intros g' [->|Hg']%elem_of_cons; [by eapply Hgt|by apply Hgs].
    + intros k. rewrite counter_set. unfold held. cbn [guards]. rewrite sumZ_cons.
      assert (weight_in k g = if same_counter k g then guard_weight g else 0) as Hwk by done.
      destruct (same_counter k g) eqn:Hk; [|split; [lia|left; lia]].
      rewrite (counter_same k g), (limit_same k g), Hcur by done. split; [lia|by right].
  - apply Hsame; [done|]. intros g' c [= <- <-]. by apply (mo_threads _ _ Hm i th Hi) in Htr.
  - assert (g ∈ guards th) as Hg by (rewrite Hgs; set_solver).
    pose proof (held_guard_le i th g Hi Hg) as Hle.
    destruct (mo_threads _ _ Hm i th Hi) as [Hw _]. pose proof (Hw g Hg) as Hwg.
    apply (machine_ok_put i th); [done|cbn; rewrite set_counter_budget; apply Hm| |].
    + split; [|done]. cbn [guards]. intros g' Hg'. apply Hw. rewrite Hgs. set_solver.
    + intros k. cbn [drop_guard fst]. rewrite counter_set. unfold held. cbn [guards].
      rewrite Hgs, !sumZ_app, sumZ_cons.
      assert (weight_in k g = if same_counter k g then guard_weight g else 0) as Hwk by done.
      destruct (same_counter k g) eqn:Hk; [|split; [lia|left; lia]].
      rewrite (counter_same k g) by done.
      assert (counter g (tracker m) < 2 ^ 64).
      { rewrite (mo_counted _ _ Hm). pose proof (mo_within _ _ Hm g). specialize (Hb g). lia. }
      rewrite usize_sub_ge by lia. split; [lia|left; lia].
Qed.
End Invariant.

Lemma machine_new_ok b n : budget_ok b → machine_ok b (machine_new b n).
Proof.
  intros Hb.
  assert (∀ k, held_by_all k (machine_new b n) = 0) as H0.
  { intros k. unfold held_by_all. cbn [machine_new threads].
    induction n as [|n IH]; [done|]. cbn [replicate]. rewrite sumZ_cons, IH. done. }
  split; [done| | |].
  - intros i th [-> _]%lookup_replicate. split; [|done]. intros g. cbn. by intros ?%elem_of_nil.
  - intros k. rewrite H0. by destruct k.
  - intros k. rewrite H0. apply Hb.
Qed.

(** C20. Whatever the number of threads and however their accesses interleave, each
    counter is exactly what the guards alive hold and never exceeds the
    budget, and dropping a guard never underflows it: the assertion in [drop]
    holds. *)
Theorem memory_budget_safe b n m :
  budget_ok b → rtc machine_step (machine_new b n) m →
  (∀ k, counter k (tracker m) = held_by_all k m ∧ 0 <= counter k (tracker m) <= limit k b) ∧
  ∀ i th g, threads m !! i = Some th → g ∈ guards th → (drop_guard g (tracker m)).2 = true.
Proof.
  intros Hb Hrtc.
  assert (machine_ok b m) as Hm.
  { eapply rtc_invariant; [|exact Hrtc|by apply machine_new_ok]. eauto using machine_ok_step. }
  split.
  - intros k. split; [apply (mo_counted _ _ Hm)|]. split.
    + rewrite (mo_counted _ _ Hm). apply sumZ_nonneg.
      intros th [j Hj]%list_elem_of_lookup. by apply (held_nonneg b m Hm j).
    + rewrite (mo_counted _ _ Hm). apply (mo_within _ _ Hm).
  - intros i th g Hi Hg. apply Z.leb_le. by apply (held_guard_le b m Hm i th).
Qed.

(** A step of a thread in the middle of a run of the same thread. *)
Lemma put_put i th th' t t' m : put i th t (put i th' t' m) = put i th t m.
Proof. unfold put. cbn [threads]. by rewrite list_insert_insert_eq. Qed.

Lemma put_step i th th' t t' m :
  machine_step (put i th t m) (put i th' t' (put i th t m)) →
  machine_step (put i th t m) (put i th' t' m).
Proof. by rewrite put_put. Qed.

(** A call that is not disturbed behaves as [try_guard]: call, load and
    exchange, or call, load and refusal, lead to its tracker, with the guard
    among the thread's guards exactly when it was granted.  It is granted
    exactly when what all threads hold plus the request is within the budget. *)
Theorem undisturbed_call b m i th g :
  budget_ok b → machine_ok b m → threads m !! i = Some th → trying th = None →
  0 <= guard_weight g < 2 ^ 64 →
  let (t', r) := try_guard g (tracker m) in
  rtc machine_step m
    (put i {| guards := (if is_ok r then [g] else []) ++ guards th; trying := None |} t' m) ∧
  (is_ok r = true ↔ held_by_all g m + guard_weight g <= limit g b) ∧
  (is_ok r = false → t' = tracker m).
Proof.
  intros Hb Hm Hi Htr Hg. unfold try_guard. set (cur := counter g (tracker m)).
  assert (0 <= cur <= limit g b) as Hcur.
  { subst cur. rewrite (mo_counted _ _ Hm). split; [|apply (mo_within _ _ Hm)].
    apply sumZ_nonneg. intros th' [j Hj]%list_elem_of_lookup. by apply (held_nonneg b m Hm j). }
  assert (i < length (threads m))%nat as Hlt by by eapply lookup_lt_Some.
  assert (∀ x t, threads (put i x t m) !! i = Some x) as Hput
    by (intros; cbn; by apply list_lookup_insert_eq).
  assert (rtc machine_step m (put i {| guards := guards th; trying := Some (g, Some cur) |} (tracker m) m))
    as Hload.
  { eapply rtc_l; [by apply (ms_call m i th g)|]. apply rtc_once.
    by apply put_step, (ms_load (put i _ (tracker m) m) i
      {| guards := guards th; trying := Some (g, None) |} g); [apply Hput|]. }
  rewrite (mo_budget _ _ Hm).
  rewrite <- (mo_counted _ _ Hm g). fold cur.
  destruct (guard_round g cur b) as [v|e] eqn:Hr; cbn [is_ok app]; split.
  - eapply rtc_r; [exact Hload|].
    apply put_step, (ms_exchange (put i _ (tracker m) m) i
      {| guards := guards th; trying := Some (g, Some cur) |} g cur v); [apply Hput|done| |done]. cbn. by rewrite (mo_budget _ _ Hm).
  - apply guard_round_ok in Hr as [-> Hv]; [|done|lia]. split; [|done]. split; [lia|done].
  - eapply rtc_r; [exact Hload|].
    apply put_step, (ms_refuse (put i _ (tracker m) m) i
      {| guards := guards th; trying := Some (g, Some cur) |} g cur e); [apply Hput|done|]. cbn. by rewrite (mo_budget _ _ Hm).
  - split; [|done]. split; [done|]. intros Hle. exfalso. specialize (Hb g).
    destruct g; cbn in *; unfold allocate_round, connection_round, queue_round, usize_checked_add in Hr;
      repeat case_match; simplify_eq; lia.
Qed.

(** ** Buffer pools *)

Definition free_slots (p : BufferPool) : nat :=
  length (retain (λ s, match s with Some _ => true | None => false end) (buffers p)).

Record pool_ok (p : BufferPool) : Prop := {
  po_clean : ∀ i b, buffers p !! i = Some (Some b) → b = replicate (buffer_size p) x00;
  po_count : pool_available p = Z.of_nat (free_slots p);
  po_size : Z.of_nat (length (buffers p)) < 2 ^ 64;
}.

Lemma take_first_spec slots index :
  match take_first slots index with
  | None => ∀ i s, slots !! i = Some s → s = None
  | Some (slots', pb) =>
      ∃ i, slots !! i = Some (Some (buffer pb)) ∧ slots' = <[i := None]> slots ∧
           pb_index pb = (index + i)%nat ∧ ∀ j s, (j < i)%nat → slots !! j = Some s → s = None
  end.
Proof.
  revert index. induction slots as [|[b|] slots IH]; intros index; cbn [take_first].
  - done.
  - exists 0%nat. split_and!; [done|done|cbn; lia|lia].
  - specialize (IH (S index)). destruct (take_first slots (S index)) as [[slots' pb]|]; cbn.
    + destruct IH as (i & Hi & -> & Hx & Hmin). exists (S i). split_and!; [done|done|lia|].
      intros [|j] s Hj; cbn; [by intros [= <-]|]. apply Hmin. lia.
    + intros [|i] s; cbn; [by intros [= <-]|apply IH].
Qed.

Lemma free_slots_insert l i s s' :
  l !! i = Some s →
  let full (s : option (list byte)) := match s with Some _ => true | None => false end in
  (length (retain full (<[i:=s']> l)) + (if full s then 1 else 0)
   = length (retain full l) + (if full s' then 1 else 0))%nat.
Proof.
  intros Hi full. revert i Hi. induction l as [|x l IH]; intros [|i] Hi; simplify_eq/=; try done.
  - destruct (full s), (full s'); cbn; lia.
  - specialize (IH i Hi). destruct (full x); cbn; lia.
Qed.

Lemma vec_resize_zeros n (l : list byte) : vec_resize n x00 ((λ _, x00) <$> l) = replicate n x00.
Proof.
  unfold vec_resize. rewrite length_fmap.
  assert (((λ _, x00) <$> l) = replicate (length l) x00) as -> by (induction l; simpl; f_equal; done).
  rewrite take_replicate, <- replicate_add. f_equal. lia.
Qed.

(** A buffer is handed out zeroed and of the pool's size, from the first free
    slot, or not at all when every slot is taken; giving it back, whatever was
    written to it or however it was resized, never panics and restores the
    pool exactly. *)
Theorem buffer_pool_spec p :
  pool_ok p →
  match pool_try_acquire p with
  | (p', None) => p' = p ∧ free_slots p = 0%nat
  | (p', Some pb) =>
      pool_ok p' ∧ S (free_slots p') = free_slots p ∧ in_use p' = in_use p + 1 ∧
      buffer pb = replicate (buffer_size p) x00 ∧
      ∀ contents, pool_release {| buffer := contents; pb_index := pb_index pb |} p' = Some p
  end.
Proof.
  intros [Hclean Hcount Hsize]. unfold pool_try_acquire.
  pose proof (take_first_spec (buffers p) 0) as Hspec.
  destruct (take_first (buffers p) 0) as [[slots pb]|].
  - destruct Hspec as (i & Hi & -> & Hx & _). cbn in Hx. subst i.
    pose proof (lookup_lt_Some _ _ _ Hi) as Hlt.
    pose proof (free_slots_insert (buffers p) (pb_index pb) _ None Hi) as Hfree. cbn in Hfree.
    pose proof (retain_length (λ s, match s with Some _ => true | None => false end) (buffers p)) as Hrl.
    assert (usize_sub (pool_available p) 1 = Z.of_nat (free_slots p) - 1) as Hav.
    { rewrite Hcount. apply usize_sub_ge; unfold free_slots in *; lia. }
    split_and!.
    + split; cbn.
      * intros j b. rewrite list_lookup_insert. case_decide; [done|apply Hclean].
      * rewrite Hav. unfold free_slots in *. cbn. lia.
      * by rewrite length_insert.
    + unfold free_slots in *. cbn. lia.
    + unfold in_use, pool_capacity. cbn. rewrite length_insert, Hav, Hcount.
      unfold free_slots in *. rewrite !usize_sub_ge by lia. lia.
    + by apply Hclean in Hi.
    + intros contents. unfold pool_release. cbn [pb_index buffers buffer buffer_size].
      rewrite list_lookup_insert_eq by done. rewrite vec_resize_zeros, list_insert_insert_eq.
      rewrite list_insert_id by (by rewrite Hi, (Hclean _ _ Hi)).
      cbn [pool_available]. rewrite Hav, wrap_u64_small by (unfold in_u64, free_slots in *; lia).
      destruct p as [bs sz av]. cbn in *. do 2 f_equal. lia.
  - split; [done|]. unfold free_slots. rewrite retain_none; [done|].
    intros s [i Hi]%list_elem_of_lookup. by rewrite (Hspec i s Hi).
Qed.
