(* ===== verification/DutyCycle.v ===== *)
(** * Duty cycles

    Models [indras-iot/src/duty_cycle.rs].  Durations are nanoseconds; an
    operation that reads the clock to decide and again to stamp the new state
    takes both readings. *)

From Stdlib Require Import Floats.SpecFloat.
From S2P Require Import Prelude Float Heat Bundle.

Record DutyCycleConfig : Type := {
  active_duration : Z;
  sleep_duration : Z;
  min_sync_interval : Z;
  max_pending_before_wake : Z;
  low_battery_threshold : f32;
}.

Definition duty_config_default : DutyCycleConfig :=
  {| active_duration := from_secs 30; sleep_duration := from_secs 270;
     min_sync_interval := from_secs 60; max_pending_before_wake := 10;
     low_battery_threshold := f32_ratio 2 10 |}.

Definition duty_config_low_power : DutyCycleConfig :=
  {| active_duration := from_secs 10; sleep_duration := from_secs 590;
     min_sync_interval := from_secs 300; max_pending_before_wake := 20;
     low_battery_threshold := f32_ratio 1 10 |}.

Definition duty_config_balanced : DutyCycleConfig := duty_config_default.

Definition duty_config_responsive : DutyCycleConfig :=
  {| active_duration := from_secs 60; sleep_duration := from_secs 60;
     min_sync_interval := from_secs 30; max_pending_before_wake := 5;
     low_battery_threshold := f32_ratio 3 10 |}.

(** [Duration::as_secs_f32] and [Duration::MAX]. *)
Definition as_secs_f32 (d : Z) : f32 :=
  f32_add (f32_of_Z (d / 10 ^ 9)) (f32_div (f32_of_Z (d mod 10 ^ 9)) (f32_of_Z (10 ^ 9))).

Definition duration_max : Z := (2 ^ 64 - 1) * 10 ^ 9 + 999999999.

Definition duty_percentage (c : DutyCycleConfig) : f32 :=
  let total := active_duration c + sleep_duration c in
  if total =? 0 then f32_of_Z 100
  else f32_mul (f32_div (as_secs_f32 (active_duration c)) (as_secs_f32 total)) (f32_of_Z 100).

Inductive PowerState : Type := PsActive | PreSleep | Sleeping | Waking.

#[global] Instance PowerState_eq_dec : EqDecision PowerState.
Proof. solve_decision. Defined.

Inductive DutyCycleError : Type :=
| NotAllowedInState (s : PowerState)
| TooManyPending (count : Z).

Record DutyCycleManager : Type := {
  duty_config : DutyCycleConfig;
  state : PowerState;
  state_entered : Z;
  last_sync : option Z;
  dc_pending_count : Z;
  battery_level : f32;
}.

Definition duty_new (now : Z) (c : DutyCycleConfig) : DutyCycleManager :=
  {| duty_config := c; state := PsActive; state_entered := now; last_sync := None; dc_pending_count := 0;
     battery_level := f32_one |}.

Definition transition_to (now : Z) (s : PowerState) (m : DutyCycleManager) : DutyCycleManager :=
  {| duty_config := duty_config m; state := s; state_entered := now; last_sync := last_sync m;
     dc_pending_count := dc_pending_count m; battery_level := battery_level m |}.

Definition set_battery_level (level : f32) (m : DutyCycleManager) : DutyCycleManager :=
  {| duty_config := duty_config m; state := state m; state_entered := state_entered m;
     last_sync := last_sync m; dc_pending_count := dc_pending_count m;
     battery_level := f32_clamp f32_zero f32_one level |}.

Definition set_pending_count (n : Z) (m : DutyCycleManager) : DutyCycleManager :=
  {| duty_config := duty_config m; state := state m; state_entered := state_entered m;
     last_sync := last_sync m; dc_pending_count := n; battery_level := battery_level m |}.

Definition should_allow_operation (is_urgent : bool) (m : DutyCycleManager) : bool :=
  match state m with
  | PsActive | Waking => true
  | PreSleep => is_urgent
  | Sleeping => is_urgent || (max_pending_before_wake (duty_config m) <=? dc_pending_count m)
  end.

(** [Instant::elapsed] saturates at zero. *)
Definition elapsed (since now : Z) : Z := Z.max 0 (now - since).

Definition should_sync (now : Z) (m : DutyCycleManager) : bool :=
  if negb (bool_decide (state m = PsActive)) then false
  else match last_sync m with
       | None => true
       | Some last => min_sync_interval (duty_config m) <=? elapsed last now
       end.

Definition record_sync (now : Z) (m : DutyCycleManager) : DutyCycleManager :=
  {| duty_config := duty_config m; state := state m; state_entered := state_entered m;
     last_sync := Some now; dc_pending_count := dc_pending_count m; battery_level := battery_level m |}.

Definition wake (now : Z) (m : DutyCycleManager) : DutyCycleManager :=
  match state m with
  | Sleeping | PreSleep => transition_to now Waking m
  | _ => m
  end.

Definition sleep (now : Z) (m : DutyCycleManager) : DutyCycleManager :=
  match state m with
  | PsActive => transition_to now PreSleep m
  | _ => m
  end.

Definition add_pending (now : Z) (m : DutyCycleManager) : DutyCycleManager * Result unit DutyCycleError :=
  let m := set_pending_count (usize_saturating_add (dc_pending_count m) 1) m in
  let threshold := max_pending_before_wake (duty_config m) in
  if wrap_u64 (threshold * 2) <? dc_pending_count m then (m, Err (TooManyPending (dc_pending_count m)))
  else if bool_decide (state m = Sleeping) && (threshold <=? dc_pending_count m)
       then (wake now m, Ok tt)
       else (m, Ok tt).

Definition complete_pending (m : DutyCycleManager) : DutyCycleManager :=
  set_pending_count (usize_saturating_sub (dc_pending_count m) 1) m.

Definition duty_clear_pending (m : DutyCycleManager) : DutyCycleManager := set_pending_count 0 m.

(** How long the manager stays in its state; a low battery doubles the
    sleep. *)
Definition effective_sleep (m : DutyCycleManager) : Z :=
  if SFltb (battery_level m) (low_battery_threshold (duty_config m))
  then Z.min duration_max (sleep_duration (duty_config m) * 2)
  else sleep_duration (duty_config m).

Definition tick (now now' : Z) (m : DutyCycleManager) : DutyCycleManager * PowerState :=
  let el := elapsed (state_entered m) now in
  let c := duty_config m in
  let m' :=
    match state m with
    | PsActive => if active_duration c <=? el then transition_to now' PreSleep m else m
    | PreSleep => if from_secs 5 <=? el then transition_to now' Sleeping m else m
    | Sleeping => if effective_sleep m <=? el then transition_to now' Waking m else m
    | Waking => if from_secs 2 <=? el then transition_to now' PsActive m else m
    end in
  (m', state m').

Definition time_until_transition (now : Z) (m : DutyCycleManager) : Z :=
  let el := elapsed (state_entered m) now in
  let target :=
    match state m with
    | PsActive => active_duration (duty_config m)
    | PreSleep => from_secs 5
    | Sleeping => effective_sleep m
    | Waking => from_secs 2
    end in
  Z.max 0 (target - el).

(** ** Properties *)

(** The state that follows in the cycle. *)
Definition next_state (s : PowerState) : PowerState :=
  match s with PsActive => PreSleep | PreSleep => Sleeping | Sleeping => Waking | Waking => PsActive end.

(** The reported waiting time is exact: a tick moves to the next state of the
    cycle exactly when it is zero, and otherwise changes nothing; so whoever
    waits for the reported time and ticks advances the machine. *)
Theorem tick_spec now now' m :
  (time_until_transition now m = 0 →
     tick now now' m = (transition_to now' (next_state (state m)) m, next_state (state m))) ∧
  (time_until_transition now m ≠ 0 → tick now now' m = (m, state m)) ∧
  (state_entered m <= now → ∀ d, 0 <= d →
     time_until_transition (now + d) m = Z.max 0 (time_until_transition now m - d)).
Proof.
  unfold time_until_transition, tick, elapsed. split_and!.
  - destruct (state m) eqn:Hs; intros H;
      (rewrite (proj2 (Z.leb_le _ _)) by lia); done.
  - destruct (state m) eqn:Hs; intros H;
      (rewrite (proj2 (Z.leb_gt _ _)) by lia); by rewrite Hs.
  - intros Hle d Hd. destruct (state m); lia.
Qed.

(** What the environment does to a manager, in time. *)
Inductive duty_step : DutyCycleManager → DutyCycleManager → Prop :=
| ds_tick m now now' : duty_step m (tick now now' m).1
| ds_wake m now : duty_step m (wake now m)
| ds_sleep m now : duty_step m (sleep now m)
| ds_add m now : duty_step m (add_pending now m).1
| ds_complete m : duty_step m (complete_pending m)
| ds_clear m : duty_step m (duty_clear_pending m)
| ds_sync m now : duty_step m (record_sync now m)
| ds_battery m level : is_nan level = false → duty_step m (set_battery_level level m).

(** The count stays a [usize] and the battery level within [0, 1]. *)
Definition duty_ok (m : DutyCycleManager) : Prop :=
  0 <= dc_pending_count m < 2 ^ 64 ∧ in_unit (battery_level m).

Lemma duty_step_ok m m' : duty_step m m' → duty_ok m → duty_ok m'.
Proof.
  intros Hs [Hp Hb]. assert (duty_ok m) as Hm by done. destruct Hs as [m now now'|m now|m now|m now|m|m|m now|m level Hl].
  - unfold tick. destruct (state m); cbn; destruct (_ <=? _); done.
  - unfold wake. by destruct (state m).
  - unfold sleep. by destruct (state m).
  - unfold add_pending, wake. repeat case_match; cbn in *; (split; [|done]); cbn;
      unfold usize_saturating_add; lia.
  - split; [|done]. cbn. unfold usize_saturating_sub. lia.
  - by split.
  - by split.
  - split; [done|]. by apply f32_clamp_unit.
Qed.

(** Only the transitions of the cycle and the forced ones occur: a state
    changes to its successor, from pre-sleep or sleep to waking, or not at
    all; and the battery level stays within [0, 1]. *)
Theorem duty_cycle_safe now c m m' :
  rtc duty_step (duty_new now c) m → duty_step m m' →
  (state m' = state m ∨ state m' = next_state (state m) ∨
   state m = PreSleep ∧ state m' = Waking) ∧
  duty_ok m' ∧
  (∀ urgent, should_allow_operation urgent m' = false → urgent = false ∧
     (state m' = PreSleep ∨
      state m' = Sleeping ∧ dc_pending_count m' < max_pending_before_wake (duty_config m'))).
Proof.
  intros Hrtc Hstep. split_and!.
  - destruct Hstep; try (by left).
    + unfold tick. destruct (state m) eqn:Hs; cbn; destruct (_ <=? _); cbn; rewrite ?Hs; auto.
    + unfold wake. destruct (state m) eqn:Hs; cbn; rewrite ?Hs; auto.
    + unfold sleep. destruct (state m) eqn:Hs; cbn; rewrite ?Hs; auto.
    + unfold add_pending, wake. cbn. repeat case_match; cbn in *; simplify_eq; auto.
  - assert (duty_ok (duty_new now c)) as H0 by (split; [done|apply f32_one_unit]).
    apply (duty_step_ok m); [done|]. eapply rtc_invariant; [exact duty_step_ok|exact Hrtc|done].
  - intros urgent. unfold should_allow_operation.
    destruct (state m'); try done; [by auto|].
    intros [-> Hlt]%orb_false_iff. split; [done|]. right. split; [done|lia].
Qed.

(** Queuing while asleep wakes the device as soon as the threshold is reached;
    beyond twice the threshold the operation is refused, and is counted all the
    same. *)
Theorem add_pending_spec now m :
  let c := max_pending_before_wake (duty_config m) in
  0 <= c < 2 ^ 63 → 0 <= dc_pending_count m < 2 ^ 64 - 1 →
  let (m', r) := add_pending now m in
  dc_pending_count m' = dc_pending_count m + 1 ∧
  (r = Err (TooManyPending (dc_pending_count m')) ↔ 2 * c < dc_pending_count m') ∧
  (r = Ok tt → state m = Sleeping → c <= dc_pending_count m' → state m' = Waking ∧ state_entered m' = now) ∧
  (r = Ok tt → state m ≠ Sleeping ∨ dc_pending_count m' < c → state m' = state m).
Proof.
  intros c Hc Hp. unfold add_pending. cbn [set_pending_count duty_config dc_pending_count state]. fold c.
  assert (usize_saturating_add (dc_pending_count m) 1 = dc_pending_count m + 1) as Hadd
    by (unfold usize_saturating_add; lia).
  rewrite Hadd, wrap_u64_small by (unfold in_u64; lia).
  destruct (c * 2 <? dc_pending_count m + 1) eqn:Hover.
  { cbn. split_and!; try done. split; [lia|done]. }
  destruct (bool_decide (state m = Sleeping)) eqn:Hs; cbn [andb].
  - apply bool_decide_eq_true in Hs. destruct (c <=? dc_pending_count m + 1) eqn:Hth.
    + unfold wake. cbn. rewrite Hs. cbn. split_and!; try done; [split; [done|lia]|].
      intros _ [?|?]; [done|lia].
    + cbn. rewrite Hs. split_and!; try done; [split; [done|lia]|]. lia.
  - apply bool_decide_eq_false in Hs. cbn. split_and!; try done. split; [done|lia].
Qed.
