(* ===== verification/RelayConfig.v ===== *)
(** * Relay configuration and storage tiers

    Models [indras-relay/src/config.rs], [tier.rs], [error.rs] and the
    configuration patches of [admin.rs].  Paths and socket addresses are the
    strings they are parsed from. *)

From S2P Require Import Prelude.

Local Open Scope string_scope.
Local Open Scope Z_scope.

(** ** Errors *)

(** [RelayError], with the database and I/O errors as the texts they carry. *)
Inductive RelayError : Type :=
| ReStorage (msg : string)
| QuotaExceeded (reason : string)
| ReRegistration (msg : string)
| InterfaceNotRegistered (id : arr32)
| ReTransport (msg : string)
| ReConfig (msg : string)
| ReAdmin (msg : string)
| AuthenticationFailed (msg : string)
| TierAccessDenied (msg : string)
| InvalidCredential (msg : string)
| ReDatabase (msg : string)
| ReIo (msg : string)
| ReSerialization (msg : string).

(** [{:?}] of a byte array. *)
Fixpoint debug_items (l : list byte) : string :=
  match l with
  | [] => ""
  | [b] => i64_to_string (Z.of_N (Byte.to_N b))
  | b :: l => i64_to_string (Z.of_N (Byte.to_N b)) ++ ", " ++ debug_items l
  end.

Definition relay_error_message (e : RelayError) : string :=
  match e with
  | ReStorage m => "Storage error: " ++ m
  | QuotaExceeded m => "Quota exceeded for peer: " ++ m
  | ReRegistration m => "Registration error: " ++ m
  | InterfaceNotRegistered id => 
      "Interface not registered: InterfaceId([" ++ debug_items (arr32_bytes id) ++ "])"
  | ReTransport m => "Transport error: " ++ m
  | ReConfig m => "Configuration error: " ++ m
  | ReAdmin m => "Admin API error: " ++ m
  | AuthenticationFailed m => "Authentication failed: " ++ m
  | TierAccessDenied m => "Tier access denied: " ++ m
  | InvalidCredential m => "Invalid credential: " ++ m
  | ReDatabase m => "Database error: " ++ m
  | ReIo m => "IO error: " ++ m
  | ReSerialization m => "Serialization error: " ++ m
  end.

(** ** Configuration *)

Record QuotaConfig : Type := {
  default_max_bytes_per_peer : Z;
  default_max_interfaces_per_peer : Z;
  global_max_bytes : Z;
}.

Definition quota_config_default : QuotaConfig :=
  {| default_max_bytes_per_peer := 100 * 1024 * 1024; default_max_interfaces_per_peer := 50;
     global_max_bytes := 10 * 1024 * 1024 * 1024 |}.

Record StorageConfig : Type := {
  default_event_ttl_days : Z;
  max_event_ttl_days : Z;
  cleanup_interval_secs : Z;
}.

Definition storage_config_default : StorageConfig :=
  {| default_event_ttl_days := 90; max_event_ttl_days := 365; cleanup_interval_secs := 3600 |}.

Record TierConfig : Type := {
  self_max_bytes : Z;
  self_ttl_days : Z;
  self_max_interfaces : Z;
  connections_max_bytes : Z;
  connections_ttl_days : Z;
  connections_max_interfaces : Z;
  public_max_bytes : Z;
  public_ttl_days : Z;
  public_max_interfaces : Z;
}.

Definition tier_config_default : TierConfig :=
  {| self_max_bytes := 1024 * 1024 * 1024; self_ttl_days := 365; self_max_interfaces := 100;
     connections_max_bytes := 500 * 1024 * 1024; connections_ttl_days := 90;
     connections_max_interfaces := 200;
     public_max_bytes := 50 * 1024 * 1024; public_ttl_days := 7; public_max_interfaces := 50 |}.

Record RelayConfig : Type := {
  data_dir : string;
  rc_display_name : string;
  admin_bind : string;
  admin_token : string;
  rc_quota : QuotaConfig;
  rc_storage : StorageConfig;
  owner_player_id : option string;
  rc_tiers : TierConfig;
}.

Definition relay_config_default : RelayConfig :=
  {| data_dir := "./relay-data"; rc_display_name := "indras-relay"; admin_bind := "127.0.0.1:9090";
     admin_token := "change-me"; rc_quota := quota_config_default; rc_storage := storage_config_default;
     owner_player_id := None; rc_tiers := tier_config_default |}.

(** The loops over the fields that must not be zero. *)
Fixpoint check_nonzero (checks : list (string * Z)) : Result unit RelayError :=
  match checks with
  | [] => Ok tt
  | (name, value) :: checks =>
      if value =? 0 then Err (ReConfig (name ++ " must be non-zero")) else check_nonzero checks
  end.

Definition relay_config_validate (c : RelayConfig) : Result unit RelayError :=
  let s := rc_storage c in
  let q := rc_quota c in
  let t := rc_tiers c in
  if max_event_ttl_days s <? default_event_ttl_days s then
    Err (ReConfig ("storage.max_event_ttl_days (" ++ i64_to_string (max_event_ttl_days s)
      ++ ") must be >= storage.default_event_ttl_days ("
      ++ i64_to_string (default_event_ttl_days s) ++ ")"))
  else if global_max_bytes q <? default_max_bytes_per_peer q then
    Err (ReConfig ("quota.global_max_bytes (" ++ i64_to_string (global_max_bytes q)
      ++ ") must be >= quota.default_max_bytes_per_peer ("
      ++ i64_to_string (default_max_bytes_per_peer q) ++ ")"))
  else
    rbind (check_nonzero
      [("quota.default_max_interfaces_per_peer", default_max_interfaces_per_peer q);
       ("tiers.self_max_interfaces", self_max_interfaces t);
       ("tiers.connections_max_interfaces", connections_max_interfaces t);
       ("tiers.public_max_interfaces", public_max_interfaces t)]) (λ _,
    check_nonzero
      [("quota.default_max_bytes_per_peer", default_max_bytes_per_peer q);
       ("quota.global_max_bytes", global_max_bytes q);
       ("tiers.self_max_bytes", self_max_bytes t);
       ("tiers.connections_max_bytes", connections_max_bytes t);
       ("tiers.public_max_bytes", public_max_bytes t)]).

(** ** Patches *)

Record QuotaConfigPatch : Type := {
  qp_default_max_bytes_per_peer : option Z;
  qp_default_max_interfaces_per_peer : option Z;
  qp_global_max_bytes : option Z;
}.

Record StorageConfigPatch : Type := {
  sp_default_event_ttl_days : option Z;
  sp_max_event_ttl_days : option Z;
  sp_cleanup_interval_secs : option Z;
}.

Record TierConfigPatch : Type := {
  tp_self_max_bytes : option Z;
  tp_self_ttl_days : option Z;
  tp_self_max_interfaces : option Z;
  tp_connections_max_bytes : option Z;
  tp_connections_ttl_days : option Z;
  tp_connections_max_interfaces : option Z;
  tp_public_max_bytes : option Z;
  tp_public_ttl_days : option Z;
  tp_public_max_interfaces : option Z;
}.

Record RelayConfigPatch : Type := {
  rp_display_name : option string;
  rp_quota : option QuotaConfigPatch;
  rp_storage : option StorageConfigPatch;
  rp_tiers : option TierConfigPatch;
}.

(** [if let Some(v) = patch { field = v }]. *)
Definition patched {A} (p : option A) (old : A) : A := default old p.

Definition patch_quota (p : QuotaConfigPatch) (c : QuotaConfig) : QuotaConfig :=
  {| default_max_bytes_per_peer := patched (qp_default_max_bytes_per_peer p) (default_max_bytes_per_peer c);
     default_max_interfaces_per_peer :=
       patched (qp_default_max_interfaces_per_peer p) (default_max_interfaces_per_peer c);
     global_max_bytes := patched (qp_global_max_bytes p) (global_max_bytes c) |}.

Definition patch_storage (p : StorageConfigPatch) (c : StorageConfig) : StorageConfig :=
  {| default_event_ttl_days := patched (sp_default_event_ttl_days p) (default_event_ttl_days c);
     max_event_ttl_days := patched (sp_max_event_ttl_days p) (max_event_ttl_days c);
     cleanup_interval_secs := patched (sp_cleanup_interval_secs p) (cleanup_interval_secs c) |}.

Definition patch_tiers (p : TierConfigPatch) (c : TierConfig) : TierConfig :=
  {| self_max_bytes := patched (tp_self_max_bytes p) (self_max_bytes c);
     self_ttl_days := patched (tp_self_ttl_days p) (self_ttl_days c);
     self_max_interfaces := patched (tp_self_max_interfaces p) (self_max_interfaces c);
     connections_max_bytes := patched (tp_connections_max_bytes p) (connections_max_bytes c);
     connections_ttl_days := patched (tp_connections_ttl_days p) (connections_ttl_days c);
     connections_max_interfaces :=
       patched (tp_connections_max_interfaces p) (connections_max_interfaces c);
     public_max_bytes := patched (tp_public_max_bytes p) (public_max_bytes c);
     public_ttl_days := patched (tp_public_ttl_days p) (public_ttl_days c);
     public_max_interfaces := patched (tp_public_max_interfaces p) (public_max_interfaces c) |}.

(** A sub-patch that is absent changes nothing. *)
Definition patch_with {P C} (f : P → C → C) (p : option P) (c : C) : C :=
  match p with Some p => f p c | None => c end.

Definition apply_to (p : RelayConfigPatch) (c : RelayConfig) : RelayConfig :=
  {| data_dir := data_dir c; rc_display_name := patched (rp_display_name p) (rc_display_name c);
     admin_bind := admin_bind c; admin_token := admin_token c;
     rc_quota := patch_with patch_quota (rp_quota p) (rc_quota c);
     rc_storage := patch_with patch_storage (rp_storage p) (rc_storage c);
     owner_player_id := owner_player_id c;
     rc_tiers := patch_with patch_tiers (rp_tiers p) (rc_tiers c) |}.

(** The view returned to administrators has no [admin_token]. *)
Record RelayConfigView : Type := {
  rv_data_dir : string;
  rv_display_name : string;
  rv_admin_bind : string;
  rv_owner_player_id : option string;
  rv_quota : QuotaConfig;
  rv_storage : StorageConfig;
  rv_tiers : TierConfig;
}.

Definition config_view_of (c : RelayConfig) : RelayConfigView :=
  {| rv_data_dir := data_dir c; rv_display_name := rc_display_name c; rv_admin_bind := admin_bind c;
     rv_owner_player_id := owner_player_id c; rv_quota := rc_quota c; rv_storage := rc_storage c;
     rv_tiers := rc_tiers c |}.

(** ** Tiers *)

Inductive StorageTier : Type := Self_ | Connections | Public.

#[global] Instance StorageTier_eq_dec : EqDecision StorageTier.
Proof. solve_decision. Defined.

#[global] Instance StorageTier_countable : Countable StorageTier.
Proof.
  refine (inj_countable' (λ t, match t with Self_ => 0%nat | Connections => 1%nat | Public => 2%nat end)
    (λ n, match n with O => Self_ | S O => Connections | _ => Public end) _).
  by intros [].
Defined.

(** [{:?}]. *)
Definition tier_debug (t : StorageTier) : string :=
  match t with Self_ => "Self_" | Connections => "Connections" | Public => "Public" end.

Definition ALL_TIERS : list StorageTier := [Self_; Connections; Public].

Definition determine_tier (player_id : arr32) (owner_id : option arr32) (contacts : list arr32)
    : StorageTier :=
  if bool_decide (owner_id = Some player_id) then Self_
  else if bool_decide (player_id ∈ contacts) then Connections
  else Public.

Definition granted_tiers (highest : StorageTier) : list StorageTier :=
  match highest with
  | Self_ => [Self_; Connections; Public]
  | Connections => [Connections; Public]
  | Public => [Public]
  end.

Definition tier_max_bytes (t : StorageTier) (c : TierConfig) : Z :=
  match t with Self_ => self_max_bytes c | Connections => connections_max_bytes c | Public => public_max_bytes c end.

Definition tier_ttl_days (t : StorageTier) (c : TierConfig) : Z :=
  match t with Self_ => self_ttl_days c | Connections => connections_ttl_days c | Public => public_ttl_days c end.

Definition tier_max_interfaces (t : StorageTier) (c : TierConfig) : Z :=
  match t with
  | Self_ => self_max_interfaces c
  | Connections => connections_max_interfaces c
  | Public => public_max_interfaces c
  end.

(** ** Properties *)

Lemma check_nonzero_ok checks : check_nonzero checks = Ok tt ↔ Forall (λ p, p.2 ≠ 0) checks.
Proof.
  induction checks as [|[n v] cs IH]; simpl; [by split|]. rewrite Forall_cons. simpl.
  destruct (v =? 0) eqn:E; [|rewrite IH; split; [|tauto]; intros; split; [lia|done]].
  split; [done|lia].
Qed.

Definition config_sound (c : RelayConfig) : Prop :=
  let q := rc_quota c in
  let t := rc_tiers c in
  default_event_ttl_days (rc_storage c) <= max_event_ttl_days (rc_storage c) ∧
  default_max_bytes_per_peer q <= global_max_bytes q ∧
  default_max_interfaces_per_peer q ≠ 0 ∧ default_max_bytes_per_peer q ≠ 0 ∧ global_max_bytes q ≠ 0 ∧
  ∀ tier, tier_max_interfaces tier t ≠ 0 ∧ tier_max_bytes tier t ≠ 0.

Lemma validate_ok c : relay_config_validate c = Ok tt ↔ config_sound c.
Proof.
  unfold relay_config_validate, config_sound. cbn zeta.
  destruct (_ <? default_event_ttl_days _) eqn:E1; [split; [done|lia]|].
  destruct (_ <? default_max_bytes_per_peer _) eqn:E2; [split; [done|lia]|].
  set (ifaces := check_nonzero [_; _; _; _]). set (bytes := [_; _; _; _; _]).
  assert (rbind ifaces (λ _, check_nonzero bytes) = Ok tt ↔ ifaces = Ok tt ∧ check_nonzero bytes = Ok tt) as ->.
  { destruct ifaces as [[]|]; simpl; naive_solver. }
  subst ifaces bytes. rewrite !check_nonzero_ok, !Forall_cons, !Forall_nil. simpl. split.
  - intros H. repeat split; try lia; destruct tier; simpl; lia.
  - intros (_ & _ & H1 & H2 & H3 & Ht).
    destruct (Ht Self_), (Ht Connections), (Ht Public). simpl in *. tauto.
Qed.

(** Applying a configuration patch: the fields a running relay must not change
    are kept, a patch is idempotent, validation accepts exactly the sound
    configurations, and the defaults are one. *)
Theorem config_patch_spec p c :
  (data_dir (apply_to p c), admin_bind (apply_to p c), admin_token (apply_to p c),
   owner_player_id (apply_to p c))
    = (data_dir c, admin_bind c, admin_token c, owner_player_id c) ∧
  apply_to p (apply_to p c) = apply_to p c ∧
  (relay_config_validate (apply_to p c) = Ok tt ↔ config_sound (apply_to p c)) ∧
  relay_config_validate relay_config_default = Ok tt.
Proof.
  split_and!; [done| |apply validate_ok|by vm_compute].
  destruct p as [n q s t]. unfold apply_to, patched. cbn. f_equal.
  - by destruct n.
  - destruct q as [[q1 q2 q3]|]; [|done]. cbn. unfold patch_quota, patched. cbn.
    by destruct q1, q2, q3.
  - destruct s as [[s1 s2 s3]|]; [|done]. cbn. unfold patch_storage, patched. cbn.
    by destruct s1, s2, s3.
  - destruct t as [[t1 t2 t3 t4 t5 t6 t7 t8 t9]|]; [|done]. cbn. unfold patch_tiers, patched. cbn.
    by destruct t1, t2, t3, t4, t5, t6, t7, t8, t9.
Qed.

(** Who gets which tier: the owner everything, a contact the connections and
    public tiers, anybody else the public one. *)
Lemma tier_access_spec player owner contacts t :
  t ∈ granted_tiers (determine_tier player owner contacts) ↔
  match t with
  | Self_ => owner = Some player
  | Connections => owner = Some player ∨ player ∈ contacts
  | Public => True
  end.
Proof.
  unfold determine_tier. case_bool_decide as Ho; [|case_bool_decide as Hc];
    destruct t; cbn; rewrite ?elem_of_cons, ?elem_of_nil; naive_solver.
Qed.
