(* ===== verification/RelayQuota.v ===== *)
(** * Relay quotas

    Models [indras-relay/src/quota.rs]: the flat and the per-tier accounts of
    what each peer stores and registers.  [u64] and [usize] sums wrap around
    as in the release profile; each [DashMap] operation is one atomic step. *)

From S2P Require Import Prelude RelayConfig.

Local Open Scope string_scope.
Local Open Scope Z_scope.

(** The text of a refusal. *)
Definition would_exceed (what : string) (current additional limit : Z) : RelayError :=
  QuotaExceeded ("Would exceed " ++ what ++ ": " ++ i64_to_string current ++ " + "
    ++ i64_to_string additional ++ " > " ++ i64_to_string limit).

Record PeerQuota : Type := { bytes_used : Z; pq_interface_count : Z }.

Section Quota.
Context {I : Type} `{Countable I}.

(** ** Flat quotas *)

Record RelayQuotaManager : Type := {
  q_config : QuotaConfig;
  q_peers : gmap I PeerQuota;
}.

Definition rq_new (c : QuotaConfig) : RelayQuotaManager := {| q_config := c; q_peers := ∅ |}.

Definition rq_update_config (c : QuotaConfig) (m : RelayQuotaManager) : RelayQuotaManager :=
  {| q_config := c; q_peers := q_peers m |}.

Definition set_q_peers (t : gmap I PeerQuota) (m : RelayQuotaManager) : RelayQuotaManager :=
  {| q_config := q_config m; q_peers := t |}.

Definition q_interfaces (i : I) (m : RelayQuotaManager) : Z :=
  default 0 (pq_interface_count <$> q_peers m !! i).

Definition q_bytes (i : I) (m : RelayQuotaManager) : Z := default 0 (bytes_used <$> q_peers m !! i).

Definition can_register (i : I) (additional : Z) (m : RelayQuotaManager) : Result unit RelayError :=
  let current := q_interfaces i m in
  let max := default_max_interfaces_per_peer (q_config m) in
  if max <? wrap_u64 (current + additional)
  then Err (would_exceed "interface limit" current additional max)
  else Ok tt.

Definition can_store (i : I) (additional total_usage : Z) (m : RelayQuotaManager) : Result unit RelayError :=
  let current := q_bytes i m in
  let per_peer := default_max_bytes_per_peer (q_config m) in
  let global := global_max_bytes (q_config m) in
  if per_peer <? wrap_u64 (current + additional)
  then Err (would_exceed "per-peer byte limit" current additional per_peer)
  else if global <? wrap_u64 (total_usage + additional)
  then Err (would_exceed "global byte limit" total_usage additional global)
  else Ok tt.

Definition record_registration (i : I) (count : Z) (m : RelayQuotaManager) : RelayQuotaManager :=
  set_q_peers (<[i :=
    match q_peers m !! i with
    | Some q => {| bytes_used := bytes_used q; pq_interface_count := wrap_u64 (pq_interface_count q + count) |}
    | None => {| bytes_used := 0; pq_interface_count := count |}
    end]> (q_peers m)) m.

Definition record_unregistration (i : I) (count : Z) (m : RelayQuotaManager) : RelayQuotaManager :=
  match q_peers m !! i with
  | Some q =>
      set_q_peers (<[i := {| bytes_used := bytes_used q;
                             pq_interface_count := usize_saturating_sub (pq_interface_count q) count |}]>
                     (q_peers m)) m
  | None => m
  end.

Definition record_storage (i : I) (bytes : Z) (m : RelayQuotaManager) : RelayQuotaManager :=
  set_q_peers (<[i :=
    match q_peers m !! i with
    | Some q => {| bytes_used := wrap_u64 (bytes_used q + bytes); pq_interface_count := pq_interface_count q |}
    | None => {| bytes_used := bytes; pq_interface_count := 0 |}
    end]> (q_peers m)) m.

Definition peer_quota (i : I) (m : RelayQuotaManager) : option PeerQuota := q_peers m !! i.

Definition rq_peer_count (m : RelayQuotaManager) : nat := size (q_peers m).

(** ** Per-tier quotas *)

Record TieredPeerQuota : Type := {
  tier_bytes : gmap StorageTier Z;
  tier_interfaces : gmap StorageTier Z;
}.

Definition tiered_peer_quota_default : TieredPeerQuota := {| tier_bytes := ∅; tier_interfaces := ∅ |}.

Record TieredQuotaManager : Type := {
  tq_config : TierConfig;
  tq_peers : gmap I TieredPeerQuota;
}.

Definition tq_new (c : TierConfig) : TieredQuotaManager := {| tq_config := c; tq_peers := ∅ |}.

Definition tq_update_config (c : TierConfig) (m : TieredQuotaManager) : TieredQuotaManager :=
  {| tq_config := c; tq_peers := tq_peers m |}.

Definition set_tq_peers (t : gmap I TieredPeerQuota) (m : TieredQuotaManager) : TieredQuotaManager :=
  {| tq_config := tq_config m; tq_peers := t |}.

Definition peer_tier_bytes (i : I) (t : StorageTier) (m : TieredQuotaManager) : Z :=
  default 0 (q ← tq_peers m !! i; tier_bytes q !! t).

Definition peer_tier_interfaces (i : I) (t : StorageTier) (m : TieredQuotaManager) : Z :=
  default 0 (q ← tq_peers m !! i; tier_interfaces q !! t).

Definition can_store_tiered (i : I) (t : StorageTier) (additional : Z) (m : TieredQuotaManager)
    : Result unit RelayError :=
  let max := tier_max_bytes t (tq_config m) in
  let current := peer_tier_bytes i t m in
  if max <? wrap_u64 (current + additional)
  then Err (would_exceed (tier_debug t ++ " tier byte limit") current additional max)
  else Ok tt.

Definition can_register_tiered (i : I) (t : StorageTier) (additional : Z) (m : TieredQuotaManager)
    : Result unit RelayError :=
  let max := tier_max_interfaces t (tq_config m) in
  let current := peer_tier_interfaces i t m in
  if max <? wrap_u64 (current + additional)
  then Err (would_exceed (tier_debug t ++ " tier interface limit") current additional max)
  else Ok tt.

(** [entry(t).and_modify(|v| *v += n).or_insert(n)]. *)
Definition bump (t : StorageTier) (n : Z) (g : gmap StorageTier Z) : gmap StorageTier Z :=
  <[t := match g !! t with Some v => wrap_u64 (v + n) | None => n end]> g.

Definition entry_or_default (i : I) (m : TieredQuotaManager) : TieredPeerQuota :=
  default tiered_peer_quota_default (tq_peers m !! i).

Definition record_storage_tiered (i : I) (t : StorageTier) (bytes : Z) (m : TieredQuotaManager)
    : TieredQuotaManager :=
  let q := entry_or_default i m in
  set_tq_peers (<[i := {| tier_bytes := bump t bytes (tier_bytes q);
                          tier_interfaces := tier_interfaces q |}]> (tq_peers m)) m.

Definition record_registration_tiered (i : I) (t : StorageTier) (count : Z) (m : TieredQuotaManager)
    : TieredQuotaManager :=
  let q := entry_or_default i m in
  set_tq_peers (<[i := {| tier_bytes := tier_bytes q;
                          tier_interfaces := bump t count (tier_interfaces q) |}]> (tq_peers m)) m.

Definition record_unregistration_tiered (i : I) (t : StorageTier) (count : Z) (m : TieredQuotaManager)
    : TieredQuotaManager :=
  match tq_peers m !! i with
  | Some q =>
      match tier_interfaces q !! t with
      | Some c =>
          set_tq_peers (<[i := {| tier_bytes := tier_bytes q;
                                  tier_interfaces := <[t := usize_saturating_sub c count]> (tier_interfaces q) |}]>
                          (tq_peers m)) m
      | None => m
      end
  | None => m
  end.

Definition reconstruct_from_usage (usage : list (I * StorageTier * Z)) (m : TieredQuotaManager)
    : TieredQuotaManager :=
  foldl (λ m u, record_storage_tiered u.1.1 u.1.2 u.2 m) m usage.

(** ** Properties *)

Lemma bump_lookup t t' n g :
  default 0 (bump t n g !! t') =
  if decide (t = t') then (if decide (is_Some (g !! t)) then wrap_u64 (default 0 (g !! t) + n) else n)
  else default 0 (g !! t').
Proof.
  unfold bump. rewrite lookup_insert. case_decide as Ht; [|done]. subst t'.
  by destruct (g !! t).
Qed.

Lemma record_storage_tiered_bytes i t n m i' t' :
  in_u64 n → in_u64 (peer_tier_bytes i t m + n) →
  peer_tier_bytes i' t' (record_storage_tiered i t n m) =
  if decide (i = i' ∧ t = t') then peer_tier_bytes i t m + n else peer_tier_bytes i' t' m.
Proof.
  intros Hn Hs. unfold peer_tier_bytes in *. cbn. rewrite lookup_insert.
  destruct (decide (i = i')) as [<-|Hi]; [|by rewrite decide_False by tauto].
  cbn. rewrite bump_lookup. unfold entry_or_default.
  destruct (decide (t = t')) as [<-|Ht].
  - rewrite (decide_True (P := i = i ∧ t = t)) by done.
    destruct (tq_peers m !! i) as [q|]; cbn in *; [|done].
    destruct (tier_bytes q !! t); cbn in *; [by rewrite wrap_u64_small|done].
  - rewrite decide_False by tauto. by destruct (tq_peers m !! i).
Qed.

Lemma record_storage_tiered_interfaces i t n m i' t' :
  peer_tier_interfaces i' t' (record_storage_tiered i t n m) = peer_tier_interfaces i' t' m.
Proof.
  unfold peer_tier_interfaces. cbn. rewrite lookup_insert. case_decide as Hi; [|done]. subst. cbn.
  unfold entry_or_default. by destruct (tq_peers m !! i').
Qed.

Lemma can_store_tiered_ok i t n m :
  in_u64 (peer_tier_bytes i t m + n) →
  can_store_tiered i t n m = Ok tt ↔ peer_tier_bytes i t m + n <= tier_max_bytes t (tq_config m).
Proof.
  intros Hs. unfold can_store_tiered. rewrite wrap_u64_small by done.
  destruct (_ <? _) eqn:E; split; try done; lia.
Qed.

(** A store that was allowed keeps the account of the peer within the tier's
    limit, counts exactly the bytes stored and touches no other account; one
    that would exceed it is refused. *)
Theorem tiered_quota_spec i t n m :
  in_u64 n → in_u64 (peer_tier_bytes i t m + n) →
  (can_store_tiered i t n m = Ok tt ↔ peer_tier_bytes i t m + n <= tier_max_bytes t (tq_config m)) ∧
  let m' := record_storage_tiered i t n m in
  tq_config m' = tq_config m ∧
  (can_store_tiered i t n m = Ok tt → peer_tier_bytes i t m' <= tier_max_bytes t (tq_config m')) ∧
  (∀ i' t', peer_tier_bytes i' t' m' =
     if decide (i = i' ∧ t = t') then peer_tier_bytes i t m + n else peer_tier_bytes i' t' m) ∧
  (∀ i' t', peer_tier_interfaces i' t' m' = peer_tier_interfaces i' t' m).
Proof.
  intros Hn Hs.
  assert (can_store_tiered i t n m = Ok tt ↔ peer_tier_bytes i t m + n <= tier_max_bytes t (tq_config m)) as Hcan.
  { by apply can_store_tiered_ok. }
  split; [done|]. cbn zeta. split_and!; [done| | |].
  - intros Hok. rewrite record_storage_tiered_bytes by done. rewrite decide_True by done. by apply Hcan.
  - intros. by apply record_storage_tiered_bytes.
  - intros. apply record_storage_tiered_interfaces.
Qed.
End Quota.
Arguments RelayQuotaManager I {_ _}.
Arguments TieredQuotaManager I {_ _}.
