(* ===== verification/RelayAuth.v ===== *)
(** * Relay credentials and sessions

    Models [indras-crypto/src/credential.rs] and [indras-relay/src/auth.rs].
    Ed25519, the [postcard] encoding of credentials and [serde_json] are
    parameters.  Each [DashMap] operation is one atomic step; a panic is
    [None]. *)

From S2P Require Import Prelude Bytes RelayConfig.

Local Open Scope string_scope.
Local Open Scope Z_scope.

(** ** Hexadecimal identifiers *)

(** [char::to_digit(16)]. *)
Definition hex_value (b : byte) : option Z :=
  let n := Z.of_N (Byte.to_N b) in
  if (48 <=? n) && (n <=? 57) then Some (n - 48)
  else if (65 <=? n) && (n <=? 70) then Some (n - 55)
  else if (97 <=? n) && (n <=? 102) then Some (n - 87)
  else None.

(** [u8::from_str_radix] on two bytes, which may be a plus sign and a digit. *)
Definition radix16 (a b : byte) : option byte :=
  if bool_decide (a = x2b) then (y ← hex_value b; Some (byte_of_Z y))
  else x ← hex_value a; y ← hex_value b; Some (byte_of_Z (x * 16 + y)).

(** The loop over the pairs; slicing inside a character panics. *)
Fixpoint parse_pairs (l : list byte) : option (option (list byte)) :=
  match l with
  | a :: b :: rest =>
      if match rest with [] => false | c :: _ => continuation c end then None
      else match radix16 a b with
           | None => Some None
           | Some x => r ← parse_pairs rest; Some (option_map (cons x) r)
           end
  | _ => Some (Some [])
  end.

Definition parse_hex_32 (s : string) : option (option arr32) :=
  if negb (bool_decide (length (as_bytes s) = 64%nat)) then Some None
  else r ← parse_pairs (as_bytes s); Some (l ← r; to_arr32 l).

Lemma as_bytes_app s t : as_bytes (s +:+ t) = (as_bytes s ++ as_bytes t)%list.
Proof.
  unfold as_bytes, list_byte_of_string. induction s as [|c s IH]; [done|]. cbn. by rewrite <- IH.
Qed.

Lemma hex_byte_parses b :
  ∃ c d, as_bytes (hex_byte b) = [c; d] ∧ radix16 c d = Some b ∧ continuation c = false.
Proof. destruct b; eexists _, _; (split; [vm_compute; reflexivity|]); by vm_compute. Qed.

Lemma parse_pairs_hex l : parse_pairs (as_bytes (hex l)) = Some (Some l).
Proof.
  induction l as [|b l IH]; [done|]. cbn [hex]. rewrite as_bytes_app.
  destruct (hex_byte_parses b) as (c & d & -> & Hr & _). cbn [app parse_pairs].
  assert (match as_bytes (hex l) with [] => false | c :: _ => continuation c end = false) as ->.
  { destruct l as [|b' l]; [done|]. cbn [hex]. rewrite as_bytes_app.
    by destruct (hex_byte_parses b') as (c' & d' & -> & _ & Hc'). }
  by rewrite Hr, IH.
Qed.

Lemma hex_length l : length (as_bytes (hex l)) = (2 * length l)%nat.
Proof.
  induction l as [|b l IH]; [done|]. cbn [hex]. rewrite as_bytes_app, length_app, IH.
  destruct (hex_byte_parses b) as (c & d & -> & _). simpl. lia.
Qed.

Lemma parse_hex32 a : parse_hex_32 (hex32 a) = Some (Some a).
Proof.
  unfold parse_hex_32, hex32. rewrite hex_length, arr32_length, bool_decide_true by done. cbn [negb].
  rewrite parse_pairs_hex. cbn. by rewrite to_arr32_bytes.
Qed.

(** ** Credentials *)

Record CredentialV1 : Type := {
  cred_player_id : arr32;
  transport_pubkey : arr32;
  expires_at_millis : Z;
}.

Record SignedCredential : Type := { credential : CredentialV1; cred_signature : list byte }.

(** The part of [CryptoError] credentials use. *)
Inductive CredentialError : Type :=
| CeDataTooShort (expected actual : Z)
| CeInvalidKey (msg : string)
| CeSignatureVerificationFailed.

Definition credential_error_message (e : CredentialError) : string :=
  match e with
  | CeDataTooShort expected actual =>
      "Data too short: expected at least " ++ i64_to_string expected ++ " bytes, got " ++ i64_to_string actual
  | CeInvalidKey m => "Invalid key: " ++ m
  | CeSignatureVerificationFailed => "Signature verification failed"
  end.

Class Ed25519 : Type := {
  EdSigningKey : Type;
  ed_public : EdSigningKey → arr32;
  ed_sign : EdSigningKey → list byte → list byte;
  ed_key_error : arr32 → option string;
  ed_verify : arr32 → list byte → list byte → bool;
}.

Class CredentialPostcard : Type := {
  postcard_credential : CredentialV1 → list byte;
  postcard_parse_credential : list byte → Result CredentialV1 string;
}.

Class CredentialLaws `{Ed25519, CredentialPostcard} : Type := {
  ed_signature_length sk m : length (ed_sign sk m) = 64%nat;
  ed_public_valid sk : ed_key_error (ed_public sk) = None;
  ed_sign_verify sk m : ed_verify (ed_public sk) m (ed_sign sk m) = true;
  postcard_credential_roundtrip c :
    in_i64 (expires_at_millis c) → postcard_parse_credential (postcard_credential c) = Ok c;
}.

Section Credentials.
Context `{Ed25519, CredentialPostcard}.

Definition create_credential (sk : EdSigningKey) (transport : arr32) (expires : Z) : list byte :=
  let payload := postcard_credential
    {| cred_player_id := ed_public sk; transport_pubkey := transport; expires_at_millis := expires |} in
  (payload ++ ed_sign sk payload)%list.

Definition parse_credential (bytes : list byte) : Result SignedCredential CredentialError :=
  if (length bytes <? 64)%nat then Err (CeDataTooShort 65 (Z.of_nat (length bytes)))
  else
    let sig_offset := (length bytes - 64)%nat in
    match postcard_parse_credential (take sig_offset bytes) with
    | Ok c => Ok {| credential := c; cred_signature := drop sig_offset bytes |}
    | Err e => Err (CeInvalidKey ("failed to parse credential: " ++ e))
    end.

Definition verify_credential (s : SignedCredential) : Result unit CredentialError :=
  let player := cred_player_id (credential s) in
  match ed_key_error player with
  | Some e => Err (CeInvalidKey ("invalid player_id key: " ++ e))
  | None =>
      if ed_verify player (postcard_credential (credential s)) (cred_signature s) then Ok tt
      else Err CeSignatureVerificationFailed
  end.

(** A created credential parses to what went in and verifies. *)
Lemma create_credential_spec `{!CredentialLaws} sk transport expires :
  in_i64 expires →
  let c := {| cred_player_id := ed_public sk; transport_pubkey := transport; expires_at_millis := expires |} in
  let s := {| credential := c; cred_signature := ed_sign sk (postcard_credential c) |} in
  parse_credential (create_credential sk transport expires) = Ok s ∧ verify_credential s = Ok tt.
Proof.
  intros He. cbn zeta. split.
  - unfold parse_credential, create_credential. rewrite length_app, ed_signature_length, Nat.add_sub.
    rewrite (proj2 (Nat.ltb_ge _ _)) by lia. rewrite take_app_length, drop_app_length.
    by rewrite postcard_credential_roundtrip.
  - unfold verify_credential. cbn. by rewrite ed_public_valid, ed_sign_verify.
Qed.
End Credentials.

(** ** Sessions *)

(** [IrohIdentity::as_bytes]: 32 bytes that determine the identity. *)
Class PeerKey (I : Type) : Type := {
  peer_key : I → arr32;
  peer_key_inj i j : peer_key i = peer_key j → i = j;
}.

Record AuthSession (I : Type) : Type := {
  as_player_id : arr32;
  transport_id : I;
  highest_tier : StorageTier;
  as_granted_tiers : list StorageTier;
  as_expires_at_millis : Z;
}.
Arguments as_player_id {I} _.
Arguments transport_id {I} _.
Arguments highest_tier {I} _.
Arguments as_granted_tiers {I} _.
Arguments as_expires_at_millis {I} _.

(** [serde_json] on lists of strings. *)
Class StringListJson : Type := {
  json_strings : list string → string;
  json_parse_strings : string → Result (list string) string;
}.

Section Auth.
Context {I : Type} `{Countable I, !PeerKey I, Ed25519, CredentialPostcard, StringListJson}.

Record AuthService : Type := {
  auth_owner : option arr32;
  auth_contacts : gset arr32;
  auth_sessions : gmap I (AuthSession I);
}.

Definition set_sessions (t : gmap I (AuthSession I)) (s : AuthService) : AuthService :=
  {| auth_owner := auth_owner s; auth_contacts := auth_contacts s; auth_sessions := t |}.

Definition set_contacts (c : gset arr32) (s : AuthService) : AuthService :=
  {| auth_owner := auth_owner s; auth_contacts := c; auth_sessions := auth_sessions s |}.

Definition auth_new (c : RelayConfig) : option AuthService :=
  owner ← match owner_player_id c with Some h => parse_hex_32 h | None => Some None end;
  Some {| auth_owner := owner; auth_contacts := ∅; auth_sessions := ∅ |}.

Definition authenticate (now : Z) (i : I) (bytes : list byte) (player : arr32) (s : AuthService)
    : AuthService * Result (AuthSession I) RelayError :=
  match parse_credential bytes with
  | Err e => (s, Err (InvalidCredential (credential_error_message e)))
  | Ok signed =>
      let c := credential signed in
      if negb (bool_decide (cred_player_id c = player)) then
        (s, Err (InvalidCredential "player_id mismatch between message and credential"))
      else if negb (bool_decide (transport_pubkey c = peer_key i)) then
        (s, Err (InvalidCredential "transport_pubkey does not match connecting peer"))
      else if expires_at_millis c <? now then
        (s, Err (InvalidCredential "credential has expired"))
      else
        match verify_credential signed with
        | Err e => (s, Err (AuthenticationFailed (credential_error_message e)))
        | Ok _ =>
            let highest := determine_tier player (auth_owner s) (elements (auth_contacts s)) in
            let session := {| as_player_id := player; transport_id := i; highest_tier := highest;
                              as_granted_tiers := granted_tiers highest;
                              as_expires_at_millis := expires_at_millis c |} in
            (set_sessions (<[i := session]> (auth_sessions s)) s, Ok session)
        end
  end.

Definition get_session (i : I) (s : AuthService) : option (AuthSession I) := auth_sessions s !! i.

Definition has_tier_access (i : I) (t : StorageTier) (s : AuthService) : bool :=
  match auth_sessions s !! i with
  | Some session => bool_decide (t ∈ as_granted_tiers session)
  | None => false
  end.

Definition remove_session (i : I) (s : AuthService) : AuthService :=
  set_sessions (delete i (auth_sessions s)) s.

Definition sweep_expired_sessions (now : Z) (s : AuthService) : AuthService :=
  set_sessions (filter (λ p, now <= as_expires_at_millis p.2) (auth_sessions s)) s.

Definition add_contact (p : arr32) (s : AuthService) : AuthService :=
  set_contacts ({[ p ]} ∪ auth_contacts s) s.

Definition remove_contact (p : arr32) (s : AuthService) : AuthService :=
  set_contacts (auth_contacts s ∖ {[ p ]}) s.

Definition session_count (s : AuthService) : nat := size (auth_sessions s).

(** Insert the new contacts, then retain those in the new set. *)
Definition sync_contacts (contacts : list arr32) (s : AuthService) : AuthService :=
  let new_set : gset arr32 := list_to_set contacts in
  set_contacts (filter (λ p, p ∈ new_set) (new_set ∪ auth_contacts s)) s.

Definition contact_count (s : AuthService) : nat := size (auth_contacts s).

Definition contact_ids (s : AuthService) : list arr32 := elements (auth_contacts s).

(** The identifiers that parse, in order. *)
Fixpoint parse_ids (l : list string) : option (list arr32) :=
  match l with
  | [] => Some []
  | h :: l =>
      id ← parse_hex_32 h; ids ← parse_ids l;
      Some (match id with Some id => id :: ids | None => ids end)
  end.

(** [load_contacts]; [file] is the result of reading the file, or [None] when
    it does not exist. *)
Definition load_contacts (file : option (Result string string)) (s : AuthService)
    : option (AuthService * Result unit RelayError) :=
  match file with
  | None => Some (s, Ok tt)
  | Some (Err e) => Some (s, Err (ReIo e))
  | Some (Ok data) =>
      match json_parse_strings data with
      | Err e => Some (s, Err (ReConfig ("Failed to parse contacts file: " ++ e)))
      | Ok ids => ids ← parse_ids ids; Some (set_contacts (list_to_set ids) s, Ok tt)
      end
  end.

(** What [save_contacts] writes. *)
Definition contacts_file (s : AuthService) : string := json_strings (hex32 <$> elements (auth_contacts s)).

Lemma parse_ids_hex l : parse_ids (hex32 <$> l) = Some l.
Proof. induction l as [|a l IH]; [done|]. cbn [fmap list_fmap parse_ids]. by rewrite parse_hex32, IH. Qed.

(** The contacts survive a restart: loading what was saved gives back the
    contacts that were saved, and synchronising replaces the contacts by the
    given ones, keeping the sessions. *)
Theorem contacts_persist s s0 new :
  (∀ l, json_parse_strings (json_strings l) = Ok l) →
  load_contacts (Some (Ok (contacts_file s))) s0 = Some (set_contacts (auth_contacts s) s0, Ok tt) ∧
  auth_contacts (sync_contacts new s) = list_to_set new ∧
  auth_sessions (sync_contacts new s) = auth_sessions s.
Proof.
  intros Hjson. split_and!; [| |done].
  - unfold load_contacts, contacts_file. rewrite Hjson, parse_ids_hex. cbn. do 3 f_equal.
    by rewrite list_to_set_elements_L.
  - unfold sync_contacts. cbn. apply set_eq. intros p. rewrite elem_of_filter. set_solver.
Qed.

(** ** Authentication *)

(** C34. Authentication succeeds exactly on an unexpired credential that names the
    connecting peer and the claimed player and is signed by that player; then,
    and only then, a session is opened, with the tiers the player has at that
    moment.  A failed attempt leaves every session as it was. *)
Theorem authenticate_spec now i bytes player s :
  let (s', r) := authenticate now i bytes player s in
  (is_ok r = true ↔
   ∃ signed, parse_credential bytes = Ok signed ∧ cred_player_id (credential signed) = player ∧
     transport_pubkey (credential signed) = peer_key i ∧ now <= expires_at_millis (credential signed) ∧
     verify_credential signed = Ok tt) ∧
  (is_ok r = false → s' = s) ∧
  (∀ session, r = Ok session →
     s' = set_sessions (<[i := session]> (auth_sessions s)) s ∧ as_player_id session = player ∧
     ∀ t, has_tier_access i t s' = true ↔
       match t with
       | Self_ => auth_owner s = Some player
       | Connections => auth_owner s = Some player ∨ player ∈ auth_contacts s
       | Public => True
       end).
Proof.
  assert (∀ e, ¬ (∃ signed, parse_credential bytes = Ok signed ∧ cred_player_id (credential signed) = player ∧
     transport_pubkey (credential signed) = peer_key i ∧ now <= expires_at_millis (credential signed) ∧
     verify_credential signed = Ok tt) →
    (is_ok (Err e : Result (AuthSession I) RelayError) = true ↔
     ∃ signed, parse_credential bytes = Ok signed ∧ cred_player_id (credential signed) = player ∧
     transport_pubkey (credential signed) = peer_key i ∧ now <= expires_at_millis (credential signed) ∧
     verify_credential signed = Ok tt)) as Hrefuse by (intros e Hno; split; [done|tauto]).
  unfold authenticate. destruct (parse_credential bytes) as [signed|e] eqn:Hp.
  2: { split_and!; [|done|done]. apply Hrefuse. by intros (? & [=] & _). }
  case_bool_decide as Hpl; cbn [negb].
  2: { split_and!; [|done|done]. apply Hrefuse. by intros (? & [= <-] & ? & _). }
  case_bool_decide as Htr; cbn [negb].
  2: { split_and!; [|done|done]. apply Hrefuse. by intros (? & [= <-] & _ & ? & _). }
  destruct (_ <? now) eqn:Hexp.
  { split_and!; [|done|done]. apply Hrefuse. intros (? & [= <-] & _ & _ & ? & _). lia. }
  destruct (verify_credential signed) as [[]|e] eqn:Hver.
  2: { split_and!; [|done|done]. apply Hrefuse. intros (? & [= <-] & _ & _ & _ & ?). congruence. }
  split_and!; [split; [|done]; intros _; exists signed; split_and!; try done; lia|done|].
  intros session [= <-]. split_and!; [done|done|]. intros t.
  unfold has_tier_access. cbn. rewrite lookup_insert_eq. cbn [as_granted_tiers].
  rewrite bool_decide_eq_true, tier_access_spec. destruct t; set_solver.
Qed.

(** ** Sessions are authentic *)

(** What can happen to the service, at any time. *)
Inductive auth_step (s : AuthService) : AuthService → Prop :=
| au_authenticate now i bytes player : auth_step s (authenticate now i bytes player s).1
| au_remove i : auth_step s (remove_session i s)
| au_sweep now : auth_step s (sweep_expired_sessions now s)
| au_add p : auth_step s (add_contact p s)
| au_drop p : auth_step s (remove_contact p s)
| au_sync l : auth_step s (sync_contacts l s).

(** The player signed that this peer speaks for it until the expiry. *)
Definition session_authentic (i : I) (x : AuthSession I) : Prop :=
  transport_id x = i ∧ Public ∈ as_granted_tiers x ∧
  ∃ sig, ed_verify (as_player_id x)
    (postcard_credential {| cred_player_id := as_player_id x; transport_pubkey := peer_key i;
                            expires_at_millis := as_expires_at_millis x |}) sig = true.

Definition sessions_authentic (s : AuthService) : Prop :=
  ∀ i x, auth_sessions s !! i = Some x → session_authentic i x.

Lemma verify_credential_ok signed :
  verify_credential signed = Ok tt →
  ed_verify (cred_player_id (credential signed)) (postcard_credential (credential signed))
    (cred_signature signed) = true.
Proof. unfold verify_credential. destruct (ed_key_error _); [done|]. by destruct (ed_verify _ _ _). Qed.

Lemma authenticate_authentic now i bytes player s :
  sessions_authentic s → sessions_authentic (authenticate now i bytes player s).1.
Proof.
  intros Hs. unfold authenticate. destruct (parse_credential bytes) as [signed|e]; [|done].
  case_bool_decide as Hpl; [|done]. case_bool_decide as Htr; [|done]. cbn [negb].
  destruct (_ <? now); [done|]. destruct (verify_credential signed) as [[]|e] eqn:Hver; [|done].
  apply verify_credential_ok in Hver. intros j x. cbn. rewrite lookup_insert.
  case_decide as Hj; [|apply Hs]. subst j. intros [= <-]. split_and!; [done| |].
  - cbn. rewrite tier_access_spec. done.
  - exists (cred_signature signed). cbn. destruct (credential signed) as [pl tr ex]. cbn in *. by subst.
Qed.

Lemma auth_step_authentic s s' : auth_step s s' → sessions_authentic s → sessions_authentic s'.
Proof.
  intros Hstep Hs. destruct Hstep; [by apply authenticate_authentic| | |done|done|done]; intros j x; cbn.
  - rewrite lookup_delete. case_decide; [done|apply Hs].
  - intros [? _]%map_lookup_filter_Some. by apply Hs.
Qed.

Lemma auth_new_sessions c s : auth_new c = Some s → auth_sessions s = ∅.
Proof.
  unfold auth_new. destruct (match owner_player_id c with Some h => _ | None => _ end); [|done].
  by intros [= <-].
Qed.

(** A session with the owner's tier belongs to the owner. *)
Definition owner_sessions (s : AuthService) : Prop :=
  ∀ i x, auth_sessions s !! i = Some x → Self_ ∈ as_granted_tiers x → auth_owner s = Some (as_player_id x).

Lemma auth_step_owner s s' : auth_step s s' → owner_sessions s → owner_sessions s' ∧ auth_owner s' = auth_owner s.
Proof.
  intros Hstep Hs. destruct Hstep; [| | |done|done|done]; (split; [intros j x; cbn|]); try done.
  - unfold authenticate. repeat (case_match; try exact (Hs j x)). cbn. rewrite lookup_insert.
    destruct (decide (i = j)); [|exact (Hs j x)]. intros [= <-]. cbn. unfold determine_tier.
    destruct (bool_decide_reflect (auth_owner s = Some player)); [done|].
    destruct (bool_decide (player ∈ _)); cbn; set_solver.
  - unfold authenticate. repeat case_match; done.
  - rewrite lookup_delete. case_decide; [done|exact (Hs j x)].
  - intros [? _]%map_lookup_filter_Some. by apply (Hs j).
Qed.

(** Every session the service holds, whatever peers sent and whatever the
    owner did to the contacts, is backed by a signature of its player over the
    peer that holds it and the session's expiry; and sweeping leaves no
    expired session. *)
Theorem relay_sessions_authentic c s0 s now :
  auth_new c = Some s0 → rtc auth_step s0 s →
  (∀ i x, get_session i s = Some x → session_authentic i x) ∧
  (∀ i x, get_session i (sweep_expired_sessions now s) = Some x → now <= as_expires_at_millis x) ∧
  (∀ i x, get_session i s = Some x → now <= as_expires_at_millis x →
     get_session i (sweep_expired_sessions now s) = Some x).
Proof.
  intros Hnew Hrtc.
  assert (sessions_authentic s) as Hs.
  { eapply rtc_invariant; [exact auth_step_authentic|exact Hrtc|].
    intros i x. by rewrite (auth_new_sessions _ _ Hnew), lookup_empty. }
  split_and!; [done| |]; intros i x; unfold get_session, sweep_expired_sessions; cbn.
  - by intros [_ ?]%map_lookup_filter_Some.
  - intros Hx Hexp. by apply map_lookup_filter_Some.
Qed.

(** A session keeps the tiers it was opened with: removing a contact does not
    take its access away until the session ends. *)
Lemma removed_contact_keeps_access i p t s :
  has_tier_access i t (remove_contact p s) = has_tier_access i t s.
Proof. done. Qed.
End Auth.
Arguments AuthService I {_ _}.
