(* ===== verification/Registration.v ===== *)
(** * Relay registrations

    Models [indras-relay/src/registration.rs].  The state file and its write
    errors are explicit; [serde_json], the parsing of iroh's public keys and
    the range of chrono's timestamps are parameters.  Each method is one
    atomic step, except where [unregister_race] looks at the moment at which
    [unregister] holds no lock; the clock is UTC in nanoseconds. *)

From S2P Require Import Prelude Bytes RelayConfig RelayAuth Bundle.

Local Open Scope string_scope.
Local Open Scope Z_scope.

Record PeerRegistration : Type := {
  peer_id_bytes : list byte;
  pr_display_name : option string;
  interface_bytes : list (list byte);
  registered_at_millis : Z;
  last_seen_millis : Z;
}.

Record PeerRegistrationInfo (I : Type) : Type := {
  pi_peer_id : I;
  pi_display_name : option string;
  pi_interfaces : list arr32;
  pi_registered_at : Z;
  pi_last_seen : Z;
}.
Arguments pi_peer_id {I} _.
Arguments pi_display_name {I} _.
Arguments pi_interfaces {I} _.
Arguments pi_registered_at {I} _.
Arguments pi_last_seen {I} _.

Class RegistrationJson : Type := {
  json_registrations : list PeerRegistration → string;
  json_parse_registrations : string → Result (list PeerRegistration) string;
}.

(** [IrohIdentity::from_bytes] and [DateTime::from_timestamp_millis]. *)
Class PeerKeyParse (I : Type) : Type := {
  peer_from_bytes : list byte → Result I string;
  from_timestamp_millis : Z → option Z;
}.

(** How writing the state file can fail: the error, and what is left on disk. *)
Inductive WriteOutcome : Type :=
| Written
| WriteFailed (e : string) (left_on_disk : option string).

Section Registration.
Context {I : Type} `{Countable I, !PeerKey I, !PeerKeyParse I, RegistrationJson}.

Record RegistrationState : Type := {
  reg_peers : gmap I (PeerRegistrationInfo I);
  interface_subscribers : gmap arr32 (gset (list byte));
  state_file : option string;
}.

Definition registration_new (file : option string) : RegistrationState :=
  {| reg_peers := ∅; interface_subscribers := ∅; state_file := file |}.

Definition peer_bytes (i : I) : list byte := arr32_bytes (peer_key i).

(** [entry(iface).or_insert_with(HashSet::new).insert(bytes)]. *)
Definition subscribe (bytes : list byte) (subs : gmap arr32 (gset (list byte))) (iface : arr32)
    : gmap arr32 (gset (list byte)) :=
  <[iface := {[ bytes ]} ∪ default ∅ (subs !! iface)]> subs.

(** ** Persistence *)

Definition registration_of (x : PeerRegistrationInfo I) : PeerRegistration :=
  {| peer_id_bytes := peer_bytes (pi_peer_id x); pr_display_name := pi_display_name x;
     interface_bytes := arr32_bytes <$> pi_interfaces x;
     registered_at_millis := dt_timestamp_millis (pi_registered_at x);
     last_seen_millis := dt_timestamp_millis (pi_last_seen x) |}.

Definition reg_save (w : WriteOutcome) (s : RegistrationState) : RegistrationState * Result unit RelayError :=
  let data := json_registrations (registration_of <$> (map_to_list (reg_peers s)).*2) in
  let put f := {| reg_peers := reg_peers s; interface_subscribers := interface_subscribers s; state_file := f |} in
  match w with
  | Written => (put (Some data), Ok tt)
  | WriteFailed e f => (put f, Err (ReRegistration ("Failed to write state: " ++ e)))
  end.

(** One round of the loop of [load]. *)
Definition load_one (now : Z) (s : RegistrationState) (r : PeerRegistration)
    : Result RegistrationState RelayError :=
  match peer_from_bytes (peer_id_bytes r) with
  | Err e => Err (ReRegistration ("Invalid peer ID: " ++ e))
  | Ok i =>
      let interfaces := omap to_arr32 (interface_bytes r) in
      let info := {| pi_peer_id := i; pi_display_name := pr_display_name r; pi_interfaces := interfaces;
                     pi_registered_at := default now (from_timestamp_millis (registered_at_millis r));
                     pi_last_seen := default now (from_timestamp_millis (last_seen_millis r)) |} in
      Ok {| reg_peers := <[i := info]> (reg_peers s);
            interface_subscribers := foldl (subscribe (peer_id_bytes r)) (interface_subscribers s) interfaces;
            state_file := state_file s |}
  end.

(** The loop stops at the first error, keeping what it has loaded. *)
Fixpoint load_all (now : Z) (rs : list PeerRegistration) (s : RegistrationState)
    : RegistrationState * Result unit RelayError :=
  match rs with
  | [] => (s, Ok tt)
  | r :: rs => match load_one now s r with Ok s => load_all now rs s | Err e => (s, Err e) end
  end.

Definition reg_load (now : Z) (s : RegistrationState) : RegistrationState * Result unit RelayError :=
  match state_file s with
  | None => (s, Ok tt)
  | Some data =>
      match json_parse_registrations data with
      | Err e => (s, Err (ReRegistration ("Failed to parse state: " ++ e)))
      | Ok rs => load_all now rs s
      end
  end.

(** ** Operations *)

(** Appending the interfaces that are not there yet. *)
Definition add_interface (l : list arr32) (iface : arr32) : list arr32 :=
  if bool_decide (iface ∈ l) then l else (l ++ [iface])%list.

Definition registered_info (now : Z) (i : I) (ifaces : list arr32) (name : option string)
    (old : option (PeerRegistrationInfo I)) : PeerRegistrationInfo I :=
  match old with
  | Some x =>
      {| pi_peer_id := pi_peer_id x;
         pi_display_name := match name with Some n => Some n | None => pi_display_name x end;
         pi_interfaces := foldl add_interface (pi_interfaces x) ifaces;
         pi_registered_at := pi_registered_at x; pi_last_seen := now |}
  | None =>
      {| pi_peer_id := i; pi_display_name := name; pi_interfaces := ifaces;
         pi_registered_at := now; pi_last_seen := now |}
  end.

Definition reg_register (now : Z) (w : WriteOutcome) (i : I) (ifaces : list arr32) (name : option string)
    (s : RegistrationState) : RegistrationState * Result unit RelayError :=
  reg_save w
    {| reg_peers := <[i := registered_info now i ifaces name (reg_peers s !! i)]> (reg_peers s);
       interface_subscribers := foldl (subscribe (peer_bytes i)) (interface_subscribers s) ifaces;
       state_file := state_file s |}.

(** Removing a subscriber, and the entry when it was the last. *)
Definition unsubscribe (bytes : list byte) (subs : gmap arr32 (gset (list byte))) (iface : arr32)
    : gmap arr32 (gset (list byte)) :=
  match subs !! iface with
  | Some b =>
      let b := b ∖ {[ bytes ]} in
      if bool_decide (b = ∅) then delete iface subs else <[iface := b]> subs
  | None => subs
  end.

Definition reg_unregister (w : WriteOutcome) (i : I) (ifaces : list arr32) (s : RegistrationState)
    : RegistrationState * Result unit RelayError :=
  reg_save w
    {| reg_peers :=
         match reg_peers s !! i with
         | Some x =>
             <[i := {| pi_peer_id := pi_peer_id x; pi_display_name := pi_display_name x;
                       pi_interfaces := retain (λ f, negb (bool_decide (f ∈ ifaces))) (pi_interfaces x);
                       pi_registered_at := pi_registered_at x; pi_last_seen := pi_last_seen x |}]> (reg_peers s)
         | None => reg_peers s
         end;
       interface_subscribers := foldl (unsubscribe (peer_bytes i)) (interface_subscribers s) ifaces;
       state_file := state_file s |}.

Definition reg_touch (now : Z) (i : I) (s : RegistrationState) : RegistrationState :=
  match reg_peers s !! i with
  | Some x =>
      {| reg_peers := <[i := {| pi_peer_id := pi_peer_id x; pi_display_name := pi_display_name x;
                                pi_interfaces := pi_interfaces x; pi_registered_at := pi_registered_at x;
                                pi_last_seen := now |}]> (reg_peers s);
         interface_subscribers := interface_subscribers s; state_file := state_file s |}
  | None => s
  end.

Definition is_interface_registered (f : arr32) (s : RegistrationState) : bool :=
  match interface_subscribers s !! f with Some b => negb (bool_decide (b = ∅)) | None => false end.

Definition registered_interfaces (s : RegistrationState) : list arr32 :=
  (map_to_list (interface_subscribers s)).*1.

Definition registered_peers (s : RegistrationState) : list (PeerRegistrationInfo I) :=
  (map_to_list (reg_peers s)).*2.

Definition reg_peer_count (s : RegistrationState) : nat := size (reg_peers s).
Definition reg_interface_count (s : RegistrationState) : nat := size (interface_subscribers s).

Definition peer_interfaces (i : I) (s : RegistrationState) : list arr32 :=
  match reg_peers s !! i with Some x => pi_interfaces x | None => [] end.

(** ** The index of subscribers *)

(** The index has exactly the subscriptions of the peers, no entry of it is
    empty, and a registration is filed under its own peer. *)
Record reg_ok (s : RegistrationState) : Prop := {
  ro_own : ∀ i x, reg_peers s !! i = Some x → pi_peer_id x = i;
  ro_index : ∀ f b, b ∈ default ∅ (interface_subscribers s !! f) ↔
    ∃ i, b = peer_bytes i ∧ f ∈ peer_interfaces i s;
  ro_nonempty : ∀ f b, interface_subscribers s !! f = Some b → b ≠ ∅;
}.

Inductive reg_step (s : RegistrationState) : RegistrationState → Prop :=
| rs_register now w i l name : reg_step s (reg_register now w i l name s).1
| rs_unregister w i l : reg_step s (reg_unregister w i l s).1
| rs_touch now i : reg_step s (reg_touch now i s).

Lemma peer_bytes_inj i j : peer_bytes i = peer_bytes j → i = j.
Proof. intros Hb. by apply peer_key_inj, arr32_bytes_inj. Qed.

Lemma elem_of_subscribe bytes subs l f b :
  b ∈ default ∅ (foldl (subscribe bytes) subs l !! f) ↔
  b ∈ default ∅ (subs !! f) ∨ b = bytes ∧ f ∈ l.
Proof.
  revert subs. induction l as [|g l IH]; intros subs; cbn [foldl]; [set_solver|].
  rewrite IH. unfold subscribe. rewrite lookup_insert. rewrite elem_of_cons.
  case_decide; subst; cbn; rewrite ?elem_of_union, ?elem_of_singleton; naive_solver.
Qed.

Lemma subscribe_nonempty bytes subs l :
  (∀ f b, subs !! f = Some b → b ≠ ∅) → ∀ f b, foldl (subscribe bytes) subs l !! f = Some b → b ≠ ∅.
Proof.
  intros Hs. apply (foldl_invariant (λ subs : gmap arr32 (gset (list byte)),
    ∀ f b, subs !! f = Some b → b ≠ ∅)); [|done].
  intros subs' g Hs' f b. unfold subscribe. rewrite lookup_insert.
  case_decide; [intros [= <-]; set_solver|apply Hs'].
Qed.

Lemma elem_of_unsubscribe1 bytes subs g f b :
  b ∈ default ∅ (unsubscribe bytes subs g !! f) ↔
  b ∈ default ∅ (subs !! f) ∧ ¬ (b = bytes ∧ f = g).
Proof.
  unfold unsubscribe. destruct (subs !! g) as [c|] eqn:E.
  - assert (∀ x, x ∈ c ∖ {[bytes]} ↔ x ∈ c ∧ x ≠ bytes) as Hc
      by (intros; by rewrite elem_of_difference, elem_of_singleton).
    case_bool_decide as He; [rewrite lookup_delete|rewrite lookup_insert]; case_decide; subst;
      rewrite ?E; cbn; rewrite ?Hc; [|naive_solver|naive_solver|naive_solver].
    rewrite He in Hc. specialize (Hc b). rewrite elem_of_empty in *. naive_solver.
  - destruct (decide (f = g)) as [->|]; [|naive_solver]. rewrite E. cbn. rewrite elem_of_empty. naive_solver.
Qed.

Lemma elem_of_unsubscribe bytes subs l f b :
  b ∈ default ∅ (foldl (unsubscribe bytes) subs l !! f) ↔
  b ∈ default ∅ (subs !! f) ∧ ¬ (b = bytes ∧ f ∈ l).
Proof.
  revert subs. induction l as [|g l IH]; intros subs; cbn [foldl]; [set_solver|].
  rewrite IH, elem_of_unsubscribe1, elem_of_cons. naive_solver.
Qed.

Lemma unsubscribe_nonempty bytes subs l :
  (∀ f b, subs !! f = Some b → b ≠ ∅) → ∀ f b, foldl (unsubscribe bytes) subs l !! f = Some b → b ≠ ∅.
Proof.
  intros Hs. apply (foldl_invariant (λ subs : gmap arr32 (gset (list byte)),
    ∀ f b, subs !! f = Some b → b ≠ ∅)); [|done].
  intros subs' g Hs' f b. unfold unsubscribe. destruct (subs' !! g) as [c|] eqn:E; [|apply Hs'].
  case_bool_decide as He; [rewrite lookup_delete|rewrite lookup_insert]; case_decide; try done;
    [apply Hs'|by intros [= <-]|apply Hs'].
Qed.

Lemma elem_of_add_interfaces l0 l f : f ∈ foldl add_interface l0 l ↔ f ∈ l0 ∨ f ∈ l.
Proof.
  revert l0. induction l as [|g l IH]; intros l0; cbn [foldl]; [set_solver|].
  rewrite IH, elem_of_cons. unfold add_interface. case_bool_decide; [naive_solver|].
  rewrite elem_of_app, list_elem_of_singleton. naive_solver.
Qed.

Lemma reg_save_peers w s :
  reg_peers (reg_save w s).1 = reg_peers s ∧
  interface_subscribers (reg_save w s).1 = interface_subscribers s.
Proof. by destruct w. Qed.

Lemma reg_ok_save w s : reg_ok s → reg_ok (reg_save w s).1.
Proof.
  intros [Ho Hi Hn]. destruct (reg_save_peers w s) as [Hp Hs].
  split; unfold peer_interfaces; rewrite ?Hp, ?Hs; done.
Qed.

Lemma reg_ok_step s s' : reg_step s s' → reg_ok s → reg_ok s'.
Proof.
  intros Hstep [Ho Hi Hn]. destruct Hstep as [now w i l name|w i l|now i].
  - apply reg_ok_save. split; cbn [reg_peers interface_subscribers].
    + intros j x. rewrite lookup_insert. case_decide; [|apply Ho]. subst j. intros [= <-].
      unfold registered_info. destruct (reg_peers s !! i) eqn:E; cbn; [by apply Ho|done].
    + intros f b. rewrite elem_of_subscribe, Hi. unfold peer_interfaces. cbn [reg_peers].
      split.
      * intros [(j & -> & Hf)|[-> Hf]].
        -- exists j. split; [done|]. rewrite lookup_insert. case_decide; [|done]. subst j.
           destruct (reg_peers s !! i); cbn; [|by apply elem_of_nil in Hf].
           apply elem_of_add_interfaces. auto.
        -- exists i. split; [done|]. rewrite lookup_insert_eq.
           destruct (reg_peers s !! i); cbn; [apply elem_of_add_interfaces|]; auto.
      * intros (j & -> & Hf). rewrite lookup_insert in Hf. case_decide; [subst j|left; eauto].
        destruct (reg_peers s !! i) eqn:E; cbn in Hf; [|by right].
        apply elem_of_add_interfaces in Hf as [Hf|Hf]; [left; exists i; by rewrite E|by right].
    + by apply subscribe_nonempty.
  - apply reg_ok_save. split; cbn [reg_peers interface_subscribers].
    + intros j x. destruct (reg_peers s !! i) as [y|] eqn:E; [|apply Ho].
      rewrite lookup_insert. case_decide; [|apply Ho]. subst j. intros [= <-]. cbn. by apply Ho.
    + intros f b. rewrite elem_of_unsubscribe, Hi. unfold peer_interfaces. cbn [reg_peers].
      assert (∀ j, f ∈ match (match reg_peers s !! i with
        | Some x => <[i := {| pi_peer_id := pi_peer_id x; pi_display_name := pi_display_name x;
            pi_interfaces := retain (λ f, negb (bool_decide (f ∈ l))) (pi_interfaces x);
            pi_registered_at := pi_registered_at x; pi_last_seen := pi_last_seen x |}]> (reg_peers s)
        | None => reg_peers s end) !! j with Some x => pi_interfaces x | None => [] end ↔
        f ∈ match reg_peers s !! j with Some x => pi_interfaces x | None => [] end ∧ ¬ (j = i ∧ f ∈ l)) as Hj.
      { intros j. destruct (reg_peers s !! i) as [y|] eqn:E.
        - rewrite lookup_insert. case_decide as Hji; [|naive_solver]. subst j. rewrite E. cbn.
          rewrite elem_of_retain, negb_true_iff, bool_decide_eq_false. naive_solver.
        - destruct (decide (j = i)) as [->|]; [rewrite E|naive_solver]. set_solver. }
      setoid_rewrite Hj. split.
      * intros [(j & -> & Hf) Hne]. exists j. split_and!; [done|done|]. intros [-> ?]. by apply Hne.
      * intros (j & -> & Hf & Hne). split; [eauto|]. intros [->%peer_bytes_inj ?]. by apply Hne.
    + by apply unsubscribe_nonempty.
  - unfold reg_touch. destruct (reg_peers s !! i) as [x|] eqn:E; [|by split]. split; cbn.
    + intros j y. rewrite lookup_insert. case_decide; [|apply Ho]. subst. intros [= <-]. cbn. by apply Ho.
    + intros f b. rewrite Hi. unfold peer_interfaces. cbn. f_equiv. intros j.
      rewrite lookup_insert. case_decide; [|done]. subst. by rewrite E.
    + done.
Qed.

Lemma reg_ok_new f : reg_ok (registration_new f).
Proof.
  split; cbn; try (intros *; by rewrite lookup_empty).
  intros g b. unfold peer_interfaces. cbn. setoid_rewrite lookup_empty. cbn. set_solver.
Qed.

(** The index of subscribers is exactly what the peers have registered,
    whatever registrations, removals and failed writes happened: an interface
    counts as registered exactly when some peer lists it, and no interface is
    listed once its last subscriber is gone. *)
Theorem registration_index f0 s :
  rtc reg_step (registration_new f0) s →
  reg_ok s ∧
  ∀ f, (is_interface_registered f s = true ↔ ∃ i, f ∈ peer_interfaces i s) ∧
       (f ∈ registered_interfaces s ↔ ∃ i, f ∈ peer_interfaces i s).
Proof.
  intros Hrtc.
  assert (reg_ok s) as Hok.
  { eapply rtc_invariant; [exact reg_ok_step|exact Hrtc|apply reg_ok_new]. }
  split; [done|]. intros f.
  assert (is_Some (interface_subscribers s !! f) ↔ ∃ i, f ∈ peer_interfaces i s) as Hiff.
  { split.
    - intros [b Hb]. pose proof (ro_nonempty s Hok f b Hb) as Hne.
      apply set_choose_L in Hne as [x Hx].
      assert (x ∈ default ∅ (interface_subscribers s !! f)) as Hin by by rewrite Hb.
      apply (ro_index s Hok) in Hin as (i & _ & Hi). eauto.
    - intros [i Hi]. assert (peer_bytes i ∈ default ∅ (interface_subscribers s !! f)) as Hin
        by (apply (ro_index s Hok); eauto).
      destruct (interface_subscribers s !! f); [eauto|cbn in Hin; set_solver]. }
  split.
  - rewrite <- Hiff. unfold is_interface_registered.
    destruct (interface_subscribers s !! f) as [b|] eqn:E; [|split; [done|by intros [? [=]]]].
    pose proof (ro_nonempty s Hok f b E). rewrite bool_decide_false by done. split; eauto.
  - rewrite <- Hiff. unfold registered_interfaces. rewrite list_elem_of_fmap. split.
    + intros ([g b] & -> & Hg%elem_of_map_to_list). by exists b.
    + intros [b Hb]. exists (f, b). by rewrite elem_of_map_to_list.
Qed.

(** ** Concurrent methods *)

(** [unregister] for one interface up to [drop(subs)], where its set has become
    empty, and from there to the end: in between other tasks run. *)
Definition unregister_first (i : I) (f : arr32) (s : RegistrationState) : RegistrationState :=
  {| reg_peers :=
       match reg_peers s !! i with
       | Some x =>
           <[i := {| pi_peer_id := pi_peer_id x; pi_display_name := pi_display_name x;
                     pi_interfaces := retain (λ g, negb (bool_decide (g ∈ [f]))) (pi_interfaces x);
                     pi_registered_at := pi_registered_at x; pi_last_seen := pi_last_seen x |}]> (reg_peers s)
       | None => reg_peers s
       end;
     interface_subscribers := alter (λ b, b ∖ {[ peer_bytes i ]}) f (interface_subscribers s);
     state_file := state_file s |}.

Definition unregister_rest (w : WriteOutcome) (f : arr32) (s : RegistrationState)
    : RegistrationState * Result unit RelayError :=
  reg_save w {| reg_peers := reg_peers s; interface_subscribers := delete f (interface_subscribers s);
                state_file := state_file s |}.

Lemma unregister_alone w i f s : interface_subscribers s !! f = Some {[ peer_bytes i ]} →
  unregister_rest w f (unregister_first i f s) = reg_unregister w i [f] s.
Proof.
  intros Hf. unfold unregister_rest, unregister_first, reg_unregister. cbn [foldl reg_peers interface_subscribers state_file].
  f_equal. f_equal. unfold unsubscribe. rewrite Hf, bool_decide_true by set_solver. apply map_eq. intros g. rewrite !lookup_delete.
  case_decide; [done|]. by rewrite lookup_alter_ne.
Qed.

(** A peer that registers for an interface while its last subscriber leaves can
    lose its place in the index: it is registered, but the interface counts as
    having no subscriber. *)
Theorem unregister_race now w w' i j f s : interface_subscribers s !! f = Some {[ peer_bytes i ]} →
  let s' := (unregister_rest w f (reg_register now w' j [f] None (unregister_first i f s)).1).1 in
  f ∈ peer_interfaces j s' ∧ is_interface_registered f s' = false.
Proof.
  intros Hf s'. unfold s', unregister_rest. split.
  - unfold peer_interfaces. destruct (reg_save_peers w {| reg_peers := reg_peers (reg_register now w' j [f] None (unregister_first i f s)).1;
      interface_subscribers := delete f (interface_subscribers (reg_register now w' j [f] None (unregister_first i f s)).1);
      state_file := state_file (reg_register now w' j [f] None (unregister_first i f s)).1 |}) as [-> _]. cbn [reg_peers].
    unfold reg_register. destruct (reg_save_peers w' {| reg_peers := <[j := registered_info now j [f] None (reg_peers (unregister_first i f s) !! j)]>
      (reg_peers (unregister_first i f s)); interface_subscribers := foldl (subscribe (peer_bytes j)) (interface_subscribers (unregister_first i f s)) [f];
      state_file := state_file (unregister_first i f s) |}) as [-> _]. cbn [reg_peers]. rewrite lookup_insert_eq. unfold registered_info.
    destruct (reg_peers (unregister_first i f s) !! j); cbn [pi_interfaces]; [apply elem_of_add_interfaces; right|]; by left.
  - unfold is_interface_registered. match goal with |- context [reg_save w ?x] => destruct (reg_save_peers w x) as [_ ->] end.
    cbn [interface_subscribers]. by rewrite lookup_delete_eq.
Qed.

(** ** Surviving a restart *)

(** A registration as it comes back from the file: its times are cut to
    milliseconds. *)
Definition reloaded (now : Z) (x : PeerRegistrationInfo I) : PeerRegistrationInfo I :=
  {| pi_peer_id := pi_peer_id x; pi_display_name := pi_display_name x; pi_interfaces := pi_interfaces x;
     pi_registered_at := default now (from_timestamp_millis (dt_timestamp_millis (pi_registered_at x)));
     pi_last_seen := default now (from_timestamp_millis (dt_timestamp_millis (pi_last_seen x))) |}.

Lemma omap_to_arr32 (l : list arr32) : omap to_arr32 (arr32_bytes <$> l) = l.
Proof.
  induction l as [|a l IH]; [done|]. cbn [fmap list_fmap omap list_omap].
  rewrite to_arr32_bytes. by f_equal.
Qed.

Lemma load_one_saved now x s :
  (∀ i, peer_from_bytes (peer_bytes i) = Ok i) →
  load_one now s (registration_of x) =
  Ok {| reg_peers := <[pi_peer_id x := reloaded now x]> (reg_peers s);
        interface_subscribers :=
          foldl (subscribe (peer_bytes (pi_peer_id x))) (interface_subscribers s) (pi_interfaces x);
        state_file := state_file s |}.
Proof.
  intros Hp. unfold load_one, registration_of.
  cbn [peer_id_bytes interface_bytes pr_display_name registered_at_millis last_seen_millis].
  by rewrite Hp, omap_to_arr32.
Qed.

Lemma load_all_saved now xs s :
  (∀ i, peer_from_bytes (peer_bytes i) = Ok i) →
  load_all now (registration_of <$> xs) s =
  ({| reg_peers := foldl (λ m x, <[pi_peer_id x := reloaded now x]> m) (reg_peers s) xs;
      interface_subscribers := foldl (λ subs x, foldl (subscribe (peer_bytes (pi_peer_id x))) subs (pi_interfaces x))
        (interface_subscribers s) xs;
      state_file := state_file s |}, Ok tt).
Proof.
  intros Hp. revert s. induction xs as [|x xs IH]; intros s; [by destruct s|].
  rewrite fmap_cons. cbn [load_all]. by rewrite load_one_saved, IH.
Qed.

Lemma foldl_insert_lookup {V W} (key : V → I) (g : V → W) xs (m : gmap I W) i :
  NoDup (key <$> xs) →
  foldl (λ m x, <[key x := g x]> m) m xs !! i =
  match find_first (λ x, bool_decide (key x = i)) xs with Some x => Some (g x) | None => m !! i end.
Proof.
  revert m. induction xs as [|x xs IH]; intros m Hnd; [done|]. cbn [foldl find_first].
  apply NoDup_cons in Hnd as [Hx Hnd]. rewrite IH by done.
  case_bool_decide as Hk.
  - rewrite (proj2 (find_first_None _ _)).
    + by rewrite Hk, lookup_insert_eq.
    + intros y Hy. apply bool_decide_eq_false. intros Hky. apply Hx. rewrite Hk, <- Hky.
      by apply list_elem_of_fmap_2.
  - destruct (find_first _ xs); [done|]. by rewrite lookup_insert_ne.
Qed.

(** Saving and loading after a restart gives back every registration, with its
    times cut to milliseconds, and an index that is exact again. *)
Theorem registration_persists f0 s now :
  (∀ l, json_parse_registrations (json_registrations l) = Ok l) →
  (∀ i, peer_from_bytes (peer_bytes i) = Ok i) →
  rtc reg_step (registration_new f0) s →
  let saved := (reg_save Written s).1 in
  let (s', r) := reg_load now (registration_new (state_file saved)) in
  r = Ok tt ∧ reg_ok s' ∧ reg_peers s' = reloaded now <$> reg_peers s ∧
  ∀ i, peer_interfaces i s' = peer_interfaces i s.
Proof.
  intros Hj Hp Hrtc. cbn zeta.
  assert (reg_ok s) as Hok.
  { eapply rtc_invariant; [exact reg_ok_step|exact Hrtc|apply reg_ok_new]. }
  unfold reg_load. cbn [registration_new state_file reg_save fst]. rewrite Hj, load_all_saved by done.
  set (xs := (map_to_list (reg_peers s)).*2). cbn [registration_new reg_peers interface_subscribers].
  assert (∀ x, x ∈ xs ↔ reg_peers s !! pi_peer_id x = Some x) as Hxs.
  { intros x. subst xs. rewrite list_elem_of_fmap. split.
    - intros ([i y] & -> & Hi%elem_of_map_to_list). cbn. by rewrite (ro_own s Hok i y Hi).
    - intros Hx. exists (pi_peer_id x, x). by rewrite elem_of_map_to_list. }
  assert (NoDup (pi_peer_id <$> xs)) as Hnd.
  { subst xs. rewrite <- list_fmap_compose.
    assert ((pi_peer_id ∘ snd) <$> map_to_list (reg_peers s) = (map_to_list (reg_peers s)).*1) as ->.
    { apply list_fmap_ext. intros k [i x] Hix%list_elem_of_lookup_2%elem_of_map_to_list. cbn.
      by apply (ro_own s Hok). }
    apply NoDup_fst_map_to_list. }
  assert (foldl (λ m x, <[pi_peer_id x := reloaded now x]> m) ∅ xs = reloaded now <$> reg_peers s) as Hpeers.
  { apply map_eq. intros i. rewrite foldl_insert_lookup, lookup_fmap, lookup_empty by done.
    destruct (find_first _ xs) as [x|] eqn:E.
    - apply find_first_Some in E as [Hx <-%bool_decide_eq_true]. apply Hxs in Hx. by rewrite Hx.
    - destruct (reg_peers s !! i) as [x|] eqn:Ei; [|done].
      pose proof (ro_own s Hok i x Ei) as Hown. exfalso.
      assert (x ∈ xs) as Hx by (apply Hxs; by rewrite Hown).
      apply (proj1 (find_first_None _ _) E) in Hx. by rewrite bool_decide_true in Hx. }
  rewrite Hpeers.
  assert (∀ i, peer_interfaces i {| reg_peers := reloaded now <$> reg_peers s;
      interface_subscribers := interface_subscribers s; state_file := None |} = peer_interfaces i s) as Hif.
  { intros i. unfold peer_interfaces. cbn. rewrite lookup_fmap. by destruct (reg_peers s !! i). }
  split_and!; [done| |done|exact Hif]. split; cbn [reg_peers interface_subscribers].
  - intros i x. rewrite lookup_fmap. destruct (reg_peers s !! i) as [y|] eqn:E; [|done].
    intros [= <-]. cbn. by apply (ro_own s Hok).
  - intros f b. unfold peer_interfaces. cbn [reg_peers].
    assert (∀ subs, b ∈ default ∅ (foldl (λ subs x, foldl (subscribe (peer_bytes (pi_peer_id x))) subs
        (pi_interfaces x)) subs xs !! f) ↔
      b ∈ default ∅ (subs !! f) ∨ ∃ x, x ∈ xs ∧ b = peer_bytes (pi_peer_id x) ∧ f ∈ pi_interfaces x) as Hf.
    { clear. induction xs as [|x xs IH]; intros subs; cbn [foldl].
      - split; [auto|]. intros [?|(x & ?%elem_of_nil & _)]; done.
      - rewrite IH, elem_of_subscribe. setoid_rewrite elem_of_cons. naive_solver. }
    rewrite Hf, lookup_empty. cbn. setoid_rewrite Hxs. split.
    + intros [[]%elem_of_empty|(x & Hx & -> & Hfx)]. exists (pi_peer_id x). split; [done|].
      by rewrite lookup_fmap, Hx.
    + intros (i & -> & Hfi). right. rewrite lookup_fmap in Hfi.
      destruct (reg_peers s !! i) as [x|] eqn:E; [|by apply elem_of_nil in Hfi].
      exists x. by rewrite (ro_own s Hok i x E).
  - apply (foldl_invariant (λ subs : gmap arr32 (gset (list byte)), ∀ f b, subs !! f = Some b → b ≠ ∅)).
    + intros subs x Hs. by apply subscribe_nonempty.
    + intros f b. by rewrite lookup_empty.
Qed.
End Registration.
Arguments RegistrationState I {_ _}.
