(* ===== verification/Wire.v ===== *)
(** * The wire protocol

    Models [indras-transport/src/protocol.rs]: the messages peers exchange and
    their framing, a big-endian 32-bit length in front of the [postcard]
    encoding.  The encoding itself is a parameter; peers are a type [I].
    [now] is the clock in Unix milliseconds. *)

From S2P Require Import Prelude Bytes Packet Pending Bundle RelayConfig.

Local Open Scope string_scope.
Local Open Scope Z_scope.
Local Open Scope list_scope.

(** ** Packets, presence and legacy synchronisation *)

Record SerializedPacket (I : Type) : Type := {
  sp_id : PacketId;
  sp_source : I;
  sp_destination : I;
  sp_payload : list byte;
  sp_routing_hints : list I;
  sp_created_at_millis : Z;
  sp_ttl : Z;
  sp_visited : list Z;
}.
Arguments sp_id {I} _.
Arguments sp_source {I} _.
Arguments sp_destination {I} _.
Arguments sp_payload {I} _.
Arguments sp_routing_hints {I} _.
Arguments sp_created_at_millis {I} _.
Arguments sp_ttl {I} _.
Arguments sp_visited {I} _.

Record SerializedConfirmation (I : Type) : Type := {
  sc_packet_id : PacketId;
  sc_delivered_to : I;
  sc_delivered_at_millis : Z;
  sc_path : list I;
}.
Arguments sc_packet_id {I} _.
Arguments sc_delivered_to {I} _.
Arguments sc_delivered_at_millis {I} _.
Arguments sc_path {I} _.

Definition serialized_confirmation {I} (c : DeliveryConfirmation I) : SerializedConfirmation I :=
  {| sc_packet_id := dc_packet_id I c; sc_delivered_to := delivered_to I c;
     sc_delivered_at_millis := dt_timestamp_millis (delivered_at I c); sc_path := dc_path I c |}.

Record PresenceInfo (I : Type) : Type := {
  prs_peer_id : I;
  prs_timestamp_millis : Z;
  prs_neighbors : list I;
  prs_accepting_connections : bool;
  prs_display_name : option string;
  prs_metadata : list byte;
}.
Arguments prs_peer_id {I} _.
Arguments prs_timestamp_millis {I} _.
Arguments prs_neighbors {I} _.
Arguments prs_accepting_connections {I} _.
Arguments prs_display_name {I} _.
Arguments prs_metadata {I} _.

Definition presence_info_new {I} (now : Z) (i : I) : PresenceInfo I :=
  {| prs_peer_id := i; prs_timestamp_millis := now; prs_neighbors := []; prs_accepting_connections := true;
     prs_display_name := None; prs_metadata := [] |}.

Definition presence_with_name {I} (name : string) (m : PresenceInfo I) : PresenceInfo I :=
  {| prs_peer_id := prs_peer_id m; prs_timestamp_millis := prs_timestamp_millis m;
     prs_neighbors := prs_neighbors m; prs_accepting_connections := prs_accepting_connections m;
     prs_display_name := Some name; prs_metadata := prs_metadata m |}.

Definition presence_with_neighbors {I} (l : list I) (m : PresenceInfo I) : PresenceInfo I :=
  {| prs_peer_id := prs_peer_id m; prs_timestamp_millis := prs_timestamp_millis m; prs_neighbors := l;
     prs_accepting_connections := prs_accepting_connections m; prs_display_name := prs_display_name m;
     prs_metadata := prs_metadata m |}.

Record SyncRequest (I : Type) : Type := {
  srq_namespace : arr32;
  srq_heads : list (I * Z);
}.
Arguments srq_namespace {I} _.
Arguments srq_heads {I} _.

Record SyncResponse : Type := {
  srs_namespace : arr32;
  srs_changes : list (list byte);
  srs_has_more : bool;
}.

(** ** Interface messages *)

Record InterfaceEventMessage : Type := {
  iem_interface_id : arr32;
  iem_encrypted_event : list byte;
  iem_event_id : EventId;
  iem_nonce : list byte;
}.

Definition interface_event_new (f : arr32) (event : list byte) (id : EventId) (nonce : list byte)
    : InterfaceEventMessage :=
  {| iem_interface_id := f; iem_encrypted_event := event; iem_event_id := id; iem_nonce := nonce |}.

Record InterfaceSyncRequestMessage : Type := {
  isr_interface_id : arr32;
  isr_my_state_vector : list byte;
  isr_last_event_id : option EventId;
}.

Definition interface_sync_request_new (f : arr32) (state : list byte) : InterfaceSyncRequestMessage :=
  {| isr_interface_id := f; isr_my_state_vector := state; isr_last_event_id := None |}.

Definition with_last_event (id : EventId) (m : InterfaceSyncRequestMessage) : InterfaceSyncRequestMessage :=
  {| isr_interface_id := isr_interface_id m; isr_my_state_vector := isr_my_state_vector m;
     isr_last_event_id := Some id |}.

Record PendingEventData : Type := {
  ped_event_id : EventId;
  ped_encrypted_event : list byte;
  ped_nonce : list byte;
}.

Record InterfaceSyncResponseMessage : Type := {
  isp_interface_id : arr32;
  isp_sync_data : list byte;
  isp_our_state_vector : list byte;
  isp_pending_events : list PendingEventData;
}.

Definition interface_sync_response_new (f : arr32) (sync_data : list byte) (state : list byte)
    : InterfaceSyncResponseMessage :=
  {| isp_interface_id := f; isp_sync_data := sync_data; isp_our_state_vector := state;
     isp_pending_events := [] |}.

Definition with_pending_events (events : list PendingEventData) (m : InterfaceSyncResponseMessage)
    : InterfaceSyncResponseMessage :=
  {| isp_interface_id := isp_interface_id m; isp_sync_data := isp_sync_data m;
     isp_our_state_vector := isp_our_state_vector m; isp_pending_events := events |}.

Inductive PresenceStatus : Type := Online | Offline | Away | Busy.

Record InterfaceJoinMessage : Type := {
  ijm_interface_id : arr32;
  ijm_presence_status : PresenceStatus;
  ijm_timestamp_millis : Z;
  ijm_display_name : option string;
  ijm_pq_encapsulation_key : option (list byte);
  ijm_pq_verifying_key : option (list byte);
}.

Definition interface_join_new (now : Z) (f : arr32) : InterfaceJoinMessage :=
  {| ijm_interface_id := f; ijm_presence_status := Online; ijm_timestamp_millis := now;
     ijm_display_name := None; ijm_pq_encapsulation_key := None; ijm_pq_verifying_key := None |}.

Definition join_with_name (name : string) (m : InterfaceJoinMessage) : InterfaceJoinMessage :=
  {| ijm_interface_id := ijm_interface_id m; ijm_presence_status := ijm_presence_status m;
     ijm_timestamp_millis := ijm_timestamp_millis m; ijm_display_name := Some name;
     ijm_pq_encapsulation_key := ijm_pq_encapsulation_key m; ijm_pq_verifying_key := ijm_pq_verifying_key m |}.

Definition join_with_status (st : PresenceStatus) (m : InterfaceJoinMessage) : InterfaceJoinMessage :=
  {| ijm_interface_id := ijm_interface_id m; ijm_presence_status := st;
     ijm_timestamp_millis := ijm_timestamp_millis m; ijm_display_name := ijm_display_name m;
     ijm_pq_encapsulation_key := ijm_pq_encapsulation_key m; ijm_pq_verifying_key := ijm_pq_verifying_key m |}.

Definition join_with_pq_encapsulation_key (key : list byte) (m : InterfaceJoinMessage)
    : InterfaceJoinMessage :=
  {| ijm_interface_id := ijm_interface_id m; ijm_presence_status := ijm_presence_status m;
     ijm_timestamp_millis := ijm_timestamp_millis m; ijm_display_name := ijm_display_name m;
     ijm_pq_encapsulation_key := Some key; ijm_pq_verifying_key := ijm_pq_verifying_key m |}.

Definition join_with_pq_verifying_key (key : list byte) (m : InterfaceJoinMessage) : InterfaceJoinMessage :=
  {| ijm_interface_id := ijm_interface_id m; ijm_presence_status := ijm_presence_status m;
     ijm_timestamp_millis := ijm_timestamp_millis m; ijm_display_name := ijm_display_name m;
     ijm_pq_encapsulation_key := ijm_pq_encapsulation_key m; ijm_pq_verifying_key := Some key |}.

Record InterfaceLeaveMessage : Type := {
  ilm_interface_id : arr32;
  ilm_timestamp_millis : Z;
}.

Definition interface_leave_new (now : Z) (f : arr32) : InterfaceLeaveMessage :=
  {| ilm_interface_id := f; ilm_timestamp_millis := now |}.

Record InterfaceEventAckMessage : Type := {
  ack_interface_id : arr32;
  up_to_event_id : EventId;
}.

Definition interface_event_ack_new (f : arr32) (id : EventId) : InterfaceEventAckMessage :=
  {| ack_interface_id := f; up_to_event_id := id |}.

(** ** Peer discovery and direct connections *)

Record RealmPeerInfo (I : Type) : Type := {
  rpi_peer_id : I;
  rpi_display_name : option string;
  rpi_pq_encapsulation_key : option (list byte);
  rpi_pq_verifying_key : option (list byte);
  rpi_timestamp_millis : Z;
}.
Arguments rpi_peer_id {I} _.
Arguments rpi_display_name {I} _.
Arguments rpi_pq_encapsulation_key {I} _.
Arguments rpi_pq_verifying_key {I} _.
Arguments rpi_timestamp_millis {I} _.

Definition realm_peer_info_new {I} (now : Z) (i : I) : RealmPeerInfo I :=
  {| rpi_peer_id := i; rpi_display_name := None; rpi_pq_encapsulation_key := None;
     rpi_pq_verifying_key := None; rpi_timestamp_millis := now |}.

Definition realm_peer_with_name {I} (name : string) (m : RealmPeerInfo I) : RealmPeerInfo I :=
  {| rpi_peer_id := rpi_peer_id m; rpi_display_name := Some name;
     rpi_pq_encapsulation_key := rpi_pq_encapsulation_key m;
     rpi_pq_verifying_key := rpi_pq_verifying_key m; rpi_timestamp_millis := rpi_timestamp_millis m |}.

Definition realm_peer_with_pq_encapsulation_key {I} (key : list byte) (m : RealmPeerInfo I)
    : RealmPeerInfo I :=
  {| rpi_peer_id := rpi_peer_id m; rpi_display_name := rpi_display_name m;
     rpi_pq_encapsulation_key := Some key; rpi_pq_verifying_key := rpi_pq_verifying_key m;
     rpi_timestamp_millis := rpi_timestamp_millis m |}.

Definition realm_peer_with_pq_verifying_key {I} (key : list byte) (m : RealmPeerInfo I) : RealmPeerInfo I :=
  {| rpi_peer_id := rpi_peer_id m; rpi_display_name := rpi_display_name m;
     rpi_pq_encapsulation_key := rpi_pq_encapsulation_key m; rpi_pq_verifying_key := Some key;
     rpi_timestamp_millis := rpi_timestamp_millis m |}.

Record PeerIntroductionMessage (I : Type) : Type := {
  pim_interface_id : arr32;
  pim_peer_info : RealmPeerInfo I;
  pim_timestamp_millis : Z;
}.
Arguments pim_interface_id {I} _.
Arguments pim_peer_info {I} _.
Arguments pim_timestamp_millis {I} _.

Definition peer_introduction_new {I} (now : Z) (f : arr32) (info : RealmPeerInfo I)
    : PeerIntroductionMessage I :=
  {| pim_interface_id := f; pim_peer_info := info; pim_timestamp_millis := now |}.

Record IntroductionRequestMessage (I : Type) : Type := {
  irq_interface_id : arr32;
  irq_known_peers : list I;
  irq_timestamp_millis : Z;
}.
Arguments irq_interface_id {I} _.
Arguments irq_known_peers {I} _.
Arguments irq_timestamp_millis {I} _.

Definition introduction_request_new {I} (now : Z) (f : arr32) : IntroductionRequestMessage I :=
  {| irq_interface_id := f; irq_known_peers := []; irq_timestamp_millis := now |}.

Definition with_known_peers {I} (l : list I) (m : IntroductionRequestMessage I)
    : IntroductionRequestMessage I :=
  {| irq_interface_id := irq_interface_id m; irq_known_peers := l;
     irq_timestamp_millis := irq_timestamp_millis m |}.

Record IntroductionResponseMessage (I : Type) : Type := {
  irs_interface_id : arr32;
  irs_members : list (RealmPeerInfo I);
  irs_timestamp_millis : Z;
}.
Arguments irs_interface_id {I} _.
Arguments irs_members {I} _.
Arguments irs_timestamp_millis {I} _.

Definition introduction_response_new {I} (now : Z) (f : arr32) (l : list (RealmPeerInfo I))
    : IntroductionResponseMessage I :=
  {| irs_interface_id := f; irs_members := l; irs_timestamp_millis := now |}.

Record KeyExchangeMessage : Type := {
  kex_interface_id : arr32;
  kex_sender_id : arr32;
  kem_ciphertext : list byte;
  kex_timestamp_millis : Z;
}.

Definition key_exchange_new (now : Z) (f : arr32) (sender : arr32) (c : list byte) : KeyExchangeMessage :=
  {| kex_interface_id := f; kex_sender_id := sender; kem_ciphertext := c; kex_timestamp_millis := now |}.

Record EncounterExchangeMessage : Type := {
  eem_interface_id : arr32;
  eem_member_id : arr32;
  eem_display_name : option string;
  eem_timestamp_millis : Z;
}.

Definition encounter_exchange_new (now : Z) (f : arr32) (member : arr32) : EncounterExchangeMessage :=
  {| eem_interface_id := f; eem_member_id := member; eem_display_name := None; eem_timestamp_millis := now |}.

Definition encounter_with_name (name : string) (m : EncounterExchangeMessage) : EncounterExchangeMessage :=
  {| eem_interface_id := eem_interface_id m; eem_member_id := eem_member_id m;
     eem_display_name := Some name; eem_timestamp_millis := eem_timestamp_millis m |}.

(** ** Relay messages *)

Record RelayRegisterMessage : Type := {
  rrm_interfaces : list arr32;
  rrm_display_name : option string;
  rrm_timestamp_millis : Z;
}.

Definition relay_register_new (now : Z) (l : list arr32) : RelayRegisterMessage :=
  {| rrm_interfaces := l; rrm_display_name := None; rrm_timestamp_millis := now |}.

Definition relay_register_with_name (name : string) (m : RelayRegisterMessage) : RelayRegisterMessage :=
  {| rrm_interfaces := rrm_interfaces m; rrm_display_name := Some name;
     rrm_timestamp_millis := rrm_timestamp_millis m |}.

Record RelayRegisterAckMessage : Type := {
  rra_accepted : list arr32;
  rra_rejected : list (arr32 * string);
  rra_timestamp_millis : Z;
}.

Definition relay_register_ack_new (now : Z) (l : list arr32) : RelayRegisterAckMessage :=
  {| rra_accepted := l; rra_rejected := []; rra_timestamp_millis := now |}.

Definition with_rejected (l : list (arr32 * string)) (m : RelayRegisterAckMessage)
    : RelayRegisterAckMessage :=
  {| rra_accepted := rra_accepted m; rra_rejected := l; rra_timestamp_millis := rra_timestamp_millis m |}.

Record RelayUnregisterMessage : Type := {
  rum_interfaces : list arr32;
  rum_timestamp_millis : Z;
}.

Definition relay_unregister_new (now : Z) (l : list arr32) : RelayUnregisterMessage :=
  {| rum_interfaces := l; rum_timestamp_millis := now |}.

Record RelayRetrieveMessage : Type := {
  rtm_interface_id : arr32;
  after_event_id : option EventId;
  rtm_tier : option StorageTier;
  rtm_timestamp_millis : Z;
}.

Definition relay_retrieve_new (now : Z) (f : arr32) : RelayRetrieveMessage :=
  {| rtm_interface_id := f; after_event_id := None; rtm_tier := None; rtm_timestamp_millis := now |}.

Definition retrieve_from_tier (t : StorageTier) (m : RelayRetrieveMessage) : RelayRetrieveMessage :=
  {| rtm_interface_id := rtm_interface_id m; after_event_id := after_event_id m; rtm_tier := Some t;
     rtm_timestamp_millis := rtm_timestamp_millis m |}.

Definition retrieve_after (id : EventId) (m : RelayRetrieveMessage) : RelayRetrieveMessage :=
  {| rtm_interface_id := rtm_interface_id m; after_event_id := Some id; rtm_tier := rtm_tier m;
     rtm_timestamp_millis := rtm_timestamp_millis m |}.

Record StoredEvent : Type := {
  se_event_id : EventId;
  encrypted_event : list byte;
  se_nonce : list byte;
  received_at_millis : Z;
}.

Definition stored_event_new (now : Z) (id : EventId) (event : list byte) (nonce : list byte)
    : StoredEvent :=
  {| se_event_id := id; encrypted_event := event; se_nonce := nonce; received_at_millis := now |}.

Record RelayDeliveryMessage : Type := {
  rdm_interface_id : arr32;
  rdm_events : list StoredEvent;
  rdm_has_more : bool;
  rdm_timestamp_millis : Z;
}.

Definition relay_delivery_new (now : Z) (f : arr32) (l : list StoredEvent) : RelayDeliveryMessage :=
  {| rdm_interface_id := f; rdm_events := l; rdm_has_more := false; rdm_timestamp_millis := now |}.

Definition with_more (m : RelayDeliveryMessage) : RelayDeliveryMessage :=
  {| rdm_interface_id := rdm_interface_id m; rdm_events := rdm_events m; rdm_has_more := true;
     rdm_timestamp_millis := rdm_timestamp_millis m |}.

Record RelayAuthMessage : Type := {
  ram_credential : list byte;
  ram_player_id : arr32;
  ram_timestamp_millis : Z;
}.

Record TierQuotaInfo : Type := {
  tqi_tier : StorageTier;
  tqi_max_bytes : Z;
  tqi_used_bytes : Z;
  tqi_max_interfaces : Z;
}.

Record RelayAuthAckMessage : Type := {
  raa_authenticated : bool;
  raa_granted_tiers : list StorageTier;
  raa_tier_quotas : list TierQuotaInfo;
  raa_timestamp_millis : Z;
}.

Inductive StoreContentType : Type := SctEvent | SctBackup | SctCustodyTransfer | SctBroadcast.

Record StoreMetadata : Type := {
  content_type : StoreContentType;
  sm_pin : bool;
  ttl_override_days : option Z;
}.

Record RelayStoreMessage : Type := {
  rsm_tier : StorageTier;
  rsm_interface_id : arr32;
  rsm_data : list byte;
  rsm_metadata : StoreMetadata;
  rsm_timestamp_millis : Z;
}.

Record RelayStoreAckMessage : Type := {
  rsa_accepted : bool;
  rsa_reason : option string;
  rsa_timestamp_millis : Z;
}.

Record RelayContactsSyncMessage : Type := { rcs_contacts : list arr32 }.

Record RelayContactsSyncAckMessage : Type := {
  rca_accepted : bool;
  rca_contact_count : Z;
}.

(** ** Messages *)

Inductive WireMessage (I : Type) : Type :=
| WPacket (m : SerializedPacket I)
| WConfirmation (m : SerializedConfirmation I)
| PresenceAnnounce (m : PresenceInfo I)
| PresenceQuery
| PresenceResponse (m : list (PresenceInfo I))
| WSyncRequest (m : SyncRequest I)
| WSyncResponse (m : SyncResponse)
| Ping (n : Z)
| Pong (n : Z)
| InterfaceEvent (m : InterfaceEventMessage)
| InterfaceSyncRequest (m : InterfaceSyncRequestMessage)
| InterfaceSyncResponse (m : InterfaceSyncResponseMessage)
| InterfaceJoin (m : InterfaceJoinMessage)
| InterfaceLeave (m : InterfaceLeaveMessage)
| InterfaceEventAck (m : InterfaceEventAckMessage)
| PeerIntroduction (m : PeerIntroductionMessage I)
| IntroductionRequest (m : IntroductionRequestMessage I)
| IntroductionResponse (m : IntroductionResponseMessage I)
| KeyExchange (m : KeyExchangeMessage)
| EncounterExchange (m : EncounterExchangeMessage)
| RelayRegister (m : RelayRegisterMessage)
| RelayRegisterAck (m : RelayRegisterAckMessage)
| RelayUnregister (m : RelayUnregisterMessage)
| RelayRetrieve (m : RelayRetrieveMessage)
| RelayDelivery (m : RelayDeliveryMessage)
| RelayAuth (m : RelayAuthMessage)
| RelayAuthAck (m : RelayAuthAckMessage)
| RelayStore (m : RelayStoreMessage)
| RelayStoreAck (m : RelayStoreAckMessage)
| RelayContactsSync (m : RelayContactsSyncMessage)
| RelayContactsSyncAck (m : RelayContactsSyncAckMessage).
Arguments WPacket {I} _.
Arguments WConfirmation {I} _.
Arguments PresenceAnnounce {I} _.
Arguments PresenceQuery {I}.
Arguments PresenceResponse {I} _.
Arguments WSyncRequest {I} _.
Arguments WSyncResponse {I} _.
Arguments Ping {I} _.
Arguments Pong {I} _.
Arguments InterfaceEvent {I} _.
Arguments InterfaceSyncRequest {I} _.
Arguments InterfaceSyncResponse {I} _.
Arguments InterfaceJoin {I} _.
Arguments InterfaceLeave {I} _.
Arguments InterfaceEventAck {I} _.
Arguments PeerIntroduction {I} _.
Arguments IntroductionRequest {I} _.
Arguments IntroductionResponse {I} _.
Arguments KeyExchange {I} _.
Arguments EncounterExchange {I} _.
Arguments RelayRegister {I} _.
Arguments RelayRegisterAck {I} _.
Arguments RelayUnregister {I} _.
Arguments RelayRetrieve {I} _.
Arguments RelayDelivery {I} _.
Arguments RelayAuth {I} _.
Arguments RelayAuthAck {I} _.
Arguments RelayStore {I} _.
Arguments RelayStoreAck {I} _.
Arguments RelayContactsSync {I} _.
Arguments RelayContactsSyncAck {I} _.

(** ** Framing *)

Definition MAX_MESSAGE_SIZE : Z := 1024 * 1024.

Inductive FramingError : Type :=
| MessageTooLarge (size max : Z)
| InsufficientData (needed available : Z)
| FrSerialization (msg : string)
| FrDeserialization (msg : string).

Definition framing_error_message (e : FramingError) : string :=
  (match e with
   | MessageTooLarge size max =>
       "Message too large: " ++ i64_to_string size ++ " bytes (max: " ++ i64_to_string max ++ ")"
   | InsufficientData needed available =>
       "Insufficient data: need " ++ i64_to_string needed ++ " bytes, have " ++ i64_to_string available
   | FrSerialization m => "Serialization error: " ++ m
   | FrDeserialization m => "Deserialization error: " ++ m
   end)%string.

(** [postcard] on messages. *)
Class WirePostcard (I : Type) : Type := {
  postcard_wire : WireMessage I → Result (list byte) string;
  postcard_parse_wire : list byte → Result (WireMessage I) string;
}.

(** Decoding what was encoded gives it back. *)
Class WirePostcardLaws (I : Type) `{!WirePostcard I} : Prop :=
  postcard_wire_parse (m : WireMessage I) b : postcard_wire m = Ok b → postcard_parse_wire b = Ok m.

Section Framing.
Context {I : Type} `{!WirePostcard I}.
Implicit Types (m : WireMessage I) (data rest : list byte).

Definition frame_message (m : WireMessage I) : Result (list byte) FramingError :=
  match postcard_wire m with
  | Err e => Err (FrSerialization e)
  | Ok serialized =>
      let size := Z.of_nat (length serialized) in
      if MAX_MESSAGE_SIZE <? size then Err (MessageTooLarge size MAX_MESSAGE_SIZE)
      else Ok (be_bytes 4 (size mod 2 ^ 32) ++ serialized)
  end.

Definition parse_framed_message (data : list byte) : Result (WireMessage I) FramingError :=
  let available := Z.of_nat (length data) in
  if available <? 4 then Err (InsufficientData 4 available)
  else
    let len := from_be_bytes (take 4 data) in
    if MAX_MESSAGE_SIZE <? len then Err (MessageTooLarge len MAX_MESSAGE_SIZE)
    else if available <? 4 + len then Err (InsufficientData (4 + len) available)
    else match postcard_parse_wire (take (Z.to_nat len) (drop 4 data)) with
         | Ok m => Ok m
         | Err e => Err (FrDeserialization e)
         end.

(** ** Framing is faithful *)

Lemma frame_message_ok m b :
  frame_message m = Ok b →
  ∃ body, postcard_wire m = Ok body ∧ Z.of_nat (length body) <= MAX_MESSAGE_SIZE ∧
    b = be_bytes 4 (Z.of_nat (length body)) ++ body.
Proof.
  unfold frame_message. destruct (postcard_wire m) as [body|]; [|done]. cbn zeta.
  destruct (Z.ltb_spec MAX_MESSAGE_SIZE (Z.of_nat (length body))) as [|Hle]; [done|]. intros [= <-].
  exists body. split; [done|]. split; [done|]. rewrite Z.mod_small; [done|]. unfold MAX_MESSAGE_SIZE in Hle. lia.
Qed.

Lemma frame_length n (l : list byte) :
  0 <= n <= MAX_MESSAGE_SIZE → from_be_bytes (take 4 (be_bytes 4 n ++ l)) = n ∧ drop 4 (be_bytes 4 n ++ l) = l.
Proof.
  intros Hn. rewrite take_app_length', drop_app_length' by (by rewrite be_bytes_length).
  split; [|done]. rewrite from_to_be_bytes. apply Z.mod_small. unfold MAX_MESSAGE_SIZE in Hn. lia.
Qed.

(** What is parsed: a length, that many bytes, and whatever follows. *)
Lemma parse_framed_inv data m :
  parse_framed_message data = Ok m →
  ∃ body rest, data = be_bytes 4 (Z.of_nat (length body)) ++ body ++ rest ∧
    Z.of_nat (length body) <= MAX_MESSAGE_SIZE ∧ postcard_parse_wire body = Ok m.
Proof.
  unfold parse_framed_message. destruct (Z.ltb_spec (Z.of_nat (length data)) 4) as [|Hlen]; [done|].
  set (len := from_be_bytes (take 4 data)).
  destruct (Z.ltb_spec MAX_MESSAGE_SIZE len) as [|Hmax]; [done|].
  destruct (Z.ltb_spec (Z.of_nat (length data)) (4 + len)) as [|Hav]; [done|].
  assert (0 <= len) as Hpos by apply from_be_bytes_range.
  destruct (postcard_parse_wire _) as [m'|] eqn:Hp; [|done]. intros [= <-].
  exists (take (Z.to_nat len) (drop 4 data)), (drop (Z.to_nat len) (drop 4 data)).
  assert (Z.of_nat (length (take (Z.to_nat len) (drop 4 data))) = len) as Hl
    by (rewrite length_take, length_drop; lia).
  rewrite Hl. split; [|done]. rewrite take_drop.
  rewrite <- (take_drop 4 data) at 1. f_equal. subst len.
  rewrite <- (be_from_bytes (take 4 data)) at 1. f_equal. rewrite length_take. lia.
Qed.

(** C18. Framing.  A framed message is read back whatever follows it on the stream;
    it is at most 4 bytes longer than the limit; every proper prefix of it is
    refused as incomplete, with the number of bytes needed; and whatever is
    accepted is a length, a body of that length within the limit that decodes
    to the message, and a rest that is ignored. *)
Theorem framing_roundtrip `{!WirePostcardLaws I} :
  (∀ m b, frame_message m = Ok b →
     (∀ rest, parse_framed_message (b ++ rest) = Ok m) ∧
     Z.of_nat (length b) <= 4 + MAX_MESSAGE_SIZE ∧
     (∀ n, (n < length b)%nat →
        ∃ needed, parse_framed_message (take n b) = Err (InsufficientData needed (Z.of_nat n)) ∧
          Z.of_nat n < needed <= Z.of_nat (length b))) ∧
  (∀ data m, parse_framed_message data = Ok m →
     ∃ body rest, data = be_bytes 4 (Z.of_nat (length body)) ++ body ++ rest ∧
       Z.of_nat (length body) <= MAX_MESSAGE_SIZE ∧ postcard_parse_wire body = Ok m).
Proof.
  split; [|apply parse_framed_inv]. intros m b Hb.
  apply frame_message_ok in Hb as (body & Hbody & Hmax & ->). split; [|split].
  - intros rest. unfold parse_framed_message. rewrite <- app_assoc.
    destruct (frame_length (Z.of_nat (length body)) (body ++ rest)) as [-> ->]; [lia|].
    rewrite !length_app, be_bytes_length.
    destruct (Z.ltb_spec (Z.of_nat (4 + (length body + length rest))) 4); [lia|].
    destruct (Z.ltb_spec MAX_MESSAGE_SIZE (Z.of_nat (length body))); [lia|].
    destruct (Z.ltb_spec (Z.of_nat (4 + (length body + length rest))) (4 + Z.of_nat (length body))); [lia|].
    rewrite Nat2Z.id, take_app_length. by rewrite (postcard_wire_parse m body).
  - rewrite length_app, be_bytes_length. lia.
  - intros n Hn. rewrite length_app, be_bytes_length in *. unfold parse_framed_message.
    assert (length (take n (be_bytes 4 (Z.of_nat (length body)) ++ body)) = n) as ->
      by (rewrite length_take, length_app, be_bytes_length; lia).
    destruct (Z.ltb_spec (Z.of_nat n) 4); [exists 4; split; [done|lia]|].
    rewrite take_take, Nat.min_l by lia.
    destruct (frame_length (Z.of_nat (length body)) body) as [-> _]; [lia|].
    destruct (Z.ltb_spec MAX_MESSAGE_SIZE (Z.of_nat (length body))); [lia|].
    destruct (Z.ltb_spec (Z.of_nat n) (4 + Z.of_nat (length body))); [|lia].
    eexists. split; [done|lia].
Qed.
End Framing.
