(* ===== verification/BlobStore.v ===== *)
(** * The relay's blob store

    Models [indras-relay/src/blob_store.rs] over redb's tables: ordered maps
    from byte strings, changed by transactions.  A transaction that fails
    ([Some e]) has no effect; the [postcard] encoding of stored events is a
    parameter.  [make_event_key] orders events by interface, sender and
    sequence number. *)

From S2P Require Import Prelude Bytes Pending RelayConfig Wire.

Local Open Scope string_scope.
Local Open Scope Z_scope.
Local Open Scope list_scope.

Class StoredEventPostcard : Type := {
  postcard_stored : StoredEvent → Result (list byte) string;
  postcard_parse_stored : list byte → Result StoredEvent string;
}.

(** ** Keys *)

(** [EventId::to_bytes] and [EventId::from_bytes]. *)
Definition event_id_to_bytes (id : EventId) : list byte :=
  be_bytes 8 (sender_hash id) ++ be_bytes 8 (ev_sequence id).

Definition event_id_from_bytes (l : list byte) : EventId :=
  {| sender_hash := from_be_bytes (take 8 l); ev_sequence := from_be_bytes (take 8 (drop 8 l)) |}.

Definition make_event_key (f : arr32) (id : EventId) : list byte :=
  arr32_bytes f ++ be_bytes 8 (sender_hash id) ++ be_bytes 8 (ev_sequence id).

(** The test of a key against an interface. *)
Definition key_of_interface (f : arr32) (k : list byte) : bool :=
  negb ((length k <? 32)%nat || negb (bool_decide (take 32 k = arr32_bytes f))).

(** ** Tables *)

Record TierTables : Type := {
  tt_events : gmap (list byte) (list byte);
  tt_usage : gmap (list byte) Z;
}.

Record BlobStore : Type := {
  self_tables : TierTables;
  connections_tables : TierTables;
  public_tables : TierTables;
  pinned_events : gmap (list byte) Z;
  ttl_overrides : gmap (list byte) Z;
}.

Definition empty_tables : TierTables := {| tt_events := ∅; tt_usage := ∅ |}.

Definition blob_store_empty : BlobStore :=
  {| self_tables := empty_tables; connections_tables := empty_tables; public_tables := empty_tables;
     pinned_events := ∅; ttl_overrides := ∅ |}.

Definition tables_for (t : StorageTier) (s : BlobStore) : TierTables :=
  match t with Self_ => self_tables s | Connections => connections_tables s | Public => public_tables s end.

Definition set_tables (t : StorageTier) (x : TierTables) (s : BlobStore) : BlobStore :=
  {| self_tables := match t with Self_ => x | _ => self_tables s end;
     connections_tables := match t with Connections => x | _ => connections_tables s end;
     public_tables := match t with Public => x | _ => public_tables s end;
     pinned_events := pinned_events s; ttl_overrides := ttl_overrides s |}.

Definition set_pinned (p : gmap (list byte) Z) (s : BlobStore) : BlobStore :=
  {| self_tables := self_tables s; connections_tables := connections_tables s;
     public_tables := public_tables s; pinned_events := p; ttl_overrides := ttl_overrides s |}.

Definition set_ttl (p : gmap (list byte) Z) (s : BlobStore) : BlobStore :=
  {| self_tables := self_tables s; connections_tables := connections_tables s;
     public_tables := public_tables s; pinned_events := pinned_events s; ttl_overrides := p |}.

(** redb iterates a table in the order of its keys. *)
Definition key_leb {A} (x y : list byte * A) : bool := bytes_leb x.1 y.1.

Definition table_iter {A} (t : gmap (list byte) A) : list (list byte * A) :=
  sort_by key_leb (map_to_list t).

(** [table.range(from..)]. *)
Definition table_range {A} (from : list byte) (t : gmap (list byte) A) : list (list byte * A) :=
  retain (λ x, bytes_leb from x.1) (table_iter t).

Fixpoint take_while {A} (f : A → bool) (l : list A) : list A :=
  match l with [] => [] | x :: l => if f x then x :: take_while f l else [] end.

(** The scans: from the interface's prefix until a key of another interface. *)
Definition scan_interface {A} (f : arr32) (t : gmap (list byte) A) : list (list byte * A) :=
  take_while (λ x, key_of_interface f x.1) (table_range (arr32_bytes f) t).

(** The failure of a transaction. *)
Definition db_error (e : string) : RelayError := ReStorage e.

Section BlobStore.
Context `{StoredEventPostcard}.

(** ** Storing and retrieving *)

Definition tier_usage (f : arr32) (x : TierTables) : Z := default 0 (tt_usage x !! arr32_bytes f).

Definition store_event_tiered (db : option string) (t : StorageTier) (f : arr32) (e : StoredEvent)
    (s : BlobStore) : BlobStore * Result unit RelayError :=
  match postcard_stored e with
  | Err m => (s, Err (ReSerialization ("Failed to serialize event: " +:+ m)))
  | Ok value =>
      match db with
      | Some m => (s, Err (db_error m))
      | None =>
          let x := tables_for t s in
          (set_tables t
             {| tt_events := <[make_event_key f (se_event_id e) := value]> (tt_events x);
                tt_usage := <[arr32_bytes f := wrap_u64 (tier_usage f x + Z.of_nat (length value))]> (tt_usage x) |} s,
           Ok tt)
      end
  end.

Definition store_event (db : option string) (f : arr32) (e : StoredEvent) (s : BlobStore) :=
  store_event_tiered db Connections f e s.

(** The filter by the last event seen. *)
Definition not_after (after : option EventId) (id : EventId) : bool :=
  match after with
  | Some a => (sender_hash id <? sender_hash a)
              || ((sender_hash id =? sender_hash a) && (ev_sequence id <=? ev_sequence a))
  | None => false
  end.

Fixpoint collect_events (after : option EventId) (l : list (list byte * list byte))
    : Result (list StoredEvent) RelayError :=
  match l with
  | [] => Ok []
  | (_, value) :: l =>
      match postcard_parse_stored value with
      | Err m => Err (ReSerialization ("Failed to deserialize event: " +:+ m))
      | Ok e =>
          rbind (collect_events after l) (λ es,
          Ok (if not_after after (se_event_id e) then es else e :: es))
      end
  end.

Definition events_after_tiered (db : option string) (t : StorageTier) (f : arr32) (after : option EventId)
    (s : BlobStore) : Result (list StoredEvent) RelayError :=
  match db with
  | Some m => Err (db_error m)
  | None => collect_events after (scan_interface f (tt_events (tables_for t s)))
  end.

Definition events_after (db : option string) (f : arr32) (after : option EventId) (s : BlobStore) :=
  events_after_tiered db Connections f after s.

Definition get_event (db : option string) (t : StorageTier) (f : arr32) (id : EventId) (s : BlobStore)
    : Result (option StoredEvent) RelayError :=
  match db with
  | Some m => Err (db_error m)
  | None =>
      match tt_events (tables_for t s) !! make_event_key f id with
      | None => Ok None
      | Some value =>
          match postcard_parse_stored value with
          | Ok e => Ok (Some e)
          | Err m => Err (ReSerialization ("Failed to deserialize event: " +:+ m))
          end
      end
  end.

(** ** Usage *)

(** [u64] sums. *)
Definition sum_u64 (l : list Z) : Z := foldl (λ a b, wrap_u64 (a + b)) 0 l.

Definition interface_usage_bytes (db : option string) (f : arr32) (s : BlobStore) : Result Z RelayError :=
  match db with
  | Some m => Err (db_error m)
  | None => Ok (sum_u64 ((λ t, tier_usage f (tables_for t s)) <$> ALL_TIERS))
  end.

Definition tier_usage_bytes (db : option string) (t : StorageTier) (s : BlobStore) : Result Z RelayError :=
  match db with
  | Some m => Err (db_error m)
  | None => Ok (sum_u64 (table_iter (tt_usage (tables_for t s))).*2)
  end.

Definition total_usage_bytes (db : option string) (s : BlobStore) : Result Z RelayError :=
  match db with
  | Some m => Err (db_error m)
  | None => Ok (sum_u64 ((λ t, sum_u64 (table_iter (tt_usage (tables_for t s))).*2) <$> ALL_TIERS))
  end.

(** One entry of a usage table, where the key is an interface with usage. *)
Definition usage_entry (t : StorageTier) (x : list byte * Z) : option (arr32 * StorageTier * Z) :=
  f ← to_arr32 x.1; if 0 <? x.2 then Some (f, t, x.2) else None.

Definition all_interface_usage (db : option string) (s : BlobStore)
    : Result (list (arr32 * StorageTier * Z)) RelayError :=
  match db with
  | Some m => Err (db_error m)
  | None => Ok (concat ((λ t, omap (usage_entry t) (table_iter (tt_usage (tables_for t s)))) <$> ALL_TIERS))
  end.

Definition event_count (db : option string) (s : BlobStore) : Result Z RelayError :=
  match db with
  | Some m => Err (db_error m)
  | None => Ok (sum_u64 ((λ t, Z.of_nat (size (tt_events (tables_for t s)))) <$> ALL_TIERS))
  end.

Definition interface_event_count (db : option string) (f : arr32) (s : BlobStore) : Result Z RelayError :=
  match db with
  | Some m => Err (db_error m)
  | None =>
      Ok (Z.of_nat (length (concat ((λ t, scan_interface f (tt_events (tables_for t s))) <$> ALL_TIERS))))
  end.

(** ** Pins and time-to-live *)

Definition pin_event (db : option string) (f : arr32) (id : EventId) (s : BlobStore)
    : BlobStore * Result unit RelayError :=
  match db with
  | Some m => (s, Err (db_error m))
  | None => (set_pinned (<[make_event_key f id := 1]> (pinned_events s)) s, Ok tt)
  end.

Definition set_ttl_override (db : option string) (f : arr32) (id : EventId) (days : Z) (s : BlobStore)
    : BlobStore * Result unit RelayError :=
  match db with
  | Some m => (s, Err (db_error m))
  | None => (set_ttl (<[make_event_key f id := days]> (ttl_overrides s)) s, Ok tt)
  end.

Definition is_pinned (db : option string) (f : arr32) (id : EventId) (s : BlobStore) : Result bool RelayError :=
  match db with
  | Some m => Err (db_error m)
  | None => Ok (bool_decide (is_Some (pinned_events s !! make_event_key f id)))
  end.

Definition get_ttl_override (db : option string) (f : arr32) (id : EventId) (s : BlobStore)
    : Result (option Z) RelayError :=
  match db with
  | Some m => Err (db_error m)
  | None => Ok (ttl_overrides s !! make_event_key f id)
  end.

(** ** Eviction *)

(** Removing one key of a tier with its pin and time-to-live. *)
Definition evict_key (t : StorageTier) (s : BlobStore) (k : list byte) : BlobStore :=
  let x := tables_for t s in
  set_ttl (delete k (ttl_overrides s)) (set_pinned (delete k (pinned_events s))
    (set_tables t {| tt_events := delete k (tt_events x); tt_usage := tt_usage x |} s)).

Definition evict_tier (f : arr32) (acc : BlobStore * nat) (t : StorageTier) : BlobStore * nat :=
  let (s, count) := acc in
  let x := tables_for t s in
  let keys := (scan_interface f (tt_events x)).*1 in
  let s := set_tables t {| tt_events := tt_events x; tt_usage := delete (arr32_bytes f) (tt_usage x) |} s in
  (foldl (evict_key t) s keys, (count + length keys)%nat).

Definition evict_interface (db : option string) (f : arr32) (s : BlobStore) : BlobStore * Result nat RelayError :=
  match db with
  | Some m => (s, Err (db_error m))
  | None => let (s, count) := foldl (evict_tier f) (s, 0%nat) ALL_TIERS in (s, Ok count)
  end.

(** ** Cleanup *)

(** Whether an entry has expired; [max_age] is in milliseconds. *)
Definition entry_expired (now max_age : Z) (s : BlobStore) (x : list byte * list byte) : bool :=
  match postcard_parse_stored x.2 with
  | Err _ => false
  | Ok e =>
      if bool_decide (is_Some (pinned_events s !! x.1)) then false
      else
        let effective_cutoff :=
          match ttl_overrides s !! x.1 with
          | Some days => wrap_i64 (now - wrap_i64 (wrap_i64 days * 86400000))
          | None => wrap_i64 (now - wrap_i64 max_age)
          end in
        received_at_millis e <? effective_cutoff
  end.

(** Deleting one expired key: the event, its share of the usage, its pin and
    its time-to-live. *)
Definition expire_key (t : StorageTier) (s : BlobStore) (k : list byte) : BlobStore :=
  let x := tables_for t s in
  let usage :=
    match tt_events x !! k with
    | Some v =>
        let f := take 32 k in
        let new_usage := Z.max 0 (default 0 (tt_usage x !! f) - Z.of_nat (length v)) in
        if new_usage =? 0 then delete f (tt_usage x) else <[f := new_usage]> (tt_usage x)
    | None => tt_usage x
    end in
  set_ttl (delete k (ttl_overrides s)) (set_pinned (delete k (pinned_events s))
    (set_tables t {| tt_events := delete k (tt_events x); tt_usage := usage |} s)).

Definition cleanup_expired_tiered (db : option string) (now : Z) (t : StorageTier) (max_age : Z)
    (s : BlobStore) : BlobStore * Result nat RelayError :=
  match db with
  | Some m => (s, Err (db_error m))
  | None =>
      let keys := (retain (entry_expired now max_age s) (table_iter (tt_events (tables_for t s)))).*1 in
      (foldl (expire_key t) s keys, Ok (length keys))
  end.

(** Stops at the first tier whose transaction fails. *)
Fixpoint cleanup_tiers (dbs : list (option string)) (now max_age : Z) (ts : list StorageTier) (total : nat)
    (s : BlobStore) : BlobStore * Result nat RelayError :=
  match ts, dbs with
  | [], _ | _, [] => (s, Ok total)
  | t :: ts, db :: dbs =>
      match cleanup_expired_tiered db now t max_age s with
      | (s, Ok n) => cleanup_tiers dbs now max_age ts (total + n) s
      | (s, Err e) => (s, Err e)
      end
  end.

Definition blob_cleanup_expired (dbs : list (option string)) (now max_age : Z) (s : BlobStore) :=
  cleanup_tiers dbs now max_age ALL_TIERS 0 s.
End BlobStore.

(** ** The order of the tables *)

#[global] Instance bytes_leb_linear : LinearOrder bytes_leb.
Proof. split; [split|]; eauto using bytes_leb_total, bytes_leb_trans, bytes_leb_antisym. Qed.

#[global] Instance key_leb_preorder {A} : TotalPreorder (@key_leb A).
Proof. unfold key_leb. split; intros *; [apply bytes_leb_total|apply bytes_leb_trans]. Qed.

Lemma elem_of_table_iter {A} (t : gmap (list byte) A) k v : (k, v) ∈ table_iter t ↔ t !! k = Some v.
Proof. unfold table_iter. by rewrite sort_by_perm, elem_of_map_to_list. Qed.

(** A downward closed test of a sorted list holds of a prefix of it. *)
Lemma take_while_retain {A} (R : A → A → Prop) (f : A → bool) l :
  StronglySorted R l → (∀ x y, x ∈ l → R x y → f y = true → f x = true) → take_while f l = retain f l.
Proof.
  induction 1 as [|x l Hs IH Hall]; intros Hf; [done|]. cbn [take_while retain].
  destruct (f x) eqn:E; [f_equal; apply IH; intros; eapply Hf; eauto; by constructor|].
  symmetry. apply retain_none. intros y Hy. destruct (f y) eqn:Ey; [|done].
  rewrite Forall_forall in Hall. rewrite (Hf x y) in E; [done|constructor|by apply Hall|done].
Qed.

Lemma retain_retain {A} (f g : A → bool) l :
  (∀ x, f x = true → g x = true) → retain f (retain g l) = retain f l.
Proof.
  intros Hfg. induction l as [|x l IH]; [done|]. cbn [retain].
  destruct (g x) eqn:Eg; cbn [retain]; rewrite IH; [done|].
  destruct (f x) eqn:Ef; [rewrite Hfg in Eg|]; done.
Qed.

Lemma key_of_interface_prefix f k : key_of_interface f k = true ↔ arr32_bytes f `prefix_of` k.
Proof.
  unfold key_of_interface. pose proof (arr32_length f) as Hl. split.
  - intros Hk. assert (take 32 k = arr32_bytes f) as <-.
    { destruct (bool_decide_reflect (take 32 k = arr32_bytes f)); [done|].
      by destruct (length k <? 32)%nat. }
    exists (drop 32 k). by rewrite take_drop.
  - intros [m ->]. rewrite length_app, take_app_length' by done.
    rewrite bool_decide_true by done. destruct (Nat.ltb_spec (length (arr32_bytes f) + length m) 32); [lia|done].
Qed.

(** A scan finds the entries of the interface, wherever they are. *)
Lemma scan_interface_retain {A} (f : arr32) (t : gmap (list byte) A) :
  scan_interface f t = retain (λ x : list byte * A, key_of_interface f x.1) (table_iter t).
Proof.
  unfold scan_interface, table_range.
  rewrite (take_while_retain (λ x y, key_leb x y = true)).
  - apply retain_retain. intros [k v] Hk. by apply bytes_leb_prefix_le, key_of_interface_prefix.
  - apply StronglySorted_retain, sort_by_sorted. apply _.
  - intros [k v] [k' v'] [_ Hx]%elem_of_retain Hle Hy. cbn in *. rewrite key_of_interface_prefix in *.
    by eapply bytes_leb_prefix.
Qed.

(** ** Keys and identifiers *)

Definition event_id_ok (id : EventId) : Prop := 0 <= sender_hash id < 2 ^ 64 ∧ 0 <= ev_sequence id < 2 ^ 64.

Lemma be_u64_inj a b : 0 <= a < 2 ^ 64 → 0 <= b < 2 ^ 64 → be_bytes 8 a = be_bytes 8 b → a = b.
Proof. apply (be_bytes_inj 8). Qed.

Lemma from_be_u64 a l : 0 <= a < 2 ^ 64 → from_be_bytes (take 8 (be_bytes 8 a ++ l)) = a.
Proof.
  intros Ha. rewrite take_app_length' by (by rewrite be_bytes_length). rewrite from_to_be_bytes.
  by apply Z.mod_small.
Qed.

Lemma event_id_bytes_roundtrip id : event_id_ok id → event_id_from_bytes (event_id_to_bytes id) = id.
Proof.
  intros [Hh Hs]. unfold event_id_from_bytes, event_id_to_bytes.
  rewrite from_be_u64, drop_app_length' by (done || by rewrite be_bytes_length).
  rewrite <- (app_nil_r (be_bytes 8 (ev_sequence id))), from_be_u64 by done. by destruct id.
Qed.

(** Within an interface the keys are ordered as the identifiers. *)
Lemma event_key_leb f a b :
  event_id_ok a → event_id_ok b → bytes_leb (make_event_key f a) (make_event_key f b) = event_id_leb a b.
Proof.
  intros [Ha1 Ha2] [Hb1 Hb2]. unfold make_event_key, event_id_leb.
  assert (∀ p l m, bytes_leb (p ++ l) (p ++ m) = bytes_leb l m) as ->.
  { intros p l m. induction p as [|x p IH]; [done|]. cbn [app]. by rewrite bytes_leb_cons, Z.ltb_irrefl, Z.eqb_refl. }
  rewrite be_bytes_leb, <- (app_nil_r (be_bytes 8 (ev_sequence a))),
    <- (app_nil_r (be_bytes 8 (ev_sequence b))), be_bytes_leb.
  change (256 ^ Z.of_nat 8) with (2 ^ 64). rewrite !Z.mod_small by done.
  repeat case_match; simpl; lia.
Qed.

Lemma event_key_interface f g id : key_of_interface f (make_event_key g id) = true ↔ g = f.
Proof.
  rewrite key_of_interface_prefix. unfold make_event_key. split; [|intros ->; by apply prefix_app_r].
  intros [m Hm]. apply arr32_bytes_inj. apply (f_equal (take 32)) in Hm.
  by rewrite !take_app_length' in Hm by (by rewrite arr32_length).
Qed.

Lemma event_key_inj f g a b :
  event_id_ok a → event_id_ok b → make_event_key f a = make_event_key g b → f = g ∧ a = b.
Proof.
  intros Ha Hb Hk. assert (f = g) as -> by (apply (event_key_interface g _ a); rewrite Hk; by apply event_key_interface).
  split; [done|]. apply (leb_antisym (leb := event_id_leb));
    rewrite <- (event_key_leb g) by done; rewrite Hk; by destruct (leb_total (leb := bytes_leb) (make_event_key g b) (make_event_key g b)).
Qed.

Lemma tables_for_set t t' x s :
  tables_for t' (set_tables t x s) = if decide (t' = t) then x else tables_for t' s.
Proof. by destruct t, t'. Qed.

Lemma tables_for_pins t p q s : tables_for t (set_ttl q (set_pinned p s)) = tables_for t s.
Proof. by destruct t. Qed.

(** ** Well-formed stores *)

Section BlobFacts.
Context `{StoredEventPostcard}.
Implicit Types (s : BlobStore) (t : StorageTier) (f : arr32).

Definition entry_ok (k v : list byte) : Prop :=
  ∃ f e, event_id_ok (se_event_id e) ∧ k = make_event_key f (se_event_id e) ∧ postcard_parse_stored v = Ok e.

Definition blob_ok s : Prop := ∀ t k v, tt_events (tables_for t s) !! k = Some v → entry_ok k v.

Inductive blob_step s : BlobStore → Prop :=
  | bs_store db t f e : event_id_ok (se_event_id e) → blob_step s (store_event_tiered db t f e s).1
  | bs_pin db f id : blob_step s (pin_event db f id s).1
  | bs_ttl db f id days : blob_step s (set_ttl_override db f id days s).1
  | bs_evict db f : blob_step s (evict_interface db f s).1
  | bs_cleanup db now t max_age : blob_step s (cleanup_expired_tiered db now t max_age s).1.

Lemma blob_ok_submap s s' :
  (∀ t, tt_events (tables_for t s') ⊆ tt_events (tables_for t s)) → blob_ok s → blob_ok s'.
Proof. intros Hsub Hs t k v Hk. apply (Hs t). by eapply lookup_weaken. Qed.

Lemma evict_key_events t t' s k :
  tt_events (tables_for t' (evict_key t s k)) =
  if decide (t' = t) then delete k (tt_events (tables_for t s)) else tt_events (tables_for t' s).
Proof. unfold evict_key. rewrite tables_for_pins, tables_for_set. by destruct (decide _). Qed.

Lemma expire_key_events t t' s k :
  tt_events (tables_for t' (expire_key t s k)) =
  if decide (t' = t) then delete k (tt_events (tables_for t s)) else tt_events (tables_for t' s).
Proof. unfold expire_key. rewrite tables_for_pins, tables_for_set. by destruct (decide _). Qed.

Lemma delete_if_subseteq t t' s k :
  (if decide (t' = t) then delete k (tt_events (tables_for t s)) else tt_events (tables_for t' s))
  ⊆ tt_events (tables_for t' s).
Proof. destruct (decide _) as [->|]; [apply delete_subseteq|done]. Qed.

Lemma blob_step_ok s s' :
  (∀ e v, postcard_stored e = Ok v → postcard_parse_stored v = Ok e) →
  blob_step s s' → blob_ok s → blob_ok s'.
Proof.
  intros Hlaw Hstep Hs. destruct Hstep as [db t f e He|db f id|db f id days|db f|db now t max_age].
  - unfold store_event_tiered. destruct (postcard_stored e) as [v|] eqn:Ev; [|done].
    destruct db; [done|]. intros t' k v'. cbn. rewrite tables_for_set.
    destruct (decide _) as [->|]; [|apply Hs]. cbn. rewrite lookup_insert_Some.
    intros [[<- <-]|[_ Hk]]; [exists f, e; eauto|by apply (Hs t)].
  - destruct db; [done|]. eapply blob_ok_submap, Hs. by intros [].
  - destruct db; [done|]. eapply blob_ok_submap, Hs. by intros [].
  - destruct db; [done|]. unfold evict_interface.
    assert (blob_ok (foldl (evict_tier f) (s, 0%nat) ALL_TIERS).1) as Hok; [|by destruct (foldl _ _ _)].
    apply (foldl_invariant (λ a, blob_ok a.1)); [|done]. intros [s0 n] t Hs0. cbn.
    apply foldl_invariant.
    + intros s1 k. apply blob_ok_submap. intros t'. rewrite evict_key_events. apply delete_if_subseteq.
    + eapply blob_ok_submap, Hs0. intros t'. rewrite tables_for_set. by destruct (decide _) as [->|].
  - destruct db; [done|]. cbn. apply foldl_invariant; [|done].
    intros s1 k. apply blob_ok_submap. intros t'. rewrite expire_key_events. apply delete_if_subseteq.
Qed.

Lemma blob_reachable_ok s :
  (∀ e v, postcard_stored e = Ok v → postcard_parse_stored v = Ok e) →
  rtc blob_step blob_store_empty s → blob_ok s.
Proof.
  intros Hlaw Hr. eapply rtc_invariant; [|exact Hr|by intros []]. intros s1 s2. by apply blob_step_ok.
Qed.

(** ** Retrieval *)

Definition event_before (a b : StoredEvent) : Prop :=
  event_id_leb (se_event_id a) (se_event_id b) = true ∧ se_event_id a ≠ se_event_id b.

(** Over entries in order of their keys, the loop yields the decoded events
    past the filter, in the order of their identifiers. *)
Lemma collect_events_spec after f (l : list (list byte * list byte)) :
  StronglySorted (λ x y, key_leb x y = true) l → NoDup l.*1 →
  (∀ k v, (k, v) ∈ l → key_of_interface f k = true ∧ entry_ok k v) →
  ∃ es, collect_events after l = Ok es ∧ StronglySorted event_before es ∧
    ∀ e, e ∈ es ↔ not_after after (se_event_id e) = false ∧ event_id_ok (se_event_id e) ∧
      ∃ v, (make_event_key f (se_event_id e), v) ∈ l ∧ postcard_parse_stored v = Ok e.
Proof.
  induction 1 as [|[k v] l Hs IH Hall]; intros Hnd Hl.
  { exists []. split; [done|]. split; [constructor|]. intros e. rewrite elem_of_nil.
    split; [done|]. intros (_ & _ & v & Hv & _). by apply elem_of_nil in Hv. }
  cbn [fmap list_fmap fst] in Hnd. apply NoDup_cons in Hnd as [Hk Hnd].
  destruct IH as (es & Hes & Hsort & Hin); [done|intros; apply Hl; by constructor|].
  destruct (Hl k v) as (Hf & g & e0 & Hid & -> & Hp); [constructor|].
  apply event_key_interface in Hf as ->.
  exists (if not_after after (se_event_id e0) then es else e0 :: es).
  cbn [collect_events]. rewrite Hp, Hes. cbn [rbind]. split; [done|].
  assert (∀ e, event_id_ok (se_event_id e) ∧ (∃ v0, (make_event_key f (se_event_id e), v0) ∈
      (make_event_key f (se_event_id e0), v) :: l ∧ postcard_parse_stored v0 = Ok e) ↔
    e = e0 ∨ event_id_ok (se_event_id e) ∧
      ∃ v0, (make_event_key f (se_event_id e), v0) ∈ l ∧ postcard_parse_stored v0 = Ok e) as Hsplit.
  { intros e. setoid_rewrite elem_of_cons. split.
    - intros (Hok & v0 & [[= Hkey <-]|Hv] & Hp0); [left; congruence|right; eauto].
    - intros [->|(Hok & v0 & Hv & Hp0)]; eauto 10. }
  split.
  - destruct (not_after after _); [done|]. constructor; [done|].
    rewrite Forall_forall. intros e (_ & Hok & v0 & Hv & _)%Hin.
    rewrite Forall_forall in Hall. specialize (Hall _ Hv). unfold key_leb in Hall. cbn in Hall.
    rewrite event_key_leb in Hall by done. split; [done|]. intros Heq. apply Hk.
    rewrite Heq. apply list_elem_of_fmap. by eexists (_, _).
  - intros e. rewrite Hsplit. destruct (not_after after (se_event_id e0)) eqn:Ea.
    + rewrite Hin. split; [naive_solver|]. intros (Ha & [->|He]); [congruence|naive_solver].
    + rewrite elem_of_cons, Hin. split; [|naive_solver]. intros [->|He]; naive_solver.
Qed.

Lemma scan_sorted {A} f (m : gmap (list byte) A) :
  StronglySorted (λ x y, key_leb x y = true) (scan_interface f m).
Proof. rewrite scan_interface_retain. apply StronglySorted_retain, sort_by_sorted. apply _. Qed.

Lemma scan_NoDup {A} f (m : gmap (list byte) A) : NoDup (scan_interface f m).*1.
Proof.
  rewrite scan_interface_retain. apply NoDup_fmap_retain. unfold table_iter.
  rewrite sort_by_perm. apply NoDup_fst_map_to_list.
Qed.

Lemma elem_of_scan {A} f (m : gmap (list byte) A) k v :
  (k, v) ∈ scan_interface f m ↔ m !! k = Some v ∧ key_of_interface f k = true.
Proof. by rewrite scan_interface_retain, elem_of_retain, elem_of_table_iter. Qed.

#[local] Instance event_before_antisymm : AntiSymm (=) event_before.
Proof. intros a b [Hab Hne] [Hba _]. destruct Hne. by apply (leb_antisym (leb := event_id_leb)). Qed.

Lemma event_before_NoDup es : StronglySorted event_before es → NoDup es.
Proof.
  induction 1 as [|e es Hs IH Hall]; constructor; [|done]. intros Hin.
  rewrite Forall_forall in Hall. by destruct (Hall e Hin).
Qed.

Lemma not_after_before a x : not_after (Some (se_event_id a)) (se_event_id x) = false ↔ event_before a x.
Proof.
  unfold event_before, not_after, event_id_leb.
  destruct (se_event_id a) as [p q], (se_event_id x) as [u w]; simpl. split.
  - intros Hn. split; [lia|]. intros [= -> ->]. lia.
  - intros [Hle Hne]. assert (u ≠ p ∨ w ≠ q) by (destruct (decide (u = p)), (decide (w = q)); naive_solver). lia.
Qed.

Lemma not_after_mono after a x :
  not_after after (se_event_id a) = false → event_before a x → not_after after (se_event_id x) = false.
Proof.
  destruct after as [c|]; [|done]. rewrite <- not_after_before. unfold not_after. lia.
Qed.

(** The position of an event in a sorted list tells its order. *)
Lemma sorted_rest page e rest x :
  StronglySorted event_before (page ++ e :: rest) → x ∈ page ++ e :: rest → x ∈ rest ↔ event_before e x.
Proof.
  intros (Hpage & _ & Hrest)%StronglySorted_app Hx.
  inversion Hrest as [|? ? _ Hall]; subst. rewrite Forall_forall in Hall.
  split; [apply Hall|]. intros Hex. apply elem_of_app in Hx as [Hx|[->|Hx]%elem_of_cons]; [|by destruct Hex|done].
  assert (event_before x e) as Hxe by (apply Hpage; [done|constructor]).
  assert (x = e) as -> by (by apply event_before_antisymm). by destruct Hex.
Qed.

Lemma get_event_scan t f s e :
  event_id_ok (se_event_id e) →
  (∃ v, (make_event_key f (se_event_id e), v) ∈ scan_interface f (tt_events (tables_for t s)) ∧
     postcard_parse_stored v = Ok e) ↔
  get_event None t f (se_event_id e) s = Ok (Some e).
Proof.
  intros Hok. unfold get_event. setoid_rewrite elem_of_scan. split.
  - intros (v & [-> _] & ->). done.
  - case_match eqn:Hk; [|done]. case_match eqn:Hp; [|done]. intros [= ->].
    eexists. split; [split; [done|by apply event_key_interface]|done].
Qed.

Lemma events_after_elems after t f s :
  blob_ok s →
  ∃ es, events_after_tiered None t f after s = Ok es ∧ StronglySorted event_before es ∧
    ∀ e, e ∈ es ↔ not_after after (se_event_id e) = false ∧ event_id_ok (se_event_id e) ∧
      get_event None t f (se_event_id e) s = Ok (Some e).
Proof.
  intros Hs. destruct (collect_events_spec after f (scan_interface f (tt_events (tables_for t s))))
    as (es & Hes & Hsort & Hin).
  - apply scan_sorted.
  - apply scan_NoDup.
  - intros k v [Hk Hf]%elem_of_scan. split; [done|by apply (Hs t)].
  - exists es. split; [done|]. split; [done|]. intros e. rewrite Hin.
    split; intros (Ha & Hok & Hv); apply get_event_scan in Hv; auto.
Qed.

(** Asking again after an event of the result gives what came after it. *)
Lemma events_after_resume after t f s page e rest :
  blob_ok s → events_after_tiered None t f after s = Ok (page ++ e :: rest) →
  events_after_tiered None t f (Some (se_event_id e)) s = Ok rest.
Proof.
  intros Hok Hev. destruct (events_after_elems after t f s Hok) as (es & Hes & Hsort & Hin).
  rewrite Hev in Hes. injection Hes as <-.
  destruct (events_after_elems (Some (se_event_id e)) t f s Hok) as (es' & Hes' & Hsort' & Hin').
  rewrite Hes'. f_equal.
  assert (StronglySorted event_before rest) as Hrest.
  { apply StronglySorted_app in Hsort as (_ & _ & Hrest). by inversion Hrest. }
  apply (StronglySorted_unique event_before); [done|done|].
  apply NoDup_Permutation; [by apply event_before_NoDup|by apply event_before_NoDup|].
  intros x. rewrite Hin', not_after_before.
  split.
  - intros (Hex & Hx). apply (sorted_rest page e); [done| |done]. apply Hin. split; [|done].
    eapply not_after_mono, Hex. apply Hin, elem_of_app. right. constructor.
  - intros Hx. assert (x ∈ page ++ e :: rest) as Hx' by (apply elem_of_app; right; by constructor).
    split; [by apply (sorted_rest page e rest x Hsort Hx')|]. by apply Hin in Hx' as [_ ?].
Qed.

(** C19. The relay's retrieval.  The events of an interface in a tier after a
    cursor are those stored under it, each once, in the order of their
    identifiers; and asking again with the last identifier of any page as the
    cursor continues where the page stopped. *)
Theorem events_after_spec t f after s :
  (∀ e v, postcard_stored e = Ok v → postcard_parse_stored v = Ok e) →
  rtc blob_step blob_store_empty s →
  ∃ es, events_after_tiered None t f after s = Ok es ∧ StronglySorted event_before es ∧
    (∀ e, e ∈ es ↔ not_after after (se_event_id e) = false ∧ event_id_ok (se_event_id e) ∧
       get_event None t f (se_event_id e) s = Ok (Some e)) ∧
    (∀ page e rest, es = page ++ e :: rest →
       events_after_tiered None t f (Some (se_event_id e)) s = Ok rest).
Proof.
  intros Hlaw Hr. apply (blob_reachable_ok s Hlaw) in Hr as Hok.
  destruct (events_after_elems after t f s Hok) as (es & Hes & Hsort & Hin).
  exists es. do 3 (split; [done|]). intros page e rest ->. by eapply events_after_resume.
Qed.

(** ** Usage *)

(** The bytes an event table holds for an interface. *)
Definition held_bytes f (m : gmap (list byte) (list byte)) : Z :=
  foldr (λ x n, Z.of_nat (length x.2) + n) 0 (scan_interface f m).

Definition usage_exact s : Prop :=
  ∀ t f, tier_usage f (tables_for t s) = held_bytes f (tt_events (tables_for t s)).

Lemma sum_perm (l l' : list (list byte * list byte)) :
  l ≡ₚ l' → foldr (λ x n, Z.of_nat (length x.2) + n) 0 l = foldr (λ x n, Z.of_nat (length x.2) + n) 0 l'.
Proof. induction 1; simpl; lia. Qed.

Lemma retain_perm {A} (g : A → bool) l l' : l ≡ₚ l' → retain g l ≡ₚ retain g l'.
Proof.
  induction 1 as [|x l l' _ IH|x y l|l1 l2 l3 _ IH1 _ IH2]; simpl; [done| | |by etrans].
  - destruct (g x); by rewrite IH.
  - destruct (g x), (g y); try done. constructor.
Qed.

Lemma held_bytes_entries f m l :
  l ≡ₚ map_to_list m →
  held_bytes f m = foldr (λ x n, Z.of_nat (length x.2) + n) 0 (retain (λ x, key_of_interface f x.1) l).
Proof.
  intros Hl. unfold held_bytes. rewrite scan_interface_retain. apply sum_perm, retain_perm.
  unfold table_iter. by rewrite sort_by_perm.
Qed.

Lemma held_bytes_fresh f m k v :
  m !! k = None →
  held_bytes f (<[k:=v]> m) = (if key_of_interface f k then Z.of_nat (length v) else 0) + held_bytes f m.
Proof.
  intros Hk. rewrite (held_bytes_entries f (<[k:=v]> m) ((k, v) :: map_to_list m)) by (by rewrite map_to_list_insert).
  rewrite (held_bytes_entries f m _ (reflexivity _)). cbn [retain fst]. by destruct (key_of_interface f k).
Qed.

Lemma held_bytes_delete f m k v :
  m !! k = Some v →
  held_bytes f m = (if key_of_interface f k then Z.of_nat (length v) else 0) + held_bytes f (delete k m).
Proof.
  intros Hk. rewrite <- held_bytes_fresh by apply lookup_delete_eq. by rewrite insert_delete_id.
Qed.

Lemma held_bytes_nonneg f m : 0 <= held_bytes f m.
Proof. unfold held_bytes. induction (scan_interface f m); simpl; lia. Qed.

Lemma held_bytes_none f m : (∀ k v, m !! k = Some v → key_of_interface f k = false) → held_bytes f m = 0.
Proof.
  intros Hm. unfold held_bytes. rewrite scan_interface_retain, retain_none; [done|].
  intros [k v] Hk%elem_of_table_iter. by eapply Hm.
Qed.

Lemma tier_usage_insert f g z m u :
  tier_usage f {| tt_events := m; tt_usage := <[arr32_bytes g := z]> u |} =
  if decide (g = f) then z else tier_usage f {| tt_events := m; tt_usage := u |}.
Proof.
  unfold tier_usage. cbn. rewrite lookup_insert.
  destruct (decide (g = f)) as [->|Hne]; [by rewrite decide_True|].
  rewrite decide_False; [done|]. intros Heq. by apply Hne, arr32_bytes_inj.
Qed.

Lemma tier_usage_delete f g m u :
  tier_usage f {| tt_events := m; tt_usage := delete (arr32_bytes g) u |} =
  if decide (g = f) then 0 else tier_usage f {| tt_events := m; tt_usage := u |}.
Proof.
  unfold tier_usage. cbn. rewrite lookup_delete.
  destruct (decide (g = f)) as [->|Hne]; [by rewrite decide_True|].
  rewrite decide_False; [done|]. intros Heq. by apply Hne, arr32_bytes_inj.
Qed.

Lemma key_interface_decide f g id :
  key_of_interface f (make_event_key g id) = bool_decide (g = f).
Proof.
  destruct (bool_decide_reflect (g = f)) as [->|Hne]; [by apply event_key_interface|].
  destruct (key_of_interface _ _) eqn:E; [|done]. by apply event_key_interface in E.
Qed.

Lemma store_usage t f e v s :
  postcard_stored e = Ok v → usage_exact s →
  held_bytes f (tt_events (tables_for t s)) + Z.of_nat (length v) < 2 ^ 64 →
  ∀ t' g, tier_usage g (tables_for t' (store_event_tiered None t f e s).1) =
    (if decide (t' = t ∧ f = g) then Z.of_nat (length v) else 0) + held_bytes g (tt_events (tables_for t' s)).
Proof.
  intros Hv Hex Hb t' g. unfold store_event_tiered. rewrite Hv. cbn [fst]. rewrite tables_for_set.
  destruct (decide (t' = t)) as [->|Hne]; [|rewrite decide_False by naive_solver; rewrite Hex; lia].
  rewrite tier_usage_insert. destruct (decide (f = g)) as [->|].
  - rewrite decide_True by done. rewrite Hex. pose proof (held_bytes_nonneg g (tt_events (tables_for t s))).
    unfold wrap_u64. rewrite Z.mod_small; lia.
  - rewrite decide_False by naive_solver. apply Hex.
Qed.

Lemma store_events t t' f e v s :
  postcard_stored e = Ok v →
  tt_events (tables_for t' (store_event_tiered None t f e s).1) =
  if decide (t' = t) then <[make_event_key f (se_event_id e) := v]> (tt_events (tables_for t s))
  else tt_events (tables_for t' s).
Proof.
  intros Hv. unfold store_event_tiered. rewrite Hv. cbn [fst]. rewrite tables_for_set. by destruct (decide _).
Qed.

Lemma expire_key_usage t s k : blob_ok s → usage_exact s → usage_exact (expire_key t s k).
Proof.
  intros Hok Hex t' f. rewrite expire_key_events. unfold expire_key.
  rewrite tables_for_pins, tables_for_set. destruct (decide (t' = t)) as [->|]; [|apply Hex]. cbn [tt_usage].
  destruct (tt_events (tables_for t s) !! k) as [v|] eqn:Hk.
  - destruct (Hok t k v Hk) as (g & e & Hid & -> & _).
    assert (take 32 (make_event_key g (se_event_id e)) = arr32_bytes g) as ->
      by (unfold make_event_key; by rewrite take_app_length' by (by rewrite arr32_length)).
    pose proof (held_bytes_delete f _ _ _ Hk) as Hf. pose proof (held_bytes_delete g _ _ _ Hk) as Hg.
    rewrite key_interface_decide, bool_decide_true in Hg by done. rewrite key_interface_decide in Hf.
    pose proof (held_bytes_nonneg g (delete (make_event_key g (se_event_id e)) (tt_events (tables_for t s)))).
    pose proof (Hex t g) as Hug. pose proof (Hex t f) as Huf. unfold tier_usage in Hug at 1. rewrite Hug.
    destruct (Z.eqb_spec (Z.max 0 (held_bytes g (tt_events (tables_for t s)) - Z.of_nat (length v))) 0) as [E|E].
    all: rewrite ?tier_usage_delete, ?tier_usage_insert; destruct (decide (g = f)) as [->|]; [lia|].
    all: rewrite bool_decide_false in Hf by done; etrans; [exact Huf|lia].
  - rewrite delete_id by done. apply Hex.
Qed.

Lemma expire_keys_usage t ks s :
  blob_ok s → usage_exact s → usage_exact (foldl (expire_key t) s ks).
Proof.
  intros Hok Hex. apply (foldl_invariant (λ s, blob_ok s ∧ usage_exact s)); [|done].
  intros s1 k [Hok1 Hex1]. split; [|by apply expire_key_usage].
  eapply blob_ok_submap, Hok1. intros t'. rewrite expire_key_events. apply delete_if_subseteq.
Qed.

(** Evicting a tier leaves the interface nothing there and touches no other. *)
Lemma evict_keys_tables t t' ks s :
  tables_for t' (foldl (evict_key t) s ks) =
  if decide (t' = t) then
    {| tt_events := foldl (λ m k, delete k m) (tt_events (tables_for t s)) ks; tt_usage := tt_usage (tables_for t s) |}
  else tables_for t' s.
Proof.
  revert s. induction ks as [|k ks IH]; intros s; cbn [foldl].
  - destruct (decide _) as [->|]; [by destruct (tables_for t s)|done].
  - rewrite IH. unfold evict_key. rewrite !tables_for_pins, !tables_for_set.
    destruct (decide (t = t)); [|done]. by destruct (decide (t' = t)).
Qed.

Lemma evict_tier_tables f n t t' s :
  tables_for t' (evict_tier f (s, n) t).1 =
  if decide (t' = t) then
    {| tt_events := foldl (λ m k, delete k m) (tt_events (tables_for t s)) (scan_interface f (tt_events (tables_for t s))).*1;
       tt_usage := delete (arr32_bytes f) (tt_usage (tables_for t s)) |}
  else tables_for t' s.
Proof.
  unfold evict_tier. cbn [fst]. rewrite evict_keys_tables, !tables_for_set.
  destruct (decide (t = t)); [|done]. by destruct (decide (t' = t)).
Qed.

Lemma evicted_lookup f (m : gmap (list byte) (list byte)) k v :
  foldl (λ m k, delete k m) m (scan_interface f m).*1 !! k = Some v ↔
  m !! k = Some v ∧ key_of_interface f k = false.
Proof.
  rewrite delete_all_lookup. destruct (decide _) as [Hin|Hnin].
  - split; [done|]. intros [_ Hk]. apply list_elem_of_fmap in Hin as ([k' v'] & -> & [_ Hf]%elem_of_scan). cbn in *. congruence.
  - split; [|naive_solver]. intros Hm. split; [done|]. destruct (key_of_interface f k) eqn:E; [|done].
    destruct Hnin. apply list_elem_of_fmap. exists (k, v). split; [done|]. by apply elem_of_scan.
Qed.

Lemma held_bytes_delete_other g f m ks :
  f ≠ g → (∀ k, k ∈ ks → key_of_interface f k = true) →
  held_bytes g (foldl (λ m k, delete k m) m ks) = held_bytes g m.
Proof.
  intros Hne. revert m. induction ks as [|k ks IH]; intros m Hks; [done|]. cbn [foldl].
  rewrite IH by (intros; apply Hks; by constructor).
  destruct (m !! k) as [v|] eqn:Hk; [|by rewrite delete_id].
  rewrite (held_bytes_delete g m k v) by done. destruct (key_of_interface g k) eqn:Eg; [|lia].
  assert (key_of_interface f k = true) as Ef by (apply Hks; constructor).
  apply key_of_interface_prefix in Eg as [a ->], Ef as [b Hb]. destruct Hne. apply arr32_bytes_inj.
  apply (f_equal (take 32)) in Hb. by rewrite !take_app_length' in Hb by (by rewrite arr32_length).
Qed.

Lemma evict_tier_usage f n t s : usage_exact s → usage_exact (evict_tier f (s, n) t).1.
Proof.
  intros Hex t' g. rewrite evict_tier_tables. destruct (decide (t' = t)) as [->|]; [|apply Hex].
  cbn [tt_events]. rewrite tier_usage_delete. destruct (decide (f = g)) as [->|Hne].
  - symmetry. apply held_bytes_none. intros k v [_ Hk]%evicted_lookup. done.
  - rewrite (held_bytes_delete_other g f) by
      (done || (intros k (x & -> & Hx)%list_elem_of_fmap; destruct x; by apply elem_of_scan in Hx as [_ ?])).
    apply Hex.
Qed.

Lemma evict_interface_fst f s :
  (evict_interface None f s).1 = (foldl (evict_tier f) (s, 0%nat) ALL_TIERS).1.
Proof. unfold evict_interface. by destruct (foldl _ _ _). Qed.

Lemma evict_interface_usage f s : usage_exact s → usage_exact (evict_interface None f s).1.
Proof.
  intros Hex. rewrite evict_interface_fst. apply (foldl_invariant (λ a, usage_exact a.1)); [|done].
  intros [s1 n] t. apply evict_tier_usage.
Qed.

Lemma evict_tiers_lookup f t k v ts s n :
  tt_events (tables_for t (foldl (evict_tier f) (s, n) ts).1) !! k = Some v ↔
  tt_events (tables_for t s) !! k = Some v ∧ (t ∈ ts → key_of_interface f k = false).
Proof.
  revert s n. induction ts as [|t' ts IH]; intros s n; cbn [foldl].
  { rewrite elem_of_nil. naive_solver. }
  pose proof (evict_tier_tables f n t' t s) as Ht. destruct (evict_tier f (s, n) t') as [s1 n1]. cbn [fst] in Ht.
  rewrite IH, Ht, elem_of_cons. destruct (decide (t = t')) as [->|]; [|naive_solver].
  cbn [tt_events]. rewrite evicted_lookup. naive_solver.
Qed.

Lemma evict_interface_lookup f t k v s :
  tt_events (tables_for t (evict_interface None f s).1) !! k = Some v ↔
  tt_events (tables_for t s) !! k = Some v ∧ key_of_interface f k = false.
Proof.
  rewrite evict_interface_fst, evict_tiers_lookup.
  assert (t ∈ ALL_TIERS) by (destruct t; repeat constructor). naive_solver.
Qed.

(** Usage.  While the usage tables are exact, storing an event under a new key,
    a cleanup and an eviction keep them exact; storing over a key counts the
    replaced value's bytes too. *)
Theorem usage_accounting s :
  blob_ok s → usage_exact s →
  (∀ t f e v,
     postcard_stored e = Ok v →
     held_bytes f (tt_events (tables_for t s)) + Z.of_nat (length v) < 2 ^ 64 →
     let s' := (store_event_tiered None t f e s).1 in
     match tt_events (tables_for t s) !! make_event_key f (se_event_id e) with
     | None => usage_exact s'
     | Some old => tier_usage f (tables_for t s') =
                   held_bytes f (tt_events (tables_for t s')) + Z.of_nat (length old)
     end) ∧
  (∀ db now t max_age, usage_exact (cleanup_expired_tiered db now t max_age s).1) ∧
  (∀ f, usage_exact (evict_interface None f s).1 ∧
     ∀ t, tier_usage f (tables_for t (evict_interface None f s).1) = 0).
Proof.
  intros Hok Hex. split; [|split].
  - intros t f e v Hv Hb. cbn zeta. pose proof (store_usage t f e v s Hv Hex Hb) as Hu.
    destruct (_ !! _) as [old|] eqn:Hk.
    + rewrite Hu, decide_True, (store_events t t f e v), decide_True by done.
      rewrite <- insert_delete_eq, held_bytes_fresh by apply lookup_delete_eq.
      rewrite (held_bytes_delete f _ _ _ Hk), key_interface_decide, bool_decide_true by done. lia.
    + intros t' g. rewrite Hu, (store_events t t' f e v) by done.
      destruct (decide (t' = t)) as [->|]; [|by rewrite decide_False by naive_solver].
      rewrite held_bytes_fresh, key_interface_decide by done.
      destruct (decide (f = g)); [rewrite bool_decide_true, decide_True|rewrite bool_decide_false, decide_False];
        naive_solver.
  - intros [m|] now t max_age; [done|]. by apply expire_keys_usage.
  - intros f. pose proof (evict_interface_usage f s Hex) as Hex'. split; [done|]. intros t. rewrite Hex'.
    apply held_bytes_none. by intros k v [_ Hf]%evict_interface_lookup.
Qed.

(** ** Cleanup *)

Lemma expire_keys_events t t' ks s :
  tt_events (tables_for t' (foldl (expire_key t) s ks)) =
  if decide (t' = t) then foldl (λ m k, delete k m) (tt_events (tables_for t s)) ks
  else tt_events (tables_for t' s).
Proof.
  revert s. induction ks as [|k ks IH]; intros s; cbn [foldl]; [by destruct (decide _) as [->|]|].
  rewrite IH, !expire_key_events. destruct (decide (t = t)); [|done]. by destruct (decide (t' = t)).
Qed.

Lemma expire_keys_pins t ks s :
  pinned_events (foldl (expire_key t) s ks) = foldl (λ m k, delete k m) (pinned_events s) ks ∧
  ttl_overrides (foldl (expire_key t) s ks) = foldl (λ m k, delete k m) (ttl_overrides s) ks.
Proof. revert s. induction ks as [|k ks IH]; intros s; [done|]. apply (IH (expire_key t s k)). Qed.

(** The keys a cleanup deletes. *)
Lemma expired_keys now max_age t s k :
  k ∈ (retain (entry_expired now max_age s) (table_iter (tt_events (tables_for t s)))).*1 ↔
  ∃ v, tt_events (tables_for t s) !! k = Some v ∧ entry_expired now max_age s (k, v) = true.
Proof.
  rewrite list_elem_of_fmap. split.
  - intros ([k' v] & -> & [Hk He]%elem_of_retain). apply elem_of_table_iter in Hk. eauto.
  - intros (v & Hk & He). exists (k, v). split; [done|]. rewrite elem_of_retain. split; [|done].
    by apply elem_of_table_iter.
Qed.

Lemma size_delete_all {A} (ks : list (list byte)) (m : gmap (list byte) A) :
  NoDup ks → (∀ k, k ∈ ks → is_Some (m !! k)) →
  size m = (size (foldl (λ m k, delete k m) m ks) + length ks)%nat.
Proof.
  revert m. induction ks as [|k ks IH]; intros m Hnd Hks; cbn [foldl length]; [lia|].
  apply NoDup_cons in Hnd as [Hk Hnd]. destruct (Hks k ltac:(constructor)) as [v Hv].
  assert (size m = S (size (delete k m))) as ->.
  { rewrite <- (insert_delete_id m k v Hv) at 1. by rewrite map_size_insert_None by apply lookup_delete_eq. }
  rewrite (IH (delete k m)); [lia|done|]. intros k' Hk'.
  rewrite lookup_delete_ne by (intros ->; done). apply Hks. by constructor.
Qed.

Lemma expired_not_pinned now max_age s k v :
  entry_expired now max_age s (k, v) = true → pinned_events s !! k = None.
Proof.
  unfold entry_expired. cbn. case_match; [|done]. case_bool_decide as Hp; [done|]. intros _.
  by apply eq_None_not_Some.
Qed.

(** The cleanup of one tier removes exactly the entries that have expired,
    reports their number, removes no pin and no other entry's time-to-live,
    and touches no other tier.  In range, an event expires when it is decodable,
    not pinned and older than its own time-to-live or, without one, the
    tier's. *)
Theorem cleanup_spec now t max_age s :
  let (s', r) := cleanup_expired_tiered None now t max_age s in
  (∀ k v, tt_events (tables_for t s') !! k = Some v ↔
     tt_events (tables_for t s) !! k = Some v ∧ entry_expired now max_age s (k, v) = false) ∧
  (∃ n, r = Ok n ∧ size (tt_events (tables_for t s)) = (size (tt_events (tables_for t s')) + n)%nat) ∧
  pinned_events s' = pinned_events s ∧
  (∀ k v, tt_events (tables_for t s') !! k = Some v → ttl_overrides s' !! k = ttl_overrides s !! k) ∧
  (∀ t', t' ≠ t → tt_events (tables_for t' s') = tt_events (tables_for t' s)) ∧
  (∀ k v e age,
     postcard_parse_stored v = Ok e →
     age = match ttl_overrides s !! k with Some days => days * 86400000 | None => max_age end →
     0 <= age < 2 ^ 62 → 0 <= now < 2 ^ 62 →
     entry_expired now max_age s (k, v) = true ↔
     pinned_events s !! k = None ∧ received_at_millis e < now - age).
Proof.
  cbn [cleanup_expired_tiered]. set (ks := (retain _ _).*1).
  destruct (expire_keys_pins t ks s) as [Hpin Httl].
  assert (∀ k v, tt_events (tables_for t (foldl (expire_key t) s ks)) !! k = Some v ↔
     tt_events (tables_for t s) !! k = Some v ∧ entry_expired now max_age s (k, v) = false) as Hev.
  { intros k v. rewrite expire_keys_events, decide_True, delete_all_lookup by done.
    destruct (decide (k ∈ ks)) as [Hin|Hnin].
    - apply expired_keys in Hin as (v' & Hk & He). naive_solver congruence.
    - split; [|naive_solver]. intros Hk. split; [done|].
      destruct (entry_expired now max_age s (k, v)) eqn:E; [|done]. destruct Hnin. apply expired_keys. eauto. }
  split; [done|]. split; [|split; [|split; [|split]]].
  - exists (length ks). split; [done|]. rewrite expire_keys_events, decide_True by done.
    apply size_delete_all; [|intros k (v & Hk & _)%expired_keys; eauto].
    apply NoDup_fmap_retain. unfold table_iter. rewrite sort_by_perm. apply NoDup_fst_map_to_list.
  - rewrite Hpin. apply map_eq. intros k. rewrite delete_all_lookup.
    destruct (decide _) as [(v & _ & He)%expired_keys|]; [|done]. symmetry. by eapply expired_not_pinned.
  - intros k v [Hk He]%Hev. rewrite Httl, delete_all_lookup.
    destruct (decide _) as [(v' & Hk' & He')%expired_keys|]; [congruence|done].
  - intros t' Hne. by rewrite expire_keys_events, decide_False.
  - intros k v e age Hp -> Hage Hnow. unfold entry_expired. cbn. rewrite Hp.
    rewrite eq_None_not_Some. case_bool_decide; [naive_solver|].
    assert (∀ days, 0 <= days * 86400000 < 2 ^ 62 → in_i64 days ∧ in_i64 (days * 86400000)) as Hd
      by (unfold in_i64; lia).
    destruct (ttl_overrides s !! k) as [days|].
    + destruct (Hd days Hage). rewrite (wrap_i64_small days), (wrap_i64_small (days * 86400000)) by done.
      rewrite wrap_i64_small by (unfold in_i64; lia). rewrite Z.ltb_lt. naive_solver.
    + rewrite (wrap_i64_small max_age) by (unfold in_i64; lia).
      rewrite wrap_i64_small by (unfold in_i64; lia). rewrite Z.ltb_lt. naive_solver.
Qed.
End BlobFacts.
