(* ===== verification/RelayService.v ===== *)
(** * The relay service

    Models [indras-relay/src/relay_node.rs]: the relay protocol on a stream,
    the registration of interfaces, the storing of gossiped events, the
    periodic cleanup and the changes of configuration, composed of the
    components of the relay.  A message is handled atomically; what the
    environment decides during one (the clock, the outcome of database
    transactions, file writes, gossip subscriptions and the write to the
    stream) is a [RelayEnv]. *)

From S2P Require Import Prelude Bytes Packet Pending RelayConfig RelayQuota RelayAuth Registration Wire BlobStore.

Local Open Scope string_scope.
Local Open Scope Z_scope.
Local Open Scope list_scope.

(** Clock readings ([now_touch] and [now_register] in nanoseconds, the others
    in milliseconds) and outcomes; [None] is success. *)
Record RelayEnv : Type := {
  now_auth : Z;
  now_touch : Z;
  now_register : Z;
  now_event : Z;
  now_received : Z;
  now_ack : Z;
  db_read : option string;
  db_usage : option string;
  db_store : option string;
  db_pin : option string;
  db_ttl : option string;
  registrations_write : WriteOutcome;
  contacts_write : WriteOutcome;
  gossip_subscribe : nat → option string;
  stream_write : option string;
}.

Definition RETRIEVE_PAGE_SIZE : nat := 100.

(** [as u64]. *)
Definition store_event_id (now : Z) : EventId := {| sender_hash := 0; ev_sequence := now mod 2 ^ 64 |}.

Section Service.
Context {I : Type} `{Countable I, !PeerKey I, !PeerKeyParse I, RegistrationJson}.
Context `{Ed25519, CredentialPostcard, StringListJson, StoredEventPostcard, !WirePostcard I}.

(** [rs_observers] are the interfaces a gossip observer runs for; the files are
    those of the data directory. *)
Record RelayService : Type := {
  rs_config : RelayConfig;
  live_config : RelayConfig;
  has_config_path : bool;
  blob_store : BlobStore;
  registrations : RegistrationState I;
  rs_auth : AuthService I;
  rs_quota : RelayQuotaManager I;
  tiered_quota : TieredQuotaManager I;
  has_gossip : bool;
  rs_observers : list arr32;
  contacts_json : option string;
  config_file : option RelayConfig;
}.

Definition upd_blobs (b : BlobStore) (s : RelayService) : RelayService :=
  {| rs_config := rs_config s; live_config := live_config s; has_config_path := has_config_path s;
     blob_store := b; registrations := registrations s; rs_auth := rs_auth s; rs_quota := rs_quota s;
     tiered_quota := tiered_quota s; has_gossip := has_gossip s; rs_observers := rs_observers s;
     contacts_json := contacts_json s; config_file := config_file s |}.

Definition upd_registrations (r : RegistrationState I) (s : RelayService) : RelayService :=
  {| rs_config := rs_config s; live_config := live_config s; has_config_path := has_config_path s;
     blob_store := blob_store s; registrations := r; rs_auth := rs_auth s; rs_quota := rs_quota s;
     tiered_quota := tiered_quota s; has_gossip := has_gossip s; rs_observers := rs_observers s;
     contacts_json := contacts_json s; config_file := config_file s |}.

Definition upd_auth (a : AuthService I) (file : option string) (s : RelayService) : RelayService :=
  {| rs_config := rs_config s; live_config := live_config s; has_config_path := has_config_path s;
     blob_store := blob_store s; registrations := registrations s; rs_auth := a; rs_quota := rs_quota s;
     tiered_quota := tiered_quota s; has_gossip := has_gossip s; rs_observers := rs_observers s;
     contacts_json := file; config_file := config_file s |}.

Definition upd_quotas (q : RelayQuotaManager I) (t : TieredQuotaManager I) (s : RelayService) : RelayService :=
  {| rs_config := rs_config s; live_config := live_config s; has_config_path := has_config_path s;
     blob_store := blob_store s; registrations := registrations s; rs_auth := rs_auth s; rs_quota := q;
     tiered_quota := t; has_gossip := has_gossip s; rs_observers := rs_observers s;
     contacts_json := contacts_json s; config_file := config_file s |}.

Definition upd_observers (l : list arr32) (s : RelayService) : RelayService :=
  {| rs_config := rs_config s; live_config := live_config s; has_config_path := has_config_path s;
     blob_store := blob_store s; registrations := registrations s; rs_auth := rs_auth s;
     rs_quota := rs_quota s; tiered_quota := tiered_quota s; has_gossip := has_gossip s;
     rs_observers := l; contacts_json := contacts_json s; config_file := config_file s |}.

(** ** Construction *)

(** [RelayService::new] with the result of opening the database, the state
    file of the registrations and the result of reading the contacts; [None]
    when parsing an identifier panics. *)
Definition relay_service_new (now : Z) (c : RelayConfig) (db : Result BlobStore RelayError)
    (reg_file : option string) (contacts : option (Result string string))
    : option (Result RelayService RelayError) :=
  match db with
  | Err e => Some (Err e)
  | Ok blobs =>
      match reg_load now (registration_new reg_file) with
      | (_, Err e) => Some (Err e)
      | (reg, Ok _) =>
          auth ← auth_new c;
          '(auth, _) ← load_contacts contacts auth;
          Some (Ok {| rs_config := c; live_config := c; has_config_path := false; blob_store := blobs;
                      registrations := reg; rs_auth := auth; rs_quota := rq_new (rc_quota c);
                      tiered_quota := tq_new (rc_tiers c); has_gossip := false; rs_observers := [];
                      contacts_json := match contacts with Some (Ok f) => Some f | _ => None end;
                      config_file := None |})
      end
  end.

Definition with_config_path (s : RelayService) : RelayService :=
  {| rs_config := rs_config s; live_config := live_config s; has_config_path := true;
     blob_store := blob_store s; registrations := registrations s; rs_auth := rs_auth s;
     rs_quota := rs_quota s; tiered_quota := tiered_quota s; has_gossip := has_gossip s;
     rs_observers := rs_observers s; contacts_json := contacts_json s; config_file := config_file s |}.

Definition with_gossip (s : RelayService) : RelayService :=
  {| rs_config := rs_config s; live_config := live_config s; has_config_path := has_config_path s;
     blob_store := blob_store s; registrations := registrations s; rs_auth := rs_auth s;
     rs_quota := rs_quota s; tiered_quota := tiered_quota s; has_gossip := true;
     rs_observers := rs_observers s; contacts_json := contacts_json s; config_file := config_file s |}.

Definition config_view (s : RelayService) : RelayConfigView := config_view_of (live_config s).

(** Committing a configuration: the live one, and the limits of the quotas. *)
Definition commit_config (candidate : RelayConfig) (file : option RelayConfig) (s : RelayService) : RelayService :=
  {| rs_config := rs_config s; live_config := candidate; has_config_path := has_config_path s;
     blob_store := blob_store s; registrations := registrations s; rs_auth := rs_auth s;
     rs_quota := rq_update_config (rc_quota candidate) (rs_quota s);
     tiered_quota := tq_update_config (rc_tiers candidate) (tiered_quota s); has_gossip := has_gossip s;
     rs_observers := rs_observers s; contacts_json := contacts_json s; config_file := file |}.

(** [apply_config_patch]; [save] is the outcome of [save_to_file]. *)
Definition apply_config_patch (save : option RelayError) (p : RelayConfigPatch) (s : RelayService)
    : RelayService * Result RelayConfigView string :=
  let candidate := apply_to p (live_config s) in
  match relay_config_validate candidate with
  | Err e => (s, Err (relay_error_message e))
  | Ok _ =>
      if has_config_path s then
        match save with
        | Some e => (s, Err (relay_error_message e))
        | None => (commit_config candidate (Some candidate) s, Ok (config_view_of candidate))
        end
      else (commit_config candidate (config_file s) s, Ok (config_view_of candidate))
  end.

(** ** Registering interfaces *)

(** The subscriptions, in order: what was accepted and what was not. *)
Fixpoint subscribe_all (subscribe : nat → option string) (n : nat) (l : list arr32)
    : list arr32 * list (arr32 * string) :=
  match l with
  | [] => ([], [])
  | f :: l =>
      let (accepted, rejected) := subscribe_all subscribe (S n) l in
      match subscribe n with
      | None => (f :: accepted, rejected)
      | Some e => (accepted, (f, "Failed to subscribe to gossip: " +:+ e) :: rejected)
      end
  end.

(** Refusing every interface with the same reason. *)
Definition reject_all (now : Z) (l : list arr32) (reason : string) : RelayRegisterAckMessage :=
  with_rejected ((λ f, (f, reason)) <$> l) (relay_register_ack_new now []).

Definition handle_register (env : RelayEnv) (i : I) (m : RelayRegisterMessage) (s : RelayService)
    : RelayService * RelayRegisterAckMessage :=
  let ifaces := rrm_interfaces m in
  let count := Z.of_nat (length ifaces) in
  match can_register i count (rs_quota s) with
  | Err e => (s, reject_all (now_ack env) ifaces (relay_error_message e))
  | Ok _ =>
      let peer_tier := match get_session i (rs_auth s) with Some x => highest_tier x | None => Public end in
      match can_register_tiered i peer_tier count (tiered_quota s) with
      | Err e => (s, reject_all (now_ack env) ifaces (relay_error_message e))
      | Ok _ =>
          let (accepted, rejected) := subscribe_all (gossip_subscribe env) 0 ifaces in
          let s := upd_observers (rs_observers s ++ accepted) s in
          let s :=
            if bool_decide (accepted = []) then s
            else
              let n := Z.of_nat (length accepted) in
              let (reg, _) := reg_register (now_register env) (registrations_write env) i accepted
                                (rrm_display_name m) (registrations s) in
              upd_quotas (record_registration i n (rs_quota s))
                (record_registration_tiered i peer_tier n (tiered_quota s)) (upd_registrations reg s) in
          (s, with_rejected rejected (relay_register_ack_new (now_ack env) accepted))
      end
  end.

(** ** The protocol *)

(** What handling one message does: the service and the connection's
    [authenticated] flag after it, the replies sent, and the error the handler
    returns with, if it does. *)
Record Outcome : Type := {
  out_service : RelayService;
  out_authenticated : bool;
  out_sent : list (WireMessage I);
  out_exit : option RelayError;
}.

Definition silent (authenticated : bool) (s : RelayService) : Outcome :=
  {| out_service := s; out_authenticated := authenticated; out_sent := []; out_exit := None |}.

Definition failing (authenticated : bool) (e : RelayError) (s : RelayService) : Outcome :=
  {| out_service := s; out_authenticated := authenticated; out_sent := []; out_exit := Some e |}.

(** Framing a reply and writing it, both with [?]. *)
Definition reply (env : RelayEnv) (what : string) (authenticated : bool) (m : WireMessage I)
    (s : RelayService) : Outcome :=
  match frame_message m with
  | Err e => failing authenticated (ReSerialization (framing_error_message e)) s
  | Ok _ =>
      match stream_write env with
      | Some e => failing authenticated (ReTransport (what +:+ ": " +:+ e)) s
      | None => {| out_service := s; out_authenticated := authenticated; out_sent := [m]; out_exit := None |}
      end
  end.

Definition handle_auth (env : RelayEnv) (i : I) (authenticated : bool) (m : RelayAuthMessage)
    (s : RelayService) : Outcome :=
  let (auth, result) := authenticate (now_auth env) i (ram_credential m) (ram_player_id m) (rs_auth s) in
  let s := upd_auth auth (contacts_json s) s in
  match result with
  | Ok session =>
      let quotas := (λ t, {| tqi_tier := t; tqi_max_bytes := tier_max_bytes t (tq_config (tiered_quota s));
                             tqi_used_bytes := peer_tier_bytes i t (tiered_quota s);
                             tqi_max_interfaces := tier_max_interfaces t (tq_config (tiered_quota s)) |})
                    <$> as_granted_tiers session in
      reply env "Failed to send auth ack" true
        (RelayAuthAck {| raa_authenticated := true; raa_granted_tiers := as_granted_tiers session;
                         raa_tier_quotas := quotas; raa_timestamp_millis := now_ack env |}) s
  | Err _ =>
      reply env "Failed to send auth ack" authenticated
        (RelayAuthAck {| raa_authenticated := false; raa_granted_tiers := []; raa_tier_quotas := [];
                         raa_timestamp_millis := now_ack env |}) s
  end.

Definition touch (env : RelayEnv) (i : I) (s : RelayService) : RelayService :=
  upd_registrations (reg_touch (now_touch env) i (registrations s)) s.

Definition handle_register_message (env : RelayEnv) (i : I) (m : RelayRegisterMessage) (s : RelayService)
    : Outcome :=
  let s := touch env i s in
  let (s, response) :=
    if has_gossip s then handle_register env i m s
    else (s, reject_all (now_ack env) (rrm_interfaces m) "Gossip not available") in
  reply env "Failed to send ack" true (RelayRegisterAck response) s.

Definition handle_unregister_message (env : RelayEnv) (i : I) (m : RelayUnregisterMessage)
    (s : RelayService) : Outcome :=
  let count := Z.of_nat (length (rum_interfaces m)) in
  match reg_unregister (registrations_write env) i (rum_interfaces m) (registrations s) with
  | (reg, Err e) => failing true e (upd_registrations reg s)
  | (reg, Ok _) =>
      let s := upd_registrations reg s in
      silent true (upd_quotas (record_unregistration i count (rs_quota s)) (tiered_quota s) s)
  end.

Definition handle_retrieve_message (env : RelayEnv) (i : I) (m : RelayRetrieveMessage) (s : RelayService)
    : Outcome :=
  let s := touch env i s in
  let tier := default Connections (rtm_tier m) in
  if negb (has_tier_access i tier (rs_auth s)) then silent true s
  else
    match events_after_tiered (db_read env) tier (rtm_interface_id m) (after_event_id m) (blob_store s) with
    | Err e => failing true e s
    | Ok events =>
        let has_more := (RETRIEVE_PAGE_SIZE <? length events)%nat in
        let delivery :=
          if has_more
          then with_more (relay_delivery_new (now_ack env) (rtm_interface_id m) (take RETRIEVE_PAGE_SIZE events))
          else relay_delivery_new (now_ack env) (rtm_interface_id m) events in
        reply env "Failed to send delivery" true (RelayDelivery delivery) s
    end.

(** A store acknowledgement. *)
Definition store_ack (env : RelayEnv) (reason : option string) (s : RelayService) : Outcome :=
  reply env "Failed to send store ack" true
    (RelayStoreAck {| rsa_accepted := match reason with None => true | Some _ => false end;
                      rsa_reason := reason; rsa_timestamp_millis := now_ack env |}) s.

(** After the event is stored: the tier's account, the pin, the time-to-live. *)
Definition store_metadata (env : RelayEnv) (i : I) (m : RelayStoreMessage) (id : EventId)
    (s : RelayService) : RelayService :=
  let data_len := Z.of_nat (length (rsm_data m)) in
  let s := upd_quotas (rs_quota s) (record_storage_tiered i (rsm_tier m) data_len (tiered_quota s)) s in
  let s := if sm_pin (rsm_metadata m)
           then upd_blobs (pin_event (db_pin env) (rsm_interface_id m) id (blob_store s)).1 s else s in
  match ttl_override_days (rsm_metadata m) with
  | Some days =>
      let clamped := Z.min days (max_event_ttl_days (rc_storage (live_config s))) in
      upd_blobs (set_ttl_override (db_ttl env) (rsm_interface_id m) id clamped (blob_store s)).1 s
  | None => s
  end.

Definition handle_store_message (env : RelayEnv) (i : I) (m : RelayStoreMessage) (s : RelayService)
    : Outcome :=
  let tier := rsm_tier m in
  let data_len := Z.of_nat (length (rsm_data m)) in
  if negb (has_tier_access i tier (rs_auth s)) then
    store_ack env (Some ("No access to " +:+ tier_debug tier +:+ " tier")) s
  else
    match can_store_tiered i tier data_len (tiered_quota s) with
    | Err e => store_ack env (Some (relay_error_message e)) s
    | Ok _ =>
        let total_usage := match total_usage_bytes (db_usage env) (blob_store s) with Ok n => n | Err _ => 0 end in
        match can_store i data_len total_usage (rs_quota s) with
        | Err e => store_ack env (Some (relay_error_message e)) s
        | Ok _ =>
            let id := store_event_id (now_event env) in
            let stored := stored_event_new (now_received env) id (rsm_data m) (replicate 12 x00) in
            match store_event_tiered (db_store env) tier (rsm_interface_id m) stored (blob_store s) with
            | (blobs, Ok _) => store_ack env None (store_metadata env i m id (upd_blobs blobs s))
            | (blobs, Err e) => store_ack env (Some (relay_error_message e)) (upd_blobs blobs s)
            end
        end
    end.

(** What [std::fs::write] leaves. *)
Definition written (w : WriteOutcome) (contents : string) : option string :=
  match w with Written => Some contents | WriteFailed _ left_on_disk => left_on_disk end.

Definition handle_contacts_message (env : RelayEnv) (i : I) (m : RelayContactsSyncMessage)
    (s : RelayService) : Outcome :=
  if has_tier_access i Self_ (rs_auth s) then
    let auth := sync_contacts (rcs_contacts m) (rs_auth s) in
    let s := upd_auth auth (written (contacts_write env) (contacts_file auth)) s in
    reply env "Failed to send contacts sync ack" true
      (RelayContactsSyncAck {| rca_accepted := true;
                               rca_contact_count := Z.of_nat (contact_count auth) mod 2 ^ 32 |}) s
  else
    reply env "Failed to send contacts sync ack" true
      (RelayContactsSyncAck {| rca_accepted := false; rca_contact_count := 0 |}) s.

(** One message of a connection. *)
Definition handle_message (env : RelayEnv) (i : I) (authenticated : bool) (m : WireMessage I)
    (s : RelayService) : Outcome :=
  let guarded (o : Outcome) := if authenticated then o else silent false s in
  match m with
  | RelayAuth a => handle_auth env i authenticated a s
  | RelayRegister r => guarded (handle_register_message env i r s)
  | RelayUnregister u => guarded (handle_unregister_message env i u s)
  | RelayRetrieve r => guarded (handle_retrieve_message env i r s)
  | RelayStore t => guarded (handle_store_message env i t s)
  | Ping n => reply env "Failed to send pong" authenticated (Pong n) s
  | RelayContactsSync c => guarded (handle_contacts_message env i c s)
  | _ => silent authenticated s
  end.

(** ** Streams *)

Definition close_connection (i : I) (s : RelayService) : RelayService :=
  upd_auth (remove_session i (rs_auth s)) (contacts_json s) s.

(** The loop of a stream: the bytes that arrive before it closes are [stream],
    and the [n]-th message handled runs in the environment [envs n].  Each
    round consumes at least the four bytes of a length. *)
Fixpoint stream_loop (fuel : nat) (envs : nat → RelayEnv) (n : nat) (i : I) (authenticated : bool)
    (stream : list byte) (s : RelayService)
    : option (RelayService * list (WireMessage I) * Result unit RelayError) :=
  match fuel with
  | O => None
  | S fuel =>
      let close := Some (close_connection i s, [], Ok tt) in
      let body := drop 4 stream in
      let len := from_be_bytes (take 4 stream) in
      if (length stream <? 4)%nat then close
      else if MAX_MESSAGE_SIZE <? len then close
      else if Z.of_nat (length body) <? len then close
      else
        match postcard_parse_wire (take (Z.to_nat len) body) with
        | Err _ => stream_loop fuel envs n i authenticated (drop (Z.to_nat len) body) s
        | Ok m =>
            let o := handle_message (envs n) i authenticated m s in
            match out_exit o with
            | Some e => Some (out_service o, out_sent o, Err e)
            | None =>
                '(s', sent, r) ← stream_loop fuel envs (S n) i (out_authenticated o)
                                   (drop (Z.to_nat len) body) (out_service o);
                Some (s', out_sent o ++ sent, r)
            end
        end
  end.

Definition handle_bi_stream (envs : nat → RelayEnv) (i : I) (stream : list byte) (s : RelayService) :=
  stream_loop (S (length stream)) envs 0 i false stream s.

(** The node's own loop, with its gossip instance; [accept] is the failure to
    accept a stream. *)
Definition handle_connection (accept : option string) (envs : nat → RelayEnv) (i : I)
    (stream : list byte) (s : RelayService)
    : option (RelayService * list (WireMessage I) * Result unit RelayError) :=
  match accept with
  | Some e => Some (s, [], Err (ReTransport ("Failed to accept stream: " +:+ e)))
  | None => handle_bi_stream envs i stream (with_gossip s)
  end.

(** ** Gossip and cleanup *)

Definition store_gossip_event (now : Z) (db : option string) (f : arr32) (data : list byte)
    (s : RelayService) : RelayService :=
  match parse_framed_message data with
  | Ok (InterfaceEvent e) =>
      if negb (bool_decide (iem_interface_id e = f)) then s
      else
        let stored := stored_event_new now (iem_event_id e) (iem_encrypted_event e) (iem_nonce e) in
        upd_blobs (store_event db f stored (blob_store s)).1 s
  | _ => s
  end.

(** A tier's time-to-live as [max_age.as_millis()]. *)
Definition tier_max_age (ttl_days : Z) : Z := wrap_u64 (ttl_days * 86400) * 1000.

(** One tick of [run_cleanup]: a failing tier does not stop the others. *)
Definition cleanup_tick (now : StorageTier → Z) (db : StorageTier → option string) (now_sweep : Z)
    (s : RelayService) : RelayService :=
  let tiers := rc_tiers (live_config s) in
  let clean b t ttl := (cleanup_expired_tiered (db t) (now t) t (tier_max_age ttl) b).1 in
  let b := clean (blob_store s) Self_ (self_ttl_days tiers) in
  let b := clean b Connections (connections_ttl_days tiers) in
  let b := clean b Public (public_ttl_days tiers) in
  upd_auth (sweep_expired_sessions now_sweep (rs_auth s)) (contacts_json s) (upd_blobs b s).

(** ** Streams deliver their messages *)

(** What the loop should do: handle the messages in order until one makes the
    handler return. *)
Fixpoint run_messages (envs : nat → RelayEnv) (n : nat) (i : I) (authenticated : bool)
    (ms : list (WireMessage I)) (s : RelayService)
    : RelayService * list (WireMessage I) * Result unit RelayError :=
  match ms with
  | [] => (close_connection i s, [], Ok tt)
  | m :: ms =>
      let o := handle_message (envs n) i authenticated m s in
      match out_exit o with
      | Some e => (out_service o, out_sent o, Err e)
      | None =>
          let '(s', sent, r) := run_messages envs (S n) i (out_authenticated o) ms (out_service o) in
          (s', out_sent o ++ sent, r)
      end
  end.

Lemma stream_loop_total fuel envs n i authenticated stream s :
  (length stream < fuel)%nat → is_Some (stream_loop fuel envs n i authenticated stream s).
Proof.
  revert n authenticated stream s. induction fuel as [|fuel IH]; intros n authenticated stream s Hf; [lia|].
  cbn [stream_loop]. destruct (Nat.ltb_spec (length stream) 4); [done|].
  destruct (MAX_MESSAGE_SIZE <? _); [done|]. destruct (Z.ltb_spec (Z.of_nat (length (drop 4 stream)))
    (from_be_bytes (take 4 stream))) as [|Hl]; [done|].
  assert (∀ k, length (drop k (drop 4 stream)) < fuel)%nat as Hd by (intros; rewrite !length_drop; lia).
  destruct (postcard_parse_wire _) as [m|e]; [|by apply IH].
  destruct (out_exit _); [done|].
  destruct (IH (S n) (out_authenticated (handle_message (envs n) i authenticated m s))
    (drop (Z.to_nat (from_be_bytes (take 4 stream))) (drop 4 stream))
    (out_service (handle_message (envs n) i authenticated m s))) as [[[s' sent] r] ->]; [apply Hd|done].
Qed.

Lemma stream_loop_frames `{!WirePostcardLaws I} fuel envs n i authenticated ms frames tail s :
  Forall2 (λ m b, frame_message m = Ok b) ms frames → (length tail < 4)%nat →
  (length (concat frames ++ tail) < fuel)%nat →
  stream_loop fuel envs n i authenticated (concat frames ++ tail) s =
  Some (run_messages envs n i authenticated ms s).
Proof.
  intros Hfr Htail. revert fuel n authenticated s.
  induction Hfr as [|m b ms frames Hb _ IH]; intros fuel n authenticated s Hf; (destruct fuel as [|fuel]; [lia|]).
  - cbn [concat app stream_loop run_messages]. destruct (Nat.ltb_spec (length tail) 4); [done|lia].
  - apply frame_message_ok in Hb as (body & Hbody & Hmax & ->).
    cbn [concat stream_loop run_messages]. cbn [concat] in Hf. rewrite <- !app_assoc in *.
    destruct (frame_length (Z.of_nat (length body)) (body ++ concat frames ++ tail)) as [-> ->]; [lia|].
    rewrite !length_app, be_bytes_length in *.
    destruct (Nat.ltb_spec (4 + (length body + (length (concat frames) + length tail))) 4); [lia|].
    destruct (Z.ltb_spec MAX_MESSAGE_SIZE (Z.of_nat (length body))); [lia|].
    destruct (Z.ltb_spec (Z.of_nat (length body + (length (concat frames) + length tail)))
      (Z.of_nat (length body))); [lia|].
    rewrite Nat2Z.id, take_app_length, drop_app_length, (postcard_wire_parse m body) by done.
    destruct (out_exit _); [done|]. rewrite IH by (rewrite ?length_app; lia).
    by destruct (run_messages _ _ _ _ _ _) as [[s' sent] r].
Qed.

(** C26. A stream is handled to its end: the loop returns on every sequence of
    bytes, and when a peer frames its messages and then closes, or leaves an
    incomplete length, they are handled one after the other in the order sent,
    until one makes the handler return. *)
Theorem stream_spec `{!WirePostcardLaws I} envs i s :
  (∀ stream, is_Some (handle_bi_stream envs i stream s)) ∧
  (∀ ms frames tail, Forall2 (λ m b, frame_message m = Ok b) ms frames → (length tail < 4)%nat →
     handle_bi_stream envs i (concat frames ++ tail) s = Some (run_messages envs 0 i false ms s)).
Proof.
  split; [intros stream; apply stream_loop_total; lia|]. intros ms frames tail Hfr Htail.
  by apply stream_loop_frames; [| |lia].
Qed.

(** ** Unauthenticated peers *)

Lemma upd_auth_id s : upd_auth (rs_auth s) (contacts_json s) s = s.
Proof. by destruct s. Qed.

Lemma authenticate_failed now i bytes player a e :
  (authenticate now i bytes player a).2 = Err e → (authenticate now i bytes player a).1 = a.
Proof. unfold authenticate. repeat case_match; done. Qed.

Lemma reply_service env what authenticated m s : out_service (reply env what authenticated m s) = s.
Proof. unfold reply, failing. by destruct (frame_message m), (stream_write env). Qed.

Lemma reply_authenticated env what authenticated m s :
  out_authenticated (reply env what authenticated m s) = authenticated.
Proof. unfold reply, failing. by destruct (frame_message m), (stream_write env). Qed.

Lemma reply_sent env what authenticated m s :
  out_sent (reply env what authenticated m s) = [m] ∧ out_exit (reply env what authenticated m s) = None ∨
  out_sent (reply env what authenticated m s) = [] ∧ is_Some (out_exit (reply env what authenticated m s)).
Proof. unfold reply, failing. destruct (frame_message m), (stream_write env); cbn; eauto. Qed.

(** What a peer that has not authenticated can get: the answer to a ping, or
    the refusal of a credential. *)
Definition harmless_reply (m : WireMessage I) : Prop :=
  match m with
  | Pong _ => True
  | RelayAuthAck a => raa_authenticated a = false ∧ raa_granted_tiers a = []
  | _ => False
  end.

(** A peer that has not authenticated on its connection changes nothing of the
    relay and learns nothing, whatever it sends, until it presents a
    credential the relay accepts. *)
Theorem unauthenticated_peer env i m s :
  let o := handle_message env i false m s in
  if out_authenticated o
  then ∃ a session, m = RelayAuth a ∧
         authenticate (now_auth env) i (ram_credential a) (ram_player_id a) (rs_auth s)
         = (rs_auth (out_service o), Ok session)
  else out_service o = s ∧ Forall harmless_reply (out_sent o).
Proof.
  assert (∀ what r, harmless_reply r → out_service (reply env what false r s) = s ∧
    Forall harmless_reply (out_sent (reply env what false r s))) as Hr.
  { intros what r Hh. rewrite reply_service. destruct (reply_sent env what false r s) as [[-> _]|[-> _]]; auto. }
  cbn zeta. destruct m; cbn [handle_message]; try (split; [done|constructor]).
  - rewrite reply_authenticated. by apply Hr.
  - unfold handle_auth.
    pose proof (authenticate_failed (now_auth env) i (ram_credential m) (ram_player_id m) (rs_auth s)) as Hf.
    destruct (authenticate _ _ _ _ _) as [auth [session|e]] eqn:Ha.
    + rewrite reply_authenticated, reply_service. by exists m, session.
    + assert (auth = rs_auth s) as -> by (by apply (Hf e)). rewrite upd_auth_id, reply_authenticated. by apply Hr.
Qed.

(** ** Storing *)

Lemma upd_blobs_id s : upd_blobs (blob_store s) s = s.
Proof. by destruct s. Qed.

Lemma store_refused db t f e b err :
  (store_event_tiered db t f e b).2 = Err err → (store_event_tiered db t f e b).1 = b.
Proof. unfold store_event_tiered. by repeat case_match. Qed.

Lemma pin_event_tables db f id b t : tables_for t (pin_event db f id b).1 = tables_for t b.
Proof. by destruct db, t. Qed.

Lemma set_ttl_tables db f id n b t : tables_for t (set_ttl_override db f id n b).1 = tables_for t b.
Proof. by destruct db, t. Qed.

Lemma store_metadata_spec env i m id s :
  let s' := store_metadata env i m id s in
  (∀ t, tables_for t (blob_store s') = tables_for t (blob_store s)) ∧
  rs_auth s' = rs_auth s ∧ registrations s' = registrations s ∧ rs_quota s' = rs_quota s ∧
  tiered_quota s' = record_storage_tiered i (rsm_tier m) (Z.of_nat (length (rsm_data m))) (tiered_quota s).
Proof.
  unfold store_metadata. destruct (sm_pin _), (ttl_override_days _); cbn;
    (split; [intros t; rewrite ?set_ttl_tables, ?pin_event_tables; done|done]).
Qed.

Lemma store_event_get t f e v b :
  (∀ e v, postcard_stored e = Ok v → postcard_parse_stored v = Ok e) →
  postcard_stored e = Ok v →
  get_event None t f (se_event_id e) (store_event_tiered None t f e b).1 = Ok (Some e).
Proof.
  intros Hlaw Hv. unfold get_event. rewrite (store_events t t f e v), decide_True by done.
  rewrite lookup_insert_eq. by rewrite (Hlaw e v).
Qed.

(** C17. Storing.  When the relay acknowledges a store, the peer has access to the
    tier, its account stays within the tier's limit and grows by exactly the
    bytes stored, and the event is there to be read under the identifier of the
    moment; when it refuses, nothing has changed.  Neither changes sessions,
    contacts, registrations or the flat account. *)
Theorem relay_store_spec env i m s a :
  (∀ e v, postcard_stored e = Ok v → postcard_parse_stored v = Ok e) →
  let o := handle_message env i true (RelayStore m) s in
  let s' := out_service o in
  let t := rsm_tier m in
  let n := Z.of_nat (length (rsm_data m)) in
  let id := store_event_id (now_event env) in
  (out_sent o = [RelayStoreAck a] →
   if rsa_accepted a
   then has_tier_access i t (rs_auth s) = true ∧
        get_event None t (rsm_interface_id m) id (blob_store s')
        = Ok (Some (stored_event_new (now_received env) id (rsm_data m) (replicate 12 x00))) ∧
        (in_u64 n → in_u64 (peer_tier_bytes i t (tiered_quota s) + n) →
         peer_tier_bytes i t (tiered_quota s') = peer_tier_bytes i t (tiered_quota s) + n ∧
         peer_tier_bytes i t (tiered_quota s') <= tier_max_bytes t (tq_config (tiered_quota s)))
   else s' = s) ∧
  rs_auth s' = rs_auth s ∧ registrations s' = registrations s ∧ rs_quota s' = rs_quota s.
Proof.
  intros Hlaw. cbn zeta. cbn [handle_message]. unfold handle_store_message.
  assert (∀ r x, out_sent (store_ack env r x) = [RelayStoreAck a] →
    rsa_accepted a = match r with None => true | Some _ => false end) as Hack.
  { intros r x. unfold store_ack. destruct (reply_sent env "Failed to send store ack" true
      (RelayStoreAck {| rsa_accepted := match r with None => true | Some _ => false end;
                        rsa_reason := r; rsa_timestamp_millis := now_ack env |}) x) as [[-> _]|[-> _]]; [|done].
    by intros [= <-]. }
  assert (∀ r x, out_service (store_ack env r x) = x) as Hsvc by (intros; apply reply_service).
  destruct (has_tier_access i (rsm_tier m) (rs_auth s)) eqn:Hacc; cbn [negb];
    [|rewrite Hsvc; split; [by intros ->%Hack|done]].
  destruct (can_store_tiered _ _ _ _) as [[]|e] eqn:Hcan; [|rewrite Hsvc; split; [by intros ->%Hack|done]].
  destruct (can_store i _ _ _) as [_|e]; [|rewrite Hsvc; split; [by intros ->%Hack|done]].
  set (id := store_event_id (now_event env)).
  set (e := stored_event_new (now_received env) id (rsm_data m) (replicate 12 x00)).
  destruct (store_event_tiered (db_store env) (rsm_tier m) (rsm_interface_id m) e (blob_store s))
    as [blobs [[]|err]] eqn:Hst; rewrite !Hsvc.
  - destruct (store_metadata_spec env i m id (upd_blobs blobs s)) as (Htab & -> & -> & -> & Htq).
    split; [|done]. intros ->%Hack. split; [done|].
    assert (∃ v, postcard_stored e = Ok v ∧ db_store env = None) as (v & Hv & Hdb).
    { revert Hst. unfold store_event_tiered. destruct (postcard_stored e) as [v|]; [|done].
      destruct (db_store env); [done|]. eauto. }
    split.
    + rewrite <- (store_event_get (rsm_tier m) (rsm_interface_id m) e v (blob_store s) Hlaw Hv).
      rewrite Hdb in Hst. rewrite Hst. unfold get_event. by rewrite Htab.
    + intros Hn Hs. rewrite Htq. cbn [tiered_quota upd_blobs].
      rewrite record_storage_tiered_bytes, decide_True by done. split; [done|].
      by apply can_store_tiered_ok.
  - pose proof (store_refused (db_store env) (rsm_tier m) (rsm_interface_id m) e (blob_store s) err) as Hb.
    rewrite Hst in Hb. cbn in Hb. rewrite (Hb eq_refl), upd_blobs_id. split; [by intros ->%Hack|done].
Qed.

(** ** Retrieving *)

(** A page of a retrieval: at most a hundred events, in order, exactly the
    first of those stored after the cursor; [has_more] tells whether the next
    request, with the page's last event as the cursor, finds more, and it finds
    exactly the rest.  A peer without access to the tier gets no reply. *)
Theorem retrieve_page_spec env i m s :
  blob_ok (blob_store s) → db_read env = None →
  let o := handle_message env i true (RelayRetrieve m) s in
  let t := default Connections (rtm_tier m) in
  let f := rtm_interface_id m in
  blob_store (out_service o) = blob_store s ∧
  (has_tier_access i t (rs_auth s) = false → out_sent o = [] ∧ out_exit o = None) ∧
  ∀ d, out_sent o = [RelayDelivery d] →
    has_tier_access i t (rs_auth s) = true ∧
    ∃ events, events_after_tiered None t f (after_event_id m) (blob_store s) = Ok events ∧
      rdm_events d = take 100 events ∧ (length (rdm_events d) <= 100)%nat ∧
      (rdm_has_more d = true ↔ drop 100 events ≠ []) ∧
      ∀ e, last (rdm_events d) = Some e →
        events_after_tiered None t f (Some (se_event_id e)) (blob_store s) = Ok (drop 100 events).
Proof.
  intros Hok Hdb. cbn zeta. cbn [handle_message]. unfold handle_retrieve_message.
  cbn [touch upd_registrations rs_auth blob_store].
  destruct (has_tier_access _ _ _); cbn [negb]; [|done].
  destruct (events_after_elems (after_event_id m) (default Connections (rtm_tier m)) (rtm_interface_id m)
    (blob_store s) Hok) as (events & Hev & Hsort & _).
  rewrite Hdb, Hev, reply_service. split; [done|]. split; [done|]. intros d Hd. split; [done|]. exists events.
  split; [done|]. unfold RETRIEVE_PAGE_SIZE in Hd.
  assert (rdm_events d = take 100 events ∧ rdm_has_more d = (100 <? length events)%nat) as [-> ->].
  { destruct (reply_sent env "Failed to send delivery" true (RelayDelivery
      (if (100 <? length events)%nat
       then with_more (relay_delivery_new (now_ack env) (rtm_interface_id m) (take 100 events))
       else relay_delivery_new (now_ack env) (rtm_interface_id m) events))
      (touch env i s)) as [[Hs _]|[Hs _]]; rewrite Hs in Hd; [|done]. injection Hd as <-.
    destruct (Nat.ltb_spec 100 (length events)); [done|]. split; [|done]. symmetry. by apply take_ge. }
  split; [done|]. split; [rewrite length_take; lia|]. split.
  - destruct (Nat.ltb_spec 100 (length events)) as [Hl|Hl].
    + split; [|done]. intros _ Hnil. apply (f_equal length) in Hnil. rewrite length_drop in Hnil. cbn in Hnil. lia.
    + split; [done|]. intros Hne. destruct Hne. by apply drop_ge.
  - intros e [page Hpage]%last_Some.
    assert (events = page ++ e :: drop 100 events) as Heq.
    { transitivity (take 100 events ++ drop 100 events); [by rewrite take_drop|].
      rewrite Hpage, <- app_assoc. done. }
    apply (events_after_resume (after_event_id m) _ _ _ page); [done|]. by rewrite <- Heq.
Qed.

(** ** The node *)

(** What a step of the service does to the components, as their own steps. *)
Definition component_steps (s s' : RelayService) : Prop :=
  rtc auth_step (rs_auth s) (rs_auth s') ∧
  rtc blob_step (blob_store s) (blob_store s') ∧
  rtc reg_step (registrations s) (registrations s').

Lemma component_steps_refl s : component_steps s s.
Proof. done. Qed.

Lemma component_steps_trans s1 s2 s3 :
  component_steps s1 s2 → component_steps s2 s3 → component_steps s1 s3.
Proof. intros (? & ? & ?) (? & ? & ?). split_and!; by etrans. Qed.

Lemma store_event_id_ok now : event_id_ok (store_event_id now).
Proof. unfold event_id_ok, store_event_id. cbn. pose proof (Z.mod_pos_bound now (2 ^ 64)). lia. Qed.

Lemma touch_steps env i s : component_steps s (touch env i s).
Proof. split_and!; [done|done|]. apply rtc_once, rs_touch. Qed.

Lemma handle_register_steps env i m s : component_steps s (handle_register env i m s).1.
Proof.
  unfold handle_register. destruct (can_register _ _ _); [|done]. destruct (can_register_tiered _ _ _ _); [|done].
  destruct (subscribe_all _ _ _) as [accepted rejected]. case_bool_decide; [done|].
  destruct (reg_register _ _ _ _ _ _) as [reg r] eqn:Hr. split_and!; [done|done|]. cbn. apply rtc_once.
  pose proof (rs_register (registrations s) (now_register env) (registrations_write env) i accepted
    (rrm_display_name m)) as Hs. cbn in Hr. by rewrite Hr in Hs.
Qed.

Lemma store_metadata_steps env i m id s : component_steps s (store_metadata env i m id s).
Proof.
  unfold store_metadata. destruct (sm_pin _), (ttl_override_days _); split_and!; cbn; try done.
  - eapply rtc_l; [apply bs_pin|]. apply rtc_once, bs_ttl.
  - apply rtc_once, bs_pin.
  - apply rtc_once, bs_ttl.
Qed.

Lemma handle_store_steps env i m s : component_steps s (out_service (handle_store_message env i m s)).
Proof.
  unfold handle_store_message. assert (∀ r x, out_service (store_ack env r x) = x) as Hsvc
    by (intros; apply reply_service).
  destruct (negb _); [by rewrite Hsvc|]. destruct (can_store_tiered _ _ _ _); [|by rewrite Hsvc].
  destruct (can_store _ _ _ _); [|by rewrite Hsvc].
  destruct (store_event_tiered _ _ _ _ _) as [blobs r] eqn:Hst.
  assert (component_steps s (upd_blobs blobs s)) as Hblobs.
  { split_and!; [done| |done]. cbn. apply rtc_once. replace blobs with (blobs, r).1 by done.
    rewrite <- Hst. apply bs_store, store_event_id_ok. }
  destruct r; rewrite Hsvc; [|done]. eapply component_steps_trans; [done|apply store_metadata_steps].
Qed.

Lemma handle_message_steps env i authenticated m s :
  component_steps s (out_service (handle_message env i authenticated m s)).
Proof.
  assert (∀ o, component_steps s (out_service o) →
    component_steps s (out_service (if authenticated then o else silent false s))) as Hg
    by (intros; by destruct authenticated).
  destruct m; cbn [handle_message]; try done; try apply Hg.
  - by rewrite reply_service.
  - unfold handle_register_message. pose proof (touch_steps env i s) as Ht.
    destruct (has_gossip (touch env i s)); [|by rewrite reply_service].
    pose proof (handle_register_steps env i m (touch env i s)) as Hr.
    destruct (handle_register _ _ _ _). rewrite reply_service. by eapply component_steps_trans.
  - unfold handle_unregister_message.
    pose proof (rs_unregister (registrations s) (registrations_write env) i (rum_interfaces m)) as Hr.
    destruct (reg_unregister _ _ _ _) as [reg []]; (split_and!; [done|done|by apply rtc_once]).
  - unfold handle_retrieve_message. pose proof (touch_steps env i s).
    repeat (case_match; try done); by rewrite reply_service.
  - unfold handle_auth. pose proof (au_authenticate (rs_auth s) (now_auth env) i (ram_credential m)
      (ram_player_id m)) as Ha. destruct (authenticate _ _ _ _ _) as [auth []]; rewrite reply_service;
      (split_and!; [by apply rtc_once|done|done]).
  - apply handle_store_steps.
  - unfold handle_contacts_message. destruct (has_tier_access _ _ _); rewrite reply_service; [|done].
    split_and!; [apply rtc_once, au_sync|done|done].
Qed.
End Service.
Arguments RelayService I {_ _}.
Arguments Outcome I {_ _}.
