(* ===== verification/RelayAdmin.v ===== *)
(** * The relay's admin API

    Models the handlers of [indras-relay/src/admin.rs] over the service they
    share: the bearer token, the read-only views, and the changes of contacts
    and configuration.  A request carries the [authorization] header as text,
    or nothing; the body is what the JSON extractor decoded; formatting a time
    is a parameter. *)

From S2P Require Import Prelude Bytes Packet Pending RelayConfig RelayQuota RelayAuth Registration Wire BlobStore RelayService.

Local Open Scope string_scope.
Local Open Scope Z_scope.
Local Open Scope list_scope.

Inductive StatusCode : Type := UNAUTHORIZED | BAD_REQUEST | INTERNAL_SERVER_ERROR.

(** ** The token *)

Definition constant_time_eq (a b : list byte) : bool :=
  if negb (length a =? length b)%nat then false
  else foldl (λ acc p, Z.lor acc (Z.lxor (byte_val p.1) (byte_val p.2))) 0 (zip a b) =? 0.

Definition validate_token (header : option string) (expected : string) : Result unit StatusCode :=
  match header with
  | None => Err UNAUTHORIZED
  | Some auth =>
      match strip_prefix "Bearer " auth with
      | None => Err UNAUTHORIZED
      | Some token =>
          if constant_time_eq (as_bytes token) (as_bytes expected) then Ok tt else Err UNAUTHORIZED
      end
  end.

Lemma lor_fold_zero (l : list (byte * byte)) acc :
  0 <= acc →
  foldl (λ acc p, Z.lor acc (Z.lxor (byte_val p.1) (byte_val p.2))) acc l = 0 ↔
  acc = 0 ∧ Forall (λ p, p.1 = p.2) l.
Proof.
  revert acc. induction l as [|[x y] l IH]; intros acc Hacc; cbn [foldl]; [split; [by split|by intros []]|].
  pose proof (byte_val_range x). pose proof (byte_val_range y).
  rewrite IH, Z.lor_eq_0_iff, Z.lxor_eq_0_iff, Forall_cons.
  - cbn. split; [intros [[-> ->%byte_val_inj] ?]; auto|intros (-> & -> & ?); auto].
  - apply Z.lor_nonneg. split; [done|]. apply Z.lxor_nonneg. cbn. split; intros; lia.
Qed.

Lemma zip_equal {A} (a b : list A) : length a = length b → Forall (λ p, p.1 = p.2) (zip a b) ↔ a = b.
Proof.
  revert b. induction a as [|x a IH]; intros [|y b]; cbn; try done. intros [= Hl].
  rewrite Forall_cons, (IH b Hl). cbn. naive_solver.
Qed.

Lemma constant_time_eq_true a b : constant_time_eq a b = true ↔ a = b.
Proof.
  unfold constant_time_eq. destruct (Nat.eqb_spec (length a) (length b)) as [Hl|Hl]; cbn [negb].
  - rewrite Z.eqb_eq, lor_fold_zero, zip_equal by done. naive_solver.
  - split; [done|]. by intros ->.
Qed.

Lemma validate_token_ok header expected :
  validate_token header expected = Ok tt ↔ header = Some ("Bearer " +:+ expected)%string.
Proof.
  unfold validate_token. destruct header as [auth|]; [|done].
  destruct (strip_prefix "Bearer " auth) as [token|] eqn:Hp.
  - apply strip_prefix_Some in Hp as ->. destruct (constant_time_eq _ _) eqn:E.
    + apply constant_time_eq_true, as_bytes_inj in E as ->. done.
    + split; [done|]. intros Heq. assert (token = expected) as -> by (by injection Heq).
      assert (constant_time_eq (as_bytes expected) (as_bytes expected) = true)
        by (by apply constant_time_eq_true). congruence.
  - split; [done|]. intros [= ->]. by rewrite strip_prefix_app in Hp.
Qed.

Lemma validate_token_err header expected :
  header ≠ Some ("Bearer " +:+ expected)%string → validate_token header expected = Err UNAUTHORIZED.
Proof.
  intros Hne. destruct (validate_token header expected) as [[]|e] eqn:E; [by apply validate_token_ok in E|].
  unfold validate_token in E. repeat case_match; congruence.
Qed.

(** ** Responses *)

Record HealthResponse : Type := { hr_status : string; uptime_secs : Z; hr_display_name : string }.

Record StatsResponse : Type := {
  sr_peer_count : nat;
  sr_interface_count : nat;
  total_events : Z;
  total_storage_bytes : Z;
  self_bytes : Z;
  connections_bytes : Z;
  public_bytes : Z;
}.

Record PeerInfo : Type := {
  pinfo_peer_id : string;
  pinfo_display_name : option string;
  pinfo_interface_count : nat;
  pinfo_registered_at : string;
  pinfo_last_seen : string;
  pinfo_granted_tiers : list string;
}.

Record InterfaceInfo : Type := { ii_interface_id : string; ii_event_count : Z; ii_storage_bytes : Z }.

Record ContactsResponse : Type := { cr_contacts : list string; cr_count : nat }.

(** [DateTime::to_rfc3339]. *)
Class Rfc3339 : Type := to_rfc3339 : Z → string.

Definition unwrap_or {A E} (d : A) (r : Result A E) : A := match r with Ok x => x | Err _ => d end.

Section Admin.
Context {I : Type} `{Countable I, !PeerKey I, !PeerKeyParse I, RegistrationJson}.
Context `{Ed25519, CredentialPostcard, StringListJson, StoredEventPostcard, Rfc3339}.
Implicit Types (s : RelayService I) (header : option string) (db : option string).

Definition current_admin_token s : string := admin_token (live_config s).

(** The guard in front of every handler but [health]. *)
Definition with_token {A} header s (k : Result A StatusCode) : Result A StatusCode :=
  rbind (validate_token header (current_admin_token s)) (λ _, k).

(** ** Reading *)

Definition health_handler (uptime : Z) s : HealthResponse :=
  {| hr_status := "ok"; uptime_secs := uptime; hr_display_name := rc_display_name (live_config s) |}.

Definition stats_handler db header s : Result StatsResponse StatusCode :=
  with_token header s (Ok
    {| sr_peer_count := reg_peer_count (registrations s);
       sr_interface_count := reg_interface_count (registrations s);
       total_events := unwrap_or 0 (event_count db (blob_store s));
       total_storage_bytes := unwrap_or 0 (total_usage_bytes db (blob_store s));
       self_bytes := unwrap_or 0 (tier_usage_bytes db Self_ (blob_store s));
       connections_bytes := unwrap_or 0 (tier_usage_bytes db Connections (blob_store s));
       public_bytes := unwrap_or 0 (tier_usage_bytes db Public (blob_store s)) |}).

Definition peer_info s (p : PeerRegistrationInfo I) : PeerInfo :=
  {| pinfo_peer_id := hex (arr32_bytes (peer_key (pi_peer_id p)));
     pinfo_display_name := pi_display_name p;
     pinfo_interface_count := length (pi_interfaces p);
     pinfo_registered_at := to_rfc3339 (pi_registered_at p);
     pinfo_last_seen := to_rfc3339 (pi_last_seen p);
     pinfo_granted_tiers :=
       match get_session (pi_peer_id p) (rs_auth s) with
       | Some x => tier_debug <$> as_granted_tiers x
       | None => []
       end |}.

Definition peers_handler header s : Result (list PeerInfo) StatusCode :=
  with_token header s (Ok (peer_info s <$> registered_peers (registrations s))).

Definition interface_info db s (f : arr32) : InterfaceInfo :=
  {| ii_interface_id := hex32 f;
     ii_event_count := unwrap_or 0 (interface_event_count db f (blob_store s));
     ii_storage_bytes := unwrap_or 0 (interface_usage_bytes db f (blob_store s)) |}.

Definition interfaces_handler db header s : Result (list InterfaceInfo) StatusCode :=
  with_token header s (Ok (interface_info db s <$> registered_interfaces (registrations s))).

Definition contacts_handler header s : Result ContactsResponse StatusCode :=
  with_token header s (
    let contacts := hex32 <$> contact_ids (rs_auth s) in
    Ok {| cr_contacts := contacts; cr_count := length contacts |}).

Definition get_config_handler header s : Result RelayConfigView StatusCode :=
  with_token header s (Ok (config_view_of (live_config s))).

(** ** Writing *)

(** [PUT /contacts]; [None] when parsing an identifier panics. *)
Definition update_contacts_handler (w : WriteOutcome) header (body : list string) s
    : option (RelayService I * Result ContactsResponse StatusCode) :=
  match validate_token header (current_admin_token s) with
  | Err e => Some (s, Err e)
  | Ok _ =>
      parsed ← parse_ids body;
      let auth := sync_contacts parsed (rs_auth s) in
      let s := upd_auth auth (written w (contacts_file auth)) s in
      Some (s, match w with
               | WriteFailed _ _ => Err INTERNAL_SERVER_ERROR
               | Written => Ok {| cr_contacts := hex32 <$> contact_ids auth; cr_count := length parsed |}
               end)
  end.

(** [PUT /config]; [save] is the outcome of [save_to_file]. *)
Definition put_config_handler (save : option RelayError) header (p : RelayConfigPatch) s
    : RelayService I * Result RelayConfigView StatusCode :=
  match validate_token header (current_admin_token s) with
  | Err e => (s, Err e)
  | Ok _ =>
      let candidate := apply_to p (live_config s) in
      match relay_config_validate candidate with
      | Err _ => (s, Err BAD_REQUEST)
      | Ok _ =>
          if has_config_path s then
            match save with
            | Some _ => (s, Err INTERNAL_SERVER_ERROR)
            | None => (commit_config candidate (Some candidate) s, Ok (config_view_of candidate))
            end
          else (commit_config candidate (config_file s) s, Ok (config_view_of candidate))
      end
  end.

(** ** The API *)

(** The admin API.  Without exactly the bearer token of the live configuration
    every guarded request is refused and changes nothing.  With it, a
    configuration change does what the service's own [apply_config_patch] does:
    it commits a configuration that is valid, propagates its limits, and keeps
    the token; or it changes nothing. *)
Theorem admin_api_spec db w save header body p s :
  (header ≠ Some ("Bearer " +:+ current_admin_token s)%string →
     stats_handler db header s = Err UNAUTHORIZED ∧ peers_handler header s = Err UNAUTHORIZED ∧
     interfaces_handler db header s = Err UNAUTHORIZED ∧ contacts_handler header s = Err UNAUTHORIZED ∧
     get_config_handler header s = Err UNAUTHORIZED ∧
     update_contacts_handler w header body s = Some (s, Err UNAUTHORIZED) ∧
     put_config_handler save header p s = (s, Err UNAUTHORIZED)) ∧
  (header = Some ("Bearer " +:+ current_admin_token s)%string →
     let s' := (put_config_handler save header p s).1 in
     s' = (apply_config_patch save p s).1 ∧
     match (put_config_handler save header p s).2, (apply_config_patch save p s).2 with
     | Ok v, Ok v' => v = v'
     | Err _, Err _ => True
     | _, _ => False
     end ∧
     current_admin_token s' = current_admin_token s ∧
     (s' = s ∨ relay_config_validate (live_config s') = Ok tt ∧
        q_config (rs_quota s') = rc_quota (live_config s') ∧
        tq_config (tiered_quota s') = rc_tiers (live_config s') ∧
        (has_config_path s = true → config_file s' = Some (live_config s')))).
Proof.
  split.
  - intros Hne. unfold stats_handler, peers_handler, interfaces_handler, contacts_handler, get_config_handler,
      update_contacts_handler, put_config_handler, with_token. by rewrite (validate_token_err _ _ Hne).
  - intros Hh. apply validate_token_ok in Hh. cbn zeta. unfold put_config_handler, apply_config_patch.
    rewrite Hh. destruct (relay_config_validate _) as [[]|e] eqn:Hv; [|cbn; by auto].
    destruct (has_config_path s) eqn:Hp; [destruct save|]; cbn; (do 3 (split; [done|])); [by left|by right|].
    right. split_and!; [by destruct (relay_config_validate _) as [[]|]|done|done|done].
Qed.
End Admin.
