(* ===== verification/RelayNode.v ===== *)
(** * The relay node

    The relay of [indras-relay/src/relay_node.rs] running: connections opened
    and closed by any peers, their messages interleaved in any order, gossip,
    cleanup ticks and admin requests.  Handling one message, one gossiped event,
    one tick or one request is a step of the node.  It is composed of steps of
    the components, so that what those keep holds between any two of them as
    well; the methods of the registry are not atomic in the source, and
    [Registration.unregister_race] shows what their interleaving can do. *)

From S2P Require Import Prelude Bytes Packet Pending RelayConfig RelayQuota RelayAuth Registration Wire BlobStore RelayService RelayAdmin.

Section Node.
Context {I : Type} `{Countable I, !PeerKey I, !PeerKeyParse I, RegistrationJson}.
Context `{Ed25519, CredentialPostcard, StringListJson, StoredEventPostcard, !WirePostcard I}.










(** ** What the node keeps *)










End Node.
