(* ===== verification/BundleStore.v ===== *)
(** * The node's bundle store

    Models [indras-node/src/bundle_store.rs] over redb's tables: [dtn_bundles]
    maps the twenty bytes of a bundle identifier to the encoded bundle, and
    [dtn_pending] indexes them by the hash of the destination.  A transaction
    that fails ([Some e]) has no effect; the [postcard] encoding of bundles and
    the hash of an identity are parameters.  The theorem: while a bundle keeps
    its destination, the index lists exactly the stored bundles, so that a scan
    for a destination returns every bundle stored for it, once. *)

From S2P Require Import Prelude Bytes Packet Pending Bundle Wire BlobStore.

Local Open Scope string_scope.
Local Open Scope Z_scope.
Local Open Scope list_scope.

Inductive NodeError : Type :=
| NodeTransport (msg : string)
| NodeStorage (e : PendingError)
| NodeSync (msg : string)
| NodeInterfaceNotFound (msg : string)
| NodeNotStarted
| NodeAlreadyStarted
| NodeConfigError (msg : string)
| NodeSerialization (msg : string)
| NodeChannel (msg : string)
| NodeIo (msg : string)
| NodeKeystore (msg : string)
| NodeCrypto (msg : string)
| NodeStoryAuth (msg : string).

Class BundlePostcard (I : Type) : Type := {
  postcard_bundle : Bundle I → Result (list byte) string;
  postcard_parse_bundle : list byte → Result (Bundle I) string;
}.

Record BundleStore : Type := {
  dtn_bundles : gmap (list byte) (list byte);
  dtn_pending : gmap (list byte) (list byte);
}.

Definition bundle_store_empty : BundleStore := {| dtn_bundles := ∅; dtn_pending := ∅ |}.

(** ** Keys *)

Definition bundle_id_to_key (id : BundleId) : list byte :=
  be_bytes 8 (bid_source_hash id) ++ be_bytes 8 (creation_timestamp id) ++ be_bytes 4 (bid_sequence id).

(** [table.range(from..=to)]. *)
Definition table_range_incl {A} (from to_ : list byte) (t : gmap (list byte) A) : list (list byte * A) :=
  retain (λ x, bytes_leb x.1 to_) (table_range from t).

Section BundleStore.
Context {I : Type} `{DefaultHasher I, BundlePostcard I}.
Implicit Types (s : BundleStore) (b : Bundle I) (dst : I).

Definition pending_key dst (id : BundleId) : list byte := be_bytes 8 (hash_identity dst) ++ bundle_id_to_key id.

(** ** Operations *)

Definition store_bundle (fault : option string) b s : BundleStore * Result unit NodeError :=
  match postcard_bundle b with
  | Err e => (s, Err (NodeIo ("Failed to serialize bundle: " +:+ e)))
  | Ok bytes =>
      match fault with
      | Some e => (s, Err (NodeIo e))
      | None =>
          ({| dtn_bundles := <[bundle_id_to_key (bundle_id b) := bytes]> (dtn_bundles s);
              dtn_pending := <[pending_key (bundle_destination b) (bundle_id b) := []]> (dtn_pending s) |}, Ok tt)
      end
  end.

Definition get_bundle (fault : option string) (id : BundleId) s : Result (option (Bundle I)) NodeError :=
  match fault with
  | Some e => Err (NodeIo e)
  | None =>
      match dtn_bundles s !! bundle_id_to_key id with
      | Some value =>
          match postcard_parse_bundle value with
          | Ok b => Ok (Some b)
          | Err e => Err (NodeIo ("Failed to deserialize bundle: " +:+ e))
          end
      | None => Ok None
      end
  end.

Definition prefix_start dst : list byte := be_bytes 8 (hash_identity dst) ++ repeat (byte_of_Z 0) 20.
Definition prefix_end dst : list byte := be_bytes 8 (hash_identity dst) ++ repeat (byte_of_Z 255) 20.

(** A corrupt bundle and a dangling index entry are skipped. *)
Definition bundle_at s (key : list byte) : option (Bundle I) :=
  match dtn_bundles s !! take 20 (drop 8 key) with
  | Some value => match postcard_parse_bundle value with Ok b => Some b | Err _ => None end
  | None => None
  end.

Definition bundles_pending_for (fault : option string) dst s : Result (list (Bundle I)) NodeError :=
  match fault with
  | Some e => Err (NodeIo e)
  | None =>
      Ok (omap (λ x, bundle_at s x.1) (table_range_incl (prefix_start dst) (prefix_end dst) (dtn_pending s)))
  end.

Definition delete_bundle (fault : option string) (id : BundleId) dst s : BundleStore * Result unit NodeError :=
  match fault with
  | Some e => (s, Err (NodeIo e))
  | None =>
      ({| dtn_bundles := delete (bundle_id_to_key id) (dtn_bundles s);
          dtn_pending := delete (pending_key dst id) (dtn_pending s) |}, Ok tt)
  end.

Definition all_bundles (fault : option string) s : Result (list (Bundle I)) NodeError :=
  match fault with
  | Some e => Err (NodeIo e)
  | None =>
      Ok (omap (λ x : list byte * list byte,
                  match postcard_parse_bundle x.2 with Ok b => Some b | Err _ => None end)
            (table_iter (dtn_bundles s)))
  end.

Definition bundle_store_count (fault : option string) s : Result nat NodeError :=
  match fault with Some e => Err (NodeIo e) | None => Ok (size (dtn_bundles s)) end.

(** The loop of [cleanup_expired]: it stops at the first failure, what is
    deleted by then staying deleted. *)
Fixpoint delete_all (faults : nat → option string) (expired : list (BundleId * I)) s
    : BundleStore * Result unit NodeError :=
  match expired with
  | [] => (s, Ok tt)
  | (id, dst) :: expired =>
      match delete_bundle (faults 0%nat) id dst s with
      | (s, Ok _) => delete_all (λ i, faults (S i)) expired s
      | (s, Err e) => (s, Err e)
      end
  end.

Definition store_cleanup_expired (fault : option string) (faults : nat → option string) (now : Z) s
    : BundleStore * Result nat NodeError :=
  match all_bundles fault s with
  | Err e => (s, Err e)
  | Ok all =>
      let expired := (λ b, (bundle_id b, bundle_destination b)) <$> retain (bundle_is_expired now) all in
      match delete_all faults expired s with
      | (s, Ok _) => (s, Ok (length expired))
      | (s, Err e) => (s, Err e)
      end
  end.

Definition bundle_store_clear (fault : option string) s : BundleStore * Result unit NodeError :=
  match fault with Some e => (s, Err (NodeIo e)) | None => (bundle_store_empty, Ok tt) end.
End BundleStore.

(** ** Keys identify bundles *)

(** The widths of the source: [u64], [i64], [u32]. *)
Definition bundle_id_ok (id : BundleId) : Prop :=
  0 <= bid_source_hash id < 2 ^ 64 ∧ - 2 ^ 63 <= creation_timestamp id < 2 ^ 63 ∧ 0 <= bid_sequence id < 2 ^ 32.

Lemma be_bytes_eq_mod n a b : be_bytes n a = be_bytes n b → a mod 256 ^ Z.of_nat n = b mod 256 ^ Z.of_nat n.
Proof. intros Heq. by rewrite <- !from_to_be_bytes, Heq. Qed.

Lemma be_i64_inj a b :
  - 2 ^ 63 <= a < 2 ^ 63 → - 2 ^ 63 <= b < 2 ^ 63 → be_bytes 8 a = be_bytes 8 b → a = b.
Proof.
  intros Ha Hb Hm%be_bytes_eq_mod. change (256 ^ Z.of_nat 8) with (2 ^ 64) in Hm.
  pose proof (Z.div_mod a (2 ^ 64)). pose proof (Z.div_mod b (2 ^ 64)). nia.
Qed.

Lemma bundle_key_length id : length (bundle_id_to_key id) = 20%nat.
Proof. unfold bundle_id_to_key. by rewrite !length_app, !be_bytes_length. Qed.

Lemma bundle_key_inj a b :
  bundle_id_ok a → bundle_id_ok b → bundle_id_to_key a = bundle_id_to_key b → a = b.
Proof.
  intros (Ha1 & Ha2 & Ha3) (Hb1 & Hb2 & Hb3) Hk. unfold bundle_id_to_key in Hk.
  apply app_inj_1 in Hk as [H1 Hk]; [|by rewrite !be_bytes_length].
  apply app_inj_1 in Hk as [H2 H3]; [|by rewrite !be_bytes_length].
  apply (be_bytes_inj 8) in H1; [|done..]. apply be_i64_inj in H2; [|done..].
  apply (be_bytes_inj 4) in H3; [|done..]. destruct a, b. simpl in *. by subst.
Qed.

(** Twenty bytes are between twenty zeros and twenty 255s. *)
Lemma zeros_leb n l : length l = n → bytes_leb (repeat (byte_of_Z 0) n) l = true.
Proof.
  revert l. induction n as [|n IH]; intros [|x l] Hl; try done. cbn [repeat]. rewrite bytes_leb_cons.
  replace (byte_val (byte_of_Z 0)) with 0 by done. pose proof (byte_val_range x).
  destruct (Z.ltb_spec 0 (byte_val x)); [done|]. rewrite (proj2 (Z.eqb_eq _ _)) by lia. apply IH. simpl in Hl. lia.
Qed.

Lemma ones_leb n l : length l = n → bytes_leb l (repeat (byte_of_Z 255) n) = true.
Proof.
  revert l. induction n as [|n IH]; intros [|x l] Hl; try done. cbn [repeat]. rewrite bytes_leb_cons.
  replace (byte_val (byte_of_Z 255)) with 255 by done. pose proof (byte_val_range x).
  destruct (Z.ltb_spec (byte_val x) 255); [done|]. rewrite (proj2 (Z.eqb_eq _ _)) by lia. apply IH. simpl in Hl. lia.
Qed.

(** ** Tables as images of a map *)

Section TableImage.
Context {A B : Type} (key : BundleId → A → list byte) (val : A → B).
Implicit Types (t : gmap (list byte) B) (m : gmap BundleId A).

Definition table_image t m : Prop :=
  ∀ k v, t !! k = Some v ↔ ∃ id a, m !! id = Some a ∧ k = key id a ∧ v = val a.

Lemma table_image_empty : table_image ∅ ∅.
Proof. intros k v. rewrite lookup_empty. naive_solver. Qed.

Lemma table_image_insert t m id a :
  table_image t m →
  (∀ a', m !! id = Some a' → key id a' = key id a) →
  (∀ id' a', m !! id' = Some a' → key id' a' = key id a → id' = id) →
  table_image (<[key id a := val a]> t) (<[id := a]> m).
Proof.
  intros Him Hsame Hinj k v. rewrite lookup_insert_Some. split.
  - intros [[<- <-]|[Hne Hk]]; [exists id, a; by rewrite lookup_insert_eq|].
    apply Him in Hk as (id' & a' & Ha' & -> & ->). exists id', a'. split; [|done].
    rewrite lookup_insert_ne; [done|]. intros ->. apply Hne. by rewrite (Hsame _ Ha').
  - intros (id' & a' & [[<- <-]|[Hne Ha']]%lookup_insert_Some & -> & ->); [by left|right].
    split; [intros Heq; apply Hne; symmetry; by eapply Hinj|]. apply Him. eauto.
Qed.

Lemma table_image_delete t m id k :
  table_image t m →
  (∀ a', m !! id = Some a' → key id a' = k) →
  (∀ id' a', m !! id' = Some a' → key id' a' = k → id' = id) →
  table_image (delete k t) (delete id m).
Proof.
  intros Him Hsame Hinj k' v. rewrite lookup_delete_Some. split.
  - intros [Hne (id' & a' & Ha' & -> & ->)%Him]. exists id', a'. split; [|done].
    apply lookup_delete_Some. split; [|done]. intros ->. apply Hne. by rewrite (Hsame _ Ha').
  - intros (id' & a' & [Hne Ha']%lookup_delete_Some & -> & ->). split; [|apply Him; eauto].
    intros Heq. apply Hne. symmetry. by eapply Hinj.
Qed.

Lemma table_image_list t m :
  table_image t m →
  (∀ id a id' a', m !! id = Some a → m !! id' = Some a' → key id a = key id' a' → id = id') →
  map_to_list t ≡ₚ (λ x, (key x.1 x.2, val x.2)) <$> map_to_list m.
Proof.
  intros Him Hinj. apply NoDup_Permutation; [apply NoDup_map_to_list| |].
  - apply NoDup_fmap_2_strong; [|apply NoDup_map_to_list].
    intros [id a] [id' a'] Ha%elem_of_map_to_list Ha'%elem_of_map_to_list [= Hk _]. simpl in *.
    assert (id = id') as <- by eauto. by simplify_eq.
  - intros [k v]. rewrite elem_of_map_to_list, (Him k v), list_elem_of_fmap. split.
    + intros (id & a & Ha & -> & ->). exists (id, a). by rewrite elem_of_map_to_list.
    + intros ([id a] & [= -> ->] & Ha%elem_of_map_to_list). eauto.
Qed.
End TableImage.

(** ** The store holds a map of bundles *)

Lemma retain_fmap {A B} (f : B → bool) (g : A → B) l : retain f (g <$> l) = g <$> retain (f ∘ g) l.
Proof. induction l as [|x l IH]; [done|]. rewrite fmap_cons. cbn [retain]. simpl. destruct (f (g x)); by rewrite IH. Qed.

Lemma omap_fmap_id {A B C} (f : B → option C) (g : A → B) (h : A → C) (l : list A) :
  (∀ x, x ∈ l → f (g x) = Some (h x)) → omap f (g <$> l) = h <$> l.
Proof.
  induction l as [|x l IH]; intros Hf; [done|]. rewrite !fmap_cons. cbn [omap list_omap].
  rewrite Hf by left. f_equal. apply IH. intros y Hy. apply Hf. by right.
Qed.

#[global] Instance retain_proper {A} (f : A → bool) : Proper ((≡ₚ) ==> (≡ₚ)) (retain f).
Proof. intros l l'. apply retain_perm. Qed.

Section BundleFacts.
Context {I : Type} `{DefaultHasher I, BundlePostcard I}.
Context (hash_u64 : ∀ i : I, 0 <= hash_identity i < 2 ^ 64).
Context (postcard_ok : ∀ (b : Bundle I) v, postcard_bundle b = Ok v → postcard_parse_bundle v = Ok b).
Implicit Types (s : BundleStore) (b : Bundle I) (m : gmap BundleId (Bundle I)) (dst : I).

Definition bundle_encoded b : list byte := match postcard_bundle b with Ok v => v | Err _ => [] end.

Definition bundle_storable b : Prop := bundle_id_ok (bundle_id b) ∧ is_ok (postcard_bundle b) = true.

Record holds_bundles s m : Prop := {
  hb_entries : map_Forall (λ id b, bundle_id b = id ∧ bundle_storable b) m;
  hb_bundles : table_image (λ id _, bundle_id_to_key id) bundle_encoded (dtn_bundles s) m;
  hb_pending : table_image (λ id b, pending_key (bundle_destination b) id) (λ _, []) (dtn_pending s) m;
}.

Lemma parse_encoded b : bundle_storable b → postcard_parse_bundle (bundle_encoded b) = Ok b.
Proof. intros [_ Hb]. unfold bundle_encoded. destruct (postcard_bundle b) as [v|] eqn:Hv; [|done]. by apply postcard_ok. Qed.

Lemma pending_key_split dst id : take 20 (drop 8 (pending_key dst id)) = bundle_id_to_key id.
Proof.
  unfold pending_key. rewrite drop_app_length' by (by rewrite be_bytes_length).
  apply take_ge. rewrite bundle_key_length. lia.
Qed.

Lemma pending_key_inj (d1 d2 : I) i j :
  bundle_id_ok i → bundle_id_ok j → pending_key d1 i = pending_key d2 j → hash_identity d1 = hash_identity d2 ∧ i = j.
Proof.
  intros Ha Hb Hk. unfold pending_key in Hk. apply app_inj_1 in Hk as [Hh Hk]; [|by rewrite !be_bytes_length].
  split; [by apply (be_bytes_inj 8) in Hh|by apply bundle_key_inj].
Qed.

Lemma holds_key_inj s m id b id' :
  holds_bundles s m → m !! id = Some b → bundle_id_ok id' → bundle_id_to_key id = bundle_id_to_key id' → id = id'.
Proof. intros Hs Hb ? Hk. apply (hb_entries _ _ Hs) in Hb as [<- [? _]]. by apply bundle_key_inj. Qed.

Lemma holds_pending_inj s m id b dst id' :
  holds_bundles s m → m !! id = Some b → bundle_id_ok id' →
  pending_key (bundle_destination b) id = pending_key dst id' → id = id'.
Proof. intros Hs Hb ? Hk. apply (hb_entries _ _ Hs) in Hb as [<- [? _]]. by apply pending_key_inj in Hk as [_ ?]. Qed.

Lemma holds_id_ok s m id b : holds_bundles s m → m !! id = Some b → bundle_id_ok id.
Proof. intros Hs Hb. by apply (hb_entries _ _ Hs) in Hb as [<- [? _]]. Qed.

(** ** Updates *)

Definition same_destination m (id : BundleId) dst : Prop :=
  ∀ b, m !! id = Some b → hash_identity (bundle_destination b) = hash_identity dst.

Lemma holds_empty : holds_bundles bundle_store_empty ∅.
Proof. split; [apply map_Forall_empty|apply table_image_empty..]. Qed.

Lemma holds_store s m b :
  holds_bundles s m → bundle_storable b → same_destination m (bundle_id b) (bundle_destination b) →
  ∃ s', store_bundle None b s = (s', Ok tt) ∧ holds_bundles s' (<[bundle_id b := b]> m).
Proof.
  intros Hs Hb Hdst. destruct (Hb) as [Hid Hok]. unfold store_bundle.
  assert (∃ v, postcard_bundle b = Ok v) as [v Hv] by (destruct (postcard_bundle b); [eauto|done]).
  rewrite Hv. eexists. split; [done|]. replace v with (bundle_encoded b) by (unfold bundle_encoded; by rewrite Hv). split; cbn.
  - apply map_Forall_insert_2; [done|apply Hs].
  - apply (table_image_insert (λ id (_ : Bundle I), bundle_id_to_key id)); [apply Hs|done|].
    intros id' b' Hb' Hk. by eapply holds_key_inj.
  - apply (table_image_insert (λ id b, pending_key (bundle_destination b) id) (λ _, []) _ _ _ b); [apply Hs| |].
    + intros b' Hb'. unfold pending_key. by rewrite (Hdst _ Hb').
    + intros id' b' Hb' Hk. by apply (holds_pending_inj s m id' b' _ _ Hs) in Hk.
Qed.

Lemma holds_delete s m id dst :
  holds_bundles s m → bundle_id_ok id → same_destination m id dst →
  ∃ s', delete_bundle None id dst s = (s', Ok tt) ∧ holds_bundles s' (delete id m).
Proof.
  intros Hs Hid Hdst. eexists. split; [done|]. split; cbn.
  - apply map_Forall_delete, Hs.
  - apply table_image_delete; [apply Hs|done|]. intros id' b' Hb' Hk. by eapply holds_key_inj.
  - apply table_image_delete; [apply Hs| |].
    + intros b' Hb'. unfold pending_key. by rewrite (Hdst _ Hb').
    + intros id' b' Hb' Hk. by apply (holds_pending_inj s m id' b' _ _ Hs) in Hk.
Qed.

(** ** Queries *)

Lemma holds_bundle_list s m :
  holds_bundles s m → map_to_list (dtn_bundles s) ≡ₚ (λ x, (bundle_id_to_key x.1, bundle_encoded x.2)) <$> map_to_list m.
Proof.
  intros Hs. apply (table_image_list (λ id _, bundle_id_to_key id)); [apply Hs|].
  intros id a id' a' Ha Ha' Hk. apply (holds_key_inj s m id a); eauto using holds_id_ok.
Qed.

Lemma holds_pending_list s m :
  holds_bundles s m →
  map_to_list (dtn_pending s) ≡ₚ (λ x, (pending_key (bundle_destination x.2) x.1, [])) <$> map_to_list m.
Proof.
  intros Hs. apply (table_image_list (λ id b, pending_key (bundle_destination b) id) (λ _, [])); [apply Hs|].
  intros id a id' a' Ha Ha' Hk. apply (holds_pending_inj s m id a (bundle_destination a')); eauto using holds_id_ok.
Qed.

Lemma prefix_range dst d id :
  bytes_leb (prefix_start dst) (pending_key d id) && bytes_leb (pending_key d id) (prefix_end dst)
  = bool_decide (hash_identity d = hash_identity dst).
Proof.
  unfold prefix_start, prefix_end, pending_key. rewrite !be_bytes_leb. change (256 ^ Z.of_nat 8) with (2 ^ 64).
  rewrite !Z.mod_small by apply hash_u64. rewrite zeros_leb, ones_leb by apply bundle_key_length.
  case_bool_decide; repeat case_match; try done; lia.
Qed.

Lemma retain_and {A} (f g : A → bool) l : retain f (retain g l) = retain (λ x, g x && f x) l.
Proof.
  induction l as [|x l IH]; [done|]. cbn [retain].
  destruct (g x); cbn [retain]; [simpl; destruct (f x); by rewrite IH|by rewrite IH].
Qed.

Lemma holds_pending_for s m dst :
  holds_bundles s m →
  ∃ l, bundles_pending_for None dst s = Ok l ∧
    l ≡ₚ snd <$> retain (λ x, bool_decide (hash_identity (bundle_destination x.2) = hash_identity dst)) (map_to_list m).
Proof.
  intros Hs. eexists. split; [done|]. unfold table_range_incl, table_range, table_iter.
  rewrite retain_and, sort_by_perm, (holds_pending_list _ _ Hs), retain_fmap.
  rewrite (omap_fmap_id _ _ snd).
  - erewrite retain_ext; [done|]. intros [id b] _. apply prefix_range.
  - intros [id b] [Hb%elem_of_map_to_list _]%elem_of_retain. unfold bundle_at. cbn [fst snd]. rewrite pending_key_split.
    rewrite (proj2 (hb_bundles _ _ Hs (bundle_id_to_key id) (bundle_encoded b))) by eauto.
    rewrite parse_encoded; [done|]. by apply (hb_entries _ _ Hs) in Hb as [_ ?].
Qed.

Lemma holds_all_bundles s m :
  holds_bundles s m → ∃ l, all_bundles None s = Ok l ∧ l ≡ₚ snd <$> map_to_list m.
Proof.
  intros Hs. eexists. split; [done|]. unfold table_iter. rewrite sort_by_perm, (holds_bundle_list _ _ Hs).
  rewrite (omap_fmap_id _ _ snd); [done|]. intros [id b] Hb%elem_of_map_to_list. cbn.
  rewrite parse_encoded; [done|]. by apply (hb_entries _ _ Hs) in Hb as [_ ?].
Qed.

Lemma holds_get s m id : holds_bundles s m → bundle_id_ok id → get_bundle None id s = Ok (m !! id).
Proof.
  intros Hs Hid. unfold get_bundle. destruct (dtn_bundles s !! bundle_id_to_key id) as [v|] eqn:Hv.
  - apply (hb_bundles _ _ Hs) in Hv as (id' & b & Hb & Hk & ->).
    assert (id' = id) as -> by (eapply holds_key_inj; eauto).
    rewrite parse_encoded by (by apply (hb_entries _ _ Hs) in Hb as [_ ?]). by rewrite Hb.
  - destruct (m !! id) as [b|] eqn:Hb; [|done]. exfalso.
    assert (dtn_bundles s !! bundle_id_to_key id = Some (bundle_encoded b)) as Hv' by (apply (hb_bundles _ _ Hs); eauto).
    by rewrite Hv in Hv'.
Qed.

(** ** Cleanup *)

(** Deletions, up to the first that fails. *)
Lemma holds_delete_all faults expired s m s' r :
  holds_bundles s m →
  (∀ id dst, (id, dst) ∈ expired → bundle_id_ok id ∧ same_destination m id dst) →
  delete_all faults expired s = (s', r) →
  ∃ k, holds_bundles s' (foldl (λ m id, delete id m) m (take k expired).*1) ∧ (is_ok r = true → (length expired <= k)%nat) ∧
       ((∀ i, faults i = None) → is_ok r = true).
Proof.
  revert faults s m. induction expired as [|[id dst] l IH]; intros faults s m Hs Hall; cbn [delete_all].
  - intros [= <- <-]. by exists 0%nat.
  - destruct (Hall id dst) as [Hid Hdst]; [left|]. destruct (faults 0%nat) as [e|] eqn:Hf.
    { cbn. intros [= <- <-]. exists 0%nat. split; [done|]. split; [done|]. intros Hno. by rewrite Hno in Hf. }
    destruct (holds_delete s m id dst) as (s1 & -> & Hs1); [done..|]. intros Hrest.
    apply (IH (λ i, faults (S i)) s1 (delete id m)) in Hrest as (k & Hk & Hok & Hno); [|done|].
    + exists (S k). cbn. split; [done|]. split; [intros Hr; specialize (Hok Hr); lia|auto].
    + intros id' dst' Hin. destruct (Hall id' dst') as [? Hd]; [by right|]. split; [done|].
      intros b [_ Hb]%lookup_delete_Some. by apply Hd.
Qed.

(** What the loop is given. *)
Definition to_delete (now : Z) (all : list (Bundle I)) : list (BundleId * I) :=
  (λ b, (bundle_id b, bundle_destination b)) <$> retain (bundle_is_expired now) all.

Lemma elem_of_to_delete s m now all id dst :
  holds_bundles s m → all ≡ₚ snd <$> map_to_list m →
  (id, dst) ∈ to_delete now all ↔
  ∃ b, m !! id = Some b ∧ bundle_is_expired now b = true ∧ dst = bundle_destination b.
Proof.
  intros Hs Hall. unfold to_delete. rewrite list_elem_of_fmap. setoid_rewrite elem_of_retain.
  setoid_rewrite Hall. split.
  - intros (b & [= -> ->] & ([id' b'] & -> & Hb%elem_of_map_to_list)%list_elem_of_fmap & He). cbn.
    destruct (hb_entries _ _ Hs _ _ Hb) as [Hid _]. cbn in Hid. subst. eauto.
  - intros (b & Hb & He & ->). destruct (hb_entries _ _ Hs _ _ Hb) as [Hid _]. cbn in Hid. exists b. subst.
    split; [done|]. split; [|done]. apply list_elem_of_fmap. exists (bundle_id b, b). by rewrite elem_of_map_to_list.
Qed.

Lemma length_to_delete s m now all :
  holds_bundles s m → all ≡ₚ snd <$> map_to_list m →
  length (to_delete now all) = size (filter (λ x : BundleId * Bundle I, bundle_is_expired now x.2 = true) m).
Proof.
  intros Hs Hall. rewrite <- size_dom.
  rewrite <- (length_fmap fst), <- (size_list_to_set (C := gset BundleId) (to_delete now all).*1).
  - f_equal. apply set_eq. intros id. rewrite elem_of_list_to_set, elem_of_dom, list_elem_of_fmap. split.
    + intros ([id' dst] & -> & (b & Hb & He & _)%(elem_of_to_delete s m)); [|done..]. exists b.
      by apply map_lookup_filter_Some.
    + intros [b [Hb He]%map_lookup_filter_Some]. exists (id, bundle_destination b). split; [done|].
      apply (elem_of_to_delete s m); eauto.
  - unfold to_delete. rewrite <- list_fmap_compose. apply NoDup_fmap_retain. rewrite Hall, <- list_fmap_compose.
    rewrite (Forall_fmap_ext_1 _ fst); [apply NoDup_fst_map_to_list|].
    apply Forall_forall. intros [id b] Hb%elem_of_map_to_list. by destruct (hb_entries _ _ Hs _ _ Hb).
Qed.

(** What a cleanup leaves when some deletions may fail: a part of the map that
    has every live bundle, and exactly the live bundles when it succeeds. *)
Lemma holds_cleanup faults now s m s' r :
  holds_bundles s m → store_cleanup_expired None faults now s = (s', r) →
  ∃ m', holds_bundles s' m' ∧ m' ⊆ m ∧ filter (λ x, bundle_is_expired now x.2 = false) m ⊆ m' ∧
    (∀ n, r = Ok n → m' = filter (λ x, bundle_is_expired now x.2 = false) m ∧
                     n = size (filter (λ x, bundle_is_expired now x.2 = true) m)) ∧
    ((∀ i, faults i = None) → is_ok r = true).
Proof.
  intros Hs. unfold store_cleanup_expired. destruct (holds_all_bundles _ _ Hs) as (all & -> & Hall).
  fold (to_delete now all). pose proof (λ id dst, elem_of_to_delete s m now all id dst Hs Hall) as Hin.
  pose proof (length_to_delete s m now all Hs Hall) as Hlen.
  destruct (delete_all faults (to_delete now all) s) as [s1 r1] eqn:Hdel.
  apply (holds_delete_all _ _ _ m) in Hdel as (k & Hk & Hok & Hno); [|done|].
  2:{ intros id dst (b & Hb & _ & ->)%Hin. split; [by eapply holds_id_ok|]. intros b' Hb'. by simplify_eq. }
  set (m' := foldl _ m _) in Hk.
  assert (∀ id, m' !! id = if decide (id ∈ (take k (to_delete now all)).*1) then None else m !! id) as Hm'
    by apply delete_all_lookup.
  assert (∀ id b, id ∈ (take k (to_delete now all)).*1 → m !! id = Some b → bundle_is_expired now b = true) as Hdead.
  { intros id b ([id' dst] & -> & Ht)%list_elem_of_fmap. apply elem_of_take in Ht as (i & Hi & _).
    apply list_elem_of_lookup_2, Hin in Hi. naive_solver. }
  assert (filter (λ x, bundle_is_expired now x.2 = false) m ⊆ m') as Hlive.
  { apply map_subseteq_spec. intros id b [Hb He]%map_lookup_filter_Some. rewrite Hm', decide_False; [done|].
    intros Hd. simpl in He. by rewrite (Hdead _ _ Hd Hb) in He. }
  assert (m' ⊆ m) as Hsub.
  { apply map_subseteq_spec. intros id b. rewrite Hm'. by destruct (decide _). }
  intros Hr. exists m'. destruct r1 as [[]|e]; injection Hr as <- <-; split; [done| |done|]; (split; [done|]); (split; [done|]).
  - split; [|done]. intros n [= <-]. specialize (Hok eq_refl). split; [|by rewrite <- Hlen].
    apply map_eq. intros id. rewrite Hm', take_ge, map_lookup_filter by done.
    destruct (m !! id) as [b|] eqn:Hb; cbn; [|by destruct (decide _)].
    destruct (bundle_is_expired now b) eqn:He.
    + rewrite decide_True; [by rewrite option_guard_False|]. apply list_elem_of_fmap.
      exists (id, bundle_destination b). split; [done|]. apply Hin. eauto.
    + rewrite decide_False; [by rewrite option_guard_True|]. intros ([id' dst] & -> & (b' & Hb' & He' & _)%Hin)%list_elem_of_fmap.
      cbn in Hb. rewrite Hb' in Hb. injection Hb as ->. by rewrite He in He'.
  - split; [done|]. intros Hf. by specialize (Hno Hf).
Qed.
End BundleFacts.
