(* ===== verification/EventStore.v ===== *)
(** * Interface events and their store

    Models the events of [indras-core/src/interface.rs], the store-and-forward
    log of [indras-sync/src/event_store.rs] and the head tracker of
    [indras-sync/src/head_tracker.rs].  Pending events are kept as indices into
    the log; a [HashSet] is iterated in an unspecified order, on which nothing
    here depends. *)

From S2P Require Import Prelude Artifact Packet Pending Wire.

(** ** Events *)

Inductive MembershipChange (I : Type) : Type :=
| Joined (peer : I)
| Left (peer : I)
| Invited (by_ peer : I)
| Removed (by_ peer : I)
| Created (creator : I).
Arguments Joined {I} _.
Arguments Left {I} _.
Arguments Invited {I} _ _.
Arguments Removed {I} _ _.
Arguments Created {I} _.

Definition actor {I} (c : MembershipChange I) : option I :=
  match c with
  | Joined p | Left p | Created p => Some p
  | Invited b _ | Removed b _ => Some b
  end.

Definition affected_peer {I} (c : MembershipChange I) : I :=
  match c with Joined p | Left p | Invited _ p | Removed _ p | Created p => p end.

(** The [InterfaceEvent] of the core crate. *)
Inductive LogEvent (I : Type) : Type :=
| LeMessage (id : EventId) (sender : I) (content : list byte) (timestamp : Z)
| LeMembership (id : EventId) (change : MembershipChange I) (timestamp : Z)
| LePresence (peer : I) (status : PresenceStatus) (timestamp : Z)
| LeCustom (id : EventId) (sender : I) (event_type : string) (payload : list byte) (timestamp : Z)
| LeSyncMarker (peer : I) (heads : list arr32) (timestamp : Z).
Arguments LeMessage {I} _ _ _ _.
Arguments LeMembership {I} _ _ _.
Arguments LePresence {I} _ _ _.
Arguments LeCustom {I} _ _ _ _ _.
Arguments LeSyncMarker {I} _ _ _.

Definition le_event_id {I} (e : LogEvent I) : option EventId :=
  match e with
  | LeMessage id _ _ _ | LeMembership id _ _ | LeCustom id _ _ _ _ => Some id
  | LePresence _ _ _ | LeSyncMarker _ _ _ => None
  end.

Definition le_timestamp {I} (e : LogEvent I) : Z :=
  match e with
  | LeMessage _ _ _ t | LeMembership _ _ t | LePresence _ _ t | LeCustom _ _ _ _ t | LeSyncMarker _ _ t => t
  end.

Definition le_sender {I} (e : LogEvent I) : option I :=
  match e with
  | LeMessage _ s _ _ | LeCustom _ s _ _ _ => Some s
  | LePresence p _ _ | LeSyncMarker p _ _ => Some p
  | LeMembership _ c _ => actor c
  end.

Section Constructors.
Context {I : Type} `{DefaultHasher I}.

Definition event_id_from_peer (peer : I) (sequence : Z) : EventId :=
  {| sender_hash := hash_identity peer; ev_sequence := sequence |}.

Definition le_message (now : Z) (sender : I) (sequence : Z) (content : list byte) : LogEvent I :=
  LeMessage (event_id_from_peer sender sequence) sender content now.

Definition le_membership (now : Z) (who : I) (sequence : Z) (change : MembershipChange I) : LogEvent I :=
  LeMembership (event_id_from_peer who sequence) change now.

Definition le_presence (now : Z) (peer : I) (status : PresenceStatus) : LogEvent I := LePresence peer status now.

Definition le_custom (now : Z) (sender : I) (sequence : Z) (event_type : string) (payload : list byte) : LogEvent I :=
  LeCustom (event_id_from_peer sender sequence) sender event_type payload now.
End Constructors.

(** ** The store *)

Section EventStore.
Context {I : Type} `{Countable I}.

Record EventStore : Type := {
  es_events : list (LogEvent I);
  es_sequence : Z;
  es_pending : gmap I (list nat);
  es_delivered : gmap I EventId;
  es_members : gset I;
  local_peer_hash : Z;
}.

Definition es_new : EventStore :=
  {| es_events := []; es_sequence := 0; es_pending := ∅; es_delivered := ∅; es_members := ∅; local_peer_hash := 0 |}.

Definition es_with_members_and_hash (members : gset I) (h : Z) : EventStore :=
  {| es_events := []; es_sequence := 0; es_pending := gset_to_gmap [] members; es_delivered := ∅;
     es_members := members; local_peer_hash := h |}.

Definition es_with_members (members : gset I) : EventStore := es_with_members_and_hash members 0.

Definition es_with_peer_hash (h : Z) : EventStore := es_with_members_and_hash ∅ h.

Definition upd_es (p : gmap I (list nat)) (d : gmap I EventId) (m : gset I) (s : EventStore) : EventStore :=
  {| es_events := es_events s; es_sequence := es_sequence s; es_pending := p; es_delivered := d; es_members := m;
     local_peer_hash := local_peer_hash s |}.

(** [(0..self.events.len()).collect()]. *)
Definition all_indices (s : EventStore) : list nat := seq 0 (length (es_events s)).

Definition es_set_members (members : gset I) (s : EventStore) : EventStore :=
  let pending := es_pending s ∪ gset_to_gmap (all_indices s) (members ∖ dom (es_pending s)) in
  upd_es (filter (λ x, x.1 ∈ members) pending) (filter (λ x, x.1 ∈ members) (es_delivered s)) members s.

Definition es_add_member (p : I) (s : EventStore) : EventStore :=
  if bool_decide (p ∈ es_members s) then s
  else upd_es (<[p := all_indices s]> (es_pending s)) (es_delivered s) ({[ p ]} ∪ es_members s) s.

Definition es_remove_member (p : I) (s : EventStore) : EventStore :=
  upd_es (delete p (es_pending s)) (delete p (es_delivered s)) (es_members s ∖ {[ p ]}) s.

(** One member of the loop of [append]. *)
Definition push_pending (sender : option I) (idx : nat) (pending : gmap I (list nat)) (member : I)
    : gmap I (list nat) :=
  if bool_decide (sender = Some member) then pending
  else <[member := default [] (pending !! member) ++ [idx]]> pending.

Definition es_append (e : LogEvent I) (s : EventStore) : EventStore * EventId :=
  let idx := length (es_events s) in
  let sequence := match le_event_id e with Some _ => es_sequence s | None => wrap_u64 (es_sequence s + 1) end in
  let id := match le_event_id e with
            | Some id => id
            | None => {| sender_hash := local_peer_hash s; ev_sequence := sequence |}
            end in
  ({| es_events := es_events s ++ [e]; es_sequence := sequence;
      es_pending := foldl (push_pending (le_sender e) idx) (es_pending s) (elements (es_members s));
      es_delivered := es_delivered s; es_members := es_members s; local_peer_hash := local_peer_hash s |}, id).

Definition es_pending_for (p : I) (s : EventStore) : list (LogEvent I) :=
  match es_pending s !! p with Some indices => omap (λ i, es_events s !! i) indices | None => [] end.

Definition es_pending_count (p : I) (s : EventStore) : nat :=
  match es_pending s !! p with Some indices => length indices | None => 0 end.

Definition es_has_pending (s : EventStore) : bool :=
  existsb (λ x, negb (bool_decide (x.2 = []))) (map_to_list (es_pending s)).

(** Whether an event stays pending after a confirmation. *)
Definition beyond (up_to : EventId) (e : LogEvent I) : bool :=
  match le_event_id e with Some id => ev_sequence up_to <? ev_sequence id | None => true end.

Definition es_mark_delivered (p : I) (up_to : EventId) (s : EventStore) : EventStore :=
  let keep idx := match es_events s !! idx with Some e => beyond up_to e | None => true end in
  upd_es (alter (retain keep) p (es_pending s)) (<[p := up_to]> (es_delivered s)) (es_members s) s.

Definition max_sequence (l : list (LogEvent I)) : option Z :=
  foldr (λ e acc, match le_event_id e with
                  | Some id => Some (match acc with Some m => Z.max (ev_sequence id) m | None => ev_sequence id end)
                  | None => acc
                  end) None l.

Definition es_mark_all_delivered (p : I) (s : EventStore) : EventStore :=
  upd_es (alter (λ _, []) p (es_pending s))
    (match max_sequence (es_events s) with
     | Some m => <[p := {| sender_hash := 0; ev_sequence := m |}]> (es_delivered s)
     | None => es_delivered s
     end) (es_members s) s.

Definition min_delivered (s : EventStore) : option Z :=
  foldr (λ p acc, match es_delivered s !! p with
                  | Some id => Some (match acc with Some m => Z.min (ev_sequence id) m | None => ev_sequence id end)
                  | None => acc
                  end) None (elements (es_members s)).

(** [take_while(..).count()]. *)
Fixpoint prunable (min_seq : Z) (l : list (LogEvent I)) : nat :=
  match l with
  | [] => 0
  | e :: l => match le_event_id e with
              | Some id => if ev_sequence id <=? min_seq then S (prunable min_seq l) else 0
              | None => 0
              end
  end.

Definition shift_indices (n : nat) (l : list nat) : list nat :=
  (λ i, i - n)%nat <$> retain (λ i, (n <=? i)%nat) l.

Definition es_prune_delivered (s : EventStore) : EventStore * nat :=
  if bool_decide (es_members s = ∅) || bool_decide (es_events s = []) then (s, 0%nat)
  else
    match min_delivered s with
    | None => (s, 0%nat)
    | Some min_seq =>
        let n := prunable min_seq (es_events s) in
        if (n =? 0)%nat then (s, 0%nat)
        else
          let events := drop n (es_events s) in
          ({| es_events := events; es_sequence := es_sequence s;
              es_pending := shift_indices n <$> es_pending s; es_delivered := es_delivered s;
              es_members := es_members s; local_peer_hash := local_peer_hash s |},
           (length (es_events s) - length events)%nat)
    end.

Definition es_since (sequence : Z) (s : EventStore) : list (LogEvent I) :=
  retain (λ e, match le_event_id e with Some id => sequence <? ev_sequence id | None => true end) (es_events s).

Definition es_last_delivered (p : I) (s : EventStore) : option EventId := es_delivered s !! p.

Definition es_set_peer_hash (h : Z) (s : EventStore) : EventStore :=
  {| es_events := es_events s; es_sequence := es_sequence s; es_pending := es_pending s;
     es_delivered := es_delivered s; es_members := es_members s; local_peer_hash := h |}.

Definition es_pending_for_owned (p : I) (s : EventStore) : list (LogEvent I) := es_pending_for p s.
Definition es_since_owned (sequence : Z) (s : EventStore) : list (LogEvent I) := es_since sequence s.

(** ** The entries indices stand for *)

Definition fetch {A} (events : list A) (indices : list nat) : list A :=
  omap (λ i, events !! i) indices.
#[local] Arguments fetch : simpl never.

Definition in_log (n : nat) (indices : list nat) : Prop :=
  StronglySorted lt indices ∧ Forall (λ i, (i < n)%nat) indices.

Record es_ok (s : EventStore) : Prop := {
  ok_dom : dom (es_pending s) = es_members s;
  ok_indices : map_Forall (λ _, in_log (length (es_events s))) (es_pending s);
}.

Lemma fetch_app {A} (events : list A) i j : fetch events (i ++ j) = fetch events i ++ fetch events j.
Proof. apply omap_app. Qed.

Lemma fetch_grow {A} (events : list A) e indices :
  Forall (λ i, (i < length events)%nat) indices → fetch (events ++ [e]) indices = fetch events indices.
Proof.
  induction 1 as [|i l Hi _ IH]; [done|]. unfold fetch in *. cbn [omap list_omap].
  rewrite lookup_app_l by done. by rewrite IH.
Qed.

Lemma fetch_all {A} (events : list A) : fetch events (seq 0 (length events)) = events.
Proof.
  induction events as [|e events IH] using rev_ind; [done|].
  rewrite length_app, seq_app, fetch_app, fetch_grow by (apply Forall_seq; lia).
  rewrite IH. f_equal. unfold fetch. simpl. by rewrite list_lookup_middle.
Qed.

Lemma fetch_retain {A} (events : list A) f indices :
  fetch events (retain (λ i, match events !! i with Some e => f e | None => true end) indices)
  = retain f (fetch events indices).
Proof.
  induction indices as [|i l IH]; [done|]. unfold fetch in *. cbn [omap list_omap retain].
  destruct (events !! i) as [e|] eqn:He; cbn [retain].
  - destruct (f e); cbn [omap list_omap]; rewrite ?He, IH; done.
  - cbn [omap list_omap]. by rewrite He, IH.
Qed.

Lemma fetch_length {A} (events : list A) indices :
  Forall (λ i, (i < length events)%nat) indices → length (fetch events indices) = length indices.
Proof.
  induction 1 as [|i l Hi _ IH]; [done|]. unfold fetch in *. cbn [omap list_omap].
  destruct (lookup_lt_is_Some_2 _ _ Hi) as [e ->]. simpl. by rewrite IH.
Qed.

Lemma fetch_shift {A} n (events : list A) indices : fetch (drop n events) (shift_indices n indices) = fetch events (retain (λ i, (n <=? i)%nat) indices).
Proof.
  unfold shift_indices. induction indices as [|i l IH]; [done|]. cbn [retain].
  destruct (Nat.leb_spec n i); [|done]. unfold fetch in *. rewrite fmap_cons. cbn [omap list_omap].
  rewrite lookup_drop. replace (n + (i - n))%nat with i by lia. by rewrite IH.
Qed.

(** The indices a shift drops are the first of the list. *)
Lemma retain_sorted_suffix n indices :
  StronglySorted lt indices → ∃ k, retain (λ i, (n <=? i)%nat) indices = drop k indices.
Proof.
  induction 1 as [|i l Hl [k IH] Hi]; [by exists 0%nat|]. cbn [retain].
  destruct (Nat.leb_spec n i).
  - exists 0%nat. cbn. f_equal. apply retain_all. intros x Hx. rewrite Forall_forall in Hi.
    apply Nat.leb_le. specialize (Hi _ Hx). lia.
  - by exists (S k).
Qed.

Lemma in_log_grow n indices : in_log n indices → in_log (S n) indices.
Proof. intros [? Hl]. split; [done|]. eapply Forall_impl; [done|]. cbn. lia. Qed.

Lemma in_log_snoc n indices : in_log n indices → in_log (S n) (indices ++ [n]).
Proof.
  intros Hok. pose proof (in_log_grow _ _ Hok) as [_ Hb]. destruct Hok as [Hs Hl]. split.
  - apply StronglySorted_app_2; [|done|repeat constructor].
    intros x y Hx Hy%list_elem_of_singleton. subst. rewrite Forall_forall in Hl. by apply Hl.
  - apply Forall_app. split; [done|]. repeat constructor.
Qed.

Lemma in_log_retain n f indices : in_log n indices → in_log n (retain f indices).
Proof.
  intros [? Hl]. split; [by apply StronglySorted_retain|].
  rewrite Forall_forall in *. intros x [Hx _]%elem_of_retain. by apply Hl.
Qed.

Lemma in_log_all n : in_log n (seq 0 n).
Proof.
  split; [|apply Forall_seq; lia]. induction n as [|n IH]; [constructor|].
  rewrite seq_S. apply StronglySorted_app_2; [|done|repeat constructor].
  intros x y [? ?]%elem_of_seq Hy%list_elem_of_singleton. subst. lia.
Qed.

Lemma in_log_shift n m indices : in_log n indices → in_log (n - m) (shift_indices m indices).
Proof.
  intros [Hs Hl]. unfold shift_indices. induction Hs as [|i l Hs IH Hi]; [repeat constructor|].
  apply Forall_cons in Hl as [Hin Hl]. destruct (IH Hl) as [Hs' Hl']. cbn [retain].
  destruct (Nat.leb_spec m i); [|by split]. rewrite fmap_cons. split; [|constructor; [lia|done]].
  constructor; [done|]. rewrite Forall_forall in *. intros y (x & -> & [Hx Hm]%elem_of_retain)%list_elem_of_fmap.
  specialize (Hi _ Hx). apply Nat.leb_le in Hm. lia.
Qed.

(** ** The operations keep the invariant *)

Lemma push_pending_fold sender idx pending l p :
  NoDup l →
  foldl (push_pending sender idx) pending l !! p
  = if decide (p ∈ l ∧ sender ≠ Some p) then Some (default [] (pending !! p) ++ [idx]) else pending !! p.
Proof.
  intros Hnd. revert pending. induction Hnd as [|m l Hm _ IH]; intros pending; cbn [foldl].
  - rewrite decide_False by (intros [?%not_elem_of_nil _]; done). done.
  - rewrite IH. unfold push_pending. destruct (decide (p = m)) as [->|Hne].
    + rewrite decide_False by tauto. case_bool_decide.
      * by rewrite decide_False by tauto.
      * rewrite lookup_insert_eq, decide_True by (split; [left|done]). done.
    + assert ((if bool_decide (sender = Some m) then pending
               else <[m := default [] (pending !! m) ++ [idx]]> pending) !! p = pending !! p) as ->.
      { case_bool_decide; [done|]. by rewrite lookup_insert_ne by done. }
      apply decide_ext. rewrite elem_of_cons. intuition.
Qed.

Lemma append_lookup e s p :
  es_ok s →
  es_pending (es_append e s).1 !! p
  = (λ l, if decide (le_sender e = Some p) then l else l ++ [length (es_events s)]) <$> es_pending s !! p.
Proof.
  intros [Hdom _]. cbn. rewrite push_pending_fold by apply NoDup_elements.
  assert (p ∈ elements (es_members s) ↔ is_Some (es_pending s !! p)) as Hin.
  { by rewrite elem_of_elements, <- Hdom, elem_of_dom. }
  destruct (es_pending s !! p) as [l|]; cbn.
  - destruct (decide (le_sender e = Some p)).
    + by rewrite decide_False by tauto.
    + rewrite decide_True; [done|]. split; [by apply Hin|done].
  - rewrite decide_False; [done|]. by intros [[??]%Hin _].
Qed.

Lemma set_members_lookup ms s p :
  es_pending (es_set_members ms s) !! p
  = if decide (p ∈ ms) then Some (default (all_indices s) (es_pending s !! p)) else None.
Proof.
  cbn. destruct (decide (p ∈ ms)) as [Hp|Hp].
  - apply map_lookup_filter_Some. split; [|done]. destruct (es_pending s !! p) as [l|] eqn:Hl; cbn.
    + by apply lookup_union_Some_l.
    + rewrite lookup_union_r by done. apply lookup_gset_to_gmap_Some. split; [|done].
      apply elem_of_difference. split; [done|]. by apply not_elem_of_dom.
  - apply map_lookup_filter_None. right. by intros ?? ?.
Qed.

Lemma dom_alter_eq {A} (f : A → A) (k : I) (m : gmap I A) : dom (alter f k m) = dom m.
Proof. apply dom_alter_L. Qed.

Lemma es_ok_alter f p d s :
  (∀ l, in_log (length (es_events s)) l → in_log (length (es_events s)) (f l)) →
  es_ok s → es_ok (upd_es (alter f p (es_pending s)) d (es_members s) s).
Proof.
  intros Hf [Hdom Hall]. split; cbn; [by rewrite dom_alter_eq|].
  intros q l. destruct (decide (q = p)) as [->|Hne].
  - rewrite lookup_alter_eq. intros (l' & Hl' & ->)%fmap_Some. apply Hf. by apply (Hall p).
  - rewrite lookup_alter_ne by done. apply Hall.
Qed.

Lemma es_ok_new ms h : es_ok (es_with_members_and_hash ms h).
Proof.
  split; cbn; [apply dom_gset_to_gmap|]. intros p l [_ <-]%lookup_gset_to_gmap_Some. repeat constructor.
Qed.

Lemma es_ok_set_members ms s : es_ok s → es_ok (es_set_members ms s).
Proof.
  intros [Hdom Hall]. split.
  - apply set_eq. intros p. rewrite elem_of_dom, set_members_lookup. change (es_members _) with ms.
    destruct (decide (p ∈ ms)); split; naive_solver.
  - intros p l. rewrite set_members_lookup. destruct (decide (p ∈ ms)); [|done]. intros [= <-].
    change (es_events _) with (es_events s). destruct (es_pending s !! p) eqn:Hl; cbn; [by apply (Hall p)|].
    apply in_log_all.
Qed.

Lemma es_ok_add_member p s : es_ok s → es_ok (es_add_member p s).
Proof.
  intros Hok. unfold es_add_member. case_bool_decide; [done|]. destruct Hok as [Hdom Hall].
  split; cbn; [by rewrite dom_insert_L, Hdom|]. apply map_Forall_insert_2; [apply in_log_all|done].
Qed.

Lemma es_ok_remove_member p s : es_ok s → es_ok (es_remove_member p s).
Proof.
  intros [Hdom Hall]. split; cbn; [by rewrite dom_delete_L, Hdom|]. by apply map_Forall_delete.
Qed.

Lemma es_ok_append e s : es_ok s → es_ok (es_append e s).1.
Proof.
  intros Hok. split.
  - apply set_eq. intros p. rewrite elem_of_dom, append_lookup, fmap_is_Some, <- elem_of_dom by done.
    by rewrite (ok_dom _ Hok).
  - intros p l. rewrite append_lookup by done. intros (l' & Hl' & ->)%fmap_Some.
    apply (ok_indices _ Hok) in Hl'. cbn. rewrite length_app, Nat.add_1_r.
    destruct (decide _); [by apply in_log_grow|by apply in_log_snoc].
Qed.

Lemma es_ok_mark_delivered p up_to s : es_ok s → es_ok (es_mark_delivered p up_to s).
Proof. apply es_ok_alter. intros l. apply in_log_retain. Qed.

Lemma es_ok_mark_all_delivered p s : es_ok s → es_ok (es_mark_all_delivered p s).
Proof. apply es_ok_alter. repeat constructor. Qed.

Lemma es_ok_prune s : es_ok s → es_ok (es_prune_delivered s).1.
Proof.
  intros Hok. unfold es_prune_delivered. destruct (_ || _); [done|]. destruct (min_delivered s) as [m|]; [|done].
  destruct (_ =? _)%nat; [done|]. destruct Hok as [Hdom Hall]. split; cbn; [by rewrite dom_fmap_L|].
  intros p l. rewrite lookup_fmap. intros (l' & Hl' & ->)%fmap_Some. rewrite length_drop.
  apply in_log_shift. by apply (Hall p).
Qed.

(** ** Refinement of a table of outboxes *)

(** The specification: every event gets the next position; there is a log of
    them and, for each member, the list of those it waits for. *)
Definition Entry : Type := nat * LogEvent I.

Record Outboxes : Type := {
  ob_next : nat;
  ob_log : list Entry;
  ob_boxes : gmap I (list Entry);
  ob_confirmed : gmap I EventId;
}.

Definition ob_start (members : gset I) : Outboxes :=
  {| ob_next := 0; ob_log := []; ob_boxes := gset_to_gmap [] members; ob_confirmed := ∅ |}.

Inductive es_op : Type :=
| OpSetMembers (members : gset I)
| OpAddMember (p : I)
| OpRemoveMember (p : I)
| OpAppend (e : LogEvent I)
| OpMarkDelivered (p : I) (up_to : EventId)
| OpMarkAllDelivered (p : I)
| OpSetPeerHash (h : Z)
| OpPrune.

Definition run_es_op (s : EventStore) (op : es_op) : EventStore :=
  match op with
  | OpSetMembers ms => es_set_members ms s
  | OpAddMember p => es_add_member p s
  | OpRemoveMember p => es_remove_member p s
  | OpAppend e => (es_append e s).1
  | OpMarkDelivered p up_to => es_mark_delivered p up_to s
  | OpMarkAllDelivered p => es_mark_all_delivered p s
  | OpSetPeerHash h => es_set_peer_hash h s
  | OpPrune => (es_prune_delivered s).1
  end.

Definition ob_with (boxes : gmap I (list Entry)) (confirmed : gmap I EventId) (o : Outboxes) : Outboxes :=
  {| ob_next := ob_next o; ob_log := ob_log o; ob_boxes := boxes; ob_confirmed := confirmed |}.

(** The lowest confirmation of a member that confirmed anything. *)
Definition ob_lowest (o : Outboxes) : option Z :=
  foldr (λ p acc, match ob_confirmed o !! p with
                  | Some id => Some (match acc with Some m => Z.min (ev_sequence id) m | None => ev_sequence id end)
                  | None => acc
                  end) None (elements (dom (ob_boxes o))).

(** The oldest entries, as long as they are numbered up to [m]. *)
Fixpoint oldest (m : Z) (log : list Entry) : list Entry :=
  match log with
  | [] => []
  | x :: log => match le_event_id x.2 with
                | Some id => if ev_sequence id <=? m then x :: oldest m log else []
                | None => []
                end
  end.

Definition ob_forget (gone : list Entry) (o : Outboxes) : Outboxes :=
  {| ob_next := ob_next o; ob_log := drop (length gone) (ob_log o);
     ob_boxes := retain (λ x, bool_decide (x.1 ∉ gone.*1)) <$> ob_boxes o; ob_confirmed := ob_confirmed o |}.

Definition run_ob_op (o : Outboxes) (op : es_op) : Outboxes :=
  match op with
  | OpSetMembers ms =>
      ob_with (map_imap (λ p _, Some (default (ob_log o) (ob_boxes o !! p))) (gset_to_gmap () ms))
        (filter (λ x, x.1 ∈ ms) (ob_confirmed o)) o
  | OpAddMember p => ob_with (<[p := default (ob_log o) (ob_boxes o !! p)]> (ob_boxes o)) (ob_confirmed o) o
  | OpRemoveMember p => ob_with (delete p (ob_boxes o)) (delete p (ob_confirmed o)) o
  | OpAppend e =>
      let x := (ob_next o, e) in
      {| ob_next := S (ob_next o); ob_log := ob_log o ++ [x];
         ob_boxes := map_imap (λ p box, Some (if decide (le_sender e = Some p) then box else box ++ [x])) (ob_boxes o);
         ob_confirmed := ob_confirmed o |}
  | OpMarkDelivered p up_to =>
      ob_with (alter (retain (λ x, beyond up_to x.2)) p (ob_boxes o)) (<[p := up_to]> (ob_confirmed o)) o
  | OpMarkAllDelivered p =>
      ob_with (alter (λ _, []) p (ob_boxes o))
        (match max_sequence (ob_log o).*2 with
         | Some m => <[p := {| sender_hash := 0; ev_sequence := m |}]> (ob_confirmed o)
         | None => ob_confirmed o
         end) o
  | OpSetPeerHash _ => o
  | OpPrune => match ob_lowest o with Some m => ob_forget (oldest m (ob_log o)) o | None => o end
  end.

(** Every member has confirmed something, and nothing it still waits for is at
    or below what it confirmed. *)
Definition acknowledged (o : Outboxes) : Prop :=
  map_Forall (λ p box, ∃ id, ob_confirmed o !! p = Some id ∧ Forall (λ x, beyond id x.2 = true) box) (ob_boxes o).

(** *** The table a store stands for

    [base] is how many events were pruned. *)

Definition tagged (base : nat) (events : list (LogEvent I)) : list Entry := imap (λ i e, ((base + i)%nat, e)) events.

Definition abs_store (base : nat) (s : EventStore) : Outboxes :=
  {| ob_next := base + length (es_events s); ob_log := tagged base (es_events s);
     ob_boxes := fetch (tagged base (es_events s)) <$> es_pending s; ob_confirmed := es_delivered s |}.

Lemma tagged_lookup b events i : tagged b events !! i = pair (b + i)%nat <$> events !! i.
Proof. unfold tagged. by rewrite list_lookup_imap. Qed.

Lemma tagged_length b events : length (tagged b events) = length events.
Proof. apply length_imap. Qed.

Lemma tagged_snd b events : (tagged b events).*2 = events.
Proof. apply list_eq. intros i. rewrite list_lookup_fmap, tagged_lookup. by destruct (events !! i). Qed.

Lemma tagged_fst b events : (tagged b events).*1 = seq b (length events).
Proof.
  apply list_eq. intros i. rewrite list_lookup_fmap, tagged_lookup. destruct (events !! i) as [e|] eqn:He; cbn.
  - symmetry. apply lookup_seq_lt. by apply lookup_lt_Some in He.
  - symmetry. apply lookup_seq_ge. by apply lookup_ge_None in He.
Qed.

Lemma tagged_snoc b events e : tagged b (events ++ [e]) = tagged b events ++ [((b + length events)%nat, e)].
Proof. unfold tagged. rewrite imap_app. cbn. by rewrite Nat.add_0_r. Qed.

Lemma tagged_drop b n events : drop n (tagged b events) = tagged (b + n) (drop n events).
Proof. apply list_eq. intros i. rewrite lookup_drop, !tagged_lookup, lookup_drop. by rewrite Nat.add_assoc. Qed.

Lemma tagged_take b n events : take n (tagged b events) = tagged b (take n events).
Proof.
  apply list_eq. intros i. rewrite tagged_lookup. destruct (decide (i < n)%nat).
  - by rewrite !lookup_take_lt, tagged_lookup by done.
  - by rewrite !lookup_take_ge by lia.
Qed.

Lemma fetch_fmap {A B} (f : A → B) l indices : f <$> fetch l indices = fetch (f <$> l) indices.
Proof.
  induction indices as [|i indices IH]; [done|]. unfold fetch in *. cbn [omap list_omap].
  rewrite list_lookup_fmap. destruct (l !! i); cbn; [by f_equal|done].
Qed.

Lemma fetch_tagged b events indices : (fetch (tagged b events) indices).*2 = fetch events indices.
Proof. by rewrite fetch_fmap, tagged_snd. Qed.

(** *** The operations on the two sides agree *)

Lemma abs_set_members b ms s : run_ob_op (abs_store b s) (OpSetMembers ms) = abs_store b (es_set_members ms s).
Proof.
  unfold abs_store. cbn. unfold ob_with. f_equal. apply map_eq. intros p.
  rewrite map_lookup_imap, !lookup_fmap, lookup_gset_to_gmap.
  pose proof (set_members_lookup ms s p) as Hp. cbn in Hp. rewrite Hp. destruct (decide (p ∈ ms)).
  - rewrite option_guard_True by done. cbn. destruct (es_pending s !! p); cbn; [done|].
    unfold all_indices. by rewrite <- (tagged_length b), fetch_all.
  - by rewrite option_guard_False by done.
Qed.

Lemma abs_add_member b p s : es_ok s → run_ob_op (abs_store b s) (OpAddMember p) = abs_store b (es_add_member p s).
Proof.
  intros [Hdom _]. unfold es_add_member. case_bool_decide as Hp; rewrite <- Hdom in Hp; unfold abs_store; cbn; unfold ob_with; cbn; f_equal.
  - apply elem_of_dom in Hp as [l Hl]. apply insert_id. by rewrite lookup_fmap, Hl.
  - apply not_elem_of_dom in Hp. rewrite lookup_fmap, Hp. cbn. rewrite fmap_insert. f_equal.
    unfold all_indices. by rewrite <- (tagged_length b), fetch_all.
Qed.

Lemma abs_append b e s : es_ok s → run_ob_op (abs_store b s) (OpAppend e) = abs_store b (es_append e s).1.
Proof.
  intros Hok. unfold abs_store. cbn [run_ob_op ob_next ob_log ob_boxes ob_confirmed].
  change (es_events (es_append e s).1) with (es_events s ++ [e]). change (es_delivered (es_append e s).1) with (es_delivered s).
  rewrite tagged_snoc, length_app. f_equal; [cbn; lia|]. apply map_eq. intros p.
  rewrite map_lookup_imap, !lookup_fmap, append_lookup by done.
  destruct (es_pending s !! p) as [l|] eqn:Hl; cbn; [|done]. f_equal.
  apply (ok_indices _ Hok) in Hl as [_ Hb]. rewrite <- (tagged_length b) in Hb |- *.
  destruct (decide _); [by rewrite fetch_grow|].
  rewrite fetch_app, fetch_grow by done. f_equal. unfold fetch. cbn. by rewrite list_lookup_middle.
Qed.

Lemma abs_alter b f g p d s :
  (∀ l, fetch (tagged b (es_events s)) (f l) = g (fetch (tagged b (es_events s)) l)) →
  ob_with (alter g p (ob_boxes (abs_store b s))) d (abs_store b s) = abs_store b (upd_es (alter f p (es_pending s)) d (es_members s) s).
Proof.
  intros Hfg. unfold abs_store, ob_with. cbn. f_equal. apply map_eq. intros q. rewrite lookup_fmap.
  destruct (decide (q = p)) as [->|Hne].
  - rewrite !lookup_alter_eq, lookup_fmap. destruct (es_pending s !! p); cbn; [by rewrite Hfg|done].
  - by rewrite !lookup_alter_ne, lookup_fmap by done.
Qed.

Lemma abs_mark_delivered b p up_to s :
  run_ob_op (abs_store b s) (OpMarkDelivered p up_to) = abs_store b (es_mark_delivered p up_to s).
Proof.
  apply abs_alter. intros l. rewrite <- fetch_retain. f_equal. apply retain_ext. intros i _.
  rewrite tagged_lookup. by destruct (es_events s !! i).
Qed.

Lemma abs_mark_all b p s : run_ob_op (abs_store b s) (OpMarkAllDelivered p) = abs_store b (es_mark_all_delivered p s).
Proof.
  unfold run_ob_op. cbn [ob_log abs_store ob_confirmed]. rewrite tagged_snd. by apply abs_alter.
Qed.

(** *** Pruning *)

Lemma oldest_take b m events : oldest m (tagged b events) = take (prunable m events) (tagged b events).
Proof.
  rewrite tagged_take. revert b. induction events as [|e l IH]; intros b; [done|]. unfold tagged in *. cbn.
  destruct (le_event_id e) as [id|]; [|done]. destruct (ev_sequence id <=? m); [|done]. cbn. f_equal.
  assert (Hshift : ∀ l' : list (LogEvent I), imap ((λ i e, ((b + i)%nat, e)) ∘ S) l' = imap (λ i e, ((S b + i)%nat, e)) l').
  { intros l'. apply imap_ext. intros i x _. cbn. f_equal. lia. }
  rewrite !Hshift. apply IH.
Qed.

Lemma prunable_length m (events : list (LogEvent I)) : (prunable m events <= length events)%nat.
Proof. induction events as [|e l IH]; cbn; [lia|]. repeat case_match; lia. Qed.

Lemma forget_nothing o : ob_forget [] o = o.
Proof.
  destruct o as [n log boxes c]. unfold ob_forget. cbn. rewrite drop_0. f_equal.
  rewrite <- (map_fmap_id boxes) at 2. apply map_fmap_ext. intros p box _. apply retain_all. intros x _.
  apply bool_decide_eq_true. by intros ?%not_elem_of_nil.
Qed.

(** The indices that are shifted are those of the entries that stay. *)
Lemma fetch_stay b n events indices : Forall (λ i, (i < length events)%nat) indices →
  retain (λ x, bool_decide (x.1 ∉ (take n (tagged b events)).*1)) (fetch (tagged b events) indices)
  = fetch (tagged (b + n) (drop n events)) (shift_indices n indices).
Proof.
  intros Hin. rewrite <- tagged_drop, fetch_shift, <- fetch_retain. f_equal. apply retain_ext. intros i Hi.
  rewrite Forall_forall in Hin. destruct (lookup_lt_is_Some_2 _ _ (Hin i Hi)) as [e He]. rewrite tagged_lookup, He. cbn.
  apply Bool.eq_iff_eq_true. rewrite bool_decide_eq_true, Nat.leb_le, tagged_take, tagged_fst, elem_of_seq, length_take.
  specialize (Hin i Hi). lia.
Qed.

Lemma abs_prune b s : es_ok s → ∃ b', run_ob_op (abs_store b s) OpPrune = abs_store b' (es_prune_delivered s).1 ∧
  length (ob_log (abs_store b s)) = ((es_prune_delivered s).2 + length (ob_log (abs_store b' (es_prune_delivered s).1)))%nat.
Proof.
  intros Hok. cbn [run_ob_op]. assert (ob_lowest (abs_store b s) = min_delivered s) as ->.
  { unfold ob_lowest, min_delivered. cbn. by rewrite dom_fmap_L, (ok_dom _ Hok). }
  unfold es_prune_delivered. destruct (decide (es_members s = ∅)) as [Hm|Hm].
  { rewrite bool_decide_true by done. cbn. exists b. split; [|done]. unfold min_delivered. by rewrite Hm, elements_empty. }
  rewrite (bool_decide_false (es_members s = ∅)) by done. cbn [orb].
  destruct (min_delivered s) as [m|]; [|exists b; by case_bool_decide].
  replace (ob_log (abs_store b s)) with (tagged b (es_events s)) by done. rewrite oldest_take.
  case_bool_decide as He; [|destruct (Nat.eqb_spec (prunable m (es_events s)) 0) as [Hz|Hz]].
  - exists b. split; [|done]. rewrite He. apply forget_nothing.
  - exists b. split; [|done]. rewrite Hz. apply forget_nothing.
  - set (n := prunable m (es_events s)) in *. pose proof (prunable_length m (es_events s)) as Hn. fold n in Hn.
    exists (b + n)%nat. unfold ob_forget, abs_store. cbn -[tagged]. split; [|rewrite !tagged_length, !length_drop; lia].
    rewrite length_take, tagged_length, Nat.min_l by done. f_equal.
    + rewrite length_drop. lia.
    + apply tagged_drop.
    + rewrite <- !map_fmap_compose. apply map_fmap_ext. intros p l Hl. cbn. apply fetch_stay.
      by apply (ok_indices _ Hok) in Hl as [_ ?].
Qed.

Lemma run_es_ok s op : es_ok s → es_ok (run_es_op s op).
Proof.
  destruct op; eauto using es_ok_set_members, es_ok_add_member, es_ok_remove_member, es_ok_append,
    es_ok_mark_delivered, es_ok_mark_all_delivered, es_ok_prune.
  intros [??]. by split.
Qed.

Lemma run_op_refines b s op : es_ok s → ∃ b', run_ob_op (abs_store b s) op = abs_store b' (run_es_op s op).
Proof.
  intros Hok. destruct op; [exists b..|].
  - apply abs_set_members.
  - by apply abs_add_member.
  - cbn. unfold abs_store, ob_with. cbn. by rewrite fmap_delete.
  - by apply abs_append.
  - apply abs_mark_delivered.
  - apply abs_mark_all.
  - done.
  - destruct (abs_prune b s Hok) as (b' & ? & _). by exists b'.
Qed.

Lemma run_ops_refine ops b s : es_ok s →
  ∃ b', foldl run_ob_op (abs_store b s) ops = abs_store b' (foldl run_es_op s ops) ∧ es_ok (foldl run_es_op s ops).
Proof.
  revert b s. induction ops as [|op ops IH]; intros b s Hok; cbn; [by exists b|].
  destruct (run_op_refines b s op Hok) as [b1 ->]. by apply IH, run_es_ok.
Qed.

Lemma lowest_le o p id m :
  p ∈ dom (ob_boxes o) → ob_confirmed o !! p = Some id → ob_lowest o = Some m → m <= ev_sequence id.
Proof.
  intros Hp%elem_of_elements Hid. unfold ob_lowest. set (f := foldr _ _).
  enough (∃ m', f (elements (dom (ob_boxes o))) = Some m' ∧ m' <= ev_sequence id) by naive_solver.
  induction (elements (dom (ob_boxes o))) as [|q l IH]; [by apply not_elem_of_nil in Hp|]. cbn.
  apply elem_of_cons in Hp as [<-|Hp].
  - rewrite Hid. eexists. split; [done|]. destruct (f l); lia.
  - destruct (IH Hp) as (m' & Hm' & ?). fold f. rewrite Hm'. destruct (ob_confirmed o !! q); eexists; (split; [done|lia]).
Qed.

Lemma oldest_elem m log x : x ∈ oldest m log → ∃ id, le_event_id x.2 = Some id ∧ ev_sequence id <= m.
Proof.
  induction log as [|y l IH]; cbn; [by intros ?%not_elem_of_nil|]. destruct (le_event_id y.2) as [id|] eqn:Hy; [|by intros ?%not_elem_of_nil].
  destruct (Z.leb_spec (ev_sequence id) m); [|by intros ?%not_elem_of_nil]. intros [->|?]%elem_of_cons; eauto.
Qed.

(** In a table whose entries all have their own position, pruning takes nothing
    that an acknowledging member waits for. *)
Lemma prune_keeps b s : es_ok s → let o := abs_store b s in acknowledged o → ob_boxes (run_ob_op o OpPrune) = ob_boxes o.
Proof.
  intros Hok o Hack. cbn [run_ob_op]. destruct (ob_lowest o) as [m|] eqn:Hm; [|done]. cbn.
  rewrite <- (map_fmap_id (_ <$> es_pending s)) at 2. apply map_fmap_ext. intros p box Hbox. cbn.
  apply retain_all. intros x Hx. apply bool_decide_eq_true. intros (y & Hxy & Hy)%list_elem_of_fmap.
  destruct (Hack p box Hbox) as (id & Hid & Hb). rewrite Forall_forall in Hb.
  pose proof (lowest_le o p id m ltac:(apply elem_of_dom; eauto) Hid Hm).
  destruct (oldest_elem _ _ _ Hy) as (eid & Heid & Hle). specialize (Hb x Hx).
  assert (x = y) as ->; [|unfold beyond in Hb; rewrite Heid in Hb; lia].
  rewrite oldest_take in Hy. apply list_elem_of_lookup in Hy as [j Hj]. apply lookup_take_Some in Hj as [Hj _].
  rewrite lookup_fmap in Hbox. apply fmap_Some in Hbox as (l & _ & ->). unfold fetch in Hx.
  apply list_elem_of_omap in Hx as (i & _ & Hi). rewrite tagged_lookup in Hi, Hj.
  destruct (es_events s !! i) as [e|] eqn:Ei; [|done]. destruct (es_events s !! j) as [e'|] eqn:Ej; [|done].
  injection Hi as <-. injection Hj as <-. cbn in Hxy. assert (i = j) as -> by lia. congruence.
Qed.

(** C24. For any sequence of operations, the store holds the log and the pending
    lists that the same operations leave in a table of outboxes ([run_ob_op]): a new member is
    owed the whole log, an event goes to every member but its sender, a
    confirmation removes exactly the events numbered up to it from the outbox
    of that member, pruning forgets the oldest events up to the lowest
    confirmation and takes those, and only those, out of the outboxes.  Where
    every member has confirmed something and waits for nothing at or below
    what it confirmed, pruning leaves all outboxes as they are. *)
Theorem event_store_refines members h ops :
  let s := foldl run_es_op (es_with_members_and_hash members h) ops in
  let o := foldl run_ob_op (ob_start members) ops in
  es_events s = (ob_log o).*2 ∧
  es_members s = dom (ob_boxes o) ∧
  (∀ p, es_last_delivered p s = ob_confirmed o !! p ∧
        es_pending_for p s = (default [] (ob_boxes o !! p)).*2 ∧
        es_pending_count p s = length (default [] (ob_boxes o !! p))) ∧
  length (ob_log o) = ((es_prune_delivered s).2 + length (ob_log (run_ob_op o OpPrune)))%nat ∧
  (acknowledged o → ob_boxes (run_ob_op o OpPrune) = ob_boxes o).
Proof.
  intros s o. destruct (run_ops_refine ops 0 (es_with_members_and_hash members h)) as (b & Hrun & Hok); [apply es_ok_new|].
  fold s in Hrun, Hok. assert (o = abs_store b s) as ->.
  { unfold o. rewrite <- Hrun. f_equal. unfold ob_start, abs_store. cbn. by rewrite fmap_gset_to_gmap. }
  split; [symmetry; apply tagged_snd|]. split; [cbn; by rewrite dom_fmap_L, (ok_dom _ Hok)|]. split; [|split].
  - intros p. split; [done|]. cbn [abs_store ob_boxes]. rewrite !lookup_fmap. unfold es_pending_for, es_pending_count.
    destruct (es_pending s !! p) as [l|] eqn:Hl; cbn [fmap option_fmap option_map default from_option id]; [|done]. rewrite fetch_tagged. split; [done|].
    symmetry. apply fetch_length. rewrite tagged_length. by apply (ok_indices _ Hok) in Hl as [_ ?].
  - destruct (abs_prune b s Hok) as (b' & -> & Hlen). exact Hlen.
  - by apply prune_keeps.
Qed.
End EventStore.
Arguments EventStore I {_ _}.
Arguments Outboxes I : clear implicits.

(** Why the condition on pruning is there: a member that never confirmed
    anything is skipped when the minimum is taken, and what it waits for is
    dropped with the rest. *)
Example prune_skips_silent_member :
  let s0 := es_with_members {[ 1; 2 ]} in
  let s1 := (es_append (LeMessage {| sender_hash := 9; ev_sequence := 1 |} 9 [] 0) s0).1 in
  let s2 := es_mark_delivered 1 {| sender_hash := 9; ev_sequence := 1 |} s1 in
  es_pending_count 2 s2 = 1%nat ∧ es_pending_count 2 (es_prune_delivered s2).1 = 0%nat.
Proof. vm_compute. done. Qed.

(** A confirmation for one sender also clears the events of the others with a
    lower sequence number. *)
Example confirmation_ignores_sender :
  let s0 := es_with_members {[ 1 ]} in
  let s1 := (es_append (LeMessage {| sender_hash := 8; ev_sequence := 3 |} 8 [] 0) s0).1 in
  let s2 := (es_append (LeMessage {| sender_hash := 9; ev_sequence := 5 |} 9 [] 0) s1).1 in
  es_pending_for 1 (es_mark_delivered 1 {| sender_hash := 9; ev_sequence := 5 |} s2) = [].
Proof. vm_compute. done. Qed.

(** ** Head tracker *)

Definition HeadKey : Type := ArtifactId * arr32.

Record HeadTracker : Type := { tracked_heads : gmap HeadKey (list arr32) }.

Record HeadTrackerEntry : Type := { hte_artifact_id : ArtifactId; hte_peer : arr32; hte_heads : list arr32 }.

Inductive HeadTrackerError : Type := HtSerialization (msg : string) | HtDeserialization (msg : string).

(** [postcard] on the list of entries. *)
Class HeadTrackerPostcard : Type := {
  postcard_heads : list HeadTrackerEntry → Result (list byte) string;
  postcard_parse_heads : list byte → Result (list HeadTrackerEntry) string;
}.

Definition ht_new : HeadTracker := {| tracked_heads := ∅ |}.

Definition ht_update (a : ArtifactId) (p : arr32) (heads : list arr32) (t : HeadTracker) : HeadTracker :=
  {| tracked_heads := <[(a, p) := heads]> (tracked_heads t) |}.

Definition ht_get (a : ArtifactId) (p : arr32) (t : HeadTracker) : list arr32 :=
  default [] (tracked_heads t !! (a, p)).

Definition ht_remove_peer (p : arr32) (t : HeadTracker) : HeadTracker :=
  {| tracked_heads := filter (λ x, x.1.2 ≠ p) (tracked_heads t) |}.

Definition ht_remove_artifact (a : ArtifactId) (t : HeadTracker) : HeadTracker :=
  {| tracked_heads := filter (λ x, x.1.1 ≠ a) (tracked_heads t) |}.

Section HeadTrackerIO.
Context `{HeadTrackerPostcard}.

Definition ht_entry (x : HeadKey * list arr32) : HeadTrackerEntry :=
  {| hte_artifact_id := x.1.1; hte_peer := x.1.2; hte_heads := x.2 |}.

Definition ht_save (t : HeadTracker) : Result (list byte) HeadTrackerError :=
  match postcard_heads (ht_entry <$> map_to_list (tracked_heads t)) with
  | Ok bytes => Ok bytes
  | Err e => Err (HtSerialization e)
  end.

(** Collecting into a map inserts in order: a later entry replaces an earlier. *)
Definition ht_load (bytes : list byte) : Result HeadTracker HeadTrackerError :=
  match postcard_parse_heads bytes with
  | Ok entries =>
      Ok {| tracked_heads := foldl (λ m e, <[(hte_artifact_id e, hte_peer e) := hte_heads e]> m) ∅ entries |}
  | Err e => Err (HtDeserialization e)
  end.

Lemma ht_collect (l : list (HeadKey * list arr32)) (m0 : gmap HeadKey (list arr32)) k :
  NoDup l.*1 →
  foldl (λ m e, <[(hte_artifact_id e, hte_peer e) := hte_heads e]> m) m0 (ht_entry <$> l) !! k
  = match list_to_map (M := gmap HeadKey (list arr32)) l !! k with Some v => Some v | None => m0 !! k end.
Proof.
  revert m0. induction l as [|[[a p] v] l IH]; intros m0; [done|]. rewrite !fmap_cons.
  intros [Hni Hnd]%NoDup_cons. cbn [foldl list_to_map]. rewrite IH by done. cbn.
  destruct (decide (k = (a, p))) as [->|Hne].
  - rewrite (not_elem_of_list_to_map_1 l (a, p)) by done. by rewrite !lookup_insert_eq.
  - by rewrite !lookup_insert_ne by done.
Qed.

Theorem head_tracker_reload t bytes :
  (∀ l b, postcard_heads l = Ok b → postcard_parse_heads b = Ok l) →
  ht_save t = Ok bytes → ht_load bytes = Ok t.
Proof.
  unfold ht_save, ht_load. intros Hpc. destruct (postcard_heads _) as [b|] eqn:Hb; [|done]. intros [= <-].
  rewrite (Hpc _ _ Hb). destruct t as [m]. do 2 f_equal. apply map_eq. intros k. cbn.
  rewrite ht_collect by apply NoDup_fst_map_to_list. rewrite list_to_map_to_list. by destruct (m !! k).
Qed.
End HeadTrackerIO.

Lemma ht_get_update a p heads t b q :
  ht_get b q (ht_update a p heads t) = if decide ((a, p) = (b, q)) then heads else ht_get b q t.
Proof.
  unfold ht_get. cbn. destruct (decide _) as [->|Hne]; [by rewrite lookup_insert_eq|by rewrite lookup_insert_ne].
Qed.

Lemma ht_get_remove_peer p t b q : ht_get b q (ht_remove_peer p t) = if decide (q = p) then [] else ht_get b q t.
Proof.
  unfold ht_get. cbn. rewrite map_lookup_filter.
  destruct (tracked_heads t !! (b, q)), (decide (q = p)); cbn; try done;
    [by rewrite option_guard_False by naive_solver|by rewrite option_guard_True by done].
Qed.

Lemma ht_get_remove_artifact a t b q :
  ht_get b q (ht_remove_artifact a t) = if decide (b = a) then [] else ht_get b q t.
Proof.
  unfold ht_get. cbn. rewrite map_lookup_filter.
  destruct (tracked_heads t !! (b, q)), (decide (b = a)); cbn; try done;
    [by rewrite option_guard_False by naive_solver|by rewrite option_guard_True by done].
Qed.
