(* ===== verification/Delivery.v ===== *)
(** * Delivery tracking and offline delivery of the node

    Models [indras-node/src/delivery_tracker.rs] (the status of each event on
    its way to each peer), the signed messages of
    [indras-node/src/message_handler.rs] and the manager of
    [indras-node/src/dtn_manager.rs], which wraps messages for offline peers in
    bundles, stores them and hands them out when the peer returns.  Each
    [DashMap] operation is one step; a map is iterated in an unspecified order,
    on which no theorem depends.  Clock readings are arguments. *)

From S2P Require Import Prelude Float Crypto Packet Pending Bundle Router Custody Epidemic Expiration Prophet Dtn BlobStore BundleStore.

Local Open Scope string_scope.
Local Open Scope Z_scope.
Local Open Scope list_scope.

(** ** Delivery status *)

Inductive DeliveryPath : Type := PathSync | PathDtn.

Section Tracker.
Context {I : Type} `{PeerIdentity I}.

Inductive DeliveryStatus : Type :=
| DsQueued (since : Z)
| DsSent (at_ : Z)
| DsDtnEnqueued (at_ : Z) (bundle : BundleId)
| DsDtnRelayed (at_ : Z) (relay_peer : I) (bundle : BundleId)
| DsDelivered (at_ : Z) (path : DeliveryPath)
| DsAcked (at_ : Z).

Definition is_terminal (d : DeliveryStatus) : bool :=
  match d with DsDelivered _ _ | DsAcked _ => true | _ => false end.

Definition status_label (d : DeliveryStatus) : string :=
  match d with
  | DsQueued _ => "queued"
  | DsSent _ => "sent"
  | DsDtnEnqueued _ _ => "dtn_enqueued"
  | DsDtnRelayed _ _ _ => "dtn_relayed"
  | DsDelivered _ _ => "delivered"
  | DsAcked _ => "acked"
  end.

(** The interface, the event and the bytes of the destination. *)
Definition DeliveryKey : Type := arr32 * EventId * list byte.

Definition delivery_key (f : arr32) (e : EventId) (dst : I) : DeliveryKey := (f, e, pid_as_bytes dst).

Record DeliveryTracker : Type := {
  statuses : gmap DeliveryKey DeliveryStatus;
  bundle_index : gmap BundleId (list DeliveryKey);
  max_terminal : nat;
}.

Implicit Types (t : DeliveryTracker) (dst : I).

Definition delivery_tracker_new : DeliveryTracker :=
  {| statuses := ∅; bundle_index := ∅; max_terminal := Z.to_nat 10000 |}.

Definition set_statuses (m : gmap DeliveryKey DeliveryStatus) t : DeliveryTracker :=
  {| statuses := m; bundle_index := bundle_index t; max_terminal := max_terminal t |}.

Definition record_queued (inst : Z) (f : arr32) (e : EventId) dst t : DeliveryTracker :=
  set_statuses (<[delivery_key f e dst := DsQueued inst]> (statuses t)) t.

Definition record_sent (inst : Z) (f : arr32) (e : EventId) dst t : DeliveryTracker :=
  set_statuses (<[delivery_key f e dst := DsSent inst]> (statuses t)) t.

Definition record_dtn_handoff (inst : Z) (f : arr32) (e : EventId) dst (b : BundleId) t : DeliveryTracker :=
  let key := delivery_key f e dst in
  {| statuses := <[key := DsDtnEnqueued inst b]> (statuses t);
     bundle_index := <[b := default [] (bundle_index t !! b) ++ [key]]> (bundle_index t);
     max_terminal := max_terminal t |}.

(** Assigning one status to every key of a bundle. *)
Definition assign_all (keys : list DeliveryKey) (d : DeliveryStatus) (m : gmap DeliveryKey DeliveryStatus)
    : gmap DeliveryKey DeliveryStatus := foldl (λ m key, <[key := d]> m) m keys.

Definition record_dtn_relayed (inst : Z) (b : BundleId) (relay_peer : I) t : DeliveryTracker :=
  match bundle_index t !! b with
  | Some keys => set_statuses (assign_all keys (DsDtnRelayed inst relay_peer b) (statuses t)) t
  | None => t
  end.

Definition record_dtn_delivered (inst : Z) (b : BundleId) t : DeliveryTracker :=
  let m := match bundle_index t !! b with
           | Some keys => assign_all keys (DsDelivered inst PathDtn) (statuses t)
           | None => statuses t
           end in
  {| statuses := m; bundle_index := delete b (bundle_index t); max_terminal := max_terminal t |}.

Definition ack_matches (f : arr32) dst (up_to : EventId) (key : DeliveryKey) (d : DeliveryStatus) : bool :=
  bool_decide (key.1.1 = f) && bool_decide (key.2 = pid_as_bytes dst) && event_id_leb key.1.2 up_to
  && negb (is_terminal d).

Definition record_ack (inst : Z) (f : arr32) dst (up_to : EventId) t : DeliveryTracker :=
  set_statuses (map_imap (λ key d, Some (if ack_matches f dst up_to key d then DsAcked inst else d)) (statuses t)) t.

Definition tracker_status (f : arr32) (e : EventId) dst t : option DeliveryStatus :=
  statuses t !! delivery_key f e dst.

Record DeliverySummary : Type := {
  ds_queued : Z; ds_sent : Z; ds_dtn_enqueued : Z; ds_dtn_relayed : Z; ds_delivered : Z; ds_acked : Z;
}.

Definition summary_default : DeliverySummary :=
  {| ds_queued := 0; ds_sent := 0; ds_dtn_enqueued := 0; ds_dtn_relayed := 0; ds_delivered := 0; ds_acked := 0 |}.

(** The counters are [u32]. *)
Definition summary_count (s : DeliverySummary) (d : DeliveryStatus) : DeliverySummary :=
  let bump (here : bool) (n : Z) := if here then wrap_u32 (n + 1) else n in
  {| ds_queued := bump (match d with DsQueued _ => true | _ => false end) (ds_queued s);
     ds_sent := bump (match d with DsSent _ => true | _ => false end) (ds_sent s);
     ds_dtn_enqueued := bump (match d with DsDtnEnqueued _ _ => true | _ => false end) (ds_dtn_enqueued s);
     ds_dtn_relayed := bump (match d with DsDtnRelayed _ _ _ => true | _ => false end) (ds_dtn_relayed s);
     ds_delivered := bump (match d with DsDelivered _ _ => true | _ => false end) (ds_delivered s);
     ds_acked := bump (match d with DsAcked _ => true | _ => false end) (ds_acked s) |}.

Definition interface_summary (f : arr32) t : DeliverySummary :=
  foldl (λ s x, if bool_decide (x.1.1.1 = f) then summary_count s x.2 else s) summary_default
    (map_to_list (statuses t)).

Definition in_flight (s : DeliverySummary) : Z :=
  wrap_u32 (ds_queued s + ds_sent s + ds_dtn_enqueued s + ds_dtn_relayed s).

Definition tracker_pending_for dst t : list (arr32 * EventId * DeliveryStatus) :=
  (λ x : DeliveryKey * DeliveryStatus, (x.1.1, x.2))
    <$> retain (λ x : DeliveryKey * DeliveryStatus, bool_decide (x.1.2 = pid_as_bytes dst) && negb (is_terminal x.2))
          (map_to_list (statuses t)).

Definition completion_time (d : DeliveryStatus) : option Z :=
  match d with DsDelivered at_ _ | DsAcked at_ => Some at_ | _ => None end.

Definition terminals (m : gmap DeliveryKey DeliveryStatus) : list (DeliveryKey * Z) :=
  omap (λ x : DeliveryKey * DeliveryStatus, (λ time, (x.1, time)) <$> completion_time x.2) (map_to_list m).

Definition terminal_count (m : gmap DeliveryKey DeliveryStatus) : nat :=
  length (retain (λ x : DeliveryKey * DeliveryStatus, is_terminal x.2) (map_to_list m)).

Definition tracker_prune t : DeliveryTracker :=
  let n := terminal_count (statuses t) in
  if (n <=? max_terminal t)%nat then t
  else
    let oldest := take (n - max_terminal t) (sort_by (by_key snd) (terminals (statuses t))) in
    set_statuses (foldl (λ m key, delete key m) (statuses t) oldest.*1) t.
End Tracker.
Arguments DeliveryStatus I : clear implicits.
Arguments DeliveryTracker I : clear implicits.

(** ** Signed messages *)

Record NodeEventMessage : Type := {
  nem_interface_id : arr32; nem_ciphertext : list byte; nem_event_id : EventId; nem_nonce : list byte;
}.
Record NodeSyncRequest : Type := { nsq_interface_id : arr32; nsq_state_vector : list byte; nsq_sync_data : list byte }.
Record NodeSyncResponse : Type := { nsp_interface_id : arr32; nsp_sync_data : list byte; nsp_state_vector : list byte }.
Record NodeEventAck : Type := { nea_interface_id : arr32; nea_up_to : EventId }.
Record DtnBundleMessage : Type := { dbm_bundle_bytes : list byte; dbm_prophet_summary : option (list (list byte * f64)) }.
Record DtnCustodyMessage : Type := { dcm_custody_bytes : list byte }.

Inductive NetworkMessage : Type :=
| NmInterfaceEvent (m : NodeEventMessage)
| NmSyncRequest (m : NodeSyncRequest)
| NmSyncResponse (m : NodeSyncResponse)
| NmEventAck (m : NodeEventAck)
| NmDtnBundle (m : DtnBundleMessage)
| NmDtnCustody (m : DtnCustodyMessage).

Record SignedNetworkMessage : Type := {
  snm_version : Z;
  snm_message : NetworkMessage;
  snm_signature : list byte;
  snm_sender_verifying_key : list byte;
}.

Definition SIGNED_MESSAGE_VERSION : Z := 1.

(** [postcard] on the two message types. *)
Class NodePostcard : Type := {
  postcard_network : NetworkMessage → Result (list byte) string;
  postcard_parse_network : list byte → Result NetworkMessage string;
  postcard_signed : SignedNetworkMessage → Result (list byte) string;
  postcard_parse_signed : list byte → Result SignedNetworkMessage string;
}.

Inductive MessageError : Type :=
| MeDeserialization (msg : string)
| MeSerialization (msg : string)
| MeUnknownInterface (id : arr32)
| MeDecryption (msg : string)
| MeAppendFailed (msg : string)
| MeSyncFailed (msg : string)
| MeStorageFailed (msg : string)
| MeSignatureVerificationFailed
| MeInvalidSignature (e : CryptoError)
| MeUnsupportedVersion (got expected : Z)
| MeLegacyModeDisabled.

Section Signed.
Context `{Dilithium, NodePostcard}.

Definition pq_public_from_bytes (bytes : list byte) : Result PQPublicIdentity CryptoError :=
  if negb (length bytes =? public_key_bytes)%nat then Err InvalidKey
  else
    let? verifying_key := r_ok_or (public_key_from_bytes bytes) InvalidKey in
    Ok {| public_verifying_key := verifying_key |}.

Definition sender_identity (m : SignedNetworkMessage) : Result PQPublicIdentity MessageError :=
  match pq_public_from_bytes (snm_sender_verifying_key m) with
  | Ok k => Ok k
  | Err e => Err (MeInvalidSignature e)
  end.

Definition signed_verify (m : SignedNetworkMessage) : Result bool MessageError :=
  if negb (snm_version m =? SIGNED_MESSAGE_VERSION) then
    Err (MeUnsupportedVersion (snm_version m) SIGNED_MESSAGE_VERSION)
  else
    let? key := sender_identity m in
    let? signature := match pq_signature_from_bytes (snm_signature m) with
                      | Ok s => Ok s
                      | Err e => Err (MeInvalidSignature e)
                      end in
    match postcard_network (snm_message m) with
    | Ok bytes => Ok (pq_verify key bytes signature)
    | Err e => Err (MeSerialization e)
    end.

(** The message [sign_and_send] builds. *)
Definition sign_message (i : PQIdentity) (m : NetworkMessage) : Result SignedNetworkMessage MessageError :=
  match postcard_network m with
  | Ok bytes =>
      Ok {| snm_version := SIGNED_MESSAGE_VERSION; snm_message := m;
            snm_signature := pq_signature_bytes (pq_sign i bytes);
            snm_sender_verifying_key := public_key_as_bytes (verifying_key i) |}
  | Err e => Err (MeSerialization e)
  end.

(** A message signed with a key pair whose public key parses back verifies, and
    names its sender. *)
Lemma sign_message_verifies `{!DilithiumLaws} i m s :
  identity_ok i → length (public_key_as_bytes (verifying_key i)) = public_key_bytes →
  public_key_from_bytes (public_key_as_bytes (verifying_key i)) = Some (verifying_key i) →
  sign_message i m = Ok s →
  signed_verify s = Ok true ∧ sender_identity s = Ok (pq_identity_verifying_key i).
Proof.
  intros Hi Hlen Hpk. unfold sign_message. destruct (postcard_network m) as [bytes|] eqn:Hb; [|done]. intros [= <-].
  assert (pq_public_from_bytes (public_key_as_bytes (verifying_key i)) = Ok (pq_identity_verifying_key i)) as Hk.
  { unfold pq_public_from_bytes. by rewrite Hlen, Nat.eqb_refl, Hpk. }
  unfold signed_verify, sender_identity. cbn [snm_version snm_message snm_signature snm_sender_verifying_key].
  pose proof (pq_signature_roundtrip i bytes) as Hs. unfold pq_sign in Hs at 1. cbn [pq_signature_bytes] in Hs.
  rewrite Hk, Hs, Z.eqb_refl. cbn -[pq_verify pq_sign]. rewrite Hb. by rewrite pq_sign_verify.
Qed.
End Signed.

(** ** The manager *)

Section Manager.
Context {I : Type} `{Countable I, DefaultHasher I, BundlePostcard I, Chrono, NodePostcard}.

Record DtnManager : Type := {
  dm_prophet : ProphetState (I := I);
  dm_epidemic : EpidemicRouter;
  dm_custody : CustodyManager I;
  dm_age : AgeManager;
  dm_strategy : StrategySelector;
  dm_config : DtnConfig;
  dm_store : BundleStore;
  dm_local : I;
  dm_sequence : Z;
}.
Implicit Types (d : DtnManager) (dst peer : I).

Definition dtn_manager_new (inst : Z) (config : DtnConfig) (store : BundleStore) (local_identity : I) : DtnManager :=
  {| dm_prophet := prophet_with_defaults inst local_identity; dm_epidemic := epidemic_new (dtn_epidemic config);
     dm_custody := custody_new (dtn_custody config); dm_age := age_manager_new (dtn_expiration config);
     dm_strategy := selector_with_defaults; dm_config := config; dm_store := store; dm_local := local_identity;
     dm_sequence := 1 |}.

Definition upd_dm p ep c a s q d : DtnManager :=
  {| dm_prophet := p; dm_epidemic := ep; dm_custody := c; dm_age := a; dm_strategy := dm_strategy d;
     dm_config := dm_config d; dm_store := s; dm_local := dm_local d; dm_sequence := q |}.

Definition set_dm_age a d : DtnManager :=
  upd_dm (dm_prophet d) (dm_epidemic d) (dm_custody d) a (dm_store d) (dm_sequence d) d.
Definition set_dm_store s d : DtnManager :=
  upd_dm (dm_prophet d) (dm_epidemic d) (dm_custody d) (dm_age d) s (dm_sequence d) d.
Definition set_dm_prophet p d : DtnManager :=
  upd_dm p (dm_epidemic d) (dm_custody d) (dm_age d) (dm_store d) (dm_sequence d) d.
Definition set_dm_epidemic ep d : DtnManager :=
  upd_dm (dm_prophet d) ep (dm_custody d) (dm_age d) (dm_store d) (dm_sequence d) d.
Definition set_dm_custody c d : DtnManager :=
  upd_dm (dm_prophet d) (dm_epidemic d) c (dm_age d) (dm_store d) (dm_sequence d) d.
Definition set_dm_sequence q d : DtnManager :=
  upd_dm (dm_prophet d) (dm_epidemic d) (dm_custody d) (dm_age d) (dm_store d) q d.

(** The bundle [enqueue] builds at sequence number [seq]. *)
Definition wrap_message (now uuid : Z) (bytes : list byte) dst (p : Priority) d : Bundle I :=
  let packet_id := {| source_hash := hash_identity (dm_local d); sequence := dm_sequence d |} in
  let packet := with_priority p (packet_new packet_id (dm_local d) dst (payload_plaintext bytes) [] now uuid) in
  bundle_from_packet packet
    (default (from_secs 3600) (chrono_from_std (default_lifetime (dtn_expiration (dm_config d))))).

Definition dm_enqueue (fault : option string) (now uuid : Z) (m : SignedNetworkMessage) dst (p : Priority) d
    : DtnManager * Result BundleId NodeError :=
  match postcard_signed m with
  | Err e => (d, Err (NodeIo ("Failed to serialize message for DTN: " +:+ e)))
  | Ok bytes =>
      let bundle := wrap_message now uuid bytes dst p d in
      let d := set_dm_sequence (wrap_u64 (dm_sequence d + 1)) d in
      let d := set_dm_age (track bundle (dm_age d)) d in
      match store_bundle fault bundle (dm_store d) with
      | (s, Ok _) => (set_dm_store s d, Ok (bundle_id bundle))
      | (s, Err e) => (set_dm_store s d, Err e)
      end
  end.

Definition drain_for (fault : option string) dst d : Result (list (Bundle I)) NodeError :=
  bundles_pending_for fault dst (dm_store d).

Definition dm_mark_delivered (fault : option string) (id : BundleId) dst d : DtnManager * Result unit NodeError :=
  let d := set_dm_age (untrack id (dm_age d)) d in
  let '(s, r) := delete_bundle fault id dst (dm_store d) in
  (set_dm_store s d, r).

Definition unwrap_bundle (b : Bundle I) : Result SignedNetworkMessage NodeError :=
  match postcard_parse_signed (data (packet_payload (packet b))) with
  | Ok m => Ok m
  | Err e => Err (NodeIo ("Failed to deserialize message from bundle: " +:+ e))
  end.

Definition record_encounter (inst : Z) peer d : DtnManager :=
  set_dm_prophet (prophet_encounter inst peer (dm_prophet d)) d.

Definition process_prophet_exchange (inst : Z) peer (probs : list (I * f64)) d : DtnManager :=
  set_dm_prophet (transitive_update inst peer probs (dm_prophet d)) d.

Definition select_relay_candidate dst (connected : list I) d : option I :=
  match best_candidate dst connected (dm_prophet d) with
  | Some candidate => if should_forward_to dst candidate (dm_prophet d) then Some candidate else None
  | None => None
  end.

Definition dm_should_forward_to dst (candidate : I) d : bool := should_forward_to dst candidate (dm_prophet d).

Definition prophet_summary d : list (I * f64) := all_probabilities (dm_prophet d).

(** A failing store cleanup ends the function. *)
Definition dm_cleanup (fault : option string) (faults : nat → option string) (now inst : Z) d
    : DtnManager * Result nat NodeError :=
  let d := set_dm_prophet (age_all inst (dm_prophet d)) d in
  match store_cleanup_expired (I := I) fault faults now (dm_store d) with
  | (s, Err e) => (set_dm_store s d, Err e)
  | (s, Ok n) =>
      let d := set_dm_store s d in
      let d := set_dm_epidemic (cleanup_seen inst (dm_epidemic d)).1 d in
      (set_dm_custody (cleanup_expired inst (dm_custody d)).1 d, Ok n)
  end.

Definition accept_relay_bundle (fault : option string) (inst : Z) (b : Bundle I) d : DtnManager * Result unit NodeError :=
  if have_seen (bundle_id b) (dm_epidemic d) then (d, Ok tt)
  else
    let d := set_dm_epidemic (mark_seen (bundle_id b) inst (dm_epidemic d)) d in
    let d := set_dm_age (track b (dm_age d)) d in
    let '(s, r) := store_bundle fault b (dm_store d) in
    (set_dm_store s d, r).

Definition dm_bundle_count (fault : option string) d : Result nat NodeError := bundle_store_count fault (dm_store d).
End Manager.
Arguments DtnManager I {_ _}.

(** ** Pruning the tracker *)

Section TrackerFacts.
Context {I : Type} `{PeerIdentity I}.
Implicit Types (t : DeliveryTracker I) (m : gmap DeliveryKey (DeliveryStatus I)).

Lemma elem_of_terminals m key time :
  (key, time) ∈ terminals m ↔ ∃ d, m !! key = Some d ∧ completion_time d = Some time.
Proof.
  unfold terminals. rewrite list_elem_of_omap. split.
  - intros ([key' d] & Hd%elem_of_map_to_list & (time' & Ht & [= -> ->])%fmap_Some). eauto.
  - intros (d & Hd%elem_of_map_to_list & Ht). exists (key, d). cbn. by rewrite Ht.
Qed.

Lemma terminal_completion (d : DeliveryStatus I) : is_terminal d = true ↔ is_Some (completion_time d).
Proof. destruct d; cbn; split; try done; by intros []. Qed.

Lemma terminals_keys m : (terminals m).*1 = (retain (λ x : DeliveryKey * DeliveryStatus I, is_terminal x.2) (map_to_list m)).*1.
Proof.
  unfold terminals. induction (map_to_list m) as [|[key d] l IH]; [done|]. cbn [omap list_omap retain fst snd].
  destruct d; cbn; by rewrite ?IH.
Qed.

Lemma terminals_NoDup m : NoDup (terminals m).*1.
Proof. rewrite terminals_keys. apply NoDup_fmap_retain, NoDup_fst_map_to_list. Qed.

Lemma terminals_length m : length (terminals m) = terminal_count m.
Proof. unfold terminal_count. by rewrite <- (length_fmap fst), terminals_keys, length_fmap. Qed.

(** Deleting terminal entries leaves the others. *)
Lemma terminal_count_delete m ks :
  NoDup ks → ks ⊆ (terminals m).*1 →
  terminal_count (foldl (λ m key, delete key m) m ks) = (terminal_count m - length ks)%nat.
Proof.
  intros Hnd Hsub. rewrite <- !terminals_length, <- !(length_fmap fst (terminals _)).
  set (m' := foldl _ m ks).
  assert ((terminals m).*1 ≡ₚ ks ++ (terminals m').*1) as ->; [|rewrite length_app; lia].
  apply NoDup_Permutation; [apply terminals_NoDup| |].
  - apply NoDup_app. split; [done|]. split; [|apply terminals_NoDup].
    intros key Hk ([key' time] & -> & (d & Hd & _)%elem_of_terminals)%list_elem_of_fmap. subst m'. cbn in Hk.
    by rewrite delete_all_lookup, decide_True in Hd.
  - intros key. rewrite elem_of_app, !list_elem_of_fmap. split.
    + intros ([key' time] & -> & (d & Hd & Ht)%elem_of_terminals). destruct (decide (key' ∈ ks)) as [|Hni]; [by left|right].
      exists (key', time). split; [done|]. apply elem_of_terminals. exists d. subst m'.
      by rewrite delete_all_lookup, decide_False.
    + intros [Hk|([key' time] & -> & (d & Hd & Ht)%elem_of_terminals)].
      * by apply Hsub, list_elem_of_fmap in Hk.
      * exists (key', time). split; [done|]. apply elem_of_terminals. exists d. subst m'.
        rewrite delete_all_lookup in Hd. by destruct (decide _).
Qed.

Lemma sorted_take_le {A} (R : A → A → Prop) l n x y :
  StronglySorted R l → x ∈ take n l → y ∈ drop n l → R x y.
Proof.
  intros Hs Hx Hy. rewrite <- (take_drop n l), StronglySorted_app in Hs. by apply Hs.
Qed.

(** Pruning leaves at most [max_terminal] finished deliveries, touches no other,
    and removes only the ones that finished first. *)
Theorem tracker_prune_spec t :
  let m := statuses t in
  let m' := statuses (tracker_prune t) in
  terminal_count m' = Nat.min (terminal_count m) (max_terminal t) ∧
  (∀ key d, m' !! key = Some d → m !! key = Some d) ∧
  (∀ key d, m !! key = Some d → is_terminal d = false → m' !! key = Some d) ∧
  (∀ key d key' d' a b, m !! key = Some d → m' !! key = None → m' !! key' = Some d' →
     completion_time d = Some a → completion_time d' = Some b → a <= b).
Proof.
  cbn zeta. unfold tracker_prune. destruct (Nat.leb_spec (terminal_count (statuses t)) (max_terminal t)) as [Hle|Hgt].
  { split; [lia|]. split; [done|]. split; [done|]. intros key d key' d' a b Hd Hn. by rewrite Hd in Hn. }
  cbn [statuses set_statuses]. set (l := sort_by (by_key snd) (terminals (statuses t))).
  set (n := (terminal_count (statuses t) - max_terminal t)%nat).
  assert (l ≡ₚ terminals (statuses t)) as Hl by (apply sort_by_perm; apply _).
  assert (StronglySorted (λ x y, by_key snd x y = true) l) as Hsort by (apply sort_by_sorted; apply _).
  assert (NoDup l.*1) as Hnd by (rewrite Hl; apply terminals_NoDup).
  assert (∀ key, key ∈ (take n l).*1 → key ∈ (terminals (statuses t)).*1) as Hsub.
  { intros key Hk. rewrite <- Hl, <- (take_drop n l), fmap_app. by apply elem_of_app; left. }
  split; [|split; [|split]].
  - rewrite terminal_count_delete; [|rewrite fmap_take; eapply sublist_NoDup; [exact Hnd|apply sublist_take]|done].
    rewrite length_fmap, length_take, Hl, terminals_length. subst n. lia.
  - intros key d. rewrite delete_all_lookup. by destruct (decide _).
  - intros key d Hd Ht. rewrite delete_all_lookup, decide_False; [done|].
    intros ([key' time] & -> & (d' & Hd' & Ht')%elem_of_terminals)%Hsub%list_elem_of_fmap. cbn in Hd. simplify_eq.
    assert (is_terminal d = true) by (apply terminal_completion; eauto). congruence.
  - intros key d key' d' a b Hd Hnone Hd' Ha Hb. rewrite delete_all_lookup in Hnone, Hd'.
    destruct (decide (key ∈ _)) as [Hin|]; [|congruence]. destruct (decide (key' ∈ _)) as [|Hout]; [done|].
    assert ((key, a) ∈ take n l) as Hx.
    { apply list_elem_of_fmap in Hin as ([k time] & -> & Hin). cbn in Hd.
      assert ((k, time) ∈ terminals (statuses t)) as (d0 & Hd0 & Ht0)%elem_of_terminals.
      { rewrite <- Hl, <- (take_drop n l). by apply elem_of_app; left. }
      simplify_eq. done. }
    assert ((key', b) ∈ drop n l) as Hy.
    { assert ((key', b) ∈ l) as Hbl by (rewrite Hl; apply elem_of_terminals; eauto).
      rewrite <- (take_drop n l), elem_of_app in Hbl. destruct Hbl as [Hbl|]; [|done]. exfalso. apply Hout.
      apply list_elem_of_fmap. by exists (key', b). }
    pose proof (sorted_take_le _ _ _ _ _ Hsort Hx Hy) as Hle. unfold by_key in Hle. cbn in Hle. lia.
Qed.
End TrackerFacts.

(** ** Reconnection *)

Section ManagerFacts.
Context {I : Type} `{Countable I, DefaultHasher I, BundlePostcard I, Chrono, NodePostcard}.
Context (hash_u64 : ∀ i : I, 0 <= hash_identity i < 2 ^ 64).
Context (postcard_ok : ∀ (b : Bundle I) v, postcard_bundle b = Ok v → postcard_parse_bundle v = Ok b).
Context (signed_ok : ∀ m v, postcard_signed m = Ok v → postcard_parse_signed v = Ok m).
Implicit Types (d : DtnManager I) (dst peer : I) (m : gmap BundleId (Bundle I)).

(** Clock readings [chrono] can represent, in milliseconds. *)
Definition clock_ok (now : Z) : Prop := - 2 ^ 63 <= dt_timestamp_millis now < 2 ^ 63.

Lemma wrap_message_id_ok now uuid bytes dst p d :
  clock_ok now → bundle_id_ok (bundle_id (wrap_message now uuid bytes dst p d)).
Proof.
  intros Hnow. split; [apply hash_u64|]. split; [exact Hnow|].
  cbn. unfold wrap_u32. apply Z.mod_pos_bound. lia.
Qed.

Lemma unwrap_wrapped now uuid msg bytes dst p d :
  postcard_signed msg = Ok bytes → unwrap_bundle (wrap_message now uuid bytes dst p d) = Ok msg.
Proof. intros Hb. unfold unwrap_bundle. cbn. by rewrite (signed_ok _ _ Hb). Qed.

(** What [drain_for] returns of a store that holds [m]. *)
Lemma elem_of_drain d m dst l b :
  holds_bundles (dm_store d) m → drain_for None dst d = Ok l →
  b ∈ l ↔ m !! bundle_id b = Some b ∧ hash_identity (bundle_destination b) = hash_identity dst.
Proof.
  intros Hs. unfold drain_for. destruct (holds_pending_for hash_u64 postcard_ok _ _ dst Hs) as (l' & -> & Hp).
  intros [= <-]. rewrite Hp, list_elem_of_fmap. split.
  - intros ([id b'] & -> & [Hb%elem_of_map_to_list Hd]%elem_of_retain). cbn in *.
    apply bool_decide_eq_true in Hd. destruct (hb_entries _ _ Hs _ _ Hb) as [Hid _]. cbn in Hid. by subst.
  - intros [Hb Hd]. exists (bundle_id b, b). rewrite elem_of_retain, elem_of_map_to_list. cbn. by rewrite bool_decide_true.
Qed.

Lemma holds_enqueue d m now uuid msg bytes dst p :
  holds_bundles (dm_store d) m → clock_ok now → postcard_signed msg = Ok bytes →
  let b := wrap_message now uuid bytes dst p d in
  is_ok (postcard_bundle b) = true → same_destination m (bundle_id b) dst →
  ∃ d', dm_enqueue None now uuid msg dst p d = (d', Ok (bundle_id b)) ∧ holds_bundles (dm_store d') (<[bundle_id b := b]> m).
Proof.
  cbn zeta. intros Hs Hnow Hmsg Hok Hdst. unfold dm_enqueue. rewrite Hmsg. set (b := wrap_message now uuid bytes dst p d) in *.
  destruct (holds_store hash_u64 (dm_store d) m b) as (s' & Hst & Hs'); [done|by split; [apply wrap_message_id_ok|]|done|].
  cbn [dm_store set_dm_age set_dm_sequence upd_dm]. rewrite Hst. eexists. split; [done|exact Hs'].
Qed.

Lemma holds_dm_mark_delivered d m id dst :
  holds_bundles (dm_store d) m → bundle_id_ok id → same_destination m id dst →
  ∃ d', dm_mark_delivered None id dst d = (d', Ok tt) ∧ holds_bundles (dm_store d') (delete id m).
Proof.
  intros Hs Hid Hdst. destruct (holds_delete hash_u64 (dm_store d) m id dst) as (s' & Hdel & Hs'); [done..|].
  unfold dm_mark_delivered. cbn [dm_store set_dm_age upd_dm]. rewrite Hdel. by eexists.
Qed.

(** *** Between the two

    What happens to the manager while the peer is away. *)
Inductive dm_op : Type :=
| DoEnqueue (fault : option string) (now uuid : Z) (msg : SignedNetworkMessage) (dst : I) (p : Priority)
| DoDelivered (fault : option string) (id : BundleId) (dst : I)
| DoCleanup (fault : option string) (faults : nat → option string) (now inst : Z)
| DoRelay (fault : option string) (inst : Z) (b : Bundle I)
| DoEncounter (inst : Z) (peer : I)
| DoExchange (inst : Z) (peer : I) (probs : list (I * f64)).

Definition run_dm_op d (op : dm_op) : DtnManager I :=
  match op with
  | DoEnqueue fault now uuid msg dst p => (dm_enqueue fault now uuid msg dst p d).1
  | DoDelivered fault id dst => (dm_mark_delivered fault id dst d).1
  | DoCleanup fault faults now inst => (dm_cleanup fault faults now inst d).1
  | DoRelay fault inst b => (accept_relay_bundle fault inst b d).1
  | DoEncounter inst peer => record_encounter inst peer d
  | DoExchange inst peer probs => process_prophet_exchange inst peer probs d
  end.

(** An operation that is not meant for the bundle: it stores or deletes under
    another identifier, or cleans up before the bundle expires. *)
Definition spares (b : Bundle I) d (op : dm_op) : Prop :=
  match op with
  | DoEnqueue _ now uuid msg dst p =>
      clock_ok now ∧ ∀ bytes, bundle_id (wrap_message now uuid bytes dst p d) ≠ bundle_id b
  | DoDelivered _ id _ => bundle_id_ok id ∧ id ≠ bundle_id b
  | DoCleanup _ _ now _ => bundle_is_expired now b = false
  | DoRelay _ _ b' => bundle_id_ok (bundle_id b') ∧ bundle_id b' ≠ bundle_id b
  | DoEncounter _ _ | DoExchange _ _ _ => True
  end.

Fixpoint all_spare (b : Bundle I) (ops : list dm_op) d : Prop :=
  match ops with [] => True | op :: ops => spares b d op ∧ all_spare b ops (run_dm_op d op) end.

(** The bundle is in both tables, and every bundle is stored under its key. *)
Record waiting (b : Bundle I) (s : BundleStore) : Prop := {
  wt_bundle : dtn_bundles s !! bundle_id_to_key (bundle_id b) = Some (bundle_encoded b);
  wt_pending : dtn_pending s !! pending_key (bundle_destination b) (bundle_id b) = Some [];
  wt_keys : ∀ k v b', dtn_bundles s !! k = Some v → postcard_parse_bundle v = Ok b' →
    k = bundle_id_to_key (bundle_id b') ∧ bundle_id_ok (bundle_id b');
}.

Lemma holds_waiting s m b : holds_bundles s m → m !! bundle_id b = Some b → waiting b s.
Proof.
  intros Hs Hb. split.
  - apply (hb_bundles _ _ Hs). eauto.
  - apply (hb_pending _ _ Hs). eauto.
  - intros k v b' (id & x & Hx & -> & ->)%(hb_bundles _ _ Hs) Hp. destruct (hb_entries _ _ Hs _ _ Hx) as [<- Hst].
    rewrite (parse_encoded postcard_ok) in Hp by done. injection Hp as <-. split; [done|apply Hst].
Qed.

Section Waiting.
Context (b : Bundle I) (b_ok : bundle_storable b).

Lemma store_waiting fault b' s : bundle_id_ok (bundle_id b') → bundle_id b' ≠ bundle_id b →
  waiting b s → waiting b (store_bundle fault b' s).1.
Proof.
  intros Hid Hne [Hb Hp Hk]. unfold store_bundle. destruct (postcard_bundle b') as [v|] eqn:Hv; [|done]. destruct fault; [done|]. split; cbn.
  - rewrite lookup_insert_ne; [done|]. intros Heq. apply bundle_key_inj in Heq; [done|done|apply b_ok].
  - rewrite lookup_insert_ne; [done|]. intros [_ Heq]%(pending_key_inj hash_u64); [done|done|apply b_ok].
  - intros k w x [[<- <-]|[_ Hw]]%lookup_insert_Some Hx; [|by eapply Hk].
    rewrite (postcard_ok _ _ Hv) in Hx. by injection Hx as <-.
Qed.

Lemma delete_waiting fault id dst s : bundle_id_ok id → id ≠ bundle_id b → waiting b s → waiting b (delete_bundle fault id dst s).1.
Proof.
  intros Hid Hne [Hb Hp Hk]. unfold delete_bundle. destruct fault; [done|]. split; cbn.
  - rewrite lookup_delete_ne; [done|]. intros Heq. apply bundle_key_inj in Heq; [done|done|apply b_ok].
  - rewrite lookup_delete_ne; [done|]. intros [_ Heq]%(pending_key_inj hash_u64); [done|done|apply b_ok].
  - intros k w x [_ Hw]%lookup_delete_Some. by eapply Hk.
Qed.

Lemma delete_all_waiting l : ∀ faults s, (∀ id dst, (id, dst) ∈ l → bundle_id_ok id ∧ id ≠ bundle_id b) →
  waiting b s → waiting b (delete_all faults l s).1.
Proof.
  induction l as [|[id dst] l IH]; intros faults s Hl Hs; [done|]. cbn [delete_all].
  destruct (Hl id dst) as [Hid Hne]; [left|]. pose proof (delete_waiting (faults 0%nat) id dst s Hid Hne Hs) as Hd.
  destruct (delete_bundle _ _ _ _) as [s1 []]; [|done]. apply IH; [|done]. intros. apply (Hl _ dst0). by right.
Qed.

Lemma cleanup_waiting fault faults now s : bundle_is_expired now b = false → waiting b s →
  waiting b (store_cleanup_expired (I := I) fault faults now s).1.
Proof.
  intros He Hs. unfold store_cleanup_expired, all_bundles. destruct fault; [done|]. cbn.
  set (l := (λ x : Bundle I, (bundle_id x, bundle_destination x)) <$> _).
  enough (Hw : waiting b (delete_all faults l s).1) by (by destruct (delete_all faults l s) as [? []]).
  apply delete_all_waiting; [|done]. intros id dst (x & [= -> ->] & [Hx Hexp]%elem_of_retain)%list_elem_of_fmap.
  apply list_elem_of_omap in Hx as ([k v] & Hkv & Hv). unfold table_iter in Hkv. rewrite sort_by_perm, elem_of_map_to_list in Hkv. cbn in Hv.
  destruct (postcard_parse_bundle v) as [y|] eqn:Hy; [|done]. injection Hv as ->.
  destruct (wt_keys _ _ Hs _ _ _ Hkv Hy) as [-> Hid]. split; [done|]. intros Heq. rewrite Heq, (wt_bundle _ _ Hs) in Hkv.
  injection Hkv as <-. rewrite (parse_encoded postcard_ok) in Hy by done. injection Hy as ->. congruence.
Qed.

Lemma run_dm_op_waiting d op : spares b d op → waiting b (dm_store d) → waiting b (dm_store (run_dm_op d op)).
Proof.
  destruct op as [fault now uuid msg dst p|fault id dst|fault faults now inst|fault inst b'|inst peer|inst peer probs]; cbn; intros Hsp Hs; [..|done|done].
  - destruct Hsp as [Hnow Hne]. unfold dm_enqueue. destruct (postcard_signed msg) as [bytes|]; [|done].
    pose proof (store_waiting fault _ (dm_store d) (wrap_message_id_ok now uuid bytes dst p d Hnow) (Hne bytes) Hs) as Hw.
    cbn [dm_store set_dm_age set_dm_sequence upd_dm]. by destruct (store_bundle _ _ _) as [? []].
  - destruct Hsp as [Hid Hne]. unfold dm_mark_delivered. pose proof (delete_waiting fault id dst (dm_store d) Hid Hne Hs) as Hw.
    cbn [dm_store set_dm_age upd_dm]. by destruct (delete_bundle _ _ _ _).
  - unfold dm_cleanup. pose proof (cleanup_waiting fault faults now (dm_store d) Hsp Hs) as Hw.
    cbn [dm_store set_dm_prophet upd_dm]. by destruct (store_cleanup_expired _ _ _ _) as [? []].
  - destruct Hsp as [Hid Hne]. unfold accept_relay_bundle. destruct (have_seen _ _); [done|].
    pose proof (store_waiting fault b' (dm_store d) Hid Hne Hs) as Hw. cbn [dm_store set_dm_age set_dm_epidemic upd_dm].
    by destruct (store_bundle _ _ _).
Qed.

Lemma run_dm_ops_waiting ops : ∀ d, all_spare b ops d → waiting b (dm_store d) → waiting b (dm_store (foldl run_dm_op d ops)).
Proof. induction ops as [|op ops IH]; intros d Hall Hs; [done|]. destruct Hall as [Hop Hall]. by apply IH, run_dm_op_waiting. Qed.

Lemma drain_waiting d : waiting b (dm_store d) → ∃ l, drain_for None (bundle_destination b) d = Ok l ∧ b ∈ l.
Proof.
  intros Hs. eexists. split; [done|]. apply list_elem_of_omap.
  exists (pending_key (bundle_destination b) (bundle_id b), []). split.
  - pose proof (prefix_range hash_u64 (bundle_destination b) (bundle_destination b) (bundle_id b)) as Hr.
    rewrite bool_decide_true in Hr by done. apply andb_true_iff in Hr as [Hlo Hhi].
    unfold table_range_incl, table_range, table_iter. apply elem_of_retain. cbn [fst]. split; [|exact Hhi]. apply elem_of_retain. cbn [fst]. split; [|exact Hlo].
    rewrite sort_by_perm, elem_of_map_to_list. apply Hs.
  - unfold bundle_at. cbn [fst]. rewrite pending_key_split, (wt_bundle _ _ Hs). by rewrite (parse_encoded postcard_ok).
Qed.
End Waiting.

(** C35. Where the store holds bundles in order and does not fail, and the bundle
    encodes and gets an identifier that no stored bundle has: a message
    enqueued for a peer is at once handed out for it, next to exactly what was
    waiting for it before, and unwraps to the message that was enqueued; what
    is handed out for peers with another 64-bit hash does not change; once
    marked delivered the store is as it was.  Until then it is handed out after
    any operations of the manager that do not store or delete under its
    identifier and do not clean up after it has expired, whether they fail or
    not. *)
Theorem enqueue_drain d m now uuid msg bytes dst p :
  holds_bundles (dm_store d) m → clock_ok now → postcard_signed msg = Ok bytes →
  is_ok (postcard_bundle (wrap_message now uuid bytes dst p d)) = true →
  m !! bundle_id (wrap_message now uuid bytes dst p d) = None →
  ∃ d' b, dm_enqueue None now uuid msg dst p d = (d', Ok (bundle_id b)) ∧
    unwrap_bundle b = Ok msg ∧ bundle_destination b = dst ∧
    (∃ l l', drain_for None dst d = Ok l ∧ drain_for None dst d' = Ok l' ∧ l' ≡ₚ b :: l) ∧
    (∀ other, hash_identity other ≠ hash_identity dst →
       ∃ l l', drain_for None other d = Ok l ∧ drain_for None other d' = Ok l' ∧ l' ≡ₚ l) ∧
    (∃ d'', dm_mark_delivered None (bundle_id b) dst d' = (d'', Ok tt) ∧ holds_bundles (dm_store d'') m) ∧
    (∀ ops, all_spare b ops d' → ∃ l, drain_for None dst (foldl run_dm_op d' ops) = Ok l ∧ b ∈ l).
Proof.
  intros Hs Hnow Hmsg Hok Hnew. set (b := wrap_message now uuid bytes dst p d) in *.
  assert (bundle_destination b = dst) as Hdst by done.
  destruct (holds_enqueue d m now uuid msg bytes dst p) as (d' & Henq & Hs'); [done..| |].
  { fold b. intros b'. by rewrite Hnew. }
  exists d', b. split; [done|]. split; [by apply unwrap_wrapped|]. split; [done|].
  assert (∀ q, ∃ l l', drain_for None q d = Ok l ∧ drain_for None q d' = Ok l' ∧
    l' ≡ₚ if bool_decide (hash_identity dst = hash_identity q) then b :: l else l) as Hdrain.
  { intros q. unfold drain_for. destruct (holds_pending_for hash_u64 postcard_ok _ _ q Hs) as (l & -> & Hl).
    destruct (holds_pending_for hash_u64 postcard_ok _ _ q Hs') as (l' & -> & Hl'). exists l, l'. split; [done|]. split; [done|].
    rewrite Hl', map_to_list_insert by done. cbn [retain snd]. fold b. rewrite Hdst.
    case_bool_decide; [rewrite fmap_cons|]; by rewrite Hl. }
  split; [|split; [|split]].
  - destruct (Hdrain dst) as (l & l' & ? & ? & Hp). rewrite bool_decide_true in Hp by done. eauto.
  - intros q Hq. destruct (Hdrain q) as (l & l' & ? & ? & Hp). rewrite bool_decide_false in Hp by done. eauto.
  - destruct (holds_dm_mark_delivered d' (<[bundle_id b := b]> m) (bundle_id b) dst) as (d'' & Hd'' & Hs'').
    + done.
    + by apply wrap_message_id_ok.
    + intros b'. rewrite lookup_insert_eq. by intros [= <-].
    + exists d''. split; [done|]. by rewrite delete_insert_id in Hs''.
  - intros ops Hall. assert (Hb : bundle_storable b) by (split; [by apply wrap_message_id_ok|done]).
    apply (drain_waiting b Hb). apply run_dm_ops_waiting; [done|done|].
    apply (holds_waiting _ (<[bundle_id b := b]> m)); [done|apply lookup_insert_eq].
Qed.
End ManagerFacts.

(** ** Acknowledgements and their limits *)

Section AckFacts.
Context {I : Type} `{PeerIdentity I}.
Implicit Types (t : DeliveryTracker I).

Lemma record_ack_lookup inst f dst up_to t key :
  statuses (record_ack inst f dst up_to t) !! key
  = (λ d, if ack_matches f dst up_to key d then DsAcked inst else d) <$> statuses t !! key.
Proof. cbn. rewrite map_lookup_imap. by destruct (statuses t !! key). Qed.

(** An acknowledgement never takes a delivery out of a terminal state. *)
Lemma record_ack_terminal inst f dst up_to t key d :
  statuses t !! key = Some d → is_terminal d = true → statuses (record_ack inst f dst up_to t) !! key = Some d.
Proof. intros Hd Ht. rewrite record_ack_lookup, Hd. cbn. unfold ack_matches. by rewrite Ht, andb_false_r. Qed.

(** Event identifiers are compared lexicographically: acknowledging an event of
    one sender acknowledges every event of the senders with a smaller hash. *)
Lemma ack_crosses_senders inst f dst e up_to since t :
  sender_hash e < sender_hash up_to →
  tracker_status f e dst t = Some (DsSent since) →
  tracker_status f e dst (record_ack inst f dst up_to t) = Some (DsAcked inst).
Proof.
  intros Hlt Ht. unfold tracker_status in *. rewrite record_ack_lookup, Ht. cbn. unfold ack_matches, event_id_leb. cbn.
  rewrite !bool_decide_true by done. apply Z.ltb_lt in Hlt. by rewrite Hlt.
Qed.

(** The index of bundles survives an acknowledgement, so that a later relay
    report turns an acknowledged delivery back into one under way. *)
Lemma relayed_after_ack i1 i2 i3 f e dst b (relay : I) :
  let t := record_ack i2 f dst e (record_dtn_handoff i1 f e dst b delivery_tracker_new) in
  tracker_status f e dst t = Some (DsAcked i2) ∧
  tracker_status f e dst (record_dtn_relayed i3 b relay t) = Some (DsDtnRelayed i3 relay b).
Proof.
  cbn zeta. unfold tracker_status. split.
  - rewrite record_ack_lookup. cbn. rewrite lookup_insert_eq. cbn. unfold ack_matches, event_id_leb. cbn.
    rewrite !bool_decide_true by done. by rewrite Z.eqb_refl, Z.leb_refl, orb_true_r.
  - unfold record_dtn_relayed. cbn. rewrite lookup_empty, lookup_insert_eq. cbn. by rewrite lookup_insert_eq.
Qed.
End AckFacts.

(** A relayed bundle whose storage fails has already been marked as seen: the
    retry is taken for a duplicate and reported as accepted, and the bundle is
    never stored. *)
Lemma relay_retry_lost {I : Type} `{Countable I, DefaultHasher I, BundlePostcard I, Chrono}
    (d : DtnManager I) (b : Bundle I) e inst inst' :
  have_seen (bundle_id b) (dm_epidemic d) = false → is_ok (postcard_bundle b) = true →
  let d1 := (accept_relay_bundle (Some e) inst b d).1 in
  (accept_relay_bundle (Some e) inst b d).2 = Err (NodeIo e) ∧
  accept_relay_bundle None inst' b d1 = (d1, Ok tt) ∧ dm_store d1 = dm_store d.
Proof.
  intros Hnew Hok. set (d1 := (accept_relay_bundle (Some e) inst b d).1).
  assert (accept_relay_bundle (Some e) inst b d
    = (set_dm_age (track b (dm_age d)) (set_dm_epidemic (mark_seen (bundle_id b) inst (dm_epidemic d)) d), Err (NodeIo e))) as Heq.
  { unfold accept_relay_bundle. rewrite Hnew. unfold store_bundle. by destruct (postcard_bundle b). }
  subst d1. rewrite Heq. cbn [fst snd]. split; [done|]. split; [|done]. unfold accept_relay_bundle.
  replace (have_seen _ _) with true; [done|].
  symmetry. unfold have_seen. apply bool_decide_eq_true. cbn. rewrite lookup_insert_eq. eauto.
Qed.
