(* ===== verification/Index.v ===== *)
(** * The content-addressed index

    Models [indras-sync-engine/src/content_addr.rs]: logical paths, content
    addresses, the symlink index that is the file-system state, its deltas and
    its three-way merge.  A [BTreeMap] is a finite map; where the order of
    iteration shows, paths are visited in byte order. *)

From S2P Require Import Prelude.

(** [LogicalPath(String)]. *)
Abbreviation LogicalPath := string.

Record ContentAddr : Type := { ca_hash : arr32; ca_size : Z }.

#[global] Instance ContentAddr_eq_dec : EqDecision ContentAddr.
Proof. solve_decision. Defined.

#[global] Instance ContentAddr_countable : Countable ContentAddr.
Proof.
  refine (inj_countable' (λ a, (ca_hash a, ca_size a))
    (λ '(h, s), {| ca_hash := h; ca_size := s |}) _).
  by intros [].
Defined.

Definition content_addr_from_bytes `{Blake3} (d : list byte) : ContentAddr :=
  {| ca_hash := blake3 d; ca_size := Z.of_nat (length d) |}.

Definition short_hex (a : ContentAddr) : string := hex (take 4 (arr32_bytes (ca_hash a))).

Record SymlinkIndex : Type := { entries : gmap LogicalPath ContentAddr }.

#[global] Instance SymlinkIndex_eq_dec : EqDecision SymlinkIndex.
Proof. solve_decision. Defined.

Inductive DeltaOp : Type :=
| Add (a : ContentAddr)
| Modify (a : ContentAddr)
| Delete.

#[global] Instance DeltaOp_eq_dec : EqDecision DeltaOp.
Proof. solve_decision. Defined.

Record IndexDelta : Type := { ops : gmap LogicalPath DeltaOp }.

#[global] Instance IndexDelta_eq_dec : EqDecision IndexDelta.
Proof. solve_decision. Defined.

Record Conflict : Type := {
  conflict_path : LogicalPath;
  ours : ContentAddr;
  theirs : ContentAddr;
  conflict_base : option ContentAddr;
}.

#[global] Instance Conflict_eq_dec : EqDecision Conflict.
Proof. solve_decision. Defined.

(** The order of paths: by their UTF-8 bytes. *)
Definition path_leb (a b : LogicalPath) : bool := bytes_leb (as_bytes a) (as_bytes b).

#[global] Instance path_leb_linear : LinearOrder path_leb.
Proof.
  unfold path_leb. split; [split|].
  - intros a b. apply bytes_leb_total.
  - intros a b c. apply bytes_leb_trans.
  - intros a b Hab Hba. by apply as_bytes_inj, bytes_leb_antisym.
Qed.

Definition index_new : SymlinkIndex := {| entries := ∅ |}.

(** Collecting into a map: a later pair for the same path wins. *)
Definition index_from_iter (l : list (LogicalPath * ContentAddr)) : SymlinkIndex :=
  {| entries := foldl (λ m e, <[e.1 := e.2]> m) ∅ l |}.

Definition index_get (i : SymlinkIndex) (p : LogicalPath) : option ContentAddr := entries i !! p.

Definition index_set (p : LogicalPath) (a : ContentAddr) (i : SymlinkIndex) : SymlinkIndex :=
  {| entries := <[p := a]> (entries i) |}.

Definition index_remove (p : LogicalPath) (i : SymlinkIndex) : SymlinkIndex :=
  {| entries := delete p (entries i) |}.

(** The entries in path order. *)
Definition index_iter (i : SymlinkIndex) : list (LogicalPath * ContentAddr) :=
  sort_by (λ x y, path_leb x.1 y.1) (map_to_list (entries i)).

Definition index_paths (i : SymlinkIndex) : list LogicalPath := (index_iter i).*1.

(** The two loops of [diff]. *)
Fixpoint diff_updated (l : list (LogicalPath * ContentAddr)) (base : SymlinkIndex)
    (ops : gmap LogicalPath DeltaOp) : gmap LogicalPath DeltaOp :=
  match l with
  | [] => ops
  | (p, a) :: l =>
      diff_updated l base
        match entries base !! p with
        | None => <[p := Add a]> ops
        | Some base_addr => if negb (bool_decide (base_addr = a)) then <[p := Modify a]> ops else ops
        end
  end.

Fixpoint diff_deleted (ps : list LogicalPath) (self : SymlinkIndex)
    (ops : gmap LogicalPath DeltaOp) : gmap LogicalPath DeltaOp :=
  match ps with
  | [] => ops
  | p :: ps =>
      diff_deleted ps self
        (if negb (bool_decide (is_Some (entries self !! p))) then <[p := Delete]> ops else ops)
  end.

Definition index_diff (self base : SymlinkIndex) : IndexDelta :=
  {| ops := diff_deleted (index_paths base) self (diff_updated (index_iter self) base ∅) |}.

Definition delta_iter (d : IndexDelta) : list (LogicalPath * DeltaOp) :=
  sort_by (λ x y, path_leb x.1 y.1) (map_to_list (ops d)).

Fixpoint apply_ops (l : list (LogicalPath * DeltaOp)) (m : gmap LogicalPath ContentAddr)
    : gmap LogicalPath ContentAddr :=
  match l with
  | [] => m
  | (p, op) :: l =>
      apply_ops l match op with
                  | Add a | Modify a => <[p := a]> m
                  | Delete => delete p m
                  end
  end.

Definition index_apply (self : SymlinkIndex) (d : IndexDelta) : SymlinkIndex :=
  {| entries := apply_ops (delta_iter d) (entries self) |}.

(** The sentinel for a deleted side: the zero hash. *)
Definition deleted_addr : ContentAddr := {| ca_hash := zeros32; ca_size := 0 |}.

(** One round of the loop of [three_way_merge]: the arms of its [match] in
    order, for each combination of the three entries that can reach them. *)
Definition merge_path (p : LogicalPath) (b o t : option ContentAddr)
    (acc : gmap LogicalPath ContentAddr * list Conflict)
    : gmap LogicalPath ContentAddr * list Conflict :=
  let '(merged, conflicts) := acc in
  let clash x y := conflicts ++ [{| conflict_path := p; ours := x; theirs := y; conflict_base := b |}] in
  match b, o, t with
  | Some bv, Some ov, Some tv =>
      if bool_decide (ov = bv) && bool_decide (tv = bv) then (<[p := bv]> merged, conflicts)
      else if bool_decide (tv = bv) then (<[p := ov]> merged, conflicts)
      else if bool_decide (ov = bv) then (<[p := tv]> merged, conflicts)
      else if bool_decide (ov = tv) then (<[p := ov]> merged, conflicts)
      else (<[p := tv]> merged, clash ov tv)
  | None, Some ov, Some tv =>
      if bool_decide (ov = tv) then (<[p := ov]> merged, conflicts)
      else (<[p := tv]> merged, clash ov tv)
  | Some _, None, None => (merged, conflicts)
  | None, None, None => (merged, conflicts)
  | Some _, None, Some tv => (<[p := tv]> merged, clash deleted_addr tv)
  | Some _, Some ov, None => (<[p := ov]> merged, clash ov deleted_addr)
  | None, Some ov, None => (<[p := ov]> merged, conflicts)
  | None, None, Some tv => (<[p := tv]> merged, conflicts)
  end.

Fixpoint merge_loop (ps : list LogicalPath) (base our their : SymlinkIndex)
    (acc : gmap LogicalPath ContentAddr * list Conflict)
    : gmap LogicalPath ContentAddr * list Conflict :=
  match ps with
  | [] => acc
  | p :: ps =>
      merge_loop ps base our their
        (merge_path p (entries base !! p) (entries our !! p) (entries their !! p) acc)
  end.

(** All paths of the three indexes, each once, in order. *)
Definition all_paths (base our their : SymlinkIndex) : list LogicalPath :=
  dedup (sort_by path_leb (index_paths base ++ index_paths our ++ index_paths their)).

Definition three_way_merge (base our their : SymlinkIndex) : SymlinkIndex * list Conflict :=
  let (merged, conflicts) := merge_loop (all_paths base our their) base our their (∅, []) in
  ({| entries := merged |}, conflicts).

Definition op_addr (op : DeltaOp) : option ContentAddr :=
  match op with Add a | Modify a => Some a | Delete => None end.

Definition updated_addrs (d : IndexDelta) : list (LogicalPath * ContentAddr) :=
  omap (λ e, (λ a, (e.1, a)) <$> op_addr e.2) (delta_iter d).

Definition deleted_paths (d : IndexDelta) : list LogicalPath :=
  omap (λ e, match e.2 with Delete => Some e.1 | _ => None end) (delta_iter d).

Definition delta_from_root (i : SymlinkIndex) : IndexDelta := {| ops := Add <$> entries i |}.

Definition ours_deleted (c : Conflict) : bool := bool_decide (ca_hash (ours c) = zeros32).

Definition theirs_deleted (c : Conflict) : bool := bool_decide (ca_hash (theirs c) = zeros32).

(** ** Iteration *)

Lemma sorted_map_to_list_perm {V} (m : gmap LogicalPath V) :
  sort_by (λ x y, path_leb x.1 y.1) (map_to_list m) ≡ₚ map_to_list m.
Proof. apply sort_by_perm. Qed.

Lemma elem_of_index_iter i p a : (p, a) ∈ index_iter i ↔ entries i !! p = Some a.
Proof. unfold index_iter. by rewrite sorted_map_to_list_perm, elem_of_map_to_list. Qed.

Lemma elem_of_index_paths i p : p ∈ index_paths i ↔ is_Some (entries i !! p).
Proof.
  unfold index_paths. rewrite list_elem_of_fmap. split.
  - intros ([q a] & -> & Hq). apply elem_of_index_iter in Hq. eauto.
  - intros [a Ha]. exists (p, a). by rewrite elem_of_index_iter.
Qed.

Lemma NoDup_index_paths i : NoDup (index_paths i).
Proof.
  unfold index_paths, index_iter. rewrite sorted_map_to_list_perm. apply NoDup_fst_map_to_list.
Qed.

Lemma elem_of_all_paths base our their p :
  p ∈ all_paths base our their ↔
  is_Some (entries base !! p) ∨ is_Some (entries our !! p) ∨ is_Some (entries their !! p).
Proof.
  unfold all_paths. rewrite elem_of_dedup, sort_by_perm, !elem_of_app.
  by rewrite !elem_of_index_paths.
Qed.

Lemma NoDup_all_paths base our their : NoDup (all_paths base our their).
Proof. apply (dedup_sorted path_leb), (sort_by_sorted path_leb). Qed.

(** ** Deltas *)

Definition op_at (self base : option ContentAddr) : option DeltaOp :=
  match self, base with
  | Some a, None => Some (Add a)
  | Some a, Some b => if bool_decide (b = a) then None else Some (Modify a)
  | None, Some _ => Some Delete
  | None, None => None
  end.

Lemma diff_updated_lookup l base m p :
  NoDup l.*1 →
  diff_updated l base m !! p =
  match find_first (λ e, bool_decide (e.1 = p)) l with
  | Some (_, a) => match op_at (Some a) (entries base !! p) with Some op => Some op | None => m !! p end
  | None => m !! p
  end.
Proof.
  revert m. induction l as [|[q a] l IH]; intros m; csimpl; [done|].
  intros [Hq Hn]%NoDup_cons. rewrite IH by done.
  case_bool_decide as E; simpl.
  - subst q. replace (find_first (λ e, bool_decide (e.1 = p)) l) with (@None (LogicalPath * ContentAddr)).
    + destruct (entries base !! p) as [b|]; simpl; [|by rewrite lookup_insert_eq].
      case_bool_decide; simpl; [done|by rewrite lookup_insert_eq].
    + symmetry. apply find_first_None. intros [q b] Hin. apply bool_decide_false. simpl. intros ->.
      apply Hq, list_elem_of_fmap. by exists (p, b).
  - assert (∀ o, match entries base !! q with
            | Some base_addr => if negb (bool_decide (base_addr = a)) then <[q:=Modify a]> m else m
            | None => <[q:=Add a]> m end !! p = o ↔ m !! p = o) as Hm.
    { intros o. destruct (entries base !! q) as [b|]; [destruct (negb _)|];
        by rewrite ?lookup_insert_ne. }
    pose proof (proj2 (Hm _) eq_refl) as Hmp. rewrite Hmp. done.
Qed.

Lemma find_entry i p :
  find_first (λ e, bool_decide (e.1 = p)) (index_iter i) = (λ a, (p, a)) <$> entries i !! p.
Proof.
  destruct (find_first _ (index_iter i)) as [[q a]|] eqn:Hf.
  - apply find_first_Some in Hf as [Hin Hq]. apply bool_decide_eq_true in Hq. simpl in Hq. subst q.
    apply elem_of_index_iter in Hin. by rewrite Hin.
  - destruct (entries i !! p) as [a|] eqn:Ha; [|done].
    rewrite find_first_None in Hf. apply elem_of_index_iter in Ha.
    specialize (Hf _ Ha). by rewrite bool_decide_true in Hf.
Qed.

Lemma diff_deleted_lookup ps self m p :
  diff_deleted ps self m !! p =
  if bool_decide (p ∈ ps) && bool_decide (entries self !! p = None) then Some Delete else m !! p.
Proof.
  revert m. induction ps as [|q ps IH]; intros m.
  { by rewrite (bool_decide_false (p ∈ [])) by (by intros ?%elem_of_nil). }
  cbn [diff_deleted]. rewrite IH. destruct (decide (p = q)) as [->|Hne].
  - rewrite (bool_decide_true (q ∈ q :: ps)) by by left.
    destruct (entries self !! q) as [a|] eqn:Ha.
    + rewrite (bool_decide_true (is_Some _)) by eauto. rewrite (bool_decide_false (Some a = None)) by done.
      by rewrite !andb_false_r.
    + rewrite (bool_decide_false (is_Some _)) by (by intros [? ?]).
      rewrite (bool_decide_true (None = None)) by done. simpl. rewrite lookup_insert_eq.
      by destruct (bool_decide _).
  - rewrite (bool_decide_ext (p ∈ q :: ps) (p ∈ ps)) by (rewrite elem_of_cons; naive_solver).
    destruct (negb _); [by rewrite lookup_insert_ne|done].
Qed.

Lemma index_diff_lookup self base p :
  ops (index_diff self base) !! p = op_at (entries self !! p) (entries base !! p).
Proof.
  simpl. rewrite diff_deleted_lookup, diff_updated_lookup by apply NoDup_index_paths.
  rewrite find_entry, (bool_decide_ext _ _ (elem_of_index_paths base p)), lookup_empty.
  destruct (entries self !! p) as [a|], (entries base !! p) as [b|]; simpl; try done.
  by case_bool_decide.
Qed.

Lemma apply_ops_lookup l m p :
  NoDup l.*1 →
  apply_ops l m !! p =
  match find_first (λ e, bool_decide (e.1 = p)) l with
  | Some (_, op) => op_addr op
  | None => m !! p
  end.
Proof.
  revert m. induction l as [|[q op] l IH]; intros m; csimpl; [done|].
  intros [Hq Hn]%NoDup_cons. rewrite IH by done. case_bool_decide as E; simpl.
  - subst q. replace (find_first (λ e, bool_decide (e.1 = p)) l) with (@None (LogicalPath * DeltaOp)).
    + destruct op; simpl; by rewrite ?lookup_insert_eq, ?lookup_delete_eq.
    + symmetry. apply find_first_None. intros [q b] Hin. apply bool_decide_false. simpl. intros ->.
      apply Hq, list_elem_of_fmap. by exists (p, b).
  - destruct op; by rewrite ?lookup_insert_ne, ?lookup_delete_ne by done.
Qed.

Lemma find_delta d p :
  find_first (λ e, bool_decide (e.1 = p)) (delta_iter d) = (λ o, (p, o)) <$> ops d !! p.
Proof.
  assert (∀ q o, (q, o) ∈ delta_iter d ↔ ops d !! q = Some o) as Hin.
  { intros. unfold delta_iter. by rewrite sorted_map_to_list_perm, elem_of_map_to_list. }
  destruct (find_first _ (delta_iter d)) as [[q a]|] eqn:Hf.
  - apply find_first_Some in Hf as [Hq Heq]. apply bool_decide_eq_true in Heq. simpl in Heq. subst q.
    apply Hin in Hq. by rewrite Hq.
  - destruct (ops d !! p) as [a|] eqn:Ha; [|done]. rewrite find_first_None in Hf.
    apply Hin in Ha. specialize (Hf _ Ha). by rewrite bool_decide_true in Hf.
Qed.

Lemma index_apply_lookup self d p :
  entries (index_apply self d) !! p =
  match ops d !! p with Some op => op_addr op | None => entries self !! p end.
Proof.
  simpl. rewrite apply_ops_lookup, find_delta.
  - by destruct (ops d !! p).
  - unfold delta_iter. rewrite sorted_map_to_list_perm. apply NoDup_fst_map_to_list.
Qed.

Lemma index_ext (i j : SymlinkIndex) : (∀ p, entries i !! p = entries j !! p) → i = j.
Proof. intros Hij. destruct i, j. f_equal. by apply map_eq. Qed.

Lemma index_apply_diff (self base : SymlinkIndex) : index_apply base (index_diff self base) = self.
Proof.
  apply index_ext. intros p. rewrite index_apply_lookup, index_diff_lookup.
  destruct (entries self !! p) as [a|], (entries base !! p) as [b|]; simpl; try done.
  case_bool_decide; simpl; by subst.
Qed.

(** Deltas are exact: applying the difference between two indexes to the older
    one gives the newer one; the difference names only paths that really
    differ; and a root delta is the difference from the empty index. *)
Theorem index_diff_apply (self base : SymlinkIndex) :
  index_apply base (index_diff self base) = self ∧
  (∀ p, is_Some (ops (index_diff self base) !! p) ↔ entries self !! p ≠ entries base !! p) ∧
  index_diff self index_new = delta_from_root self.
Proof.
  split_and!; [apply index_apply_diff| |].
  - intros p. rewrite index_diff_lookup.
    destruct (entries self !! p) as [a|], (entries base !! p) as [b|]; simpl;
      try case_bool_decide; split; try done; try (intros [? ?]; congruence); eauto; congruence.
  - unfold delta_from_root. destruct (index_diff self index_new) as [m] eqn:Hd. f_equal.
    apply map_eq. intros p. pose proof (index_diff_lookup self index_new p) as Hp.
    rewrite Hd in Hp. simpl in Hp. rewrite Hp, lookup_empty, lookup_fmap.
    by destruct (entries self !! p).
Qed.

(** ** Merging *)

(** What one round adds for its path: the merged entry and the conflict. *)
Definition merged_at (b o t : option ContentAddr) : option ContentAddr :=
  match o, t with
  | Some ov, Some tv => if bool_decide (Some tv = b) then Some ov else Some tv
  | Some ov, None => Some ov
  | None, Some tv => Some tv
  | None, None => None
  end.

Definition conflict_at (p : LogicalPath) (b o t : option ContentAddr) : option Conflict :=
  let c x y := Some {| conflict_path := p; ours := x; theirs := y; conflict_base := b |} in
  match o, t with
  | Some ov, Some tv =>
      if bool_decide (Some tv = b) || bool_decide (Some ov = b) || bool_decide (ov = tv)
      then None else c ov tv
  | None, Some tv => match b with Some _ => c deleted_addr tv | None => None end
  | Some ov, None => match b with Some _ => c ov deleted_addr | None => None end
  | None, None => None
  end.

Lemma merge_path_eq p b o t m cs :
  merge_path p b o t (m, cs) =
  (match merged_at b o t with Some a => <[p := a]> m | None => m end,
   match conflict_at p b o t with Some c => cs ++ [c] | None => cs end).
Proof.
  unfold merge_path, merged_at, conflict_at.
  destruct b as [b|], o as [o|], t as [t|]; simpl; try done;
    repeat case_bool_decide; simplify_eq; simpl; done.
Qed.

Section MergeLoop.
Context (base our their : SymlinkIndex).

Abbreviation b p := (entries base !! p).
Abbreviation o p := (entries our !! p).
Abbreviation t p := (entries their !! p).

Lemma merge_loop_spec ps m cs :
  NoDup ps → (∀ p, p ∈ ps → m !! p = None) →
  let r := merge_loop ps base our their (m, cs) in
  (∀ p, r.1 !! p = if decide (p ∈ ps) then merged_at (b p) (o p) (t p) else m !! p) ∧
  r.2 = cs ++ omap (λ p, conflict_at p (b p) (o p) (t p)) ps.
Proof.
  intros Hn. revert m cs. induction Hn as [|q ps Hq Hn IH]; intros m cs Hm.
  { split; [|simpl; by rewrite app_nil_r]. intros p. rewrite decide_False by (by intros ?%elem_of_nil). done. }
  cbn [merge_loop]. rewrite merge_path_eq. cbv zeta.
  edestruct IH as [Hl Hc]; [|split; [intros p; rewrite Hl|rewrite Hc]].
  { intros p Hp. assert (p ≠ q) by (by intros ->). destruct (merged_at _ _ _);
      rewrite ?lookup_insert_ne by done; apply Hm; by right. }
  - destruct (decide (p = q)) as [->|Hne].
    + rewrite decide_False, decide_True by (done || by left).
      destruct (merged_at (b q) (o q) (t q)) eqn:E; [apply lookup_insert_eq|]. apply Hm. by left.
    + rewrite (decide_ext (p ∈ q :: ps) (p ∈ ps)) by (rewrite elem_of_cons; naive_solver).
      case_decide; [done|]. destruct (merged_at _ _ _); by rewrite ?lookup_insert_ne.
  - csimpl. destruct (conflict_at q (b q) (o q) (t q)); [|done]. by rewrite <- app_assoc.
Qed.

Lemma three_way_merge_lookup p :
  entries (three_way_merge base our their).1 !! p = merged_at (b p) (o p) (t p) ∧
  (∀ c, c ∈ (three_way_merge base our their).2 ↔
        ∃ q, conflict_at q (b q) (o q) (t q) = Some c).
Proof.
  unfold three_way_merge.
  destruct (merge_loop_spec (all_paths base our their) ∅ []) as [Hl Hc].
  { apply NoDup_all_paths. } { intros. apply lookup_empty. }
  destruct (merge_loop _ _ _ _ _) as [m cs]. simpl in *. split.
  - rewrite Hl. case_decide as Hp; [done|]. rewrite elem_of_all_paths in Hp.
    destruct (b p), (o p), (t p); try (exfalso; apply Hp; eauto; fail). apply lookup_empty.
  - intros c. rewrite Hc, list_elem_of_omap. split; [naive_solver|]. intros [q Hq]. exists q.
    split; [|done]. apply elem_of_all_paths.
    destruct (b q), (o q), (t q); simpl in Hq; try done; eauto.
Qed.
End MergeLoop.

Definition has_conflict (p : LogicalPath) (cs : list Conflict) : Prop :=
  ∃ c, c ∈ cs ∧ conflict_path c = p.

Lemma conflict_at_path p b o t c : conflict_at p b o t = Some c → conflict_path c = p.
Proof.
  unfold conflict_at. destruct b, o, t; simpl; try done; try (intros [= <-]; done);
    repeat case_bool_decide; simpl; try done; intros [= <-]; done.
Qed.

Lemma has_conflict_merge base our their p :
  has_conflict p (three_way_merge base our their).2 ↔
  is_Some (conflict_at p (entries base !! p) (entries our !! p) (entries their !! p)).
Proof.
  destruct (three_way_merge_lookup base our their p) as [_ Hc]. unfold has_conflict. split.
  - intros (c & [q Hq]%Hc & Hp). rewrite (conflict_at_path _ _ _ _ _ Hq) in Hp. subst q. eauto.
  - intros [c Hp]. exists c. split; [apply Hc; eauto|]. by eapply conflict_at_path.
Qed.

(** The three-way merge, path by path.  Where both sides agree the merge is
    that common entry, without conflict.  Where only one side changed the
    entry to something, the merge takes it, without conflict.  Where both
    changed it differently there is a conflict, and the merge keeps their
    entry, or ours if they deleted it. *)
Theorem three_way_merge_spec base our their p :
  let b := entries base !! p in
  let o := entries our !! p in
  let t := entries their !! p in
  let m := entries (three_way_merge base our their).1 !! p in
  let clash := has_conflict p (three_way_merge base our their).2 in
  (o = t → m = o ∧ ¬ clash) ∧
  (t = b → o ≠ b → is_Some o → m = o ∧ ¬ clash) ∧
  (o = b → t ≠ b → is_Some t → m = t ∧ ¬ clash) ∧
  (o ≠ b → t ≠ b → o ≠ t →
     clash ∧ m = match t with Some tv => Some tv | None => o end).
Proof.
  cbv zeta. rewrite has_conflict_merge.
  rewrite (proj1 (three_way_merge_lookup base our their p)).
  generalize (entries base !! p) (entries our !! p) (entries their !! p). intros b o t.
  unfold merged_at, conflict_at.
  split_and!; intros; destruct b as [b|], o as [o|], t as [t|]; simpl; simplify_eq; try done;
    repeat case_bool_decide; simplify_eq; simpl; split; try done; try (by intros [? ?]); eauto;
    by destruct_and?; try (exfalso; eauto; fail).
Qed.

(** A deletion on one side is never merged cleanly: if one side deleted an
    entry that the other left as it was in the base, the merge brings the
    entry back and reports a conflict. *)
Theorem merge_undoes_deletion base our their p a :
  entries base !! p = Some a →
  (entries our !! p = None → entries their !! p = Some a →
     entries (three_way_merge base our their).1 !! p = Some a ∧
     has_conflict p (three_way_merge base our their).2) ∧
  (entries our !! p = Some a → entries their !! p = None →
     entries (three_way_merge base our their).1 !! p = Some a ∧
     has_conflict p (three_way_merge base our their).2).
Proof.
  intros Hb. rewrite has_conflict_merge, (proj1 (three_way_merge_lookup base our their p)), Hb.
  split; intros -> ->; simpl; eauto.
Qed.

(** A merge without conflicts does not depend on which side is ours: swapping
    the sides gives the same index, again without conflicts. *)
Theorem clean_merge_symmetric base our their :
  (three_way_merge base our their).2 = [] →
  (three_way_merge base their our).2 = [] ∧
  (three_way_merge base their our).1 = (three_way_merge base our their).1.
Proof.
  intros Hc. assert (∀ p, conflict_at p (entries base !! p) (entries our !! p) (entries their !! p) = None) as Hno.
  { intros p. destruct (conflict_at _ _ _ _) as [c|] eqn:Hp; [|done].
    assert (has_conflict p (three_way_merge base our their).2) as (c' & Hc' & _)
      by (apply has_conflict_merge; eauto).
    rewrite Hc in Hc'. by apply elem_of_nil in Hc'. }
  split.
  - apply elem_of_nil_inv. intros c Hin.
    assert (has_conflict (conflict_path c) (three_way_merge base their our).2) as Hh by (exists c; done).
    apply has_conflict_merge in Hh as [c' Hc']. specialize (Hno (conflict_path c)).
    revert Hno Hc'. unfold conflict_at.
    destruct (entries base !! _), (entries our !! _), (entries their !! _); simpl; try done;
      repeat case_bool_decide; simplify_eq; simpl; try done; naive_solver.
  - apply index_ext. intros p. rewrite !(proj1 (three_way_merge_lookup _ _ _ p)).
    specialize (Hno p). revert Hno. unfold conflict_at, merged_at.
    destruct (entries base !! p), (entries our !! p), (entries their !! p); simpl; try done;
      repeat case_bool_decide; simplify_eq; simpl; try done.
Qed.
