(* ===== verification/Changeset.v ===== *)
(** * Changesets

    Models [indras-sync-engine/src/braid/changeset.rs]: the unit of change of
    the braid, its content-derived identifier and its signature.  The
    [postcard] encoding of the hashed fields, BLAKE3 and the signature scheme
    are parameters. *)

From S2P Require Import Prelude Crypto Index.

Abbreviation UserId := arr32.

(** [ChangeId([u8; 32])], with the derived lexicographic order. *)
Abbreviation ChangeId := arr32.

Record PatchFile : Type := { pf_path : string; pf_hash : arr32; pf_size : Z }.

#[global] Instance PatchFile_eq_dec : EqDecision PatchFile.
Proof. solve_decision. Defined.

Record PatchManifest : Type := { files : list PatchFile }.

#[global] Instance PatchManifest_eq_dec : EqDecision PatchManifest.
Proof. solve_decision. Defined.

(** The derived order of [PatchFile]: path, then hash, then size. *)
Definition patch_file_leb (a b : PatchFile) : bool :=
  if bool_decide (pf_path a = pf_path b) then
    if bool_decide (pf_hash a = pf_hash b) then pf_size a <=? pf_size b
    else arr32_leb (pf_hash a) (pf_hash b)
  else path_leb (pf_path a) (pf_path b).

Definition patch_manifest_new (fs : list PatchFile) : PatchManifest :=
  {| files := sort_by patch_file_leb fs |}.

Definition patch_file_of (e : LogicalPath * ContentAddr) : PatchFile :=
  {| pf_path := e.1; pf_hash := ca_hash e.2; pf_size := ca_size e.2 |}.

Definition manifest_of_index (i : SymlinkIndex) : PatchManifest :=
  {| files := patch_file_of <$> index_iter i |}.

Definition index_of_manifest (m : PatchManifest) : SymlinkIndex :=
  index_from_iter
    ((λ f, (pf_path f, {| ca_hash := pf_hash f; ca_size := pf_size f |})) <$> files m).

Inductive Evidence : Type :=
| EvAgent (compiled : bool) (tests_passed : list string) (lints_clean : bool) (runtime_ms : Z)
    (signed_by : UserId)
| EvHuman (approved_by : UserId) (approved_at_ms : Z) (message : option string).

#[global] Instance Evidence_eq_dec : EqDecision Evidence.
Proof. solve_decision. Defined.

Definition evidence_signed_by (e : Evidence) : UserId :=
  match e with
  | EvAgent _ _ _ _ signed_by => signed_by
  | EvHuman approved_by _ _ => approved_by
  end.

Definition evidence_human (user : UserId) (message : option string) (now : Z) : Evidence :=
  EvHuman user now message.

#[global] Instance PQSignature_eq_dec : EqDecision PQSignature.
Proof. solve_decision. Defined.

Record Changeset : Type := {
  cs_id : ChangeId;
  cs_author : UserId;
  parents : list ChangeId;
  intent : string;
  cs_index : SymlinkIndex;
  delta : IndexDelta;
  evidence : Evidence;
  timestamp_millis : Z;
  signature : PQSignature;
}.

#[global] Instance Changeset_eq_dec : EqDecision Changeset.
Proof. solve_decision. Defined.

(** [postcard::to_allocvec] on [(author, &sorted_parents, &patch, intent,
    timestamp_millis)]. *)
Class ChangesetPostcard : Type :=
  postcard_changeset : UserId → list ChangeId → PatchManifest → string → Z → list byte.

Definition cs_patch (c : Changeset) : PatchManifest := manifest_of_index (cs_index c).

Section Changeset.
Context `{Blake3, ChangesetPostcard}.

Definition compute_id (author : UserId) (ps : list ChangeId) (i : SymlinkIndex) (intent : string)
    (ts : Z) : ChangeId :=
  let sorted_parents := sort_by arr32_leb ps in
  blake3 (postcard_changeset author sorted_parents (manifest_of_index i) intent ts).

Definition compute_delta (i : SymlinkIndex) (parent_index : option SymlinkIndex) : IndexDelta :=
  match parent_index with
  | Some pi => index_diff i pi
  | None => delta_from_root i
  end.

Definition changeset_with_index `{Dilithium} (author : UserId) (ps : list ChangeId) (intent : string)
    (i : SymlinkIndex) (parent_index : option SymlinkIndex) (ev : Evidence) (ts : Z)
    (identity : PQIdentity) : Changeset :=
  let ps := sort_by arr32_leb ps in
  let id := compute_id author ps i intent ts in
  {| cs_id := id; cs_author := author; parents := ps; intent := intent; cs_index := i;
     delta := compute_delta i parent_index; evidence := ev; timestamp_millis := ts;
     signature := pq_sign identity (arr32_bytes id) |}.

Definition changeset_new_unsigned `{Dilithium} (author : UserId) (ps : list ChangeId)
    (intent : string) (i : SymlinkIndex) (parent_index : option SymlinkIndex) (ev : Evidence)
    (ts : Z) : Changeset :=
  let ps := sort_by arr32_leb ps in
  let id := compute_id author ps i intent ts in
  {| cs_id := id; cs_author := author; parents := ps; intent := intent; cs_index := i;
     delta := compute_delta i parent_index; evidence := ev; timestamp_millis := ts;
     signature := pq_signature_dummy |}.

Definition changeset_new `{Dilithium} (author : UserId) (ps : list ChangeId) (intent : string)
    (patch : PatchManifest) (ev : Evidence) (ts : Z) : Changeset :=
  changeset_new_unsigned author ps intent (index_of_manifest patch) None ev ts.

Definition cs_verify_signature `{Dilithium} (c : Changeset) (key : PQPublicIdentity) : bool :=
  pq_verify key (arr32_bytes (cs_id c)) (signature c).

Definition cs_is_signed `{Dilithium} (c : Changeset) : bool :=
  negb (bool_decide (signature c = pq_signature_dummy)).
End Changeset.

(** ** Manifests *)

#[global] Instance patch_file_of_inj : Inj (=) (=) patch_file_of.
Proof. intros [p [h s]] [p' [h' s']]. by intros [= -> -> ->]. Qed.

Lemma index_iter_inj i j : index_iter i = index_iter j → i = j.
Proof.
  intros Hij. apply index_ext. intros p. apply option_eq. intros a.
  by rewrite <- !elem_of_index_iter, Hij.
Qed.

Lemma manifest_of_index_inj i j : manifest_of_index i = manifest_of_index j → i = j.
Proof.
  unfold manifest_of_index. intros [= Hf]. apply index_iter_inj.
  by apply (inj (fmap patch_file_of)) in Hf.
Qed.

Lemma from_iter_lookup l (m : gmap LogicalPath ContentAddr) p :
  NoDup l.*1 →
  foldl (λ m (e : LogicalPath * ContentAddr), <[e.1 := e.2]> m) m l !! p
  = match find_first (λ e, bool_decide (e.1 = p)) l with
    | Some (_, a) => Some a
    | None => m !! p
    end.
Proof.
  revert m. induction l as [|[q a] l IH]; intros m; csimpl; [done|].
  intros [Hq Hn]%NoDup_cons. rewrite IH by done. case_bool_decide as E; simpl.
  - subst q. replace (find_first (λ e, bool_decide (e.1 = p)) l) with (@None (LogicalPath * ContentAddr)).
    + by rewrite lookup_insert_eq.
    + symmetry. apply find_first_None. intros [q b] Hin. apply bool_decide_false. simpl. intros ->.
      apply Hq, list_elem_of_fmap. by exists (p, b).
  - by rewrite lookup_insert_ne.
Qed.

Lemma index_manifest_roundtrip i : index_of_manifest (manifest_of_index i) = i.
Proof.
  unfold index_of_manifest, manifest_of_index, index_from_iter; simpl.
  rewrite <- list_fmap_compose.
  assert ((λ f, (pf_path f, {| ca_hash := pf_hash f; ca_size := pf_size f |})) ∘ patch_file_of
          <$> index_iter i = index_iter i) as ->.
  { etransitivity; [|apply list_fmap_id]. apply list_fmap_ext. by intros _ [p [h s]] _. }
  apply index_ext. intros p. simpl. rewrite from_iter_lookup, find_entry by apply NoDup_index_paths.
  by destruct (entries i !! p).
Qed.

Lemma sort_ids_perm (l1 l2 : list ChangeId) :
  sort_by arr32_leb l1 = sort_by arr32_leb l2 ↔ l1 ≡ₚ l2.
Proof.
  split.
  - intros Heq. by rewrite <- (sort_by_perm arr32_leb l1), Heq, sort_by_perm.
  - intros Hp. assert (AntiSymm (=) (λ a b : ChangeId, arr32_leb a b = true)) by (intros ??; apply leb_antisym).
    eapply (StronglySorted_unique (λ a b, arr32_leb a b = true));
      [apply (sort_by_sorted arr32_leb)..|]. by rewrite !sort_by_perm.
Qed.

Section ChangesetFacts.
Context `{Blake3, ChangesetPostcard}.

(** The bytes that are hashed into a change identifier. *)
Definition encoded (a : UserId) (ps : list ChangeId) (i : SymlinkIndex) (m : string) (t : Z)
    : list byte :=
  postcard_changeset a (sort_by arr32_leb ps) (manifest_of_index i) m t.

Definition same_fields (a a' : UserId) (ps ps' : list ChangeId) (i i' : SymlinkIndex)
    (m m' : string) (t t' : Z) : Prop :=
  a = a' ∧ ps ≡ₚ ps' ∧ i = i' ∧ m = m' ∧ t = t'.

(** A change identifier stands for its content: the order of the parents does
    not matter, and with an injective encoding two changesets share an
    identifier only if they agree on author, parents, index, intent and
    timestamp, or two different encodings have the same BLAKE3 hash (delta,
    evidence and signature are not part of it).  The index survives the trip
    through the hashed manifest. *)
Theorem change_id_spec a a' ps ps' i i' m m' t t' :
  (∀ b qs f n u b' qs' f' n' u',
     postcard_changeset b qs f n u = postcard_changeset b' qs' f' n' u' →
     b = b' ∧ qs = qs' ∧ f = f' ∧ n = n' ∧ u = u') →
  (same_fields a a' ps ps' i i' m m' t t' → compute_id a ps i m t = compute_id a' ps' i' m' t') ∧
  (compute_id a ps i m t = compute_id a' ps' i' m' t' →
   same_fields a a' ps ps' i i' m m' t t' ∨
   (encoded a ps i m t ≠ encoded a' ps' i' m' t' ∧
    blake3 (encoded a ps i m t) = blake3 (encoded a' ps' i' m' t'))) ∧
  index_of_manifest (manifest_of_index i) = i.
Proof.
  intros Hinj. split_and!; [| |apply index_manifest_roundtrip]; unfold compute_id.
  - intros (-> & ->%sort_ids_perm & -> & -> & ->). done.
  - intros Heq. destruct (decide (encoded a ps i m t = encoded a' ps' i' m' t')) as [He|He]; [left|by right].
    apply Hinj in He as (-> & Hps%sort_ids_perm & Hi%manifest_of_index_inj & -> & ->). done.
Qed.

(** A delta leads from the parent's index to the changeset's. *)
Lemma compute_delta_apply i pi : index_apply (default index_new pi) (compute_delta i pi) = i.
Proof.
  destruct pi as [b|]; simpl; [apply index_apply_diff|].
  apply index_ext. intros p. rewrite index_apply_lookup. simpl. rewrite lookup_fmap, lookup_empty.
  by destruct (entries i !! p).
Qed.

(** A signed changeset verifies under its author's key, while one with the
    dummy signature does not count as signed; its identifier does not depend
    on the order of the parents; and applying its delta to the parent's index
    gives its own index. *)
Theorem changeset_signed_spec `{DilithiumLaws} author ps m i pi ev t identity :
  identity_ok identity →
  let c := changeset_with_index author ps m i pi ev t identity in
  cs_verify_signature c (pq_identity_verifying_key identity) = true ∧
  cs_is_signed (changeset_new_unsigned author ps m i pi ev t) = false ∧
  cs_id c = compute_id author ps i m t ∧
  index_apply (default index_new pi) (delta c) = i.
Proof.
  intros Hid c. split_and!.
  - by apply pq_sign_verify.
  - unfold cs_is_signed. simpl. by rewrite bool_decide_true.
  - unfold c, compute_id. simpl. unfold compute_id. do 2 f_equal.
    by apply sort_ids_perm, sort_by_perm.
  - apply compute_delta_apply.
Qed.
End ChangesetFacts.
