(* ===== verification/Braid.v ===== *)
(** * The braid: a replicated DAG of changesets

    Models [indras-sync-engine/src/braid/dag.rs].  First the two search loops
    of that file, over any type of nodes: [ancestors] marks a node when it is
    taken from the queue, [descendants_inclusive] when it is put there.  They
    are loops with fuel that return [None] when it runs out; both are shown to
    compute reachability whenever the fuel exceeds a bound that the callers
    meet.  Then the DAG itself; the clock is an argument. *)

From S2P Require Import Prelude Crypto Index Changeset.

(** ** Breadth-first search *)

Section Search.
Context {K : Type} `{Countable K}.
Implicit Types (seen : gset K) (queue : list K) (x y z : K).

(** The [while let] loop of [ancestors]: a popped node is marked, and its
    unmarked parents ([succ]) are queued. *)
Fixpoint ancestors_loop (fuel : nat) (succ : K → list K) seen queue : option (gset K) :=
  match fuel with
  | O => None
  | S fuel =>
      match queue with
      | [] => Some seen
      | next :: queue =>
          if bool_decide (next ∈ seen) then ancestors_loop fuel succ seen queue
          else
            let seen := {[ next ]} ∪ seen in
            ancestors_loop fuel succ seen
              (queue ++ retain (λ p, negb (bool_decide (p ∈ seen))) (succ next))
      end
  end.

(** The inner [for] loop of [descendants_inclusive]: unmarked children are
    marked and queued. *)
Fixpoint push_kids (kids : list K) (acc : gset K * list K) : gset K * list K :=
  match kids with
  | [] => acc
  | k :: kids =>
      let (seen, queue) := acc in
      push_kids kids
        (if bool_decide (k ∈ seen) then (seen, queue) else ({[ k ]} ∪ seen, queue ++ [k]))
  end.

Fixpoint descendants_loop (fuel : nat) (children : K → list K) seen queue : option (gset K) :=
  match fuel with
  | O => None
  | S fuel =>
      match queue with
      | [] => Some seen
      | next :: queue =>
          let (seen, queue) := push_kids (children next) (seen, queue) in
          descendants_loop fuel children seen queue
      end
  end.

End Search.

(** ** Marking on removal *)

Section Ancestors.
Context {K : Type} `{Countable K} (succ : K → list K).
Implicit Types (seen : gset K) (queue : list K) (x y z : K).

Definition succ_edge x y : Prop := y ∈ succ x.

(** The edges out of the listed nodes not visited yet. *)
Definition pending_edges seen (nodes : list K) : nat :=
  foldr (λ k n, (if bool_decide (k ∈ seen) then n else length (succ k) + n)%nat) 0%nat nodes.

Lemma pending_edges_skip x seen nodes :
  x ∉ nodes → pending_edges ({[ x ]} ∪ seen) nodes = pending_edges seen nodes.
Proof.
  induction nodes as [|k nodes IH]; simpl; [done|]. intros [Hk Hl]%not_elem_of_cons.
  rewrite IH by done. rewrite (bool_decide_ext (k ∈ {[ x ]} ∪ seen) (k ∈ seen)) by set_solver. done.
Qed.

Lemma pending_edges_visit x seen nodes :
  NoDup nodes → x ∉ seen → x ∈ nodes →
  pending_edges seen nodes = (length (succ x) + pending_edges ({[ x ]} ∪ seen) nodes)%nat.
Proof.
  induction nodes as [|k nodes IH]; simpl; [by intros _ _ ?%elem_of_nil|].
  intros [Hk Hn]%NoDup_cons Hx [->|Hin]%elem_of_cons.
  - rewrite (bool_decide_false (k ∈ seen)), bool_decide_true by set_solver.
    by rewrite pending_edges_skip.
  - rewrite (IH Hn Hx Hin). assert (k ≠ x) as Hkx by (by intros ->).
    rewrite (bool_decide_ext (k ∈ {[ x ]} ∪ seen) (k ∈ seen)) by set_solver.
    case_bool_decide; lia.
Qed.

(** What was visited or queued is reachable from [id], and nothing reachable
    was forgotten. *)
Record search_ok (id : K) seen queue : Prop := {
  search_sound x : x ∈ seen ∨ x ∈ queue → tc succ_edge id x;
  search_start x : succ_edge id x → x ∈ seen ∨ x ∈ queue;
  search_closed x y : x ∈ seen → succ_edge x y → y ∈ seen ∨ y ∈ queue;
}.

Lemma search_ok_skip id seen x queue :
  x ∈ seen → search_ok id seen (x :: queue) → search_ok id seen queue.
Proof.
  intros Hx [Hs Hstart Hc]. split.
  - intros y Hy. apply Hs. rewrite elem_of_cons. tauto.
  - intros y Hy. destruct (Hstart y Hy) as [|[->|]%elem_of_cons]; auto.
  - intros y z Hy Hz. destruct (Hc y z Hy Hz) as [|[->|]%elem_of_cons]; auto.
Qed.

Lemma search_ok_visit id seen x queue :
  search_ok id seen (x :: queue) →
  search_ok id ({[ x ]} ∪ seen)
    (queue ++ retain (λ p, negb (bool_decide (p ∈ {[ x ]} ∪ seen))) (succ x)).
Proof.
  intros [Hs Hstart Hc].
  assert (tc succ_edge id x) as Hx by (apply Hs; right; by left).
  split; [intros y|intros y|intros y z]; rewrite ?elem_of_app, ?elem_of_retain, ?negb_true_iff,
    ?bool_decide_eq_false, ?elem_of_union, ?elem_of_singleton.
  - intros [[->|?]|[?|[Hy _]]]; [done|apply Hs..|]; [by left|right; by right|].
    eapply tc_r; [exact Hx|exact Hy].
  - intros Hy. destruct (Hstart y Hy) as [|[->|]%elem_of_cons]; auto.
  - intros [->|Hy] Hz.
    + destruct (decide (z ∈ {[ x ]} ∪ seen)) as [Hin|Hin]; [set_solver|].
      right. right. split; [exact Hz|set_solver].
    + destruct (Hc y z Hy Hz) as [|[->|]%elem_of_cons]; auto.
Qed.

(** [nodes] lists every node that has successors. *)
Lemma ancestors_loop_ok (nodes : list K) id fuel seen queue :
  NoDup nodes → (∀ x, x ∉ nodes → succ x = []) → search_ok id seen queue →
  (length queue + pending_edges seen nodes < fuel)%nat →
  ∃ s, ancestors_loop fuel succ seen queue = Some s ∧ search_ok id s [].
Proof.
  intros Hn Hnodes. revert seen queue.
  induction fuel as [|fuel IH]; intros seen queue Hok Hfuel; [lia|].
  destruct queue as [|x queue]; simpl in *; [eauto|].
  case_bool_decide as Hx; (apply IH; [by eauto using search_ok_skip, search_ok_visit|]); [lia|].
  rewrite length_app.
  pose proof (retain_length (λ p, negb (bool_decide (p ∈ {[ x ]} ∪ seen))) (succ x)).
  destruct (decide (x ∈ nodes)) as [Hin|Hin].
  - rewrite (pending_edges_visit x seen nodes) in Hfuel by done. lia.
  - rewrite (Hnodes x Hin) in *. rewrite pending_edges_skip by done. simpl in *. lia.
Qed.

Lemma search_done id s : search_ok id s [] → ∀ x, x ∈ s ↔ tc succ_edge id x.
Proof.
  intros [Hs Hstart Hc] x. split; [intros; apply Hs; by left|].
  assert (∀ y z, tc succ_edge y z → y = id ∨ y ∈ s → z ∈ s) as Hreach.
  { induction 1 as [y z Hyz|y z w Hyz _ IH]; intros [->|Hy].
    - destruct (Hstart z Hyz) as [|?%elem_of_nil]; done.
    - destruct (Hc y z Hy Hyz) as [|?%elem_of_nil]; done.
    - apply IH. right. destruct (Hstart z Hyz) as [|?%elem_of_nil]; done.
    - apply IH. right. destruct (Hc y z Hy Hyz) as [|?%elem_of_nil]; done. }
  intros Hx. apply (Hreach id x Hx). by left.
Qed.

Lemma ancestors_search (nodes : list K) id fuel :
  NoDup nodes → (∀ x, x ∉ nodes → succ x = []) →
  (length (succ id) + pending_edges ∅ nodes < fuel)%nat →
  ∃ s, ancestors_loop fuel succ ∅ (succ id) = Some s ∧ ∀ x, x ∈ s ↔ tc succ_edge id x.
Proof.
  intros Hn Hnodes Hfuel.
  destruct (ancestors_loop_ok nodes id fuel ∅ (succ id)) as (s & Hs & Hok); try done.
  - split; [intros x [?|?]; [set_solver|by apply tc_once]|by right|set_solver].
  - exists s. split; [done|]. by apply search_done.
Qed.

End Ancestors.

(** ** Marking on insertion *)

Section Descendants.
Context {K : Type} `{Countable K} (children : K → list K).
Implicit Types (seen : gset K) (queue : list K) (x y z : K).

Lemma push_kids_ok (kids : list K) seen queue (seen' : gset K) (queue' : list K) (U : gset K) :
  push_kids kids (seen, queue) = (seen', queue') → (∀ k, k ∈ kids → k ∈ U) →
  (∀ x, x ∈ seen' ↔ x ∈ seen ∨ x ∈ kids) ∧
  (∀ x, x ∈ queue → x ∈ queue') ∧ (∀ x, x ∈ queue' → x ∈ queue ∨ x ∈ kids) ∧
  (∀ x, x ∈ seen' → x ∈ seen ∨ x ∈ queue') ∧
  (length queue' + size (U ∖ seen') <= length queue + size (U ∖ seen))%nat.
Proof.
  revert seen queue. induction kids as [|k kids IH]; intros seen queue; simpl.
  { intros [= <- <-] _. split_and!; auto; set_solver. }
  intros Hp HU. case_bool_decide as Hk;
    (destruct (IH _ _ Hp) as (Hs & Hq & Hq' & Hsq & Hlen); [intros; apply HU; by right|]).
  - split_and!; [|done| |done|done].
    + intros x. rewrite Hs, elem_of_cons. naive_solver.
    + intros x Hx. destruct (Hq' x Hx); rewrite elem_of_cons; auto.
  - split_and!.
    + intros x. rewrite Hs, elem_of_cons. set_solver.
    + intros x Hx. apply Hq, elem_of_app. by left.
    + intros x Hx. destruct (Hq' x Hx) as [[|?%list_elem_of_singleton]%elem_of_app|];
        rewrite elem_of_cons; auto.
    + intros x Hx. destruct (Hsq x Hx) as [[->%elem_of_singleton|]%elem_of_union|]; auto.
      right. apply Hq, elem_of_app. right. by left.
    + rewrite length_app in Hlen. simpl in Hlen.
      assert (size (U ∖ seen) = S (size (U ∖ ({[ k ]} ∪ seen)))) as Hsz; [|lia].
      assert (k ∈ U) by (apply HU; by left).
      rewrite (union_difference_L {[ k ]} (U ∖ seen)) by set_solver.
      rewrite size_union, size_singleton by set_solver. simpl. do 2 f_equal. set_solver.
Qed.

Definition child_edge x y : Prop := y ∈ children x.

Record forward_ok (id : K) seen queue : Prop := {
  fwd_sound x : x ∈ seen → rtc child_edge id x;
  fwd_start : id ∈ seen;
  fwd_queue x : x ∈ queue → x ∈ seen;
  fwd_closed x y : x ∈ seen → child_edge x y → x ∈ queue ∨ y ∈ seen;
}.

(** [U] contains every node that is somebody's child. *)
Lemma descendants_loop_ok (U : gset K) id fuel seen queue :
  (∀ x y, child_edge x y → y ∈ U) → forward_ok id seen queue →
  (length queue + size (U ∖ seen) < fuel)%nat →
  ∃ s, descendants_loop fuel children seen queue = Some s ∧ forward_ok id s [].
Proof.
  intros HU. revert seen queue. induction fuel as [|fuel IH]; intros seen queue Hok Hfuel; [lia|].
  destruct queue as [|x queue]; simpl in *; [eauto|].
  destruct (push_kids _ _) as [seen' queue'] eqn:Hp.
  destruct (push_kids_ok _ _ _ _ _ U Hp (HU x)) as (Hs' & Hq & Hq' & Hsq & Hlen).
  destruct Hok as [Hs Hst Hqs Hc]. apply IH; [|lia]. split.
  - intros y [Hy|Hy]%Hs'; [by apply Hs|]. eapply rtc_r; [|exact Hy]. apply Hs, Hqs. by left.
  - apply Hs'. by left.
  - intros y Hy. apply Hs'. destruct (Hq' y Hy) as [Hy'|Hy']; [left; apply Hqs; by right|by right].
  - intros y z Hy Hz. destruct (Hsq y Hy) as [Hy'|Hy']; [|by left].
    destruct (Hc y z Hy' Hz) as [[->|Hyq]%elem_of_cons|Hz'].
    + right. apply Hs'. by right.
    + left. by apply Hq.
    + right. apply Hs'. by left.
Qed.

Lemma forward_done id s : forward_ok id s [] → ∀ x, x ∈ s ↔ rtc child_edge id x.
Proof.
  intros [Hs Hst _ Hc] x. split; [apply Hs|]. intros Hr.
  assert (∀ y, rtc child_edge y x → y ∈ s → x ∈ s) as Hreach.
  { induction 1 as [|y z w Hyz _ IH]; [done|]. intros Hy. apply IH; [done|].
    destruct (Hc y z Hy Hyz) as [?%elem_of_nil|]; done. }
  by apply (Hreach id).
Qed.

Lemma descendants_search (U : gset K) id fuel :
  (∀ x y, child_edge x y → y ∈ U) → (S (size U) < fuel)%nat →
  ∃ s, descendants_loop fuel children {[ id ]} [id] = Some s ∧ ∀ x, x ∈ s ↔ rtc child_edge id x.
Proof.
  intros HU Hfuel. destruct (descendants_loop_ok U id fuel {[ id ]} [id] HU) as (s & Hs & Hok).
  - split; [by intros x ->%elem_of_singleton|set_solver| |].
    + intros x ->%list_elem_of_singleton. set_solver.
    + intros x y ->%elem_of_singleton _. left. by left.
  - simpl. assert (size (U ∖ {[id]}) ≤ size U)%nat by (apply subseteq_size; set_solver). lia.
  - exists s. split; [done|]. by apply forward_done.
Qed.
End Descendants.

(** ** The DAG *)

Record PeerState : Type := {
  head : ChangeId;
  head_index : SymlinkIndex;
  updated_ms : Z;
}.

#[global] Instance PeerState_eq_dec : EqDecision PeerState.
Proof. solve_decision. Defined.

Record BraidDag : Type := {
  changesets : gmap ChangeId Changeset;
  peer_heads : gmap UserId PeerState;
}.

#[global] Instance BraidDag_eq_dec : EqDecision BraidDag.
Proof. solve_decision. Defined.

Definition head_manifest (s : PeerState) : PatchManifest := manifest_of_index (head_index s).

Definition dag_new : BraidDag := {| changesets := ∅; peer_heads := ∅ |}.

Definition set_changesets (m : gmap ChangeId Changeset) (d : BraidDag) : BraidDag :=
  {| changesets := m; peer_heads := peer_heads d |}.

(** [entry(key).or_insert(value)]. *)
Definition or_insert {K V} `{Countable K} (k : K) (v : V) (m : gmap K V) : gmap K V :=
  match m !! k with Some _ => m | None => <[k := v]> m end.

Definition dag_insert (c : Changeset) (d : BraidDag) : BraidDag :=
  set_changesets (or_insert (cs_id c) c (changesets d)) d.

Definition dag_get (id : ChangeId) (d : BraidDag) : option Changeset := changesets d !! id.

Definition dag_len (d : BraidDag) : nat := size (changesets d).

Definition dag_is_empty (d : BraidDag) : bool := bool_decide (dag_len d = 0%nat).

Definition dag_contains (id : ChangeId) (d : BraidDag) : bool :=
  bool_decide (is_Some (changesets d !! id)).

(** [self.changesets.values()], in some order. *)
Definition changeset_values (d : BraidDag) : list Changeset := (map_to_list (changesets d)).*2.

Definition all_parents (d : BraidDag) : gset ChangeId :=
  foldl (λ s c, foldl (λ s p, {[ p ]} ∪ s) s (parents c)) ∅ (changeset_values d).

Definition heads (d : BraidDag) : gset ChangeId :=
  let ps := all_parents d in
  list_to_set (retain (λ id, negb (bool_decide (id ∈ ps))) (map_to_list (changesets d)).*1).

Definition update_peer_head (user : UserId) (h : ChangeId) (i : SymlinkIndex) (now : Z)
    (d : BraidDag) : BraidDag :=
  {| changesets := changesets d;
     peer_heads := <[user := {| head := h; head_index := i; updated_ms := now |}]> (peer_heads d) |}.

Definition peer_head (user : UserId) (d : BraidDag) : option PeerState := peer_heads d !! user.

Definition all_peer_heads (d : BraidDag) : gmap UserId PeerState := peer_heads d.

(** ** Ancestors *)

Definition parents_of (d : BraidDag) (id : ChangeId) : list ChangeId :=
  match changesets d !! id with Some c => parents c | None => [] end.

(** The number of parent edges stored in the DAG. *)
Definition edge_count (d : BraidDag) : nat :=
  foldr (λ c n, length (parents c) + n)%nat 0%nat (changeset_values d).

Definition ancestors (id : ChangeId) (d : BraidDag) : option (gset ChangeId) :=
  ancestors_loop (S (length (parents_of d id) + edge_count d)) (parents_of d) ∅ (parents_of d id).

(** ** References *)

Definition index_addrs (i : SymlinkIndex) (s : gset ContentAddr) : gset ContentAddr :=
  foldl (λ s e, {[ e.2 ]} ∪ s) s (index_iter i).

Definition live_addrs (d : BraidDag) : gset ContentAddr :=
  foldl (λ s ps, index_addrs (head_index ps) s) ∅ (map_to_list (peer_heads d)).*2.

Definition all_referenced_addrs (d : BraidDag) : gset ContentAddr :=
  foldl (λ s c, index_addrs (cs_index c) s)
    (foldl (λ s ps, index_addrs (head_index ps) s) ∅ (map_to_list (peer_heads d)).*2)
    (changeset_values d).

(** ** Descendants *)

(** [children.entry(p).or_default().push(id)] for every stored edge. *)
Definition push_child (m : gmap ChangeId (list ChangeId)) (p id : ChangeId)
    : gmap ChangeId (list ChangeId) :=
  <[p := default [] (m !! p) ++ [id]]> m.

Definition children_index (d : BraidDag) : gmap ChangeId (list ChangeId) :=
  foldl (λ m c, foldl (λ m p, push_child m p (cs_id c)) m (parents c)) ∅ (changeset_values d).

Definition descendants_inclusive (id : ChangeId) (d : BraidDag) : option (gset ChangeId) :=
  let children := children_index d in
  descendants_loop (S (S (dag_len d))) (λ next, default [] (children !! next)) {[ id ]} [id].

Definition rollup (checkpoint : ChangeId) (d : BraidDag) : option (BraidDag * gset ContentAddr) :=
  let before := all_referenced_addrs d in
  descendants ← descendants_inclusive checkpoint d;
  let d' := set_changesets (filter (λ e, e.1 ∈ descendants) (changesets d)) d in
  Some (d', before ∖ all_referenced_addrs d').

(** ** Merging *)

Definition merge_head (m : gmap UserId PeerState) (e : UserId * PeerState) : gmap UserId PeerState :=
  match m !! e.1 with
  | Some local_ps => if updated_ms e.2 <=? updated_ms local_ps then m else <[e.1 := e.2]> m
  | None => <[e.1 := e.2]> m
  end.

Definition dag_merge (self remote : BraidDag) : BraidDag :=
  {| changesets :=
       foldl (λ m e, or_insert e.1 e.2 m) (changesets self) (map_to_list (changesets remote));
     peer_heads := foldl merge_head (peer_heads self) (map_to_list (peer_heads remote)) |}.
