(* ===== verification/BraidFacts.v ===== *)
(** * Properties of the braid

    The searches of [Braid.v] compute reachability and terminate; rolling up
    keeps what is reachable; merging replicas. *)

From S2P Require Import Prelude Crypto Index Changeset Braid.

(** ** Folding sets together *)

Lemma foldl_insert_set {X} `{Countable X} (l : list X) (s : gset X) x :
  x ∈ foldl (λ s p, {[ p ]} ∪ s) s l ↔ x ∈ s ∨ x ∈ l.
Proof.
  revert s. induction l as [|y l IH]; intros s; simpl; [set_solver|]. rewrite IH. set_solver.
Qed.

Lemma foldl_union_set {X Y} `{Countable Y} (f : X → gset Y → gset Y) (g : X → Y → Prop) l s y :
  (∀ x s, y ∈ f x s ↔ y ∈ s ∨ g x y) →
  y ∈ foldl (λ s x, f x s) s l ↔ y ∈ s ∨ ∃ x, x ∈ l ∧ g x y.
Proof.
  intros Hf. revert s. induction l as [|x l IH]; intros s; simpl.
  { setoid_rewrite elem_of_nil. naive_solver. }
  rewrite IH, Hf. setoid_rewrite elem_of_cons. naive_solver.
Qed.

Lemma elem_of_changeset_values d c :
  c ∈ changeset_values d ↔ ∃ id, changesets d !! id = Some c.
Proof.
  unfold changeset_values. rewrite list_elem_of_fmap. split.
  - intros ([id c'] & -> & Hin). apply elem_of_map_to_list in Hin. eauto.
  - intros [id Hid]. exists (id, c). by rewrite elem_of_map_to_list.
Qed.

Lemma elem_of_all_parents d p :
  p ∈ all_parents d ↔ ∃ id c, changesets d !! id = Some c ∧ p ∈ parents c.
Proof.
  unfold all_parents.
  rewrite (foldl_union_set (λ c s, foldl (λ s p, {[ p ]} ∪ s) s (parents c)) (λ c p, p ∈ parents c)).
  - setoid_rewrite elem_of_changeset_values. set_solver.
  - intros c s. apply foldl_insert_set.
Qed.

(** The heads are exactly the stored changesets that no stored changeset names
    as a parent. *)
Theorem heads_spec (d : BraidDag) (id : ChangeId) :
  id ∈ heads d ↔
  is_Some (changesets d !! id) ∧ ∀ id' c, changesets d !! id' = Some c → id ∉ parents c.
Proof.
  unfold heads. rewrite elem_of_list_to_set, elem_of_retain, negb_true_iff, bool_decide_eq_false.
  rewrite elem_of_all_parents, list_elem_of_fmap. split.
  - intros [([k c] & -> & Hk) Hno]. apply elem_of_map_to_list in Hk. simpl. split; [eauto|].
    intros id' c' Hc' Hin. apply Hno. eauto.
  - intros [[c Hc] Hno]. split; [exists (id, c); by rewrite elem_of_map_to_list|].
    intros (id' & c' & Hc' & Hin). by apply (Hno id' c').
Qed.

(** ** Ancestors *)

(** [y] is a parent of the stored changeset [x]. *)
Definition edge (d : BraidDag) (x y : ChangeId) : Prop := y ∈ parents_of d x.

Lemma pending_edges_all d (l : list (ChangeId * Changeset)) :
  (∀ k c, (k, c) ∈ l → changesets d !! k = Some c) →
  pending_edges (parents_of d) ∅ l.*1 = foldr (λ c n, length (parents c) + n)%nat 0%nat l.*2.
Proof.
  induction l as [|[k c] l IH]; intros Hl; csimpl; [done|].
  rewrite bool_decide_false by set_solver. unfold parents_of at 1.
  rewrite (Hl k c) by by left. f_equal. apply IH. intros. apply Hl. by right.
Qed.

Lemma parents_of_missing d x : x ∉ (map_to_list (changesets d)).*1 → parents_of d x = [].
Proof.
  intros Hx. unfold parents_of. destruct (changesets d !! x) as [c|] eqn:Hc; [|done].
  exfalso. apply Hx, list_elem_of_fmap. exists (x, c). by rewrite elem_of_map_to_list.
Qed.

(** The search for ancestors terminates and is exact: it returns the
    changesets reachable from [id] along one or more parent pointers, those
    that are named as parents but missing from the DAG included. *)
Theorem ancestors_spec (d : BraidDag) (id : ChangeId) :
  ∃ s, ancestors id d = Some s ∧ ∀ x, x ∈ s ↔ tc (edge d) id x.
Proof.
  apply (ancestors_search (parents_of d) (map_to_list (changesets d)).*1).
  - apply NoDup_fst_map_to_list.
  - apply parents_of_missing.
  - rewrite pending_edges_all by (intros k c; apply elem_of_map_to_list).
    fold (changeset_values d). fold (edge_count d). lia.
Qed.

(** ** Descendants *)

(** Changesets are stored under their own identifier. *)
Definition dag_wf (d : BraidDag) : Prop := ∀ id c, changesets d !! id = Some c → cs_id c = id.

Lemma dag_wf_new : dag_wf dag_new.
Proof. intros id c Hc. simpl in Hc. by rewrite lookup_empty in Hc. Qed.

Lemma dag_wf_insert c d : dag_wf d → dag_wf (dag_insert c d).
Proof.
  intros Hwf id c'. unfold dag_insert, or_insert. simpl.
  destruct (changesets d !! cs_id c); [apply Hwf|].
  rewrite lookup_insert. case_decide as Hid; [|apply Hwf]. by intros [= <-].
Qed.

(** [y] is a stored changeset that names [x] as a parent. *)
Definition child (d : BraidDag) (x y : ChangeId) : Prop :=
  ∃ c, changesets d !! y = Some c ∧ x ∈ parents c.

Lemma push_child_lookup m p id x :
  default [] (push_child m p id !! x)
  = if bool_decide (p = x) then default [] (m !! x) ++ [id] else default [] (m !! x).
Proof.
  unfold push_child. case_bool_decide as E; [subst; by rewrite lookup_insert_eq|].
  by rewrite lookup_insert_ne.
Qed.

Lemma push_children_spec ps m id x y :
  y ∈ default [] (foldl (λ m p, push_child m p id) m ps !! x) ↔
  y ∈ default [] (m !! x) ∨ (y = id ∧ x ∈ ps).
Proof.
  revert m. induction ps as [|p ps IH]; intros m; simpl; [rewrite elem_of_nil; naive_solver|].
  rewrite IH, push_child_lookup, elem_of_cons. case_bool_decide as E; [subst p|naive_solver].
  rewrite elem_of_app, list_elem_of_singleton. naive_solver.
Qed.

Lemma children_index_spec d x y :
  dag_wf d → y ∈ default [] (children_index d !! x) ↔ child d x y.
Proof.
  intros Hwf. unfold children_index, child.
  assert (∀ l m, y ∈ default [] (foldl (λ m c, foldl (λ m p, push_child m p (cs_id c)) m (parents c)) m l !! x)
    ↔ y ∈ default [] (m !! x) ∨ ∃ c, c ∈ l ∧ cs_id c = y ∧ x ∈ parents c) as Hl.
  { induction l as [|c l IH]; intros m; simpl; [setoid_rewrite elem_of_nil; naive_solver|].
    rewrite IH, push_children_spec. setoid_rewrite elem_of_cons. naive_solver. }
  rewrite Hl, lookup_empty. simpl. rewrite elem_of_nil. setoid_rewrite elem_of_changeset_values. split.
  - intros [[]|(c & (id & Hid) & <- & Hx)]. exists c. by rewrite (Hwf id c Hid).
  - intros (c & Hy & Hx). right. exists c. split_and!; eauto.
Qed.

Lemma descendants_ok d id :
  dag_wf d → ∃ s, descendants_inclusive id d = Some s ∧ ∀ x, x ∈ s ↔ rtc (child d) id x.
Proof.
  intros Hwf. unfold descendants_inclusive.
  set (children := λ next, default [] (children_index d !! next)).
  assert (∀ x y, child_edge children x y ↔ child d x y) as Hce
    by (intros; by apply children_index_spec).
  destruct (descendants_search children (dom (changesets d)) id (S (S (dag_len d)))) as (s & Hs & Hr).
  - intros x y (c & Hc & _)%Hce. by apply elem_of_dom.
  - unfold dag_len. rewrite size_dom. lia.
  - exists s. split; [done|]. intros x. rewrite Hr. split; intros Hx.
    + eapply rtc_subrel; [|exact Hx]. intros ??. by apply Hce.
    + eapply rtc_subrel; [|exact Hx]. intros ??. by apply Hce.
Qed.

(** ** References and rolling up *)

Lemma elem_of_index_addrs i s a :
  a ∈ index_addrs i s ↔ a ∈ s ∨ ∃ p, entries i !! p = Some a.
Proof.
  unfold index_addrs.
  rewrite (foldl_union_set (λ e s, {[ e.2 ]} ∪ s) (λ e a, e.2 = a)) by set_solver.
  apply or_iff_compat_l. split.
  - intros ([p b] & Hin & <-). apply elem_of_index_iter in Hin. eauto.
  - intros [p Hp]. exists (p, a). by rewrite elem_of_index_iter.
Qed.

Definition in_index (a : ContentAddr) (i : SymlinkIndex) : Prop := ∃ p, entries i !! p = Some a.

Lemma elem_of_live_addrs d a :
  a ∈ live_addrs d ↔ ∃ u ps, peer_heads d !! u = Some ps ∧ in_index a (head_index ps).
Proof.
  unfold live_addrs.
  rewrite (foldl_union_set (λ ps s, index_addrs (head_index ps) s) (λ ps a, in_index a (head_index ps))).
  - setoid_rewrite list_elem_of_fmap. split.
    + intros [?|(ps & ([u ps'] & -> & Hu) & Ha)]; [set_solver|].
      apply elem_of_map_to_list in Hu. eauto.
    + intros (u & ps & Hu & Ha). right. exists ps. split; [|done]. exists (u, ps).
      by rewrite elem_of_map_to_list.
  - intros. apply elem_of_index_addrs.
Qed.

Lemma elem_of_all_referenced d a :
  a ∈ all_referenced_addrs d ↔
  a ∈ live_addrs d ∨ ∃ id c, changesets d !! id = Some c ∧ in_index a (cs_index c).
Proof.
  unfold all_referenced_addrs. fold (live_addrs d).
  rewrite (foldl_union_set (λ c s, index_addrs (cs_index c) s) (λ c a, in_index a (cs_index c)))
    by (intros; apply elem_of_index_addrs).
  setoid_rewrite elem_of_changeset_values. naive_solver.
Qed.

Lemma rollup_ok (d : BraidDag) (checkpoint : ChangeId) :
  dag_wf d →
  ∃ d' freed, rollup checkpoint d = Some (d', freed) ∧
    peer_heads d' = peer_heads d ∧
    (∀ id c, changesets d' !! id = Some c ↔
             changesets d !! id = Some c ∧ rtc (child d) checkpoint id) ∧
    (∀ a, a ∈ freed ↔
          (∃ id c, changesets d !! id = Some c ∧ in_index a (cs_index c)) ∧
          (∀ u ps, peer_heads d !! u = Some ps → ¬ in_index a (head_index ps)) ∧
          (∀ id c, changesets d !! id = Some c → rtc (child d) checkpoint id → ¬ in_index a (cs_index c))).
Proof.
  intros Hwf. destruct (descendants_ok d checkpoint Hwf) as (s & Hs & Hin).
  unfold rollup. rewrite Hs. simpl. do 2 eexists. split; [done|].
  assert (∀ id c, filter (λ e : ChangeId * Changeset, e.1 ∈ s) (changesets d) !! id = Some c ↔
    changesets d !! id = Some c ∧ rtc (child d) checkpoint id) as Hf.
  { intros id c. by rewrite map_lookup_filter_Some, Hin. }
  split_and!; [done|exact Hf|]. intros a.
  rewrite elem_of_difference, !elem_of_all_referenced, !elem_of_live_addrs. simpl.
  split.
  - intros [[Hlive|Hold] Hnot]; [by destruct Hnot; left|]. split_and!; [done| |].
    + intros u ps Hu Ha. apply Hnot. left. eauto.
    + intros id c Hc Hr Ha. apply Hnot. right. exists id, c. by rewrite Hf.
  - intros (Hold & Hlive & Hkept). split; [by right|]. intros [(u & ps & Hu & Ha)|(id & c & Hc & Ha)].
    + by apply (Hlive u ps).
    + apply Hf in Hc as [Hc Hr]. by apply (Hkept id c).
Qed.

(** C8. Rolling up at a checkpoint terminates, keeps exactly the changesets
    reachable forward from it and touches no peer head; the addresses it frees
    are those referenced before and by nothing that is left, in particular
    never one that a peer's head still uses. *)
Theorem rollup_spec (d : BraidDag) (checkpoint : ChangeId) :
  dag_wf d →
  ∃ d' freed, rollup checkpoint d = Some (d', freed) ∧
    peer_heads d' = peer_heads d ∧
    (∀ id c, changesets d' !! id = Some c ↔
             changesets d !! id = Some c ∧ rtc (child d) checkpoint id) ∧
    (∀ a, a ∈ freed ↔
          (∃ id c, changesets d !! id = Some c ∧ in_index a (cs_index c)) ∧
          (∀ u ps, peer_heads d !! u = Some ps → ¬ in_index a (head_index ps)) ∧
          (∀ id c, changesets d !! id = Some c → rtc (child d) checkpoint id → ¬ in_index a (cs_index c))).
Proof. apply rollup_ok. Qed.

(** ** Merging replicas *)

Definition pick_head (o r : option PeerState) : option PeerState :=
  match o, r with
  | Some l, Some r => if updated_ms r <=? updated_ms l then Some l else Some r
  | Some l, None => Some l
  | None, r => r
  end.

Lemma pick_head_assoc x y z : pick_head x (pick_head y z) = pick_head (pick_head x y) z.
Proof.
  destruct x as [p|], y as [q|], z as [r|]; simpl; try done;
    repeat (case_match; simplify_eq/=; try done); lia.
Qed.

Lemma merge_changesets_lookup l m (id : ChangeId) :
  NoDup l.*1 →
  foldl (λ m (e : ChangeId * Changeset), or_insert e.1 e.2 m) m l !! id
  = match m !! id with
    | Some c => Some c
    | None => snd <$> find_first (λ e, bool_decide (e.1 = id)) l
    end.
Proof.
  revert m. induction l as [|[k c] l IH]; intros m; csimpl.
  { intros _. by destruct (m !! id). }
  intros [Hk Hn]%NoDup_cons. rewrite IH by done. unfold or_insert. simpl.
  case_bool_decide as E; simpl.
  - subst k. destruct (m !! id) as [c'|] eqn:Hm; [by rewrite Hm|by rewrite lookup_insert_eq].
  - destruct (m !! k); [done|by rewrite lookup_insert_ne].
Qed.

Lemma merge_heads_lookup l m (u : UserId) :
  NoDup l.*1 →
  foldl merge_head m l !! u
  = pick_head (m !! u) (snd <$> find_first (λ e, bool_decide (e.1 = u)) l).
Proof.
  revert m. induction l as [|[k ps] l IH]; intros m; csimpl.
  { intros _. by destruct (m !! u). }
  intros [Hk Hn]%NoDup_cons. rewrite IH by done. unfold merge_head. simpl.
  case_bool_decide as E; simpl.
  - subst k. replace (find_first (λ e, bool_decide (e.1 = u)) l) with (@None (UserId * PeerState)).
    + simpl. destruct (m !! u) as [l'|] eqn:Hm; simpl.
      * destruct (updated_ms ps <=? updated_ms l'); simpl; [by rewrite Hm|by rewrite lookup_insert_eq].
      * by rewrite lookup_insert_eq.
    + symmetry. apply find_first_None. intros [q b] Hin. apply bool_decide_false. simpl. intros ->.
      apply Hk, list_elem_of_fmap. by exists (u, b).
  - destruct (m !! k) as [l'|]; [destruct (updated_ms ps <=? updated_ms l')|];
      by rewrite ?lookup_insert_ne by done.
Qed.

Lemma find_in_map {K V} `{Countable K} (m : gmap K V) k :
  snd <$> find_first (λ e, bool_decide (e.1 = k)) (map_to_list m) = m !! k.
Proof.
  destruct (find_first _ _) as [[q a]|] eqn:Hf; simpl.
  - apply find_first_Some in Hf as [Hin Hq]. apply bool_decide_eq_true in Hq. simpl in Hq. subst q.
    by apply elem_of_map_to_list in Hin.
  - destruct (m !! k) as [a|] eqn:Ha; [|done]. rewrite find_first_None in Hf.
    apply elem_of_map_to_list in Ha. specialize (Hf _ Ha). by rewrite bool_decide_true in Hf.
Qed.

Lemma dag_merge_changesets a b id :
  changesets (dag_merge a b) !! id
  = match changesets a !! id with Some c => Some c | None => changesets b !! id end.
Proof.
  simpl. rewrite merge_changesets_lookup by apply NoDup_fst_map_to_list. by rewrite find_in_map.
Qed.

Lemma dag_merge_heads a b u :
  peer_heads (dag_merge a b) !! u = pick_head (peer_heads a !! u) (peer_heads b !! u).
Proof.
  simpl. rewrite merge_heads_lookup by apply NoDup_fst_map_to_list. by rewrite find_in_map.
Qed.

Lemma dag_ext a b :
  (∀ id, changesets a !! id = changesets b !! id) → (∀ u, peer_heads a !! u = peer_heads b !! u) →
  a = b.
Proof. intros Hc Hp. destruct a, b. f_equal; by apply map_eq. Qed.

(** Two replicas that never disagree: the same content under a shared change
    id, the same head under a shared user and timestamp. *)
Definition coherent (a b : BraidDag) : Prop :=
  (∀ id c c', changesets a !! id = Some c → changesets b !! id = Some c' → c = c') ∧
  (∀ u p q, peer_heads a !! u = Some p → peer_heads b !! u = Some q → updated_ms p = updated_ms q → p = q).

Lemma dag_merge_assoc a b c : dag_merge a (dag_merge b c) = dag_merge (dag_merge a b) c.
Proof.
  apply dag_ext; intros k; rewrite ?dag_merge_changesets, ?dag_merge_heads.
  - by destruct (changesets a !! k).
  - apply pick_head_assoc.
Qed.

Lemma dag_merge_idem a : dag_merge a a = a.
Proof.
  apply dag_ext; intros k; rewrite ?dag_merge_changesets, ?dag_merge_heads.
  - by destruct (changesets a !! k).
  - destruct (peer_heads a !! k) as [p|]; simpl; [|done]. by case_match.
Qed.

Lemma dag_merge_comm a b : coherent a b → dag_merge a b = dag_merge b a.
Proof.
  intros [Hc Hp]. apply dag_ext; intros k; rewrite ?dag_merge_changesets, ?dag_merge_heads.
  - destruct (changesets a !! k) as [x|] eqn:Hx, (changesets b !! k) as [y|] eqn:Hy; try done.
    f_equal. by eapply Hc.
  - destruct (peer_heads a !! k) as [p|] eqn:Hx, (peer_heads b !! k) as [q|] eqn:Hy; simpl; try done.
    destruct (updated_ms q <=? updated_ms p) eqn:E1, (updated_ms p <=? updated_ms q) eqn:E2;
      try done; try lia. f_equal. eapply Hp; [done..|]. lia.
Qed.

(** C6. Merging replicas is associative and idempotent, keeps every changeset of
    both sides and never moves a head backwards in time; for coherent
    replicas it is commutative, so that any order of syncs converges. *)
Theorem dag_merge_semilattice (a b c : BraidDag) :
  dag_merge a (dag_merge b c) = dag_merge (dag_merge a b) c ∧
  dag_merge a a = a ∧
  (∀ id, is_Some (changesets (dag_merge a b) !! id) ↔
         is_Some (changesets a !! id) ∨ is_Some (changesets b !! id)) ∧
  (∀ u p, peer_heads a !! u = Some p ∨ peer_heads b !! u = Some p →
          ∃ q, peer_heads (dag_merge a b) !! u = Some q ∧ updated_ms p <= updated_ms q) ∧
  (coherent a b → dag_merge a b = dag_merge b a).
Proof.
  split_and!; [apply dag_merge_assoc|apply dag_merge_idem| | |apply dag_merge_comm].
  - intros id. rewrite dag_merge_changesets. destruct (changesets a !! id); split; eauto.
    intros [[? ?]|?]; done.
  - intros u p Hp. rewrite dag_merge_heads.
    destruct (peer_heads a !! u) as [p1|], (peer_heads b !! u) as [p2|]; simpl; try case_match;
      destruct Hp as [[= <-]|[= <-]]; eexists; (split; [done|]); lia.
Qed.

(** Last-writer-wins has no tie-breaker: if two replicas hold different heads
    of the same user with the same timestamp, each keeps its own when they
    sync both ways, and no further exchange between them resolves it. *)
Theorem dag_merge_tie_diverges (a b : BraidDag) (u : UserId) p q :
  peer_heads a !! u = Some p → peer_heads b !! u = Some q → updated_ms p = updated_ms q → p ≠ q →
  let a' := dag_merge a b in
  let b' := dag_merge b a in
  peer_heads a' !! u = Some p ∧ peer_heads b' !! u = Some q ∧
  peer_heads (dag_merge a' b') !! u = Some p ∧ peer_heads (dag_merge b' a') !! u = Some q.
Proof.
  intros Hp Hq Ht Hne a' b'.
  assert (peer_heads a' !! u = Some p) as Ha.
  { unfold a'. rewrite dag_merge_heads, Hp, Hq. simpl. by rewrite (proj2 (Z.leb_le _ _)) by lia. }
  assert (peer_heads b' !! u = Some q) as Hb.
  { unfold b'. rewrite dag_merge_heads, Hp, Hq. simpl. by rewrite (proj2 (Z.leb_le _ _)) by lia. }
  split_and!; [done..| |]; rewrite dag_merge_heads, Ha, Hb; simpl;
    by rewrite (proj2 (Z.leb_le _ _)) by lia.
Qed.
