(* ===== verification/BraidGc.v ===== *)
(** * Garbage collection, healing and the local gate of the braid

    Models [gc.rs] (staged deletion of blobs), [heal.rs] (when absorbed peer
    work calls for a repair) and [gate.rs] (the local repository handle) of
    [indras-sync-engine/src/braid].  What [cargo] reports is data: the texts
    of a [VerificationFailure]. *)

From S2P Require Import Prelude Crypto Index Changeset Braid BraidFacts.

(** ** Staged deletion *)

Record StagedDeletion : Type := {
  sd_addr : ContentAddr;
  staged_at_millis : Z;
  grace_period_ms : Z;
}.

#[global] Instance StagedDeletion_eq_dec : EqDecision StagedDeletion.
Proof. solve_decision. Defined.

Definition sd_is_ready (now : Z) (s : StagedDeletion) : bool :=
  grace_period_ms s <=? i64_saturating_sub now (staged_at_millis s).

Definition DEFAULT_GRACE_PERIOD_MS : Z := 7 * 24 * 60 * 60 * 1000.
Definition DEFAULT_OUTER_RETENTION_MS : Z := 30 * 24 * 60 * 60 * 1000.

Record StagedDeletionSet : Type := { staged : gmap ContentAddr StagedDeletion }.

Definition staged_new : StagedDeletionSet := {| staged := ∅ |}.

Definition stage (a : ContentAddr) (now grace : Z) (s : StagedDeletionSet) : StagedDeletionSet :=
  {| staged := or_insert a
       {| sd_addr := a; staged_at_millis := now; grace_period_ms := grace |} (staged s) |}.

Definition unstage (a : ContentAddr) (s : StagedDeletionSet)
    : StagedDeletionSet * option StagedDeletion :=
  ({| staged := delete a (staged s) |}, staged s !! a).

Definition staged_contains (a : ContentAddr) (s : StagedDeletionSet) : bool :=
  bool_decide (is_Some (staged s !! a)).

Definition staged_len (s : StagedDeletionSet) : nat := size (staged s).

(** The second iterator: remove each ready address and collect its entry. *)
Fixpoint take_all (ready : list ContentAddr) (m : gmap ContentAddr StagedDeletion)
    : gmap ContentAddr StagedDeletion * list StagedDeletion :=
  match ready with
  | [] => (m, [])
  | a :: ready =>
      match m !! a with
      | Some e => let (m', es) := take_all ready (delete a m) in (m', e :: es)
      | None => take_all ready m
      end
  end.

Definition take_ready_for_deletion (now : Z) (s : StagedDeletionSet)
    : StagedDeletionSet * list StagedDeletion :=
  let ready := (retain (λ e, sd_is_ready now e.2) (map_to_list (staged s))).*1 in
  let (m, es) := take_all ready (staged s) in
  ({| staged := m |}, es).

Lemma take_all_spec ready m :
  NoDup ready →
  (∀ k, (take_all ready m).1 !! k = if decide (k ∈ ready) then None else m !! k) ∧
  (∀ e, e ∈ (take_all ready m).2 ↔ ∃ a, a ∈ ready ∧ m !! a = Some e).
Proof.
  intros Hn. revert m. induction Hn as [|a ready Ha Hn IH]; intros m.
  { split; [by intros k; rewrite decide_False by (by intros ?%elem_of_nil)|].
    intros e. simpl. rewrite elem_of_nil. split; [done|]. by intros (? & ?%elem_of_nil & _). }
  assert (∀ k, k ∈ a :: ready ↔ k = a ∨ k ∈ ready) as Hcons by (intros; apply elem_of_cons).
  simpl. destruct (m !! a) as [e0|] eqn:He.
  - destruct (IH (delete a m)) as [Hl Hin]. destruct (take_all ready (delete a m)) as [m' es].
    simpl in *. split.
    + intros k. rewrite Hl, (decide_ext _ _ _ _ (Hcons k)). destruct (decide (k = a)) as [->|Hne].
      * rewrite decide_False, decide_True by auto. apply lookup_delete_eq.
      * rewrite lookup_delete_ne by done. repeat case_decide; naive_solver.
    + intros e. rewrite elem_of_cons, Hin. setoid_rewrite Hcons. split.
      * intros [->|(k & Hk & Hl')]; [by eauto|]. exists k. split; [by right|].
        rewrite lookup_delete_ne in Hl'; [done|]. by intros ->.
      * intros (k & [->|Hk] & Hl'); [left; congruence|]. right. exists k. split; [done|].
        rewrite lookup_delete_ne; [done|]. by intros ->.
  - destruct (IH m) as [Hl Hin]. split.
    + intros k. rewrite Hl, (decide_ext _ _ _ _ (Hcons k)).
      destruct (decide (k = a)) as [->|Hne]; repeat case_decide; naive_solver.
    + intros e. rewrite Hin. setoid_rewrite Hcons. naive_solver congruence.
Qed.

Lemma sd_is_ready_spec now e :
  in_i64 now → in_i64 (staged_at_millis e) → 0 <= grace_period_ms e < 2 ^ 63 →
  sd_is_ready now e = true ↔ grace_period_ms e <= now - staged_at_millis e.
Proof. unfold sd_is_ready, i64_saturating_sub, in_i64. intros. rewrite Z.leb_le. lia. Qed.

(** Staged deletion respects the grace period: an address already staged
    keeps its first entry when staged again; taking the ready entries returns
    exactly those whose grace period has elapsed since they were staged (the
    saturating subtraction never changes the answer for a non-negative grace
    period) and leaves exactly the others staged; an unstaged address is
    never returned. *)
Theorem staged_deletion_spec (s : StagedDeletionSet) (a : ContentAddr) (now t grace : Z) :
  in_i64 now →
  (∀ k e, staged s !! k = Some e →
     in_i64 (staged_at_millis e) ∧ 0 <= grace_period_ms e < 2 ^ 63) →
  (∀ e, staged s !! a = Some e → staged (stage a t grace s) !! a = Some e) ∧
  staged_contains a (stage a t grace s) = true ∧
  let (s', taken) := take_ready_for_deletion now s in
  (∀ e, e ∈ taken ↔ ∃ k, staged s !! k = Some e ∧ grace_period_ms e <= now - staged_at_millis e) ∧
  (∀ k e, staged s' !! k = Some e ↔
          staged s !! k = Some e ∧ now - staged_at_millis e < grace_period_ms e) ∧
  staged_contains a (unstage a s).1 = false.
Proof.
  intros Hnow Hwf. split; [|split].
  - intros e He. simpl. unfold or_insert. by rewrite He.
  - unfold staged_contains. simpl. unfold or_insert. destruct (staged s !! a) eqn:He;
      [by rewrite He, bool_decide_true|by rewrite lookup_insert_eq, bool_decide_true].
  - unfold take_ready_for_deletion.
    set (ready := (retain (λ e, sd_is_ready now e.2) (map_to_list (staged s))).*1).
    assert (∀ k, k ∈ ready ↔ ∃ e, staged s !! k = Some e ∧
              grace_period_ms e <= now - staged_at_millis e) as Hready.
    { intros k. unfold ready. rewrite list_elem_of_fmap. split.
      - intros ([k' e] & -> & [Hin Hr]%elem_of_retain). apply elem_of_map_to_list in Hin.
        destruct (Hwf _ _ Hin). apply sd_is_ready_spec in Hr; eauto.
      - intros (e & Hin & Hr). exists (k, e). split; [done|]. apply elem_of_retain.
        rewrite elem_of_map_to_list. split; [done|]. destruct (Hwf _ _ Hin).
        by apply sd_is_ready_spec. }
    assert (NoDup ready) as Hn by (apply NoDup_fmap_retain, NoDup_fst_map_to_list).
    destruct (take_all_spec ready (staged s) Hn) as [Hl Hin].
    destruct (take_all ready (staged s)) as [m es]. simpl in *. split_and!.
    + intros e. rewrite Hin. setoid_rewrite Hready. split.
      * intros (k & (e' & He' & Hr) & He). exists k. split; congruence.
      * intros (k & He & Hr). eauto 6.
    + intros k e. rewrite Hl. case_decide as Hk.
      * split; [done|]. intros [He Hr]. apply Hready in Hk as (e' & He' & Hr').
        rewrite He in He'. injection He' as <-. lia.
      * split; [|tauto]. intros He. split; [done|]. rewrite Hready in Hk.
        destruct (decide (now - staged_at_millis e < grace_period_ms e)); [done|].
        exfalso. apply Hk. exists e. split; [done|lia].
    + unfold staged_contains. simpl. by rewrite lookup_delete_eq.
Qed.

(** ** The local gate and healing *)

Record LocalRepo : Type := {
  repo_dag : BraidDag;
  workspace_root : string;
  repo_agent : UserId;
}.

Definition local_repo_new (workspace : string) (agent : UserId) : LocalRepo :=
  {| repo_dag := dag_new; workspace_root := workspace; repo_agent := agent |}.

Definition head_ids (r : LocalRepo) : list ChangeId := sort_by arr32_leb (elements (heads (repo_dag r))).

Inductive VerificationFailure : Type :=
| BuildFailed (crate_name stderr : string)
| TestFailed (crate_name stdout : string)
| ClippyFailed (crate_name stderr : string)
| SpawnError (io_err : string).

Record RepairTask : Type := {
  merged_heads : list ChangeId;
  failure : string;
  failing_crates : list string;
  suggested_intent : string;
}.

Definition first_line (s : string) : string :=
  let l := as_bytes s in
  string_of_list_byte (trim (default l
    (find_first (λ l, negb (bool_decide (trim l = []))) (lines l)))).

(** [Vec::<String>::join(", ")]. *)
Fixpoint join_comma (l : list string) : string :=
  match l with
  | [] => EmptyString
  | [s] => s
  | s :: l => s +:+ ", " +:+ join_comma l
  end.

Definition describe_failure (f : VerificationFailure) : string * list string :=
  match f with
  | BuildFailed c e => ("build failed for crate `" +:+ c +:+ "`: " +:+ first_line e, [c])
  | TestFailed c o => ("tests failed for crate `" +:+ c +:+ "`: " +:+ first_line o, [c])
  | ClippyFailed c e => ("clippy failed for crate `" +:+ c +:+ "`: " +:+ first_line e, [c])
  | SpawnError e => ("spawn error running cargo: " +:+ e, [])
  end.

Definition detect_heal_needed (pre post : list ChangeId)
    (local_verification : Result Evidence VerificationFailure) : option RepairTask :=
  match local_verification with
  | Ok _ => None
  | Err failure_ref =>
      if bool_decide (sort_by arr32_leb pre = sort_by arr32_leb post) then None
      else
        let (failure, failing_crates) := describe_failure failure_ref in
        let suggested_intent :=
          match failing_crates with
          | [] => "heal: reconcile after merging from peers"
          | _ => "heal: reconcile " +:+ join_comma failing_crates +:+ " after merging from peers"
          end in
        Some {| merged_heads := post; failure := failure; failing_crates := failing_crates;
                suggested_intent := suggested_intent |}
  end.

Definition describe_heal (pre : list ChangeId)
    (local_verification : Result Evidence VerificationFailure) (r : LocalRepo) : option RepairTask :=
  detect_heal_needed pre (head_ids r) local_verification.

(** The crates a failure blames. *)
Definition blamed (f : VerificationFailure) : list string :=
  match f with
  | BuildFailed c _ | TestFailed c _ | ClippyFailed c _ => [c]
  | SpawnError _ => []
  end.

Lemma head_ids_sorted r :
  StronglySorted (λ a b, arr32_leb a b = true) (head_ids r) ∧ NoDup (head_ids r) ∧
  ∀ id, id ∈ head_ids r ↔ id ∈ heads (repo_dag r).
Proof.
  unfold head_ids. split; [apply (sort_by_sorted arr32_leb)|]. rewrite sort_by_perm.
  split; [apply NoDup_elements|]. intros id. by rewrite sort_by_perm, elem_of_elements.
Qed.

(** A repair task is described exactly when local verification failed and the
    set of heads changed: it names the current heads (sorted, each once) as
    the parents of the repair and blames the crate that failed; otherwise
    there is none. *)
Theorem describe_heal_spec (before after : LocalRepo) (res : Result Evidence VerificationFailure) :
  match describe_heal (head_ids before) res after with
  | None => is_ok res = true ∨ heads (repo_dag before) = heads (repo_dag after)
  | Some task =>
      ∃ f, res = Err f ∧ heads (repo_dag before) ≠ heads (repo_dag after) ∧
           merged_heads task = head_ids after ∧ failing_crates task = blamed f ∧
           NoDup (merged_heads task) ∧
           ∀ id, id ∈ merged_heads task ↔ id ∈ heads (repo_dag after)
  end.
Proof.
  unfold describe_heal, detect_heal_needed. destruct res as [ev|f]; [by left|].
  destruct (head_ids_sorted before) as (_ & Hnb & Hb), (head_ids_sorted after) as (_ & Hna & Ha).
  case_bool_decide as Hs.
  - right. apply sort_ids_perm in Hs. apply set_eq. intros id. rewrite <- Hb, <- Ha, Hs. done.
  - destruct (describe_failure f) as [msg cs] eqn:Hf. exists f. split_and!; try done.
    + intros Heq. apply Hs, sort_ids_perm, NoDup_Permutation; [done..|]. intros id.
      rewrite Hb, Ha, Heq. done.
    + simpl. destruct f; simpl in Hf; by injection Hf as _ <-.
Qed.
