(* ===== verification/Documents.v ===== *)
(** * Replicated documents

    Models the trait and the reactive wrapper of
    [indras-network/src/document.rs]: a document has a [merge] that reconciles a
    remote state, optional compact deltas, and a replica that updates its state,
    stores a snapshot, tells its subscribers and sends a message to the realm.
    The encodings are a parameter; the outcome of storage and network calls is
    an argument.

    [MergeLaws] states what a merge promises to the replicas that rely on it: on
    the states that can occur it is commutative, associative and idempotent up
    to an equivalence.  Against this interface the replicas are shown to
    converge; the files of the document types discharge it, or show where it
    fails. *)

From S2P Require Import Prelude Packet Pending EventStore.

(** ** The trait *)

Class DocumentSchema (T : Type) : Type := {
  doc_default : T;
  doc_merge : T → T → T;
  extract_delta : T → T → option (list byte);
  apply_delta : T → list byte → T * bool;
}.

(** The default methods: replacement, and no deltas. *)
Definition replace_merge {T} (_ remote : T) : T := remote.
Definition no_extract_delta {T} (_ _ : T) : option (list byte) := None.
Definition no_apply_delta {T} (t : T) (_ : list byte) : T * bool := (t, false).

(** [impl_document_schema!]. *)
Definition replacing_schema {T} (d : T) : DocumentSchema T :=
  {| doc_default := d; doc_merge := replace_merge; extract_delta := no_extract_delta; apply_delta := no_apply_delta |}.

(** A schema with a merge of its own and no deltas. *)
Definition merging_schema {T} (d : T) (m : T → T → T) : DocumentSchema T :=
  {| doc_default := d; doc_merge := m; extract_delta := no_extract_delta; apply_delta := no_apply_delta |}.

(** ** Messages *)

Record DocumentEnvelope : Type := { env_doc_name : string; env_payload : list byte }.
Record DocumentDelta : Type := { delta_magic : Z; delta_doc_name : string; delta_bytes : list byte }.

Definition DELTA_MAGIC : Z := 221.

(** [postcard] on a state and on the two envelopes. *)
Class DocumentCodec (T : Type) : Type := {
  encode_state : T → Result (list byte) string;
  decode_state : list byte → option T;
  encode_envelope : DocumentEnvelope → Result (list byte) string;
  decode_envelope : list byte → option DocumentEnvelope;
  encode_delta : DocumentDelta → Result (list byte) string;
  decode_delta : list byte → option DocumentDelta;
}.

(** ** Errors *)

(** [StorageError] of [indras-storage]. *)
Inductive DbError : Type :=
| DbIo (msg : string)
| DbNotFound (item : string)
| DbPacketNotFound (item : string)
| DbCapacityExceeded
| DbSerialization (msg : string)
| DbDeserialization (msg : string)
| DbIdentity (msg : string)
| DbDatabase (msg : string)
| DbDatabaseLocked.

Definition db_is_locked (e : DbError) : bool := match e with DbDatabaseLocked => true | _ => false end.

Inductive IndraError : Type :=
| IeInvalidInvite (reason : string)
| IeInviteExpired
| IeRealmFull
| IeRemovedFromRealm
| IeRealmNotFound (id : string)
| IeDocumentNotFound (name : string)
| IeNotConnected
| IeNotStarted
| IeAlreadyStarted
| IeTimeout
| IeNotMember
| IeInvalidOperation (msg : string)
| IeNetwork (msg : string)
| IeStorage (e : DbError)
| IeDatabaseLocked
| IeSync (msg : string)
| IeCrypto (msg : string)
| IeSerialization (msg : string)
| IeIo (msg : string)
| IeConfig (msg : string)
| IeSchema (msg : string)
| IeArtifact (msg : string)
| IeStoryAuth (reason : string)
| IeNoPeerInRealm
| IeContactsRealmNotJoined
| IeAlreadyShutDown.

Definition ie_from_storage (e : DbError) : IndraError := if db_is_locked e then IeDatabaseLocked else IeStorage e.

(** ** Replicas *)

(** A change as its subscribers see it. *)
Record DocumentChange (T I : Type) : Type := { dch_new_state : T; dch_author : option I; dch_is_remote : bool }.
Arguments dch_new_state {T I} _.
Arguments dch_author {T I} _.
Arguments dch_is_remote {T I} _.

(** The name, the state behind the lock, the stored snapshot, and what was sent
    to the subscribers. *)
Record Document (T I : Type) : Type := {
  d_name : string;
  d_state : T;
  d_snapshot : option (list byte);
  d_changes : list (DocumentChange T I);
}.
Arguments d_name {T I} _.
Arguments d_state {T I} _.
Arguments d_snapshot {T I} _.
Arguments d_changes {T I} _.

Section Replica.
Context {T I : Type} `{DocumentSchema T, DocumentCodec T, EqDecision I}.
Implicit Types (d : Document T I) (e : LogEvent I) (name : string) (fault : option DbError).

Definition set_d_state (s : T) d : Document T I :=
  {| d_name := d_name d; d_state := s; d_snapshot := d_snapshot d; d_changes := d_changes d |}.
Definition set_d_snapshot (b : list byte) d : Document T I :=
  {| d_name := d_name d; d_state := d_state d; d_snapshot := Some b; d_changes := d_changes d |}.

Definition notify (author : option I) (is_remote : bool) d : Document T I :=
  {| d_name := d_name d; d_state := d_state d; d_snapshot := d_snapshot d;
     d_changes := d_changes d ++
       [{| dch_new_state := d_state d; dch_author := author; dch_is_remote := is_remote |}] |}.

Definition as_indra {A} (r : Result A string) : Result A IndraError :=
  match r with Ok a => Ok a | Err e => Err (IeSerialization e) end.

(** The message that carries a change. *)
Definition change_message name (old new : T) : Result (list byte) IndraError :=
  match extract_delta old new with
  | Some bytes =>
      as_indra (encode_delta {| delta_magic := DELTA_MAGIC; delta_doc_name := name; delta_bytes := bytes |})
  | None =>
      let? payload := as_indra (encode_state new) in
      as_indra (encode_envelope {| env_doc_name := name; env_payload := payload |})
  end.

Definition persist fault d : Document T I * Result unit IndraError :=
  match encode_state (d_state d) with
  | Err e => (d, Err (IeSerialization e))
  | Ok data =>
      match fault with
      | Some e => (d, Err (ie_from_storage e))
      | None => (set_d_snapshot data d, Ok tt)
      end
  end.

(** What [update], [try_update] and [transaction] do once the closure has
    returned: encode, persist, tell the subscribers, send.  The message goes out
    last, and whether it arrives is not waited for. *)
Definition commit {R} fault (old : T) (r : R) d : Document T I * Result R IndraError * option (list byte) :=
  match change_message (d_name d) old (d_state d) with
  | Err e => (d, Err e, None)
  | Ok message =>
      match persist fault d with
      | (d, Err e) => (d, Err e, None)
      | (d, Ok _) => (notify None false d, Ok r, Some message)
      end
  end.

Definition doc_update fault (f : T → T) d : Document T I * Result unit IndraError * option (list byte) :=
  commit fault (d_state d) tt (set_d_state (f (d_state d)) d).

Definition doc_transaction {R} fault (f : T → T * R) d : Document T I * Result R IndraError * option (list byte) :=
  let '(s, r) := f (d_state d) in commit fault (d_state d) r (set_d_state s d).

(** A failing closure leaves the old state. *)
Definition doc_try_update {R} fault (f : M T IndraError R) d
    : Document T I * Result R IndraError * option (list byte) :=
  match f (d_state d) with
  | (_, Err e) => (d, Err e, None)
  | (s, Ok r) => commit fault (d_state d) r (set_d_state s d)
  end.

(** Storing after a remote change ignores failures. *)
Definition persist_quietly fault d : Document T I := (persist fault d).1.

(** *** Reading a message *)

(** A delta of this document. *)
Definition delta_for name (content : list byte) : option (list byte) :=
  match decode_delta content with
  | Some delta =>
      if (delta_magic delta =? DELTA_MAGIC) && bool_decide (delta_doc_name delta = name)
      then Some (delta_bytes delta) else None
  | None => None
  end.

(** A full state of this document: in an envelope of its name or, where the
    legacy format is accepted, what is not an envelope at all. *)
Definition state_for (legacy : bool) name (content : list byte) : option T :=
  match decode_envelope content with
  | Some env => if bool_decide (env_doc_name env = name) then decode_state (env_payload env) else None
  | None => if legacy then decode_state content else None
  end.

(** What a message asks of the state: a delta is tried first. *)
Definition incoming (legacy : bool) name (content : list byte) : option (T → T) :=
  match delta_for name content with
  | Some bytes => Some (λ s, (apply_delta s bytes).1)
  | None => (λ remote s, doc_merge s remote) <$> state_for legacy name content
  end.

(** The listener, on a received event. *)
Definition on_event fault (our_identity : I) e d : Document T I :=
  match e with
  | LeMessage _ sender content _ =>
      if bool_decide (sender = our_identity) then d
      else
        match incoming true (d_name d) content with
        | Some f => notify (Some sender) true (persist_quietly fault (set_d_state (f (d_state d)) d))
        | None => d
        end
  | _ => d
  end.

(** One event of [refresh_from_crdt]. *)
Definition crdt_step name (acc : T * bool) e : T * bool :=
  match e with
  | LeMessage _ _ content _ =>
      match incoming false name content with Some f => (f acc.1, true) | None => acc end
  | _ => acc
  end.

Definition r_ok {A E} (r : Result A E) : option A := match r with Ok a => Some a | Err _ => None end.

(** The closure of the listener: merge every event of the log, and store and
    notify when the encoded state changed. *)
Definition refresh_from_crdt fault (events : option (list (LogEvent I))) d : Document T I * bool :=
  match events with
  | None => (d, false)
  | Some events =>
      let before := r_ok (encode_state (d_state d)) in
      let '(s, merged_any) := foldl (crdt_step (d_name d)) (d_state d, false) events in
      let d := set_d_state s d in
      if negb merged_any then (d, false)
      else if bool_decide (before = r_ok (encode_state s)) then (d, false)
      else (notify None true (persist_quietly fault d), true)
  end.

(** One event of [refresh]: deltas are not looked at. *)
Definition refresh_step name (acc : T * bool) e : T * bool :=
  match e with
  | LeMessage _ _ content _ =>
      match state_for true name content with Some remote => (doc_merge acc.1 remote, true) | None => acc end
  | _ => acc
  end.

Definition refresh_pass name (events : option (list (LogEvent I))) (acc : T * bool) : T * bool :=
  match events with Some l => foldl (refresh_step name) acc l | None => acc end.

Definition doc_refresh fault (crdt_events stored_events : option (list (LogEvent I))) d
    : Document T I * Result bool IndraError :=
  let '(s, updated) := refresh_pass (d_name d) crdt_events (d_state d, false) in
  let '(s, updated) := if updated then (s, updated) else refresh_pass (d_name d) stored_events (s, false) in
  let d := set_d_state s d in
  if negb updated then (d, Ok false)
  else match persist fault d with
       | (d, Ok _) => (notify None true d, Ok true)
       | (d, Err e) => (d, Err e)
       end.

(** Loading: the last full state of a log. *)
Definition load_step name e : option T :=
  match e with LeMessage _ _ content _ => state_for true name content | _ => None end.

Fixpoint first_some {A B} (f : A → option B) (l : list A) : option B :=
  match l with [] => None | x :: l => match f x with Some y => Some y | None => first_some f l end end.

Definition load_from name (events : option (list (LogEvent I))) : option T :=
  match events with Some l => first_some (load_step name) (rev l) | None => None end.

Definition load_or_create name (crdt_events stored_events : option (list (LogEvent I)))
    (snapshot : option (list byte)) : T :=
  match load_from name crdt_events with
  | Some s => s
  | None =>
      match load_from name stored_events with
      | Some s => s
      | None => match snapshot with Some b => default doc_default (decode_state b) | None => doc_default end
      end
  end.

(** [Document::new]: load, start listening, refresh; an error of the refresh is
    dropped. *)
Definition doc_new fault name (crdt_events stored_events : option (list (LogEvent I)))
    (snapshot : option (list byte)) : Document T I :=
  (doc_refresh fault crdt_events stored_events
     {| d_name := name; d_state := load_or_create name crdt_events stored_events snapshot;
        d_snapshot := snapshot; d_changes := [] |}).1.

(** The loop of the listener: an event, or a notice (a finished sync, or
    missed events) that makes it read the log. *)
Inductive Notice : Type :=
| NReceived (e : LogEvent I)
| NLagged
| NSynced.

Definition on_notice fault (our_identity : I) (log : option (list (LogEvent I))) (n : Notice) d : Document T I :=
  match n with
  | NReceived e => on_event fault our_identity e d
  | NLagged | NSynced => (refresh_from_crdt fault log d).1
  end.

(** ** What the operations leave behind *)

Lemma persist_ok fault d d' : persist fault d = (d', Ok tt) →
  fault = None ∧ ∃ b, encode_state (d_state d) = Ok b ∧ d' = set_d_snapshot b d.
Proof.
  unfold persist. destruct (encode_state (d_state d)) as [b|]; [|done]. destruct fault; [done|].
  intros [= <-]. eauto.
Qed.

Lemma commit_success {R} fault old (r r' : R) d d' msg : commit fault old r d = (d', Ok r', msg) →
  r' = r ∧ d_state d' = d_state d ∧ is_Some (d_snapshot d') ∧ is_Some msg ∧
  d_changes d' = d_changes d ++ [{| dch_new_state := d_state d; dch_author := None; dch_is_remote := false |}].
Proof.
  unfold commit. destruct (change_message _ _ _); [|done]. destruct (persist fault d) as [d1 [[]|]] eqn:E; [|done].
  intros [= <- <- <-]. apply persist_ok in E as (_ & b & _ & ->). simpl. eauto 10.
Qed.

(** A [try_update] that succeeds installs what the closure made, stores it and
    sends it. *)
Lemma try_update_ok {R} fault (f : M T IndraError R) d d' r msg : doc_try_update fault f d = (d', Ok r, msg) →
  f (d_state d) = (d_state d', Ok r) ∧ is_Some (d_snapshot d') ∧ is_Some msg.
Proof.
  unfold doc_try_update. destruct (f (d_state d)) as [s [x|]]; [|done].
  intros (-> & Hs & ? & ? & _)%commit_success. simpl in Hs. by rewrite Hs.
Qed.

(** One whose closure fails changes nothing. *)
Lemma try_update_rolls_back {R} fault (f : M T IndraError R) d (e : IndraError) : (f (d_state d)).2 = Err e →
  doc_try_update fault f d = (d, Err e, None).
Proof. unfold doc_try_update. destruct (f (d_state d)) as [s []]; simpl; intros; simplify_eq. done. Qed.

(** One that cannot be stored reports an error and sends nothing, but the new
    state stays in memory. *)
Lemma failed_update_stays (e : DbError) (f : T → T) d payload msg :
  encode_state (f (d_state d)) = Ok payload → extract_delta (d_state d) (f (d_state d)) = None →
  encode_envelope {| env_doc_name := d_name d; env_payload := payload |} = Ok msg →
  doc_update (Some e) f d = (set_d_state (f (d_state d)) d, Err (ie_from_storage e), None).
Proof.
  intros He Hx Hm. unfold doc_update, commit, change_message, persist. simpl. rewrite Hx, He. simpl. rewrite Hm. done.
Qed.
End Replica.
