(* ===== verification/Convergence.v ===== *)
(** * When replicas of a document converge

    [MergeLaws] is the interface between a document type and its replicas: on
    the states that occur, [merge] is commutative, associative and idempotent up
    to an equivalence, and the default state is neutral.  [net_step] is a realm
    whose members update their replica of one document, receive one another's
    messages in any order and any number of times, read the log again and
    restart, all with the operations of [Documents.v], any of which may fail:
    an update is in the replica before it is stored and sent.  For every
    document type that satisfies the interface, a replica that reads the log of
    the realm ends in the join of all the states ever published and of those
    that its own updates left without being published.

    A state is often a family of entries, and the merge works entry by entry
    ([pointwise_laws]); an entry is often the later of two values ([pick_laws]).
    The laws of these shapes are proved once here. *)

From S2P Require Import Prelude Packet Pending EventStore Documents.

(** ** The interface *)

Class JoinLaws {T : Type} (ok : T → Prop) (R : relation T) (merge : T → T → T) : Prop := {
  ml_equiv :: Equivalence R;
  ml_ok_merge a b : ok a → ok b → ok (merge a b);
  ml_proper a a' b b' : ok a → ok a' → ok b → ok b' → R a a' → R b b' → R (merge a b) (merge a' b');
  ml_comm a b : ok a → ok b → R (merge a b) (merge b a);
  ml_assoc a b c : ok a → ok b → ok c → R (merge a (merge b c)) (merge (merge a b) c);
  ml_idem a : ok a → R (merge a a) a;
}.

Class MergeLaws {T : Type} (ok : T → Prop) (R : relation T) (merge : T → T → T) (zero : T) : Prop := {
  ml_join :: JoinLaws ok R merge;
  ml_ok_zero : ok zero;
  ml_zero a : ok a → R (merge zero a) a;
}.

Section Join.
Context {T : Type} {ok : T → Prop} {R : relation T} {merge : T → T → T} {zero : T}.
Context `{!MergeLaws ok R merge zero}.
Implicit Types (s : T) (l : list T).

Lemma ok_merge s s' : ok s → ok s' → ok (merge s s').
Proof. apply ml_ok_merge. Qed.

Lemma ok_zero : ok zero.
Proof. apply ml_ok_zero. Qed.

Definition join l : T := foldl merge zero l.

Lemma fold_ok s l : ok s → Forall ok l → ok (foldl merge s l).
Proof. intros Hs Hl. revert s Hs. induction Hl; intros s Hs; simpl; auto using ok_merge. Qed.

Lemma join_ok l : Forall ok l → ok (join l).
Proof. apply fold_ok, ok_zero. Qed.

Lemma fold_proper s s' l : ok s → ok s' → Forall ok l → R s s' → R (foldl merge s l) (foldl merge s' l).
Proof.
  intros Hs Hs' Hl. revert s s' Hs Hs'. induction Hl as [|x l Hx Hl IH]; intros s s' Hs Hs' HR; simpl; [done|].
  apply IH; auto using ok_merge. apply ml_proper; auto. reflexivity.
Qed.

Lemma fold_merge s x l : ok s → ok x → Forall ok l → R (foldl merge (merge s x) l) (merge (foldl merge s l) x).
Proof.
  intros Hs Hx Hl. revert s Hs. induction Hl as [|y l Hy Hl IH]; intros s Hs; simpl; [reflexivity|].
  etransitivity; [|apply IH; auto using ok_merge].
  apply fold_proper; auto using ok_merge.
  etransitivity; [symmetry; apply ml_assoc; auto|]. etransitivity; [|apply ml_assoc; auto].
  apply ml_proper; auto using ok_merge; [reflexivity|]. apply ml_comm; auto.
Qed.

(** A state that was merged once changes nothing when merged again. *)
Lemma fold_absorb s x l : ok s → Forall ok l → x ∈ l → R (merge (foldl merge s l) x) (foldl merge s l).
Proof.
  intros Hs Hl Hx. apply list_elem_of_split in Hx as (l1 & l2 & ->).
  apply Forall_app in Hl as [Hl1 Hl2]. apply Forall_cons in Hl2 as [Hx Hl2].
  rewrite foldl_app; simpl. pose proof (fold_ok s l1 Hs Hl1) as H1.
  etransitivity; [symmetry; apply fold_merge; auto using ok_merge|].
  apply fold_proper; auto using ok_merge.
  etransitivity; [symmetry; apply ml_assoc; auto|].
  apply ml_proper; auto using ok_merge; [reflexivity|]. by apply ml_idem.
Qed.

Lemma fold_absorb_all s l l' : ok s → Forall ok l → l' ⊆ l → R (foldl merge (foldl merge s l) l') (foldl merge s l).
Proof.
  intros Hs Hl. induction l' as [|x l' IH]; intros Hin; simpl; [reflexivity|].
  assert (Hok : Forall ok (x :: l')) by (apply Forall_forall; intros y Hy; rewrite Forall_forall in Hl; set_solver).
  apply Forall_cons in Hok as [Hx Hl'].
  etransitivity; [|apply IH; set_solver].
  apply fold_proper; auto using ok_merge, fold_ok. apply fold_absorb; set_solver.
Qed.

Lemma merge_join s l : ok s → Forall ok l → R (foldl merge s l) (merge (join l) s).
Proof.
  intros Hs Hl. etransitivity; [|apply fold_merge; auto using ok_zero].
  apply fold_proper; auto using ok_merge, ok_zero. symmetry. by apply ml_zero.
Qed.

Lemma join_app_comm l l' : Forall ok l → Forall ok l' → R (join (l ++ l')) (join (l' ++ l)).
Proof.
  intros Hl Hl'. unfold join. rewrite !foldl_app.
  pose proof (join_ok l Hl). pose proof (join_ok l' Hl').
  etransitivity; [apply merge_join; auto|].
  etransitivity; [apply ml_comm; auto|]. symmetry. apply merge_join; auto.
Qed.

(** The join depends only on which states are merged. *)
Lemma join_set l l' : Forall ok l → Forall ok l' → (∀ x, x ∈ l ↔ x ∈ l') → R (join l) (join l').
Proof.
  intros Hl Hl' Heq.
  etransitivity; [symmetry; apply (fold_absorb_all zero l l'); auto using ok_zero; set_solver|].
  etransitivity; [|apply (fold_absorb_all zero l' l); auto using ok_zero; set_solver].
  rewrite <-!foldl_app. by apply join_app_comm.
Qed.

(** Folding a log over the join of other states gives the join of both. *)
Lemma fold_join s l l' : ok s → Forall ok l → Forall ok l' → R s (join l') → R (foldl merge s l) (join (l' ++ l)).
Proof.
  intros Hs Hl Hl' HR. unfold join. rewrite foldl_app. apply fold_proper; auto. by apply join_ok.
Qed.
End Join.
Arguments join {T} merge zero l.

(** ** A realm *)

(** What is used of the encodings: states and envelopes survive them, and an
    envelope of this document is not taken for a delta of it. *)
Class CodecLaws {T : Type} `{DocumentCodec T} (ok : T → Prop) (name : string) : Prop := {
  cl_state s b : ok s → encode_state s = Ok b → decode_state b = Some s;
  cl_envelope env b : encode_envelope env = Ok b → decode_envelope b = Some env;
  cl_not_delta env b : env_doc_name env = name → encode_envelope env = Ok b → delta_for (T := T) name b = None;
}.

(** The log of the realm and the replicas of its members; [net_unsent] records
    the states that updates of a member made without publishing them. *)
Record Net (T I : Type) `{Countable I} : Type := {
  net_log : list (LogEvent I);
  net_replicas : gmap I (Document T I);
  net_unsent : gmap I (list T);
}.
Arguments net_log {T I _ _} _.
Arguments net_replicas {T I _ _} _.
Arguments net_unsent {T I _ _} _.

Section Realm.
Context {T I : Type} `{DS : DocumentSchema T} `{DC : DocumentCodec T} `{Countable I}.
Context (ok : T → Prop) (R : relation T) (name : string).
Implicit Types (d : Document T I) (e : LogEvent I) (log events : list (LogEvent I)) (s : T).

(** The states of this document in a log. *)
Definition event_state e : option T :=
  match e with LeMessage _ _ content _ => state_for true name content | _ => None end.
Definition log_states log : list T := omap event_state log.

(** A message of something else. *)
Definition foreign e : Prop :=
  match e with LeMessage _ _ content _ => delta_for (T := T) name content = None ∧ state_for (T := T) true name content = None | _ => True end.

Definition publish (n : Net T I) (i : I) d (es : list (LogEvent I)) : Net T I :=
  {| net_log := net_log n ++ es; net_replicas := <[i := d]> (net_replicas n); net_unsent := net_unsent n |}.

Definition unsent (n : Net T I) (i : I) : list T := default [] (net_unsent n !! i).

Definition keep_unsent (n : Net T I) (i : I) d s : Net T I :=
  {| net_log := net_log n; net_replicas := <[i := d]> (net_replicas n); net_unsent := <[i := unsent n i ++ [s]]> (net_unsent n) |}.

Inductive net_step : Net T I → Net T I → Prop :=
| NsJoin n i fault crdt stored :
    net_replicas n !! i = None →
    (∀ l, crdt = Some l ∨ stored = Some l → l ⊆ net_log n) →
    net_step n (publish n i (doc_new fault name crdt stored None) [])
| NsRestart n i d fault crdt stored :
    net_replicas n !! i = Some d →
    (∀ l, crdt = Some l ∨ stored = Some l → l ⊆ net_log n) →
    net_step n (publish n i (doc_new fault name crdt stored (d_snapshot d)) [])
| NsUpdate n i d d' f fault msg id t :
    net_replicas n !! i = Some d →
    ok (f (d_state d)) →
    doc_update fault f d = (d', Ok tt, Some msg) →
    net_step n (publish n i d' [LeMessage id i msg t])
| NsTryUpdate n i d d' (f : M T IndraError unit) fault msg id t :
    net_replicas n !! i = Some d →
    ok (f (d_state d)).1 →
    doc_try_update fault f d = (d', Ok tt, Some msg) →
    net_step n (publish n i d' [LeMessage id i msg t])
| NsUpdateUnsent n i d d' f fault r o :
    (** it cannot be encoded or stored, or it is not sent *)
    net_replicas n !! i = Some d →
    ok (f (d_state d)) →
    doc_update fault f d = (d', r, o) →
    net_step n (keep_unsent n i d' (f (d_state d)))
| NsTryUnsent n i d d' (f : M T IndraError unit) s fault r o :
    net_replicas n !! i = Some d →
    f (d_state d) = (s, Ok tt) → ok s →
    doc_try_update fault f d = (d', r, o) →
    net_step n (keep_unsent n i d' s)
| NsTryFails n i d d' (f : M T IndraError unit) fault err :
    net_replicas n !! i = Some d →
    (f (d_state d)).2 = Err err →
    (doc_try_update fault f d).1.1 = d' →
    net_step n (publish n i d' [])
| NsNotice n i d fault events notice :
    net_replicas n !! i = Some d →
    events ⊆ net_log n →
    (∀ e, notice = NReceived e → e ∈ net_log n) →
    net_step n (publish n i (on_notice fault i (Some events) notice d) [])
| NsRefresh n i d fault crdt stored :
    net_replicas n !! i = Some d →
    (∀ l, crdt = Some l ∨ stored = Some l → l ⊆ net_log n) →
    net_step n (publish n i (doc_refresh fault crdt stored d).1 [])
| NsForeign n e :
    foreign e →
    net_step n {| net_log := net_log n ++ [e]; net_replicas := net_replicas n; net_unsent := net_unsent n |}.

Definition net_empty : Net T I := {| net_log := []; net_replicas := ∅; net_unsent := ∅ |}.

(** *** The invariant *)

(** Every message of the log is foreign or carries an allowed state. *)
Definition event_ok e : Prop :=
  match e with
  | LeMessage _ _ content _ =>
      delta_for (T := T) name content = None ∧
      state_for (T := T) true name content = state_for false name content ∧
      (∀ s, state_for true name content = Some s → ok s)
  | _ => True
  end.

(** A state is the join of some states of a pool. *)
Definition derived (pool : list T) s : Prop :=
  ok s ∧ ∃ l, l ⊆ pool ∧ R s (join doc_merge doc_default l).

Definition replica_ok pool d : Prop :=
  d_name d = name ∧ derived pool (d_state d) ∧
  (∀ b s, d_snapshot d = Some b → decode_state b = Some s → derived pool s).

(** What the replica of a member can be made of. *)
Definition pool_of (n : Net T I) (i : I) : list T := log_states (net_log n) ++ unsent n i.

Definition net_ok (n : Net T I) : Prop :=
  Forall event_ok (net_log n) ∧ (∀ i, Forall ok (unsent n i)) ∧
  ∀ i d, net_replicas n !! i = Some d → replica_ok (pool_of n i) d.

Context `{!MergeLaws ok R doc_merge doc_default, !CodecLaws ok name}.
Context (no_delta : ∀ old new : T, extract_delta old new = None).

Lemma log_states_app log log' : log_states (log ++ log') = log_states log ++ log_states log'.
Proof. apply omap_app. Qed.

Lemma elem_log_states log s : s ∈ log_states log ↔ ∃ e, e ∈ log ∧ event_state e = Some s.
Proof. apply list_elem_of_omap. Qed.

Lemma log_states_mono log log' : log ⊆ log' → log_states log ⊆ log_states log'.
Proof. intros Hl s. rewrite !elem_log_states. set_solver. Qed.

Lemma log_states_ok log : Forall event_ok log → Forall ok (log_states log).
Proof.
  rewrite !Forall_forall. intros Hl s (e & He & Hs)%elem_log_states.
  specialize (Hl e He). destruct e; simpl in *; naive_solver.
Qed.

Lemma sub_pool_ok pool l : Forall ok pool → l ⊆ pool → Forall ok l.
Proof. rewrite !Forall_forall. set_solver. Qed.

Lemma derived_mono pool pool' s : pool ⊆ pool' → derived pool s → derived pool' s.
Proof. intros Hl (Hs & l & Hin & HR). split; [done|]. exists l. split; [set_solver|done]. Qed.

Lemma derived_default pool : derived pool doc_default.
Proof. split; [eapply ml_ok_zero|]. exists []. split; [set_solver|reflexivity]. Qed.

Lemma derived_elem pool s : Forall ok pool → s ∈ pool → derived pool s.
Proof.
  intros Hl Hs. assert (Hok : ok s) by (rewrite Forall_forall in Hl; auto).
  split; [done|]. exists [s]. split; [set_solver|]. symmetry. by apply (ml_zero (merge := doc_merge)).
Qed.

Lemma derived_merge pool s s' : Forall ok pool → derived pool s → s' ∈ pool → derived pool (doc_merge s s').
Proof.
  intros Hl (Hs & l & Hin & HR) Hs'.
  assert (Hok : ok s') by (rewrite Forall_forall in Hl; auto).
  split; [by eapply ml_ok_merge|]. exists (l ++ [s']). split; [set_solver|].
  unfold join. rewrite foldl_app. simpl. apply ml_proper; auto; [|reflexivity].
  apply (join_ok (R := R)). by eapply sub_pool_ok.
Qed.

Lemma derived_fold pool s l : Forall ok pool → derived pool s → l ⊆ pool → derived pool (foldl doc_merge s l).
Proof.
  intros Hl. revert s. induction l as [|x l IH]; intros s Hs Hin; simpl; [done|].
  apply IH; [apply derived_merge|]; set_solver.
Qed.

(** *** Reading the log *)

Lemma event_ok_incoming b e : event_ok e → match e with
  | LeMessage _ _ c _ => incoming b name c = (λ r s, doc_merge s r) <$> event_state e
  | _ => event_state e = None
  end.
Proof.
  destruct e as [? ? c ?| | | |]; simpl; try done. intros (Hd & Hs & _).
  unfold incoming. rewrite Hd. destruct b; by rewrite <-?Hs.
Qed.

Lemma crdt_fold events s b : Forall event_ok events →
  foldl (crdt_step name) (s, b) events =
  (foldl doc_merge s (log_states events), b || bool_decide (log_states events ≠ [])).
Proof.
  intros Hl. revert s b. induction Hl as [|e l He Hl IH]; intros s b; simpl.
  { by rewrite orb_false_r. }
  pose proof (event_ok_incoming false e He) as Hi.
  destruct e as [? ? c ?| | | |]; simpl in *; try apply IH.
  rewrite Hi. destruct (state_for true name c); simpl; rewrite IH; simpl; [|done].
  by rewrite orb_true_r.
Qed.

Lemma refresh_fold events s b :
  foldl (refresh_step name) (s, b) events =
  (foldl doc_merge s (log_states events), b || bool_decide (log_states events ≠ [])).
Proof.
  revert s b. induction events as [|e l IH]; intros s b; simpl; [by rewrite orb_false_r|].
  destruct e as [? ? c ?| | | |]; simpl; try apply IH.
  destruct (state_for true name c); simpl; rewrite IH; simpl; [|done]. by rewrite orb_true_r.
Qed.

Lemma first_some_elem {A B} (f : A → option B) l y : first_some f l = Some y → ∃ x, x ∈ l ∧ f x = Some y.
Proof. induction l as [|x l IH]; simpl; [done|]. destruct (f x) eqn:E; intros; simplify_eq; set_solver. Qed.

Lemma load_from_published log crdt s : (∀ l, crdt = Some l → l ⊆ log) → load_from name crdt = Some s → s ∈ log_states log.
Proof.
  intros Hin. destruct crdt as [l|]; simpl; [|done]. intros (e & He & Hs)%first_some_elem.
  apply elem_log_states. exists e. split; [|by destruct e].
  apply (Hin l eq_refl). by apply list_elem_of_In, in_rev, list_elem_of_In.
Qed.

(** *** Every step keeps the invariant *)

Lemma replica_ok_mono pool pool' d : pool ⊆ pool' → replica_ok pool d → replica_ok pool' d.
Proof. intros Hl (? & ? & ?). split_and!; eauto using derived_mono. Qed.

Lemma replica_ok_notify pool a b d : replica_ok pool d → replica_ok pool (notify a b d).
Proof. done. Qed.

Lemma replica_ok_set_state pool s d : derived pool s → replica_ok pool d → replica_ok pool (set_d_state s d).
Proof. intros Hs (? & _ & ?). by split_and!. Qed.

Lemma replica_ok_persist pool fault d : replica_ok pool d → replica_ok pool (persist fault d).1.
Proof.
  intros Hd. unfold persist. destruct (encode_state (d_state d)) as [b|] eqn:E; [|done].
  destruct fault; [done|]. destruct Hd as (? & Hs & _). split_and!; simpl; auto.
  intros ? s [= <-] Hb. rewrite (cl_state (ok := ok) (name := name) _ _ (proj1 Hs) E) in Hb. by simplify_eq.
Qed.

Lemma replica_ok_install pool fault a b s d :
  derived pool s → replica_ok pool d → replica_ok pool (notify a b (persist_quietly fault (set_d_state s d))).
Proof. intros. by apply replica_ok_notify, replica_ok_persist, replica_ok_set_state. Qed.

(** What a replica reads comes from a log whose states are in its pool. *)
Section Reading.
Context (log : list (LogEvent I)) (pool : list T).
Context (log_ok : Forall event_ok log) (pool_ok : Forall ok pool) (log_in : log_states log ⊆ pool).

Lemma replica_ok_event fault i e d : e ∈ log → replica_ok pool d → replica_ok pool (on_event fault i e d).
Proof.
  intros He Hd. pose proof (proj1 (Forall_forall _ _) log_ok e He) as Hok.
  apply (event_ok_incoming true) in Hok as Hi. destruct e as [? j c ?| | | |]; simpl; try done.
  case_bool_decide; [done|]. destruct Hd as (Hn & Hs & Hb). rewrite Hn, Hi.
  destruct (event_state _) as [r|] eqn:E; simpl; [|by split_and!].
  apply replica_ok_install; [|by split_and!]. apply derived_merge; auto.
  apply log_in, elem_log_states. eauto.
Qed.

Lemma replica_ok_crdt fault (events : option (list (LogEvent I))) d :
  (∀ l, events = Some l → l ⊆ log) → replica_ok pool d → replica_ok pool (refresh_from_crdt fault events d).1.
Proof.
  intros Hin Hd. destruct events as [l|]; simpl; [|done]. specialize (Hin l eq_refl).
  assert (He : Forall event_ok l) by (rewrite !Forall_forall in *; set_solver).
  destruct Hd as (Hn & Hs & Hb). rewrite Hn, (crdt_fold _ _ _ He).
  assert (derived pool (foldl doc_merge (d_state d) (log_states l))).
  { apply derived_fold; auto. pose proof (log_states_mono _ _ Hin). set_solver. }
  assert (Hd : replica_ok pool d) by by split_and!.
  destruct (negb _); [by apply replica_ok_set_state|].
  destruct (bool_decide _); [by apply replica_ok_set_state|by apply replica_ok_install].
Qed.

Lemma replica_ok_refresh fault crdt stored d :
  (∀ l, crdt = Some l ∨ stored = Some l → l ⊆ log) → replica_ok pool d → replica_ok pool (doc_refresh fault crdt stored d).1.
Proof.
  intros Hin Hd.
  assert (Hpass : ∀ ev b s, (∀ l, ev = Some l → l ⊆ log) → derived pool s → derived pool (refresh_pass name ev (s, b)).1).
  { intros [l|] b s Hev Hs; simpl; [|done]. rewrite refresh_fold. apply derived_fold; auto.
    pose proof (log_states_mono _ _ (Hev l eq_refl)). set_solver. }
  assert (Hdone : ∀ s (u : bool), derived pool s → replica_ok pool
    (if negb u then (set_d_state s d, Ok false)
     else match persist fault (set_d_state s d) with
          | (d, Ok _) => (notify None true d, Ok true) | (d, Err e) => (d, Err e) end).1).
  { intros s u Hs. apply (replica_ok_set_state _ s) in Hd; [|done]. destruct u; simpl; [|done].
    pose proof (replica_ok_persist pool fault _ Hd) as Hp. by destruct (persist fault _) as [? []]. }
  unfold doc_refresh. destruct Hd as (Hn & Hs & Hb). rewrite Hn.
  pose proof (Hpass crdt false (d_state d) ltac:(eauto) Hs) as H1.
  destruct (refresh_pass name crdt _) as [s u]; simpl in H1.
  pose proof (Hpass stored false s ltac:(eauto) H1) as H2.
  destruct u; [|destruct (refresh_pass name stored _) as [s2 u2]; simpl in H2];
    [apply (Hdone s true)|apply (Hdone s2 u2)]; done.
Qed.

Lemma replica_ok_new fault crdt stored snap :
  (∀ l, crdt = Some l ∨ stored = Some l → l ⊆ log) →
  (∀ b s, snap = Some b → decode_state b = Some s → derived pool s) →
  replica_ok pool (doc_new fault name crdt stored snap).
Proof.
  intros Hin Hsnap. apply replica_ok_refresh; auto. split_and!; simpl; auto.
  unfold load_or_create.
  destruct (load_from name crdt) eqn:E1; simpl.
  { apply derived_elem; [done|]. apply log_in. eapply load_from_published; [|exact E1]. eauto. }
  destruct (load_from name stored) eqn:E2; simpl.
  { apply derived_elem; [done|]. apply log_in. eapply load_from_published; [|exact E2]. eauto. }
  destruct snap as [b|]; [|apply derived_default].
  destruct (decode_state b) eqn:E3; simpl; eauto using derived_default.
Qed.
End Reading.

(** A commit installs the new state, whatever fails. *)
Lemma commit_installs {A} pool fault (old : T) (r : A) s d d' r' o :
  replica_ok pool d → derived pool s → commit fault old r (set_d_state s d) = (d', r', o) → replica_ok pool d'.
Proof.
  intros Hd Hs Hc. apply (replica_ok_set_state _ s) in Hd; [|done]. unfold commit in Hc.
  destruct (change_message _ _ _); [|by simplify_eq]. pose proof (replica_ok_persist pool fault _ Hd) as Hp.
  destruct (persist fault _) as [d1 []]; by simplify_eq.
Qed.

(** A successful one has a message with the new state. *)
Lemma commit_publishes {A} fault (old : T) (r : A) s d d' msg id i t :
  d_name d = name → ok s → commit fault old r (set_d_state s d) = (d', Ok r, Some msg) →
  event_ok (LeMessage id i msg t) ∧ event_state (LeMessage id i msg t) = Some s.
Proof.
  intros Hn Hok Hc. unfold commit, change_message in Hc. rewrite no_delta in Hc. simpl in Hc. rewrite Hn in Hc.
  destruct (encode_state s) as [b|] eqn:Es; simpl in Hc; [|done].
  destruct (encode_envelope _) as [m|] eqn:Em; simpl in Hc; [|done].
  destruct (persist fault _) as [d1 [|]] eqn:Ep; simplify_eq.
  pose proof (cl_envelope (ok := ok) (name := name) _ _ Em) as Hde.
  assert (Hnd : delta_for (T := T) name msg = None) by by eapply cl_not_delta; [|done].
  pose proof (cl_state (ok := ok) (name := name) _ _ Hok Es) as Hds.
  assert (Hst : ∀ legacy, state_for legacy name msg = Some s).
  { intros legacy. unfold state_for. rewrite Hde; simpl. by rewrite bool_decide_true. }
  split; [|apply Hst]. simpl. rewrite !Hst. split_and!; auto. by intros ? [= <-].
Qed.

Lemma pool_ok n i : net_ok n → Forall ok (pool_of n i).
Proof. intros (Hl & Hu & _). apply Forall_app. split; [by apply log_states_ok|apply Hu]. Qed.

Lemma net_ok_publish n i d es :
  net_ok n → Forall event_ok es → replica_ok (pool_of (publish n i d es) i) d → net_ok (publish n i d es).
Proof.
  intros (Hl & Hu & Hr) Hes Hd. split; simpl; [by apply Forall_app_2|]. split; [exact Hu|].
  intros j d'. destruct (decide (i = j)) as [<-|]; [rewrite lookup_insert_eq; by intros [= <-]|].
  rewrite lookup_insert_ne by done. intros Hj. eapply replica_ok_mono; [|eauto]. unfold pool_of. simpl.
  change (unsent (publish n i d es) j) with (unsent n j). rewrite log_states_app. set_solver.
Qed.

Lemma net_ok_quiet n i d : net_ok n → replica_ok (pool_of n i) d → net_ok (publish n i d []).
Proof.
  intros Hn Hd. apply net_ok_publish; [done|constructor|]. eapply replica_ok_mono; [|exact Hd].
  unfold pool_of. simpl. rewrite log_states_app. set_solver.
Qed.

Lemma net_ok_unsent n i d s : net_ok n → ok s →
  replica_ok (pool_of n i ++ [s]) d → net_ok (keep_unsent n i d s).
Proof.
  intros (Hl & Hu & Hr) Hs Hd. split; simpl; [done|]. split.
  - intros j. unfold unsent at 1. simpl. destruct (decide (i = j)) as [<-|Hne].
    + rewrite lookup_insert_eq. simpl. apply Forall_app. split; [apply Hu|by apply Forall_singleton].
    + rewrite lookup_insert_ne by done. apply Hu.
  - intros j d'. unfold pool_of, unsent. simpl. destruct (decide (i = j)) as [<-|Hne].
    + rewrite !lookup_insert_eq. intros [= <-]. simpl. by rewrite app_assoc.
    + rewrite !lookup_insert_ne by done. apply Hr.
Qed.

Lemma commit_sent {A} n fault (old : T) (r : A) s i d d' msg id t :
  net_ok n → net_replicas n !! i = Some d → ok s → commit fault old r (set_d_state s d) = (d', Ok r, Some msg) →
  net_ok (publish n i d' [LeMessage id i msg t]).
Proof.
  intros Hn Hi Hs Hc. pose proof Hn as (_ & _ & Hr). specialize (Hr i d Hi).
  destruct (commit_publishes fault old r s d d' msg id i t (proj1 Hr) Hs Hc) as [He Hst].
  assert (Hes : Forall event_ok [LeMessage id i msg t]) by by apply Forall_singleton.
  apply net_ok_publish; [done|done|].
  assert (Hsub : pool_of n i ⊆ pool_of (publish n i d' [LeMessage id i msg t]) i).
  { unfold pool_of. simpl. rewrite log_states_app. change (unsent (publish n i d' _) i) with (unsent n i). set_solver. }
  eapply commit_installs; [by eapply replica_ok_mono| |done]. split; [done|]. exists [s]. split.
  - intros x ->%list_elem_of_singleton. unfold pool_of. simpl. rewrite log_states_app.
    apply elem_of_app. left. apply elem_of_app. right. apply elem_log_states. exists (LeMessage id i msg t).
    split; [by apply list_elem_of_singleton|done].
  - symmetry. by apply (ml_zero (merge := doc_merge)).
Qed.

Lemma commit_unsent {A} n fault (old : T) (r : A) s i d d' r' o :
  net_ok n → net_replicas n !! i = Some d → ok s → commit fault old r (set_d_state s d) = (d', r', o) →
  net_ok (keep_unsent n i d' s).
Proof.
  intros Hn Hi Hs Hc. pose proof Hn as (_ & _ & Hr). specialize (Hr i d Hi). apply net_ok_unsent; [done..|].
  eapply commit_installs; [eapply replica_ok_mono; [|exact Hr]; set_solver| |done].
  apply derived_elem; [|set_solver]. apply Forall_app. split; [by apply pool_ok|by apply Forall_singleton].
Qed.

Lemma net_step_ok n n' : net_ok n → net_step n n' → net_ok n'.
Proof.
  intros Hn Hstep. pose proof Hn as (Hl & Hu & Hr). pose proof (λ i, pool_ok n i Hn) as Hp.
  assert (Hin : ∀ i, log_states (net_log n) ⊆ pool_of n i) by (intros i; unfold pool_of; set_solver).
  destruct Hstep as [n i fault crdt stored Hi Hlog|n i d fault crdt stored Hi Hlog|n i d d' f fault msg id t Hi Hok Hc
    |n i d d' f fault msg id t Hi Hok Hc|n i d d' f fault r o Hi Hok Hc|n i d d' f s fault r o Hi Hf Hok Hc
    |n i d d' f fault err Hi Hf Hc|n i d fault events notice Hi Hev He|n i d fault crdt stored Hi Hlog|n e He].
  - apply net_ok_quiet; [done|]. by eapply replica_ok_new.
  - apply net_ok_quiet; [done|]. eapply replica_ok_new; eauto. intros; by eapply Hr.
  - by eapply commit_sent.
  - unfold doc_try_update in Hc. destruct (f (d_state d)) as [s [[]|]]; [|done]. by eapply commit_sent.
  - by eapply commit_unsent.
  - unfold doc_try_update in Hc. rewrite Hf in Hc. by eapply commit_unsent.
  - apply net_ok_quiet; [done|]. unfold doc_try_update in Hc. destruct (f (d_state d)) as [s []]; simplify_eq/=; eauto.
  - apply net_ok_quiet; [done|]. destruct notice; [eapply replica_ok_event|eapply replica_ok_crdt..]; naive_solver.
  - apply net_ok_quiet; [done|]. eapply replica_ok_refresh; eauto.
  - split; simpl; [|split; [exact Hu|]].
    + apply Forall_app_2, Forall_singleton; [done|].
      destruct e as [? ? c ?| | | |]; simpl in *; auto. destruct He as [-> Hs].
      split_and!; [done| |by rewrite Hs]. rewrite Hs. unfold state_for in *.
      by destruct (decode_envelope c) as [[]|].
    + intros i d Hd. eapply replica_ok_mono; [|by apply Hr]. unfold pool_of. simpl. rewrite log_states_app.
      change (unsent {| net_log := net_log n ++ [e]; net_replicas := net_replicas n; net_unsent := net_unsent n |} i) with (unsent n i).
      set_solver.
Qed.

Lemma net_reachable_ok n : rtc net_step net_empty n → net_ok n.
Proof.
  intros Hn. eapply rtc_invariant; [intros ?? ? ?; by eapply net_step_ok|exact Hn|].
  split; simpl; [constructor|]. split; intros i; unfold unsent; simpl; [rewrite lookup_empty; constructor|].
  intros d. by rewrite lookup_empty.
Qed.

Lemma split_subset {A} (l a b : list A) : l ⊆ a ++ b → ∃ l1 l2, l1 ⊆ a ∧ l2 ⊆ b ∧ ∀ x, x ∈ l ↔ x ∈ l1 ++ l2.
Proof.
  induction l as [|x l IH]; intros Hl; [exists [], []; set_solver|].
  destruct IH as (l1 & l2 & H1 & H2 & Heq); [set_solver|].
  assert (x ∈ a ∨ x ∈ b) as [Hx|Hx] by (apply elem_of_app, Hl; left).
  - exists (x :: l1), l2. set_solver.
  - exists l1, (x :: l2). set_solver.
Qed.

(** *** Convergence *)

(** C23. For a document type with a merge that satisfies [MergeLaws], encodings that
    satisfy [CodecLaws] and no deltas: however members join, restart, change the
    document, fail to store or to send a change, miss events and catch up, a
    replica that reads the log (in whatever order) holds the join of all the
    states ever published and of some that its own updates made without
    publishing them; without such failures exactly the join of all the states
    ever published. *)
Theorem refresh_join n i d fault events :
  rtc net_step net_empty n → net_replicas n !! i = Some d → (∀ e, e ∈ events ↔ e ∈ net_log n) →
  let s := d_state (refresh_from_crdt fault (Some events) d).1 in
  (∃ l, l ⊆ unsent n i ∧ R s (join doc_merge doc_default (log_states (net_log n) ++ l))) ∧
  (unsent n i = [] → R s (join doc_merge doc_default (log_states (net_log n)))).
Proof.
  intros Hreach Hi Hev s. pose proof (net_reachable_ok n Hreach) as Hn. pose proof (pool_ok n i Hn) as Hp.
  destruct Hn as (Hl & Hu & Hr). destruct (Hr i d Hi) as (Hn & (Hs & l0 & Hin & HR) & _).
  assert (He : Forall event_ok events) by (rewrite !Forall_forall in *; set_solver).
  assert (Hst : ∀ x, x ∈ log_states events ↔ x ∈ log_states (net_log n)).
  { intros x. rewrite !elem_log_states. set_solver. }
  assert (Hfold : R s (foldl doc_merge (d_state d) (log_states events))).
  { unfold s. simpl. rewrite Hn, (crdt_fold _ _ _ He). unfold persist_quietly, persist. repeat case_match; reflexivity. }
  destruct (split_subset l0 _ _ Hin) as (l1 & l2 & H1 & H2 & Heq).
  assert (Hmain : R s (join doc_merge doc_default (log_states (net_log n) ++ l2))).
  { pose proof (sub_pool_ok _ _ Hp Hin) as Hok0. pose proof (log_states_ok _ He) as Hoke. pose proof (log_states_ok _ Hl) as Hokl.
    etransitivity; [exact Hfold|]. etransitivity; [eapply fold_join with (l' := l0); eauto|].
    eapply join_set; [by apply Forall_app| |set_solver].
    apply Forall_app. split; [done|]. eapply sub_pool_ok; [apply Hu|exact H2]. }
  split; [by exists l2|]. intros Hnone. rewrite Hnone in H2. destruct l2 as [|x l2]; [by rewrite app_nil_r in Hmain|set_solver].
Qed.
End Realm.

(** ** Shapes of merges *)

(** The laws along a projection. *)
Lemma projection_laws {T T'} (g : T → T') ok R merge merge' zero zero' :
  (∀ a b, g (merge a b) = merge' (g a) (g b)) → g zero = zero' → MergeLaws ok R merge' zero' →
  MergeLaws (λ a, ok (g a)) (λ a b, R (g a) (g b)) merge zero.
Proof.
  intros Hg Hz [[[Hr Hs Ht] Hok Hp Hc Ha Hi] Ho Hz']. split; [split; [split|..]|..].
  - intros a. apply Hr.
  - intros a b. apply Hs.
  - intros a b c. apply Ht.
  - intros a b. rewrite Hg. apply Hok.
  - intros a a' b b'. rewrite !Hg. apply Hp.
  - intros a b. rewrite !Hg. apply Hc.
  - intros a b c. rewrite !Hg. apply Ha.
  - intros a. rewrite Hg. apply Hi.
  - by rewrite Hz.
  - intros a. rewrite Hg, Hz. apply Hz'.
Qed.

(** Entry by entry: [get] reads the entry of a key. *)
Section Pointwise.
Context {T K V : Type} {ok : T → Prop} {okv : K → V → Prop} {RV : relation V}.
Context {get : T → K → option V} {f : V → V → V} {merge : T → T → T} {zero : T}.
Context `{HV : ∀ k, JoinLaws (okv k) RV f}.

Definition entries_equiv (get : T → K → option V) (RV : relation V) (a b : T) : Prop :=
  ∀ k, option_Forall2 RV (get a k) (get b k).

Lemma pointwise_laws :
  (∀ a k v, ok a → get a k = Some v → okv k v) →
  (∀ a b, ok a → ok b → ok (merge a b)) →
  (∀ a b k, ok a → ok b → get (merge a b) k = union_with (λ x y, Some (f x y)) (get a k) (get b k)) →
  Equivalence RV → ok zero → (∀ k, get zero k = None) →
  MergeLaws ok (entries_equiv get RV) merge zero.
Proof.
  intros Hokv Hok Hget HRV Hz Hgz.
  assert (Hv : ∀ a k v, get a k = Some v → ok a → okv k v) by eauto.
  split; [split|done|].
  - split.
    + intros a k. reflexivity.
    + intros a b Hab k. by symmetry.
    + intros a b c Hab Hbc k. by transitivity (get b k).
  - done.
  - intros a a' b b' Ha Ha' Hb Hb' HA HB k. rewrite !Hget by done.
    specialize (HA k). specialize (HB k).
    destruct (get a k) eqn:E1, (get a' k) eqn:E2, (get b k) eqn:E3, (get b' k) eqn:E4;
      inversion HA; inversion HB; simplify_eq; simpl; constructor; auto.
    eapply (ml_proper (JoinLaws := HV k)); eauto.
  - intros a b Ha Hb k. rewrite !Hget by done.
    destruct (get a k) eqn:E1, (get b k) eqn:E2; simpl; constructor; try reflexivity.
    eapply (ml_comm (JoinLaws := HV k)); eauto.
  - intros a b c Ha Hb Hc k. rewrite !Hget by auto.
    destruct (get a k) eqn:E1, (get b k) eqn:E2, (get c k) eqn:E3; simpl; constructor; try reflexivity.
    eapply (ml_assoc (JoinLaws := HV k)); eauto.
  - intros a Ha k. rewrite Hget by done. destruct (get a k) eqn:E; simpl; constructor.
    eapply (ml_idem (JoinLaws := HV k)); eauto.
  - intros a Ha k. rewrite Hget by done. rewrite Hgz. destruct (get a k); simpl; constructor. reflexivity.
Qed.
End Pointwise.

(** The better of two values; ties keep the first.  Where values that tie are
    equal, the order does not matter. *)
Definition pick {A} (better : A → A → bool) (a b : A) : A := if better b a then b else a.

Class PickOrder {A} (ok : A → Prop) (better : A → A → bool) : Prop := {
  po_asym a b : ok a → ok b → better a b = true → better b a = false;
  po_trans a b c : ok a → ok b → ok c → better a b = true → better b c = true → better a c = true;
  po_tie a b : ok a → ok b → better a b = false → better b a = false → a = b;
}.

Lemma pick_cases {A} (better : A → A → bool) a b : pick better a b = a ∨ pick better a b = b.
Proof. unfold pick. destruct (better b a); auto. Qed.

Lemma pick_laws {A} (ok : A → Prop) (better : A → A → bool) : PickOrder ok better → JoinLaws ok eq (pick better).
Proof.
  intros Hpo. split; [apply _|..].
  - intros a b Ha Hb. by destruct (pick_cases better a b) as [-> | ->].
  - by intros; subst.
  - intros a b Ha Hb. unfold pick.
    destruct (better b a) eqn:E1, (better a b) eqn:E2; auto; [|symmetry; by apply po_tie].
    rewrite (po_asym (ok := ok) b a) in E2; auto. done.
  - intros a b c Ha Hb Hc. unfold pick.
    destruct (better c b) eqn:E1, (better b a) eqn:E2; rewrite ?E1, ?E2; auto.
    + by rewrite (po_trans (ok := ok) c b a).
    + destruct (better c a) eqn:E3; [|done].
      destruct (better b c) eqn:E4; [by rewrite (po_trans (ok := ok) b c a) in E2|].
      rewrite (po_tie (ok := ok) b c Hb Hc E4 E1) in E2. congruence.
  - intros a Ha. unfold pick. by destruct (better a a).
Qed.

(** Last writer wins: a later stamp is better.  Values are coherent when a stamp
    names one value. *)
Section Lww.
Context {A : Type} (ts : A → Z).

Definition later (a b : A) : bool := ts b <? ts a.
Definition lww (a b : A) : A := pick later a b.
Definition coherent (U : Z → option A) (a : A) : Prop := U (ts a) = Some a.

#[export] Instance later_order U : PickOrder (coherent U) later.
Proof.
  unfold later, coherent. split.
  - intros. lia.
  - intros. lia.
  - intros a b Ha Hb H1 H2. assert (ts a = ts b) as E by lia. rewrite E in Ha. congruence.
Qed.

Definition register_ok (U : Z → option A) (zero a : A) : Prop := coherent U a ∧ ts zero <= ts a.

Lemma lww_register U zero : coherent U zero → MergeLaws (register_ok U zero) eq lww zero.
Proof.
  intros Hz. pose proof (pick_laws _ _ (later_order U)) as [_ Hok Hp Hc Ha Hi].
  split; [split; [apply _|..]|..]; unfold register_ok.
  - intros a b [??] [??]. by destruct (pick_cases later a b) as [E|E]; unfold lww; rewrite E.
  - by intros; subst.
  - intros a b [??] [??]. by apply Hc.
  - intros a b c [??] [??] [??]. by apply Ha.
  - intros a [??]. by apply Hi.
  - split; [done|lia].
  - intros a [Ha' ?]. unfold lww, pick, later. destruct (ts zero <? ts a) eqn:E; [done|].
    unfold coherent in *. assert (ts zero = ts a) as E' by lia. rewrite E' in Hz. congruence.
Qed.
End Lww.

(** The first value of a key in a list. *)
Section Keyed.
Context {A K : Type} `{EqDecision K} (key : A → K).

Definition find_key (k : K) (l : list A) : option A := head (retain (λ a, bool_decide (key a = k)) l).

(** [iter_mut().find(..)] and replace if better, else push. *)
Fixpoint upsert (better : A → A → bool) (x : A) (l : list A) : list A :=
  match l with
  | [] => [x]
  | y :: l => if bool_decide (key y = key x) then pick better y x :: l else y :: upsert better x l
  end.

Definition upsert_all (better : A → A → bool) (l l' : list A) : list A := foldl (λ l x, upsert better x l) l l'.

Lemma find_key_cons k x l : find_key k (x :: l) = if bool_decide (key x = k) then Some x else find_key k l.
Proof. unfold find_key. simpl. by destruct (bool_decide _). Qed.

Lemma find_key_some k l x : find_key k l = Some x → x ∈ l ∧ key x = k.
Proof.
  induction l as [|y l IH]; [done|]. rewrite find_key_cons. case_bool_decide; intros; simplify_eq; set_solver.
Qed.

Lemma find_key_none k l : find_key k l = None ↔ k ∉ key <$> l.
Proof.
  induction l as [|y l IH]; [set_solver|]. rewrite find_key_cons, fmap_cons, not_elem_of_cons.
  case_bool_decide; naive_solver.
Qed.

Lemma find_key_upsert better k x l :
  find_key k (upsert better x l) =
  if bool_decide (key x = k) then Some (default x ((λ y, pick better y x) <$> find_key k l)) else find_key k l.
Proof.
  induction l as [|y l IH]; simpl.
  { rewrite find_key_cons. by destruct (bool_decide _). }
  assert (Hp : key y = key x → key (pick better y x) = key x) by (intros; by destruct (pick_cases better y x) as [-> | ->]).
  destruct (bool_decide_reflect (key y = key x)) as [E|E]; rewrite !find_key_cons.
  - rewrite (Hp E), E. by destruct (bool_decide _).
  - destruct (bool_decide_reflect (key y = k)) as [<-|]; [by rewrite bool_decide_false|]. apply IH.
Qed.

Lemma upsert_keys better x l :
  key <$> upsert better x l = if bool_decide (key x ∈ key <$> l) then key <$> l else (key <$> l) ++ [key x].
Proof.
  induction l as [|y l IH]; [done|]. cbn [upsert].
  destruct (bool_decide_reflect (key y = key x)) as [E|E]; rewrite !fmap_cons.
  - assert (key (pick better y x) = key y) as -> by (by destruct (pick_cases better y x) as [-> | ->]).
    rewrite bool_decide_true; [done|]. rewrite E. left.
  - rewrite IH. destruct (decide (key x ∈ key <$> l)).
    + rewrite !bool_decide_true by (try done; by right). done.
    + rewrite !bool_decide_false; [done| |done]. intros [|]%elem_of_cons; congruence.
Qed.

Lemma upsert_NoDup better x l : NoDup (key <$> l) → NoDup (key <$> upsert better x l).
Proof.
  intros Hl. rewrite upsert_keys. case_bool_decide; [done|].
  apply NoDup_app. split_and!; [done| |apply NoDup_singleton]. set_solver.
Qed.

Lemma upsert_all_NoDup better l l' : NoDup (key <$> l) → NoDup (key <$> upsert_all better l l').
Proof. revert l. induction l' as [|x l' IH]; intros l Hl; simpl; auto using upsert_NoDup. Qed.

Lemma elem_upsert better x y l : y ∈ upsert better x l → y = x ∨ y ∈ l.
Proof.
  induction l as [|z l IH]; simpl; [set_solver|]. case_bool_decide; [|set_solver].
  destruct (pick_cases better z x) as [-> | ->]; set_solver.
Qed.

Lemma elem_upsert_all better y l l' : y ∈ upsert_all better l l' → y ∈ l' ∨ y ∈ l.
Proof. revert l. induction l' as [|x l' IH]; intros l; simpl; [auto|]. intros [|[->|]%elem_upsert]%IH; set_solver. Qed.

(** Upserting every entry of a list without repeated keys merges entry by
    entry. *)
Lemma find_key_upsert_all better k l l' : NoDup (key <$> l') →
  find_key k (upsert_all better l l') =
  union_with (λ x y, Some (pick better x y)) (find_key k l) (find_key k l').
Proof.
  revert l. induction l' as [|x l' IH]; intros l Hl'.
  { change (find_key k l = union_with (λ x y, Some (pick better x y)) (find_key k l) None). by destruct (find_key k l). }
  apply NoDup_cons in Hl' as [Hx Hl']. simpl. change (foldl _ _ _) with (upsert_all better (upsert better x l) l').
  rewrite IH, find_key_upsert, find_key_cons by done.
  case_bool_decide as E; [|done]. subst k. rewrite (proj2 (find_key_none _ l') Hx).
  by destruct (find_key (key x) l).
Qed.

Lemma find_key_elem l x : NoDup (key <$> l) → x ∈ l → find_key (key x) l = Some x.
Proof.
  induction l as [|y l IH]; [set_solver|]. rewrite fmap_cons, NoDup_cons, find_key_cons. intros [Hy Hl] [->|Hx]%elem_of_cons.
  - by rewrite bool_decide_true.
  - rewrite bool_decide_false; [by apply IH|]. intros E. apply Hy. rewrite E. by apply list_elem_of_fmap_2.
Qed.

Definition keyed_ok (okv : A → Prop) (l : list A) : Prop := NoDup (key <$> l) ∧ Forall okv l.

Lemma upsert_all_laws (okv : A → Prop) better : (∀ k, PickOrder (λ x, okv x ∧ key x = k) better) →
  MergeLaws (keyed_ok okv) (entries_equiv (λ l k, find_key k l) eq) (upsert_all better) [].
Proof.
  intros Hpo. apply (pointwise_laws (HV := λ k, pick_laws _ better (Hpo k))).
  - intros l k x [_ Hl] [Hx Hk]%find_key_some. rewrite Forall_forall in Hl. auto.
  - intros l l' [Hn Hl] [_ Hl']. split; [by apply upsert_all_NoDup|].
    rewrite Forall_forall in *. intros x [|]%elem_upsert_all; auto.
  - intros l l' k _ [Hn _]. by apply find_key_upsert_all.
  - apply _.
  - split; constructor.
  - done.
Qed.
End Keyed.

(** A loop over the entries of a map whose body touches only the entry it is
    at. *)
Section Entries.
Context {K V W : Type} `{Countable K}.

Definition for_entries (step : K → V → gmap K W → gmap K W) (m : gmap K W) (remote : gmap K V) : gmap K W :=
  foldl (λ m kv, step kv.1 kv.2 m) m (map_to_list remote).

Lemma for_entries_lookup (f : K → option W → V → option W) step m remote k (P : gmap K W → Prop) :
  P m →
  (∀ m k v, remote !! k = Some v → P m → P (step k v m)) →
  (∀ m k v, remote !! k = Some v → P m → step k v m !! k = f k (m !! k) v) →
  (∀ m k k' v, remote !! k = Some v → P m → k' ≠ k → step k v m !! k' = m !! k') →
  for_entries step m remote !! k = match remote !! k with Some v => f k (m !! k) v | None => m !! k end.
Proof.
  intros HP Hstep Hat Hother. unfold for_entries.
  assert (Hin : ∀ kv, kv ∈ map_to_list remote → remote !! kv.1 = Some kv.2) by (intros [] ?; by apply elem_of_map_to_list).
  assert (Hk : match remote !! k with Some v => f k (m !! k) v | None => m !! k end =
    match list_to_map (M := gmap K V) (map_to_list remote) !! k with Some v => f k (m !! k) v | None => m !! k end)
    by by rewrite list_to_map_to_list.
  rewrite Hk. clear Hk. pose proof (NoDup_fst_map_to_list remote) as Hnd.
  revert m HP. induction (map_to_list remote) as [|[j v] l IH]; intros m HP; simpl; [done|].
  apply NoDup_cons in Hnd as [Hj Hnd]. rewrite IH; try done.
  - destruct (decide (j = k)) as [->|].
    + rewrite lookup_insert_eq, Hat by (done || apply (Hin (k, v)); left).
      by rewrite (not_elem_of_list_to_map_1 _ _ Hj).
    + rewrite lookup_insert_ne by done. rewrite Hother; [done|apply (Hin (j, v)); left|done|done].
  - intros. apply Hin. by right.
  - apply Hstep; [apply (Hin (j, v)); left|done].
Qed.

Lemma for_entries_ind (P : gmap K W → Prop) step m remote :
  P m → (∀ m k v, remote !! k = Some v → P m → P (step k v m)) → P (for_entries step m remote).
Proof.
  intros HP Hstep. unfold for_entries.
  assert (Hin : ∀ kv, kv ∈ map_to_list remote → remote !! kv.1 = Some kv.2) by (intros [] ?; by apply elem_of_map_to_list).
  revert m HP. induction (map_to_list remote) as [|[k v] l IH]; intros m HP; simpl; [done|].
  apply IH; [set_solver|]. apply Hstep; [apply (Hin (k, v)); left|done].
Qed.
End Entries.

(** ** Logs united by identifier *)

(** Never replace: the entry that came first stays. *)
Definition never {A} (_ _ : A) : bool := false.

Section UnionLogs.
Context {A K T : Type} `{EqDecision K} (key : A → K) (log : T → list A) (merge : T → T → T) (zero : T).

(** An identifier names one entry. *)
Definition log_ok (U : K → option A) (d : T) : Prop := NoDup (key <$> log d) ∧ Forall (λ x, U (key x) = Some x) (log d).
Definition log_equiv (d d' : T) : Prop := ∀ x, x ∈ log d ↔ x ∈ log d'.

Lemma elem_upsert_never U l x y : Forall (λ x, U (key x) = Some x) l → U (key x) = Some x →
  y ∈ upsert key never x l ↔ y ∈ l ∨ y = x.
Proof.
  intros Hl Hx. induction Hl as [|z l Hz Hl IH]; simpl; [set_solver|].
  case_bool_decide as E; [|set_solver]. unfold pick, never.
  assert (z = x) as -> by congruence. set_solver.
Qed.

Lemma elem_upsert_all_never U l l' y : Forall (λ x, U (key x) = Some x) l → Forall (λ x, U (key x) = Some x) l' →
  y ∈ upsert_all key never l l' ↔ y ∈ l ∨ y ∈ l'.
Proof.
  intros Hl Hl'. revert l Hl. induction Hl' as [|x l' Hx Hl' IH]; intros l Hl; simpl; [set_solver|].
  rewrite IH; [rewrite (elem_upsert_never U) by done; set_solver|].
  apply Forall_forall. intros z [?| ->]%(elem_upsert_never U); [|done..]. rewrite Forall_forall in Hl. auto.
Qed.

Lemma union_log_laws U :
  (∀ a b, log (merge a b) ≡ₚ upsert_all key never (log a) (log b)) → log zero = [] →
  MergeLaws (log_ok U) log_equiv merge zero.
Proof.
  intros Hm Hz.
  assert (Hel : ∀ a b x, log_ok U a → log_ok U b → x ∈ log (merge a b) ↔ x ∈ log a ∨ x ∈ log b).
  { intros a b x [_ Ha] [_ Hb]. rewrite Hm. by apply (elem_upsert_all_never U). }
  assert (Hok : ∀ a b, log_ok U a → log_ok U b → log_ok U (merge a b)).
  { intros a b Ha Hb. split.
    - rewrite Hm. apply upsert_all_NoDup, Ha.
    - apply Forall_forall. intros x. rewrite (Hel a b) by done. destruct Ha as [_ Ha], Hb as [_ Hb].
      rewrite Forall_forall in Ha, Hb. naive_solver. }
  assert (Hzok : log_ok U zero) by (split; rewrite Hz; constructor).
  split; [split; [split|..]|..]; unfold log_equiv; try done.
  - intros a b Hab x. by rewrite Hab.
  - intros a b c Hab Hbc x. by rewrite Hab, Hbc.
  - intros a a' b b' Ha Ha' Hb Hb' HA HB x. by rewrite !Hel, HA, HB.
  - intros a b Ha Hb x. rewrite !Hel by done. tauto.
  - intros a b c Ha Hb Hc x. rewrite !Hel by auto. tauto.
  - intros a Ha x. rewrite Hel by done. tauto.
  - intros a Ha x. rewrite Hel, Hz by done. set_solver.
Qed.
End UnionLogs.
