(* ===== verification/SyncDocs.v ===== *)
(** * The small documents of a realm

    Models the document types whose merge keeps the later value, the larger
    number or the union: [witness_roster.rs], [attention_tip.rs],
    [certificate.rs], [fraud_evidence.rs], [peer_key_directory.rs],
    [file_backup_index.rs], [device_roster.rs], [project/registry.rs],
    [profile_identity.rs], [homepage_profile.rs], [backup_peers.rs],
    [steward_enrollment.rs], [share_delivery.rs], [recovery_protocol.rs],
    [account_root_envelope.rs] (its merge) and [vault/vault_document.rs] of
    [indras-sync-engine], [read_tracker.rs] of [indras-network], and
    [account_root.rs], [device_cert.rs] of [indras-crypto].

    Each type is shown to satisfy [MergeLaws] on the states it is meant for:
    one value per stamp, one record per key.  So its replicas converge, by the
    theorem of [Convergence.v]. *)

From S2P Require Import Prelude Artifact Crypto Attention Peering Quorum Packet Pending EventStore Documents Convergence.

(** ** Registers: the later value wins *)

(** [backup_peers.rs] *)
Record BackupPeerAssignment : Type := {
  bpa_requester_user_id : arr32;
  bpa_requester_display_name : string;
  bpa_responsibility_text : string;
  bpa_shard_capacity_estimate : Z;
  bpa_assigned_at_millis : Z;
  bpa_retired : bool;
}.

Definition BACKUP_ROLE_KEY_PREFIX : string := "_backup_role:".
Definition backup_role_doc_key (requester : arr32) : string := BACKUP_ROLE_KEY_PREFIX +:+ hex32 requester.

Definition backup_assignment_default : BackupPeerAssignment :=
  {| bpa_requester_user_id := zeros32; bpa_requester_display_name := ""; bpa_responsibility_text := "";
     bpa_shard_capacity_estimate := 0; bpa_assigned_at_millis := 0; bpa_retired := false |}.

Definition backup_assignment_merge (local remote : BackupPeerAssignment) : BackupPeerAssignment :=
  if bpa_assigned_at_millis local <? bpa_assigned_at_millis remote then remote else local.

Record BackupPeerEntry : Type := {
  bpe_peer_user_id_hex : string;
  bpe_peer_label : string;
  bpe_online : bool;
  bpe_active : bool;
}.

Definition ascii_lower (c : ascii) : ascii :=
  let n := N_of_ascii c in if ((65 <=? n) && (n <=? 90))%N then ascii_of_N (n + 32) else c.
Fixpoint to_ascii_lowercase (s : string) : string :=
  match s with EmptyString => EmptyString | String c s => String (ascii_lower c) (to_ascii_lowercase s) end.

(** Online first, then by label. *)
Definition backup_leb (a b : BackupPeerEntry) : bool :=
  if Bool.eqb (bpe_online a) (bpe_online b)
  then bytes_leb (as_bytes (to_ascii_lowercase (bpe_peer_label a))) (as_bytes (to_ascii_lowercase (bpe_peer_label b)))
  else bpe_online a.

Definition select_top (candidates : list BackupPeerEntry) (target_count : nat) : list BackupPeerEntry :=
  take target_count (sort_by backup_leb candidates).

(** [steward_enrollment.rs] *)
Record StewardInvitation : Type := {
  si_from_user_id : arr32;
  si_from_display_name : string;
  si_responsibility_text : string;
  si_threshold_k : Z;
  si_total_n : Z;
  si_issued_at_millis : Z;
  si_withdrawn : bool;
}.

Record StewardResponse : Type := {
  sr_steward_user_id : arr32;
  sr_accepted : bool;
  sr_responded_at_millis : Z;
  sr_kem_ek_bytes : list byte;
  sr_dsa_vk_bytes : list byte;
}.

Definition INVITE_KEY_PREFIX : string := "_steward_invite:".
Definition RESPONSE_KEY_PREFIX : string := "_steward_accept:".
Definition invite_doc_key (sender : arr32) : string := INVITE_KEY_PREFIX +:+ hex32 sender.
Definition response_doc_key (sender : arr32) : string := RESPONSE_KEY_PREFIX +:+ hex32 sender.

Definition steward_invitation_default : StewardInvitation :=
  {| si_from_user_id := zeros32; si_from_display_name := ""; si_responsibility_text := ""; si_threshold_k := 0;
     si_total_n := 0; si_issued_at_millis := 0; si_withdrawn := false |}.
Definition steward_response_default : StewardResponse :=
  {| sr_steward_user_id := zeros32; sr_accepted := false; sr_responded_at_millis := 0; sr_kem_ek_bytes := [];
     sr_dsa_vk_bytes := [] |}.

Definition steward_invitation_merge (local remote : StewardInvitation) : StewardInvitation :=
  if si_issued_at_millis local <? si_issued_at_millis remote then remote else local.
Definition steward_response_merge (local remote : StewardResponse) : StewardResponse :=
  if sr_responded_at_millis local <? sr_responded_at_millis remote then remote else local.

Inductive EnrollmentStatus : Type :=
| EnNotInvited
| EnInvited (issued_at_millis : Z)
| EnAccepted (responded_at_millis : Z)
| EnDeclined (responded_at_millis : Z)
| EnWithdrawn.

Definition enrollment_derive (invite : option StewardInvitation) (response : option StewardResponse) : EnrollmentStatus :=
  match invite, response with
  | None, _ => EnNotInvited
  | Some inv, response =>
      if si_withdrawn inv then EnWithdrawn
      else match response with
           | None => EnInvited (si_issued_at_millis inv)
           | Some resp =>
               if sr_responded_at_millis resp <? si_issued_at_millis inv then EnInvited (si_issued_at_millis inv)
               else if sr_accepted resp then EnAccepted (sr_responded_at_millis resp)
               else EnDeclined (sr_responded_at_millis resp)
           end
  end.

Definition enrollment_is_accepted (s : EnrollmentStatus) : bool := match s with EnAccepted _ => true | _ => false end.

(** [share_delivery.rs] *)
Record ShareDelivery : Type := {
  sd_encrypted_share : list byte;
  sd_sender_user_id : arr32;
  sd_created_at_millis : Z;
  sd_label : string;
}.

Definition SHARE_DELIVERY_KEY_PREFIX : string := "_steward_share:".
Definition share_delivery_doc_key (sender : arr32) : string := SHARE_DELIVERY_KEY_PREFIX +:+ hex32 sender.
Definition share_delivery_default : ShareDelivery :=
  {| sd_encrypted_share := []; sd_sender_user_id := zeros32; sd_created_at_millis := 0; sd_label := "" |}.
Definition share_delivery_merge (local remote : ShareDelivery) : ShareDelivery :=
  if sd_created_at_millis local <? sd_created_at_millis remote then remote else local.

(** [recovery_protocol.rs] *)
Record RecoveryRequest : Type := {
  rr_new_device_uid : arr32;
  rr_new_device_display_name : string;
  rr_new_device_kem_ek : list byte;
  rr_new_device_vk : list byte;
  rr_issued_at_millis : Z;
  rr_withdrawn : bool;
}.

Record ShareRelease : Type := {
  srel_steward_uid : arr32;
  srel_source_account_uid : arr32;
  srel_encrypted_share_bytes : list byte;
  srel_approved_at_millis : Z;
}.

Definition RECOVERY_REQUEST_KEY_PREFIX : string := "_recovery_request:".
Definition SHARE_RELEASE_KEY_PREFIX : string := "_share_release:".
Definition recovery_request_doc_key (new_device : arr32) : string := RECOVERY_REQUEST_KEY_PREFIX +:+ hex32 new_device.
Definition share_release_doc_key (new_device : arr32) : string := SHARE_RELEASE_KEY_PREFIX +:+ hex32 new_device.

Definition recovery_request_default : RecoveryRequest :=
  {| rr_new_device_uid := zeros32; rr_new_device_display_name := ""; rr_new_device_kem_ek := []; rr_new_device_vk := [];
     rr_issued_at_millis := 0; rr_withdrawn := false |}.
Definition share_release_default : ShareRelease :=
  {| srel_steward_uid := zeros32; srel_source_account_uid := zeros32; srel_encrypted_share_bytes := [];
     srel_approved_at_millis := 0 |}.
Definition recovery_request_merge (local remote : RecoveryRequest) : RecoveryRequest :=
  if rr_issued_at_millis local <? rr_issued_at_millis remote then remote else local.
Definition share_release_merge (local remote : ShareRelease) : ShareRelease :=
  if srel_approved_at_millis local <? srel_approved_at_millis remote then remote else local.

(** [account_root_envelope.rs] *)
Record AccountRootEnvelope : Type := {
  are_encrypted_sk : list byte;
  are_nonce : list byte;
  are_verifying_key_bytes : list byte;
  are_version : Z;
}.
Definition root_envelope_default : AccountRootEnvelope :=
  {| are_encrypted_sk := []; are_nonce := []; are_verifying_key_bytes := []; are_version := 0 |}.
Definition root_envelope_merge (local remote : AccountRootEnvelope) : AccountRootEnvelope :=
  if are_version local <? are_version remote then remote else local.

(** [file_shard.rs] *)
Record FileShard : Type := {
  fs_file_id : arr32;
  fs_shard_index : Z;
  fs_shard_count : Z;
  fs_data_threshold : Z;
  fs_ciphertext_len : Z;
  fs_shard_bytes : list byte;
  fs_per_file_key_envelope : list byte;
  fs_per_file_key_nonce : list byte;
  fs_file_nonce : list byte;
  fs_label : string;
  fs_created_at_millis : Z;
}.
Definition file_shard_default : FileShard :=
  {| fs_file_id := zeros32; fs_shard_index := 0; fs_shard_count := 0; fs_data_threshold := 0; fs_ciphertext_len := 0;
     fs_shard_bytes := []; fs_per_file_key_envelope := []; fs_per_file_key_nonce := []; fs_file_nonce := [];
     fs_label := ""; fs_created_at_millis := 0 |}.
Definition FILE_SHARD_KEY_PREFIX : string := "_file_shard:".
Definition file_shard_doc_key (file_id : arr32) (shard_index : Z) : string :=
  FILE_SHARD_KEY_PREFIX +:+ (hex32 file_id +:+ (":" +:+ i64_to_string shard_index)).
Definition file_shard_merge (local remote : FileShard) : FileShard :=
  if fs_created_at_millis local <? fs_created_at_millis remote then remote else local.

(** [profile_identity.rs], [homepage_profile.rs] *)
Record ProfileIdentityDocument : Type := {
  pid_display_name : string;
  pid_username : string;
  pid_bio : option string;
  pid_public_key : string;
  pid_updated_at : Z;
}.
Definition profile_identity_default : ProfileIdentityDocument :=
  {| pid_display_name := ""; pid_username := ""; pid_bio := None; pid_public_key := ""; pid_updated_at := 0 |}.
Definition profile_identity_merge (local remote : ProfileIdentityDocument) : ProfileIdentityDocument :=
  if pid_updated_at local <? pid_updated_at remote then remote else local.

Record HomepageField : Type := { hf_name : string; hf_value : string; hf_grants_json : string }.
Record HomepageProfileDocument : Type := { hp_fields : list HomepageField; hp_updated_at : Z }.
Definition homepage_profile_default : HomepageProfileDocument := {| hp_fields := []; hp_updated_at := 0 |}.
Definition homepage_profile_merge (local remote : HomepageProfileDocument) : HomepageProfileDocument :=
  if hp_updated_at local <? hp_updated_at remote then remote else local.

(** One law covers them: as long as a stamp names one value, and none is
    before the default, a register converges. *)
Lemma register_laws {A} (ts : A → Z) (m : A → A → A) (U : Z → option A) (zero : A) :
  (∀ a b, m a b = if ts a <? ts b then b else a) → U (ts zero) = Some zero →
  MergeLaws (register_ok ts U zero) eq m zero.
Proof.
  intros Hm Hz. pose proof (lww_register ts U zero Hz) as [[Heq Hok Hp Hc Ha Hi] Hoz Hzero].
  assert (Hml : ∀ a b, m a b = lww ts a b) by (intros; by rewrite Hm).
  split; [split; [apply _|..]|done|]; repeat intro; rewrite ?Hml; auto.
Qed.

(** The first and second example of the use of this law: the sealed root and
    the shares of stewards. *)
Lemma root_envelope_laws U : U 0 = Some root_envelope_default →
  MergeLaws (register_ok are_version U root_envelope_default) eq root_envelope_merge root_envelope_default.
Proof. intros. by apply register_laws. Qed.

Lemma share_release_laws U : U 0 = Some share_release_default →
  MergeLaws (register_ok srel_approved_at_millis U share_release_default) eq share_release_merge share_release_default.
Proof. intros. by apply register_laws. Qed.

(** ** Witness rosters *)

Record WitnessRosterDocument : Type := { rosters : gmap ArtifactId (gset arr32) }.
Definition roster_default : WitnessRosterDocument := {| rosters := ∅ |}.

Definition set_roster (scope : ArtifactId) (ws : list arr32) (d : WitnessRosterDocument) : WitnessRosterDocument :=
  {| rosters := <[scope := list_to_set ws]> (rosters d) |}.
(** A [BTreeSet] is listed in order. *)
Definition get_roster (scope : ArtifactId) (d : WitnessRosterDocument) : list arr32 :=
  match rosters d !! scope with Some s => sort_by arr32_leb (elements s) | None => [] end.
Definition remove_roster (scope : ArtifactId) (d : WitnessRosterDocument) : WitnessRosterDocument :=
  {| rosters := delete scope (rosters d) |}.
Definition is_witness (scope : ArtifactId) (m : arr32) (d : WitnessRosterDocument) : bool :=
  match rosters d !! scope with Some s => bool_decide (m ∈ s) | None => false end.

Definition roster_merge (local remote : WitnessRosterDocument) : WitnessRosterDocument :=
  {| rosters := for_entries (λ scope ws m, <[scope := default ∅ (m !! scope) ∪ ws]> m) (rosters local) (rosters remote) |}.

Lemma roster_merge_lookup a b k :
  rosters (roster_merge a b) !! k = union_with (λ x y, Some (x ∪ y)) (rosters a !! k) (rosters b !! k).
Proof.
  simpl. rewrite (for_entries_lookup (λ _ o ws, Some (default ∅ o ∪ ws)) _ _ _ _ (λ _, True)); try done.
  - destruct (rosters a !! k), (rosters b !! k); simpl; try done. by rewrite union_empty_l_L.
  - intros. by rewrite lookup_insert_eq.
  - intros. by rewrite lookup_insert_ne.
Qed.

#[export] Instance union_laws {A} `{Countable A} : JoinLaws (λ _ : gset A, True) eq (∪).
Proof. split; try apply _; intros; try done; subst; try set_solver. Qed.

#[export] Instance roster_laws :
  MergeLaws (λ _, True) (entries_equiv (λ d k, rosters d !! k) eq) roster_merge roster_default.
Proof.
  apply (pointwise_laws (HV := λ _ : ArtifactId, union_laws)); try done; try apply _.
  intros. apply roster_merge_lookup.
Qed.

(** A merge makes a member a witness exactly when one side did; a removed
    roster comes back from a peer that still has it. *)
Lemma is_witness_merge scope m a b :
  is_witness scope m (roster_merge a b) = is_witness scope m a || is_witness scope m b.
Proof.
  unfold is_witness. rewrite roster_merge_lookup.
  destruct (rosters a !! scope), (rosters b !! scope); simpl; rewrite ?orb_false_r; try done.
  rewrite <-bool_decide_or. apply bool_decide_ext. set_solver.
Qed.

(** ** Read positions *)

Record ReadTrackerDocument : Type := { last_read : gmap arr32 Z }.
Definition read_tracker_default : ReadTrackerDocument := {| last_read := ∅ |}.

Definition advance (m : gmap arr32 Z) (member : arr32) (seq : Z) : gmap arr32 Z :=
  let entry := default 0 (m !! member) in <[member := if entry <? seq then seq else entry]> m.
Definition mark_read (member : arr32) (seq : Z) (d : ReadTrackerDocument) : ReadTrackerDocument :=
  {| last_read := advance (last_read d) member seq |}.
Definition last_read_seq (member : arr32) (d : ReadTrackerDocument) : Z := default 0 (last_read d !! member).
Definition readers_at (seq : Z) (d : ReadTrackerDocument) : list arr32 :=
  (map_to_list (filter (λ kv, seq <= kv.2) (last_read d))).*1.
Definition read_tracker_merge (local remote : ReadTrackerDocument) : ReadTrackerDocument :=
  {| last_read := for_entries (λ member seq m, advance m member seq) (last_read local) (last_read remote) |}.

Definition seqs_ok (d : ReadTrackerDocument) : Prop := map_Forall (λ _ s, 0 <= s) (last_read d).

Lemma read_tracker_merge_lookup a b k : seqs_ok b →
  last_read (read_tracker_merge a b) !! k = union_with (λ x y, Some (Z.max x y)) (last_read a !! k) (last_read b !! k).
Proof.
  intros Hb. simpl. rewrite (for_entries_lookup (λ _ o s, Some (Z.max (default 0 o) s)) _ _ _ _ (λ _, True)); try done.
  - destruct (last_read b !! k) eqn:E, (last_read a !! k); simpl; try done. apply Hb in E. f_equal. lia.
  - intros. unfold advance. rewrite lookup_insert_eq. f_equal. destruct (Z.ltb_spec (default 0 (m !! k0)) v); lia.
  - intros. unfold advance. by rewrite lookup_insert_ne.
Qed.

#[export] Instance max_laws : JoinLaws (λ s : Z, 0 <= s) eq Z.max.
Proof. split; [apply _|..]; intros; subst; lia. Qed.

#[export] Instance read_tracker_laws :
  MergeLaws seqs_ok (entries_equiv (λ d k, last_read d !! k) eq) read_tracker_merge read_tracker_default.
Proof.
  apply (pointwise_laws (HV := λ _ : arr32, max_laws)); try done; try apply _.
  - intros d k v Hd Hk. by apply Hd in Hk.
  - intros a b Ha Hb k v. rewrite read_tracker_merge_lookup by done.
    destruct (last_read a !! k) eqn:E1, (last_read b !! k) eqn:E2; simpl; intros; simplify_eq;
      try apply Ha in E1; try apply Hb in E2; lia.
  - intros. by apply read_tracker_merge_lookup.
Qed.

(** Reading never goes back: neither by marking nor by merging. *)
Lemma mark_read_spec m m' seq d : last_read_seq m (mark_read m' seq d) =
  if bool_decide (m = m') then Z.max (last_read_seq m d) seq else last_read_seq m d.
Proof.
  unfold last_read_seq, mark_read, advance. simpl. case_bool_decide as E.
  - subst. rewrite lookup_insert_eq. simpl. destruct (Z.ltb_spec (default 0 (last_read d !! m')) seq); lia.
  - by rewrite lookup_insert_ne.
Qed.

(** ** Chain tips *)

Record AttentionTip : Type := { tip_author : arr32; tip_seq : Z; tip_event_hash : arr32; tip_wall_time_ms : Z }.
Record AttentionTipDocument : Type := { tips : gmap arr32 AttentionTip }.
Definition tip_document_default : AttentionTipDocument := {| tips := ∅ |}.

Definition update_tip (tip : AttentionTip) (d : AttentionTipDocument) : AttentionTipDocument :=
  let dominated := match tips d !! tip_author tip with None => true | Some existing => tip_seq existing <? tip_seq tip end in
  if dominated then {| tips := <[tip_author tip := tip]> (tips d) |} else d.
Definition tip_for (author : arr32) (d : AttentionTipDocument) : option AttentionTip := tips d !! author.

(** The chains where the peer is ahead. *)
Definition gaps_from (ours peer : AttentionTipDocument) : list (arr32 * Z * Z) :=
  omap (λ kv : arr32 * AttentionTip,
    let our_seq := match tips ours !! kv.1 with Some t => tip_seq t | None => 0 end in
    if our_seq <? tip_seq kv.2 then Some (kv.1, our_seq, tip_seq kv.2) else None) (map_to_list (tips peer)).

Definition with_author (author : arr32) (t : AttentionTip) : AttentionTip :=
  {| tip_author := author; tip_seq := tip_seq t; tip_event_hash := tip_event_hash t; tip_wall_time_ms := tip_wall_time_ms t |}.
Definition tip_document_merge (local remote : AttentionTipDocument) : AttentionTipDocument :=
  {| tips := for_entries (λ author tip m, tips (update_tip (with_author author tip) {| tips := m |})) (tips local) (tips remote) |}.

(** Honest tips: the entry of an author is one of that author's, and a
    sequence number names one event of the chain. *)
Definition tips_ok (U : arr32 → Z → option AttentionTip) (d : AttentionTipDocument) : Prop :=
  map_Forall (λ k t, tip_author t = k ∧ coherent tip_seq (U k) t) (tips d).

Lemma tip_merge_lookup U a b k : tips_ok U b →
  tips (tip_document_merge a b) !! k = union_with (λ x y, Some (lww tip_seq x y)) (tips a !! k) (tips b !! k).
Proof.
  intros Hb. simpl.
  rewrite (for_entries_lookup (λ _ o t, Some (match o with Some x => lww tip_seq x t | None => t end)) _ _ _ _ (λ _, True)); try done.
  - by destruct (tips b !! k), (tips a !! k).
  - intros m k' t Hk _. apply Hb in Hk as [<- _]. unfold update_tip. simpl.
    assert (with_author (tip_author t) t = t) as -> by by destruct t.
    unfold lww, pick, later. destruct (m !! tip_author t) as [x|] eqn:E; [destruct (tip_seq x <? tip_seq t)|]; simpl; by rewrite ?lookup_insert_eq.
  - intros m k' k2 t _ _ ?. unfold update_tip. destruct (match _ with Some _ => _ | None => _ end); simpl; [by rewrite lookup_insert_ne|done].
Qed.

#[export] Instance tip_laws U :
  MergeLaws (tips_ok U) (entries_equiv (λ d k, tips d !! k) eq) tip_document_merge tip_document_default.
Proof.
  apply (pointwise_laws (okv := λ k, coherent tip_seq (U k)) (HV := λ k, pick_laws _ _ (later_order tip_seq (U k)))); try done; try apply _.
  - intros d k v Hd Hk. by apply Hd in Hk as [_ ?].
  - intros a b Ha Hb k v. rewrite (tip_merge_lookup U) by done.
    destruct (tips a !! k) as [x|] eqn:E1, (tips b !! k) as [y|] eqn:E2; simpl; intros; simplify_eq;
      try apply Ha in E1; try apply Hb in E2; try done.
    unfold lww. destruct (pick_cases (later tip_seq) x y) as [-> | ->]; done.
  - intros. by apply (tip_merge_lookup U).
Qed.

(** Merging a peer's tips leaves no gap to that peer. *)
Lemma gaps_after_merge U ours peer : tips_ok U peer → gaps_from (tip_document_merge ours peer) peer = [].
Proof.
  intros Hp. apply elem_of_nil_inv. intros [[k s] t] (kv & Hin & Hf)%list_elem_of_omap.
  destruct kv as [k' v]. apply elem_of_map_to_list in Hin. simpl fst in Hf. rewrite (tip_merge_lookup U), Hin in Hf by done.
  unfold lww, pick, later in Hf. simpl in Hf.
  destruct (tips ours !! k') as [x|]; simpl in Hf; [destruct (tip_seq x <? tip_seq v) eqn:E in Hf|];
    destruct (_ <? tip_seq v) eqn:E2 in Hf; try done; lia.
Qed.

(** ** Certificates *)

Record CertificateDocument : Type := { certificates : gmap arr32 QuorumCertificate }.
Definition certificate_document_default : CertificateDocument := {| certificates := ∅ |}.

(** The signatures of [cert] whose witness has not signed yet, one by one. *)
Definition union_witnesses (existing cert : QuorumCertificate) : QuorumCertificate :=
  foldl (λ c ws, add_witness ws c) existing (witnesses cert).

Definition store_certificate (cert : QuorumCertificate) (m : gmap arr32 QuorumCertificate) : gmap arr32 QuorumCertificate :=
  let key := qc_event_hash cert in
  match m !! key with
  | Some existing => <[key := union_witnesses existing cert]> m
  | None => <[key := cert]> m
  end.
Definition has_certificate (h : arr32) (d : CertificateDocument) : bool := bool_decide (is_Some (certificates d !! h)).
Definition has_quorum (h : arr32) (k : nat) (d : CertificateDocument) : bool :=
  match certificates d !! h with Some c => (k <=? length (witnesses c))%nat | None => false end.
Definition certificate_count (d : CertificateDocument) : nat := size (certificates d).
Definition certificate_document_merge (local remote : CertificateDocument) : CertificateDocument :=
  {| certificates := for_entries (λ _ cert m, store_certificate cert m) (certificates local) (certificates remote) |}.

Lemma collected_fields ws c :
  qc_version (add_witness ws c) = qc_version c ∧ qc_event_hash (add_witness ws c) = qc_event_hash c ∧
  intention_scope (add_witness ws c) = intention_scope c.
Proof. unfold add_witness. by destruct (negb _). Qed.

(** Adding a witness is an upsert that never replaces. *)
Lemma add_witness_upsert ws c : witnesses (add_witness ws c) = upsert witness never ws (witnesses c).
Proof.
  unfold add_witness.
  assert (Hu : ∀ l, upsert witness never ws l =
    if any (λ w, bool_decide (witness w = witness ws)) l then l else l ++ [ws]).
  { induction l as [|w l IH]; simpl; [done|]. destruct (bool_decide _); simpl; [done|]. rewrite IH. by destruct (any _ l). }
  rewrite Hu. by destruct (any _ (witnesses c)).
Qed.

Lemma union_witnesses_spec c c' :
  witnesses (union_witnesses c c') = upsert_all witness never (witnesses c) (witnesses c') ∧
  qc_version (union_witnesses c c') = qc_version c ∧ qc_event_hash (union_witnesses c c') = qc_event_hash c ∧
  intention_scope (union_witnesses c c') = intention_scope c.
Proof.
  unfold union_witnesses. generalize (witnesses c') as l. intros l. revert c.
  induction l as [|w l IH]; intros c; simpl; [done|].
  destruct (IH (add_witness w c)) as (-> & -> & -> & ->). rewrite add_witness_upsert.
  by destruct (collected_fields w c) as (-> & -> & ->).
Qed.

(** Two certificates are the same up to the order of their witnesses. *)
Definition cert_equiv (c c' : QuorumCertificate) : Prop :=
  qc_version c = qc_version c' ∧ qc_event_hash c = qc_event_hash c' ∧ intention_scope c = intention_scope c' ∧
  entries_equiv (λ l k, find_key witness k l) eq (witnesses c) (witnesses c').

(** Certificates for one event: no witness twice, one signature per witness,
    one scope per event. *)
Definition cert_ok (sigs : arr32 → arr32 → option WitnessSignature) (scope : arr32 → Z * ArtifactId) (h : arr32)
    (c : QuorumCertificate) : Prop :=
  qc_event_hash c = h ∧ (qc_version c, intention_scope c) = scope h ∧
  keyed_ok witness (λ w, sigs h (witness w) = Some w) (witnesses c).

Lemma witness_laws sigs (h : arr32) :
  MergeLaws (keyed_ok witness (λ w, sigs h (witness w) = Some w))
    (entries_equiv (λ l k, find_key witness k l) eq) (upsert_all witness never) [].
Proof.
  apply upsert_all_laws. intros k. split; try done. intros a b [Ha <-] [Hb E] _ _. rewrite E in Hb. congruence.
Qed.

#[export] Instance cert_laws sigs scope h : JoinLaws (cert_ok sigs scope h) cert_equiv union_witnesses.
Proof.
  destruct (witness_laws sigs h) as [[[Hr Hs Ht] Hok Hp Hc Ha Hi] _ _].
  split; [split|..]; unfold cert_equiv, cert_ok.
  - intros c. split_and!; auto.
  - intros c c' (?&?&?&?). split_and!; auto.
  - intros c c' c'' (?&?&?&?) (?&?&?&?). split_and!; try congruence. eauto.
  - intros a b (Ha1 & Ha2 & Ha3) (Hb1 & Hb2 & Hb3). destruct (union_witnesses_spec a b) as (-> & -> & -> & ->). auto.
  - intros a a' b b' (?&?&?) (?&?&?) (?&?&?) (?&?&?) (?&?&?&?) (?&?&?&?).
    destruct (union_witnesses_spec a b) as (-> & -> & -> & ->), (union_witnesses_spec a' b') as (-> & -> & -> & ->). auto.
  - intros a b (?&?&?) (?&?&?).
    destruct (union_witnesses_spec a b) as (-> & -> & -> & ->), (union_witnesses_spec b a) as (-> & -> & -> & ->).
    split_and!; try congruence. auto.
  - intros a b c (?&?&?) (?&?&?) (?&?&?).
    destruct (union_witnesses_spec a (union_witnesses b c)) as (-> & -> & -> & ->),
      (union_witnesses_spec (union_witnesses a b) c) as (-> & -> & -> & ->).
    destruct (union_witnesses_spec a b) as (-> & -> & -> & ->), (union_witnesses_spec b c) as (-> & _). auto.
  - intros a (?&?&?). destruct (union_witnesses_spec a a) as (-> & -> & -> & ->). auto.
Qed.

Definition certs_ok sigs scope (d : CertificateDocument) : Prop := map_Forall (cert_ok sigs scope) (certificates d).

Lemma certificate_merge_lookup sigs scope a b k : certs_ok sigs scope b →
  certificates (certificate_document_merge a b) !! k =
  union_with (λ x y, Some (union_witnesses x y)) (certificates a !! k) (certificates b !! k).
Proof.
  intros Hb. simpl.
  rewrite (for_entries_lookup (λ _ o c, Some (match o with Some x => union_witnesses x c | None => c end)) _ _ _ _ (λ _, True)); try done.
  - by destruct (certificates b !! k), (certificates a !! k).
  - intros m k' c Hk _. apply Hb in Hk as (<- & _). unfold store_certificate.
    destruct (m !! qc_event_hash c) eqn:E; by rewrite lookup_insert_eq.
  - intros m k' k2 c Hk _ ?. apply Hb in Hk as (<- & _). unfold store_certificate.
    destruct (m !! qc_event_hash c) eqn:E; by rewrite lookup_insert_ne.
Qed.

#[export] Instance certificate_laws sigs scope :
  MergeLaws (certs_ok sigs scope) (entries_equiv (λ d k, certificates d !! k) cert_equiv)
    certificate_document_merge certificate_document_default.
Proof.
  apply (pointwise_laws (HV := cert_laws sigs scope)); try done.
  - intros d k v Hd Hk. by apply Hd in Hk.
  - intros a b Ha Hb k v. rewrite (certificate_merge_lookup sigs scope) by done.
    destruct (certificates a !! k) as [x|] eqn:E1, (certificates b !! k) as [y|] eqn:E2; simpl; intros; simplify_eq;
      try apply Ha in E1; try apply Hb in E2; try done. by apply (ml_ok_merge (JoinLaws := cert_laws sigs scope k)).
  - intros. by apply (certificate_merge_lookup sigs scope).
  - apply (ml_equiv (JoinLaws := cert_laws sigs scope zeros32)).
Qed.

(** ** Evidence of fraud *)

Record FraudRecord : Type := {
  fr_author : arr32;
  fr_seq : Z;
  fr_event_a_bytes : list byte;
  fr_event_b_bytes : list byte;
  fr_reporter : arr32;
  fr_detected_at_ms : Z;
}.
Record FraudEvidenceDocument : Type := { fraud_records : gmap arr32 (list FraudRecord) }.
Definition fraud_default : FraudEvidenceDocument := {| fraud_records := ∅ |}.

(** [entry(..).or_default()] creates the list of the author in any case. *)
Definition add_record (record : FraudRecord) (d : FraudEvidenceDocument) : FraudEvidenceDocument :=
  let author_records := default [] (fraud_records d !! fr_author record) in
  let already_exists := any (λ r, bool_decide (fr_seq r = fr_seq record)) author_records in
  {| fraud_records := <[fr_author record := if already_exists then author_records else author_records ++ [record]]> (fraud_records d) |}.

Definition is_fraudulent (author : arr32) (d : FraudEvidenceDocument) : bool :=
  match fraud_records d !! author with Some l => negb (bool_decide (l = [])) | None => false end.
Definition records_for (author : arr32) (d : FraudEvidenceDocument) : list FraudRecord :=
  default [] (fraud_records d !! author).
Definition fraudulent_authors (d : FraudEvidenceDocument) : list arr32 :=
  (map_to_list (filter (λ kv, kv.2 ≠ []) (fraud_records d))).*1.
Definition all_records (d : FraudEvidenceDocument) : list FraudRecord :=
  concat (map_to_list (fraud_records d)).*2.
Definition fraud_merge (local remote : FraudEvidenceDocument) : FraudEvidenceDocument :=
  foldl (λ d kv, foldl (λ d r, add_record r d) d kv.2) local (map_to_list (fraud_records remote)).

(** What a document accuses: an author and a sequence number. *)
Definition accused (d : FraudEvidenceDocument) (a : arr32) (s : Z) : Prop := ∃ r, r ∈ records_for a d ∧ fr_seq r = s.
Definition fraud_ok (d : FraudEvidenceDocument) : Prop := ∀ a r, r ∈ records_for a d → fr_author r = a.
Definition fraud_equiv (d d' : FraudEvidenceDocument) : Prop := ∀ a s, accused d a s ↔ accused d' a s.

Lemma records_add r d a : records_for a (add_record r d) =
  if bool_decide (fr_author r = a)
  then records_for a d ++ (if any (λ x, bool_decide (fr_seq x = fr_seq r)) (records_for a d) then [] else [r])
  else records_for a d.
Proof.
  unfold records_for, add_record. simpl. case_bool_decide as E.
  - subst a. rewrite lookup_insert_eq. simpl. destruct (any _ _); [by rewrite app_nil_r|done].
  - by rewrite lookup_insert_ne.
Qed.

Lemma accused_add r d a s : accused (add_record r d) a s ↔ accused d a s ∨ (fr_author r = a ∧ fr_seq r = s).
Proof.
  unfold accused. rewrite records_add. case_bool_decide; [|naive_solver].
  destruct (any _ _) eqn:E.
  - rewrite app_nil_r. split; [naive_solver|]. intros [|[_ <-]]; [done|].
    apply any_true in E as (x & Hx & ?%bool_decide_eq_true). eauto.
  - setoid_rewrite elem_of_app. setoid_rewrite list_elem_of_singleton. naive_solver.
Qed.

Lemma accused_add_all l d a s :
  accused (foldl (λ d r, add_record r d) d l) a s ↔ accused d a s ∨ ∃ r, r ∈ l ∧ fr_author r = a ∧ fr_seq r = s.
Proof.
  revert d. induction l as [|r l IH]; intros d; simpl; [set_solver|]. rewrite IH, accused_add. set_solver.
Qed.

(** The merge accuses exactly whom one of the sides accuses. *)
Lemma accused_merge d d' a s : fraud_ok d' → accused (fraud_merge d d') a s ↔ accused d a s ∨ accused d' a s.
Proof.
  intros Hok. transitivity (accused d a s ∨ ∃ kv r, kv ∈ map_to_list (fraud_records d') ∧ r ∈ kv.2 ∧ fr_author r = a ∧ fr_seq r = s).
  - unfold fraud_merge. generalize (map_to_list (fraud_records d')) as l. intros l. revert d.
    induction l as [|kv l IH]; intros d; simpl; [set_solver|]. rewrite IH, accused_add_all. set_solver.
  - f_equiv. split.
    + intros ([k l] & r & Hin%elem_of_map_to_list & Hr & <- & <-). exists r. split; [|done].
      assert (Hrk : r ∈ records_for k d') by (unfold records_for; by rewrite Hin).
      by rewrite (Hok k r Hrk).
    + intros (r & Hr & <-). pose proof (Hok a r Hr) as Ha. unfold records_for in Hr.
      destruct (fraud_records d' !! a) as [l|] eqn:E; [|set_solver].
      exists (a, l), r. split; [by apply elem_of_map_to_list|done].
Qed.

Lemma fraud_ok_add r d : fraud_ok d → fraud_ok (add_record r d).
Proof.
  intros Hd a x. rewrite records_add. case_bool_decide; [|apply Hd].
  rewrite elem_of_app. intros [|Hx]; [auto|]. destruct (any _ _); [by apply not_elem_of_nil in Hx|].
  apply list_elem_of_singleton in Hx. by subst.
Qed.

#[export] Instance fraud_laws : MergeLaws fraud_ok fraud_equiv fraud_merge fraud_default.
Proof.
  assert (Hok : ∀ a b, fraud_ok a → fraud_ok b → fraud_ok (fraud_merge a b)).
  { intros a b Ha _. unfold fraud_merge. apply foldl_invariant; [|done].
    intros d kv Hd. apply foldl_invariant; [|done]. intros. by apply fraud_ok_add. }
  split; [split|..]; unfold fraud_equiv.
  - split; [intros ???; reflexivity|intros ?? H ??; by rewrite H|intros ??? H1 H2 ??; by rewrite H1, H2].
  - done.
  - intros a a' b b' Ha Ha' Hb Hb' HA HB x s. by rewrite !accused_merge, HA, HB.
  - intros a b Ha Hb x s. rewrite !accused_merge by done. tauto.
  - intros a b c Ha Hb Hc x s. rewrite !accused_merge by auto. tauto.
  - intros a Ha x s. rewrite accused_merge by done. tauto.
  - intros a r Hr. apply not_elem_of_nil in Hr. done.
  - intros a Ha x s. rewrite accused_merge by done. split; [|by right].
    intros [(r & Hr & _)|]; [by apply not_elem_of_nil in Hr|done].
Qed.

Lemma is_fraudulent_spec a d : is_fraudulent a d = true ↔ ∃ s, accused d a s.
Proof.
  unfold is_fraudulent, accused, records_for. destruct (fraud_records d !! a) as [l|]; simpl.
  - rewrite negb_true_iff, bool_decide_eq_false. destruct l as [|r l]; [set_solver|].
    split; [intros _; exists (fr_seq r), r; set_solver|done].
  - set_solver.
Qed.

(** ** Peer keys *)

Section Directory.
Context `{Blake3, Dilithium}.

Record PeerKeyDirectory : Type := { pkd_keys : gmap arr32 (list byte); pkd_kem_keys : gmap arr32 (list byte) }.
Definition directory_default : PeerKeyDirectory := {| pkd_keys := ∅; pkd_kem_keys := ∅ |}.
Implicit Types d : PeerKeyDirectory.

Definition PQ_ENCAPSULATION_KEY_SIZE : nat := 1184.

Definition publish_key (uid : arr32) (vk_bytes : list byte) d : PeerKeyDirectory * bool :=
  if negb (bool_decide (blake3 vk_bytes = uid)) then (d, false)
  else match pkd_keys d !! uid with
       | Some _ => (d, false)
       | None => ({| pkd_keys := <[uid := vk_bytes]> (pkd_keys d); pkd_kem_keys := pkd_kem_keys d |}, true)
       end.

Definition publish_kem (uid : arr32) (ek_bytes : list byte) d : PeerKeyDirectory * bool :=
  if negb (length ek_bytes =? PQ_ENCAPSULATION_KEY_SIZE)%nat then (d, false)
  else match pkd_kem_keys d !! uid with
       | Some _ => (d, false)
       | None => ({| pkd_keys := pkd_keys d; pkd_kem_keys := <[uid := ek_bytes]> (pkd_kem_keys d) |}, true)
       end.

(** [PQPublicIdentity::from_bytes]. *)
Definition pq_public_parse (bytes : list byte) : option PQPublicIdentity :=
  if negb (length bytes =? public_key_bytes)%nat then None
  else (λ k, {| public_verifying_key := k |}) <$> public_key_from_bytes bytes.

Definition directory_get (uid : arr32) d : option PQPublicIdentity := pkd_keys d !! uid ≫= pq_public_parse.
Definition directory_len d : nat := size (pkd_keys d).

(** [entry(..).or_insert(..)]. *)
Definition or_insert {V} (k : arr32) (v : V) (m : gmap arr32 V) : gmap arr32 V :=
  match m !! k with Some _ => m | None => <[k := v]> m end.
Definition directory_merge (local remote : PeerKeyDirectory) : PeerKeyDirectory :=
  {| pkd_keys := for_entries or_insert (pkd_keys local) (pkd_keys remote);
     pkd_kem_keys := for_entries or_insert (pkd_kem_keys local) (pkd_kem_keys remote) |}.

Lemma or_insert_lookup {V} (a b : gmap arr32 V) k :
  for_entries or_insert a b !! k = union_with (λ x y, Some (pick never x y)) (a !! k) (b !! k).
Proof.
  rewrite (for_entries_lookup (λ _ o v, Some (default v o)) _ _ _ _ (λ _, True)); try done.
  - by destruct (b !! k), (a !! k).
  - intros m k' v _ _. unfold or_insert. destruct (m !! k') eqn:E; [by rewrite E|by rewrite lookup_insert_eq].
  - intros m k' k2 v _ _ ?. unfold or_insert. destruct (m !! k') eqn:E; [done|by rewrite lookup_insert_ne].
Qed.

(** The entries of both maps. *)
Definition directory_entry d (k : arr32 + arr32) : option (list byte) :=
  match k with inl u => pkd_keys d !! u | inr u => pkd_kem_keys d !! u end.
Definition directory_ok (U : arr32 + arr32 → list byte) d : Prop := ∀ k b, directory_entry d k = Some b → U k = b.

#[export] Instance directory_laws U :
  MergeLaws (directory_ok U) (entries_equiv directory_entry eq) directory_merge directory_default.
Proof.
  assert (HV : ∀ k, JoinLaws (λ b, U k = b) eq (pick never)).
  { intros k. apply pick_laws. split; try done. congruence. }
  assert (Hget : ∀ a b k, directory_entry (directory_merge a b) k =
    union_with (λ x y, Some (pick never x y)) (directory_entry a k) (directory_entry b k)).
  { intros a b [k|k]; simpl; apply or_insert_lookup. }
  apply (pointwise_laws (HV := HV)).
  - auto.
  - intros a b Ha Hb k v. rewrite Hget.
    destruct (directory_entry a k) eqn:E1, (directory_entry b k) eqn:E2; simpl; intros [= <-]; auto.
  - auto.
  - apply eq_equivalence.
  - intros [k|k] b; simpl; by rewrite lookup_empty.
  - intros [k|k]; simpl; apply lookup_empty.
Qed.

(** A published key is bound to its identity, and stays. *)
Lemma publish_key_spec uid vk d d' : publish_key uid vk d = (d', true) → blake3 vk = uid ∧ pkd_keys d' !! uid = Some vk.
Proof.
  unfold publish_key. case_bool_decide; simpl; [|done]. destruct (pkd_keys d !! uid); [done|].
  intros [= <-]. split; [done|]. simpl. apply lookup_insert_eq.
Qed.

Lemma directory_merge_keeps a b uid vk : pkd_keys a !! uid = Some vk → pkd_keys (directory_merge a b) !! uid = Some vk.
Proof. intros Ha. simpl. rewrite or_insert_lookup, Ha. by destruct (pkd_keys b !! uid). Qed.

(** The merge does not check the binding: a key that [publish] refuses for an
    identity is taken from a peer, and then keeps the rightful key out. *)
Lemma poisoned_directory uid vk forged : blake3 vk = uid →
  let d := directory_merge directory_default {| pkd_keys := {[uid := forged]}; pkd_kem_keys := ∅ |} in
  pkd_keys d !! uid = Some forged ∧ publish_key uid vk d = (d, false).
Proof.
  intros Hvk d. assert (Hd : pkd_keys d !! uid = Some forged).
  { unfold d. simpl. by rewrite or_insert_lookup, lookup_empty, lookup_singleton_eq. }
  split; [done|]. unfold publish_key. by rewrite bool_decide_true, Hd.
Qed.
End Directory.

(** ** Backed-up files *)

Record FileBackupEntry : Type := {
  fbe_file_id : arr32;
  fbe_label : string;
  fbe_total_shards : Z;
  fbe_data_threshold : Z;
  fbe_last_updated_at_millis : Z;
  fbe_tombstoned : bool;
}.
Record FileBackupIndex : Type := { fbi_entries : list FileBackupEntry }.
Definition backup_index_default : FileBackupIndex := {| fbi_entries := [] |}.

Definition backup_upsert (e : FileBackupEntry) (d : FileBackupIndex) : FileBackupIndex :=
  {| fbi_entries := upsert fbe_file_id (later fbe_last_updated_at_millis) e (fbi_entries d) |}.
Definition backup_active (d : FileBackupIndex) : list FileBackupEntry :=
  retain (λ e, negb (fbe_tombstoned e)) (fbi_entries d).
Definition backup_index_merge (local remote : FileBackupIndex) : FileBackupIndex :=
  foldl (λ d e, backup_upsert e d) local (fbi_entries remote).

Lemma backup_index_merge_entries a b : fbi_entries (backup_index_merge a b) =
  upsert_all fbe_file_id (later fbe_last_updated_at_millis) (fbi_entries a) (fbi_entries b).
Proof.
  unfold backup_index_merge, upsert_all. destruct b as [l]; simpl. revert a.
  induction l as [|e l IH]; intros a; simpl; [done|]. by rewrite IH.
Qed.

(** A time names one entry of a file. *)
Definition backup_ok (U : arr32 → Z → option FileBackupEntry) (d : FileBackupIndex) : Prop :=
  keyed_ok fbe_file_id (λ e, U (fbe_file_id e) (fbe_last_updated_at_millis e) = Some e) (fbi_entries d).

#[export] Instance backup_index_laws U :
  MergeLaws (backup_ok U) (λ a b, entries_equiv (λ l k, find_key fbe_file_id k l) eq (fbi_entries a) (fbi_entries b))
    backup_index_merge backup_index_default.
Proof.
  assert (Hl : MergeLaws (keyed_ok fbe_file_id (λ e, U (fbe_file_id e) (fbe_last_updated_at_millis e) = Some e))
    (entries_equiv (λ l k, find_key fbe_file_id k l) eq) (upsert_all fbe_file_id (later fbe_last_updated_at_millis)) []).
  { apply upsert_all_laws. intros k. unfold later. split; [lia..|].
    intros a b [Ha Ka] [Hb Kb] H1 H2. assert (fbe_last_updated_at_millis a = fbe_last_updated_at_millis b) as E by lia.
    rewrite Ka, E in Ha. rewrite Kb in Hb. congruence. }
  exact (projection_laws fbi_entries _ _ backup_index_merge _ backup_index_default _ backup_index_merge_entries eq_refl Hl).
Qed.

(** A deleted file stays deleted unless it was published later. *)
Lemma tombstone_wins U a b e : backup_ok U a → backup_ok U b → e ∈ fbi_entries a → fbe_tombstoned e = true →
  (∀ e', e' ∈ fbi_entries b → fbe_file_id e' = fbe_file_id e → fbe_last_updated_at_millis e' <= fbe_last_updated_at_millis e) →
  ∀ e', e' ∈ backup_active (backup_index_merge a b) → fbe_file_id e' ≠ fbe_file_id e.
Proof.
  intros [Hna _] [Hnb _] He Ht Hlt e' [He' Hact]%elem_of_retain E.
  assert (Hfind : ∀ l x, NoDup (fbe_file_id <$> l) → x ∈ l → find_key fbe_file_id (fbe_file_id x) l = Some x)
    by (intros; by apply find_key_elem).
  rewrite backup_index_merge_entries in He'.
  assert (Hm := Hfind _ _ (upsert_all_NoDup _ _ _ _ Hna) He').
  rewrite E, find_key_upsert_all, (Hfind _ _ Hna He) in Hm by done.
  destruct (find_key fbe_file_id (fbe_file_id e) (fbi_entries b)) as [x|] eqn:Ex; simpl in Hm.
  - apply find_key_some in Ex as [Hx Hk]. unfold pick, later in Hm. specialize (Hlt x Hx Hk).
    destruct (fbe_last_updated_at_millis e <? fbe_last_updated_at_millis x) eqn:El; [lia|].
    simplify_eq. by rewrite Ht in Hact.
  - simplify_eq. by rewrite Ht in Hact.
Qed.

(** ** Projects *)

Record ProjectEntry : Type := {
  pe_id : arr32;
  pe_name : string;
  pe_manifest_head : arr32 * Z;
  pe_creator : arr32;
  pe_created_at : Z;
}.
Record ProjectRegistry : Type := { projects : gmap arr32 ProjectEntry }.
Definition registry_default : ProjectRegistry := {| projects := ∅ |}.

Definition registry_insert (e : ProjectEntry) (d : ProjectRegistry) : ProjectRegistry :=
  {| projects := <[pe_id e := e]> (projects d) |}.
Definition with_head (head : arr32 * Z) (e : ProjectEntry) : ProjectEntry :=
  {| pe_id := pe_id e; pe_name := pe_name e; pe_manifest_head := head; pe_creator := pe_creator e; pe_created_at := pe_created_at e |}.
Definition set_head (id : arr32) (head : arr32 * Z) (d : ProjectRegistry) : ProjectRegistry :=
  match projects d !! id with
  | Some e => {| projects := <[id := with_head head e]> (projects d) |}
  | None => d
  end.

Definition project_leb (a b : ProjectEntry) : bool :=
  if pe_created_at a =? pe_created_at b then arr32_leb (pe_id a) (pe_id b) else pe_created_at a <? pe_created_at b.
Definition registry_entries (d : ProjectRegistry) : list ProjectEntry :=
  sort_by project_leb (map_to_list (projects d)).*2.

(** The larger creation time, then the larger hash of the head. *)
Definition prefer_remote (remote local : ProjectEntry) : bool :=
  if pe_created_at remote =? pe_created_at local
  then negb (arr32_leb (pe_manifest_head remote).1 (pe_manifest_head local).1)
  else pe_created_at local <? pe_created_at remote.

Definition registry_step (pid : arr32) (remote : ProjectEntry) (m : gmap arr32 ProjectEntry) : gmap arr32 ProjectEntry :=
  match m !! pid with
  | None => <[pid := remote]> m
  | Some local => if prefer_remote remote local then <[pid := remote]> m else m
  end.
Definition registry_merge (local remote : ProjectRegistry) : ProjectRegistry :=
  {| projects := for_entries registry_step (projects local) (projects remote) |}.

Lemma registry_merge_lookup a b k :
  projects (registry_merge a b) !! k = union_with (λ x y, Some (pick prefer_remote x y)) (projects a !! k) (projects b !! k).
Proof.
  simpl. rewrite (for_entries_lookup (λ _ o v, Some (match o with Some x => pick prefer_remote x v | None => v end)) _ _ _ _ (λ _, True)); try done.
  - by destruct (projects b !! k), (projects a !! k).
  - intros m k' v _ _. unfold registry_step, pick. destruct (m !! k') eqn:E; [|by rewrite lookup_insert_eq].
    destruct (prefer_remote _ _); [by rewrite lookup_insert_eq|done].
  - intros m k' k2 v _ _ ?. unfold registry_step. destruct (m !! k') eqn:E; [|by rewrite lookup_insert_ne].
    destruct (prefer_remote _ _); [by rewrite lookup_insert_ne|done].
Qed.

(** Entries of a project that agree on time and head are the same. *)
Definition registry_ok (U : arr32 → Z → arr32 → option ProjectEntry) (d : ProjectRegistry) : Prop :=
  map_Forall (λ k e, U k (pe_created_at e) (pe_manifest_head e).1 = Some e) (projects d).

Lemma prefer_order U (k : arr32) :
  PickOrder (λ e, U k (pe_created_at e) (pe_manifest_head e).1 = Some e) prefer_remote.
Proof.
  unfold prefer_remote. split.
  - intros a b _ _. destruct (Z.eqb_spec (pe_created_at a) (pe_created_at b)) as [E|E].
    + rewrite E, Z.eqb_refl. rewrite negb_true_iff, negb_false_iff. intros. by destruct (arr32_leb_total (pe_manifest_head a).1 (pe_manifest_head b).1); [congruence|].
    + destruct (Z.eqb_spec (pe_created_at b) (pe_created_at a)); lia.
  - intros a b c _ _ _. destruct (Z.eqb_spec (pe_created_at a) (pe_created_at b)), (Z.eqb_spec (pe_created_at b) (pe_created_at c)),
      (Z.eqb_spec (pe_created_at a) (pe_created_at c)); rewrite ?negb_true_iff; try lia.
    intros H1 H2. apply not_true_is_false. intros H3.
    destruct (arr32_leb_total (pe_manifest_head a).1 (pe_manifest_head b).1); [congruence|].
    rewrite (arr32_leb_trans (pe_manifest_head b).1 (pe_manifest_head a).1 (pe_manifest_head c).1) in H2 by done. done.
  - intros a b Ha Hb. destruct (Z.eqb_spec (pe_created_at a) (pe_created_at b)), (Z.eqb_spec (pe_created_at b) (pe_created_at a));
      rewrite ?negb_false_iff; try lia.
    intros H1 H2. assert ((pe_manifest_head a).1 = (pe_manifest_head b).1) as Eh by by apply arr32_leb_antisym.
    rewrite e, Eh in Ha. congruence.
Qed.

#[export] Instance registry_laws U :
  MergeLaws (registry_ok U) (entries_equiv (λ d k, projects d !! k) eq) registry_merge registry_default.
Proof.
  apply (pointwise_laws (HV := λ k, pick_laws _ _ (prefer_order U k))); try done; try apply _.
  - intros d k v Hd Hk. by apply Hd in Hk.
  - intros a b Ha Hb k v. rewrite registry_merge_lookup.
    destruct (projects a !! k) as [x|] eqn:E1, (projects b !! k) as [y|] eqn:E2; simpl; intros; simplify_eq;
      try apply Ha in E1; try apply Hb in E2; try done.
    by destruct (pick_cases prefer_remote x y) as [-> | ->].
  - intros. by apply registry_merge_lookup.
Qed.

(** A new head keeps the creation time, so a replica that still has the old head
    undoes it whenever the old hash is the larger. *)
Lemma new_head_undone id e head d : projects d !! id = Some e →
  arr32_leb (pe_manifest_head e).1 head.1 = false →
  projects (registry_merge (set_head id head d) d) !! id = Some e.
Proof.
  intros Hd Hh. rewrite registry_merge_lookup. unfold set_head. rewrite Hd. simpl. rewrite lookup_insert_eq. simpl.
  unfold pick, prefer_remote. simpl. by rewrite Z.eqb_refl, Hh.
Qed.

(** ** The checkout index of a vault *)

Record VaultFile : Type := {
  vf_path : string;
  vf_hash : arr32;
  vf_size : Z;
  vf_modified_ms : Z;
  vf_author : arr32;
  vf_deleted : bool;
}.
Definition vault_file_with_timestamp (path : string) (hash : arr32) (size : Z) (author : arr32) (modified_ms : Z) : VaultFile :=
  {| vf_path := path; vf_hash := hash; vf_size := size; vf_modified_ms := modified_ms; vf_author := author; vf_deleted := false |}.
Definition vault_file_new (now : Z) (path : string) (hash : arr32) (size : Z) (author : arr32) : VaultFile :=
  vault_file_with_timestamp path hash size author now.
Definition short_hash (f : VaultFile) : string := hex (take 6 (arr32_bytes (vf_hash f))).

Record VaultFileDocument : Type := { vfd_files : gmap string VaultFile }.
Definition vfd_upsert (f : VaultFile) (d : VaultFileDocument) : VaultFileDocument :=
  {| vfd_files := <[vf_path f := f]> (vfd_files d) |}.
Definition tombstone (now : Z) (author : arr32) (f : VaultFile) : VaultFile :=
  {| vf_path := vf_path f; vf_hash := vf_hash f; vf_size := vf_size f; vf_modified_ms := now; vf_author := author; vf_deleted := true |}.
Definition vfd_remove (now : Z) (path : string) (author : arr32) (d : VaultFileDocument) : VaultFileDocument :=
  {| vfd_files := alter (tombstone now author) path (vfd_files d) |}.
(** A [BTreeMap] is listed in the order of its keys. *)
Definition active_files (d : VaultFileDocument) : list VaultFile :=
  retain (λ f, negb (vf_deleted f))
    (sort_by (λ f g, bytes_leb (as_bytes (vf_path f)) (as_bytes (vf_path g))) (map_to_list (vfd_files d)).*2).
Definition vfd_len (d : VaultFileDocument) : nat := length (active_files d).
Definition vfd_is_empty (d : VaultFileDocument) : bool := (vfd_len d =? 0)%nat.

Definition vfd_ok (d : VaultFileDocument) : Prop := map_Forall (λ p f, vf_path f = p) (vfd_files d).

Lemma vfd_remove_ok now path author d : vfd_ok d → vfd_ok (vfd_remove now path author d).
Proof.
  intros Hd p f. unfold vfd_remove. simpl. destruct (decide (path = p)) as [<-|].
  - rewrite lookup_alter_eq. intros (g & Hg & ->)%fmap_Some. simpl. by apply Hd.
  - rewrite lookup_alter_ne by done. apply Hd.
Qed.

Lemma elem_active_files f d : vfd_ok d → f ∈ active_files d ↔ vfd_files d !! vf_path f = Some f ∧ vf_deleted f = false.
Proof.
  intros Hd. unfold active_files. rewrite elem_of_retain, negb_true_iff.
  rewrite (elem_of_Permutation_proper _ _ _ (sort_by_perm _ _)), list_elem_of_fmap. f_equiv. split.
  - intros ([p g] & -> & Hin%elem_of_map_to_list). simpl. pose proof (Hd _ _ Hin) as Hp. simpl in Hp. by rewrite Hp.
  - intros Hf. exists (vf_path f, f). split; [done|]. by apply elem_of_map_to_list.
Qed.

(** Removing a file hides exactly that file, and keeps its entry. *)
Lemma vfd_remove_spec now path author f d : vfd_ok d →
  f ∈ active_files (vfd_remove now path author d) ↔ f ∈ active_files d ∧ vf_path f ≠ path.
Proof.
  intros Hd. rewrite !elem_active_files by auto using vfd_remove_ok. simpl. destruct (decide (path = vf_path f)) as [<-|Hne].
  - rewrite lookup_alter_eq, fmap_Some. split; [|naive_solver]. intros [(g & _ & ->) ?]. done.
  - rewrite lookup_alter_ne by done. naive_solver.
Qed.
