(* ===== verification/Sealing.v ===== *)
(** * Sealed keys, shares and files

    Models the envelopes of [indras-crypto/src]: [interface_key.rs],
    [key_distribution.rs], [artifact_encryption.rs], [shamir.rs],
    [steward_share.rs], [erasure.rs] and [pq_kem.rs].  ChaCha20-Poly1305, ML-KEM,
    the [sharks] and [reed-solomon-erasure] crates and [postcard] are
    parameters; their documented behaviour is stated as classes of laws.  Random
    bytes are arguments.  Keys are 32-byte arrays, so [new_from_slice] accepts
    them. *)

From S2P Require Import Prelude Bytes.

(** ** What is used of other crates *)

(** [ChaCha20Poly1305::encrypt] and [decrypt] under a key and a nonce. *)
Class Aead : Type := {
  aead_encrypt : arr32 → list byte → list byte → Result (list byte) string;
  aead_decrypt : arr32 → list byte → list byte → Result (list byte) string;
}.

Class AeadLaws `{Aead} : Prop :=
  aead_opens k n p c : aead_encrypt k n p = Ok c → aead_decrypt k n c = Ok p.

(** The [kyber768] module. *)
Class Kem : Type := {
  KemPublic : Type;
  KemSecret : Type;
  kem_public_bytes : nat;
  kem_secret_bytes : nat;
  kem_ciphertext_bytes : nat;
  kem_public_from_bytes : list byte → option KemPublic;
  kem_public_as_bytes : KemPublic → list byte;
  kem_secret_from_bytes : list byte → option KemSecret;
  kem_secret_as_bytes : KemSecret → list byte;
  (** random bytes, key *)
  kem_encapsulate : list byte → KemPublic → list byte * arr32;
  (** [Ciphertext::from_bytes], then [decapsulate] *)
  kem_decapsulate : KemSecret → list byte → Result arr32 string;
}.

Class KemLaws `{Kem} : Type := {
  kem_pair : KemPublic → KemSecret → Prop;
  kem_ciphertext_size rnd pk : length (kem_encapsulate rnd pk).1 = kem_ciphertext_bytes;
  kem_agree rnd pk sk : kem_pair pk sk → kem_decapsulate sk (kem_encapsulate rnd pk).1 = Ok (kem_encapsulate rnd pk).2;
}.

(** [sharks]: a dealer yields the bytes of as many shares as are taken, the
    coordinate first. *)
Class Sharks : Type := {
  sharks_deal : list byte → Z → list byte → nat → list (list byte);
  sharks_parse : list byte → option (list byte);
  sharks_recover : Z → list (list byte) → option (list byte);
}.

(** Any [k] different shares of a secret recover it; a share of an empty secret
    is too short to parse. *)
Class SharksLaws `{Sharks} : Prop := {
  sharks_count rnd k s n : (n <= 255)%nat → length (sharks_deal rnd k s n) = n;
  sharks_distinct rnd k s n : (n <= 255)%nat → NoDup (sharks_deal rnd k s n);
  sharks_parses rnd k s n b : s ≠ [] → b ∈ sharks_deal rnd k s n → sharks_parse b = Some b;
  sharks_threshold rnd k s n (l : list (list byte)) :
    s ≠ [] → 2 <= k <= 255 → (n <= 255)%nat → NoDup l → l ⊆ sharks_deal rnd k s n → k <= Z.of_nat (length l) →
    sharks_recover k l = Some s;
}.

(** [reed-solomon-erasure]: parity shards are computed from data shards, and
    missing shards from the others. *)
Class ReedSolomon : Type := {
  rs_new : nat → nat → Result unit string;
  rs_encode : nat → nat → list (list byte) → Result (list (list byte)) string;
  rs_reconstruct : nat → nat → list (option (list byte)) → Result (list (option (list byte))) string;
}.

(** A partial copy of a list. *)
Definition survivors {A} (l : list A) (o : list (option A)) : Prop :=
  length o = length l ∧ ∀ i x, o !! i = Some (Some x) → l !! i = Some x.

Definition present {A} (o : list (option A)) : nat := length (omap id o).

Class ReedSolomonLaws `{ReedSolomon} : Prop := {
  rs_keeps_data d p l l' : rs_encode d p l = Ok l' → length l' = length l ∧ take d l' = take d l;
  rs_same_length d p l l' n : rs_encode d p l = Ok l' → Forall (λ s, length s = n) l → Forall (λ s, length s = n) l';
  rs_recovers d p l l' o : rs_encode d p l = Ok l' → survivors l' o → (d <= present o)%nat →
    ∃ o', rs_reconstruct d p o = Ok o' ∧ take d o' = Some <$> take d l';
}.

(** [postcard] on one type. *)
Class Codec (A : Type) : Type := { c_encode : A → Result (list byte) string; c_decode : list byte → Result A string }.
Class CodecRoundtrip (A : Type) `{Codec A} : Prop := c_roundtrip a b : c_encode a = Ok b → c_decode b = Ok a.

(** ** Errors *)

(** The constructors of [CryptoError] used here; sizes and debug output in the
    texts of key errors are left out. *)
Inductive SealError : Type :=
| EncryptionFailed (msg : string)
| DecryptionFailed (msg : string)
| SealInvalidKey (msg : string)
| PQDecapsulationFailed (msg : string)
| InvalidPQCiphertext (expected got : nat)
| InvalidShare
| ShamirParams (msg : string)
| ShamirReconstruction.

(** [CryptoError::to_string] where one error is wrapped in another. *)
Definition seal_error_message (e : SealError) : string :=
  match e with
  | EncryptionFailed m => "Encryption failed: " +:+ m
  | DecryptionFailed m => "Decryption failed: " +:+ m
  | SealInvalidKey m => "Invalid key: " +:+ m
  | PQDecapsulationFailed m => "PQ key decapsulation failed: " +:+ m
  | InvalidPQCiphertext e g =>
      "Invalid PQ ciphertext: Invalid ciphertext size: expected " +:+
      (i64_to_string (Z.of_nat e) +:+ (", got " +:+ i64_to_string (Z.of_nat g)))
  | InvalidShare => "Invalid Shamir share"
  | ShamirParams m => "Invalid Shamir parameters: " +:+ m
  | ShamirReconstruction => "Shamir reconstruction failed (wrong shares or threshold mismatch)"
  end.

Definition encrypting {A} (r : Result A string) : Result A SealError :=
  match r with Ok a => Ok a | Err e => Err (EncryptionFailed e) end.
Definition decrypting {A} (r : Result A string) : Result A SealError :=
  match r with Ok a => Ok a | Err e => Err (DecryptionFailed e) end.
Definition decapsulating {A} (r : Result A SealError) : Result A SealError :=
  match r with Ok a => Ok a | Err e => Err (PQDecapsulationFailed (seal_error_message e)) end.

Definition NONCE_SIZE : nat := 12.

(** ** Key encapsulation *)

Section Encapsulation.
Context `{Kem}.

Record PQKemKeyPair : Type := { kp_encapsulation_key : KemPublic; kp_decapsulation_key : KemSecret }.
Record PQEncapsulationKey : Type := { ek_key : KemPublic }.
Record PQCiphertext : Type := { ct_bytes : list byte }.

Definition kem_from_keypair_bytes (dk_bytes ek_bytes : list byte) : Result PQKemKeyPair SealError :=
  if negb (length dk_bytes =? kem_secret_bytes)%nat then Err (SealInvalidKey "Invalid decapsulation key size")
  else if negb (length ek_bytes =? kem_public_bytes)%nat then Err (SealInvalidKey "Invalid encapsulation key size")
  else
    let? dk := r_ok_or (kem_secret_from_bytes dk_bytes) (SealInvalidKey "Invalid Kyber decapsulation key") in
    let? ek := r_ok_or (kem_public_from_bytes ek_bytes) (SealInvalidKey "Invalid Kyber encapsulation key") in
    Ok {| kp_encapsulation_key := ek; kp_decapsulation_key := dk |}.

Definition kem_to_keypair_bytes (k : PQKemKeyPair) : list byte * list byte :=
  (kem_secret_as_bytes (kp_decapsulation_key k), kem_public_as_bytes (kp_encapsulation_key k)).

Definition encapsulation_key (k : PQKemKeyPair) : PQEncapsulationKey := {| ek_key := kp_encapsulation_key k |}.

Definition ek_from_bytes (bytes : list byte) : Result PQEncapsulationKey SealError :=
  if negb (length bytes =? kem_public_bytes)%nat then Err (SealInvalidKey "Invalid encapsulation key size")
  else let? k := r_ok_or (kem_public_from_bytes bytes) (SealInvalidKey "Invalid Kyber encapsulation key") in
       Ok {| ek_key := k |}.

Definition ek_to_bytes (k : PQEncapsulationKey) : list byte := kem_public_as_bytes (ek_key k).

Definition ciphertext_from_bytes (bytes : list byte) : Result PQCiphertext SealError :=
  if negb (length bytes =? kem_ciphertext_bytes)%nat
  then Err (InvalidPQCiphertext kem_ciphertext_bytes (length bytes))
  else Ok {| ct_bytes := bytes |}.

Definition encapsulate (rnd : list byte) (k : PQEncapsulationKey) : PQCiphertext * arr32 :=
  let '(ct, ss) := kem_encapsulate rnd (ek_key k) in ({| ct_bytes := ct |}, ss).

Definition decapsulate (k : PQKemKeyPair) (c : PQCiphertext) : Result arr32 SealError :=
  match kem_decapsulate (kp_decapsulation_key k) (ct_bytes c) with
  | Ok ss => Ok ss
  | Err e => Err (PQDecapsulationFailed ("Invalid ciphertext: " +:+ e))
  end.

Context `{!KemLaws}.
Definition keypair_ok (k : PQKemKeyPair) : Prop := kem_pair (kp_encapsulation_key k) (kp_decapsulation_key k).

Lemma encapsulate_parses rnd ek : ciphertext_from_bytes (ct_bytes (encapsulate rnd ek).1) = Ok (encapsulate rnd ek).1.
Proof.
  unfold encapsulate, ciphertext_from_bytes. pose proof (kem_ciphertext_size rnd (ek_key ek)) as Hs.
  destruct (kem_encapsulate rnd (ek_key ek)); simpl in *. by rewrite Hs, Nat.eqb_refl.
Qed.

Lemma decapsulate_encapsulate rnd k : keypair_ok k →
  decapsulate k (encapsulate rnd (encapsulation_key k)).1 = Ok (encapsulate rnd (encapsulation_key k)).2.
Proof.
  intros Hk. pose proof (kem_agree rnd _ _ Hk) as Ha. unfold decapsulate, encapsulate. simpl.
  destruct (kem_encapsulate rnd (kp_encapsulation_key k)); simpl in *. by rewrite Ha.
Qed.
End Encapsulation.

(** ** Interface keys and invitations *)

Section InterfaceKeys.
Context `{Aead, Kem}.

Record EncryptedData : Type := { ed_nonce : list byte; ed_ciphertext : list byte }.
Record InterfaceKey : Type := { ik_key : arr32; ik_interface_id : arr32 }.
Record EncapsulatedKey : Type := {
  ekey_interface_id : arr32;
  ekey_kem_ciphertext : list byte;
  ekey_encrypted_key : list byte;
  ekey_nonce : list byte;
}.

Definition encrypted_to_bytes (e : EncryptedData) : list byte := ed_nonce e ++ ed_ciphertext e.
Definition encrypted_from_bytes (data : list byte) : Result EncryptedData SealError :=
  if (length data <? NONCE_SIZE)%nat then Err (DecryptionFailed "Data too short for nonce")
  else Ok {| ed_nonce := take NONCE_SIZE data; ed_ciphertext := drop NONCE_SIZE data |}.

Definition interface_encrypt (nonce : list byte) (k : InterfaceKey) (plaintext : list byte) : Result EncryptedData SealError :=
  let? c := encrypting (aead_encrypt (ik_key k) nonce plaintext) in
  Ok {| ed_nonce := nonce; ed_ciphertext := c |}.
Definition interface_decrypt (k : InterfaceKey) (e : EncryptedData) : Result (list byte) SealError :=
  decrypting (aead_decrypt (ik_key k) (ed_nonce e) (ed_ciphertext e)).
Definition interface_decrypt_bytes (k : InterfaceKey) (data : list byte) : Result (list byte) SealError :=
  if (length data <? NONCE_SIZE)%nat then Err (DecryptionFailed "Data too short for nonce")
  else interface_decrypt k {| ed_nonce := take NONCE_SIZE data; ed_ciphertext := drop NONCE_SIZE data |}.

(** [from_seed]: the seed and the identifier, xor-ed byte by byte. *)
Definition xor_byte (a b : byte) : byte := byte_of_Z (Z.lxor (byte_val a) (byte_val b)).
Definition seed_key_bytes (seed id : arr32) : list byte := zip_with xor_byte (arr32_bytes seed) (arr32_bytes id).
(** The xor of two 32-byte arrays has 32 bytes. *)
Definition interface_from_seed (seed id : arr32) : InterfaceKey :=
  {| ik_key := default zeros32 (to_arr32 (seed_key_bytes seed id)); ik_interface_id := id |}.

Definition encapsulate_for (rnd nonce : list byte) (k : InterfaceKey) (ek : PQEncapsulationKey)
    : Result EncapsulatedKey SealError :=
  let '(ct, ss) := encapsulate rnd ek in
  let? enc := encrypting (aead_encrypt ss nonce (arr32_bytes (ik_key k))) in
  Ok {| ekey_interface_id := ik_interface_id k; ekey_kem_ciphertext := ct_bytes ct; ekey_encrypted_key := enc; ekey_nonce := nonce |}.

Definition interface_decapsulate (e : EncapsulatedKey) (kp : PQKemKeyPair) : Result InterfaceKey SealError :=
  let? ct := decapsulating (ciphertext_from_bytes (ekey_kem_ciphertext e)) in
  let? ss := decapsulating (decapsulate kp ct) in
  let? key_bytes := decrypting (aead_decrypt ss (ekey_nonce e) (ekey_encrypted_key e)) in
  match to_arr32 key_bytes with
  | None => Err (SealInvalidKey "Decrypted key has wrong length")
  | Some key => Ok {| ik_key := key; ik_interface_id := ekey_interface_id e |}
  end.

(** [key_distribution.rs] *)
Record KeyInvite : Type := {
  kinv_interface_id : arr32;
  kinv_kem_ciphertext : list byte;
  kinv_encrypted_key : list byte;
  kinv_nonce : list byte;
}.
Definition create_invite (rnd nonce : list byte) (k : InterfaceKey) (ek : PQEncapsulationKey) : Result KeyInvite SealError :=
  let? e := encapsulate_for rnd nonce k ek in
  Ok {| kinv_interface_id := ik_interface_id k; kinv_kem_ciphertext := ekey_kem_ciphertext e;
        kinv_encrypted_key := ekey_encrypted_key e; kinv_nonce := ekey_nonce e |}.
Definition accept_invite (i : KeyInvite) (kp : PQKemKeyPair) : Result InterfaceKey SealError :=
  interface_decapsulate {| ekey_interface_id := kinv_interface_id i; ekey_kem_ciphertext := kinv_kem_ciphertext i;
                           ekey_encrypted_key := kinv_encrypted_key i; ekey_nonce := kinv_nonce i |} kp.
Definition create_invite_from_bytes (rnd nonce : list byte) (key id : arr32) (ek : PQEncapsulationKey) : Result KeyInvite SealError :=
  create_invite rnd nonce {| ik_key := key; ik_interface_id := id |} ek.
Definition is_valid_ciphertext_length (i : KeyInvite) : bool := (length (kinv_kem_ciphertext i) =? kem_ciphertext_bytes)%nat.

Record InviteMetadata : Type := {
  im_interface_name : option string;
  im_description : option string;
  im_inviter_name : option string;
  im_created_at_millis : Z;
  im_expires_at_millis : option Z;
}.
Definition invite_metadata_new (now : Z) : InviteMetadata :=
  {| im_interface_name := None; im_description := None; im_inviter_name := None; im_created_at_millis := now; im_expires_at_millis := None |}.
Definition expires_in_hours (hours : Z) (m : InviteMetadata) : InviteMetadata :=
  {| im_interface_name := im_interface_name m; im_description := im_description m; im_inviter_name := im_inviter_name m;
     im_created_at_millis := im_created_at_millis m;
     im_expires_at_millis := Some (wrap_i64 (im_created_at_millis m + wrap_i64 (hours * 60 * 60 * 1000))) |}.
Definition invite_is_expired (now : Z) (m : InviteMetadata) : bool :=
  match im_expires_at_millis m with Some e => e <? now | None => false end.

(** [artifact_encryption.rs] *)
Definition encrypt_artifact (nonce plaintext : list byte) (key : arr32) : Result EncryptedData SealError :=
  let? c := encrypting (aead_encrypt key nonce plaintext) in Ok {| ed_nonce := nonce; ed_ciphertext := c |}.
Definition decrypt_artifact (e : EncryptedData) (key : arr32) : Result (list byte) SealError :=
  decrypting (aead_decrypt key (ed_nonce e) (ed_ciphertext e)).
Definition decrypt_artifact_bytes (data : list byte) (key : arr32) : Result (list byte) SealError :=
  let? e := encrypted_from_bytes data in decrypt_artifact e key.

Definition artifact_key_encrypt (nonce : list byte) (artifact_key : arr32) (k : InterfaceKey) : Result EncryptedData SealError :=
  interface_encrypt nonce k (arr32_bytes artifact_key).
Definition artifact_key_decrypt (e : EncryptedData) (k : InterfaceKey) : Result arr32 SealError :=
  let? d := interface_decrypt k e in
  r_ok_or (to_arr32 d) (SealInvalidKey ("Decrypted key has wrong length: " +:+
    (i64_to_string (Z.of_nat (length d)) +:+ " (expected 32)"))).

Context `{!AeadLaws, !KemLaws}.

Lemma encrypted_bytes_roundtrip e : length (ed_nonce e) = NONCE_SIZE → encrypted_from_bytes (encrypted_to_bytes e) = Ok e.
Proof.
  intros Hn. unfold encrypted_from_bytes, encrypted_to_bytes. rewrite length_app, Hn.
  destruct (Nat.ltb_spec (NONCE_SIZE + length (ed_ciphertext e)) NONCE_SIZE); [lia|].
  rewrite <-Hn, take_app_length, drop_app_length. by destruct e.
Qed.

Lemma from_seed_bytes seed id : arr32_bytes (ik_key (interface_from_seed seed id)) = seed_key_bytes seed id.
Proof.
  unfold interface_from_seed, to_arr32. simpl. destruct (decide _) as [h|h]; [done|]. exfalso. apply h.
  unfold seed_key_bytes. by rewrite length_zip_with, !arr32_length.
Qed.

(** An invitation gives its recipient the key of the realm. *)
Lemma invite_accepted rnd nonce k kp i : keypair_ok kp →
  create_invite rnd nonce k (encapsulation_key kp) = Ok i → accept_invite i kp = Ok k ∧ is_valid_ciphertext_length i = true.
Proof.
  intros Hkp Hi. unfold create_invite, encapsulate_for in Hi.
  pose proof (encapsulate_parses rnd (encapsulation_key kp)) as Hp.
  pose proof (decapsulate_encapsulate rnd kp Hkp) as Hd.
  pose proof (kem_ciphertext_size rnd (kp_encapsulation_key kp)) as Hs.
  unfold encapsulate in *. simpl in *. destruct (kem_encapsulate rnd (kp_encapsulation_key kp)) as [ct ss]. simpl in *.
  destruct (aead_encrypt ss nonce _) as [c|] eqn:Ec; simpl in Hi; [|done]. simplify_eq. split.
  - unfold accept_invite, interface_decapsulate. simpl. rewrite Hp. simpl. rewrite Hd. simpl.
    rewrite (aead_opens _ _ _ _ Ec). simpl. rewrite to_arr32_bytes. by destruct k.
  - unfold is_valid_ciphertext_length. simpl. by rewrite Hs, Nat.eqb_refl.
Qed.

(** Content sealed with an artifact key, itself sealed with the key of the
    realm, opens for whoever has that key. *)
Lemma artifact_opens n1 n2 content ak k e ek :
  length n1 = NONCE_SIZE → encrypt_artifact n1 content ak = Ok e → artifact_key_encrypt n2 ak k = Ok ek →
  artifact_key_decrypt ek k = Ok ak ∧ decrypt_artifact_bytes (encrypted_to_bytes e) ak = Ok content.
Proof.
  unfold encrypt_artifact, artifact_key_encrypt, artifact_key_decrypt, interface_encrypt, interface_decrypt. intros Hn.
  destruct (aead_encrypt ak n1 content) eqn:E1; simpl; [|done]. destruct (aead_encrypt (ik_key k) n2 _) eqn:E2; simpl; [|done].
  intros; simplify_eq. simpl. rewrite (aead_opens _ _ _ _ E2). simpl. rewrite to_arr32_bytes. split; [done|].
  unfold decrypt_artifact_bytes. rewrite encrypted_bytes_roundtrip by done. unfold decrypt_artifact. simpl.
  by rewrite (aead_opens _ _ _ _ E1).
Qed.
End InterfaceKeys.

(** ** Secret sharing *)

Section Shamir.
Context `{Sharks}.

Record ShamirShare : Type := { share_bytes : list byte }.

Definition share_index (s : ShamirShare) : Z := match share_bytes s with b :: _ => byte_val b | [] => 0 end.
Definition share_from_bytes (bytes : list byte) : Result ShamirShare SealError :=
  match sharks_parse bytes with Some b => Ok {| share_bytes := b |} | None => Err InvalidShare end.

Definition split_secret (rnd : list byte) (secret : arr32) (k n : Z) : Result (list ShamirShare) SealError :=
  if k <? 2 then Err (ShamirParams "k must be >= 2")
  else if n <? k then
    Err (ShamirParams ("n (" +:+ (i64_to_string n +:+ (") must be >= k (" +:+ (i64_to_string k +:+ ")")))))
  else
    let shares := Build_ShamirShare <$> sharks_deal rnd k (arr32_bytes secret) (Z.to_nat n) in
    if negb (Z.of_nat (length shares) =? n) then
      Err (ShamirParams ("dealer produced " +:+ (i64_to_string (Z.of_nat (length shares)) +:+
        (" shares, expected " +:+ i64_to_string n))))
    else Ok shares.

(** [collect] into a [Result]: the first malformed share ends it. *)
Fixpoint parse_shares (l : list ShamirShare) : Result (list (list byte)) SealError :=
  match l with
  | [] => Ok []
  | s :: l =>
      match sharks_parse (share_bytes s) with
      | None => Err InvalidShare
      | Some b => let? bs := parse_shares l in Ok (b :: bs)
      end
  end.

Definition combine_shares (shares : list ShamirShare) (k : Z) : Result arr32 SealError :=
  if k <? 2 then Err (ShamirParams "k must be >= 2")
  else if Z.of_nat (length shares) <? k then
    Err (ShamirParams ("need at least " +:+ (i64_to_string k +:+ (" shares, got " +:+ i64_to_string (Z.of_nat (length shares))))))
  else
    let? bs := parse_shares shares in
    let? recovered := r_ok_or (sharks_recover k bs) ShamirReconstruction in
    r_ok_or (to_arr32 recovered) ShamirReconstruction.

Context `{!SharksLaws}.

Lemma split_secret_ok rnd secret k n : 2 <= k <= n → n <= 255 →
  split_secret rnd secret k n = Ok (Build_ShamirShare <$> sharks_deal rnd k (arr32_bytes secret) (Z.to_nat n)).
Proof.
  intros Hk Hn. unfold split_secret. destruct (Z.ltb_spec k 2); [lia|]. destruct (Z.ltb_spec n k); [lia|].
  rewrite length_fmap, sharks_count by lia. by rewrite Z2Nat.id, Z.eqb_refl by lia.
Qed.

Lemma parse_shares_dealt rnd k s n l : s ≠ [] → l ⊆ Build_ShamirShare <$> sharks_deal rnd k s n → parse_shares l = Ok (share_bytes <$> l).
Proof.
  intros Hne. induction l as [|x l IH]; intros Hl; simpl; [done|].
  assert (x ∈ Build_ShamirShare <$> sharks_deal rnd k s n) as (b & -> & Hb)%list_elem_of_fmap by set_solver.
  simpl. rewrite (sharks_parses _ _ _ _ _ Hne Hb), IH by set_solver. done.
Qed.

(** Any [k] or more different shares of a split recover the secret. *)
Lemma combine_split rnd secret k n shares l :
  split_secret rnd secret k n = Ok shares → n <= 255 → NoDup (share_bytes <$> l) → l ⊆ shares → k <= Z.of_nat (length l) →
  combine_shares l k = Ok secret.
Proof.
  unfold split_secret, combine_shares. intros Hs Hn Hd Hl Hk.
  destruct (Z.ltb_spec k 2); [done|]. destruct (Z.ltb_spec n k); [done|].
  destruct (negb _); [done|]. simplify_eq. destruct (Z.ltb_spec (Z.of_nat (length l)) k); [lia|].
  assert (Hne : arr32_bytes secret ≠ []) by (intros E; pose proof (arr32_length secret) as El; by rewrite E in El).
  rewrite (parse_shares_dealt _ _ _ _ _ Hne Hl). simpl.
  rewrite (sharks_threshold rnd k (arr32_bytes secret) (Z.to_nat n)); simpl; rewrite ?length_fmap; try done; try lia.
  - by rewrite to_arr32_bytes.
  - intros b (x & -> & Hx)%list_elem_of_fmap. apply Hl, list_elem_of_fmap in Hx as (b' & -> & Hb). done.
Qed.
End Shamir.

(** ** Shares for stewards *)

Section StewardShares.
Context `{Aead, Kem, Sharks, !Codec ShamirShare}.

Record EncryptedStewardShare : Type := {
  ess_share_index : Z;
  ess_threshold : Z;
  ess_secret_version : Z;
  ess_recipient_kem_id : list byte;
  ess_kem_ciphertext : list byte;
  ess_nonce : list byte;
  ess_encrypted_share : list byte;
}.

Definition RECIPIENT_KEM_ID_LEN : nat := 8.

(** The first eight bytes, filled with zeros where the key is shorter. *)
Definition kem_id (ek : PQEncapsulationKey) : list byte :=
  let b := take RECIPIENT_KEM_ID_LEN (ek_to_bytes ek) in b ++ replicate (RECIPIENT_KEM_ID_LEN - length b) x00.

Definition encrypt_share_for_steward (rnd nonce : list byte) (share : ShamirShare) (threshold secret_version : Z)
    (recipient : PQEncapsulationKey) : Result EncryptedStewardShare SealError :=
  let '(ct, ss) := encapsulate rnd recipient in
  let? plaintext := encrypting (c_encode share) in
  let? enc := encrypting (aead_encrypt ss nonce plaintext) in
  Ok {| ess_share_index := share_index share; ess_threshold := threshold; ess_secret_version := secret_version;
        ess_recipient_kem_id := kem_id recipient; ess_kem_ciphertext := ct_bytes ct; ess_nonce := nonce;
        ess_encrypted_share := enc |}.

Definition steward_share_decrypt (e : EncryptedStewardShare) (recipient : PQKemKeyPair) : Result ShamirShare SealError :=
  let? ct := ciphertext_from_bytes (ess_kem_ciphertext e) in
  let? ss := decapsulate recipient ct in
  let? plaintext := decrypting (aead_decrypt ss (ess_nonce e) (ess_encrypted_share e)) in
  decrypting (c_decode plaintext).

Context `{!AeadLaws, !KemLaws, !CodecRoundtrip ShamirShare}.

Lemma steward_share_opens rnd nonce share t v kp e : keypair_ok kp →
  encrypt_share_for_steward rnd nonce share t v (encapsulation_key kp) = Ok e →
  steward_share_decrypt e kp = Ok share ∧ ess_share_index e = share_index share.
Proof.
  intros Hkp He. unfold encrypt_share_for_steward in He.
  pose proof (encapsulate_parses rnd (encapsulation_key kp)) as Hp.
  pose proof (decapsulate_encapsulate rnd kp Hkp) as Hd.
  destruct (encapsulate rnd (encapsulation_key kp)) as [ct ss]; simpl in *.
  destruct (c_encode share) as [pt|] eqn:Ept; simpl in He; [|done].
  destruct (aead_encrypt ss nonce pt) as [c|] eqn:Ec; simpl in He; [|done]. simplify_eq. split; [|done].
  unfold steward_share_decrypt. simpl. rewrite Hp. simpl. rewrite Hd. simpl.
  rewrite (aead_opens _ _ _ _ Ec). simpl. by rewrite (c_roundtrip _ _ Ept).
Qed.
End StewardShares.

(** ** Erasure coding *)

Inductive ErasureError : Type :=
| ZeroDataShards
| ZeroParityShards
| TooManyShards
| RsError (msg : string)
| NotEnoughShards (data_shards got : nat)
| ShardLengthMismatch (index got want : nat)
| OriginalLengthTooLarge (original capacity : nat).

Section Erasure.
Context `{ReedSolomon}.

Record ErasureShards : Type := {
  es_shards : list (list byte);
  es_original_len : nat;
  es_data_shards : nat;
  es_parity_shards : nat;
}.

Definition rs_result {A} (r : Result A string) : Result A ErasureError :=
  match r with Ok a => Ok a | Err e => Err (RsError e) end.

Definition shard_length (len data_shards : nat) : nat := (Nat.max (len + data_shards - 1) data_shards / data_shards)%nat.

Fixpoint slices (n len : nat) (l : list byte) : list (list byte) :=
  match n with O => [] | S n => take len l :: slices n len (drop len l) end.

Definition erasure_encode (data : list byte) (data_shards parity_shards : nat) : Result ErasureShards ErasureError :=
  if (data_shards =? 0)%nat then Err ZeroDataShards
  else if (parity_shards =? 0)%nat then Err ZeroParityShards
  else if (255 <? data_shards + parity_shards)%nat then Err TooManyShards
  else
    let shard_len := shard_length (length data) data_shards in
    let padded := data ++ replicate (shard_len * data_shards - length data) x00 in
    let shards := slices data_shards shard_len padded ++ replicate parity_shards (replicate shard_len x00) in
    let? _ := rs_result (rs_new data_shards parity_shards) in
    let? shards := rs_result (rs_encode data_shards parity_shards shards) in
    Ok {| es_shards := shards; es_original_len := length data; es_data_shards := data_shards; es_parity_shards := parity_shards |}.

(** The first shard of another length. *)
Fixpoint length_mismatch (i want : nat) (l : list (option (list byte))) : option ErasureError :=
  match l with
  | [] => None
  | Some v :: l => if (length v =? want)%nat then length_mismatch (S i) want l else Some (ShardLengthMismatch i (length v) want)
  | None :: l => length_mismatch (S i) want l
  end.

Definition erasure_decode (shards : list (option (list byte))) (data_shards parity_shards original_len : nat)
    : Result (list byte) ErasureError :=
  if (data_shards =? 0)%nat then Err ZeroDataShards
  else if (parity_shards =? 0)%nat then Err ZeroParityShards
  else if negb (length shards =? data_shards + parity_shards)%nat then Err (NotEnoughShards data_shards (present shards))
  else if (present shards <? data_shards)%nat then Err (NotEnoughShards data_shards (present shards))
  else
    let shard_len := match omap id shards with v :: _ => length v | [] => 0%nat end in
    match length_mismatch 0 shard_len shards with
    | Some e => Err e
    | None =>
        let capacity := (shard_len * data_shards)%nat in
        if (capacity <? original_len)%nat then Err (OriginalLengthTooLarge original_len capacity)
        else
          let? _ := rs_result (rs_new data_shards parity_shards) in
          let? work := rs_result (rs_reconstruct data_shards parity_shards shards) in
          Ok (take original_len (concat (omap id (take data_shards work))))
    end.

Lemma shard_capacity len d : d ≠ 0%nat → (len <= shard_length len d * d)%nat.
Proof.
  intros Hd. unfold shard_length.
  pose proof (Nat.div_mod (Nat.max (len + d - 1) d) d Hd) as E.
  pose proof (Nat.mod_upper_bound (Nat.max (len + d - 1) d) d Hd) as Hm.
  remember (Nat.max (len + d - 1) d / d)%nat as q. nia.
Qed.

Lemma slices_length n len l : length (slices n len l) = n.
Proof. revert l. induction n as [|n IH]; intros l; simpl; [done|]. by rewrite IH. Qed.

Lemma slices_concat n len l : length l = (n * len)%nat → concat (slices n len l) = l.
Proof.
  revert l. induction n as [|n IH]; intros l Hl; simpl in *; [symmetry; by apply nil_length_inv|].
  rewrite IH by (rewrite length_drop; lia). apply take_drop.
Qed.

Lemma slices_all n len l : length l = (n * len)%nat → Forall (λ s, length s = len) (slices n len l).
Proof.
  revert l. induction n as [|n IH]; intros l Hl; simpl in *; [constructor|].
  constructor; [rewrite length_take; lia|]. apply IH. rewrite length_drop. lia.
Qed.

Lemma survivors_omap {A} (l : list A) o x : survivors l o → x ∈ omap id o → x ∈ l.
Proof.
  intros [_ Hs] (y & Hy & Ey)%list_elem_of_omap. simpl in Ey. subst y.
  apply list_elem_of_lookup in Hy as [i Hi]. apply list_elem_of_lookup. exists i. by apply Hs.
Qed.

Lemma length_mismatch_none i want o : Forall (λ s, length s = want) (omap id o) → length_mismatch i want o = None.
Proof.
  revert i. induction o as [|[v|] o IH]; intros i Ho; simpl in *; [done| |by apply IH].
  apply Forall_cons in Ho as [<- Ho]. rewrite Nat.eqb_refl. by apply IH.
Qed.

Context `{!ReedSolomonLaws}.

(** Any [data_shards] survivors give back the payload. *)
Lemma erasure_roundtrip data d p e o :
  erasure_encode data d p = Ok e → survivors (es_shards e) o → (d <= present o)%nat →
  erasure_decode o d p (length data) = Ok data ∧ length (es_shards e) = (d + p)%nat.
Proof.
  intros He Ho Hp. unfold erasure_encode in He.
  destruct (Nat.eqb_spec d 0) as [|Hd0]; [done|]. destruct (Nat.eqb_spec p 0) as [|Hp0]; [done|]. destruct (_ <? _)%nat; [done|].
  set (n := shard_length (length data) d) in *. set (padded := data ++ replicate (n * d - length data) x00) in *.
  assert (Hcap : (length data <= n * d)%nat) by by apply shard_capacity.
  assert (Hpad : length padded = (d * n)%nat) by (unfold padded; rewrite length_app, length_replicate; lia).
  destruct (rs_new d p) eqn:En; simpl in He; [|done].
  destruct (rs_encode d p _) as [l|] eqn:El; simpl in He; [|done]. simplify_eq. simpl in *.
  pose proof (rs_keeps_data _ _ _ _ El) as [Hlen Htake].
  rewrite length_app, slices_length, length_replicate in Hlen. split; [|done].
  assert (Hall : Forall (λ s, length s = n) l).
  { eapply rs_same_length; [done|]. apply Forall_app. split; [by apply slices_all|].
    apply Forall_replicate. by rewrite length_replicate. }
  assert (Homap : Forall (λ s, length s = n) (omap id o)).
  { rewrite Forall_forall in *. intros s Hs. eapply Hall, survivors_omap; eauto. }
  destruct (rs_recovers _ _ _ _ _ El Ho Hp) as (o' & Eo & Ho').
  unfold erasure_decode. rewrite (proj2 (Nat.eqb_neq d 0) Hd0), (proj2 (Nat.eqb_neq p 0) Hp0).
  rewrite (proj1 Ho), Hlen, Nat.eqb_refl. simpl. destruct (Nat.ltb_spec (present o) d); [lia|].
  assert (match omap id o with v :: _ => length v | [] => 0%nat end = n) as ->.
  { unfold present in Hp. destruct (omap id o); simpl in *; [lia|]. by apply Forall_cons in Homap as [? _]. }
  rewrite length_mismatch_none by done. destruct (Nat.ltb_spec (n * d) (length data)); [lia|].
  rewrite En, Eo. simpl. rewrite Ho', Htake.
  rewrite <-(slices_length d n padded) at 1. rewrite take_app_length.
  assert (Hid : ∀ x : list (list byte), omap id (Some <$> x) = x) 
    by (induction x as [|? ? IH]; csimpl; [done|by rewrite IH]).
  rewrite Hid, slices_concat by done. unfold padded. by rewrite take_app_length.
Qed.

(** A threshold that needs every shard is refused. *)
Lemma erasure_needs_parity data d : d ≠ 0%nat → erasure_encode data d 0 = Err ZeroParityShards.
Proof. intros Hd. unfold erasure_encode. by destruct (Nat.eqb_spec d 0). Qed.
End Erasure.
