(* ===== verification/Recovery.v ===== *)
(** * Devices, stewards and the recovery of an account

    Models [account_root.rs] and [device_cert.rs] of [indras-crypto], and of
    [indras-sync-engine]: [device_roster.rs], the sealing of
    [account_root_envelope.rs], [steward_recovery.rs] (without its files) and the
    pipeline of [file_shard.rs], on the envelopes of [Sealing.v].

    The results are end to end: what is split among stewards, sealed or spread
    over backup peers comes back from any sufficient part of it. *)

From S2P Require Import Prelude Bytes Crypto Packet Pending EventStore Documents Convergence Sealing.
From S2P Require Import Artifact Attention Peering Quorum SyncDocs.

(** ** Little-endian integers *)

Lemma le_bytes_length n z : length (le_bytes n z) = n.
Proof. revert z. induction n as [|n IH]; intros z; simpl; [done|]. by rewrite IH. Qed.

Lemma le_bytes_inj n a b : le_bytes n a = le_bytes n b → a mod 256 ^ Z.of_nat n = b mod 256 ^ Z.of_nat n.
Proof.
  revert a b. induction n as [|n IH]; intros a b; cbn [le_bytes]; [by rewrite !Z.mod_1_r|].
  intros [= H1 H2%IH]. apply (f_equal byte_val) in H1. rewrite !byte_val_of_Z in H1.
  rewrite Nat2Z.inj_succ, Z.pow_succ_r, !Z.rem_mul_r by lia. lia.
Qed.

(** Elements picked at different positions of a list without repetition. *)
Lemma NoDup_picked {A B} (f : A → B) (l : list A) (idx : list nat) (m : list A) :
  NoDup (f <$> l) → NoDup idx → Forall2 (λ i s, l !! i = Some s) idx m → NoDup (f <$> m).
Proof.
  intros Hl Hidx Hf. induction Hf as [|i s idx m Hi Hf IH]; [constructor|].
  apply NoDup_cons in Hidx as [Hni Hidx]. rewrite fmap_cons, NoDup_cons. split; [|by apply IH].
  intros (s' & Es & [j Hj]%list_elem_of_lookup)%list_elem_of_fmap.
  eapply Forall2_lookup_r in Hf as (i' & Hi' & Hs'); [|done]. simpl in Hs'.
  assert (i = i') as -> by (eapply NoDup_lookup; [exact Hl| |]; rewrite list_lookup_fmap, ?Hi, ?Hs'; simpl; [done|by rewrite Es]).
  apply Hni. by eapply list_elem_of_lookup_2.
Qed.

(** ** The account root *)

Section Accounts.
Context `{Dilithium, Blake3}.

Record AccountRoot : Type := { root_inner : PQIdentity }.

Definition root_from_keypair_bytes (sk vk : list byte) : Result AccountRoot CryptoError :=
  let? i := pq_identity_from_keypair_bytes sk vk in Ok {| root_inner := i |}.
Definition root_sign (r : AccountRoot) (message : list byte) : PQSignature := pq_sign (root_inner r) message.
Definition root_verifying_key (r : AccountRoot) : PQPublicIdentity := pq_identity_verifying_key (root_inner r).
Definition root_verifying_key_bytes (r : AccountRoot) : list byte := public_key_as_bytes (verifying_key (root_inner r)).
Definition root_to_keypair_bytes (r : AccountRoot) : list byte * list byte := pq_identity_to_keypair_bytes (root_inner r).
Definition root_id (r : AccountRoot) : arr32 := user_id (root_inner r).

Record AccountRootRef : Type := { arr_root_id : arr32; arr_verifying_key_bytes : list byte }.
Definition ref_from_root (r : AccountRoot) : AccountRootRef :=
  {| arr_root_id := root_id r; arr_verifying_key_bytes := root_verifying_key_bytes r |}.
Definition ref_public (r : AccountRootRef) : option PQPublicIdentity := pq_public_parse (arr_verifying_key_bytes r).

(** ** Device certificates *)

Record DeviceCertificate : Type := {
  device_vk_bytes : list byte;
  device_name : string;
  added_at_millis : Z;
  revoked : bool;
  dc_signature : list byte;
}.

Definition CERT_DOMAIN : list byte := as_bytes "indras:device-cert:v1".

Definition canonical_message (vk : list byte) (name : string) (ts_millis : Z) (is_revoked : bool) : list byte :=
  CERT_DOMAIN ++ le_bytes 4 (Z.of_nat (length vk)) ++ vk ++
  le_bytes 4 (Z.of_nat (length (as_bytes name))) ++ as_bytes name ++
  i64_to_le_bytes ts_millis ++ [if is_revoked then x01 else x00].

Definition cert_sign (vk : list byte) (name : string) (added_at : Z) (root : AccountRoot) : DeviceCertificate :=
  {| device_vk_bytes := vk; device_name := name; added_at_millis := added_at; revoked := false;
     dc_signature := pq_signature_bytes (root_sign root (canonical_message vk name added_at false)) |}.

Definition cert_revoke (c : DeviceCertificate) (revoked_at : Z) (root : AccountRoot) : DeviceCertificate :=
  {| device_vk_bytes := device_vk_bytes c; device_name := device_name c; added_at_millis := revoked_at; revoked := true;
     dc_signature := pq_signature_bytes (root_sign root (canonical_message (device_vk_bytes c) (device_name c) revoked_at true)) |}.

Definition cert_verify (c : DeviceCertificate) (root_vk : PQPublicIdentity) : bool :=
  let msg := canonical_message (device_vk_bytes c) (device_name c) (added_at_millis c) (revoked c) in
  match pq_signature_from_bytes (dc_signature c) with
  | Ok sig => pq_verify root_vk msg sig
  | Err _ => false
  end.

Definition device_public_key (c : DeviceCertificate) : option PQPublicIdentity := pq_public_parse (device_vk_bytes c).
Definition device_user_id (c : DeviceCertificate) : arr32 := blake3 (device_vk_bytes c).

(** ** The roster *)

Record DeviceRoster : Type := { account_root_ref : option AccountRootRef; devices : list DeviceCertificate }.
Definition DEVICE_ROSTER_DOC_KEY : string := "_device_roster".
Definition device_roster_default : DeviceRoster := {| account_root_ref := None; devices := [] |}.

Definition roster_upsert (c : DeviceCertificate) (d : DeviceRoster) : DeviceRoster :=
  {| account_root_ref := account_root_ref d; devices := upsert device_vk_bytes (later added_at_millis) c (devices d) |}.
Definition cert_for (vk : list byte) (d : DeviceRoster) : option DeviceCertificate := find_key device_vk_bytes vk (devices d).

Definition device_is_trusted (vk : list byte) (d : DeviceRoster) : bool :=
  match cert_for vk d with
  | None => false
  | Some cert =>
      if revoked cert then false
      else match account_root_ref d with
           | None => false
           | Some root_ref => match ref_public root_ref with None => false | Some pk => cert_verify cert pk end
           end
  end.
Definition active_devices (d : DeviceRoster) : list DeviceCertificate := retain (λ c, negb (revoked c)) (devices d).

Definition device_roster_merge (local remote : DeviceRoster) : DeviceRoster :=
  let root := match account_root_ref local with None => account_root_ref remote | Some r => Some r end in
  foldl (λ d c, roster_upsert c d) {| account_root_ref := root; devices := devices local |} (devices remote).

(** *** What certificates promise *)

(** The signed message determines what it is about. *)
Lemma canonical_message_inj vk name ts r vk' name' ts' r' :
  Z.of_nat (length vk) < 2 ^ 32 → Z.of_nat (length vk') < 2 ^ 32 →
  Z.of_nat (length (as_bytes name)) < 2 ^ 32 → Z.of_nat (length (as_bytes name')) < 2 ^ 32 →
  in_i64 ts → in_i64 ts' →
  canonical_message vk name ts r = canonical_message vk' name' ts' r' →
  vk = vk' ∧ name = name' ∧ ts = ts' ∧ r = r'.
Proof.
  intros Hv Hv' Hn Hn' Ht Ht' H1. unfold canonical_message in H1. apply app_inv_head in H1.
  assert (Hlen : ∀ a b, 0 <= a < 2 ^ 32 → 0 <= b < 2 ^ 32 → le_bytes 4 a = le_bytes 4 b → a = b).
  { intros a b Ha Hb Hab%le_bytes_inj. change (256 ^ Z.of_nat 4) with (2 ^ 32) in Hab. rewrite !Z.mod_small in Hab by done. done. }
  apply app_inj_1 in H1 as [El H1]; [|by rewrite !le_bytes_length]. apply Hlen in El; [|lia..].
  apply app_inj_1 in H1 as [-> H1]; [|lia].
  apply app_inj_1 in H1 as [En H1]; [|by rewrite !le_bytes_length]. apply Hlen in En; [|lia..].
  apply app_inj_1 in H1 as [Ename H1]; [|lia]. apply as_bytes_inj in Ename as ->.
  apply app_inj_1 in H1 as [Et H1]; [|done]. apply le_bytes_inj in Et.
  split_and!; [done|done| |by destruct r, r'].
  unfold wrap_u64, in_i64 in *. change (256 ^ Z.of_nat 8) with (2 ^ 64) in Et. rewrite !Zmod_mod in Et.
  pose proof (Z.div_mod ts (2 ^ 64)). pose proof (Z.div_mod ts' (2 ^ 64)). lia.
Qed.

Context `{!DilithiumLaws}.

Lemma cert_sign_verifies vk name ts root : identity_ok (root_inner root) →
  cert_verify (cert_sign vk name ts root) (root_verifying_key root) = true.
Proof.
  intros Hr. unfold cert_verify, cert_sign, cert_revoke, root_sign. cbn [dc_signature device_vk_bytes device_name added_at_millis revoked].
  rewrite pq_signature_roundtrip. by apply pq_sign_verify.
Qed.

Lemma cert_revoke_verifies c ts root : identity_ok (root_inner root) →
  cert_verify (cert_revoke c ts root) (root_verifying_key root) = true.
Proof.
  intros Hr. unfold cert_verify, cert_sign, cert_revoke, root_sign. cbn [dc_signature device_vk_bytes device_name added_at_millis revoked].
  rewrite pq_signature_roundtrip. by apply pq_sign_verify.
Qed.

(** *** What the roster promises *)

Lemma device_roster_merge_spec a b :
  account_root_ref (device_roster_merge a b) = match account_root_ref a with None => account_root_ref b | Some r => Some r end ∧
  devices (device_roster_merge a b) = upsert_all device_vk_bytes (later added_at_millis) (devices a) (devices b).
Proof.
  unfold device_roster_merge, upsert_all.
  generalize (match account_root_ref a with None => account_root_ref b | Some r => Some r end) as r.
  generalize (devices a) as l. induction (devices b) as [|c l' IH]; intros l r; simpl; [done|]. apply IH.
Qed.

(** The certificate kept for a device is the latest of the two sides. *)
Lemma cert_for_merge vk a b : NoDup (device_vk_bytes <$> devices b) →
  cert_for vk (device_roster_merge a b) = union_with (λ x y, Some (lww added_at_millis x y)) (cert_for vk a) (cert_for vk b).
Proof.
  intros Hb. unfold cert_for. destruct (device_roster_merge_spec a b) as [_ ->]. by apply find_key_upsert_all.
Qed.

(** A revoked device is not admitted again by certificates that are not newer
    than the revocation. *)
Lemma revocation_sticks vk a b c : NoDup (device_vk_bytes <$> devices b) →
  cert_for vk a = Some c → revoked c = true →
  (∀ c', cert_for vk b = Some c' → added_at_millis c' <= added_at_millis c) →
  device_is_trusted vk (device_roster_merge a b) = false.
Proof.
  intros Hb Hc Hr Hold. unfold device_is_trusted. rewrite cert_for_merge, Hc by done.
  destruct (cert_for vk b) as [c'|] eqn:E; simpl; [|by rewrite Hr].
  specialize (Hold c' eq_refl). unfold lww, pick, later.
  destruct (added_at_millis c <? added_at_millis c') eqn:El; [lia|]. by rewrite Hr.
Qed.

(** A revocation that reaches a replica takes effect. *)
Lemma revocation_arrives vk a b c : NoDup (device_vk_bytes <$> devices b) →
  cert_for vk b = Some c → revoked c = true →
  (∀ c', cert_for vk a = Some c' → added_at_millis c' < added_at_millis c) →
  device_is_trusted vk (device_roster_merge a b) = false.
Proof.
  intros Hb Hc Hr Hold. unfold device_is_trusted. rewrite cert_for_merge, Hc by done.
  destruct (cert_for vk a) as [c'|] eqn:E; simpl; [|by rewrite Hr].
  specialize (Hold c' eq_refl). unfold lww, pick, later.
  destruct (added_at_millis c' <? added_at_millis c) eqn:El; [by rewrite Hr|lia].
Qed.

(** Signatures are not checked when certificates are merged: one that the root
    never signed, with a later time, takes the place of the genuine one. *)
Lemma forged_certificate_evicts vk a forged : device_vk_bytes forged = vk →
  (∀ c, cert_for vk a = Some c → added_at_millis c < added_at_millis forged) →
  (∀ r pk, account_root_ref a = Some r → ref_public r = Some pk → cert_verify forged pk = false) →
  account_root_ref a ≠ None →
  device_is_trusted vk (device_roster_merge a {| account_root_ref := None; devices := [forged] |}) = false.
Proof.
  intros Hvk Hlt Hbad Hroot. unfold device_is_trusted.
  set (b := {| account_root_ref := None; devices := [forged] |}).
  assert (Hb : cert_for vk b = Some forged) by (unfold cert_for, b; simpl; by rewrite find_key_cons, bool_decide_true).
  rewrite cert_for_merge, Hb by apply NoDup_singleton.
  assert (Hm : union_with (λ x y, Some (lww added_at_millis x y)) (cert_for vk a) (Some forged) = Some forged).
  { destruct (cert_for vk a) as [c|]; simpl; [|done]. specialize (Hlt c eq_refl). unfold lww, pick, later.
    destruct (added_at_millis c <? added_at_millis forged) eqn:E; [done|lia]. }
  rewrite Hm. destruct (revoked forged); [done|].
  destruct (device_roster_merge_spec a b) as [-> _].
  destruct (account_root_ref a) as [r|] eqn:Er; [|done]. destruct (ref_public r) eqn:Ep; [|done]. eauto.
Qed.
End Accounts.

(** ** The sealed root *)

Section SealedRoot.
Context `{Dilithium, Blake3, Aead}.

Inductive EnvelopeError : Type :=
| EnvInvalidKeyLength
| EnvEncrypt (msg : string)
| EnvDecrypt
| EnvInvalidNonce
| EnvCrypto (e : CryptoError).

(** The version in eight bytes, and a constant. *)
Definition envelope_nonce (version : Z) : list byte := le_bytes 8 version ++ replicate 4 xa5.

Definition seal_account_root (root : AccountRoot) (wrapping_key : arr32) (version : Z) : Result AccountRootEnvelope EnvelopeError :=
  let '(sk, vk) := root_to_keypair_bytes root in
  match aead_encrypt wrapping_key (envelope_nonce version) sk with
  | Err e => Err (EnvEncrypt e)
  | Ok c => Ok {| are_encrypted_sk := c; are_nonce := envelope_nonce version; are_verifying_key_bytes := vk; are_version := version |}
  end.

Definition unseal_account_root (e : AccountRootEnvelope) (wrapping_key : arr32) : Result AccountRoot EnvelopeError :=
  if negb (length (are_nonce e) =? 12)%nat then Err EnvInvalidNonce
  else match aead_decrypt wrapping_key (are_nonce e) (are_encrypted_sk e) with
       | Err _ => Err EnvDecrypt
       | Ok sk => match root_from_keypair_bytes sk (are_verifying_key_bytes e) with
                  | Ok r => Ok r
                  | Err err => Err (EnvCrypto err)
                  end
       end.

(** Keys survive their byte form. *)
Class KeyBytesLaws : Prop := {
  secret_key_size k : length (secret_key_as_bytes k) = secret_key_bytes;
  public_key_size k : length (public_key_as_bytes k) = public_key_bytes;
  secret_key_parses k : secret_key_from_bytes (secret_key_as_bytes k) = Some k;
  public_key_parses k : public_key_from_bytes (public_key_as_bytes k) = Some k;
}.

Context `{!AeadLaws, !KeyBytesLaws}.

Lemma envelope_nonce_length v : length (envelope_nonce v) = 12%nat.
Proof. unfold envelope_nonce. by rewrite length_app, le_bytes_length, length_replicate. Qed.

Lemma root_keypair_roundtrip r : let '(sk, vk) := root_to_keypair_bytes r in root_from_keypair_bytes sk vk = Ok r.
Proof.
  destruct r as [[sk vk]]. unfold root_to_keypair_bytes, root_from_keypair_bytes, pq_identity_from_keypair_bytes. simpl.
  rewrite secret_key_size, public_key_size, !Nat.eqb_refl. simpl. by rewrite secret_key_parses, public_key_parses.
Qed.

Lemma unseal_seal root w v e : seal_account_root root w v = Ok e → unseal_account_root e w = Ok root.
Proof.
  unfold seal_account_root, unseal_account_root. pose proof (root_keypair_roundtrip root) as Hr.
  destruct (root_to_keypair_bytes root) as [sk vk]. destruct (aead_encrypt w _ sk) eqn:E; [|done].
  intros [= <-]. cbn [are_nonce are_encrypted_sk are_verifying_key_bytes]. rewrite envelope_nonce_length. simpl negb.
  by rewrite (aead_opens _ _ _ _ E), Hr.
Qed.
End SealedRoot.

(** ** Shares for stewards *)

Section StewardRecovery.
Context `{Aead, Kem, Sharks, !Codec ShamirShare}.

Record StewardAssignment : Type := {
  sa_steward_id : list byte;
  sa_share_index : Z;
  sa_recipient_kem_id : list byte;
  sa_assigned_at_millis : Z;
}.
Record StewardManifest : Type := {
  sm_threshold : Z;
  sm_total_shares : Z;
  sm_secret_version : Z;
  sm_assignments : list StewardAssignment;
  sm_created_at_millis : Z;
}.
Record PreparedRecovery : Type := { pr_manifest : StewardManifest; pr_encrypted_shares : list EncryptedStewardShare }.

Inductive StewardRecoveryError : Type :=
| SreCrypto (e : SealError)
| SreThresholdTooSmall (k : Z)
| SreInvalidStewardCount (n : nat) (k : Z).

Definition as_sre {A} (r : Result A SealError) : Result A StewardRecoveryError :=
  match r with Ok a => Ok a | Err e => Err (SreCrypto e) end.

(** The loop over shares and stewards; each round draws its random bytes. *)
Fixpoint seal_shares (k v now : Z) (rnds : list (list byte * list byte)) (shares : list ShamirShare)
    (stewards : list (list byte * PQEncapsulationKey)) : Result (list StewardAssignment * list EncryptedStewardShare) StewardRecoveryError :=
  match shares, stewards with
  | share :: shares, (id, ek) :: stewards =>
      let rnd := default ([], []) (head rnds) in
      let? enc := as_sre (encrypt_share_for_steward rnd.1 rnd.2 share k v ek) in
      let? rest := seal_shares k v now (tail rnds) shares stewards in
      Ok ({| sa_steward_id := id; sa_share_index := ess_share_index enc; sa_recipient_kem_id := ess_recipient_kem_id enc;
             sa_assigned_at_millis := now |} :: rest.1, enc :: rest.2)
  | _, _ => Ok ([], [])
  end.

Definition prepare_recovery (rnd : list byte) (rnds : list (list byte * list byte)) (now : Z) (subkey : arr32)
    (stewards : list (list byte * PQEncapsulationKey)) (k v : Z) : Result PreparedRecovery StewardRecoveryError :=
  if k <? 2 then Err (SreThresholdTooSmall k)
  else if (Z.of_nat (length stewards) <? k) || (255 <? length stewards)%nat
  then Err (SreInvalidStewardCount (length stewards) k)
  else
    let n := Z.of_nat (length stewards) in
    let? shares := as_sre (split_secret rnd subkey k n) in
    let? sealed := seal_shares k v now rnds shares stewards in
    Ok {| pr_manifest := {| sm_threshold := k; sm_total_shares := n; sm_secret_version := v;
                            sm_assignments := sealed.1; sm_created_at_millis := now |};
          pr_encrypted_shares := sealed.2 |}.

Definition recover_encryption_subkey (shares : list ShamirShare) (k : Z) : Result arr32 StewardRecoveryError :=
  as_sre (combine_shares shares k).

Context `{!AeadLaws, !KemLaws, !SharksLaws, !CodecRoundtrip ShamirShare}.

Lemma seal_shares_spec k v now rnds shares ids kps r :
  length shares = length kps → length ids = length kps → Forall keypair_ok kps →
  seal_shares k v now rnds shares (zip ids (encapsulation_key <$> kps)) = Ok r →
  length r.1 = length kps ∧ length r.2 = length kps ∧
  ∀ i e kp, r.2 !! i = Some e → kps !! i = Some kp → ∃ s, shares !! i = Some s ∧ steward_share_decrypt e kp = Ok s.
Proof.
  revert rnds ids kps r. induction shares as [|s shares IH]; intros rnds [|id ids] [|kp kps] r Hl Hi Hok; simpl in *; try lia.
  { intros [= <-]. split_and!; [done..|]. intros ???. by rewrite lookup_nil. }
  apply Forall_cons in Hok as [Hkp Hok].
  destruct (encrypt_share_for_steward _ _ s k v _) as [enc|] eqn:Ee; simpl; [|done].
  destruct (seal_shares _ _ _ _ _ _) as [rest|] eqn:Er; simpl; [|done]. intros [= <-]. simpl.
  destruct (IH (tail rnds) ids kps rest ltac:(lia) ltac:(lia) Hok Er) as (L1 & L2 & L3). split_and!; [lia|lia|].
  intros [|i] e kp'; simpl; [|by apply L3]. intros [= <-] [= <-]. exists s. split; [done|].
  by eapply steward_share_opens.
Qed.

(** The shares a set of stewards hands back. *)
Fixpoint open_shares (picked : list (EncryptedStewardShare * PQKemKeyPair)) : Result (list ShamirShare) SealError :=
  match picked with
  | [] => Ok []
  | (e, kp) :: l => let? s := steward_share_decrypt e kp in let? ss := open_shares l in Ok (s :: ss)
  end.

Lemma open_shares_spec (shares : list ShamirShare) picked (idx : list nat) : length picked = length idx →
  (∀ j e kp i, picked !! j = Some (e, kp) → idx !! j = Some i → ∃ s, shares !! i = Some s ∧ steward_share_decrypt e kp = Ok s) →
  ∃ l, open_shares picked = Ok l ∧ Forall2 (λ i s, shares !! i = Some s) idx l.
Proof.
  revert idx. induction picked as [|[e kp] picked IH]; intros [|i idx] Hl Hs; simpl in *; try lia; [by exists []|].
  destruct (Hs 0%nat e kp i eq_refl eq_refl) as (s & Hi & Hd). rewrite Hd. simpl.
  destruct (IH idx ltac:(lia)) as (l & -> & Hf). { intros j e' kp' i' Hj Hi'. by apply (Hs (S j)). }
  exists (s :: l). split; [done|]. by constructor.
Qed.

(** C31. Whatever [k] stewards answer, their shares give the subkey back. *)
Lemma recovery_roundtrip rnd rnds now subkey ids kps k v prep (idx : list nat) picked :
  length ids = length kps → Forall keypair_ok kps →
  prepare_recovery rnd rnds now subkey (zip ids (encapsulation_key <$> kps)) k v = Ok prep →
  NoDup idx → k <= Z.of_nat (length idx) → length picked = length idx →
  (∀ j i e kp, idx !! j = Some i → picked !! j = Some (e, kp) → pr_encrypted_shares prep !! i = Some e ∧ kps !! i = Some kp) →
  ∃ l, open_shares picked = Ok l ∧ recover_encryption_subkey l k = Ok subkey.
Proof.
  intros Hids Hkps Hp Hnd Hk Hlen Hpick. unfold prepare_recovery in Hp.
  assert (Hn : length (zip ids (encapsulation_key <$> kps)) = length kps) by (rewrite length_zip_with, length_fmap; lia).
  rewrite Hn in Hp. destruct (Z.ltb_spec k 2); [done|]. destruct (Z.ltb_spec (Z.of_nat (length kps)) k); [done|].
  destruct (Nat.ltb_spec 255 (length kps)); [done|]. simpl in Hp.
  destruct (split_secret rnd subkey k _) as [shares|] eqn:Es; simpl in Hp; [|done].
  pose proof Es as Es'. rewrite split_secret_ok in Es' by lia. injection Es' as Esh.
  assert (Hls : length shares = length kps) by (rewrite <-Esh, length_fmap, sharks_count; lia).
  destruct (seal_shares _ _ _ _ _ _) as [sealed|] eqn:Ese; simpl in Hp; [|done]. injection Hp as <-. simpl in Hpick.
  destruct (seal_shares_spec _ _ _ _ _ _ _ _ Hls Hids Hkps Ese) as (_ & _ & Hopen).
  destruct (open_shares_spec shares picked idx Hlen) as (l & Hl & Hf).
  { intros j e kp i Hj Hi. destruct (Hpick j i e kp Hi Hj) as [He Hkp]. eauto. }
  exists l. split; [done|]. unfold recover_encryption_subkey.
  rewrite (combine_split rnd subkey k _ shares l Es); [done|lia|..].
  - assert (Hd : NoDup (share_bytes <$> shares)).
    { rewrite <-Esh, <-list_fmap_compose. rewrite (list_fmap_ext _ id) by done. rewrite list_fmap_id. by apply sharks_distinct; lia. }
    by eapply NoDup_picked.
  - intros s Hs. apply list_elem_of_lookup in Hs as [j Hj]. eapply Forall2_lookup_r in Hf as (i & _ & Hi); [|done].
    by eapply list_elem_of_lookup_2.
  - by rewrite <-(Forall2_length _ _ _ Hf).
Qed.
End StewardRecovery.

(** ** Files spread over backup peers *)

Section FileShards.
Context `{Aead, ReedSolomon}.

Inductive FileShardError : Type :=
| FseZeroThreshold
| FseShardCountMismatch (peers total : Z)
| FseInvalidWrappingKey
| FseErasure (e : ErasureError)
| FseCrypto (msg : string)
| FseShardMismatch (msg : string).

Record PreparedShardSet : Type := { ps_shards : list FileShard; ps_data_threshold : Z; ps_shard_count : Z }.

Definition as_fse {A} (r : Result A ErasureError) : Result A FileShardError :=
  match r with Ok a => Ok a | Err e => Err (FseErasure e) end.
Definition fse_crypto {A} (what : string) (r : Result A string) : Result A FileShardError :=
  match r with Ok a => Ok a | Err e => Err (FseCrypto (what +:+ e)) end.
Definition fse_crypto_plain {A} (what : string) (r : Result A string) : Result A FileShardError :=
  match r with Ok a => Ok a | Err _ => Err (FseCrypto what) end.

(** The random bytes: the key of the file, its nonce, the nonce of the key. *)
Definition prepare_file_shards (per_file_key : arr32) (file_nonce key_nonce : list byte) (file_bytes : list byte) (file_id : arr32)
    (label : string) (wrapping_key : arr32) (data_threshold peer_count created_at : Z) : Result PreparedShardSet FileShardError :=
  if data_threshold =? 0 then Err FseZeroThreshold
  else if peer_count <? data_threshold then Err (FseShardCountMismatch peer_count data_threshold)
  else
    let parity := peer_count - data_threshold in
    let? encrypted_file := fse_crypto "file encrypt: " (aead_encrypt per_file_key file_nonce file_bytes) in
    let? erasure := as_fse (erasure_encode encrypted_file (Z.to_nat data_threshold) (Z.to_nat parity)) in
    let? envelope := fse_crypto "key seal: " (aead_encrypt wrapping_key key_nonce (arr32_bytes per_file_key)) in
    Ok {| ps_shards := imap (λ idx bytes,
            {| fs_file_id := file_id; fs_shard_index := Z.of_nat idx mod 256; fs_shard_count := peer_count;
               fs_data_threshold := data_threshold; fs_ciphertext_len := Z.of_nat (length encrypted_file);
               fs_shard_bytes := bytes; fs_per_file_key_envelope := envelope; fs_per_file_key_nonce := key_nonce;
               fs_file_nonce := file_nonce; fs_label := label; fs_created_at_millis := created_at |}) (es_shards erasure);
          ps_data_threshold := data_threshold; ps_shard_count := peer_count |}.

Definition same_version (first s : FileShard) : bool :=
  bool_decide (fs_data_threshold s = fs_data_threshold first) && bool_decide (fs_shard_count s = fs_shard_count first) &&
  bool_decide (fs_per_file_key_envelope s = fs_per_file_key_envelope first) &&
  bool_decide (fs_per_file_key_nonce s = fs_per_file_key_nonce first) && bool_decide (fs_file_nonce s = fs_file_nonce first).

Definition reconstruct_file (shards : list (option FileShard)) (wrapping_key : arr32) : Result (list byte) FileShardError :=
  match omap id shards with
  | [] => Err (FseShardMismatch "no shards provided")
  | first :: _ =>
      if negb (Z.of_nat (length shards) =? fs_shard_count first)
      then Err (FseShardCountMismatch (Z.of_nat (length shards)) (fs_shard_count first))
      else if any (λ s, negb (same_version first s)) (omap id shards)
      then Err (FseShardMismatch "shards belong to different versions")
      else
        let parity := (fs_shard_count first - fs_data_threshold first) mod 256 in
        let? encrypted_file := as_fse (erasure_decode (fmap (M := option) fs_shard_bytes <$> shards)
          (Z.to_nat (fs_data_threshold first)) (Z.to_nat parity) (Z.to_nat (fs_ciphertext_len first))) in
        let? key := fse_crypto_plain "envelope decrypt failed"
          (aead_decrypt wrapping_key (fs_per_file_key_nonce first) (fs_per_file_key_envelope first)) in
        match to_arr32 key with
        | None => Err (FseCrypto "unwrapped per-file key is wrong length")
        | Some k32 => fse_crypto_plain "file decrypt failed — wrong key or tampered" (aead_decrypt k32 (fs_file_nonce first) encrypted_file)
        end
  end.

Context `{!AeadLaws, !ReedSolomonLaws}.

Lemma survivors_fmap {A B} (f : A → B) l o : survivors l o → survivors (f <$> l) (fmap (M := option) f <$> o).
Proof.
  intros [Hl Hs]. split; [by rewrite !length_fmap|]. intros i y. rewrite list_lookup_fmap.
  intros (x & Hx & Ey)%fmap_Some. destruct x as [x|]; simplify_eq/=.
  by rewrite list_lookup_fmap, (Hs i x Hx).
Qed.

Lemma omap_fmap_fmap {A B} (f : A → B) (o : list (option A)) : omap id (fmap (M := option) f <$> o) = f <$> omap id o.
Proof. induction o as [|[x|] o IH]; csimpl; [done|by rewrite IH|done]. Qed.

Lemma prepared_shards_bytes {A} (g : nat → list byte → A) (h : A → list byte) l :
  (∀ i b, h (g i b) = b) → h <$> imap g l = l.
Proof.
  intros Hgh. apply list_eq. intros i. rewrite list_lookup_fmap, list_lookup_imap.
  destruct (l !! i); simpl; [by rewrite Hgh|done].
Qed.

(** C32. Any [data_threshold] of the shards give the file back to whoever has the
    wrapping key. *)
Lemma file_roundtrip fk fn kn file fid label w k n t set o :
  0 <= k → 0 <= n <= 255 → prepare_file_shards fk fn kn file fid label w k n t = Ok set →
  survivors (ps_shards set) o → k <= Z.of_nat (present o) →
  reconstruct_file o w = Ok file ∧ length (ps_shards set) = Z.to_nat n.
Proof.
  intros Hk0 Hn Hp Ho Hk. unfold prepare_file_shards in Hp.
  destruct (Z.eqb_spec k 0); [done|]. destruct (Z.ltb_spec n k); [done|].
  destruct (aead_encrypt fk fn file) as [c|] eqn:Ec; simpl in Hp; [|done].
  destruct (erasure_encode c _ _) as [er|] eqn:Eer; simpl in Hp; [|done].
  destruct (aead_encrypt w kn _) as [env|] eqn:Eenv; simpl in Hp; [|done]. injection Hp as <-. simpl in Ho |- *.
  set (g := λ (idx : nat) bytes, {| fs_file_id := fid; fs_shard_index := Z.of_nat idx mod 256; fs_shard_count := n; fs_data_threshold := k;
      fs_ciphertext_len := Z.of_nat (length c); fs_shard_bytes := bytes; fs_per_file_key_envelope := env;
      fs_per_file_key_nonce := kn; fs_file_nonce := fn; fs_label := label; fs_created_at_millis := t |}) in *.
  pose proof (survivors_fmap fs_shard_bytes _ _ Ho) as Hob.
  rewrite (prepared_shards_bytes g fs_shard_bytes) in Hob by done.
  assert (Hpres : present (fmap (M := option) fs_shard_bytes <$> o) = present o) by (unfold present; by rewrite omap_fmap_fmap, length_fmap).
  destruct (erasure_roundtrip _ _ _ _ _ Eer Hob ltac:(lia)) as [Hdec Hlen].
  assert (Hlo : length o = Z.to_nat n) by (rewrite (proj1 Ho), length_imap, Hlen; lia).
  rewrite length_imap, Hlen. split; [|lia].
  assert (Hall : ∀ s, s ∈ omap id o → ∃ i b, s = g i b).
  { intros s Hs. apply (survivors_omap _ _ _ Ho) in Hs. apply list_elem_of_lookup in Hs as [i Hi].
    rewrite list_lookup_imap in Hi. apply fmap_Some in Hi as (b & _ & ->). eauto. }
  unfold reconstruct_file. unfold present in Hk. destruct (omap id o) as [|first rest] eqn:Eo; simpl in Hk; [lia|].
  destruct (Hall first ltac:(left)) as (i & b & ->). cbn [g fs_shard_count fs_data_threshold fs_ciphertext_len fs_per_file_key_nonce fs_per_file_key_envelope fs_file_nonce].
  rewrite Hlo, Z2Nat.id, Z.eqb_refl by lia. simpl negb. cbv iota.
  rewrite (proj2 (any_false _ _)).
  2: { intros s Hs. destruct (Hall s Hs) as (j & b' & ->). unfold same_version. simpl. by rewrite !bool_decide_true. }
  rewrite (Z.mod_small (n - k)), Nat2Z.id by lia. rewrite Hdec. simpl. rewrite (aead_opens _ _ _ _ Eenv). simpl.
  rewrite to_arr32_bytes. by rewrite (aead_opens _ _ _ _ Ec).
Qed.

(** A threshold equal to the number of peers passes the checks of this function
    and is refused by the erasure code. *)
Lemma no_spare_peer fk fn kn file fid label w k t : 0 < k →
  prepare_file_shards fk fn kn file fid label w k k t = Err (FseErasure ZeroParityShards) ∨
  ∃ e, prepare_file_shards fk fn kn file fid label w k k t = Err (FseCrypto e).
Proof.
  intros Hk. unfold prepare_file_shards. destruct (Z.eqb_spec k 0); [lia|]. destruct (Z.ltb_spec k k); [lia|].
  destruct (aead_encrypt fk fn file); simpl; [|by eauto]. rewrite Z.sub_diag. left.
  rewrite erasure_needs_parity by lia. done.
Qed.
End FileShards.
