(* ===== verification/Humanness.v ===== *)
(** * Humanness attestations

    Models [indras-sync-engine/src/humanness.rs]: the bioregional levels,
    attestations and their delegation chains, the document that logs them with
    the latest attestation of each member, and freshness in binary64 arithmetic
    ([exp] is a parameter). *)

From S2P Require Import Prelude Float Artifact Crypto Attention Peering Quorum Packet Pending EventStore Documents Convergence SyncDocs.
From Stdlib Require Import Floats.SpecFloat.

(** ** Levels and delegations *)

Inductive BioregionalLevel : Type := LvRoot | LvRealm | LvSubrealm | LvBioregion | LvEcoregion | LvIndividual.

#[global] Instance BioregionalLevel_eq_dec : EqDecision BioregionalLevel.
Proof. solve_decision. Defined.

Definition depth (l : BioregionalLevel) : Z :=
  match l with LvRoot => 0 | LvRealm => 1 | LvSubrealm => 2 | LvBioregion => 3 | LvEcoregion => 4 | LvIndividual => 5 end.

Definition parent_level (l : BioregionalLevel) : option BioregionalLevel :=
  match l with
  | LvRoot => None
  | LvRealm => Some LvRoot
  | LvSubrealm => Some LvRealm
  | LvBioregion => Some LvSubrealm
  | LvEcoregion => Some LvBioregion
  | LvIndividual => Some LvEcoregion
  end.

Record Delegation : Type := { delegator : arr32; delegate : arr32; del_level : BioregionalLevel; del_timestamp_millis : Z }.

#[global] Instance Delegation_eq_dec : EqDecision Delegation.
Proof. solve_decision. Defined.

Record HumannessAttestation : Type := {
  ha_subject : arr32;
  ha_attester : arr32;
  delegation_chain : list Delegation;
  ha_timestamp_millis : Z;
}.

#[global] Instance HumannessAttestation_eq_dec : EqDecision HumannessAttestation.
Proof. solve_decision. Defined.

Inductive DelegationError : Type :=
| EmptyChain
| BrokenChain (link_index : nat)
| LevelNotDescending (link_index : nat)
| LevelSkipped (link_index : nat)
| AttesterMismatch.

(** The checks of one link against the one before it. *)
Definition check_link (i : nat) (prev cur : Delegation) : Result unit DelegationError :=
  if depth (del_level cur) <=? depth (del_level prev) then Err (LevelNotDescending i)
  else if negb (depth (del_level cur) =? depth (del_level prev) + 1) then Err (LevelSkipped i)
  else if negb (bool_decide (delegate prev = delegator cur)) then Err (BrokenChain i)
  else Ok tt.

Fixpoint check_links (i : nat) (prev : Delegation) (l : list Delegation) : Result unit DelegationError :=
  match l with
  | [] => Ok tt
  | cur :: l => let? _ := check_link i prev cur in check_links (S i) cur l
  end.

Definition validate_delegation_chain (a : HumannessAttestation) : Result unit DelegationError :=
  match delegation_chain a with
  | [] => Ok tt
  | first :: rest =>
      if negb (bool_decide (delegate (List.last rest first) = ha_attester a)) then Err AttesterMismatch
      else check_links 1 first rest
  end.

(** ** The document *)

Inductive HumannessEvent : Type :=
| Attested (a : HumannessAttestation)
| ProofOfLife (participants : list arr32) (attester : arr32) (timestamp_millis : Z).

#[global] Instance HumannessEvent_eq_dec : EqDecision HumannessEvent.
Proof. solve_decision. Defined.

Record HumannessDocument : Type := { hd_events : list HumannessEvent; hd_latest : gmap arr32 Z }.
Definition humanness_default : HumannessDocument := {| hd_events := []; hd_latest := ∅ |}.

(** What an event does to the derived state; [advance] keeps the later time and
    starts from zero. *)
Definition humanness_apply (m : gmap arr32 Z) (e : HumannessEvent) : gmap arr32 Z :=
  match e with
  | Attested a => advance m (ha_subject a) (ha_timestamp_millis a)
  | ProofOfLife participants _ ts => foldl (λ m p, advance m p ts) m participants
  end.

Definition attest (a : HumannessAttestation) (d : HumannessDocument) : HumannessDocument :=
  {| hd_events := hd_events d ++ [Attested a]; hd_latest := humanness_apply (hd_latest d) (Attested a) |}.

Definition record_proof_of_life (participants : list arr32) (attester : arr32) (ts : Z) (d : HumannessDocument) : HumannessDocument :=
  {| hd_events := hd_events d ++ [ProofOfLife participants attester ts];
     hd_latest := humanness_apply (hd_latest d) (ProofOfLife participants attester ts) |}.

Definition attest_validated (a : HumannessAttestation) (validate : bool) : M HumannessDocument DelegationError unit := λ d,
  match (if validate then validate_delegation_chain a else Ok tt) with
  | Err e => (d, Err e)
  | Ok _ => (attest a d, Ok tt)
  end.

Definition latest_attestation (m : arr32) (d : HumannessDocument) : option Z := hd_latest d !! m.

Definition derive_latest (events : list HumannessEvent) : gmap arr32 Z := foldl humanness_apply ∅ events.

Definition humanness_rebuild (d : HumannessDocument) : HumannessDocument :=
  {| hd_events := hd_events d; hd_latest := derive_latest (hd_events d) |}.

(** [contains] and [push], one event after the other. *)
Definition push_new {A} `{EqDecision A} (l : list A) (x : A) : list A := if bool_decide (x ∈ l) then l else l ++ [x].

(** The method [merge]. *)
Definition humanness_merge (d other : HumannessDocument) : HumannessDocument :=
  humanness_rebuild {| hd_events := foldl push_new (hd_events d) (hd_events other); hd_latest := hd_latest d |}.

(** The schema of the realm document, from [impl_document_schema!] in
    [lib.rs]. *)
Definition humanness_schema : DocumentSchema HumannessDocument := replacing_schema humanness_default.

(** ** Freshness *)

Class ExpF64 : Type := f64_exp : f64 → f64.

Definition FRESHNESS_GRACE_DAYS : f64 := Eval vm_compute in f64_of_Z 7.
(** [0.1], the nearest double. *)
Definition FRESHNESS_DECAY_RATE : f64 := Eval vm_compute in f64_ratio 1 10.
Definition MILLIS_PER_DAY : f64 :=
  Eval vm_compute in f64_mul (f64_mul (f64_mul (f64_of_Z 24) (f64_of_Z 60)) (f64_of_Z 60)) (f64_of_Z 1000).

Section Freshness.
Context `{ExpF64}.

Definition humanness_freshness (last now : Z) : f64 :=
  if (last <=? 0) || (now <? last) then f64_zero
  else
    let elapsed_days := f64_div (f64_of_Z (now - last)) MILLIS_PER_DAY in
    if SFleb elapsed_days FRESHNESS_GRACE_DAYS then f64_one
    else f64_exp (f64_mul (SFopp FRESHNESS_DECAY_RATE) (f64_sub elapsed_days FRESHNESS_GRACE_DAYS)).

Definition freshness_at (m : arr32) (now : Z) (d : HumannessDocument) : f64 :=
  match hd_latest d !! m with Some ts => humanness_freshness ts now | None => f64_zero end.
End Freshness.

(** ** Delegation chains *)

Definition linked (prev cur : Delegation) : Prop :=
  depth (del_level cur) = depth (del_level prev) + 1 ∧ delegate prev = delegator cur.

(** Every link continues the one before it. *)
Fixpoint chained (prev : Delegation) (l : list Delegation) : Prop :=
  match l with [] => True | cur :: l => linked prev cur ∧ chained cur l end.

Lemma check_link_ok i prev cur : check_link i prev cur = Ok tt ↔ linked prev cur.
Proof.
  unfold check_link, linked. destruct (Z.leb_spec (depth (del_level cur)) (depth (del_level prev))).
  { split; [done|]. lia. }
  destruct (Z.eqb_spec (depth (del_level cur)) (depth (del_level prev) + 1)); simpl; [|split; [done|lia]].
  case_bool_decide; simpl; naive_solver.
Qed.

Lemma check_links_ok i prev l : check_links i prev l = Ok tt ↔ chained prev l.
Proof.
  revert i prev. induction l as [|cur l IH]; intros i prev; simpl; [done|].
  rewrite <-(check_link_ok i). destruct (check_link i prev cur) as [[]|]; simpl; [rewrite IH; naive_solver|naive_solver].
Qed.

(** A chain is accepted exactly when it is empty, or ends at the attester and
    descends one level at a time with every delegate delegating next. *)
Lemma delegation_chain_spec a : validate_delegation_chain a = Ok tt ↔
  match delegation_chain a with
  | [] => True
  | first :: rest => delegate (List.last rest first) = ha_attester a ∧ chained first rest
  end.
Proof.
  unfold validate_delegation_chain. destruct (delegation_chain a) as [|first rest]; [done|].
  case_bool_decide; simpl; [rewrite check_links_ok|]; naive_solver.
Qed.

(** An accepted chain has at most six links. *)
Lemma chained_depth prev l : chained prev l → depth (del_level prev) + Z.of_nat (length l) <= 5.
Proof.
  revert prev. induction l as [|cur l IH]; intros prev; simpl; [destruct (del_level prev); simpl; lia|].
  intros [[Hd _] Hc]. specialize (IH cur Hc). lia.
Qed.

Lemma validated_chain_short a : validate_delegation_chain a = Ok tt → (length (delegation_chain a) <= 6)%nat.
Proof.
  rewrite delegation_chain_spec. destruct (delegation_chain a) as [|first rest]; simpl; [lia|].
  intros [_ Hc%chained_depth]. destruct (del_level first); simpl in Hc; lia.
Qed.

(** ** The derived state *)

Definition attests (e : HumannessEvent) (m : arr32) (ts : Z) : Prop :=
  match e with
  | Attested a => ha_subject a = m ∧ ha_timestamp_millis a = ts
  | ProofOfLife participants _ t => m ∈ participants ∧ t = ts
  end.

(** [t] is the latest time attested, or zero. *)
Definition latest_is (P : Z → Prop) (o : option Z) : Prop :=
  match o with
  | None => ∀ ts, ¬ P ts
  | Some t => 0 <= t ∧ (∃ ts, P ts) ∧ (∀ ts, P ts → ts <= t) ∧ (t = 0 ∨ P t)
  end.

Lemma latest_is_unique P o o' : latest_is P o → latest_is P o' → o = o'.
Proof.
  destruct o as [t|], o' as [t'|]; simpl; try naive_solver.
  intros (H0 & _ & Hle & Hin) (H0' & _ & Hle' & Hin').
  f_equal. destruct Hin as [->|Hin], Hin' as [->|Hin']; try done.
  - specialize (Hle t' Hin'). lia.
  - specialize (Hle' t Hin). lia.
  - specialize (Hle t' Hin'). specialize (Hle' t Hin). lia.
Qed.

Lemma latest_is_ext P Q o : (∀ ts, P ts ↔ Q ts) → latest_is P o → latest_is Q o.
Proof. intros HPQ. destruct o; simpl; [|naive_solver]. intros (?&[ts ?]&?&?). split_and!; naive_solver. Qed.

Lemma latest_advance P m k ts : latest_is P (m !! k) → latest_is (λ t, P t ∨ t = ts) (advance m k ts !! k).
Proof.
  unfold advance. rewrite lookup_insert_eq. destruct (m !! k) as [t|]; simpl.
  - intros (H0 & [t0 Ht0] & Hle & Hin). destruct (Z.ltb_spec t ts).
    + split_and!; [lia|eauto|intros t' [Ht'%Hle|]; lia|auto].
    + split_and!; [lia|eauto|intros t' [Ht'%Hle|]; lia|naive_solver].
  - intros Hnone. destruct (Z.ltb_spec 0 ts).
    + split_and!; [lia|eauto|intros t' [?|]; [exfalso; naive_solver|lia]|auto].
    + split_and!; [lia|eauto|intros t' [?|]; [exfalso; naive_solver|lia]|auto].
Qed.

Lemma advance_ne m k k' ts : k ≠ k' → advance m k ts !! k' = m !! k'.
Proof. intros. unfold advance. by rewrite lookup_insert_ne. Qed.

Lemma latest_advance_all ps P m k ts : latest_is P (m !! k) →
  latest_is (λ t, P t ∨ (k ∈ ps ∧ t = ts)) (foldl (λ m p, advance m p ts) m ps !! k).
Proof.
  revert P m. induction ps as [|p ps IH]; intros P m HP; simpl.
  { eapply latest_is_ext; [|done]. set_solver. }
  destruct (decide (p = k)) as [->|Hne].
  - eapply latest_is_ext; [|apply IH, (latest_advance P), HP]. set_solver.
  - eapply latest_is_ext; [|apply (IH P); by rewrite advance_ne]. set_solver.
Qed.

Lemma latest_apply e P m k : latest_is P (m !! k) → latest_is (λ t, P t ∨ attests e k t) (humanness_apply m e !! k).
Proof.
  intros HP. destruct e as [a|ps att ts]; simpl.
  - destruct (decide (ha_subject a = k)) as [<-|Hne].
    + eapply latest_is_ext; [|apply (latest_advance P), HP]. naive_solver.
    + rewrite advance_ne by done. eapply latest_is_ext; [|done]. naive_solver.
  - eapply latest_is_ext; [|apply (latest_advance_all ps P), HP]. naive_solver.
Qed.

(** The derived state is the latest attestation of each member, whatever the
    order of the events. *)
Lemma derive_latest_spec events k : latest_is (λ t, ∃ e, e ∈ events ∧ attests e k t) (derive_latest events !! k).
Proof.
  unfold derive_latest. assert (Hgen : ∀ P m, latest_is P (m !! k) →
    latest_is (λ t, P t ∨ ∃ e, e ∈ events ∧ attests e k t) (foldl humanness_apply m events !! k)).
  { induction events as [|e l IH]; intros P m HP; simpl.
    - eapply latest_is_ext; [|done]. set_solver.
    - eapply latest_is_ext; [|apply IH, (latest_apply e P), HP]. set_solver. }
  eapply latest_is_ext; [|apply (Hgen (λ _, False)); rewrite lookup_empty; simpl; tauto]. naive_solver.
Qed.

Lemma derive_latest_set l l' : (∀ e, e ∈ l ↔ e ∈ l') → derive_latest l = derive_latest l'.
Proof.
  intros Heq. apply map_eq. intros k. eapply latest_is_unique; [apply derive_latest_spec|].
  eapply latest_is_ext; [|apply derive_latest_spec]. set_solver.
Qed.

(** ** Documents *)

Definition humanness_ok (d : HumannessDocument) : Prop := hd_latest d = derive_latest (hd_events d).

Lemma attest_ok a d : humanness_ok d → humanness_ok (attest a d).
Proof. unfold humanness_ok. intros Hd. simpl. unfold derive_latest. rewrite foldl_app. simpl. by rewrite Hd. Qed.

Lemma proof_of_life_ok ps att ts d : humanness_ok d → humanness_ok (record_proof_of_life ps att ts d).
Proof. unfold humanness_ok. intros Hd. simpl. unfold derive_latest. rewrite foldl_app. simpl. by rewrite Hd. Qed.

Lemma elem_push_all {A} `{EqDecision A} (l l' : list A) x : x ∈ foldl push_new l l' ↔ x ∈ l ∨ x ∈ l'.
Proof.
  revert l. induction l' as [|y l' IH]; intros l; simpl; [set_solver|]. rewrite IH. unfold push_new.
  case_bool_decide; set_solver.
Qed.

Definition humanness_equiv (d d' : HumannessDocument) : Prop :=
  (∀ e, e ∈ hd_events d ↔ e ∈ hd_events d') ∧ hd_latest d = hd_latest d'.

(** The method [merge] is a union: with it replicas would converge. *)
#[export] Instance humanness_laws : MergeLaws humanness_ok humanness_equiv humanness_merge humanness_default.
Proof.
  assert (Hm : ∀ a b e, e ∈ hd_events (humanness_merge a b) ↔ e ∈ hd_events a ∨ e ∈ hd_events b)
    by (intros; apply elem_push_all).
  assert (Hok : ∀ a b, humanness_ok (humanness_merge a b)) by done.
  assert (Hext : ∀ d d', humanness_ok d → humanness_ok d' → (∀ e, e ∈ hd_events d ↔ e ∈ hd_events d') → humanness_equiv d d').
  { intros d d' Hd Hd' He. split; [done|]. rewrite Hd, Hd'. by apply derive_latest_set. }
  split; [split; [split|..]|..]; repeat intro; try done.
  - destruct H as [H1 H2]. split; [naive_solver|done].
  - destruct H as [H1 H2], H0 as [H3 H4]. split; [|congruence]. intros e. by rewrite H1, H3.
  - apply Hext; try done. intros e. destruct H3 as [H3 _], H4 as [H4 _]. rewrite !Hm. set_solver.
  - apply Hext; try done. intros e. rewrite !Hm. tauto.
  - apply Hext; try done. intros e. rewrite !Hm. tauto.
  - apply Hext; try done. intros e. rewrite !Hm. tauto.
  - apply Hext; try done. intros e. rewrite Hm. set_solver.
Qed.

(** The realm document does not use it: a peer's state replaces the local one,
    and what only the local log had is forgotten. *)
Lemma attestation_lost a : hd_latest (doc_merge (DocumentSchema := humanness_schema) (attest a humanness_default) humanness_default) = ∅.
Proof. reflexivity. Qed.

(** ** Freshness *)

Section FreshnessFacts.
Context `{ExpF64}.

Lemma freshness_never m now d : hd_latest d !! m = None → freshness_at m now d = f64_zero.
Proof. intros Hm. unfold freshness_at. by rewrite Hm. Qed.

(** An attestation with a time that is not positive is the same as none. *)
Lemma freshness_not_positive last now : last <= 0 → humanness_freshness last now = f64_zero.
Proof. intros Hl. unfold humanness_freshness. by rewrite (proj2 (Z.leb_le last 0) Hl). Qed.

Lemma freshness_future last now : now < last → humanness_freshness last now = f64_zero.
Proof. intros Hl. unfold humanness_freshness. by rewrite (proj2 (Z.ltb_lt now last) Hl), orb_true_r. Qed.
End FreshnessFacts.

(** Seven days are within the grace period, to the millisecond. *)
Lemma freshness_grace `{ExpF64} : humanness_freshness 1 604800001 = f64_one.
Proof. vm_compute. reflexivity. Qed.

Lemma freshness_decays (e : ExpF64) : humanness_freshness 1 604800002 =
  e (f64_mul (SFopp FRESHNESS_DECAY_RATE) (f64_sub (f64_div (f64_of_Z 604800001) MILLIS_PER_DAY) FRESHNESS_GRACE_DAYS)).
Proof. reflexivity. Qed.
