(* ===== verification/FocusDoc.v ===== *)
(** * The attention document of a realm

    Models [indras-sync-engine/src/attention.rs]: who focuses on which intention,
    as an append-only log of switches ordered by a Lamport clock, its merge, the
    attention it adds up to, and the hash-chained events it also carries; and
    [attention_sync.rs], which compares these chains with the advertised tips and
    filters the events of authors caught equivocating.  Identifiers of 16 bytes
    are byte lists; random identifiers and the time are arguments.  Sums of
    durations are taken without a bound. *)

From S2P Require Import Prelude Artifact Crypto Attention Peering Quorum Packet Pending EventStore Documents Convergence SyncDocs Humanness.

(** ** Events *)

Record FocusEvent : Type := {
  fe_event_id : list byte;
  fe_member : arr32;
  fe_intention_id : option (list byte);
  fe_timestamp_millis : Z;
  fe_logical_clock : Z;
}.

#[global] Instance FocusEvent_eq_dec : EqDecision FocusEvent.
Proof. solve_decision. Defined.

Definition focus_event_new (id : list byte) (now : Z) (member : arr32) (intention : option (list byte)) : FocusEvent :=
  {| fe_event_id := id; fe_member := member; fe_intention_id := intention; fe_timestamp_millis := now; fe_logical_clock := 0 |}.

(** Clock, then time, then identifier. *)
Definition focus_leb (a b : FocusEvent) : bool :=
  match fe_logical_clock a ?= fe_logical_clock b with
  | Lt => true
  | Gt => false
  | Eq => match fe_timestamp_millis a ?= fe_timestamp_millis b with
          | Lt => true
          | Gt => false
          | Eq => bytes_leb (fe_event_id a) (fe_event_id b)
          end
  end.

(** ** The document *)

Record AttentionDocument : Type := {
  ad_events : list FocusEvent;
  ad_current_focus : gmap arr32 (option (list byte));
  ad_chain_events : gmap arr32 (list AttentionSwitchEvent);
  ad_local_clock : Z;
}.
Definition attention_default : AttentionDocument :=
  {| ad_events := []; ad_current_focus := ∅; ad_chain_events := ∅; ad_local_clock := 0 |}.

Implicit Types d : AttentionDocument.

Definition with_clock (c : Z) (e : FocusEvent) : FocusEvent :=
  {| fe_event_id := fe_event_id e; fe_member := fe_member e; fe_intention_id := fe_intention_id e;
     fe_timestamp_millis := fe_timestamp_millis e; fe_logical_clock := c |}.

Definition switch_attention (id : list byte) (now : Z) (member : arr32) (intention : option (list byte)) d : AttentionDocument :=
  let clock := ad_local_clock d + 1 in
  {| ad_events := ad_events d ++ [with_clock clock (focus_event_new id now member intention)];
     ad_current_focus := <[member := intention]> (ad_current_focus d);
     ad_chain_events := ad_chain_events d; ad_local_clock := clock |}.

Definition focus_on_intention (id : list byte) (now : Z) (member : arr32) (intention : list byte) d : AttentionDocument :=
  switch_attention id now member (Some intention) d.
Definition clear_attention (id : list byte) (now : Z) (member : arr32) d : AttentionDocument :=
  switch_attention id now member None d.

Definition current_focus (member : arr32) d : option (list byte) :=
  match ad_current_focus d !! member with Some f => f | None => None end.
Definition members_focusing_on (intention : list byte) d : list arr32 :=
  (map_to_list (filter (λ kv, kv.2 = Some intention) (ad_current_focus d))).*1.

Definition insert_event (e : FocusEvent) d : AttentionDocument :=
  if any (λ x, bool_decide (fe_event_id x = fe_event_id e)) (ad_events d) then d
  else {| ad_events := ad_events d ++ [e];
          ad_current_focus := <[fe_member e := fe_intention_id e]> (ad_current_focus d);
          ad_chain_events := ad_chain_events d;
          ad_local_clock := Z.max (ad_local_clock d) (fe_logical_clock e) + 1 |}.

Definition handle_member_left (id : list byte) (now : Z) (member : arr32) d : AttentionDocument * option (list byte) :=
  match current_focus member d with
  | Some _ => (clear_attention id now member d, Some id)
  | None => (d, None)
  end.

Definition replay_focus (l : list FocusEvent) : gmap arr32 (option (list byte)) :=
  foldl (λ m e, <[fe_member e := fe_intention_id e]> m) ∅ l.

Definition attention_rebuild d : AttentionDocument :=
  let events := sort_by focus_leb (ad_events d) in
  {| ad_events := events; ad_current_focus := replay_focus events; ad_chain_events := ad_chain_events d;
     ad_local_clock := ad_local_clock d |}.

(** ** Merging *)

Definition add_focus (l : list FocusEvent) (e : FocusEvent) : list FocusEvent :=
  if any (λ x, bool_decide (fe_event_id x = fe_event_id e)) l then l else l ++ [e].

Section Chains.
Context `{Blake3, Postcard}.

Definition add_chained (l : list AttentionSwitchEvent) (e : AttentionSwitchEvent) : list AttentionSwitchEvent :=
  if any (λ x, (seq x =? seq e) && bool_decide (event_hash x = event_hash e)) l then l else l ++ [e].

Definition merge_chain (author : arr32) (events : list AttentionSwitchEvent) (m : gmap arr32 (list AttentionSwitchEvent))
    : gmap arr32 (list AttentionSwitchEvent) :=
  <[author := sort_by (by_key seq) (foldl add_chained (default [] (m !! author)) events)]> m.

Definition attention_merge d (other : AttentionDocument) : AttentionDocument :=
  let events := sort_by focus_leb (foldl add_focus (ad_events d) (ad_events other)) in
  let clock := foldl (λ c e, Z.max c (fe_logical_clock e)) (ad_local_clock d) events in
  let d := attention_rebuild {| ad_events := events; ad_current_focus := ad_current_focus d;
             ad_chain_events := ad_chain_events d; ad_local_clock := clock |} in
  {| ad_events := ad_events d; ad_current_focus := ad_current_focus d;
     ad_chain_events := for_entries merge_chain (ad_chain_events d) (ad_chain_events other);
     ad_local_clock := ad_local_clock d |}.

Definition store_chain_event (e : AttentionSwitchEvent) d : AttentionDocument :=
  {| ad_events := ad_events d; ad_current_focus := ad_current_focus d;
     ad_chain_events := <[author e := default [] (ad_chain_events d !! author e) ++ [e]]> (ad_chain_events d);
     ad_local_clock := ad_local_clock d |}.

Definition chain_events_for (a : arr32) d : list AttentionSwitchEvent := default [] (ad_chain_events d !! a).
Definition check_chain_equivocation (e : AttentionSwitchEvent) d : option EquivocationProof :=
  check_equivocation e (chain_events_for (author e) d).
End Chains.

(** ** Attention *)

Definition attention_of (acc : gmap (list byte) (gmap arr32 Z)) (i : list byte) (m : arr32) : Z :=
  default 0 (default ∅ (acc !! i) !! m).
Definition add_attention (i : list byte) (m : arr32) (duration : Z) (acc : gmap (list byte) (gmap arr32 Z)) : gmap (list byte) (gmap arr32 Z) :=
  let by_member := default ∅ (acc !! i) in <[i := <[m := default 0 (by_member !! m) + duration]> by_member]> acc.

(** One event: close the member's window, open another. *)
Definition focus_step (as_of : Z) (st : gmap arr32 (list byte * Z) * gmap (list byte) (gmap arr32 Z)) (e : FocusEvent)
    : gmap arr32 (list byte * Z) * gmap (list byte) (gmap arr32 Z) :=
  let '(windows, acc) := st in
  if as_of <? fe_timestamp_millis e then st
  else
    let acc := match windows !! fe_member e with
               | Some (prev, start) => add_attention prev (fe_member e) (Z.max 0 (fe_timestamp_millis e - start)) acc
               | None => acc
               end in
    let windows := delete (fe_member e) windows in
    (match fe_intention_id e with Some i => <[fe_member e := (i, fe_timestamp_millis e)]> windows | None => windows end, acc).

Definition close_window (as_of : Z) (acc : gmap (list byte) (gmap arr32 Z)) (w : arr32 * (list byte * Z)) : gmap (list byte) (gmap arr32 Z) :=
  add_attention w.2.1 w.1 (Z.max 0 (as_of - w.2.2)) acc.

Record IntentionAttention : Type := {
  ia_intention_id : list byte;
  ia_total_attention_millis : Z;
  ia_attention_by_member : gmap arr32 Z;
  ia_currently_focused_members : list arr32;
}.

(** Highest total first, then by identifier. *)
Definition rank_leb (a b : IntentionAttention) : bool :=
  match ia_total_attention_millis b ?= ia_total_attention_millis a with
  | Lt => true
  | Gt => false
  | Eq => bytes_leb (ia_intention_id a) (ia_intention_id b)
  end.

Definition attention_state (as_of : Z) (l : list FocusEvent) : gmap arr32 (list byte * Z) * gmap (list byte) (gmap arr32 Z) :=
  let '(windows, acc) := foldl (focus_step as_of) (∅, ∅) (sort_by focus_leb l) in
  (windows, foldl (close_window as_of) acc (map_to_list windows)).

Definition calculate_attention (as_of : Z) d : list IntentionAttention :=
  let '(windows, acc) := attention_state as_of (ad_events d) in
  sort_by rank_leb
    ((λ kv : list byte * gmap arr32 Z,
       {| ia_intention_id := kv.1; ia_total_attention_millis := sumZ snd (map_to_list kv.2); ia_attention_by_member := kv.2;
          ia_currently_focused_members := (retain (λ w, bool_decide (w.2.1 = kv.1)) (map_to_list windows)).*1 |})
     <$> map_to_list acc).

Definition intention_attention (i : list byte) (as_of : Z) d : IntentionAttention :=
  match retain (λ a, bool_decide (ia_intention_id a = i)) (calculate_attention as_of d) with
  | a :: _ => a
  | [] => {| ia_intention_id := i; ia_total_attention_millis := 0; ia_attention_by_member := ∅; ia_currently_focused_members := [] |}
  end.

(** The time of the member's next event, or [as_of]. *)
Definition next_time (as_of : Z) (m : arr32) (l : list FocusEvent) : Z :=
  match retain (λ e, bool_decide (fe_member e = m)) l with e :: _ => fe_timestamp_millis e | [] => as_of end.

Definition span_at (as_of : Z) (l : list FocusEvent) (idx : nat) : Z :=
  match l !! idx with
  | Some e => Z.max 0 (next_time as_of (fe_member e) (drop (S idx) l) - fe_timestamp_millis e)
  | None => 0
  end.

Definition compute_attention_millis (idxs : list nat) (as_of : Z) d : Z :=
  sumZ (span_at as_of (sort_by focus_leb (ad_events d))) idxs.

(** ** Attention equals the spans between switches *)

(** The spans of a member on an intention, event by event. *)
Fixpoint spans (as_of : Z) (i : list byte) (m : arr32) (l : list FocusEvent) : Z :=
  match l with
  | [] => 0
  | e :: l =>
      (if bool_decide (fe_member e = m ∧ fe_intention_id e = Some i)
       then Z.max 0 (next_time as_of m l - fe_timestamp_millis e) else 0) + spans as_of i m l
  end.

Lemma attention_of_add i m dur acc j n :
  attention_of (add_attention i m dur acc) j n = attention_of acc j n + (if bool_decide (i = j ∧ m = n) then dur else 0).
Proof.
  unfold attention_of, add_attention. destruct (decide (i = j)) as [<-|Hij].
  - rewrite lookup_insert_eq. simpl. destruct (decide (m = n)) as [<-|Hmn].
    + rewrite lookup_insert_eq, bool_decide_true by done. simpl. lia.
    + rewrite lookup_insert_ne, bool_decide_false by naive_solver. lia.
  - rewrite lookup_insert_ne, bool_decide_false by naive_solver. lia.
Qed.

(** What an open window will bring. *)
Definition window_span (upto : Z) (i : list byte) (w : option (list byte * Z)) : Z :=
  match w with Some (j, start) => if bool_decide (j = i) then Z.max 0 (upto - start) else 0 | None => 0 end.

Lemma close_windows as_of i m (l : list (arr32 * (list byte * Z))) acc : NoDup l.*1 →
  attention_of (foldl (close_window as_of) acc l) i m =
  attention_of acc i m + window_span as_of i (list_to_map (M := gmap arr32 (list byte * Z)) l !! m).
Proof.
  revert acc. induction l as [|[n [j start]] l IH]; intros acc Hnd; simpl; [rewrite lookup_empty; simpl; lia|].
  apply NoDup_cons in Hnd as [Hn Hnd]. rewrite IH by done. unfold close_window. simpl. rewrite attention_of_add.
  destruct (decide (n = m)) as [<-|Hne].
  - rewrite lookup_insert_eq, (not_elem_of_list_to_map_1 _ _ Hn). simpl.
    destruct (bool_decide_reflect (j = i)); [rewrite bool_decide_true by done|rewrite bool_decide_false by naive_solver]; lia.
  - rewrite lookup_insert_ne, bool_decide_false by naive_solver. lia.
Qed.

Lemma next_time_cons as_of m e l :
  next_time as_of m (e :: l) = if bool_decide (fe_member e = m) then fe_timestamp_millis e else next_time as_of m l.
Proof. unfold next_time. simpl. by destruct (bool_decide _). Qed.

Lemma focus_fold as_of i m l windows acc : Forall (λ e, fe_timestamp_millis e <= as_of) l →
  let '(windows', acc') := foldl (focus_step as_of) (windows, acc) l in
  attention_of acc' i m + window_span as_of i (windows' !! m) =
  attention_of acc i m + window_span (next_time as_of m l) i (windows !! m) + spans as_of i m l.
Proof.
  revert windows acc. induction l as [|e l IH]; intros windows acc Hl; simpl; [unfold next_time; simpl; lia|].
  apply Forall_cons in Hl as [He Hl]. destruct (Z.ltb_spec as_of (fe_timestamp_millis e)); [lia|].
  set (acc1 := match windows !! fe_member e with Some (prev, start) => _ | None => acc end).
  set (win1 := match fe_intention_id e with Some j => _ | None => _ end).
  specialize (IH win1 acc1 Hl). destruct (foldl (focus_step as_of) (win1, acc1) l) as [w' a'].
  rewrite IH. clear IH. rewrite next_time_cons. unfold acc1, win1. destruct (decide (fe_member e = m)) as [E|E].
  - rewrite E, bool_decide_true by done.
    assert (attention_of match windows !! m with Some (prev, start) => add_attention prev m (Z.max 0 (fe_timestamp_millis e - start)) acc | None => acc end i m =
      attention_of acc i m + window_span (fe_timestamp_millis e) i (windows !! m)) as ->.
    { destruct (windows !! m) as [[prev start]|]; simpl; [|lia]. rewrite attention_of_add.
      destruct (bool_decide_reflect (prev = i)); [rewrite bool_decide_true by done|rewrite bool_decide_false by naive_solver]; lia. }
    destruct (fe_intention_id e) as [j|]; simpl.
    + rewrite lookup_insert_eq. simpl. destruct (bool_decide_reflect (j = i)).
      * rewrite bool_decide_true by (split; congruence). lia.
      * rewrite bool_decide_false by naive_solver. lia.
    + rewrite lookup_delete_eq, bool_decide_false by naive_solver. simpl. lia.
  - rewrite (bool_decide_false (fe_member e = m)), (bool_decide_false (_ ∧ _)) by naive_solver.
    assert (attention_of match windows !! fe_member e with Some (prev, start) => add_attention prev (fe_member e) (Z.max 0 (fe_timestamp_millis e - start)) acc | None => acc end i m =
      attention_of acc i m) as ->.
    { destruct (windows !! fe_member e) as [[prev start]|]; [|done]. rewrite attention_of_add, bool_decide_false by naive_solver. lia. }
    assert (match fe_intention_id e with Some j => <[fe_member e := (j, fe_timestamp_millis e)]> (delete (fe_member e) windows) | None => delete (fe_member e) windows end !! m = windows !! m) as ->.
    { destruct (fe_intention_id e); rewrite ?lookup_insert_ne, lookup_delete_ne by done; done. }
    lia.
Qed.

Lemma attention_state_spec as_of l i m : Forall (λ e, fe_timestamp_millis e <= as_of) l →
  attention_of (attention_state as_of l).2 i m = spans as_of i m (sort_by focus_leb l).
Proof.
  intros Hl. unfold attention_state.
  assert (Hs : Forall (λ e, fe_timestamp_millis e <= as_of) (sort_by focus_leb l)).
  { rewrite Forall_forall in *. intros e He. apply Hl. by rewrite (elem_of_Permutation_proper _ _ _ (sort_by_perm focus_leb l)) in He. }
  pose proof (focus_fold as_of i m _ ∅ ∅ Hs) as Hf.
  destruct (foldl (focus_step as_of) (∅, ∅) _) as [windows acc]. simpl.
  rewrite close_windows by apply NoDup_fst_map_to_list. rewrite list_to_map_to_list, Hf, lookup_empty.
  unfold attention_of. rewrite lookup_empty. simpl. rewrite lookup_empty. simpl. lia.
Qed.

(** The positions of a member's events on an intention. *)
Definition focus_indices (i : list byte) (m : arr32) (l : list FocusEvent) : list nat :=
  retain (λ k, match l !! k with Some e => bool_decide (fe_member e = m ∧ fe_intention_id e = Some i) | None => false end)
    (List.seq 0 (length l)).

Lemma spans_indices as_of i m l : spans as_of i m l = sumZ (span_at as_of l) (focus_indices i m l).
Proof.
  induction l as [|e l IH]; [done|]. cbn [spans]. rewrite IH. unfold focus_indices. cbn [length List.seq retain]. simpl lookup.
  rewrite <-fmap_S_seq.
  assert (Hs : sumZ (span_at as_of (e :: l)) (retain (λ k, match (e :: l) !! k with Some x => bool_decide (fe_member x = m ∧ fe_intention_id x = Some i) | None => false end) (S <$> List.seq 0 (length l))) =
    sumZ (span_at as_of l) (retain (λ k, match l !! k with Some x => bool_decide (fe_member x = m ∧ fe_intention_id x = Some i) | None => false end) (List.seq 0 (length l)))).
  { induction (List.seq 0 (length l)) as [|k ks IHk]; [done|]. cbn [fmap list_fmap retain]. simpl lookup at 1.
    destruct (l !! k) eqn:Ek; simpl; [|apply IHk]. destruct (bool_decide _); [|apply IHk].
    rewrite !sumZ_cons, IHk. f_equal. }
  destruct (bool_decide_reflect (fe_member e = m ∧ fe_intention_id e = Some i)) as [[Em _]|]; rewrite ?sumZ_cons, Hs; [|lia].
  f_equal. unfold span_at. simpl. by rewrite Em.
Qed.

(** The attention a member has given to an intention is what the document
    computes for the positions of all of that member's events on it. *)
Lemma attention_backed as_of d a m : Forall (λ e, fe_timestamp_millis e <= as_of) (ad_events d) →
  a ∈ calculate_attention as_of d →
  default 0 (ia_attention_by_member a !! m) =
  compute_attention_millis (focus_indices (ia_intention_id a) m (sort_by focus_leb (ad_events d))) as_of d ∧
  ia_total_attention_millis a = sumZ snd (map_to_list (ia_attention_by_member a)).
Proof.
  intros Hl. unfold calculate_attention. pose proof (attention_state_spec as_of (ad_events d)) as Hspec.
  destruct (attention_state as_of (ad_events d)) as [windows acc] eqn:E. simpl in Hspec.
  rewrite (elem_of_Permutation_proper _ _ _ (sort_by_perm rank_leb _)), list_elem_of_fmap.
  intros ([i by_member] & -> & Hin%elem_of_map_to_list). simpl. split; [|done].
  unfold compute_attention_millis. rewrite <-spans_indices, <-Hspec by done. unfold attention_of. by rewrite Hin.
Qed.

(** Every intention a member has focused on is listed. *)
Lemma attention_listed as_of d i m : Forall (λ e, fe_timestamp_millis e <= as_of) (ad_events d) →
  0 < compute_attention_millis (focus_indices i m (sort_by focus_leb (ad_events d))) as_of d →
  ∃ a, a ∈ calculate_attention as_of d ∧ ia_intention_id a = i.
Proof.
  intros Hl. unfold compute_attention_millis, calculate_attention. rewrite <-spans_indices.
  rewrite <-(attention_state_spec as_of _ i m Hl).
  destruct (attention_state as_of (ad_events d)) as [windows acc]. simpl. unfold attention_of.
  destruct (acc !! i) as [by_member|] eqn:E; simpl; [|rewrite lookup_empty; simpl; lia]. intros _.
  eexists. rewrite (elem_of_Permutation_proper _ _ _ (sort_by_perm rank_leb _)), list_elem_of_fmap. split.
  - exists (i, by_member). split; [reflexivity|]. by apply elem_of_map_to_list.
  - done.
Qed.

(** ** Merging converges *)

#[export] Instance focus_preorder : TotalPreorder focus_leb.
Proof.
  unfold focus_leb. split; intros x y; [|intros z];
    repeat (match goal with |- context [?a ?= ?b] => destruct (Z.compare_spec a b) end); try lia; auto using bytes_leb_total.
  eauto using bytes_leb_trans.
Qed.

Lemma focus_leb_antisym x y : focus_leb x y = true → focus_leb y x = true → fe_event_id x = fe_event_id y.
Proof.
  unfold focus_leb. rewrite (Z.compare_antisym (fe_logical_clock x)), (Z.compare_antisym (fe_timestamp_millis x)).
  destruct (_ ?= _); try done; simpl; destruct (_ ?= _); try done; simpl. apply bytes_leb_antisym.
Qed.

(** An identifier names one event. *)
Definition focus_coherent (U : list byte → option FocusEvent) (l : list FocusEvent) : Prop :=
  NoDup (fe_event_id <$> l) ∧ Forall (λ e, U (fe_event_id e) = Some e) l.

Lemma add_focus_elem U l e x : Forall (λ e, U (fe_event_id e) = Some e) l → U (fe_event_id e) = Some e →
  x ∈ add_focus l e ↔ x ∈ l ∨ x = e.
Proof.
  intros Hl He. unfold add_focus. destruct (any _ l) eqn:E; [|set_solver].
  apply any_true in E as (y & Hy & Ey%bool_decide_eq_true). rewrite Forall_forall in Hl.
  assert (y = e) as -> by (specialize (Hl y Hy); congruence). set_solver.
Qed.

Lemma add_focus_coherent U l e : focus_coherent U l → U (fe_event_id e) = Some e → focus_coherent U (add_focus l e).
Proof.
  intros [Hn Hl] He. unfold add_focus. destruct (any _ l) eqn:E; [done|]. split.
  - rewrite fmap_app. apply NoDup_app. split_and!; [done| |apply NoDup_singleton].
    intros id (x & -> & Hx)%list_elem_of_fmap Hid. simpl in Hid. apply list_elem_of_singleton in Hid.
    rewrite any_false in E. specialize (E x Hx). by apply bool_decide_eq_false in E.
  - apply Forall_app_2; [done|]. by apply Forall_singleton.
Qed.

Lemma add_all_focus U l l' : focus_coherent U l → Forall (λ e, U (fe_event_id e) = Some e) l' →
  focus_coherent U (foldl add_focus l l') ∧ ∀ x, x ∈ foldl add_focus l l' ↔ x ∈ l ∨ x ∈ l'.
Proof.
  revert l. induction l' as [|e l' IH]; intros l Hl Hl'; simpl; [set_solver|].
  apply Forall_cons in Hl' as [He Hl']. destruct (IH (add_focus l e)) as [H1 H2]; auto using add_focus_coherent.
  split; [done|]. intros x. rewrite H2, (add_focus_elem U) by (done || apply Hl). set_solver.
Qed.

Lemma focus_coherent_perm U l l' : l ≡ₚ l' → focus_coherent U l → focus_coherent U l'.
Proof. intros Hp [??]. split; by rewrite <-Hp. Qed.

Section MergeFacts.
Context `{Blake3, Postcard}.

Definition attention_ok (U : list byte → option FocusEvent) (V : arr32 → option AttentionSwitchEvent) d : Prop :=
  focus_coherent U (ad_events d) ∧ ∀ a e, e ∈ chain_events_for a d → V (event_hash e) = Some e.

(** The same events, whatever their order; the clock belongs to the replica. *)
Definition attention_equiv d (d' : AttentionDocument) : Prop :=
  (∀ e, e ∈ ad_events d ↔ e ∈ ad_events d') ∧ (∀ a e, e ∈ chain_events_for a d ↔ e ∈ chain_events_for a d').

Lemma add_all_chained V l l' x : (∀ e, e ∈ l → V (event_hash e) = Some e) → (∀ e, e ∈ l' → V (event_hash e) = Some e) →
  x ∈ foldl add_chained l l' ↔ x ∈ l ∨ x ∈ l'.
Proof.
  revert l. induction l' as [|e l' IH]; intros l Hl Hl'; simpl; [set_solver|].
  assert (Hadd : ∀ y, y ∈ add_chained l e ↔ y ∈ l ∨ y = e).
  { intros y. unfold add_chained. destruct (any _ l) eqn:E; [|set_solver].
    apply any_true in E as (z & Hz & [_ Ez%bool_decide_eq_true]%andb_true_iff).
    assert (z = e) as ->. { pose proof (Hl z Hz). pose proof (Hl' e ltac:(left)). congruence. } set_solver. }
  rewrite IH, Hadd; [set_solver| |set_solver]. intros y [?| ->]%Hadd; [auto|apply Hl'; left].
Qed.

Lemma chain_merge_elem U V d d' a e : attention_ok U V d → attention_ok U V d' →
  e ∈ chain_events_for a (attention_merge d d') ↔ e ∈ chain_events_for a d ∨ e ∈ chain_events_for a d'.
Proof.
  intros [_ Hd] [_ Hd']. unfold chain_events_for at 1. simpl.
  rewrite (for_entries_lookup (λ _ o l, Some (sort_by (by_key seq) (foldl add_chained (default [] o) l))) _ _ _ _ (λ _, True)); try done.
  - unfold chain_events_for in *. specialize (Hd a). specialize (Hd' a).
    destruct (ad_chain_events d' !! a) as [l'|] eqn:E; simpl in *; [|set_solver].
    rewrite (elem_of_Permutation_proper _ _ _ (sort_by_perm (by_key seq) _)). by apply add_all_chained with V.
  - intros. unfold merge_chain. by rewrite lookup_insert_eq.
  - intros. unfold merge_chain. by rewrite lookup_insert_ne.
Qed.

Lemma focus_merge_elem U V d d' : attention_ok U V d → attention_ok U V d' →
  focus_coherent U (ad_events (attention_merge d d')) ∧
  ∀ e, e ∈ ad_events (attention_merge d d') ↔ e ∈ ad_events d ∨ e ∈ ad_events d'.
Proof.
  intros [Hd _] [[_ Hd'] _]. destruct (add_all_focus U _ _ Hd Hd') as [H1 H2].
  assert (Hp : ad_events (attention_merge d d') ≡ₚ foldl add_focus (ad_events d) (ad_events d')).
  { simpl. by rewrite !sort_by_perm. }
  split; [by eapply focus_coherent_perm|]. intros e. by rewrite Hp, H2.
Qed.

#[export] Instance attention_laws U V : MergeLaws (attention_ok U V) attention_equiv attention_merge attention_default.
Proof.
  assert (Hok : ∀ a b, attention_ok U V a → attention_ok U V b → attention_ok U V (attention_merge a b)).
  { intros a b Ha Hb. split; [by apply (focus_merge_elem U V)|]. intros x e. rewrite (chain_merge_elem U V) by done.
    intros [|]; [by eapply Ha|by eapply Hb]. }
  assert (Hz : attention_ok U V attention_default).
  { split; [split; constructor|]. intros a e. unfold chain_events_for. simpl. rewrite lookup_empty. set_solver. }
  assert (Hz1 : ∀ a e, e ∉ chain_events_for a attention_default) by (intros a e; unfold chain_events_for; simpl; rewrite lookup_empty; set_solver).
  split; [split; [split|..]|..]; try done; unfold attention_equiv.
  - intros a b [??]. split; intros; symmetry; auto.
  - intros a b c [Hab Hab'] [Hbc Hbc']. split; intros; [by rewrite Hab, Hbc|by rewrite Hab', Hbc'].
  - intros a a' b b' Ha Ha' Hb Hb' [H1 H1'] [H2 H2']. split; intros.
    + by rewrite (proj2 (focus_merge_elem U V a b Ha Hb)), (proj2 (focus_merge_elem U V a' b' Ha' Hb')), H1, H2.
    + by rewrite !(chain_merge_elem U V), H1', H2'.
  - intros a b Ha Hb. split; intros.
    + rewrite (proj2 (focus_merge_elem U V a b Ha Hb)), (proj2 (focus_merge_elem U V b a Hb Ha)). tauto.
    + rewrite !(chain_merge_elem U V) by done. tauto.
  - intros a b c Ha Hb Hc. split; intros.
    + rewrite (proj2 (focus_merge_elem U V a _ Ha (Hok _ _ Hb Hc))), (proj2 (focus_merge_elem U V _ c (Hok _ _ Ha Hb) Hc)),
        (proj2 (focus_merge_elem U V b c Hb Hc)), (proj2 (focus_merge_elem U V a b Ha Hb)). tauto.
    + rewrite !(chain_merge_elem U V) by auto. tauto.
  - intros a Ha. split; intros.
    + rewrite (proj2 (focus_merge_elem U V a a Ha Ha)). tauto.
    + rewrite !(chain_merge_elem U V) by auto. tauto.
  - intros a Ha. split; intros.
    + rewrite (proj2 (focus_merge_elem U V _ a Hz Ha)). simpl. set_solver.
    + rewrite !(chain_merge_elem U V) by auto. naive_solver.
Qed.

(** After a merge the log is sorted, the focus is its replay, and the order is
    canonical: replicas that know the same events hold the same log. *)
Lemma merged_sorted d d' :
  StronglySorted (λ x y, focus_leb x y = true) (ad_events (attention_merge d d')) ∧
  ad_current_focus (attention_merge d d') = replay_focus (ad_events (attention_merge d d')).
Proof. split; [|done]. simpl. apply sort_by_sorted. apply _. Qed.

Lemma merged_logs_equal U V a b c e : attention_ok U V a → attention_ok U V b → attention_ok U V c → attention_ok U V e →
  attention_equiv (attention_merge a b) (attention_merge c e) →
  ad_events (attention_merge a b) = ad_events (attention_merge c e) ∧
  ad_current_focus (attention_merge a b) = ad_current_focus (attention_merge c e).
Proof.
  intros Ha Hb Hc He [Heq _].
  destruct (merged_sorted a b) as [S1 ->], (merged_sorted c e) as [S2 ->].
  destruct (focus_merge_elem U V a b Ha Hb) as [[N1 C1] _], (focus_merge_elem U V c e Hc He) as [[N2 C2] _].
  assert (ad_events (attention_merge a b) = ad_events (attention_merge c e)) as E; [|by rewrite E].
  eapply StronglySorted_unique_strong; [|done|done|].
  - intros x y Hx Hy Hxy Hyx. pose proof (focus_leb_antisym _ _ Hxy Hyx) as Eid.
    rewrite Forall_forall in C1, C2. specialize (C1 x Hx). specialize (C2 y Hy). congruence.
  - apply NoDup_Permutation; [by eapply NoDup_fmap_1|by eapply NoDup_fmap_1|done].
Qed.
End MergeFacts.

(** ** The clock *)

(** A replica's clock is not behind any event it has. *)
Definition clock_ok d : Prop := Forall (λ e, fe_logical_clock e <= ad_local_clock d) (ad_events d).

Lemma switch_clock id now m i d : clock_ok d → clock_ok (switch_attention id now m i d).
Proof.
  intros Hd. unfold clock_ok. simpl. apply Forall_app_2; [|by apply Forall_singleton; simpl; lia].
  eapply Forall_impl; [exact Hd|]. simpl. intros. lia.
Qed.

Lemma insert_clock e d : clock_ok d → clock_ok (insert_event e d).
Proof.
  intros Hd. unfold insert_event. destruct (any _ _); [done|]. unfold clock_ok. simpl.
  apply Forall_app_2; [|by apply Forall_singleton; lia]. eapply Forall_impl; [exact Hd|]. simpl. intros. lia.
Qed.

Lemma fold_clock (l : list FocusEvent) c :
  c <= foldl (λ c e, Z.max c (fe_logical_clock e)) c l ∧
  Forall (λ e, fe_logical_clock e <= foldl (λ c e, Z.max c (fe_logical_clock e)) c l) l.
Proof.
  revert c. induction l as [|e l IH]; intros c; simpl; [split; [lia|constructor]|].
  destruct (IH (Z.max c (fe_logical_clock e))) as [H1 H2]. split; [lia|]. constructor; [lia|done].
Qed.

Lemma merge_clock `{Blake3, Postcard} d d' : clock_ok (attention_merge d d').
Proof.
  unfold clock_ok. simpl. pose proof (fold_clock (sort_by focus_leb (foldl add_focus (ad_events d) (ad_events d'))) (ad_local_clock d)) as [_ Hc].
  rewrite Forall_forall in *. intros e He. rewrite (elem_of_Permutation_proper _ _ _ (sort_by_perm focus_leb _)) in He. auto.
Qed.

(** So an own switch comes after every event known: a sorted log stays sorted,
    and the focus stays the replay of the log. *)
Lemma switch_after_all id now m i d e : clock_ok d → e ∈ ad_events d →
  focus_leb e (with_clock (ad_local_clock d + 1) (focus_event_new id now m i)) = true ∧
  focus_leb (with_clock (ad_local_clock d + 1) (focus_event_new id now m i)) e = false.
Proof.
  intros Hd He. unfold clock_ok in Hd. rewrite Forall_forall in Hd. specialize (Hd e He). unfold focus_leb. simpl.
  rewrite (Z.compare_antisym (fe_logical_clock e)). rewrite (proj2 (Z.compare_lt_iff (fe_logical_clock e) _)) by lia. done.
Qed.

Definition attention_normal d : Prop :=
  StronglySorted (λ x y, focus_leb x y = true) (ad_events d) ∧ ad_current_focus d = replay_focus (ad_events d) ∧ clock_ok d.

Lemma switch_normal id now m i d : attention_normal d → attention_normal (switch_attention id now m i d).
Proof.
  intros (Hs & Hf & Hc). split_and!; [| |by apply switch_clock].
  - simpl. rewrite <-(sort_by_snoc focus_leb); [apply sort_by_sorted, _|done|].
    apply Forall_forall. intros e He. by apply (switch_after_all id now m i d).
  - simpl. unfold replay_focus. rewrite foldl_app. simpl. unfold replay_focus in Hf. by rewrite Hf.
Qed.

Lemma merge_normal `{Blake3, Postcard} d d' : attention_normal (attention_merge d d').
Proof. destruct (merged_sorted d d'). split_and!; try done. apply merge_clock. Qed.

(** [insert_event] does not keep that: an event that is older than the log takes
    over the focus until the next merge. *)
Lemma insert_takes_focus e d : any (λ x, bool_decide (fe_event_id x = fe_event_id e)) (ad_events d) = false →
  current_focus (fe_member e) (insert_event e d) = fe_intention_id e.
Proof. intros Hn. unfold insert_event, current_focus. rewrite Hn. simpl. by rewrite lookup_insert_eq. Qed.

(** ** Gaps and slashed authors *)

Record ChainGap : Type := { gap_author : arr32; gap_local_seq : Z; gap_remote_seq : Z; gap_missing : Z }.

Definition last_seq (l : list AttentionSwitchEvent) : Z := match last l with Some e => seq e | None => 0 end.

Definition detect_gaps d (t : AttentionTipDocument) : list ChainGap :=
  omap (λ kv : arr32 * AttentionTip,
    let local := last_seq (chain_events_for kv.1 d) in
    if local <? tip_seq kv.2
    then Some {| gap_author := kv.1; gap_local_seq := local; gap_remote_seq := tip_seq kv.2; gap_missing := tip_seq kv.2 - local |}
    else None) (map_to_list (tips t)).

Inductive EventFinality : Type := Observed | Final.

Section Slashing.
Context `{Blake3, Postcard, Dilithium}.

Definition validate_synced_chains d : list (arr32 * ValidationError) :=
  omap (λ kv : arr32 * list AttentionSwitchEvent,
    match kv.2 with
    | [] => None
    | _ => match validate_chain kv.2 None with Err e => Some (kv.1, e) | Ok _ => None end
    end) (map_to_list (ad_chain_events d)).

Definition reconstruct_attention_state d : gmap arr32 AuthorState :=
  omap (λ l : list AttentionSwitchEvent,
    match l with [] => None | _ => match validate_chain l None with Ok s => Some s | Err _ => None end end) (ad_chain_events d).

Definition current_attention_targets d : gmap arr32 (option ArtifactId) := current_attention <$> reconstruct_attention_state d.

Definition classify_event_finality (e : AttentionSwitchEvent) (certs : CertificateDocument) (k : nat) : EventFinality :=
  if has_quorum (event_hash e) k certs then Final else Observed.

Definition is_slashed (a : arr32) (fraud : FraudEvidenceDocument) : bool := is_fraudulent a fraud.

Definition filter_slashed_events (events : list AttentionSwitchEvent) (fraud : FraudEvidenceDocument)
    (certs : CertificateDocument) (k : nat) : list AttentionSwitchEvent :=
  retain (λ e, if negb (is_slashed (author e) fraud) then true else has_quorum (event_hash e) k certs) events.

(** A kept event is by an author nobody accuses, or has its quorum. *)
Lemma filter_slashed_spec events fraud certs k e :
  e ∈ filter_slashed_events events fraud certs k ↔
  e ∈ events ∧ ((∀ s, ¬ accused fraud (author e) s) ∨ classify_event_finality e certs k = Final).
Proof.
  unfold filter_slashed_events. rewrite elem_of_retain. f_equiv. unfold is_slashed, classify_event_finality.
  pose proof (is_fraudulent_spec (author e) fraud) as Hs.
  destruct (is_fraudulent (author e) fraud); simpl.
  - destruct (proj1 Hs eq_refl) as [s Hacc]. destruct (has_quorum _ _ _); naive_solver.
  - split; [|done]. intros _. left. intros s Hacc. assert (false = true) as [=] by (apply Hs; eauto).
Qed.

(** Both documents only grow by merging, so evidence and certificates are never
    lost: a slashed author stays slashed. *)
Lemma slashing_monotone a fraud fraud' : fraud_ok fraud → fraud_ok fraud' →
  is_slashed a fraud = true → is_slashed a (fraud_merge fraud fraud') = true ∧ is_slashed a (fraud_merge fraud' fraud) = true.
Proof.
  unfold is_slashed. rewrite !is_fraudulent_spec. intros Hf Hf' [s Hs].
  split; exists s; rewrite accused_merge by done; auto.
Qed.

(** Finality counts signatures and does not verify them: a certificate with [k]
    entries that no witness made is as good as a valid one. *)
Lemma forged_quorum e k scope : k ≤ 255 →
  let forged := {| qc_version := 1; qc_event_hash := event_hash e; intention_scope := scope;
                   witnesses := (λ n, {| witness := arr32_fill (byte_of_Z (Z.of_nat n)); ws_sig := [] |}) <$> List.seq 0 (Z.to_nat k) |} in
  classify_event_finality e (certificate_document_merge certificate_document_default
    {| certificates := {[event_hash e := forged]} |}) (Z.to_nat k) = Final.
Proof.
  intros Hk forged. unfold classify_event_finality, has_quorum, certificate_document_merge, for_entries.
  cbn [certificates]. rewrite map_to_list_singleton. simpl. unfold store_certificate. rewrite lookup_empty. simpl.
  rewrite lookup_insert_eq. simpl. rewrite length_fmap, length_seq, Nat.leb_refl. done.
Qed.
End Slashing.

(** A replica without any event of an author does not miss a chain whose tip is
    its genesis. *)
Lemma genesis_gap_missed d t a tip : chain_events_for a d = [] → tips t !! a = Some tip → tip_seq tip = 0 →
  ∀ g, g ∈ detect_gaps d t → gap_author g ≠ a.
Proof.
  intros Hd Ht H0 g ([a' tip'] & Hin%elem_of_map_to_list & Hg)%list_elem_of_omap Ea. simpl in Hg.
  destruct (_ <? _) eqn:E in Hg; simplify_eq/=. rewrite Hd in E. unfold last_seq in E. simpl in E. rewrite H0 in E. done.
Qed.
