(* ===== verification/Gratitude.v ===== *)
(** * Blessings and tokens of gratitude

    Models, of [indras-sync-engine/src]: [blessing.rs] (attention released to
    validate a claim), [token_of_gratitude.rs] (the tokens minted for it, as an
    event log with derived state), [token_valuation.rs] (what a token is worth to
    an observer, in binary64 arithmetic with [powf] as a parameter), and the
    compositions of [realm_blessings.rs] and [realm_tokens.rs] over the replicas
    of [Documents.v].  Identifiers of 16 bytes are byte lists; fresh identifiers
    and the time are arguments. *)

From S2P Require Import Prelude Float Artifact Crypto Attention Peering Quorum Packet Pending EventStore Documents Convergence SyncDocs Humanness FocusDoc.
From Stdlib Require Import Floats.SpecFloat.

(** ** Blessings *)

Record ClaimId : Type := { cl_intention_id : list byte; cl_claimant : arr32 }.

#[global] Instance ClaimId_eq_dec : EqDecision ClaimId.
Proof. solve_decision. Defined.

Record Blessing : Type := {
  bl_blessing_id : list byte;
  bl_claim_id : ClaimId;
  bl_blesser : arr32;
  bl_event_indices : list nat;
  bl_timestamp_millis : Z;
}.

(** By time, then by identifier. *)
Definition blessing_leb (a b : Blessing) : bool :=
  match bl_timestamp_millis a ?= bl_timestamp_millis b with
  | Lt => true
  | Gt => false
  | Eq => bytes_leb (bl_blessing_id a) (bl_blessing_id b)
  end.

Definition bless_key (blesser : arr32) (intention : list byte) : arr32 * list byte := (blesser, intention).

Record BlessingDocument : Type := {
  bd_blessings : list Blessing;
  bd_blessed_indices : gmap (arr32 * list byte) (gset nat);
}.
Definition blessing_default : BlessingDocument := {| bd_blessings := []; bd_blessed_indices := ∅ |}.

Inductive BlessingError : Type :=
| EventAlreadyBlessed (event_index : nat) (intention_id : list byte)
| NoAttentionAvailable
| ClaimNotFound
| NotOwnerOfEvents.

Definition blessing_error_message (e : BlessingError) : string :=
  match e with
  | EventAlreadyBlessed i _ =>
      "Attention event " +:+ (i64_to_string (Z.of_nat i) +:+ " has already been blessed for this quest")
  | NoAttentionAvailable => "No attention events available to bless"
  | ClaimNotFound => "Quest claim not found"
  | NotOwnerOfEvents => "Member does not own the specified attention events"
  end.

(** The index entry of one blessing. *)
Definition mark_blessed (m : gmap (arr32 * list byte) (gset nat)) (b : Blessing) : gmap (arr32 * list byte) (gset nat) :=
  let key := bless_key (bl_blesser b) (cl_intention_id (bl_claim_id b)) in
  <[key := default ∅ (m !! key) ∪ list_to_set (bl_event_indices b)]> m.

Definition blessed_event_indices (blesser : arr32) (intention : list byte) (d : BlessingDocument) : gset nat :=
  default ∅ (bd_blessed_indices d !! bless_key blesser intention).

Definition bless_claim (id : list byte) (now : Z) (claim : ClaimId) (blesser : arr32) (idxs : list nat)
    : M BlessingDocument BlessingError (list byte) := λ d,
  match retain (λ i, bool_decide (i ∈ blessed_event_indices blesser (cl_intention_id claim) d)) idxs with
  | i :: _ => (d, Err (EventAlreadyBlessed i (cl_intention_id claim)))
  | [] =>
      let b := {| bl_blessing_id := id; bl_claim_id := claim; bl_blesser := blesser; bl_event_indices := idxs;
                  bl_timestamp_millis := now |} in
      ({| bd_blessings := bd_blessings d ++ [b]; bd_blessed_indices := mark_blessed (bd_blessed_indices d) b |}, Ok id)
  end.

Definition blessings_for_claim (claim : ClaimId) (d : BlessingDocument) : list Blessing :=
  retain (λ b, bool_decide (bl_claim_id b = claim)) (bd_blessings d).
Definition blessings_for_intention (i : list byte) (d : BlessingDocument) : list Blessing :=
  retain (λ b, bool_decide (cl_intention_id (bl_claim_id b) = i)) (bd_blessings d).
Definition blessings_by_member (m : arr32) (d : BlessingDocument) : list Blessing :=
  retain (λ b, bool_decide (bl_blesser b = m)) (bd_blessings d).
Definition unblessed_event_indices (blesser : arr32) (i : list byte) (candidates : list nat) (d : BlessingDocument) : list nat :=
  retain (λ idx, negb (bool_decide (idx ∈ blessed_event_indices blesser i d))) candidates.
Definition is_event_blessed (blesser : arr32) (i : list byte) (idx : nat) (d : BlessingDocument) : bool :=
  match bd_blessed_indices d !! bless_key blesser i with Some s => bool_decide (idx ∈ s) | None => false end.
Definition total_blessed_events (claim : ClaimId) (d : BlessingDocument) : nat :=
  sum_list (length ∘ bl_event_indices <$> blessings_for_claim claim d).
Definition blessers_for_claim (claim : ClaimId) (d : BlessingDocument) : list arr32 :=
  dedup (sort_by arr32_leb (bl_blesser <$> blessings_for_claim claim d)).

Definition derive_blessed (l : list Blessing) : gmap (arr32 * list byte) (gset nat) := foldl mark_blessed ∅ l.
Definition blessing_rebuild (d : BlessingDocument) : BlessingDocument :=
  let l := sort_by blessing_leb (bd_blessings d) in {| bd_blessings := l; bd_blessed_indices := derive_blessed l |}.

(** The method [merge]: union by identifier, then sort. *)
Definition blessing_merge (d other : BlessingDocument) : BlessingDocument :=
  blessing_rebuild {| bd_blessings := sort_by blessing_leb (upsert_all bl_blessing_id never (bd_blessings d) (bd_blessings other));
                      bd_blessed_indices := bd_blessed_indices d |}.

(** The schema of the realm document. *)
Definition blessing_schema : DocumentSchema BlessingDocument := replacing_schema blessing_default.

(** *** No event is blessed twice *)

(** [idx] is blessed by [blesser] for [i] in [l]. *)
Definition blessed_in (l : list Blessing) (blesser : arr32) (i : list byte) (idx : nat) : Prop :=
  ∃ b, b ∈ l ∧ bl_blesser b = blesser ∧ cl_intention_id (bl_claim_id b) = i ∧ idx ∈ bl_event_indices b.

Lemma mark_blessed_lookup m b blesser i idx :
  idx ∈ default ∅ (mark_blessed m b !! bless_key blesser i) ↔
  idx ∈ default ∅ (m !! bless_key blesser i) ∨
  (bl_blesser b = blesser ∧ cl_intention_id (bl_claim_id b) = i ∧ idx ∈ bl_event_indices b).
Proof.
  unfold mark_blessed. destruct (decide (bless_key (bl_blesser b) (cl_intention_id (bl_claim_id b)) = bless_key blesser i)) as [E|E].
  - rewrite E, lookup_insert_eq. simpl. injection E as -> ->. set_solver.
  - rewrite lookup_insert_ne by done. split; [auto|]. intros [|(<- & <- & _)]; done.
Qed.

Lemma derive_blessed_spec l blesser i idx :
  idx ∈ default ∅ (derive_blessed l !! bless_key blesser i) ↔ blessed_in l blesser i idx.
Proof.
  unfold derive_blessed. assert (Hgen : ∀ m, idx ∈ default ∅ (foldl mark_blessed m l !! bless_key blesser i) ↔
    idx ∈ default ∅ (m !! bless_key blesser i) ∨ blessed_in l blesser i idx).
  { unfold blessed_in. induction l as [|b l IH]; intros m; simpl.
    - split; [auto|]. intros [|(b & Hb & _)]; [done|by apply not_elem_of_nil in Hb].
    - rewrite IH, mark_blessed_lookup. setoid_rewrite elem_of_cons. naive_solver. }
  rewrite Hgen, lookup_empty. simpl. split; [intros [Hn|]; [by apply not_elem_of_empty in Hn|done]|auto].
Qed.

(** The index is that of the log, and no event appears in two blessings of one
    member for one intention. *)
Definition blessing_ok (d : BlessingDocument) : Prop :=
  (∀ blesser i idx, idx ∈ blessed_event_indices blesser i d ↔ blessed_in (bd_blessings d) blesser i idx).

Definition blessed_once (d : BlessingDocument) : Prop :=
  ∀ j k b b' idx, bd_blessings d !! j = Some b → bd_blessings d !! k = Some b' → j ≠ k →
    bl_blesser b = bl_blesser b' → cl_intention_id (bl_claim_id b) = cl_intention_id (bl_claim_id b') →
    idx ∈ bl_event_indices b → idx ∈ bl_event_indices b' → False.

Lemma retain_nil {A} (f : A → bool) l : retain f l = [] ↔ ∀ x, x ∈ l → f x = false.
Proof.
  induction l as [|x l IH]; simpl; [set_solver|]. destruct (f x) eqn:E.
  - split; [done|]. intros Hl. specialize (Hl x ltac:(left)). congruence.
  - rewrite IH. set_solver.
Qed.

Lemma bless_claim_run id now claim blesser idxs d d' r : bless_claim id now claim blesser idxs d = (d', r) → blessing_ok d →
  match r with
  | Err (EventAlreadyBlessed i j) => d' = d ∧ i ∈ idxs ∧ j = cl_intention_id claim ∧ blessed_in (bd_blessings d) blesser j i
  | Err _ => False
  | Ok id' => id' = id ∧ (∀ i, i ∈ idxs → ¬ blessed_in (bd_blessings d) blesser (cl_intention_id claim) i) ∧
      bd_blessings d' = bd_blessings d ++ [{| bl_blessing_id := id; bl_claim_id := claim; bl_blesser := blesser;
                                              bl_event_indices := idxs; bl_timestamp_millis := now |}] ∧ blessing_ok d'
  end.
Proof.
  intros Hb Hd. unfold bless_claim in Hb. destruct (retain _ idxs) as [|i l] eqn:E; simplify_eq.
  - rewrite retain_nil in E. split_and!; [done| |done|].
    + intros i Hi Hin. specialize (E i Hi). rewrite bool_decide_eq_false in E. by apply E, Hd.
    + intros b j idx. unfold blessed_event_indices. simpl. rewrite mark_blessed_lookup. fold (blessed_event_indices b j d).
      rewrite (Hd b j idx). unfold blessed_in. simpl. setoid_rewrite elem_of_app. setoid_rewrite list_elem_of_singleton.
      split; [|naive_solver]. intros [(x & ? & ?)|(? & ? & ?)]; [eauto|]. eexists. split; [by right|done].
  - assert (Hi : i ∈ i :: l) by left. rewrite <-E in Hi.
    apply elem_of_retain in Hi as [Hi Hbl%bool_decide_eq_true]. split_and!; auto. by apply Hd.
Qed.

Lemma bless_claim_once id now claim blesser idxs d : blessing_ok d → blessed_once d →
  blessing_ok (bless_claim id now claim blesser idxs d).1 ∧ blessed_once (bless_claim id now claim blesser idxs d).1.
Proof.
  intros Hd Ho. destruct (bless_claim id now claim blesser idxs d) as [d' r] eqn:E. simpl.
  pose proof (bless_claim_run _ _ _ _ _ _ _ _ E Hd) as Hr. destruct r as [id'|[]]; [|by destruct Hr as [-> _]|done..].
  destruct Hr as (_ & Hnew & Hl & Hok). split; [done|]. intros j k b b' idx Hj Hk Hjk Hbl Hint Hi Hi'. rewrite Hl in Hj, Hk.
  apply lookup_app_Some in Hj as [Hj|[Hjl Hj]], Hk as [Hk|[Hkl Hk]].
  - exact (Ho j k b b' idx Hj Hk Hjk Hbl Hint Hi Hi').
  - apply list_lookup_singleton_Some in Hk as [_ <-]. simpl in *. apply (Hnew idx Hi').
    exists b. split_and!; try done. by eapply list_elem_of_lookup_2.
  - apply list_lookup_singleton_Some in Hj as [_ <-]. simpl in *. apply (Hnew idx Hi).
    exists b'. split_and!; try done. by eapply list_elem_of_lookup_2.
  - apply list_lookup_singleton_Some in Hj as [Hj _], Hk as [Hk _]. lia.
Qed.

(** *** Merging *)

#[export] Instance blessing_preorder : TotalPreorder blessing_leb.
Proof.
  unfold blessing_leb. split; intros x y; [|intros z];
    repeat (match goal with |- context [?a ?= ?b] => destruct (Z.compare_spec a b) end); try lia; auto using bytes_leb_total.
  eauto using bytes_leb_trans.
Qed.

(** With the method [merge] replicas would converge ... *)
#[export] Instance blessing_laws U :
  MergeLaws (log_ok bl_blessing_id bd_blessings U) (log_equiv bd_blessings) blessing_merge blessing_default.
Proof. apply union_log_laws; [|done]. intros a b. simpl. by rewrite !sort_by_perm. Qed.

Lemma blessing_merge_ok a b : blessing_ok (blessing_merge a b).
Proof. intros blesser i idx. apply derive_blessed_spec. Qed.

(** ... but two replicas may bless the same event before they meet, and the
    realm document takes the peer's state instead of merging: a blessing that
    has not been sent yet is lost. *)
Lemma blessing_lost id now claim blesser idxs :
  bd_blessings (doc_merge (DocumentSchema := blessing_schema) (bless_claim id now claim blesser idxs blessing_default).1 blessing_default) = [].
Proof. reflexivity. Qed.

(** One call may name an event several times; it counts as often. *)
Lemma repeated_event_counts id now claim blesser :
  total_blessed_events claim (bless_claim id now claim blesser [0%nat; 0%nat] blessing_default).1 = 2%nat.
Proof.
  unfold total_blessed_events, blessings_for_claim. rewrite retain_all; [done|].
  intros b ->%list_elem_of_singleton. by apply bool_decide_eq_true.
Qed.

(** ** Tokens *)

Record TokenOfGratitude : Type := {
  tok_id : list byte;
  tok_steward : arr32;
  tok_steward_chain : list arr32;
  tok_blessing_id : list byte;
  tok_blesser : arr32;
  tok_source_intention_id : list byte;
  tok_original_steward : arr32;
  tok_event_indices : list nat;
  tok_created_at_millis : Z;
  tok_pledged_to : option (list byte);
  tok_pledged_at_millis : option Z;
}.

Inductive TokenEvent : Type :=
| Minted (token_id : list byte) (steward : arr32) (blessing_id : list byte) (blesser : arr32) (source_intention_id : list byte)
    (original_steward : arr32) (event_indices : list nat) (created_at_millis : Z) (steward_chain : list arr32)
| Pledged (token_id target_intention_id : list byte) (pledged_at_millis : Z)
| Released (token_id : list byte) (new_steward previous_steward : arr32)
| Withdrawn (token_id : list byte).

#[global] Instance TokenEvent_eq_dec : EqDecision TokenEvent.
Proof. solve_decision. Defined.

Inductive TokenError : Type := TokenNotFound | NotSteward | AlreadyPledged | NotPledged | ZeroValue.

Definition token_error_message (e : TokenError) : string :=
  match e with
  | TokenNotFound => "Token not found"
  | NotSteward => "Caller does not own this token"
  | AlreadyPledged => "Token is already pledged to an intention"
  | NotPledged => "Token is not pledged"
  | ZeroValue => "Cannot mint a token with zero event indices"
  end.

Record TokenDocument : Type := { td_events : list TokenEvent; td_tokens : gmap (list byte) TokenOfGratitude }.
Definition token_default : TokenDocument := {| td_events := []; td_tokens := ∅ |}.

Definition set_pledge (to : option (list byte)) (at_millis : option Z) (t : TokenOfGratitude) : TokenOfGratitude :=
  {| tok_id := tok_id t; tok_steward := tok_steward t; tok_steward_chain := tok_steward_chain t;
     tok_blessing_id := tok_blessing_id t; tok_blesser := tok_blesser t; tok_source_intention_id := tok_source_intention_id t;
     tok_original_steward := tok_original_steward t; tok_event_indices := tok_event_indices t;
     tok_created_at_millis := tok_created_at_millis t; tok_pledged_to := to; tok_pledged_at_millis := at_millis |}.

Definition hand_over (new_steward : arr32) (t : TokenOfGratitude) : TokenOfGratitude :=
  {| tok_id := tok_id t; tok_steward := new_steward; tok_steward_chain := tok_steward_chain t ++ [new_steward];
     tok_blessing_id := tok_blessing_id t; tok_blesser := tok_blesser t; tok_source_intention_id := tok_source_intention_id t;
     tok_original_steward := tok_original_steward t; tok_event_indices := tok_event_indices t;
     tok_created_at_millis := tok_created_at_millis t; tok_pledged_to := None; tok_pledged_at_millis := None |}.

(** What an event does to the derived state. *)
Definition token_apply (m : gmap (list byte) TokenOfGratitude) (e : TokenEvent) : gmap (list byte) TokenOfGratitude :=
  match e with
  | Minted id steward bid blesser source original idxs at_millis chain =>
      <[id := {| tok_id := id; tok_steward := steward; tok_steward_chain := chain; tok_blessing_id := bid; tok_blesser := blesser;
                 tok_source_intention_id := source; tok_original_steward := original; tok_event_indices := idxs;
                 tok_created_at_millis := at_millis; tok_pledged_to := None; tok_pledged_at_millis := None |}]> m
  | Pledged id target at_millis => alter (set_pledge (Some target) (Some at_millis)) id m
  | Released id new_steward _ => alter (hand_over new_steward) id m
  | Withdrawn id => alter (set_pledge None None) id m
  end.

(** Append an event and apply it. *)
Definition record_event (e : TokenEvent) (d : TokenDocument) : TokenDocument :=
  {| td_events := td_events d ++ [e]; td_tokens := token_apply (td_tokens d) e |}.

Definition mint (id : list byte) (now : Z) (steward : arr32) (blessing_id : list byte) (blesser : arr32)
    (source : list byte) (idxs : list nat) : M TokenDocument TokenError (list byte) := λ d,
  match idxs with
  | [] => (d, Err ZeroValue)
  | _ => (record_event (Minted id steward blessing_id blesser source steward idxs now [steward]) d, Ok id)
  end.

Definition pledge (now : Z) (id target : list byte) : M TokenDocument TokenError unit := λ d,
  match td_tokens d !! id with
  | None => (d, Err TokenNotFound)
  | Some t => if bool_decide (is_Some (tok_pledged_to t)) then (d, Err AlreadyPledged)
              else (record_event (Pledged id target now) d, Ok tt)
  end.

Definition release (id : list byte) (new_steward : arr32) : M TokenDocument TokenError unit := λ d,
  match td_tokens d !! id with
  | None => (d, Err TokenNotFound)
  | Some t => if bool_decide (tok_pledged_to t = None) then (d, Err NotPledged)
              else (record_event (Released id new_steward (tok_steward t)) d, Ok tt)
  end.

Definition withdraw (id : list byte) : M TokenDocument TokenError unit := λ d,
  match td_tokens d !! id with
  | None => (d, Err TokenNotFound)
  | Some t => if bool_decide (tok_pledged_to t = None) then (d, Err NotPledged)
              else (record_event (Withdrawn id) d, Ok tt)
  end.

Definition find_token (id : list byte) (d : TokenDocument) : option TokenOfGratitude := td_tokens d !! id.
Definition token_values (d : TokenDocument) : list TokenOfGratitude := (map_to_list (td_tokens d)).*2.
Definition tokens_for_steward (m : arr32) (d : TokenDocument) : list TokenOfGratitude :=
  retain (λ t, bool_decide (tok_steward t = m)) (token_values d).
Definition available_tokens_for_steward (m : arr32) (d : TokenDocument) : list TokenOfGratitude :=
  retain (λ t, bool_decide (tok_steward t = m) && bool_decide (tok_pledged_to t = None)) (token_values d).
Definition pledged_tokens_for_intention (i : list byte) (d : TokenDocument) : list TokenOfGratitude :=
  retain (λ t, bool_decide (tok_pledged_to t = Some i)) (token_values d).
Definition token_count_for_steward (m : arr32) (d : TokenDocument) : nat := length (tokens_for_steward m d).

Definition derive_tokens (l : list TokenEvent) : gmap (list byte) TokenOfGratitude := foldl token_apply ∅ l.

Definition is_mint_of (id : list byte) (e : TokenEvent) : bool :=
  match e with Minted id' _ _ _ _ _ _ _ _ => bool_decide (id' = id) | _ => false end.
Definition token_duplicate (l : list TokenEvent) (e : TokenEvent) : bool :=
  match e with Minted id _ _ _ _ _ _ _ _ => any (is_mint_of id) l | e => bool_decide (e ∈ l) end.
Definition token_merge (d other : TokenDocument) : TokenDocument :=
  let events := foldl (λ l e, if token_duplicate l e then l else l ++ [e]) (td_events d) (td_events other) in
  {| td_events := events; td_tokens := derive_tokens events |}.

Definition token_schema : DocumentSchema TokenDocument := replacing_schema token_default.

(** *** Invariants *)

(** The tokens are the replay of the log. *)
Definition token_doc_ok (d : TokenDocument) : Prop := td_tokens d = derive_tokens (td_events d).

(** The chain of stewards runs from the first to the present one; a pledge has
    its time; a token is backed by some attention. *)
Definition token_ok (id : list byte) (t : TokenOfGratitude) : Prop :=
  tok_id t = id ∧ head (tok_steward_chain t) = Some (tok_original_steward t) ∧
  last (tok_steward_chain t) = Some (tok_steward t) ∧ (is_Some (tok_pledged_to t) ↔ is_Some (tok_pledged_at_millis t)) ∧
  tok_event_indices t ≠ [].
Definition tokens_ok (d : TokenDocument) : Prop := token_doc_ok d ∧ map_Forall token_ok (td_tokens d).

Lemma record_event_ok e d : token_doc_ok d → token_doc_ok (record_event e d).
Proof. unfold token_doc_ok. simpl. intros ->. unfold derive_tokens. by rewrite foldl_app. Qed.

Lemma token_merge_ok a b : token_doc_ok (token_merge a b).
Proof. done. Qed.

Lemma alter_ok (f : TokenOfGratitude → TokenOfGratitude) (id : list byte) (m : gmap (list byte) TokenOfGratitude) :
  (∀ t, token_ok id t → token_ok id (f t)) → map_Forall token_ok m → map_Forall token_ok (alter f id m).
Proof.
  intros Hf Hm k t. destruct (decide (id = k)) as [<-|].
  - rewrite lookup_alter_eq. intros (t' & Ht & ->)%fmap_Some. apply Hf. by apply Hm.
  - rewrite lookup_alter_ne by done. apply Hm.
Qed.

Lemma set_pledge_ok id p a t : (is_Some p ↔ is_Some a) → token_ok id t → token_ok id (set_pledge p a t).
Proof. unfold token_ok. simpl. naive_solver. Qed.

Lemma hand_over_ok id s t : token_ok id t → token_ok id (hand_over s t).
Proof.
  unfold token_ok. simpl. intros (? & Hh & Hl & _ & ?). split_and!; try done.
  - by destruct (tok_steward_chain t).
  - apply last_snoc.
Qed.

(** The operations of the document, as steps. *)
Inductive token_step : TokenDocument → TokenDocument → Prop :=
| TsMint id now s b bl src idxs d r : td_tokens d !! id = None → mint id now s b bl src idxs d = r → token_step d r.1
| TsPledge now id target d r : pledge now id target d = r → token_step d r.1
| TsRelease id s d r : release id s d = r → token_step d r.1
| TsWithdraw id d r : withdraw id d = r → token_step d r.1.

Lemma token_step_ok d d' : token_step d d' → tokens_ok d → tokens_ok d'.
Proof.
  intros Hs [Hd Ht]. destruct Hs as [id now s b bl src idxs d r Hfresh <-|now id target d r <-|id s d r <-|id d r <-].
  - unfold mint. destruct idxs as [|i idxs]; [done|]. split; [by apply record_event_ok|]. simpl.
    apply map_Forall_insert_2; [|done]. split_and!; try done. simpl. split; intros []; done.
  - unfold pledge. destruct (td_tokens d !! id) as [t|] eqn:E; [|done]. case_bool_decide; [done|].
    split; [by apply record_event_ok|]. simpl. apply alter_ok; [|done]. intros. by apply set_pledge_ok.
  - unfold release. destruct (td_tokens d !! id) as [t|] eqn:E; [|done]. case_bool_decide; [done|].
    split; [by apply record_event_ok|]. simpl. apply alter_ok; [|done]. intros. by apply hand_over_ok.
  - unfold withdraw. destruct (td_tokens d !! id) as [t|] eqn:E; [|done]. case_bool_decide; [done|].
    split; [by apply record_event_ok|]. simpl. apply alter_ok; [|done]. intros. apply set_pledge_ok; [|done]. split; intros []; done.
Qed.

(** What is fixed when a token is minted. *)
Definition provenance (t : TokenOfGratitude) : list byte * list byte * arr32 * list byte * arr32 * list nat * Z :=
  (tok_id t, tok_blessing_id t, tok_blesser t, tok_source_intention_id t, tok_original_steward t, tok_event_indices t, tok_created_at_millis t).

(** A step keeps every token with its provenance, and extends its chain of
    stewards by at most one, out of a pledge. *)
Lemma token_step_history d d' id t : token_step d d' → td_tokens d !! id = Some t →
  ∃ t', td_tokens d' !! id = Some t' ∧ provenance t' = provenance t ∧
    (tok_steward_chain t' = tok_steward_chain t ∧ tok_steward t' = tok_steward t ∨
     is_Some (tok_pledged_to t) ∧ tok_pledged_to t' = None ∧ tok_steward_chain t' = tok_steward_chain t ++ [tok_steward t']).
Proof.
  intros Hs Ht.
  assert (Hsame : ∃ t', td_tokens d !! id = Some t' ∧ provenance t' = provenance t ∧
    (tok_steward_chain t' = tok_steward_chain t ∧ tok_steward t' = tok_steward t ∨
     is_Some (tok_pledged_to t) ∧ tok_pledged_to t' = None ∧ tok_steward_chain t' = tok_steward_chain t ++ [tok_steward t'])) by eauto 10.
  destruct Hs as [id' now s b bl src idxs d r Hfresh <-|now id' target d r <-|id' s d r <-|id' d r <-].
  - unfold mint. destruct idxs; [done|]. simpl. rewrite lookup_insert_ne by congruence. done.
  - unfold pledge. destruct (td_tokens d !! id') as [t0|] eqn:E; [|done]. case_bool_decide; [done|]. simpl.
    destruct (decide (id' = id)) as [->|]; [rewrite lookup_alter_eq, Ht; simpl; eauto 10|by rewrite lookup_alter_ne].
  - unfold release. destruct (td_tokens d !! id') as [t0|] eqn:E; [|done]. case_bool_decide as Ep; [done|]. simpl.
    destruct (decide (id' = id)) as [->|]; [|by rewrite lookup_alter_ne]. rewrite lookup_alter_eq, Ht. simpl.
    eexists. split; [done|]. split; [done|]. right. split_and!; try done. simplify_eq. by destruct (tok_pledged_to t).
  - unfold withdraw. destruct (td_tokens d !! id') as [t0|] eqn:E; [|done]. case_bool_decide; [done|]. simpl.
    destruct (decide (id' = id)) as [->|]; [rewrite lookup_alter_eq, Ht; simpl; eauto 10|by rewrite lookup_alter_ne].
Qed.

(** C40. However tokens are minted, pledged, withdrawn and released, the tokens are
    the replay of the log, every chain of stewards runs from the member first
    thanked to the present steward, and a token keeps its provenance and its past
    stewards. *)
Theorem token_custody d : rtc token_step token_default d →
  tokens_ok d ∧ ∀ d' id t, rtc token_step d d' → td_tokens d !! id = Some t →
    ∃ t', td_tokens d' !! id = Some t' ∧ provenance t' = provenance t ∧ tok_steward_chain t `prefix_of` tok_steward_chain t' ∧ token_ok id t'.
Proof.
  intros Hd. assert (Hok : ∀ x y, rtc token_step x y → tokens_ok x → tokens_ok y) by (induction 1; eauto using token_step_ok).
  assert (H0 : tokens_ok token_default) by (split; [done|apply map_Forall_empty]).
  split; [by apply (Hok token_default)|]. intros d' id t Hr Ht.
  assert (Hd' : tokens_ok d') by (apply (Hok d); [done|by apply (Hok token_default)]).
  assert (∃ t', td_tokens d' !! id = Some t' ∧ provenance t' = provenance t ∧ tok_steward_chain t `prefix_of` tok_steward_chain t')
    as (t' & Ht' & Hp & Hc); [|exists t'; split_and!; try done; by apply Hd'].
  clear Hd Hd' Hok H0. revert t Ht. induction Hr as [d|d d1 d' Hs _ IH]; intros t Ht; [by exists t|].
  destruct (token_step_history _ _ _ _ Hs Ht) as (t1 & Ht1 & Hp1 & Hc1). destruct (IH t1 Ht1) as (t' & Ht' & Hp' & Hc').
  exists t'. split_and!; [done|congruence|]. etransitivity; [|exact Hc']. destruct Hc1 as [[-> _]|(_ & _ & ->)]; [done|by apply prefix_app_r].
Qed.

(** *** The method [merge] *)

(** The log of one replica after a token was pledged and given to [s]. *)
Definition given_to (s : arr32) : TokenDocument :=
  let mint_event := Minted [x01] zeros32 [x02] zeros32 [x03] zeros32 [0%nat] 5 [zeros32] in
  foldl (λ d e, record_event e d) token_default [mint_event; Pledged [x01] [x04] 6; Released [x01] s zeros32].

(** Replicas that gave the token to different members do not agree after they
    merged: events are kept in the order of arrival. *)
Lemma token_merge_diverges :
  let a := given_to (arr32_fill x0a) in
  let b := given_to (arr32_fill x0b) in
  tok_steward <$> td_tokens (token_merge a b) !! [x01] = Some (arr32_fill x0b) ∧
  tok_steward <$> td_tokens (token_merge b a) !! [x01] = Some (arr32_fill x0a).
Proof. split; vm_compute; reflexivity. Qed.

(** A pledge that was withdrawn twice is withdrawn once in a replica that learns
    of it by merging: the second withdrawal equals the first and is dropped. *)
Lemma second_withdrawal_lost :
  let d := foldl (λ d e, record_event e d) token_default
    [Minted [x01] zeros32 [x02] zeros32 [x03] zeros32 [0%nat] 5 [zeros32];
     Pledged [x01] [x04] 6; Withdrawn [x01]; Pledged [x01] [x04] 7; Withdrawn [x01]] in
  tok_pledged_to <$> td_tokens d !! [x01] = Some None ∧
  tok_pledged_to <$> td_tokens (token_merge token_default d) !! [x01] = Some (Some [x04]).
Proof. split; vm_compute; reflexivity. Qed.

(** ** What a token is worth to an observer *)

Class PowF64 : Type := f64_powf : f64 → f64 → f64.

(** [f64::max]: a number wins over NaN. *)
Definition f64_max (x y : f64) : f64 := if is_nan x then y else if is_nan y then x else if SFltb x y then y else x.

(** [0.7] *)
Definition STEWARD_CHAIN_DECAY : f64 := Eval vm_compute in f64_ratio 7 10.

Record SubjectiveTokenValue : Type := {
  stv_raw_attention_millis : Z;
  stv_trust_chain_weight : f64;
  stv_humanness_freshness : f64;
  stv_subjective_millis : f64;
}.

Section Valuation.
Context `{PowF64}.
Implicit Types (sentiment : arr32 → option f64) (freshness : arr32 → f64).

(** The weight of one member, [hops] away from the present steward. *)
Definition weigh sentiment (hops : Z) (m : arr32) (best : f64) : f64 :=
  match sentiment m with
  | None => best
  | Some score =>
      let positive := f64_max score f64_zero in
      if SFltb f64_zero positive
      then f64_max best (f64_mul positive (f64_powf STEWARD_CHAIN_DECAY (f64_of_Z hops)))
      else best
  end.

Fixpoint weigh_chain sentiment (chain_len i : Z) (l : list arr32) (best : f64) : f64 :=
  match l with
  | [] => best
  | m :: l => weigh_chain sentiment chain_len (i + 1) l (weigh sentiment (chain_len - 1 - i) m best)
  end.

Definition trust_weight (t : TokenOfGratitude) sentiment : f64 :=
  let chain := tok_steward_chain t in
  let n := Z.of_nat (length chain) in
  weigh_chain sentiment n 0 chain (weigh sentiment (usize_saturating_sub n 1) (tok_blesser t) f64_zero).

Definition subjective_value (t : TokenOfGratitude) (raw : Z) sentiment freshness : SubjectiveTokenValue :=
  let w := trust_weight t sentiment in
  let f := freshness (tok_blesser t) in
  {| stv_raw_attention_millis := raw; stv_trust_chain_weight := w; stv_humanness_freshness := f;
     stv_subjective_millis := f64_mul (f64_mul (f64_of_Z raw) w) f |}.

(** Unknown or not positive. *)
Definition untrusted sentiment (m : arr32) : Prop := ∀ s, sentiment m = Some s → SFltb f64_zero s = false.

Lemma max_zero s : SFltb f64_zero s = false → SFltb f64_zero (f64_max s f64_zero) = false.
Proof.
  intros Hs. unfold f64_max. destruct (is_nan s) eqn:E; [done|]. simpl is_nan. cbv iota.
  by destruct (SFltb s f64_zero).
Qed.

Lemma weigh_untrusted sentiment hops m best : untrusted sentiment m → weigh sentiment hops m best = best.
Proof.
  intros Hm. unfold weigh. destruct (sentiment m) as [s|] eqn:E; [|done]. by rewrite (max_zero s (Hm s E)).
Qed.

Lemma weigh_chain_untrusted sentiment n i l best : Forall (untrusted sentiment) l → weigh_chain sentiment n i l best = best.
Proof.
  intros Hl. revert i best. induction Hl as [|m l Hm Hl IH]; intros i best; simpl; [done|]. by rewrite weigh_untrusted, IH.
Qed.

(** A token that no one the observer trusts has blessed or held has no weight. *)
Lemma untrusted_token t raw sentiment freshness :
  untrusted sentiment (tok_blesser t) → Forall (untrusted sentiment) (tok_steward_chain t) →
  stv_trust_chain_weight (subjective_value t raw sentiment freshness) = f64_zero.
Proof. intros Hb Hc. simpl. unfold trust_weight. by rewrite weigh_untrusted, weigh_chain_untrusted. Qed.
End Valuation.

(** ** The operations of a realm *)

Section RealmTokens.
Context {I : Type} `{EqDecision I} `{!DocumentCodec BlessingDocument, !DocumentCodec TokenDocument}.
#[local] Existing Instance token_schema.
#[local] Existing Instance blessing_schema.

Definition invalid {A} (msg : string) : Result A IndraError := Err (IeInvalidOperation msg).

(** [map_err(|e| InvalidOperation(e.to_string()))] on a closure. *)
Definition lift_err {S E A} (msg : E → string) (m : M S E A) : M S IndraError A := λ s,
  match m s with (s', Ok a) => (s', Ok a) | (s', Err e) => (s', Err (IeInvalidOperation (msg e))) end.

(** The documents an operation touches; the outcome of storing each and of
    sending the notice are arguments. *)
Record RealmDocs : Type := {
  rd_attention : AttentionDocument;
  rd_blessings : Document BlessingDocument I;
  rd_tokens : Document TokenDocument I;
}.
Definition set_rd_tokens (t : Document TokenDocument I) (r : RealmDocs) : RealmDocs :=
  {| rd_attention := rd_attention r; rd_blessings := rd_blessings r; rd_tokens := t |}.
Definition set_rd_blessings (b : Document BlessingDocument I) (r : RealmDocs) : RealmDocs :=
  {| rd_attention := rd_attention r; rd_blessings := b; rd_tokens := rd_tokens r |}.

(** [try_update], then the notice. *)
Definition update_and_send {A} (fault : option DbError) (sent : Result unit IndraError) (m : M TokenDocument TokenError A)
    : M RealmDocs IndraError A := λ r,
  match doc_try_update fault (lift_err token_error_message m) (rd_tokens r) with
  | (t, Err e, _) => (set_rd_tokens t r, Err e)
  | (t, Ok a, _) => (set_rd_tokens t r, match sent with Ok _ => Ok a | Err e => Err e end)
  end.

(** The check of the three token operations: only the steward may act. *)
Definition as_steward {A} (id : list byte) (caller : arr32) (refusal : string) (m : M RealmDocs IndraError A) : M RealmDocs IndraError A := λ r,
  match find_token id (d_state (rd_tokens r)) with
  | None => (r, invalid "Token not found")
  | Some t => if negb (bool_decide (tok_steward t = caller)) then (r, invalid refusal) else m r
  end.

Definition pledge_token (fault : option DbError) (sent : Result unit IndraError) (now : Z) (id target : list byte) (caller : arr32) : M RealmDocs IndraError unit :=
  as_steward id caller "Not authorized: only the token's steward can pledge it" (update_and_send fault sent (pledge now id target)).
Definition release_token (fault : option DbError) (sent : Result unit IndraError) (id : list byte) (new_steward caller : arr32) : M RealmDocs IndraError unit :=
  as_steward id caller "Not authorized: only the token's steward can release it" (update_and_send fault sent (release id new_steward)).
Definition withdraw_token (fault : option DbError) (sent : Result unit IndraError) (id : list byte) (caller : arr32) : M RealmDocs IndraError unit :=
  as_steward id caller "Not authorized: only the token's steward can withdraw it" (update_and_send fault sent (withdraw id)).

(** The loop that validates the events to bless. *)
Fixpoint check_events (events : list FocusEvent) (blesser : arr32) (intention : list byte) (idxs : list nat) : Result unit IndraError :=
  match idxs with
  | [] => Ok tt
  | idx :: idxs =>
      match events !! idx with
      | None => invalid ("Invalid event index: " +:+ (i64_to_string (Z.of_nat idx) +:+ (" (only " +:+
                  (i64_to_string (Z.of_nat (length events)) +:+ " events exist)"))))
      | Some e =>
          if negb (bool_decide (fe_member e = blesser)) then
            invalid ("Event " +:+ (i64_to_string (Z.of_nat idx) +:+ " belongs to different member, not blesser"))
          else if negb (bool_decide (fe_intention_id e = Some intention)) then
            invalid ("Event " +:+ (i64_to_string (Z.of_nat idx) +:+ " is for different quest"))
          else check_events events blesser intention idxs
      end
  end.

Definition realm_bless_claim (bfault tfault : option DbError) (sent : Result unit IndraError) (now : Z) (blessing_id token_id : list byte)
    (intention : list byte) (claimant blesser : arr32) (idxs : list nat) : M RealmDocs IndraError (list byte) := λ r,
  match idxs with
  | [] => (r, invalid "Cannot bless with empty event indices")
  | _ =>
      match check_events (ad_events (rd_attention r)) blesser intention idxs with
      | Err e => (r, Err e)
      | Ok _ =>
          let claim := {| cl_intention_id := intention; cl_claimant := claimant |} in
          match doc_try_update bfault (lift_err blessing_error_message (bless_claim blessing_id now claim blesser idxs)) (rd_blessings r) with
          | (b, Err e, _) => (set_rd_blessings b r, Err e)
          | (b, Ok bid, _) =>
              match update_and_send tfault sent (mint token_id now claimant bid blesser intention idxs) (set_rd_blessings b r) with
              | (r, Ok _) => (r, Ok bid)
              | (r, Err e) => (r, Err e)
              end
          end
      end
  end.

(** The time between an event and the member's next one, in the order of the
    stored log. *)
Definition blessed_attention_duration (now : Z) (intention : list byte) (claimant : arr32) (r : RealmDocs) : Z :=
  let events := ad_events (rd_attention r) in
  sumZ (λ b, sumZ (span_at now events) (bl_event_indices b))
    (blessings_for_claim {| cl_intention_id := intention; cl_claimant := claimant |} (d_state (rd_blessings r))).

Definition realm_unblessed_indices (member : arr32) (intention : list byte) (r : RealmDocs) : list nat :=
  unblessed_event_indices member intention (focus_indices intention member (ad_events (rd_attention r))) (d_state (rd_blessings r)).

Definition unblessed_attention_duration (now : Z) (member : arr32) (intention : list byte) (r : RealmDocs) : Z :=
  sumZ (span_at now (ad_events (rd_attention r))) (realm_unblessed_indices member intention r).

Definition token_attention_millis (now : Z) (id : list byte) (r : RealmDocs) : Result Z IndraError :=
  match find_token id (d_state (rd_tokens r)) with
  | None => invalid "token not found"
  | Some t => Ok (compute_attention_millis (tok_event_indices t) now (rd_attention r))
  end.

Definition token_subjective_value `{ExpF64, PowF64} (now : Z) (id : list byte) (humanness : HumannessDocument)
    (sentiment : arr32 → option f64) (r : RealmDocs) : Result SubjectiveTokenValue IndraError :=
  match find_token id (d_state (rd_tokens r)) with
  | None => invalid "token not found"
  | Some t => Ok (subjective_value t (compute_attention_millis (tok_event_indices t) now (rd_attention r)) sentiment
                    (λ m, freshness_at m now humanness))
  end.

(** *** What they do *)

Lemma lift_err_ok {S E A} (msg : E → string) (m : M S E A) s s' a : lift_err msg m s = (s', Ok a) → m s = (s', Ok a).
Proof. unfold lift_err. destruct (m s) as [? [|]]; intros; simplify_eq; done. Qed.

Lemma update_and_send_ok {A} fault sent (m : M TokenDocument TokenError A) r r' a :
  update_and_send fault sent m r = (r', Ok a) →
  rd_attention r' = rd_attention r ∧ rd_blessings r' = rd_blessings r ∧
  m (d_state (rd_tokens r)) = (d_state (rd_tokens r'), Ok a) ∧ is_Some (d_snapshot (rd_tokens r')).
Proof.
  unfold update_and_send. destruct (doc_try_update fault _ _) as [[t [x|]] msg] eqn:E; [|done].
  destruct sent; intros; simplify_eq. apply try_update_ok in E as (E%lift_err_ok & Hs & _). done.
Qed.

(** Only the steward of a pledged token gives it away; it then belongs to the
    new steward, and no other token is touched. *)
Lemma release_token_ok fault sent id new_steward caller r r' :
  release_token fault sent id new_steward caller r = (r', Ok tt) →
  ∃ t, find_token id (d_state (rd_tokens r)) = Some t ∧ tok_steward t = caller ∧ is_Some (tok_pledged_to t) ∧
    find_token id (d_state (rd_tokens r')) = Some (hand_over new_steward t) ∧
    ∀ id', id' ≠ id → find_token id' (d_state (rd_tokens r')) = find_token id' (d_state (rd_tokens r)).
Proof.
  unfold release_token, as_steward. destruct (find_token id _) as [t|] eqn:Et; [|done].
  case_bool_decide as Ec; simpl; [|done]. intros (_ & _ & Hm & _)%update_and_send_ok. unfold release in Hm.
  unfold find_token in *. rewrite Et in Hm. case_bool_decide as Ep; [done|]. injection Hm as Hm.
  exists t. rewrite <-Hm. simpl. split_and!; try done.
  - by destruct (tok_pledged_to t).
  - by rewrite lookup_alter_eq, Et.
  - intros id' Hne. by rewrite lookup_alter_ne.
Qed.

(** Whoever is not the steward changes nothing. *)
Lemma not_steward_refused {A} id caller refusal (m : M RealmDocs IndraError A) r :
  (∀ t, find_token id (d_state (rd_tokens r)) = Some t → tok_steward t ≠ caller) →
  ∃ msg, as_steward id caller refusal m r = (r, invalid msg).
Proof.
  intros Hn. unfold as_steward. destruct (find_token id _) as [t|] eqn:Et; [|eauto].
  rewrite bool_decide_false by (by apply Hn). simpl. eauto.
Qed.

Lemma check_events_ok events blesser i idxs : check_events events blesser i idxs = Ok tt →
  ∀ idx, idx ∈ idxs → ∃ e, events !! idx = Some e ∧ fe_member e = blesser ∧ fe_intention_id e = Some i.
Proof.
  induction idxs as [|k idxs IH]; simpl; [set_solver|]. destruct (events !! k) as [e|] eqn:E; [|done].
  case_bool_decide; simpl; [|done]. case_bool_decide; simpl; [|done]. intros Hc idx [->|Hin]%elem_of_cons; eauto.
Qed.

(** A blessing that succeeds releases events of the blesser on that intention
    that were not released before, and mints exactly one token for them. *)
Lemma realm_bless_ok bfault tfault sent now bid tid i claimant blesser idxs r r' out :
  blessing_ok (d_state (rd_blessings r)) →
  realm_bless_claim bfault tfault sent now bid tid i claimant blesser idxs r = (r', Ok out) →
  out = bid ∧ rd_attention r' = rd_attention r ∧
  (∀ idx, idx ∈ idxs → (∃ e, ad_events (rd_attention r) !! idx = Some e ∧ fe_member e = blesser ∧ fe_intention_id e = Some i) ∧
     ¬ blessed_in (bd_blessings (d_state (rd_blessings r))) blesser i idx) ∧
  bd_blessings (d_state (rd_blessings r')) = bd_blessings (d_state (rd_blessings r)) ++
    [{| bl_blessing_id := bid; bl_claim_id := {| cl_intention_id := i; cl_claimant := claimant |}; bl_blesser := blesser;
        bl_event_indices := idxs; bl_timestamp_millis := now |}] ∧
  blessing_ok (d_state (rd_blessings r')) ∧
  td_events (d_state (rd_tokens r')) = td_events (d_state (rd_tokens r)) ++ [Minted tid claimant bid blesser i claimant idxs now [claimant]].
Proof.
  intros Hok. unfold realm_bless_claim. destruct idxs as [|k ks] eqn:Eidx; [done|]. rewrite <-Eidx. clear Eidx.
  destruct (check_events _ _ _ _) as [[]|] eqn:Ec; [|done].
  destruct (doc_try_update bfault _ _) as [[b [bid'|]] msg] eqn:Eb; [|done].
  destruct (update_and_send tfault sent _ _) as [r2 [x|]] eqn:Et; intros; simplify_eq.
  apply try_update_ok in Eb as [Eb%lift_err_ok _].
  pose proof (bless_claim_run _ _ _ _ _ _ _ _ Eb Hok) as (-> & Hnew & Hl & Hok').
  apply update_and_send_ok in Et as (Ha & Hb & Hm & _). unfold mint in Hm.
  destruct idxs as [|j js]; [done|]. injection Hm as Hm _.
  split_and!; try done.
  - intros idx Hidx. split; [by eapply check_events_ok|by apply Hnew].
  - rewrite Hb. simpl. by rewrite Hl.
  - by rewrite Hb.
  - by rewrite <-Hm.
Qed.

(** When the token cannot be stored the blessing stays, without its token. *)
Lemma blessing_without_token bfault e sent now bid tid i claimant blesser idxs r b msg payload :
  idxs ≠ [] → check_events (ad_events (rd_attention r)) blesser i idxs = Ok tt →
  doc_try_update bfault (lift_err blessing_error_message
    (bless_claim bid now {| cl_intention_id := i; cl_claimant := claimant |} blesser idxs)) (rd_blessings r) = (b, Ok bid, msg) →
  (∀ s : TokenDocument, encode_state s = Ok payload) → (∀ env, ∃ m, encode_envelope (T := TokenDocument) env = Ok m) →
  ∃ r', realm_bless_claim bfault (Some e) sent now bid tid i claimant blesser idxs r = (r', Err (ie_from_storage e)) ∧
    rd_blessings r' = b ∧ d_snapshot (rd_tokens r') = d_snapshot (rd_tokens r).
Proof.
  intros Hne Hc Hb Henc Henv. unfold realm_bless_claim. destruct idxs as [|k ks] eqn:E; [done|]. rewrite <-E in *. clear E.
  rewrite Hc, Hb. unfold update_and_send, doc_try_update, lift_err. simpl rd_tokens.
  assert (Hmint : ∃ d, mint tid now claimant bid blesser i idxs (d_state (rd_tokens r)) = (d, Ok tid)).
  { unfold mint. destruct idxs; [done|]. eauto. }
  destruct Hmint as [d ->]. unfold commit, change_message. simpl. rewrite Henc. simpl. destruct (Henv {| env_doc_name := d_name (rd_tokens r); env_payload := payload |}) as [m ->]. simpl.
  unfold persist. simpl. rewrite Henc. simpl. eexists. split; [done|]. done.
Qed.
End RealmTokens.
