(* ===== verification/IntentionDoc.v ===== *)
(** * The intentions of a realm

    Models, of [indras-sync-engine/src]: [intention.rs] (intentions, service
    claims, the replicated [IntentionDocument]), [realm_intentions.rs] and
    [home_realm_intentions.rs] (the operations of a realm over the replica of
    [Documents.v]).  The current time and fresh identifiers are arguments.  (The
    intentions of [Intention.v] are those of [indras-artifacts].) *)

From S2P Require Import Prelude Artifact Crypto Attention Packet Pending EventStore Documents Convergence.

(** ** Merging lists by an index of positions

    [by_id] maps an identifier to a position (the last one, should an
    identifier be repeated); a remote entry is combined with the local entry at
    its position, or appended. *)
Section Indexed.
Context {A K : Type} `{Countable K} (key : A → K) (comb : A → A → A).
Implicit Types (l : list A) (m : gmap K nat) (x y : A).

Definition positions l : gmap K nat := list_to_map (reverse (imap (λ i x, (key x, i)) l)).

Definition merge_entry (acc : list A * gmap K nat) x : list A * gmap K nat :=
  let '(l, by_id) := acc in
  match by_id !! key x with
  | Some i => (alter (λ y, comb y x) i l, by_id)
  | None => (l ++ [x], <[key x := length l]> by_id)
  end.

Definition merge_indexed l l' : list A := (foldl merge_entry (l, positions l) l').1.

(** The index names the positions of the identifiers. *)
Definition index_ok l m : Prop := ∀ k i, m !! k = Some i ↔ ∃ x, l !! i = Some x ∧ key x = k.

Lemma positions_ok l : NoDup (key <$> l) → index_ok l (positions l).
Proof.
  intros Hn k i. unfold positions.
  assert (Hd : (reverse (imap (λ i x, (key x, i)) l)).*1 = reverse (key <$> l)).
  { rewrite fmap_reverse. f_equal. rewrite fmap_imap. apply imap_const. }
  rewrite <-elem_of_list_to_map by (by rewrite Hd, reverse_Permutation). rewrite elem_of_reverse, elem_of_lookup_imap. naive_solver.
Qed.

Context (comb_key : ∀ x y, key y = key x → key (comb x y) = key x).

Lemma merge_entry_ok l m x : NoDup (key <$> l) → index_ok l m →
  let '(l', m') := merge_entry (l, m) x in
  NoDup (key <$> l') ∧ index_ok l' m' ∧
  ∀ k, find_key key k l' = if bool_decide (key x = k) then Some (default x ((λ y, comb y x) <$> find_key key k l)) else find_key key k l.
Proof.
  intros Hn Hm. simpl. destruct (m !! key x) as [i|] eqn:Ei.
  - apply Hm in Ei as (y & Hy & Hk).
    assert (Hkeys : key <$> alter (λ y, comb y x) i l = key <$> l).
    { apply list_eq. intros j. rewrite !list_lookup_fmap. destruct (decide (i = j)) as [<-|]; [|by rewrite list_lookup_alter_ne].
      rewrite list_lookup_alter_eq, Hy. simpl. by rewrite comb_key. }
    split_and!; [by rewrite Hkeys| |].
    + intros k j. rewrite (Hm k j). destruct (decide (i = j)) as [<-|]; [|by rewrite list_lookup_alter_ne].
      rewrite list_lookup_alter_eq, Hy. simpl. split; intros (z & ? & <-); simplify_eq; eexists; (split; [done|]); by rewrite comb_key.
    + intros k. case_bool_decide as E.
      * subst k. assert (Hf : find_key key (key x) l = Some y).
        { rewrite <-Hk. apply find_key_elem; [done|]. by eapply list_elem_of_lookup_2. }
        rewrite Hf. simpl. rewrite <-(comb_key y x) in Hk by done. rewrite <-Hk. apply find_key_elem; [by rewrite Hkeys|].
        apply (list_elem_of_lookup_2 _ i). by rewrite list_lookup_alter_eq, Hy.
      * destruct (find_key key k l) as [z|] eqn:Ez.
        -- apply find_key_some in Ez as [(j & Hj)%list_elem_of_lookup <-]. apply find_key_elem; [by rewrite Hkeys|].
           apply (list_elem_of_lookup_2 _ j). rewrite list_lookup_alter_ne; [done|]. intros ->. congruence.
        -- apply find_key_none. rewrite Hkeys. by apply find_key_none.
  - assert (Hnew : key x ∉ key <$> l).
    { intros (y & Hk & (i & Hi)%list_elem_of_lookup)%list_elem_of_fmap. assert (m !! key x = Some i) by (apply Hm; eauto). congruence. }
    split_and!.
    + rewrite fmap_app. apply NoDup_app. split_and!; [done| |apply NoDup_singleton]. set_solver.
    + intros k i. rewrite lookup_insert. case_decide as Ek.
      * subst k. split; [intros [= <-]; exists x; split; [by rewrite lookup_app_r, Nat.sub_diag by done|done]|].
        intros (y & Hy & Hk). apply lookup_app_Some in Hy as [Hy|[? Hy]].
        -- destruct Hnew. rewrite <-Hk. by eapply list_elem_of_fmap_2, list_elem_of_lookup_2.
        -- apply list_lookup_singleton_Some in Hy as [??]. f_equal. lia.
      * rewrite (Hm k i). split; [intros (y & Hy & Hk); exists y; split; [by apply lookup_app_l_Some|done]|].
        intros (y & Hy & Hk). apply lookup_app_Some in Hy as [Hy|[? Hy]]; [eauto|].
        apply list_lookup_singleton_Some in Hy as [_ <-]. congruence.
    + intros k. revert Hnew. clear. induction l as [|y l IH]; intros Hnew.
      { cbn [app]. rewrite find_key_cons. by destruct (bool_decide _). }
      rewrite <-app_comm_cons, !find_key_cons. rewrite fmap_cons, not_elem_of_cons in Hnew. destruct Hnew as [Hy Hl].
      destruct (bool_decide_reflect (key y = k)) as [<-|]; [|by apply IH]. by rewrite bool_decide_false.
Qed.

Lemma find_merge_indexed k l l' : NoDup (key <$> l) → NoDup (key <$> l') →
  find_key key k (merge_indexed l l') = union_with (λ x y, Some (comb x y)) (find_key key k l) (find_key key k l').
Proof.
  unfold merge_indexed. intros Hn. pose proof (positions_ok l Hn) as Hm. revert Hn Hm. generalize (positions l).
  revert l. induction l' as [|x l' IH]; intros l m Hn Hm Hn'.
  { change (find_key key k l = union_with (λ x y, Some (comb x y)) (find_key key k l) None). by destruct (find_key key k l). }
  apply NoDup_cons in Hn' as [Hx Hn']. cbn [foldl]. pose proof (merge_entry_ok l m x Hn Hm) as Hs.
  destruct (merge_entry (l, m) x) as [l1 m1]. destruct Hs as (Hn1 & Hm1 & Hf). rewrite IH, Hf, find_key_cons by done.
  case_bool_decide as E; [|done]. subst k. rewrite (proj2 (find_key_none key _ l') Hx). by destruct (find_key key (key x) l).
Qed.

Lemma merge_indexed_NoDup l l' : NoDup (key <$> l) → NoDup (key <$> merge_indexed l l').
Proof.
  unfold merge_indexed. intros Hn. pose proof (positions_ok l Hn) as Hm. revert Hn Hm. generalize (positions l).
  revert l. induction l' as [|x l' IH]; intros l m Hn Hm; [done|]. cbn [foldl].
  pose proof (merge_entry_ok l m x Hn Hm) as Hs. destruct (merge_entry (l, m) x) as [l1 m1]. destruct Hs as (? & ? & _). auto.
Qed.

(** What is in the list stays, combined at most with what arrives. *)
Lemma merge_indexed_grows (le : relation A) l l' : PreOrder le → (∀ x y, le x (comb x y)) →
  ∀ x, x ∈ l → ∃ x', x' ∈ merge_indexed l l' ∧ le x x'.
Proof.
  intros Hle Hc. unfold merge_indexed. generalize (positions l). revert l. induction l' as [|y l' IH]; intros l m x Hx.
  { exists x. split; [done|reflexivity]. }
  cbn [foldl]. unfold merge_entry at 2. destruct (m !! key y) as [i|].
  - apply list_elem_of_lookup in Hx as (j & Hj). destruct (decide (i = j)) as [<-|Hne].
    + assert (Hin : comb x y ∈ alter (λ z, comb z y) i l) by (apply (list_elem_of_lookup_2 _ i); by rewrite list_lookup_alter_eq, Hj).
      destruct (IH _ m _ Hin) as (x' & ? & ?). exists x'. split; [done|]. by transitivity (comb x y).
    + apply (IH _ m x). apply (list_elem_of_lookup_2 _ j). by rewrite list_lookup_alter_ne.
  - apply IH. apply elem_of_app. by left.
Qed.

(** The merge laws, from those of the entries. *)
Lemma merge_indexed_laws (okv : K → A → Prop) (R : relation A) :
  (∀ k, JoinLaws (okv k) R comb) → Equivalence R → (∀ k x, okv k x → key x = k) →
  MergeLaws (keyed_ok key (λ x, okv (key x) x)) (entries_equiv (λ l k, find_key key k l) R) merge_indexed [].
Proof.
  intros HV HR Hkey. apply (pointwise_laws (HV := HV)).
  - intros l k x [_ Hl] [Hx <-]%find_key_some. rewrite Forall_forall in Hl. auto.
  - intros l l' [Hn Hl] [Hn' Hl']. rewrite Forall_forall in Hl, Hl'. split; [by apply merge_indexed_NoDup|].
    apply Forall_forall. intros x Hx. pose proof (merge_indexed_NoDup l l' Hn) as Hnm.
    pose proof (find_key_elem key _ _ Hnm Hx) as Hf. rewrite find_merge_indexed in Hf by done.
    destruct (find_key key (key x) l) as [a|] eqn:Ea, (find_key key (key x) l') as [b|] eqn:Eb; simplify_eq/=.
    + apply find_key_some in Ea as [Ha Hka], Eb as [Hb Hkb]. apply Hl in Ha. apply Hl' in Hb.
      rewrite Hka in Ha. rewrite Hkb in Hb. by eapply ml_ok_merge.
    + apply find_key_some in Ea as [Ha _]. auto.
    + apply find_key_some in Eb as [Hb _]. auto.
  - intros l l' k [Hn _] [Hn' _]. by apply find_merge_indexed.
  - done.
  - split; constructor.
  - done.
Qed.
End Indexed.

(** ** Intentions *)

Inductive IntentionKind : Type := KIntention | KNeed | KOffering.
Inductive IntentionPriority : Type := PLow | PNormal | PHigh | PUrgent.

#[global] Instance IntentionKind_eq_dec : EqDecision IntentionKind.
Proof. solve_decision. Defined.
#[global] Instance IntentionPriority_eq_dec : EqDecision IntentionPriority.
Proof. solve_decision. Defined.

Definition kind_label (k : IntentionKind) : string :=
  match k with KIntention => "Intention" | KNeed => "Need" | KOffering => "Offering" end.
Definition kind_css_class (k : IntentionKind) : string :=
  match k with KIntention => "type-intention" | KNeed => "type-need" | KOffering => "type-offering" end.

(** The derived order: the order of the constructors. *)
Definition priority_rank (p : IntentionPriority) : Z :=
  match p with PLow => 0 | PNormal => 1 | PHigh => 2 | PUrgent => 3 end.

Record ServiceClaim : Type := {
  sc_claimant : arr32;
  sc_proof : option ArtifactId;
  sc_proof_folder : option (list byte);
  sc_submitted_at_millis : Z;
  sc_verified : bool;
  sc_verified_at_millis : option Z;
}.

Definition claim_new (now : Z) (claimant : arr32) (proof : option ArtifactId) : ServiceClaim :=
  {| sc_claimant := claimant; sc_proof := proof; sc_proof_folder := None; sc_submitted_at_millis := now;
     sc_verified := false; sc_verified_at_millis := None |}.
Definition claim_with_proof_folder (now : Z) (claimant : arr32) (folder : list byte) : ServiceClaim :=
  {| sc_claimant := claimant; sc_proof := None; sc_proof_folder := Some folder; sc_submitted_at_millis := now;
     sc_verified := false; sc_verified_at_millis := None |}.
Definition claim_has_proof_folder (c : ServiceClaim) : bool := bool_decide (is_Some (sc_proof_folder c)).
Definition claim_has_proof (c : ServiceClaim) : bool :=
  bool_decide (is_Some (sc_proof c)) || bool_decide (is_Some (sc_proof_folder c)).
Definition claim_verify (now : Z) (c : ServiceClaim) : ServiceClaim :=
  if negb (sc_verified c) then
    {| sc_claimant := sc_claimant c; sc_proof := sc_proof c; sc_proof_folder := sc_proof_folder c;
       sc_submitted_at_millis := sc_submitted_at_millis c; sc_verified := true; sc_verified_at_millis := Some now |}
  else c.
Definition claim_set_proof_folder (folder : list byte) (c : ServiceClaim) : ServiceClaim :=
  {| sc_claimant := sc_claimant c; sc_proof := sc_proof c; sc_proof_folder := Some folder;
     sc_submitted_at_millis := sc_submitted_at_millis c; sc_verified := sc_verified c;
     sc_verified_at_millis := sc_verified_at_millis c |}.

Record RealmIntention : Type := {
  ri_id : list byte;
  ri_kind : IntentionKind;
  ri_title : string;
  ri_description : string;
  ri_image : option ArtifactId;
  ri_creator : arr32;
  ri_claims : list ServiceClaim;
  ri_created_at_millis : Z;
  ri_completed_at_millis : option Z;
  ri_deadline_millis : option Z;
  ri_priority : IntentionPriority;
  ri_deleted : bool;
}.

(** The part of an intention that its operations change. *)
Definition ri_with (title description : string) (claims : list ServiceClaim) (completed deadline : option Z)
    (priority : IntentionPriority) (deleted : bool) (x : RealmIntention) : RealmIntention :=
  {| ri_id := ri_id x; ri_kind := ri_kind x; ri_title := title; ri_description := description; ri_image := ri_image x;
     ri_creator := ri_creator x; ri_claims := claims; ri_created_at_millis := ri_created_at_millis x;
     ri_completed_at_millis := completed; ri_deadline_millis := deadline; ri_priority := priority; ri_deleted := deleted |}.
Definition ri_set_claims (claims : list ServiceClaim) (x : RealmIntention) : RealmIntention :=
  ri_with (ri_title x) (ri_description x) claims (ri_completed_at_millis x) (ri_deadline_millis x) (ri_priority x) (ri_deleted x) x.

Inductive IntentionError : Type :=
| IntAlreadyClaimed
| IntAlreadyComplete
| IntNotFound
| IntClaimNotFound
| IntNotAuthorized.

Definition intention_error_message (e : IntentionError) : string :=
  match e with
  | IntAlreadyClaimed => "Intention is already claimed"
  | IntAlreadyComplete => "Intention is already complete"
  | IntNotFound => "Intention not found"
  | IntClaimNotFound => "Claim not found"
  | IntNotAuthorized => "Not authorized for this operation"
  end.

Definition ri_new (id : list byte) (now : Z) (title description : string) (image : option ArtifactId) (creator : arr32) : RealmIntention :=
  {| ri_id := id; ri_kind := KIntention; ri_title := title; ri_description := description; ri_image := image;
     ri_creator := creator; ri_claims := []; ri_created_at_millis := now; ri_completed_at_millis := None;
     ri_deadline_millis := None; ri_priority := PNormal; ri_deleted := false |}.

Definition ri_has_claims (x : RealmIntention) : bool := negb (bool_decide (ri_claims x = [])).
Definition ri_has_verified_claims (x : RealmIntention) : bool := existsb sc_verified (ri_claims x).
Definition ri_is_complete (x : RealmIntention) : bool := bool_decide (is_Some (ri_completed_at_millis x)).
Definition ri_is_open (x : RealmIntention) : bool := negb (ri_has_claims x) && negb (ri_is_complete x).

(** [submit_claim]: the index of the new claim. *)
Definition ri_submit_claim (now : Z) (claimant : arr32) (proof : option ArtifactId) : M RealmIntention IntentionError nat := λ x,
  match ri_completed_at_millis x with
  | Some _ => (x, Err IntAlreadyComplete)
  | None => (ri_set_claims (ri_claims x ++ [claim_new now claimant proof]) x, Ok (length (ri_claims x)))
  end.

Definition ri_verify_claim (now : Z) (index : nat) : M RealmIntention IntentionError unit := λ x,
  if (length (ri_claims x) <=? index)%nat then (x, Err IntClaimNotFound)
  else (ri_set_claims (alter (claim_verify now) index (ri_claims x)) x, Ok tt).

Definition ri_pending_claims (x : RealmIntention) : list ServiceClaim := retain (λ c, negb (sc_verified c)) (ri_claims x).
Definition ri_verified_claims (x : RealmIntention) : list ServiceClaim := retain sc_verified (ri_claims x).
Definition ri_get_claim (index : nat) (x : RealmIntention) : option ServiceClaim := ri_claims x !! index.

Definition ri_complete (now : Z) : M RealmIntention IntentionError unit := λ x,
  match ri_completed_at_millis x with
  | Some _ => (x, Err IntAlreadyComplete)
  | None => (ri_with (ri_title x) (ri_description x) (ri_claims x) (Some now) (ri_deadline_millis x) (ri_priority x) (ri_deleted x) x, Ok tt)
  end.

Definition ri_set_deadline (d : option Z) (x : RealmIntention) : RealmIntention :=
  ri_with (ri_title x) (ri_description x) (ri_claims x) (ri_completed_at_millis x) d (ri_priority x) (ri_deleted x) x.
Definition ri_set_priority (p : IntentionPriority) (x : RealmIntention) : RealmIntention :=
  ri_with (ri_title x) (ri_description x) (ri_claims x) (ri_completed_at_millis x) (ri_deadline_millis x) p (ri_deleted x) x.
Definition ri_set_title (t : string) (x : RealmIntention) : RealmIntention :=
  ri_with t (ri_description x) (ri_claims x) (ri_completed_at_millis x) (ri_deadline_millis x) (ri_priority x) (ri_deleted x) x.
Definition ri_set_description (t : string) (x : RealmIntention) : RealmIntention :=
  ri_with (ri_title x) t (ri_claims x) (ri_completed_at_millis x) (ri_deadline_millis x) (ri_priority x) (ri_deleted x) x.
Definition ri_delete (x : RealmIntention) : RealmIntention :=
  ri_with (ri_title x) (ri_description x) (ri_claims x) (ri_completed_at_millis x) (ri_deadline_millis x) (ri_priority x) true x.

Definition ri_is_overdue (now : Z) (x : RealmIntention) : bool :=
  match ri_deadline_millis x with Some d => (d <? now) && negb (ri_is_complete x) | None => false end.

(** The legacy operations: [unclaim] drops every unverified claim. *)
Definition ri_unclaim : M RealmIntention IntentionError unit := λ x,
  match ri_completed_at_millis x with
  | Some _ => (x, Err IntAlreadyComplete)
  | None => (ri_set_claims (retain sc_verified (ri_claims x)) x, Ok tt)
  end.
Definition ri_doer (x : RealmIntention) : option arr32 := sc_claimant <$> head (ri_claims x).

(** ** The document *)

Record IntentionDocument : Type := { ind_intentions : list RealmIntention }.
Definition intentions_default : IntentionDocument := {| ind_intentions := [] |}.

(** A verified claim replaces an unverified one of the same claimant. *)
Definition claim_better (a b : ServiceClaim) : bool := sc_verified a && negb (sc_verified b).

(** The earlier completion, the later deadline, the higher priority. *)
Definition completed_merge (a b : option Z) : option Z :=
  match a, b with
  | None, Some t => Some t
  | Some t, Some t' => if t' <? t then Some t' else Some t
  | _, _ => a
  end.
Definition deadline_merge (a b : option Z) : option Z :=
  match a, b with
  | None, Some t => Some t
  | Some t, Some t' => if t <? t' then Some t' else Some t
  | _, _ => a
  end.
Definition priority_merge (a b : IntentionPriority) : IntentionPriority := if priority_rank a <? priority_rank b then b else a.

(** A local intention and the remote version of it. *)
Definition intention_merge (x y : RealmIntention) : RealmIntention :=
  ri_with (ri_title x) (ri_description x) (upsert_all sc_claimant claim_better (ri_claims x) (ri_claims y))
    (completed_merge (ri_completed_at_millis x) (ri_completed_at_millis y))
    (deadline_merge (ri_deadline_millis x) (ri_deadline_millis y))
    (priority_merge (ri_priority x) (ri_priority y)) (ri_deleted x || ri_deleted y) x.

Definition intentions_merge (d remote : IntentionDocument) : IntentionDocument :=
  {| ind_intentions := merge_indexed ri_id intention_merge (ind_intentions d) (ind_intentions remote) |}.

Definition intentions_schema : DocumentSchema IntentionDocument := merging_schema intentions_default intentions_merge.

Definition intentions_add (x : RealmIntention) (d : IntentionDocument) : IntentionDocument :=
  if existsb (λ y, bool_decide (ri_id y = ri_id x)) (ind_intentions d) then d
  else {| ind_intentions := ind_intentions d ++ [x] |}.

(** [find] and [find_mut]: the first that has the identifier and is not deleted. *)
Definition is_live (id : list byte) (x : RealmIntention) : bool := bool_decide (ri_id x = id) && negb (ri_deleted x).
Definition intentions_find (id : list byte) (d : IntentionDocument) : option RealmIntention := find_first (is_live id) (ind_intentions d).

(** Run [m] on the first element that satisfies [f]. *)
Fixpoint on_first {A E R} (f : A → bool) (m : M A E R) (l : list A) : list A * option (Result R E) :=
  match l with
  | [] => ([], None)
  | x :: l =>
      if f x then let '(x', r) := m x in (x' :: l, Some r)
      else let '(l', r) := on_first f m l in (x :: l', r)
  end.

Definition on_intention {E R} (id : list byte) (m : M RealmIntention E R) (d : IntentionDocument) : IntentionDocument * option (Result R E) :=
  let '(l, r) := on_first (is_live id) m (ind_intentions d) in ({| ind_intentions := l |}, r).

(** An operation that cannot fail. *)
Definition always {A} (f : A → A) : M A IntentionError unit := λ a, (f a, Ok tt).

Definition open_intentions (d : IntentionDocument) : list RealmIntention :=
  retain (λ x, ri_is_open x && negb (ri_deleted x)) (ind_intentions d).
Definition in_progress_intentions (d : IntentionDocument) : list RealmIntention :=
  retain (λ x, ri_has_claims x && negb (ri_is_complete x) && negb (ri_deleted x)) (ind_intentions d).
Definition completed_intentions (d : IntentionDocument) : list RealmIntention :=
  retain (λ x, ri_is_complete x && negb (ri_deleted x)) (ind_intentions d).
Definition intentions_by_creator (m : arr32) (d : IntentionDocument) : list RealmIntention :=
  retain (λ x, bool_decide (ri_creator x = m) && negb (ri_deleted x)) (ind_intentions d).
Definition intentions_by_claimant (m : arr32) (d : IntentionDocument) : list RealmIntention :=
  retain (λ x, negb (ri_deleted x) && existsb (λ c, bool_decide (sc_claimant c = m)) (ri_claims x)) (ind_intentions d).
Definition intentions_with_verified_claims (d : IntentionDocument) : list RealmIntention :=
  retain (λ x, negb (ri_deleted x) && ri_has_verified_claims x) (ind_intentions d).
Definition intentions_with_pending_claims (d : IntentionDocument) : list RealmIntention :=
  retain (λ x, negb (ri_deleted x) && negb (bool_decide (ri_pending_claims x = []))) (ind_intentions d).
Definition intentions_by_priority (d : IntentionDocument) : list RealmIntention :=
  sort_by (λ a b, priority_rank (ri_priority b) <=? priority_rank (ri_priority a))
    (retain (λ x, negb (ri_is_complete x) && negb (ri_deleted x)) (ind_intentions d)).
Definition overdue_intentions (now : Z) (d : IntentionDocument) : list RealmIntention :=
  retain (λ x, negb (ri_deleted x) && ri_is_overdue now x) (ind_intentions d).
Definition intention_count (d : IntentionDocument) : nat := length (retain (λ x, negb (ri_deleted x)) (ind_intentions d)).

(** [remove] takes the first with the identifier out, deleted or not. *)
Fixpoint remove_first {A} (f : A → bool) (l : list A) : list A * option A :=
  match l with
  | [] => ([], None)
  | x :: l => if f x then (l, Some x) else let '(l', r) := remove_first f l in (x :: l', r)
  end.
Definition intentions_remove (id : list byte) (d : IntentionDocument) : IntentionDocument * option RealmIntention :=
  let '(l, r) := remove_first (λ x, bool_decide (ri_id x = id)) (ind_intentions d) in ({| ind_intentions := l |}, r).
Definition intentions_delete (id : list byte) (d : IntentionDocument) : IntentionDocument := (on_intention id (always ri_delete) d).1.

(** *** Replicas converge

    Intentions with one identifier agree on what never changes, and the
    verified (or unverified) claim of a claimant is one claim. *)
Record IntentionCore : Type := {
  ic_kind : IntentionKind;
  ic_title : string;
  ic_description : string;
  ic_image : option ArtifactId;
  ic_creator : arr32;
  ic_created_at_millis : Z;
}.
Definition core_of (x : RealmIntention) : IntentionCore :=
  {| ic_kind := ri_kind x; ic_title := ri_title x; ic_description := ri_description x; ic_image := ri_image x;
     ic_creator := ri_creator x; ic_created_at_millis := ri_created_at_millis x |}.

Section IntentionLaws.
Context (U : list byte → IntentionCore) (UC : list byte → arr32 → bool → option ServiceClaim).

Definition claim_coherent (id : list byte) (c : ServiceClaim) : Prop := UC id (sc_claimant c) (sc_verified c) = Some c.

Definition intention_ok (id : list byte) (x : RealmIntention) : Prop :=
  ri_id x = id ∧ core_of x = U id ∧ keyed_ok sc_claimant (claim_coherent id) (ri_claims x).

(** Equal up to the order of the claims. *)
Definition intention_equiv (x y : RealmIntention) : Prop :=
  ri_set_claims [] x = ri_set_claims [] y ∧ entries_equiv (λ l k, find_key sc_claimant k l) eq (ri_claims x) (ri_claims y).

Definition intentions_ok (d : IntentionDocument) : Prop := keyed_ok ri_id (λ x, intention_ok (ri_id x) x) (ind_intentions d).
Definition intentions_equiv (d d' : IntentionDocument) : Prop :=
  entries_equiv (λ l k, find_key ri_id k l) intention_equiv (ind_intentions d) (ind_intentions d').

#[local] Instance claims_laws id : MergeLaws (keyed_ok sc_claimant (claim_coherent id))
  (entries_equiv (λ l k, find_key sc_claimant k l) eq) (upsert_all sc_claimant claim_better) [].
Proof.
  apply upsert_all_laws. intros k. unfold claim_better, claim_coherent. split.
  - intros a b _ _. by destruct (sc_verified a), (sc_verified b).
  - intros a b c _ _ _. by destruct (sc_verified a), (sc_verified b), (sc_verified c).
  - intros a b [Ha Hka] [Hb Hkb] Hab Hba. rewrite Hka in Ha. rewrite Hkb in Hb.
    assert (sc_verified a = sc_verified b) as E by (by destruct (sc_verified a), (sc_verified b)). congruence.
Qed.

Lemma completed_merge_comm a b : completed_merge a b = completed_merge b a.
Proof. destruct a, b; simpl; try done. repeat case_match; f_equal; lia. Qed.
Lemma completed_merge_assoc a b c : completed_merge a (completed_merge b c) = completed_merge (completed_merge a b) c.
Proof. destruct a as [a|], b as [b|], c as [c|]; simpl; repeat (case_match; simplify_eq/=; try done; try (exfalso; lia)); f_equal; lia. Qed.
Lemma completed_merge_idem a : completed_merge a a = a.
Proof. destruct a; simpl; [|done]. by destruct (_ <? _). Qed.
Lemma deadline_merge_comm a b : deadline_merge a b = deadline_merge b a.
Proof. destruct a, b; simpl; try done. repeat case_match; f_equal; lia. Qed.
Lemma deadline_merge_assoc a b c : deadline_merge a (deadline_merge b c) = deadline_merge (deadline_merge a b) c.
Proof. destruct a as [a|], b as [b|], c as [c|]; simpl; repeat (case_match; simplify_eq/=; try done; try (exfalso; lia)); f_equal; lia. Qed.
Lemma deadline_merge_idem a : deadline_merge a a = a.
Proof. destruct a; simpl; [|done]. by destruct (_ <? _). Qed.
Lemma priority_merge_laws : (∀ a b, priority_merge a b = priority_merge b a) ∧
  (∀ a b c, priority_merge a (priority_merge b c) = priority_merge (priority_merge a b) c) ∧ (∀ a, priority_merge a a = a).
Proof. split_and!; repeat (intros []); done. Qed.

(** The six merged parts decide equivalence. *)
Lemma intention_equiv_intro id x y : ri_id x = id → ri_id y = id → core_of x = U id → core_of y = U id →
  ri_completed_at_millis x = ri_completed_at_millis y → ri_deadline_millis x = ri_deadline_millis y →
  ri_priority x = ri_priority y → ri_deleted x = ri_deleted y →
  entries_equiv (λ l k, find_key sc_claimant k l) eq (ri_claims x) (ri_claims y) → intention_equiv x y.
Proof.
  intros Hx Hy Hcx Hcy H1 H2 H3 H4 Hc. split; [|done]. rewrite <-Hcy in Hcx. destruct x, y. unfold core_of in Hcx. simplify_eq/=.
  done.
Qed.

#[local] Instance intention_join_laws id : JoinLaws (intention_ok id) intention_equiv intention_merge.
Proof.
  destruct priority_merge_laws as (Pc & Pa & Pi). pose proof (claims_laws id) as [[He Hok Hp Hc Ha Hi] _ _].
  assert (Hcore : ∀ a b, core_of (intention_merge a b) = core_of a) by done.
  split.
  - split.
    + intros x. split; [done|reflexivity].
    + intros x y [? ?]. split; by symmetry.
    + intros x y z [? ?] [? ?]. split; by etransitivity.
  - intros a b (? & ? & ?) (? & ? & ?). split_and!; [done..|]. by apply Hok.
  - intros a a' b b' (Ia & Ca & Ka) (Ia' & Ca' & Ka') (Ib & Cb & Kb) (Ib' & Cb' & Kb') [Ea Ea2] [Eb Eb2].
    assert (∀ x y, ri_set_claims [] x = ri_set_claims [] y → ri_completed_at_millis x = ri_completed_at_millis y ∧
      ri_deadline_millis x = ri_deadline_millis y ∧ ri_priority x = ri_priority y ∧ ri_deleted x = ri_deleted y) as Hf
      by (intros x y; injection 1; auto).
    apply Hf in Ea as (E1 & E2 & E3 & E4), Eb as (E5 & E6 & E7 & E8).
    eapply (intention_equiv_intro id); try done; simpl; [congruence..|]. by apply Hp.
  - intros a b (? & ? & ?) (? & ? & ?). eapply (intention_equiv_intro id); simpl;
      auto using completed_merge_comm, deadline_merge_comm, orb_comm.
  - intros a b c (? & ? & ?) (? & ? & ?) (? & ? & ?). eapply (intention_equiv_intro id); simpl;
      auto using completed_merge_assoc, deadline_merge_assoc, orb_assoc.
  - intros a (? & ? & ?). eapply (intention_equiv_intro id); simpl;
      auto using completed_merge_idem, deadline_merge_idem, orb_diag.
Qed.

#[export] Instance intentions_laws : MergeLaws intentions_ok intentions_equiv intentions_merge intentions_default.
Proof.
  apply (projection_laws ind_intentions) with (merge' := merge_indexed ri_id intention_merge) (zero' := []); [done|done|].
  apply (merge_indexed_laws _ _ (λ x y (_ : ri_id y = ri_id x), eq_refl : ri_id (intention_merge x y) = ri_id x) intention_ok).
  - apply _.
  - apply (ml_equiv (JoinLaws := intention_join_laws [])).
  - by intros k x [? _].
Qed.
End IntentionLaws.

(** *** What the merge leaves out *)

Definition doc_of (x : RealmIntention) : IntentionDocument := {| ind_intentions := [x] |}.

(** A new title or description never reaches a replica that has the intention. *)
Lemma edit_stays_local x t dsc :
  intentions_merge (doc_of x) (doc_of (ri_set_description dsc (ri_set_title t x))) = intentions_merge (doc_of x) (doc_of x).
Proof.
  unfold intentions_merge, merge_indexed, merge_entry, doc_of. cbn [ind_intentions foldl ri_id ri_set_description ri_set_title ri_with].
  unfold positions. cbn [imap]. rewrite reverse_singleton. simpl list_to_map. by rewrite lookup_insert_eq.
Qed.

(** A second unverified claim of a member does not reach a replica that has the
    first. *)
Lemma second_claim_stays_local now now' m p p' x : ri_claims x = [] →
  let claims a b := ri_set_claims (a ++ b) x in
  ri_claims (intention_merge (claims [claim_new now m p] []) (claims [claim_new now m p] [claim_new now' m p'])) =
    [claim_new now m p].
Proof. intros Hx. simpl. rewrite !bool_decide_true by done. simpl. by rewrite bool_decide_true. Qed.

(** ** What was agreed stays

    An intention [x'] later than [x]: a deletion, a completion and a verified
    claim are never undone; a completion can only move to an earlier time. *)
Definition verified_for (m : arr32) (x : RealmIntention) : Prop := ∃ c, c ∈ ri_claims x ∧ sc_claimant c = m ∧ sc_verified c = true.
Definition claimed_by (m : arr32) (x : RealmIntention) : Prop := ∃ c, c ∈ ri_claims x ∧ sc_claimant c = m.

Record intention_le (x x' : RealmIntention) : Prop := {
  il_id : ri_id x' = ri_id x;
  il_creator : ri_creator x' = ri_creator x;
  il_deleted : ri_deleted x = true → ri_deleted x' = true;
  il_completed t : ri_completed_at_millis x = Some t → ∃ t', ri_completed_at_millis x' = Some t' ∧ t' <= t;
  il_verified m : verified_for m x → verified_for m x';
  il_claimed m : claimed_by m x → claimed_by m x';
}.

#[export] Instance intention_le_preorder : PreOrder intention_le.
Proof.
  split.
  - intros x. split; eauto with lia.
  - intros x y z [] []. split; try congruence; eauto.
    intros t Ht. destruct (il_completed0 t Ht) as (t1 & H1 & ?). destruct (il_completed1 t1 H1) as (t2 & ? & ?). exists t2. split; [done|lia].
Qed.

(** A change that keeps the claims and completion. *)
Lemma intention_le_same x x' : ri_id x' = ri_id x → ri_creator x' = ri_creator x → ri_claims x' = ri_claims x →
  (ri_deleted x = true → ri_deleted x' = true) →
  (ri_completed_at_millis x' = ri_completed_at_millis x ∨ ri_completed_at_millis x = None) → intention_le x x'.
Proof.
  intros H1 H2 H3 H4 H5. split; try done.
  - intros t Ht. destruct H5 as [E|]; [|congruence]. exists t. rewrite E. split; [done|lia].
  - intros m (c & ? & ? & ?). exists c. by rewrite H3.
  - intros m (c & ? & ?). exists c. by rewrite H3.
Qed.

(** A change of the claims alone. *)
Lemma intention_le_claims x claims :
  (∀ c, c ∈ ri_claims x → ∃ c', c' ∈ claims ∧ sc_claimant c' = sc_claimant c ∧ (sc_verified c = true → sc_verified c' = true)) →
  intention_le x (ri_set_claims claims x).
Proof.
  intros Hc. split; simpl; try done.
  - intros t Ht. exists t. split; [done|lia].
  - intros m (c & Hin & Hm & Hv). destruct (Hc c Hin) as (c' & ? & ? & ?). exists c'. split_and!; [done|congruence|auto].
  - intros m (c & Hin & Hm). destruct (Hc c Hin) as (c' & ? & ? & _). exists c'. split; [done|congruence].
Qed.

Lemma upsert_grows y l : ∀ c, c ∈ l → ∃ c', c' ∈ upsert sc_claimant claim_better y l ∧
  sc_claimant c' = sc_claimant c ∧ (sc_verified c = true → sc_verified c' = true).
Proof.
  induction l as [|z l IH]; intros c; [by intros ?%not_elem_of_nil|]. simpl. case_bool_decide as E.
  - intros [->|Hc]%elem_of_cons; [|exists c; split; [by right|done]].
    exists (pick claim_better z y). split; [left|]. unfold pick, claim_better.
    destruct (sc_verified y) eqn:Hy, (sc_verified z) eqn:Hz; simpl; split; congruence.
  - intros [->|Hc]%elem_of_cons; [exists z; split; [left|done]|]. destruct (IH c Hc) as (c' & ? & ?). exists c'. split; [by right|done].
Qed.

Lemma upsert_all_grows l' l : ∀ c, c ∈ l → ∃ c', c' ∈ upsert_all sc_claimant claim_better l l' ∧
  sc_claimant c' = sc_claimant c ∧ (sc_verified c = true → sc_verified c' = true).
Proof.
  revert l. induction l' as [|y l' IH]; intros l c Hc; [eauto|]. destruct (upsert_grows y l c Hc) as (c1 & H1 & E1 & V1).
  destruct (IH _ c1 H1) as (c2 & H2 & E2 & V2). exists c2. split_and!; [done|congruence|auto].
Qed.

Lemma intention_merge_le x y : intention_le x (intention_merge x y).
Proof.
  transitivity (ri_set_claims (upsert_all sc_claimant claim_better (ri_claims x) (ri_claims y)) x).
  { apply intention_le_claims, upsert_all_grows. }
  split; simpl; auto.
  - intros ->. done.
  - intros t Ht. rewrite Ht. destruct (ri_completed_at_millis y) as [t'|]; simpl; [|exists t; split; [done|lia]].
    destruct (t' <? t) eqn:E; eexists; (split; [done|]); lia.
Qed.

Lemma submit_le now m p x : intention_le x (ri_submit_claim now m p x).1.
Proof.
  unfold ri_submit_claim. destruct (ri_completed_at_millis x); [reflexivity|]. apply intention_le_claims.
  intros c Hc. exists c. split; [|done]. apply elem_of_app. by left.
Qed.

(** Changing one claim in place, keeping claimant and verification. *)
Lemma alter_claim_le (f : ServiceClaim → ServiceClaim) i x :
  (∀ c, sc_claimant (f c) = sc_claimant c ∧ (sc_verified c = true → sc_verified (f c) = true)) →
  intention_le x (ri_set_claims (alter f i (ri_claims x)) x).
Proof.
  intros Hf. apply intention_le_claims. intros c (j & Hj)%list_elem_of_lookup. destruct (decide (i = j)) as [<-|].
  - exists (f c). split; [|apply Hf]. apply (list_elem_of_lookup_2 _ i). by rewrite list_lookup_alter_eq, Hj.
  - exists c. split; [|done]. apply (list_elem_of_lookup_2 _ j). by rewrite list_lookup_alter_ne.
Qed.

Lemma claim_verify_keeps now c : sc_claimant (claim_verify now c) = sc_claimant c ∧ (sc_verified c = true → sc_verified (claim_verify now c) = true).
Proof. unfold claim_verify. by destruct (sc_verified c) eqn:E; simpl; rewrite ?E. Qed.

Lemma verify_le now i x : intention_le x (ri_verify_claim now i x).1.
Proof. unfold ri_verify_claim. case_match; [reflexivity|]. apply alter_claim_le, claim_verify_keeps. Qed.

Lemma complete_le now x : intention_le x (ri_complete now x).1.
Proof. unfold ri_complete. destruct (ri_completed_at_millis x) eqn:E; [reflexivity|]. by apply intention_le_same; auto. Qed.

(** Documents: every intention is still there, no earlier than it was. *)
Definition intentions_le (d d' : IntentionDocument) : Prop :=
  ∀ x, x ∈ ind_intentions d → ∃ x', x' ∈ ind_intentions d' ∧ intention_le x x'.

#[export] Instance intentions_le_preorder : PreOrder intentions_le.
Proof.
  split.
  - intros d x Hx. exists x. split; [done|reflexivity].
  - intros a b c Hab Hbc x Hx. destruct (Hab x Hx) as (y & Hy & ?). destruct (Hbc y Hy) as (z & Hz & ?).
    exists z. split; [done|]. by transitivity y.
Qed.

Lemma on_first_grows {A E R} (le : relation A) (f : A → bool) (m : M A E R) l : PreOrder le → (∀ x, le x (m x).1) →
  ∀ x, x ∈ l → ∃ x', x' ∈ (on_first f m l).1 ∧ le x x'.
Proof.
  intros Hle Hm. induction l as [|y l IH]; intros x; [by intros ?%not_elem_of_nil|]. simpl. destruct (f y).
  - specialize (Hm y). destruct (m y) as [y' r]. simpl in *.
    intros [->|Hx]%elem_of_cons; [exists y'; split; [left|done]|]. exists x. split; [by right|reflexivity].
  - destruct (on_first f m l) as [l1 r]. simpl in *. intros [->|Hx]%elem_of_cons; [exists y; split; [left|reflexivity]|].
    destruct (IH x Hx) as (x' & ? & ?). exists x'. split; [by right|done].
Qed.

Lemma on_intention_le {E R} id (m : M RealmIntention E R) d : (∀ x, intention_le x (m x).1) → intentions_le d (on_intention id m d).1.
Proof.
  intros Hm. unfold on_intention, intentions_le.
  pose proof (on_first_grows intention_le (is_live id) m (ind_intentions d) _ Hm) as Hg. by destruct (on_first _ _ _).
Qed.

Lemma intentions_add_le x d : intentions_le d (intentions_add x d).
Proof.
  unfold intentions_add. destruct (existsb _ _); [reflexivity|]. intros y Hy. exists y. split; [|reflexivity]. apply elem_of_app. by left.
Qed.

Lemma intentions_merge_le d remote : intentions_le d (intentions_merge d remote).
Proof. intros x. apply merge_indexed_grows; [apply _|]. apply intention_merge_le. Qed.

(** ** The operations of a realm *)

Definition invalid_op {A} (msg : string) : Result A IndraError := Err (IeInvalidOperation msg).

Section RealmIntentions.
Context {I : Type} `{EqDecision I} `{!DocumentCodec IntentionDocument}.
#[local] Existing Instance intentions_schema.
Implicit Types (d : Document IntentionDocument I) (fault : option DbError) (id : list byte).

(** A replica and the outcome: whether the change goes out is in [Documents.v]. *)
Definition doc_outcome {T R} (x : Document T I * Result R IndraError * option (list byte)) : Document T I * Result R IndraError := x.1.

(** The closure of [try_update]: find the intention, or fail. *)
Definition on_found {R} id (m : M RealmIntention IntentionError R) : M IntentionDocument IndraError R := λ doc,
  match on_intention id m doc with
  | (_, None) => (doc, invalid_op "Intention not found")
  | (doc', Some (Ok r)) => (doc', Ok r)
  | (doc', Some (Err e)) => (doc', invalid_op (intention_error_message e))
  end.

(** The closure of [update]: nothing happens where the intention is missing. *)
Definition where_found {R} id (m : M RealmIntention IntentionError R) (doc : IntentionDocument) : IntentionDocument :=
  (on_intention id m doc).1.

(** The check that the caller created the intention. *)
Definition as_creator {A} id (caller : arr32) (refusal : string) (m : M (Document IntentionDocument I) IndraError A)
    : M (Document IntentionDocument I) IndraError A := λ d,
  match intentions_find id (d_state d) with
  | None => (d, invalid_op "Intention not found")
  | Some x => if negb (bool_decide (ri_creator x = caller)) then (d, invalid_op refusal) else m d
  end.

Definition create_intention fault id (now : Z) (title description : string) (image : option ArtifactId) (creator : arr32)
    : M (Document IntentionDocument I) IndraError (list byte) := λ d,
  match doc_outcome (doc_update fault (intentions_add (ri_new id now title description image creator)) d) with
  | (d, Ok _) => (d, Ok id)
  | (d, Err e) => (d, Err e)
  end.

Definition submit_service_claim fault (now : Z) id (claimant : arr32) (proof : option ArtifactId)
    : M (Document IntentionDocument I) IndraError nat := λ d,
  doc_outcome (doc_try_update fault (on_found id (ri_submit_claim now claimant proof)) d).

(** A claim with a proof, then the notice in the chat. *)
Definition submit_intention_proof fault (sent : Result unit IndraError) (now : Z) id (claimant proof_hash : arr32)
    : M (Document IntentionDocument I) IndraError nat := λ d,
  match submit_service_claim fault now id claimant (Some (Blob proof_hash)) d with
  | (d, Ok i) => (d, match sent with Ok _ => Ok i | Err e => Err e end)
  | (d, Err e) => (d, Err e)
  end.

Definition verify_service_claim fault (now : Z) id (index : nat) (caller : arr32) : M (Document IntentionDocument I) IndraError unit :=
  as_creator id caller "Not authorized: only the intention creator can verify claims"
    (λ d, doc_outcome (doc_try_update fault (on_found id (ri_verify_claim now index)) d)).

Definition complete_intention fault (now : Z) id (caller : arr32) : M (Document IntentionDocument I) IndraError unit :=
  as_creator id caller "Not authorized: only the intention creator can complete it"
    (λ d, doc_outcome (doc_try_update fault (on_found id (ri_complete now)) d)).

Definition set_intention_deadline fault id (deadline : Z) : M (Document IntentionDocument I) IndraError unit := λ d,
  doc_outcome (doc_update fault (where_found id (always (ri_set_deadline (Some deadline)))) d).
Definition set_intention_priority fault id (p : IntentionPriority) : M (Document IntentionDocument I) IndraError unit := λ d,
  doc_outcome (doc_update fault (where_found id (always (ri_set_priority p))) d).
Definition update_intention fault id (title description : string) : M (Document IntentionDocument I) IndraError unit := λ d,
  doc_outcome (doc_update fault (where_found id (always (λ x, ri_set_description description (ri_set_title title x)))) d).
Definition delete_intention fault id : M (Document IntentionDocument I) IndraError unit := λ d,
  doc_outcome (doc_update fault (intentions_delete id) d).

(** *** The home realm: one member, and failures are dropped *)

Definition welcome_title : string := "Explore your home realm".

Definition seed_welcome_intention_if_empty fault id (now : Z) (text : string) (member : arr32) : M (Document IntentionDocument I) IndraError unit := λ d,
  if (0 <? intention_count (d_state d))%nat then (d, Ok tt)
  else doc_outcome (doc_update fault (intentions_add (ri_new id now welcome_title text None member)) d).

Definition home_complete_intention fault (now : Z) id : M (Document IntentionDocument I) IndraError unit := λ d,
  doc_outcome (doc_update fault (where_found id (ri_complete now)) d).
Definition home_verify_service_claim fault (now : Z) id (index : nat) : M (Document IntentionDocument I) IndraError unit := λ d,
  doc_outcome (doc_update fault (where_found id (ri_verify_claim now index)) d).

(** The index is that of the new claim, or 0 where there is none. *)
Definition home_submit_service_claim fault (now : Z) id (member : arr32) (proof : option ArtifactId)
    : M (Document IntentionDocument I) IndraError nat := λ d,
  let index := match (on_intention id (ri_submit_claim now member proof) (d_state d)).2 with Some (Ok i) => i | _ => 0%nat end in
  match doc_outcome (doc_update fault (where_found id (ri_submit_claim now member proof)) d) with
  | (d, Ok _) => (d, Ok index)
  | (d, Err e) => (d, Err e)
  end.

(** *** What they do *)

Lemma on_first_find {A E R} (f : A → bool) (m : M A E R) l :
  match on_first f m l with
  | (_, None) => find_first f l = None
  | (l', Some r) => ∃ l1 x l2, l = l1 ++ x :: l2 ∧ find_first f l = Some x ∧ (m x).2 = r ∧ l' = l1 ++ (m x).1 :: l2
  end.
Proof.
  induction l as [|x l IH]; simpl; [done|]. destruct (f x).
  - destruct (m x) as [x' r] eqn:Em. exists [], x, l. by rewrite Em.
  - destruct (on_first f m l) as [l' [r|]]; [|done]. destruct IH as (l1 & y & l2 & -> & ? & ? & ->). exists (x :: l1), y, l2. done.
Qed.

(** A [try_update] on an intention that succeeds ran the operation on it, and on
    nothing else. *)
Lemma on_found_ok {R} fault id (m : M RealmIntention IntentionError R) d d' r :
  doc_outcome (doc_try_update fault (on_found id m) d) = (d', Ok r) →
  ∃ l1 x l2, ind_intentions (d_state d) = l1 ++ x :: l2 ∧ intentions_find id (d_state d) = Some x ∧ (m x).2 = Ok r ∧
    ind_intentions (d_state d') = l1 ++ (m x).1 :: l2 ∧ is_Some (d_snapshot d').
Proof.
  destruct (doc_try_update fault (on_found id m) d) as [[d1 [x|]] msg] eqn:E; intros [=]; subst.
  apply try_update_ok in E as (E & Hs & _). unfold on_found, on_intention in E.
  pose proof (on_first_find (is_live id) m (ind_intentions (d_state d))) as Hf.
  destruct (on_first _ _ _) as [l [[y|]|]]; simplify_eq. destruct Hf as (l1 & x & l2 & ? & ? & ? & ->).
  exists l1, x, l2. match goal with H : _ = d_state _ |- _ => rewrite <-H end. done.
Qed.

(** Only the creator verifies a claim; exactly that claim becomes verified. *)
Lemma verify_service_claim_ok fault now id index caller d d' : verify_service_claim fault now id index caller d = (d', Ok tt) →
  ∃ l1 x l2 c, ind_intentions (d_state d) = l1 ++ x :: l2 ∧ intentions_find id (d_state d) = Some x ∧ ri_creator x = caller ∧
    ri_claims x !! index = Some c ∧
    ind_intentions (d_state d') = l1 ++ ri_set_claims (<[index := claim_verify now c]> (ri_claims x)) x :: l2 ∧
    sc_verified (claim_verify now c) = true.
Proof.
  unfold verify_service_claim, as_creator. destruct (intentions_find id _) as [x|] eqn:Ex; [|done].
  case_bool_decide as Hc; simpl; [|done]. intros (l1 & x' & l2 & Hl & Hf & Hr & Hl' & _)%on_found_ok.
  rewrite Ex in Hf. injection Hf as <-. unfold ri_verify_claim in Hr, Hl'.
  destruct (Nat.leb_spec (length (ri_claims x)) index) as [|Hlt]; [done|]. apply lookup_lt_is_Some in Hlt as [c Hi].
  exists l1, x, l2, c. split_and!; try done.
  - rewrite Hl'. simpl. do 3 f_equal. apply list_eq. intros j. destruct (decide (index = j)) as [<-|].
    + by rewrite list_lookup_alter_eq, Hi, list_lookup_insert_eq by (by eapply lookup_lt_Some).
    + by rewrite list_lookup_alter_ne, list_lookup_insert_ne.
  - unfold claim_verify. by destruct (sc_verified c) eqn:E.
Qed.

(** Whoever did not create an intention leaves the realm unchanged. *)
Lemma not_creator_refused {A} id caller refusal (m : M (Document IntentionDocument I) IndraError A) d :
  (∀ x, intentions_find id (d_state d) = Some x → ri_creator x ≠ caller) → ∃ msg, as_creator id caller refusal m d = (d, invalid_op msg).
Proof.
  intros Hn. unfold as_creator. destruct (intentions_find id _) as [x|] eqn:E; [|eauto].
  rewrite bool_decide_false by (by apply Hn). simpl. eauto.
Qed.

(** A claim that is accepted is the last of its intention, which was not
    complete. *)
Lemma submit_service_claim_ok fault now id claimant proof d d' i : submit_service_claim fault now id claimant proof d = (d', Ok i) →
  ∃ l1 x l2, ind_intentions (d_state d) = l1 ++ x :: l2 ∧ intentions_find id (d_state d) = Some x ∧
    ri_completed_at_millis x = None ∧ i = length (ri_claims x) ∧
    ind_intentions (d_state d') = l1 ++ ri_set_claims (ri_claims x ++ [claim_new now claimant proof]) x :: l2.
Proof.
  intros (l1 & x & l2 & Hl & Hf & Hr & Hl' & _)%on_found_ok. exists l1, x, l2. unfold ri_submit_claim in *.
  destruct (ri_completed_at_millis x) eqn:E; simplify_eq/=. done.
Qed.
End RealmIntentions.

(** ** Replicas only move up

    Where merging (and applying a delta) moves up a preorder, everything a
    replica receives does. *)
Section Growing.
Context {T I : Type} `{DocumentSchema T, DocumentCodec T, EqDecision I}.
Context (le : relation T) `{!PreOrder le}.
Context (le_merge : ∀ s r, le s (doc_merge s r)) (le_delta : ∀ s b, le s (apply_delta s b).1).
Implicit Types (d : Document T I) (e : LogEvent I).

Lemma update_state fault (f : T → T) d : d_state (doc_update fault f d).1.1 = f (d_state d).
Proof.
  unfold doc_update, commit. destruct (change_message _ _ _); [|done]. simpl.
  unfold persist. simpl. destruct (encode_state _); [|done]. by destruct fault.
Qed.

Lemma try_update_state {R} fault (f : M T IndraError R) d :
  d_state (doc_try_update fault f d).1.1 = d_state d ∨ d_state (doc_try_update fault f d).1.1 = (f (d_state d)).1.
Proof.
  unfold doc_try_update. destruct (f (d_state d)) as [s [r|]]; [|by left]. right. unfold commit.
  destruct (change_message _ _ _); [|done]. simpl. unfold persist. simpl. destruct (encode_state _); [|done]. by destruct fault.
Qed.

Lemma persist_quietly_state fault d : d_state (persist_quietly fault d) = d_state d.
Proof. unfold persist_quietly, persist. destruct (encode_state _); [|done]. by destruct fault. Qed.

Lemma incoming_grows legacy name content f s : incoming legacy name content = Some f → le s (f s).
Proof.
  unfold incoming. destruct (delta_for name content); [by intros [= <-]|].
  destruct (state_for legacy name content); simpl; [|done]. by intros [= <-].
Qed.

Lemma crdt_step_grows name acc e : le acc.1 (crdt_step name acc e).1.
Proof.
  unfold crdt_step. destruct e; try reflexivity. destruct (incoming false name _) eqn:E; [|reflexivity]. by eapply incoming_grows.
Qed.

Lemma refresh_step_grows name acc e : le acc.1 (refresh_step name acc e).1.
Proof. unfold refresh_step. destruct e; try reflexivity. destruct (state_for true name _); [apply le_merge|reflexivity]. Qed.

Lemma foldl_grows (f : T * bool → LogEvent I → T * bool) acc l : (∀ a e, le a.1 (f a e).1) → le acc.1 (foldl f acc l).1.
Proof. intros Hf. revert acc. induction l as [|e l IH]; intros acc; simpl; [reflexivity|]. by transitivity (f acc e).1. Qed.

Lemma notice_grows fault me log n d : le (d_state d) (d_state (on_notice fault me log n d)).
Proof.
  assert (Hr : le (d_state d) (d_state (refresh_from_crdt fault log d).1)).
  { unfold refresh_from_crdt. destruct log as [l|]; [|reflexivity].
    pose proof (foldl_grows (crdt_step (d_name d)) (d_state d, false) l (crdt_step_grows _)) as Hf.
    destruct (foldl _ _ l) as [s [|]]; simpl in *; [|done]. case_bool_decide; simpl; [done|].
    by rewrite persist_quietly_state. }
  destruct n as [e| |]; try exact Hr. simpl. unfold on_event. destruct e; try reflexivity.
  case_bool_decide; [reflexivity|]. destruct (incoming true _ _) eqn:E; [|reflexivity]. simpl.
  rewrite persist_quietly_state. simpl. by eapply incoming_grows.
Qed.

Lemma refresh_grows fault crdt stored d : le (d_state d) (d_state (doc_refresh fault crdt stored d).1).
Proof.
  assert (Hp : ∀ (l : option (list (LogEvent I))) acc, le acc.1 (refresh_pass (d_name d) l acc).1).
  { intros [l|] acc; [|reflexivity]. apply foldl_grows. intros. apply refresh_step_grows. }
  unfold doc_refresh. pose proof (Hp crdt (d_state d, false)) as H1. destruct (refresh_pass _ crdt _) as [s u]. simpl in H1.
  assert (Hs : ∀ s', le s s' → le (d_state d) s') by (intros; by transitivity s).
  assert (Hfin : ∀ s', le s s' → ∀ u', le (d_state d) (d_state
    (if negb u' then (set_d_state s' d, Ok false) else match persist fault (set_d_state s' d) with
     | (d, Ok _) => (notify None true d, Ok true) | (d, Err e) => (d, Err e) end).1)).
  { intros s' Hs' u'. destruct u'; simpl; [|by apply Hs]. pose proof (persist_quietly_state fault (set_d_state s' d)) as Hq.
    unfold persist_quietly in Hq. destruct (persist fault _) as [d1 [x|]]; simpl in *; rewrite Hq; by apply Hs. }
  destruct u; [apply (Hfin s); reflexivity|]. pose proof (Hp stored (s, false)) as H2.
  destruct (refresh_pass _ stored _) as [s2 u2]. by apply Hfin.
Qed.
End Growing.
