(* ===== verification/ProofDoc.v ===== *)
(** * Proof folders and notes of a realm

    Models, of [indras-sync-engine/src]: [proof_folder.rs] (the documentation of
    a claim, drafted and then submitted), [realm_proof_folders.rs] (its
    operations, which also change the intentions of [IntentionDoc.v]),
    [note.rs], [realm_notes.rs] and [home_realm_notes.rs]; and what every
    operation on the intentions of a realm preserves. *)

From S2P Require Import Prelude Artifact Crypto Attention Packet Pending EventStore Documents Convergence IntentionDoc.

(** ** Proof folders *)

Inductive ProofFolderStatus : Type := FDraft | FSubmitted.

#[global] Instance ProofFolderStatus_eq_dec : EqDecision ProofFolderStatus.
Proof. solve_decision. Defined.

Record ProofFolderArtifact : Type := {
  pfa_artifact_id : ArtifactId;
  pfa_name : string;
  pfa_size : Z;
  pfa_mime_type : option string;
  pfa_caption : option string;
  pfa_added_at_millis : Z;
}.
Definition pfa_new (now : Z) (id : ArtifactId) (name : string) (size : Z) (mime : option string) : ProofFolderArtifact :=
  {| pfa_artifact_id := id; pfa_name := name; pfa_size := size; pfa_mime_type := mime; pfa_caption := None; pfa_added_at_millis := now |}.
Definition pfa_with_caption (now : Z) (id : ArtifactId) (name : string) (size : Z) (mime : option string) (caption : string) : ProofFolderArtifact :=
  {| pfa_artifact_id := id; pfa_name := name; pfa_size := size; pfa_mime_type := mime; pfa_caption := Some caption; pfa_added_at_millis := now |}.

Record ProofFolder : Type := {
  pf_id : list byte;
  pf_intention_id : list byte;
  pf_claimant : arr32;
  pf_narrative : string;
  pf_artifacts : list ProofFolderArtifact;
  pf_status : ProofFolderStatus;
  pf_created_at_millis : Z;
  pf_submitted_at_millis : option Z;
}.
Definition pf_with (narrative : string) (artifacts : list ProofFolderArtifact) (status : ProofFolderStatus) (submitted : option Z)
    (f : ProofFolder) : ProofFolder :=
  {| pf_id := pf_id f; pf_intention_id := pf_intention_id f; pf_claimant := pf_claimant f; pf_narrative := narrative;
     pf_artifacts := artifacts; pf_status := status; pf_created_at_millis := pf_created_at_millis f; pf_submitted_at_millis := submitted |}.

Inductive ProofFolderError : Type := PfNotDraft | PfAlreadySubmitted | PfNotFound | PfArtifactNotFound.
Definition proof_folder_error_message (e : ProofFolderError) : string :=
  match e with
  | PfNotDraft => "Proof folder is not in draft status"
  | PfAlreadySubmitted => "Proof folder has already been submitted"
  | PfNotFound => "Proof folder not found"
  | PfArtifactNotFound => "Artifact not found in proof folder"
  end.

Definition pf_new (id : list byte) (now : Z) (intention : list byte) (claimant : arr32) : ProofFolder :=
  {| pf_id := id; pf_intention_id := intention; pf_claimant := claimant; pf_narrative := ""; pf_artifacts := [];
     pf_status := FDraft; pf_created_at_millis := now; pf_submitted_at_millis := None |}.

Definition pf_is_draft (f : ProofFolder) : bool := match pf_status f with FDraft => true | FSubmitted => false end.
Definition pf_is_submitted (f : ProofFolder) : bool := match pf_status f with FSubmitted => true | FDraft => false end.

Definition pf_set_narrative (narrative : string) : M ProofFolder ProofFolderError unit := λ f,
  if negb (pf_is_draft f) then (f, Err PfNotDraft)
  else (pf_with narrative (pf_artifacts f) (pf_status f) (pf_submitted_at_millis f) f, Ok tt).
Definition pf_add_artifact (a : ProofFolderArtifact) : M ProofFolder ProofFolderError unit := λ f,
  if negb (pf_is_draft f) then (f, Err PfNotDraft)
  else (pf_with (pf_narrative f) (pf_artifacts f ++ [a]) (pf_status f) (pf_submitted_at_millis f) f, Ok tt).
Definition pf_remove_artifact (id : ArtifactId) : M ProofFolder ProofFolderError unit := λ f,
  if negb (pf_is_draft f) then (f, Err PfNotDraft)
  else
    let l := retain (λ a, negb (bool_decide (pfa_artifact_id a = id))) (pf_artifacts f) in
    let f' := pf_with (pf_narrative f) l (pf_status f) (pf_submitted_at_millis f) f in
    if (length l =? length (pf_artifacts f))%nat then (f', Err PfArtifactNotFound) else (f', Ok tt).
Definition pf_submit (now : Z) : M ProofFolder ProofFolderError unit := λ f,
  if pf_is_submitted f then (f, Err PfAlreadySubmitted)
  else (pf_with (pf_narrative f) (pf_artifacts f) FSubmitted (Some now) f, Ok tt).

(** The bytes of the first [n] characters of a UTF-8 text: a character starts at
    each byte that is not a continuation byte. *)
Fixpoint take_chars (n : nat) (l : list byte) : list byte :=
  match l with
  | [] => []
  | b :: l =>
      if continuation b then b :: take_chars n l
      else match n with 0%nat => [] | S n => b :: take_chars n l end
  end.

(** The limit is 100 characters, but the ellipsis is for more than 100 bytes. *)
Definition pf_narrative_preview (f : ProofFolder) : string :=
  let bytes := as_bytes (pf_narrative f) in
  let chars := string_of_list_byte (take_chars 100 bytes) in
  if (100 <? length bytes)%nat then chars +:+ "..." else chars.

Definition pf_artifact_count (f : ProofFolder) : nat := length (pf_artifacts f).
Definition pf_find_artifact (id : ArtifactId) (f : ProofFolder) : option ProofFolderArtifact :=
  find_first (λ a, bool_decide (pfa_artifact_id a = id)) (pf_artifacts f).

Record ProofFolderDocument : Type := { pfd_folders : list ProofFolder }.
Definition folders_default : ProofFolderDocument := {| pfd_folders := [] |}.

(** The identifiers are those before the merge. *)
Definition folders_merge (d remote : ProofFolderDocument) : ProofFolderDocument :=
  let existing : gset (list byte) := list_to_set (pf_id <$> pfd_folders d) in
  {| pfd_folders := pfd_folders d ++ retain (λ f, negb (bool_decide (pf_id f ∈ existing))) (pfd_folders remote) |}.

Definition folders_schema : DocumentSchema ProofFolderDocument := merging_schema folders_default folders_merge.

Definition folders_add (f : ProofFolder) (d : ProofFolderDocument) : ProofFolderDocument := {| pfd_folders := pfd_folders d ++ [f] |}.
Definition has_folder_id (id : list byte) (f : ProofFolder) : bool := bool_decide (pf_id f = id).
Definition folders_find (id : list byte) (d : ProofFolderDocument) : option ProofFolder := find_first (has_folder_id id) (pfd_folders d).
Definition on_folder {E R} (id : list byte) (m : M ProofFolder E R) (d : ProofFolderDocument) : ProofFolderDocument * option (Result R E) :=
  let '(l, r) := on_first (has_folder_id id) m (pfd_folders d) in ({| pfd_folders := l |}, r).

Definition folders_for_intention (i : list byte) (d : ProofFolderDocument) : list ProofFolder :=
  retain (λ f, bool_decide (pf_intention_id f = i)) (pfd_folders d).
Definition folders_by_claimant (m : arr32) (d : ProofFolderDocument) : list ProofFolder :=
  retain (λ f, bool_decide (pf_claimant f = m)) (pfd_folders d).
Definition draft_folders (d : ProofFolderDocument) : list ProofFolder := retain pf_is_draft (pfd_folders d).
Definition submitted_folders (d : ProofFolderDocument) : list ProofFolder := retain pf_is_submitted (pfd_folders d).
Definition draft_folders_for_intention (i : list byte) (d : ProofFolderDocument) : list ProofFolder :=
  retain (λ f, bool_decide (pf_intention_id f = i) && pf_is_draft f) (pfd_folders d).
Definition submitted_folders_for_intention (i : list byte) (d : ProofFolderDocument) : list ProofFolder :=
  retain (λ f, bool_decide (pf_intention_id f = i) && pf_is_submitted f) (pfd_folders d).

(** *** A submitted folder is final *)

(** A folder [f'] later than [f]. *)
Record folder_le (f f' : ProofFolder) : Prop := {
  fl_id : pf_id f' = pf_id f;
  fl_claim : pf_intention_id f' = pf_intention_id f ∧ pf_claimant f' = pf_claimant f;
  fl_final : pf_is_submitted f = true → f' = f;
}.

#[export] Instance folder_le_preorder : PreOrder folder_le.
Proof.
  split.
  - intros f. by split.
  - intros f g h [] []. split; [congruence|naive_solver congruence|]. intros Hs. assert (g = f) as -> by auto. auto.
Qed.

Lemma pf_set_narrative_le s f : folder_le f (pf_set_narrative s f).1.
Proof. unfold pf_set_narrative, pf_is_draft. destruct (pf_status f) eqn:E; [|reflexivity]. split; try done. unfold pf_is_submitted. by rewrite E. Qed.
Lemma pf_add_artifact_le a f : folder_le f (pf_add_artifact a f).1.
Proof. unfold pf_add_artifact, pf_is_draft. destruct (pf_status f) eqn:E; [|reflexivity]. split; try done. unfold pf_is_submitted. by rewrite E. Qed.
Lemma pf_remove_artifact_le a f : folder_le f (pf_remove_artifact a f).1.
Proof.
  unfold pf_remove_artifact, pf_is_draft. destruct (pf_status f) eqn:E; [|reflexivity]. simpl.
  destruct (_ =? _)%nat; (split; try done); unfold pf_is_submitted; by rewrite E.
Qed.
Lemma pf_submit_le now f : folder_le f (pf_submit now f).1.
Proof. unfold pf_submit. destruct (pf_is_submitted f) eqn:E; [reflexivity|]. by split; [..|rewrite E]. Qed.

Definition folders_le (d d' : ProofFolderDocument) : Prop := ∀ f, f ∈ pfd_folders d → ∃ f', f' ∈ pfd_folders d' ∧ folder_le f f'.

#[export] Instance folders_le_preorder : PreOrder folders_le.
Proof.
  split.
  - intros d x Hx. exists x. split; [done|reflexivity].
  - intros a b c Hab Hbc x Hx. destruct (Hab x Hx) as (y & Hy & ?). destruct (Hbc y Hy) as (z & Hz & ?).
    exists z. split; [done|]. by transitivity y.
Qed.

Lemma on_folder_le {E R} id (m : M ProofFolder E R) d : (∀ f, folder_le f (m f).1) → folders_le d (on_folder id m d).1.
Proof.
  intros Hm. unfold on_folder, folders_le.
  pose proof (on_first_grows folder_le (has_folder_id id) m (pfd_folders d) _ Hm) as Hg. by destruct (on_first _ _ _).
Qed.

Lemma folders_merge_le d remote : folders_le d (folders_merge d remote).
Proof. intros f Hf. exists f. split; [|reflexivity]. apply elem_of_app. by left. Qed.

Lemma folders_add_le f d : folders_le d (folders_add f d).
Proof. intros g Hg. exists g. split; [|reflexivity]. apply elem_of_app. by left. Qed.

(** A replica that holds the draft never learns of the submission. *)
Lemma submission_never_arrives now f :
  folders_merge {| pfd_folders := [f] |} {| pfd_folders := [(pf_submit now f).1] |} = {| pfd_folders := [f] |}.
Proof.
  unfold folders_merge. cbn [pfd_folders]. rewrite list_fmap_singleton. cbn [list_to_set].
  assert (pf_id (pf_submit now f).1 = pf_id f) as E by apply (pf_submit_le now f).
  simpl. rewrite E, bool_decide_true by set_solver. done.
Qed.

(** Folders that do not change spread like a grow-only set. *)
Lemma folders_merge_lookup d remote k : find_key pf_id k (pfd_folders (folders_merge d remote)) =
  match find_key pf_id k (pfd_folders d) with Some f => Some f | None => find_key pf_id k (pfd_folders remote) end.
Proof.
  simpl. assert (Happ : ∀ l l' : list ProofFolder, find_key pf_id k (l ++ l') =
    match find_key pf_id k l with Some f => Some f | None => find_key pf_id k l' end).
  { induction l as [|f l IH]; intros l'; [done|]. rewrite <-app_comm_cons, !find_key_cons. by case_bool_decide. }
  rewrite Happ. destruct (find_key pf_id k (pfd_folders d)) as [f|] eqn:Ek; [done|]. apply find_key_none in Ek.
  induction (pfd_folders remote) as [|f l IH]; [done|]. simpl. rewrite find_key_cons.
  destruct (bool_decide_reflect (pf_id f ∈ (list_to_set (pf_id <$> pfd_folders d) : gset (list byte)))) as [Hin|Hin]; simpl.
  - rewrite IH, bool_decide_false; [done|]. intros <-. apply Ek. by rewrite elem_of_list_to_set in Hin.
  - rewrite find_key_cons. by case_bool_decide.
Qed.

(** ** The operations of a realm on its folders *)

Section RealmProofFolders.
Context {I : Type} `{EqDecision I} `{!DocumentCodec IntentionDocument, !DocumentCodec ProofFolderDocument}.
#[local] Existing Instance intentions_schema.
#[local] Existing Instance folders_schema.
Implicit Types (d : Document ProofFolderDocument I) (fault : option DbError) (id : list byte).

Definition create_proof_folder fault id (now : Z) (intention : list byte) (claimant : arr32)
    : M (Document ProofFolderDocument I) IndraError (list byte) := λ d,
  match doc_outcome (doc_update fault (folders_add (pf_new id now intention claimant)) d) with
  | (d, Ok _) => (d, Ok id)
  | (d, Err e) => (d, Err e)
  end.

(** [update] with a [result] that the closure assigns: a failing operation is
    stored and sent all the same, and reported afterwards. *)
Definition update_folder fault id (msg : ProofFolderError → string) (m : M ProofFolder ProofFolderError unit)
    : M (Document ProofFolderDocument I) IndraError unit := λ d,
  let result := match (on_folder id m (d_state d)).2 with
                | None => invalid_op "Proof folder not found"
                | Some (Ok _) => Ok tt
                | Some (Err e) => invalid_op (msg e)
                end in
  match doc_outcome (doc_update fault (λ s, (on_folder id m s).1) d) with
  | (d, Ok _) => (d, result)
  | (d, Err e) => (d, Err e)
  end.

Definition update_proof_folder_narrative fault id (narrative : string) : M (Document ProofFolderDocument I) IndraError unit :=
  update_folder fault id (λ e, match e with PfNotDraft => "Cannot update narrative: folder is not in draft status"
                                          | _ => proof_folder_error_message e end) (pf_set_narrative narrative).
Definition add_artifact_to_proof_folder fault id (a : ProofFolderArtifact) : M (Document ProofFolderDocument I) IndraError unit :=
  update_folder fault id (λ e, match e with PfNotDraft => "Cannot add artifact: folder is not in draft status"
                                          | _ => proof_folder_error_message e end) (pf_add_artifact a).
Definition remove_artifact_from_proof_folder fault id (a : ArtifactId) : M (Document ProofFolderDocument I) IndraError unit :=
  update_folder fault id (λ e, match e with PfNotDraft => "Cannot remove artifact: folder is not in draft status"
                                          | PfArtifactNotFound => "Artifact not found in folder"
                                          | _ => proof_folder_error_message e end) (pf_remove_artifact a).

(** The claim of a submitted folder: attached to the first claim of the
    claimant, or a new claim; the index of the claim. *)
Fixpoint attach_folder (now : Z) (claimant : arr32) (folder : list byte) (l : list ServiceClaim) : list ServiceClaim * nat :=
  match l with
  | [] => ([claim_with_proof_folder now claimant folder], 0%nat)
  | c :: l =>
      if bool_decide (sc_claimant c = claimant) then (claim_set_proof_folder folder c :: l, 0%nat)
      else let '(l', i) := attach_folder now claimant folder l in (c :: l', S i)
  end.
Definition ri_attach_folder (now : Z) (claimant : arr32) (folder : list byte) : M RealmIntention IntentionError nat := λ x,
  let '(l, i) := attach_folder now claimant folder (ri_claims x) in (ri_set_claims l x, Ok i).

(** The two documents of [submit_proof_folder]. *)
Record WorkDocs : Type := { wd_folders : Document ProofFolderDocument I; wd_intentions : Document IntentionDocument I }.

Definition submit_proof_folder (pfault ifault : option DbError) (sent : Result unit IndraError) (now : Z) id : M WorkDocs IndraError nat := λ w,
  match folders_find id (d_state (wd_folders w)) with
  | None => (w, invalid_op "Proof folder not found")
  | Some f =>
      if pf_is_submitted f then (w, invalid_op "Proof folder has already been submitted")
      else
        let submit_result := match (on_folder id (pf_submit now) (d_state (wd_folders w))).2 with
                             | Some (Err e) => invalid_op (proof_folder_error_message e)
                             | _ => Ok tt
                             end in
        match doc_outcome (doc_update pfault (λ s, (on_folder id (pf_submit now) s).1) (wd_folders w)) with
        | (d, Err e) => ({| wd_folders := d; wd_intentions := wd_intentions w |}, Err e)
        | (d, Ok _) =>
            match submit_result with
            | Err e => ({| wd_folders := d; wd_intentions := wd_intentions w |}, Err e)
            | Ok _ =>
                let attach := ri_attach_folder now (pf_claimant f) id in
                let claim_index := match (on_intention (pf_intention_id f) attach (d_state (wd_intentions w))).2 with
                                   | Some (Ok i) => i | _ => 0%nat end in
                match doc_outcome (doc_update ifault (where_found (pf_intention_id f) attach) (wd_intentions w)) with
                | (di, Err e) => ({| wd_folders := d; wd_intentions := di |}, Err e)
                | (di, Ok _) => ({| wd_folders := d; wd_intentions := di |}, match sent with Ok _ => Ok claim_index | Err e => Err e end)
                end
            end
        end
  end.

Lemma attach_folder_spec now m folder l : let '(l', i) := attach_folder now m folder l in
  ∃ c, l' !! i = Some c ∧ sc_claimant c = m ∧ sc_proof_folder c = Some folder.
Proof.
  induction l as [|c l IH]; simpl; [by eexists|]. case_bool_decide as E; [by eexists|].
  destruct (attach_folder now m folder l) as [l' i]. exact IH.
Qed.

Lemma attach_folder_le now m folder x : intention_le x (ri_attach_folder now m folder x).1.
Proof.
  unfold ri_attach_folder. pose proof (intention_le_claims x (attach_folder now m folder (ri_claims x)).1) as Hle.
  destruct (attach_folder now m folder (ri_claims x)) as [l i] eqn:E. simpl in *. apply Hle.
  assert (l = (attach_folder now m folder (ri_claims x)).1) as -> by (by rewrite E). clear. induction (ri_claims x) as [|c cs IH]; intros c0.
  { by intros ?%not_elem_of_nil. }
  simpl. case_bool_decide.
  - intros [->|Hc]%elem_of_cons; [exists (claim_set_proof_folder folder c)|exists c0]; (split; [|done]); [by left|by right].
  - destruct (attach_folder now m folder cs) as [l' i]. simpl in *. intros [->|Hc]%elem_of_cons; [exists c; split; [by left|done]|].
    destruct (IH c0 Hc) as (c' & ? & ?). exists c'. split; [by right|done].
Qed.

Lemma on_folder_found {E R} id (m : M ProofFolder E R) s f : folders_find id s = Some f →
  ∃ l1 l2, pfd_folders s = l1 ++ f :: l2 ∧ on_folder id m s = ({| pfd_folders := l1 ++ (m f).1 :: l2 |}, Some (m f).2).
Proof.
  unfold folders_find, on_folder. intros Hf. pose proof (on_first_find (has_folder_id id) m (pfd_folders s)) as Hs.
  destruct (on_first _ _ _) as [l [r|]]; [|congruence]. destruct Hs as (l1 & f' & l2 & Hl & Hf' & <- & ->). simplify_eq. eauto.
Qed.

Lemma on_intention_found {E R} id (m : M RealmIntention E R) s : 
  match intentions_find id s with
  | Some x => ∃ l1 l2, ind_intentions s = l1 ++ x :: l2 ∧ on_intention id m s = ({| ind_intentions := l1 ++ (m x).1 :: l2 |}, Some (m x).2)
  | None => (on_intention id m s).2 = None
  end.
Proof.
  unfold intentions_find, on_intention. pose proof (on_first_find (is_live id) m (ind_intentions s)) as Hs.
  destruct (on_first _ _ _) as [l [r|]]; [|by rewrite Hs]. destruct Hs as (l1 & f' & l2 & Hl & -> & <- & ->). eauto.
Qed.

(** A submission that succeeds turns the draft into a submitted folder, and the
    claim at the returned index carries it, where the intention is there. *)
Lemma submit_proof_folder_ok pfault ifault sent now id w w' i : submit_proof_folder pfault ifault sent now id w = (w', Ok i) →
  ∃ l1 f l2, pfd_folders (d_state (wd_folders w)) = l1 ++ f :: l2 ∧ folders_find id (d_state (wd_folders w)) = Some f ∧
    pf_is_submitted f = false ∧
    pfd_folders (d_state (wd_folders w')) = l1 ++ pf_with (pf_narrative f) (pf_artifacts f) FSubmitted (Some now) f :: l2 ∧
    match intentions_find (pf_intention_id f) (d_state (wd_intentions w)) with
    | None => i = 0%nat
    | Some x => ∃ x' c, x' ∈ ind_intentions (d_state (wd_intentions w')) ∧ intention_le x x' ∧
        ri_claims x' !! i = Some c ∧ sc_claimant c = pf_claimant f ∧ sc_proof_folder c = Some id
    end.
Proof.
  unfold submit_proof_folder. destruct (folders_find id _) as [f|] eqn:Ef; [|done]. destruct (pf_is_submitted f) eqn:Es; [done|].
  destruct (on_folder_found id (pf_submit now) _ f Ef) as (l1 & l2 & Hl & Hon).
  assert (Hsub : pf_submit now f = (pf_with (pf_narrative f) (pf_artifacts f) FSubmitted (Some now) f, Ok tt)) by (unfold pf_submit; by rewrite Es).
  rewrite Hsub in Hon. rewrite Hon. pose proof (update_state pfault (λ s, (on_folder id (pf_submit now) s).1) (wd_folders w)) as Hus.
  cbv beta in Hus. rewrite Hon in Hus. unfold doc_outcome. destruct (doc_update pfault _ (wd_folders w)) as [[d [u|]] m1]; simpl in Hus |- *; [|done].
  set (attach := ri_attach_folder now (pf_claimant f) id).
  pose proof (on_intention_found (pf_intention_id f) attach (d_state (wd_intentions w))) as Hi.
  pose proof (update_state ifault (where_found (pf_intention_id f) attach) (wd_intentions w)) as Hui. unfold where_found in Hui at 2.
  destruct (doc_update ifault _ (wd_intentions w)) as [[di [u2|]] m2]; simpl in Hui |- *; [|done].
  destruct sent as [u3|]; [|done]. intros [= <- <-]. exists l1, f, l2. simpl. split_and!; try done; [by rewrite Hus|].
  destruct (intentions_find _ _) as [x|]; [|by rewrite Hi]. destruct Hi as (k1 & k2 & Hk & Hion). rewrite Hion in Hui |- *. simpl in Hui |- *.
  exists (attach x).1. pose proof (attach_folder_le now (pf_claimant f) id x) as Hle.
  pose proof (attach_folder_spec now (pf_claimant f) id (ri_claims x)) as Hspec. rewrite Hui. fold attach in Hle.
  unfold attach, ri_attach_folder in *. destruct (attach_folder _ _ _ _) as [cl i]. simpl in Hle |- *.
  destruct Hspec as (c & ? & ? & ?). exists c. split_and!; try done. set_solver.
Qed.

(** *** Everything that happens to the work of a realm

    The operations of members, in any order, whether they succeed or fail, and
    whatever arrives from other replicas. *)
Inductive member_op : ∀ {A}, M (Document IntentionDocument I) IndraError A → Prop :=
| MoCreate fault id now t dsc img c : member_op (create_intention fault id now t dsc img c)
| MoClaim fault now id m p : member_op (submit_service_claim fault now id m p)
| MoProof fault sent now id m h : member_op (submit_intention_proof fault sent now id m h)
| MoVerify fault now id i c : member_op (verify_service_claim fault now id i c)
| MoComplete fault now id c : member_op (complete_intention fault now id c)
| MoDeadline fault id t : member_op (set_intention_deadline fault id t)
| MoPriority fault id p : member_op (set_intention_priority fault id p)
| MoUpdate fault id t dsc : member_op (update_intention fault id t dsc)
| MoDelete fault id : member_op (delete_intention fault id)
| MoSeed fault id now t m : member_op (seed_welcome_intention_if_empty fault id now t m)
| MoHomeComplete fault now id : member_op (home_complete_intention fault now id)
| MoHomeVerify fault now id i : member_op (home_verify_service_claim fault now id i)
| MoHomeClaim fault now id m p : member_op (home_submit_service_claim fault now id m p).

Inductive folder_op : ∀ {A}, M (Document ProofFolderDocument I) IndraError A → Prop :=
| FoCreate fault id now i c : folder_op (create_proof_folder fault id now i c)
| FoNarrative fault id s : folder_op (update_proof_folder_narrative fault id s)
| FoAdd fault id a : folder_op (add_artifact_to_proof_folder fault id a)
| FoRemove fault id a : folder_op (remove_artifact_from_proof_folder fault id a).

Inductive work_step : WorkDocs → WorkDocs → Prop :=
| WsIntention {A} (m : M (Document IntentionDocument I) IndraError A) w : member_op m →
    work_step w {| wd_folders := wd_folders w; wd_intentions := (m (wd_intentions w)).1 |}
| WsFolder {A} (m : M (Document ProofFolderDocument I) IndraError A) w : folder_op m →
    work_step w {| wd_folders := (m (wd_folders w)).1; wd_intentions := wd_intentions w |}
| WsSubmit pfault ifault sent now id w : work_step w (submit_proof_folder pfault ifault sent now id w).1
| WsNotices pfault ifault (me : I) log log' n n' w :
    work_step w {| wd_folders := on_notice pfault me log n (wd_folders w); wd_intentions := on_notice ifault me log' n' (wd_intentions w) |}
| WsRefresh pfault ifault crdt stored crdt' stored' w :
    work_step w {| wd_folders := (doc_refresh pfault crdt stored (wd_folders w)).1; wd_intentions := (doc_refresh ifault crdt' stored' (wd_intentions w)).1 |}.

Lemma update_intentions_le fault f (d : Document IntentionDocument I) : (∀ s, intentions_le s (f s)) →
  intentions_le (d_state d) (d_state (doc_outcome (doc_update fault f d)).1).
Proof. intros Hf. unfold doc_outcome. rewrite update_state. apply Hf. Qed.

Lemma try_update_intentions_le {R} fault id (m : M RealmIntention IntentionError R) (d : Document IntentionDocument I) : (∀ x, intention_le x (m x).1) →
  intentions_le (d_state d) (d_state (doc_outcome (doc_try_update fault (on_found id m) d)).1).
Proof.
  intros Hm. unfold doc_outcome. destruct (try_update_state fault (on_found id m) d) as [-> | ->]; [reflexivity|].
  pose proof (on_intention_le id m (d_state d) Hm) as Hle. unfold on_found. destruct (on_intention id m (d_state d)) as [s [[r|]|]]; [done..|reflexivity].
Qed.

(** Changes of an intention that cannot fail. *)
Lemma always_le f id s : (∀ x, intention_le x (f x)) → intentions_le s (where_found id (always f) s).
Proof. intros Hf. by apply on_intention_le. Qed.

Lemma as_creator_le {A} id c msg (m : M (Document IntentionDocument I) IndraError A) (d : Document IntentionDocument I) :
  intentions_le (d_state d) (d_state (m d).1) → intentions_le (d_state d) (d_state (as_creator id c msg m d).1).
Proof.
  intros Hm. unfold as_creator. destruct (intentions_find id _); [|reflexivity]. case_bool_decide; simpl; [done|reflexivity].
Qed.

Create HintDb work.
#[local] Hint Resolve submit_le verify_le complete_le on_intention_le always_le intentions_add_le : work.
#[local] Hint Extern 1 (intention_le _ _) => apply intention_le_same; simpl; auto : work.
#[local] Hint Extern 1 (intentions_le ?s (where_found _ _ ?s)) => apply on_intention_le : work.
#[local] Hint Extern 1 (intentions_le ?s (intentions_delete _ ?s)) => apply on_intention_le : work.

Lemma member_op_le {A} (m : M (Document IntentionDocument I) IndraError A) (d : Document IntentionDocument I) : member_op m → intentions_le (d_state d) (d_state (m d).1).
Proof.
  assert (Hbind : ∀ R S (x : Document IntentionDocument I * Result R IndraError) (g : R → Result S IndraError),
    (match x with (d, Ok r) => (d, g r) | (d, Err e) => (d, Err e) end).1 = x.1) by (by intros R S [? []] g).
  destruct 1.
  - unfold create_intention. rewrite (Hbind _ _ _ (λ _, Ok _)). apply update_intentions_le. auto with work.
  - apply try_update_intentions_le. auto with work.
  - unfold submit_intention_proof. rewrite (Hbind _ _ _ (λ i, match sent with Ok _ => Ok i | Err e => Err e end)).
    apply try_update_intentions_le. auto with work.
  - apply as_creator_le, try_update_intentions_le. auto with work.
  - apply as_creator_le, try_update_intentions_le. auto with work.
  - apply update_intentions_le. auto with work.
  - apply update_intentions_le. auto with work.
  - apply update_intentions_le. auto with work.
  - apply update_intentions_le. auto with work.
  - unfold seed_welcome_intention_if_empty. case_match; [reflexivity|]. apply update_intentions_le. auto with work.
  - apply update_intentions_le. auto with work.
  - apply update_intentions_le. auto with work.
  - unfold home_submit_service_claim. rewrite (Hbind _ _ _ (λ _, Ok _)). apply update_intentions_le. auto with work.
Qed.

Lemma update_folder_le fault id msg m (d : Document ProofFolderDocument I) : (∀ f, folder_le f (m f).1) →
  folders_le (d_state d) (d_state (update_folder fault id msg m d).1).
Proof.
  intros Hm. unfold update_folder, doc_outcome. pose proof (update_state fault (λ s, (on_folder id m s).1) d) as Hs.
  destruct (doc_update fault _ d) as [[d' [|]] ?]; simpl in *; rewrite Hs; by apply on_folder_le.
Qed.

Lemma folder_op_le {A} (m : M (Document ProofFolderDocument I) IndraError A) d : folder_op m → folders_le (d_state d) (d_state (m d).1).
Proof.
  destruct 1.
  - unfold create_proof_folder, doc_outcome. pose proof (update_state fault (folders_add (pf_new id now i c)) d) as Hs.
    destruct (doc_update fault _ d) as [[d' [|]] ?]; simpl in *; rewrite Hs; apply folders_add_le.
  - apply update_folder_le, pf_set_narrative_le.
  - apply update_folder_le, pf_add_artifact_le.
  - apply update_folder_le, pf_remove_artifact_le.
Qed.

Lemma submit_folder_le pfault ifault sent now id w : let w' := (submit_proof_folder pfault ifault sent now id w).1 in
  folders_le (d_state (wd_folders w)) (d_state (wd_folders w')) ∧ intentions_le (d_state (wd_intentions w)) (d_state (wd_intentions w')).
Proof.
  simpl. unfold submit_proof_folder. destruct (folders_find id _) as [f|]; [|split; reflexivity].
  destruct (pf_is_submitted f); [split; reflexivity|]. unfold doc_outcome.
  pose proof (update_state pfault (λ s, (on_folder id (pf_submit now) s).1) (wd_folders w)) as Hs.
  pose proof (on_folder_le id (pf_submit now) (d_state (wd_folders w)) (pf_submit_le now)) as Hf.
  destruct (doc_update pfault _ (wd_folders w)) as [[d [|]] ?]; simpl in Hs |- *; rewrite <-Hs in Hf; [|split; [done|reflexivity]].
  destruct (match (on_folder id (pf_submit now) _).2 with Some (Err e) => invalid_op _ | _ => Ok tt end); simpl; [|split; [done|reflexivity]].
  set (attach := ri_attach_folder now (pf_claimant f) id).
  pose proof (update_state ifault (where_found (pf_intention_id f) attach) (wd_intentions w)) as Hi.
  assert (Hle : intentions_le (d_state (wd_intentions w)) (where_found (pf_intention_id f) attach (d_state (wd_intentions w))))
    by (apply on_intention_le, attach_folder_le). rewrite <-Hi in Hle.
  destruct (doc_update ifault _ (wd_intentions w)) as [[di [|]] ?]; simpl in *; done.
Qed.

(** C27. Whatever members do and however replicas exchange their states, no
    submitted folder changes, and no deletion, completion or verified claim of
    an intention is undone. *)
Theorem work_is_kept w w' : rtc work_step w w' →
  folders_le (d_state (wd_folders w)) (d_state (wd_folders w')) ∧
  intentions_le (d_state (wd_intentions w)) (d_state (wd_intentions w')).
Proof.
  induction 1 as [w|w w1 w' Hs _ [IHf IHi]]; [split; reflexivity|].
  assert (folders_le (d_state (wd_folders w)) (d_state (wd_folders w1)) ∧
          intentions_le (d_state (wd_intentions w)) (d_state (wd_intentions w1))) as [Hf Hi].
  { clear IHf IHi. destruct Hs; simpl.
    - split; [reflexivity|]. by apply member_op_le.
    - split; [|reflexivity]. by apply folder_op_le.
    - apply submit_folder_le.
    - split; apply notice_grows; try apply _; [apply folders_merge_le|reflexivity|apply intentions_merge_le|reflexivity].
    - split; apply refresh_grows; try apply _; [apply folders_merge_le|apply intentions_merge_le]. }
  split; by etransitivity.
Qed.
End RealmProofFolders.

(** ** Notes *)

Record Note : Type := {
  nt_id : list byte;
  nt_title : string;
  nt_content : string;
  nt_author : arr32;
  nt_tags : list string;
  nt_created_at_millis : Z;
  nt_updated_at_millis : Z;
  nt_deleted : bool;
}.
Definition nt_with (title content : string) (tags : list string) (updated : Z) (deleted : bool) (n : Note) : Note :=
  {| nt_id := nt_id n; nt_title := title; nt_content := content; nt_author := nt_author n; nt_tags := tags;
     nt_created_at_millis := nt_created_at_millis n; nt_updated_at_millis := updated; nt_deleted := deleted |}.

Definition note_with_tags (id : list byte) (now : Z) (title content : string) (author : arr32) (tags : list string) : Note :=
  {| nt_id := id; nt_title := title; nt_content := content; nt_author := author; nt_tags := tags;
     nt_created_at_millis := now; nt_updated_at_millis := now; nt_deleted := false |}.
Definition note_new (id : list byte) (now : Z) (title content : string) (author : arr32) : Note :=
  note_with_tags id now title content author [].

Definition update_content (now : Z) (content : string) (n : Note) : Note := nt_with (nt_title n) content (nt_tags n) now (nt_deleted n) n.
Definition update_title (now : Z) (title : string) (n : Note) : Note := nt_with title (nt_content n) (nt_tags n) now (nt_deleted n) n.
Definition note_add_tag (now : Z) (tag : string) (n : Note) : Note :=
  if negb (bool_decide (tag ∈ nt_tags n)) then nt_with (nt_title n) (nt_content n) (nt_tags n ++ [tag]) now (nt_deleted n) n else n.
Definition note_remove_tag (now : Z) (tag : string) (n : Note) : Note * bool :=
  match remove_first (λ t, bool_decide (t = tag)) (nt_tags n) with
  | (tags, Some _) => (nt_with (nt_title n) (nt_content n) tags now (nt_deleted n) n, true)
  | (_, None) => (n, false)
  end.
Definition note_has_tag (tag : string) (n : Note) : bool := existsb (λ t, bool_decide (t = tag)) (nt_tags n).
Definition note_is_modified (n : Note) : bool := nt_created_at_millis n <? nt_updated_at_millis n.

Record NoteDocument : Type := { nd_notes : list Note }.
Definition notes_default : NoteDocument := {| nd_notes := [] |}.

Definition notes_merge (d remote : NoteDocument) : NoteDocument :=
  {| nd_notes := merge_indexed nt_id (lww nt_updated_at_millis) (nd_notes d) (nd_notes remote) |}.
Definition notes_schema : DocumentSchema NoteDocument := merging_schema notes_default notes_merge.

Definition notes_add (n : Note) (d : NoteDocument) : NoteDocument := {| nd_notes := nd_notes d ++ [n] |}.
Definition is_live_note (id : list byte) (n : Note) : bool := bool_decide (nt_id n = id) && negb (nt_deleted n).
Definition notes_find (id : list byte) (d : NoteDocument) : option Note := find_first (is_live_note id) (nd_notes d).

Definition on_note {R} (id : list byte) (m : M Note unit R) (d : NoteDocument) : NoteDocument * option (Result R unit) :=
  let '(l, r) := on_first (is_live_note id) m (nd_notes d) in ({| nd_notes := l |}, r).

(** [remove]: the tombstone, which is returned. *)
Definition note_tombstone (now : Z) (n : Note) : Note := nt_with (nt_title n) (nt_content n) (nt_tags n) now true n.
Definition notes_remove (id : list byte) (now : Z) (d : NoteDocument) : NoteDocument * option Note :=
  let '(d, r) := on_note id (λ n, (note_tombstone now n, Ok (note_tombstone now n))) d in
  (d, match r with Some (Ok n) => Some n | _ => None end).

Definition notes_by_author (m : arr32) (d : NoteDocument) : list Note :=
  retain (λ n, negb (nt_deleted n) && bool_decide (nt_author n = m)) (nd_notes d).
Definition notes_with_tag (tag : string) (d : NoteDocument) : list Note :=
  retain (λ n, negb (nt_deleted n) && note_has_tag tag n) (nd_notes d).
(** [sort] and [dedup] on strings; the tags of deleted notes are listed too. *)
Definition all_tags (d : NoteDocument) : list string :=
  dedup (sort_by (λ a b, bytes_leb (as_bytes a) (as_bytes b)) (nd_notes d ≫= nt_tags)).
(** Deleted notes are listed too. *)
Definition notes_by_recent (d : NoteDocument) : list Note :=
  sort_by (λ a b, nt_updated_at_millis b <=? nt_updated_at_millis a) (nd_notes d).
Definition notes_len (d : NoteDocument) : nat := length (retain (λ n, negb (nt_deleted n)) (nd_notes d)).
Definition notes_is_empty (d : NoteDocument) : bool := negb (existsb (λ n, negb (nt_deleted n)) (nd_notes d)).

(** Replicas converge where a note and a stamp name one version. *)
#[export] Instance notes_laws (U : list byte → Z → option Note) :
  MergeLaws (λ d, keyed_ok nt_id (λ n, coherent nt_updated_at_millis (U (nt_id n)) n ∧ nt_id n = nt_id n) (nd_notes d))
    (λ d d', entries_equiv (λ l k, find_key nt_id k l) eq (nd_notes d) (nd_notes d')) notes_merge notes_default.
Proof.
  apply (projection_laws nd_notes) with (merge' := merge_indexed nt_id (lww nt_updated_at_millis)) (zero' := []); [done|done|].
  assert (Hkey : ∀ x y, nt_id y = nt_id x → nt_id (lww nt_updated_at_millis x y) = nt_id x).
  { intros x y E. unfold lww. by destruct (pick_cases (later nt_updated_at_millis) x y) as [-> | ->]. }
  apply (merge_indexed_laws nt_id _ Hkey (λ k n, coherent nt_updated_at_millis (U k) n ∧ nt_id n = k)).
  - intros k. apply pick_laws. destruct (later_order nt_updated_at_millis (U k)) as [H1 H2 H3]. split.
    + intros a b [? _] [? _]. by apply H1.
    + intros a b c [? _] [? _] [? _]. by apply H2.
    + intros a b [? _] [? _]. by apply H3.
  - apply eq_equivalence.
  - by intros k x [_ ?].
Qed.

(** A tombstone of a later time wins over any version; one of the same
    millisecond loses against the version a replica holds. *)
Lemma tombstone_spreads now n d : NoDup (nt_id <$> nd_notes d) → n ∈ nd_notes d → nt_updated_at_millis n < now →
  find_key nt_id (nt_id n) (nd_notes (notes_merge d {| nd_notes := [note_tombstone now n] |})) = Some (note_tombstone now n).
Proof.
  intros Hn Hin Hlt. simpl. rewrite find_merge_indexed; [|..].
  - rewrite (find_key_elem _ _ _ Hn Hin), find_key_cons. simpl nt_id. rewrite bool_decide_true by done. simpl. f_equal.
    unfold lww, pick, later. simpl. by rewrite (proj2 (Z.ltb_lt _ _) Hlt).
  - intros x y E. unfold lww. by destruct (pick_cases (later nt_updated_at_millis) x y) as [-> | ->].
  - done.
  - apply NoDup_singleton.
Qed.

Lemma tombstone_tie n : let now := nt_updated_at_millis n in nt_deleted n = false →
  notes_merge {| nd_notes := [n] |} {| nd_notes := [note_tombstone now n] |} = {| nd_notes := [n] |} ∧
  notes_merge {| nd_notes := [note_tombstone now n] |} {| nd_notes := [n] |} = {| nd_notes := [note_tombstone now n] |}.
Proof.
  intros now Hd. subst now. unfold notes_merge, merge_indexed, merge_entry, positions. cbn [nd_notes foldl imap]. rewrite !reverse_singleton.
  simpl list_to_map. simpl nt_id. rewrite !lookup_insert_eq. simpl. unfold lww, pick, later. simpl. by rewrite !Z.ltb_irrefl.
Qed.

Section RealmNotes.
Context {I : Type} `{EqDecision I} `{!DocumentCodec NoteDocument}.
#[local] Existing Instance notes_schema.
Implicit Types (d : Document NoteDocument I) (fault : option DbError) (id : list byte).

Definition create_note fault id (now : Z) (title content : string) (author : arr32) (tags : list string)
    : M (Document NoteDocument I) IndraError (list byte) := λ d,
  match doc_outcome (doc_update fault (notes_add (note_with_tags id now title content author tags)) d) with
  | (d, Ok _) => (d, Ok id)
  | (d, Err e) => (d, Err e)
  end.
(** The two updates read the clock separately. *)
Definition update_note fault id (now now' : Z) (title content : string) : M (Document NoteDocument I) IndraError unit := λ d,
  doc_outcome (doc_update fault (λ s, (on_note id (λ n, (update_content now' content (update_title now title n), Ok tt)) s).1) d).
Definition delete_note fault id (now : Z) : M (Document NoteDocument I) IndraError (option Note) := λ d,
  let removed := (notes_remove id now (d_state d)).2 in
  match doc_outcome (doc_update fault (λ s, (notes_remove id now s).1) d) with
  | (d, Ok _) => (d, Ok removed)
  | (d, Err e) => (d, Err e)
  end.

(** A deleted note is found no more, and nothing else is lost. *)
Lemma delete_note_ok fault id now d d' n : NoDup (nt_id <$> nd_notes (d_state d)) → delete_note fault id now d = (d', Ok (Some n)) →
  ∃ l1 x l2, nd_notes (d_state d) = l1 ++ x :: l2 ∧ notes_find id (d_state d) = Some x ∧ n = note_tombstone now x ∧
    nd_notes (d_state d') = l1 ++ note_tombstone now x :: l2 ∧ notes_find id (d_state d') = None.
Proof.
  intros Hn. unfold delete_note, doc_outcome. pose proof (update_state fault (λ s, (notes_remove id now s).1) d) as Hs.
  unfold notes_remove, on_note in *. pose proof (on_first_find (E := unit) (is_live_note id) (λ n, (note_tombstone now n, Ok (note_tombstone now n))) (nd_notes (d_state d))) as Hf.
  destruct (on_first _ _ _) as [l [r|]]; destruct (doc_update _ _ _) as [[d1 [u|]] msg]; simpl in Hs |- *; try done.
  destruct Hf as (l1 & x & l2 & Hl & Hx & <- & ->). simpl. intros [= <- <-]. exists l1, x, l2. rewrite Hs. split_and!; [done..|].
  unfold notes_find. simpl. destruct (find_first (is_live_note id) (l1 ++ note_tombstone now x :: l2)) as [y|] eqn:Ey; [|done].
  apply find_first_Some in Ey as [Hin Hlive]. apply find_first_Some in Hx as [_ Hxl]. unfold is_live_note in *.
  apply andb_true_iff in Hlive as [Hy%bool_decide_eq_true Hyd], Hxl as [Hid%bool_decide_eq_true _].
  apply elem_of_app in Hin. rewrite elem_of_cons in Hin. rewrite Hl in Hn.
  rewrite <-Permutation_middle, fmap_cons, NoDup_cons in Hn. destruct Hn as [Hn _].
  destruct Hin as [Hin|[->|Hin]]; [|done|]; destruct Hn; rewrite Hid, <-Hy; apply list_elem_of_fmap_2, elem_of_app; auto.
Qed.
End RealmNotes.
