(* ===== verification/Chat.v ===== *)
(** * The chat of a realm

    Models [indras-network/src/chat_message.rs]: editable messages with their
    history and reactions, the replicated [RealmChatDocument] with its compact
    deltas, and the acknowledgements.  A [HashMap] is a finite map; loops over
    one use a fixed order of its entries.  Ticks are of 64 bits and are only
    copied and compared. *)

From S2P Require Import Prelude Artifact Crypto Attention Packet Pending EventStore Documents Convergence Sealing.

(** ** Messages *)

Record ChatMessageVersion : Type := { cmv_content : string; cmv_edited_at : Z }.

Record GalleryItem : Type := {
  gi_name : string;
  gi_mime_type : string;
  gi_size : Z;
  gi_thumbnail_data : option string;
  gi_artifact_hash : string;
  gi_dimensions : option (Z * Z);
}.

Inductive EditableMessageType : Type :=
| EText
| EProofSubmitted (intention_id artifact_id : string)
| EProofFolderSubmitted (intention_id folder_id : string)
| EBlessingGiven (intention_id claimant : string)
| EArtifactRecalled (artifact_hash : string) (shared_at : Z)
| EImage (mime_type : string) (inline_data artifact_hash filename : option string) (dimensions : option (Z * Z)) (alt_text : option string)
| EGallery (folder_id : string) (title : option string) (items : list GalleryItem)
| ERealmInvite (invite_code name artifact_type description : string).

Record EditableChatMessage : Type := {
  ecm_id : string;
  ecm_realm_id : string;
  ecm_author : string;
  ecm_author_id : option string;
  ecm_created_at : Z;
  ecm_current_content : string;
  ecm_versions : list ChatMessageVersion;
  ecm_is_deleted : bool;
  ecm_message_type : EditableMessageType;
  ecm_reply_to : option string;
  ecm_reactions : gmap string (list string);
}.

Definition ecm_with (author_id : option string) (content : string) (versions : list ChatMessageVersion) (deleted : bool)
    (reply_to : option string) (reactions : gmap string (list string)) (m : EditableChatMessage) : EditableChatMessage :=
  {| ecm_id := ecm_id m; ecm_realm_id := ecm_realm_id m; ecm_author := ecm_author m; ecm_author_id := author_id;
     ecm_created_at := ecm_created_at m; ecm_current_content := content; ecm_versions := versions; ecm_is_deleted := deleted;
     ecm_message_type := ecm_message_type m; ecm_reply_to := reply_to; ecm_reactions := reactions |}.
Definition set_reactions (r : gmap string (list string)) (m : EditableChatMessage) : EditableChatMessage :=
  ecm_with (ecm_author_id m) (ecm_current_content m) (ecm_versions m) (ecm_is_deleted m) (ecm_reply_to m) r m.

Definition ecm_new (id realm author content : string) (created_at : Z) (ty : EditableMessageType) : EditableChatMessage :=
  {| ecm_id := id; ecm_realm_id := realm; ecm_author := author; ecm_author_id := None; ecm_created_at := created_at;
     ecm_current_content := content; ecm_versions := []; ecm_is_deleted := false; ecm_message_type := ty;
     ecm_reply_to := None; ecm_reactions := ∅ |}.
Definition with_author_id (a : string) (m : EditableChatMessage) : EditableChatMessage :=
  ecm_with (Some a) (ecm_current_content m) (ecm_versions m) (ecm_is_deleted m) (ecm_reply_to m) (ecm_reactions m) m.
Definition ecm_new_text (id realm author content : string) (created_at : Z) : EditableChatMessage :=
  ecm_new id realm author content created_at EText.
Definition ecm_new_reply (id realm author content : string) (created_at : Z) (ty : EditableMessageType) (reply_to : string) : EditableChatMessage :=
  let m := ecm_new id realm author content created_at ty in
  ecm_with (ecm_author_id m) (ecm_current_content m) (ecm_versions m) (ecm_is_deleted m) (Some reply_to) (ecm_reactions m) m.
Definition ecm_new_artifact_recalled (id realm sharer artifact_hash : string) (shared_at recalled_at : Z) : EditableChatMessage :=
  ecm_new id realm sharer ("[Recalled artifact shared at tick " +:+ (i64_to_string shared_at +:+ "]")) recalled_at
    (EArtifactRecalled artifact_hash shared_at).
Definition ecm_new_image (id realm author : string) (created_at : Z) (mime : string) (inline artifact_hash filename : option string)
    (dimensions : option (Z * Z)) (alt : option string) : EditableChatMessage :=
  ecm_new id realm author (default "[Image]" alt) created_at (EImage mime inline artifact_hash filename dimensions alt).
Definition ecm_new_gallery (id realm author : string) (created_at : Z) (folder : string) (title : option string) (items : list GalleryItem) : EditableChatMessage :=
  ecm_new id realm author (default ("[Gallery: " +:+ (i64_to_string (Z.of_nat (length items)) +:+ " items]")) title) created_at
    (EGallery folder title items).

Definition ecm_is_artifact_recalled (m : EditableChatMessage) : bool := match ecm_message_type m with EArtifactRecalled _ _ => true | _ => false end.
Definition ecm_is_image (m : EditableChatMessage) : bool := match ecm_message_type m with EImage _ _ _ _ _ _ => true | _ => false end.
Definition ecm_is_gallery (m : EditableChatMessage) : bool := match ecm_message_type m with EGallery _ _ _ => true | _ => false end.
Definition image_data_url (m : EditableChatMessage) : option string :=
  match ecm_message_type m with
  | EImage mime (Some data) _ _ _ _ => Some ("data:" +:+ (mime +:+ (";base64," +:+ data)))
  | _ => None
  end.

(** The history gets the content that is replaced. *)
Definition push_version (content : string) (deleted : bool) (tick : Z) (m : EditableChatMessage) : EditableChatMessage :=
  ecm_with (ecm_author_id m) content (ecm_versions m ++ [{| cmv_content := ecm_current_content m; cmv_edited_at := tick |}])
    deleted (ecm_reply_to m) (ecm_reactions m) m.

Definition ecm_edit (content : string) (tick : Z) (m : EditableChatMessage) : EditableChatMessage * bool :=
  if ecm_is_deleted m || bool_decide (ecm_current_content m = content) then (m, false)
  else (push_version content (ecm_is_deleted m) tick m, true).
Definition ecm_delete (tick : Z) (m : EditableChatMessage) : EditableChatMessage * bool :=
  if ecm_is_deleted m then (m, false) else (push_version "" true tick m, true).

Definition ecm_is_edited (m : EditableChatMessage) : bool := negb (bool_decide (ecm_versions m = [])).
Definition version_count (m : EditableChatMessage) : nat := (length (ecm_versions m) + 1)%nat.
Definition can_edit (member : string) (m : EditableChatMessage) : bool :=
  let is_author := match ecm_author_id m with Some a => bool_decide (a = member) | None => bool_decide (ecm_author m = member) end in
  is_author && negb (ecm_is_deleted m).
Definition all_versions (m : EditableChatMessage) : list ChatMessageVersion :=
  if ecm_is_deleted m then ecm_versions m
  else ecm_versions m ++ [{| cmv_content := ecm_current_content m; cmv_edited_at := ecm_created_at m |}].

Definition react (emoji author : string) (r : gmap string (list string)) : gmap string (list string) * bool :=
  let authors := default [] (r !! emoji) in
  if bool_decide (author ∈ authors) then (<[emoji := authors]> r, false) else (<[emoji := authors ++ [author]]> r, true).
Definition ecm_add_reaction (emoji author : string) (m : EditableChatMessage) : EditableChatMessage * bool :=
  let '(r, b) := react emoji author (ecm_reactions m) in (set_reactions r m, b).

(** [Vec::swap_remove]: the last element takes the place of the removed one. *)
Fixpoint swap_remove_first (x : string) (l : list string) : option (list string) :=
  match l with
  | [] => None
  | y :: l =>
      if bool_decide (y = x) then Some (match reverse l with [] => [] | z :: r => z :: reverse r end)
      else cons y <$> swap_remove_first x l
  end.

Definition unreact (emoji author : string) (r : gmap string (list string)) : gmap string (list string) * bool :=
  match r !! emoji with
  | None => (r, false)
  | Some authors =>
      match swap_remove_first author authors with
      | None => (r, false)
      | Some [] => (delete emoji r, true)
      | Some l => (<[emoji := l]> r, true)
      end
  end.
Definition ecm_remove_reaction (emoji author : string) (m : EditableChatMessage) : EditableChatMessage * bool :=
  let '(r, b) := unreact emoji author (ecm_reactions m) in (set_reactions r m, b).

(** ** The document *)

Inductive ChatDelta : Type :=
| NewMessage (m : EditableChatMessage)
| EditMessage (id new_content : string) (tick : Z)
| DeleteMessage (id : string) (tick : Z)
| AddReaction (msg_id emoji author : string)
| RemoveReaction (msg_id emoji author : string).

Record RealmChatDocument : Type := { rc_messages : gmap string EditableChatMessage }.
Definition chat_default : RealmChatDocument := {| rc_messages := ∅ |}.

Definition add_message (m : EditableChatMessage) (d : RealmChatDocument) : RealmChatDocument :=
  {| rc_messages := <[ecm_id m := m]> (rc_messages d) |}.
Definition get_message (id : string) (d : RealmChatDocument) : option EditableChatMessage := rc_messages d !! id.

(** [get_message_mut], and a change of what it finds. *)
Definition on_message (id : string) (f : EditableChatMessage → EditableChatMessage * bool) (d : RealmChatDocument) : RealmChatDocument * bool :=
  match rc_messages d !! id with
  | Some m => let '(m', b) := f m in ({| rc_messages := <[id := m']> (rc_messages d) |}, b)
  | None => (d, false)
  end.

(** Sorted by time, then by identifier. *)
Definition message_leb (a b : EditableChatMessage) : bool :=
  match ecm_created_at a ?= ecm_created_at b with
  | Lt => true
  | Gt => false
  | Eq => bytes_leb (as_bytes (ecm_id a)) (as_bytes (ecm_id b))
  end.
Definition messages_sorted (d : RealmChatDocument) : list EditableChatMessage := sort_by message_leb ((map_to_list (rc_messages d)).*2).
Definition visible_messages (d : RealmChatDocument) : list EditableChatMessage :=
  sort_by message_leb (retain (λ m, negb (ecm_is_deleted m)) ((map_to_list (rc_messages d)).*2)).
Definition total_count (d : RealmChatDocument) : nat := size (rc_messages d).
Definition visible_count (d : RealmChatDocument) : nat := length (retain (λ m, negb (ecm_is_deleted m)) ((map_to_list (rc_messages d)).*2)).

Definition as_author (member : string) (f : EditableChatMessage → EditableChatMessage * bool) (m : EditableChatMessage) : EditableChatMessage * bool :=
  if can_edit member m then f m else (m, false).
Definition edit_message (id member content : string) (tick : Z) : RealmChatDocument → RealmChatDocument * bool :=
  on_message id (as_author member (ecm_edit content tick)).
Definition delete_message (id member : string) (tick : Z) : RealmChatDocument → RealmChatDocument * bool :=
  on_message id (as_author member (ecm_delete tick)).
Definition chat_add_reaction (id author emoji : string) : RealmChatDocument → RealmChatDocument * bool :=
  on_message id (ecm_add_reaction emoji author).
Definition chat_remove_reaction (id author emoji : string) : RealmChatDocument → RealmChatDocument * bool :=
  on_message id (ecm_remove_reaction emoji author).

(** [&s[..n]]: a panic where [n] is inside a character. *)
Definition is_char_boundary (n : nat) (l : list byte) : bool :=
  match l !! n with None => (n =? length l)%nat | Some b => negb (continuation b) end.
Definition slice_to (n : nat) (s : string) : outcome string :=
  if is_char_boundary n (as_bytes s) then Returns (string_of_list_byte (take n (as_bytes s))) else Panics.

Definition message_preview (m : EditableChatMessage) : outcome (string * string) :=
  if (100 <? length (as_bytes (ecm_current_content m)))%nat
  then match slice_to 97 (ecm_current_content m) with Returns s => Returns (ecm_author m, s +:+ "...") | Panics => Panics end
  else Returns (ecm_author m, ecm_current_content m).
Definition reply_preview (id : string) (d : RealmChatDocument) : option (outcome (string * string)) := message_preview <$> get_message id d.

(** The authors of both sides. *)
Definition union_authors (l l' : list string) : list string :=
  foldl (λ l a, if bool_decide (a ∈ l) then l else l ++ [a]) l l'.
Definition merge_reactions (local remote : gmap string (list string)) : gmap string (list string) :=
  for_entries (λ emoji authors r, <[emoji := union_authors (default [] (r !! emoji)) authors]> r) local remote.

(** A local message and the remote version of it. *)
Definition chat_combine (local remote : EditableChatMessage) : EditableChatMessage :=
  let r := merge_reactions (ecm_reactions local) (ecm_reactions remote) in
  if (ecm_is_deleted remote && negb (ecm_is_deleted local)) || (version_count local <? version_count remote)%nat
  then set_reactions r remote else set_reactions r local.

Definition merge_at (id : string) (m : EditableChatMessage) (l : gmap string EditableChatMessage) : gmap string EditableChatMessage :=
  <[id := match l !! id with Some local => chat_combine local m | None => m end]> l.
Definition merge_single (m : EditableChatMessage) (d : RealmChatDocument) : RealmChatDocument * bool :=
  ({| rc_messages := merge_at (ecm_id m) m (rc_messages d) |}, true).
Definition chat_merge (d remote : RealmChatDocument) : RealmChatDocument :=
  {| rc_messages := for_entries merge_at (rc_messages d) (rc_messages remote) |}.

Definition apply_single_delta (x : ChatDelta) : RealmChatDocument → RealmChatDocument * bool :=
  match x with
  | NewMessage m => merge_single m
  | EditMessage id c t => on_message id (ecm_edit c t)
  | DeleteMessage id t => on_message id (ecm_delete t)
  | AddReaction id e a => on_message id (ecm_add_reaction e a)
  | RemoveReaction id e a => on_message id (ecm_remove_reaction e a)
  end.

(** What changed in the reactions, and in a message. *)
Definition missing_authors (l l' : list string) : list string := retain (λ a, negb (bool_decide (a ∈ l'))) l.
Definition reaction_diff (mk : string → string → ChatDelta) (r r' : gmap string (list string)) : list ChatDelta :=
  map_to_list r ≫= (λ el, mk el.1 <$> missing_authors el.2 (default [] (r' !! el.1))).
Definition last_tick (m : EditableChatMessage) : Z := default 0 (cmv_edited_at <$> last (ecm_versions m)).
Definition message_deltas (id : string) (old : option EditableChatMessage) (new : EditableChatMessage) : list ChatDelta :=
  match old with
  | None => [NewMessage new]
  | Some old =>
      (if ecm_is_deleted new && negb (ecm_is_deleted old) then [DeleteMessage id (last_tick new)]
       else if negb (bool_decide (ecm_current_content new = ecm_current_content old)) && negb (ecm_is_deleted new)
       then [EditMessage id (ecm_current_content new) (last_tick new)] else [])
      ++ reaction_diff (AddReaction id) (ecm_reactions new) (ecm_reactions old)
      ++ reaction_diff (RemoveReaction id) (ecm_reactions old) (ecm_reactions new)
  end.
Definition chat_deltas (old new : RealmChatDocument) : list ChatDelta :=
  map_to_list (rc_messages new) ≫= (λ im, message_deltas im.1 (rc_messages old !! im.1) im.2).

Definition apply_deltas (ds : list ChatDelta) (d : RealmChatDocument) : RealmChatDocument * bool :=
  foldl (λ acc x, let '(d, b) := apply_single_delta x acc.1 in (d, acc.2 || b)) (d, false) ds.

Section ChatSchema.
Context `{!Codec (list ChatDelta), !Codec EditableChatMessage}.

Definition chat_extract_delta (old new : RealmChatDocument) : option (list byte) :=
  match chat_deltas old new with [] => None | ds => r_ok (c_encode ds) end.
Definition chat_apply_delta (d : RealmChatDocument) (bytes : list byte) : RealmChatDocument * bool :=
  match c_decode (A := list ChatDelta) bytes with
  | Ok ds => apply_deltas ds d
  | Err _ => match c_decode (A := EditableChatMessage) bytes with Ok m => merge_single m d | Err _ => (d, false) end
  end.
Definition chat_schema : DocumentSchema RealmChatDocument :=
  {| doc_default := chat_default; doc_merge := chat_merge; extract_delta := chat_extract_delta; apply_delta := chat_apply_delta |}.
End ChatSchema.

(** ** A delta replays the operation it was taken from *)

(** Messages are stored under their identifier, and no author reacts twice with
    one emoji. *)
Definition reactions_ok (r : gmap string (list string)) : Prop := ∀ e l, r !! e = Some l → NoDup l.
Definition chat_ok (d : RealmChatDocument) : Prop :=
  ∀ id m, rc_messages d !! id = Some m → ecm_id m = id ∧ reactions_ok (ecm_reactions m).

(** A loop over a map in which at most one entry contributes. *)
Lemma bind_one {K V B} `{Countable K} (f : K * V → list B) (m : gmap K V) k v : m !! k = Some v →
  (∀ k' v', k' ≠ k → m !! k' = Some v' → f (k', v') = []) → map_to_list m ≫= f = f (k, v).
Proof.
  intros Hk Ho. assert (Hin : (k, v) ∈ map_to_list m) by (by apply elem_of_map_to_list).
  assert (Hall : ∀ kv, kv ∈ map_to_list m → kv = (k, v) ∨ f kv = []).
  { intros [k' v'] Hkv%elem_of_map_to_list. destruct (decide (k' = k)) as [->|]; [left; congruence|right; eauto]. }
  pose proof (NoDup_map_to_list m) as Hn. revert Hin Hall Hn. induction (map_to_list m) as [|kv l IH]; [by intros ?%not_elem_of_nil|].
  intros Hin Hall [Hkv Hn]%NoDup_cons. rewrite bind_cons. destruct (Hall kv ltac:(left)) as [->|Hnil].
  - assert (Hl : l ≫= f = []); [|by rewrite Hl, app_nil_r]. clear IH Hin Hn. induction l as [|y l IHl]; [done|].
    rewrite bind_cons. destruct (Hall y ltac:(right; left)) as [-> | ->]; [by destruct Hkv; left|]. simpl. apply IHl; set_solver.
  - rewrite Hnil. simpl. apply elem_of_cons in Hin as [<-|Hin]; [|apply IH; [done|set_solver|done]].
    rewrite Hnil. clear IH Hn. induction l as [|y l IHl]; [done|]. rewrite bind_cons.
    destruct (Hall y ltac:(right; left)) as [-> | ->]; [by destruct Hkv; left|]. simpl. apply IHl; set_solver.
Qed.

Lemma bind_none {K V B} `{Countable K} (f : K * V → list B) (m : gmap K V) :
  (∀ k v, m !! k = Some v → f (k, v) = []) → map_to_list m ≫= f = [].
Proof.
  intros Ho. assert (Hall : ∀ kv, kv ∈ map_to_list m → f kv = []) by (intros [k v] ?%elem_of_map_to_list; auto).
  induction (map_to_list m) as [|kv l IH]; [done|]. rewrite bind_cons, Hall by left. apply IH. set_solver.
Qed.

Lemma missing_none l l' : l ⊆ l' → missing_authors l l' = [].
Proof.
  unfold missing_authors. induction l as [|a l IH]; intros Hl; simpl; [done|]. rewrite bool_decide_true by set_solver. simpl. apply IH. set_solver.
Qed.

Lemma missing_snoc l a : a ∉ l → missing_authors (l ++ [a]) l = [a].
Proof.
  intros Ha. unfold missing_authors. assert (Hg : ∀ k, k ⊆ l → retain (λ x, negb (bool_decide (x ∈ l))) (k ++ [a]) = [a]); [|by apply Hg].
  induction k as [|x k IH]; intros Hk; simpl; [by rewrite bool_decide_false|]. rewrite bool_decide_true by set_solver. simpl. apply IH. set_solver.
Qed.

(** The reactions that a map of reactions lacks. *)
Lemma reaction_diff_none mk r r' : (∀ e l, r !! e = Some l → l ⊆ default [] (r' !! e)) → reaction_diff mk r r' = [].
Proof. intros Hs. apply bind_none. intros e l Hl. simpl. by rewrite missing_none by (by apply Hs). Qed.

Lemma reaction_diff_one mk r r' e l : r !! e = Some l → (∀ e', e' ≠ e → r !! e' = r' !! e') →
  reaction_diff mk r r' = mk e <$> missing_authors l (default [] (r' !! e)).
Proof.
  intros Hl Ho. unfold reaction_diff. rewrite (bind_one _ r e l Hl); [done|]. intros e' l' Hne Hl'. simpl.
  rewrite <-(Ho e' Hne), Hl'. simpl. by rewrite missing_none.
Qed.

Lemma swap_remove_perm x l l' : swap_remove_first x l = Some l' → l ≡ₚ x :: l'.
Proof.
  revert l'. induction l as [|y l IH]; intros l'; simpl; [done|]. case_bool_decide as E.
  - intros [= <-]. subst y. f_equiv. destruct (reverse l) as [|z r] eqn:Er.
    + rewrite <-(reverse_involutive l), Er. done.
    + rewrite <-(reverse_involutive l), Er, reverse_cons, Permutation_app_comm. done.
  - intros (l1 & Hl1 & ->)%fmap_Some. rewrite (IH l1 Hl1). apply Permutation_swap.
Qed.

Lemma swap_remove_none x l : swap_remove_first x l = None → x ∉ l.
Proof.
  induction l as [|y l IH]; simpl; [intros _; apply not_elem_of_nil|]. case_bool_decide; [done|].
  destruct (swap_remove_first x l); [done|]. intros _. apply not_elem_of_cons. auto.
Qed.

Lemma missing_removed l a l' : NoDup l → swap_remove_first a l = Some l' → missing_authors l l' = [a].
Proof.
  intros Hn Hs. pose proof (swap_remove_perm _ _ _ Hs) as Hp. rewrite Hp in Hn. apply NoDup_cons in Hn as [Ha Hn]. clear Hs.
  unfold missing_authors. assert (Hr : retain (λ x, negb (bool_decide (x ∈ l'))) l ≡ₚ [a]); [|by apply Permutation_singleton_r in Hr].
  assert (Hperm : ∀ k k', k ≡ₚ k' → retain (λ x, negb (bool_decide (x ∈ l'))) k ≡ₚ retain (λ x, negb (bool_decide (x ∈ l'))) k').
  { intros k k'. induction 1 as [|x k k' _ IH|x y k|]; simpl; [done|by destruct (negb _); rewrite IH| |by etransitivity].
    destruct (negb _), (negb _); try done. apply Permutation_swap. }
  rewrite (Hperm _ _ Hp). simpl. rewrite bool_decide_false by done. simpl.
  fold (missing_authors l' l'). by rewrite missing_none.
Qed.

(** A message that did not change gives no delta. *)
Lemma message_deltas_same id m : message_deltas id (Some m) m = [].
Proof.
  simpl. rewrite bool_decide_true by done. rewrite !reaction_diff_none by (intros e l ->; done).
  by destruct (ecm_is_deleted m).
Qed.

Lemma chat_deltas_one d id m : chat_deltas d {| rc_messages := <[id := m]> (rc_messages d) |} = message_deltas id (rc_messages d !! id) m.
Proof.
  unfold chat_deltas. simpl. rewrite (bind_one _ _ id m); [done|by rewrite lookup_insert_eq|].
  intros id' m' Hne. rewrite lookup_insert_ne by done. intros Hm. simpl. rewrite Hm. apply message_deltas_same.
Qed.

#[local] Arguments message_deltas : simpl never.

(** What a member does to the chat. *)
Inductive ChatOp : Type :=
| CoAdd (m : EditableChatMessage)
| CoEdit (id member content : string) (tick : Z)
| CoDelete (id member : string) (tick : Z)
| CoReact (id author emoji : string)
| CoUnreact (id author emoji : string).

Definition chat_run (x : ChatOp) (d : RealmChatDocument) : RealmChatDocument :=
  match x with
  | CoAdd m => add_message m d
  | CoEdit id member c t => (edit_message id member c t d).1
  | CoDelete id member t => (delete_message id member t d).1
  | CoReact id a e => (chat_add_reaction id a e d).1
  | CoUnreact id a e => (chat_remove_reaction id a e d).1
  end.

(** A new message has a fresh identifier. *)
Definition chat_op_ok (x : ChatOp) (d : RealmChatDocument) : Prop :=
  match x with CoAdd m => rc_messages d !! ecm_id m = None ∧ reactions_ok (ecm_reactions m) | _ => True end.

Lemma chat_deltas_same d : chat_deltas d d = [].
Proof. apply bind_none. intros id m Hm. simpl. rewrite Hm. apply message_deltas_same. Qed.

(** A change of one message is replayed if its own deltas do so. *)
Lemma on_message_replays id f d :
  (∀ m, rc_messages d !! id = Some m → message_deltas id (Some m) (f m).1 = [] ∧ (f m).1 = m ∨
     ∃ x g, message_deltas id (Some m) (f m).1 = [x] ∧ apply_single_delta x = on_message id g ∧ (g m).1 = (f m).1) →
  (apply_deltas (chat_deltas d (on_message id f d).1) d).1 = (on_message id f d).1.
Proof.
  intros Hf. unfold on_message at 1 2. destruct (rc_messages d !! id) as [m|] eqn:Em; [|by rewrite chat_deltas_same].
  specialize (Hf m eq_refl). destruct (f m) as [m' b]. simpl in *. rewrite chat_deltas_one, Em.
  destruct Hf as [[-> ->]|(x & g & -> & Hx & Hg)].
  - simpl. rewrite insert_id by done. by destruct d.
  - unfold apply_deltas. cbn [foldl fst]. rewrite Hx. unfold on_message. rewrite Em. destruct (g m). simpl in *. by subst.
Qed.

Lemma last_tick_push c b t m : last_tick (push_version c b t m) = t.
Proof. unfold last_tick. simpl. by rewrite last_snoc. Qed.

Lemma edit_deltas id c t m : message_deltas id (Some m) (ecm_edit c t m).1 = [] ∧ (ecm_edit c t m).1 = m ∨
  message_deltas id (Some m) (ecm_edit c t m).1 = [EditMessage id c t].
Proof.
  unfold ecm_edit. destruct (ecm_is_deleted m) eqn:Ed; simpl orb; [left; split; [apply message_deltas_same|done]|].
  case_bool_decide as Ec; [left; split; [apply message_deltas_same|done]|]. right. simpl fst. unfold message_deltas.
  rewrite last_tick_push. simpl. rewrite bool_decide_false by congruence. simpl.
  by rewrite !reaction_diff_none by (intros e l ->; done).
Qed.

Lemma delete_deltas id t m : message_deltas id (Some m) (ecm_delete t m).1 = [] ∧ (ecm_delete t m).1 = m ∨
  message_deltas id (Some m) (ecm_delete t m).1 = [DeleteMessage id t].
Proof.
  unfold ecm_delete. destruct (ecm_is_deleted m) eqn:Ed; [left; split; [apply message_deltas_same|done]|]. right. simpl fst.
  unfold message_deltas. rewrite last_tick_push. simpl. rewrite Ed. simpl. by rewrite !reaction_diff_none by (intros e l ->; done).
Qed.

(** Where only the reactions changed. *)
Lemma reactions_deltas id r m : message_deltas id (Some m) (set_reactions r m) =
  reaction_diff (AddReaction id) r (ecm_reactions m) ++ reaction_diff (RemoveReaction id) (ecm_reactions m) r.
Proof. unfold message_deltas. simpl. rewrite bool_decide_true by done. by destruct (ecm_is_deleted m). Qed.

Lemma set_reactions_id m : set_reactions (ecm_reactions m) m = m.
Proof. by destruct m. Qed.

Lemma react_deltas id e a m :
  message_deltas id (Some m) (ecm_add_reaction e a m).1 = [] ∧ (ecm_add_reaction e a m).1 = m ∨
  message_deltas id (Some m) (ecm_add_reaction e a m).1 = [AddReaction id e a].
Proof.
  unfold ecm_add_reaction, react. destruct (ecm_reactions m !! e) as [l|] eqn:El; simpl default.
  - case_bool_decide as Ha; simpl fst.
    + left. rewrite insert_id by done. rewrite set_reactions_id. split; [apply message_deltas_same|done].
    + right. rewrite reactions_deltas, (reaction_diff_one _ _ _ e (l ++ [a])), El; [|by rewrite lookup_insert_eq|intros; by rewrite lookup_insert_ne].
      simpl default. rewrite missing_snoc by done. rewrite reaction_diff_none; [done|].
      intros e' l' Hl'. rewrite lookup_insert. case_decide as E; simpl; [|by rewrite Hl']. simplify_eq. set_solver.
  - right. simpl. rewrite reactions_deltas.
    rewrite (reaction_diff_one _ _ _ e [a]), El; [|by rewrite lookup_insert_eq|intros; by rewrite lookup_insert_ne].
    simpl default. pose proof (missing_snoc [] a (not_elem_of_nil a)) as Hs. simpl app in Hs. rewrite Hs. rewrite reaction_diff_none; [done|].
    intros e' l' Hl'. rewrite lookup_insert. case_decide as E; [congruence|by rewrite Hl'].
Qed.

Lemma unreact_deltas id e a m : reactions_ok (ecm_reactions m) →
  message_deltas id (Some m) (ecm_remove_reaction e a m).1 = [] ∧ (ecm_remove_reaction e a m).1 = m ∨
  message_deltas id (Some m) (ecm_remove_reaction e a m).1 = [RemoveReaction id e a].
Proof.
  intros Hok. unfold ecm_remove_reaction, unreact.
  assert (Hsame : message_deltas id (Some m) (set_reactions (ecm_reactions m) m) = [] ∧ set_reactions (ecm_reactions m) m = m)
    by (rewrite set_reactions_id; split; [apply message_deltas_same|done]).
  destruct (ecm_reactions m !! e) as [l|] eqn:El; [|by left]. destruct (swap_remove_first a l) as [l'|] eqn:Es; [|by left].
  right. pose proof (missing_removed l a l' (Hok e l El) Es) as Hm. pose proof (swap_remove_perm _ _ _ Es) as Hp.
  set (r := match l' with [] => delete e (ecm_reactions m) | _ => <[e := l']> (ecm_reactions m) end).
  assert (Hre : default [] (r !! e) = l') by (subst r; destruct l'; [by rewrite lookup_delete_eq|by rewrite lookup_insert_eq]).
  assert (Hro : ∀ e', e' ≠ e → r !! e' = ecm_reactions m !! e')
    by (intros e' Hne; subst r; destruct l'; [by rewrite lookup_delete_ne|by rewrite lookup_insert_ne]).
  assert (Hgoal : message_deltas id (Some m) (set_reactions r m) = [RemoveReaction id e a]).
  { rewrite reactions_deltas, (reaction_diff_one (RemoveReaction id) _ r e l El), Hre, Hm by (intros; symmetry; by apply Hro).
    rewrite reaction_diff_none; [done|]. intros e' l0 Hl0. destruct (decide (e' = e)) as [->|Hne].
    - rewrite Hl0 in Hre. simpl in Hre. subst l0. rewrite El. simpl. rewrite Hp. set_solver.
    - rewrite Hro in Hl0 by done. by rewrite Hl0. }
  subst r. by destruct l'.
Qed.

(** Applied to the state it was taken from, the delta of an operation gives the
    state the operation made. *)
Lemma delta_replays x d : chat_ok d → chat_op_ok x d → (apply_deltas (chat_deltas d (chat_run x d)) d).1 = chat_run x d.
Proof.
  assert (Hauth : ∀ id member f y, (∀ m, message_deltas id (Some m) (f m).1 = [] ∧ (f m).1 = m ∨ message_deltas id (Some m) (f m).1 = [y]) →
    apply_single_delta y = on_message id f → ∀ m, message_deltas id (Some m) (as_author member f m).1 = [] ∧ (as_author member f m).1 = m ∨
     ∃ x g, message_deltas id (Some m) (as_author member f m).1 = [x] ∧ apply_single_delta x = on_message id g ∧ (g m).1 = (as_author member f m).1).
  { intros id member f y Hf Hy m. unfold as_author. destruct (can_edit member m); [|left; split; [apply message_deltas_same|done]].
    destruct (Hf m) as [|E]; [by left|]. right. by exists y, f. }
  intros Hd Hx. destruct x as [m|id mem c t|id mem t|id a e|id a e]; simpl in Hx |- *.
  - destruct Hx as [Hf _]. unfold add_message. rewrite chat_deltas_one, Hf. unfold message_deltas. simpl. unfold merge_at. by rewrite Hf.
  - apply on_message_replays. intros m _. apply (Hauth id mem _ (EditMessage id c t)); [apply edit_deltas|done].
  - apply on_message_replays. intros m _. apply (Hauth id mem _ (DeleteMessage id t)); [apply delete_deltas|done].
  - apply on_message_replays. intros m _. destruct (react_deltas id e a m) as [|E]; [by left|]. right. by exists (AddReaction id e a), (ecm_add_reaction e a).
  - apply on_message_replays. intros m Hm. destruct (unreact_deltas id e a m) as [|E]; [by apply (Hd id)|by left|].
    right. by exists (RemoveReaction id e a), (ecm_remove_reaction e a).
Qed.

(** *** The invariant *)

Lemma chat_ok_insert d id m : chat_ok d → ecm_id m = id → reactions_ok (ecm_reactions m) → chat_ok {| rc_messages := <[id := m]> (rc_messages d) |}.
Proof.
  intros Hd Hid Hr i m'. simpl. rewrite lookup_insert. case_decide; [|apply Hd]. intros [= <-]. by subst.
Qed.

Lemma chat_ok_on_message id f d : chat_ok d →
  (∀ m, reactions_ok (ecm_reactions m) → ecm_id (f m).1 = ecm_id m ∧ reactions_ok (ecm_reactions (f m).1)) → chat_ok (on_message id f d).1.
Proof.
  intros Hd Hf. unfold on_message. destruct (rc_messages d !! id) as [m|] eqn:Em; [|done].
  destruct (Hd id m Em) as [Hid Hr]. specialize (Hf m Hr) as [Hi Hr']. destruct (f m) as [m' b]. simpl in *. apply chat_ok_insert; [done|congruence|done].
Qed.

Lemma react_ok e a r : reactions_ok r → reactions_ok (react e a r).1.
Proof.
  intros Hr. unfold react. assert (Hn : NoDup (default [] (r !! e))) by (destruct (r !! e) eqn:E; [by eapply Hr|constructor]).
  case_bool_decide; simpl; intros e' l; rewrite lookup_insert; case_decide; try apply Hr; intros [= <-]; [done|].
  apply NoDup_app. split_and!; [done| |apply NoDup_singleton]. set_solver.
Qed.

Lemma unreact_ok e a r : reactions_ok r → reactions_ok (unreact e a r).1.
Proof.
  intros Hr. unfold unreact. destruct (r !! e) as [l|] eqn:El; [|done]. destruct (swap_remove_first a l) as [l'|] eqn:Es; [|done].
  pose proof (Hr e l El) as Hn. rewrite (swap_remove_perm _ _ _ Es) in Hn. apply NoDup_cons in Hn as [_ Hn].
  destruct l'; simpl; intros e' k; [rewrite lookup_delete|rewrite lookup_insert]; case_decide; try apply Hr; [done|]. by intros [= <-].
Qed.

Lemma chat_run_ok x d : chat_ok d → chat_op_ok x d → chat_ok (chat_run x d).
Proof.
  assert (Hauth : ∀ member f m, (ecm_id (f m).1 = ecm_id m ∧ reactions_ok (ecm_reactions (f m).1)) → reactions_ok (ecm_reactions m) →
    ecm_id (as_author member f m).1 = ecm_id m ∧ reactions_ok (ecm_reactions (as_author member f m).1))
    by (intros member f m Hf Hm; unfold as_author; by destruct (can_edit member m)).
  intros Hd Hx. destruct x as [m|id mem c t|id mem t|id a e|id a e]; simpl in Hx |- *.
  - destruct Hx. by apply chat_ok_insert.
  - apply chat_ok_on_message; [done|]. intros m Hm. apply Hauth; [|done]. unfold ecm_edit. by destruct (_ || _).
  - apply chat_ok_on_message; [done|]. intros m Hm. apply Hauth; [|done]. unfold ecm_delete. by destruct (ecm_is_deleted m).
  - apply chat_ok_on_message; [done|]. intros m Hm. unfold ecm_add_reaction. pose proof (react_ok e a _ Hm). by destruct (react e a _).
  - apply chat_ok_on_message; [done|]. intros m Hm. unfold ecm_remove_reaction. pose proof (unreact_ok e a _ Hm). by destruct (unreact e a _).
Qed.

(** *** Merging *)

Lemma union_authors_spec l l' : NoDup l → NoDup (union_authors l l') ∧ ∀ a, a ∈ union_authors l l' ↔ a ∈ l ∨ a ∈ l'.
Proof.
  unfold union_authors. revert l. induction l' as [|x l' IH]; intros l Hn; simpl; [set_solver|].
  case_bool_decide; [destruct (IH l Hn) as [H1 H2]; split; [done|set_solver]|].
  destruct (IH (l ++ [x])) as [H1 H2]; [apply NoDup_app; split_and!; [done|set_solver|apply NoDup_singleton]|].
  split; [done|]. intros a. rewrite H2. set_solver.
Qed.

Lemma union_authors_sub l l' : l' ⊆ l → union_authors l l' = l.
Proof.
  unfold union_authors. induction l' as [|x l' IH]; intros Hs; simpl; [done|]. rewrite bool_decide_true by set_solver. apply IH. set_solver.
Qed.

Lemma merge_reactions_lookup r r' e : merge_reactions r r' !! e =
  match r' !! e with Some l => Some (union_authors (default [] (r !! e)) l) | None => r !! e end.
Proof.
  unfold merge_reactions. rewrite (for_entries_lookup (λ _ o l, Some (union_authors (default [] o) l)) _ r r' e (λ _, True)); [done|done|done|..].
  - intros. by rewrite lookup_insert_eq.
  - intros. by rewrite lookup_insert_ne.
Qed.

Lemma merge_reactions_ok r r' : reactions_ok r → reactions_ok (merge_reactions r r').
Proof.
  intros Hr e l. rewrite merge_reactions_lookup. destruct (r' !! e); [|apply Hr]. intros [= <-]. apply union_authors_spec.
  destruct (r !! e) eqn:E; [by eapply Hr|constructor].
Qed.

Lemma merge_reactions_idem r : merge_reactions r r = r.
Proof.
  apply map_eq. intros e. rewrite merge_reactions_lookup. destruct (r !! e) as [l|]; [|done]. simpl. by rewrite union_authors_sub.
Qed.

Lemma chat_merge_lookup d d' id : rc_messages (chat_merge d d') !! id =
  match rc_messages d' !! id with
  | Some m => Some (match rc_messages d !! id with Some l => chat_combine l m | None => m end)
  | None => rc_messages d !! id
  end.
Proof.
  simpl. rewrite (for_entries_lookup (λ _ o m, Some (match o with Some l => chat_combine l m | None => m end)) _ _ _ id (λ _, True)); [done|done|done|..].
  - intros. unfold merge_at. by rewrite lookup_insert_eq.
  - intros. unfold merge_at. by rewrite lookup_insert_ne.
Qed.

Lemma chat_combine_idem m : chat_combine m m = m.
Proof.
  unfold chat_combine. rewrite merge_reactions_idem, Nat.ltb_irrefl, andb_negb_r. simpl. by destruct m.
Qed.

Lemma chat_merge_idem d : chat_merge d d = d.
Proof.
  destruct d as [l]. unfold chat_merge. f_equal. apply map_eq. intros id. pose proof (chat_merge_lookup {| rc_messages := l |} {| rc_messages := l |} id) as Hl.
  simpl in Hl |- *. rewrite Hl. destruct (l !! id); [|done]. by rewrite chat_combine_idem.
Qed.

Lemma chat_merge_ok d d' : chat_ok d → chat_ok d' → chat_ok (chat_merge d d').
Proof.
  intros Hd Hd' id m. rewrite chat_merge_lookup. destruct (rc_messages d' !! id) as [m'|] eqn:E'; [|apply Hd].
  destruct (rc_messages d !! id) as [l|] eqn:E; intros [= <-]; [|by apply Hd'].
  destruct (Hd id l E) as [H1 H2], (Hd' id m' E') as [H3 H4]. unfold chat_combine. destruct (_ || _); simpl; auto using merge_reactions_ok.
Qed.

(** Merging keeps every message and every reaction. *)
Lemma chat_merge_keeps d d' id m : rc_messages d !! id = Some m →
  ∃ m', rc_messages (chat_merge d d') !! id = Some m' ∧ ∀ e l a, ecm_reactions m !! e = Some l → NoDup l → a ∈ l →
    ∃ l', ecm_reactions m' !! e = Some l' ∧ a ∈ l'.
Proof.
  intros Hm. rewrite chat_merge_lookup, Hm. destruct (rc_messages d' !! id) as [m'|]; [|eauto].
  eexists. split; [done|]. intros e l a Hl Hn Ha.
  assert (∃ l', merge_reactions (ecm_reactions m) (ecm_reactions m') !! e = Some l' ∧ a ∈ l') as (l' & ? & ?).
  { rewrite merge_reactions_lookup, Hl. destruct (ecm_reactions m' !! e) as [k|]; [|eauto]. simpl. eexists. split; [done|].
    apply union_authors_spec; [done|]. by left. }
  exists l'. unfold chat_combine. by destruct (_ || _).
Qed.

(** Though a deleted message is preferred, a longer history brings it back. *)
Lemma deleted_comes_back m r : ecm_is_deleted m = true → ecm_is_deleted r = false → (version_count m < version_count r)%nat →
  ecm_is_deleted (chat_combine m r) = false ∧ ecm_current_content (chat_combine m r) = ecm_current_content r.
Proof.
  intros Hm Hr Hv. unfold chat_combine. rewrite (proj2 (Nat.ltb_lt _ _) Hv), orb_true_r. done.
Qed.

(** Two edits of one version: each replica keeps its own. *)
Lemma concurrent_edits_stay m c c' t : ecm_is_deleted m = false → c ≠ ecm_current_content m → c' ≠ ecm_current_content m → c ≠ c' →
  let a := (ecm_edit c t m).1 in let b := (ecm_edit c' t m).1 in
  ecm_current_content (chat_combine a b) = c ∧ ecm_current_content (chat_combine b a) = c'.
Proof.
  intros Hm Hc Hc' Hne. unfold ecm_edit. rewrite Hm, !bool_decide_false by done. simpl. unfold chat_combine, version_count. simpl.
  rewrite !length_app, ?Hm, Nat.ltb_irrefl. done.
Qed.

(** The preview of a long message panics when byte 97 is inside a character. *)
Lemma preview_panics d id m : rc_messages d !! id = Some m → (100 < length (as_bytes (ecm_current_content m)))%nat →
  is_char_boundary 97 (as_bytes (ecm_current_content m)) = false → reply_preview id d = Some Panics.
Proof.
  intros Hm Hl Hb. unfold reply_preview, get_message. rewrite Hm. simpl. unfold message_preview. rewrite (proj2 (Nat.ltb_lt _ _) Hl). unfold slice_to. by rewrite Hb.
Qed.

(** ** A replica that follows another

    The encodings of the deltas survive, and are never refused. *)
Class DeltaLaws {T : Type} `{DocumentCodec T} : Prop := {
  dl_delta x b : encode_delta (T := T) x = Ok b → decode_delta (T := T) b = Some x;
}.
Class CodecTotal (A : Type) `{Codec A} : Prop := c_total (a : A) : ∃ b, c_encode a = Ok b.

Section Following.
Context {I : Type} `{EqDecision I} `{!DocumentCodec RealmChatDocument, !Codec (list ChatDelta), !Codec EditableChatMessage}.
Context `{!CodecRoundtrip (list ChatDelta), !CodecTotal (list ChatDelta)} `{!DeltaLaws (T := RealmChatDocument)}.
#[local] Existing Instance chat_schema.
Implicit Types (d : Document RealmChatDocument I).

(** What one member does reaches a replica in the same state exactly: as a
    delta, or as a full state where nothing changed. *)
Lemma chat_op_arrives fault fault' me sender ev t x d1 d2 d1' msg `{!CodecLaws chat_ok (d_name d1)} :
  d_name d1 = d_name d2 → d_state d1 = d_state d2 → chat_ok (d_state d1) → chat_op_ok x (d_state d1) → sender ≠ me →
  doc_update fault (chat_run x) d1 = (d1', Ok tt, Some msg) →
  d_state d1' = chat_run x (d_state d1) ∧ d_state (on_event fault' me (LeMessage ev sender msg t) d2) = d_state d1'.
Proof.
  intros Hname Hstate Hok Hx Hne Hu. unfold doc_update, commit in Hu. simpl d_state in Hu. simpl d_name in Hu.
  set (new := chat_run x (d_state d1)) in *.
  assert (Hd1' : d_state d1' = new).
  { destruct (change_message _ _ _); [|done]. unfold persist in Hu. simpl in Hu. destruct (encode_state new); [|done].
    destruct fault; [done|]. by injection Hu as <-. }
  split; [done|]. rewrite Hd1'.
  assert (Hinc : ∃ f, incoming true (d_name d2) msg = Some f ∧ f (d_state d2) = new).
  { assert (Hmsg : change_message (d_name d1) (d_state d1) new = Ok msg).
    { destruct (change_message _ _ _) as [m|]; [|done]. destruct (persist fault _) as [? [|]]; [|done]. by injection Hu as _ ->. }
    unfold change_message in Hmsg. simpl extract_delta in Hmsg. unfold chat_extract_delta in Hmsg. unfold incoming. rewrite <-Hname, <-Hstate.
    destruct (chat_deltas (d_state d1) new) as [|y ys] eqn:Ed.
    - assert (Hsame : new = d_state d1).
      { pose proof (delta_replays x (d_state d1) Hok Hx) as Hr. fold new in Hr. by rewrite Ed in Hr. }
      destruct (encode_state new) as [payload|] eqn:Ep; [|done]. simpl in Hmsg.
      destruct (encode_envelope _) as [b|] eqn:Ee; [|done]. injection Hmsg as <-.
      assert (Hnd : delta_for (T := RealmChatDocument) (d_name d1) b = None) by (eapply (cl_not_delta (ok := chat_ok)); [|exact Ee]; reflexivity). rewrite Hnd. unfold state_for. rewrite (cl_envelope (ok := chat_ok) (name := d_name d1) _ _ Ee). simpl.
      rewrite bool_decide_true by done. rewrite (cl_state (name := d_name d1) new payload) by (try done; by rewrite Hsame).
      simpl. eexists. split; [done|]. rewrite Hsame. apply chat_merge_idem.
    - rewrite <-Ed in *. destruct (c_total (chat_deltas (d_state d1) new)) as [bytes Hb]. rewrite Hb in Hmsg. simpl in Hmsg.
      destruct (encode_delta _) as [b|] eqn:Ee; [|done]. injection Hmsg as <-.
      unfold delta_for. rewrite (dl_delta _ _ Ee). simpl. rewrite bool_decide_true by done.
      eexists. split; [done|]. simpl. unfold chat_apply_delta. rewrite (c_roundtrip _ _ Hb). by apply delta_replays. }
  destruct Hinc as (f & Hf & Hfs). unfold on_event. rewrite bool_decide_false by done. rewrite Hf. simpl.
  unfold persist_quietly, persist. simpl. destruct (encode_state _); [|done]. by destruct fault'.
Qed.

(** A run of operations of one member, each stored and sent, and what a
    follower that receives each message in order does. *)
Inductive follow_step (fault' : option DbError) (me sender : I) : Document RealmChatDocument I * Document RealmChatDocument I → Document RealmChatDocument I * Document RealmChatDocument I → Prop :=
| FollowStep fault x d1 d2 d1' msg ev t : chat_op_ok x (d_state d1) → doc_update fault (chat_run x) d1 = (d1', Ok tt, Some msg) →
    follow_step fault' me sender (d1, d2) (d1', on_event fault' me (LeMessage ev sender msg t) d2).

Lemma update_name fault f d d' r msg : doc_update fault f d = (d', r, msg) → d_name d' = d_name d.
Proof.
  unfold doc_update, commit. destruct (change_message _ _ _); [|by intros [= <- _ _]]. unfold persist. destruct (encode_state _); [|by intros [= <- _ _]].
  destruct fault; by intros [= <- _ _].
Qed.
Lemma event_name fault me e d : d_name (on_event fault me e d) = d_name d.
Proof.
  unfold on_event. destruct e; try done. case_bool_decide; [done|]. destruct (incoming _ _ _); [|done]. simpl.
  unfold persist_quietly, persist. destruct (encode_state _); [|done]. by destruct fault.
Qed.

(** C30. The follower of a chat holds the chat it follows. *)
Lemma follower_in_step fault' me sender name d1 d2 d1' d2' `{!CodecLaws chat_ok name} : sender ≠ me →
  d_name d1 = name → d_name d2 = name → d_state d1 = d_state d2 → chat_ok (d_state d1) →
  rtc (follow_step fault' me sender) (d1, d2) (d1', d2') → d_state d2' = d_state d1' ∧ chat_ok (d_state d1').
Proof.
  intros Hne. remember (d1, d2) as p eqn:Ep. remember (d1', d2') as q eqn:Eq. intros H1 H2 H3 H4 Hr. revert d1 d2 Ep H1 H2 H3 H4.
  induction Hr as [p|p p1 q Hs _ IH]; intros d1 d2 -> H1 H2 H3 H4; [by simplify_eq|].
  inversion Hs as [fault x e1 e2 e1' msg ev t Hx Hu]; subst.
  pose proof (chat_op_arrives fault fault' me sender ev t x d1 d2 e1' msg ltac:(congruence) H3 H4 Hx Hne Hu) as [Hn Ha].
  apply (IH eq_refl e1' _ eq_refl).
  - by rewrite (update_name _ _ _ _ _ _ Hu).
  - by rewrite event_name.
  - done.
  - rewrite Hn. by apply chat_run_ok.
Qed.
End Following.

(** ** Acknowledgements *)

Inductive DeliveryStatus : Type := DsSent | DsDelivered.
Record ChatAck : Type := { ack_message_id : string; ack_receiver : string; ack_acked_at : Z }.
Record ChatAckDocument : Type := { ca_acks : gmap string (list string) }.
Definition acks_default : ChatAckDocument := {| ca_acks := ∅ |}.

Definition receivers (id : string) (d : ChatAckDocument) : list string := default [] (ca_acks d !! id).
Definition record_ack (a : ChatAck) (d : ChatAckDocument) : ChatAckDocument * bool :=
  let l := default [] (ca_acks d !! ack_message_id a) in
  if bool_decide (ack_receiver a ∈ l) then ({| ca_acks := <[ack_message_id a := l]> (ca_acks d) |}, false)
  else ({| ca_acks := <[ack_message_id a := l ++ [ack_receiver a]]> (ca_acks d) |}, true).
Definition delivery_status (id : string) (d : ChatAckDocument) : DeliveryStatus :=
  match ca_acks d !! id with Some (_ :: _) => DsDelivered | _ => DsSent end.

(** The receivers of the new state that the old one lacks: a delta is sent for
    exactly one. *)
Definition new_acks (old new : ChatAckDocument) : list ChatAck :=
  map_to_list (ca_acks new) ≫= (λ il, (λ r, {| ack_message_id := il.1; ack_receiver := r; ack_acked_at := 0 |}) <$>
    missing_authors il.2 (default [] (ca_acks old !! il.1))).
Definition acks_merge (d remote : ChatAckDocument) : ChatAckDocument :=
  {| ca_acks := merge_reactions (ca_acks d) (ca_acks remote) |}.

Section AckSchema.
Context `{!Codec ChatAck}.
Definition acks_extract_delta (old new : ChatAckDocument) : option (list byte) :=
  match new_acks old new with [a] => r_ok (c_encode a) | _ => None end.
Definition acks_apply_delta (d : ChatAckDocument) (bytes : list byte) : ChatAckDocument * bool :=
  match c_decode bytes with Ok a => record_ack a d | Err _ => (d, false) end.
Definition acks_schema : DocumentSchema ChatAckDocument :=
  {| doc_default := acks_default; doc_merge := acks_merge; extract_delta := acks_extract_delta; apply_delta := acks_apply_delta |}.
End AckSchema.

(** Documents with the same acknowledgements. *)
Definition acks_equiv (d d' : ChatAckDocument) : Prop := ∀ id r, r ∈ receivers id d ↔ r ∈ receivers id d'.
Definition acks_ok (d : ChatAckDocument) : Prop := reactions_ok (ca_acks d).

Lemma receivers_merge d d' id r : acks_ok d → r ∈ receivers id (acks_merge d d') ↔ r ∈ receivers id d ∨ r ∈ receivers id d'.
Proof.
  intros Hd. unfold receivers, acks_merge. simpl. rewrite merge_reactions_lookup.
  destruct (ca_acks d' !! id) as [l|]; simpl; [|set_solver].
  apply union_authors_spec. destruct (ca_acks d !! id) eqn:E; [by eapply Hd|constructor].
Qed.

#[export] Instance acks_laws : MergeLaws acks_ok acks_equiv acks_merge acks_default.
Proof.
  assert (Hok : ∀ a b, acks_ok a → acks_ok b → acks_ok (acks_merge a b)) by (intros; by apply merge_reactions_ok).
  assert (Hz : acks_ok acks_default) by (intros e l; simpl; by rewrite lookup_empty).
  split; [split|..]; auto; unfold acks_equiv.
  - split.
    + by intros a id r.
    + intros a b Hab id r. by rewrite Hab.
    + intros a b c Hab Hbc id r. by rewrite Hab.
  - intros a a' b b' ? ? ? ? Ha Hb id r. rewrite !receivers_merge, Ha, Hb by done. done.
  - intros a b ? ? id r. rewrite !receivers_merge by done. tauto.
  - intros a b c ? ? ? id r. rewrite !receivers_merge by auto. tauto.
  - intros a ? id r. rewrite !receivers_merge by done. tauto.
  - intros a ? id r. rewrite receivers_merge by done. unfold receivers at 1. simpl. rewrite lookup_empty. simpl. set_solver.
Qed.

(** A message counts as delivered once anybody acknowledged it, and merging
    never takes that back. *)
Lemma delivered_spec id d : delivery_status id d = DsDelivered ↔ ∃ r, r ∈ receivers id d.
Proof.
  unfold delivery_status, receivers. destruct (ca_acks d !! id) as [[|x l]|]; simpl; split; try done.
  - by intros (r & ?%not_elem_of_nil).
  - intros _. exists x. left.
  - by intros (r & ?%not_elem_of_nil).
Qed.

Lemma ack_delta_replays `{!Codec ChatAck, !CodecRoundtrip ChatAck} a d bytes : acks_ok d →
  acks_extract_delta d (record_ack a d).1 = Some bytes → acks_apply_delta d bytes = record_ack a d ∧ (record_ack a d).2 = true.
Proof.
  intros Hd. unfold acks_extract_delta, new_acks. destruct (record_ack a d) as [d' b] eqn:Er. simpl.
  assert (Hone : ca_acks d' !! ack_message_id a = Some (receivers (ack_message_id a) d') ∧
    ∀ id, id ≠ ack_message_id a → ca_acks d' !! id = ca_acks d !! id).
  { unfold receivers. unfold record_ack in Er. case_bool_decide; simplify_eq; simpl; rewrite lookup_insert_eq;
      (split; [done|]); intros; by rewrite lookup_insert_ne. }
  destruct Hone as [Ha Ho]. rewrite (bind_one _ _ _ _ Ha); [|intros id l Hne Hl; simpl; rewrite <-Ho, Hl by done; simpl; by rewrite missing_none].
  simpl. unfold record_ack in Er. case_bool_decide as Hin; simplify_eq; unfold receivers; simpl; rewrite lookup_insert_eq; simpl.
  - by rewrite missing_none.
  - rewrite missing_snoc by done. simpl. destruct (c_encode _) as [b|] eqn:Ee; [|done]. simpl. intros [= <-].
    unfold acks_apply_delta. rewrite (c_roundtrip _ _ Ee). unfold record_ack. simpl. by rewrite bool_decide_false.
Qed.
