(* ===== verification/HomeIndex.v ===== *)
(** * The home realm's index of artifacts, and contacts

    Models, of [indras-network/src]: [artifact_index.rs] (what a member shares
    and with whom) with the errors of [access.rs], the operations of
    [home_realm.rs] on it, the reconciliation of [artifact_sync.rs] (the
    head tracker is that of [EventStore.v]), [artifact_recovery.rs],
    [contacts.rs] and [sentiment.rs].  What the node is asked to do is the list
    of calls; their outcomes are arguments.  Locations and the documents of the
    registry are opaque. *)

From S2P Require Import Prelude Float Artifact Crypto Attention Packet Pending EventStore Documents Convergence Sealing IntentionDoc.
From Stdlib Require Import Floats.SpecFloat.

(** ** Entries *)

Inductive GrantError : Type := GrNotFound | GrRecalled | GrTransferred | GrAlreadyGranted.
Inductive RevokeError : Type := RvNotFound | RvCannotRevoke | RvNotActive.
Inductive TransferError : Type := TrNotFound | TrNotActive.

Definition grant_error_message (e : GrantError) : string :=
  match e with
  | GrNotFound => "artifact not found"
  | GrRecalled => "artifact has been recalled"
  | GrTransferred => "artifact has been transferred"
  | GrAlreadyGranted => "grantee already has access"
  end.
Definition revoke_error_message (e : RevokeError) : string :=
  match e with
  | RvNotFound => "artifact not found"
  | RvCannotRevoke => "cannot revoke permanent grant"
  | RvNotActive => "artifact is not active"
  end.
Definition transfer_error_message (e : TransferError) : string :=
  match e with TrNotFound => "artifact not found" | TrNotActive => "artifact is not active" end.

Record GeoLocation : Type := { geo_lat : f64; geo_lng : f64 }.
Record EncryptedKeyBlob : Type := { ekb_nonce : list byte; ekb_ciphertext : list byte }.

Record HomeArtifactEntry : Type := {
  he_id : ArtifactId;
  he_name : string;
  he_mime_type : option string;
  he_size : Z;
  he_created_at : Z;
  he_encrypted_key : option EncryptedKeyBlob;
  he_status : ArtifactStatus;
  he_grants : list AccessGrant;
  he_provenance : option ArtifactProvenance;
  he_location : option GeoLocation;
}.
Definition he_with (s : ArtifactStatus) (g : list AccessGrant) (e : HomeArtifactEntry) : HomeArtifactEntry :=
  {| he_id := he_id e; he_name := he_name e; he_mime_type := he_mime_type e; he_size := he_size e; he_created_at := he_created_at e;
     he_encrypted_key := he_encrypted_key e; he_status := s; he_grants := g; he_provenance := he_provenance e; he_location := he_location e |}.

Definition has_active_grant (m : arr32) (now : Z) (e : HomeArtifactEntry) : bool := existsb (grants_to m now) (he_grants e).
Definition grant_for (m : arr32) (e : HomeArtifactEntry) : option AccessGrant := find_first (λ g, bool_decide (grantee g = m)) (he_grants e).

Record ArtifactIndex : Type := { ai_artifacts : gmap ArtifactId HomeArtifactEntry }.
Definition index_default : ArtifactIndex := {| ai_artifacts := ∅ |}.
Definition set_entry (id : ArtifactId) (e : HomeArtifactEntry) (x : ArtifactIndex) : ArtifactIndex :=
  {| ai_artifacts := <[id := e]> (ai_artifacts x) |}.

Definition index_store (e : HomeArtifactEntry) (x : ArtifactIndex) : ArtifactIndex * bool :=
  match ai_artifacts x !! he_id e with Some _ => (x, false) | None => (set_entry (he_id e) e x, true) end.
Definition index_get (id : ArtifactId) (x : ArtifactIndex) : option HomeArtifactEntry := ai_artifacts x !! id.

Definition index_grant (id : ArtifactId) (m : arr32) (md : AccessMode) (by_ : arr32) (now : Z) : M ArtifactIndex GrantError unit := λ x,
  match ai_artifacts x !! id with
  | None => (x, Err GrNotFound)
  | Some e =>
      match he_status e with
      | Recalled _ => (x, Err GrRecalled)
      | Transferred _ _ => (x, Err GrTransferred)
      | Active =>
          if has_active_grant m now e then (x, Err GrAlreadyGranted)
          else (set_entry id (he_with Active (he_grants e ++ [{| grantee := m; mode := md; granted_at := now; granted_by := by_ |}]) e) x, Ok tt)
      end
  end.

Definition is_permanent (g : AccessGrant) : bool := match mode g with Permanent => true | _ => false end.

(** Only the first grant of the member is looked at. *)
Definition index_revoke (id : ArtifactId) (m : arr32) : M ArtifactIndex RevokeError unit := λ x,
  match ai_artifacts x !! id with
  | None => (x, Err RvNotFound)
  | Some e =>
      if negb (is_active (he_status e)) then (x, Err RvNotActive)
      else match remove_first (λ g, bool_decide (grantee g = m)) (he_grants e) with
           | (_, None) => (x, Err RvNotFound)
           | (rest, Some g) => if is_permanent g then (x, Err RvCannotRevoke) else (set_entry id (he_with (he_status e) rest e) x, Ok tt)
           end
  end.

Definition index_recall (id : ArtifactId) (at_ : Z) (x : ArtifactIndex) : ArtifactIndex * bool :=
  match ai_artifacts x !! id with
  | None => (x, false)
  | Some e => if negb (is_active (he_status e)) then (x, false)
              else (set_entry id (he_with (Recalled at_) (retain is_permanent (he_grants e)) e) x, true)
  end.

(** The entry the recipient gets: active, shared back with the former steward,
    with the permanent grants of others. *)
Definition transferred_entry (to steward : arr32) (now : Z) (e : HomeArtifactEntry) : HomeArtifactEntry :=
  {| he_id := he_id e; he_name := he_name e; he_mime_type := he_mime_type e; he_size := he_size e; he_created_at := now;
     he_encrypted_key := he_encrypted_key e; he_status := Active;
     he_grants := {| grantee := steward; mode := Revocable; granted_at := now; granted_by := to |} ::
       retain (λ g, is_permanent g && negb (bool_decide (grantee g = to))) (he_grants e);
     he_provenance := Some {| original_steward := steward; received_from := steward; received_at := now; received_via := ProvenanceTransfer |};
     he_location := he_location e |}.

Definition index_transfer (id : ArtifactId) (to steward : arr32) (now : Z) : M ArtifactIndex TransferError HomeArtifactEntry := λ x,
  match ai_artifacts x !! id with
  | None => (x, Err TrNotFound)
  | Some e => if negb (is_active (he_status e)) then (x, Err TrNotActive)
              else (set_entry id (he_with (Transferred to now) (he_grants e) e) x, Ok (transferred_entry to steward now e))
  end.

Definition index_values (x : ArtifactIndex) : list HomeArtifactEntry := (map_to_list (ai_artifacts x)).*2.
Definition index_accessible_by (m : arr32) (now : Z) (x : ArtifactIndex) : list HomeArtifactEntry :=
  retain (λ e, is_active (he_status e) && has_active_grant m now e) (index_values x).
Definition replace_grants (id : ArtifactId) (gs : list AccessGrant) (x : ArtifactIndex) : ArtifactIndex * bool :=
  match ai_artifacts x !! id with Some e => (set_entry id (he_with (he_status e) gs e) x, true) | None => (x, false) end.
Definition gc_expired (now : Z) (x : ArtifactIndex) : ArtifactIndex :=
  {| ai_artifacts := (λ e, he_with (he_status e) (retain (λ g, negb (is_expired (mode g) now)) (he_grants e)) e) <$> ai_artifacts x |}.
Definition active_artifacts (x : ArtifactIndex) : list HomeArtifactEntry := retain (is_active ∘ he_status) (index_values x).
Definition index_active_count (x : ArtifactIndex) : nat := length (active_artifacts x).

(** The whole index is replaced by what arrives. *)
Definition index_schema : DocumentSchema ArtifactIndex := replacing_schema index_default.

(** *** Who has access *)

(** A member may read an artifact: it is active and a grant of theirs has not
    expired. *)
Definition may_read (id : ArtifactId) (m : arr32) (now : Z) (x : ArtifactIndex) : Prop :=
  ∃ e g, ai_artifacts x !! id = Some e ∧ is_active (he_status e) = true ∧ g ∈ he_grants e ∧ grantee g = m ∧ is_expired (mode g) now = false.

(** Entries are stored under their identifier. *)
Definition home_index_ok (x : ArtifactIndex) : Prop := ∀ id e, ai_artifacts x !! id = Some e → he_id e = id.

Lemma has_active_grant_spec m now e : has_active_grant m now e = true ↔ ∃ g, g ∈ he_grants e ∧ grantee g = m ∧ is_expired (mode g) now = false.
Proof.
  unfold has_active_grant. rewrite existsb_exists. unfold grants_to. setoid_rewrite andb_true_iff. setoid_rewrite negb_true_iff.
  setoid_rewrite bool_decide_eq_true. setoid_rewrite <-list_elem_of_In. naive_solver.
Qed.

(** [accessible_by] lists exactly the artifacts a member may read. *)
Lemma accessible_spec m now x e : home_index_ok x →
  e ∈ index_accessible_by m now x ↔ ai_artifacts x !! he_id e = Some e ∧ may_read (he_id e) m now x.
Proof.
  intros Hok. unfold index_accessible_by. rewrite elem_of_retain, andb_true_iff, has_active_grant_spec. unfold index_values.
  rewrite list_elem_of_fmap. split.
  - intros [([id e'] & -> & Hin%elem_of_map_to_list) [Ha (g & ? & ? & ?)]]. simpl in *. pose proof (Hok id e' Hin) as <-.
    split; [done|]. by exists e', g.
  - intros [He (e' & g & He' & ? & ? & ? & ?)]. simplify_eq. split; [|eauto].
    exists (he_id e, e). split; [done|]. by apply elem_of_map_to_list.
Qed.

(** A grant gives access, to that member and that artifact only. *)
Lemma index_grant_ok id m md by_ now x x' : index_grant id m md by_ now x = (x', Ok tt) → is_expired md now = false →
  may_read id m now x' ∧ ¬ may_read id m now x ∧
  ∀ id' m', (id', m') ≠ (id, m) → may_read id' m' now x' ↔ may_read id' m' now x.
Proof.
  unfold index_grant. destruct (ai_artifacts x !! id) as [e|] eqn:E; [|done]. destruct (he_status e) eqn:Es; try done.
  destruct (has_active_grant m now e) eqn:Eg; [done|]. intros [= <-] Hmd. split_and!.
  - eexists _, _. split; [apply lookup_insert_eq|]. split; [done|]. simpl. split; [apply elem_of_app; right; by left|done].
  - intros (e' & g & He' & _ & Hin & Hg & Hx). simplify_eq.
    assert (has_active_grant (grantee g) now e = true) by (apply has_active_grant_spec; eauto). congruence.
  - intros id' m' Hne. unfold may_read. simpl. destruct (decide (id' = id)) as [->|].
    + setoid_rewrite lookup_insert_eq. rewrite E. split.
      * intros (e' & g & [= <-] & _ & [Hin|Hin%list_elem_of_singleton]%elem_of_app & Hg & Hx).
        -- exists e, g. by rewrite Es.
        -- subst g. simpl in *. congruence.
      * intros (e' & g & [= <-] & _ & Hin & Hg & Hx). eexists _, g. split; [done|]. split_and!; try done. apply elem_of_app. by left.
    + by setoid_rewrite lookup_insert_ne.
Qed.

(** Recalling leaves nobody access ... *)
Lemma index_recall_ok id at_ x x' m now : index_recall id at_ x = (x', true) → ¬ may_read id m now x'.
Proof.
  unfold index_recall. destruct (ai_artifacts x !! id) as [e|]; [|done]. destruct (negb _); [done|]. intros [= <-].
  intros (e' & g & He' & Ha & _). simpl in He'. rewrite lookup_insert_eq in He'. by simplify_eq.
Qed.

(** ... and a transfer hands the artifact over: nobody reads it here any more,
    and at the recipient the former steward and the permanent grantees do. *)
Lemma index_transfer_ok id to steward now x x' r : index_transfer id to steward now x = (x', Ok r) →
  ∃ e, ai_artifacts x !! id = Some e ∧ is_active (he_status e) = true ∧ (∀ m t, ¬ may_read id m t x') ∧
    he_status r = Active ∧ has_active_grant steward now r = true ∧
    ∀ g, g ∈ he_grants e → is_permanent g = true → grantee g ≠ to → g ∈ he_grants r.
Proof.
  unfold index_transfer. destruct (ai_artifacts x !! id) as [e|] eqn:E; [|done]. destruct (is_active (he_status e)) eqn:Ea; [|done].
  intros [= <- <-]. exists e. split_and!; try done.
  - intros m t (e' & g & He' & Ha & _). simpl in He'. rewrite lookup_insert_eq in He'. by simplify_eq.
  - apply has_active_grant_spec. eexists. split; [left|done].
  - intros g Hg Hp Hto. simpl. right. apply elem_of_retain. split; [done|]. by rewrite Hp, bool_decide_false.
Qed.

(** Revoking takes access away where the member has one grant. *)
Lemma remove_first_spec {A} (f : A → bool) l : match remove_first f l with
  | (_, None) => ∀ y, y ∈ l → f y = false
  | (l', Some y) => ∃ l1 l2, l = l1 ++ y :: l2 ∧ l' = l1 ++ l2 ∧ f y = true ∧ ∀ z, z ∈ l1 → f z = false
  end.
Proof.
  induction l as [|x l IH]; simpl; [by intros y ?%not_elem_of_nil|]. destruct (f x) eqn:E.
  - exists [], l. split_and!; try done. by intros z ?%not_elem_of_nil.
  - destruct (remove_first f l) as [l' [y|]].
    + destruct IH as (l1 & l2 & -> & -> & ? & ?). exists (x :: l1), l2. split_and!; try done. by intros z [->|]%elem_of_cons; auto.
    + intros y [->|]%elem_of_cons; auto.
Qed.

Definition one_grant (m : arr32) (e : HomeArtifactEntry) : Prop :=
  ∀ i j g g', he_grants e !! i = Some g → he_grants e !! j = Some g' → grantee g = m → grantee g' = m → i = j.

Lemma index_revoke_ok id m x x' now : index_revoke id m x = (x', Ok tt) → (∀ e, ai_artifacts x !! id = Some e → one_grant m e) →
  ¬ may_read id m now x'.
Proof.
  unfold index_revoke. destruct (ai_artifacts x !! id) as [e|] eqn:E; [|done]. destruct (negb _); [done|].
  pose proof (remove_first_spec (λ g, bool_decide (grantee g = m)) (he_grants e)) as Hs. destruct (remove_first _ _) as [l' [g|]]; [|done].
  destruct (is_permanent g); [done|]. intros [= <-] Hone (e' & g' & He' & _ & Hin & Hg' & _). simpl in He'. rewrite lookup_insert_eq in He'.
  injection He' as <-. simpl in Hin. destruct Hs as (l1 & l2 & Hl & -> & Hg%bool_decide_eq_true & Hl1).
  apply elem_of_app in Hin as [Hin|Hin]; [specialize (Hl1 _ Hin); by rewrite bool_decide_true in Hl1|].
  apply list_elem_of_lookup in Hin as [k Hk]. specialize (Hone e eq_refl (length l1) (S (length l1 + k))%nat g g'). rewrite Hl in Hone.
  assert (length l1 = S (length l1 + k))%nat; [|lia]. apply Hone; [by rewrite list_lookup_middle| |done|done].
  rewrite lookup_app_r by lia. replace (S (length l1 + k) - length l1)%nat with (S k) by lia. done.
Qed.

(** After a grant has expired and the member was granted access again, revoking
    succeeds and the access stays. *)
Lemma revoke_leaves_access id m owner t now e x : ai_artifacts x !! id = Some e → he_status e = Active →
  he_grants e = [{| grantee := m; mode := Timed t; granted_at := 0; granted_by := owner |}] → t <= now →
  ∃ x1 x2, index_grant id m Revocable owner now x = (x1, Ok tt) ∧ index_revoke id m x1 = (x2, Ok tt) ∧ may_read id m now x2.
Proof.
  intros He Hs Hg Ht. unfold index_grant. rewrite He, Hs. unfold has_active_grant. rewrite Hg. simpl. unfold grants_to. simpl.
  rewrite bool_decide_true by done. rewrite (proj2 (Z.leb_le _ _) Ht). simpl. eexists _, _. split; [done|]. unfold index_revoke. simpl. rewrite lookup_insert_eq. simpl.
  rewrite bool_decide_true by done. simpl. split; [done|]. eexists _, _. split; [apply lookup_insert_eq|]. split; [done|]. simpl. split; [left|done].
Qed.

(** Dropping expired grants changes nobody's access. *)
Lemma gc_expired_same id m now x : may_read id m now (gc_expired now x) ↔ may_read id m now x.
Proof.
  unfold may_read. simpl. rewrite lookup_fmap. destruct (ai_artifacts x !! id) as [e|] eqn:E; simpl; [|naive_solver].
  split.
  - intros (e' & g & [= <-] & Ha & Hg & ?). simpl in *. apply elem_of_retain in Hg as [? _]. by exists e, g.
  - intros (e' & g & [= <-] & Ha & Hg & ? & Hx). eexists _, g. split; [done|]. simpl. split_and!; try done. apply elem_of_retain. by rewrite Hx.
Qed.

(** Once no longer active, an artifact stays so, but for a new upload of none:
    no operation of the index makes it active again. *)
Inductive index_op : (ArtifactIndex → ArtifactIndex) → Prop :=
| IoStore e : index_op (λ x, (index_store e x).1)
| IoGrant id m md by_ now : index_op (λ x, (index_grant id m md by_ now x).1)
| IoRevoke id m : index_op (λ x, (index_revoke id m x).1)
| IoRecall id t : index_op (λ x, (index_recall id t x).1)
| IoTransfer id to st now : index_op (λ x, (index_transfer id to st now x).1)
| IoReplace id gs : index_op (λ x, (replace_grants id gs x).1)
| IoGc now : index_op (gc_expired now).

Definition gone (id : ArtifactId) (x : ArtifactIndex) : Prop := ∃ e, ai_artifacts x !! id = Some e ∧ is_active (he_status e) = false.

Lemma set_entry_gone id id' e e0 x : ai_artifacts x !! id' = Some e0 → (is_active (he_status e0) = false → is_active (he_status e) = false) →
  gone id x → gone id (set_entry id' e x).
Proof.
  intros He0 Hs (e' & He' & Ha). unfold gone. simpl. rewrite lookup_insert. case_decide; [|eauto]. subst. exists e. simplify_eq. auto.
Qed.

Lemma index_op_gone f id x : index_op f → gone id x → gone id (f x).
Proof.
  intros Hf Hg. destruct Hf as [e|i m md by_ now|i m|i t|i to st now|i gs|now].
  - unfold index_store. destruct (ai_artifacts x !! he_id e) eqn:E; [done|]. destruct Hg as (e' & He' & Ha). exists e'. simpl.
    rewrite lookup_insert_ne by congruence. done.
  - unfold index_grant. destruct (ai_artifacts x !! i) as [e|] eqn:E; [|done]. destruct (he_status e) eqn:Es; try done.
    destruct (has_active_grant m now e); [done|]. apply (set_entry_gone _ _ _ e); [done|by rewrite Es|done].
  - unfold index_revoke. destruct (ai_artifacts x !! i) as [e|] eqn:E; [|done]. destruct (negb _); [done|].
    destruct (remove_first _ _) as [l [g|]]; [|done]. destruct (is_permanent g); [done|]. by apply (set_entry_gone _ _ _ e).
  - unfold index_recall. destruct (ai_artifacts x !! i) as [e|] eqn:E; [|done]. destruct (negb _); [done|]. by apply (set_entry_gone _ _ _ e).
  - unfold index_transfer. destruct (ai_artifacts x !! i) as [e|] eqn:E; [|done]. destruct (negb _); [done|]. by apply (set_entry_gone _ _ _ e).
  - unfold replace_grants. destruct (ai_artifacts x !! i) as [e|] eqn:E; [|done]. by apply (set_entry_gone _ _ _ e).
  - destruct Hg as (e & He & Ha). unfold gone. simpl. rewrite lookup_fmap, He. simpl. eauto.
Qed.

(** ** Interfaces for shared artifacts ([artifact_sync.rs]) *)

(** What the node is asked to do. *)
Inductive NodeCall : Type :=
| CreateInterface (i : arr32)
| AddMember (i m : arr32)
| LeaveInterface (i : arr32)
| StoreBlob (data : list byte)
| DeleteBlob (hash : arr32).

Record SyncRegistry : Type := {
  sr_active : gmap ArtifactId arr32;
  sr_documents : gset ArtifactId;
  sr_tracker : HeadTracker;
}.

Section Registry.
Context `{Blake3}.
Implicit Types (r : SyncRegistry) (id : ArtifactId).

Definition artifact_interface_id id : arr32 := blake3 (as_bytes "artifact-sync-v1:" ++ arr32_bytes (artifact_id_bytes id)).
Definition artifact_key_seed id : arr32 := blake3 (as_bytes "artifact-key-v1:" ++ arr32_bytes (artifact_id_bytes id)).

Definition audience (e : HomeArtifactEntry) : list arr32 := grantee <$> retain (λ g, negb (is_expired (mode g) 0)) (he_grants e).

(** [created]: what the node answered to the creation; [listed]: whether the
    node has the interface already.  Members that are not a public key are
    skipped ([is_key]); refusals to add are ignored. *)
Definition ensure (created : Result unit string) (listed : bool) (is_key : arr32 → bool) (self : arr32) id (members : list arr32) r
    : SyncRegistry * Result unit IndraError * list NodeCall :=
  let i := artifact_interface_id id in
  let adds := AddMember i <$> retain (λ m, negb (bool_decide (m = self)) && is_key m) members in
  let activated := {| sr_active := <[id := i]> (sr_active r); sr_documents := sr_documents r; sr_tracker := sr_tracker r |} in
  match sr_active r !! id with
  | Some _ => (r, Ok tt, adds)
  | None =>
      match created with
      | Ok _ => (activated, Ok tt, CreateInterface i :: adds)
      | Err e => if listed then (activated, Ok tt, CreateInterface i :: adds)
                 else (r, Err (IeArtifact ("Failed to create sync interface: " +:+ e)), [CreateInterface i])
      end
  end.

Definition teardown id r : SyncRegistry * list NodeCall :=
  match sr_active r !! id with
  | Some i => ({| sr_active := delete id (sr_active r); sr_documents := sr_documents r; sr_tracker := sr_tracker r |}, [LeaveInterface i])
  | None => (r, [])
  end.

Definition reconcile (created : Result unit string) (listed : bool) (is_key : arr32 → bool) (self : arr32) id (e : HomeArtifactEntry) r
    : SyncRegistry * Result unit IndraError * list NodeCall :=
  match audience e with
  | [] =>
      let '(r, calls) := teardown id {| sr_active := sr_active r; sr_documents := sr_documents r ∖ {[id]}; sr_tracker := ht_remove_artifact id (sr_tracker r) |} in
      (r, Ok tt, calls)
  | members =>
      ensure created listed is_key self id members {| sr_active := sr_active r; sr_documents := {[id]} ∪ sr_documents r; sr_tracker := sr_tracker r |}
  end.

(** An artifact is synchronised exactly while it has an audience. *)
Lemma reconcile_ok created listed is_key self id e r r' calls : reconcile created listed is_key self id e r = (r', Ok tt, calls) →
  (is_Some (sr_active r' !! id) ↔ audience e ≠ []) ∧ (id ∈ sr_documents r' ↔ audience e ≠ []) ∧
  ∀ id', id' ≠ id → sr_active r' !! id' = sr_active r !! id' ∧ (id' ∈ sr_documents r' ↔ id' ∈ sr_documents r).
Proof.
  unfold reconcile, ensure, teardown. destruct (audience e) as [|m ms].
  - simpl. destruct (sr_active r !! id) eqn:E; intros [= <- _]; simpl.
    + rewrite lookup_delete_eq. split_and!; [split; [by intros []|done]|set_solver|].
      intros id' Hne. rewrite lookup_delete_ne by done. split; [done|set_solver].
    + rewrite E. split_and!; [split; [by intros []|done]|set_solver|]. intros. split; [done|set_solver].
  - simpl. destruct (sr_active r !! id) eqn:E; [|destruct created; [|destruct listed; [|done]]]; intros [= <- _]; simpl;
      rewrite ?E, ?lookup_insert_eq; (split_and!; [by split; eauto|set_solver|]); intros id' Hne; rewrite ?lookup_insert_ne by done; (split; [done|set_solver]).
Qed.

(** What is done for an audience: the interface is created unless it is up, and
    every other member with a key is added to it. *)
Definition invitations (is_key : arr32 → bool) (self : arr32) id (e : HomeArtifactEntry) r : list NodeCall :=
  let i := artifact_interface_id id in
  (if bool_decide (is_Some (sr_active r !! id)) then [] else [CreateInterface i])
  ++ (AddMember i <$> retain (λ m, negb (bool_decide (m = self)) && is_key m) (audience e)).

Definition registry_with id r : SyncRegistry :=
  {| sr_active := <[id := default (artifact_interface_id id) (sr_active r !! id)]> (sr_active r);
     sr_documents := {[id]} ∪ sr_documents r; sr_tracker := sr_tracker r |}.

Lemma reconcile_shared created listed is_key self id e r r' calls : audience e ≠ [] →
  reconcile created listed is_key self id e r = (r', Ok tt, calls) →
  r' = registry_with id r ∧ calls = invitations is_key self id e r.
Proof.
  unfold reconcile, ensure, invitations, registry_with. destruct (audience e) as [|m ms]; [done|]. intros _. simpl sr_active.
  destruct (sr_active r !! id) as [i|] eqn:E; [|destruct created; [|destruct listed; [|done]]]; intros [= <- <-]; (split; [|done]).
  - simpl. by rewrite insert_id.
  - done.
  - done.
Qed.

(** Someone whose access was revoked is not taken out of the interface while
    others still have access: the node is only asked to add members. *)
Lemma revoked_not_removed created listed is_key self id e r r' calls : audience e ≠ [] →
  reconcile created listed is_key self id e r = (r', Ok tt, calls) →
  ∀ c, c ∈ calls → c = CreateInterface (artifact_interface_id id) ∨ ∃ m, c = AddMember (artifact_interface_id id) m ∧ m ∈ audience e.
Proof.
  unfold reconcile, ensure. destruct (audience e) as [|m ms]; [done|]. intros _. set (l := retain _ (m :: ms)).
  assert (Hl : ∀ c, c ∈ AddMember (artifact_interface_id id) <$> l → ∃ x, c = AddMember (artifact_interface_id id) x ∧ x ∈ m :: ms).
  { intros c (x & -> & [Hx _]%elem_of_retain)%list_elem_of_fmap. eauto. }
  simpl sr_active. destruct (sr_active r !! id); [|destruct created; [|destruct listed; [|done]]]; intros [= _ <-] c; rewrite ?elem_of_cons; naive_solver.
Qed.
End Registry.

(** ** The operations of the home realm *)

(** [str::contains]. *)
Fixpoint bytes_prefix (p l : list byte) : bool :=
  match p, l with
  | [], _ => true
  | x :: p, y :: l => bool_decide (x = y) && bytes_prefix p l
  | _, [] => false
  end.
Fixpoint bytes_contain (p l : list byte) : bool :=
  bytes_prefix p l || match l with [] => false | _ :: l => bytes_contain p l end.

Section HomeRealm.
Context {I : Type} `{EqDecision I} `{!DocumentCodec ArtifactIndex} `{Blake3}.
#[local] Existing Instance index_schema.

Record HomeRealm : Type := { hr_self : arr32; hr_index : Document ArtifactIndex I; hr_registry : SyncRegistry }.

(** The answers of the node during one operation. *)
Record NodeAnswers : Type := { na_fault : option DbError; na_created : Result unit string; na_listed : bool; na_is_key : arr32 → bool }.

Definition artifact_error (s : string) : IndraError := IeArtifact s.

(** [doc.update] with a captured result, then reconcile if it went well. *)
Definition index_operation {A} (na : NodeAnswers) (id : ArtifactId) (m : M ArtifactIndex IndraError A) (h : HomeRealm)
    : HomeRealm * Result A IndraError * list NodeCall :=
  let result := (m (d_state (hr_index h))).2 in
  match doc_outcome (doc_update (na_fault na) (λ x, (m x).1) (hr_index h)) with
  | (d, Err e) => ({| hr_self := hr_self h; hr_index := d; hr_registry := hr_registry h |}, Err e, [])
  | (d, Ok _) =>
      match result with
      | Err e => ({| hr_self := hr_self h; hr_index := d; hr_registry := hr_registry h |}, Err e, [])
      | Ok a =>
          match index_get id (d_state d) with
          | None => ({| hr_self := hr_self h; hr_index := d; hr_registry := hr_registry h |}, Ok a, [])
          | Some e =>
              let '(r, res, calls) := reconcile (na_created na) (na_listed na) (na_is_key na) (hr_self h) id e (hr_registry h) in
              ({| hr_self := hr_self h; hr_index := d; hr_registry := r |}, match res with Ok _ => Ok a | Err e => Err e end, calls)
          end
      end
  end.

Definition map_error {S E A} (f : E → string) (m : M S E A) : M S IndraError A := λ s,
  match m s with (s', Ok a) => (s', Ok a) | (s', Err e) => (s', Err (artifact_error (f e))) end.

(** The clock of the index is always 0 here. *)
Definition grant_access (na : NodeAnswers) (id : ArtifactId) (m : arr32) (md : AccessMode) (h : HomeRealm) : HomeRealm * Result unit IndraError * list NodeCall :=
  index_operation na id (map_error (λ e, "Grant failed: " +:+ grant_error_message e) (index_grant id m md (hr_self h) 0)) h.
Definition revoke_access (na : NodeAnswers) (id : ArtifactId) (m : arr32) (h : HomeRealm) : HomeRealm * Result unit IndraError * list NodeCall :=
  index_operation na id (map_error (λ e, "Revoke failed: " +:+ revoke_error_message e) (index_revoke id m)) h.
Definition home_transfer (na : NodeAnswers) (id : ArtifactId) (to : arr32) (h : HomeRealm) : HomeRealm * Result HomeArtifactEntry IndraError * list NodeCall :=
  index_operation na id (map_error (λ e, "Transfer failed: " +:+ transfer_error_message e) (index_transfer id to (hr_self h) 0)) h.

(** [recall] reconciles only when something was recalled. *)
Definition home_recall (na : NodeAnswers) (id : ArtifactId) (h : HomeRealm) : HomeRealm * Result bool IndraError * list NodeCall :=
  let recalled := (index_recall id 0 (d_state (hr_index h))).2 in
  match doc_outcome (doc_update (na_fault na) (λ x, (index_recall id 0 x).1) (hr_index h)) with
  | (d, Err e) => ({| hr_self := hr_self h; hr_index := d; hr_registry := hr_registry h |}, Err e, [])
  | (d, Ok _) =>
      let h' := {| hr_self := hr_self h; hr_index := d; hr_registry := hr_registry h |} in
      match recalled, index_get id (d_state d) with
      | true, Some e =>
          let '(r, res, calls) := reconcile (na_created na) (na_listed na) (na_is_key na) (hr_self h) id e (hr_registry h) in
          ({| hr_self := hr_self h; hr_index := d; hr_registry := r |}, match res with Ok _ => Ok true | Err e => Err e end,
           DeleteBlob (artifact_id_bytes id) :: calls)
      | true, None => (h', Ok true, [DeleteBlob (artifact_id_bytes id)])
      | false, _ => (h', Ok false, [])
      end
  end.

(** [upload] of a file that was read: its bytes, its name and the type guessed
    from the extension; [stored]: the answer of the blob store. *)
Definition upload (fault : option DbError) (stored : Result unit string) (data : list byte) (name : string) (mime : option string) (h : HomeRealm)
    : HomeRealm * Result ArtifactId IndraError * list NodeCall :=
  let id := Blob (blake3 data) in
  match stored with
  | Err e => (h, Err (artifact_error ("Failed to store blob: " +:+ e)), [StoreBlob data])
  | Ok _ =>
      let entry := {| he_id := id; he_name := name; he_mime_type := mime; he_size := Z.of_nat (length data); he_created_at := 0;
                      he_encrypted_key := None; he_status := Active; he_grants := []; he_provenance := None; he_location := None |} in
      match doc_outcome (doc_update fault (λ x, (index_store entry x).1) (hr_index h)) with
      | (d, Err e) => ({| hr_self := hr_self h; hr_index := d; hr_registry := hr_registry h |}, Err e, [StoreBlob data])
      | (d, Ok _) => ({| hr_self := hr_self h; hr_index := d; hr_registry := hr_registry h |}, Ok id, [StoreBlob data])
      end
  end.

Definition shared_with (m : arr32) (h : HomeRealm) : list HomeArtifactEntry := index_accessible_by m 0 (d_state (hr_index h)).

Definition plain_entry (id : ArtifactId) (name : string) : HomeArtifactEntry :=
  {| he_id := id; he_name := name; he_mime_type := None; he_size := 0; he_created_at := 0; he_encrypted_key := None;
     he_status := Active; he_grants := []; he_provenance := None; he_location := None |}.

(** [ensure_dm_story] and [ensure_realm_artifact]: an entry, then a permanent
    grant; the error is dropped when its text names [AlreadyGranted]. *)
Definition ensure_shared (na na' : NodeAnswers) (id : ArtifactId) (name : string) (m : arr32) (h : HomeRealm)
    : HomeRealm * Result unit IndraError * list NodeCall :=
  match doc_outcome (doc_update (na_fault na) (λ x, match index_get id x with None => (index_store (plain_entry id name) x).1 | Some _ => x end) (hr_index h)) with
  | (d, Err e) => ({| hr_self := hr_self h; hr_index := d; hr_registry := hr_registry h |}, Err e, [])
  | (d, Ok _) =>
      match grant_access na' id m Permanent {| hr_self := hr_self h; hr_index := d; hr_registry := hr_registry h |} with
      | (h, Err (IeArtifact s), calls) =>
          (h, if bytes_contain (as_bytes "AlreadyGranted") (as_bytes ("Artifact error: " +:+ s)) then Ok tt else Err (IeArtifact s), calls)
      | res => res
      end
  end.
Definition ensure_dm_story (na na' : NodeAnswers) (id : ArtifactId) (peer : arr32) (h : HomeRealm) : HomeRealm * Result unit IndraError * list NodeCall :=
  ensure_shared na na' id "DM" peer h.
Definition ensure_realm_artifact (na na' : NodeAnswers) (id : ArtifactId) (name : string) (h : HomeRealm) : HomeRealm * Result unit IndraError * list NodeCall :=
  ensure_shared na na' id name (hr_self h) h.

(** C28. A successful grant with a mode that has not expired at the clock the realm
    uses, which is always 0: the artifact was active and the member could not
    read it; now it can.  In the index the grant is added to that entry, and
    nothing else changes, so that other members read what they did.  The
    interface of the artifact is up, created if it was not, and the node is
    asked to add exactly the other members with unexpired grants that are
    public keys; the registry is otherwise as it was. *)
Theorem grant_access_ok na id m md h h' calls : grant_access na id m md h = (h', Ok tt, calls) → is_expired md 0 = false →
  let x := d_state (hr_index h) in
  let x' := d_state (hr_index h') in
  (∃ e, index_get id x = Some e ∧ he_status e = Active ∧
     let e' := he_with Active (he_grants e ++ [{| grantee := m; mode := md; granted_at := 0; granted_by := hr_self h |}]) e in
     x' = set_entry id e' x ∧ calls = invitations (na_is_key na) (hr_self h) id e' (hr_registry h)) ∧
  may_read id m 0 x' ∧ ¬ may_read id m 0 x ∧
  (∀ id' m', (id', m') ≠ (id, m) → may_read id' m' 0 x' ↔ may_read id' m' 0 x) ∧
  (m ≠ hr_self h → na_is_key na m = true → AddMember (artifact_interface_id id) m ∈ calls) ∧
  hr_registry h' = registry_with id (hr_registry h) ∧ hr_self h' = hr_self h.
Proof.
  unfold grant_access, index_operation, doc_outcome. set (m0 := map_error _ _).
  pose proof (update_state (na_fault na) (λ x, (m0 x).1) (hr_index h)) as Hs.
  destruct (doc_update _ _ _) as [[d [u|]] msg]; [|done]. simpl in Hs |- *. subst m0. unfold map_error in Hs |- *.
  destruct (index_grant _ _ _ _ _ _) as [x' [[]|]] eqn:Eg; [|done]. simpl in Hs |- *.
  intros Hr Hmd. pose proof (index_grant_ok _ _ _ _ _ _ _ Eg Hmd) as (Hread & Hnew & Hothers). rewrite <-Hs in Hread, Hothers.
  unfold index_grant in Eg. destruct (ai_artifacts (d_state (hr_index h)) !! id) as [e|] eqn:He; [|done].
  destruct (he_status e) eqn:Est; [|done..]. destruct (has_active_grant m 0 e); [done|]. injection Eg as Eg.
  set (g := {| grantee := m; mode := md; granted_at := 0; granted_by := hr_self h |}) in *.
  set (e' := he_with Active (he_grants e ++ [g]) e) in *. rewrite <-Eg in Hs. rewrite Hs in Hr. unfold index_get, set_entry in Hr.
  cbn [ai_artifacts] in Hr. rewrite lookup_insert_eq in Hr.
  assert (Hin : m ∈ audience e').
  { unfold audience. apply list_elem_of_fmap. exists g. split; [done|]. apply elem_of_retain. simpl. rewrite Hmd.
    split; [|done]. apply elem_of_app. right. by left. }
  assert (Hne : audience e' ≠ []) by (intros Hnil; rewrite Hnil in Hin; by apply not_elem_of_nil in Hin).
  destruct (reconcile _ _ _ _ _ _ _) as [[r [[]|]] c] eqn:Erc; [|done]. injection Hr as <- <-.
  destruct (reconcile_shared _ _ _ _ _ _ _ _ _ Hne Erc) as [-> ->]. cbn [hr_index hr_registry hr_self].
  split_and!; [by exists e|done|done|done| |done|done].
  intros Hself Hkey. unfold invitations. apply elem_of_app. right. apply list_elem_of_fmap. exists m. split; [done|].
  apply elem_of_retain. split; [done|]. by rewrite bool_decide_false, Hkey.
Qed.

(** Asked twice for the same story, the second call fails: the text of the
    error is not the name that is looked for. *)
Lemma dm_story_twice na na' id peer h e : ai_artifacts (d_state (hr_index h)) !! id = Some e → he_status e = Active →
  has_active_grant peer 0 e = true → na_fault na = None → na_fault na' = None →
  (∀ s : ArtifactIndex, ∃ b, encode_state s = Ok b) → (∀ env, ∃ b, encode_envelope (T := ArtifactIndex) env = Ok b) →
  (ensure_dm_story na na' id peer h).1.2 = Err (IeArtifact "Grant failed: grantee already has access").
Proof.
  intros He Hs Hg Hf Hf' Henc Henv.
  assert (Hup : ∀ na f (d : Document ArtifactIndex I), na_fault na = None → ∃ msg b, doc_update (na_fault na) f d = (notify None false (set_d_snapshot b (set_d_state (f (d_state d)) d)), Ok tt, Some msg)).
  { intros na0 f d Hna. unfold doc_update, commit, change_message, persist. simpl. destruct (Henc (f (d_state d))) as [b ->]. simpl.
    destruct (Henv {| env_doc_name := d_name d; env_payload := b |}) as [b' ->]. simpl. rewrite Hna. eauto. }
  unfold ensure_dm_story, ensure_shared, doc_outcome, grant_access, index_operation, doc_outcome, index_get.
  set (f := λ x : ArtifactIndex, match ai_artifacts x !! id with None => (index_store (plain_entry id "DM") x).1 | Some _ => x end).
  destruct (Hup na f (hr_index h) Hf) as (msg & b & ->). simpl.
  assert (Hfx : f (d_state (hr_index h)) = d_state (hr_index h)) by (unfold f; by rewrite He). rewrite Hfx.
  set (d1 := notify _ _ _). set (g := λ x : ArtifactIndex, (map_error _ _ x).1).
  destruct (Hup na' g d1 Hf') as (msg' & b' & ->). simpl. unfold map_error, index_grant. rewrite He, Hs, Hg. simpl. done.
Qed.

(** A timed grant is listed however late it is: the clock is never consulted. *)
Lemma timed_share_stays id m t by_ h e : home_index_ok (d_state (hr_index h)) → ai_artifacts (d_state (hr_index h)) !! id = Some e →
  he_status e = Active → {| grantee := m; mode := Timed t; granted_at := 0; granted_by := by_ |} ∈ he_grants e → 0 < t → e ∈ shared_with m h.
Proof.
  intros Hok He Hs Hg Ht. apply accessible_spec; [done|]. rewrite (Hok id e He). split; [done|].
  exists e, {| grantee := m; mode := Timed t; granted_at := 0; granted_by := by_ |}. rewrite Hs. split_and!; try done. simpl. lia.
Qed.
End HomeRealm.

(** ** Recovering artifacts from peers ([artifact_recovery.rs]) *)

Record RecoverableArtifact : Type := {
  ra_id : ArtifactId;
  ra_name : string;
  ra_size : Z;
  ra_mime_type : option string;
  ra_access_mode : AccessMode;
  ra_steward : arr32;
}.
Record RecoveryManifest : Type := { rm_artifacts : list RecoverableArtifact }.
Definition rm_new : RecoveryManifest := {| rm_artifacts := [] |}.
Definition rm_add (a : RecoverableArtifact) (m : RecoveryManifest) : RecoveryManifest := {| rm_artifacts := rm_artifacts m ++ [a] |}.
(** The sum of [u64] sizes; an overflow panics in a debug build. *)
Definition rm_total_size (m : RecoveryManifest) : Z := foldl (λ n a, n + ra_size a) 0 (rm_artifacts m).
Definition fully_recoverable (m : RecoveryManifest) : list RecoverableArtifact :=
  retain (λ a, match ra_access_mode a with Permanent | Transfer => true | _ => false end) (rm_artifacts m).

(** ** Contacts ([contacts.rs]) and the sentiment relayed about them ([sentiment.rs]) *)

Inductive ContactStatus : Type := CsPending | CsConfirmed.
Record ContactEntry : Type := {
  ce_sentiment : Z;
  ce_relayable : bool;
  ce_display_name : option string;
  ce_status : ContactStatus;
}.
Definition ce_default : ContactEntry := {| ce_sentiment := 0; ce_relayable := true; ce_display_name := None; ce_status := CsPending |}.

Record ContactsDocument : Type := { cd_contacts : gmap arr32 ContactEntry }.
Definition contacts_default : ContactsDocument := {| cd_contacts := ∅ |}.
Definition contacts_schema : DocumentSchema ContactsDocument := replacing_schema contacts_default.

Definition contacts_add (m : arr32) (d : ContactsDocument) : ContactsDocument :=
  {| cd_contacts := <[m := default ce_default (cd_contacts d !! m)]> (cd_contacts d) |}.
Definition contacts_add_with_name (m : arr32) (name : option string) (d : ContactsDocument) : ContactsDocument :=
  let e := default ce_default (cd_contacts d !! m) in
  {| cd_contacts := <[m := match name with
       | Some _ => {| ce_sentiment := ce_sentiment e; ce_relayable := ce_relayable e; ce_display_name := name; ce_status := ce_status e |}
       | None => e end]> (cd_contacts d) |}.
Definition get_display_name (m : arr32) (d : ContactsDocument) : option string := cd_contacts d !! m ≫= ce_display_name.
Definition contacts_remove (m : arr32) (d : ContactsDocument) : ContactsDocument * bool :=
  ({| cd_contacts := delete m (cd_contacts d) |}, bool_decide (is_Some (cd_contacts d !! m))).
Definition contacts_contains (m : arr32) (d : ContactsDocument) : bool := bool_decide (is_Some (cd_contacts d !! m)).

(** [get_mut] and a change of what it finds. *)
Definition on_contact (m : arr32) (f : ContactEntry → ContactEntry) (d : ContactsDocument) : ContactsDocument * bool :=
  match cd_contacts d !! m with
  | Some e => ({| cd_contacts := <[m := f e]> (cd_contacts d) |}, true)
  | None => (d, false)
  end.
Definition clamp_sentiment (s : Z) : Z := Z.max (-1) (Z.min 1 s).
Definition contacts_set_sentiment (m : arr32) (s : Z) : ContactsDocument → ContactsDocument * bool :=
  on_contact m (λ e, {| ce_sentiment := clamp_sentiment s; ce_relayable := ce_relayable e; ce_display_name := ce_display_name e; ce_status := ce_status e |}).
Definition contacts_set_relayable (m : arr32) (b : bool) : ContactsDocument → ContactsDocument * bool :=
  on_contact m (λ e, {| ce_sentiment := ce_sentiment e; ce_relayable := b; ce_display_name := ce_display_name e; ce_status := ce_status e |}).
Definition contacts_set_status (m : arr32) (s : ContactStatus) : ContactsDocument → ContactsDocument * bool :=
  on_contact m (λ e, {| ce_sentiment := ce_sentiment e; ce_relayable := ce_relayable e; ce_display_name := ce_display_name e; ce_status := s |}).
Definition get_sentiment (m : arr32) (d : ContactsDocument) : option Z := ce_sentiment <$> cd_contacts d !! m.
Definition get_status (m : arr32) (d : ContactsDocument) : option ContactStatus := ce_status <$> cd_contacts d !! m.
Definition contacts_with_sentiment (d : ContactsDocument) : list (arr32 * Z) :=
  (λ ke, (ke.1, ce_sentiment ke.2)) <$> map_to_list (cd_contacts d).
Definition relayable_sentiments (d : ContactsDocument) : list (arr32 * Z) :=
  (λ ke, (ke.1, ce_sentiment ke.2)) <$> retain (λ ke, ce_relayable ke.2) (map_to_list (cd_contacts d)).

Record SentimentRelayDocument : Type := { srd_sentiments : gmap arr32 Z }.
Definition relay_update_from (l : list (arr32 * Z)) (d : SentimentRelayDocument) : SentimentRelayDocument :=
  {| srd_sentiments := foldl (λ m ks, <[ks.1 := ks.2]> m) ∅ l |}.
Definition relay_get (m : arr32) (d : SentimentRelayDocument) : option Z := srd_sentiments d !! m.

Section ContactsRealm.
Context {I : Type} `{EqDecision I} `{!DocumentCodec ContactsDocument}.
#[local] Existing Instance contacts_schema.

Record ContactsRealm : Type := { cr_document : Document ContactsDocument I; cr_self : arr32 }.
Definition set_cr (d : Document ContactsDocument I) (c : ContactsRealm) : ContactsRealm := {| cr_document := d; cr_self := cr_self c |}.

Definition add_contact_with_name (fault : option DbError) (m : arr32) (name : option string) : M ContactsRealm IndraError unit := λ c,
  if bool_decide (m = cr_self c) then (c, invalid_op "Cannot add yourself as a contact")
  else let '(d, r) := doc_outcome (doc_update fault (contacts_add_with_name m name) (cr_document c)) in (set_cr d c, r).
Definition add_contact (fault : option DbError) (m : arr32) : M ContactsRealm IndraError unit := λ c,
  if bool_decide (m = cr_self c) then (c, invalid_op "Cannot add yourself as a contact")
  else let '(d, r) := doc_outcome (doc_update fault (contacts_add m) (cr_document c)) in (set_cr d c, r).
Definition remove_contact (fault : option DbError) (m : arr32) : M ContactsRealm IndraError bool := λ c,
  let removed := (contacts_remove m (d_state (cr_document c))).2 in
  match doc_outcome (doc_update fault (λ x, (contacts_remove m x).1) (cr_document c)) with
  | (d, Ok _) => (set_cr d c, Ok removed)
  | (d, Err e) => (set_cr d c, Err e)
  end.

(** The three changes of an entry: a member who is no contact is an error. *)
Definition change_contact (fault : option DbError) (f : ContactsDocument → ContactsDocument * bool) (msg : string) : M ContactsRealm IndraError unit := λ c,
  let updated := (f (d_state (cr_document c))).2 in
  match doc_outcome (doc_update fault (λ x, (f x).1) (cr_document c)) with
  | (d, Ok _) => (set_cr d c, if updated then Ok tt else invalid_op msg)
  | (d, Err e) => (set_cr d c, Err e)
  end.
Definition update_sentiment (fault : option DbError) (m : arr32) (s : Z) : M ContactsRealm IndraError unit :=
  change_contact fault (contacts_set_sentiment m s) "Cannot set sentiment: member is not a contact".
Definition set_relayable (fault : option DbError) (m : arr32) (b : bool) : M ContactsRealm IndraError unit :=
  change_contact fault (contacts_set_relayable m b) "Cannot set relayable: member is not a contact".
Definition confirm_contact (fault : option DbError) (m : arr32) : M ContactsRealm IndraError unit :=
  change_contact fault (contacts_set_status m CsConfirmed) "Cannot confirm: member is not a contact".

(** *** What contacts are *)

(** Sentiments are -1, 0 or 1, and a member is no contact of themselves. *)
Definition contacts_ok (self : arr32) (d : ContactsDocument) : Prop :=
  cd_contacts d !! self = None ∧ ∀ m e, cd_contacts d !! m = Some e → -1 <= ce_sentiment e <= 1.

Lemma contacts_ok_insert self m e d : contacts_ok self d → m ≠ self → -1 <= ce_sentiment e <= 1 →
  contacts_ok self {| cd_contacts := <[m := e]> (cd_contacts d) |}.
Proof.
  intros [H1 H2] Hne He. split; simpl; [by rewrite lookup_insert_ne|]. intros m' e'. rewrite lookup_insert. case_decide; [by intros [= <-]|apply H2].
Qed.

Lemma on_contact_ok self m f d : contacts_ok self d → (∀ e, -1 <= ce_sentiment e <= 1 → -1 <= ce_sentiment (f e) <= 1) → contacts_ok self (on_contact m f d).1.
Proof.
  intros Hd Hf. unfold on_contact. destruct (cd_contacts d !! m) as [e|] eqn:E; [|done]. simpl. apply contacts_ok_insert; [done| |].
  - intros ->. destruct Hd as [Hs _]. congruence.
  - apply Hf. by eapply Hd.
Qed.

Lemma default_ok self m d : contacts_ok self d → -1 <= ce_sentiment (default ce_default (cd_contacts d !! m)) <= 1.
Proof. intros [_ Hd]. destruct (cd_contacts d !! m) eqn:E; simpl; [by eapply Hd|lia]. Qed.

Inductive contact_op : ∀ {A}, M ContactsRealm IndraError A → Prop :=
| CopAdd fault m : contact_op (add_contact fault m)
| CopAddNamed fault m n : contact_op (add_contact_with_name fault m n)
| CopRemove fault m : contact_op (remove_contact fault m)
| CopSentiment fault m s : contact_op (update_sentiment fault m s)
| CopRelayable fault m b : contact_op (set_relayable fault m b)
| CopConfirm fault m : contact_op (confirm_contact fault m).

Lemma contact_op_ok {A} (op : M ContactsRealm IndraError A) c : contact_op op → contacts_ok (cr_self c) (d_state (cr_document c)) →
  contacts_ok (cr_self (op c).1) (d_state (cr_document (op c).1)) ∧ cr_self (op c).1 = cr_self c.
Proof.
  assert (Hup : ∀ fault f, (∀ x, contacts_ok (cr_self c) x → contacts_ok (cr_self c) (f x)) → contacts_ok (cr_self c) (d_state (cr_document c)) →
    contacts_ok (cr_self c) (d_state (doc_outcome (doc_update fault f (cr_document c))).1))
    by (intros fault f Hf Hc; unfold doc_outcome; rewrite update_state; auto).
  assert (Hch : ∀ fault m f msg, (∀ e, -1 <= ce_sentiment e <= 1 → -1 <= ce_sentiment (f e) <= 1) → contacts_ok (cr_self c) (d_state (cr_document c)) →
    contacts_ok (cr_self (change_contact fault (on_contact m f) msg c).1) (d_state (cr_document (change_contact fault (on_contact m f) msg c).1)) ∧
    cr_self (change_contact fault (on_contact m f) msg c).1 = cr_self c).
  { intros fault m f msg Hf Hc. unfold change_contact. specialize (Hup fault (λ x, (on_contact m f x).1)).
    destruct (doc_outcome _) as [d [|]]; simpl in *; (split; [apply Hup; auto using on_contact_ok|done]). }
  intros Hop Hc. destruct Hop as [fault m|fault m n|fault m|fault m s|fault m b|fault m].
  - unfold add_contact. case_bool_decide; [done|]. specialize (Hup fault (contacts_add m)). destruct (doc_outcome _) as [d r]. simpl in *.
    split; [|done]. apply Hup; [|done]. intros x Hx. apply contacts_ok_insert; [done|done|by eapply default_ok].
  - unfold add_contact_with_name. case_bool_decide; [done|]. specialize (Hup fault (contacts_add_with_name m n)). destruct (doc_outcome _) as [d r]. simpl in *.
    split; [|done]. apply Hup; [|done]. intros x Hx. apply contacts_ok_insert; [done|done|]. destruct n; simpl; by eapply default_ok.
  - unfold remove_contact. specialize (Hup fault (λ x, (contacts_remove m x).1)). destruct (doc_outcome _) as [d [|]]; simpl in *; (split; [|done]);
      (apply Hup; [|done]); intros x [H1 H2]; (split; simpl; [rewrite lookup_delete; by case_decide|]);
      intros m' e'; rewrite lookup_delete; case_decide; [done|apply H2|done|apply H2].
  - apply Hch; [|done]. intros e He. simpl. unfold clamp_sentiment. lia.
  - by apply Hch.
  - by apply Hch.
Qed.
End ContactsRealm.

(** What is published about contacts is what the owner allows, as of now. *)
Lemma relay_publishes d r m s : relay_get m (relay_update_from (relayable_sentiments d) r) = Some s ↔
  ∃ e, cd_contacts d !! m = Some e ∧ ce_relayable e = true ∧ ce_sentiment e = s.
Proof.
  unfold relay_get, relay_update_from. simpl.
  assert (Hfold : ∀ l (m0 : gmap arr32 Z), NoDup l.*1 → (∀ k, k ∈ l.*1 → m0 !! k = None) →
    ∀ k v, foldl (λ m ks, <[ks.1 := ks.2]> m) m0 l !! k = Some v ↔ (k, v) ∈ l ∨ m0 !! k = Some v).
  { induction l as [|[k0 v0] l IH]; intros m0 Hn Hnew k v; simpl; [set_solver|]. apply NoDup_cons in Hn as [Hk0 Hn]. rewrite IH.
    - rewrite elem_of_cons. destruct (decide (k = k0)) as [->|Hne].
      + rewrite lookup_insert_eq. assert ((k0, v) ∉ l) by (intros Hin; apply Hk0; by apply (list_elem_of_fmap_2 fst) in Hin).
        rewrite (Hnew k0) by left. naive_solver.
      + rewrite lookup_insert_ne by done. naive_solver.
    - done.
    - intros k1 Hk1. rewrite lookup_insert_ne by (intros ->; done). apply Hnew. by right. }
  rewrite Hfold.
  - rewrite lookup_empty. unfold relayable_sentiments. rewrite list_elem_of_fmap. setoid_rewrite elem_of_retain. split.
    + intros [([k e] & [= -> ->] & Hin%elem_of_map_to_list & Hr)|]; [eauto|done].
    + intros (e & He & Hr & <-). left. exists (m, e). split; [done|]. split; [by apply elem_of_map_to_list|done].
  - unfold relayable_sentiments. rewrite <-list_fmap_compose. pose proof (NoDup_fst_map_to_list (cd_contacts d)) as Hn.
    induction (map_to_list (cd_contacts d)) as [|[k e] l IH]; simpl; [constructor|]. apply NoDup_cons in Hn as [Hk Hn].
    destruct (ce_relayable e); simpl; [|by apply IH]. constructor; [|by apply IH].
    intros ([k' e'] & Hk' & [Hin _]%elem_of_retain)%list_elem_of_fmap. apply Hk. simpl in Hk'. subst k'. by apply (list_elem_of_fmap_2 fst) in Hin.
  - intros k _. apply lookup_empty.
Qed.
