(* ===== verification/ContentStore.v ===== *)
(** * The content-addressed blob store

    Models [indras-storage/src/blobs/store.rs] and [content_ref.rs]: blobs in
    files named after their hash, below directories named after its first
    digits.  The files under the base directory are a map from relative paths;
    where a file operation fails is an argument, and a failed write leaves
    behind what it had written. *)

From S2P Require Import Prelude Bytes RelayAuth Documents.

Local Open Scope string_scope.
Local Open Scope Z_scope.
Local Open Scope list_scope.

(** ** References *)

Record ContentRef : Type := { cr_hash : arr32; cr_size : Z }.

#[global] Instance ContentRef_eq_dec : EqDecision ContentRef.
Proof. solve_decision. Defined.

Definition content_ref_new (h : arr32) (n : Z) : ContentRef := {| cr_hash := h; cr_size := n |}.

Definition content_ref_from_data `{Blake3} (d : list byte) : ContentRef :=
  {| cr_hash := blake3 d; cr_size := Z.of_nat (length d) |}.

Definition hash_hex (c : ContentRef) : string := hex32 (cr_hash c).

Definition cr_short_hash (c : ContentRef) : string := hex (take 4 (arr32_bytes (cr_hash c))).

Definition content_equals (a b : ContentRef) : bool := bool_decide (cr_hash a = cr_hash b).

Definition INLINE_THRESHOLD : Z := 4096.

Definition should_store_as_blob (c : ContentRef) : bool := INLINE_THRESHOLD <=? cr_size c.

Record ContentMetadata : Type := {
  cm_ref : ContentRef;
  cm_stored_at_millis : Z;
  cm_content_type : option string;
  cm_ref_count : Z;
  cm_tags : list string;
}.

Definition content_metadata_new (now : Z) (c : ContentRef) : ContentMetadata :=
  {| cm_ref := c; cm_stored_at_millis := now; cm_content_type := None; cm_ref_count := 1; cm_tags := [] |}.

Definition cm_with_content_type (t : string) (m : ContentMetadata) : ContentMetadata :=
  {| cm_ref := cm_ref m; cm_stored_at_millis := cm_stored_at_millis m; cm_content_type := Some t;
     cm_ref_count := cm_ref_count m; cm_tags := cm_tags m |}.

Definition cm_with_tag (t : string) (m : ContentMetadata) : ContentMetadata :=
  {| cm_ref := cm_ref m; cm_stored_at_millis := cm_stored_at_millis m; cm_content_type := cm_content_type m;
     cm_ref_count := cm_ref_count m; cm_tags := cm_tags m ++ [t] |}.

(** ** The store *)

Record BlobStoreConfig : Type := { shard_depth : Z; max_blob_size : Z }.

Definition blob_store_config_default : BlobStoreConfig :=
  {| shard_depth := 2; max_blob_size := 100 * 1024 * 1024 |}.

(** The configuration and the files below the base directory, by the names on
    the way to them. *)
Record DiskBlobs : Type := { db_config : BlobStoreConfig; db_files : gmap (list string) (list byte) }.

(** On the files found in the directory. *)
Definition disk_blobs_new (fault : option string) (c : BlobStoreConfig) (files : gmap (list string) (list byte))
    : Result DiskBlobs DbError :=
  match fault with Some e => Err (DbIo e) | None => Ok {| db_config := c; db_files := files |} end.

Definition set_files (m : gmap (list string) (list byte)) (s : DiskBlobs) : DiskBlobs :=
  {| db_config := db_config s; db_files := m |}.

Definition shard_dirs (depth : nat) (hash_hex : string) : list string :=
  (λ i, substring (i * 2) 2 hash_hex)
    <$> retain (λ i, (i * 2 + 2 <=? length (as_bytes hash_hex))%nat) (seq 0 depth).

Definition blob_path (s : DiskBlobs) (c : ContentRef) : list string :=
  shard_dirs (Z.to_nat (shard_depth (db_config s))) (hash_hex c) ++ [hash_hex c].

(** [path.with_extension("tmp")]: the name is a hash and has no extension. *)
Definition temp_path (s : DiskBlobs) (c : ContentRef) : list string :=
  shard_dirs (Z.to_nat (shard_depth (db_config s))) (hash_hex c) ++ [hash_hex c +:+ ".tmp"].

Definition blob_exists (c : ContentRef) (s : DiskBlobs) : bool :=
  bool_decide (is_Some (db_files s !! blob_path s c)).

(** Where storing a blob can fail; a write may get only so far. *)
Inductive StoreFault : Type :=
| SfMkdir (e : string)
| SfCreate (e : string)
| SfWrite (written : list byte) (e : string)
| SfSync (e : string)
| SfRename (e : string).

Section Blobs.
Context `{Blake3}.

Definition blob_store (fault : option StoreFault) (data : list byte) (s : DiskBlobs)
    : DiskBlobs * Result ContentRef DbError :=
  if max_blob_size (db_config s) <? Z.of_nat (length data) then (s, Err DbCapacityExceeded)
  else
    let content_ref := content_ref_from_data data in
    if blob_exists content_ref s then (s, Ok content_ref)
    else
      let temp b := set_files (<[temp_path s content_ref := b]> (db_files s)) s in
      match fault with
      | Some (SfMkdir e) | Some (SfCreate e) => (s, Err (DbIo e))
      | Some (SfWrite written e) => (temp written, Err (DbIo e))
      | Some (SfSync e) | Some (SfRename e) => (temp data, Err (DbIo e))
      | None =>
          (set_files (<[blob_path s content_ref := data]> (delete (temp_path s content_ref) (db_files s))) s,
           Ok content_ref)
      end.

Definition store_bytes := blob_store.

Definition blob_load (fault : option string) (c : ContentRef) (s : DiskBlobs) : Result (list byte) DbError :=
  match db_files s !! blob_path s c, fault with
  | None, None => Err (DbPacketNotFound (hash_hex c))
  | _, Some e => Err (DbIo e)
  | Some data, None =>
      if negb (content_equals (content_ref_from_data data) c) then Err (DbDeserialization "Hash mismatch")
      else Ok data
  end.

Definition blob_delete (fault : option string) (c : ContentRef) (s : DiskBlobs) : DiskBlobs * Result bool DbError :=
  match fault with
  | Some e => (s, Err (DbIo e))
  | None =>
      match db_files s !! blob_path s c with
      | Some _ => (set_files (delete (blob_path s c) (db_files s)) s, Ok true)
      | None => (s, Ok false)
      end
  end.

(** [hex::decode]: pairs of digits in either case. *)
Fixpoint hex_pairs (l : list byte) : option (list byte) :=
  match l with
  | [] => Some []
  | a :: b :: l =>
      x ← hex_value a; y ← hex_value b; r ← hex_pairs l; Some (byte_of_Z (x * 16 + y) :: r)
  | [_] => None
  end.

Definition hex_decode (s : string) : option (list byte) := hex_pairs (as_bytes s).

(** One file found on the way: a name that parses as a hash. *)
Definition blob_entry (e : list string * list byte) : option ContentRef :=
  name ← last e.1;
  if bool_decide (length (as_bytes name) = 64%nat) then
    hash ← (b ← hex_decode name; to_arr32 b);
    Some {| cr_hash := hash; cr_size := Z.of_nat (length e.2) |}
  else None.

(** Directories are read in an unspecified order. *)
Definition list_all (fault : option string) (s : DiskBlobs) : Result (list ContentRef) DbError :=
  match fault with
  | Some e => Err (DbIo e)
  | None => Ok (omap blob_entry (map_to_list (db_files s)))
  end.

Definition total_size (fault : option string) (s : DiskBlobs) : Result Z DbError :=
  let? refs := list_all fault s in Ok (foldl (λ a r, wrap_u64 (a + cr_size r)) 0 refs).

Record GcResult : Type := { deleted_count : nat; retained_count : nat; bytes_freed : Z }.

Definition gc_default : GcResult := {| deleted_count := 0; retained_count := 0; bytes_freed := 0 |}.

Fixpoint gc_loop (fault : ContentRef → option string) (is_referenced : ContentRef → bool)
    (refs : list ContentRef) (s : DiskBlobs) (r : GcResult) : DiskBlobs * Result GcResult DbError :=
  match refs with
  | [] => (s, Ok r)
  | c :: refs =>
      if negb (is_referenced c) then
        match blob_delete (fault c) c s with
        | (s, Err e) => (s, Err e)
        | (s, Ok true) =>
            gc_loop fault is_referenced refs s
              {| deleted_count := S (deleted_count r); retained_count := retained_count r;
                 bytes_freed := wrap_u64 (bytes_freed r + cr_size c) |}
        | (s, Ok false) => gc_loop fault is_referenced refs s r
        end
      else
        gc_loop fault is_referenced refs s
          {| deleted_count := deleted_count r; retained_count := S (retained_count r);
             bytes_freed := bytes_freed r |}
  end.

Definition blob_gc (list_fault : option string) (fault : ContentRef → option string)
    (is_referenced : ContentRef → bool) (s : DiskBlobs) : DiskBlobs * Result GcResult DbError :=
  match list_all list_fault s with
  | Err e => (s, Err e)
  | Ok all_refs => gc_loop fault is_referenced all_refs s gc_default
  end.
End Blobs.

(** ** The files of a store *)

Section BlobFacts.
Context `{Blake3}.
Implicit Types (s : DiskBlobs) (h : arr32) (c : ContentRef).

Lemma hex32_inj a b : hex32 a = hex32 b → a = b.
Proof.
  intros Hab. destruct (hex32_app_inj a b EmptyString EmptyString) as [? _]; [|done]. by rewrite Hab.
Qed.

Lemma hex_pairs_hex l : hex_pairs (as_bytes (hex l)) = Some l.
Proof.
  induction l as [|b l IH]; [done|]. cbn [hex]. rewrite as_bytes_app.
  transitivity (x ← hex_pairs (as_bytes (hex l)); Some (b :: x)); [|by rewrite IH].
  generalize (as_bytes (hex l)). intros t. destruct b; reflexivity.
Qed.

Lemma blob_path_inj s a b : blob_path s a = blob_path s b → cr_hash a = cr_hash b.
Proof. unfold blob_path. intros [_ [= Hh]]%app_inj_2; [|done]. by apply hex32_inj. Qed.

Lemma blob_path_hash s a b : cr_hash a = cr_hash b → blob_path s a = blob_path s b.
Proof. unfold blob_path, hash_hex. by intros ->. Qed.

Lemma hash_hex_length c : length (as_bytes (hash_hex c)) = 64%nat.
Proof. unfold hash_hex, hex32. by rewrite hex_length, arr32_length. Qed.

Lemma temp_blob_ne s a b : temp_path s a ≠ blob_path s b.
Proof.
  unfold temp_path, blob_path. intros [_ [= Hh]]%app_inj_2; [|done].
  apply (f_equal (length ∘ as_bytes)) in Hh. simpl in Hh.
  rewrite as_bytes_app, length_app, !hash_hex_length in Hh. discriminate Hh.
Qed.

(** Every file is a blob under the name of its hash, or a temporary file. *)
Definition blobs_ok s : Prop :=
  ∀ p d, db_files s !! p = Some d →
    p = blob_path s (content_ref_from_data d) ∨ ∃ c, p = temp_path s c.

(** What is stored under a hash. *)
Definition blob_at s h : option (list byte) := db_files s !! blob_path s (content_ref_new h 0).

Lemma blob_at_eq s c : db_files s !! blob_path s c = blob_at s (cr_hash c).
Proof. reflexivity. Qed.

Lemma blob_at_hash s h d : blobs_ok s → blob_at s h = Some d → blake3 d = h.
Proof.
  intros Hs Hd. destruct (Hs _ _ Hd) as [Hp|[c Hp]].
  - by apply blob_path_inj in Hp.
  - by symmetry in Hp; apply temp_blob_ne in Hp.
Qed.

(** Loading reads what is stored under the hash, whatever the size says. *)
Lemma blob_load_ok s c : blobs_ok s →
  blob_load None c s = match blob_at s (cr_hash c) with Some d => Ok d | None => Err (DbPacketNotFound (hash_hex c)) end.
Proof.
  intros Hs. unfold blob_load. rewrite blob_at_eq. destruct (blob_at s (cr_hash c)) as [d|] eqn:Hd; [|done].
  apply blob_at_hash in Hd as Hh; [|done]. unfold content_equals. simpl. by rewrite Hh, bool_decide_true.
Qed.

Lemma blobs_ok_new (c : BlobStoreConfig) : blobs_ok {| db_config := c; db_files := ∅ |}.
Proof. intros p d Hp. simpl in Hp. by rewrite lookup_empty in Hp. Qed.

Lemma blobs_ok_temp s c d : blobs_ok s → blobs_ok (set_files (<[temp_path s c := d]> (db_files s)) s).
Proof.
  intros Hs p e. simpl. intros [[<- <-]|[_ Hp]]%lookup_insert_Some; [right; by exists c|by apply Hs].
Qed.

Lemma blobs_ok_put s d : blobs_ok s →
  blobs_ok (set_files (<[blob_path s (content_ref_from_data d) := d]>
    (delete (temp_path s (content_ref_from_data d)) (db_files s))) s).
Proof.
  intros Hs p e. simpl. intros [[<- <-]|[_ Hp]]%lookup_insert_Some; [by left|].
  apply lookup_delete_Some in Hp as [_ Hp]. by apply Hs.
Qed.

Lemma blobs_ok_delete s p : blobs_ok s → blobs_ok (set_files (delete p (db_files s)) s).
Proof. intros Hs q e. simpl. intros [_ Hq]%lookup_delete_Some. by apply Hs. Qed.

(** The effect of [blob_store] on the blobs. *)
Lemma blob_store_at fault d s s' r : blob_store fault d s = (s', r) →
  (∀ h, blob_at s' h = if bool_decide (h = blake3 d ∧ is_ok r = true ∧ blob_at s h = None)
                       then Some d else blob_at s h) ∧
  (is_ok r = true → r = Ok (content_ref_from_data d) ∧ is_Some (blob_at s' (blake3 d))) ∧
  (blobs_ok s → blobs_ok s').
Proof.
  unfold blob_store. destruct (_ <? _).
  { intros [= <- <-]. split_and!; [intros; by rewrite bool_decide_false by naive_solver|done|done]. }
  unfold blob_exists. rewrite blob_at_eq. simpl. case_bool_decide as He.
  { intros [= <- <-]. split_and!; [|done|done]. intros h. rewrite bool_decide_false; [done|].
    intros (-> & _ & Hn). rewrite Hn in He. by destruct He. }
  assert (Htemp : ∀ b (e : DbError), (∀ h, blob_at (set_files (<[temp_path s (content_ref_from_data d) := b]> (db_files s)) s) h =
    if bool_decide (h = blake3 d ∧ is_ok (@Err ContentRef _ e) = true ∧ blob_at s h = None) then Some d else blob_at s h)).
  { intros b e h. rewrite bool_decide_false by naive_solver. unfold blob_at. simpl.
    rewrite lookup_insert_ne; [done|]. exact (temp_blob_ne s _ _). }
  destruct fault as [[]|]; intros [= <- <-]; try (split_and!; auto using blobs_ok_temp; done);
    try (split_and!; [intros; by rewrite bool_decide_false by naive_solver|done|done]).
  split_and!; [|intros _; split; [done|]|apply blobs_ok_put].
  - intros h. unfold blob_at at 1. simpl. destruct (decide (h = blake3 d)) as [->|Hne].
    + rewrite (blob_path_hash _ _ (content_ref_from_data d)) by done. rewrite lookup_insert_eq.
      rewrite bool_decide_true; [done|]. split_and!; [done..|]. by apply eq_None_not_Some.
    + rewrite bool_decide_false by naive_solver. rewrite lookup_insert_ne, lookup_delete_ne; [done| |].
      * exact (temp_blob_ne s _ _).
      * intros Hp. by apply (blob_path_inj s) in Hp.
  - unfold blob_at. simpl. rewrite (blob_path_hash _ _ (content_ref_from_data d)) by done. rewrite lookup_insert_eq. eauto.
Qed.

(** Storing never touches a blob that is there, leaves no broken blob whatever
    fails on the way, and when it succeeds the reference it returns loads what
    was stored (or a blob with the same hash). *)
Theorem blob_store_spec fault d s s' r :
  blobs_ok s → blob_store fault d s = (s', r) →
  blobs_ok s' ∧
  (∀ h x, blob_at s h = Some x → blob_at s' h = Some x) ∧
  (∀ h x, blob_at s' h = Some x → blob_at s h = Some x ∨ x = d ∧ h = blake3 d ∧ is_ok r = true) ∧
  (fault = None → r = if max_blob_size (db_config s) <? Z.of_nat (length d) then Err DbCapacityExceeded
                      else Ok (content_ref_from_data d)) ∧
  (∀ c, r = Ok c → ∃ x, blob_load None c s' = Ok x ∧ (x = d ∨ x ≠ d ∧ blake3 x = blake3 d)).
Proof.
  intros Hs Hst. destruct (blob_store_at _ _ _ _ _ Hst) as (Hat & Hok & Hs'). specialize (Hs' Hs).
  split_and!; [done| | | |].
  - intros h x Hx. rewrite Hat, bool_decide_false; [done|]. intros (_ & _ & Hn). congruence.
  - intros h x. rewrite Hat. case_bool_decide as Hc; [|by left]. intros [= <-]. right. naive_solver.
  - intros ->. unfold blob_store in Hst. destruct (_ <? _); [by injection Hst|].
    destruct (blob_exists _ _); by injection Hst.
  - intros c ->. destruct (Hok eq_refl) as [[= ->] [x Hx]]. exists x. rewrite blob_load_ok by done.
    simpl. rewrite Hx. split; [done|]. apply blob_at_hash in Hx; [|done].
    destruct (decide (x = d)); [by left|by right].
Qed.

(** ** Garbage collection *)

Lemma last_blob_path s c : last (blob_path s c) = Some (hash_hex c).
Proof. unfold blob_path. apply last_snoc. Qed.

Lemma blob_entry_path s d :
  blob_entry (blob_path s (content_ref_from_data d), d) = Some (content_ref_from_data d).
Proof.
  unfold blob_entry. simpl. rewrite last_blob_path. simpl. rewrite bool_decide_true by apply hash_hex_length.
  unfold hex_decode, hash_hex, hex32. rewrite hex_pairs_hex. simpl. by rewrite to_arr32_bytes.
Qed.

Lemma blob_entry_temp s c d : blob_entry (temp_path s c, d) = None.
Proof.
  unfold blob_entry, temp_path. simpl. rewrite last_snoc. simpl. rewrite bool_decide_false; [done|].
  rewrite as_bytes_app, length_app, hash_hex_length. done.
Qed.

(** The listing names each blob once, with its size. *)
Lemma elem_of_list_all s refs : blobs_ok s → list_all None s = Ok refs →
  (∀ c, c ∈ refs ↔ ∃ d, blob_at s (cr_hash c) = Some d ∧ c = content_ref_from_data d) ∧
  NoDup (cr_hash <$> refs).
Proof.
  intros Hs [= <-]. split.
  - intros c. rewrite list_elem_of_omap. split.
    + intros ([p d] & Hp%elem_of_map_to_list & He). destruct (Hs _ _ Hp) as [->|[c' ->]].
      * rewrite blob_entry_path in He. injection He as <-. exists d. rewrite <- blob_at_eq. done.
      * by rewrite blob_entry_temp in He.
    + intros (d & Hd & Hc). exists (blob_path s c, d). rewrite elem_of_map_to_list, blob_at_eq.
      split; [done|]. rewrite Hc. apply blob_entry_path.
  - assert (Hn : NoDup (map_to_list (db_files s)).*1) by apply NoDup_fst_map_to_list.
    assert (Hall : ∀ p d, (p, d) ∈ map_to_list (db_files s) →
      p = blob_path s (content_ref_from_data d) ∨ ∃ c, p = temp_path s c)
      by (intros p d Hp%elem_of_map_to_list; by apply Hs).
    revert Hn Hall. generalize (map_to_list (db_files s)). intros l.
    induction l as [|[p d] l IH]; [constructor|]. intros [Hp Hn]%NoDup_cons Hall.
    specialize (IH Hn (λ p d Hin, Hall p d (list_elem_of_further _ _ _ Hin))).
    csimpl. destruct (Hall p d (list_elem_of_here _ _)) as [->|[c ->]];
      [rewrite blob_entry_path|by rewrite blob_entry_temp].
    csimpl. constructor; [|done]. intros ([h n] & Hh & Hin)%list_elem_of_fmap.
    apply list_elem_of_omap in Hin as ([p' d'] & Hin & He). apply Hp. apply list_elem_of_fmap.
    exists (p', d'). split; [|done]. simpl.
    destruct (Hall p' d' (list_elem_of_further _ _ _ Hin)) as [->|[c' ->]];
      [rewrite blob_entry_path in He|by rewrite blob_entry_temp in He].
    apply blob_path_hash. injection He as <- <-. done.
Qed.

Lemma blob_delete_at fault c s s' r : blob_delete fault c s = (s', r) →
  (∀ h, blob_at s' h = if bool_decide (h = cr_hash c ∧ is_ok r = true) then None else blob_at s h) ∧
  (r = Ok true ↔ fault = None ∧ is_Some (blob_at s (cr_hash c))) ∧
  (fault = None ↔ is_ok r = true) ∧ (blobs_ok s → blobs_ok s').
Proof.
  unfold blob_delete. destruct fault as [e|].
  { intros [= <- <-]. split_and!; try done; [|naive_solver]. intros h. by rewrite bool_decide_false by naive_solver. }
  rewrite blob_at_eq. destruct (blob_at s (cr_hash c)) eqn:Hc; intros [= <- <-]; split_and!; try done.
  - intros h. unfold blob_at at 1. simpl. case_bool_decide as Hh.
    + destruct Hh as [-> _]. rewrite (blob_path_hash _ _ c) by done. apply lookup_delete_eq.
    + rewrite lookup_delete_ne; [done|]. intros Hp. apply (blob_path_inj s) in Hp. simpl in Hp. naive_solver.
  - apply blobs_ok_delete.
  - intros h. case_bool_decide as Hh; [|done]. by destruct Hh as [-> _].
  - split; [done|]. by intros [_ [? ?]].
Qed.

Definition unreferenced (refd : ContentRef → bool) (refs : list ContentRef) h : Prop :=
  ∃ c, c ∈ refs ∧ cr_hash c = h ∧ refd c = false.

Lemma unreferenced_cons refd c refs h :
  unreferenced refd (c :: refs) h ↔ (cr_hash c = h ∧ refd c = false) ∨ unreferenced refd refs h.
Proof. unfold unreferenced. setoid_rewrite elem_of_cons. naive_solver. Qed.

Lemma gc_loop_ok fault refd refs s r s' res :
  blobs_ok s → NoDup (cr_hash <$> refs) → (∀ c, c ∈ refs → is_Some (blob_at s (cr_hash c))) →
  gc_loop fault refd refs s r = (s', res) →
  blobs_ok s' ∧
  (∀ h, blob_at s' h = blob_at s h ∨ blob_at s' h = None ∧ unreferenced refd refs h) ∧
  ((∀ c, fault c = None) → is_ok res = true) ∧
  ∀ g, res = Ok g →
    (∀ h, unreferenced refd refs h → blob_at s' h = None) ∧
    deleted_count g = (deleted_count r + length (retain (λ c, negb (refd c)) refs))%nat ∧
    retained_count g = (retained_count r + length (retain refd refs))%nat.
Proof.
  revert s r. induction refs as [|c refs IH]; intros s r Hs Hn Hall; cbn [gc_loop retain].
  { intros [= <- <-]. split_and!; [done|by left|done|]. intros g [= <-]. simpl. split_and!; try lia.
    by intros h (c & ?%not_elem_of_nil & _). }
  rewrite fmap_cons in Hn. apply NoDup_cons in Hn as [Hc Hn]. setoid_rewrite unreferenced_cons.
  destruct (refd c) eqn:Hr; cbn [negb].
  - intros Hg. apply IH in Hg as (Hs' & Hat & Hf & Hg); [|done|done|by intros; apply Hall; right].
    split_and!; [done| |done|].
    + intros h. destruct (Hat h) as [?|[? ?]]; [by left|by right; auto].
    + intros g Heq. destruct (Hg g Heq) as (Hu & Hd & Hk). simpl in *. split_and!; [|done|lia].
      intros h [[_ ?]|?]; [congruence|by apply Hu].
  - destruct (blob_delete (fault c) c s) as [s1 r1] eqn:Hd. apply blob_delete_at in Hd as (Hat1 & Htrue & Hfault & Hs1).
    specialize (Hs1 Hs). destruct r1 as [b|e].
    2:{ intros [= <- <-]. split_and!; [done| | |done].
        - intros h. left. rewrite Hat1, bool_decide_false; [done|]. by intros [_ ?].
        - intros Hf. by apply Hfault. }
    assert (b = true) as ->.
    { assert (Ok (E := DbError) b = Ok true) as [=]; [|done]. apply Htrue. split; [by apply Hfault|]. apply Hall. by left. }
    assert (Hat : ∀ h, h ≠ cr_hash c → blob_at s1 h = blob_at s h).
    { intros h Hh. rewrite Hat1, bool_decide_false; [done|]. by intros [? _]. }
    assert (Hgone : blob_at s1 (cr_hash c) = None) by (rewrite Hat1, bool_decide_true; done).
    intros Hg. apply IH in Hg as (Hs' & Hat' & Hf & Hg); [|done|done|].
    2:{ intros c' Hc'. rewrite Hat; [by apply Hall; right|]. intros Heq. apply Hc, list_elem_of_fmap. by exists c'. }
    assert (Hgone' : blob_at s' (cr_hash c) = None) by (destruct (Hat' (cr_hash c)) as [->|[? _]]; done).
    split_and!; [done| |done|].
    + intros h. destruct (decide (h = cr_hash c)) as [->|Hne]; [by right; auto|].
      rewrite <- (Hat h Hne). destruct (Hat' h) as [?|[? ?]]; [by left|by right; auto].
    + intros g Heq. destruct (Hg g Heq) as (Hu & Hd & Hk). simpl in *. split_and!; [|lia|done].
      intros h [[<- _]|Hh]; [done|]. by apply Hu.
Qed.

(** Collecting garbage keeps every blob that is referenced and, when no file
    operation fails, removes every blob that is not, and counts both. *)
Theorem blob_gc_spec lf fault refd s s' res :
  blobs_ok s → blob_gc lf fault refd s = (s', res) →
  let kept h d := refd (content_ref_from_data d) = true ∧ blob_at s h = Some d in
  blobs_ok s' ∧
  (∀ h d, kept h d → blob_at s' h = Some d) ∧
  (∀ h d, blob_at s' h = Some d → blob_at s h = Some d) ∧
  (lf = None → (∀ c, fault c = None) → ∃ g refs, res = Ok g ∧ list_all None s = Ok refs ∧
    (deleted_count g + retained_count g = length refs)%nat ∧
    ∀ h d, blob_at s' h = Some d ↔ kept h d).
Proof.
  intros Hs. unfold blob_gc. destruct lf as [e|].
  { intros [= <- <-]. split_and!; naive_solver. }
  destruct (list_all None s) as [refs|] eqn:Hl; [|done].
  destruct (elem_of_list_all _ _ Hs Hl) as [Hin Hn]. intros Hg.
  apply gc_loop_ok in Hg as (Hs' & Hat & Hf & Hg); [|done|done|].
  2:{ intros c (d & -> & _)%Hin. eauto. }
  assert (Hkeep : ∀ h d, refd (content_ref_from_data d) = true → blob_at s h = Some d → blob_at s' h = Some d).
  { intros h d Hk Hd. destruct (Hat h) as [->|[_ (c & Hc & <- & Hrc)]]; [done|].
    apply Hin in Hc as (d' & Hd' & ->). congruence. }
  assert (Hold : ∀ h d, blob_at s' h = Some d → blob_at s h = Some d).
  { intros h d. destruct (Hat h) as [->|[-> _]]; done. }
  simpl. split_and!; [done|naive_solver|done|]. intros _ Hno. specialize (Hf Hno). destruct res as [g|]; [|done].
  destruct (Hg g eq_refl) as (Hun & Hd & Hk). exists g, refs. split_and!; [done|done| |].
  - rewrite Hd, Hk. simpl. clear. induction refs as [|c refs IH]; [done|]. simpl. destruct (refd c); simpl; lia.
  - intros h d. split; [|naive_solver]. intros Hh. pose proof (Hold _ _ Hh) as Ho. split; [|done].
    destruct (refd (content_ref_from_data d)) eqn:Hr; [done|]. rewrite Hun in Hh; [done|].
    exists (content_ref_from_data d). assert (blake3 d = h) by by eapply blob_at_hash. split_and!; [|done|done].
    apply Hin. simpl. exists d. split; [congruence|done].
Qed.
End BlobFacts.
