(* ===== verification/AgentBraid.v ===== *)
(** * The inner braid of agents

    Models [indras-sync-engine/src/team.rs] and [braid/agent_braid.rs]: the
    agents of a vault commit into a DAG that never leaves the device, and the
    user merges their heads into the user's own.  The clock is an argument; the
    readings within one operation coincide.  A search of the DAG always returns
    ([ancestors_spec], [rollup_ok]). *)

From S2P Require Import Prelude Crypto Index Changeset Braid BraidFacts Prophet Documents Convergence.

Local Open Scope string_scope.
Local Open Scope Z_scope.
Local Open Scope list_scope.

(** ** Teams *)

(** [LogicalAgentId], a name. *)
Definition LogicalAgentId : Type := string.

Record Team : Type := {
  roster : list LogicalAgentId;
  team_head : option ChangeId;
  team_head_index : option SymlinkIndex;
}.

Definition team_empty : Team := {| roster := []; team_head := None; team_head_index := None |}.

Definition team_contains (a : LogicalAgentId) (t : Team) : bool := bool_decide (a ∈ roster t).

Definition agent_leb (a b : LogicalAgentId) : bool := bytes_leb (as_bytes a) (as_bytes b).

Definition add_agent (l : list LogicalAgentId) (a : LogicalAgentId) : list LogicalAgentId :=
  if bool_decide (a ∈ l) then l else l ++ [a].

Definition team_merge (self remote : Team) : Team :=
  let r := sort_by agent_leb (foldl add_agent (roster self) (roster remote)) in
  let keep := {| roster := r; team_head := team_head self; team_head_index := team_head_index self |} in
  let take := {| roster := r; team_head := team_head remote; team_head_index := team_head_index remote |} in
  match team_head self, team_head remote with
  | None, Some _ => take
  | Some local, Some remote_head => if negb (arr32_leb remote_head local) then take else keep
  | _, _ => keep
  end.

(** ** The braid *)

(** [insert] followed by [update_peer_head] for the author. *)
Definition dag_commit (c : Changeset) (user : UserId) (i : SymlinkIndex) (now : Z) (d : BraidDag) : BraidDag :=
  update_peer_head user (cs_id c) i now (dag_insert c d).

Record MergeResult : Type := {
  mr_change_id : ChangeId;
  mr_merged_index : SymlinkIndex;
  mr_conflicts : list Conflict;
}.

Record AgentBraid : Type := { ab_dag : BraidDag; ab_user : UserId }.

Definition agent_braid_new (user : UserId) : AgentBraid := {| ab_dag := dag_new; ab_user := user |}.

Definition set_ab_dag (d : BraidDag) (b : AgentBraid) : AgentBraid := {| ab_dag := d; ab_user := ab_user b |}.

(** The keys of [HashSet::intersection], with the ancestors of either head. *)
Definition ancestor_set (id : ChangeId) (d : BraidDag) : gset ChangeId := default ∅ (ancestors id d).

(** The most recent common ancestor; which of several with one timestamp is
    unspecified in the source, as the set has no order. *)
Definition best_common (d : BraidDag) (common : list ChangeId) : option Changeset :=
  max_by (λ a b, timestamp_millis a ?= timestamp_millis b) (omap (λ id, dag_get id d) common).

Definition find_merge_base (agent_state : PeerState) (user_state : option PeerState) (b : AgentBraid) : SymlinkIndex :=
  match user_state with
  | None => index_new
  | Some us =>
      let agent_ancestors := ancestor_set (head agent_state) (ab_dag b) in
      let user_ancestors := ancestor_set (head us) (ab_dag b) in
      if bool_decide (head us ∈ agent_ancestors) then head_index us
      else if bool_decide (head agent_state ∈ user_ancestors) then head_index agent_state
      else
        match elements (agent_ancestors ∩ user_ancestors) with
        | [] => index_new
        | common => match best_common (ab_dag b) common with Some c => cs_index c | None => index_new end
        end
  end.

Definition user_head (b : AgentBraid) : option PeerState := peer_head (ab_user b) (ab_dag b).

Definition ab_referenced_addrs (b : AgentBraid) : gset ContentAddr :=
  foldl (λ s c, index_addrs (cs_index c) s)
    (foldl (λ s ps, index_addrs (head_index ps) s) ∅ (map_to_list (peer_heads (ab_dag b))).*2)
    (changeset_values (ab_dag b)).

Definition rollup_to_user_head (b : AgentBraid) : AgentBraid * gset ContentAddr :=
  match user_head b with
  | None => (b, ∅)
  | Some ps =>
      let d := {| changesets := changesets (ab_dag b);
                  peer_heads := filter (λ e, e.1 = ab_user b) (peer_heads (ab_dag b)) |} in
      let (d, freed) := default (d, ∅) (rollup (head ps) d) in
      (set_ab_dag d b, freed)
  end.

Section AgentBraid.
Context `{Blake3, ChangesetPostcard, Dilithium}.
Implicit Types (b : AgentBraid) (agent : LogicalAgentId) (now : Z).

Definition derive_agent_id (user_id : UserId) (agent_name : string) : UserId :=
  blake3 (arr32_bytes user_id ++ as_bytes "agent" ++ as_bytes agent_name).

Definition agent_user_id b agent : UserId := derive_agent_id (ab_user b) agent.

Definition agent_head b agent : option PeerState := peer_head (agent_user_id b agent) (ab_dag b).

Definition agent_changeset now agent (intent : string) (i : SymlinkIndex) (ev : Evidence) b : Changeset :=
  let parents := match agent_head b agent with Some ps => [head ps] | None => [] end in
  changeset_new_unsigned (agent_user_id b agent) parents intent i (head_index <$> agent_head b agent) ev now.

Definition agent_land now agent (intent : string) (i : SymlinkIndex) (ev : Evidence) b : AgentBraid * ChangeId :=
  let c := agent_changeset now agent intent i ev b in
  (set_ab_dag (dag_commit c (agent_user_id b agent) i now (ab_dag b)) b, cs_id c).

(** Whether a head differs from the user's. *)
Definition diverged (mine : option PeerState) (theirs : PeerState) : bool :=
  match mine with Some m => negb (bool_decide (head theirs = head m)) | None => true end.

Definition agent_forks (team : list LogicalAgentId) b : list (LogicalAgentId * PeerState) :=
  omap (λ agent, ps ← agent_head b agent; if diverged (user_head b) ps then Some (agent, ps) else None) team.

Definition diff_agent agent b : IndexDelta :=
  match agent_head b agent with
  | None => {| ops := ∅ |}
  | Some agent_state =>
      match user_head b with
      | Some uh => index_diff (head_index agent_state) (head_index uh)
      | None => delta_from_root (head_index agent_state)
      end
  end.

Definition user_index b : SymlinkIndex := from_option head_index index_new (user_head b).

Definition merge_changeset now agent (agent_state : PeerState) (merged : SymlinkIndex) b : Changeset :=
  changeset_new_unsigned (ab_user b)
    (head agent_state :: match user_head b with Some us => [head us] | None => [] end)
    ("merge from agent " +:+ agent) merged (Some (user_index b))
    (evidence_human (ab_user b) (Some ("merge agent " +:+ agent)) now) now.

Definition merge_agent now agent b : AgentBraid * option MergeResult :=
  match agent_head b agent with
  | None => (b, None)
  | Some agent_state =>
      let base_index := find_merge_base agent_state (user_head b) b in
      let (merged, conflicts) := three_way_merge base_index (user_index b) (head_index agent_state) in
      let c := merge_changeset now agent agent_state merged b in
      (set_ab_dag (dag_commit c (ab_user b) merged now (ab_dag b)) b,
       Some {| mr_change_id := cs_id c; mr_merged_index := merged; mr_conflicts := conflicts |})
  end.

(** Each merge reads the clock anew. *)
Definition merge_agents (clock : nat → Z) (agents : list LogicalAgentId) b : AgentBraid * list (option MergeResult) :=
  foldl (λ acc e, let (b, r) := merge_agent (clock e.1) e.2 acc.1 in (b, acc.2 ++ [r]))
    (b, []) (imap pair agents).

Definition merge_all_agents (clock : nat → Z) (team : list LogicalAgentId) b : AgentBraid * option MergeResult :=
  let (b, rs) := merge_agents clock (agent_forks team b).*1 b in (b, mjoin (last rs)).
End AgentBraid.

(** ** Commits *)

Lemma dag_commit_lookup c u i now d id :
  changesets (dag_commit c u i now d) !! id =
    match changesets d !! id with Some c' => Some c' | None => if bool_decide (cs_id c = id) then Some c else None end.
Proof.
  unfold dag_commit, dag_insert, or_insert. simpl. destruct (changesets d !! cs_id c) as [x|] eqn:Hc.
  - destruct (changesets d !! id) eqn:Hi; [done|]. rewrite bool_decide_false; [done|]. intros <-. congruence.
  - destruct (decide (cs_id c = id)) as [<-|Hne].
    + by rewrite lookup_insert_eq, Hc, bool_decide_true.
    + rewrite lookup_insert_ne, bool_decide_false by done. by destruct (changesets d !! id).
Qed.

Lemma dag_commit_head c u i now d v :
  peer_head v (dag_commit c u i now d) =
    if bool_decide (v = u) then Some {| head := cs_id c; head_index := i; updated_ms := now |} else peer_head v d.
Proof.
  unfold peer_head, dag_commit. simpl. case_bool_decide as Hv; [subst; by rewrite lookup_insert_eq|].
  by rewrite lookup_insert_ne.
Qed.

Lemma dag_commit_stored c u i now d : is_Some (changesets (dag_commit c u i now d) !! cs_id c).
Proof. rewrite dag_commit_lookup. destruct (_ !! _); [eauto|]. rewrite bool_decide_true; eauto. Qed.

Lemma dag_commit_keeps c u i now d id x :
  changesets d !! id = Some x → changesets (dag_commit c u i now d) !! id = Some x.
Proof. intros Hx. by rewrite dag_commit_lookup, Hx. Qed.

(** A commit's parents become ancestors of the new head. *)
Lemma dag_commit_edge c u i now d p :
  changesets d !! cs_id c = None → p ∈ parents c → edge (dag_commit c u i now d) (cs_id c) p.
Proof.
  intros Hf Hp. unfold edge, parents_of. rewrite dag_commit_lookup, Hf, bool_decide_true; done.
Qed.

Lemma ancestor_set_spec id d x : x ∈ ancestor_set id d ↔ tc (edge d) id x.
Proof. unfold ancestor_set. destruct (ancestors_spec d id) as (s & -> & Hs). apply Hs. Qed.

Section AgentFacts.
Context `{Blake3, ChangesetPostcard, Dilithium}.
Implicit Types (b : AgentBraid) (d : BraidDag) (agent : LogicalAgentId) (now : Z).

(** A changeset's identifier is the hash of its fields. *)
Definition changeset_ok (c : Changeset) : Prop :=
  cs_id c = compute_id (cs_author c) (parents c) (cs_index c) (intent c) (timestamp_millis c).

Lemma compute_id_sorted a ps i m t : compute_id a (sort_by arr32_leb ps) i m t = compute_id a ps i m t.
Proof. unfold compute_id. do 2 f_equal. apply sort_ids_perm, sort_by_perm. Qed.

Lemma changeset_ok_unsigned a ps m i pi ev t : changeset_ok (changeset_new_unsigned a ps m i pi ev t).
Proof. done. Qed.

Lemma changeset_ok_signed a ps m i pi ev t identity : changeset_ok (changeset_with_index a ps m i pi ev t identity).
Proof. done. Qed.

(** A DAG is in order when changesets are stored under the hash of their fields,
    every head is stored, and a head's identifier commits to the index kept
    beside it. *)
Record braid_ok (d : BraidDag) : Prop := {
  bo_stored id c : changesets d !! id = Some c → cs_id c = id ∧ changeset_ok c;
  bo_head u ps : peer_heads d !! u = Some ps →
    is_Some (changesets d !! head ps) ∧ ∃ a qs m t, head ps = compute_id a qs (head_index ps) m t;
}.

Lemma braid_ok_wf d : braid_ok d → dag_wf d.
Proof. intros Hd id c Hc. by apply (bo_stored _ Hd) in Hc as [? _]. Qed.

Lemma braid_ok_new : braid_ok dag_new.
Proof. split; intros ?? Hx; simpl in Hx; by rewrite lookup_empty in Hx. Qed.

Lemma dag_commit_ok c u now d : braid_ok d → changeset_ok c → braid_ok (dag_commit c u (cs_index c) now d).
Proof.
  intros Hd Hc. split.
  - intros id x. rewrite dag_commit_lookup. destruct (changesets d !! id) eqn:Hi; [intros [= <-]; by apply (bo_stored _ Hd)|].
    case_bool_decide; [|done]. by intros [= <-].
  - intros v ps Hv. change (peer_head v (dag_commit c u (cs_index c) now d) = Some ps) in Hv.
    rewrite dag_commit_head in Hv. case_bool_decide.
    + injection Hv as <-. split; [apply dag_commit_stored|]. simpl. rewrite Hc. eauto.
    + destruct (bo_head _ Hd _ _ Hv) as [[x Hx] Hids]. split; [|done]. exists x. by apply dag_commit_keeps.
Qed.

(** The index of a head is the one of its changeset, unless two encodings that
    differ have one hash. *)
Lemma head_index_ok d u ps c :
  braid_ok d →
  (∀ x qs f n t x' qs' f' n' t', postcard_changeset x qs f n t = postcard_changeset x' qs' f' n' t' →
     x = x' ∧ qs = qs' ∧ f = f' ∧ n = n' ∧ t = t') →
  peer_heads d !! u = Some ps → changesets d !! head ps = Some c →
  cs_index c = head_index ps ∨
  ∃ a qs m t, let e := encoded (cs_author c) (parents c) (cs_index c) (intent c) (timestamp_millis c) in
    e ≠ encoded a qs (head_index ps) m t ∧ blake3 e = blake3 (encoded a qs (head_index ps) m t).
Proof.
  intros Hd Hinj Hu Hc. destruct (bo_head _ Hd _ _ Hu) as [_ (a & qs & m & t & Hh)].
  destruct (bo_stored _ Hd _ _ Hc) as [Hid Hok]. unfold changeset_ok in Hok. rewrite Hid, Hh in Hok. symmetry in Hok.
  destruct (proj1 (proj2 (change_id_spec _ _ _ _ _ _ _ _ _ _ Hinj)) Hok) as [(_ & _ & -> & _)|Hcl]; [by left|].
  right. by exists a, qs, m, t.
Qed.

(** Agents of one user have identities of their own, up to collisions. *)
Lemma derive_agent_id_inj u n n' : derive_agent_id u n = derive_agent_id u n' →
  n = n' ∨ let e x := arr32_bytes u ++ as_bytes "agent" ++ as_bytes x in e n ≠ e n' ∧ blake3 (e n) = blake3 (e n').
Proof.
  intros Hd. destruct (decide (n = n')) as [|Hne]; [by left|]. right. split; [|exact Hd].
  intros He. by apply app_inv_head, app_inv_head, as_bytes_inj in He.
Qed.

(** ** Landing *)

(** Landing commits the snapshot under the agent's identity on top of the
    agent's last one, and touches nobody else's head. *)
Theorem agent_land_spec now agent m i ev b :
  braid_ok (ab_dag b) →
  let c := agent_changeset now agent m i ev b in
  let (b', id) := agent_land now agent m i ev b in
  braid_ok (ab_dag b') ∧ ab_user b' = ab_user b ∧ id = cs_id c ∧
  agent_head b' agent = Some {| head := id; head_index := i; updated_ms := now |} ∧
  (∀ u, u ≠ agent_user_id b agent → peer_head u (ab_dag b') = peer_head u (ab_dag b)) ∧
  (∀ x y, dag_get x (ab_dag b) = Some y → dag_get x (ab_dag b') = Some y) ∧
  (parents c = match agent_head b agent with Some ps => [head ps] | None => [] end) ∧
  index_apply (from_option head_index index_new (agent_head b agent)) (delta c) = i.
Proof.
  intros Hb c. simpl. split_and!.
  - by apply (dag_commit_ok c).
  - done.
  - done.
  - unfold agent_head. simpl. rewrite dag_commit_head, bool_decide_true by done. done.
  - intros u Hu. rewrite dag_commit_head, bool_decide_false by done. done.
  - intros x y. apply dag_commit_keeps.
  - unfold c, agent_changeset. simpl. by destruct (agent_head b agent).
  - unfold c, agent_changeset. cbn [delta changeset_new_unsigned].
    rewrite <- (compute_delta_apply i (head_index <$> agent_head b agent)) at 2. by destruct (agent_head b agent).
Qed.

(** ** Merging *)

Lemma max_by_ts (l : list Changeset) :
  match max_by (λ x y, timestamp_millis x ?= timestamp_millis y) l with
  | None => l = []
  | Some c => c ∈ l ∧ ∀ x, x ∈ l → timestamp_millis x <= timestamp_millis c
  end.
Proof.
  destruct l as [|x l]; [done|]. cbn [max_by]. revert x. induction l as [|y l IH]; intros x; simpl.
  { split; [by left|]. intros z ->%list_elem_of_singleton. lia. }
  destruct (IH (match timestamp_millis x ?= timestamp_millis y with Gt => x | _ => y end)) as [Hin Hmax].
  set (w := match timestamp_millis x ?= timestamp_millis y with Gt => x | _ => y end) in *.
  assert (Hw : (w = x ∨ w = y) ∧ timestamp_millis x <= timestamp_millis w ∧ timestamp_millis y <= timestamp_millis w).
  { unfold w. destruct (Z.compare_spec (timestamp_millis x) (timestamp_millis y)); split; auto; lia. }
  clearbody w. destruct Hw as (Hw & Hx & Hy). pose proof (Hmax w (list_elem_of_here _ _)). split; [set_solver|].
  intros z [->|[->|Hz]%elem_of_cons]%elem_of_cons; [lia|lia|]. apply Hmax. by right.
Qed.

(** What the merge base is: the user's index when the agent's work builds on it,
    the agent's when it is already merged, else the index of a latest common
    ancestor, or nothing. *)
Lemma find_merge_base_spec a us b :
  let d := ab_dag b in
  let common x := tc (edge d) (head a) x ∧ tc (edge d) (head us) x in
  let base := find_merge_base a (Some us) b in
  (tc (edge d) (head a) (head us) ∧ base = head_index us) ∨
  (¬ tc (edge d) (head a) (head us) ∧ tc (edge d) (head us) (head a) ∧ base = head_index a) ∨
  (¬ tc (edge d) (head a) (head us) ∧ ¬ tc (edge d) (head us) (head a) ∧
   ((∃ id c, common id ∧ dag_get id d = Some c ∧ base = cs_index c ∧
       ∀ id' c', common id' → dag_get id' d = Some c' → timestamp_millis c' <= timestamp_millis c) ∨
    (∀ id c, common id → dag_get id d ≠ Some c) ∧ base = index_new)).
Proof.
  cbv zeta. unfold find_merge_base. case_bool_decide as Hau; rewrite ancestor_set_spec in Hau; [by left|]. right.
  case_bool_decide as Hua; rewrite ancestor_set_spec in Hua; [by left|]. right. split_and!; [done..|].
  assert (Hc : ∀ x, x ∈ elements (ancestor_set (head a) (ab_dag b) ∩ ancestor_set (head us) (ab_dag b)) ↔
    tc (edge (ab_dag b)) (head a) x ∧ tc (edge (ab_dag b)) (head us) x).
  { intros x. by rewrite elem_of_elements, elem_of_intersection, !ancestor_set_spec. }
  destruct (elements _) as [|y l] eqn:He.
  { right. split; [|done]. intros id c [Ha Hu] _. by destruct (not_elem_of_nil id); apply Hc. }
  rewrite <- He in Hc |- *. clear y l He. unfold best_common. pose proof (max_by_ts (omap (λ id, dag_get id (ab_dag b))
    (elements (ancestor_set (head a) (ab_dag b) ∩ ancestor_set (head us) (ab_dag b))))) as Hm.
  destruct (max_by _ _) as [c|].
  - left. destruct Hm as [(id & Hid & Hg)%list_elem_of_omap Hmax]. exists id, c. apply Hc in Hid. split_and!; [naive_solver..|].
    intros id' c' Hin Hg'. apply Hmax, list_elem_of_omap. exists id'. split; [by apply Hc|done].
  - right. split; [|done]. intros id c Hin Hg. apply Hc in Hin. destruct (not_elem_of_nil c). rewrite <- Hm.
    apply list_elem_of_omap. eauto.
Qed.

(** Merging an agent: without a head nothing happens; otherwise the user's head
    moves to a changeset whose index is the three-way merge, path by path, and
    from which both former heads can be reached, while nobody else's head and no
    stored changeset changes. *)
Theorem merge_agent_spec now agent b b' r :
  braid_ok (ab_dag b) → merge_agent now agent b = (b', r) →
  match agent_head b agent with
  | None => b' = b ∧ r = None
  | Some a =>
      ∃ m, r = Some m ∧ braid_ok (ab_dag b') ∧ ab_user b' = ab_user b ∧
        user_head b' = Some {| head := mr_change_id m; head_index := mr_merged_index m; updated_ms := now |} ∧
        (∀ u, u ≠ ab_user b → peer_head u (ab_dag b') = peer_head u (ab_dag b)) ∧
        (∀ x y, dag_get x (ab_dag b) = Some y → dag_get x (ab_dag b') = Some y) ∧
        let base := find_merge_base a (user_head b) b in
        (∀ p, entries (mr_merged_index m) !! p =
              merged_at (entries base !! p) (entries (user_index b) !! p) (entries (head_index a) !! p)) ∧
        (∀ p, has_conflict p (mr_conflicts m) ↔
              is_Some (conflict_at p (entries base !! p) (entries (user_index b) !! p) (entries (head_index a) !! p))) ∧
        (dag_get (mr_change_id m) (ab_dag b) = None →
           edge (ab_dag b') (mr_change_id m) (head a) ∧
           ∀ us, user_head b = Some us → edge (ab_dag b') (mr_change_id m) (head us))
  end.
Proof.
  intros Hb. unfold merge_agent. destruct (agent_head b agent) as [a|]; [|by intros [= <- <-]].
  destruct (three_way_merge _ _ _) as [merged conflicts] eqn:Hm. intros [= <- <-]. eexists. split; [done|]. simpl.
  assert (Ht : ∀ p, entries merged !! p = merged_at (entries (find_merge_base a (user_head b) b) !! p)
    (entries (user_index b) !! p) (entries (head_index a) !! p)).
  { intros p. by rewrite <- (proj1 (three_way_merge_lookup _ _ _ _)), (f_equal fst Hm). }
  split_and!; try done.
  - by apply (dag_commit_ok (merge_changeset now agent a merged b)).
  - unfold user_head. simpl. by rewrite dag_commit_head, bool_decide_true.
  - intros u Hu. by rewrite dag_commit_head, bool_decide_false.
  - intros x y. apply dag_commit_keeps.
  - intros p. rewrite <- has_conflict_merge. by rewrite (f_equal snd Hm : (three_way_merge _ (user_index b) _).2 = _).
  - intros Hf. split.
    + apply dag_commit_edge; [done|]. cbn [parents merge_changeset changeset_new_unsigned]. rewrite sort_by_perm. by left.
    + intros us Hus. apply dag_commit_edge; [done|]. cbn [parents merge_changeset changeset_new_unsigned].
      rewrite sort_by_perm, Hus. right. by left.
Qed.

(** An agent that builds on the user's head is merged as it is, except that what
    it deleted comes back as a conflict. *)
Theorem merge_agent_forward now agent b a us b' m :
  braid_ok (ab_dag b) → agent_head b agent = Some a → user_head b = Some us →
  tc (edge (ab_dag b)) (head a) (head us) → merge_agent now agent b = (b', Some m) →
  ∀ p, entries (mr_merged_index m) !! p =
         match entries (head_index a) !! p with Some x => Some x | None => entries (head_index us) !! p end ∧
       (has_conflict p (mr_conflicts m) ↔
         entries (head_index a) !! p = None ∧ is_Some (entries (head_index us) !! p)).
Proof.
  intros Hb Ha Hu Hanc Hm p. apply merge_agent_spec in Hm; [|done]. rewrite Ha in Hm.
  destruct Hm as (m' & [= <-] & _ & _ & _ & _ & _ & Hp & Hc & _). rewrite Hp, Hc.
  assert (find_merge_base a (user_head b) b = head_index us) as ->.
  { rewrite Hu. destruct (find_merge_base_spec a us b) as [[_ ->]|[(Hn & _)|(Hn & _)]]; done. }
  unfold user_index. rewrite Hu. simpl.
  destruct (entries (head_index us) !! p), (entries (head_index a) !! p); simpl; repeat case_bool_decide;
    simplify_eq; simpl; split; try done; split; naive_solver.
Qed.

(** A merged agent still counts as a fork: the user's head is the merge
    changeset, never the agent's. *)
Theorem merged_agent_forks now agent b b' m team :
  braid_ok (ab_dag b) → merge_agent now agent b = (b', Some m) → agent ∈ team →
  agent_user_id b agent ≠ ab_user b → agent_head b agent ≠ None →
  dag_get (mr_change_id m) (ab_dag b) = None →
  agent ∈ (agent_forks team b').*1.
Proof.
  intros Hb Hm Hin Hne Hsome Hfresh. apply merge_agent_spec in Hm; [|done].
  destruct (agent_head b agent) as [a|] eqn:Ha; [|done]. clear Hsome.
  destruct Hm as (m' & [= <-] & _ & Husr & Hu & Hother & _).
  assert (Ha' : agent_head b' agent = Some a).
  { unfold agent_head, agent_user_id in *. rewrite Husr, Hother; done. }
  apply list_elem_of_fmap. exists (agent, a). split; [done|]. apply list_elem_of_omap. exists agent. split; [done|].
  rewrite Ha'. simpl. rewrite Hu. simpl. rewrite bool_decide_false; [done|]. simpl. intros Heq.
  destruct (bo_head _ Hb _ _ Ha) as [[c Hc] _]. rewrite Heq in Hc. unfold dag_get in Hfresh. congruence.
Qed.

(** ** After a promotion *)

(** Rolling up keeps the user's head and what was committed on top of it, and
    forgets the agents. *)
Lemma rollup_to_user_head_ok b us :
  braid_ok (ab_dag b) → user_head b = Some us →
  let (b', freed) := rollup_to_user_head b in
  braid_ok (ab_dag b') ∧ ab_user b' = ab_user b ∧
  (∀ u, peer_head u (ab_dag b') = if bool_decide (u = ab_user b) then Some us else None) ∧
  (∀ id c, dag_get id (ab_dag b') = Some c ↔
     dag_get id (ab_dag b) = Some c ∧ rtc (child (ab_dag b)) (head us) id) ∧
  (∀ a, a ∈ freed → a ∉ all_referenced_addrs (ab_dag b')).
Proof.
  intros Hb Hu. unfold rollup_to_user_head. rewrite Hu.
  set (d := {| changesets := changesets (ab_dag b); peer_heads := filter (λ e, e.1 = ab_user b) (peer_heads (ab_dag b)) |}).
  assert (Hwf : dag_wf d) by exact (braid_ok_wf _ Hb).
  destruct (rollup_ok d (head us) Hwf) as (d' & freed & Hr & Hheads & Hcs & Hfreed). rewrite Hr. simpl.
  assert (Hp : ∀ u, peer_heads d' !! u = if bool_decide (u = ab_user b) then Some us else None).
  { intros u. rewrite Hheads. unfold d. simpl. case_bool_decide as Hc.
    - subst. by apply map_lookup_filter_Some_2.
    - apply map_lookup_filter_None_2. right. by intros ? _ ?. }
  split_and!; [split| |done..|].
  - intros id c [Hc _]%Hcs. by apply (bo_stored _ Hb).
  - intros u ps Hps. rewrite Hp in Hps. case_bool_decide; [injection Hps as <-|done].
    destruct (bo_head _ Hb _ _ Hu) as [[c Hc] Hid]. split; [|done]. exists c. by apply Hcs.
  - done.
  - intros a Ha. destruct (proj1 (Hfreed a) Ha) as (_ & Hlive & Hkept). rewrite elem_of_all_referenced, elem_of_live_addrs, Hheads.
    intros [(u & ps & Hps & Hin)|(id & c & Hc & Hin)]; [by apply (Hlive u ps)|].
    apply Hcs in Hc as [Hc Hr']. by apply (Hkept id c).
Qed.

(** The first snapshot an agent lands after a promotion has no base in common
    with the user: every file it changed is reported as a conflict, however it
    was made. *)
Theorem promoted_agent_conflicts now now' agent m i ev b us b1 freed b2 id b3 r :
  braid_ok (ab_dag b) → user_head b = Some us → agent_user_id b agent ≠ ab_user b →
  rollup_to_user_head b = (b1, freed) → agent_land now agent m i ev b1 = (b2, id) →
  dag_get id (ab_dag b1) = None → ¬ tc (edge (ab_dag b2)) (head us) id →
  merge_agent now' agent b2 = (b3, Some r) →
  ∀ p, has_conflict p (mr_conflicts r) ↔
       ∃ x y, entries (head_index us) !! p = Some x ∧ entries i !! p = Some y ∧ x ≠ y.
Proof.
  intros Hb Hu Hne Hr Hl Hfresh Hnu Hm p. pose proof (rollup_to_user_head_ok b us Hb Hu) as Hroll. rewrite Hr in Hroll.
  destruct Hroll as (Hb1 & Husr1 & Hheads & _). pose proof (agent_land_spec now agent m i ev b1 Hb1) as Hland. rewrite Hl in Hland.
  destruct Hland as (Hb2 & Husr2 & -> & Hah & Hother & _ & Hpar & _).
  assert (Hnone : agent_head b1 agent = None).
  { unfold agent_head, agent_user_id. rewrite Husr1, Hheads. by rewrite bool_decide_false. }
  rewrite Hnone in Hpar. assert (Hu2 : user_head b2 = Some us).
  { unfold user_head. rewrite Husr2, Husr1, Hother, Hheads; [by rewrite bool_decide_true|].
    unfold agent_user_id in *. rewrite Husr1. congruence. }
  apply merge_agent_spec in Hm; [|done]. rewrite Hah in Hm. destruct Hm as (r' & [= <-] & _ & _ & _ & _ & _ & _ & Hc & _).
  rewrite Hc. unfold user_index. rewrite Hu2. cbn [from_option]. assert (Hroot : ∀ x, ¬ tc (edge (ab_dag b2)) (cs_id (agent_changeset now agent m i ev b1)) x).
  { assert (He : ∀ y, ¬ edge (ab_dag b2) (cs_id (agent_changeset now agent m i ev b1)) y).
    { intros y. injection Hl as <-. unfold edge, parents_of. cbn [ab_dag set_ab_dag]. rewrite dag_commit_lookup.
      unfold dag_get in Hfresh. rewrite Hfresh, bool_decide_true by done. rewrite Hpar. apply not_elem_of_nil. }
    intros x Hx. inversion Hx as [? ? Hy|? ? ? Hy]; subst; by apply He in Hy. }
  destruct (find_merge_base_spec {| head := cs_id (agent_changeset now agent m i ev b1); head_index := i; updated_ms := now |} us b2)
    as [[Ht _]|[(_ & Ht & _)|(_ & _ & [(x & c & [Ht _] & _)|[_ ->]])]];
    [by destruct (Hroot _ Ht)|by destruct (Hnu Ht)|by destruct (Hroot _ Ht)|]. cbn [entries index_new head_index].
  rewrite lookup_empty. destruct (entries (head_index us) !! p) as [x|], (entries i !! p) as [y|]; simpl;
    repeat case_bool_decide; simpl; split; try (by intros [? ?]); try naive_solver.
Qed.
End AgentFacts.

(** ** Teams and braids as documents *)

#[global] Instance agent_linear : LinearOrder agent_leb.
Proof.
  unfold agent_leb. split; [split|]; intros *.
  - apply bytes_leb_total. - apply bytes_leb_trans. - intros ??. by apply as_bytes_inj, bytes_leb_antisym.
Qed.

Lemma add_agents_spec l l' a : a ∈ foldl add_agent l l' ↔ a ∈ l ∨ a ∈ l'.
Proof.
  revert l. induction l' as [|x l' IH]; intros l; simpl; [set_solver|]. rewrite IH. unfold add_agent.
  case_bool_decide; set_solver.
Qed.

Lemma add_agents_NoDup l l' : NoDup l → NoDup (foldl add_agent l l').
Proof.
  revert l. induction l' as [|x l' IH]; intros l Hl; simpl; [done|]. apply IH. unfold add_agent. case_bool_decide; [done|].
  apply NoDup_app. split_and!; [done|set_solver|apply NoDup_singleton].
Qed.

(** The better published head, with its index. *)
Definition better_head (x y : option (ChangeId * option SymlinkIndex)) : bool :=
  match x, y with
  | Some (h, _), Some (h', _) => negb (arr32_leb h h')
  | Some _, None => true
  | None, _ => false
  end.

Definition team_published (t : Team) : option (ChangeId * option SymlinkIndex) :=
  h ← team_head t; Some (h, team_head_index t).

(** A roster in order, without an index where there is no head, and with the
    index that the head names. *)
Record team_ok (U : ChangeId → option SymlinkIndex) (t : Team) : Prop := {
  to_sorted : StronglySorted (λ a b, agent_leb a b = true) (roster t);
  to_nodup : NoDup (roster t);
  to_index : team_head_index t = h ← team_head t; U h;
}.

Lemma team_merge_published a b :
  team_published (team_merge a b) = pick better_head (team_published a) (team_published b) ∧
  (team_head_index (team_merge a b) = team_head_index a ∧ team_head (team_merge a b) = team_head a ∨
   team_head_index (team_merge a b) = team_head_index b ∧ team_head (team_merge a b) = team_head b).
Proof.
  unfold team_published, pick, team_merge. destruct (team_head a) as [x|] eqn:Ha, (team_head b) as [y|] eqn:Hb; simpl;
    try destruct (arr32_leb y x); simpl; rewrite ?Ha, ?Hb; simpl; auto.
Qed.

Lemma team_merge_roster a b : roster (team_merge a b) = sort_by agent_leb (foldl add_agent (roster a) (roster b)).
Proof. unfold team_merge. by destruct (team_head a), (team_head b); try destruct (arr32_leb _ _). Qed.

Lemma team_eq U a b : team_ok U a → team_ok U b → (∀ x, x ∈ roster a ↔ x ∈ roster b) →
  team_published a = team_published b → a = b.
Proof.
  intros [Hs Hn Hi] [Hs' Hn' Hi'] Hr Hp. unfold team_published in Hp.
  assert (roster a = roster b) as Er by (by apply (sorted_nodup_unique agent_leb)).
  destruct a as [r [h|] i], b as [r' [h'|] i']; simpl in *; simplify_eq; done.
Qed.

Lemma team_merge_ok U a b : team_ok U a → team_ok U b → team_ok U (team_merge a b).
Proof.
  intros [Hs Hn Hi] [Hs' Hn' Hi']. split.
  - rewrite team_merge_roster. apply (sort_by_sorted agent_leb).
  - rewrite team_merge_roster, sort_by_perm. by apply add_agents_NoDup.
  - destruct (proj2 (team_merge_published a b)) as [[-> ->]|[-> ->]]; done.
Qed.

Lemma team_merge_elem a b x : x ∈ roster (team_merge a b) ↔ x ∈ roster a ∨ x ∈ roster b.
Proof. by rewrite team_merge_roster, sort_by_perm, add_agents_spec. Qed.

Definition published_ok (U : ChangeId → option SymlinkIndex) (x : option (ChangeId * option SymlinkIndex)) : Prop :=
  match x with Some (h, i) => i = U h | None => True end.

Lemma team_ok_published U t : team_ok U t → published_ok U (team_published t).
Proof. intros [_ _ Hi]. unfold team_published. destruct (team_head t); simpl in *; [|done]. by rewrite Hi. Qed.

#[export] Instance better_head_order U : PickOrder (published_ok U) better_head.
Proof.
  split.
  - intros [[h i]|] [[h' i']|] _ _; simpl; try done. rewrite negb_true_iff, negb_false_iff.
    destruct (arr32_leb_total h h'); congruence.
  - intros [[h i]|] [[h' i']|] [[k j]|] _ _ _; simpl; try done. rewrite !negb_true_iff. intros E1 E2.
    destruct (arr32_leb h k) eqn:E; [|done]. destruct (arr32_leb_total h' h) as [Hl|]; [|congruence].
    rewrite (arr32_leb_trans h' h k) in E2; done.
  - intros [[h i]|] [[h' i']|]; simpl; try done. rewrite !negb_false_iff. intros -> -> E1 E2.
    by rewrite (arr32_leb_antisym h h' E1 E2).
Qed.

(** Teams converge: replicas that agree on the index of every head can be merged
    in any order, any number of times. *)
Theorem team_laws U : MergeLaws (team_ok U) eq team_merge team_empty.
Proof.
  destruct (pick_laws _ _ (better_head_order U)) as [_ Hok Hp Hc Ha Hi].
  assert (Hpub : ∀ a b, team_published (team_merge a b) = pick better_head (team_published a) (team_published b))
    by (intros; apply team_merge_published).
  split; [split; [apply _|..]|..].
  - apply team_merge_ok.
  - by intros; subst.
  - intros a b H1 H2. apply (team_eq U); auto using team_merge_ok; [intros; rewrite !team_merge_elem; naive_solver|].
    rewrite !Hpub. apply Hc; by apply team_ok_published.
  - intros a b c H1 H2 H3. apply (team_eq U); auto using team_merge_ok; [intros; rewrite !team_merge_elem; naive_solver|].
    rewrite !Hpub. apply Ha; by apply team_ok_published.
  - intros a H1. apply (team_eq U); auto using team_merge_ok; [intros; rewrite !team_merge_elem; naive_solver|].
    rewrite !Hpub. apply Hi; by apply team_ok_published.
  - split; [constructor|constructor|done].
  - intros a H1. apply (team_eq U); [|done|..].
    + apply team_merge_ok; [split; [constructor|constructor|done]|done].
    + intros. rewrite team_merge_elem. simpl. set_solver.
    + rewrite Hpub. unfold pick. simpl. by destruct (team_published a) as [[? ?]|].
Qed.

(** A universe in which an identifier names one changeset, and a user and a time
    one head. *)
Record dag_in (C : gmap ChangeId Changeset) (P : UserId → Z → option PeerState) (d : BraidDag) : Prop := {
  di_changeset id c : changesets d !! id = Some c → C !! id = Some c;
  di_head u ps : peer_heads d !! u = Some ps → P u (updated_ms ps) = Some ps;
}.

Lemma dag_in_merge C P a b : dag_in C P a → dag_in C P b → dag_in C P (dag_merge a b).
Proof.
  intros [Hc Hp] [Hc' Hp']. split.
  - intros id c. rewrite dag_merge_changesets. destruct (changesets a !! id) eqn:E; intros; simplify_eq; eauto.
  - intros u ps. rewrite dag_merge_heads.
    destruct (peer_heads a !! u) eqn:E1, (peer_heads b !! u) eqn:E2; simpl; try case_match; intros; simplify_eq; eauto.
Qed.

Lemma dag_in_coherent C P a b : dag_in C P a → dag_in C P b → BraidFacts.coherent a b.
Proof.
  intros [Hc Hp] [Hc' Hp']. split.
  - intros id c c' H1%Hc H2%Hc'. congruence.
  - intros u p q H1%Hp H2%Hp' He. rewrite He in H1. congruence.
Qed.

(** The braid is a document whose replicas converge, where they agree on what
    identifiers name. *)
#[global] Instance braid_schema : DocumentSchema BraidDag := merging_schema dag_new dag_merge.

Theorem braid_laws C P : MergeLaws (dag_in C P) eq dag_merge dag_new.
Proof.
  split; [split; [apply _|..]|..].
  - apply dag_in_merge.
  - by intros; subst.
  - intros a b H1 H2. by apply dag_merge_comm, (dag_in_coherent C P).
  - intros. apply dag_merge_assoc.
  - intros. apply dag_merge_idem.
  - split; intros ?? Hx; simpl in Hx; by rewrite lookup_empty in Hx.
  - intros a _. apply dag_ext; intros k; rewrite ?dag_merge_changesets, ?dag_merge_heads; simpl; rewrite lookup_empty; [done|].
    by destruct (peer_heads a !! k).
Qed.
