(* ===== verification/VaultSync.v ===== *)
(** * Synchronised vaults

    Models [indras-sync-engine/src/vault]: [mod.rs] (the vault), [trust.rs],
    [relay_sync.rs] and [sync_all.rs].  A vault composes the replicated braid
    ([Documents], [Braid]), the inner braid of its agents ([AgentBraid]), the
    local index of files ([SyncDocs]), the blob store ([ContentStore]), the
    local relay's tables ([BlobStore]), the files on disk and the state its
    watcher keeps.  Paths are relative to the vault's directory.  What the
    operating system, the network and the clocks answer to one operation is a
    record [VaultIo]. *)

From S2P Require Import Prelude Bytes Crypto Pending RelayConfig Wire BlobStore RelayAuth.
From S2P Require Import Index Changeset Braid Documents SyncDocs ContentStore AgentBraid.

Local Open Scope string_scope.
Local Open Scope Z_scope.
Local Open Scope list_scope.

(** ** Trust *)

(** Decisions by peer. *)
Definition TrustStore : Type := gmap UserId bool.

Definition is_trusted (p : UserId) (t : TrustStore) : bool := default false (t !! p).

Definition set_trust (p : UserId) (trusted : bool) (t : TrustStore) : TrustStore := <[p := trusted]> t.

(** The entries of the file [trust.json]. *)
Definition trust_save (t : TrustStore) : list (string * bool) := (λ e, (hex32 e.1, e.2)) <$> map_to_list t.

(** A missing or broken file is an empty one. *)
Definition trust_load (file : option (list (string * bool))) : TrustStore :=
  list_to_map (omap (λ e, b ← hex_decode e.1; a ← to_arr32 b; Some (a, e.2)) (reverse (default [] file))).

(** ** Blobs through the relay *)

Definition MAX_BLOB_SIZE : nat := 900 * 1024.
Definition BLOB_HEADER_SIZE : nat := 32.
Definition BLOB_MAGIC : list byte := as_bytes "BLOB".

Definition vault_blob_interface_id `{Blake3} (realm : arr32) : arr32 :=
  blake3 (as_bytes "vault-blobs-v1:" ++ arr32_bytes realm).

(** The local relay's store where there is one, and the last event read. *)
Record RelayBlobSync : Type := {
  rb_relay : option BlobStore;
  rb_interface : arr32;
  rb_last : option EventId;
}.

Definition relay_blob_sync_new `{Blake3} (relay : option BlobStore) (realm : arr32) : RelayBlobSync :=
  {| rb_relay := relay; rb_interface := vault_blob_interface_id realm; rb_last := None |}.

Definition blob_payload (hash : arr32) (data : list byte) : list byte := BLOB_MAGIC ++ arr32_bytes hash ++ data.

(** The content of a blob message. *)
Definition blob_of_payload (l : list byte) : option (list byte) :=
  if (length l <? 4 + BLOB_HEADER_SIZE)%nat || negb (bool_decide (take 4 l = BLOB_MAGIC)) then None
  else Some (drop (4 + BLOB_HEADER_SIZE) l).

(** ** What the world answers *)

(** [tokio::fs::write] creates or empties the file first: where it fails later,
    some first part of the content is there. *)
Record WriteFault : Type := { wfl_written : option nat; wfl_error : string }.

Definition failed_write (f : WriteFault) (path : string) (data : list byte) (disk : gmap string (list byte))
    : gmap string (list byte) :=
  match wfl_written f with Some k => <[path := take k data]> disk | None => disk end.

Record VaultIo : Type := {
  io_now : Z;
  io_instant : Z;
  io_random : arr32 → Z;
  io_doc : option DbError;
  io_store : list byte → option StoreFault;
  io_load : ContentRef → option string;
  io_mkdir : string → option string;
  io_write : string → option WriteFault;
  io_remove : string → option string;
  io_relay_db : option string;
  io_arrivals : nat → list (list byte);
  io_list : option string;
  io_delete : ContentRef → option string;
}.

Section RelayBlobs.
Context `{Blake3, StoredEventPostcard}.

(** Broadcasting to the connected peers leaves no trace here. *)
Definition push_blob (io : VaultIo) (hash : arr32) (data : list byte) (r : RelayBlobSync) : RelayBlobSync :=
  if (MAX_BLOB_SIZE <? length data)%nat then r
  else
    match rb_relay r with
    | None => r
    | Some s =>
        let event_id := {| sender_hash := io_random io hash; ev_sequence := wrap_u64 (io_now io) |} in
        let stored := stored_event_new (io_now io) event_id (blob_payload hash data) (replicate 12 x00) in
        {| rb_relay := Some (store_event_tiered (io_relay_db io) Public (rb_interface r) stored s).1;
           rb_interface := rb_interface r; rb_last := rb_last r |}
    end.

(** One event: a blob that cannot be stored is passed over. *)
Definition pull_event (io : VaultIo) (acc : DiskBlobs * nat * option EventId) (e : StoredEvent)
    : DiskBlobs * nat * option EventId :=
  let '(blobs, count, last_id) := acc in
  match blob_of_payload (encrypted_event e) with
  | None => acc
  | Some data =>
      let (blobs, r) := blob_store (io_store io data) data blobs in
      (blobs, if is_ok r then S count else count, Some (se_event_id e))
  end.

Definition pull_blobs (io : VaultIo) (r : RelayBlobSync) (blobs : DiskBlobs)
    : RelayBlobSync * DiskBlobs * Result nat RelayError :=
  match rb_relay r with
  | None => (r, blobs, Ok 0%nat)
  | Some s =>
      match events_after_tiered (io_relay_db io) Public (rb_interface r) (rb_last r) s with
      | Err e => (r, blobs, Err e)
      | Ok events =>
          let '(blobs, count, last_id) := foldl (pull_event io) (blobs, 0%nat, rb_last r) events in
          ({| rb_relay := rb_relay r; rb_interface := rb_interface r; rb_last := last_id |}, blobs, Ok count)
      end
  end.

(** The listener, on the content of a message of the realm. *)
Definition on_blob_message (io : VaultIo) (content : list byte) (blobs : DiskBlobs) : DiskBlobs :=
  match blob_of_payload content with
  | Some data => (blob_store (io_store io data) data blobs).1
  | None => blobs
  end.

(** The retries of a load: pull, look again, sleep.  [arrivals] are the messages
    the listener gets during a sleep. *)
Fixpoint fetch_loop (io : VaultIo) (n : nat) (c : ContentRef) (r : RelayBlobSync) (blobs : DiskBlobs)
    : RelayBlobSync * DiskBlobs * Result (list byte) DbError :=
  let '(r, blobs, _) := pull_blobs io r blobs in
  let data := blob_load (io_load io c) c blobs in
  match data, n with
  | Ok _, _ | _, O => (r, blobs, data)
  | Err _, S n => fetch_loop io n c r (foldl (λ b m, on_blob_message io m b) blobs (io_arrivals io n))
  end.

(** A load with ten tries through the relay, where there is one. *)
Definition fetch_blob (io : VaultIo) (c : ContentRef) (r : option RelayBlobSync) (blobs : DiskBlobs)
    : option RelayBlobSync * DiskBlobs * Result (list byte) DbError :=
  match blob_load (io_load io c) c blobs, r with
  | Ok data, _ => (r, blobs, Ok data)
  | Err e, None => (r, blobs, Err e)
  | Err _, Some r => let '(r, blobs, data) := fetch_loop io 9 c r blobs in (Some r, blobs, data)
  end.
End RelayBlobs.

(** [Display for StorageError]. *)
Definition db_display (e : DbError) : string :=
  match e with
  | DbIo m => "I/O error: " +:+ m
  | DbNotFound m => "Not found: " +:+ m
  | DbPacketNotFound m => "Packet not found: " +:+ m
  | DbCapacityExceeded => "Storage capacity exceeded"
  | DbSerialization m => "Serialization error: " +:+ m
  | DbDeserialization m => "Deserialization error: " +:+ m
  | DbIdentity m => "Identity error: " +:+ m
  | DbDatabase m => "Database error: " +:+ m
  | DbDatabaseLocked => "Database already open by another process"
  end.

(** ** The vault *)

(** What the watcher shares with the vault. *)
Record WatcherState : Type := {
  w_suppressed : gmap string Z;
  w_known : gmap string arr32;
  w_dirty : gset string;
}.

Definition watcher_empty : WatcherState := {| w_suppressed := ∅; w_known := ∅; w_dirty := ∅ |}.

(** Two seconds, in nanoseconds. *)
Definition SUPPRESS_DURATION : Z := 2000000000.

Definition suppress (now : Z) (path : string) (duration : Z) (w : WatcherState) : WatcherState :=
  {| w_suppressed := <[path := now + duration]> (w_suppressed w); w_known := w_known w; w_dirty := w_dirty w |}.

Definition record_hash (path : string) (h : arr32) (w : WatcherState) : WatcherState :=
  {| w_suppressed := w_suppressed w; w_known := <[path := h]> (w_known w); w_dirty := w_dirty w |}.

Definition take_dirty (w : WatcherState) : WatcherState * list string :=
  ({| w_suppressed := w_suppressed w; w_known := w_known w; w_dirty := ∅ |}, elements (w_dirty w)).

Record SyncVault {I : Type} `{Dilithium} : Type := {
  sv_user : UserId;
  sv_identity : PQIdentity;
  sv_local : VaultFileDocument;
  sv_dag : Document BraidDag I;
  sv_blobs : DiskBlobs;
  sv_disk : gmap string (list byte);
  sv_watcher : option WatcherState;
  sv_relay : option RelayBlobSync;
  sv_trust : TrustStore;
  sv_inner : AgentBraid;
}.
Arguments SyncVault I {_}.

Section Fields.
Context {I : Type} `{Dilithium}.
Implicit Types (v : SyncVault I).

Definition set_sv_local (x : VaultFileDocument) v : SyncVault I :=
  {| sv_user := sv_user v; sv_identity := sv_identity v; sv_local := x; sv_dag := sv_dag v; sv_blobs := sv_blobs v; sv_disk := sv_disk v;
     sv_watcher := sv_watcher v; sv_relay := sv_relay v; sv_trust := sv_trust v; sv_inner := sv_inner v |}.
Definition set_sv_dag (x : Document BraidDag I) v : SyncVault I :=
  {| sv_user := sv_user v; sv_identity := sv_identity v; sv_local := sv_local v; sv_dag := x; sv_blobs := sv_blobs v; sv_disk := sv_disk v;
     sv_watcher := sv_watcher v; sv_relay := sv_relay v; sv_trust := sv_trust v; sv_inner := sv_inner v |}.
Definition set_sv_blobs (x : DiskBlobs) v : SyncVault I :=
  {| sv_user := sv_user v; sv_identity := sv_identity v; sv_local := sv_local v; sv_dag := sv_dag v; sv_blobs := x; sv_disk := sv_disk v;
     sv_watcher := sv_watcher v; sv_relay := sv_relay v; sv_trust := sv_trust v; sv_inner := sv_inner v |}.
Definition set_sv_disk (x : gmap string (list byte)) v : SyncVault I :=
  {| sv_user := sv_user v; sv_identity := sv_identity v; sv_local := sv_local v; sv_dag := sv_dag v; sv_blobs := sv_blobs v; sv_disk := x;
     sv_watcher := sv_watcher v; sv_relay := sv_relay v; sv_trust := sv_trust v; sv_inner := sv_inner v |}.
Definition set_sv_watcher (x : option WatcherState) v : SyncVault I :=
  {| sv_user := sv_user v; sv_identity := sv_identity v; sv_local := sv_local v; sv_dag := sv_dag v; sv_blobs := sv_blobs v; sv_disk := sv_disk v;
     sv_watcher := x; sv_relay := sv_relay v; sv_trust := sv_trust v; sv_inner := sv_inner v |}.
Definition set_sv_relay (x : option RelayBlobSync) v : SyncVault I :=
  {| sv_user := sv_user v; sv_identity := sv_identity v; sv_local := sv_local v; sv_dag := sv_dag v; sv_blobs := sv_blobs v; sv_disk := sv_disk v;
     sv_watcher := sv_watcher v; sv_relay := x; sv_trust := sv_trust v; sv_inner := sv_inner v |}.
Definition set_sv_trust (x : TrustStore) v : SyncVault I :=
  {| sv_user := sv_user v; sv_identity := sv_identity v; sv_local := sv_local v; sv_dag := sv_dag v; sv_blobs := sv_blobs v; sv_disk := sv_disk v;
     sv_watcher := sv_watcher v; sv_relay := sv_relay v; sv_trust := x; sv_inner := sv_inner v |}.
Definition set_sv_inner (x : AgentBraid) v : SyncVault I :=
  {| sv_user := sv_user v; sv_identity := sv_identity v; sv_local := sv_local v; sv_dag := sv_dag v; sv_blobs := sv_blobs v; sv_disk := sv_disk v;
     sv_watcher := sv_watcher v; sv_relay := sv_relay v; sv_trust := sv_trust v; sv_inner := x |}.
Definition on_watcher (f : WatcherState → WatcherState) v : SyncVault I := set_sv_watcher (f <$> sv_watcher v) v.

Definition outer v : BraidDag := d_state (sv_dag v).
Definition my_head v : option PeerState := peer_head (sv_user v) (outer v).
End Fields.

Section SyncVault.
Context {I : Type} `{Blake3, ChangesetPostcard, Dilithium, StoredEventPostcard, DocumentCodec BraidDag}.
Implicit Types (v : SyncVault I) (io : VaultIo).

(** [std::io::Error::other(..).into()]. *)
Definition io_other (m : string) : IndraError := IeIo m.

(** *** Files *)

Definition upsert_file io (path : string) (hash : arr32) (size : Z) (author : UserId) v : SyncVault I :=
  set_sv_local (vfd_upsert (vault_file_new (io_now io) path hash size author) (sv_local v)) v.

Definition delete_file io (path : string) (author : UserId) v : SyncVault I :=
  set_sv_local (vfd_remove (io_now io) path author (sv_local v)) v.

(** Storing a blob from a vault. *)
Definition vault_store_blob io (data : list byte) : M (SyncVault I) IndraError ContentRef := λ v,
  let (b, r) := blob_store (io_store io data) data (sv_blobs v) in
  (set_sv_blobs b v, match r with Ok c => Ok c | Err e => Err (io_other (db_display e)) end).

Definition vault_push io (hash : arr32) (data : list byte) v : SyncVault I :=
  set_sv_relay (push_blob io hash data <$> sv_relay v) v.

Definition write_file_content io (rel_path : string) (data : list byte) : M (SyncVault I) IndraError unit :=
  let hash := blake3 data in
  let size := Z.of_nat (length data) in
  modify (on_watcher (λ w, record_hash rel_path hash (suppress (io_instant io) rel_path SUPPRESS_DURATION w)));;
  match io_mkdir io rel_path with Some e => fail (IeIo e) | None => mret tt end;;
  match io_write io rel_path with
  | Some f => modify (λ v, set_sv_disk (failed_write f rel_path data (sv_disk v)) v);; fail (IeIo (wfl_error f))
  | None => modify (λ v, set_sv_disk (<[rel_path := data]> (sv_disk v)) v)
  end;;
  vault_store_blob io data;;
  modify (vault_push io hash data);;
  modify (λ v, upsert_file io rel_path hash size (sv_user v) v).

Definition vault_fetch io (c : ContentRef) : M (SyncVault I) IndraError (Result (list byte) DbError) := λ v,
  let '(r, b, data) := fetch_blob io c (sv_relay v) (sv_blobs v) in
  (set_sv_relay r (set_sv_blobs b v), Ok data).

Definition ref_of_addr (a : ContentAddr) : ContentRef := content_ref_new (ca_hash a) (ca_size a).
Definition addr_of_ref (c : ContentRef) : ContentAddr := {| ca_hash := cr_hash c; ca_size := cr_size c |}.

Fixpoint apply_entries io (l : list (LogicalPath * ContentAddr)) : M (SyncVault I) IndraError unit :=
  match l with
  | [] => mret tt
  | (path, addr) :: l =>
      data ← vault_fetch io (ref_of_addr addr);
      match data with
      | Err e => fail (io_other ("apply_index: blob for " +:+ path +:+ " not available: " +:+ db_display e))
      | Ok bytes => write_file_content io path bytes;; apply_entries io l
      end
  end.

Definition apply_index io (i : SymlinkIndex) : M (SyncVault I) IndraError unit := apply_entries io (index_iter i).

Definition apply_manifest io (m : PatchManifest) : M (SyncVault I) IndraError unit := apply_index io (index_of_manifest m).

Definition checkout io (id : ChangeId) : M (SyncVault I) IndraError unit := λ v,
  match dag_get id (outer v) with
  | Some c => apply_index io (cs_index c) v
  | None => (v, Err (io_other ("unknown changeset: " +:+ hex32 id)))
  end.

Definition delete_file_content io (rel_path : string) : M (SyncVault I) IndraError unit :=
  modify (on_watcher (suppress (io_instant io) rel_path SUPPRESS_DURATION));;
  exists_on_disk ← gets (λ v, bool_decide (is_Some (sv_disk v !! rel_path)));
  (if exists_on_disk : bool then
     match io_remove io rel_path with
     | Some e => fail (IeIo e)
     | None => modify (λ v, set_sv_disk (delete rel_path (sv_disk v)) v)
     end
   else mret tt);;
  modify (λ v, delete_file io rel_path (sv_user v) v).

Definition list_files v : list VaultFile := active_files (sv_local v).

Definition dirty_count v : nat := match sv_watcher v with Some w => size (w_dirty w) | None => 0 end.

(** *** The scan of a directory *)

(** The files found below the directory, with what reading them gives. *)
Fixpoint scan_files io (ignored : string → bool) (l : list (string * Result (list byte) string)) (count : nat)
    : M (SyncVault I) IndraError nat :=
  match l with
  | [] => mret count
  | (rel_path, contents) :: l =>
      if ignored rel_path then scan_files io ignored l count
      else
        match contents with
        | Err e => fail (IeIo e)
        | Ok data =>
            vault_store_blob io data;;
            modify (vault_push io (blake3 data) data);;
            modify (λ v, upsert_file io rel_path (blake3 data) (Z.of_nat (length data)) (sv_user v) v);;
            scan_files io ignored l (S count)
        end
  end.

Definition initial_scan io (ignored : string → bool) (found : list (string * Result (list byte) string))
    : M (SyncVault I) IndraError nat := scan_files io ignored found 0.

(** *** Committing *)

(** A full snapshot of the active files. *)
Definition snapshot_index (d : VaultFileDocument) : SymlinkIndex :=
  foldl (λ i f, if negb (vf_deleted f) then index_set (vf_path f) {| ca_hash := vf_hash f; ca_size := vf_size f |} i else i)
    index_new (active_files d).

(** [self.dag.update(..)]. *)
Definition update_dag io (f : BraidDag → BraidDag) : M (SyncVault I) IndraError unit := λ v,
  let '(d, r, _) := doc_update (io_doc io) f (sv_dag v) in (set_sv_dag d v, r).

(** A signed changeset of the user's, inserted as the user's head. *)
Definition commit_outer io (c : Changeset) : M (SyncVault I) IndraError ChangeId := λ v,
  (update_dag io (dag_commit c (sv_user v) (cs_index c) (io_now io));; mret (cs_id c)) v.

Definition push_entry io (v : SyncVault I) (e : LogicalPath * ContentAddr) : SyncVault I :=
  match blob_load (io_load io (ref_of_addr e.2)) (ref_of_addr e.2) (sv_blobs v) with
  | Ok data => vault_push io (ca_hash e.2) data v
  | Err _ => v
  end.

(** Parents for a commit: the user's head, or the heads of the DAG. *)
Definition commit_parents v : list ChangeId * option SymlinkIndex :=
  match my_head v with
  | Some ps => ([head ps], Some (head_index ps))
  | None => (sort_by arr32_leb (elements (heads (outer v))), None)
  end.

Definition sync io (intent : string) (message : option string) : M (SyncVault I) IndraError ChangeId := λ v,
  let (w, dirty) := match sv_watcher v with
                    | Some w => let (w, l) := take_dirty w in (Some w, l)
                    | None => (None, [])
                    end in
  let v := set_sv_watcher w v in
  if bool_decide (dirty = []) then (v, Err (io_other "nothing to sync"))
  else
    let index := snapshot_index (sv_local v) in
    if bool_decide (entries index = ∅) then (v, Err (io_other "no active files to sync"))
    else
      let v := match sv_relay v with Some _ => foldl (push_entry io) v (index_iter index) | None => v end in
      let (parents, parent_index) := commit_parents v in
      commit_outer io (changeset_with_index (sv_user v) parents intent index parent_index
        (evidence_human (sv_user v) message (io_now io)) (io_now io) (sv_identity v)) v.

(** *** Peers *)

Definition pending_forks v : list (UserId * PeerState) :=
  retain (λ e, negb (bool_decide (e.1 = sv_user v)) && diverged (my_head v) e.2) (map_to_list (all_peer_heads (outer v))).

(** Their snapshot, and what only I have. *)
Definition merge_snapshots (theirs mine : SymlinkIndex) : SymlinkIndex :=
  foldl (λ m e, match index_get m e.1 with None => index_set e.1 e.2 m | Some _ => m end) theirs (index_iter mine).

Fixpoint drop_missing io (merged : SymlinkIndex) (l : list (LogicalPath * ContentAddr)) : M (SyncVault I) IndraError unit :=
  match l with
  | [] => mret tt
  | (path, _) :: l =>
      (if bool_decide (index_get merged path = None) then ignore (delete_file_content io path) else mret tt);;
      drop_missing io merged l
  end.

Definition my_index v : SymlinkIndex := from_option head_index index_new (my_head v).

Definition peer_merge_changeset io (peer_id : UserId) (peer_state : PeerState) v : Changeset :=
  let merged := merge_snapshots (head_index peer_state) (my_index v) in
  changeset_with_index (sv_user v)
    (head peer_state :: match my_head v with Some ms => [head ms] | None => [] end)
    ("merge from peer " +:+ hex (take 4 (arr32_bytes peer_id))) merged (Some (my_index v))
    (evidence_human (sv_user v) (Some "merge") (io_now io)) (io_now io) (sv_identity v).

Definition merge_from_peer io (peer_id : UserId) : M (SyncVault I) IndraError ChangeId := λ v,
  match peer_head peer_id (outer v) with
  | None => (v, Err (io_other "peer has no HEAD"))
  | Some peer_state =>
      let c := peer_merge_changeset io peer_id peer_state v in
      let old := my_index v in
      (commit_outer io c;; apply_index io (cs_index c);; drop_missing io (cs_index c) (index_iter old);; mret (cs_id c)) v
  end.

Definition set_peer_trust io (peer_id : UserId) (trusted : bool) v : SyncVault I :=
  let v := set_sv_trust (set_trust peer_id trusted (sv_trust v)) v in
  if trusted then
    let has_fork := match peer_head peer_id (outer v), my_head v with
                    | Some theirs, Some mine => negb (bool_decide (head theirs = head mine))
                    | Some _, None => true
                    | None, _ => false
                    end in
    if has_fork then (merge_from_peer io peer_id v).1 else v
  else v.

Definition is_peer_trusted (peer_id : UserId) v : bool := is_trusted peer_id (sv_trust v).

Definition diff_fork (peer_id : UserId) v : IndexDelta :=
  match peer_head peer_id (outer v) with
  | None => {| ops := ∅ |}
  | Some peer_state =>
      match my_head v with
      | Some ms => index_diff (head_index peer_state) (head_index ms)
      | None => delta_from_root (head_index peer_state)
      end
  end.

(** The [n]-th merge of the loop gets the [n]-th answers. *)
Fixpoint merge_trusted (ios : nat → VaultIo) (n : nat) (forks : list (UserId * PeerState)) v : SyncVault I * list (UserId * ChangeId) :=
  match forks with
  | [] => (v, [])
  | (peer_id, _) :: forks =>
      if is_peer_trusted peer_id v then
        match merge_from_peer (ios n) peer_id v with
        | (v, Ok id) => let (v, l) := merge_trusted ios (S n) forks v in (v, (peer_id, id) :: l)
        | (v, Err _) => merge_trusted ios (S n) forks v
        end
      else merge_trusted ios (S n) forks v
  end.

Definition auto_merge_trusted (ios : nat → VaultIo) v : SyncVault I * list (UserId * ChangeId) :=
  merge_trusted ios 0 (pending_forks v) v.

(** *** The inner braid *)

Definition promote_changeset io (intent : string) (inner_index : SymlinkIndex) v : Changeset :=
  changeset_with_index (sv_user v) (match my_head v with Some h => [head h] | None => [] end) intent inner_index
    (head_index <$> my_head v) (evidence_human (sv_user v) (Some intent) (io_now io)) (io_now io) (sv_identity v).

Definition promote io (intent : string) : M (SyncVault I) IndraError ChangeId := λ v,
  match user_head (sv_inner v) with
  | None => (v, Err (io_other "nothing to promote"))
  | Some h =>
      (id ← commit_outer io (promote_changeset io intent (head_index h) v);
       modify (λ v, set_sv_inner (rollup_to_user_head (sv_inner v)).1 v);;
       mret id) v
  end.

Definition gc_keep v (c : ContentRef) : bool :=
  bool_decide (addr_of_ref c ∈ all_referenced_addrs (outer v) ∪ ab_referenced_addrs (sv_inner v)).

Definition gc_blobs io : M (SyncVault I) IndraError GcResult := λ v,
  let (b, r) := blob_gc (io_list io) (io_delete io) (gc_keep v) (sv_blobs v) in
  (set_sv_blobs b v, match r with Ok g => Ok g | Err e => Err (io_other (db_display e)) end).

Definition vault_agent_land io (agent : LogicalAgentId) (intent : string) (i : SymlinkIndex) (ev : Evidence) v : SyncVault I * ChangeId :=
  let (b, id) := agent_land (io_now io) agent intent i ev (sv_inner v) in (set_sv_inner b v, id).

(** Landing a snapshot of a working tree, given as its files. *)
Definition land_agent_snapshot io (agent : LogicalAgentId) (files : list PatchFile) (intent : string) (ev : Evidence) v
    : SyncVault I * ChangeId :=
  vault_agent_land io agent intent
    (index_from_iter ((λ f, (pf_path f, {| ca_hash := pf_hash f; ca_size := pf_size f |})) <$> files)) ev v.

Definition vault_merge_agent io (agent : LogicalAgentId) v : SyncVault I * option MergeResult :=
  let (b, r) := merge_agent (io_now io) agent (sv_inner v) in (set_sv_inner b v, r).

(** *** The whole pipeline *)

Record SyncAllReport : Type := {
  sar_agent_merges : list (LogicalAgentId * ChangeId);
  sar_promoted : option ChangeId;
  sar_peer_merges : list (UserId * ChangeId);
  sar_materialized : nat;
  sar_conflicts : list Conflict;
}.

Fixpoint sync_agents (ios : nat → VaultIo) (n : nat) (agents : list LogicalAgentId) (b : AgentBraid)
    : AgentBraid * list (LogicalAgentId * ChangeId) * list Conflict :=
  match agents with
  | [] => (b, [], [])
  | agent :: agents =>
      match merge_agent (io_now (ios n)) agent b with
      | (b, Some r) =>
          let '(b, merges, conflicts) := sync_agents ios (S n) agents b in
          (b, (agent, mr_change_id r) :: merges, mr_conflicts r ++ conflicts)
      | (b, None) => sync_agents ios (S n) agents b
      end
  end.

Definition needs_promote v : bool :=
  match user_head (sv_inner v), my_head v with
  | Some i, Some o => negb (bool_decide (head_index i = head_index o))
  | Some _, None => true
  | None, _ => false
  end.

(** One file: missing blobs and failed writes are skipped, and neither the
    watcher nor the local index is told. *)
Definition materialize_entry io (acc : SyncVault I * nat) (e : LogicalPath * ContentAddr) : SyncVault I * nat :=
  let (v, written) := acc in
  match blob_load (io_load io (ref_of_addr e.2)) (ref_of_addr e.2) (sv_blobs v) with
  | Err _ => acc
  | Ok bytes =>
      match io_write io e.1 with
      | None => (set_sv_disk (<[e.1 := bytes]> (sv_disk v)) v, S written)
      | Some f => (set_sv_disk (failed_write f e.1 bytes (sv_disk v)) v, written)
      end
  end.

Definition materialize_user_outer_head io v : SyncVault I * nat :=
  match my_head v with
  | None => (v, 0%nat)
  | Some ps => foldl (materialize_entry io) (v, 0%nat) (index_iter (head_index ps))
  end.

Definition sync_all (ios : nat → VaultIo) io (intent : string) (team : list LogicalAgentId)
    : M (SyncVault I) IndraError SyncAllReport := λ v,
  let '(b, merges, conflicts) := sync_agents ios 0 (agent_forks team (sv_inner v)).*1 (sv_inner v) in
  let v := set_sv_inner b v in
  match (if needs_promote v then (id ← promote io intent; mret (Some id)) v else (v, Ok None)) with
  | (v, Err e) => (v, Err e)
  | (v, Ok promoted) =>
      let (v, peer_merges) := auto_merge_trusted ios v in
      let (v, materialized) := materialize_user_outer_head io v in
      (v, Ok {| sar_agent_merges := merges; sar_promoted := promoted; sar_peer_merges := peer_merges;
                sar_materialized := materialized; sar_conflicts := conflicts |})
  end.
End SyncVault.
