(* ===== verification/VaultWatch.v ===== *)
(** * Watching folders and following peers

    Models, of [indras-sync-engine/src]: [vault/watcher.rs] (local changes enter
    the index), [vault/sync_to_disk.rs] (changes of the braid reach the disk),
    [workspace.rs] (the working tree of an agent), and [braid/realm_braid.rs]
    with [braid/verification.rs] (landing behind the quality gate).  Events of
    the operating system and what [cargo] reports are arguments. *)

From S2P Require Import Prelude Bytes Crypto Pending RelayConfig Wire BlobStore RelayAuth.
From S2P Require Import Index Changeset Braid BraidGc Documents SyncDocs ContentStore AgentBraid VaultSync.

Local Open Scope string_scope.
Local Open Scope Z_scope.
Local Open Scope list_scope.

(** ** Ignored paths *)

(** [str::contains]. *)
Fixpoint str_contains (p : string) (s : string) : bool :=
  starts_with p s || match s with EmptyString => false | String _ s => str_contains p s end.

(** The last component of a path, [Path::file_name]. *)
Fixpoint last_component (acc s : string) : string :=
  match s with
  | EmptyString => acc
  | String c s => if bool_decide (c = "/"%char) then last_component EmptyString s
                  else last_component (acc +:+ String c EmptyString) s
  end.

(** [rel] is the path below the vault's directory, of name [root_name]; a path
    outside it is [None]. *)
Definition should_ignore (root_name : string) (rel : option string) : bool :=
  match rel with
  | None => true
  | Some rel_str =>
      starts_with ".git/" rel_str || bool_decide (rel_str = ".git")
      || (starts_with ".trash/" rel_str || bool_decide (rel_str = ".trash"))
      || (starts_with ".indras/" rel_str || bool_decide (rel_str = ".indras"))
      || (bool_decide (rel_str = ".obsidian/workspace.json") || bool_decide (rel_str = ".obsidian/workspace-mobile.json"))
      || str_contains ".conflict-" rel_str
      || (let name := if bool_decide (rel_str = EmptyString) then root_name else last_component EmptyString rel_str in
          negb (bool_decide (name = "..")) && starts_with "." name && negb (starts_with ".obsidian/" rel_str))
  end.

(** ** The watcher *)

Inductive EventKind : Type := EkCreate | EkModify | EkRemove | EkOther.

(** An expired entry is removed. *)
Definition is_suppressed (now : Z) (path : string) (w : WatcherState) : WatcherState * bool :=
  match w_suppressed w !! path with
  | Some until =>
      if now <? until then (w, true)
      else ({| w_suppressed := delete path (w_suppressed w); w_known := w_known w; w_dirty := w_dirty w |}, false)
  | None => (w, false)
  end.

Definition mark_dirty (path : string) (w : WatcherState) : WatcherState :=
  {| w_suppressed := w_suppressed w; w_known := w_known w; w_dirty := {[ path ]} ∪ w_dirty w |}.

(** The debounced batch: the last kind of event for each path. *)
Definition accumulate (pending : gmap string EventKind) (e : list string * EventKind) : gmap string EventKind :=
  foldl (λ m p, <[p := e.2]> m) pending e.1.

Section Watch.
Context {I : Type} `{Blake3, ChangesetPostcard, Dilithium, StoredEventPostcard, DocumentCodec BraidDag}.
Implicit Types (v : SyncVault I) (io : VaultIo) (w : WatcherState).

(** One event of a batch; the watcher runs until the vault is stopped. *)
Definition watch_event io (root_name : string) (read : string → Result (list byte) string) v (e : string * EventKind) : SyncVault I :=
  match sv_watcher v with
  | None => v
  | Some w =>
      let (rel_path, kind) := e in
      if should_ignore root_name (Some rel_path) then v
      else
        let (w, suppressed) := is_suppressed (io_instant io) rel_path w in
        let v := set_sv_watcher (Some w) v in
        if suppressed then v
        else
          match kind with
          | EkRemove => set_sv_watcher (Some (mark_dirty rel_path w)) (delete_file io rel_path (sv_user v) v)
          | EkCreate | EkModify =>
              match read rel_path with
              | Err _ => v
              | Ok data =>
                  let hash := blake3 data in
                  if bool_decide (w_known w !! rel_path = Some hash) then v
                  else
                    match blob_store (io_store io data) data (sv_blobs v) with
                    | (b, Err _) => set_sv_blobs b v
                    | (b, Ok _) =>
                        set_sv_watcher (Some (mark_dirty rel_path (record_hash rel_path hash w)))
                          (upsert_file io rel_path hash (Z.of_nat (length data)) (sv_user v) (set_sv_blobs b v))
                    end
              end
          | EkOther => v
          end
  end.

Definition watch_batch io (root_name : string) (read : string → Result (list byte) string)
    (events : list (list string * EventKind)) v : SyncVault I :=
  foldl (watch_event io root_name read) v (map_to_list (foldl accumulate ∅ events)).

(** ** Following the braid *)

Definition materialize_error (path : string) (e : DbError) : string :=
  "materialize: blob for " +:+ path +:+ " not available: " +:+ db_display e.

(** Unlike [apply_index], this leaves the local index alone. *)
Fixpoint materialize_index io (l : list (LogicalPath * ContentAddr)) : M (SyncVault I) IndraError unit :=
  match l with
  | [] => mret tt
  | (path, addr) :: l =>
      data ← vault_fetch io (ref_of_addr addr);
      match data with
      | Err e => fail (IeIo (materialize_error path e))
      | Ok bytes =>
          match io_mkdir io path with Some e => fail (IeIo e) | None => mret tt end;;
          modify (on_watcher (suppress (io_instant io) path SUPPRESS_DURATION));;
          match io_write io path with
          | Some f => modify (λ v, set_sv_disk (failed_write f path bytes (sv_disk v)) v);; fail (IeIo (wfl_error f))
          | None => modify (λ v, set_sv_disk (<[path := bytes]> (sv_disk v)) v)
          end;;
          modify (on_watcher (record_hash path (ca_hash addr)));;
          materialize_index io l
      end
  end.

(** The heads last seen. *)
Definition SeenHeads : Type := gmap UserId ChangeId.

Definition note_heads (d : BraidDag) (seen : SeenHeads) : SeenHeads :=
  foldl (λ m e, <[e.1 := head e.2]> m) seen (map_to_list (all_peer_heads d)).

Definition auto_merge_changeset io (d : BraidDag) (peer_id : UserId) (peer_state : PeerState) v : Changeset :=
  changeset_with_index (sv_user v)
    (head peer_state :: match peer_head (sv_user v) d with Some mh => [head mh] | None => [] end)
    ("auto-merge from " +:+ hex (take 4 (arr32_bytes peer_id))) (head_index peer_state) None
    (evidence_human (sv_user v) (Some "auto-merge from trusted peer") (io_now io)) (io_now io) (sv_identity v).

(** One head of a remote change; failures are logged. *)
Definition follow_head io (d : BraidDag) (seen : SeenHeads) v (e : UserId * PeerState) : SyncVault I :=
  let (peer_id, peer_state) := e in
  if bool_decide (peer_id = sv_user v) then v
  else if bool_decide (seen !! peer_id = Some (head peer_state)) then v
  else if is_trusted peer_id (sv_trust v) then
    let v := (materialize_index io (index_iter (head_index peer_state)) v).1 in
    (commit_outer io (auto_merge_changeset io d peer_id peer_state v) v).1
  else v.

(** One change of the braid; the task subscribes from the start and sees each. *)
Definition follow_change io (c : DocumentChange BraidDag I) (acc : SyncVault I * SeenHeads) : SyncVault I * SeenHeads :=
  let (v, seen) := acc in
  let d := dch_new_state c in
  if negb (dch_is_remote c) then (v, note_heads d seen)
  else (foldl (follow_head io d seen) v (map_to_list (all_peer_heads d)), note_heads d seen).
End Watch.

(** ** The working tree of an agent *)

Record WorkspaceEntry : Type := { we_hash : arr32; we_size : Z }.

Definition entry_of_ref (c : ContentRef) : WorkspaceEntry := {| we_hash := cr_hash c; we_size := cr_size c |}.

(** The index and the blob store it shares. *)
Record LocalWorkspaceIndex : Type := { ws_files : gmap string WorkspaceEntry; ws_blobs : DiskBlobs }.

Definition workspace_new (b : DiskBlobs) : LocalWorkspaceIndex := {| ws_files := ∅; ws_blobs := b |}.

Definition forget (p : string) (x : LocalWorkspaceIndex) : LocalWorkspaceIndex * option WorkspaceEntry :=
  ({| ws_files := delete p (ws_files x); ws_blobs := ws_blobs x |}, ws_files x !! p).

Definition ws_get (p : string) (x : LocalWorkspaceIndex) : option WorkspaceEntry := ws_files x !! p.
Definition ws_len (x : LocalWorkspaceIndex) : nat := size (ws_files x).
Definition ws_is_empty (x : LocalWorkspaceIndex) : bool := bool_decide (ws_files x = ∅).

Definition patch_of (p : string) (e : WorkspaceEntry) : PatchFile := {| pf_path := p; pf_hash := we_hash e; pf_size := we_size e |}.

(** [sort_by(|a, b| a.path.cmp(&b.path))]. *)
Definition patch_path_leb (a b : PatchFile) : bool := bytes_leb (as_bytes (pf_path a)) (as_bytes (pf_path b)).

Definition snapshot_patch (paths : list string) (x : LocalWorkspaceIndex) : list PatchFile :=
  sort_by patch_path_leb (omap (λ p, patch_of p <$> ws_files x !! p) paths).

Definition snapshot_all (x : LocalWorkspaceIndex) : list PatchFile :=
  sort_by patch_path_leb ((λ e, patch_of e.1 e.2) <$> map_to_list (ws_files x)).

Section Workspace.
Context `{Blake3}.

Definition ingest_bytes (fault : option StoreFault) (p : string) (bytes : list byte) (x : LocalWorkspaceIndex)
    : LocalWorkspaceIndex * Result ContentRef DbError :=
  match blob_store fault bytes (ws_blobs x) with
  | (b, Err e) => ({| ws_files := ws_files x; ws_blobs := b |}, Err e)
  | (b, Ok c) => ({| ws_files := <[p := entry_of_ref c]> (ws_files x); ws_blobs := b |}, Ok c)
  end.

(** The regular files found below the root, with what reading them gives; one
    that cannot be read or stored is skipped. *)
Definition scan_entry (fault : string → option StoreFault) (acc : LocalWorkspaceIndex * nat) (e : string * Result (list byte) string)
    : LocalWorkspaceIndex * nat :=
  match e.2 with
  | Err _ => acc
  | Ok bytes =>
      let (x, r) := ingest_bytes (fault e.1) e.1 bytes acc.1 in
      (x, if is_ok r then S acc.2 else acc.2)
  end.

(** A directory that cannot be listed to its end stops the scan. *)
Definition workspace_scan (listing : option string) (fault : string → option StoreFault)
    (found : list (string * Result (list byte) string)) (x : LocalWorkspaceIndex) : LocalWorkspaceIndex * Result nat string :=
  let (x, count) := foldl (scan_entry fault) (x, 0%nat) found in
  (x, match listing with Some e => Err e | None => Ok count end).

(** What reading a path gives: its bytes, nothing there, or another failure. *)
Inductive ReadOutcome : Type := RoBytes (b : list byte) | RoNotFound | RoFailed (e : string).

(** One path of an event; a path outside the root is [None]. *)
Definition handle_path (fault : string → option StoreFault) (read : string → ReadOutcome) (kind : EventKind)
    (x : LocalWorkspaceIndex) (path : option string) : LocalWorkspaceIndex :=
  match path with
  | None => x
  | Some rel =>
      if bool_decide (rel = EmptyString) then x
      else
        match kind with
        | EkRemove => (forget rel x).1
        | _ =>
            match read rel with
            | RoBytes bytes => (ingest_bytes (fault rel) rel bytes x).1
            | RoNotFound => (forget rel x).1
            | RoFailed _ => x
            end
        end
  end.

Definition handle_event (fault : string → option StoreFault) (read : string → ReadOutcome)
    (x : LocalWorkspaceIndex) (e : list (option string) * EventKind) : LocalWorkspaceIndex :=
  foldl (handle_path fault read e.2) x e.1.
End Workspace.

(** ** The quality gate *)

Record VerificationRequest : Type := {
  vr_crates : list string;
  vr_workspace_root : string;
  vr_agent : UserId;
  vr_run_clippy : bool;
  vr_run_tests : bool;
}.

Definition verification_request_new (crates : list string) (root : string) (agent : UserId) : VerificationRequest :=
  {| vr_crates := crates; vr_workspace_root := root; vr_agent := agent; vr_run_clippy := true; vr_run_tests := true |}.

Definition without_clippy (r : VerificationRequest) : VerificationRequest :=
  {| vr_crates := vr_crates r; vr_workspace_root := vr_workspace_root r; vr_agent := vr_agent r;
     vr_run_clippy := false; vr_run_tests := vr_run_tests r |}.

Definition without_tests (r : VerificationRequest) : VerificationRequest :=
  {| vr_crates := vr_crates r; vr_workspace_root := vr_workspace_root r; vr_agent := vr_agent r;
     vr_run_clippy := vr_run_clippy r; vr_run_tests := false |}.

Inductive CargoCommand : Type := CargoBuild | CargoTest | CargoClippy.

(** Running [cargo] on a crate: it cannot be started, or it exits with success
    and what it wrote. *)
Record CargoOutput : Type := { co_success : bool; co_stdout : string; co_stderr : string }.
Definition Cargo : Type := CargoCommand → string → Result CargoOutput string.

Section Gate.
Context (cargo : Cargo).

Definition run_cargo (cmd : CargoCommand) (crate : string) (failed : CargoOutput → VerificationFailure)
    : Result unit VerificationFailure :=
  match cargo cmd crate with
  | Err e => Err (SpawnError e)
  | Ok o => if co_success o then Ok tt else Err (failed o)
  end.

Fixpoint run_crates (r : VerificationRequest) (crates : list string) (tests_passed : list string)
    : Result (list string) VerificationFailure :=
  match crates with
  | [] => Ok tests_passed
  | c :: crates =>
      let? _ := run_cargo CargoBuild c (λ o, BuildFailed c (co_stderr o)) in
      let? tests_passed :=
        if vr_run_tests r
        then let? _ := run_cargo CargoTest c (λ o, TestFailed c (co_stdout o)) in Ok (tests_passed ++ [c])
        else Ok tests_passed in
      let? _ := if vr_run_clippy r then run_cargo CargoClippy c (λ o, ClippyFailed c (co_stderr o)) else Ok tt in
      run_crates r crates tests_passed
  end.

Definition verification_run (runtime_ms : Z) (r : VerificationRequest) : Result Evidence VerificationFailure :=
  let? tests_passed := run_crates r (vr_crates r) [] in
  Ok (EvAgent true tests_passed (vr_run_clippy r) runtime_ms (vr_agent r)).

Definition verify_only (runtime_ms : Z) (crates : list string) (root : string) (agent : UserId)
    : Result Evidence VerificationFailure :=
  verification_run runtime_ms
    {| vr_crates := crates; vr_workspace_root := root; vr_agent := agent; vr_run_clippy := true; vr_run_tests := true |}.
End Gate.

Inductive TryLandError : Type :=
| NothingToLand
| TlVerification (e : VerificationFailure)
| TlIo (e : string)
| TlNetwork (e : IndraError).

Section Land.
Context {I : Type} `{Blake3, ChangesetPostcard, Dilithium, DocumentCodec BraidDag}.

(** The DAG is a document of the realm; looking it up can fail. *)
Definition try_land (cargo : Cargo) (runtime_ms now : Z) (lookup fault : option DbError) (intent : string) (index : SymlinkIndex)
    (crates : list string) (root : string) (agent : UserId) (identity : PQIdentity) (d : Document BraidDag I)
    : Document BraidDag I * Result ChangeId TryLandError :=
  if bool_decide (entries index = ∅) then (d, Err NothingToLand)
  else
    match verify_only cargo runtime_ms crates root agent with
    | Err e => (d, Err (TlVerification e))
    | Ok evidence =>
        match lookup with
        | Some e => (d, Err (TlNetwork (ie_from_storage e)))
        | None =>
            let parents := sort_by arr32_leb (elements (heads (d_state d))) in
            let c := changeset_with_index agent parents intent index None evidence now identity in
            match doc_update fault (dag_insert c) d with
            | (d, Err e, _) => (d, Err (TlNetwork e))
            | (d, Ok _, _) => (d, Ok (cs_id c))
            end
        end
    end.

Definition braid_heads (lookup : option DbError) (d : Document BraidDag I) : Result (list ChangeId) IndraError :=
  match lookup with
  | Some e => Err (ie_from_storage e)
  | None => Ok (sort_by arr32_leb (elements (heads (d_state d))))
  end.
End Land.

(** ** Properties of the gate *)

(** What [cargo] must have said of a crate. *)
Definition cargo_passes (cargo : Cargo) (cmd : CargoCommand) (crate : string) : Prop :=
  ∃ o, cargo cmd crate = Ok o ∧ co_success o = true.

Definition crate_passes (cargo : Cargo) (r : VerificationRequest) (crate : string) : Prop :=
  cargo_passes cargo CargoBuild crate ∧ (vr_run_tests r = true → cargo_passes cargo CargoTest crate) ∧
  (vr_run_clippy r = true → cargo_passes cargo CargoClippy crate).

Lemma run_cargo_ok cargo cmd c f : run_cargo cargo cmd c f = Ok tt ↔ cargo_passes cargo cmd c.
Proof.
  unfold run_cargo, cargo_passes. destruct (cargo cmd c) as [o|e]; [|split; [done|by intros (? & ? & _)]].
  destruct (co_success o) eqn:Ho; split; [by eexists|done|done|]. intros (o' & [= <-] & Ho'). congruence.
Qed.

Lemma run_crates_ok cargo r crates acc ts :
  run_crates cargo r crates acc = Ok ts ↔
  Forall (crate_passes cargo r) crates ∧ ts = acc ++ if vr_run_tests r then crates else [].
Proof.
  revert acc. induction crates as [|c crates IH]; intros acc; cbn [run_crates].
  { rewrite Forall_nil. destruct (vr_run_tests r); rewrite app_nil_r; naive_solver. }
  rewrite Forall_cons. unfold crate_passes at 1. rewrite <- (run_cargo_ok cargo CargoBuild c (λ o, BuildFailed c (co_stderr o))).
  destruct (run_cargo cargo CargoBuild c _) as [[]|]; simpl; [|naive_solver].
  setoid_rewrite <- (run_cargo_ok cargo CargoTest c (λ o, TestFailed c (co_stdout o))).
  setoid_rewrite <- (run_cargo_ok cargo CargoClippy c (λ o, ClippyFailed c (co_stderr o))).
  destruct (vr_run_tests r) eqn:Et; [destruct (run_cargo cargo CargoTest c _) as [[]|]; simpl; [|naive_solver]|simpl];
    (destruct (vr_run_clippy r) eqn:Ec; [destruct (run_cargo cargo CargoClippy c _) as [[]|]; simpl; [|naive_solver]|simpl]);
    rewrite IH, ?Et, <- ?app_assoc; naive_solver.
Qed.

(** The gate issues evidence exactly when every command it runs succeeds, and the
    evidence names the crates it tested. *)
Lemma verification_run_ok cargo ms r ev :
  verification_run cargo ms r = Ok ev ↔
  Forall (crate_passes cargo r) (vr_crates r) ∧
  ev = EvAgent true (if vr_run_tests r then vr_crates r else []) (vr_run_clippy r) ms (vr_agent r).
Proof.
  unfold verification_run. destruct (run_crates cargo r (vr_crates r) []) as [ts|e] eqn:Hr; simpl.
  - apply run_crates_ok in Hr as [Hall ->]. naive_solver.
  - split; [done|]. intros [Hall _]. assert (run_crates cargo r (vr_crates r) [] = Ok ([] ++ if vr_run_tests r then vr_crates r else []))
      by (by apply run_crates_ok). congruence.
Qed.

Section LandFacts.
Context {I : Type} `{Blake3, ChangesetPostcard, Dilithium, DocumentCodec BraidDag}.

(** Landing through the realm: nothing changes unless the index is not empty and
    every crate was built, tested and linted; a changeset that lands carries that
    evidence and has the heads of the braid as its parents (and no delta against
    them, but the whole index). *)
Theorem try_land_spec cargo ms now fault m i crates root agent identity (d d' : Document BraidDag I) r :
  try_land cargo ms now None fault m i crates root agent identity d = (d', r) →
  let all_pass := Forall (crate_passes cargo (verification_request_new crates root agent)) crates in
  let c := changeset_with_index agent (sort_by arr32_leb (elements (heads (d_state d)))) m i None
             (EvAgent true crates true ms agent) now identity in
  (entries i = ∅ → d' = d ∧ r = Err NothingToLand) ∧
  (entries i ≠ ∅ → ¬ all_pass → d' = d ∧ ∃ e, r = Err (TlVerification e)) ∧
  (entries i ≠ ∅ → all_pass →
     d_state d' = dag_insert c (d_state d) ∧ (∀ id, r = Ok id → id = cs_id c) ∧
     (∀ p, p ∈ parents c ↔ p ∈ heads (d_state d)) ∧ delta c = delta_from_root i).
Proof.
  intros Hl all_pass c. unfold try_land in Hl. case_bool_decide as Hi.
  { injection Hl as <- <-. split_and!; [done|by intros|by intros]. }
  destruct (verify_only cargo ms crates root agent) as [ev|e] eqn:Hv.
  - unfold verify_only in Hv. apply verification_run_ok in Hv as [Hall ->]. split_and!; [done|by intros _ []|]. intros _ _.
    unfold doc_update, Documents.commit, persist in Hl.
    assert (Hp : ∀ p, p ∈ parents c ↔ p ∈ heads (d_state d)).
    { intros p. unfold c. cbn [parents changeset_with_index]. by rewrite !sort_by_perm, elem_of_elements. }
    destruct (change_message _ _ _); [|injection Hl as <- <-; split_and!; done].
    destruct (encode_state _); [|injection Hl as <- <-; split_and!; done].
    destruct fault; injection Hl as <- <-; split_and!; try done. by intros id [= <-].
  - injection Hl as <- <-. split_and!; [done|eauto|]. intros _ Hall.
    assert (verify_only cargo ms crates root agent = Ok (EvAgent true crates true ms agent)); [|congruence].
    unfold verify_only. by apply verification_run_ok.
Qed.
End LandFacts.

(** ** Properties of the working tree *)

#[export] Instance patch_path_preorder : TotalPreorder patch_path_leb.
Proof. unfold patch_path_leb. split; intros *; [apply bytes_leb_total|apply bytes_leb_trans]. Qed.

(** A snapshot lists exactly the entries, in the order of their paths. *)
Lemma snapshot_all_ok x f :
  f ∈ snapshot_all x ↔ ws_files x !! pf_path f = Some {| we_hash := pf_hash f; we_size := pf_size f |}.
Proof.
  unfold snapshot_all. rewrite sort_by_perm, list_elem_of_fmap. split.
  - intros ([p [h n]] & -> & Hp%elem_of_map_to_list). done.
  - intros Hf. exists (pf_path f, {| we_hash := pf_hash f; we_size := pf_size f |}). split; [by destruct f|].
    by apply elem_of_map_to_list.
Qed.
