(* ===== verification/VaultSyncFacts.v ===== *)
(** * Properties of synchronised vaults

    What the operations of [VaultSync] on files may touch, the invariant of a
    vault over every sequence of operations, and the behaviour of commits,
    merges, promotions and garbage collection. *)

From S2P Require Import Prelude Bytes Crypto Pending RelayConfig Wire BlobStore RelayAuth.
From S2P Require Import Index Changeset Braid BraidFacts Documents Convergence SyncDocs ContentStore AgentBraid VaultSync VaultWatch.

Local Open Scope string_scope.
Local Open Scope Z_scope.
Local Open Scope list_scope.

Section Facts.
Context {I : Type} `{Blake3, ChangesetPostcard, Dilithium, StoredEventPostcard, DocumentCodec BraidDag}.
Implicit Types (v : SyncVault I) (io : VaultIo) (b : DiskBlobs).

(** ** Blobs only accumulate *)

Record blobs_grow (x y : DiskBlobs) : Prop := {
  bg_ok : blobs_ok x → blobs_ok y;
  bg_kept h d : blob_at x h = Some d → blob_at y h = Some d;
}.

#[local] Instance blobs_grow_preorder : PreOrder blobs_grow.
Proof. split; [by intros x; split|]. intros x y z [Ho Hk] [Ho' Hk']. split; eauto. Qed.

Lemma blob_store_grows fault d b : blobs_grow b (blob_store fault d b).1.
Proof.
  destruct (blob_store fault d b) as [b' r] eqn:Hb. destruct (blob_store_at _ _ _ _ _ Hb) as (Hat & _ & Hok).
  split; [done|]. intros h x Hx. simpl. rewrite Hat, bool_decide_false; [done|]. intros (_ & _ & Hn). congruence.
Qed.

Lemma pull_event_grows io acc e : blobs_grow acc.1.1 (pull_event io acc e).1.1.
Proof.
  destruct acc as [[b n] l]. unfold pull_event. destruct (blob_of_payload _) as [d|]; [|done].
  pose proof (blob_store_grows (io_store io d) d b) as Hg. by destruct (blob_store _ _ _).
Qed.

Lemma pull_blobs_grows io r b : blobs_grow b (pull_blobs io r b).1.2.
Proof.
  unfold pull_blobs. destruct (rb_relay r) as [s|]; [|done]. destruct (events_after_tiered _ _ _ _ _) as [es|]; [|done].
  assert (Hf : ∀ acc, blobs_grow acc.1.1 (foldl (pull_event io) acc es).1.1).
  { induction es as [|e es IH]; intros acc; simpl; [done|]. etrans; [apply pull_event_grows|apply IH]. }
  specialize (Hf (b, 0%nat, rb_last r)). by destruct (foldl _ _ es) as [[b' n] l].
Qed.

Lemma on_blob_messages_grow io ms b : blobs_grow b (foldl (λ b m, on_blob_message io m b) b ms).
Proof.
  revert b. induction ms as [|m ms IH]; intros b; simpl; [done|]. etrans; [|apply IH].
  unfold on_blob_message. destruct (blob_of_payload m); [apply blob_store_grows|done].
Qed.

Lemma fetch_loop_grows io n c r b : blobs_grow b (fetch_loop io n c r b).1.2.
Proof.
  revert r b. induction n as [|n IH]; intros r b; simpl; pose proof (pull_blobs_grows io r b) as Hg;
    destruct (pull_blobs io r b) as [[r' b'] x]; simpl in Hg; destruct (blob_load _ _ _) as [d|e]; try done.
  etrans; [exact Hg|]. etrans; [apply on_blob_messages_grow|apply IH].
Qed.

Lemma fetch_blob_grows io c r b : blobs_grow b (fetch_blob io c r b).1.2.
Proof.
  unfold fetch_blob. destruct (blob_load _ _ _), r as [r|]; try done.
  pose proof (fetch_loop_grows io 9 c r b). by destruct (fetch_loop _ _ _ _ _) as [[r' b'] x].
Qed.

(** What a load through the relay returns is in the store and has the hash. *)
Lemma fetch_blob_ok io c r b r' b' d : blobs_ok b → fetch_blob io c r b = (r', b', Ok d) →
  blob_at b' (cr_hash c) = Some d ∧ blake3 d = cr_hash c.
Proof.
  assert (Hload : ∀ fault b d, blobs_ok b → blob_load fault c b = Ok d → blob_at b (cr_hash c) = Some d ∧ blake3 d = cr_hash c).
  { intros fault b0 d0 Hb. unfold blob_load. rewrite blob_at_eq. destruct fault; destruct (blob_at b0 _) eqn:Hat; try done.
    destruct (negb _); [done|]. intros [= <-]. split; [done|]. by eapply blob_at_hash. }
  assert (Hloop : ∀ n r b r' b' d, blobs_ok b → fetch_loop io n c r b = (r', b', Ok d) →
    blob_at b' (cr_hash c) = Some d ∧ blake3 d = cr_hash c).
  { induction n as [|n IH]; intros r0 b0 r1 b1 d0 Hb; simpl; pose proof (pull_blobs_grows io r0 b0) as [Hg _];
      destruct (pull_blobs io r0 b0) as [[r2 b2] x]; simpl in Hg; specialize (Hg Hb);
      destruct (blob_load _ _ _) as [d1|e] eqn:Hl; try (intros [= <- <- <-]; by eapply Hload).
    apply IH. by apply on_blob_messages_grow. }
  intros Hb. unfold fetch_blob. destruct (blob_load _ _ _) as [d0|e] eqn:Hl.
  - intros Heq. injection Heq as <- <- <-. by eapply Hload.
  - destruct r as [r|]; [|done]. destruct (fetch_loop _ _ _ _ _) as [[r1 b1] x] eqn:Hf.
    intros [= <- <- ->]. by eapply Hloop.
Qed.

(** ** Operations on files *)

(** What an operation on files leaves as it is. *)
Record file_step v v' : Prop := {
  fs_user : sv_user v' = sv_user v;
  fs_identity : sv_identity v' = sv_identity v;
  fs_dag : sv_dag v' = sv_dag v;
  fs_inner : sv_inner v' = sv_inner v;
  fs_trust : sv_trust v' = sv_trust v;
  fs_dirty : (w_dirty <$> sv_watcher v') = (w_dirty <$> sv_watcher v);
  fs_blobs : blobs_grow (sv_blobs v) (sv_blobs v');
  fs_local : vfd_ok (sv_local v) → vfd_ok (sv_local v');
}.

#[local] Instance file_step_preorder : PreOrder file_step.
Proof.
  split; [by intros v; split|]. intros x y z [] []. split; [congruence..| |auto].
  by transitivity (sv_blobs y).
Qed.

Definition on_files {A} (m : M (SyncVault I) IndraError A) : Prop := ∀ v, file_step v (m v).1.

Lemma on_files_ret {A} (a : A) : on_files (mret a).
Proof. intros v. done. Qed.

Lemma on_files_fail {A} e : on_files (fail (A := A) e).
Proof. intros v. done. Qed.

Lemma on_files_gets {A} (f : SyncVault I → A) : on_files (gets f).
Proof. intros v. done. Qed.

Lemma on_files_bind {A B} (m : M (SyncVault I) IndraError A) (k : A → M (SyncVault I) IndraError B) :
  on_files m → (∀ a, on_files (k a)) → on_files (m ≫= k).
Proof.
  intros Hm Hk v. unfold mbind, M_bind. specialize (Hm v). destruct (m v) as [v' [a|e]]; simpl in *; [|done].
  etrans; [exact Hm|apply Hk].
Qed.

Lemma on_files_modify f : (∀ v, file_step v (f v)) → on_files (modify f).
Proof. intros Hf v. apply Hf. Qed.

Lemma on_files_ignore {A} (m : M (SyncVault I) IndraError A) : on_files m → on_files (ignore m).
Proof. intros Hm v. unfold ignore. simpl. apply Hm. Qed.

Lemma on_watcher_step f v : (∀ w, w_dirty (f w) = w_dirty w) → file_step v (on_watcher f v).
Proof. intros Hf. split; try done. simpl. destruct (sv_watcher v); simpl; by rewrite ?Hf. Qed.

Lemma set_disk_step m v : file_step v (set_sv_disk m v).
Proof. by split. Qed.

Lemma vault_push_step io h d v : file_step v (vault_push io h d v).
Proof. by split. Qed.

Lemma upsert_file_step io p h n u v : file_step v (upsert_file io p h n u v).
Proof.
  split; try done. simpl. intros Hv q f. simpl. intros [[<- <-]|[_ Hq]]%lookup_insert_Some; [done|]. by apply Hv.
Qed.

Lemma delete_file_step io p u v : file_step v (delete_file io p u v).
Proof. split; try done. apply vfd_remove_ok. Qed.

Lemma store_blob_step io d : on_files (vault_store_blob io d).
Proof.
  intros v. unfold vault_store_blob. pose proof (blob_store_grows (io_store io d) d (sv_blobs v)) as Hg.
  destruct (blob_store _ _ _) as [b r]. by split.
Qed.

Lemma fetch_step io c : on_files (vault_fetch io c).
Proof.
  intros v. unfold vault_fetch. pose proof (fetch_blob_grows io c (sv_relay v) (sv_blobs v)) as Hg.
  destruct (fetch_blob _ _ _ _) as [[r b] d]. by split.
Qed.

Lemma failed_write_step {A} (f : SyncVault I → gmap string (list byte)) (e : IndraError) :
  on_files (modify (λ v, set_sv_disk (f v) v);; fail e : M (SyncVault I) IndraError A).
Proof. apply on_files_bind; [apply on_files_modify; intros; apply set_disk_step|intros; apply on_files_fail]. Qed.

Lemma write_file_step io p d : on_files (write_file_content io p d).
Proof.
  unfold write_file_content. repeat (apply on_files_bind; [|intros ?]).
  - apply on_files_modify. intros. by apply on_watcher_step.
  - destruct (io_mkdir io p); [apply on_files_fail|apply on_files_ret].
  - destruct (io_write io p); [apply failed_write_step|apply on_files_modify; intros; apply set_disk_step].
  - apply store_blob_step.
  - apply on_files_modify; intros; apply vault_push_step.
  - apply on_files_modify. intros. apply upsert_file_step.
Qed.

Lemma apply_entries_step io l : on_files (apply_entries io l).
Proof.
  induction l as [|[p a] l IH]; simpl; [apply on_files_ret|]. apply on_files_bind; [apply fetch_step|].
  intros [d|e]; [|apply on_files_fail]. apply on_files_bind; [apply write_file_step|done].
Qed.

Lemma delete_content_step io p : on_files (delete_file_content io p).
Proof.
  unfold delete_file_content. apply on_files_bind; [apply on_files_modify; intros; by apply on_watcher_step|intros _].
  apply on_files_bind; [apply on_files_gets|intros x]. apply on_files_bind; [|intros _; apply on_files_modify; intros; apply delete_file_step].
  destruct x; [|apply on_files_ret]. destruct (io_remove io p); [apply on_files_fail|apply on_files_modify; intros; apply set_disk_step].
Qed.

Lemma drop_missing_step io m l : on_files (drop_missing io m l).
Proof.
  induction l as [|[p a] l IH]; simpl; [apply on_files_ret|]. apply on_files_bind; [|done].
  case_bool_decide; [apply on_files_ignore, delete_content_step|apply on_files_ret].
Qed.

Lemma checkout_step io id : on_files (checkout io id).
Proof. intros v. unfold checkout. destruct (dag_get id (outer v)); [apply apply_entries_step|done]. Qed.

Lemma scan_files_step io ign l n : on_files (scan_files io ign l n).
Proof.
  revert n. induction l as [|[p [d|e]] l IH]; intros n; simpl; [apply on_files_ret|..]; destruct (ign p); auto using on_files_fail.
  apply on_files_bind; [apply store_blob_step|intros _]. apply on_files_bind; [apply on_files_modify; intros; apply vault_push_step|intros _].
  apply on_files_bind; [apply on_files_modify; intros; apply upsert_file_step|intros _]. apply IH.
Qed.

Lemma push_entries_step io l v : file_step v (foldl (push_entry io) v l).
Proof.
  revert v. induction l as [|e l IH]; intros v; simpl; [done|]. etrans; [|apply IH].
  unfold push_entry. destruct (blob_load _ _ _); [apply vault_push_step|done].
Qed.

Lemma materialize_step io v : file_step v (materialize_user_outer_head io v).1.
Proof.
  unfold materialize_user_outer_head. destruct (my_head v) as [ps|]; [|done]. generalize 0%nat. generalize (index_iter (head_index ps)).
  intros l. revert v. induction l as [|e l IH]; intros v n; simpl; [done|]. destruct (blob_load _ _ _); [|apply IH].
  destruct (io_write io e.1); (etrans; [apply set_disk_step|apply IH]).
Qed.

(** Writing a file that succeeds puts its content on disk, in the store and in
    the local index. *)
Lemma write_file_ok io p d v v' : write_file_content io p d v = (v', Ok tt) →
  sv_disk v' = <[p := d]> (sv_disk v) ∧
  vfd_files (sv_local v') !! p = Some (vault_file_new (io_now io) p (blake3 d) (Z.of_nat (length d)) (sv_user v)) ∧
  is_Some (blob_at (sv_blobs v') (blake3 d)).
Proof.
  unfold write_file_content, modify, fail, vault_store_blob, mbind, M_bind, mret, M_ret. simpl.
  destruct (io_mkdir io p); [done|]. destruct (io_write io p); [done|]. simpl.
  destruct (blob_store _ _ _) as [b r] eqn:Hb. destruct (blob_store_at _ _ _ _ _ Hb) as (_ & Hok & _).
  destruct r as [c|]; [|done]. intros [= <-]. simpl. split_and!; [done|by rewrite lookup_insert_eq|].
  by apply Hok.
Qed.

(** Materialising an index that succeeds leaves every file of it on disk, with
    content of the hash the index names, and touches no other file. *)
Lemma apply_entries_ok io l v v' : blobs_ok (sv_blobs v) → NoDup l.*1 → apply_entries io l v = (v', Ok tt) →
  (∀ p a, (p, a) ∈ l → ∃ d, sv_disk v' !! p = Some d ∧ blake3 d = ca_hash a) ∧
  (∀ p, p ∉ l.*1 → sv_disk v' !! p = sv_disk v !! p).
Proof.
  revert v. induction l as [|[p a] l IH]; intros v Hv Hn; simpl.
  { intros [= <-]. split; [by intros ?? ?%not_elem_of_nil|done]. }
  apply NoDup_cons in Hn as [Hp Hn]. pose proof (fetch_step io (ref_of_addr a) v) as Hfs.
  unfold mbind, M_bind. destruct (vault_fetch io (ref_of_addr a) v) as [v1 r1] eqn:Hf.
  unfold vault_fetch in Hf. destruct (fetch_blob _ _ _ _) as [[r b] d] eqn:Hfb. injection Hf as <- <-. destruct d as [d|]; [|done].
  apply fetch_blob_ok in Hfb as [_ Hh]; [|done]. simpl in Hfs.
  set (v1 := set_sv_relay r (set_sv_blobs b v)) in *.
  pose proof (write_file_step io p d v1) as Hws. destruct (write_file_content io p d v1) as [v2 [[]|]] eqn:Hw; [|done].
  apply write_file_ok in Hw as (Hdisk & _). simpl in *. intros Happ. apply IH in Happ as [Hin Hout]; [|by apply Hws, Hfs|done]. split.
  - intros q x [[= -> ->]|Hq]%elem_of_cons; [|by apply Hin]. exists d. split; [|done]. rewrite Hout, Hdisk by done. apply lookup_insert_eq.
  - intros q [Hne Hq]%not_elem_of_cons. rewrite Hout, Hdisk, lookup_insert_ne; done.
Qed.

Lemma materialize_index_step io l : on_files (materialize_index io l).
Proof.
  induction l as [|[p a] l IH]; simpl; [apply on_files_ret|]. apply on_files_bind; [apply fetch_step|].
  intros [d|e]; [|apply on_files_fail]. repeat (apply on_files_bind; [|intros ?]); [..|done].
  - destruct (io_mkdir io p); [apply on_files_fail|apply on_files_ret].
  - apply on_files_modify. intros. by apply on_watcher_step.
  - destruct (io_write io p); [apply failed_write_step|apply on_files_modify; intros; apply set_disk_step].
  - apply on_files_modify. intros. by apply on_watcher_step.
Qed.

(** ** Commits *)

Lemma update_dag_eq io f v v' r : update_dag io f v = (v', r) →
  ∃ d, v' = set_sv_dag d v ∧ d_state d = f (outer v).
Proof.
  unfold update_dag, doc_update, commit, persist. destruct (change_message _ _ _); [|intros [= <- <-]; eauto].
  destruct (encode_state _); [|intros [= <- <-]; eauto]. destruct (io_doc io); intros [= <- <-]; eauto.
Qed.

(** A commit moves the user's head in memory even when it then cannot be encoded
    or stored. *)
Lemma commit_outer_eq io c v v' r : commit_outer io c v = (v', r) →
  ∃ d, v' = set_sv_dag d v ∧ d_state d = dag_commit c (sv_user v) (cs_index c) (io_now io) (outer v) ∧
    ∀ id, r = Ok id → id = cs_id c.
Proof.
  unfold commit_outer, mbind, M_bind, mret, M_ret. destruct (update_dag _ _ v) as [v1 r1] eqn:Hu.
  apply update_dag_eq in Hu as (d & -> & Hd). destruct r1; intros [= <- <-]; exists d; (split_and!; [done..|]); [|done].
  by intros id [= <-].
Qed.

(** ** The invariant *)

(** The outer braid is in order where [checked] holds: what peers publish is
    merged as it comes. *)
Record vault_kept (checked : Prop) v : Prop := {
  vo_outer : checked → braid_ok (outer v);
  vo_inner : braid_ok (ab_dag (sv_inner v));
  vo_user : ab_user (sv_inner v) = sv_user v;
  vo_blobs : blobs_ok (sv_blobs v);
  vo_local : vfd_ok (sv_local v);
}.

Definition vault_ok v : Prop := vault_kept True v.

Lemma vault_ok_kept v checked : vault_ok v → vault_kept checked v.
Proof. intros []. split; auto. Qed.

(** A vault that is kept and grew out of [v0]. *)
Record grown (checked : Prop) v0 v : Prop := {
  gr_ok : vault_kept checked v;
  gr_blobs : blobs_grow (sv_blobs v0) (sv_blobs v);
  gr_user : sv_user v = sv_user v0;
}.

Lemma grown_refl checked v : vault_kept checked v → grown checked v v.
Proof. by split. Qed.

Section Grown.
Context (checked : Prop) (v0 : SyncVault I).

Lemma file_step_ok v v' : file_step v v' → grown checked v0 v → grown checked v0 v'.
Proof.
  intros [Hu _ Hd Hi _ _ [Hb Hk] Hl] [[Ho Hin Hus Hbl Hlo] Hg Huser]. split.
  - split; unfold outer in *; rewrite ?Hu, ?Hd, ?Hi; auto.
  - etrans; [exact Hg|by split].
  - congruence.
Qed.

Lemma set_watcher_ok w v : grown checked v0 v → grown checked v0 (set_sv_watcher w v).
Proof. by intros [[] ??]; split; [split|..]. Qed.

Lemma set_trust_ok t v : grown checked v0 v → grown checked v0 (set_sv_trust t v).
Proof. by intros [[] ??]; split; [split|..]. Qed.

Lemma set_blobs_ok b v : blobs_grow (sv_blobs v) b → grown checked v0 v → grown checked v0 (set_sv_blobs b v).
Proof. intros [Hb Hk] [[] Hg ?]. split; [split|..]; try done; [by apply Hb|]. etrans; [exact Hg|by split]. Qed.

Lemma set_dag_ok d v : grown checked v0 v → (checked → braid_ok (d_state d)) → grown checked v0 (set_sv_dag d v).
Proof. by intros [[] ??] ?; split; [split|..]. Qed.

Lemma set_inner_ok x v : grown checked v0 v → braid_ok (ab_dag x) → ab_user x = sv_user v → grown checked v0 (set_sv_inner x v).
Proof. by intros [[] ??] ??; split; [split|..]. Qed.

Lemma commit_outer_ok io c v : grown checked v0 v → changeset_ok c → grown checked v0 (commit_outer io c v).1.
Proof.
  intros Hv Hc. destruct (commit_outer io c v) as [v' r] eqn:He. apply commit_outer_eq in He as (d & -> & Hd & _).
  apply set_dag_ok; [done|]. intros Hk. rewrite Hd. apply dag_commit_ok; [|done]. by apply (vo_outer _ _ (gr_ok _ _ _ Hv)).
Qed.

(** The state that a monadic operation leaves, in two steps. *)
Lemma bind_ok {A B} (P : SyncVault I → Prop) (m : M (SyncVault I) IndraError A) (k : A → M (SyncVault I) IndraError B) v :
  P (m v).1 → (∀ a v', P v' → P (k a v').1) → P ((m ≫= k) v).1.
Proof. unfold mbind, M_bind. destruct (m v) as [v' [a|e]]; simpl; auto. Qed.

Lemma sync_ok io m msg v : grown checked v0 v → grown checked v0 (sync io m msg v).1.
Proof.
  intros Hv. unfold sync. destruct (match sv_watcher v with Some _ => _ | None => _ end) as [w dirty].
  assert (Hw : grown checked v0 (set_sv_watcher w v)) by (auto using set_watcher_ok, set_trust_ok).
  case_bool_decide; [done|]. case_bool_decide; [done|].
  set (v1 := match sv_relay _ with Some _ => _ | None => _ end).
  assert (Hv1 : grown checked v0 v1).
  { unfold v1. destruct (sv_relay _); [|done]. eapply file_step_ok; [apply push_entries_step|done]. }
  destruct (commit_parents v1) as [ps pi]. by apply commit_outer_ok.
Qed.

Lemma merge_from_peer_ok io u v : grown checked v0 v → grown checked v0 (merge_from_peer io u v).1.
Proof.
  intros Hv. unfold merge_from_peer. destruct (peer_head u (outer v)) as [ps|]; [|done].
  apply bind_ok; [by apply commit_outer_ok|]. intros _ v1 Hv1.
  apply bind_ok; [by eapply file_step_ok; [apply apply_entries_step|]|]. intros _ v2 Hv2.
  apply bind_ok; [by eapply file_step_ok; [apply drop_missing_step|]|]. done.
Qed.

Lemma set_peer_trust_ok io u t v : grown checked v0 v → grown checked v0 (set_peer_trust io u t v).
Proof.
  intros Hv. unfold set_peer_trust. assert (Ht : grown checked v0 (set_sv_trust (set_trust u t (sv_trust v)) v)) by (auto using set_watcher_ok, set_trust_ok).
  destruct t; [|done]. case_match; [|done]. by apply merge_from_peer_ok.
Qed.

Lemma merge_trusted_ok ios n l v : grown checked v0 v → grown checked v0 (merge_trusted ios n l v).1.
Proof.
  revert v n. induction l as [|[u ps] l IH]; intros v n Hv; simpl; [done|]. destruct (is_peer_trusted u v); [|by apply IH].
  pose proof (merge_from_peer_ok (ios n) u v Hv) as Hm. destruct (merge_from_peer _ _ _) as [v1 [id|e]]; simpl in Hm; [|by apply IH].
  specialize (IH v1 (S n) Hm). by destruct (merge_trusted _ _ _ _).
Qed.

Lemma auto_merge_ok ios v : grown checked v0 v → grown checked v0 (auto_merge_trusted ios v).1.
Proof. apply merge_trusted_ok. Qed.

Lemma rollup_inner_ok (b : AgentBraid) : braid_ok (ab_dag b) → braid_ok (ab_dag (rollup_to_user_head b).1) ∧ ab_user (rollup_to_user_head b).1 = ab_user b.
Proof.
  intros Hb. destruct (user_head b) as [us|] eqn:Hu.
  - pose proof (rollup_to_user_head_ok b us Hb Hu) as Hr. destruct (rollup_to_user_head b). naive_solver.
  - unfold rollup_to_user_head. by rewrite Hu.
Qed.

Lemma promote_ok io m v : grown checked v0 v → grown checked v0 (promote io m v).1.
Proof.
  intros Hv. unfold promote. destruct (user_head (sv_inner v)) as [h|]; [|done].
  apply bind_ok; [by apply commit_outer_ok|]. intros id v1 Hv1. apply bind_ok; [|done].
  destruct (rollup_inner_ok (sv_inner v1)) as [Hb Hu]; [apply Hv1|]. apply set_inner_ok; [done..|].
  rewrite Hu. apply Hv1.
Qed.

Lemma land_ok io a m i ev v : grown checked v0 v → grown checked v0 (vault_agent_land io a m i ev v).1.
Proof.
  intros Hv. unfold vault_agent_land. pose proof (agent_land_spec (io_now io) a m i ev (sv_inner v) (vo_inner _ _ (gr_ok _ _ _ Hv))) as Hl.
  destruct (agent_land _ _ _ _ _ _) as [b id]. destruct Hl as (Hb & Hu & _). apply set_inner_ok; [done..|].
  rewrite Hu. apply Hv.
Qed.

Lemma merge_agent_inner_ok now a (b : AgentBraid) : braid_ok (ab_dag b) →
  braid_ok (ab_dag (merge_agent now a b).1) ∧ ab_user (merge_agent now a b).1 = ab_user b.
Proof.
  intros Hb. destruct (merge_agent now a b) as [b' r] eqn:Hm. apply merge_agent_spec in Hm; [|done].
  destruct (agent_head b a); [|by destruct Hm as [-> _]]. destruct Hm as (m & _ & ? & ? & _). done.
Qed.

Lemma sync_agents_ok ios n l (b : AgentBraid) : braid_ok (ab_dag b) →
  braid_ok (ab_dag (sync_agents ios n l b).1.1) ∧ ab_user (sync_agents ios n l b).1.1 = ab_user b.
Proof.
  revert n b. induction l as [|a l IH]; intros n b Hb; simpl; [done|].
  destruct (merge_agent_inner_ok (io_now (ios n)) a b Hb) as [Hb' Hu]. destruct (merge_agent _ _ _) as [b' [r|]]; simpl in *;
    destruct (IH (S n) b' Hb') as [Hb'' Hu']; destruct (sync_agents _ _ _ _) as [[b2 ms] cs]; simpl in *; (split; [done|congruence]).
Qed.

Lemma sync_all_ok ios io m team v : grown checked v0 v → grown checked v0 (sync_all ios io m team v).1.
Proof.
  intros Hv. unfold sync_all. destruct (sync_agents_ok ios 0 (agent_forks team (sv_inner v)).*1 (sv_inner v) (vo_inner _ _ (gr_ok _ _ _ Hv))) as [Hb Hu].
  destruct (sync_agents _ _ _ _) as [[b ms] cs]. simpl in Hb, Hu.
  assert (Hv1 : grown checked v0 (set_sv_inner b v)) by (apply set_inner_ok; [done..|]; rewrite Hu; apply Hv).
  generalize dependent (set_sv_inner b v). intros v1 Hv1.
  assert (Hv2 : grown checked v0 (if needs_promote v1 then (id ← promote io m; mret (Some id)) v1 else (v1, Ok None)).1).
  { destruct (needs_promote v1); [|done]. apply bind_ok; [by apply promote_ok|done]. }
  destruct (if needs_promote v1 then _ else _) as [v2 [p|]]; [|done]. simpl in Hv2.
  pose proof (auto_merge_ok ios v2 Hv2) as Hv3. destruct (auto_merge_trusted ios v2) as [v3 l]. simpl in Hv3.
  pose proof (file_step_ok _ _ (materialize_step io v3) Hv3) as Hv4. by destruct (materialize_user_outer_head io v3).
Qed.

Lemma watch_event_ok io root rd v e : grown checked v0 v → grown checked v0 (watch_event io root rd v e).
Proof.
  intros Hv. unfold watch_event. destruct (sv_watcher v) as [w|]; [|done]. destruct e as [p k].
  destruct (should_ignore _ _); [done|]. destruct (is_suppressed _ _ _) as [w' sup].
  assert (Hv1 : grown checked v0 (set_sv_watcher (Some w') v)) by (auto using set_watcher_ok, set_trust_ok). destruct sup; [done|].
  assert (Hset : ∀ w v', grown checked v0 v' → grown checked v0 (set_sv_watcher w v')) by (intros; by apply set_watcher_ok).
  assert (Hread : grown checked v0 match rd p with
    | Ok data => if bool_decide (w_known w' !! p = Some (blake3 data)) then set_sv_watcher (Some w') v
        else match blob_store (io_store io data) data (sv_blobs (set_sv_watcher (Some w') v)) with
             | (b, Ok _) => set_sv_watcher (Some (mark_dirty p (record_hash p (blake3 data) w')))
                 (upsert_file io p (blake3 data) (Z.of_nat (length data)) (sv_user (set_sv_watcher (Some w') v))
                    (set_sv_blobs b (set_sv_watcher (Some w') v)))
             | (b, Err _) => set_sv_blobs b (set_sv_watcher (Some w') v)
             end
    | Err _ => set_sv_watcher (Some w') v
    end).
  { destruct (rd p) as [d|]; [|done]. case_bool_decide; [done|]. pose proof (blob_store_grows (io_store io d) d (sv_blobs v)) as Hg.
    cbn [sv_blobs set_sv_watcher]. destruct (blob_store _ _ _) as [b [c|]]; simpl in Hg.
    - apply Hset. eapply file_step_ok; [apply upsert_file_step|]. by apply set_blobs_ok.
    - by apply set_blobs_ok. }
  destruct k; try done. apply Hset. by eapply file_step_ok; [apply delete_file_step|].
Qed.

Lemma follow_head_ok io d seen v e : grown checked v0 v → grown checked v0 (follow_head io d seen v e).
Proof.
  intros Hv. unfold follow_head. destruct e as [u ps]. case_bool_decide; [done|]. case_bool_decide; [done|].
  destruct (is_trusted _ _); [|done]. apply commit_outer_ok; [|done]. by eapply file_step_ok; [apply materialize_index_step|].
Qed.

End Grown.

Lemma gc_blobs_ok checked io v : vault_kept checked v → vault_kept checked (gc_blobs io v).1.
Proof.
  intros Hv. unfold gc_blobs. destruct (blob_gc _ _ _ _) as [b r] eqn:Hg.
  apply blob_gc_spec in Hg as [Hb _]; [|apply Hv]. by destruct Hv; split.
Qed.

Lemma dag_merge_ok x y : braid_ok x → braid_ok y → braid_ok (dag_merge x y).
Proof.
  intros Hx Hy. split.
  - intros id c. rewrite dag_merge_changesets. destruct (changesets x !! id) eqn:E; intros Hc; simplify_eq;
      [by apply (bo_stored _ Hx)|by apply (bo_stored _ Hy)].
  - intros u ps. rewrite dag_merge_heads, dag_merge_changesets. intros Hp.
    assert (peer_heads x !! u = Some ps ∨ peer_heads y !! u = Some ps) as [Hu|Hu].
    { destruct (peer_heads x !! u), (peer_heads y !! u); simpl in Hp; try case_match; naive_solver. }
    + destruct (bo_head _ Hx _ _ Hu) as [[c ->] Hid]. eauto.
    + destruct (bo_head _ Hy _ _ Hu) as [[c Hc] Hid]. split; [|done]. destruct (changesets x !! head ps); eauto.
Qed.

(** ** Runs *)

(** Everything that can happen to a vault.  A braid that arrives from a peer is
    merged unchecked; [arrives] says which ones do. *)
Inductive vault_step (arrives : BraidDag → Prop) v : SyncVault I → Prop :=
| VsScan io ign l : vault_step arrives v (initial_scan io ign l v).1
| VsWrite io p d : vault_step arrives v (write_file_content io p d v).1
| VsDelete io p : vault_step arrives v (delete_file_content io p v).1
| VsCheckout io id : vault_step arrives v (checkout io id v).1
| VsApply io i : vault_step arrives v (apply_index io i v).1
| VsWatch io root rd e : vault_step arrives v (watch_event io root rd v e)
| VsSync io m msg : vault_step arrives v (sync io m msg v).1
| VsTrust io u t : vault_step arrives v (set_peer_trust io u t v)
| VsMergePeer io u : vault_step arrives v (merge_from_peer io u v).1
| VsAutoMerge ios : vault_step arrives v (auto_merge_trusted ios v).1
| VsFollow io d seen e : vault_step arrives v (follow_head io d seen v e)
| VsRemote d : arrives d → vault_step arrives v (set_sv_dag (set_d_state (dag_merge (outer v) d) (sv_dag v)) v)
| VsLand io a m i ev : vault_step arrives v (vault_agent_land io a m i ev v).1
| VsMergeAgent io a : vault_step arrives v (vault_merge_agent io a v).1
| VsPromote io m : vault_step arrives v (promote io m v).1
| VsSyncAll ios io m team : vault_step arrives v (sync_all ios io m team v).1
| VsGc io : vault_step arrives v (gc_blobs io v).1.

Lemma vault_step_grown arrives v v' : let checked := ∀ d, arrives d → braid_ok d in
  vault_step arrives v v' → vault_kept checked v → grown checked v v' ∨ ∃ io, v' = (gc_blobs io v).1.
Proof.
  intros checked Hs Hv. pose proof (grown_refl checked v Hv) as Hg.
  destruct Hs; try (right; by eexists); left.
  - eapply file_step_ok; [apply scan_files_step|done].
  - eapply file_step_ok; [apply write_file_step|done].
  - eapply file_step_ok; [apply delete_content_step|done].
  - eapply file_step_ok; [apply checkout_step|done].
  - eapply file_step_ok; [apply apply_entries_step|done].
  - by apply watch_event_ok.
  - by apply sync_ok.
  - by apply set_peer_trust_ok.
  - by apply merge_from_peer_ok.
  - by apply auto_merge_ok.
  - by apply follow_head_ok.
  - apply set_dag_ok; [done|]. intros Hk. apply dag_merge_ok; [by apply (vo_outer _ _ Hv)|]. by apply Hk.
  - by apply land_ok.
  - unfold vault_merge_agent. destruct (merge_agent_inner_ok (io_now io) a (sv_inner v) (vo_inner _ _ Hv)) as [Hb Hu].
    destruct (merge_agent _ _ _) as [b r]. apply set_inner_ok; [done..|]. simpl in Hu. rewrite Hu. apply Hv.
  - by apply promote_ok.
  - by apply sync_all_ok.
Qed.

Lemma vault_step_kept arrives v v' : let checked := ∀ d, arrives d → braid_ok d in
  vault_kept checked v → vault_step arrives v v' → vault_kept checked v'.
Proof.
  intros checked Hv Hs. destruct (vault_step_grown _ _ _ Hs Hv) as [Hg|[io ->]]; [apply Hg|by apply gc_blobs_ok].
Qed.

(** An address that something in the outer or the inner braid refers to. *)
Definition referenced v (a : ContentAddr) : Prop :=
  a ∈ all_referenced_addrs (outer v) ∪ ab_referenced_addrs (sv_inner v).

(** C13. In every run of a vault - files written, watched, scanned and checked out,
    commits, merges from peers and agents, promotions, garbage collection, any
    braids merged from peers, with any failure of disk, database or network -
    the braid of the agents stays in order (every head is a stored changeset
    whose identifier commits to the index kept beside it), the blob store holds
    only blobs that have their name's hash, and a step never loses a blob that a
    changeset or a head refers to.  The outer braid, which takes what peers
    publish without checking it, stays in order while what arrives is. *)
Theorem vault_run_safe arrives v v' v'' h d :
  vault_ok v → rtc (vault_step arrives) v v' → vault_step arrives v' v'' →
  braid_ok (ab_dag (sv_inner v'')) ∧ blobs_ok (sv_blobs v'') ∧
  ((∀ x, arrives x → braid_ok x) → braid_ok (outer v'')) ∧
  (blob_at (sv_blobs v') h = Some d → referenced v' {| ca_hash := h; ca_size := Z.of_nat (length d) |} →
   blob_at (sv_blobs v'') h = Some d).
Proof.
  intros Hv Hr Hs. set (checked := ∀ x, arrives x → braid_ok x).
  assert (Hv' : vault_kept checked v').
  { apply (vault_ok_kept _ checked) in Hv. clear Hs. induction Hr as [|x y z Hxy _ IH]; [done|]. apply IH. by eapply vault_step_kept. }
  destruct (vault_step_kept _ _ _ Hv' Hs) as [Ho Hi _ Hb _]. split; [done|]. split; [done|]. split; [exact Ho|].
  intros Hd Href. destruct (vault_step_grown _ _ _ Hs Hv') as [Hg|[io ->]].
  - by apply (gr_blobs _ _ _ Hg).
  - unfold gc_blobs. destruct (blob_gc _ _ _ _) as [b r] eqn:Hg. apply blob_gc_spec in Hg as (_ & Hk & _); [|apply Hv'].
    simpl. apply Hk. split; [|done]. unfold gc_keep. apply bool_decide_eq_true. unfold addr_of_ref. simpl.
    rewrite (blob_at_hash _ _ _ (vo_blobs _ _ Hv') Hd). exact Href.
Qed.

(** ** Synchronising *)

Definition addr_of_file (f : VaultFile) : ContentAddr := {| ca_hash := vf_hash f; ca_size := vf_size f |}.

(** A snapshot is exactly the active files. *)
Lemma snapshot_index_lookup (d : VaultFileDocument) p : vfd_ok d →
  entries (snapshot_index d) !! p = f ← vfd_files d !! p; if vf_deleted f then None else Some (addr_of_file f).
Proof.
  intros Hd. unfold snapshot_index.
  assert (Hl : ∀ l i, (∀ f, f ∈ l → vf_deleted f = false) → (∀ f g, f ∈ l → g ∈ l → vf_path f = vf_path g → f = g) →
    entries (foldl (λ i f, if negb (vf_deleted f) then index_set (vf_path f) {| ca_hash := vf_hash f; ca_size := vf_size f |} i else i) i l) !! p
    = match find_first (λ f, bool_decide (vf_path f = p)) l with Some f => Some (addr_of_file f) | None => entries i !! p end).
  { induction l as [|f l IH]; intros i Hdel Hinj; simpl; [done|]. rewrite (Hdel f) by (by left). simpl. rewrite IH.
    - unfold index_set. simpl. case_bool_decide as Hp.
      + subst p. destruct (find_first _ l) as [g|] eqn:Hg.
        * apply find_first_Some in Hg as (Hin & Hpg). apply bool_decide_eq_true in Hpg.
          f_equal. rewrite (Hinj f g); [done|by left|by right|done].
        * by rewrite lookup_insert_eq.
      + destruct (find_first _ l); [done|]. by rewrite lookup_insert_ne.
    - intros g Hg. apply Hdel. by right.
    - intros g k Hg Hk. apply Hinj; by right. }
  rewrite Hl.
  - simpl. rewrite lookup_empty. destruct (find_first _ _) as [f|] eqn:Hf.
    + apply find_first_Some in Hf as [[Hin Hdel]%elem_active_files Hp%bool_decide_eq_true]; [|done]. subst p. rewrite Hin. simpl. by rewrite Hdel.
    + destruct (vfd_files d !! p) as [f|] eqn:Hp; [|done]. simpl. destruct (vf_deleted f) eqn:Hdel; [done|].
      rewrite find_first_None in Hf. pose proof (Hd _ _ Hp) as Hpath. simpl in Hpath.
      assert (Hin : f ∈ active_files d) by (apply elem_active_files; [done|]; by rewrite Hpath).
      apply Hf in Hin. by rewrite bool_decide_true in Hin.
  - intros f Hf. apply elem_active_files in Hf as [_ ?]; done.
  - intros f g Hf Hg Hfg. apply elem_active_files in Hf as [Hf _], Hg as [Hg _]; try done. rewrite Hfg in Hf. congruence.
Qed.

Definition dirty_set v : gset string := match sv_watcher v with Some w => w_dirty w | None => ∅ end.

(** Synchronising does nothing without a dirty path.  With one it clears them,
    and commits a signed changeset whose index is exactly the active files on
    top of the user's head (or of the heads of the braid), moving only the user's
    head and losing no changeset; without active files it fails. *)
Theorem sync_spec io m msg v v' r :
  vault_ok v → sync io m msg v = (v', r) →
  let snap := snapshot_index (sv_local v) in
  if bool_decide (dirty_set v = ∅) then r = Err (IeIo "nothing to sync") ∧ sv_dag v' = sv_dag v
  else dirty_set v' = ∅ ∧
    if bool_decide (entries snap = ∅) then r = Err (IeIo "no active files to sync") ∧ sv_dag v' = sv_dag v
    else ∃ c,
      cs_author c = sv_user v ∧ cs_index c = snap ∧ parents c ≡ₚ (commit_parents v).1 ∧
      index_apply (default index_new (commit_parents v).2) (delta c) = snap ∧
      my_head v' = Some {| head := cs_id c; head_index := snap; updated_ms := io_now io |} ∧
      is_Some (dag_get (cs_id c) (outer v')) ∧
      (∀ u, u ≠ sv_user v → peer_head u (outer v') = peer_head u (outer v)) ∧
      (∀ x y, dag_get x (outer v) = Some y → dag_get x (outer v') = Some y) ∧
      (∀ id, r = Ok id → id = cs_id c).
Proof.
  intros Hv. unfold sync, dirty_set. destruct (sv_watcher v) as [w|] eqn:Hw.
  2:{ simpl. intros [= <- <-]. by rewrite bool_decide_true. }
  simpl. case_bool_decide as Hd.
  { intros [= <- <-]. apply elements_empty_inv, leibniz_equiv_iff in Hd. by rewrite bool_decide_true. }
  rewrite (bool_decide_false (w_dirty w = ∅)) by (by intros He; apply Hd; rewrite He, elements_empty).
  cbn [sv_local set_sv_watcher sv_relay]. case_bool_decide as Hs; [by intros [= <- <-]|].
  set (v1 := match sv_relay v with Some _ => _ | None => _ end).
  assert (Hv1 : file_step (set_sv_watcher (Some (take_dirty w).1) v) v1).
  { unfold v1. destruct (sv_relay v); [apply push_entries_step|done]. }
  assert (Hcp : commit_parents v1 = commit_parents v).
  { unfold commit_parents, my_head, outer. by rewrite (fs_user _ _ Hv1), (fs_dag _ _ Hv1). }
  rewrite Hcp. destruct (commit_parents v) as [ps pi] eqn:Hpp.
  intros Hc. apply commit_outer_eq in Hc as (d & -> & Hst & Hid).
  split; [simpl; pose proof (fs_dirty _ _ Hv1) as Hdir; simpl in Hdir; destruct (sv_watcher v1); simpl in *; by simplify_eq|].
  rewrite (fs_user _ _ Hv1), (fs_identity _ _ Hv1) in Hst, Hid. simpl in Hst, Hid.
  replace (outer v1) with (outer v) in Hst by (unfold outer; by rewrite (fs_dag _ _ Hv1)).
  exists (changeset_with_index (sv_user v) ps m (snapshot_index (sv_local v)) pi
    (evidence_human (sv_user v) msg (io_now io)) (io_now io) (sv_identity v)).
  split_and!; try done.
  - cbn [parents changeset_with_index fst]. apply (sort_by_perm arr32_leb).
  - apply compute_delta_apply.
  - unfold my_head, outer. simpl. rewrite (fs_user _ _ Hv1), Hst. simpl. by rewrite dag_commit_head, bool_decide_true.
  - unfold outer. simpl. rewrite Hst. apply dag_commit_stored.
  - intros u Hu. unfold outer. simpl. rewrite Hst. by rewrite dag_commit_head, bool_decide_false.
  - intros x y Hx. unfold outer. simpl. rewrite Hst. by apply dag_commit_keeps.
Qed.

(** ** Merging from peers *)

Lemma merge_snapshots_lookup theirs mine p :
  entries (merge_snapshots theirs mine) !! p =
    match entries theirs !! p with Some a => Some a | None => entries mine !! p end.
Proof.
  unfold merge_snapshots.
  assert (Hl : ∀ l t, NoDup l.*1 → entries (foldl (λ m e, match index_get m e.1 with None => index_set e.1 e.2 m | Some _ => m end) t l) !! p
    = match entries t !! p with Some a => Some a | None => snd <$> find_first (λ e, bool_decide (e.1 = p)) l end).
  { induction l as [|[q a] l IH]; intros t Hn; simpl; [by destruct (entries t !! p)|]. apply NoDup_cons in Hn as [Hq Hn].
    rewrite IH by done. unfold index_get. case_bool_decide as Hp; simpl.
    - subst q. destruct (entries t !! p) as [x|] eqn:Ht; [by rewrite Ht|]. simpl. by rewrite lookup_insert_eq.
    - destruct (entries t !! q); [done|]. simpl. by rewrite lookup_insert_ne. }
  rewrite Hl by apply NoDup_index_paths. destruct (entries theirs !! p); [done|].
  rewrite find_entry. by destruct (entries mine !! p).
Qed.

(** The state between the commit of a merge and the writing of its files. *)
Lemma merge_from_peer_eq io u ps v v' r : peer_head u (outer v) = Some ps → merge_from_peer io u v = (v', r) →
  let c := peer_merge_changeset io u ps v in
  sv_user v' = sv_user v ∧ sv_trust v' = sv_trust v ∧ sv_inner v' = sv_inner v ∧
  outer v' = dag_commit c (sv_user v) (cs_index c) (io_now io) (outer v) ∧
  (vault_ok v → ∀ id, r = Ok id → id = cs_id c ∧
    (∀ p a, entries (cs_index c) !! p = Some a → ∃ d, sv_disk v' !! p = Some d ∧ blake3 d = ca_hash a) ∧
    (∀ p, entries (cs_index c) !! p = None → sv_disk v' !! p = sv_disk v !! p)).
Proof.
  intros Hu. unfold merge_from_peer. rewrite Hu. set (c := peer_merge_changeset io u ps v).
  unfold mbind, M_bind. destruct (commit_outer io c v) as [v1 r1] eqn:Hc.
  apply commit_outer_eq in Hc as (d & -> & Hd & _). destruct r1 as [id1|]; [|intros [= <- <-]; done].
  pose proof (apply_entries_step io (index_iter (cs_index c)) (set_sv_dag d v)) as Hs.
  unfold apply_index. destruct (apply_entries io _ (set_sv_dag d v)) as [v2 r2] eqn:Ha. simpl in Hs.
  assert (Hdrop : ∀ l v, (∀ e, e ∈ l → index_get (cs_index c) e.1 ≠ None) → drop_missing io (cs_index c) l v = (v, Ok tt)).
  { induction l as [|[q a] l IH]; intros v3 Hl; [done|]. simpl. rewrite bool_decide_false by exact (Hl (q, a) (list_elem_of_here _ _)).
    apply IH. intros e He. apply Hl. by right. }
  destruct r2 as [[]|]; [rewrite Hdrop|].
  - intros [= <- <-]. simpl. split_and!; try apply Hs.
    { unfold outer. by rewrite (fs_dag _ _ Hs). }
    intros Hv id [= <-]. split; [done|]. apply apply_entries_ok in Ha as [Hin Hout]; [|apply Hv|apply NoDup_index_paths]. split.
    + intros p a Hp. apply (Hin p a), elem_of_index_iter, Hp.
    + intros p Hp. apply Hout. intros Hin'. change (p ∈ index_paths (merge_snapshots (head_index ps) (my_index v))) in Hin'.
      apply elem_of_index_paths in Hin' as [a Ha]. congruence.
  - intros [q a] He. unfold index_get, c, peer_merge_changeset. simpl. rewrite merge_snapshots_lookup.
    apply elem_of_index_iter in He. rewrite He. by destruct (entries (head_index ps) !! q).
  - intros [= <- <-]. split_and!; try apply Hs; [unfold outer; by rewrite (fs_dag _ _ Hs)|done].
Qed.

Lemma my_index_commit c (now : Z) v v' : sv_user v' = sv_user v →
  outer v' = dag_commit c (sv_user v) (cs_index c) now (outer v) → my_index v' = cs_index c.
Proof. intros Hu Ho. unfold my_index, my_head. by rewrite Hu, Ho, dag_commit_head, bool_decide_true. Qed.

(** C25. Merging a peer's head into ours: our head moves to a signed changeset on
    top of both heads, whose index has the peer's entry for every path the peer
    has and ours for the others; nobody else's head moves and no changeset is
    lost, also when the files cannot be written.  When the merge succeeds every
    path of the merged index is on disk with content of the hash it names, and no
    other file changes. *)
Theorem merge_from_peer_spec io u ps v v' r :
  vault_ok v → peer_head u (outer v) = Some ps → merge_from_peer io u v = (v', r) →
  (∀ p, entries (my_index v') !! p =
        match entries (head_index ps) !! p with Some a => Some a | None => entries (my_index v) !! p end) ∧
  (∀ w, w ≠ sv_user v → peer_head w (outer v') = peer_head w (outer v)) ∧
  (∀ x y, dag_get x (outer v) = Some y → dag_get x (outer v') = Some y) ∧
  (∃ h, my_head v' = Some h ∧ (dag_get (head h) (outer v) = None →
     edge (outer v') (head h) (head ps) ∧ ∀ ms, my_head v = Some ms → edge (outer v') (head h) (head ms))) ∧
  ∀ id, r = Ok id →
    (∀ p a, entries (my_index v') !! p = Some a → ∃ d, sv_disk v' !! p = Some d ∧ blake3 d = ca_hash a) ∧
    (∀ p, entries (my_index v') !! p = None → sv_disk v' !! p = sv_disk v !! p).
Proof.
  intros Hv Hu Hm. apply (merge_from_peer_eq _ _ _ _ _ _ Hu) in Hm as (Huser & _ & _ & Ho & Hok).
  pose proof (my_index_commit _ _ _ _ Huser Ho) as Hi. rewrite Hi. split_and!.
  - intros p. apply merge_snapshots_lookup.
  - intros w Hw. by rewrite Ho, dag_commit_head, bool_decide_false.
  - intros x y Hx. rewrite Ho. by apply dag_commit_keeps.
  - eexists. split; [unfold my_head; by rewrite Huser, Ho, dag_commit_head, bool_decide_true|]. simpl.
    intros Hf. rewrite Ho. split.
    + apply dag_commit_edge; [done|]. cbn [parents peer_merge_changeset changeset_with_index]. rewrite sort_by_perm. by left.
    + intros ms Hms. apply dag_commit_edge; [done|]. cbn [parents peer_merge_changeset changeset_with_index].
      rewrite sort_by_perm, Hms. right. by left.
  - intros id Hid. by destruct (Hok Hv id Hid) as (_ & Hin & Hout).
Qed.

(** A head that is merged already stays a pending fork, and merging it again
    puts its old content back over what was changed since. *)
Theorem stale_fork_wins io u ps ms p x y v v' r :
  peer_head u (outer v) = Some ps → u ≠ sv_user v → my_head v = Some ms → head ps ≠ head ms →
  tc (edge (outer v)) (head ms) (head ps) →
  entries (head_index ps) !! p = Some x → entries (my_index v) !! p = Some y → x ≠ y →
  merge_from_peer io u v = (v', r) →
  (u, ps) ∈ pending_forks v ∧ entries (my_index v') !! p = Some x.
Proof.
  intros Hu Hne Hms Hhead _ Hx _ _ Hm. split.
  - unfold pending_forks. apply elem_of_retain. split; [by apply elem_of_map_to_list|]. rewrite Hms. simpl.
    by rewrite !bool_decide_false.
  - apply (merge_from_peer_eq _ _ _ _ _ _ Hu) in Hm as (Huser & _ & _ & Ho & _).
    rewrite (my_index_commit _ _ _ _ Huser Ho). simpl. by rewrite merge_snapshots_lookup, Hx.
Qed.

(** What a peer deleted stays: a merge never takes a path away from us. *)
Theorem merge_keeps_deleted io u ps p a v v' r :
  peer_head u (outer v) = Some ps → entries (my_index v) !! p = Some a → entries (head_index ps) !! p = None →
  merge_from_peer io u v = (v', r) → entries (my_index v') !! p = Some a.
Proof.
  intros Hu Ha Hp Hm. apply (merge_from_peer_eq _ _ _ _ _ _ Hu) in Hm as (Huser & _ & _ & Ho & _).
  rewrite (my_index_commit _ _ _ _ Huser Ho). simpl. by rewrite merge_snapshots_lookup, Hp.
Qed.

(** The task that follows the braid replaces our index by the peer's: what only
    we have is gone from our head. *)
Theorem follow_replaces_index io d seen v u ps :
  u ≠ sv_user v → seen !! u ≠ Some (head ps) → is_trusted u (sv_trust v) = true →
  my_index (follow_head io d seen v (u, ps)) = head_index ps.
Proof.
  intros Hu Hs Ht. unfold follow_head. rewrite !bool_decide_false, Ht by done.
  pose proof (materialize_index_step io (index_iter (head_index ps)) v) as Hstep.
  destruct (materialize_index _ _ v) as [v1 r1]. simpl in *.
  destruct (commit_outer _ _ v1) as [v2 r2] eqn:Hc. apply commit_outer_eq in Hc as (d' & -> & Hd & _).
  by apply (my_index_commit (auto_merge_changeset io d u ps v1) (io_now io) v1).
Qed.

(** ** Promoting *)

Lemma promote_facts io m v v' r :
  vault_ok v → promote io m v = (v', r) →
  match user_head (sv_inner v) with
  | None => v' = v ∧ r = Err (IeIo "nothing to promote")
  | Some h =>
      let c := promote_changeset io m (head_index h) v in
      my_head v' = Some {| head := cs_id c; head_index := head_index h; updated_ms := io_now io |} ∧
      (∀ w, w ≠ sv_user v → peer_head w (outer v') = peer_head w (outer v)) ∧
      (∀ x y, dag_get x (outer v) = Some y → dag_get x (outer v') = Some y) ∧
      (parents c = from_option (λ o, [head o]) [] (my_head v) ∧
       index_apply (my_index v) (delta c) = head_index h ∧
       (dag_get (cs_id c) (outer v) = None → dag_get (cs_id c) (outer v') = Some c)) ∧
      match r with
      | Err _ => sv_inner v' = sv_inner v
      | Ok id => id = cs_id c ∧
          (∀ w, peer_head w (ab_dag (sv_inner v')) = if bool_decide (w = sv_user v) then Some h else None) ∧
          (∀ x y, dag_get x (ab_dag (sv_inner v')) = Some y ↔
             dag_get x (ab_dag (sv_inner v)) = Some y ∧ rtc (child (ab_dag (sv_inner v))) (head h) x)
      end
  end.
Proof.
  intros Hv. unfold promote. destruct (user_head (sv_inner v)) as [h|] eqn:Hh; [|by intros [= <- <-]].
  set (c := promote_changeset io m (head_index h) v). unfold mbind, M_bind.
  destruct (commit_outer io c v) as [v1 r1] eqn:Hc. apply commit_outer_eq in Hc as (d & -> & Hd & Hid).
  assert (Hout : ∀ (x : AgentBraid), let v2 := set_sv_inner x (set_sv_dag d v) in
      my_head v2 = Some {| head := cs_id c; head_index := head_index h; updated_ms := io_now io |} ∧
      (∀ w, w ≠ sv_user v → peer_head w (outer v2) = peer_head w (outer v)) ∧
      (∀ x y, dag_get x (outer v) = Some y → dag_get x (outer v2) = Some y) ∧
      (dag_get (cs_id c) (outer v) = None → dag_get (cs_id c) (outer v2) = Some c)).
  { intros b v2. assert (Ho : outer v2 = dag_commit c (sv_user v) (cs_index c) (io_now io) (outer v)) by exact Hd. split_and!.
    - unfold my_head. rewrite Ho. change (sv_user v2) with (sv_user v). by rewrite dag_commit_head, bool_decide_true.
    - intros w Hw. by rewrite Ho, dag_commit_head, bool_decide_false.
    - intros x y Hx. rewrite Ho. by apply dag_commit_keeps.
    - intros Hf. unfold dag_get in *. by rewrite Ho, dag_commit_lookup, Hf, bool_decide_true. }
  assert (Hpar : parents c = from_option (λ o, [head o]) [] (my_head v) ∧ index_apply (my_index v) (delta c) = head_index h).
  { pose proof (compute_delta_apply (head_index h) (head_index <$> my_head v)) as Ha.
    unfold my_index. unfold c, promote_changeset. simpl. by destruct (my_head v). }
  cbv zeta. fold c.
  destruct r1 as [id|e].
  - intros [= <- <-]. simpl. pose proof (rollup_to_user_head_ok (sv_inner v) h (vo_inner _ _ Hv) Hh) as Hr.
    destruct (rollup_to_user_head (sv_inner v)) as [b freed]. destruct Hr as (_ & _ & Hheads & Hcs & _). simpl.
    rewrite (vo_user _ _ Hv) in Hheads. destruct (Hout b) as (? & ? & ? & ?), Hpar. pose proof (Hid id eq_refl). split_and!; done.
  - intros [= <- <-]. destruct (Hout (sv_inner v)) as (? & ? & ? & ?), Hpar. split_and!; done.
Qed.

(** C12. Promoting publishes the user's inner head: the outer head becomes, with
    its identifier, a changeset with exactly the inner index on top of the old
    outer head, whose signature verifies under the user's key; it is stored
    unless its identifier is taken.  When it is stored its identifier is
    returned, the inner braid is cut back to the user's head and what builds on
    it, which stays, and the agents' heads are dropped.  Without an inner head
    nothing happens. *)
Theorem promote_spec `{!DilithiumLaws} io m v v' r :
  vault_ok v → identity_ok (sv_identity v) → promote io m v = (v', r) →
  match user_head (sv_inner v) with
  | None => v' = v ∧ r = Err (IeIo "nothing to promote")
  | Some h =>
      let c := promote_changeset io m (head_index h) v in
      my_head v' = Some {| head := cs_id c; head_index := head_index h; updated_ms := io_now io |} ∧
      (∀ w, w ≠ sv_user v → peer_head w (outer v') = peer_head w (outer v)) ∧
      (∀ x y, dag_get x (outer v) = Some y → dag_get x (outer v') = Some y) ∧
      (parents c = from_option (λ o, [head o]) [] (my_head v) ∧
       index_apply (my_index v) (delta c) = head_index h ∧
       (dag_get (cs_id c) (outer v) = None → dag_get (cs_id c) (outer v') = Some c)) ∧
      match r with
      | Err _ => sv_inner v' = sv_inner v
      | Ok id => id = cs_id c ∧
          (∀ w, peer_head w (ab_dag (sv_inner v')) = if bool_decide (w = sv_user v) then Some h else None) ∧
          (∀ x y, dag_get x (ab_dag (sv_inner v')) = Some y ↔
             dag_get x (ab_dag (sv_inner v)) = Some y ∧ rtc (child (ab_dag (sv_inner v))) (head h) x)
      end ∧
      cs_verify_signature c (pq_identity_verifying_key (sv_identity v)) = true
  end.
Proof.
  intros Hv Hi Hp. pose proof (promote_facts _ _ _ _ _ Hv Hp) as Hf. destruct (user_head (sv_inner v)) as [h|]; [|exact Hf].
  destruct Hf as (Ha & Hb & Hc & Hd & He). split_and!; try done; [apply Hd..|]. by apply pq_sign_verify.
Qed.

Lemma merge_trusted_none ios n l v : (∀ e, e ∈ l → is_peer_trusted e.1 v = false) → merge_trusted ios n l v = (v, []).
Proof.
  revert n. induction l as [|[u ps] l IH]; intros n Hl; simpl; [done|]. rewrite (Hl (u, ps) (list_elem_of_here _ _) : is_peer_trusted u v = false).
  apply IH. intros e He. apply Hl. by right.
Qed.

(** The pipeline promotes whenever the two heads differ: without new work of
    agents it puts the old inner index back, and what was merged from a peer by
    hand or synchronised by the user since is gone from our head. *)
Theorem sync_all_reverts ios io m team v v' rep h :
  vault_ok v → user_head (sv_inner v) = Some h → agent_forks team (sv_inner v) = [] →
  (∀ u, is_trusted u (sv_trust v) = false) → my_head v ≠ None → my_index v ≠ head_index h →
  sync_all ios io m team v = (v', Ok rep) →
  my_index v' = head_index h ∧ is_Some (sar_promoted rep).
Proof.
  intros Hv Hh Hf Ht Hm Hne. unfold sync_all. rewrite Hf. simpl.
  set (v1 := set_sv_inner (sv_inner v) v). assert (Hv1 : vault_ok v1) by (by destruct Hv; split).
  assert (Hn : needs_promote v1 = true).
  { unfold needs_promote. simpl. rewrite Hh. unfold my_index in Hne. change (my_head v1) with (my_head v).
    destruct (my_head v) as [o|]; [|done]. simpl in Hne. rewrite bool_decide_false; [done|]. congruence. }
  rewrite Hn. unfold mbind, M_bind. destruct (promote io m v1) as [v2 r2] eqn:Hp.
  assert (Htr : sv_trust v2 = sv_trust v).
  { unfold promote in Hp. simpl in Hp. rewrite Hh in Hp. unfold mbind, M_bind in Hp.
    destruct (commit_outer _ _ v1) as [v3 r3] eqn:Hc. apply commit_outer_eq in Hc as (d & -> & _).
    destruct r3; by injection Hp as <- _. }
  pose proof (promote_facts _ _ _ _ _ Hv1 Hp) as Hs. simpl in Hs. rewrite Hh in Hs. destruct Hs as [Hi _].
  assert (Hi' : my_index v2 = head_index h) by (unfold my_index; by rewrite Hi). clear Hi. rename Hi' into Hi.
  destruct r2 as [id|e]; [|done]. simpl. unfold auto_merge_trusted. rewrite merge_trusted_none.
  2:{ intros e _. unfold is_peer_trusted. by rewrite Htr. }
  pose proof (materialize_step io v2) as Hstep. destruct (materialize_user_outer_head io v2) as [v3 k]. simpl in Hstep.
  intros [= <- <-]. simpl. split; [|by eexists]. rewrite <- Hi. unfold my_index, my_head, outer.
  by rewrite (fs_user _ _ Hstep), (fs_dag _ _ Hstep).
Qed.

(** ** Where files and commits part *)

(** A file written through the vault is not dirty: synchronising right after says
    that there is nothing to do. *)
Theorem written_not_synced io io' p d m msg v :
  vault_ok v → dirty_set v = ∅ → (sync io' m msg (write_file_content io p d v).1).2 = Err (IeIo "nothing to sync").
Proof.
  intros Hv Hd. pose proof (write_file_step io p d v) as Hw. destruct (write_file_content io p d v) as [v1 r1]. simpl in *.
  destruct (sync io' m msg v1) as [v2 r2] eqn:Hs. apply sync_spec in Hs; [|by apply (gr_ok True v), (file_step_ok _ _ v); [|apply grown_refl]].
  assert (dirty_set v1 = ∅) as E.
  { unfold dirty_set in *. pose proof (fs_dirty _ _ Hw) as Hx. destruct (sv_watcher v), (sv_watcher v1); simpl in Hx; simplify_eq; congruence. }
  rewrite E, bool_decide_true in Hs by done. by destruct Hs as [-> _].
Qed.

(** Garbage collection removes the blob of a file that is in the local index but
    in no commit yet. *)
Theorem gc_drops_uncommitted io v p f d :
  vault_ok v → io_list io = None → (∀ c, io_delete io c = None) →
  vfd_files (sv_local v) !! p = Some f → blob_at (sv_blobs v) (vf_hash f) = Some d →
  ¬ referenced v {| ca_hash := vf_hash f; ca_size := Z.of_nat (length d) |} →
  let v' := (gc_blobs io v).1 in
  vfd_files (sv_local v') !! p = Some f ∧ blob_at (sv_blobs v') (vf_hash f) = None.
Proof.
  intros Hv Hl Hdel Hf Hd Hnr. unfold gc_blobs. destruct (blob_gc _ _ _ _) as [b r] eqn:Hg.
  apply blob_gc_spec in Hg as (_ & _ & _ & Hex); [|apply Hv]. destruct (Hex Hl Hdel) as (g & refs & _ & _ & _ & Hiff).
  simpl. split; [done|]. destruct (blob_at b (vf_hash f)) as [d'|] eqn:Hb; [|done]. exfalso.
  apply Hiff in Hb as [Hk Hd']. rewrite Hd in Hd'. injection Hd' as <-. apply Hnr.
  unfold gc_keep in Hk. apply bool_decide_eq_true in Hk. unfold addr_of_ref in Hk. simpl in Hk.
  by rewrite (blob_at_hash _ _ _ (vo_blobs _ _ Hv) Hd) in Hk.
Qed.

(** The relay's identifiers begin with random numbers: a blob stored later under
    a smaller one lies behind the cursor and is never pulled. *)
Theorem pull_skips_smaller io r s es c e :
  rb_relay r = Some s → rb_last r = Some c →
  events_after_tiered (io_relay_db io) Public (rb_interface r) (rb_last r) s = Ok es →
  sender_hash (se_event_id e) < sender_hash c → e ∉ es.
Proof.
  intros _ -> Hes Hlt Hin. unfold events_after_tiered in Hes. destruct (io_relay_db io); [done|].
  assert (Hc : ∀ l es, collect_events (Some c) l = Ok es → e ∈ es → not_after (Some c) (se_event_id e) = false).
  { induction l as [|[k x] l IH]; intros es0; simpl; [intros [= <-]; by intros ?%not_elem_of_nil|].
    destruct (postcard_parse_stored x) as [e0|]; [|done]. destruct (collect_events (Some c) l) as [es1|]; [|done]. simpl.
    intros [= <-]. specialize (IH es1 eq_refl). destruct (not_after (Some c) (se_event_id e0)) eqn:Hn; simpl in Hn; rewrite Hn; [done|].
    intros [->|He]%elem_of_cons; [done|by apply IH]. }
  specialize (Hc _ _ Hes Hin). simpl in Hc. apply orb_false_iff in Hc as [Hc _]. lia.
Qed.

(** Pushing and pulling agree on the format. *)
Lemma blob_payload_roundtrip h d : blob_of_payload (blob_payload h d) = Some d.
Proof.
  unfold blob_of_payload, blob_payload. assert (length (BLOB_MAGIC ++ arr32_bytes h) = (4 + BLOB_HEADER_SIZE)%nat) as Hlen.
  { rewrite length_app, arr32_length. done. }
  replace (length (BLOB_MAGIC ++ arr32_bytes h ++ d) <? 4 + BLOB_HEADER_SIZE)%nat with false.
  2:{ symmetry. apply Nat.ltb_ge. rewrite app_assoc, length_app, Hlen. lia. }
  replace (take 4 (BLOB_MAGIC ++ arr32_bytes h ++ d)) with BLOB_MAGIC by done.
  rewrite bool_decide_true by done. cbn [orb negb]. f_equal. rewrite app_assoc, <- Hlen. apply drop_app_length.
Qed.

(** Trust survives a restart. *)
Lemma trust_roundtrip (t : TrustStore) : trust_load (Some (trust_save t)) = t.
Proof.
  unfold trust_load, trust_save. simpl. rewrite <- fmap_reverse.
  assert (Ho : ∀ l : list (UserId * bool), omap (λ e : string * bool, b ← hex_decode e.1; a ← to_arr32 b; Some (a, e.2))
    ((λ e : UserId * bool, (hex32 e.1, e.2)) <$> l) = l).
  { induction l as [|[u x] l IH]; [done|]. csimpl. unfold hex_decode, hex32. rewrite hex_pairs_hex. csimpl.
    rewrite to_arr32_bytes. csimpl. f_equal. exact IH. }
  rewrite Ho. etransitivity; [apply list_to_map_proper; [|apply reverse_Permutation]|apply list_to_map_to_list].
  rewrite reverse_Permutation. apply NoDup_fst_map_to_list.
Qed.
End Facts.
