(* ===== verification/Mesh.v ===== *)
(** * The mesh of the simulation

    [simulation/src/types.rs] and [simulation/src/topology.rs]: the peers of the
    simulator, their queues and connections, and the topologies it builds.  A
    [PeerId] is a [char], modelled by its code point; sets and maps that the
    source iterates are iterated in ascending order.  The instant at which a
    peer's routing table is created is an argument. *)

From S2P Require Import Prelude Float Bytes Packet Prophet.

(** ** Sequencing code that may panic *)

Definition obind {A B} (m : outcome A) (k : A → outcome B) : outcome B :=
  match m with Returns a => k a | Panics => Panics end.
Notation "'let!' x := m 'in' k" := (obind m (λ x, k))
  (at level 10, x name, m at level 200, k at level 200) : indras_scope.
Notation "'let!' ' x := m 'in' k" := (obind m (λ x, k))
  (at level 10, x strict pattern, m at level 200, k at level 200) : indras_scope.

(** [Option::unwrap], and indexing. *)
Definition unwrap {A} (o : option A) : outcome A := match o with Some a => Returns a | None => Panics end.

(** A [for] loop. *)
Fixpoint for_each {A S} (f : S → A → outcome S) (l : list A) (s : S) : outcome S :=
  match l with [] => Returns s | x :: l => let! s := f s x in for_each f l s end.

(** ** Peers and packets *)

Definition sim_peer_new (c : Z) : option Z := if (65 <=? c) && (c <=? 90) then Some c else None.
Definition range_to (end_ : Z) : list Z := omap sim_peer_new (seqZ 65 (end_ - 64)).

Definition peer_as_bytes (p : Z) : list byte := [byte_of_Z p].

(** A [char] below 256 in UTF-8. *)
Definition latin_char (c : Z) : list byte :=
  if c <? 128 then [byte_of_Z c] else [byte_of_Z (192 + c / 64); byte_of_Z (128 + c mod 64)].
Definition peer_from_bytes (l : list byte) : Result Z IdentityError :=
  match l with
  | [b] => r_ok_or (sim_peer_new (byte_val b))
             (InvalidFormat ("Invalid peer ID: " +:+ string_of_list_byte (latin_char (byte_val b))))
  | _ => Err (InvalidKeyLength 1 (Z.of_nat (length l)))
  end.

Record SimPacketId : Type := { spi_source : Z; spi_sequence : Z }.
#[global] Instance SimPacketId_eq_dec : EqDecision SimPacketId.
Proof. solve_decision. Defined.

Record SealedPacket : Type := {
  sp_id : SimPacketId;
  sp_source : Z;
  sp_destination : Z;
  sp_payload : list byte;
  sp_routing_hints : gset Z;
  sp_created_at : Z;
  sp_ttl : Z;
  sp_visited : gset Z;
}.
#[global] Instance SealedPacket_eq_dec : EqDecision SealedPacket.
Proof. solve_decision. Defined.

Definition sealed_new (id : SimPacketId) (source destination : Z) (payload : list byte) (hints : gset Z) (tick : Z) : SealedPacket :=
  {| sp_id := id; sp_source := source; sp_destination := destination; sp_payload := payload; sp_routing_hints := hints;
     sp_created_at := tick; sp_ttl := 10; sp_visited := {[source]} |}.
Definition sp_with (ttl : Z) (visited : gset Z) (q : SealedPacket) : SealedPacket :=
  {| sp_id := sp_id q; sp_source := sp_source q; sp_destination := sp_destination q; sp_payload := sp_payload q;
     sp_routing_hints := sp_routing_hints q; sp_created_at := sp_created_at q; sp_ttl := ttl; sp_visited := visited |}.
Definition sealed_mark_visited (p : Z) (q : SealedPacket) : SealedPacket := sp_with (sp_ttl q) ({[p]} ∪ sp_visited q) q.
Definition sealed_was_visited (p : Z) (q : SealedPacket) : bool := bool_decide (p ∈ sp_visited q).
Definition sealed_decrement_ttl (q : SealedPacket) : SealedPacket * bool :=
  if sp_ttl q =? 0 then (q, false) else (sp_with (sp_ttl q - 1) (sp_visited q) q, true).

Inductive SimDropReason : Type := TtlExpired | NoRouteFound | DuplicatePacket | MessageExpired | SenderOffline.

Inductive NetworkEvent : Type :=
| NeAwake (peer tick : Z)
| NeSleep (peer tick : Z)
| NeSend (from to : Z) (payload : list byte) (tick : Z)
| NeRelay (from via to : Z) (packet_id : SimPacketId) (tick : Z)
| NeDelivered (packet_id : SimPacketId) (to tick : Z)
| NeBackProp (packet_id : SimPacketId) (from via to tick : Z)
| NeDropped (packet_id : SimPacketId) (reason : SimDropReason) (tick : Z)
| NePQSignatureCreated (peer latency_us message_size tick : Z)
| NePQSignatureVerified (peer sender latency_us : Z) (success : bool) (tick : Z)
| NeKEMEncapsulation (peer target latency_us tick : Z)
| NeKEMDecapsulation (peer sender latency_us : Z) (success : bool) (tick : Z)
| NeInviteCreated (from to : Z) (interface_id : string) (tick : Z)
| NeInviteAccepted (peer : Z) (interface_id : string) (tick : Z)
| NeInviteFailed (peer : Z) (interface_id reason : string) (tick : Z).

Record BackPropRecord : Type := { bpr_packet_id : SimPacketId; bpr_received_from : Z; bpr_destination : Z }.

Record MeshPeer : Type := {
  pst_id : Z;
  pst_online : bool;
  pst_connections : gset Z;
  pst_inbox : list SealedPacket;
  pst_relay_queue : list SealedPacket;
  pst_delivered : list SimPacketId;
  pst_pending_backprops : list BackPropRecord;
  pst_sequence : Z;
  pst_last_online_tick : option Z;
  pst_prophet : ProphetState (I := Z);
}.

Definition peer_state_new (now id : Z) : MeshPeer :=
  {| pst_id := id; pst_online := false; pst_connections := ∅; pst_inbox := []; pst_relay_queue := []; pst_delivered := [];
     pst_pending_backprops := []; pst_sequence := 0; pst_last_online_tick := None; pst_prophet := prophet_with_defaults now id |}.

(** A clone starts with an empty routing table. *)
Definition peer_state_clone (now : Z) (st : MeshPeer) : MeshPeer :=
  {| pst_id := pst_id st; pst_online := pst_online st; pst_connections := pst_connections st; pst_inbox := pst_inbox st;
     pst_relay_queue := pst_relay_queue st; pst_delivered := pst_delivered st; pst_pending_backprops := pst_pending_backprops st;
     pst_sequence := pst_sequence st; pst_last_online_tick := pst_last_online_tick st;
     pst_prophet := prophet_with_defaults now (pst_id st) |}.

Definition set_online (b : bool) (last : option Z) (st : MeshPeer) : MeshPeer :=
  {| pst_id := pst_id st; pst_online := b; pst_connections := pst_connections st; pst_inbox := pst_inbox st;
     pst_relay_queue := pst_relay_queue st; pst_delivered := pst_delivered st; pst_pending_backprops := pst_pending_backprops st;
     pst_sequence := pst_sequence st; pst_last_online_tick := last; pst_prophet := pst_prophet st |}.
Definition set_links (c : gset Z) (st : MeshPeer) : MeshPeer :=
  {| pst_id := pst_id st; pst_online := pst_online st; pst_connections := c; pst_inbox := pst_inbox st;
     pst_relay_queue := pst_relay_queue st; pst_delivered := pst_delivered st; pst_pending_backprops := pst_pending_backprops st;
     pst_sequence := pst_sequence st; pst_last_online_tick := pst_last_online_tick st; pst_prophet := pst_prophet st |}.
Definition set_queue (l : list SealedPacket) (st : MeshPeer) : MeshPeer :=
  {| pst_id := pst_id st; pst_online := pst_online st; pst_connections := pst_connections st; pst_inbox := pst_inbox st;
     pst_relay_queue := l; pst_delivered := pst_delivered st; pst_pending_backprops := pst_pending_backprops st;
     pst_sequence := pst_sequence st; pst_last_online_tick := pst_last_online_tick st; pst_prophet := pst_prophet st |}.
Definition set_prophet (r : ProphetState) (st : MeshPeer) : MeshPeer :=
  {| pst_id := pst_id st; pst_online := pst_online st; pst_connections := pst_connections st; pst_inbox := pst_inbox st;
     pst_relay_queue := pst_relay_queue st; pst_delivered := pst_delivered st; pst_pending_backprops := pst_pending_backprops st;
     pst_sequence := pst_sequence st; pst_last_online_tick := pst_last_online_tick st; pst_prophet := r |}.
(** What arrives: into the inbox, and into the list of identifiers. *)
Definition receive (q : SealedPacket) (st : MeshPeer) : MeshPeer :=
  {| pst_id := pst_id st; pst_online := pst_online st; pst_connections := pst_connections st; pst_inbox := pst_inbox st ++ [q];
     pst_relay_queue := pst_relay_queue st; pst_delivered := pst_delivered st ++ [sp_id q];
     pst_pending_backprops := pst_pending_backprops st;
     pst_sequence := pst_sequence st; pst_last_online_tick := pst_last_online_tick st; pst_prophet := pst_prophet st |}.

(** A peer does not send 2^64 packets. *)
Definition next_packet_id (st : MeshPeer) : MeshPeer * SimPacketId :=
  ({| pst_id := pst_id st; pst_online := pst_online st; pst_connections := pst_connections st; pst_inbox := pst_inbox st;
      pst_relay_queue := pst_relay_queue st; pst_delivered := pst_delivered st; pst_pending_backprops := pst_pending_backprops st;
      pst_sequence := pst_sequence st + 1; pst_last_online_tick := pst_last_online_tick st; pst_prophet := pst_prophet st |},
   {| spi_source := pst_id st; spi_sequence := pst_sequence st |}).
Definition can_reach (other : Z) (st : MeshPeer) : bool := bool_decide (other ∈ pst_connections st).
Definition mutual_peers_with (other st : MeshPeer) : gset Z := pst_connections st ∩ pst_connections other.

Record PeerInterface : Type := {
  pi_peer_a : Z;
  pi_peer_b : Z;
  pi_event_log : list NetworkEvent;
  pi_pending_packets : list SealedPacket;
}.
Definition normalized (a b : Z) : Z * Z := if a <? b then (a, b) else (b, a).
Definition peer_interface_new (a b : Z) : PeerInterface :=
  let '(a, b) := normalized a b in {| pi_peer_a := a; pi_peer_b := b; pi_event_log := []; pi_pending_packets := [] |}.
Definition interface_key (i : PeerInterface) : Z * Z := (pi_peer_a i, pi_peer_b i).
Definition log_append (e : NetworkEvent) (i : PeerInterface) : PeerInterface :=
  {| pi_peer_a := pi_peer_a i; pi_peer_b := pi_peer_b i; pi_event_log := pi_event_log i ++ [e]; pi_pending_packets := pi_pending_packets i |}.

(** ** Topologies *)

Record Mesh : Type := {
  mesh_peers : gmap Z MeshPeer;
  mesh_interfaces : gmap (Z * Z) PeerInterface;
  mesh_adjacency : gmap Z (gset Z);
}.
Definition mesh_new : Mesh := {| mesh_peers := ∅; mesh_interfaces := ∅; mesh_adjacency := ∅ |}.

Definition mesh_add_peer (created : Z → Z) (id : Z) (m : Mesh) : Mesh :=
  match mesh_peers m !! id with
  | Some _ => m
  | None => {| mesh_peers := <[id := peer_state_new (created id) id]> (mesh_peers m); mesh_interfaces := mesh_interfaces m;
               mesh_adjacency := <[id := ∅]> (mesh_adjacency m) |}
  end.

(** [get_mut(&a).unwrap()] on the two maps. *)
Definition link_to (a b : Z) (m : Mesh) : outcome Mesh :=
  let! n := unwrap (mesh_adjacency m !! a) in
  let! st := unwrap (mesh_peers m !! a) in
  Returns {| mesh_peers := <[a := set_links ({[b]} ∪ pst_connections st) st]> (mesh_peers m);
             mesh_interfaces := mesh_interfaces m; mesh_adjacency := <[a := {[b]} ∪ n]> (mesh_adjacency m) |}.

Definition connect (created : Z → Z) (a b : Z) (m : Mesh) : outcome Mesh :=
  if a =? b then Returns m
  else
    let m := mesh_add_peer created b (mesh_add_peer created a m) in
    let! m := link_to a b m in
    let! m := link_to b a m in
    let i := peer_interface_new a b in
    Returns {| mesh_peers := mesh_peers m;
               mesh_interfaces := match mesh_interfaces m !! interface_key i with
                                  | Some _ => mesh_interfaces m
                                  | None => <[interface_key i := i]> (mesh_interfaces m)
                                  end;
               mesh_adjacency := mesh_adjacency m |}.

Definition mesh_neighbors (p : Z) (m : Mesh) : option (gset Z) := mesh_adjacency m !! p.
Definition are_connected (a b : Z) (m : Mesh) : bool :=
  match mesh_adjacency m !! a with Some n => bool_decide (b ∈ n) | None => false end.
Definition get_interface (a b : Z) (m : Mesh) : option PeerInterface := mesh_interfaces m !! normalized a b.
Definition sorted_peers (s : gset Z) : list Z := sort_by Z.leb (elements s).
Definition mesh_peer_ids (m : Mesh) : list Z := sorted_peers (dom (mesh_peers m)).
Definition mesh_peer_count (m : Mesh) : nat := size (mesh_peers m).
Definition mesh_edge_count (m : Mesh) : nat := size (mesh_interfaces m).
Definition mesh_mutual_peers (a b : Z) (m : Mesh) : gset Z :=
  match mesh_adjacency m !! a, mesh_adjacency m !! b with Some an, Some bn => an ∩ bn | _, _ => ∅ end.
Definition mesh_clone (now : Z → Z) (m : Mesh) : Mesh :=
  {| mesh_peers := map_imap (λ id st, Some (peer_state_clone (now id) {| pst_id := id; pst_online := pst_online st;
       pst_connections := pst_connections st; pst_inbox := pst_inbox st; pst_relay_queue := pst_relay_queue st;
       pst_delivered := pst_delivered st; pst_pending_backprops := pst_pending_backprops st; pst_sequence := pst_sequence st;
       pst_last_online_tick := pst_last_online_tick st; pst_prophet := pst_prophet st |})) (mesh_peers m);
     mesh_interfaces := mesh_interfaces m; mesh_adjacency := mesh_adjacency m |}.

(** *** The builder *)

Record MeshBuilder : Type := { mb_peer_count : nat }.
Definition mesh_builder_new (n : nat) : outcome MeshBuilder := if (26 <? n)%nat then Panics else Returns {| mb_peer_count := n |}.

Section Builder.
Context (created : Z → Z).

Definition builder_peers (b : MeshBuilder) : list Z := range_to (65 + Z.of_nat (mb_peer_count b) - 1).
Definition add_peers (l : list Z) (m : Mesh) : Mesh := foldl (λ m p, mesh_add_peer created p m) m l.

(** [mesh.connect(peers[i], peers[j])]. *)
Definition connect_at (peers : list Z) (m : Mesh) (ij : nat * nat) : outcome Mesh :=
  let! a := unwrap (peers !! ij.1) in
  let! b := unwrap (peers !! ij.2) in
  connect created a b m.
Definition build (peers : list Z) (pairs : list (nat * nat)) : outcome Mesh :=
  for_each (connect_at peers) pairs (add_peers peers mesh_new).

Definition ring (b : MeshBuilder) : outcome Mesh :=
  let peers := builder_peers b in
  build peers ((λ i, (i, ((i + 1) mod length peers)%nat)) <$> List.seq 0 (length peers)).

Definition upper_pairs (n : nat) : list (nat * nat) :=
  List.seq 0 n ≫= (λ i, (λ j, (i, j)) <$> List.seq (i + 1) (n - (i + 1))).
Definition full_mesh (b : MeshBuilder) : outcome Mesh :=
  let peers := builder_peers b in build peers (upper_pairs (length peers)).

(** [0..(peers.len() - 1)] wraps without peers, and the first access panics. *)
Definition line (b : MeshBuilder) : outcome Mesh :=
  let peers := builder_peers b in
  if (length peers =? 0)%nat then Panics
  else build peers ((λ i, (i, (i + 1)%nat)) <$> List.seq 0 (length peers - 1)).

Definition star (b : MeshBuilder) : outcome Mesh :=
  let peers := builder_peers b in
  if (length peers =? 0)%nat then Panics
  else build peers ((λ i, (0%nat, i)) <$> List.seq 1 (length peers - 1)).

(** [draw]: the number drawn for each pair; [other]: the index drawn for an
    isolated peer. *)
Definition join_isolated (other : Z → nat) (peers : list Z) (m : Mesh) (p : Z) : outcome Mesh :=
  if match mesh_neighbors p m with Some n => bool_decide (n = ∅) | None => true end then
    let! o := unwrap (peers !! other p) in
    if negb (o =? p) then connect created p o m else Returns m
  else Returns m.
Definition random (draw : nat * nat → f64) (other : Z → nat) (prob : f64) (b : MeshBuilder) : outcome Mesh :=
  let peers := builder_peers b in
  let! m := build peers (retain (λ ij, SpecFloat.SFltb (draw ij) prob) (upper_pairs (length peers))) in
  for_each (join_isolated other peers) peers m.

Definition from_edges (edges : list (Z * Z)) : outcome Mesh :=
  for_each (λ m e, let! a := unwrap (sim_peer_new e.1) in let! b := unwrap (sim_peer_new e.2) in connect created a b m) edges mesh_new.
End Builder.

(** ** Identifiers *)

Lemma peer_bytes_roundtrip c p : sim_peer_new c = Some p → peer_from_bytes (peer_as_bytes p) = Ok p.
Proof.
  unfold sim_peer_new. destruct (Z.leb_spec 65 c), (Z.leb_spec c 90); simpl; try done. intros [= <-].
  unfold sim_peer_new. rewrite byte_val_of_Z, Z.mod_small by lia.
  by rewrite (proj2 (Z.leb_le 65 c)), (proj2 (Z.leb_le c 90)).
Qed.

(** ** What a mesh promises *)

Definition linked_in (m : Mesh) (a b : Z) : Prop := are_connected a b m = true.

(** Every connection is known to both ends, in both representations, and has one
    interface. *)
Record mesh_ok (m : Mesh) : Prop := {
  mo_peer p st : mesh_peers m !! p = Some st → pst_id st = p ∧ mesh_adjacency m !! p = Some (pst_connections st);
  mo_adjacency p n : mesh_adjacency m !! p = Some n → is_Some (mesh_peers m !! p);
  mo_symmetric a b : linked_in m a b → linked_in m b a;
  mo_irreflexive a : ¬ linked_in m a a;
  mo_interface k i : mesh_interfaces m !! k = Some i → interface_key i = k;
  mo_edges a b : is_Some (mesh_interfaces m !! (a, b)) ↔ a < b ∧ linked_in m a b;
}.

Lemma linked_lookup m a b : linked_in m a b ↔ ∃ n, mesh_adjacency m !! a = Some n ∧ b ∈ n.
Proof.
  unfold linked_in, are_connected. destruct (mesh_adjacency m !! a) as [n|].
  - rewrite bool_decide_eq_true. split; [eauto|]. by intros (? & [= <-] & ?).
  - split; [done|]. by intros (? & ? & _).
Qed.

Lemma linked_peer m a b : mesh_ok m → linked_in m a b → is_Some (mesh_peers m !! a) ∧ is_Some (mesh_peers m !! b).
Proof.
  intros Hm Hab. assert (∀ x y, linked_in m x y → is_Some (mesh_peers m !! x)) as Hx.
  { intros x y (n & Hn & _)%linked_lookup. by eapply mo_adjacency. }
  split; [by eapply Hx|]. eapply Hx. by apply mo_symmetric.
Qed.

Lemma mesh_new_ok : mesh_ok mesh_new.
Proof.
  split; simpl; try done. intros a b. rewrite lookup_empty. split; [by intros []|]. intros [_ H]. discriminate H.
Qed.

Lemma add_peer_linked created id m a b : mesh_ok m → linked_in (mesh_add_peer created id m) a b ↔ linked_in m a b.
Proof.
  intros Hm. unfold mesh_add_peer. destruct (mesh_peers m !! id) eqn:E; [done|]. rewrite !linked_lookup. simpl.
  rewrite lookup_insert. case_decide as Ei; [subst|done].
  assert (mesh_adjacency m !! a = None) as ->.
  { destruct (mesh_adjacency m !! a) as [n|] eqn:En; [|done]. apply (mo_adjacency _ Hm) in En as [? En]. by rewrite E in En. }
  split; [|by intros (? & ? & _)]. intros (n & [= <-] & Hb). set_solver.
Qed.

Lemma add_peer_ok created id m : mesh_ok m → mesh_ok (mesh_add_peer created id m).
Proof.
  intros Hm. pose proof (add_peer_linked created id m) as Hl. split.
  - intros p st. unfold mesh_add_peer. destruct (mesh_peers m !! id) eqn:E; [apply Hm|]. simpl. rewrite !lookup_insert.
    case_decide; [by intros [= <-]; subst|apply Hm].
  - intros p n. unfold mesh_add_peer. destruct (mesh_peers m !! id) eqn:E; [apply Hm|]. simpl. rewrite !lookup_insert.
    case_decide; [eauto|apply Hm].
  - intros a b. rewrite !Hl by done. apply Hm.
  - intros a. rewrite Hl by done. apply Hm.
  - assert (mesh_interfaces (mesh_add_peer created id m) = mesh_interfaces m) as -> by (unfold mesh_add_peer; by destruct (mesh_peers m !! id)). apply Hm.
  - intros a b. rewrite Hl by done.
    assert (mesh_interfaces (mesh_add_peer created id m) = mesh_interfaces m) as -> by (unfold mesh_add_peer; by destruct (mesh_peers m !! id)). apply Hm.
Qed.

Lemma add_peer_dom created id m : dom (mesh_peers (mesh_add_peer created id m)) = {[id]} ∪ dom (mesh_peers m).
Proof. unfold mesh_add_peer. destruct (mesh_peers m !! id) eqn:E; [apply elem_of_dom_2 in E; set_solver|]. simpl. apply dom_insert_L. Qed.

(** The pair of an edge. *)
Definition is_pair (a b x y : Z) : Prop := (x = a ∧ y = b) ∨ (x = b ∧ y = a).

Lemma normalized_pair a b : a ≠ b → (normalized a b).1 < (normalized a b).2 ∧ is_pair a b (normalized a b).1 (normalized a b).2.
Proof. intros Hne. unfold normalized, is_pair. destruct (Z.ltb_spec a b); simpl; split; auto; lia. Qed.

Lemma linked_insert m a b n m' x y : mesh_adjacency m !! a = Some n → mesh_adjacency m' = <[a := {[b]} ∪ n]> (mesh_adjacency m) →
  linked_in m' x y ↔ linked_in m x y ∨ (x = a ∧ y = b).
Proof.
  intros Ha Hm'. rewrite !linked_lookup, Hm', lookup_insert. case_decide as E; [subst|naive_solver].
  rewrite Ha. split.
  - intros (? & [= <-] & [->%elem_of_singleton|Hy]%elem_of_union); [by right|left; eauto].
  - intros [(? & [= <-] & Hy)|[_ ->]]; eexists; (split; [done|set_solver]).
Qed.

(** Connecting two peers adds that edge, both of its ends, and nothing else. *)
Lemma connect_ok created a b m : mesh_ok m → ∃ m', connect created a b m = Returns m' ∧ mesh_ok m' ∧
  (∀ x y, linked_in m' x y ↔ linked_in m x y ∨ (a ≠ b ∧ is_pair a b x y)) ∧
  dom (mesh_peers m') = if decide (a = b) then dom (mesh_peers m) else {[a]} ∪ ({[b]} ∪ dom (mesh_peers m)).
Proof.
  intros Hm. unfold connect. destruct (Z.eqb_spec a b) as [->|Hne].
  { exists m. rewrite decide_True by done. split_and!; try done. naive_solver. }
  set (m1 := mesh_add_peer created b (mesh_add_peer created a m)).
  assert (Hm1 : mesh_ok m1) by (by do 2 apply add_peer_ok).
  assert (Hd1 : dom (mesh_peers m1) = {[b]} ∪ ({[a]} ∪ dom (mesh_peers m))) by (unfold m1; by rewrite !add_peer_dom).
  assert (Hl1 : ∀ x y, linked_in m1 x y ↔ linked_in m x y) by (intros; unfold m1; rewrite !add_peer_linked; auto using add_peer_ok).
  assert (is_Some (mesh_peers m1 !! a)) as [sa Hsa] by (apply elem_of_dom; set_solver).
  assert (is_Some (mesh_peers m1 !! b)) as [sb Hsb] by (apply elem_of_dom; set_solver).
  destruct (mo_peer _ Hm1 a sa Hsa) as [Hia Haa]. destruct (mo_peer _ Hm1 b sb Hsb) as [Hib Hab].
  clearbody m1. unfold link_to. rewrite Haa, Hsa. simpl. rewrite !lookup_insert_ne, Hab, Hsb by done. simpl.
  eexists. split; [done|]. rewrite decide_False by done.
  match goal with |- mesh_ok ?m ∧ _ => set (m2 := m) end.
  assert (Hl : ∀ x y, linked_in m2 x y ↔ linked_in m x y ∨ is_pair a b x y).
  { intros x y. set (m' := {| mesh_peers := ∅; mesh_interfaces := ∅; mesh_adjacency := <[a := {[b]} ∪ pst_connections sa]> (mesh_adjacency m1) |}).
    rewrite (linked_insert m' b a (pst_connections sb) m2); [|unfold m'; simpl; by rewrite lookup_insert_ne|done].
    rewrite (linked_insert m1 a b _ m' x y Haa eq_refl), Hl1. unfold is_pair. naive_solver. }
  destruct (normalized_pair a b Hne) as [Hlt Hpair].
  assert (Hk : interface_key (peer_interface_new a b) = normalized a b) by (unfold peer_interface_new; by destruct (normalized a b)).
  split_and!; [|naive_solver|by unfold m2; simpl; rewrite !dom_insert_L, Hd1; set_solver]. split.
  - intros p st. unfold m2. simpl. rewrite !lookup_insert. repeat case_decide; subst; [intros [= <-]; done..|apply Hm1].
  - intros p n. unfold m2. simpl. rewrite !lookup_insert. repeat case_decide; subst; eauto. apply Hm1.
  - intros x y. rewrite !Hl. intros [Hxy|Hxy]; [left; by apply Hm|right; unfold is_pair in *; naive_solver].
  - intros x. rewrite Hl. intros [Hx|Hx]; [by apply (mo_irreflexive _ Hm x)|unfold is_pair in Hx; naive_solver].
  - intros k i. unfold m2. simpl. destruct (mesh_interfaces m1 !! _) eqn:E; [apply Hm1|].
    rewrite lookup_insert. case_decide; [by intros [= <-]|apply Hm1].
  - intros x y. rewrite Hl. unfold m2. simpl. rewrite Hk.
    assert (Hedge : is_Some (mesh_interfaces m1 !! (x, y)) ↔ x < y ∧ linked_in m x y) by (rewrite (mo_edges _ Hm1 x y); by rewrite Hl1).
    destruct (mesh_interfaces m1 !! normalized a b) eqn:E; rewrite ?lookup_insert; [|case_decide as En].
    + rewrite Hedge. split; [naive_solver|]. intros [Hxy [?|Hp]]; [done|]. apply Hedge.
      assert ((x, y) = normalized a b) as ->; [|eauto]. destruct (normalized a b) as [u v]. simpl in *. unfold is_pair in *. f_equal; naive_solver lia.
    + subst. split; [|eauto]. intros _. rewrite En in Hlt, Hpair. simpl in *. auto.
    + rewrite Hedge. split; [naive_solver|]. intros [Hxy [?|Hp]]; [done|]. exfalso. apply En.
      destruct (normalized a b) as [u v]. simpl in *. unfold is_pair in *. f_equal; naive_solver lia.
Qed.

(** ** Topologies *)

Lemma add_peers_ok created l m : mesh_ok m → mesh_ok (add_peers created l m) ∧
  (∀ x y, linked_in (add_peers created l m) x y ↔ linked_in m x y) ∧
  dom (mesh_peers (add_peers created l m)) = list_to_set l ∪ dom (mesh_peers m).
Proof.
  revert m. induction l as [|p l IH]; intros m Hm; simpl; [split_and!; [done|done|set_solver]|].
  destruct (IH (mesh_add_peer created p m)) as (H1 & H2 & H3); [by apply add_peer_ok|]. split_and!; [done| |].
  - intros x y. rewrite H2. by apply add_peer_linked.
  - change (foldl _ _ l) with (add_peers created l (mesh_add_peer created p m)). rewrite H3, add_peer_dom. set_solver.
Qed.

Lemma connect_all_ok created peers pairs m : mesh_ok m → list_to_set peers ⊆ dom (mesh_peers m) →
  (∀ i j, (i, j) ∈ pairs → (i < length peers)%nat ∧ (j < length peers)%nat) →
  ∃ m', for_each (connect_at created peers) pairs m = Returns m' ∧ mesh_ok m' ∧ dom (mesh_peers m') = dom (mesh_peers m) ∧
  ∀ x y, linked_in m' x y ↔ linked_in m x y ∨
    x ≠ y ∧ ∃ i j a b, (i, j) ∈ pairs ∧ peers !! i = Some a ∧ peers !! j = Some b ∧ is_pair a b x y.
Proof.
  revert m. induction pairs as [|[i j] pairs IH]; intros m Hm Hp Hlt; simpl.
  { exists m. split_and!; try done. intros x y. split; [by left|]. intros [?|(_ & i & j & a & b & Hn & _)]; [done|]. by apply not_elem_of_nil in Hn. }
  destruct (Hlt i j ltac:(left)) as [[a Ha]%lookup_lt_is_Some_2 [b Hb]%lookup_lt_is_Some_2].
  destruct (connect_ok created a b m Hm) as (m1 & H1 & Hm1 & Hl1 & Hd1). unfold connect_at at 1. simpl. rewrite Ha, Hb. simpl. rewrite H1. simpl.
  assert (Hd : dom (mesh_peers m1) = dom (mesh_peers m)).
  { rewrite Hd1. case_decide; [done|]. assert (a ∈ dom (mesh_peers m)) by (apply Hp, elem_of_list_to_set; by eapply list_elem_of_lookup_2).
    assert (b ∈ dom (mesh_peers m)) by (apply Hp, elem_of_list_to_set; by eapply list_elem_of_lookup_2). set_solver. }
  destruct (IH m1 Hm1) as (m' & H' & Hm' & Hd' & Hl'); [by rewrite Hd|intros ???; apply Hlt; by right|].
  exists m'. split_and!; [done|done|congruence|]. intros x y. rewrite Hl', Hl1. split.
  - intros [[?|[Hne Hpair]]|(Hne & i' & j' & a' & b' & Hin & ? & ? & ?)]; [by left| |].
    + right. split; [unfold is_pair in Hpair; naive_solver|]. exists i, j, a, b. split_and!; try done. left.
    + right. split; [done|]. exists i', j', a', b'. split_and!; try done. by right.
  - intros [?|(Hne & i' & j' & a' & b' & Hin & Ha' & Hb' & Hpair)]; [by left; left|].
    apply elem_of_cons in Hin as [[= -> ->]|Hin]; [|right; naive_solver].
    left. right. simplify_eq. split; [unfold is_pair in Hpair; naive_solver|done].
Qed.

Lemma build_ok created peers pairs : (∀ i j, (i, j) ∈ pairs → (i < length peers)%nat ∧ (j < length peers)%nat) →
  ∃ m, build created peers pairs = Returns m ∧ mesh_ok m ∧ dom (mesh_peers m) = list_to_set peers ∧
  ∀ x y, linked_in m x y ↔ x ≠ y ∧ ∃ i j a b, (i, j) ∈ pairs ∧ peers !! i = Some a ∧ peers !! j = Some b ∧ is_pair a b x y.
Proof.
  intros Hlt. destruct (add_peers_ok created peers mesh_new mesh_new_ok) as (H1 & H2 & H3).
  destruct (connect_all_ok created peers pairs (add_peers created peers mesh_new) H1) as (m & Hb & Hm & Hd & Hl); [rewrite H3; set_solver|done|].
  exists m. split_and!; [done|done|by rewrite Hd, H3; set_solver|]. intros x y. rewrite Hl, H2. split; [|by right].
  intros [Hn|]; [discriminate Hn|done].
Qed.

Lemma builder_peers_eq n : (n <= 26)%nat → builder_peers {| mb_peer_count := n |} = seqZ 65 (Z.of_nat n).
Proof.
  intros Hn. unfold builder_peers, range_to. simpl. replace (65 + Z.of_nat n - 1 - 64) with (Z.of_nat n) by lia.
  assert (Hall : ∀ l : list Z, (∀ c, c ∈ l → 65 <= c <= 90) → omap sim_peer_new l = l).
  { induction l as [|c l IH]; intros Hl; [done|]. simpl. pose proof (Hl c ltac:(left)). unfold sim_peer_new at 1.
    rewrite (proj2 (Z.leb_le 65 c)), (proj2 (Z.leb_le c 90)) by lia. simpl. f_equal. apply IH. intros; apply Hl. by right. }
  apply Hall. intros c Hc%elem_of_seqZ. lia.
Qed.

Lemma elem_upper_pairs n i j : (i, j) ∈ upper_pairs n ↔ (i < j < n)%nat.
Proof.
  unfold upper_pairs. rewrite list_elem_of_bind. split.
  - intros (k & Hk & Hi). apply list_elem_of_fmap in Hk as (j' & [= <- <-] & Hj%elem_of_seq). apply elem_of_seq in Hi. lia.
  - intros ?. exists i. split; [apply list_elem_of_fmap; exists j; split; [done|]; apply elem_of_seq; lia|apply elem_of_seq; lia].
Qed.

(** Who is connected to whom in each topology of [n] peers. *)
Definition is_peer_of (n : nat) (x : Z) : Prop := 65 <= x < 65 + Z.of_nat n.
Inductive Topology : Type := TRing | TFull | TLine | TStar.
Definition topology (t : Topology) : (Z → Z) → MeshBuilder → outcome Mesh :=
  match t with TRing => ring | TFull => full_mesh | TLine => line | TStar => star end.
Definition topology_edge (t : Topology) (n : nat) (x y : Z) : Prop :=
  match t with
  | TRing => Z.abs (x - y) = 1 ∨ Z.abs (x - y) = Z.of_nat n - 1
  | TFull => True
  | TLine => Z.abs (x - y) = 1
  | TStar => x = 65 ∨ y = 65
  end.
Definition topology_pairs (t : Topology) (n : nat) : list (nat * nat) :=
  match t with
  | TRing => (λ i, (i, ((i + 1) mod n)%nat)) <$> List.seq 0 n
  | TFull => upper_pairs n
  | TLine => (λ i, (i, (i + 1)%nat)) <$> List.seq 0 (n - 1)
  | TStar => (λ i, (0%nat, i)) <$> List.seq 1 (n - 1)
  end.

Lemma elem_fmap_seq {A} (f : nat → A) k n x : x ∈ f <$> List.seq k n ↔ ∃ i, (k <= i < k + n)%nat ∧ x = f i.
Proof. rewrite list_elem_of_fmap. split; intros (i & H1 & H2); exists i; rewrite elem_of_seq in *; auto. Qed.

Lemma ring_next n i : (i < n)%nat → ((i + 1) mod n = if (i + 1 =? n) then 0 else i + 1)%nat.
Proof. intros Hi. destruct (Nat.eqb_spec (i + 1) n) as [->|]; [apply Nat.Div0.mod_same|apply Nat.mod_small; lia]. Qed.

Lemma topology_pairs_spec t n x y : is_peer_of n x → is_peer_of n y → x ≠ y →
  (∃ i j, (i, j) ∈ topology_pairs t n ∧ is_pair (65 + Z.of_nat i) (65 + Z.of_nat j) x y) ↔ topology_edge t n x y.
Proof.
  unfold is_peer_of, is_pair. intros Hx Hy Hne. destruct t; simpl.
  - split.
    + intros (i & j & (k & Hk & [= -> ->])%elem_fmap_seq & Hp). rewrite ring_next in Hp by lia.
      destruct (Nat.eqb_spec (k + 1) n); lia.
    + intros He. set (lo := Z.to_nat (Z.min x y - 65)). set (hi := Z.to_nat (Z.max x y - 65)).
      destruct (decide (Z.abs (x - y) = 1)); [exists lo, ((lo + 1) mod n)%nat|exists hi, ((hi + 1) mod n)%nat];
        (split; [apply elem_fmap_seq; eexists; split; [|reflexivity]; lia|]); rewrite ring_next by lia;
        case_match eqn:Ee; rewrite ?Nat.eqb_eq, ?Nat.eqb_neq in Ee; lia.
  - split; [done|]. intros _. set (lo := Z.to_nat (Z.min x y - 65)). set (hi := Z.to_nat (Z.max x y - 65)). exists lo, hi.
    rewrite elem_upper_pairs. lia.
  - split.
    + intros (i & j & (k & Hk & [= -> ->])%elem_fmap_seq & Hp). lia.
    + intros He. exists (Z.to_nat (Z.min x y - 65)), (Z.to_nat (Z.min x y - 65) + 1)%nat.
      split; [apply elem_fmap_seq; eexists; split; [|reflexivity]; lia|lia].
  - split.
    + intros (i & j & (k & Hk & [= -> ->])%elem_fmap_seq & Hp). lia.
    + intros He. exists 0%nat, (Z.to_nat (Z.max x y - 65)). split; [apply elem_fmap_seq; eexists; split; [|reflexivity]; lia|lia].
Qed.

Lemma topology_build t created n : n ≠ 0%nat → (n <= 26)%nat →
  topology t created {| mb_peer_count := n |} = build created (seqZ 65 (Z.of_nat n)) (topology_pairs t n).
Proof.
  intros Hn Hn'. destruct t; simpl; unfold ring, full_mesh, line, star; rewrite builder_peers_eq, length_seqZ, Nat2Z.id by done;
    rewrite ?(proj2 (Nat.eqb_neq n 0)) by done; done.
Qed.

(** Every topology is built without a panic, is a well-formed mesh of the peers
    from A on, and has exactly the edges of its name. *)
Theorem topology_spec t created n : (0 < n <= 26)%nat →
  ∃ m, topology t created {| mb_peer_count := n |} = Returns m ∧ mesh_ok m ∧
    (∀ x, x ∈ dom (mesh_peers m) ↔ is_peer_of n x) ∧
    ∀ x y, linked_in m x y ↔ is_peer_of n x ∧ is_peer_of n y ∧ x ≠ y ∧ topology_edge t n x y.
Proof.
  intros Hn. rewrite topology_build by lia.
  assert (Hlook : ∀ i a, seqZ 65 (Z.of_nat n) !! i = Some a ↔ (i < n)%nat ∧ a = 65 + Z.of_nat i).
  { intros i a. rewrite lookup_seqZ. lia. }
  destruct (build_ok created (seqZ 65 (Z.of_nat n)) (topology_pairs t n)) as (m & Hb & Hm & Hd & Hl).
  { rewrite length_seqZ, Nat2Z.id. intros i j. destruct t; simpl.
    - intros (k & Hk & [= -> ->])%elem_fmap_seq. rewrite ring_next by lia. destruct (Nat.eqb_spec (k + 1) n); lia.
    - rewrite elem_upper_pairs. lia.
    - intros (k & Hk & [= -> ->])%elem_fmap_seq. lia.
    - intros (k & Hk & [= -> ->])%elem_fmap_seq. lia. }
  exists m. split_and!; [done|done| |].
  - intros x. rewrite Hd, elem_of_list_to_set, elem_of_seqZ. unfold is_peer_of. lia.
  - intros x y. rewrite Hl. split.
    + intros (Hne & i & j & a & b & Hin & [Hi ->]%Hlook & [Hj ->]%Hlook & Hp).
      assert (is_peer_of n x ∧ is_peer_of n y) as [Hx Hy] by (unfold is_peer_of, is_pair in *; lia).
      split_and!; try done. apply topology_pairs_spec; try done. eauto.
    + intros (Hx & Hy & Hne & (i & j & Hin & Hp)%topology_pairs_spec); try done. split; [done|].
      exists i, j, (65 + Z.of_nat i), (65 + Z.of_nat j). unfold is_pair, is_peer_of in *. rewrite !Hlook. split_and!; try done; lia.
Qed.
