(* ===== verification/Simulation.v ===== *)
(** * The simulation engine

    [simulation/src/simulation.rs]: discrete ticks in which peers wake and
    sleep, messages are routed, held and delivered, and confirmations travel
    back.  The random numbers of a tick are an argument; [clock] is the clock of
    the routing tables, read in sequence.  Counters of ticks and events do not
    reach 2^64; latencies given by the caller are added modulo 2^64.  A missing
    map entry that the source unwraps and an index out of bounds are panics. *)

From Stdlib Require Import Floats.SpecFloat.
From S2P Require Import Prelude Float Bytes Packet Prophet Mesh.

Record SimConfig : Type := {
  wake_probability : f64;
  sleep_probability : f64;
  max_ticks : Z;
  initial_online_probability : f64;
  trace_routing : bool;
  message_timeout : option Z;
  backprop_timeout : option Z;
  max_sender_retries : option Z;
  prophet_aging_interval : Z;
}.
Definition sim_config_default : SimConfig :=
  {| wake_probability := f64_ratio 3 10; sleep_probability := f64_ratio 2 10; max_ticks := 100;
     initial_online_probability := f64_ratio 5 10; trace_routing := true; message_timeout := Some 50;
     backprop_timeout := Some 100; max_sender_retries := Some 10; prophet_aging_interval := 100 |}.

Record PendingSend : Type := { pd_from : Z; pd_to : Z; pd_payload : list byte; pd_created_tick : Z; pd_retry_count : Z }.
Record SimBackProp : Type := { bs_packet_id : SimPacketId; bs_path : list Z; bs_index : nat; bs_delivered_tick : Z }.

(** The counters, by name. *)
Inductive StatField : Type :=
| messages_sent | messages_delivered | messages_dropped | messages_expired | total_hops | direct_deliveries
| relayed_deliveries | backprops_completed | backprops_timed_out | wake_events | sleep_events
| total_delivery_latency | total_backprop_latency | prophet_relay_selections | prophet_aging_cycles
| pq_signatures_created | pq_signatures_verified | pq_signature_failures | pq_signature_create_time_us
| pq_signature_verify_time_us | pq_kem_encapsulations | pq_kem_decapsulations | pq_kem_failures
| pq_kem_encap_time_us | pq_kem_decap_time_us | invites_created | invites_accepted | invites_failed.
#[global] Instance StatField_eq_dec : EqDecision StatField.
Proof. solve_decision. Defined.
Definition SimStats : Type := StatField → Z.
Definition sim_stats_default : SimStats := λ _, 0.
Definition counted (f : StatField) (n : Z) (st : SimStats) : SimStats := λ g, if decide (g = f) then st g + n else st g.

Record Simulation : Type := {
  sim_mesh : Mesh;
  sim_tick : Z;
  sim_config : SimConfig;
  sim_event_log : list NetworkEvent;
  sim_pending_sends : list PendingSend;
  sim_backprops : list SimBackProp;
  sim_stats : SimStats;
  sim_reads : nat;
}.

Definition simulation_new (m : Mesh) (c : SimConfig) : Simulation :=
  {| sim_mesh := m; sim_tick := 0; sim_config := c; sim_event_log := []; sim_pending_sends := []; sim_backprops := [];
     sim_stats := sim_stats_default; sim_reads := 0 |}.

Definition sim_peers (s : Simulation) : gmap Z MeshPeer := mesh_peers (sim_mesh s).
Definition set_sim_peers (ps : gmap Z MeshPeer) (s : Simulation) : Simulation :=
  {| sim_mesh := {| mesh_peers := ps; mesh_interfaces := mesh_interfaces (sim_mesh s); mesh_adjacency := mesh_adjacency (sim_mesh s) |};
     sim_tick := sim_tick s; sim_config := sim_config s; sim_event_log := sim_event_log s; sim_pending_sends := sim_pending_sends s;
     sim_backprops := sim_backprops s; sim_stats := sim_stats s; sim_reads := sim_reads s |}.
Definition emit_event (e : NetworkEvent) (s : Simulation) : Simulation :=
  {| sim_mesh := sim_mesh s; sim_tick := sim_tick s; sim_config := sim_config s; sim_event_log := sim_event_log s ++ [e];
     sim_pending_sends := sim_pending_sends s; sim_backprops := sim_backprops s; sim_stats := sim_stats s; sim_reads := sim_reads s |}.
Definition count_by (f : StatField) (n : Z) (s : Simulation) : Simulation :=
  {| sim_mesh := sim_mesh s; sim_tick := sim_tick s; sim_config := sim_config s; sim_event_log := sim_event_log s;
     sim_pending_sends := sim_pending_sends s; sim_backprops := sim_backprops s; sim_stats := counted f n (sim_stats s);
     sim_reads := sim_reads s |}.
Definition set_pending_sends (l : list PendingSend) (s : Simulation) : Simulation :=
  {| sim_mesh := sim_mesh s; sim_tick := sim_tick s; sim_config := sim_config s; sim_event_log := sim_event_log s;
     sim_pending_sends := l; sim_backprops := sim_backprops s; sim_stats := sim_stats s; sim_reads := sim_reads s |}.
Definition set_backprops (l : list SimBackProp) (s : Simulation) : Simulation :=
  {| sim_mesh := sim_mesh s; sim_tick := sim_tick s; sim_config := sim_config s; sim_event_log := sim_event_log s;
     sim_pending_sends := sim_pending_sends s; sim_backprops := l; sim_stats := sim_stats s; sim_reads := sim_reads s |}.
Definition set_tick (t : Z) (s : Simulation) : Simulation :=
  {| sim_mesh := sim_mesh s; sim_tick := t; sim_config := sim_config s; sim_event_log := sim_event_log s;
     sim_pending_sends := sim_pending_sends s; sim_backprops := sim_backprops s; sim_stats := sim_stats s; sim_reads := sim_reads s |}.
Definition set_reads (n : nat) (s : Simulation) : Simulation :=
  {| sim_mesh := sim_mesh s; sim_tick := sim_tick s; sim_config := sim_config s; sim_event_log := sim_event_log s;
     sim_pending_sends := sim_pending_sends s; sim_backprops := sim_backprops s; sim_stats := sim_stats s; sim_reads := n |}.

(** [peers.get_mut(&p).unwrap()]. *)
Definition on_peer (p : Z) (f : MeshPeer → MeshPeer) (s : Simulation) : outcome Simulation :=
  let! st := unwrap (sim_peers s !! p) in Returns (set_sim_peers (<[p := f st]> (sim_peers s)) s).
Definition is_online (p : Z) (s : Simulation) : bool := default false (pst_online <$> sim_peers s !! p).
Definition sim_peer_ids (s : Simulation) : list Z := mesh_peer_ids (sim_mesh s).
Definition drop_packet (id : SimPacketId) (st : MeshPeer) : MeshPeer :=
  set_queue (retain (λ q, negb (bool_decide (sp_id q = id))) (pst_relay_queue st)) st.
Definition enqueue (q : SealedPacket) (st : MeshPeer) : MeshPeer := set_queue (pst_relay_queue st ++ [q]) st.

Definition send_message (from to : Z) (payload : list byte) (s : Simulation) : Simulation :=
  count_by messages_sent 1
    (set_pending_sends (sim_pending_sends s ++ [{| pd_from := from; pd_to := to; pd_payload := payload;
                                             pd_created_tick := sim_tick s; pd_retry_count := 0 |}]) s).

(** ** Waking and sleeping *)

(** [draw]: the number drawn for each peer. *)
Definition initialize_peer (draw : Z → f64) (s : Simulation) (p : Z) : Simulation :=
  let online := SFltb (draw p) (initial_online_probability (sim_config s)) in
  match sim_peers s !! p with
  | None => s
  | Some st =>
      let s := set_sim_peers (<[p := set_online online (if online then Some 0 else pst_last_online_tick st) st]> (sim_peers s)) s in
      if online then emit_event (NeAwake p 0) s else s
  end.
Definition initialize (draw : Z → f64) (s : Simulation) : Simulation := foldl (initialize_peer draw) s (sim_peer_ids s).

Definition transition (draw : Z → f64) (s : Simulation) (p : Z) : outcome Simulation :=
  let! st := unwrap (sim_peers s !! p) in
  let was_online := pst_online st in
  let prob := if was_online then sleep_probability (sim_config s) else wake_probability (sim_config s) in
  if SFltb (draw p) prob then
    if was_online
    then let! s := on_peer p (λ st, set_online false (pst_last_online_tick st) st) s in
         Returns (count_by sleep_events 1 (emit_event (NeSleep p (sim_tick s)) s))
    else let! s := on_peer p (set_online true (Some (sim_tick s))) s in
         Returns (count_by wake_events 1 (emit_event (NeAwake p (sim_tick s)) s))
  else Returns s.
Definition process_state_transitions (draw : Z → f64) (s : Simulation) : outcome Simulation :=
  for_each (transition draw) (sim_peer_ids s) s.

Definition force_online (p : Z) (s : Simulation) : Simulation :=
  match sim_peers s !! p with
  | Some st => if pst_online st then s
               else emit_event (NeAwake p (sim_tick s)) (set_sim_peers (<[p := set_online true (Some (sim_tick s)) st]> (sim_peers s)) s)
  | None => s
  end.
Definition force_offline (p : Z) (s : Simulation) : Simulation :=
  match sim_peers s !! p with
  | Some st => if pst_online st
               then emit_event (NeSleep p (sim_tick s)) (set_sim_peers (<[p := set_online false (pst_last_online_tick st) st]> (sim_peers s)) s)
               else s
  | None => s
  end.

Section Engine.
Context (clock : nat → Z).

(** [encounter] reads the clock. *)
Definition note_encounter (via other : Z) (s : Simulation) : outcome Simulation :=
  let! s := on_peer via (λ st, set_prophet (prophet_encounter (clock (sim_reads s)) other (pst_prophet st)) st) s in
  Returns (set_reads (S (sim_reads s)) s).

(** ** Delivery *)

Definition deliver_packet (q : SealedPacket) (via : Z) (s : Simulation) : outcome Simulation :=
  let dest := sp_destination q in
  let! s := note_encounter via dest s in
  let! s := on_peer dest (receive q) s in
  let s := emit_event (NeDelivered (sp_id q) dest (sim_tick s)) s in
  let s := count_by total_delivery_latency (Z.max 0 (sim_tick s - sp_created_at q)) s in
  let s := count_by messages_delivered 1 s in
  let s := count_by total_hops (Z.of_nat (size (sp_visited q))) s in
  let s := count_by (if (size (sp_visited q) =? 1)%nat then direct_deliveries else relayed_deliveries) 1 s in
  let path := sorted_peers (sp_visited q) in
  Returns (if (1 <? length path)%nat
           then set_backprops (sim_backprops s ++ [{| bs_packet_id := sp_id q; bs_path := path; bs_index := 0;
                                                      bs_delivered_tick := sim_tick s |}]) s
           else s).

(** Out of the queue of [from], and delivered. *)
Definition hand_over_packet (from : Z) (s : Simulation) (q : SealedPacket) : outcome Simulation :=
  let! s := on_peer from (drop_packet (sp_id q)) s in deliver_packet q from s.
Definition deliver_pending_packets (to : Z) (s : Simulation) (from : Z) : outcome Simulation :=
  let! st := unwrap (sim_peers s !! from) in
  for_each (hand_over_packet from) (retain (λ q, bool_decide (sp_destination q = to)) (pst_relay_queue st)) s.

Definition awake_signal (s : Simulation) (p : Z) : outcome Simulation :=
  let! st := unwrap (sim_peers s !! p) in
  if pst_online st && bool_decide (pst_last_online_tick st = Some (sim_tick s))
  then for_each (deliver_pending_packets p) (sorted_peers (pst_connections st)) s
  else Returns s.
Definition process_awake_signals (s : Simulation) : outcome Simulation := for_each awake_signal (sim_peer_ids s) s.

(** ** Routing *)

Definition dropped (id : SimPacketId) (reason : SimDropReason) (s : Simulation) : Simulation :=
  count_by messages_dropped 1 (emit_event (NeDropped id reason (sim_tick s)) s).

(** Online neighbours that have not seen the packet. *)
Definition relay_candidates (q : SealedPacket) (current : Z) (s : Simulation) : list Z :=
  retain (λ n, negb (sealed_was_visited n q) && is_online n s)
    (sorted_peers (default ∅ (mesh_neighbors current (sim_mesh s)))).

Definition first_of (s : gset Z) (l : list Z) : option Z := head (retain (λ c, bool_decide (c ∈ s)) l).
Definition or_else {A} (o o' : option A) : option A := match o with Some a => Some a | None => o' end.

Definition find_relay_path (q : SealedPacket) (current : Z) (s : Simulation) : outcome Simulation :=
  let dest := sp_destination q in
  let candidates := relay_candidates q current s in
  let! st := unwrap (sim_peers s !! current) in
  let prophet_relay := best_candidate dest candidates (pst_prophet st) in
  let hint_relay := first_of (sp_routing_hints q) candidates in
  let dest_neighbors := default ∅ (mesh_neighbors dest (sim_mesh s)) in
  let best_relay := or_else (or_else (or_else prophet_relay hint_relay) (first_of dest_neighbors candidates)) (head candidates) in
  let s := if bool_decide (is_Some prophet_relay) && bool_decide (is_Some best_relay) then count_by prophet_relay_selections 1 s else s in
  match best_relay with
  | Some relay =>
      match sealed_decrement_ttl q with
      | (_, false) => Returns (dropped (sp_id q) TtlExpired s)
      | (q, true) =>
          let q := sealed_mark_visited relay q in
          let! s := note_encounter current relay s in
          let s := emit_event (NeRelay current relay dest (sp_id q) (sim_tick s)) s in
          on_peer relay (enqueue q) s
      end
  | None =>
      if bool_decide (candidates = []) then on_peer current (enqueue q) s
      else Returns (dropped (sp_id q) NoRouteFound s)
  end.

Definition route_message_with_retry (from to : Z) (payload : list byte) (created_tick retry_count : Z) (s : Simulation) : outcome Simulation :=
  if negb (is_online from s) then
    if match max_sender_retries (sim_config s) with Some m => m <=? retry_count | None => false end
    then Returns (dropped {| spi_source := from; spi_sequence := 0 |} SenderOffline s)
    else Returns (set_pending_sends (sim_pending_sends s ++ [{| pd_from := from; pd_to := to; pd_payload := payload;
                    pd_created_tick := created_tick; pd_retry_count := retry_count + 1 |}]) s)
  else
    let! st := unwrap (sim_peers s !! from) in
    let id := (next_packet_id st).2 in
    let! s := on_peer from (λ st, (next_packet_id st).1) s in
    let q := sealed_new id from to payload (mesh_mutual_peers from to (sim_mesh s)) (sim_tick s) in
    if are_connected from to (sim_mesh s)
    then if is_online to s then deliver_packet q from s else on_peer from (enqueue q) s
    else find_relay_path q from s.

Definition process_send (s : Simulation) (p : PendingSend) : outcome Simulation :=
  if match message_timeout (sim_config s) with Some t => t <? sim_tick s - pd_created_tick p | None => false end
  then Returns (dropped {| spi_source := pd_from p; spi_sequence := 0 |} MessageExpired (count_by messages_expired 1 s))
  else
    route_message_with_retry (pd_from p) (pd_to p) (pd_payload p) (pd_created_tick p) (pd_retry_count p)
      (emit_event (NeSend (pd_from p) (pd_to p) (pd_payload p) (sim_tick s)) s).
Definition process_pending_sends (s : Simulation) : outcome Simulation :=
  for_each process_send (sim_pending_sends s) (set_pending_sends [] s).

Definition forward_packet (p : Z) (s : Simulation) (q : SealedPacket) : outcome Simulation :=
  let direct := are_connected p (sp_destination q) (sim_mesh s) in
  if direct && is_online (sp_destination q) s then hand_over_packet p s q
  else if negb direct then let! s := on_peer p (drop_packet (sp_id q)) s in find_relay_path q p s
  else Returns s.
Definition relay_queue_of (s : Simulation) (p : Z) : outcome Simulation :=
  let! st := unwrap (sim_peers s !! p) in
  if pst_online st then for_each (forward_packet p) (pst_relay_queue st) s else Returns s.
Definition process_relay_queues (s : Simulation) : outcome Simulation := for_each relay_queue_of (sim_peer_ids s) s.

(** ** Confirmations *)

Inductive BackPropFate : Type := BfTimedOut | BfCompleted | BfMoved (from to : Z) | BfWaiting.

(** One round of the loop over the confirmations.  A path is never empty. *)
Definition backprop_fate (s : Simulation) (b : SimBackProp) : outcome BackPropFate :=
  if match backprop_timeout (sim_config s) with Some t => t <? sim_tick s - bs_delivered_tick b | None => false end then Returns BfTimedOut
  else if (length (bs_path b) =? 0)%nat then Panics
  else if (length (bs_path b) - 1 <=? bs_index b)%nat then Returns BfCompleted
  else
    let current_idx := (length (bs_path b) - 1 - bs_index b)%nat in
    let! current := unwrap (bs_path b !! current_idx) in
    let! next := unwrap (bs_path b !! (current_idx - 1)%nat) in
    Returns (if is_online current s && is_online next s then BfMoved current next else BfWaiting).

Fixpoint backprop_fates (s : Simulation) (l : list SimBackProp) : outcome (list (SimBackProp * BackPropFate)) :=
  match l with
  | [] => Returns []
  | b :: l => let! f := backprop_fate s b in let! fs := backprop_fates s l in Returns ((b, f) :: fs)
  end.

Definition moved (bf : SimBackProp * BackPropFate) : SimBackProp :=
  match bf.2 with
  | BfMoved _ _ => {| bs_packet_id := bs_packet_id bf.1; bs_path := bs_path bf.1; bs_index := S (bs_index bf.1);
                      bs_delivered_tick := bs_delivered_tick bf.1 |}
  | _ => bf.1
  end.
Definition fate_timed_out (f : BackPropFate) : bool := match f with BfTimedOut => true | _ => false end.
Definition fate_completed (f : BackPropFate) : bool := match f with BfCompleted => true | _ => false end.
Definition positions_of (p : BackPropFate → bool) (l : list (SimBackProp * BackPropFate)) : list nat :=
  fst <$> retain (λ ib, p ib.2) (imap (λ i bf, (i, bf.2)) l).

(** [Vec::remove]. *)
Definition vec_remove {A} (i : nat) (l : list A) : outcome (A * list A) :=
  match l !! i with Some x => Returns (x, delete i l) | None => Panics end.

Definition remove_timed_out (s : Simulation) (i : nat) : outcome Simulation :=
  let! ' (_, l) := vec_remove i (sim_backprops s) in Returns (count_by backprops_timed_out 1 (set_backprops l s)).

(** [&path[1..len - 1]]. *)
Definition intermediates (path : list Z) : list Z := if (2 <? length path)%nat then drop 1 (take (length path - 1) path) else [].
Definition clean_up (id : SimPacketId) (s : Simulation) (p : Z) : Simulation :=
  match sim_peers s !! p with Some st => set_sim_peers (<[p := drop_packet id st]> (sim_peers s)) s | None => s end.
Definition remove_completed (s : Simulation) (i : nat) : outcome Simulation :=
  let! ' (b, l) := vec_remove i (sim_backprops s) in
  let s := count_by total_backprop_latency (Z.max 0 (sim_tick s - bs_delivered_tick b)) (set_backprops l s) in
  Returns (count_by backprops_completed 1 (foldl (clean_up (bs_packet_id b)) s (intermediates (bs_path b)))).

Definition emit_moves (l : list (SimBackProp * BackPropFate)) (s : Simulation) : Simulation :=
  foldl (λ s bf, match bf.2 with BfMoved c n => emit_event (NeBackProp (bs_packet_id bf.1) c c n (sim_tick s)) s | _ => s end) s l.

(** Time-outs are removed first, from the back, then the completed ones at the
    positions they had before. *)
Definition process_backprops (s : Simulation) : outcome Simulation :=
  let! l := backprop_fates s (sim_backprops s) in
  let s := emit_moves l (set_backprops (moved <$> l) s) in
  let! s := for_each remove_timed_out (reverse (positions_of fate_timed_out l)) s in
  for_each remove_completed (reverse (positions_of fate_completed l)) s.

(** The interval of the peers is the default hour: [force_age] does not panic. *)
Definition age_peer (s : Simulation) (p : Z) : Simulation :=
  match sim_peers s !! p with
  | Some st => set_reads (S (S (sim_reads s))) (set_sim_peers
      (<[p := set_prophet (force_age (clock (sim_reads s)) (clock (S (sim_reads s))) (pst_prophet st)) st]> (sim_peers s)) s)
  | None => s
  end.
Definition process_prophet_aging (s : Simulation) : Simulation :=
  count_by prophet_aging_cycles 1 (foldl age_peer s (sim_peer_ids s)).

(** ** Ticks *)

Definition sim_step (draw : Z → f64) (s : Simulation) : outcome Simulation :=
  let! s := process_state_transitions draw (set_tick (sim_tick s + 1) s) in
  let! s := process_awake_signals s in
  let! s := process_pending_sends s in
  let! s := process_relay_queues s in
  let! s := process_backprops s in
  let interval := prophet_aging_interval (sim_config s) in
  if interval =? 0 then Panics
  else Returns (if sim_tick s mod interval =? 0 then process_prophet_aging s else s).

(** [draws t]: the numbers drawn in tick [t]. *)
Fixpoint sim_run_ticks (draws : Z → Z → f64) (n : nat) (s : Simulation) : outcome Simulation :=
  match n with O => Returns s | S n => let! s := sim_step (draws (sim_tick s + 1)) s in sim_run_ticks draws n s end.
Definition sim_run (draw0 : Z → f64) (draws : Z → Z → f64) (s : Simulation) : outcome Simulation :=
  let s := initialize draw0 s in sim_run_ticks draws (Z.to_nat (max_ticks (sim_config s) - sim_tick s)) s.
End Engine.

(** ** Records of simulated cryptography *)

(** Sums of latencies wrap. *)
Definition count_latency (f : StatField) (n : Z) (s : Simulation) : Simulation := count_by f (wrap_u64 (sim_stats s f + n) - sim_stats s f) s.
Definition record_pq_signature_created (peer latency_us message_size : Z) (s : Simulation) : Simulation :=
  emit_event (NePQSignatureCreated peer latency_us message_size (sim_tick s))
    (count_latency pq_signature_create_time_us latency_us (count_by pq_signatures_created 1 s)).
Definition record_pq_signature_verified (peer sender latency_us : Z) (success : bool) (s : Simulation) : Simulation :=
  emit_event (NePQSignatureVerified peer sender latency_us success (sim_tick s))
    (count_latency pq_signature_verify_time_us latency_us
       (count_by (if success then pq_signatures_verified else pq_signature_failures) 1 s)).
Definition record_kem_encapsulation (peer target latency_us : Z) (s : Simulation) : Simulation :=
  emit_event (NeKEMEncapsulation peer target latency_us (sim_tick s))
    (count_latency pq_kem_encap_time_us latency_us (count_by pq_kem_encapsulations 1 s)).
Definition record_kem_decapsulation (peer sender latency_us : Z) (success : bool) (s : Simulation) : Simulation :=
  emit_event (NeKEMDecapsulation peer sender latency_us success (sim_tick s))
    (count_latency pq_kem_decap_time_us latency_us (count_by (if success then pq_kem_decapsulations else pq_kem_failures) 1 s)).
Definition record_invite_created (from to : Z) (interface_id : string) (s : Simulation) : Simulation :=
  emit_event (NeInviteCreated from to interface_id (sim_tick s)) (count_by invites_created 1 s).
Definition record_invite_accepted (peer : Z) (interface_id : string) (s : Simulation) : Simulation :=
  emit_event (NeInviteAccepted peer interface_id (sim_tick s)) (count_by invites_accepted 1 s).
Definition record_invite_failed (peer : Z) (interface_id reason : string) (s : Simulation) : Simulation :=
  emit_event (NeInviteFailed peer interface_id reason (sim_tick s)) (count_by invites_failed 1 s).

Definition relay_queued (s : Simulation) : nat := foldl Nat.add 0%nat ((λ kv, length (pst_relay_queue kv.2)) <$> map_to_list (sim_peers s)).
Definition sim_online_count (s : Simulation) : nat := length (retain (λ kv, pst_online kv.2) (map_to_list (sim_peers s))).
