(* ===== verification/SimulationFacts.v ===== *)
(** * Properties of the simulation engine

    No message is lost or duplicated: whatever peers do and in whatever order
    they wake and sleep, a message sent is delivered once, dropped, waiting to be
    sent, or in exactly one queue. *)

From Stdlib Require Import Floats.SpecFloat.
From S2P Require Import Prelude Float Bytes Packet Prophet Mesh Simulation.

(** ** Invariant *)

Definition queued (s : Simulation) : list SealedPacket := map_to_list (sim_peers s) ≫= (λ kv, pst_relay_queue kv.2).
Definition delivered_ids (s : Simulation) : list SimPacketId := map_to_list (sim_peers s) ≫= (λ kv, pst_delivered kv.2).

(** A packet on its way: every hop so far is recorded and paid for. *)
Definition packet_ok (q : SealedPacket) : Prop :=
  sp_source q = spi_source (sp_id q) ∧ sp_source q ∈ sp_visited q ∧ 0 <= sp_ttl q ∧ Z.of_nat (size (sp_visited q)) + sp_ttl q = 11.

(** A confirmation of something delivered. *)
Definition backprop_ok (ids : list SimPacketId) (b : SimBackProp) : Prop :=
  (2 <= length (bs_path b))%nat ∧ (bs_index b < length (bs_path b))%nat ∧ bs_packet_id b ∈ ids.

(** The identifiers of everything under way or delivered. *)
Definition known_ids (air : list SealedPacket) (s : Simulation) : list SimPacketId :=
  (sp_id <$> air ++ queued s) ++ delivered_ids s.

(** [air]: packets taken out of a queue and not yet put anywhere; [hand]: sends
    taken out of the queue of pending sends. *)
Record sim_inv (air : list SealedPacket) (hand : nat) (s : Simulation) : Prop := {
  si_mesh : mesh_ok (sim_mesh s);
  si_ids : NoDup (known_ids air s);
  si_fresh id : id ∈ known_ids air s → ∃ st, sim_peers s !! spi_source id = Some st ∧ spi_sequence id < pst_sequence st;
  si_queue p st q : sim_peers s !! p = Some st → q ∈ pst_relay_queue st → packet_ok q ∧ p ∈ sp_visited q;
  si_air : Forall packet_ok air;
  si_inbox p st : sim_peers s !! p = Some st →
    sp_id <$> pst_inbox st = pst_delivered st ∧ Forall (λ q, sp_destination q = p ∧ packet_ok q) (pst_inbox st);
  si_sent : sim_stats s messages_sent = sim_stats s messages_delivered + sim_stats s messages_dropped +
    Z.of_nat (length (sim_pending_sends s) + hand + length (queued s) + length air);
  si_delivered : sim_stats s messages_delivered = Z.of_nat (length (delivered_ids s));
  si_backprops : Forall (backprop_ok (delivered_ids s)) (sim_backprops s);
}.

(** What an operation on packets leaves alone. *)
Record grows (s s' : Simulation) : Prop := {
  gr_config : sim_config s' = sim_config s;
  gr_tick : sim_tick s' = sim_tick s;
  gr_adjacency : mesh_adjacency (sim_mesh s') = mesh_adjacency (sim_mesh s);
  gr_dom : dom (sim_peers s') = dom (sim_peers s);
  gr_peer p st : sim_peers s !! p = Some st → ∃ st', sim_peers s' !! p = Some st' ∧ pst_online st' = pst_online st ∧
    pst_connections st' = pst_connections st ∧ pst_relay_queue st ⊆ pst_relay_queue st';
}.

#[export] Instance grows_preorder : PreOrder grows.
Proof.
  split.
  - intros s. split; try done. eauto.
  - intros a b c Hab Hbc. split; try (etransitivity; [apply Hbc|apply Hab]).
    intros p st Hp. destruct (gr_peer _ _ Hab p st Hp) as (st1 & Hp1 & ? & ? & ?).
    destruct (gr_peer _ _ Hbc p st1 Hp1) as (st2 & Hp2 & ? & ? & ?). exists st2. split_and!; [done|congruence|congruence|set_solver].
Qed.

Lemma grows_online s s' p : grows s s' → is_online p s' = is_online p s.
Proof.
  intros Hg. unfold is_online. destruct (sim_peers s !! p) as [st|] eqn:E.
  - destruct (gr_peer _ _ Hg p st E) as (st' & -> & Ho & _). simpl. by rewrite Ho.
  - assert (sim_peers s' !! p = None) as ->; [|done]. apply not_elem_of_dom. rewrite (gr_dom _ _ Hg). by apply not_elem_of_dom.
Qed.

Lemma grows_connected s s' a b : grows s s' → are_connected a b (sim_mesh s') = are_connected a b (sim_mesh s).
Proof. intros Hg. unfold are_connected. by rewrite (gr_adjacency _ _ Hg). Qed.

(** ** Loops *)

Lemma for_each_inv {A S} (P : list A → S → Prop) (f : S → A → outcome S) l s :
  (∀ x l s, P (x :: l) s → ∃ s', f s x = Returns s' ∧ P l s') → P l s → ∃ s', for_each f l s = Returns s' ∧ P [] s'.
Proof.
  intros Hf. revert s. induction l as [|x l IH]; intros s Hs; simpl; [eauto|].
  destruct (Hf x l s Hs) as (s1 & -> & H1). simpl. by apply IH.
Qed.

(** ** Changing one peer *)

Lemma bind_insert {V B} (f : V → list B) (m : gmap Z V) p st st' : m !! p = Some st → ∃ rest,
  (map_to_list m ≫= λ kv, f kv.2) ≡ₚ f st ++ rest ∧ (map_to_list (<[p := st']> m) ≫= λ kv, f kv.2) ≡ₚ f st' ++ rest.
Proof.
  intros Hp. exists (map_to_list (delete p m) ≫= λ kv, f kv.2). split.
  - by rewrite <-(map_to_list_delete m p st Hp), bind_cons.
  - rewrite <-insert_delete_eq, map_to_list_insert by apply lookup_delete_eq. by rewrite bind_cons.
Qed.

Lemma elem_delivered s p st id : sim_peers s !! p = Some st → id ∈ pst_delivered st → id ∈ delivered_ids s.
Proof. intros Hp Hid. apply list_elem_of_bind. exists (p, st). split; [done|]. by apply elem_of_map_to_list. Qed.

Lemma elem_queued s q : q ∈ queued s ↔ ∃ p st, sim_peers s !! p = Some st ∧ q ∈ pst_relay_queue st.
Proof.
  unfold queued. rewrite list_elem_of_bind. split.
  - intros ([p st] & Hq & Hp%elem_of_map_to_list). eauto.
  - intros (p & st & Hp & Hq). exists (p, st). split; [done|]. by apply elem_of_map_to_list.
Qed.

Lemma set_peer_mesh_ok s p st st' : mesh_ok (sim_mesh s) → sim_peers s !! p = Some st → pst_id st' = pst_id st →
  pst_connections st' = pst_connections st → mesh_ok (sim_mesh (set_sim_peers (<[p := st']> (sim_peers s)) s)).
Proof.
  intros [H1 H2 H3 H4 H5 H6] Hp Hid Hc. split; simpl; try done.
  - intros x stx. rewrite lookup_insert. case_decide; [|apply H1]. intros [= <-]. subst. rewrite Hid, Hc. by apply H1.
  - intros x n Hn. rewrite lookup_insert. case_decide; [eauto|]. by eapply H2.
Qed.

(** The one step behind every operation: one peer changes, packets move between
    its queue, its inbox and the air, and the counters follow. *)
Lemma peer_update_inv air air' hand hand' s s' p st st' new :
  sim_inv air hand s → sim_peers s !! p = Some st → sim_mesh s' = sim_mesh (set_sim_peers (<[p := st']> (sim_peers s)) s) →
  pst_id st' = pst_id st → pst_connections st' = pst_connections st → pst_sequence st <= pst_sequence st' →
  (sp_id <$> air' ++ pst_relay_queue st') ++ pst_delivered st' ≡ₚ new ++ (sp_id <$> air ++ pst_relay_queue st) ++ pst_delivered st →
  NoDup new → Forall (λ i, spi_source i = p ∧ pst_sequence st <= spi_sequence i < pst_sequence st') new →
  Forall packet_ok air' → Forall (λ q, packet_ok q ∧ p ∈ sp_visited q) (pst_relay_queue st') →
  (sp_id <$> pst_inbox st' = pst_delivered st' ∧ Forall (λ q, sp_destination q = p ∧ packet_ok q) (pst_inbox st')) →
  sim_stats s' messages_sent - sim_stats s' messages_delivered - sim_stats s' messages_dropped -
    Z.of_nat (length (sim_pending_sends s') + hand' + length (pst_relay_queue st') + length air') =
  sim_stats s messages_sent - sim_stats s messages_delivered - sim_stats s messages_dropped -
    Z.of_nat (length (sim_pending_sends s) + hand + length (pst_relay_queue st) + length air) →
  sim_stats s' messages_delivered - Z.of_nat (length (pst_delivered st')) =
  sim_stats s messages_delivered - Z.of_nat (length (pst_delivered st)) →
  pst_delivered st ⊆ pst_delivered st' →
  (∀ b, b ∈ sim_backprops s' → b ∈ sim_backprops s ∨ backprop_ok (pst_delivered st') b) →
  sim_inv air' hand' s'.
Proof.
  intros Hinv Hp Hmesh Hid Hconn Hseq Hperm Hnew Hsrc Hair Hqueue Hinbox Hsent Hdel Hsub Hbp.
  assert (Hpeers : sim_peers s' = <[p := st']> (sim_peers s)) by (unfold sim_peers; by rewrite Hmesh).
  destruct (bind_insert pst_relay_queue (sim_peers s) p st st' Hp) as (qr & Hq & Hq').
  destruct (bind_insert pst_delivered (sim_peers s) p st st' Hp) as (dr & Hd & Hd').
  assert (EQ : queued s ≡ₚ pst_relay_queue st ++ qr) by exact Hq.
  assert (EQ' : queued s' ≡ₚ pst_relay_queue st' ++ qr) by (unfold queued; by rewrite Hpeers).
  assert (ED : delivered_ids s ≡ₚ pst_delivered st ++ dr) by exact Hd.
  assert (ED' : delivered_ids s' ≡ₚ pst_delivered st' ++ dr) by (unfold delivered_ids; by rewrite Hpeers). clear Hq Hq' Hd Hd'.
  assert (Hids : known_ids air' s' ≡ₚ new ++ known_ids air s).
  { unfold known_ids. rewrite EQ, EQ', ED, ED'. rewrite !fmap_app in *.
    trans (((sp_id <$> air') ++ (sp_id <$> pst_relay_queue st')) ++ pst_delivered st' ++ (sp_id <$> qr) ++ dr); [solve_Permutation|].
    rewrite (assoc_L (++) _ (pst_delivered st')), Hperm. solve_Permutation. }
  assert (Hfresh : ∀ id, id ∈ new → id ∉ known_ids air s).
  { intros id Hin Hk. destruct (si_fresh _ _ _ Hinv id Hk) as (st0 & Hs & Hlt).
    destruct ((proj1 (Forall_forall _ _) Hsrc) id Hin) as [<- ?]. rewrite Hs in Hp. injection Hp as ->. lia. }
  split.
  - rewrite Hmesh. eapply set_peer_mesh_ok; try done. apply Hinv.
  - rewrite Hids. apply NoDup_app. split_and!; [done|done|apply Hinv].
  - intros id. rewrite Hids, elem_of_app, Hpeers. intros [Hin|Hin].
    + destruct ((proj1 (Forall_forall _ _) Hsrc) id Hin) as [-> ?]. exists st'. rewrite lookup_insert_eq. split; [done|lia].
    + destruct (si_fresh _ _ _ Hinv id Hin) as (st0 & Hs & Hlt). rewrite lookup_insert. case_decide as E; [|eauto].
      subst. exists st'. split; [done|]. rewrite Hs in Hp. injection Hp as ->. lia.
  - intros x stx q. rewrite Hpeers, lookup_insert. case_decide; [|apply Hinv]. intros [= <-] Hq. subst.
    by apply (proj1 (Forall_forall _ _) Hqueue).
  - done.
  - intros x stx. rewrite Hpeers, lookup_insert. case_decide; [|apply Hinv]. intros [= <-]. by subst.
  - pose proof (si_sent _ _ _ Hinv). rewrite EQ in *. rewrite EQ'. rewrite !length_app in *. lia.
  - pose proof (si_delivered _ _ _ Hinv). rewrite ED in *. rewrite ED'. rewrite !length_app in *. lia.
  - apply Forall_forall. intros b Hb. destruct (Hbp b Hb) as [Hin|(? & ? & ?)].
    + destruct ((proj1 (Forall_forall _ _) (si_backprops _ _ _ Hinv)) b Hin) as (? & ? & Hi). split_and!; try done.
      rewrite ED'. rewrite ED in Hi. set_solver.
    + split_and!; try done. rewrite ED'. set_solver.
Qed.

(** Counting. *)
Ltac counts := cbn; unfold counted; simpl; rewrite ?length_app; simpl; lia.

(** ** Operations that move no packet *)

(** Same peers, sends, confirmations and counts of messages. *)
Definition alike (s s' : Simulation) : Prop :=
  sim_mesh s' = sim_mesh s ∧ sim_pending_sends s' = sim_pending_sends s ∧ sim_backprops s' = sim_backprops s ∧
  sim_stats s' messages_sent = sim_stats s messages_sent ∧ sim_stats s' messages_delivered = sim_stats s messages_delivered ∧
  sim_stats s' messages_dropped = sim_stats s messages_dropped.

Lemma alike_inv air hand s s' : alike s s' → sim_inv air hand s → sim_inv air hand s'.
Proof.
  intros (Hm & Hp & Hb & H1 & H2 & H3) Hi.
  assert (Hpe : sim_peers s' = sim_peers s) by (unfold sim_peers; by rewrite Hm).
  assert (Hq : queued s' = queued s) by (unfold queued; by rewrite Hpe).
  assert (Hd : delivered_ids s' = delivered_ids s) by (unfold delivered_ids; by rewrite Hpe).
  assert (Hk : known_ids air s' = known_ids air s) by (unfold known_ids; by rewrite Hq, Hd).
  destruct Hi. split; rewrite ?Hm, ?Hk, ?Hpe, ?Hb, ?Hd, ?H1, ?H2, ?H3, ?Hp, ?Hq; done.
Qed.

Lemma same_mesh_grows s s' : sim_config s' = sim_config s → sim_tick s' = sim_tick s → sim_mesh s' = sim_mesh s → grows s s'.
Proof.
  intros Hc Ht Hm. assert (Hpe : sim_peers s' = sim_peers s) by (unfold sim_peers; by rewrite Hm).
  split; rewrite ?Hpe; try done; [by rewrite Hm|eauto].
Qed.

(** The packets of a peer, and who it is. *)
Definition same_packets (st st' : MeshPeer) : Prop :=
  pst_id st' = pst_id st ∧ pst_connections st' = pst_connections st ∧ pst_sequence st' = pst_sequence st ∧
  pst_inbox st' = pst_inbox st ∧ pst_relay_queue st' = pst_relay_queue st ∧ pst_delivered st' = pst_delivered st.

Lemma quiet_inv air hand s p st st' : sim_inv air hand s → sim_peers s !! p = Some st → same_packets st st' →
  sim_inv air hand (set_sim_peers (<[p := st']> (sim_peers s)) s).
Proof.
  intros Hi Hp (H1 & H2 & H3 & H4 & H5 & H6).
  eapply (peer_update_inv air air hand hand s _ p st st' []); rewrite ?H3, ?H4, ?H5, ?H6; try done; try apply NoDup_nil_2; try apply Forall_nil_2.
  - apply Hi.
  - apply Forall_forall. intros q. by apply (si_queue _ _ _ Hi p st).
  - by apply (si_inbox _ _ _ Hi p st).
  - by left.
Qed.

Lemma update_grows s p st st' : sim_peers s !! p = Some st → pst_online st' = pst_online st →
  pst_connections st' = pst_connections st → pst_relay_queue st ⊆ pst_relay_queue st' →
  grows s (set_sim_peers (<[p := st']> (sim_peers s)) s).
Proof.
  intros Hp H1 H2 H3. split; try done.
  - simpl. apply dom_insert_lookup_L. eauto.
  - intros x stx Hx. simpl. unfold sim_peers at 1. simpl. rewrite lookup_insert. case_decide; [|eauto]. subst. rewrite Hp in Hx.
    injection Hx as <-. eauto.
Qed.

Lemma on_peer_some p f s st : sim_peers s !! p = Some st → on_peer p f s = Returns (set_sim_peers (<[p := f st]> (sim_peers s)) s).
Proof. intros Hp. unfold on_peer. by rewrite Hp. Qed.

Section Packets.
Context (clock : nat → Z).

Lemma note_encounter_inv air hand s via other : sim_inv air hand s → is_Some (sim_peers s !! via) →
  ∃ s', note_encounter clock via other s = Returns s' ∧ sim_inv air hand s' ∧ grows s s'.
Proof.
  intros Hi [st Hst]. unfold note_encounter. rewrite (on_peer_some _ _ _ _ Hst). simpl. eexists. split; [done|].
  set (st' := set_prophet _ st). set (s1 := set_sim_peers _ s).
  assert (H1 : sim_inv air hand s1) by (by eapply quiet_inv). assert (G1 : grows s s1) by (by eapply update_grows).
  split; [by apply (alike_inv _ _ s1)|]. etransitivity; [exact G1|by apply same_mesh_grows].
Qed.

(** ** Delivery *)

Lemma grows_lookup s s' p : grows s s' → is_Some (sim_peers s !! p) → is_Some (sim_peers s' !! p).
Proof. intros Hg [st Hp]. destruct (gr_peer _ _ Hg p st Hp) as (? & ? & _). eauto. Qed.

Lemma visited_path q : length (sorted_peers (sp_visited q)) = size (sp_visited q).
Proof. unfold sorted_peers. by rewrite sort_by_perm. Qed.

Lemma deliver_packet_inv air hand s q via : sim_inv (q :: air) hand s → is_Some (sim_peers s !! via) →
  is_Some (sim_peers s !! sp_destination q) →
  ∃ s', deliver_packet clock q via s = Returns s' ∧ sim_inv air hand s' ∧ grows s s'.
Proof.
  intros Hi Hvia Hdest. unfold deliver_packet. destruct (note_encounter_inv _ _ s via (sp_destination q) Hi Hvia) as (s1 & -> & H1 & G1). simpl.
  destruct (grows_lookup _ _ _ G1 Hdest) as [st Hst]. rewrite (on_peer_some _ _ _ _ Hst). simpl. eexists. split; [done|].
  pose proof (si_air _ _ _ H1) as [Hq Hair]%Forall_cons. destruct (si_inbox _ _ _ H1 _ _ Hst) as [Hib1 Hib2].
  split.
  - eapply (peer_update_inv (q :: air) air hand hand s1 _ (sp_destination q) st (receive q st) []); try done; try apply NoDup_nil_2; try apply Forall_nil_2.
    + by destruct (1 <? _)%nat.
    + simpl. rewrite !fmap_app. simpl. solve_Permutation.
    + apply Forall_forall. intros q'. by apply (si_queue _ _ _ H1 _ _ _ Hst).
    + simpl. rewrite fmap_app, Hib1. split; [done|]. apply Forall_app. split; [done|]. by apply Forall_singleton.
    + destruct (1 <? _)%nat, (_ =? 1)%nat; counts.
    + destruct (1 <? _)%nat, (_ =? 1)%nat; counts.
    + simpl. set_solver.
    + intros b. destruct (Nat.ltb_spec 1 (length (sorted_peers (sp_visited q)))) as [Hlen|]; simpl; [|by left].
      intros [Hb| ->%list_elem_of_singleton]%elem_of_app; [by left|right]. unfold backprop_ok. simpl. split_and!; [lia|lia|set_solver].
  - etransitivity; [exact G1|]. etransitivity; [by eapply (update_grows s1 _ st (receive q st))|].
    apply same_mesh_grows; by destruct (1 <? _)%nat.
Qed.

(** ** Packets between a queue and the air *)

Lemma queue_NoDup air hand s p st : sim_inv air hand s → sim_peers s !! p = Some st → NoDup (sp_id <$> pst_relay_queue st).
Proof.
  intros Hi Hp. destruct (bind_insert pst_relay_queue (sim_peers s) p st st Hp) as (rest & Hr & _). pose proof (si_ids _ _ _ Hi) as Hn.
  unfold known_ids, queued in Hn. rewrite Hr in Hn. apply NoDup_app in Hn as (Hn & _). rewrite !fmap_app in Hn.
  apply NoDup_app in Hn as (_ & _ & Hn). by apply NoDup_app in Hn as (Hn & _).
Qed.

Lemma drop_packet_queue air hand s p st q : sim_inv air hand s → sim_peers s !! p = Some st → q ∈ pst_relay_queue st →
  pst_relay_queue st ≡ₚ q :: pst_relay_queue (drop_packet (sp_id q) st).
Proof.
  intros Hi Hp Hq. pose proof (queue_NoDup _ _ _ _ _ Hi Hp) as Hn.
  unfold drop_packet. simpl. revert Hn Hq. generalize (pst_relay_queue st) as l. clear. induction l as [|x l IH]; [by intros _ ?%not_elem_of_nil|].
  rewrite fmap_cons. intros [Hx Hn]%NoDup_cons [->|Hq]%elem_of_cons; simpl.
  - rewrite bool_decide_true by done. simpl. rewrite retain_all; [done|]. intros y Hy. apply negb_true_iff, bool_decide_eq_false.
    intros E. apply Hx. rewrite <-E. by apply list_elem_of_fmap_2.
  - rewrite bool_decide_false; [|intros E; apply Hx; rewrite E; by apply list_elem_of_fmap_2]. simpl. rewrite (IH Hn Hq) at 1. constructor.
Qed.

Lemma drop_packet_others st q q' : q' ∈ pst_relay_queue st → sp_id q' ≠ sp_id q → q' ∈ pst_relay_queue (drop_packet (sp_id q) st).
Proof. intros Hq Hne. simpl. apply elem_of_retain. split; [done|]. by rewrite bool_decide_false. Qed.

(** Taken out of a queue. *)
Lemma take_packet_inv air hand s p st q : sim_inv air hand s → sim_peers s !! p = Some st → q ∈ pst_relay_queue st →
  sim_inv (q :: air) hand (set_sim_peers (<[p := drop_packet (sp_id q) st]> (sim_peers s)) s).
Proof.
  intros Hi Hp Hq. pose proof (drop_packet_queue _ _ _ _ _ _ Hi Hp Hq) as Hperm. pose proof (si_queue _ _ _ Hi p st) as Hok.
  eapply (peer_update_inv air (q :: air) hand hand s _ p st (drop_packet (sp_id q) st) []); try done; try apply NoDup_nil_2; try apply Forall_nil_2.
  - rewrite !fmap_app, Hperm. simpl. solve_Permutation.
  - constructor; [by apply (Hok q)|apply Hi].
  - apply Forall_forall. intros q' [Hin _]%elem_of_retain. by apply Hok.
  - by apply (si_inbox _ _ _ Hi p st).
  - rewrite Hperm. counts.
  - by left.
Qed.

(** Put into a queue. *)
Lemma enqueue_inv air hand s p st q : sim_inv (q :: air) hand s → sim_peers s !! p = Some st → p ∈ sp_visited q →
  sim_inv air hand (set_sim_peers (<[p := enqueue q st]> (sim_peers s)) s).
Proof.
  intros Hi Hp Hv. pose proof (si_air _ _ _ Hi) as [Hq Hair]%Forall_cons.
  eapply (peer_update_inv (q :: air) air hand hand s _ p st (enqueue q st) []); try done; try apply NoDup_nil_2; try apply Forall_nil_2.
  - simpl. rewrite !fmap_app. simpl. solve_Permutation.
  - simpl. apply Forall_app. split; [|by apply Forall_singleton]. apply Forall_forall. intros q'. by apply (si_queue _ _ _ Hi p st).
  - by apply (si_inbox _ _ _ Hi p st).
  - simpl. counts.
  - by left.
Qed.

Lemma enqueue_grows s p st q : sim_peers s !! p = Some st → grows s (set_sim_peers (<[p := enqueue q st]> (sim_peers s)) s).
Proof. intros Hp. eapply update_grows; try done. simpl. set_solver. Qed.

(** Dropped for good. *)
Lemma dropped_inv air hand s q id r : sim_inv (q :: air) hand s → sim_inv air hand (dropped id r s).
Proof.
  intros Hi. pose proof (si_ids _ _ _ Hi) as Hn. unfold known_ids in Hn. simpl in Hn. apply NoDup_cons in Hn as [_ Hn].
  pose proof (si_air _ _ _ Hi) as [Hq Hair]%Forall_cons. split; try apply Hi; try done.
  - intros i Hin. apply (si_fresh _ _ _ Hi). unfold known_ids. simpl. by right.
  - pose proof (si_sent _ _ _ Hi) as Hs. change (queued (dropped id r s)) with (queued s). unfold dropped. revert Hs. counts.
Qed.

(** The same packet after one more hop. *)
Lemma hop_inv air hand s q relay q' : sim_inv (q :: air) hand s → sealed_decrement_ttl q = (q', true) → relay ∉ sp_visited q →
  sim_inv (sealed_mark_visited relay q' :: air) hand s.
Proof.
  unfold sealed_decrement_ttl. intros Hi. destruct (Z.eqb_spec (sp_ttl q) 0); [done|]. intros [= <-] Hr.
  pose proof (si_air _ _ _ Hi) as [(H1 & H2 & H3 & H4) Hair]%Forall_cons. split; try apply Hi.
  constructor; [|done]. split_and!; simpl; [done|set_solver|lia|]. rewrite size_union by set_solver. rewrite size_singleton. lia.
Qed.

(** ** Relaying *)

Lemma elem_relay_candidates q current s n : n ∈ relay_candidates q current s →
  linked_in (sim_mesh s) current n ∧ n ∉ sp_visited q ∧ is_online n s = true.
Proof.
  unfold relay_candidates, mesh_neighbors. intros [Hn Hf]%elem_of_retain. apply andb_true_iff in Hf as [Hv Ho].
  unfold sorted_peers in Hn. rewrite (elem_of_Permutation_proper _ _ _ (sort_by_perm Z.leb _)), elem_of_elements in Hn.
  split_and!; [|by apply negb_true_iff, bool_decide_eq_false in Hv|done]. apply linked_lookup.
  destruct (mesh_adjacency (sim_mesh s) !! current) eqn:E; simpl in Hn; [eauto|set_solver].
Qed.

Lemma head_elem {A} (l : list A) x : head l = Some x → x ∈ l.
Proof. destruct l; simpl; [done|]. intros [= ->]. left. Qed.

Lemma max_by_elem {A} (cmp : A → A → comparison) l x : max_by cmp l = Some x → x ∈ l.
Proof.
  destruct l as [|y l]; [done|]. simpl. intros [= <-]. revert y. induction l as [|z l IH]; intros y; simpl; [left|].
  specialize (IH (match cmp y z with Gt => y | _ => z end)). apply elem_of_cons in IH as [->|Hin]; [|by right; right].
  destruct (cmp y z); [right; left..|left].
Qed.

(** The relay is always a candidate, and there is one whenever there is a
    candidate. *)
Lemma best_relay_spec q current s (r : ProphetState) hints near :
  let l := relay_candidates q current s in
  let best := or_else (or_else (or_else (best_candidate (sp_destination q) l r) (first_of hints l)) (first_of near l)) (head l) in
  (∀ relay, best = Some relay → relay ∈ l) ∧ (best = None → l = []).
Proof.
  intros l. assert (Hb : ∀ x, best_candidate (sp_destination q) l r = Some x → x ∈ l).
  { intros x (y & Hy & Hx)%bind_Some. destruct (SFltb _ _); simplify_eq. apply max_by_elem in Hy. by apply elem_of_retain in Hy as [? _]. }
  assert (Hf : ∀ hs x, first_of hs l = Some x → x ∈ l) by (intros hs x Hx%head_elem; by apply elem_of_retain in Hx as [? _]).
  unfold or_else. split.
  - intros relay. destruct (best_candidate _ _ _) eqn:E1; [intros [= <-]; eauto|].
    destruct (first_of hints l) eqn:E2; [intros [= <-]; eauto|]. destruct (first_of near l) eqn:E3; [intros [= <-]; eauto|]. apply head_elem.
  - destruct (best_candidate _ _ _); [done|]. destruct (first_of hints l); [done|]. destruct (first_of near l); [done|]. by destruct l.
Qed.

Lemma find_relay_path_inv air hand s q current : sim_inv (q :: air) hand s → is_Some (sim_peers s !! current) → current ∈ sp_visited q →
  ∃ s', find_relay_path clock q current s = Returns s' ∧ sim_inv air hand s' ∧ grows s s'.
Proof.
  intros Hi [st Hst] Hv. unfold find_relay_path. rewrite Hst. simpl.
  pose proof (best_relay_spec q current s (pst_prophet st) (sp_routing_hints q) (default ∅ (mesh_neighbors (sp_destination q) (sim_mesh s)))) as [Hb Hnone].
  simpl in Hb, Hnone. set (best := or_else _ _) in *.
  set (s0 := if _ && _ then count_by prophet_relay_selections 1 s else s).
  assert (A0 : sim_inv (q :: air) hand s0) by (apply (alike_inv _ _ s); [unfold s0; by destruct (_ && _)|done]).
  assert (G0 : grows s s0) by (unfold s0; destruct (_ && _); by apply same_mesh_grows).
  destruct best as [relay|] eqn:Eb.
  - destruct (elem_relay_candidates _ _ _ _ (Hb relay eq_refl)) as (Hl & Hrv & _).
    destruct (sealed_decrement_ttl q) as [q1 [|]] eqn:Et.
    + pose proof (hop_inv _ _ _ _ _ _ A0 Et Hrv) as A1. assert (Hq1 : relay ∈ sp_visited (sealed_mark_visited relay q1)) by (simpl; set_solver).
      destruct (note_encounter_inv _ _ s0 current relay A1) as (s1 & -> & I1 & G1); [apply (grows_lookup s); eauto|]. simpl.
      set (s2 := emit_event _ s1). assert (I2 : sim_inv (sealed_mark_visited relay q1 :: air) hand s2) by (by apply (alike_inv _ _ s1)).
      assert (G2 : grows s s2) by (etransitivity; [exact G0|]; etransitivity; [exact G1|by apply same_mesh_grows]).
      destruct (grows_lookup s s2 relay G2) as [rs Hrs]; [by eapply linked_peer; [apply Hi|]|].
      rewrite (on_peer_some _ _ _ _ Hrs). eexists. split; [done|]. split; [by apply enqueue_inv|].
      etransitivity; [exact G2|by apply enqueue_grows].
    + eexists. split; [done|]. split; [by eapply dropped_inv|]. etransitivity; [exact G0|by apply same_mesh_grows].
  - rewrite bool_decide_true by auto. destruct (grows_lookup s s0 current G0) as [st0 Hst0]; [eauto|].
    rewrite (on_peer_some _ _ _ _ Hst0). eexists. split; [done|]. split; [by apply enqueue_inv|].
    etransitivity; [exact G0|by apply enqueue_grows].
Qed.

(** ** Sends *)

(** One pending send in hand is settled. *)
Lemma settle_inv hand s : sim_inv [] (S hand) s →
  sim_inv [] hand (count_by messages_dropped 1 s).
Proof.
  intros Hi. split; try apply Hi. pose proof (si_sent _ _ _ Hi) as Hs. change (queued (count_by messages_dropped 1 s)) with (queued s).
  revert Hs. counts.
Qed.

Lemma requeue_inv hand s p : sim_inv [] (S hand) s → sim_inv [] hand (set_pending_sends (sim_pending_sends s ++ [p]) s).
Proof.
  intros Hi. split; try apply Hi. pose proof (si_sent _ _ _ Hi) as Hs.
  change (queued (set_pending_sends (sim_pending_sends s ++ [p]) s)) with (queued s). revert Hs. counts.
Qed.

(** A new packet takes the next number of its sender. *)
Lemma launch_inv hand s p st to payload hints t : sim_inv [] (S hand) s → sim_peers s !! p = Some st →
  sim_inv [sealed_new (next_packet_id st).2 p to payload hints t] hand
    (set_sim_peers (<[p := (next_packet_id st).1]> (sim_peers s)) s).
Proof.
  intros Hi Hp. destruct (mo_peer _ (si_mesh _ _ _ Hi) p st Hp) as [Hid _].
  eapply (peer_update_inv [] [_] (S hand) hand s _ p st (next_packet_id st).1 [(next_packet_id st).2]); try done.
  - simpl. lia.
  - apply NoDup_singleton.
  - apply Forall_singleton. simpl. rewrite Hid. split; [done|lia].
  - apply Forall_singleton. split_and!; [done|simpl; set_solver|simpl; lia|]. cbn [sealed_new sp_visited sp_ttl]. rewrite size_singleton. lia.
  - apply Forall_forall. intros q. by apply (si_queue _ _ _ Hi p st).
  - by apply (si_inbox _ _ _ Hi p st).
  - simpl. counts.
  - by left.
Qed.

Lemma route_inv hand s from to payload created retry : sim_inv [] (S hand) s →
  ∃ s', route_message_with_retry clock from to payload created retry s = Returns s' ∧ sim_inv [] hand s' ∧ grows s s'.
Proof.
  intros Hi. unfold route_message_with_retry. destruct (is_online from s) eqn:Eon; simpl.
  - unfold is_online in Eon. destruct (sim_peers s !! from) as [st|] eqn:Hst; [|done]. rewrite (on_peer_some _ _ _ _ Hst). cbn [unwrap obind].
    set (s1 := set_sim_peers _ s). set (q := sealed_new _ _ _ _ _ _).
    assert (I1 : sim_inv [q] hand s1) by (by apply launch_inv). assert (G1 : grows s s1) by (by eapply update_grows).
    assert (Hfrom : is_Some (sim_peers s1 !! from)) by (apply (grows_lookup s); eauto).
    destruct (are_connected from to (sim_mesh s1)) eqn:Ec; [destruct (is_online to s1) eqn:Et|].
    + destruct (deliver_packet_inv [] hand s1 q from I1 Hfrom) as (s' & -> & I' & G').
      { simpl. unfold is_online in Et. by destruct (sim_peers s1 !! to). }
      eexists. split; [done|]. split; [done|by etransitivity].
    + destruct Hfrom as [st1 Hst1]. rewrite (on_peer_some _ _ _ _ Hst1). eexists. split; [done|].
      split; [apply enqueue_inv; [done..|simpl; set_solver]|]. etransitivity; [exact G1|by apply enqueue_grows].
    + destruct (find_relay_path_inv [] hand s1 q from I1 Hfrom) as (s' & -> & I' & G'); [simpl; set_solver|].
      eexists. split; [done|]. split; [done|by etransitivity].
  - destruct (match max_sender_retries _ with Some _ => _ | None => _ end); (eexists; split; [done|]).
    + split; [|by apply same_mesh_grows]. unfold dropped. apply settle_inv. by apply (alike_inv _ _ s).
    + split; [by apply requeue_inv|by apply same_mesh_grows].
Qed.

(** ** The loops of a tick *)

Lemma process_send_inv hand s p : sim_inv [] (S hand) s → ∃ s', process_send clock s p = Returns s' ∧ sim_inv [] hand s' ∧ grows s s'.
Proof.
  intros Hi. unfold process_send. destruct (match message_timeout _ with Some _ => _ | None => _ end).
  - eexists. split; [done|]. split; [|by apply same_mesh_grows]. unfold dropped. apply settle_inv. by apply (alike_inv _ _ s).
  - set (s1 := emit_event _ s). destruct (route_inv hand s1 (pd_from p) (pd_to p) (pd_payload p) (pd_created_tick p) (pd_retry_count p)) as (s' & Hr & I' & G').
    { by apply (alike_inv _ _ s). }
    exists s'. split_and!; [done|done|]. etransitivity; [|exact G']. by apply same_mesh_grows.
Qed.

Lemma process_pending_inv s : sim_inv [] 0 s → ∃ s', process_pending_sends clock s = Returns s' ∧ sim_inv [] 0 s' ∧ grows s s'.
Proof.
  intros Hi. apply (for_each_inv (λ l s', sim_inv [] (length l) s' ∧ grows s s')).
  - intros x l s1 [I1 G1]. destruct (process_send_inv (length l) s1 x I1) as (s2 & -> & I2 & G2). exists s2. split_and!; [done|done|by etransitivity].
  - split; [|by apply same_mesh_grows]. split; try apply Hi. pose proof (si_sent _ _ _ Hi) as Hs.
    change (queued (set_pending_sends [] s)) with (queued s). revert Hs. simpl. lia.
Qed.

(** Nobody comes or goes, and no connection changes. *)
Definition same_net (s s' : Simulation) : Prop :=
  dom (sim_peers s') = dom (sim_peers s) ∧ mesh_adjacency (sim_mesh s') = mesh_adjacency (sim_mesh s) ∧
  sim_config s' = sim_config s.

#[local] Instance same_net_preorder : PreOrder same_net.
Proof. split; [done|]. intros a b c (H1 & H2 & H3) (H4 & H5 & H6). split_and!; congruence. Qed.

Lemma grows_same_net s s' : grows s s' → same_net s s'.
Proof. intros Hg. split_and!; apply Hg. Qed.

(** One packet of the queue of [p] is dealt with, the others stay. *)
Definition dealt (p : Z) (st : MeshPeer) (q : SealedPacket) (s s2 : Simulation) : Prop :=
  sim_inv [] 0 s2 ∧ same_net s s2 ∧
  ∃ st2, sim_peers s2 !! p = Some st2 ∧ ∀ q', q' ∈ pst_relay_queue st → sp_id q' ≠ sp_id q → q' ∈ pst_relay_queue st2.

Lemma take_and_deal (f : Simulation → outcome Simulation) s p st q :
  (∀ s', sim_inv [q] 0 s' → same_net s s' → ∃ s2, f s' = Returns s2 ∧ sim_inv [] 0 s2 ∧ grows s' s2) →
  sim_inv [] 0 s → sim_peers s !! p = Some st → q ∈ pst_relay_queue st →
  ∃ s2, (let! s := on_peer p (drop_packet (sp_id q)) s in f s) = Returns s2 ∧ dealt p st q s s2.
Proof.
  intros Hf Hi Hp Hq. rewrite (on_peer_some _ _ _ _ Hp). cbn [obind]. set (s1 := set_sim_peers _ s).
  assert (I1 : sim_inv [q] 0 s1) by (by apply take_packet_inv).
  assert (N1 : same_net s s1) by (split_and!; [apply dom_insert_lookup_L; eauto|done|done]).
  destruct (Hf s1 I1 N1) as (s2 & -> & I2 & G2). exists s2. split; [done|]. split_and!; [done|by etransitivity; [|apply grows_same_net]|].
  assert (Hp1 : sim_peers s1 !! p = Some (drop_packet (sp_id q) st)) by apply lookup_insert_eq.
  destruct (gr_peer _ _ G2 p _ Hp1) as (st2 & Hst2 & _ & _ & Hsub). exists st2. split; [done|].
  intros q' Hq' Hne. apply Hsub. by apply drop_packet_others.
Qed.

Lemma queue_loop (g : Simulation → SealedPacket → outcome Simulation) p s st l :
  (∀ s1 st1 q, sim_inv [] 0 s1 → same_net s s1 → sim_peers s1 !! p = Some st1 → q ∈ pst_relay_queue st1 → q ∈ l →
     ∃ s2, g s1 q = Returns s2 ∧ dealt p st1 q s1 s2) →
  sim_inv [] 0 s → sim_peers s !! p = Some st → l ⊆ pst_relay_queue st → NoDup (sp_id <$> l) →
  ∃ s', for_each g l s = Returns s' ∧ sim_inv [] 0 s' ∧ same_net s s'.
Proof.
  intros Hg Hi Hp Hl Hn.
  destruct (for_each_inv (λ l' s', sim_inv [] 0 s' ∧ same_net s s' ∧ NoDup (sp_id <$> l') ∧ l' ⊆ l ∧
    ∃ st', sim_peers s' !! p = Some st' ∧ l' ⊆ pst_relay_queue st') g l s) as (s' & H1 & H2 & H3 & _); [| |by exists s'].
  - intros q l' s1 (I1 & N1 & Hn1 & Hs1 & st1 & Hp1 & Hq1). rewrite fmap_cons in Hn1. apply NoDup_cons in Hn1 as [Hq Hn1].
    destruct (Hg s1 st1 q I1 N1 Hp1) as (s2 & -> & I2 & N2 & st2 & Hp2 & Hq2); [set_solver|set_solver|].
    exists s2. split; [done|]. split_and!; [done|by etransitivity|done|set_solver|]. exists st2. split; [done|].
    intros q' Hq'. apply Hq2; [set_solver|]. intros E. apply Hq. rewrite <-E. by apply list_elem_of_fmap_2.
  - split_and!; [done|done|done|done|eauto].
Qed.

Lemma same_net_lookup s s' p : same_net s s' → is_Some (sim_peers s !! p) → is_Some (sim_peers s' !! p).
Proof. intros [Hd _]. rewrite <-!elem_of_dom. by rewrite Hd. Qed.

Lemma hand_over_inv s p st q : sim_inv [] 0 s → sim_peers s !! p = Some st → q ∈ pst_relay_queue st →
  is_Some (sim_peers s !! sp_destination q) → ∃ s2, hand_over_packet clock p s q = Returns s2 ∧ dealt p st q s s2.
Proof.
  intros Hi Hp Hq Hd. unfold hand_over_packet. apply take_and_deal; [|done..]. intros s' I' N'.
  apply deliver_packet_inv; [done|apply (same_net_lookup s); eauto|by apply (same_net_lookup s)].
Qed.

Lemma deliver_pending_inv to s from : sim_inv [] 0 s → is_Some (sim_peers s !! from) → is_Some (sim_peers s !! to) →
  ∃ s', deliver_pending_packets clock to s from = Returns s' ∧ sim_inv [] 0 s' ∧ same_net s s'.
Proof.
  intros Hi [st Hst] Hto. unfold deliver_pending_packets. rewrite Hst. simpl. eapply (queue_loop _ from s st); try done.
  - intros s1 st1 q I1 N1 Hp1 Hq Hin. apply elem_of_retain in Hin as [_ Hin%bool_decide_eq_true].
    eapply hand_over_inv; try done. rewrite Hin. by apply (same_net_lookup s).
  - intros q [? _]%elem_of_retain. done.
  - apply NoDup_fmap_retain. by eapply queue_NoDup.
Qed.

Lemma connections_linked s p st n : mesh_ok (sim_mesh s) → sim_peers s !! p = Some st → n ∈ pst_connections st → linked_in (sim_mesh s) p n.
Proof. intros Hm Hp Hn. apply linked_lookup. destruct (mo_peer _ Hm p st Hp) as [_ ->]. eauto. Qed.

Lemma elem_sorted_peers x (X : gset Z) : x ∈ sorted_peers X ↔ x ∈ X.
Proof. unfold sorted_peers. by rewrite (elem_of_Permutation_proper _ _ _ (sort_by_perm Z.leb _)), elem_of_elements. Qed.

(** A loop over peers. *)
Lemma peer_loop (f : Simulation → Z → outcome Simulation) l s :
  (∀ s p, sim_inv [] 0 s → is_Some (sim_peers s !! p) → ∃ s', f s p = Returns s' ∧ sim_inv [] 0 s' ∧ same_net s s') →
  (∀ p, p ∈ l → is_Some (sim_peers s !! p)) → sim_inv [] 0 s → ∃ s', for_each f l s = Returns s' ∧ sim_inv [] 0 s' ∧ same_net s s'.
Proof.
  intros Hf Hl Hi. destruct (for_each_inv (λ l' s', sim_inv [] 0 s' ∧ same_net s s' ∧ ∀ p, p ∈ l' → is_Some (sim_peers s' !! p)) f l s)
    as (s' & H1 & H2 & H3 & _); [| |by exists s'].
  - intros p l' s1 (I1 & N1 & Hl1). destruct (Hf s1 p I1) as (s2 & -> & I2 & N2); [apply Hl1; left|].
    exists s2. split_and!; [done|done|by etransitivity|]. intros p' Hp'. apply (same_net_lookup s1); [done|]. apply Hl1. by right.
  - done.
Qed.

Lemma all_peers_loop (f : Simulation → Z → outcome Simulation) s :
  (∀ s p, sim_inv [] 0 s → is_Some (sim_peers s !! p) → ∃ s', f s p = Returns s' ∧ sim_inv [] 0 s' ∧ same_net s s') →
  sim_inv [] 0 s → ∃ s', for_each f (sim_peer_ids s) s = Returns s' ∧ sim_inv [] 0 s' ∧ same_net s s'.
Proof. intros Hf. apply peer_loop; [done|]. intros p Hp%elem_sorted_peers. by apply elem_of_dom. Qed.

Lemma process_awake_inv s : sim_inv [] 0 s → ∃ s', process_awake_signals clock s = Returns s' ∧ sim_inv [] 0 s' ∧ same_net s s'.
Proof.
  apply all_peers_loop. clear s. intros s p Hi [st Hst]. unfold awake_signal. rewrite Hst. simpl. destruct (_ && _); [|by exists s].
  assert (Hall : ∀ n, n ∈ sorted_peers (pst_connections st) → is_Some (sim_peers s !! n)).
  { intros n Hn%elem_sorted_peers. by eapply (linked_peer _ p); [apply Hi|eapply connections_linked; [apply Hi|..]]. }
  destruct (for_each_inv (λ l s', sim_inv [] 0 s' ∧ same_net s s' ∧ ∀ n, n ∈ l → is_Some (sim_peers s !! n)) (deliver_pending_packets clock p)
    (sorted_peers (pst_connections st)) s) as (s' & H1 & H2 & H3 & _); [|done|by exists s'].
  intros n l s1 (I1 & N1 & Hl). destruct (deliver_pending_inv p s1 n I1) as (s2 & -> & I2 & N2).
  - apply (same_net_lookup s); [done|]. apply Hl. left.
  - apply (same_net_lookup s); eauto.
  - exists s2. split_and!; [done|done|by etransitivity|]. intros n' Hn'. apply Hl. by right.
Qed.

Lemma process_relay_inv s : sim_inv [] 0 s → ∃ s', process_relay_queues clock s = Returns s' ∧ sim_inv [] 0 s' ∧ same_net s s'.
Proof.
  apply all_peers_loop. clear s. intros s p Hi [st Hst]. unfold relay_queue_of. rewrite Hst. simpl. destruct (pst_online st); [|by exists s].
  eapply (queue_loop _ p s st); try done; [|by eapply queue_NoDup].
  intros s1 st1 q I1 N1 Hp1 Hq _. unfold forward_packet. destruct (are_connected p _ _) eqn:Ec; simpl; [destruct (is_online _ s1) eqn:Eo|].
  - eapply hand_over_inv; try done. unfold is_online in Eo. by destruct (sim_peers s1 !! sp_destination q).
  - exists s1. split; [done|]. split_and!; [done|done|]. exists st1. split; [done|]. intros; done.
  - apply take_and_deal; [|done..]. intros s' I' N'. apply find_relay_path_inv; [done|apply (same_net_lookup s1); eauto|].
    by eapply (si_queue _ _ _ I1 p st1).
Qed.

Lemma transitions_inv draw s : sim_inv [] 0 s → ∃ s', process_state_transitions draw s = Returns s' ∧ sim_inv [] 0 s' ∧ same_net s s'.
Proof.
  apply all_peers_loop. clear s. intros s p Hi [st Hst]. unfold transition. rewrite Hst. simpl. destruct (SFltb _ _); [|by exists s].
  destruct (pst_online st); rewrite (on_peer_some _ _ _ _ Hst); cbn [obind]; (eexists; split; [done|]);
    set (s1 := set_sim_peers _ s); (split; [apply (alike_inv _ _ s1); [done|by eapply quiet_inv]|split_and!; [apply dom_insert_lookup_L; eauto|done|done]]).
Qed.
End Packets.

(** ** Confirmations *)

Lemma inv_backprops s l : sim_inv [] 0 s → Forall (backprop_ok (delivered_ids s)) l → sim_inv [] 0 (set_backprops l s).
Proof. intros Hi Hl. split; try apply Hi. exact Hl. Qed.

Lemma fates_spec s l : Forall (backprop_ok (delivered_ids s)) l →
  ∃ fs, backprop_fates s l = Returns fs ∧ fs.*1 = l ∧ Forall (backprop_ok (delivered_ids s)) (moved <$> fs) ∧
    (backprop_timeout (sim_config s) = None → Forall (λ bf, fate_timed_out bf.2 = false) fs).
Proof.
  induction l as [|b l IH]; intros Hl; simpl; [by exists []|].
  apply Forall_cons in Hl as [(H2 & Hx & Hid) Hl]. destruct (IH Hl) as (fs & Hfs & Hm & Hok & Ht).
  assert (∃ f, backprop_fate s b = Returns f ∧ backprop_ok (delivered_ids s) (moved (b, f)) ∧
    (backprop_timeout (sim_config s) = None → fate_timed_out f = false)) as (f & -> & Hb & Hto).
  { unfold backprop_fate. destruct (match backprop_timeout _ with Some t => _ | None => _ end) eqn:E.
    { exists BfTimedOut. split_and!; [done|done|]. intros Hn. by rewrite Hn in E. }
    destruct (Nat.eqb_spec (length (bs_path b)) 0); [lia|]. destruct (Nat.leb_spec (length (bs_path b) - 1) (bs_index b)).
    { by exists BfCompleted. }
    destruct (lookup_lt_is_Some_2 (bs_path b) (length (bs_path b) - 1 - bs_index b)) as [c ->]; [lia|].
    destruct (lookup_lt_is_Some_2 (bs_path b) (length (bs_path b) - 1 - bs_index b - 1)) as [n' ->]; [lia|]. simpl.
    eexists. split; [done|]. destruct (_ && _); (split; [|done]); [|done]. unfold backprop_ok. simpl. split_and!; [done|lia|done]. }
  simpl. rewrite Hfs. simpl. exists ((b, f) :: fs). split_and!; [done|by rewrite fmap_cons, Hm|by constructor|].
  intros Hn. constructor; [by apply Hto|by apply Ht].
Qed.

Lemma emit_moves_alike l s : alike s (emit_moves l s) ∧ sim_config (emit_moves l s) = sim_config s.
Proof.
  unfold emit_moves. revert s. induction l as [|[b f] l IH]; intros s; simpl; [done|].
  destruct f; try apply IH. destruct (IH (emit_event (NeBackProp (bs_packet_id b) from from to (sim_tick s)) s)) as [H1 H2]. done.
Qed.

Lemma Forall_delete_at {A} (P : A → Prop) i l : Forall P l → Forall P (delete i l).
Proof. intros Hl. revert i. induction Hl as [|x l Hx Hl IH]; intros [|i]; simpl; try constructor; auto. Qed.

Lemma remove_timed_out_inv s i s' : sim_inv [] 0 s → remove_timed_out s i = Returns s' → sim_inv [] 0 s'.
Proof.
  intros Hi. unfold remove_timed_out, vec_remove. destruct (sim_backprops s !! i); [|done]. simpl. intros [= <-].
  apply (alike_inv _ _ (set_backprops (delete i (sim_backprops s)) s)); [done|]. apply inv_backprops; [done|]. apply Forall_delete_at, Hi.
Qed.

(** What was delivered is in no queue, so that the clean-up along the path finds
    nothing. *)
Lemma clean_up_nothing air hand s id p st : sim_inv air hand s → id ∈ delivered_ids s → sim_peers s !! p = Some st → drop_packet id st = st.
Proof.
  intros Hi Hid Hp. unfold drop_packet. rewrite retain_all; [by destruct st|]. intros q Hq. apply negb_true_iff, bool_decide_eq_false. intros E.
  pose proof (si_ids _ _ _ Hi) as Hn. unfold known_ids in Hn. apply NoDup_app in Hn as (_ & Hn & _). apply (Hn id); [|done].
  rewrite <-E. apply list_elem_of_fmap_2, elem_of_app. right. apply elem_queued. eauto.
Qed.

Lemma clean_up_id s id l : sim_inv [] 0 s → id ∈ delivered_ids s → sim_mesh (foldl (clean_up id) s l) = sim_mesh s ∧ alike s (foldl (clean_up id) s l).
Proof.
  intros Hi Hid. assert (Hone : ∀ p, clean_up id s p = s).
  { intros p. unfold clean_up. destruct (sim_peers s !! p) as [st|] eqn:E; [|done].
    rewrite (clean_up_nothing _ _ _ _ _ _ Hi Hid E), insert_id by done. destruct s as [[]]. done. }
  assert (foldl (clean_up id) s l = s) as ->; [|done]. induction l as [|p l IH]; [done|]. simpl. by rewrite Hone.
Qed.

Lemma remove_completed_inv s i s' : sim_inv [] 0 s → remove_completed s i = Returns s' → sim_inv [] 0 s'.
Proof.
  intros Hi. unfold remove_completed, vec_remove. destruct (sim_backprops s !! i) as [b|] eqn:Eb; [|done]. simpl. intros [= <-].
  assert (Hid : bs_packet_id b ∈ delivered_ids s).
  { apply (proj1 (Forall_forall _ _) (si_backprops _ _ _ Hi) b). by eapply list_elem_of_lookup_2. }
  set (s1 := count_by total_backprop_latency _ _).
  assert (I1 : sim_inv [] 0 s1).
  { apply (alike_inv _ _ (set_backprops (delete i (sim_backprops s)) s)); [done|]. apply inv_backprops; [done|]. apply Forall_delete_at, Hi. }
  destruct (clean_up_id s1 (bs_packet_id b) (intermediates (bs_path b)) I1 Hid) as [_ Ha].
  apply (alike_inv _ _ s1); [|done]. unfold alike in *. naive_solver.
Qed.

Lemma for_each_returns {A S} (P : S → Prop) (f : S → A → outcome S) l s s' :
  (∀ s x s', P s → f s x = Returns s' → P s') → P s → for_each f l s = Returns s' → P s'.
Proof.
  intros Hf. revert s. induction l as [|x l IH]; intros s Hs; simpl; [by intros [= <-]|].
  destruct (f s x) as [s1|] eqn:E; simpl; [|done]. eauto.
Qed.

Lemma process_backprops_inv s s' : sim_inv [] 0 s → process_backprops s = Returns s' → sim_inv [] 0 s'.
Proof.
  intros Hi. unfold process_backprops. destruct (fates_spec s (sim_backprops s) (si_backprops _ _ _ Hi)) as (l & -> & _ & Hok & _). cbn [obind].
  set (s1 := emit_moves l _). assert (I1 : sim_inv [] 0 s1).
  { apply (alike_inv _ _ (set_backprops (moved <$> l) s)); [apply emit_moves_alike|by apply inv_backprops]. }
  destruct (for_each remove_timed_out _ s1) as [s2|] eqn:E2; simpl; [|done].
  apply (for_each_returns _ _ _ _ _ remove_completed_inv). by apply (for_each_returns _ _ _ _ _ remove_timed_out_inv I1 E2).
Qed.

(** Without time-outs the positions stay right. *)
Lemma clean_up_backprops id l s : sim_backprops (foldl (clean_up id) s l) = sim_backprops s.
Proof.
  revert s. induction l as [|p l IH]; intros s; simpl; [done|]. rewrite IH. unfold clean_up. by destruct (sim_peers s !! p).
Qed.

Lemma remove_all_completed l s : StronglySorted (λ i j, j < i)%nat l → (∀ i, i ∈ l → (i < length (sim_backprops s))%nat) →
  ∃ s', for_each remove_completed l s = Returns s'.
Proof.
  intros Hl. revert s. induction Hl as [|i l Hl IH Hi]; intros s Hlt; simpl; [eauto|].
  destruct (lookup_lt_is_Some_2 (sim_backprops s) i) as [b Hb]; [apply Hlt; left|].
  unfold remove_completed at 1, vec_remove. rewrite Hb. simpl. apply IH. intros j Hj. simpl. rewrite clean_up_backprops. simpl.
  rewrite length_delete by eauto. apply (proj1 (Forall_forall _ _) Hi) in Hj. pose proof (Hlt i ltac:(left)). lia.
Qed.

Lemma positions_sorted p l : StronglySorted (λ i j, j < i)%nat (reverse (positions_of p l)) ∧ ∀ i, i ∈ positions_of p l → (i < length l)%nat.
Proof.
  unfold positions_of. assert (Hoff : ∀ k, let ps := fst <$> retain (λ ib : nat * BackPropFate, p ib.2) (imap (λ i bf, ((k + i)%nat, bf.2)) l) in
    StronglySorted (λ i j, j < i)%nat (reverse ps) ∧ ∀ i, i ∈ ps → (k <= i < k + length l)%nat).
  { induction l as [|bf l IH]; intros k ps; [split; [constructor|]; by intros i ?%not_elem_of_nil|].
    destruct (IH (S k)) as [Hs Hin]. subst ps. simpl. rewrite Nat.add_0_r.
    assert (E : imap ((λ (i : nat) (bf : SimBackProp * BackPropFate), ((k + i)%nat, bf.2)) ∘ S) l = imap (λ i bf, ((S k + i)%nat, bf.2)) l).
    { apply imap_ext. intros i x _. simpl. f_equal. lia. }
    rewrite E. clear E. revert Hs Hin. generalize (imap (λ i (bf : SimBackProp * BackPropFate), ((S k + i)%nat, bf.2)) l). intros rest Hs Hin.
    destruct (p bf.2); rewrite ?fmap_cons.
    - rewrite reverse_cons. split.
      + apply StronglySorted_app. split_and!; [|done|repeat constructor]. intros x y Hx%elem_of_reverse%Hin ->%list_elem_of_singleton. simpl. lia.
      + intros i [->|Hi%Hin]%elem_of_cons; simpl; lia.
    - split; [done|]. intros i Hi%Hin. lia. }
  destruct (Hoff 0%nat) as [H1 H2]. split; [exact H1|]. intros i Hi. apply H2 in Hi. lia.
Qed.

Lemma process_backprops_total s : sim_inv [] 0 s → backprop_timeout (sim_config s) = None → ∃ s', process_backprops s = Returns s'.
Proof.
  intros Hi Hn. unfold process_backprops. destruct (fates_spec s (sim_backprops s) (si_backprops _ _ _ Hi)) as (l & -> & _ & _ & Ht). cbn [obind].
  assert (positions_of fate_timed_out l = []) as ->.
  { unfold positions_of. rewrite retain_none; [done|]. intros [i f] (j & Hj)%list_elem_of_lookup. rewrite list_lookup_imap in Hj.
    destruct (l !! j) as [[b' f']|] eqn:E; simpl in Hj; simplify_eq. simpl.
    apply (proj1 (Forall_forall _ _) (Ht Hn) (b', f)). by eapply list_elem_of_lookup_2. }
  simpl. destruct (positions_sorted fate_completed l) as [Hs Hlt]. apply remove_all_completed; [done|].
  intros i Hi'%elem_of_reverse%Hlt. destruct (emit_moves_alike l (set_backprops (moved <$> l) s)) as [(_ & _ & -> & _) _].
  simpl. by rewrite length_fmap.
Qed.

(** The configuration never changes. *)
Lemma clean_up_config id l s : sim_config (foldl (clean_up id) s l) = sim_config s.
Proof.
  revert s. induction l as [|p l IH]; intros s; simpl; [done|]. rewrite IH. unfold clean_up. by destruct (sim_peers s !! p).
Qed.

Lemma process_backprops_config s s' : process_backprops s = Returns s' → sim_config s' = sim_config s.
Proof.
  unfold process_backprops. destruct (backprop_fates s _) as [l|]; [|done]. cbn [obind]. set (s1 := emit_moves l _).
  assert (C1 : sim_config s1 = sim_config s) by (unfold s1; by destruct (emit_moves_alike l (set_backprops (moved <$> l) s)) as [_ ->]).
  destruct (for_each remove_timed_out _ s1) as [s2|] eqn:E2; simpl; [|done].
  assert (C2 : sim_config s2 = sim_config s).
  { eapply (for_each_returns (λ x, sim_config x = sim_config s)); [|exact C1|exact E2]. intros x i x' Hx. unfold remove_timed_out.
    destruct (vec_remove i _) as [[? ?]|]; [|done]. simpl. by intros [= <-]. }
  apply (for_each_returns (λ x, sim_config x = sim_config s)); [|done]. intros x i x' Hx. unfold remove_completed.
  destruct (vec_remove i _) as [[? ?]|]; [|done]. simpl. intros [= <-]. simpl. by rewrite clean_up_config.
Qed.

(** ** Ticks *)

Lemma age_peer_inv clock s p : sim_inv [] 0 s → sim_inv [] 0 (age_peer clock s p).
Proof.
  intros Hi. unfold age_peer. destruct (sim_peers s !! p) as [st|] eqn:E; [|done].
  eapply (alike_inv _ _ (set_sim_peers _ s)); [|eapply quiet_inv; [done..|]]; done.
Qed.

Lemma aging_inv clock s : sim_inv [] 0 s → sim_inv [] 0 (process_prophet_aging clock s).
Proof.
  intros Hi. apply (alike_inv _ _ (foldl (age_peer clock) s (sim_peer_ids s))); [done|].
  apply foldl_invariant; [intros; by apply age_peer_inv|done].
Qed.

Section Steps.
Context (clock : nat → Z) (draw : Z → f64).

(** What happens before the confirmations. *)
Definition routed (s : Simulation) : outcome Simulation :=
  let! s := process_state_transitions draw (set_tick (sim_tick s + 1) s) in
  let! s := process_awake_signals clock s in
  let! s := process_pending_sends clock s in
  process_relay_queues clock s.

Lemma routed_inv s : sim_inv [] 0 s → ∃ s', routed s = Returns s' ∧ sim_inv [] 0 s' ∧ sim_config s' = sim_config s.
Proof.
  intros Hi. unfold routed. destruct (transitions_inv draw (set_tick (sim_tick s + 1) s)) as (s1 & -> & I1 & (_ & _ & C1)); [by apply (alike_inv _ _ s)|]. simpl.
  destruct (process_awake_inv clock s1 I1) as (s2 & -> & I2 & (_ & _ & C2)). simpl.
  destruct (process_pending_inv clock s2 I2) as (s3 & -> & I3 & G3). simpl. pose proof (gr_config _ _ G3) as C3.
  destruct (process_relay_inv clock s3 I3) as (s4 & -> & I4 & (_ & _ & C4)). exists s4. split_and!; [done|done|]. simpl in C1. congruence.
Qed.

Lemma sim_step_routed s : sim_step clock draw s =
  let! s := routed s in let! s := process_backprops s in
  if prophet_aging_interval (sim_config s) =? 0 then Panics
  else Returns (if sim_tick s mod prophet_aging_interval (sim_config s) =? 0 then process_prophet_aging clock s else s).
Proof.
  unfold sim_step, routed. destruct (process_state_transitions _ _); [|done]. simpl. destruct (process_awake_signals _ _); [|done]. simpl.
  by destruct (process_pending_sends _ _).
Qed.

Lemma sim_step_inv s s' : sim_inv [] 0 s → sim_step clock draw s = Returns s' → sim_inv [] 0 s'.
Proof.
  intros Hi. rewrite sim_step_routed. destruct (routed_inv s Hi) as (s1 & -> & I1 & _). simpl.
  destruct (process_backprops s1) as [s2|] eqn:E2; simpl; [|done]. pose proof (process_backprops_inv _ _ I1 E2) as I2.
  destruct (_ =? 0); [done|]. intros [= <-]. destruct (_ =? 0); [by apply aging_inv|done].
Qed.

(** A tick can only panic over a time-out or an interval of zero. *)
Lemma sim_step_total s : sim_inv [] 0 s → backprop_timeout (sim_config s) = None → prophet_aging_interval (sim_config s) ≠ 0 →
  ∃ s', sim_step clock draw s = Returns s'.
Proof.
  intros Hi Hn Hz. rewrite sim_step_routed. destruct (routed_inv s Hi) as (s1 & -> & I1 & C1). simpl.
  destruct (process_backprops_total s1 I1) as (s2 & E2); [congruence|]. rewrite E2. simpl.
  rewrite (process_backprops_config _ _ E2), C1. destruct (Z.eqb_spec (prophet_aging_interval (sim_config s)) 0); [done|]. eauto.
Qed.
End Steps.

(** ** Runs *)

(** What the user of a simulation does. *)
Inductive sim_op (clock : nat → Z) : Simulation → Simulation → Prop :=
| SoInitialize draw s : sim_op clock s (initialize draw s)
| SoSend from to payload s : sim_op clock s (send_message from to payload s)
| SoStep draw s s' : sim_step clock draw s = Returns s' → sim_op clock s s'
| SoOnline p s : sim_op clock s (force_online p s)
| SoOffline p s : sim_op clock s (force_offline p s)
| SoSigned p l n s : sim_op clock s (record_pq_signature_created p l n s)
| SoVerified p q l b s : sim_op clock s (record_pq_signature_verified p q l b s)
| SoEncapsulated p q l s : sim_op clock s (record_kem_encapsulation p q l s)
| SoDecapsulated p q l b s : sim_op clock s (record_kem_decapsulation p q l b s)
| SoInvited p q i s : sim_op clock s (record_invite_created p q i s)
| SoAccepted p i s : sim_op clock s (record_invite_accepted p i s)
| SoFailed p i r s : sim_op clock s (record_invite_failed p i r s).

Lemma send_inv from to payload s : sim_inv [] 0 s → sim_inv [] 0 (send_message from to payload s).
Proof.
  intros Hi. split; try apply Hi. pose proof (si_sent _ _ _ Hi) as Hs. change (queued (send_message from to payload s)) with (queued s).
  revert Hs. counts.
Qed.

Lemma set_online_inv s p st b t : sim_inv [] 0 s → sim_peers s !! p = Some st →
  sim_inv [] 0 (set_sim_peers (<[p := set_online b t st]> (sim_peers s)) s).
Proof. intros Hi Hp. by eapply quiet_inv. Qed.

Lemma initialize_inv draw s : sim_inv [] 0 s → sim_inv [] 0 (initialize draw s).
Proof.
  intros Hi. unfold initialize. apply (foldl_invariant (sim_inv [] 0)); [|done]. clear s Hi. intros s p Hi. unfold initialize_peer. destruct (sim_peers s !! p) as [st|] eqn:E; [|done].
  destruct (SFltb _ _); [eapply (alike_inv _ _ (set_sim_peers _ s)); [done|]|]; by apply set_online_inv.
Qed.

Lemma sim_op_inv clock s s' : sim_op clock s s' → sim_inv [] 0 s → sim_inv [] 0 s'.
Proof.
  intros Hop Hi. destruct Hop; try (by apply (alike_inv _ _ s); [repeat split; try done; by destruct b|]).
  - by apply initialize_inv.
  - by apply send_inv.
  - by eapply sim_step_inv.
  - unfold force_online. destruct (sim_peers s !! p) as [st|] eqn:E; [|done]. destruct (pst_online st); [done|].
    eapply (alike_inv _ _ (set_sim_peers _ s)); [done|]. by apply set_online_inv.
  - unfold force_offline. destruct (sim_peers s !! p) as [st|] eqn:E; [|done]. destruct (pst_online st); [|done].
    eapply (alike_inv _ _ (set_sim_peers _ s)); [done|]. by apply set_online_inv.
Qed.

(** Nothing has been sent yet. *)
Definition mesh_idle (m : Mesh) : Prop :=
  ∀ p st, mesh_peers m !! p = Some st → pst_relay_queue st = [] ∧ pst_inbox st = [] ∧ pst_delivered st = [].

Lemma idle_inv m c : mesh_ok m → mesh_idle m → sim_inv [] 0 (simulation_new m c).
Proof.
  intros Hm Hidle. assert (Hall : ∀ l : list (Z * MeshPeer), (∀ p st, (p, st) ∈ l → mesh_peers m !! p = Some st) →
    (l ≫= λ kv, pst_relay_queue kv.2) = [] ∧ (l ≫= λ kv, pst_delivered kv.2) = []).
  { induction l as [|[p st] l IH]; intros Hl; [done|]. rewrite !bind_cons. simpl. destruct (Hidle p st) as (-> & _ & ->); [apply Hl; left|].
    apply IH. intros; apply Hl; by right. }
  destruct (Hall (map_to_list (mesh_peers m))) as [Hq Hd]; [by intros p st ?%elem_of_map_to_list|].
  assert (EQ : queued (simulation_new m c) = []) by exact Hq. assert (ED : delivered_ids (simulation_new m c) = []) by exact Hd.
  split; unfold known_ids; rewrite ?EQ, ?ED; try done.
  - apply NoDup_nil_2.
  - by intros id ?%not_elem_of_nil.
  - intros p st q (-> & _ & _)%Hidle. by intros ?%not_elem_of_nil.
  - intros p st (_ & -> & ->)%Hidle. split; [done|apply Forall_nil_2].
Qed.

(** C33. However messages are sent, peers wake and sleep and ticks pass: every message
    is delivered, dropped, waiting at its sender or in exactly one queue; no
    packet is delivered twice, and each is delivered to its destination after
    at most ten relays. *)
Theorem simulation_conserves clock m c s : mesh_ok m → mesh_idle m → rtc (sim_op clock) (simulation_new m c) s →
  sim_stats s messages_sent = sim_stats s messages_delivered + sim_stats s messages_dropped +
    Z.of_nat (length (sim_pending_sends s)) + Z.of_nat (length (queued s)) ∧
  sim_stats s messages_delivered = Z.of_nat (length (delivered_ids s)) ∧
  NoDup ((sp_id <$> queued s) ++ delivered_ids s) ∧
  ∀ p st, sim_peers s !! p = Some st → pst_delivered st = sp_id <$> pst_inbox st ∧
    ∀ q, q ∈ pst_inbox st → sp_destination q = p ∧ sp_source q ∈ sp_visited q ∧ (size (sp_visited q) <= 11)%nat.
Proof.
  intros Hm Hidle Hr. assert (Hi : sim_inv [] 0 s) by (eapply rtc_invariant; [apply sim_op_inv|exact Hr|by apply idle_inv]).
  split_and!.
  - pose proof (si_sent _ _ _ Hi). simpl in *. lia.
  - apply (si_delivered _ _ _ Hi).
  - apply (si_ids _ _ _ Hi).
  - intros p st Hp. destruct (si_inbox _ _ _ Hi p st Hp) as [H1 H2]. split; [done|]. intros q Hq.
    destruct ((proj1 (Forall_forall _ _) H2) q Hq) as (Hd & _ & Hv & Ht & Hs). split_and!; [done|done|lia].
Qed.

(** ... and without a time-out of confirmations no tick panics. *)
Theorem simulation_runs clock m c s draw : mesh_ok m → mesh_idle m → rtc (sim_op clock) (simulation_new m c) s →
  backprop_timeout (sim_config s) = None → prophet_aging_interval (sim_config s) ≠ 0 → ∃ s', sim_step clock draw s = Returns s'.
Proof.
  intros Hm Hidle Hr. apply sim_step_total. eapply rtc_invariant; [apply sim_op_inv|exact Hr|by apply idle_inv].
Qed.

(** ** The meshes of the builder *)

Lemma add_peer_idle created p m : mesh_idle m → mesh_idle (mesh_add_peer created p m).
Proof.
  intros Hm. unfold mesh_add_peer. destruct (mesh_peers m !! p) eqn:E; [done|]. intros x st. simpl. rewrite lookup_insert.
  case_decide; [by intros [= <-]|apply Hm].
Qed.

Lemma link_to_idle a b m m' : mesh_idle m → link_to a b m = Returns m' → mesh_idle m'.
Proof.
  intros Hm. unfold link_to. destruct (mesh_adjacency m !! a); [|done]. simpl. destruct (mesh_peers m !! a) as [st|] eqn:E; [|done]. simpl.
  intros [= <-] x stx. simpl. rewrite lookup_insert. case_decide; [|apply Hm]. intros [= <-]. simpl. by apply (Hm a).
Qed.

Lemma connect_idle created a b m m' : mesh_idle m → connect created a b m = Returns m' → mesh_idle m'.
Proof.
  intros Hm. unfold connect. destruct (a =? b); [by intros [= <-]|].
  destruct (link_to a b _) as [m1|] eqn:E1; [|done]. simpl. destruct (link_to b a m1) as [m2|] eqn:E2; [|done]. simpl. intros [= <-].
  assert (H1 : mesh_idle m1) by (eapply link_to_idle; [|exact E1]; by do 2 apply add_peer_idle).
  by apply (link_to_idle _ _ _ _ H1 E2).
Qed.

Lemma build_idle created peers pairs m : build created peers pairs = Returns m → mesh_idle m.
Proof.
  apply (for_each_returns mesh_idle).
  - intros m1 [i j] m2 Hm. unfold connect_at. simpl. destruct (peers !! i); [|done]. simpl. destruct (peers !! j); [|done]. simpl. by apply connect_idle.
  - unfold add_peers. apply foldl_invariant; [intros; by apply add_peer_idle|]. intros p st. simpl. by rewrite lookup_empty.
Qed.

(** ** What the engine does not do *)

Definition succeeds {A} (m : outcome A) : bool := match m with Returns _ => true | Panics => false end.
Definition result {A} (d : A) (m : outcome A) : A := match m with Returns a => a | Panics => d end.

Lemma succeeds_result {A} (d : A) m : succeeds m = true → m = Returns (result d m).
Proof. by destruct m. Qed.

(** Peers wake and sleep exactly where the number drawn is 0. *)
Definition demo_config (timeout : option Z) : SimConfig :=
  {| wake_probability := f64_one; sleep_probability := f64_one; max_ticks := 100; initial_online_probability := f64_one;
     trace_routing := false; message_timeout := None; backprop_timeout := timeout; max_sender_retries := None;
     prophet_aging_interval := 100 |}.
Definition toggling (l : list Z) (p : Z) : f64 := if bool_decide (p ∈ l) then f64_zero else f64_one.
Definition tick_ (l : list Z) (s : Simulation) : Simulation := result s (sim_step (λ _, 0) (toggling l) s).

Lemma tick_op l s : succeeds (sim_step (λ _, 0) (toggling l) s) = true → sim_op (λ _, 0) s (tick_ l s).
Proof. intros H. eapply SoStep. by apply succeeds_result. Qed.

(** Four peers in a line; the first confirmation waits for A, which sleeps, and
    times out in the tick in which the second completes. *)
Definition line4 : Mesh := result mesh_new (line (λ _, 0) {| mb_peer_count := 4 |}).
Definition stalled : Simulation :=
  tick_ [] (send_message 66 68 [] (tick_ [65] (tick_ [65; 66; 67; 68] (send_message 65 68 [] (simulation_new line4 (demo_config (Some 2))))))).

(** Positions of completed confirmations are wrong once a time-out was removed:
    the simulation panics. *)
Lemma confirmation_panics : rtc (sim_op (λ _, 0)) (simulation_new line4 (demo_config (Some 2))) stalled ∧
  sim_stats stalled messages_delivered = 2 ∧ sim_step (λ _, 0) (toggling []) stalled = Panics.
Proof.
  split; [|split; vm_compute; reflexivity]. unfold stalled.
  eapply rtc_l; [apply (SoSend _ 65 68 [])|]. eapply rtc_l; [apply (tick_op [65; 66; 67; 68]); vm_compute; reflexivity|].
  eapply rtc_l; [apply (tick_op [65]); vm_compute; reflexivity|]. eapply rtc_l; [apply (SoSend _ 66 68 [])|].
  apply rtc_once, tick_op. vm_compute. reflexivity.
Qed.

(** A message held for a sleeping peer is delivered when it wakes although its
    holder sleeps. *)
Definition pair2 : Mesh := result mesh_new (line (λ _, 0) {| mb_peer_count := 2 |}).
Definition asleep : Simulation := tick_ [65] (tick_ [65] (send_message 65 66 [] (simulation_new pair2 (demo_config None)))).
Lemma sleeping_holder_delivers : is_online 65 asleep = false ∧ sim_stats asleep messages_delivered = 0 ∧
  is_online 65 (tick_ [66] asleep) = false ∧ sim_stats (tick_ [66] asleep) messages_delivered = 1.
Proof. split_and!; vm_compute; reflexivity. Qed.

(** The path of a confirmation is in the order of names: here D sends over A to
    B, and D, the sender, confirms to A. *)
Definition detour : Mesh := result mesh_new (from_edges (λ _, 0) [(68, 65); (65, 66)]).
Definition confirmed : Simulation := tick_ [65; 66; 68] (send_message 68 66 [] (simulation_new detour (demo_config None))).
Lemma confirmation_by_name : last (sim_event_log confirmed) = Some (NeBackProp {| spi_source := 68; spi_sequence := 0 |} 68 68 65 1).
Proof. vm_compute. reflexivity. Qed.
