(* ===== verification/Witnesses.v ===== *)
(** * Concrete instances

    A small cast (players, an in-memory vault, a network of lettered peers,
    toy replacements for the third-party parameters) and, for each theorem
    with hypotheses or with a class of laws, an instance of it on which they
    all hold.  The lemmas end in [Defined]: their proofs are the evaluations
    of the definitions. *)

From S2P Require Import Prelude Artifact Crypto Attention Store Peering Quorum AttentionLog.
From S2P Require Import Heat Vault VaultFacts Story Request Exchange Intention Packet.
From S2P Require Import PacketStore Pending Backprop Router Index Changeset Braid BraidFacts.
From S2P Require Import BraidGc.

(** A decidable proposition, by evaluation. *)
Ltac by_eval := apply (bool_decide_unpack _); vm_compute; exact I.

(** ** Parameters *)

(** A polynomial checksum repeated 32 times. *)
#[local] Instance toy_blake3 : Blake3 := λ l,
  arr32_fill (byte_of_Z (foldl (λ h b, (31 * h + Z.of_N (Byte.to_N b)) mod 251) 0 l)).

(** The sequence number and the signature of an event. *)
#[local] Instance toy_postcard : Postcard := {|
  postcard_event := λ e, byte_of_Z (seq e) :: sig e;
  postcard_signable := λ f, [byte_of_Z (sf_seq f)];
  postcard_witness := λ h i, arr32_bytes h ++ arr32_bytes (artifact_id_bytes i);
|}.

#[local] Existing Instance toy_dilithium.
#[local] Existing Instance toy_dilithium_laws.

Definition toy_identity (b : byte) : @PQIdentity toy_dilithium :=
  @Build_PQIdentity toy_dilithium b b.

(** ** Players *)

Definition alice : PlayerId := arr32_fill x01.
Definition bob : PlayerId := arr32_fill x02.
Definition carol : PlayerId := arr32_fill x03.
Definition dave : PlayerId := arr32_fill x04.

Definition garden : ArtifactId := Doc (arr32_fill x20).
Definition orchard : ArtifactId := Doc (arr32_fill x21).

(** ** An attention chain

    Alice attends to the garden, then the orchard, then leaves. *)
Definition chain1 : AttentionSwitchEvent :=
  attention_switch_event_new alice 0 1000 None (Some garden) zeros32.
Definition chain2 : AttentionSwitchEvent :=
  attention_switch_event_new alice 1 4000 (Some garden) (Some orchard) (event_hash chain1).
Definition chain3 : AttentionSwitchEvent :=
  attention_switch_event_new alice 2 9000 (Some orchard) None (event_hash chain2).
Definition chain : list AttentionSwitchEvent := [chain1; chain2; chain3].

Lemma chain_valid : validate_chain chain None = Ok (advance_state chain3).
Proof. vm_compute. reflexivity. Defined.

Lemma validate_chain_tamper_evident_witness :
  chain = chain ∨
  ∃ i e1 e2, chain !! i = Some e1 ∧ chain !! i = Some e2 ∧ e1 ≠ e2 ∧ event_hash e1 = event_hash e2.
Proof.
  apply (validate_chain_tamper_evident chain chain None (advance_state chain3));
    [done|done|apply chain_valid|apply chain_valid].
Defined.

Lemma valid_chain_no_equivocation_witness : check_equivocation chain2 chain = None.
Proof.
  apply (valid_chain_no_equivocation chain None (advance_state chain3));
    [done|apply chain_valid|apply list_elem_of_lookup; by exists 1%nat].
Defined.

Lemma attention_conserved_witness :
  wrap_i64 (sumZ (λ a, compute_dwell_time chain a 10000) [garden; orchard] + idle_time chain 10000)
  = wrap_i64 (10000 - 1000).
Proof.
  apply (attention_conserved chain None (advance_state chain3) [garden; orchard] 10000 chain1).
  - apply chain_valid.
  - reflexivity.
  - by_eval.
  - intros e a He Ha. unfold chain in He. rewrite !elem_of_cons, elem_of_nil in He.
    destruct He as [->|[->|[->|[]]]]; [| |discriminate Ha]; injection Ha as <-; by_eval.
Defined.

Lemma event_sign_verify_witness :
  verify_signature (event_sign (toy_identity x07) chain1)
    (pq_identity_verifying_key (toy_identity x07)) = true.
Proof. apply (event_sign_verify (toy_identity x07) chain1). reflexivity. Defined.

(** ** Quorums

    Four witnesses tolerate one fault; the keys are their own bytes. *)
Definition roster : list PlayerId := [alice; bob; carol; dave].

Definition key_of (b : byte) : @PQPublicIdentity toy_dilithium :=
  pq_identity_verifying_key (toy_identity b).

Definition keys : gmap PlayerId (@PQPublicIdentity toy_dilithium) :=
  {[ alice := key_of x01; bob := key_of x02; carol := key_of x03; dave := key_of x04 ]}.

Definition cert1 : QuorumCertificate :=
  collect (arr32_fill x30) garden
    [(alice, toy_identity x01); (bob, toy_identity x02); (carol, toy_identity x03)].
Definition cert2 : QuorumCertificate :=
  collect (arr32_fill x31) orchard
    [(bob, toy_identity x02); (carol, toy_identity x03); (dave, toy_identity x04)].

Lemma certificates_share_witness_witness :
  ∃ w pk s1 s2, w ∈ roster ∧ w ∉ ({[ bob ]} : gset PlayerId) ∧ keys !! w = Some pk ∧
    s1 ∈ witnesses cert1 ∧ witness s1 = w ∧
    witness_verify s1 (qc_event_hash cert1) (intention_scope cert1) pk = true ∧
    s2 ∈ witnesses cert2 ∧ witness s2 = w ∧
    witness_verify s2 (qc_event_hash cert2) (intention_scope cert2) pk = true.
Proof.
  apply (certificates_share_witness cert1 cert2 roster 1 3 keys {[ bob ]});
    [by_eval|done|vm_compute; reflexivity..|by_eval].
Defined.

Lemma honest_quorum_validates_witness :
  validate_certificate cert1 roster (bft_quorum_threshold (length roster)).2 keys = Returns (Ok tt).
Proof.
  apply (honest_quorum_validates (arr32_fill x30) garden roster keys
           [(alice, toy_identity x01); (bob, toy_identity x02); (carol, toy_identity x03)]).
  - by_eval.
  - by_eval.
  - intros w i Hin. rewrite !elem_of_cons, elem_of_nil in Hin.
    destruct Hin as [Heq|[Heq|[Heq|[]]]]; injection Heq as -> ->;
      (split; [by_eval|split; reflexivity]).
Defined.

Definition alice_registry : PeerRegistry :=
  (add_peer carol None 2 (add_peer bob None 1 (peer_registry_new alice)).1).1.
Definition dave_registry : PeerRegistry :=
  (add_peer carol None 2 (add_peer alice None 1 (peer_registry_new dave)).1).1.

Lemma alice_registry_wf : registry_wf alice_registry.
Proof. by_eval. Defined.

Lemma select_witnesses_spec_witness :
  select_witnesses (mutual_peers alice_registry dave_registry) 1 = Some ([carol], 1%nat).
Proof.
  destruct (select_witnesses_spec alice_registry dave_registry 1) as (_ & _ & Hsel);
    [apply alice_registry_wf|]. rewrite Hsel. vm_compute. reflexivity.
Defined.

Lemma peer_registry_ops_witness :
  let '(r', res) := remove_peer bob alice_registry in
  registry_wf r' ∧
  match res with
  | Ok _ => is_peer bob alice_registry = true ∧
            ∀ q, is_peer q r' = true ↔ q ≠ bob ∧ is_peer q alice_registry = true
  | Err e => e = NotPeered ∧ is_peer bob alice_registry = false ∧ r' = alice_registry
  end.
Proof. exact (proj2 (peer_registry_ops bob None 3 alice_registry alice_registry_wf)). Defined.

(** ** The attention log *)

Definition alice_log0 : AttentionLog InMemoryAttentionStore :=
  attention_log_new alice in_memory_attention_store_new.
Definition alice_log1 := (log_navigate_to garden 1000 alice_log0).1.
Definition alice_log2 := (log_navigate_to orchard 4000 alice_log1).1.

Lemma alice_log_steps : rtc log_step alice_log0 alice_log2.
Proof.
  eapply rtc_l; [eapply (step_navigate_to _ alice_log1 garden 1000), surjective_pairing|].
  eapply rtc_l; [eapply (step_navigate_to _ alice_log2 orchard 4000), surjective_pairing|].
  apply rtc_refl.
Defined.

Lemma attention_log_chain_valid_witness :
  Forall (λ e, author e = al_player alice_log2) (chain_of alice_log2) ∧
  (chain_of alice_log2 ≠ [] → ∃ st,
    validate_chain (chain_of alice_log2) None = Ok st ∧
    al_next_seq alice_log2 = wrap_u64 (latest_seq st + 1) ∧
    al_latest_hash alice_log2 = latest_hash st ∧
    al_current_focus alice_log2 = current_attention st).
Proof.
  apply (attention_log_chain_valid alice in_memory_attention_store_new alice_log2);
    [reflexivity|apply alice_log_steps].
Defined.

Lemma check_integrity_spec_witness :
  match im_check_integrity alice chain (al_store alice_log2) with
  | NoPriorReplica => logs (al_store alice_log2) !! alice = None
  | Consistent => logs (al_store alice_log2) !! alice = Some chain
  | Extended n => ∃ ours ext, logs (al_store alice_log2) !! alice = Some ours ∧ chain = ours ++ ext ∧
                              ext ≠ [] ∧ n = Z.of_nat (length ext)
  | Diverged i => ∃ ours o, logs (al_store alice_log2) !! alice = Some ours ∧ ours !! i = Some o ∧
                            chain !! i ≠ Some o ∧ take i chain = take i ours
  end.
Proof. exact (check_integrity_spec alice chain (al_store alice_log2) eq_refl). Defined.

(** ** A vault *)

Abbreviation DemoVault := (Vault InMemoryArtifactStore InMemoryPayloadStore InMemoryAttentionStore).

Definition vault_new (p : PlayerId) : DemoVault :=
  let root := fresh_artifact (generate_tree_id (arr32_fill x10)) "vault" p
    [{| grantee := p; mode := Permanent; granted_at := 0; granted_by := p |}] 0 None in
  {| root := root; v_artifact_store := (put_artifact root in_memory_artifact_store_new).1;
     v_payload_store := in_memory_payload_store_new;
     v_attention_log := attention_log_new p in_memory_attention_store_new;
     v_peer_registry := peer_registry_new p; v_peer_attention := ∅ |}.

Lemma vault_new_in_memory p : vault_in_memory (arr32_fill x10) p 0 = Ok (vault_new p).
Proof. reflexivity. Defined.

(** The garden belongs to Alice and holds a note; she gave the orchard to Bob. *)
Definition demo_vault : DemoVault :=
  (vault_transfer_stewardship orchard bob 5
     (vault_place_tree (arr32_fill x21) "collection" [alice; bob] 3
        (vault_compose garden (leaf_id (as_bytes "note")) 0 None
           (vault_place_leaf (as_bytes "note") "note.txt" None "leaf" 2
              (vault_place_tree (arr32_fill x20) "collection" [alice] 1 (vault_new alice)).1).1).1).1).1.

(** The artifact filed under an identifier, or a blank one. *)
Definition filed (id : ArtifactId) (v : DemoVault) : Artifact :=
  default (root v) (artifacts (view v) !! id).

Lemma filed_orchard : artifacts (view demo_vault) !! orchard = Some (filed orchard demo_vault).
Proof. vm_compute. reflexivity. Defined.

Lemma filed_garden : artifacts (view demo_vault) !! garden = Some (filed garden demo_vault).
Proof. vm_compute. reflexivity. Defined.

Lemma steward_only_witness :
  run_op orchard (OpRecall 7) demo_vault = (demo_vault, Err NotSteward) ∧
  run_op (Doc zeros32) (OpRecall 7) demo_vault = (demo_vault, Err ArtifactNotFound).
Proof.
  split.
  - eapply (proj1 (steward_only orchard (OpRecall 7) demo_vault)); [apply filed_orchard|by_eval].
  - apply (proj2 (steward_only (Doc zeros32) (OpRecall 7) demo_vault)). vm_compute. reflexivity.
Defined.

Lemma inactive_frozen_witness :
  ∃ a', artifacts (view (run_ops [(orchard, OpGrant carol Public 8); (garden, OpRecall 9)] demo_vault))
          !! orchard = Some a' ∧ same_control (filed orchard demo_vault) a'.
Proof.
  apply (inactive_frozen [(orchard, OpGrant carol Public 8); (garden, OpRecall 9)] demo_vault orchard);
    vm_compute; reflexivity.
Defined.

Lemma transfer_stewardship_spec_witness :
  vault_transfer_stewardship orchard carol 8 demo_vault = (demo_vault, Err NotSteward).
Proof.
  pose proof (transfer_stewardship_spec orchard carol 8 demo_vault) as Hspec.
  rewrite filed_orchard, bool_decide_true in Hspec by by_eval. exact Hspec.
Defined.

Lemma vault_new_wf p : vault_wf (vault_new p).
Proof.
  destruct (vault_in_memory_wf (arr32_fill x10) p 0) as (v & Hv & Hwf & _).
  rewrite vault_new_in_memory in Hv. by injection Hv as <-.
Defined.

Lemma vault_wf_reachable_witness :
  vault_wf (vault_ingest_peer_log bob chain (vault_peer bob None 6 (vault_new alice)).1).1.
Proof.
  apply (vault_wf_reachable (vault_new alice)); [|apply vault_new_wf].
  eapply rtc_l; [apply (step_peer bob None 6)|]. apply rtc_once, (step_ingest bob chain).
Defined.

(** ** Conversations *)

Definition demo_messages : list (string * Z) := [("hi"%string, 10); ("there"%string, 11)].

Lemma story_transcript_witness :
  ∃ v1 v2 st es, story_create (arr32_fill x22) [alice; bob] 9 demo_vault = (v1, Ok st) ∧
    send_messages st demo_messages v1 = (v2, Ok (message_ids demo_messages)) ∧
    story_entries st v2 = Ok es ∧
    ref_artifact_id ∘ fst <$> es = message_ids demo_messages ∧
    position ∘ fst <$> es = Z.of_nat <$> List.seq 0 (length demo_messages) ∧
    (∀ r o, (r, o) ∈ es → ∃ a, o = Some a ∧ artifact_type a = "message" ∧ steward a = vault_player v2) ∧
    ∀ t, t ∈ demo_messages.*1 → vault_get_payload (leaf_id (as_bytes t)) v2 = Ok (Some (as_bytes t)).
Proof.
  apply (story_transcript (arr32_fill x22) [alice; bob] 9 demo_messages demo_vault).
  intros t t' Ht Ht'. simpl in Ht, Ht'. rewrite !elem_of_cons, elem_of_nil in Ht, Ht'.
  destruct Ht as [->|[->|[]]], Ht' as [->|[->|[]]]; try done; by_eval.
Defined.

(** The garden's references are its one note, at position 0. *)
Lemma story_branch_spec_witness :
  ∃ v' sub a', story_branch (story_from_id garden) 0 (arr32_fill x23) [alice] 12 demo_vault
                 = (v', Ok (story_from_id (Doc (arr32_fill x23)))) ∧
    artifacts (view v') !! Doc (arr32_fill x23) = Some sub ∧ artifact_type sub = "story" ∧
    artifacts (view v') !! garden = Some a' ∧
    references a' = take 1 (references (filed garden demo_vault))
      ++ [branch_ref (Doc (arr32_fill x23)) 0] ++ drop 1 (references (filed garden demo_vault)) ∧
    story_entries (story_from_id garden) v'
      = Ok ((λ r, (r, artifacts (view v') !! ref_artifact_id r)) <$> references a').
Proof.
  apply (story_branch_spec (arr32_fill x20) (arr32_fill x23) 0 [alice] 12 demo_vault
           (filed garden demo_vault));
    [apply filed_garden|vm_compute; reflexivity|vm_compute; reflexivity|by_eval|by_eval].
Defined.

(** ** Exchanges

    Alice offers the garden for Bob's orchard; both accept. *)
Definition swap : Exchange := exchange_from_id (Doc (arr32_fill x24)).

Definition proposed_vault : DemoVault :=
  (exchange_propose (arr32_fill x24) (arr32_fill x25) garden orchard [alice; bob] 20 demo_vault).1.

Definition accepted_vault : DemoVault :=
  let v := (exchange_accept swap proposed_vault).1 in
  (on_artifacts (put_artifact (insert_metadata (accept_key bob) (as_bytes "true")
     (filed (exchange_id swap) v))) v).1.

Lemma exchange_accept_spec_witness :
  ∃ v', exchange_accept swap proposed_vault = (v', Ok tt) ∧
    (∀ p, exchange_is_accepted_by swap p v' = Ok (bool_decide (p = vault_player proposed_vault)
            || accepted_by p (filed (exchange_id swap) proposed_vault))) ∧
    exchange_is_closed swap v' = Ok false ∧
    (∀ k, k ≠ exchange_id swap → artifacts (view v') !! k = artifacts (view proposed_vault) !! k).
Proof.
  pose proof (exchange_accept_spec swap proposed_vault (filed (exchange_id swap) proposed_vault))
    as Hspec.
  assert (closed_exchange (filed (exchange_id swap) proposed_vault) = false) as Hopen
    by (vm_compute; reflexivity).
  rewrite Hopen in Hspec. apply Hspec; vm_compute; reflexivity.
Defined.

Lemma exchange_complete_spec_witness :
  ∃ v', exchange_complete swap 30 accepted_vault = (v', Ok tt) ∧
    steward <$> artifacts (view v') !! garden = Some bob ∧ steward <$> artifacts (view v') !! orchard = Some alice ∧
    exchange_complete swap 40 (exchange_reject swap v').1 = ((exchange_reject swap v').1, Err ExchangeClosed).
Proof.
  pose proof (exchange_complete_spec swap 30 accepted_vault) as Hspec.
  assert (artifacts (view accepted_vault) !! exchange_id swap = Some (filed (exchange_id swap) accepted_vault)) as Hx
    by (vm_compute; reflexivity).
  assert (closed_exchange (filed (exchange_id swap) accepted_vault) = false) as Hopen by (vm_compute; reflexivity).
  assert (offered_in OFFERED_LABEL (artifacts (view accepted_vault)) (filed (exchange_id swap) accepted_vault)
    = Some (garden, filed garden accepted_vault)) as Hoff by (vm_compute; reflexivity).
  assert (offered_in REQUESTED_LABEL (artifacts (view accepted_vault)) (filed (exchange_id swap) accepted_vault)
    = Some (orchard, filed orchard accepted_vault)) as Hreq by (vm_compute; reflexivity).
  assert (accepted_by (steward (filed garden accepted_vault)) (filed (exchange_id swap) accepted_vault)
          && accepted_by (steward (filed orchard accepted_vault)) (filed (exchange_id swap) accepted_vault)
          = true) as Hboth by (vm_compute; reflexivity).
  cbv zeta in Hspec. rewrite Hx, Hopen, Hoff, Hreq, Hboth in Hspec. simpl negb in Hspec. cbv iota in Hspec.
  destruct Hspec as (s' & Hrun & _ & Ho & Hq & Hagain).
  { intros ex Hex. rewrite <- (inj Some _ _ Hex). vm_compute. reflexivity. }
  exists (set_artifact_store s' accepted_vault). split; [exact Hrun|]. split; [exact Ho|]. split; [exact Hq|].
  exact (proj1 (Hagain [XReject]) (XComplete 40) ltac:(discriminate)).
Defined.

(** ** Intentions *)

Definition plant : ArtifactId := Doc (arr32_fill x26).

(** Alice's intention, the garden note pledged to it. *)
Definition intention_vault : DemoVault :=
  (intention_pledge_token (intention_from_id plant) (leaf_id (as_bytes "note"))
     (intention_create (arr32_fill x26) "plant trees" [alice] 40 demo_vault).1).1.

Definition demo_window : DwellWindow :=
  {| dw_player := alice; dw_artifact_id := plant; start_timestamp := 1000; end_timestamp := 4000;
     duration_ms := 3000 |}.

Lemma filed_plant :
  artifacts (view intention_vault) !! plant = Some (filed plant intention_vault).
Proof. vm_compute. reflexivity. Defined.

Lemma release_attention_spec_witness :
  ∃ v' before,
    intention_release_attention (intention_from_id plant) [demo_window] bob 50 intention_vault
      = (v', Ok (token_of <$> [demo_window])) ∧
    intention_unreleased_attention (intention_from_id plant) (vault_player intention_vault)
      intention_vault = Ok before ∧
    intention_unreleased_attention (intention_from_id plant) (vault_player intention_vault) v'
      = Ok (retain (λ w, negb (bool_decide
              (start_timestamp w ∈ start_timestamp <$> [demo_window]))) before).
Proof.
  apply (release_attention_spec (arr32_fill x26) bob 50 [demo_window] intention_vault
           (filed plant intention_vault));
    [apply filed_plant|vm_compute; reflexivity|by_eval].
Defined.

Lemma release_pledged_tokens_spec_witness :
  ∃ v' a', intention_release_pledged_tokens (intention_from_id plant) [leaf_id (as_bytes "note")] bob 60
             intention_vault = (v', Ok tt) ∧
    artifacts (view v') !! plant = Some a' ∧
    references a' = drop_refs [leaf_id (as_bytes "note")] (references (filed plant intention_vault)).
Proof.
  destruct (release_pledged_tokens_spec (arr32_fill x26) [leaf_id (as_bytes "note")] bob 60
              intention_vault (filed plant intention_vault)) as (v' & a' & Hrun & Ha & Hr & _).
  - apply filed_plant.
  - vm_compute. reflexivity.
  - by_eval.
  - by_eval.
  - intros i Hi. apply list_elem_of_singleton in Hi as ->.
    exists (filed (leaf_id (as_bytes "note")) intention_vault). split; [|split]; vm_compute; reflexivity.
  - exists v', a'. split; [exact Hrun|]. split; [exact Ha|exact Hr].
Defined.

Definition deeds : list contribution := [SubmitProof "done" 71; PledgeToken garden].

Lemma intention_lifecycle_witness :
  let x := intention_from_id (generate_tree_id (arr32_fill x27)) in
  ∃ v1 v2 v3 ps qs,
    intention_create (arr32_fill x27) "rest" [alice] 70 demo_vault = (v1, Ok x) ∧
    intention_status x v1 = Ok (Some "active"%string) ∧
    contribute_all x deeds v1 = (v2, Ok tt) ∧ intention_status x v2 = Ok (Some "active"%string) ∧
    intention_fulfill x v2 = (v3, Ok tt) ∧ intention_status x v3 = Ok (Some "fulfilled"%string) ∧
    intention_proofs x v3 = Ok ps ∧ ref_artifact_id <$> ps = [leaf_id (as_bytes "done")] ∧
    intention_pledged_tokens x v3 = Ok qs ∧ ref_artifact_id <$> qs = [garden].
Proof. exact (intention_lifecycle (arr32_fill x27) "rest" [alice] 70 deeds demo_vault). Defined.

(** ** The network

    Peers A, B, C, D on a line; C is offline. *)

Definition peer (c : Z) : SimulationIdentity :=
  match sim_new c with Some i => i | None => dexist 65 (conj (Z.le_refl 65) (ltac:(lia) : 65 <= 90)) end.

Definition pA : SimulationIdentity := peer 65.
Definition pB : SimulationIdentity := peer 66.
Definition pC : SimulationIdentity := peer 67.
Definition pD : SimulationIdentity := peer 68.

#[local] Instance toy_hasher : DefaultHasher SimulationIdentity := sim_as_char.

Record LineTopology : Type := { offline : list SimulationIdentity }.

Definition adjacent (a b : SimulationIdentity) : bool := Z.abs (sim_as_char a - sim_as_char b) =? 1.

#[local] Instance line_topology : NetworkTopology LineTopology SimulationIdentity := {|
  topo_peers := λ _, sim_range_to 90;
  topo_neighbors := λ i _, retain (adjacent i) (sim_range_to 90);
  topo_are_connected := λ a b _, adjacent a b;
  topo_is_online := λ i t, negb (bool_decide (i ∈ offline t));
|}.

#[local] Instance toy_chrono : Chrono := {| chrono_from_std := Some; chrono_max := 2 ^ 63 - 1 |}.

Definition line : LineTopology := {| offline := [pC] |}.

Abbreviation DemoRouter :=
  (StoreForwardRouter SimulationIdentity LineTopology (InMemoryPacketStore SimulationIdentity)).

Definition demo_router : DemoRouter := on_peer_connect pA pC (router_new line packet_store_new).

Definition pid1 : PacketId := {| source_hash := 65; sequence := 1 |}.
Definition pid2 : PacketId := {| source_hash := 65; sequence := 2 |}.

Definition packet_to (id : PacketId) (d : SimulationIdentity) : Packet SimulationIdentity :=
  packet_new id pA d (payload_plaintext [x2a]) [] 100 7.

(** The packet for C leaves A through B, the mutual peer. *)
Lemma route_spec_witness :
  route (packet_to pid1 pC) pA demo_router = (demo_router, Ok (RelayThrough [pB])) ∧
  ∀ i, i ∈ [pB] ↔ usable_relay (packet_to pid1 pC) pA demo_router i.
Proof.
  assert (route (packet_to pid1 pC) pA demo_router = (demo_router, Ok (RelayThrough [pB]))) as Hr
    by (vm_compute; reflexivity).
  pose proof (route_spec (packet_to pid1 pC) pA demo_router) as Hspec.
  rewrite Hr in Hspec. cbv beta iota zeta in Hspec.
  destruct Hspec as (_ & _ & _ & _ & Hhops & _). split; [exact Hr|exact Hhops].
Defined.

Definition line_path : list SimulationIdentity := [pA; pB; pC].
Definition confirmations : list (SimulationIdentity * Z) := [(pB, 110); (pD, 111); (pA, 112)].

Lemma backprop_complete_iff_witness :
  Returns Complete ∈ (bp_confirm_all pid1 confirmations
    (start_backprop pid1 line_path 100 (bp_manager_new 30000))).2.
Proof.
  apply (backprop_complete_iff pid1 line_path 100 confirmations (bp_manager_new 30000)).
  - by_eval.
  - intros q now Hq. unfold confirmations in Hq. rewrite !elem_of_cons, elem_of_nil in Hq.
    destruct Hq as [Hq|[Hq|[Hq|[]]]]; injection Hq as -> ->; vm_compute; discriminate.
  - vm_compute. discriminate.
  - simpl. apply sublist_skip, sublist_cons, sublist_skip, sublist_nil.
Defined.

Lemma backprop_reachable_ok_witness :
  (bp_advance 120 pid1 pB (start_backprop pid1 line_path 100 (bp_manager_new 30000))).2 ≠ Panics.
Proof.
  apply (backprop_reachable_ok 30000 _ 120 pid1 pB). apply rtc_once. constructor.
Defined.

Definition store_run : list (@store_op SimulationIdentity) :=
  [StStore (packet_to pid2 pC); StStore (packet_to pid1 pC); StStore (packet_to pid1 pC); StDelete pid2].

Lemma packet_store_pending_witness :
  ∃ l, mem_pending_for pC (run_store_ops store_run packet_store_new) = Ok l ∧ id_sorted l ∧
    ∀ p, p ∈ l ↔ ∃ id, mem_retrieve id (run_store_ops store_run packet_store_new) = Ok (Some p) ∧
                       destination p = pC.
Proof.
  apply (packet_store_pending store_run pC). intros p q Hp Hq _.
  assert (∀ p, StStore p ∈ store_run → destination p = pC) as Hd.
  { intros r Hr. unfold store_run in Hr. rewrite !elem_of_cons, elem_of_nil in Hr.
    destruct Hr as [Hr|[Hr|[Hr|[Hr|[]]]]]; [injection Hr as ->; reflexivity..|discriminate Hr]. }
  by rewrite (Hd p Hp), (Hd q Hq).
Defined.

Definition ev (h n : Z) : EventId := {| sender_hash := h; ev_sequence := n |}.

Definition pending_run : list (@pending_op SimulationIdentity) :=
  [PMark pB (ev 1 1); PMark pB (ev 1 2); PMark pC (ev 1 1); PMark pB (ev 2 1);
   PDeliveredUpTo pB (ev 1 9)].

Lemma pending_store_bounded_witness :
  let s := run_pending_ops pending_run (pending_with_quota (quota_new 2 10)) in
  total_pending s = sum_sizes (pending s) ∧ total_pending s <= 10 ∧
  ∃ l, events_pending_for pB s = Ok l ∧ StronglySorted (λ a b, event_id_leb a b = true) l ∧ NoDup l ∧
       Z.of_nat (length l) <= Z.max 1 2.
Proof.
  apply (pending_store_bounded (quota_new 2 10) pending_run pB).
  split; [vm_compute; discriminate|vm_compute; reflexivity].
Defined.

Definition pending_demo : InMemoryPendingStore :=
  run_pending_ops pending_run (pending_with_quota (quota_new 2 10)).

Lemma pending_demo_ok : pending_ok pending_demo.
Proof.
  apply (run_pending_ops_ok pending_run), pending_ok_new.
  split; [vm_compute; discriminate|vm_compute; reflexivity].
Defined.

Lemma pending_ops_spec_witness :
  ∃ s', clear_pending pB pending_demo = (s', Ok tt) ∧
    ∀ p', peer_events p' s' = if decide (p' = pB) then ∅ else peer_events p' pending_demo.
Proof. exact (proj2 (proj2 (proj2 (pending_ops_spec pB (ev 1 1) pending_demo pending_demo_ok)))). Defined.

Lemma mutual_tracker_spec_witness :
  NoDup (get_relays_for pA pC (tracker_on_connect pA pC line tracker_new)) ∧
  (∀ i, i ∈ get_relays_for pA pC (tracker_on_connect pA pC line tracker_new) ↔
        i ∈ topo_neighbors pA line ∧ i ∈ topo_neighbors pC line).
Proof.
  destruct (mutual_tracker_spec pA pC line tracker_new) as (Hn & Hi & _). split; [exact Hn|exact Hi].
Defined.

Definition route_via_B : RouteInfo SimulationIdentity :=
  {| ri_destination := pC; next_hop := pB; ri_hop_count := 2; metric := 2; last_confirmed := None |}.

Lemma routing_table_spec_witness :
  table_get pC (table_insert pC route_via_B 100 (table_new 300000)) = Some route_via_B.
Proof.
  destruct (routing_table_spec pC pC route_via_B 100 200 (table_new 300000)) as (Hget & _).
  rewrite Hget. by rewrite decide_True.
Defined.

(** ** The braid *)

(** An injective encoding of the hashed fields: the bits of their code. *)
#[local] Instance PatchFile_countable : Countable PatchFile.
Proof.
  refine (inj_countable' (λ f, (pf_path f, pf_hash f, pf_size f))
    (λ '(p, h, s), {| pf_path := p; pf_hash := h; pf_size := s |}) _).
  by intros [].
Defined.

Fixpoint pos_bits (p : positive) : list byte :=
  match p with
  | xH => []
  | xO p => x00 :: pos_bits p
  | xI p => x01 :: pos_bits p
  end.

Lemma pos_bits_inj p q : pos_bits p = pos_bits q → p = q.
Proof.
  revert q. induction p as [p IH|p IH|]; intros [q|q|]; simpl; try done; intros Heq;
    injection Heq as Heq; f_equal; by apply IH.
Qed.

#[local] Instance toy_changeset_postcard : ChangesetPostcard := λ a ps m i t,
  pos_bits (encode (a, ps, files m, i, t)).

Definition leaf_addr : ContentAddr := {| ca_hash := arr32_fill x50; ca_size := 4 |}.
Definition tree_addr : ContentAddr := {| ca_hash := arr32_fill x51; ca_size := 9 |}.
Definition index1 : SymlinkIndex := {| entries := {[ "a.txt"%string := leaf_addr ]} |}.
Definition index2 : SymlinkIndex := {| entries := {[ "a.txt"%string := tree_addr ]} |}.

Lemma change_id_spec_witness :
  compute_id alice [zeros32; arr32_fill x01] index1 "grow" 5
  = compute_id alice [arr32_fill x01; zeros32] index1 "grow" 5.
Proof.
  apply (change_id_spec alice alice [zeros32; arr32_fill x01] [arr32_fill x01; zeros32]
           index1 index1 "grow" "grow" 5 5).
  - intros b qs [f] n u b' qs' [f'] n' u' Heq.
    apply pos_bits_inj, (inj encode) in Heq. simpl in Heq. by injection Heq as -> -> -> -> ->.
  - repeat split. apply perm_swap.
Defined.

Definition demo_evidence : Evidence := evidence_human alice None 5.

Definition cs_root : Changeset :=
  changeset_with_index alice [] "plant" index1 None demo_evidence 5 (toy_identity x01).
Definition cs_next : Changeset :=
  changeset_with_index alice [cs_id cs_root] "grow" index2 (Some index1) demo_evidence 6
    (toy_identity x01).

Lemma changeset_signed_spec_witness :
  cs_verify_signature cs_next (pq_identity_verifying_key (toy_identity x01)) = true ∧
  index_apply index1 (delta cs_next) = index2.
Proof.
  destruct (changeset_signed_spec alice [cs_id cs_root] "grow" index2 (Some index1) demo_evidence 6
              (toy_identity x01)) as (Hv & _ & _ & Ha); [reflexivity|].
  split; [exact Hv|exact Ha].
Defined.

Definition demo_dag : BraidDag := dag_insert cs_next (dag_insert cs_root dag_new).

Lemma demo_dag_wf : dag_wf demo_dag.
Proof. apply dag_wf_insert, dag_wf_insert, dag_wf_new. Defined.

Lemma rollup_spec_witness :
  ∃ d' freed, rollup (cs_id cs_next) demo_dag = Some (d', freed) ∧
    peer_heads d' = peer_heads demo_dag ∧
    (∀ id c, changesets d' !! id = Some c ↔
             changesets demo_dag !! id = Some c ∧ rtc (child demo_dag) (cs_id cs_next) id).
Proof.
  destruct (rollup_spec demo_dag (cs_id cs_next) demo_dag_wf) as (d' & freed & Hr & Hp & Hk & _).
  exists d', freed. split; [exact Hr|]. split; [exact Hp|exact Hk].
Defined.

Definition demo_staged : StagedDeletionSet := stage leaf_addr 100 50 staged_new.

Lemma staged_deletion_spec_witness :
  let (s', taken) := take_ready_for_deletion 200 demo_staged in
  ∀ e, e ∈ taken ↔
       ∃ k, staged demo_staged !! k = Some e ∧ grace_period_ms e <= 200 - staged_at_millis e.
Proof.
  destruct (staged_deletion_spec demo_staged leaf_addr 200 300 50) as (_ & _ & Hspec).
  - by_eval.
  - intros k e He. unfold demo_staged, stage, or_insert in He. simpl in He.
    rewrite lookup_empty, lookup_insert, lookup_empty in He. case_decide; [|discriminate He].
    injection He as <-. simpl. split; [by_eval|lia].
  - destruct (take_ready_for_deletion 200 demo_staged) as [s' taken]. exact (proj1 Hspec).
Defined.
