(* ===== verification/WitnessesNet.v ===== *)
(** * Concrete instances: networking, devices and the relay

    As in [Witnesses], for the theorems about delay-tolerant networking,
    constrained devices, the wire protocol and the relay.  The peers are
    32-byte keys; the third-party codecs are replaced by toy ones that satisfy
    the laws the theorems ask for. *)

From S2P Require Import Prelude Float Bytes Packet Pending Bundle Custody Epidemic Prophet.
From S2P Require Import Compact LowMemory DutyCycle RelayConfig RelayQuota RelayAuth Registration.
From S2P Require Import Wire BlobStore RelayService RelayAdmin RelayNode Witnesses.

(** ** Toy codecs *)

Fixpoint bits_pos (l : list byte) : positive :=
  match l with
  | [] => xH
  | b :: l => if bool_decide (b = x00) then xO (bits_pos l) else xI (bits_pos l)
  end.

Lemma bits_pos_bits p : bits_pos (pos_bits p) = p.
Proof. induction p as [p IH|p IH|]; simpl; by rewrite ?IH. Qed.

Definition toy_encode {A} `{Countable A} (a : A) : list byte := pos_bits (countable.encode a).
Definition toy_decode {A} `{Countable A} (l : list byte) : option A := countable.decode (bits_pos l).

Lemma toy_decode_encode {A} `{Countable A} (a : A) : toy_decode (toy_encode a) = Some a.
Proof. unfold toy_decode, toy_encode. by rewrite bits_pos_bits, countable.decode_encode. Qed.

Definition event_fields (e : StoredEvent) : Z * Z * list byte * list byte * Z :=
  (sender_hash (se_event_id e), ev_sequence (se_event_id e), encrypted_event e, se_nonce e, received_at_millis e).

Definition event_of (x : Z * Z * list byte * list byte * Z) : StoredEvent :=
  let '(h, q, d, n, r) := x in
  {| se_event_id := {| sender_hash := h; ev_sequence := q |}; encrypted_event := d; se_nonce := n;
     received_at_millis := r |}.

Lemma event_of_fields e : event_of (event_fields e) = e.
Proof. by destruct e as [[]]. Qed.

#[local] Instance toy_stored : StoredEventPostcard := {|
  postcard_stored := λ e, Ok (toy_encode (event_fields e));
  postcard_parse_stored := λ l,
    match toy_decode l with Some x => Ok (event_of x) | None => Err "unexpected end"%string end;
|}.

Lemma toy_stored_law e v : postcard_stored e = Ok v → postcard_parse_stored v = Ok e.
Proof. intros [= <-]. cbn. by rewrite toy_decode_encode, event_of_fields. Qed.

(** Pings, pongs, store acknowledgements and deliveries. *)
Abbreviation toy_message :=
  (Z + Z + (bool * option string * Z + arr32 * list (Z * Z * list byte * list byte * Z) * bool * Z))%type.

Definition wire_code (m : WireMessage arr32) : option toy_message :=
  match m with
  | Ping n => Some (inl (inl n))
  | Pong n => Some (inl (inr n))
  | RelayStoreAck a => Some (inr (inl (rsa_accepted a, rsa_reason a, rsa_timestamp_millis a)))
  | RelayDelivery d =>
      Some (inr (inr (rdm_interface_id d, event_fields <$> rdm_events d, rdm_has_more d, rdm_timestamp_millis d)))
  | _ => None
  end.

Definition wire_of (c : toy_message) : WireMessage arr32 :=
  match c with
  | inl (inl n) => Ping n
  | inl (inr n) => Pong n
  | inr (inl (a, r, t)) => RelayStoreAck {| rsa_accepted := a; rsa_reason := r; rsa_timestamp_millis := t |}
  | inr (inr (f, l, more, t)) =>
      RelayDelivery {| rdm_interface_id := f; rdm_events := event_of <$> l; rdm_has_more := more;
                       rdm_timestamp_millis := t |}
  end.

#[local] Instance toy_wire : WirePostcard arr32 := {|
  postcard_wire := λ m, match wire_code m with Some c => Ok (toy_encode c) | None => Err "unsupported"%string end;
  postcard_parse_wire := λ l, match toy_decode l with Some c => Ok (wire_of c) | None => Err "unexpected end"%string end;
|}.

#[local] Instance toy_wire_laws : WirePostcardLaws arr32.
Proof.
  intros m b. cbn. destruct (wire_code m) as [c|] eqn:Hc; [|done]. intros [= <-]. rewrite toy_decode_encode.
  f_equal. destruct m; try done; injection Hc as <-; [done|done| |by destruct m].
  destruct m as [f es more t]. cbn. do 2 f_equal. rewrite <- list_fmap_compose. symmetry.
  rewrite <- (list_fmap_id es) at 1. apply list_fmap_ext. intros i e _. symmetry. apply event_of_fields.
Qed.

#[local] Instance toy_peer_key : PeerKey arr32 := {| peer_key := λ i, i; peer_key_inj := λ i j h, h |}.

#[local] Instance toy_peer_parse : PeerKeyParse arr32 := {|
  peer_from_bytes := λ l, match to_arr32 l with Some a => Ok a | None => Err "bad key"%string end;
  from_timestamp_millis := λ ms, Some (ms * 10 ^ 6);
|}.

#[local] Instance toy_registration_json : RegistrationJson := {|
  json_registrations := λ _, "[]"%string; json_parse_registrations := λ _, Ok [];
|}.

#[local] Instance toy_strings_json : StringListJson := {|
  json_strings := λ _, "[]"%string; json_parse_strings := λ _, Ok [];
|}.

#[local] Instance toy_ed25519 : Ed25519 := {|
  EdSigningKey := arr32; ed_public := λ k, k; ed_sign := λ k _, arr32_bytes k ++ arr32_bytes k;
  ed_key_error := λ _, None; ed_verify := λ k _ s, bool_decide (s = arr32_bytes k ++ arr32_bytes k);
|}.

#[local] Instance toy_credential : CredentialPostcard := {|
  postcard_credential := λ c,
    toy_encode (arr32_bytes (cred_player_id c), arr32_bytes (transport_pubkey c), expires_at_millis c);
  postcard_parse_credential := λ l,
    match toy_decode l with
    | Some (p, t, e) =>
        match to_arr32 p, to_arr32 t with
        | Some p, Some t => Ok {| cred_player_id := p; transport_pubkey := t; expires_at_millis := e |}
        | _, _ => Err "bad key"%string
        end
    | None => Err "unexpected end"%string
    end;
|}.

(** ** Delay-tolerant networking *)

Definition demo_bundle : Bundle SimulationIdentity := bundle_from_packet (packet_to pid1 pD) (10 ^ 9).

Lemma custody_invariant_witness :
  let m := (accept_custody demo_bundle None 100 5 (custody_new custody_config_default)).1 in
  custody_ok m ∧ custody_count m <= Z.max 0 (max_custody_bundles (cm_config m)).
Proof.
  apply (custody_invariant custody_config_default). apply rtc_once, cstep_accept.
Defined.

#[local] Existing Instance toy_hasher.
#[local] Existing Instance line_topology.

Lemma epidemic_route_spec_witness :
  let (r, d) := epidemic_route demo_bundle pA line 100 5 (epidemic_new epidemic_config_default) in
  (∀ i, i ∈ decision_targets d → i ∈ open_neighbors demo_bundle pA line) ∧
  d = Suppress WaitPhase ∧ copies_remaining demo_bundle <= 1.
Proof.
  pose proof (epidemic_route_spec demo_bundle pA line 100 5 (epidemic_new epidemic_config_default)) as Hr.
  destruct (epidemic_route demo_bundle pA line 100 5 (epidemic_new epidemic_config_default)) as [r d] eqn:E.
  destruct Hr as [Ht Hd]; [cbn; lia|]. split; [exact Ht|].
  vm_compute in E. injection E as _ <-. split; [reflexivity|exact Hd].
Defined.

Lemma prophet_invariant_witness :
  let s := prophet_encounter 5 pB (prophet_new 0 pA prophet_config_default) in
  prophet_ok s ∧ is_nan (get_probability pB s) = false.
Proof.
  destruct (prophet_invariant 0 pA prophet_config_default
    (prophet_encounter 5 pB (prophet_new 0 pA prophet_config_default))) as (_ & Hok & Hn).
  - vm_compute. reflexivity.
  - apply rtc_once, ps_encounter.
  - split; [exact Hok|apply Hn].
Defined.

(** ** Constrained devices *)

Definition small_message : CompactMessage := compact_new Compact.Ping [x68; x69].

Lemma small_message_ok : header_ok small_message.
Proof. by_eval. Defined.

Lemma compact_roundtrip_witness : decode (encode small_message) = Ok small_message.
Proof.
  destruct (compact_roundtrip small_message small_message_ok) as (_ & _ & Hr & _). apply Hr. by_eval.
Defined.

(** The third byte of the encoding flipped. *)
Lemma corruption_detected_witness :
  ∃ pre b b' post, encode small_message = pre ++ b :: post ∧
    decode (pre ++ b' :: post) = Err ChecksumMismatch.
Proof.
  exists (take 2 (encode small_message)), (nth 2 (encode small_message) x00), xff,
    (drop 3 (encode small_message)). split; [vm_compute; reflexivity|].
  apply (corruption_detected small_message (take 2 (encode small_message))
    (nth 2 (encode small_message) x00) xff (drop 3 (encode small_message)));
    [exact small_message_ok|vm_compute; reflexivity|vm_compute; discriminate].
Defined.

Definition long_message : CompactMessage := compact_new Compact.Ping (replicate 5 x61).

Lemma fragment_spec_witness :
  match fragment {| max_fragment_size := 2 |} long_message with
  | None => False
  | Some frags => concat (cm_payload <$> frags) = cm_payload long_message
  end.
Proof.
  destruct (fragment_spec {| max_fragment_size := 2 |} long_message) as [_ Hf].
  - cbn. lia.
  - vm_compute. discriminate.
  - cbn. lia.
  - destruct (fragment _ _) as [frags|] eqn:E; [|vm_compute in E; discriminate E].
    apply Hf. cbn. lia.
Defined.

Lemma default_budget_ok : budget_ok memory_budget_default.
Proof. intros []; vm_compute; split; congruence. Defined.

Definition calling : Machine :=
  put 0 {| guards := []; trying := Some (ConnectionGuard, None) |} (memory_tracker_new memory_budget_default)
    (machine_new memory_budget_default 2).

Lemma memory_budget_safe_witness :
  counter ConnectionGuard (tracker calling) = held_by_all ConnectionGuard calling ∧
  0 <= counter ConnectionGuard (tracker calling) <= limit ConnectionGuard memory_budget_default.
Proof.
  apply (memory_budget_safe memory_budget_default 2 calling default_budget_ok).
  apply rtc_once. apply (ms_call (machine_new memory_budget_default 2) 0 {| guards := []; trying := None |} ConnectionGuard);
    [reflexivity|reflexivity|vm_compute; split; congruence].
Defined.

Lemma undisturbed_call_witness :
  let m := machine_new memory_budget_default 2 in
  let (t', r) := try_guard ConnectionGuard (tracker m) in
  is_ok r = true ∧ rtc machine_step m (put 0 {| guards := [ConnectionGuard]; trying := None |} t' m).
Proof.
  pose proof (undisturbed_call memory_budget_default (machine_new memory_budget_default 2) 0
    {| guards := []; trying := None |} ConnectionGuard default_budget_ok
    (machine_new_ok memory_budget_default 2 default_budget_ok) eq_refl eq_refl) as Hc.
  destruct (try_guard ConnectionGuard (tracker (machine_new memory_budget_default 2))) as [t' r] eqn:Ht.
  cbn zeta. rewrite Ht. destruct Hc as (Hrun & _); [vm_compute; split; congruence|].
  assert (is_ok r = true) as Hr by (vm_compute in Ht; injection Ht as _ <-; reflexivity).
  rewrite Hr in Hrun. split; [exact Hr|exact Hrun].
Defined.

Lemma duty_cycle_safe_witness :
  let m := duty_new 0 duty_config_default in
  duty_ok (sleep 40 (tick 30 31 m).1).
Proof.
  destruct (duty_cycle_safe 0 duty_config_default (tick 30 31 (duty_new 0 duty_config_default)).1
    (sleep 40 (tick 30 31 (duty_new 0 duty_config_default)).1)) as (_ & Hok & _).
  - apply rtc_once, ds_tick.
  - apply ds_sleep.
  - exact Hok.
Defined.

(** ** The relay *)

Definition peer1 : arr32 := arr32_fill x11.
Definition meadow : arr32 := arr32_fill x22.

Lemma tiered_quota_spec_witness :
  let m := record_storage_tiered peer1 Public 100 (tq_new tier_config_default) in
  peer_tier_bytes peer1 Public m = 100.
Proof.
  destruct (tiered_quota_spec peer1 Public 100 (tq_new tier_config_default)) as (_ & _ & _ & Hb & _).
  - vm_compute. split; congruence.
  - vm_compute. split; congruence.
  - exact (Hb peer1 Public).
Defined.

Lemma registration_index_witness :
  let s := (reg_register 0 Written peer1 [meadow] None (registration_new None)).1 in
  is_interface_registered meadow s = true.
Proof.
  destruct (registration_index (I := arr32) None (reg_register 0 Written peer1 [meadow] None (registration_new None)).1)
    as [_ Hf].
  - apply rtc_once, rs_register.
  - apply (Hf meadow). exists peer1. vm_compute. apply list_elem_of_singleton. reflexivity.
Defined.

Definition framed (m : WireMessage arr32) : list byte := unwrap_or [] (frame_message m).

Lemma framing_roundtrip_witness :
  parse_framed_message (framed (Ping 7) ++ [x00]) = Ok (Ping 7 : WireMessage arr32).
Proof.
  apply (proj1 (framing_roundtrip (I := arr32)) (Ping 7) (framed (Ping 7))). vm_compute. reflexivity.
Defined.

(** Two events of one interface, the later stored first. *)
Definition event_at (n : Z) : StoredEvent :=
  stored_event_new 50 {| sender_hash := 1; ev_sequence := n |} [x01; x02] [].
Definition one_event : BlobStore := (store_event_tiered None Public meadow (event_at 2) blob_store_empty).1.
Definition two_events : BlobStore := (store_event_tiered None Public meadow (event_at 1) one_event).1.

Lemma two_events_reachable : rtc blob_step blob_store_empty two_events.
Proof. eapply rtc_l; [|apply rtc_once]; apply bs_store; by_eval. Defined.

Lemma events_after_spec_witness :
  ∃ es, events_after_tiered None Public meadow (Some (se_event_id (event_at 1))) two_events = Ok es ∧
    ∀ e, e ∈ es → get_event None Public meadow (se_event_id e) two_events = Ok (Some e).
Proof.
  destruct (events_after_spec Public meadow (Some (se_event_id (event_at 1))) two_events
    toy_stored_law two_events_reachable) as (es & Hes & _ & Hin & _).
  exists es. split; [exact Hes|]. intros e He. by apply Hin in He as (_ & _ & ?).
Defined.

Lemma usage_accounting_witness : usage_exact one_event.
Proof.
  destruct (usage_accounting blob_store_empty) as (Hstore & _).
  - by intros [].
  - by intros [].
  - apply (Hstore Public meadow (event_at 2) (toy_encode (event_fields (event_at 2)))); [reflexivity|].
    vm_compute. reflexivity.
Defined.

Definition quiet_env : RelayEnv := {|
  now_auth := 100; now_touch := 100; now_register := 100; now_event := 100; now_received := 100; now_ack := 100;
  db_read := None; db_usage := None; db_store := None; db_pin := None; db_ttl := None;
  registrations_write := Written; contacts_write := Written; gossip_subscribe := λ _, None; stream_write := None;
|}.

Definition new_relay : option (Result (RelayService arr32) RelayError) :=
  relay_service_new 0 relay_config_default (Ok blob_store_empty) None None.

Definition demo_relay : RelayService arr32 :=
  match new_relay with
  | Some (Ok s) => s
  | _ => {| rs_config := relay_config_default; live_config := relay_config_default; has_config_path := false;
            blob_store := blob_store_empty; registrations := registration_new None;
            rs_auth := {| auth_owner := None; auth_contacts := ∅; auth_sessions := ∅ |};
            rs_quota := rq_new quota_config_default; tiered_quota := tq_new tier_config_default;
            has_gossip := false; rs_observers := []; contacts_json := None; config_file := None |}
  end.

Lemma stream_spec_witness :
  handle_bi_stream (λ _, quiet_env) peer1 (concat [framed (Ping 1); framed (Ping 2)] ++ [x00]) demo_relay
  = Some (close_connection peer1 demo_relay, [Pong 1; Pong 2], Ok tt).
Proof.
  rewrite (proj2 (stream_spec (λ _, quiet_env) peer1 demo_relay) [Ping 1; Ping 2]).
  - reflexivity.
  - repeat constructor.
  - cbn. lia.
Defined.

(** A peer with a session stores a blob in the public tier. *)
Definition serving : RelayService arr32 :=
  upd_auth {| auth_owner := None; auth_contacts := ∅;
              auth_sessions := {[ peer1 := {| as_player_id := peer1; transport_id := peer1; highest_tier := Public;
                                              as_granted_tiers := [Public]; as_expires_at_millis := 1000 |} ]} |}
    None demo_relay.

Definition store_request : RelayStoreMessage := {|
  rsm_tier := Public; rsm_interface_id := meadow; rsm_data := [x01; x02; x03];
  rsm_metadata := {| content_type := SctEvent; sm_pin := true; ttl_override_days := Some 3 |};
  rsm_timestamp_millis := 99;
|}.

Lemma relay_store_spec_witness :
  let s' := out_service (handle_message quiet_env peer1 true (RelayStore store_request) serving) in
  get_event None Public meadow (store_event_id 100) (blob_store s')
  = Ok (Some (stored_event_new 100 (store_event_id 100) [x01; x02; x03] (replicate 12 x00))).
Proof.
  destruct (relay_store_spec quiet_env peer1 store_request serving
    {| rsa_accepted := true; rsa_reason := None; rsa_timestamp_millis := 100 |} toy_stored_law) as [Hs _].
  destruct Hs as (_ & Hg & _); [vm_compute; reflexivity|]. exact Hg.
Defined.

Definition keeping : RelayService arr32 := upd_blobs two_events serving.

Definition retrieve_request : RelayRetrieveMessage := retrieve_from_tier Public (relay_retrieve_new 100 meadow).

Definition first_page : RelayDeliveryMessage := relay_delivery_new 100 meadow [event_at 1; event_at 2].

Lemma retrieve_page_spec_witness :
  out_sent (handle_message quiet_env peer1 true (RelayRetrieve retrieve_request) keeping)
  = [RelayDelivery first_page] ∧
  events_after_tiered None Public meadow (Some (se_event_id (event_at 2))) two_events = Ok [].
Proof.
  assert (out_sent (handle_message quiet_env peer1 true (RelayRetrieve retrieve_request) keeping)
          = [RelayDelivery first_page]) as Hsent by (vm_compute; reflexivity).
  split; [exact Hsent|].
  destruct (retrieve_page_spec quiet_env peer1 retrieve_request keeping) as (_ & _ & Hd).
  - apply blob_reachable_ok; [exact toy_stored_law|exact two_events_reachable].
  - reflexivity.
  - destruct (Hd first_page Hsent) as (_ & events & _ & Hev & _ & Hmore & Hlast).
    transitivity (@Ok _ RelayError (drop 100 events)); [exact (Hlast (event_at 2) eq_refl)|].
    destruct (drop 100 events) as [|e es]; [reflexivity|].
    assert (rdm_has_more first_page = true) as Ht by (apply Hmore; discriminate). discriminate Ht.
Defined.

(** ** A relay with an owner *)

Section OwnedRelay.
(** What is sent does not matter here. *)
#[local] Instance blank_wire : WirePostcard arr32 := {|
  postcard_wire := λ _, Ok []; postcard_parse_wire := λ _, Err "unexpected end"%string |}.











End OwnedRelay.
