(* ===== verification/WitnessesDoc.v ===== *)
(** * Concrete instances: documents, recovery and realms

    As in [Witnesses], for the theorems about replicated documents, recovery,
    attention, gratitude, intentions, chat and the home realm.  The ciphers and
    codecs are toy ones that satisfy the laws asked for. *)

From S2P Require Import Prelude Bytes Artifact Crypto Attention Packet Pending EventStore Documents Convergence SyncDocs.
From S2P Require Import Mesh Simulation SimulationFacts.
From S2P Require Import Sealing Recovery FocusDoc Gratitude IntentionDoc ProofDoc Chat HomeIndex Witnesses WitnessesNet.

(** ** Simulation *)

Definition talking : Simulation := tick_ [65; 66; 67; 68] (send_message 65 68 [x2a] (simulation_new line4 (demo_config None))).

Lemma simulation_conserves_witness : sim_stats talking messages_sent = 1 ∧ sim_stats talking messages_delivered = 1 ∧
  NoDup ((sp_id <$> queued talking) ++ delivered_ids talking).
Proof.
  split; [vm_compute; reflexivity|]. split; [vm_compute; reflexivity|].
  destruct (topology_spec TLine (λ _, 0) 4) as (m & Hb & Hm & _); [lia|].
  assert (Em : line4 = m) by (unfold line4; change (Mesh.line (λ _, 0) {| mb_peer_count := 4 |}) with (topology TLine (λ _, 0) {| mb_peer_count := 4 |}); by rewrite Hb).
  refine (proj1 (proj2 (proj2 (simulation_conserves (λ _, 0) line4 (demo_config None) talking _ _ _)))).
  - by rewrite Em.
  - rewrite Em. rewrite topology_build in Hb by lia. by apply build_idle in Hb.
  - eapply rtc_l; [apply (SoSend _ 65 68 [x2a])|]. apply rtc_once. apply tick_op. vm_compute. reflexivity.
Defined.

(** ** Codecs *)

#[local] Arguments toy_encode {_ _ _} _ : simpl never.
#[local] Arguments toy_decode {_ _ _} _ : simpl never.

(** A document with a countable representation. *)
Definition toy_codec {T A} `{Countable A} (f : T → A) (g : A → T) : DocumentCodec T := {|
  encode_state := λ s, Ok (toy_encode (f s));
  decode_state := λ b, g <$> toy_decode b;
  encode_envelope := λ e, Ok (toy_encode (inl (env_doc_name e, env_payload e) : (string * list byte) + (Z * string * list byte)));
  decode_envelope := λ b,
    match toy_decode (A := (string * list byte) + (Z * string * list byte)) b with
    | Some (inl (n, p)) => Some {| env_doc_name := n; env_payload := p |}
    | _ => None
    end;
  encode_delta := λ d,
    Ok (toy_encode (inr (delta_magic d, delta_doc_name d, delta_bytes d) : (string * list byte) + (Z * string * list byte)));
  decode_delta := λ b,
    match toy_decode (A := (string * list byte) + (Z * string * list byte)) b with
    | Some (inr (m, n, p)) => Some {| delta_magic := m; delta_doc_name := n; delta_bytes := p |}
    | _ => None
    end;
|}.

Lemma toy_codec_laws {T A} `{Countable A} (f : T → A) (g : A → T) ok name : (∀ t, g (f t) = t) →
  CodecLaws (H := toy_codec f g) ok name.
Proof.
  intros Hfg. split.
  - intros s b _ [= <-]. simpl. rewrite toy_decode_encode. simpl. by rewrite Hfg.
  - intros [n p] b [= <-]. simpl. by rewrite toy_decode_encode.
  - intros [n p] b _ [= <-]. unfold delta_for. simpl. by rewrite toy_decode_encode.
Qed.

(** A document that is stored as nothing, where only success matters. *)
Definition blank_codec {T} : DocumentCodec T := {|
  encode_state := λ _, Ok [];
  decode_state := λ _, None;
  encode_envelope := λ _, Ok [];
  decode_envelope := λ _, None;
  encode_delta := λ _, Ok [];
  decode_delta := λ _, None;
|}.

(** ** Convergence of a document *)

#[local] Instance reads_schema : DocumentSchema ReadTrackerDocument := merging_schema read_tracker_default read_tracker_merge.
#[local] Instance reads_codec : DocumentCodec ReadTrackerDocument := toy_codec last_read Build_ReadTrackerDocument.
#[local] Instance reads_codec_laws : CodecLaws seqs_ok "reads".
Proof. apply toy_codec_laws. by intros []. Qed.

Definition fresh_reads : Document ReadTrackerDocument Z := doc_new None "reads" None None None.
Definition alice_reads : Document ReadTrackerDocument Z := (doc_update None (mark_read alice 5) fresh_reads).1.1.
Definition read_event : LogEvent Z :=
  LeMessage {| sender_hash := 1; ev_sequence := 1 |} 1 (default [] (doc_update None (mark_read alice 5) fresh_reads).2) 0.
Definition two_readers : Net ReadTrackerDocument Z :=
  {| net_log := [read_event]; net_replicas := <[1 := alice_reads]> (<[2 := fresh_reads]> {[1 := fresh_reads]}); net_unsent := ∅ |}.

Lemma two_readers_reachable : rtc (net_step seqs_ok "reads") net_empty two_readers.
Proof.
  assert (Hnone : ∀ l : list (LogEvent Z), None = Some l ∨ None = Some l → l ⊆ []) by (intros l []; done).
  eapply rtc_l; [apply (NsJoin _ _ _ 1 None None None); [done|exact Hnone]|].
  eapply rtc_l; [apply (NsJoin _ _ _ 2 None None None); [done|exact Hnone]|].
  apply rtc_once. refine (NsUpdate seqs_ok "reads" _ 1 fresh_reads alice_reads (mark_read alice 5) None _ _ 0 _ _ _).
  - reflexivity.
  - apply map_Forall_insert_2; [vm_compute; done|apply map_Forall_empty].
  - reflexivity.
Qed.

Lemma refresh_join_witness :
  last_read (d_state (refresh_from_crdt None (Some [read_event]) fresh_reads).1) !! alice = Some 5 ∧
  entries_equiv (λ d k, last_read d !! k) eq (d_state (refresh_from_crdt None (Some [read_event]) fresh_reads).1)
    (join doc_merge doc_default (log_states "reads" [read_event])).
Proof.
  split; [vm_compute; reflexivity|].
  refine (proj2 (refresh_join seqs_ok (entries_equiv (λ d k, last_read d !! k) eq) "reads" _ two_readers 2 fresh_reads None [read_event] _ _ _) _).
  - done.
  - apply two_readers_reachable.
  - reflexivity.
  - done.
  - reflexivity.
Defined.

(** ** Recovery *)

#[local] Instance plain_aead : Aead := {| aead_encrypt := λ _ _ p, Ok p; aead_decrypt := λ _ _ c, Ok c |}.
#[local] Instance plain_aead_laws : AeadLaws.
Proof. intros k n p c [= <-]. done. Qed.

(** The shared secret is the key itself. *)
#[local] Instance toy_kem : Kem := {|
  KemPublic := arr32; KemSecret := arr32; kem_public_bytes := 32; kem_secret_bytes := 32; kem_ciphertext_bytes := 0;
  kem_public_from_bytes := to_arr32; kem_public_as_bytes := arr32_bytes;
  kem_secret_from_bytes := to_arr32; kem_secret_as_bytes := arr32_bytes;
  kem_encapsulate := λ _ pk, ([], pk); kem_decapsulate := λ sk _, Ok sk |}.
#[local] Instance toy_kem_laws : KemLaws.
Proof. refine (@Build_KemLaws toy_kem (@eq arr32) _ _); [done|]. by intros rnd pk sk ->. Defined.

(** A share is its coordinate and the secret. *)
#[local] Instance toy_sharks : Sharks := {|
  sharks_deal := λ _ _ s n, (λ i, byte_of_Z (Z.of_nat i) :: s) <$> List.seq 0 n;
  sharks_parse := Some;
  sharks_recover := λ _ l, match l with (_ :: s) :: _ => Some s | _ => None end |}.
#[local] Instance toy_sharks_laws : SharksLaws.
Proof.
  split; simpl.
  - intros. by rewrite length_fmap, length_seq.
  - intros rnd k s n Hn. apply NoDup_fmap_2_strong; [|apply NoDup_seq].
    intros i j [_ Hi]%elem_of_seq [_ Hj]%elem_of_seq [= E]. apply (f_equal byte_val) in E. rewrite !byte_val_of_Z in E.
    rewrite !Z.mod_small in E by lia. lia.
  - done.
  - intros rnd k s n [|b l] _ Hk _ _ Hl Hlen; simpl in *; [lia|].
    assert (Hb : b ∈ (λ i : nat, byte_of_Z (Z.of_nat i) :: s) <$> List.seq 0 n) by (apply Hl; left).
    by apply list_elem_of_fmap in Hb as (i & -> & _).
Qed.

#[local] Instance share_codec : Codec ShamirShare := {| c_encode := λ s, Ok (share_bytes s); c_decode := λ b, Ok {| share_bytes := b |} |}.
#[local] Instance share_codec_laws : CodecRoundtrip ShamirShare.
Proof. intros [l] b [= <-]. done. Qed.

Definition keypair (a : arr32) : PQKemKeyPair := @Build_PQKemKeyPair toy_kem a a.
Definition stewards : list PQKemKeyPair := keypair <$> [alice; bob; carol].
Definition steward_ids : list (list byte) := [[x01]; [x02]; [x03]].
Definition the_subkey : arr32 := arr32_fill x2a.
Definition prepared : Result PreparedRecovery StewardRecoveryError :=
  prepare_recovery [] [] 0 the_subkey (zip steward_ids (encapsulation_key <$> stewards)) 2 1.
Definition prepared_shares : list EncryptedStewardShare := match prepared with Ok p => pr_encrypted_shares p | Err _ => [] end.

(** The third and the first steward answer. *)
Definition picked_shares : list (EncryptedStewardShare * PQKemKeyPair) :=
  omap (λ i, x ← prepared_shares !! i; y ← stewards !! i; Some (x, y)) [2%nat; 0%nat].

Lemma recovery_roundtrip_witness : length picked_shares = 2%nat ∧
  ∃ l, open_shares picked_shares = Ok l ∧ recover_encryption_subkey l 2 = Ok the_subkey.
Proof.
  split; [vm_compute; reflexivity|].
  destruct prepared as [prep|] eqn:E; [|vm_compute in E; discriminate E].
  refine (recovery_roundtrip [] [] 0 the_subkey steward_ids stewards 2 1 prep [2%nat; 0%nat] picked_shares _ _ E _ _ _ _).
  - reflexivity.
  - repeat constructor.
  - apply (bool_decide_unpack _). reflexivity.
  - reflexivity.
  - reflexivity.
  - assert (Hp : pr_encrypted_shares prep = prepared_shares) by (unfold prepared_shares; by rewrite E). rewrite Hp. clear.
    intros [|[|j]] i e kp Hi; simpl in Hi; simplify_eq; intros He; vm_compute in He; injection He as <- <-; split; vm_compute; reflexivity.
Defined.

(** One data shard and its copies. *)
#[local] Instance copies : ReedSolomon := {|
  rs_new := λ _ _, Ok tt;
  rs_encode := λ d p l, match l with x :: _ => if (d =? 1)%nat then Ok ((λ _, x) <$> l) else Err "unsupported"%string | [] => Err "unsupported"%string end;
  rs_reconstruct := λ _ _ o, match omap id o with x :: _ => Ok ((λ _, Some x) <$> o) | [] => Err "too few shards"%string end |}.
#[local] Instance copies_laws : ReedSolomonLaws.
Proof.
  split; simpl.
  - intros d p [|x l] l'; [done|]. destruct (Nat.eqb_spec d 1) as [->|]; [|done]. intros [= <-]. simpl. by rewrite length_fmap.
  - intros d p [|x l] l' n; [done|]. destruct (d =? 1)%nat; [|done]. intros [= <-] [Hx Hl]%Forall_cons.
    constructor; [done|]. by apply Forall_fmap, Forall_true.
  - intros d p [|x l] l' o; [done|]. destruct (Nat.eqb_spec d 1) as [->|]; [|done]. intros [= <-] Ho Hp. unfold present in Hp.
    pose proof (λ y, survivors_omap _ o y Ho) as Hin. destruct (omap id o) as [|y r]; simpl in *; [lia|].
    exists ((λ _, Some y) <$> o). split; [done|]. assert (Hy : y ∈ x :: ((λ _, x) <$> l)) by (apply Hin; left).
    assert (y = x) as -> by (apply elem_of_cons in Hy as [|(? & ? & _)%list_elem_of_fmap]; done).
    destruct Ho as [Hlen _]. by destruct o.
Qed.

Definition the_file : list byte := [x68; x65; x6c; x6c; x6f].
Definition prepared_file : Result PreparedShardSet FileShardError :=
  prepare_file_shards bob [] [] the_file carol "letter" alice 1 3 0.
(** Only the second shard survives. *)
Definition lone_shard : list (option FileShard) :=
  match prepared_file with Ok set => imap (λ i s, if (i =? 1)%nat then Some s else None) (ps_shards set) | Err _ => [] end.

Lemma file_roundtrip_witness : length lone_shard = 3%nat ∧ reconstruct_file lone_shard alice = Ok the_file.
Proof.
  split; [vm_compute; reflexivity|].
  destruct prepared_file as [set|] eqn:E; [|vm_compute in E; discriminate E].
  assert (Ho : lone_shard = imap (λ i s, if (i =? 1)%nat then Some s else None) (ps_shards set)) by (unfold lone_shard; by rewrite E).
  refine (proj1 (file_roundtrip bob [] [] the_file carol "letter" alice 1 3 0 set lone_shard _ _ E _ _)).
  - lia.
  - lia.
  - rewrite Ho. split; [by rewrite length_imap|]. intros i x. rewrite list_lookup_imap.
    destruct (ps_shards set !! i); simpl; [|done]. by destruct (i =? 1)%nat; intros; simplify_eq.
  - vm_compute. discriminate.
Defined.

(** ** Attention and gratitude *)

Definition focused : AttentionDocument :=
  switch_attention [x02] 40 alice None (switch_attention [x01] 10 alice (Some [x07]) attention_default).

Lemma attention_backed_witness : ∃ a, a ∈ calculate_attention 50 focused ∧
  default 0 (ia_attention_by_member a !! alice) =
  compute_attention_millis (focus_indices (ia_intention_id a) alice (sort_by focus_leb (ad_events focused))) 50 focused ∧
  ia_total_attention_millis a = 30.
Proof.
  assert (Ht : ia_total_attention_millis <$> head (calculate_attention 50 focused) = Some 30) by (vm_compute; reflexivity).
  destruct (calculate_attention 50 focused) as [|a l] eqn:E; [discriminate Ht|]. injection Ht as Ht.
  assert (Hin : a ∈ calculate_attention 50 focused) by (rewrite E; left).
  exists a. split; [left|]. split; [|exact Ht].
  refine (proj1 (attention_backed 50 focused a alice _ Hin)). repeat constructor; vm_compute; discriminate.
Defined.

#[local] Existing Instance blank_codec.
#[local] Existing Instance token_schema.
#[local] Existing Instance blessing_schema.

Definition blank {T} (name : string) (s : T) : Document T Z := {| d_name := name; d_state := s; d_snapshot := None; d_changes := [] |}.
Definition thankful_realm : RealmDocs := {| rd_attention := focused; rd_blessings := blank "blessings" blessing_default; rd_tokens := blank "tokens" token_default |}.
Definition blessed_realm : RealmDocs * Result (list byte) IndraError :=
  realm_bless_claim None None (Ok tt) 60 [x0b] [x0c] [x07] bob alice [0%nat] thankful_realm.

Lemma realm_bless_ok_witness :
  td_events (d_state (rd_tokens blessed_realm.1)) = [Minted [x0c] bob [x0b] alice [x07] bob [0%nat] 60 [bob]].
Proof.
  assert (Hok : blessing_ok (d_state (rd_blessings thankful_realm))) by (intros b i k; vm_compute; split; [done|by intros (? & ?%not_elem_of_nil & _)]).
  assert (Eo : blessed_realm.2 = Ok [x0b]) by (vm_compute; reflexivity).
  destruct blessed_realm as [r' out] eqn:E. simpl in Eo. subst out.
  destruct (realm_bless_ok None None (Ok tt) 60 [x0b] [x0c] [x07] bob alice [0%nat] thankful_realm _ _ Hok E) as (_ & _ & _ & _ & _ & Ht).
  exact Ht.
Defined.

Definition minted_token : TokenDocument := (mint [x0c] 60 bob [x0b] alice [x07] [0%nat] token_default).1.
Definition given_token : TokenDocument := (release [x0c] carol (pledge 70 [x0c] [x08] minted_token).1).1.

Lemma token_custody_witness : tok_steward_chain <$> td_tokens minted_token !! [x0c] = Some [bob] ∧
  ∃ t', td_tokens given_token !! [x0c] = Some t' ∧ [bob] `prefix_of` tok_steward_chain t' ∧ token_ok [x0c] t'.
Proof.
  assert (E : ∃ t, td_tokens minted_token !! [x0c] = Some t ∧ tok_steward_chain t = [bob]) by (eexists; split; vm_compute; reflexivity).
  destruct E as (t & Ht & Hc). split; [by rewrite Ht; simpl; rewrite Hc|].
  destruct (token_custody minted_token) as [_ Hk].
  { apply rtc_once. by eapply TsMint. }
  destruct (Hk given_token [x0c] t) as (t' & Ht' & _ & Hp & Hok).
  - eapply rtc_l; [by eapply TsPledge|]. apply rtc_once. by eapply TsRelease.
  - exact Ht.
  - exists t'. rewrite <-Hc. done.
Defined.

(** ** Intentions and proofs *)

#[local] Existing Instance intentions_schema.
#[local] Existing Instance folders_schema.

Definition idle_work : WorkDocs := {| wd_folders := blank "folders" folders_default; wd_intentions := blank "intentions" intentions_default |}.
Definition wished : WorkDocs :=
  {| wd_folders := wd_folders idle_work; wd_intentions := (create_intention None [x07] 5 "Well" "Dig a well" None alice (wd_intentions idle_work)).1 |}.
Definition drafted : WorkDocs :=
  {| wd_folders := (create_proof_folder None [x08] 6 [x07] bob (wd_folders wished)).1; wd_intentions := wd_intentions wished |}.
Definition delivered_work : WorkDocs := (submit_proof_folder None None (Ok tt) 7 [x08] drafted).1.
Definition renamed_work : WorkDocs :=
  {| wd_folders := (update_proof_folder_narrative None [x08] "afterthought" (wd_folders delivered_work)).1; wd_intentions := wd_intentions delivered_work |}.

Lemma work_is_kept_witness : rtc work_step delivered_work renamed_work ∧
  pf_narrative <$> folders_find [x08] (d_state (wd_folders renamed_work)) = Some ""%string ∧
  folders_le (d_state (wd_folders delivered_work)) (d_state (wd_folders renamed_work)).
Proof.
  assert (Hs : rtc work_step delivered_work renamed_work) by (apply rtc_once; apply (WsFolder _ _ (FoNarrative None [x08] "afterthought"))).
  split; [exact Hs|]. split; [vm_compute; reflexivity|].
  exact (proj1 (work_is_kept delivered_work renamed_work Hs)).
Defined.

(** ** The home realm *)

#[local] Existing Instance index_schema.
#[local] Existing Instance toy_blake3.

Definition scroll : ArtifactId := Blob (arr32_fill x09).
Definition calm : NodeAnswers := {| na_fault := None; na_created := Ok tt; na_listed := false; na_is_key := λ _, true |}.
Definition home : HomeRealm :=
  {| hr_self := alice; hr_index := blank "index" {| ai_artifacts := {[scroll := plain_entry scroll "scroll"]} |};
     hr_registry := {| sr_active := ∅; sr_documents := ∅; sr_tracker := ht_new |} |}.
Definition shared_home : HomeRealm * Result unit IndraError * list NodeCall := grant_access calm scroll bob Permanent home.

Lemma grant_access_ok_witness : may_read scroll bob 0 (d_state (hr_index shared_home.1.1)) ∧
  AddMember (artifact_interface_id scroll) bob ∈ shared_home.2.
Proof.
  assert (Eo : shared_home.1.2 = Ok tt) by (vm_compute; reflexivity).
  destruct shared_home as [[h' out] calls] eqn:E. simpl in Eo. subst out.
  destruct (grant_access_ok calm scroll bob Permanent home h' calls E eq_refl) as (_ & Hread & _ & _ & Hadd & _).
  split; [exact Hread|]. apply Hadd; [by_eval|reflexivity].
Defined.

(** ** Chat *)

#[local] Instance ChatMessageVersion_eq_dec : EqDecision ChatMessageVersion.
Proof. solve_decision. Defined.
#[local] Instance ChatMessageVersion_countable : Countable ChatMessageVersion.
Proof. by apply (inj_countable' (λ v, (cmv_content v, cmv_edited_at v)) (λ x, {| cmv_content := x.1; cmv_edited_at := x.2 |})); intros []. Defined.

#[local] Instance GalleryItem_eq_dec : EqDecision GalleryItem.
Proof. solve_decision. Defined.
#[local] Instance GalleryItem_countable : Countable GalleryItem.
Proof.
  by apply (inj_countable' (λ g, (gi_name g, gi_mime_type g, gi_size g, gi_thumbnail_data g, gi_artifact_hash g, gi_dimensions g))
    (λ '(n, m, s, t, a, d), Build_GalleryItem n m s t a d)); intros [].
Defined.

#[local] Instance EditableMessageType_eq_dec : EqDecision EditableMessageType.
Proof. solve_decision. Defined.

(** Types without and with strings of their own. *)
Abbreviation type_code :=
  ((nat * (string * string * string * string * Z)) +
   (string * option string * option string * option string * option (Z * Z) * option string) + (string * option string * list GalleryItem))%type.
Definition type_to_code (t : EditableMessageType) : type_code :=
  match t with
  | EText => inl (inl (0%nat, ("", "", "", "", 0)))
  | EProofSubmitted i a => inl (inl (1%nat, (i, a, "", "", 0)))
  | EProofFolderSubmitted i f => inl (inl (2%nat, (i, f, "", "", 0)))
  | EBlessingGiven i c => inl (inl (3%nat, (i, c, "", "", 0)))
  | EArtifactRecalled h s => inl (inl (4%nat, (h, "", "", "", s)))
  | ERealmInvite c n a d => inl (inl (5%nat, (c, n, a, d, 0)))
  | EImage m i a f d t => inl (inr (m, i, a, f, d, t))
  | EGallery f t l => inr (f, t, l)
  end.
Definition type_of_code (x : type_code) : EditableMessageType :=
  match x with
  | inl (inl (1%nat, (i, a, _, _, _))) => EProofSubmitted i a
  | inl (inl (2%nat, (i, f, _, _, _))) => EProofFolderSubmitted i f
  | inl (inl (3%nat, (i, c, _, _, _))) => EBlessingGiven i c
  | inl (inl (4%nat, (h, _, _, _, s))) => EArtifactRecalled h s
  | inl (inl (5%nat, (c, n, a, d, _))) => ERealmInvite c n a d
  | inl (inl _) => EText
  | inl (inr (m, i, a, f, d, t)) => EImage m i a f d t
  | inr (f, t, l) => EGallery f t l
  end.
#[local] Instance EditableMessageType_countable : Countable EditableMessageType.
Proof. by apply (inj_countable' type_to_code type_of_code); intros []. Defined.

#[local] Instance EditableChatMessage_eq_dec : EqDecision EditableChatMessage.
Proof. solve_decision. Defined.
#[local] Instance EditableChatMessage_countable : Countable EditableChatMessage.
Proof.
  by apply (inj_countable' (λ m, (ecm_id m, ecm_realm_id m, ecm_author m, ecm_author_id m, ecm_created_at m, ecm_current_content m,
      ecm_versions m, ecm_is_deleted m, ecm_message_type m, ecm_reply_to m, ecm_reactions m))
    (λ '(a, b, c, d, e, f, g, h, i, j, k), Build_EditableChatMessage a b c d e f g h i j k)); intros [].
Defined.

#[local] Instance ChatDelta_eq_dec : EqDecision ChatDelta.
Proof. solve_decision. Defined.
#[local] Instance ChatDelta_countable : Countable ChatDelta.
Proof.
  by apply (inj_countable'
    (λ x, match x return EditableChatMessage + (nat * (string * string * string * Z)) with
          | NewMessage m => inl m
          | EditMessage id c t => inr (0%nat, (id, c, ""%string, t))
          | DeleteMessage id t => inr (1%nat, (id, ""%string, ""%string, t))
          | AddReaction id e a => inr (2%nat, (id, e, a, 0))
          | RemoveReaction id e a => inr (3%nat, (id, e, a, 0))
          end)
    (λ x, match x with
          | inl m => NewMessage m
          | inr (0%nat, (id, c, _, t)) => EditMessage id c t
          | inr (1%nat, (id, _, _, t)) => DeleteMessage id t
          | inr (2%nat, (id, e, a, _)) => AddReaction id e a
          | inr (_, (id, e, a, _)) => RemoveReaction id e a
          end)); intros [].
Defined.

Definition countable_codec {A} `{Countable A} : Codec A :=
  {| c_encode := λ a, Ok (toy_encode a); c_decode := λ b, match toy_decode b with Some a => Ok a | None => Err "unexpected end"%string end |}.
#[local] Existing Instance countable_codec.
#[local] Instance deltas_roundtrip : CodecRoundtrip (list ChatDelta).
Proof. intros a b [= <-]. simpl. by rewrite toy_decode_encode. Qed.
#[local] Instance deltas_total : CodecTotal (list ChatDelta).
Proof. intros a. by eexists. Qed.

#[local] Instance chat_codec : DocumentCodec RealmChatDocument := toy_codec rc_messages Build_RealmChatDocument.
#[local] Instance chat_codec_laws : CodecLaws chat_ok "chat".
Proof. apply toy_codec_laws. by intros []. Qed.
#[local] Instance chat_delta_laws : DeltaLaws (T := RealmChatDocument).
Proof. split. intros [m n p] b [= <-]. simpl. by rewrite toy_decode_encode. Qed.
#[local] Existing Instance chat_schema.

Definition hello : EditableChatMessage := ecm_new_text "m1" "r" "ann" "hi" 1.
Definition quiet : Document RealmChatDocument Z := blank "chat" chat_default.
Definition said_update : Document RealmChatDocument Z * Result unit IndraError * option (list byte) := doc_update None (chat_run (CoAdd hello)) quiet.
Definition heard : Document RealmChatDocument Z :=
  on_event None 2 (LeMessage {| sender_hash := 1; ev_sequence := 1 |} 1 (default [] said_update.2) 0) quiet.

Lemma follower_in_step_witness : ecm_current_content <$> rc_messages (d_state said_update.1.1) !! "m1" = Some "hi"%string ∧
  d_state heard = d_state said_update.1.1.
Proof.
  split; [vm_compute; reflexivity|].
  refine (proj1 (follower_in_step None 2 1 "chat" quiet quiet said_update.1.1 heard _ _ _ _ _ _)).
  - lia.
  - reflexivity.
  - reflexivity.
  - reflexivity.
  - intros i m Hm. discriminate Hm.
  - apply rtc_once. refine (FollowStep None 2 1 None (CoAdd hello) quiet quiet _ (default [] said_update.2) _ 0 _ _).
    + split; [reflexivity|]. intros e l Hl. discriminate Hl.
    + assert (Eo : said_update.1.2 = Ok tt) by (vm_compute; reflexivity).
      assert (Em : bool_decide (is_Some said_update.2) = true) by (vm_compute; reflexivity).
      change (doc_update None (chat_run (CoAdd hello)) quiet) with said_update.
      destruct said_update as [[d r] [msg|]]; simpl in *; [by subst|discriminate Em].
Defined.
