(* ===== verification/RedbStore.v ===== *)
(** * Structured storage

    Models [indras-storage/src/structured]: the tables of the redb database
    ([tables.rs]) and the three stores that share it ([interface_store.rs],
    [sync_state.rs], [peer_registry.rs]).  A table is an ordered map from byte
    strings; each call is a transaction of its own.  The state carries the
    answers of the database to the calls to come ([rd_faults]): a transaction
    that fails has no effect.  The [postcard] encodings of the records are
    parameters; [now] is the clock in Unix milliseconds. *)

From S2P Require Import Prelude Bytes Packet Pending Bundle RelayConfig Wire BlobStore Documents.

Local Open Scope string_scope.
Local Open Scope Z_scope.
Local Open Scope list_scope.

(** ** The database *)

Definition PEER_REGISTRY : string := "peer_registry".
Definition INTERFACES : string := "interfaces".
Definition INTERFACE_MEMBERS : string := "interface_members".
Definition SYNC_STATE : string := "sync_state".
Definition EVENT_INDEX : string := "event_index".
Definition PENDING_DELIVERY : string := "pending_delivery".
Definition SNAPSHOTS : string := "snapshots".
Definition NODE_LOG_INDEX : string := "node_log_index".
Definition NODE_LOG_META : string := "node_log_meta".

Definition ALL_TABLES : list string :=
  [PEER_REGISTRY; INTERFACES; INTERFACE_MEMBERS; SYNC_STATE; EVENT_INDEX; PENDING_DELIVERY; SNAPSHOTS;
   NODE_LOG_INDEX; NODE_LOG_META].

Record RedbStorageConfig : Type := { rc_db_path : string; rc_cache_size : Z }.

Definition redb_config_default : RedbStorageConfig :=
  {| rc_db_path := "./data/indras.redb"; rc_cache_size := 64 * 1024 * 1024 |}.

Abbreviation Table := (gmap (list byte) (list byte)).

Record RedbStorage : Type := {
  rd_tables : gmap string Table;
  rd_faults : list (option string);
}.

Definition redb_set_table (t : string) (x : Table) (r : RedbStorage) : RedbStorage :=
  {| rd_tables := <[t := x]> (rd_tables r); rd_faults := rd_faults r |}.

(** The database's answer to the next call; those beyond the list succeed. *)
Definition next_fault : M RedbStorage DbError unit := λ r,
  ({| rd_tables := rd_tables r; rd_faults := tail (rd_faults r) |},
   match rd_faults r with Some m :: _ => Err (DbIo m) | _ => Ok tt end).

(** A table is created by the first transaction that writes it. *)
Definition table_of (t : string) (r : RedbStorage) : Table := default ∅ (rd_tables r !! t).

(** [begin_read] and [open_table]. *)
Definition read_table (t : string) : M RedbStorage DbError Table :=
  next_fault ;;
  reads (λ r, r_ok_or (rd_tables r !! t) (DbIo ("Table '" +:+ t +:+ "' does not exist"))).

Definition redb_put (t : string) (k v : list byte) : M RedbStorage DbError unit :=
  next_fault ;;
  modify (λ r, redb_set_table t (<[k := v]> (table_of t r)) r).

Definition redb_get (t : string) (k : list byte) : M RedbStorage DbError (option (list byte)) :=
  x ← read_table t;
  mret (x !! k).

Definition redb_delete (t : string) (k : list byte) : M RedbStorage DbError bool :=
  next_fault ;;
  removed ← gets (λ r, bool_decide (is_Some (table_of t r !! k)));
  modify (λ r, redb_set_table t (delete k (table_of t r)) r) ;;
  mret removed.

(** The entries from the prefix on until a key without it. *)
Definition scan_table (prefix : list byte) (x : Table) : list (list byte * list byte) :=
  take_while (λ e, bool_decide (prefix `prefix_of` e.1)) (table_range prefix x).

Definition scan_prefix (t : string) (prefix : list byte)
    : M RedbStorage DbError (list (list byte * list byte)) :=
  x ← read_table t;
  mret (scan_table prefix x).

Definition count_prefix (t : string) (prefix : list byte) : M RedbStorage DbError nat :=
  l ← scan_prefix t prefix;
  mret (length l).

(** [compact] only logs. *)
Definition redb_compact : M RedbStorage DbError unit := mret tt.

Definition init_tables : M RedbStorage DbError unit :=
  next_fault ;;
  modify (λ r, foldl (λ r t, redb_set_table t (table_of t r) r) r ALL_TABLES).

(** [str::contains] on bytes. *)
Fixpoint msg_contains (p l : list byte) : bool :=
  bool_decide (p `prefix_of` l) || match l with [] => false | _ :: l => msg_contains p l end.

(** [RedbStorage::open] on what the file holds; the first argument is a
    failure to create the directory, the second one of [Database::create]. *)
Definition redb_open (dir create : option string) (r : RedbStorage) : RedbStorage * Result unit DbError :=
  match dir with
  | Some m => (r, Err (DbIo m))
  | None =>
      match create with
      | Some m =>
          (r, Err (if msg_contains (as_bytes "already open") (as_bytes m)
                      || msg_contains (as_bytes "acquire lock") (as_bytes m)
                   then DbDatabaseLocked else DbIo m))
      | None => init_tables r
      end
  end.

(** ** [String::from_utf8_lossy] *)

(** The tests of the bytes that follow a first byte, [None] when no character
    starts with it. *)
Definition utf8_rest (b : byte) : option (list (byte → bool)) :=
  if byte_in 0 127 b then Some []
  else if byte_in 194 223 b then Some [continuation]
  else if byte_in 224 239 b then
    Some [byte_in (if (Byte.to_N b =? 224)%N then 160 else 128) (if (Byte.to_N b =? 237)%N then 159 else 191);
          continuation]
  else if byte_in 240 244 b then
    Some [byte_in (if (Byte.to_N b =? 240)%N then 144 else 128) (if (Byte.to_N b =? 244)%N then 143 else 191);
          continuation; continuation]
  else None.

(** How many bytes pass their tests, and whether all tests were passed. *)
Fixpoint utf8_match (ps : list (byte → bool)) (l : list byte) : nat * bool :=
  match ps, l with
  | [], _ => (0%nat, true)
  | q :: ps, b :: l => if q b then let '(n, ok) := utf8_match ps l in (S n, ok) else (0%nat, false)
  | _, [] => (0%nat, false)
  end.

Definition REPLACEMENT : list byte := [xef; xbf; xbd].

(** Each longest beginning of a character that is not continued becomes a
    replacement character; every step takes a byte. *)
Fixpoint utf8_lossy_loop (fuel : nat) (l : list byte) : list byte :=
  match fuel, l with
  | S fuel, b :: l =>
      match utf8_rest b with
      | None => REPLACEMENT ++ utf8_lossy_loop fuel l
      | Some ps =>
          let '(n, ok) := utf8_match ps l in
          (if ok then b :: take n l else REPLACEMENT) ++ utf8_lossy_loop fuel (drop n l)
      end
  | _, _ => []
  end.

Definition from_utf8_lossy (l : list byte) : string := string_of_list_byte (utf8_lossy_loop (length l) l).

(** [postcard]'s answers as the stores return them. *)
Definition pc_encoded {S} (r : Result (list byte) string) : M S DbError (list byte) :=
  match r with Ok b => mret b | Err m => fail (DbSerialization m) end.

Definition pc_decoded {S A} (r : Result A string) : M S DbError A :=
  match r with Ok a => mret a | Err m => fail (DbDeserialization m) end.

(** Decoding the values of a scan. *)
Fixpoint decode_values {S A} (parse : list byte → Result A string) (l : list (list byte * list byte))
    : M S DbError (list A) :=
  match l with
  | [] => mret []
  | (_, v) :: l =>
      a ← pc_decoded (parse v);
      rest ← decode_values parse l;
      mret (a :: rest)
  end.

(** ** Records *)

Record PeerRecord : Type := {
  pr_peer_id : list byte;
  pr_display_name : option string;
  pr_last_seen_millis : Z;
  pr_first_seen_millis : Z;
  pr_message_count : Z;
  pr_trusted : bool;
  pr_pq_encapsulation_key : option (list byte);
  pr_pq_verifying_key : option (list byte);
  pr_metadata : list byte;
}.

Definition peer_record_new (now : Z) (peer : list byte) : PeerRecord :=
  {| pr_peer_id := peer; pr_display_name := None; pr_last_seen_millis := now; pr_first_seen_millis := now;
     pr_message_count := 0; pr_trusted := false; pr_pq_encapsulation_key := None;
     pr_pq_verifying_key := None; pr_metadata := [] |}.

Definition pr_with_name (name : string) (r : PeerRecord) : PeerRecord :=
  {| pr_peer_id := pr_peer_id r; pr_display_name := Some name; pr_last_seen_millis := pr_last_seen_millis r;
     pr_first_seen_millis := pr_first_seen_millis r; pr_message_count := pr_message_count r;
     pr_trusted := pr_trusted r; pr_pq_encapsulation_key := pr_pq_encapsulation_key r;
     pr_pq_verifying_key := pr_pq_verifying_key r; pr_metadata := pr_metadata r |}.

Definition pr_with_trusted (b : bool) (r : PeerRecord) : PeerRecord :=
  {| pr_peer_id := pr_peer_id r; pr_display_name := pr_display_name r;
     pr_last_seen_millis := pr_last_seen_millis r; pr_first_seen_millis := pr_first_seen_millis r;
     pr_message_count := pr_message_count r; pr_trusted := b;
     pr_pq_encapsulation_key := pr_pq_encapsulation_key r; pr_pq_verifying_key := pr_pq_verifying_key r;
     pr_metadata := pr_metadata r |}.

(** The assignments to the counter and the time. *)
Definition pr_seen (now count : Z) (r : PeerRecord) : PeerRecord :=
  {| pr_peer_id := pr_peer_id r; pr_display_name := pr_display_name r; pr_last_seen_millis := now;
     pr_first_seen_millis := pr_first_seen_millis r; pr_message_count := count; pr_trusted := pr_trusted r;
     pr_pq_encapsulation_key := pr_pq_encapsulation_key r; pr_pq_verifying_key := pr_pq_verifying_key r;
     pr_metadata := pr_metadata r |}.

Record InterfaceRecord : Type := {
  ir_interface_id : arr32;
  ir_name : option string;
  ir_description : option string;
  ir_created_at_millis : Z;
  ir_last_activity_millis : Z;
  ir_event_count : Z;
  ir_member_count : Z;
  ir_encrypted : bool;
  ir_encrypted_key : option (list byte);
}.

Definition interface_record_new (now : Z) (f : arr32) : InterfaceRecord :=
  {| ir_interface_id := f; ir_name := None; ir_description := None; ir_created_at_millis := now;
     ir_last_activity_millis := now; ir_event_count := 0; ir_member_count := 0; ir_encrypted := false;
     ir_encrypted_key := None |}.

Definition ir_with_name (name : string) (r : InterfaceRecord) : InterfaceRecord :=
  {| ir_interface_id := ir_interface_id r; ir_name := Some name; ir_description := ir_description r;
     ir_created_at_millis := ir_created_at_millis r; ir_last_activity_millis := ir_last_activity_millis r;
     ir_event_count := ir_event_count r; ir_member_count := ir_member_count r; ir_encrypted := ir_encrypted r;
     ir_encrypted_key := ir_encrypted_key r |}.

Definition ir_with_description (d : string) (r : InterfaceRecord) : InterfaceRecord :=
  {| ir_interface_id := ir_interface_id r; ir_name := ir_name r; ir_description := Some d;
     ir_created_at_millis := ir_created_at_millis r; ir_last_activity_millis := ir_last_activity_millis r;
     ir_event_count := ir_event_count r; ir_member_count := ir_member_count r; ir_encrypted := ir_encrypted r;
     ir_encrypted_key := ir_encrypted_key r |}.

Definition ir_with_encrypted (b : bool) (r : InterfaceRecord) : InterfaceRecord :=
  {| ir_interface_id := ir_interface_id r; ir_name := ir_name r; ir_description := ir_description r;
     ir_created_at_millis := ir_created_at_millis r; ir_last_activity_millis := ir_last_activity_millis r;
     ir_event_count := ir_event_count r; ir_member_count := ir_member_count r; ir_encrypted := b;
     ir_encrypted_key := ir_encrypted_key r |}.

(** The assignments to the counters. *)
Definition ir_set_counts (now events members : Z) (r : InterfaceRecord) : InterfaceRecord :=
  {| ir_interface_id := ir_interface_id r; ir_name := ir_name r; ir_description := ir_description r;
     ir_created_at_millis := ir_created_at_millis r; ir_last_activity_millis := now;
     ir_event_count := events; ir_member_count := members; ir_encrypted := ir_encrypted r;
     ir_encrypted_key := ir_encrypted_key r |}.

Record MembershipRecord : Type := {
  mr_peer_id : list byte;
  mr_joined_at_millis : Z;
  mr_role : string;
  mr_active : bool;
  mr_last_activity_millis : Z;
}.

Definition membership_record_new (now : Z) (peer : list byte) : MembershipRecord :=
  {| mr_peer_id := peer; mr_joined_at_millis := now; mr_role := "member"; mr_active := true;
     mr_last_activity_millis := now |}.

Definition mr_with_role (role : string) (r : MembershipRecord) : MembershipRecord :=
  {| mr_peer_id := mr_peer_id r; mr_joined_at_millis := mr_joined_at_millis r; mr_role := role;
     mr_active := mr_active r; mr_last_activity_millis := mr_last_activity_millis r |}.

Record SyncStateRecord : Type := {
  ssr_peer_id : list byte;
  ssr_interface_id : arr32;
  ssr_their_heads : list arr32;
  ssr_last_acked_event : option EventId;
  ssr_last_sync_millis : Z;
  ssr_sync_count : Z;
  ssr_sync_in_progress : bool;
}.

Definition sync_state_new (peer : list byte) (f : arr32) : SyncStateRecord :=
  {| ssr_peer_id := peer; ssr_interface_id := f; ssr_their_heads := []; ssr_last_acked_event := None;
     ssr_last_sync_millis := 0; ssr_sync_count := 0; ssr_sync_in_progress := false |}.

Definition ssr_with_heads (heads : list arr32) (r : SyncStateRecord) : SyncStateRecord :=
  {| ssr_peer_id := ssr_peer_id r; ssr_interface_id := ssr_interface_id r; ssr_their_heads := heads;
     ssr_last_acked_event := ssr_last_acked_event r; ssr_last_sync_millis := ssr_last_sync_millis r;
     ssr_sync_count := ssr_sync_count r; ssr_sync_in_progress := ssr_sync_in_progress r |}.

Definition ssr_with_acked_event (id : EventId) (r : SyncStateRecord) : SyncStateRecord :=
  {| ssr_peer_id := ssr_peer_id r; ssr_interface_id := ssr_interface_id r;
     ssr_their_heads := ssr_their_heads r; ssr_last_acked_event := Some id;
     ssr_last_sync_millis := ssr_last_sync_millis r; ssr_sync_count := ssr_sync_count r;
     ssr_sync_in_progress := ssr_sync_in_progress r |}.

(** The assignments of [update_heads]. *)
Definition ssr_synced (now : Z) (heads : list arr32) (r : SyncStateRecord) : SyncStateRecord :=
  {| ssr_peer_id := ssr_peer_id r; ssr_interface_id := ssr_interface_id r; ssr_their_heads := heads;
     ssr_last_acked_event := ssr_last_acked_event r; ssr_last_sync_millis := now;
     ssr_sync_count := wrap_u64 (ssr_sync_count r + 1); ssr_sync_in_progress := ssr_sync_in_progress r |}.

Record PendingDeliveryRecord : Type := {
  pdr_event_id : EventId;
  pdr_queued_at_millis : Z;
  pdr_attempt_count : Z;
  pdr_last_attempt_millis : option Z;
}.

Definition pending_delivery_new (now : Z) (id : EventId) : PendingDeliveryRecord :=
  {| pdr_event_id := id; pdr_queued_at_millis := now; pdr_attempt_count := 0; pdr_last_attempt_millis := None |}.

Definition pdr_attempted (now : Z) (r : PendingDeliveryRecord) : PendingDeliveryRecord :=
  {| pdr_event_id := pdr_event_id r; pdr_queued_at_millis := pdr_queued_at_millis r;
     pdr_attempt_count := wrap_u32 (pdr_attempt_count r + 1); pdr_last_attempt_millis := Some now |}.

(** [postcard] on the records. *)
Class RecordPostcard : Type := {
  pc_peer : PeerRecord → Result (list byte) string;
  pc_parse_peer : list byte → Result PeerRecord string;
  pc_interface : InterfaceRecord → Result (list byte) string;
  pc_parse_interface : list byte → Result InterfaceRecord string;
  pc_member : MembershipRecord → Result (list byte) string;
  pc_parse_member : list byte → Result MembershipRecord string;
  pc_sync : SyncStateRecord → Result (list byte) string;
  pc_parse_sync : list byte → Result SyncStateRecord string;
  pc_pending : PendingDeliveryRecord → Result (list byte) string;
  pc_parse_pending : list byte → Result PendingDeliveryRecord string;
}.

Section Stores.
Context {I : Type} `{PeerIdentity I} `{RecordPostcard}.
Implicit Types (p : I) (f : arr32).

(** ** Peers *)

Definition peer_upsert p (r : PeerRecord) : M RedbStorage DbError unit :=
  v ← pc_encoded (pc_peer r);
  redb_put PEER_REGISTRY (pid_as_bytes p) v.

Definition peer_get p : M RedbStorage DbError (option PeerRecord) :=
  o ← redb_get PEER_REGISTRY (pid_as_bytes p);
  match o with
  | Some v => r ← pc_decoded (pc_parse_peer v); mret (Some r)
  | None => mret None
  end.

Definition peer_touch (now : Z) p : M RedbStorage DbError unit :=
  o ← redb_get PEER_REGISTRY (pid_as_bytes p);
  match o with
  | Some v =>
      r ← pc_decoded (pc_parse_peer v);
      v' ← pc_encoded (pc_peer (pr_seen now (pr_message_count r) r));
      redb_put PEER_REGISTRY (pid_as_bytes p) v'
  | None =>
      v ← pc_encoded (pc_peer (peer_record_new now (pid_as_bytes p)));
      redb_put PEER_REGISTRY (pid_as_bytes p) v
  end.

Definition increment_messages (now : Z) p : M RedbStorage DbError Z :=
  o ← peer_get p;
  let r := default (peer_record_new now (pid_as_bytes p)) o in
  let r := pr_seen now (wrap_u64 (pr_message_count r + 1)) r in
  v ← pc_encoded (pc_peer r);
  redb_put PEER_REGISTRY (pid_as_bytes p) v ;;
  mret (pr_message_count r).

Definition peer_delete p : M RedbStorage DbError bool := redb_delete PEER_REGISTRY (pid_as_bytes p).

Definition all_peers : M RedbStorage DbError (list PeerRecord) :=
  l ← scan_prefix PEER_REGISTRY [];
  decode_values pc_parse_peer l.

Definition registry_count : M RedbStorage DbError nat := count_prefix PEER_REGISTRY [].

(** ** Interfaces *)

Definition make_member_key f p : list byte := arr32_bytes f ++ pid_as_bytes p.

Definition make_member_prefix f : list byte := arr32_bytes f.

Definition interface_upsert (r : InterfaceRecord) : M RedbStorage DbError unit :=
  v ← pc_encoded (pc_interface r);
  redb_put INTERFACES (arr32_bytes (ir_interface_id r)) v.

Definition interface_get f : M RedbStorage DbError (option InterfaceRecord) :=
  o ← redb_get INTERFACES (arr32_bytes f);
  match o with
  | Some v => r ← pc_decoded (pc_parse_interface v); mret (Some r)
  | None => mret None
  end.

Definition increment_events (now : Z) f : M RedbStorage DbError Z :=
  o ← interface_get f;
  match o with
  | Some r =>
      let r := ir_set_counts now (wrap_u64 (ir_event_count r + 1)) (ir_member_count r) r in
      interface_upsert r ;;
      mret (ir_event_count r)
  | None => fail (DbPacketNotFound (hex32 f))
  end.

Fixpoint delete_keys (t : string) (l : list (list byte * list byte)) : M RedbStorage DbError unit :=
  match l with
  | [] => mret tt
  | (k, _) :: l => redb_delete t k ;; delete_keys t l
  end.

Definition interface_delete f : M RedbStorage DbError bool :=
  members ← scan_prefix INTERFACE_MEMBERS (make_member_prefix f);
  delete_keys INTERFACE_MEMBERS members ;;
  redb_delete INTERFACES (arr32_bytes f).

Definition add_member f p (r : MembershipRecord) : M RedbStorage DbError unit :=
  v ← pc_encoded (pc_member r);
  redb_put INTERFACE_MEMBERS (make_member_key f p) v ;;
  o ← interface_get f;
  match o with
  | Some ir =>
      interface_upsert (ir_set_counts (ir_last_activity_millis ir) (ir_event_count ir)
                          (wrap_u32 (ir_member_count ir + 1)) ir)
  | None => mret tt
  end.

Definition remove_member f p : M RedbStorage DbError bool :=
  removed ← redb_delete INTERFACE_MEMBERS (make_member_key f p);
  if removed : bool then
    o ← interface_get f;
    match o with
    | Some ir =>
        interface_upsert (ir_set_counts (ir_last_activity_millis ir) (ir_event_count ir)
                            (Z.max 0 (ir_member_count ir - 1)) ir) ;;
        mret true
    | None => mret true
    end
  else mret false.

Definition get_member f p : M RedbStorage DbError (option MembershipRecord) :=
  o ← redb_get INTERFACE_MEMBERS (make_member_key f p);
  match o with
  | Some v => r ← pc_decoded (pc_parse_member v); mret (Some r)
  | None => mret None
  end.

Definition is_member f p : M RedbStorage DbError bool :=
  o ← get_member f p;
  mret (bool_decide (is_Some o)).

Definition get_members f : M RedbStorage DbError (list MembershipRecord) :=
  l ← scan_prefix INTERFACE_MEMBERS (make_member_prefix f);
  decode_values pc_parse_member l.

Definition all_interfaces : M RedbStorage DbError (list InterfaceRecord) :=
  l ← scan_prefix INTERFACES [];
  decode_values pc_parse_interface l.

Definition get_document_data (key : list byte) : M RedbStorage DbError (option (list byte)) :=
  redb_get SNAPSHOTS key.

Definition set_document_data (key data : list byte) : M RedbStorage DbError unit := redb_put SNAPSHOTS key data.

Definition delete_document_data (key : list byte) : M RedbStorage DbError bool := redb_delete SNAPSHOTS key.

Definition doc_prefix f : list byte := as_bytes "doc:" ++ arr32_bytes f.

Definition list_documents f : M RedbStorage DbError (list (string * list byte)) :=
  l ← scan_prefix SNAPSHOTS (doc_prefix f);
  mret ((λ e, (from_utf8_lossy (drop (length (doc_prefix f)) e.1), e.2)) <$> l).

(** ** Synchronisation *)

Definition make_sync_key p f : list byte := pid_as_bytes p ++ arr32_bytes f.

Definition make_pending_key p f (id : EventId) : list byte :=
  pid_as_bytes p ++ arr32_bytes f ++ event_id_to_bytes id.

Definition make_pending_prefix p f : list byte := pid_as_bytes p ++ arr32_bytes f.

Definition sync_update p f (r : SyncStateRecord) : M RedbStorage DbError unit :=
  v ← pc_encoded (pc_sync r);
  redb_put SYNC_STATE (make_sync_key p f) v.

Definition get_or_create p f : M RedbStorage DbError SyncStateRecord :=
  o ← redb_get SYNC_STATE (make_sync_key p f);
  match o with
  | Some v => pc_decoded (pc_parse_sync v)
  | None => let r := sync_state_new (pid_as_bytes p) f in sync_update p f r ;; mret r
  end.

Definition update_heads (now : Z) p f (heads : list arr32) : M RedbStorage DbError unit :=
  r ← get_or_create p f;
  sync_update p f (ssr_synced now heads r).

Definition queue_pending (now : Z) p f (id : EventId) : M RedbStorage DbError unit :=
  v ← pc_encoded (pc_pending (pending_delivery_new now id));
  redb_put PENDING_DELIVERY (make_pending_key p f id) v.

Definition pdr_leb (a b : PendingDeliveryRecord) : bool := event_id_leb (pdr_event_id a) (pdr_event_id b).

Definition queued_pending p f : M RedbStorage DbError (list PendingDeliveryRecord) :=
  l ← scan_prefix PENDING_DELIVERY (make_pending_prefix p f);
  rs ← decode_values pc_parse_pending l;
  mret (sort_by pdr_leb rs).

Fixpoint clear_loop p f (up_to : EventId) (rs : list PendingDeliveryRecord) (cleared : Z)
    : M RedbStorage DbError Z :=
  match rs with
  | [] => mret cleared
  | r :: rs =>
      if event_id_leb (pdr_event_id r) up_to then
        redb_delete PENDING_DELIVERY (make_pending_key p f (pdr_event_id r)) ;;
        clear_loop p f up_to rs (cleared + 1)
      else clear_loop p f up_to rs cleared
  end.

Definition clear_pending_up_to p f (up_to : EventId) : M RedbStorage DbError Z :=
  rs ← queued_pending p f;
  clear_loop p f up_to rs 0.

Definition acknowledge_events p f (up_to : EventId) : M RedbStorage DbError unit :=
  r ← get_or_create p f;
  sync_update p f (ssr_with_acked_event up_to r) ;;
  clear_pending_up_to p f up_to ;;
  mret tt.

Definition record_attempt (now : Z) p f (id : EventId) : M RedbStorage DbError unit :=
  o ← redb_get PENDING_DELIVERY (make_pending_key p f id);
  match o with
  | Some v =>
      r ← pc_decoded (pc_parse_pending v);
      v' ← pc_encoded (pc_pending (pdr_attempted now r));
      redb_put PENDING_DELIVERY (make_pending_key p f id) v'
  | None => mret tt
  end.

Definition get_all_for_interface f : M RedbStorage DbError (list SyncStateRecord) :=
  l ← scan_prefix SYNC_STATE [];
  rs ← decode_values pc_parse_sync l;
  mret (retain (λ r, bool_decide (ssr_interface_id r = f)) rs).
End Stores.

(** ** Reading UTF-8 *)

Lemma utf8_valid_cons b l : utf8_valid (b :: l) = true →
  ∃ ps n, utf8_rest b = Some ps ∧ utf8_match ps l = (n, true) ∧ utf8_valid (drop n l) = true.
Proof.
  cbn [utf8_valid]. unfold utf8_rest. destruct (byte_in 0 127 b) eqn:E0; [by exists [], 0%nat|].
  destruct l as [|b1 l]; [done|]. destruct (byte_in 194 223 b).
  { rewrite andb_true_iff. intros [H1 H2]. exists [continuation], 1%nat. cbn [utf8_match]. by rewrite H1. }
  destruct l as [|b2 l]; [done|]. destruct (byte_in 224 239 b).
  { rewrite !andb_true_iff. intros [[H1 H2] H3]. eexists _, 2%nat. split; [done|]. cbn [utf8_match].
    by rewrite H1, H2. }
  destruct l as [|b3 l]; [done|]. rewrite !andb_true_iff. intros [[[[H0 H1] H2] H3] H4]. rewrite H0.
  eexists _, 3%nat. split; [done|]. cbn [utf8_match]. by rewrite H1, H2, H3.
Qed.

(** Valid UTF-8 is read as it is. *)
Lemma utf8_lossy_valid fuel : ∀ l, (length l <= fuel)%nat → utf8_valid l = true → utf8_lossy_loop fuel l = l.
Proof.
  induction fuel as [|fuel IH]; intros [|b l] Hl Hv; [done|simpl in Hl; lia|done|].
  destruct (utf8_valid_cons _ _ Hv) as (ps & n & Hps & Hm & Hrest). cbn [utf8_lossy_loop]. rewrite Hps, Hm.
  rewrite IH; [|rewrite length_drop; simpl in Hl; lia|done]. cbn [app]. by rewrite take_drop.
Qed.

Lemma from_utf8_lossy_valid s : utf8_valid (as_bytes s) = true → from_utf8_lossy (as_bytes s) = s.
Proof.
  intros Hv. unfold from_utf8_lossy. rewrite utf8_lossy_valid by done. apply string_of_list_byte_of_string.
Qed.

(** ** Scans *)

Lemma scan_table_retain prefix x :
  scan_table prefix x = retain (λ e, bool_decide (prefix `prefix_of` e.1)) (table_iter x).
Proof.
  unfold scan_table, table_range. rewrite (take_while_retain (λ x y, key_leb x y = true)).
  - apply retain_retain. intros [k v] Hk%bool_decide_eq_true. by apply bytes_leb_prefix_le.
  - apply StronglySorted_retain, sort_by_sorted. apply _.
  - intros [k v] [k' v'] [_ Hx]%elem_of_retain Hle. simpl in *. rewrite !bool_decide_eq_true. intros Hy.
    by eapply bytes_leb_prefix.
Qed.

Lemma elem_of_scan_table prefix x k v : (k, v) ∈ scan_table prefix x ↔ x !! k = Some v ∧ prefix `prefix_of` k.
Proof. by rewrite scan_table_retain, elem_of_retain, elem_of_table_iter, bool_decide_eq_true. Qed.

Lemma NoDup_scan_table prefix x : NoDup (scan_table prefix x).*1.
Proof.
  rewrite scan_table_retain. apply NoDup_fmap_retain. unfold table_iter. rewrite sort_by_perm.
  apply NoDup_fst_map_to_list.
Qed.

(** ** A database without failures *)

Definition db (T : gmap string Table) : RedbStorage := {| rd_tables := T; rd_faults := [] |}.

Lemma put_db t k v T :
  redb_put t k v (db T) = (db (<[t := <[k := v]> (default ∅ (T !! t))]> T), Ok tt).
Proof. done. Qed.

Lemma get_db t k T x : T !! t = Some x → redb_get t k (db T) = (db T, Ok (x !! k)).
Proof. intros Ht. unfold redb_get, read_table, reads, next_fault. rewrite !run_bind. simpl. by rewrite Ht. Qed.

Lemma scan_db t q T x : T !! t = Some x → scan_prefix t q (db T) = (db T, Ok (scan_table q x)).
Proof. intros Ht. unfold scan_prefix, read_table, reads, next_fault. rewrite !run_bind. simpl. by rewrite Ht. Qed.

Lemma delete_db t k T :
  redb_delete t k (db T) =
  (db (<[t := delete k (default ∅ (T !! t))]> T), Ok (bool_decide (is_Some (default ∅ (T !! t) !! k)))).
Proof. done. Qed.

Lemma delete_keys_db t l : ∀ T x, T !! t = Some x →
  delete_keys t l (db T) = (db (<[t := foldl (λ m k, delete k m) x l.*1]> T), Ok tt).
Proof.
  induction l as [|[k v] l IH]; intros T x Ht; simpl.
  - by rewrite insert_id.
  - rewrite run_bind, delete_db, Ht. simpl. rewrite (IH _ (delete k x)) by by rewrite lookup_insert_eq.
    by rewrite insert_insert_eq.
Qed.

Lemma decode_values_ok {S A} (parse : list byte → Result A string) l as' (s : S) :
  Forall2 (λ e a, parse e.2 = Ok a) l as' → decode_values parse l s = (s, Ok as').
Proof.
  induction 1 as [|[k v] a l as' Hp _ IH]; [done|]. cbn [decode_values]. simpl in Hp. rewrite Hp.
  unfold pc_decoded. rewrite run_bind. simpl. rewrite run_bind, IH. done.
Qed.

(** ** The interface store as a map of interfaces and of their members *)

Abbreviation IfMap := (gmap arr32 InterfaceRecord).
Abbreviation MemMap := (gmap (arr32 * list byte) MembershipRecord).

Inductive if_op (I : Type) : Type :=
| OpUpsert (r : InterfaceRecord)
| OpIncrement (now : Z) (f : arr32)
| OpAdd (f : arr32) (p : I) (r : MembershipRecord)
| OpRemove (f : arr32) (p : I)
| OpDelete (f : arr32).
Arguments OpUpsert {I} r.
Arguments OpIncrement {I} now f.
Arguments OpAdd {I} f p r.
Arguments OpRemove {I} f p.
Arguments OpDelete {I} f.

Definition bump_members (d : Z → Z) (r : InterfaceRecord) : InterfaceRecord :=
  ir_set_counts (ir_last_activity_millis r) (ir_event_count r) (d (ir_member_count r)) r.

Definition members_of (f : arr32) (mems : MemMap) : MemMap := filter (λ x, x.1.1 = f) mems.

Definition count_up (n : Z) : Z := wrap_u32 (n + 1).
Definition count_down (n : Z) : Z := Z.max 0 (n - 1).

(** What an operation does to the two maps. *)
Definition spec_if_op {I} `{PeerIdentity I} (op : if_op I) (s : IfMap * MemMap) : IfMap * MemMap :=
  let '(ifs, mems) := s in
  match op with
  | OpUpsert r => (<[ir_interface_id r := r]> ifs, mems)
  | OpIncrement now f =>
      (alter (λ r, ir_set_counts now (wrap_u64 (ir_event_count r + 1)) (ir_member_count r) r) f ifs, mems)
  | OpAdd f p r => (alter (bump_members count_up) f ifs, <[(f, pid_as_bytes p) := r]> mems)
  | OpRemove f p =>
      if decide (is_Some (mems !! (f, pid_as_bytes p)))
      then (alter (bump_members count_down) f ifs, delete (f, pid_as_bytes p) mems)
      else (ifs, mems)
  | OpDelete f => (delete f ifs, filter (λ x, x.1.1 ≠ f) mems)
  end.

Definition run_if_op {I} `{PeerIdentity I} `{RecordPostcard} (op : if_op I) : M RedbStorage DbError unit :=
  match op with
  | OpUpsert r => interface_upsert r
  | OpIncrement now f => ignore (increment_events now f)
  | OpAdd f p r => add_member f p r
  | OpRemove f p => remove_member f p ;; mret tt
  | OpDelete f => interface_delete f ;; mret tt
  end.

Section InterfaceFacts.
Context {I : Type} `{PeerIdentity I} `{RecordPostcard}.
Context (interface_ok : ∀ r, ∃ v, pc_interface r = Ok v ∧ pc_parse_interface v = Ok r).
Context (member_ok : ∀ r, ∃ v, pc_member r = Ok v ∧ pc_parse_member v = Ok r).

Definition enc_interface (r : InterfaceRecord) : list byte :=
  match pc_interface r with Ok v => v | Err _ => [] end.

Definition enc_member (r : MembershipRecord) : list byte :=
  match pc_member r with Ok v => v | Err _ => [] end.

Definition member_key (k : arr32 * list byte) : list byte := arr32_bytes k.1 ++ k.2.

#[local] Instance arr32_bytes_inj' : Inj (=) (=) arr32_bytes.
Proof. intros a b. apply arr32_bytes_inj. Qed.

#[local] Instance member_key_inj : Inj (=) (=) member_key.
Proof.
  intros [f p] [g q]. unfold member_key. simpl. intros Hk.
  apply app_inj_1 in Hk as [Hf ->]; [|by rewrite !arr32_length]. by rewrite (arr32_bytes_inj _ _ Hf).
Qed.

Record store_holds (T : gmap string Table) (s : IfMap * MemMap) : Prop := {
  holds_interfaces : T !! INTERFACES = Some (kmap arr32_bytes (enc_interface <$> s.1));
  holds_members : T !! INTERFACE_MEMBERS = Some (kmap member_key (enc_member <$> s.2));
  holds_ids : ∀ f r, s.1 !! f = Some r → ir_interface_id r = f;
}.

Lemma enc_interface_ok r : pc_interface r = Ok (enc_interface r) ∧ pc_parse_interface (enc_interface r) = Ok r.
Proof. unfold enc_interface. destruct (interface_ok r) as (v & -> & Hv). done. Qed.

Lemma enc_member_ok r : pc_member r = Ok (enc_member r) ∧ pc_parse_member (enc_member r) = Ok r.
Proof. unfold enc_member. destruct (member_ok r) as (v & -> & Hv). done. Qed.

(** ** Reading *)

Lemma interface_get_holds T s f : store_holds T s → interface_get f (db T) = (db T, Ok (s.1 !! f)).
Proof.
  intros [Hi _ _]. unfold interface_get. rewrite run_bind, (get_db _ _ _ _ Hi), lookup_kmap, lookup_fmap by apply _.
  destruct (s.1 !! f) as [r|]; simpl; [|done]. unfold pc_decoded. by rewrite (proj2 (enc_interface_ok r)).
Qed.

Lemma get_member_holds T s f p : store_holds T s →
  get_member f p (db T) = (db T, Ok (s.2 !! (f, pid_as_bytes p))).
Proof.
  intros [_ Hm _]. unfold get_member. rewrite run_bind, (get_db _ _ _ _ Hm).
  change (make_member_key f p) with (member_key (f, pid_as_bytes p)). rewrite lookup_kmap, lookup_fmap by apply _.
  destruct (s.2 !! _) as [r|]; simpl; [|done]. unfold pc_decoded. by rewrite (proj2 (enc_member_ok r)).
Qed.

Lemma is_member_holds T s f p : store_holds T s →
  is_member f p (db T) = (db T, Ok (bool_decide (is_Some (s.2 !! (f, pid_as_bytes p))))).
Proof. intros Hs. unfold is_member. by rewrite run_bind, (get_member_holds _ _ _ _ Hs). Qed.

Lemma elem_of_member_scan mems f k v :
  (k, v) ∈ scan_table (make_member_prefix f) (kmap member_key (enc_member <$> mems)) ↔
  ∃ pb r, k = member_key (f, pb) ∧ mems !! (f, pb) = Some r ∧ v = enc_member r.
Proof.
  rewrite elem_of_scan_table, lookup_kmap_Some by apply _. setoid_rewrite lookup_fmap_Some. split.
  - intros [([g pb] & -> & r & <- & Hr) [t Ht]]. unfold member_key, make_member_prefix in Ht. simpl in Ht.
    apply app_inj_1 in Ht as [Hg%arr32_bytes_inj ->]; [|by rewrite !arr32_length]. subst g. eauto.
  - intros (pb & r & -> & Hr & ->). split; [by exists (f, pb); eauto|]. by exists pb.
Qed.

Lemma get_members_holds T s f : store_holds T s →
  ∃ l, get_members f (db T) = (db T, Ok l) ∧ l ≡ₚ (map_to_list (members_of f s.2)).*2.
Proof.
  intros [_ Hm _]. set (L := scan_table (make_member_prefix f) (kmap member_key (enc_member <$> s.2))).
  assert (L ≡ₚ (λ x, (member_key x.1, enc_member x.2)) <$> map_to_list (members_of f s.2)) as HL.
  { apply NoDup_Permutation.
    - apply (NoDup_fmap_1 fst), NoDup_scan_table.
    - apply (NoDup_fmap_1 fst). rewrite <- list_fmap_compose.
      change (NoDup (member_key ∘ fst <$> map_to_list (members_of f s.2))). rewrite list_fmap_compose.
      apply NoDup_fmap_2; [apply _|]. apply NoDup_fst_map_to_list.
    - intros [k v]. unfold L. rewrite elem_of_member_scan, list_elem_of_fmap. split.
      + intros (pb & r & -> & Hr & ->). exists ((f, pb), r). split; [done|]. apply elem_of_map_to_list.
        by apply map_lookup_filter_Some.
      + intros ([[g pb] r] & [= -> ->] & Hr%elem_of_map_to_list). apply map_lookup_filter_Some in Hr as [Hr Hg].
        simpl in Hg. subst g. eauto. }
  apply Permutation_map_inv in HL as (l & Hl & Hp). exists l.*2. split; [|by rewrite Hp].
  unfold get_members. rewrite run_bind, (scan_db _ _ _ _ Hm). fold L. rewrite Hl. apply decode_values_ok.
  clear -member_ok. induction l as [|[k r] l IH]; simpl; constructor; [|done]. apply enc_member_ok.
Qed.

(** ** Writing *)

Lemma holds_set_interfaces T s ifs x :
  store_holds T s → x = kmap arr32_bytes (enc_interface <$> ifs) →
  (∀ f r, ifs !! f = Some r → ir_interface_id r = f) → store_holds (<[INTERFACES := x]> T) (ifs, s.2).
Proof.
  intros [Hi Hm Hids] -> Hids'. split; simpl; [by rewrite lookup_insert_eq| |done].
  by rewrite lookup_insert_ne by done.
Qed.

Lemma holds_set_members T s mems x :
  store_holds T s → x = kmap member_key (enc_member <$> mems) →
  store_holds (<[INTERFACE_MEMBERS := x]> T) (s.1, mems).
Proof.
  intros [Hi Hm Hids] ->. split; simpl; [by rewrite lookup_insert_ne by done|by rewrite lookup_insert_eq|done].
Qed.

Lemma interface_upsert_holds T s r : store_holds T s →
  ∃ T', interface_upsert r (db T) = (db T', Ok tt) ∧ store_holds T' (<[ir_interface_id r := r]> s.1, s.2).
Proof.
  intros Hs. unfold interface_upsert, pc_encoded. rewrite (proj1 (enc_interface_ok r)), run_bind. simpl.
  rewrite put_db, (holds_interfaces _ _ Hs). simpl. eexists. split; [done|]. apply holds_set_interfaces; [done| |].
  - by rewrite fmap_insert, kmap_insert by apply _.
  - intros f r'. rewrite lookup_insert_Some. intros [[<- <-]|[_ Hr]]; [done|by apply (holds_ids _ _ Hs)].
Qed.

(** Changing the counters of an interface, where there is one. *)
Lemma interface_alter_holds T s f g : store_holds T s → (∀ r, ir_interface_id (g r) = ir_interface_id r) →
  ∃ T', match s.1 !! f with Some r => interface_upsert (g r) (db T) | None => (db T, Ok tt) end =
    (db T', Ok tt) ∧ store_holds T' (alter g f s.1, s.2).
Proof.
  intros Hs Hg. destruct (s.1 !! f) as [r|] eqn:Hr.
  - assert (ir_interface_id (g r) = f) as Hf by (rewrite Hg; by apply (holds_ids _ _ Hs)).
    destruct (interface_upsert_holds _ _ (g r) Hs) as (T' & HT & Hs'). exists T'. split; [done|].
    rewrite Hf in Hs'. 
    replace (alter g f s.1) with (<[f := g r]> s.1); [done|]. apply map_eq. intros j.
    destruct (decide (f = j)) as [<-|Hj]; [by rewrite lookup_insert_eq, lookup_alter_eq, Hr|].
    by rewrite lookup_insert_ne, lookup_alter_ne.
  - exists T. split; [done|]. rewrite alter_id'; [by destruct s|]. by rewrite Hr.
Qed.

Lemma upsert_op T s r : store_holds T s →
  ∃ T', run_if_op (I := I) (OpUpsert r) (db T) = (db T', Ok tt) ∧ store_holds T' (spec_if_op (I := I) (OpUpsert r) s).
Proof. intros Hs. destruct s as [ifs mems]. exact (interface_upsert_holds _ _ r Hs). Qed.

Lemma increment_op T s now f : store_holds T s →
  ∃ T', run_if_op (I := I) (OpIncrement now f) (db T) = (db T', Ok tt) ∧
    store_holds T' (spec_if_op (I := I) (OpIncrement now f) s).
Proof.
  intros Hs. destruct s as [ifs mems].
  destruct (interface_alter_holds T _ f
    (λ r, ir_set_counts now (wrap_u64 (ir_event_count r + 1)) (ir_member_count r) r) Hs ltac:(done)) as (T' & HT & Hs').
  exists T'. split; [|done]. cbn [run_if_op]. unfold ignore, increment_events. 
  rewrite run_bind, (interface_get_holds _ _ f Hs). simpl in *.
  destruct (ifs !! f) as [r|]; [|by injection HT as <-]. rewrite run_bind. by rewrite HT.
Qed.

Lemma add_op T s f p r : store_holds T s →
  ∃ T', run_if_op (OpAdd f p r) (db T) = (db T', Ok tt) ∧ store_holds T' (spec_if_op (OpAdd f p r) s).
Proof.
  intros Hs. destruct s as [ifs mems].
  set (T1 := <[INTERFACE_MEMBERS := kmap member_key (enc_member <$> <[(f, pid_as_bytes p) := r]> mems)]> T).
  assert (store_holds T1 (ifs, <[(f, pid_as_bytes p) := r]> mems)) as Hs1
    by by apply (holds_set_members _ _ _ _ Hs).
  destruct (interface_alter_holds T1 _ f (bump_members count_up) Hs1 ltac:(done)) as (T' & HT & Hs').
  exists T'. split; [|done]. cbn [run_if_op]. unfold add_member, pc_encoded.
  rewrite (proj1 (enc_member_ok r)), !run_bind, run_ret, run_bind, put_db, (holds_members _ _ Hs).
  cbn [default from_option id snd].
  change (make_member_key f p) with (member_key (f, pid_as_bytes p)).
  rewrite <- kmap_insert, <- fmap_insert by apply _. fold T1.
  rewrite run_bind, (interface_get_holds _ _ f Hs1). simpl in *. by destruct (ifs !! f).
Qed.

Lemma remove_op T s f p : store_holds T s →
  ∃ T', run_if_op (OpRemove f p) (db T) = (db T', Ok tt) ∧ store_holds T' (spec_if_op (OpRemove f p) s).
Proof.
  intros Hs. destruct s as [ifs mems]. set (k := (f, pid_as_bytes p)).
  set (T1 := <[INTERFACE_MEMBERS := kmap member_key (enc_member <$> delete k mems)]> T).
  assert (store_holds T1 (ifs, delete k mems)) as Hs1 by by apply (holds_set_members _ _ _ _ Hs).
  assert (redb_delete INTERFACE_MEMBERS (make_member_key f p) (db T) =
    (db T1, Ok (bool_decide (is_Some (mems !! k))))) as Hdel.
  { rewrite delete_db, (holds_members _ _ Hs). simpl. unfold T1. rewrite fmap_delete, kmap_delete by apply _.
    change (make_member_key f p) with (member_key k). rewrite lookup_kmap, lookup_fmap by apply _.
    f_equal. f_equal. apply bool_decide_ext. by rewrite fmap_is_Some. }
  cbn [run_if_op spec_if_op]. unfold remove_member. rewrite !run_bind, Hdel. fold k.
  destruct (decide (is_Some (mems !! k))) as [Hk|Hk].
  - rewrite bool_decide_true by done.
    destruct (interface_alter_holds T1 _ f (bump_members count_down) Hs1 ltac:(done)) as (T' & HT & Hs').
    exists T'. split; [|done]. rewrite run_bind, (interface_get_holds _ _ f Hs1). simpl in *.
    destruct (ifs !! f) as [r|]; [|by injection HT as <-].
    rewrite run_bind. unfold bump_members, count_down in HT. by rewrite HT.
  - rewrite bool_decide_false by done. exists T1. split; [done|]. rewrite delete_id in Hs1; [done|].
    by apply eq_None_not_Some.
Qed.

Lemma elem_of_member_keys mems f k :
  k ∈ (scan_table (make_member_prefix f) (kmap member_key (enc_member <$> mems))).*1 ↔
  ∃ pb, k = member_key (f, pb) ∧ is_Some (mems !! (f, pb)).
Proof.
  rewrite list_elem_of_fmap. split.
  - intros ([k' v'] & -> & (pb & r & -> & Hr & _)%elem_of_member_scan). exists pb. rewrite Hr. split; [done|eauto].
  - intros (pb & -> & r & Hr). exists (member_key (f, pb), enc_member r). split; [done|].
    apply elem_of_member_scan. eauto.
Qed.

(** Deleting the keys of a scan leaves the members of the other interfaces. *)
Lemma delete_member_keys mems f :
  foldl (λ m k, delete k m) (kmap member_key (enc_member <$> mems))
    (scan_table (make_member_prefix f) (kmap member_key (enc_member <$> mems))).*1 =
  (kmap member_key (enc_member <$> filter (λ x, x.1.1 ≠ f) mems) : Table).
Proof.
  apply map_eq. intros k. rewrite delete_all_lookup. apply option_eq. intros v.
  rewrite (lookup_kmap_Some member_key (enc_member <$> filter _ _)) by apply _.
  setoid_rewrite lookup_fmap_Some. setoid_rewrite map_lookup_filter_Some.
  destruct (decide _) as [Hk|Hk].
  - split; [done|]. apply elem_of_member_keys in Hk as (pb & -> & _).
    intros (i & Hi%(inj member_key) & r & _ & _ & Hne). by subst i.
  - rewrite lookup_kmap_Some by apply _. setoid_rewrite lookup_fmap_Some. split.
    + intros ([g pb] & -> & r & <- & Hr). exists (g, pb). split; [done|]. exists r. split; [done|].
      split; [done|]. simpl. intros ->. apply Hk, elem_of_member_keys. exists pb. split; [done|eauto].
    + intros (i & -> & r & <- & Hr & _). eauto.
Qed.

Lemma delete_op T s f : store_holds T s →
  ∃ T', run_if_op (I := I) (OpDelete f) (db T) = (db T', Ok tt) ∧ store_holds T' (spec_if_op (I := I) (OpDelete f) s).
Proof.
  intros Hs. destruct s as [ifs mems].
  set (T1 := <[INTERFACE_MEMBERS := kmap member_key (enc_member <$> filter (λ x, x.1.1 ≠ f) mems)]> T).
  assert (store_holds T1 (ifs, filter (λ x, x.1.1 ≠ f) mems)) as Hs1 by by apply (holds_set_members _ _ _ _ Hs).
  eexists. split.
  - cbn [run_if_op]. unfold interface_delete. rewrite !run_bind, (scan_db _ _ _ _ (holds_members _ _ Hs)).
    rewrite run_bind, (delete_keys_db _ _ _ _ (holds_members _ _ Hs)). cbn [snd]. rewrite delete_member_keys. fold T1.
    rewrite delete_db. done.
  - apply (holds_set_interfaces _ _ _ _ Hs1).
    + rewrite (holds_interfaces _ _ Hs1). cbn [default from_option id fst].
      by rewrite fmap_delete, kmap_delete by apply _.
    + intros g r [_ Hr]%lookup_delete_Some. by apply (holds_ids _ _ Hs).
Qed.

(** ** The specification *)

Fixpoint run_if_ops (ops : list (if_op I)) : M RedbStorage DbError unit :=
  match ops with [] => mret tt | op :: ops => run_if_op op ;; run_if_ops ops end.

Lemma if_ops_refine ops : ∀ T s, store_holds T s →
  ∃ T', run_if_ops ops (db T) = (db T', Ok tt) ∧ store_holds T' (foldl (λ s op, spec_if_op op s) s ops).
Proof.
  induction ops as [|op ops IH]; intros T s Hs; [by exists T|].
  assert (∃ T1, run_if_op op (db T) = (db T1, Ok tt) ∧ store_holds T1 (spec_if_op op s)) as (T1 & HT & Hs1).
  { destruct op; [by apply upsert_op|by apply increment_op|by apply add_op|by apply remove_op|by apply delete_op]. }
  cbn [run_if_ops foldl]. rewrite run_bind, HT. by apply IH.
Qed.

Lemma open_holds : ∃ T, redb_open None None (db ∅) = (db T, Ok tt) ∧ store_holds T (∅, ∅).
Proof.
  eexists. split; [reflexivity|]. split; [|by simpl..|done]. all: simpl; rewrite fmap_empty, kmap_empty.
  all: by repeat first [rewrite lookup_insert_eq | rewrite lookup_insert_ne by done].
Qed.

(** C36. The store, opened on a new database, answers after any operations as the
    maps of interfaces and members that the operations describe. *)
Theorem interface_store_spec ops :
  ∃ r0 r, redb_open None None (db ∅) = (r0, Ok tt) ∧ run_if_ops ops r0 = (r, Ok tt) ∧
    let s := foldl (λ s op, spec_if_op op s) (∅, ∅) ops in
    (∀ f, interface_get f r = (r, Ok (s.1 !! f))) ∧
    (∀ f p, get_member f p r = (r, Ok (s.2 !! (f, pid_as_bytes p)))) ∧
    (∀ f p, is_member f p r = (r, Ok (bool_decide (is_Some (s.2 !! (f, pid_as_bytes p)))))) ∧
    ∀ f, ∃ l, get_members f r = (r, Ok l) ∧ l ≡ₚ (map_to_list (members_of f s.2)).*2.
Proof.
  destruct open_holds as (T & HT & Hs). destruct (if_ops_refine ops T _ Hs) as (T' & HT' & Hs').
  exists (db T), (db T'). split; [done|]. split; [done|]. split; [|split; [|split]]; intros.
  - by apply interface_get_holds.
  - by apply get_member_holds.
  - by apply is_member_holds.
  - by apply get_members_holds.
Qed.

(** ** The number of members *)

Definition counts_exact (s : IfMap * MemMap) : Prop :=
  ∀ f r, s.1 !! f = Some r → ir_member_count r = Z.of_nat (size (members_of f s.2)).

(** Records are written with the count they have, members are added once and
    fit the counter. *)
Definition op_counts (s : IfMap * MemMap) (op : if_op I) : Prop :=
  match op with
  | OpUpsert r => ir_member_count r = Z.of_nat (size (members_of (ir_interface_id r) s.2))
  | OpAdd f p _ => s.2 !! (f, pid_as_bytes p) = None ∧ Z.of_nat (size (members_of f s.2)) + 1 < 2 ^ 32
  | _ => True
  end.

Lemma members_of_insert f g p r mems :
  members_of f (<[(g, p) := r]> mems) = if decide (g = f) then <[(g, p) := r]> (members_of f mems)
                                        else members_of f mems.
Proof.
  unfold members_of. destruct (decide (g = f)) as [->|Hne]; [by rewrite map_filter_insert_True|].
  apply map_eq. intros [g' p']. apply option_eq. intros r'. rewrite !map_lookup_filter_Some, lookup_insert_Some.
  simpl. naive_solver.
Qed.

Lemma members_of_delete f g p mems :
  members_of f (delete (g, p) mems) = delete (g, p) (members_of f mems).
Proof. unfold members_of. by rewrite map_filter_delete. Qed.

Lemma members_of_lookup f p mems : members_of f mems !! (f, p) = mems !! (f, p).
Proof. unfold members_of. apply option_eq. intros r. rewrite map_lookup_filter_Some. naive_solver. Qed.

Lemma members_of_other f g mems : f ≠ g → members_of f (filter (λ x, x.1.1 ≠ g) mems) = members_of f mems.
Proof.
  intros Hne. apply map_eq. intros k. unfold members_of. apply option_eq. intros r.
  rewrite !map_lookup_filter_Some. naive_solver.
Qed.

Lemma members_of_lookup_ne f g p mems : f ≠ g → members_of f mems !! (g, p) = None.
Proof. intros Hne. unfold members_of. apply map_lookup_filter_None. right. intros r _ Hr. by simpl in Hr. Qed.

Lemma counts_step op s : counts_exact s → op_counts s op → counts_exact (spec_if_op op s).
Proof.
  destruct s as [ifs mems]. intros Hc Hop f r. destruct op as [r'|now g|g p r'|g p|g]; simpl in *.
  - rewrite lookup_insert_Some. intros [[<- <-]|[_ Hr]]; [done|by apply Hc].
  - rewrite lookup_alter_Some. intros [(-> & r0 & Hr & ->)|[_ Hr]]; by apply (Hc _ _ Hr).
  - destruct Hop as [Hnew Hsize]. rewrite lookup_alter_Some, members_of_insert.
    intros [(-> & r0 & Hr & ->)|[Hne Hr]]; [|by rewrite decide_False by congruence; apply Hc].
    rewrite decide_True by done. rewrite map_size_insert_None by by rewrite members_of_lookup.
    simpl. unfold count_up. rewrite (Hc _ _ Hr). simpl. unfold wrap_u32. rewrite Z.mod_small by lia. lia.
  - destruct (decide _) as [[m Hm]|]; [|by apply Hc]. simpl. rewrite lookup_alter_Some, members_of_delete.
    intros [(-> & r0 & Hr & ->)|[Hne Hr]].
    + rewrite map_size_delete_Some by (rewrite members_of_lookup; by exists m).
      simpl. unfold count_down. rewrite (Hc _ _ Hr). simpl.
      assert (size (members_of f mems) ≠ 0%nat); [|lia]. intros Hz%map_size_empty_iff.
      pose proof (members_of_lookup f (pid_as_bytes p) mems) as Hl. by rewrite Hz, lookup_empty, Hm in Hl.
    + rewrite delete_id by by apply members_of_lookup_ne. by apply Hc.
  - intros [Hne Hr]%lookup_delete_Some. rewrite members_of_other by done. by apply Hc.
Qed.

(** Adding a member again counts it again. *)
Theorem readd_member_overcounts f p m r s :
  counts_exact s → s.1 !! f = Some r → is_Some (s.2 !! (f, pid_as_bytes p)) →
  Z.of_nat (size (members_of f s.2)) + 1 < 2 ^ 32 →
  let s' := spec_if_op (OpAdd f p m) s in
  ∃ r', s'.1 !! f = Some r' ∧ ir_member_count r' = Z.of_nat (size (members_of f s'.2)) + 1.
Proof.
  destruct s as [ifs mems]. simpl. intros Hc Hr Hm Hsize. exists (bump_members count_up r).
  rewrite lookup_alter_eq, Hr. split; [done|]. rewrite members_of_insert, decide_True by done.
  rewrite map_size_insert_Some by by rewrite members_of_lookup. simpl. unfold count_up, wrap_u32.
  rewrite (Hc _ _ Hr). simpl. rewrite Z.mod_small by lia. done.
Qed.
End InterfaceFacts.


(** ** Pending deliveries

    The deliveries queued for a peer and an interface, and what an
    acknowledgement clears.  The keys of the table put the peer's bytes first,
    so that the deliveries of two peers are kept apart when these have one
    length. *)

(** Deliveries by peer, interface and event. *)
Abbreviation PendMap := (gmap (list byte * arr32 * EventId) PendingDeliveryRecord).

Section SyncStateFacts.
Context {I : Type} `{PeerIdentity I} `{RecordPostcard}.
Context (n : nat) (peer_length : ∀ i : I, length (pid_as_bytes i) = n).
Context (pending_ok : ∀ r, ∃ v, pc_pending r = Ok v ∧ pc_parse_pending v = Ok r).
Context (sync_ok : ∀ r, ∃ v, pc_sync r = Ok v ∧ pc_parse_sync v = Ok r).

Definition enc_pending (r : PendingDeliveryRecord) : list byte :=
  match pc_pending r with Ok v => v | Err _ => [] end.

Lemma enc_pending_ok r : pc_pending r = Ok (enc_pending r) ∧ pc_parse_pending (enc_pending r) = Ok r.
Proof. unfold enc_pending. destruct (pending_ok r) as (v & -> & Hv). done. Qed.

Definition pend_key (k : list byte * arr32 * EventId) : list byte :=
  k.1.1 ++ arr32_bytes k.1.2 ++ event_id_to_bytes k.2.

(** Keys of the peers' length, with identifiers of 64-bit numbers. *)
Definition pend_key_ok (k : list byte * arr32 * EventId) : Prop := length k.1.1 = n ∧ event_id_ok k.2.

Lemma event_id_bytes_inj a b : event_id_ok a → event_id_ok b → event_id_to_bytes a = event_id_to_bytes b → a = b.
Proof.
  intros Ha Hb He. rewrite <- (event_id_bytes_roundtrip a), <- (event_id_bytes_roundtrip b) by done. by rewrite He.
Qed.

Lemma pend_key_inj a b : pend_key_ok a → pend_key_ok b → pend_key a = pend_key b → a = b.
Proof.
  destruct a as [[p f] i], b as [[q g] j]. unfold pend_key_ok, pend_key. simpl. intros [Hp Hi] [Hq Hj] Hk.
  apply app_inj_1 in Hk as [-> Hk]; [|congruence].
  apply app_inj_1 in Hk as [Hf%arr32_bytes_inj Hk]; [|by rewrite !arr32_length]. subst g.
  by rewrite (event_id_bytes_inj i j).
Qed.

(** The table of deliveries holds [q]. *)
Record pend_table (y : Table) (q : PendMap) : Prop := {
  pend_entries : ∀ k v, y !! k = Some v ↔ ∃ x r, q !! x = Some r ∧ k = pend_key x ∧ v = enc_pending r;
  pend_keys : ∀ x r, q !! x = Some r → pend_key_ok x ∧ pdr_event_id r = x.2;
}.

Lemma pend_table_insert y q x r : pend_table y q → pend_key_ok x → pdr_event_id r = x.2 →
  pend_table (<[pend_key x := enc_pending r]> y) (<[x := r]> q).
Proof.
  intros [He Hk] Hx Hr. split.
  - intros k v. rewrite lookup_insert_Some, He. setoid_rewrite lookup_insert_Some. split.
    + intros [[<- <-]|[Hne (x' & r' & Hq & -> & ->)]]; [by exists x, r; eauto|].
      exists x', r'. split; [|done]. right. split; [|done]. intros ->. done.
    + intros (x' & r' & [[<- <-]|[Hne Hq]] & -> & ->); [by left|]. right. split; [|by exists x', r'].
      intros Hkk. apply Hne. apply pend_key_inj; [done| |done]. by apply (Hk x' r').
  - intros x' r'. rewrite lookup_insert_Some. intros [[<- <-]|[_ Hq]]; [done|by apply Hk].
Qed.

Lemma pend_table_delete y q x : pend_table y q → pend_key_ok x → pend_table (delete (pend_key x) y) (delete x q).
Proof.
  intros [He Hk] Hx. split.
  - intros k v. rewrite lookup_delete_Some, He. setoid_rewrite lookup_delete_Some. split.
    + intros [Hne (x' & r' & Hq & -> & ->)]. exists x', r'. split; [|done]. split; [|done]. intros ->. done.
    + intros (x' & r' & [Hne Hq] & -> & ->). split; [|by exists x', r'].
      intros Hkk. apply Hne, pend_key_inj; [done| |done]. by apply (Hk x' r').
  - intros x' r'. rewrite lookup_delete_Some. intros [_ Hq]. by apply Hk.
Qed.

(** A scan finds the deliveries of one peer and one interface. *)
Lemma elem_of_pend_scan y q (p : I) f k v : pend_table y q →
  (k, v) ∈ scan_table (make_pending_prefix p f) y ↔
  ∃ id r, q !! (pid_as_bytes p, f, id) = Some r ∧ k = pend_key (pid_as_bytes p, f, id) ∧ v = enc_pending r.
Proof.
  intros [He Hk]. rewrite elem_of_scan_table, He. unfold make_pending_prefix. split.
  - intros [([[pb g] id] & r & Hq & -> & ->) [t Ht]]. unfold pend_key in Ht. simpl in Ht.
    destruct (Hk _ _ Hq) as [[Hlen _] _]. simpl in Hlen. rewrite <- app_assoc in Ht.
    apply app_inj_1 in Ht as [-> Ht]; [|by rewrite peer_length].
    apply app_inj_1 in Ht as [->%arr32_bytes_inj _]; [|by rewrite !arr32_length]. eauto.
  - intros (id & r & Hq & -> & ->). split; [by eexists _, _|]. unfold pend_key. simpl. rewrite app_assoc.
    by apply prefix_app_r.
Qed.

Lemma pdr_leb_preorder : TotalPreorder pdr_leb.
Proof.
  unfold pdr_leb. split; intros *; [apply leb_total|apply leb_trans].
Qed.

Lemma enc_pending_inj a b : enc_pending a = enc_pending b → a = b.
Proof.
  intros He. pose proof (proj2 (enc_pending_ok a)) as Ha. rewrite He, (proj2 (enc_pending_ok b)) in Ha. congruence.
Qed.

(** Encoded records decode. *)
Lemma decode_encoded (L : list (list byte * list byte)) : (∀ k v, (k, v) ∈ L → ∃ r, v = enc_pending r) →
  ∃ rs, Forall2 (λ e a, pc_parse_pending e.2 = Ok a) L rs ∧ ∀ r, r ∈ rs ↔ ∃ k, (k, enc_pending r) ∈ L.
Proof.
  induction L as [|[k v] L IH]; intros HL.
  - exists []. split; [constructor|]. intros r. split; [by intros ?%elem_of_nil|by intros [k ?%elem_of_nil]].
  - destruct IH as (rs & Hrs & Hin); [intros; eapply HL; by constructor|].
    destruct (HL k v) as [r ->]; [by constructor|]. exists (r :: rs). split.
    + constructor; [apply enc_pending_ok|done].
    + intros r'. rewrite elem_of_cons, Hin. setoid_rewrite elem_of_cons. split.
      * intros [->|[k' Hk']]; [exists k; by left|exists k'; by right].
      * intros [k' [[= -> Henc]|Hk']]; [left; by apply enc_pending_inj|right; eauto].
Qed.

(** The deliveries of a peer and an interface, in the order of the events. *)
Lemma get_pending_holds T y q (p : I) f : T !! PENDING_DELIVERY = Some y → pend_table y q →
  ∃ l, queued_pending p f (db T) = (db T, Ok l) ∧ StronglySorted (λ a b, pdr_leb a b = true) l ∧
    ∀ r, r ∈ l ↔ q !! (pid_as_bytes p, f, pdr_event_id r) = Some r.
Proof.
  intros HT Hy. set (L := scan_table (make_pending_prefix p f) y).
  destruct (decode_encoded L) as (rs & Hrs & Hin).
  { intros k v (id & r & _ & _ & ->)%(elem_of_pend_scan _ _ _ _ _ _ Hy). eauto. }
  exists (sort_by pdr_leb rs). split; [|split].
  - unfold queued_pending. rewrite run_bind, (scan_db _ _ _ _ HT), run_bind. fold L.
    by rewrite (decode_values_ok _ _ _ _ Hrs).
  - apply sort_by_sorted, pdr_leb_preorder.
  - intros r. rewrite sort_by_perm, Hin. unfold L. setoid_rewrite (elem_of_pend_scan _ _ _ _ _ _ Hy). split.
    + intros (k & id & r' & Hq & -> & <-%enc_pending_inj). by rewrite (proj2 (pend_keys _ _ Hy _ _ Hq)).
    + intros Hq. by eexists _, (pdr_event_id r), r.
Qed.

(** ** Acknowledgements *)

(** The deliveries of [p] and [f] up to an event, in the order of identifiers. *)
Definition acked (p : I) f (up_to : EventId) (x : list byte * arr32 * EventId) : Prop :=
  x.1 = (pid_as_bytes p, f) ∧ event_id_leb x.2 up_to = true.

#[local] Instance acked_dec p f up_to x : Decision (acked p f up_to x).
Proof. unfold acked. apply _. Defined.

Lemma clear_loop_holds (p : I) f up_to l : ∀ c T y q,
  T !! PENDING_DELIVERY = Some y → pend_table y q → (∀ r, r ∈ l → event_id_ok (pdr_event_id r)) →
  ∃ c' y', clear_loop p f up_to l c (db T) = (db (<[PENDING_DELIVERY := y']> T), Ok c') ∧
    pend_table y' (filter (λ x, ¬ (acked p f up_to x.1 ∧ x.1.2 ∈ pdr_event_id <$> l)) q).
Proof.
  induction l as [|r l IH]; intros c T y q HT Hy Hl.
  - exists c, y. rewrite insert_id by done. split; [done|].
    rewrite map_filter_id; [done|]. intros x r _ [_ ?%elem_of_nil]. done.
  - cbn [clear_loop]. destruct (event_id_leb (pdr_event_id r) up_to) eqn:Hle.
    + set (x := (pid_as_bytes p, f, pdr_event_id r)).
      assert (pend_key_ok x) as Hx by (split; [apply peer_length|apply Hl; by constructor]).
      rewrite run_bind, delete_db, HT. cbn [default from_option id].
      change (make_pending_key p f (pdr_event_id r)) with (pend_key x).
      edestruct (IH (c + 1) (<[PENDING_DELIVERY := delete (pend_key x) y]> T)) as (c' & y' & Hr & Hy').
      { by rewrite lookup_insert_eq. }
      { by apply pend_table_delete. }
      { intros r' Hr'. apply Hl. by constructor. }
      exists c', y'. rewrite insert_insert_eq in Hr. split; [done|].
      replace (filter _ q) with (filter (λ x, ¬ (acked p f up_to x.1 ∧ x.1.2 ∈ pdr_event_id <$> l)) (delete x q));
        [done|].
      apply map_eq. intros z. apply option_eq. intros v. rewrite !map_lookup_filter_Some, lookup_delete_Some.
      simpl. unfold acked. rewrite elem_of_cons. destruct z as [[pz fz] iz]. simpl. unfold x. naive_solver.
    + edestruct (IH c T y q HT Hy) as (c' & y' & Hr & Hy'); [intros r' Hr'; apply Hl; by constructor|].
      exists c', y'. split; [done|].
      replace (filter (λ x, ¬ (acked p f up_to x.1 ∧ x.1.2 ∈ pdr_event_id <$> r :: l)) q)
        with (filter (λ x, ¬ (acked p f up_to x.1 ∧ x.1.2 ∈ pdr_event_id <$> l)) q); [done|].
      apply map_eq. intros z. apply option_eq. intros v. rewrite !map_lookup_filter_Some.
      simpl. unfold acked. rewrite elem_of_cons. naive_solver congruence.
Qed.

(** Clearing removes what is acknowledged and nothing else. *)
Lemma clear_pending_holds T y q (p : I) f up_to : T !! PENDING_DELIVERY = Some y → pend_table y q →
  ∃ c y', clear_pending_up_to p f up_to (db T) = (db (<[PENDING_DELIVERY := y']> T), Ok c) ∧
    pend_table y' (filter (λ x, ¬ acked p f up_to x.1) q).
Proof.
  intros HT Hy. destruct (get_pending_holds _ _ _ p f HT Hy) as (l & Hl & _ & Hin).
  destruct (clear_loop_holds p f up_to l 0 T y q HT Hy) as (c & y' & Hc & Hy').
  { intros r Hr%Hin. by apply (pend_keys _ _ Hy) in Hr as [[_ ?] _]. }
  exists c, y'. unfold clear_pending_up_to. rewrite run_bind, Hl. split; [done|].
  replace (filter (λ x, ¬ acked p f up_to x.1) q)
    with (filter (λ x, ¬ (acked p f up_to x.1 ∧ x.1.2 ∈ pdr_event_id <$> l)) q); [done|].
  apply map_eq. intros z. apply option_eq. intros v. rewrite !map_lookup_filter_Some.
  split; (intros [Hz Hn]; split; [done|]); simpl in *; [|naive_solver]. intros Ha. apply Hn. split; [done|].
  destruct Ha as [Hz1 _]. apply list_elem_of_fmap. exists v. pose proof (proj2 (pend_keys _ _ Hy _ _ Hz)) as Hid.
  split; [done|]. apply Hin. rewrite Hid, <- Hz1. by destruct z.
Qed.

Lemma add_pending_holds T y q now (p : I) f id : T !! PENDING_DELIVERY = Some y → pend_table y q → event_id_ok id →
  ∃ y', queue_pending now p f id (db T) = (db (<[PENDING_DELIVERY := y']> T), Ok tt) ∧
    pend_table y' (<[(pid_as_bytes p, f, id) := pending_delivery_new now id]> q).
Proof.
  intros HT Hy Hid. unfold queue_pending, pc_encoded. rewrite (proj1 (enc_pending_ok _)), run_bind, run_ret, put_db, HT.
  eexists. split; [done|].
  apply (pend_table_insert _ _ (pid_as_bytes p, f, id)); [done| |done]. split; [apply peer_length|done].
Qed.

Lemma record_attempt_holds T y q now (p : I) f id : T !! PENDING_DELIVERY = Some y → pend_table y q →
  pend_key_ok (pid_as_bytes p, f, id) →
  ∃ y', record_attempt now p f id (db T) = (db (<[PENDING_DELIVERY := y']> T), Ok tt) ∧
    pend_table y' (alter (pdr_attempted now) (pid_as_bytes p, f, id) q).
Proof.
  intros HT Hy Hx. unfold record_attempt. rewrite run_bind, (get_db _ _ _ _ HT).
  change (make_pending_key p f id) with (pend_key (pid_as_bytes p, f, id)). set (x := (pid_as_bytes p, f, id)) in *.
  destruct (y !! pend_key x) as [v|] eqn:Hv.
  - apply (pend_entries _ _ Hy) in Hv as (x' & r & Hq & Hk & ->).
    apply pend_key_inj in Hk as <-; [|done|by apply (pend_keys _ _ Hy _ _ Hq)].
    unfold pc_decoded, pc_encoded. rewrite (proj2 (enc_pending_ok r)), run_bind, run_ret.
    rewrite (proj1 (enc_pending_ok _)), run_bind, run_ret, put_db, HT. eexists. split; [done|].
    replace (alter (pdr_attempted now) x q) with (<[x := pdr_attempted now r]> q).
    + apply pend_table_insert; [done|done|]. by apply (pend_keys _ _ Hy _ _ Hq).
    + apply map_eq. intros j. destruct (decide (x = j)) as [<-|Hj]; [by rewrite lookup_insert_eq, lookup_alter_eq, Hq|].
      by rewrite lookup_insert_ne, lookup_alter_ne.
  - exists y. rewrite insert_id by done. split; [done|]. rewrite alter_id'; [done|].
    destruct (q !! x) as [r|] eqn:Hq; [|done].
    assert (y !! pend_key x = Some (enc_pending r)) by (apply (pend_entries _ _ Hy); eauto). congruence.
Qed.

Definition enc_sync (r : SyncStateRecord) : list byte := match pc_sync r with Ok v => v | Err _ => [] end.

Lemma enc_sync_ok r : pc_sync r = Ok (enc_sync r) ∧ pc_parse_sync (enc_sync r) = Ok r.
Proof. unfold enc_sync. destruct (sync_ok r) as (v & -> & Hv). done. Qed.

Lemma sync_update_db T z (p : I) f r : T !! SYNC_STATE = Some z →
  sync_update p f r (db T) = (db (<[SYNC_STATE := <[make_sync_key p f := enc_sync r]> z]> T), Ok tt).
Proof.
  intros Hz. unfold sync_update, pc_encoded. by rewrite (proj1 (enc_sync_ok r)), run_bind, run_ret, put_db, Hz.
Qed.

(** The state of a peer and an interface, created when there is none. *)
Lemma get_or_create_db T z (p : I) f :
  T !! SYNC_STATE = Some z → (∀ v, z !! make_sync_key p f = Some v → ∃ r, v = enc_sync r) →
  ∃ r, get_or_create p f (db T) =
    (db (<[SYNC_STATE := <[make_sync_key p f := enc_sync r]> z]> T), Ok r) ∧
    default (enc_sync (sync_state_new (pid_as_bytes p) f)) (z !! make_sync_key p f) = enc_sync r.
Proof.
  intros Hz Hv. unfold get_or_create. rewrite run_bind, (get_db _ _ _ _ Hz).
  destruct (z !! make_sync_key p f) as [v|] eqn:Hk.
  - destruct (Hv v eq_refl) as [r ->]. exists r. unfold pc_decoded. rewrite (proj2 (enc_sync_ok r)).
    rewrite (insert_id z) by done. by rewrite (insert_id T) by done.
  - eexists. rewrite run_bind, (sync_update_db _ _ _ _ _ Hz). done.
Qed.

(** An acknowledgement records the event and clears the deliveries to the peer
    on the interface whose identifiers do not exceed it; all others stay. *)
Theorem acknowledge_spec T y z q (p : I) f up_to :
  T !! PENDING_DELIVERY = Some y → pend_table y q →
  T !! SYNC_STATE = Some z → (∀ v, z !! make_sync_key p f = Some v → ∃ r, v = enc_sync r) →
  ∃ T' y' r, acknowledge_events p f up_to (db T) = (db T', Ok tt) ∧
    T' !! PENDING_DELIVERY = Some y' ∧ pend_table y' (filter (λ x, ¬ acked p f up_to x.1) q) ∧
    get_or_create p f (db T') = (db T', Ok r) ∧ ssr_last_acked_event r = Some up_to.
Proof.
  intros HT Hy Hz Hv. destruct (get_or_create_db _ _ _ _ Hz Hv) as (r & Hr & _).
  set (z1 := <[make_sync_key p f := enc_sync r]> z) in *. set (r' := ssr_with_acked_event up_to r).
  set (z2 := <[make_sync_key p f := enc_sync r']> z1). set (T2 := <[SYNC_STATE := z2]> T).
  assert (T2 !! PENDING_DELIVERY = Some y) as HT2 by (unfold T2; by rewrite lookup_insert_ne).
  destruct (clear_pending_holds T2 y q p f up_to HT2 Hy) as (c & y' & Hc & Hy').
  exists (<[PENDING_DELIVERY := y']> T2), y', r'. split; [|split; [by rewrite lookup_insert_eq|split; [done|split; [|done]]]].
  - unfold acknowledge_events. rewrite run_bind, Hr, run_bind.
    rewrite (sync_update_db _ z1) by by rewrite lookup_insert_eq.
    rewrite insert_insert_eq, run_bind. fold r' z2 T2. by rewrite Hc.
  - unfold get_or_create. rewrite run_bind, (get_db _ _ _ z2).
    + unfold z2. rewrite lookup_insert_eq. unfold pc_decoded. by rewrite (proj2 (enc_sync_ok r')).
    + rewrite lookup_insert_ne by done. unfold T2. by rewrite lookup_insert_eq.
Qed.

(** The identifiers compare by the sender's hash first: acknowledging an event
    of one sender clears all events of the senders with smaller hashes. *)
Theorem ack_clears_other_senders (q : PendMap) (p : I) f up_to a :
  sender_hash a < sender_hash up_to →
  filter (λ x, ¬ acked p f up_to x.1) q !! (pid_as_bytes p, f, a) = None.
Proof.
  intros Ha. apply map_lookup_filter_None. right. intros r _ Hn. apply Hn. split; [done|].
  unfold event_id_leb. simpl. destruct (Z.ltb_spec (sender_hash a) (sender_hash up_to)); [done|lia].
Qed.
End SyncStateFacts.
