(* ===== verification/AppendLog.v ===== *)
(** * The append-only event log

    Models [indras-storage/src/append_log]: [event_log.rs] and the records of
    [compaction.rs].  A log is one file of entries, each the [postcard]
    encoding of an event behind its length as a big-endian 32-bit integer, and
    an index in memory from event identifiers to offsets that [EventLog::new]
    rebuilds by replaying the file.

    The file is its bytes and the cursor that [try_clone]d handles share.
    What the operating system answers to a write is a record [WriteIo]; a
    failed write leaves behind any prefix of what it was to write.  An error of
    the operating system that [tokio] reports only to the next call on the file
    is not modelled: every write is answered when it is made.  [now] is the
    clock in Unix milliseconds. *)

From S2P Require Import Prelude Bytes Pending Documents.

Local Open Scope string_scope.
Local Open Scope Z_scope.
Local Open Scope list_scope.

(** ** Files of length-prefixed records *)

Record LogFile : Type := { lf_bytes : list byte; lf_pos : nat }.

Definition log_file_open (b : list byte) : LogFile := {| lf_bytes := b; lf_pos := 0 |}.

(** [seek(SeekFrom::Start(offset))]. *)
Definition seek_to (offset : Z) : M LogFile DbError unit :=
  modify (λ f, {| lf_bytes := lf_bytes f; lf_pos := Z.to_nat offset |}).

(** [read_exact]; at the end of the file it fails and has read what is left. *)
Definition read_exact (n : nat) : M LogFile DbError (list byte) := λ f,
  let rest := drop (lf_pos f) (lf_bytes f) in
  if (length rest <? n)%nat
  then ({| lf_bytes := lf_bytes f; lf_pos := lf_pos f + length rest |}, Err (DbIo "early eof"))
  else ({| lf_bytes := lf_bytes f; lf_pos := lf_pos f + n |}, Ok (take n rest)).

(** The record at an offset. *)
Definition read_frame (offset : Z) : M LogFile DbError (list byte) :=
  seek_to offset ;;
  len ← read_exact 4;
  read_exact (Z.to_nat (from_be_bytes len)).

(** What the two [write_all]s write: the length [as u32] and the record. *)
Definition frame (s : list byte) : list byte := be_bytes 4 (Z.of_nat (length s)) ++ s.

Record WriteIo : Type := {
  wi_seek : option string;
  wi_write : option (nat * string);
  wi_sync : option string;
}.

Definition io_ok : WriteIo := {| wi_seek := None; wi_write := None; wi_sync := None |}.

(** Seek to the end, write the record and sync; the offset it is at. *)
Definition append_frame (io : WriteIo) (sync : bool) (s : list byte) : M LogFile DbError Z := λ f,
  let write l := {| lf_bytes := lf_bytes f ++ l; lf_pos := length (lf_bytes f) + length l |} in
  match wi_seek io with
  | Some m => (f, Err (DbIo m))
  | None =>
      match wi_write io with
      | Some (n, m) => (write (take n (frame s)), Err (DbIo m))
      | None =>
          match wi_sync io with
          | Some m => (write (frame s), if sync then Err (DbIo m) else Ok (Z.of_nat (length (lf_bytes f))))
          | None => (write (frame s), Ok (Z.of_nat (length (lf_bytes f))))
          end
      end
  end.

(** ** Entries *)

Record EventLogConfig : Type := {
  elc_base_dir : string;
  max_segment_size : Z;
  sync_on_write : bool;
  index_cache_size : Z;
}.

Definition event_log_config_default : EventLogConfig :=
  {| elc_base_dir := "./data/logs"; max_segment_size := 100 * 1024 * 1024; sync_on_write := true;
     index_cache_size := 10000 |}.

Record BlobRef : Type := { br_hash : arr32; br_size : Z }.

Definition blob_ref_new (h : arr32) (n : Z) : BlobRef := {| br_hash := h; br_size := n |}.

Definition br_hash_hex (b : BlobRef) : string := hex32 (br_hash b).

Record EventLogEntry : Type := {
  le_event_id : EventId;
  le_sequence : Z;
  le_timestamp_millis : Z;
  le_payload : list byte;
  le_blob_ref : option BlobRef;
}.

#[global] Instance BlobRef_eq_dec : EqDecision BlobRef.
Proof. solve_decision. Defined.

#[global] Instance EventLogEntry_eq_dec : EqDecision EventLogEntry.
Proof. solve_decision. Defined.

Definition log_entry_new (now : Z) (id : EventId) (sequence : Z) (payload : list byte) : EventLogEntry :=
  {| le_event_id := id; le_sequence := sequence; le_timestamp_millis := now; le_payload := payload;
     le_blob_ref := None |}.

Definition log_entry_with_blob_ref (now : Z) (id : EventId) (sequence : Z) (b : BlobRef) : EventLogEntry :=
  {| le_event_id := id; le_sequence := sequence; le_timestamp_millis := now; le_payload := [];
     le_blob_ref := Some b |}.

(** [postcard] on entries. *)
Class EntryPostcard : Type := {
  postcard_entry : EventLogEntry → Result (list byte) string;
  postcard_parse_entry : list byte → Result EventLogEntry string;
}.

(** ** Compaction records *)

Record CompactionConfig : Type := {
  cc_min_entries : Z;
  cc_min_size : Z;
  cc_max_age_millis : Z;
}.

Definition compaction_config_default : CompactionConfig :=
  {| cc_min_entries := 10000; cc_min_size := 50 * 1024 * 1024; cc_max_age_millis := 7 * 24 * 60 * 60 * 1000 |}.

Record CompactionResult : Type := {
  cres_entries_compacted : Z;
  cres_bytes_freed : Z;
  cres_snapshot_ref : option BlobRef;
  cres_new_start_sequence : Z;
  cres_compacted_at_millis : Z;
}.

Definition compaction_result_new (now entries bytes : Z) (b : option BlobRef) (start : Z) : CompactionResult :=
  {| cres_entries_compacted := entries; cres_bytes_freed := bytes; cres_snapshot_ref := b;
     cres_new_start_sequence := start; cres_compacted_at_millis := now |}.

Record SnapshotMetadata : Type := {
  snm_interface_id : arr32;
  snm_sequence : Z;
  snm_event_count : Z;
  snm_blob_ref : BlobRef;
  snm_created_at_millis : Z;
  snm_document_heads : list arr32;
}.

Definition snapshot_metadata_new (now : Z) (f : arr32) (sequence events : Z) (b : BlobRef) (heads : list arr32)
    : SnapshotMetadata :=
  {| snm_interface_id := f; snm_sequence := sequence; snm_event_count := events; snm_blob_ref := b;
     snm_created_at_millis := now; snm_document_heads := heads |}.

(** ** The log *)

Record EventLog : Type := {
  el_interface_id : arr32;
  el_config : EventLogConfig;
  el_open : bool;
  el_file : LogFile;
  el_index : gmap EventId Z;
  el_sequence : Z;
  el_offset : Z;
}.

Definition set_file (f : LogFile) (l : EventLog) : EventLog :=
  {| el_interface_id := el_interface_id l; el_config := el_config l; el_open := el_open l; el_file := f;
     el_index := el_index l; el_sequence := el_sequence l; el_offset := el_offset l |}.

Definition set_sequence (n : Z) (l : EventLog) : EventLog :=
  {| el_interface_id := el_interface_id l; el_config := el_config l; el_open := el_open l;
     el_file := el_file l; el_index := el_index l; el_sequence := n; el_offset := el_offset l |}.

Definition set_index (i : gmap EventId Z) (offset : Z) (l : EventLog) : EventLog :=
  {| el_interface_id := el_interface_id l; el_config := el_config l; el_open := el_open l;
     el_file := el_file l; el_index := i; el_sequence := el_sequence l; el_offset := offset |}.

Definition log_path (f : arr32) (c : EventLogConfig) : string :=
  elc_base_dir c +:+ "/" +:+ hex32 f +:+ ".log".

Definition MAX_ENTRY_LEN : Z := 10 * 1024 * 1024.

Section EventLog.
Context `{EntryPostcard}.

(** The loop of [replay_from_file]: [rest] is what the reader has not read,
    [fuel] bounds the entries (each takes at least five bytes). *)
Fixpoint replay_loop (fuel : nat) (rest : list byte) (offset : Z) (index : gmap EventId Z) (sequence : Z)
    : gmap EventId Z * Z :=
  match fuel with
  | O => (index, sequence)
  | S fuel =>
      if (length rest <? 4)%nat then (index, sequence)
      else
        let entry_len := from_be_bytes (take 4 rest) in
        if (entry_len =? 0) || (MAX_ENTRY_LEN <? entry_len) then (index, sequence)
        else if (Z.of_nat (length (drop 4 rest)) <? entry_len) then (index, sequence)
        else
          match postcard_parse_entry (take (Z.to_nat entry_len) (drop 4 rest)) with
          | Ok entry =>
              replay_loop fuel (drop (4 + Z.to_nat entry_len) rest) (offset + (4 + entry_len))
                (<[le_event_id entry := offset]> index)
                (Z.max sequence (wrap_u64 (le_sequence entry + 1)))
          | Err _ => (index, sequence)
          end
  end.

Definition replay_from_file (b : list byte) (index : gmap EventId Z) (sequence : Z) : gmap EventId Z * Z :=
  replay_loop (length b) b 0 index sequence.

(** [EventLog::new] and [open_and_replay] on the bytes the file has, empty
    when it is created; [Some m] is a failure to create or open it. *)
Definition event_log_new (os : option string) (f : arr32) (c : EventLogConfig) (b : list byte)
    : Result EventLog DbError :=
  match os with
  | Some m => Err (DbIo m)
  | None =>
      let '(index, sequence) := if (0 <? length b)%nat then replay_from_file b ∅ 0 else (∅, 0) in
      Ok {| el_interface_id := f; el_config := c; el_open := true; el_file := log_file_open b;
            el_index := index; el_sequence := sequence; el_offset := Z.of_nat (length b) |}
  end.

Definition write_entry (io : WriteIo) (e : EventLogEntry) : M EventLog DbError unit := λ l,
  match postcard_entry e with
  | Err m => (l, Err (DbSerialization m))
  | Ok serialized =>
      if negb (el_open l) then (l, Err (DbIo "Log file not open"))
      else
        match append_frame io (sync_on_write (el_config l)) serialized (el_file l) with
        | (f, Err e) => (set_file f l, Err e)
        | (f, Ok offset) =>
            (set_index (<[le_event_id e := offset]> (el_index l))
               (offset + 4 + Z.of_nat (length serialized)) (set_file f l), Ok tt)
        end
  end.

(** The sequence number is taken under a lock of its own, before the write. *)
Definition take_sequence : M EventLog DbError Z := λ l,
  (set_sequence (wrap_u64 (el_sequence l + 1)) l, Ok (el_sequence l)).

Definition el_append (io : WriteIo) (now : Z) (id : EventId) (payload : list byte) : M EventLog DbError Z :=
  sequence ← take_sequence;
  write_entry io (log_entry_new now id sequence payload) ;;
  mret sequence.

Definition append_with_blob (io : WriteIo) (now : Z) (id : EventId) (b : BlobRef) : M EventLog DbError Z :=
  sequence ← take_sequence;
  write_entry io (log_entry_with_blob_ref now id sequence b) ;;
  mret sequence.

(** [Some m]: the handle cannot be cloned, positioned or read. *)
Definition log_read_at_offset (os : option string) (offset : Z) : M EventLog DbError EventLogEntry := λ l,
  if negb (el_open l) then (l, Err (DbIo "Log file not open"))
  else
    match os with
    | Some m => (l, Err (DbIo m))
    | None =>
        match read_frame offset (el_file l) with
        | (f, Err e) => (set_file f l, Err e)
        | (f, Ok buf) =>
            (set_file f l,
             match postcard_parse_entry buf with Ok e => Ok e | Err m => Err (DbDeserialization m) end)
        end
    end.

Definition el_read_event (os : option string) (id : EventId) : M EventLog DbError (option EventLogEntry) := λ l,
  match el_index l !! id with
  | None => (l, Ok None)
  | Some offset => (e ← log_read_at_offset os offset; mret (Some e)) l
  end.

(** [index.values()]: a [BTreeMap] in the order of its keys. *)
Definition el_index_values (i : gmap EventId Z) : list Z :=
  omap (λ id, i !! id) (events_in_order (dom i)).

Fixpoint read_offsets (os : option string) (since : Z) (offsets : list Z)
    : M EventLog DbError (list EventLogEntry) :=
  match offsets with
  | [] => mret []
  | o :: offsets =>
      entry ← log_read_at_offset os o;
      entries ← read_offsets os since offsets;
      mret (if since <=? le_sequence entry then entry :: entries else entries)
  end.

Definition read_since (os : option string) (since : Z) : M EventLog DbError (list EventLogEntry) := λ l,
  if negb (el_open l) then (l, Ok [])
  else (entries ← read_offsets os since (el_index_values (el_index l));
        mret (sort_by (by_key le_sequence) entries)) l.

Definition read_all (os : option string) : M EventLog DbError (list EventLogEntry) := read_since os 0.

Definition current_sequence (l : EventLog) : Z := el_sequence l.

Definition el_event_count (l : EventLog) : nat := size (el_index l).

(** [close]; [Some m]: the last sync fails. *)
Definition log_close (sync : option string) : M EventLog DbError unit := λ l,
  let l' := {| el_interface_id := el_interface_id l; el_config := el_config l; el_open := false;
               el_file := el_file l; el_index := el_index l; el_sequence := el_sequence l;
               el_offset := el_offset l |} in
  (l', match sync with Some m => if el_open l then Err (DbIo m) else Ok tt | None => Ok tt end).
End EventLog.

(** ** Records in a file *)

(** A record lies at an offset, its length within 32 bits. *)
Definition frame_at (b : list byte) (offset : Z) (s : list byte) : Prop :=
  0 <= offset ∧ Z.of_nat (length s) < 2 ^ 32 ∧ frame s `prefix_of` drop (Z.to_nat offset) b.

Lemma log_frame_length s : length (frame s) = (4 + length s)%nat.
Proof. unfold frame. by rewrite length_app, be_bytes_length. Qed.

Lemma take_frame s t : take 4 (frame s ++ t) = be_bytes 4 (Z.of_nat (length s)).
Proof. unfold frame. rewrite <- app_assoc. apply take_app_length'. by rewrite be_bytes_length. Qed.

Lemma drop_frame s t : drop 4 (frame s ++ t) = s ++ t.
Proof. unfold frame. rewrite <- app_assoc. apply drop_app_length'. by rewrite be_bytes_length. Qed.

Lemma frame_len_value (s : list byte) : Z.of_nat (length s) < 2 ^ 32 →
  from_be_bytes (be_bytes 4 (Z.of_nat (length s))) = Z.of_nat (length s).
Proof. intros. rewrite from_to_be_bytes. apply Z.mod_small. lia. Qed.

Lemma frame_at_app b offset s t : frame_at b offset s → frame_at (b ++ t) offset s.
Proof.
  intros (Ho & Hs & k & Hk). split; [done|]. split; [done|].
  assert (Z.to_nat offset <= length b)%nat as Hle.
  { apply (f_equal length) in Hk. rewrite length_drop, length_app, log_frame_length in Hk. lia. }
  rewrite drop_app_le by done. rewrite Hk, <- app_assoc. by apply prefix_app_r.
Qed.

Lemma frame_at_end b s : Z.of_nat (length s) < 2 ^ 32 → frame_at (b ++ frame s) (Z.of_nat (length b)) s.
Proof. intros. split; [lia|]. split; [done|]. by rewrite Nat2Z.id, drop_app_length. Qed.

Lemma read_exact_ok n f l t : drop (lf_pos f) (lf_bytes f) = l ++ t → length l = n →
  read_exact n f = ({| lf_bytes := lf_bytes f; lf_pos := lf_pos f + n |}, Ok l).
Proof.
  intros Hd <-. unfold read_exact. rewrite Hd, length_app.
  destruct (Nat.ltb_spec (length l + length t) (length l)); [lia|]. by rewrite take_app_length.
Qed.

Lemma read_frame_at f offset s : frame_at (lf_bytes f) offset s →
  ∃ f', read_frame offset f = (f', Ok s) ∧ lf_bytes f' = lf_bytes f.
Proof.
  intros (Ho & Hs & t & Hd). unfold frame in Hd. rewrite <- app_assoc in Hd.
  set (f0 := {| lf_bytes := lf_bytes f; lf_pos := Z.to_nat offset |}).
  assert (length (be_bytes 4 (Z.of_nat (length s))) = 4%nat) as Hlen by apply be_bytes_length.
  unfold read_frame, seek_to, modify. rewrite run_bind. fold f0.
  rewrite (run_bind_ok _ _ _ _ _ (read_exact_ok 4 f0 _ (s ++ t) Hd Hlen)).
  rewrite frame_len_value by done. rewrite Nat2Z.id. erewrite (read_exact_ok _ _ s t); [by eexists| |done].
  cbn [lf_bytes lf_pos f0]. rewrite <- drop_drop, Hd. by apply drop_app_length'.
Qed.

Lemma read_frame_bytes offset f : lf_bytes (read_frame offset f).1 = lf_bytes f.
Proof.
  unfold read_frame, seek_to, modify, read_exact. rewrite !run_bind. simpl.
  destruct (_ <? 4)%nat; [done|]. by destruct (_ <? Z.to_nat _)%nat.
Qed.

(** A write keeps what is in the file; a successful one adds the record. *)
Lemma append_frame_spec io sync s f f' r : append_frame io sync s f = (f', r) →
  (∃ n, lf_bytes f' = lf_bytes f ++ take n (frame s)) ∧
  ∀ o, r = Ok o → o = Z.of_nat (length (lf_bytes f)) ∧ lf_bytes f' = lf_bytes f ++ frame s.
Proof.
  unfold append_frame. destruct io as [[m|] [[n m']|] [m''|]]; simpl; intros [= <- <-].
  1-4: split; [exists O; by rewrite app_nil_r|done].
  1-2: split; [by exists n|done].
  all: split; [exists (length (frame s)); simpl; by rewrite take_ge|].
  all: intros o; try destruct sync; intros [= <-]; done.
Qed.

(** ** The live log *)

(** The bytes of an entry, and of a list of them. *)
Definition entry_bytes `{EntryPostcard} (e : EventLogEntry) : list byte :=
  match postcard_entry e with Ok s => s | Err _ => [] end.

Definition log_bytes `{EntryPostcard} (es : list EventLogEntry) : list byte :=
  concat ((λ e, frame (entry_bytes e)) <$> es).

(** The last entry of each event. *)
Definition entries_map (es : list EventLogEntry) : gmap EventId EventLogEntry :=
  foldl (λ m e, <[le_event_id e := e]> m) ∅ es.

(** The entries in the order of the events' identifiers. *)
Definition entries_by_id (m : gmap EventId EventLogEntry) : list EventLogEntry :=
  omap (λ id, m !! id) (events_in_order (dom m)).

Lemma entries_map_snoc es e : entries_map (es ++ [e]) = <[le_event_id e := e]> (entries_map es).
Proof. unfold entries_map. by rewrite foldl_app. Qed.

Section EventLogFacts.
Context `{EntryPostcard}.
Context (postcard_ok : ∀ e s, postcard_entry e = Ok s → postcard_parse_entry s = Ok e).

(** The replay accepts what was written. *)
Definition entry_fits (e : EventLogEntry) : Prop :=
  ∀ s, postcard_entry e = Ok s → 0 < Z.of_nat (length s) <= MAX_ENTRY_LEN.

(** [o] is the offset of [e]. *)
Definition entry_at (l : EventLog) (o : Z) (e : EventLogEntry) : Prop :=
  ∃ s, postcard_entry e = Ok s ∧ frame_at (lf_bytes (el_file l)) o s.

(** The index leads to an entry of each event of [m]. *)
Definition log_holds (l : EventLog) (m : gmap EventId EventLogEntry) : Prop :=
  el_open l = true ∧ dom (el_index l) = dom m ∧
  ∀ id e, m !! id = Some e → le_event_id e = id ∧ ∃ o, el_index l !! id = Some o ∧ entry_at l o e.

Lemma log_holds_file l m f : log_holds l m → lf_bytes f = lf_bytes (el_file l) → log_holds (set_file f l) m.
Proof.
  intros (Ho & Hd & He) Hf. split; [done|]. split; [done|]. intros id e Hm.
  destruct (He id e Hm) as (Hid & o & Hi & s & Hs & Hfr). split; [done|]. exists o. split; [done|].
  exists s. simpl. by rewrite Hf.
Qed.

Lemma log_holds_grow l m f t :
  log_holds l m → lf_bytes f = lf_bytes (el_file l) ++ t → log_holds (set_file f l) m.
Proof.
  intros (Ho & Hd & He) Hf. split; [done|]. split; [done|]. intros id e Hm.
  destruct (He id e Hm) as (Hid & o & Hi & s & Hs & Hfr). split; [done|]. exists o. split; [done|].
  exists s. simpl. rewrite Hf. split; [done|]. by apply frame_at_app.
Qed.

Lemma write_entry_holds io e l m l' r :
  log_holds l m → entry_fits e → write_entry io e l = (l', r) →
  log_holds l' (if is_ok r then <[le_event_id e := e]> m else m) ∧ el_sequence l' = el_sequence l.
Proof.
  intros Hl Hfit. unfold write_entry. destruct (postcard_entry e) as [s|m'] eqn:Hs; [|by intros [= <- <-]].
  rewrite (proj1 Hl). simpl. destruct (append_frame _ _ _ _) as [f [o|d]] eqn:Hw; intros [= <- <-]; simpl.
  - destruct (append_frame_spec _ _ _ _ _ _ Hw) as [_ Hok]. destruct (Hok o eq_refl) as [-> Hf].
    destruct (log_holds_grow _ _ _ _ Hl Hf) as (Ho & Hd & He). split; [|done].
    split; [done|]. split; [simpl; by rewrite !dom_insert_L, (proj1 (proj2 Hl))|].
    intros id e'. rewrite lookup_insert_Some. intros [[<- <-]|[Hne Hm]].
    + split; [done|]. eexists. simpl. rewrite lookup_insert_eq. split; [done|]. exists s. split; [done|].
      simpl. rewrite Hf. apply frame_at_end. pose proof (Hfit s Hs). unfold MAX_ENTRY_LEN in *. lia.
    + destruct (He id e' Hm) as (Hid & o & Hi & Hat). split; [done|]. exists o.
      split; [simpl; by rewrite lookup_insert_ne|done].
  - destruct (append_frame_spec _ _ _ _ _ _ Hw) as [[n Hf] _]. split; [|done]. by eapply log_holds_grow.
Qed.

Lemma read_at_holds l m id e o : log_holds l m → m !! id = Some e → el_index l !! id = Some o →
  ∃ f, log_read_at_offset None o l = (set_file f l, Ok e) ∧ log_holds (set_file f l) m.
Proof.
  intros Hl Hm Ho. destruct Hl as (Hopen & Hd & He) eqn:Heq.
  destruct (He id e Hm) as (Hid & o' & Ho' & s & Hs & Hf). simplify_eq.
  destruct (read_frame_at _ _ _ Hf) as (f & Hr & Hb). exists f. split; [|by apply log_holds_file].
  unfold log_read_at_offset. rewrite Hopen. simpl. rewrite Hr. by rewrite (postcard_ok _ _ Hs).
Qed.

(** Reading an event gives its last entry. *)
Lemma read_event_holds l m id : log_holds l m →
  ∃ f, el_read_event None id l = (set_file f l, Ok (m !! id)) ∧ log_holds (set_file f l) m.
Proof.
  intros Hl. unfold el_read_event. destruct (el_index l !! id) as [o|] eqn:Ho.
  - assert (is_Some (m !! id)) as [e He].
    { apply elem_of_dom. rewrite <- (proj1 (proj2 Hl)). apply elem_of_dom. by exists o. }
    destruct (read_at_holds _ _ _ _ _ Hl He Ho) as (f & Hr & Hh). exists f. split; [|done].
    rewrite (run_bind_ok _ _ _ _ _ Hr). by rewrite He.
  - exists (el_file l). split; [|by destruct l].
    assert (m !! id = None) as ->; [|by destruct l].
    apply not_elem_of_dom. rewrite <- (proj1 (proj2 Hl)). by apply not_elem_of_dom.
Qed.

Lemma read_offsets_holds n m ids : (∀ id, id ∈ ids → is_Some (m !! id)) → ∀ l, log_holds l m →
  ∃ f, read_offsets None n (omap (λ id, el_index l !! id) ids) l =
    (set_file f l, Ok (retain (λ e, n <=? le_sequence e) (omap (λ id, m !! id) ids))) ∧
    log_holds (set_file f l) m.
Proof.
  induction ids as [|id ids IH]; intros Hids l Hl; [by exists (el_file l); destruct l|].
  destruct (Hids id) as [e He]; [set_solver|]. pose proof Hl as (_ & _ & Hat).
  destruct (Hat id e He) as (_ & o & Ho & _). simpl. rewrite Ho, He. cbn [read_offsets].
  destruct (read_at_holds _ _ _ _ _ Hl He Ho) as (f & Hr & Hf). rewrite (run_bind_ok _ _ _ _ _ Hr).
  destruct (IH ltac:(set_solver) _ Hf) as (f' & Hr' & Hf'). simpl in Hr'.
  rewrite (run_bind_ok _ _ _ _ _ Hr'), run_ret. exists f'. split; [|done]. simpl. by destruct (n <=? _).
Qed.

(** Reading since a sequence number gives the last entries of the events in
    the order of their sequence numbers. *)
Lemma read_since_holds n l m : log_holds l m →
  ∃ f, read_since None n l =
    (set_file f l, Ok (sort_by (by_key le_sequence) (retain (λ e, n <=? le_sequence e) (entries_by_id m)))) ∧
    log_holds (set_file f l) m.
Proof.
  intros Hl. unfold read_since, el_index_values, entries_by_id. rewrite (proj1 Hl), (proj1 (proj2 Hl)). simpl.
  destruct (read_offsets_holds n m (events_in_order (dom m))) with (l := l) as (f & Hr & Hf); [|done|].
  - intros id. unfold events_in_order. rewrite sort_by_perm, elem_of_elements. apply elem_of_dom.
  - exists f. split; [|done]. by rewrite (run_bind_ok _ _ _ _ _ Hr).
Qed.

(** ** Replay *)

Fixpoint index_from (offset : Z) (index : gmap EventId Z) (es : list EventLogEntry) : gmap EventId Z :=
  match es with
  | [] => index
  | e :: es =>
      index_from (offset + Z.of_nat (length (frame (entry_bytes e)))) (<[le_event_id e := offset]> index) es
  end.

Definition next_sequence (n : Z) (es : list EventLogEntry) : Z :=
  foldl (λ n e, Z.max n (wrap_u64 (le_sequence e + 1))) n es.

(** What a write that stops early leaves behind: less than the record. *)
Definition torn_tail (t : list byte) : Prop :=
  ∃ s k, Z.of_nat (length s) < 2 ^ 32 ∧ (k < length (frame s))%nat ∧ t = take k (frame s).

Lemma torn_nil : torn_tail [].
Proof. exists [], O. split; [done|]. split; [rewrite log_frame_length; lia|done]. Qed.

(** An entry that encodes and that the replay accepts. *)
Definition entry_written (e : EventLogEntry) : Prop :=
  is_ok (postcard_entry e) = true ∧ 0 < Z.of_nat (length (entry_bytes e)) <= MAX_ENTRY_LEN.

Lemma entry_written_ok e : entry_written e → postcard_entry e = Ok (entry_bytes e).
Proof. intros [He _]. unfold entry_bytes. by destruct (postcard_entry e). Qed.

Lemma replay_torn s k rest fuel offset idx n :
  Z.of_nat (length s) < 2 ^ 32 → (k <= length (frame s))%nat →
  ((4 <= k)%nat → (length rest < length (frame s) - k)%nat) → ((k < 4)%nat → rest = []) →
  replay_loop fuel (take k (frame s) ++ rest) offset idx n = (idx, n).
Proof.
  intros Hs Hk Hrest Hnil. destruct fuel as [|fuel]; [done|]. cbn [replay_loop].
  assert (length (take k (frame s)) = k) as Hlk by (rewrite length_take; lia).
  destruct (Nat.ltb_spec (length (take k (frame s) ++ rest)) 4) as [Hl|Hl]; [done|].
  rewrite length_app, Hlk in Hl.
  destruct (Nat.ltb_spec k 4) as [Hk4|Hk4]; [rewrite (Hnil Hk4) in Hl; simpl in Hl; lia|].
  assert (take 4 (take k (frame s) ++ rest) = be_bytes 4 (Z.of_nat (length s))) as ->.
  { rewrite take_app_le by lia. rewrite take_take, Nat.min_l by lia.
    by rewrite <- (app_nil_r (frame s)), take_frame. }
  rewrite frame_len_value by done. destruct (_ || _); [done|].
  destruct (Z.ltb_spec (Z.of_nat (length (drop 4 (take k (frame s) ++ rest)))) (Z.of_nat (length s))) as [|Hx];
    [done|].
  exfalso. rewrite length_drop, length_app, Hlk in Hx. specialize (Hrest Hk4). rewrite log_frame_length in *. lia.
Qed.

Lemma replay_frame e rest fuel offset idx n : entry_written e →
  replay_loop (S fuel) (frame (entry_bytes e) ++ rest) offset idx n =
  replay_loop fuel rest (offset + Z.of_nat (length (frame (entry_bytes e))))
    (<[le_event_id e := offset]> idx) (Z.max n (wrap_u64 (le_sequence e + 1))).
Proof.
  intros He. pose proof (entry_written_ok _ He) as Hok. destruct He as [_ Hlen].
  assert (Z.of_nat (length (entry_bytes e)) < 2 ^ 32) as H32 by (unfold MAX_ENTRY_LEN in Hlen; lia).
  cbn [replay_loop]. rewrite length_app, log_frame_length.
  destruct (Nat.ltb_spec (4 + length (entry_bytes e) + length rest) 4); [lia|].
  rewrite take_frame, frame_len_value by done.
  destruct (Z.eqb_spec (Z.of_nat (length (entry_bytes e))) 0); [lia|].
  destruct (Z.ltb_spec MAX_ENTRY_LEN (Z.of_nat (length (entry_bytes e)))); [lia|]. simpl orb. cbv iota.
  rewrite drop_frame, length_app.
  destruct (Z.ltb_spec (Z.of_nat (length (entry_bytes e) + length rest)) (Z.of_nat (length (entry_bytes e)))); [lia|].
  rewrite Nat2Z.id, take_app_length, (postcard_ok _ _ Hok), <- drop_drop, drop_frame, drop_app_length.
  f_equal. lia.
Qed.

Lemma log_bytes_cons e es : log_bytes (e :: es) = frame (entry_bytes e) ++ log_bytes es.
Proof. done. Qed.

(** Replaying entries and what is left of one more gives the entries. *)
Lemma replay_entries es : Forall entry_written es → ∀ rest fuel offset idx n,
  (length es <= fuel)%nat →
  replay_loop fuel (log_bytes es ++ rest) offset idx n =
  replay_loop (fuel - length es) rest (offset + Z.of_nat (length (log_bytes es))) (index_from offset idx es)
    (next_sequence n es).
Proof.
  induction 1 as [|e es He Hes IH]; intros rest fuel offset idx n Hf.
  - simpl. rewrite Nat.sub_0_r, Z.add_0_r. done.
  - destruct fuel as [|fuel]; [simpl in Hf; lia|].
    rewrite log_bytes_cons, <- app_assoc, replay_frame by done. rewrite IH by (simpl in Hf; lia).
    cbn [length Nat.sub index_from]. f_equal. rewrite length_app. lia.
Qed.

Lemma log_bytes_length es : Forall entry_written es → (length es <= length (log_bytes es))%nat.
Proof.
  induction 1 as [|e es He Hes IH]; [done|]. rewrite log_bytes_cons, length_app, log_frame_length. simpl. lia.
Qed.

Lemma log_bytes_snoc es e : log_bytes (es ++ [e]) = log_bytes es ++ frame (entry_bytes e).
Proof. unfold log_bytes. rewrite fmap_app, concat_app. simpl. by rewrite app_nil_r. Qed.

Lemma index_from_snoc es e : ∀ o idx,
  index_from o idx (es ++ [e]) =
  <[le_event_id e := o + Z.of_nat (length (log_bytes es))]> (index_from o idx es).
Proof.
  induction es as [|x es IH]; intros o idx; [simpl; by rewrite Z.add_0_r|]. cbn [app index_from]. rewrite IH.
  rewrite log_bytes_cons, length_app. f_equal. lia.
Qed.

Lemma next_sequence_snoc n es e :
  next_sequence n (es ++ [e]) = Z.max (next_sequence n es) (wrap_u64 (le_sequence e + 1)).
Proof. unfold next_sequence. by rewrite foldl_app. Qed.

(** A file without remains of failed writes. *)
Definition log_clean (l : EventLog) (es : list EventLogEntry) : Prop :=
  el_open l = true ∧ Forall entry_written es ∧ lf_bytes (el_file l) = log_bytes es ∧
  el_index l = index_from 0 ∅ es.

Lemma index_holds l es : el_open l = true → Forall entry_written es →
  el_index l = index_from 0 ∅ es → (∃ t, lf_bytes (el_file l) = log_bytes es ++ t) →
  log_holds l (entries_map es).
Proof.
  intros Ho Hes Hi [t Hb]. split; [done|]. rewrite Hi. unfold entry_at. rewrite Hb. clear Hi Hb Ho. revert t.
  induction es as [|e es IH] using rev_ind; intros t; 
    [split; [done|]; intros id e; change (entries_map []) with (∅ : gmap EventId EventLogEntry);
     by rewrite lookup_empty|].
  apply Forall_app in Hes as [Hes He]. apply Forall_cons_1 in He as [He _].
  destruct (IH Hes (frame (entry_bytes e) ++ t)) as [Hd Hat].
  rewrite index_from_snoc, entries_map_snoc, !dom_insert_L, Hd, log_bytes_snoc, <- app_assoc. split; [done|].
  intros id e'. rewrite lookup_insert_Some. intros [[<- <-]|[Hne Hm]].
  - split; [done|]. eexists. rewrite lookup_insert_eq. split; [done|].
    exists (entry_bytes e). split; [by apply entry_written_ok|]. rewrite app_assoc. apply frame_at_app, frame_at_end.
    destruct He as [_ He]. unfold MAX_ENTRY_LEN in He. lia.
  - rewrite lookup_insert_ne by done. by apply Hat.
Qed.

(** Opening a file of entries, the last of which may have been cut short. *)
Lemma reopen_entries f c es t : Forall entry_written es → torn_tail t →
  ∃ l, event_log_new None f c (log_bytes es ++ t) = Ok l ∧ log_holds l (entries_map es) ∧
    lf_bytes (el_file l) = log_bytes es ++ t ∧ el_index l = index_from 0 ∅ es ∧
    el_sequence l = next_sequence 0 es.
Proof.
  intros Hes (s & k & Hs & Hk & ->). unfold event_log_new.
  assert (replay_from_file (log_bytes es ++ take k (frame s)) ∅ 0 = (index_from 0 ∅ es, next_sequence 0 es)) as Hr.
  { unfold replay_from_file. pose proof (log_bytes_length _ Hes). rewrite length_app.
    rewrite replay_entries by (done || lia). rewrite <- (app_nil_r (take k (frame s))) at 2.
    apply replay_torn; [done|lia| |done]. change (length []) with 0%nat. lia. }
  assert ((if (0 <? length (log_bytes es ++ take k (frame s)))%nat
    then replay_from_file (log_bytes es ++ take k (frame s)) ∅ 0 else (∅, 0)) =
    (index_from 0 ∅ es, next_sequence 0 es)) as ->.
  { destruct (Nat.ltb_spec 0 (length (log_bytes es ++ take k (frame s)))) as [|H0]; [done|].
    destruct es as [|e es]; [done|]. pose proof (log_bytes_length _ Hes). rewrite length_app in H0. simpl in *. lia. }
  eexists. split; [done|]. split; [|done]. apply index_holds; [done..|]. by eexists.
Qed.
End EventLogFacts.

(** ** Runs *)

Inductive log_op : Type :=
| LogAppend (io : WriteIo) (now : Z) (id : EventId) (payload : list byte)
| LogAppendBlob (io : WriteIo) (now : Z) (id : EventId) (b : BlobRef).

Definition op_io (op : log_op) : WriteIo :=
  match op with LogAppend io _ _ _ | LogAppendBlob io _ _ _ => io end.

Definition op_entry (op : log_op) (sequence : Z) : EventLogEntry :=
  match op with
  | LogAppend _ now id payload => log_entry_new now id sequence payload
  | LogAppendBlob _ now id b => log_entry_with_blob_ref now id sequence b
  end.

Definition run_log_op `{EntryPostcard} (op : log_op) : M EventLog DbError Z :=
  match op with
  | LogAppend io now id payload => el_append io now id payload
  | LogAppendBlob io now id b => append_with_blob io now id b
  end.

(** The log after the operations, and the entries whose append succeeded. *)
Fixpoint run_log `{EntryPostcard} (ops : list log_op) (l : EventLog) (es : list EventLogEntry)
    : EventLog * list EventLogEntry :=
  match ops with
  | [] => (l, es)
  | op :: ops =>
      let '(l', r) := run_log_op op l in
      run_log ops l' (match r with Ok sequence => es ++ [op_entry op sequence] | Err _ => es end)
  end.

(** A write that fails without leaving anything behind, or does not fail. *)
Definition io_clean (io : WriteIo) : Prop :=
  wi_seek io ≠ None ∨ (wi_write io = None ∧ wi_sync io = None).

Section EventLogRuns.
Context `{EntryPostcard}.
Context (postcard_ok : ∀ e s, postcard_entry e = Ok s → postcard_parse_entry s = Ok e).

Definition op_fits (op : log_op) : Prop := ∀ sequence, entry_fits (op_entry op sequence).

Lemma run_log_op_eq op l :
  run_log_op op l =
  match write_entry (op_io op) (op_entry op (el_sequence l)) (set_sequence (wrap_u64 (el_sequence l + 1)) l) with
  | (l', Ok _) => (l', Ok (el_sequence l))
  | (l', Err e) => (l', Err e)
  end.
Proof. destruct op; by unfold run_log_op, el_append, append_with_blob; rewrite !run_bind; simpl; rewrite run_bind. Qed.

(** What holds of a log after [n] operations. *)
Record log_inv (n : Z) (l : EventLog) (es : list EventLogEntry) : Prop := {
  inv_holds : log_holds l (entries_map es);
  inv_written : Forall entry_written es;
  inv_sequence : el_sequence l = n;
  inv_below : Forall (λ e, 0 <= le_sequence e < n) es;
  inv_sorted : StronglySorted Z.lt (le_sequence <$> es);
}.

Lemma write_entry_ok io e l l' r : write_entry io e l = (l', Ok r) → is_ok (postcard_entry e) = true.
Proof. unfold write_entry. by destruct (postcard_entry e). Qed.

Lemma op_sequence op n : le_sequence (op_entry op n) = n.
Proof. by destruct op. Qed.

Lemma StronglySorted_snoc_lt (l : list Z) x :
  StronglySorted Z.lt l → Forall (λ y, y < x) l → StronglySorted Z.lt (l ++ [x]).
Proof.
  induction 1 as [|y l Hl IH Hy]; simpl; intros Hx; [repeat constructor|].
  apply Forall_cons in Hx as [Hyx Hx]. constructor; [by apply IH|]. apply Forall_app. by repeat constructor.
Qed.

Lemma log_op_inv n op l es l' r : 0 <= n → n + 1 < 2 ^ 64 → log_inv n l es → op_fits op →
  run_log_op op l = (l', r) →
  log_inv (n + 1) l' (match r with Ok q => es ++ [op_entry op q] | Err _ => es end).
Proof.
  intros Hn0 Hn [Hh Hw Hs Hb Hsort] Hfit. rewrite run_log_op_eq, Hs, (wrap_u64_small (n + 1)) by (split; lia).
  assert (log_holds (set_sequence (n + 1) l) (entries_map es)) as Hh' by done.
  assert (Forall (λ e, 0 <= le_sequence e < n + 1) es) as Hb'.
  { eapply Forall_impl; [exact Hb|]. simpl. lia. }
  destruct (write_entry _ _ _) as [l1 r1] eqn:Hwr. pose proof (write_entry_holds _ _ _ _ _ _ Hh' (Hfit n) Hwr) as [Hh1 Hs1].
  destruct r1 as [[]|d]; intros [= <- <-]; simpl in Hh1.
  - pose proof (write_entry_ok _ _ _ _ _ Hwr) as Hok.
    assert (postcard_entry (op_entry op n) = Ok (entry_bytes (op_entry op n))) as He.
    { unfold entry_bytes. by destruct (postcard_entry _). }
    split; [by rewrite entries_map_snoc| |by rewrite Hs1| |].
    + apply Forall_app. split; [done|]. constructor; [|done]. split; [done|]. by apply (Hfit n).
    + apply Forall_app. split; [done|]. constructor; [|done]. rewrite op_sequence. lia.
    + rewrite fmap_app. simpl. rewrite op_sequence. apply StronglySorted_snoc_lt; [done|].
      apply Forall_fmap. eapply Forall_impl; [exact Hb|]. simpl. lia.
  - by split.
Qed.

Lemma run_log_inv ops : ∀ n l es l' es', 0 <= n → n + Z.of_nat (length ops) < 2 ^ 64 → log_inv n l es →
  Forall op_fits ops → run_log ops l es = (l', es') → log_inv (n + Z.of_nat (length ops)) l' es'.
Proof.
  induction ops as [|op ops IH]; intros n l es l' es' Hn0 Hn Hi Hf; cbn [run_log length].
  - intros [= <- <-]. by rewrite Z.add_0_r.
  - cbn [length] in Hn. apply Forall_cons in Hf as [Hop Hf].
    replace (n + Z.of_nat (S (length ops))) with (n + 1 + Z.of_nat (length ops)) in * by lia.
    destruct (run_log_op op l) as [l1 r] eqn:Hr. apply IH; [lia|lia| |done]. eapply log_op_inv; [done|lia|done..].
Qed.

(** Without remains, the file is the encoding of the entries. *)
Lemma log_op_clean op l es l' r : io_clean (op_io op) → el_open l = true →
  lf_bytes (el_file l) = log_bytes es → el_index l = index_from 0 ∅ es → run_log_op op l = (l', r) →
  let es' := match r with Ok q => es ++ [op_entry op q] | Err _ => es end in
  el_open l' = true ∧ lf_bytes (el_file l') = log_bytes es' ∧ el_index l' = index_from 0 ∅ es'.
Proof.
  intros Hio Ho Hb Hi. rewrite run_log_op_eq. unfold write_entry.
  destruct (postcard_entry _) as [s|m] eqn:Hs; [|by intros [= <- <-]].
  cbn [set_sequence el_open]. rewrite Ho. cbn [negb el_file el_config].
  assert (s = entry_bytes (op_entry op (el_sequence l))) as -> by (unfold entry_bytes; by rewrite Hs).
  unfold append_frame. destruct Hio as [Hseek|[-> ->]].
  - destruct (wi_seek (op_io op)); [|done]. by intros [= <- <-].
  - destruct (wi_seek (op_io op)); intros [= <- <-]; [done|]. simpl.
    by rewrite Hb, Hi, log_bytes_snoc, index_from_snoc.
Qed.

Lemma run_log_clean ops : ∀ l es l' es', Forall (λ op, io_clean (op_io op)) ops → el_open l = true →
  lf_bytes (el_file l) = log_bytes es → el_index l = index_from 0 ∅ es → run_log ops l es = (l', es') →
  lf_bytes (el_file l') = log_bytes es' ∧ el_index l' = index_from 0 ∅ es'.
Proof.
  induction ops as [|op ops IH]; intros l es l' es' Hio Ho Hb Hi; simpl; [by intros [= <- <-]|].
  apply Forall_cons in Hio as [Hop Hio]. destruct (run_log_op op l) as [l1 r] eqn:Hr.
  destruct (log_op_clean _ _ _ _ _ Hop Ho Hb Hi Hr) as (Ho1 & Hb1 & Hi1). by apply IH.
Qed.

Lemma next_sequence_above n es : Forall (λ e, 0 <= le_sequence e < n) es → n < 2 ^ 64 →
  (0 <= n → 0 <= next_sequence 0 es <= n) ∧ ∀ e, e ∈ es → le_sequence e < next_sequence 0 es.
Proof.
  intros Hes Hn. induction es as [|x es IH] using rev_ind; [split; [done|]; by intros e He%elem_of_nil|].
  apply Forall_app in Hes as [Hes Hx]. apply Forall_cons_1 in Hx as [Hx _].
  destruct (IH Hes) as [H1 H2]. rewrite next_sequence_snoc, wrap_u64_small by (split; lia). split; [lia|].
  intros e [He|He%list_elem_of_singleton]%elem_of_app; [specialize (H2 e He); lia|subst; lia].
Qed.

(** ** The last entries of the events *)

Lemma entries_map_Some es id e : entries_map es !! id = Some e → le_event_id e = id ∧ e ∈ es.
Proof.
  induction es as [|x es IH] using rev_ind.
  - change (entries_map []) with (∅ : gmap EventId EventLogEntry). by rewrite lookup_empty.
  - rewrite entries_map_snoc, lookup_insert_Some, elem_of_app. intros [[<- <-]|[_ He]]; [set_solver|].
    destruct (IH He). auto.
Qed.

Lemma elem_of_entries_by_id es e :
  e ∈ entries_by_id (entries_map es) ↔ entries_map es !! le_event_id e = Some e.
Proof.
  unfold entries_by_id. rewrite list_elem_of_omap. unfold events_in_order. split.
  - intros (id & _ & He). by rewrite (proj1 (entries_map_Some _ _ _ He)).
  - intros He. exists (le_event_id e). split; [|done]. rewrite sort_by_perm, elem_of_elements. by apply elem_of_dom.
Qed.

Lemma NoDup_entries_by_id es : NoDup (entries_by_id (entries_map es)).
Proof.
  apply (NoDup_fmap_1 le_event_id). unfold entries_by_id.
  assert (∀ ids : list EventId, (∀ id, id ∈ ids → is_Some (entries_map es !! id)) →
    le_event_id <$> omap (λ id, entries_map es !! id) ids = ids) as Hmap.
  { induction ids as [|id ids IH]; intros Hids; [done|]. simpl. destruct (Hids id) as [e He]; [set_solver|].
    rewrite He. simpl. rewrite (proj1 (entries_map_Some _ _ _ He)). f_equal. apply IH. set_solver. }
  unfold events_in_order. rewrite Hmap; [rewrite sort_by_perm; apply NoDup_elements|].
  intros id. rewrite sort_by_perm, elem_of_elements. apply elem_of_dom.
Qed.

Lemma NoDup_sorted_sequences es : StronglySorted Z.lt (le_sequence <$> es) → NoDup (le_sequence <$> es).
Proof.
  generalize (le_sequence <$> es) as zs. induction 1 as [|z zs Hs IH Hz]; constructor; [|done].
  intros Hx. rewrite Forall_forall in Hz. specialize (Hz z Hx). lia.
Qed.

Lemma NoDup_fmap_inj_on {A B} (f : A → B) (l : list A) x y : NoDup (f <$> l) → x ∈ l → y ∈ l → f x = f y → x = y.
Proof.
  intros Hnd [i Hi]%list_elem_of_lookup [j Hj]%list_elem_of_lookup Hf.
  assert (i = j) as ->; [|congruence]. eapply (NoDup_lookup (f <$> l)); [done|..].
  - rewrite list_lookup_fmap, Hi. done.
  - rewrite list_lookup_fmap, Hj. simpl. by rewrite Hf.
Qed.

Lemma sequences_by_key es : StronglySorted Z.lt (le_sequence <$> es) →
  StronglySorted (λ a b, by_key le_sequence a b = true) es.
Proof.
  induction es as [|x es IH]; [constructor|]. rewrite fmap_cons. inversion 1 as [|?? Hs Hx]; subst.
  constructor; [by apply IH|]. rewrite Forall_fmap in Hx. eapply Forall_impl; [exact Hx|].
  intros y. unfold by_key. simpl. rewrite Z.leb_le. lia.
Qed.

(** Sorted by their distinct sequence numbers, the last entries of the events
    are those of the log in its order. *)
Lemma sorted_entries P es : StronglySorted Z.lt (le_sequence <$> es) →
  sort_by (by_key le_sequence) (retain P (entries_by_id (entries_map es))) =
  retain (λ e, P e && bool_decide (entries_map es !! le_event_id e = Some e)) es.
Proof.
  intros Hsort. pose proof (NoDup_sorted_sequences _ Hsort) as Hnd.
  apply (StronglySorted_unique_strong (λ a b, by_key le_sequence a b = true)).
  - intros x y. rewrite sort_by_perm, !elem_of_retain, elem_of_entries_by_id. unfold by_key. rewrite !Z.leb_le.
    intros [Hx _] [Hy _] Hxy Hyx. eapply (NoDup_fmap_inj_on le_sequence); [exact Hnd| |exact Hy|lia].
    by apply (entries_map_Some es (le_event_id x)).
  - apply sort_by_sorted, _.
  - by apply StronglySorted_retain, sequences_by_key.
  - rewrite sort_by_perm. apply NoDup_Permutation.
    + apply NoDup_retain, NoDup_entries_by_id.
    + by apply NoDup_retain, (NoDup_fmap_1 le_sequence).
    + intros e. rewrite !elem_of_retain, elem_of_entries_by_id, andb_true_iff, bool_decide_eq_true.
      split; [|naive_solver]. intros [He HP]. split; [|done]. by apply (entries_map_Some es (le_event_id e)).
Qed.

(** ** The specification *)

Lemma event_log_empty f c l : event_log_new None f c [] = Ok l → log_inv 0 l [].
Proof.
  intros [= <-]. split; [|constructor|done|constructor|constructor]. split; [done|]. split; [done|].
  intros id e. change (entries_map []) with (∅ : gmap EventId EventLogEntry). by rewrite lookup_empty.
Qed.

(** ** Restarts over remains of failed writes *)

(** The replay only adds to the index and to the sequence number. *)
Lemma replay_grows fuel : ∀ rest offset idx n,
  dom idx ⊆ dom (replay_loop fuel rest offset idx n).1 ∧ n <= (replay_loop fuel rest offset idx n).2.
Proof.
  induction fuel as [|fuel IH]; intros rest offset idx n; cbn [replay_loop]; [done|].
  repeat case_match; try done. match goal with |- context [replay_loop fuel ?r ?o ?i ?m] => destruct (IH r o i m) as [Hd Hn] end.
  split; [|lia]. rewrite dom_insert_L in Hd. set_solver.
Qed.

(** An entry can be read at every offset the index leads to. *)
Definition index_reads (b : list byte) (idx : gmap EventId Z) : Prop :=
  ∀ id o, idx !! id = Some o → ∃ s e, frame_at b o s ∧ postcard_parse_entry s = Ok e ∧ le_event_id e = id.

Lemma frame_parts (rest : list byte) : let n := from_be_bytes (take 4 rest) in
  (4 <= length rest)%nat → 0 <= n <= Z.of_nat (length (drop 4 rest)) →
  ∃ t, rest = frame (take (Z.to_nat n) (drop 4 rest)) ++ t ∧ length (take (Z.to_nat n) (drop 4 rest)) = Z.to_nat n.
Proof.
  intros n H4 Hn. assert (Hl : length (take (Z.to_nat n) (drop 4 rest)) = Z.to_nat n) by (rewrite length_take; lia).
  exists (drop (Z.to_nat n) (drop 4 rest)). split; [|done]. unfold frame. rewrite Hl, Z2Nat.id by lia. unfold n.
  assert (Hb : be_bytes 4 (from_be_bytes (take 4 rest)) = take 4 rest).
  { rewrite <- (be_from_bytes (take 4 rest)) at 2. by rewrite length_take, Nat.min_l by lia. }
  rewrite Hb, <- app_assoc, take_drop. symmetry. apply take_drop.
Qed.

Lemma replay_reads fuel : ∀ pre rest idx n, index_reads (pre ++ rest) idx →
  index_reads (pre ++ rest) (replay_loop fuel rest (Z.of_nat (length pre)) idx n).1.
Proof.
  induction fuel as [|fuel IH]; intros pre rest idx n Hi; cbn [replay_loop]; [done|].
  destruct (Nat.ltb_spec (length rest) 4) as [|H4]; [done|]. set (k := from_be_bytes (take 4 rest)).
  destruct (Z.eqb_spec k 0) as [|Hk0]; [done|]. destruct (Z.ltb_spec MAX_ENTRY_LEN k) as [|Hkm]; [done|]. simpl orb. cbv iota.
  destruct (Z.ltb_spec (Z.of_nat (length (drop 4 rest))) k) as [|Hk]; [done|].
  assert (0 <= k) as Hk' by apply from_be_bytes_range.
  destruct (frame_parts rest H4 (conj Hk' Hk)) as (t & Ht & Hl). fold k in Ht, Hl. set (s := take (Z.to_nat k) (drop 4 rest)) in *.
  destruct (postcard_parse_entry s) as [e|] eqn:He; [|done].
  assert (Hd : drop (4 + Z.to_nat k) rest = t).
  { rewrite Ht. apply drop_app_length'. rewrite log_frame_length. lia. }
  rewrite Hd. replace (Z.of_nat (length pre) + (4 + k)) with (Z.of_nat (length (pre ++ frame s)))
    by (rewrite length_app, log_frame_length; lia).
  assert (Hb : pre ++ rest = (pre ++ frame s) ++ t) by (by rewrite <- app_assoc, <- Ht).
  rewrite Hb. apply IH. rewrite <- Hb. intros id o [[<- <-]|[_ Ho]]%lookup_insert_Some; [|by apply Hi].
  exists s, e. split; [|done]. rewrite Hb. apply frame_at_app, frame_at_end. unfold MAX_ENTRY_LEN in Hkm. lia.
Qed.

(** A restart on a file that starts with entries finds all of their events. *)
Lemma reopen_prefix f c es t : Forall entry_written es →
  ∃ l, event_log_new None f c (log_bytes es ++ t) = Ok l ∧ next_sequence 0 es <= current_sequence l ∧
    ∀ e, e ∈ es → ∃ e' l', el_read_event None (le_event_id e) l = (l', Ok (Some e')) ∧ le_event_id e' = le_event_id e.
Proof.
  intros Hes. set (b := log_bytes es ++ t).
  assert (Hr : ∃ idx n, (if (0 <? length b)%nat then replay_from_file b ∅ 0 else (∅, 0)) = (idx, n) ∧
    dom (index_from 0 ∅ es) ⊆ dom idx ∧ next_sequence 0 es <= n ∧ index_reads b idx).
  { destruct (Nat.ltb_spec 0 (length b)) as [Hb|Hb].
    - destruct (replay_from_file b ∅ 0) as [idx n] eqn:E. exists idx, n. split; [done|]. unfold replay_from_file in E.
      split; [|split].
      3: { change idx with (idx, n).1. rewrite <- E. apply (replay_reads _ [] b). by intros id o; rewrite lookup_empty. }
      all: pose proof (log_bytes_length _ Hes); unfold b in E; rewrite length_app, (replay_entries postcard_ok) in E by (done || lia).
      all: match type of E with replay_loop ?fuel ?r ?o ?i ?m = _ => destruct (replay_grows fuel r o i m) as [Hd Hn] end.
      all: by rewrite E in Hd, Hn.
    - assert (es = []) as ->.
      { destruct es; [done|]. pose proof (log_bytes_length _ Hes). unfold b in Hb. rewrite length_app in Hb. simpl in *. lia. }
      exists ∅, 0. by repeat split. }
  destruct Hr as (idx & n & Hr & Hd & Hn & Hi). unfold event_log_new. rewrite Hr. eexists. split; [done|]. split; [exact Hn|].
  intros e He. assert (is_Some (idx !! le_event_id e)) as [o Ho].
  { apply elem_of_dom, Hd. clear -He. induction es as [|x es IH] using rev_ind; [by apply elem_of_nil in He|].
    rewrite index_from_snoc, dom_insert_L. apply elem_of_app in He as [He|He%list_elem_of_singleton]; [|subst; set_solver].
    specialize (IH He). set_solver. }
  destruct (Hi _ _ Ho) as (r & e' & Hf & Hp & Hid). unfold el_read_event. simpl. rewrite Ho.
  unfold log_read_at_offset. rewrite run_bind. simpl. destruct (read_frame_at _ _ _ (Hf : frame_at (lf_bytes (log_file_open b)) o r)) as (f' & -> & _).
  rewrite Hp. simpl. eauto.
Qed.

Lemma log_op_grows op l l' r : run_log_op op l = (l', r) → ∃ t, lf_bytes (el_file l') = lf_bytes (el_file l) ++ t.
Proof.
  rewrite run_log_op_eq. unfold write_entry. destruct (postcard_entry _) as [s|m]; [|intros [= <- <-]; exists []; by rewrite app_nil_r].
  simpl. destruct (el_open l); simpl; [|intros [= <- <-]; exists []; by rewrite app_nil_r].
  destruct (append_frame _ _ _ _) as [f' [o|d]] eqn:Hw; intros [= <- <-]; simpl;
    destruct (append_frame_spec _ _ _ _ _ _ Hw) as [[n Hf] _]; eauto.
Qed.

Lemma run_log_grows ops : ∀ l es l' es', run_log ops l es = (l', es') → ∃ t, lf_bytes (el_file l') = lf_bytes (el_file l) ++ t.
Proof.
  induction ops as [|op ops IH]; intros l es l' es'; simpl; [intros [= <- <-]; exists []; by rewrite app_nil_r|].
  destruct (run_log_op op l) as [l1 r] eqn:Hr. intros Hrun. destruct (log_op_grows _ _ _ _ Hr) as [t Ht].
  destruct (IH _ _ _ _ Hrun) as [t' Ht']. exists (t ++ t'). by rewrite Ht', Ht, app_assoc.
Qed.

Lemma run_log_app ops1 : ∀ ops2 l es, run_log (ops1 ++ ops2) l es = let '(l', es') := run_log ops1 l es in run_log ops2 l' es'.
Proof. induction ops1 as [|op ops1 IH]; intros ops2 l es; simpl; [done|]. destruct (run_log_op op l). apply IH. Qed.

(** C11. A log that starts empty and survives any sequence of appends of entries
    that encode within 10 MiB, of which some may fail part-way: while it is
    open each event reads as its last successful entry, and the entries since
    a sequence number are those in their order.  When no write failed part-way
    a restart, even in the middle of a further write, finds the same entries
    and numbers beyond theirs.  Otherwise a restart still finds every event
    that was appended before the first such failure, and numbers beyond
    theirs. *)
Theorem event_log_spec f c ops l0 l es :
  event_log_new None f c [] = Ok l0 → Forall op_fits ops → Z.of_nat (length ops) < 2 ^ 64 →
  run_log ops l0 [] = (l, es) →
  StronglySorted Z.lt (le_sequence <$> es) ∧
  (∀ id, ∃ l', el_read_event None id l = (l', Ok (entries_map es !! id))) ∧
  (∀ n, ∃ l', read_since None n l =
     (l', Ok (retain (λ e, (n <=? le_sequence e) && bool_decide (entries_map es !! le_event_id e = Some e)) es))) ∧
  (Forall (λ op, io_clean (op_io op)) ops → ∀ t, torn_tail t →
     ∃ l', event_log_new None f c (lf_bytes (el_file l) ++ t) = Ok l' ∧
       (∀ id, ∃ l'', el_read_event None id l' = (l'', Ok (entries_map es !! id))) ∧
       (∀ e, e ∈ es → le_sequence e < current_sequence l') ∧ current_sequence l' <= current_sequence l) ∧
  (∀ ops1 ops2, ops = ops1 ++ ops2 → Forall (λ op, io_clean (op_io op)) ops1 → ∀ t,
     ∃ l', event_log_new None f c (lf_bytes (el_file l) ++ t) = Ok l' ∧
       ∀ e, e ∈ (run_log ops1 l0 []).2 → le_sequence e < current_sequence l' ∧
         ∃ e' l'', el_read_event None (le_event_id e) l' = (l'', Ok (Some e')) ∧ le_event_id e' = le_event_id e).
Proof.
  intros H0 Hfit Hlen Hrun. pose proof (event_log_empty _ _ _ H0) as Hi0.
  pose proof (run_log_inv _ 0 _ _ _ _ ltac:(lia) Hlen Hi0 Hfit Hrun) as [Hh Hw Hs Hb Hsort]. rewrite Z.add_0_l in *.
  split; [done|]. split; [|split; [|split]].
  - intros id. destruct (read_event_holds postcard_ok _ _ id Hh) as (f' & Hr & _). eauto.
  - intros n. destruct (read_since_holds postcard_ok n _ _ Hh) as (f' & Hr & _).
    rewrite sorted_entries in Hr by done. eauto.
  - intros Hio t Ht. injection H0 as <-.
    apply run_log_clean in Hrun as [-> _]; [|done..].
    destruct (reopen_entries postcard_ok f c es t Hw Ht) as (l' & Hn & Hh' & _ & _ & Hs'). exists l'.
    destruct (next_sequence_above _ _ Hb Hlen) as [Hle Hlt]. unfold current_sequence. rewrite Hs', Hs.
    split; [done|]. split; [|split; [done|lia]].
    intros id. destruct (read_event_holds postcard_ok _ _ id Hh') as (f' & Hr & _). eauto.
  - intros ops1 ops2 -> Hio t. rewrite run_log_app in Hrun. destruct (run_log ops1 l0 []) as [l1 es1] eqn:Hrun1.
    rewrite length_app in Hlen. apply Forall_app in Hfit as [Hfit1 _].
    pose proof (run_log_inv ops1 0 _ _ _ _ ltac:(lia) ltac:(lia) Hi0 Hfit1 Hrun1) as [_ Hw1 _ Hb1 _]. rewrite Z.add_0_l in Hb1.
    destruct (run_log_grows _ _ _ _ _ Hrun) as [t' Ht']. injection H0 as <-.
    apply run_log_clean in Hrun1 as [Hl1 _]; [|done..]. rewrite Ht', Hl1, <- app_assoc.
    destruct (reopen_prefix f c es1 (t' ++ t) Hw1) as (l' & Hn & Hseq & Hread). exists l'. split; [done|]. intros e He.
    split; [|by apply Hread]. destruct (next_sequence_above _ _ Hb1 ltac:(lia)) as [_ Hlt]. specialize (Hlt e He). lia.
Qed.

(** ** Failed writes *)

(** An entry appended behind the remains of a failed write is gone after a
    restart, where the record cut short is longer than what follows it; its
    sequence number is given out again. *)
Theorem torn_write_loses_event f c es s k e :
  Forall entry_written es → Z.of_nat (length s) < 2 ^ 32 → (4 <= k)%nat →
  (k + length (frame (entry_bytes e)) < length (frame s))%nat → entries_map es !! le_event_id e = None →
  ∃ l l', event_log_new None f c (log_bytes es ++ take k (frame s) ++ frame (entry_bytes e)) = Ok l ∧
    el_read_event None (le_event_id e) l = (l', Ok None) ∧ current_sequence l = next_sequence 0 es.
Proof.
  intros Hes Hs Hk Hlen Hnone. unfold event_log_new.
  set (b := log_bytes es ++ take k (frame s) ++ frame (entry_bytes e)).
  assert (replay_from_file b ∅ 0 = (index_from 0 ∅ es, next_sequence 0 es)) as Hr.
  { unfold replay_from_file, b. pose proof (log_bytes_length _ Hes). rewrite !length_app.
    rewrite (replay_entries postcard_ok) by (done || lia). apply replay_torn; [done|lia|lia|lia]. }
  assert (0 < length b)%nat as Hb by (unfold b; rewrite !length_app, (log_frame_length (entry_bytes e)); lia).
  destruct (Nat.ltb_spec 0 (length b)); [|lia]. rewrite Hr. eexists _, _. split; [done|]. split; [|done].
  unfold el_read_event. simpl. assert (index_from 0 ∅ es !! le_event_id e = None) as ->; [|done].
  destruct (index_holds (set_index (index_from 0 ∅ es) 0 {| el_interface_id := f; el_config := c; el_open := true;
    el_file := log_file_open (log_bytes es); el_index := ∅; el_sequence := 0; el_offset := 0 |}) es) as (_ & Hd & _);
    [done|done|done|exists []; simpl; by rewrite app_nil_r|].
  apply not_elem_of_dom. simpl in Hd. rewrite Hd. by apply not_elem_of_dom.
Qed.

(** [append] accepts an entry that the replay does not: it and all after it
    are gone after a restart. *)
Theorem oversized_entry_stops_replay f c es e rest :
  Forall entry_written es → is_ok (postcard_entry e) = true →
  MAX_ENTRY_LEN < Z.of_nat (length (entry_bytes e)) < 2 ^ 32 →
  ∃ l, event_log_new None f c (log_bytes es ++ frame (entry_bytes e) ++ rest) = Ok l ∧
    el_index l = index_from 0 ∅ es ∧ current_sequence l = next_sequence 0 es.
Proof.
  intros Hes Hok Hlen. unfold event_log_new. set (b := log_bytes es ++ frame (entry_bytes e) ++ rest).
  assert (replay_from_file b ∅ 0 = (index_from 0 ∅ es, next_sequence 0 es)) as Hr.
  { unfold replay_from_file, b. pose proof (log_bytes_length _ Hes). rewrite !length_app.
    rewrite (replay_entries postcard_ok) by (done || lia).
    destruct (_ - length es)%nat as [|fuel]; [done|]. cbn [replay_loop].
    destruct (_ <? 4)%nat; [done|]. rewrite take_frame, frame_len_value by lia.
    destruct (Z.ltb_spec MAX_ENTRY_LEN (Z.of_nat (length (entry_bytes e)))); [by rewrite orb_true_r|lia]. }
  assert (0 < length b)%nat as Hb by (unfold b; rewrite !length_app, log_frame_length; lia).
  destruct (Nat.ltb_spec 0 (length b)); [|lia]. rewrite Hr. by eexists.
Qed.
End EventLogRuns.

(** ** Concurrent readers *)

(** [read_at_offset] holds the file's lock for reading only, and its clone of
    the handle shares the cursor: the steps of two readers interleave. *)
Inductive Reader : Type :=
| RdSeek (offset : Z)
| RdLen
| RdBody (n : nat)
| RdDone (r : Result (list byte) DbError).

Definition reader_step (r : Reader) (f : LogFile) : LogFile * Reader :=
  match r with
  | RdSeek o => ((seek_to o f).1, RdLen)
  | RdLen =>
      match read_exact 4 f with
      | (f', Ok b) => (f', RdBody (Z.to_nat (from_be_bytes b)))
      | (f', Err e) => (f', RdDone (Err e))
      end
  | RdBody n => let '(f', x) := read_exact n f in (f', RdDone x)
  | RdDone x => (f, RdDone x)
  end.

(** A schedule of two readers: [true] steps the first. *)
Fixpoint run_readers (sched : list bool) (a b : Reader) (f : LogFile) : LogFile * Reader * Reader :=
  match sched with
  | [] => (f, a, b)
  | true :: sched => let '(f', a') := reader_step a f in run_readers sched a' b f'
  | false :: sched => let '(f', b') := reader_step b f in run_readers sched a b' f'
  end.

(** One reader after the other reads as [read_frame] does. *)
Lemma reader_alone o b f :
  run_readers [true; true; true] (RdSeek o) b f = ((read_frame o f).1, RdDone (read_frame o f).2, b).
Proof.
  unfold run_readers, reader_step, read_frame, seek_to, modify. rewrite !run_bind. simpl.
  destruct (read_exact 4 _) as [f1 [l|e]]; simpl; [|done]. by destruct (read_exact _ f1).
Qed.

(** A second reader that seeks in between makes the first return its record. *)
Theorem concurrent_readers_mixed o o' s f : frame_at (lf_bytes f) o' s →
  ∃ f', run_readers [true; false; true; true] (RdSeek o) (RdSeek o') f = (f', RdDone (Ok s), RdLen).
Proof.
  intros Hf. assert (frame_at (lf_bytes (seek_to o f).1) o' s) as Hf1 by done.
  destruct (read_frame_at _ _ _ Hf1) as (f' & Hr & _). exists f'.
  unfold read_frame, seek_to, modify in Hr. rewrite !run_bind in Hr. simpl in Hr.
  unfold run_readers, reader_step, seek_to, modify. simpl.
  destruct (read_exact 4 _) as [f1 [l|e]]; simpl in *; [|done]. by rewrite Hr.
Qed.
