(* ===== verification/NodeLog.v ===== *)
(** * The node's event log

    Models [indras-storage/src/node_log]: one file of length-prefixed
    [postcard] entries for the whole node ([AppendLog]'s file), an index and
    the log's metadata in the redb database ([RedbStore]), and the chain of
    BLAKE3 hashes through the entries.  The [postcard] encodings are
    parameters; [now] is the clock in Unix milliseconds.  As in [AppendLog] every
    write is answered when it is made: an error that [tokio] reports only to
    the next call on the file is not modelled. *)

From S2P Require Import Prelude Bytes Packet Pending Bundle RelayConfig Wire BlobStore Documents RedbStore AppendLog.

Local Open Scope string_scope.
Local Open Scope Z_scope.
Local Open Scope list_scope.

(** ** Events and entries *)

Inductive NodeEvent : Type :=
| NodeStarted (identity_fingerprint : arr32)
| NodeStopped
| InterfaceCreated (interface_id : arr32) (name : option string)
| InterfaceJoined (interface_id : arr32)
| InterfaceLeft (interface_id : arr32)
| MemberAdded (interface_id : arr32) (peer_id : list byte)
| EventReceived (interface_id : arr32) (event_id : EventId) (sender : list byte) (payload_size : Z)
| SyncReceived (interface_id : arr32) (peer : list byte) (bytes_merged : Z)
| EventAckReceived (interface_id : arr32) (peer : list byte) (up_to : EventId)
| EventSent (interface_id : arr32) (event_id : EventId) (recipient : list byte)
| SyncSent (interface_id : arr32) (peer : list byte) (bytes_sent : Z)
| DtnHandoff (interface_id : arr32) (destination : list byte) (event_count : Z)
| DtnRelayed (bundle_id : string) (relay_peer destination : list byte)
| DtnDelivered (bundle_id : string) (destination : list byte)
| DtnReceived (bundle_id : string) (sender : list byte) (for_us : bool).

Record NodeLogEntry : Type := {
  ne_sequence : Z;
  ne_timestamp_millis : Z;
  ne_event : NodeEvent;
  ne_prev_hash : arr32;
}.

#[global] Instance NodeEvent_eq_dec : EqDecision NodeEvent.
Proof. solve_decision. Defined.

#[global] Instance NodeLogEntry_eq_dec : EqDecision NodeLogEntry.
Proof. solve_decision. Defined.

Record NodeLogMeta : Type := {
  nm_current_sequence : Z;
  nm_last_hash : arr32;
  nm_entry_count : Z;
  nm_file_size : Z;
  nm_last_snapshot_sequence : option Z;
}.

Class NodeLogPostcard : Type := {
  pc_node : NodeLogEntry → Result (list byte) string;
  pc_parse_node : list byte → Result NodeLogEntry string;
  pc_meta : NodeLogMeta → Result (list byte) string;
  pc_parse_meta : list byte → Result NodeLogMeta string;
}.

(** ** The log *)

Record NodeLog : Type := {
  nl_file : LogFile;
  nl_sequence : Z;
  nl_last_hash : arr32;
  nl_redb : RedbStorage;
}.

Definition nl_set_file (f : LogFile) (l : NodeLog) : NodeLog :=
  {| nl_file := f; nl_sequence := nl_sequence l; nl_last_hash := nl_last_hash l; nl_redb := nl_redb l |}.

Definition nl_set_redb (r : RedbStorage) (l : NodeLog) : NodeLog :=
  {| nl_file := nl_file l; nl_sequence := nl_sequence l; nl_last_hash := nl_last_hash l; nl_redb := r |}.

Definition nl_set_sequence (n : Z) (l : NodeLog) : NodeLog :=
  {| nl_file := nl_file l; nl_sequence := n; nl_last_hash := nl_last_hash l; nl_redb := nl_redb l |}.

Definition nl_set_last_hash (h : arr32) (l : NodeLog) : NodeLog :=
  {| nl_file := nl_file l; nl_sequence := nl_sequence l; nl_last_hash := h; nl_redb := nl_redb l |}.

Definition META_KEY : list byte := as_bytes "meta".

Section NodeLog.
Context `{NodeLogPostcard} `{Blake3}.

Definition on_redb {A} (m : M RedbStorage DbError A) : M NodeLog DbError A := zoom nl_redb nl_set_redb m.
Definition on_file {A} (m : M LogFile DbError A) : M NodeLog DbError A := zoom nl_file nl_set_file m.

(** Where the metadata says the log is. *)
Definition load_meta : M RedbStorage DbError (Z * arr32) :=
  o ← redb_get NODE_LOG_META META_KEY;
  match o with
  | Some v => meta ← pc_decoded (pc_parse_meta v); mret (nm_current_sequence meta, nm_last_hash meta)
  | None => mret (0, zeros32)
  end.

(** [NodeLog::open] on the bytes of the file and the database; [Some m] is a
    failure to create or open the file. *)
Definition node_log_open (os : option string) (b : list byte) (r : RedbStorage) : Result NodeLog DbError :=
  match os with
  | Some m => Err (DbIo m)
  | None =>
      match load_meta r with
      | (r', Ok (sequence, last_hash)) =>
          Ok {| nl_file := log_file_open b; nl_sequence := sequence; nl_last_hash := last_hash; nl_redb := r' |}
      | (_, Err e) => Err e
      end
  end.

Definition node_append (io : WriteIo) (now : Z) (event : NodeEvent) : M NodeLog DbError Z :=
  sequence ← gets nl_sequence;
  modify (nl_set_sequence (wrap_u64 (sequence + 1))) ;;
  prev ← gets nl_last_hash;
  serialized ← pc_encoded (pc_node {| ne_sequence := sequence; ne_timestamp_millis := now; ne_event := event;
                                   ne_prev_hash := prev |});
  offset ← on_file (append_frame io true serialized);
  on_redb (redb_put NODE_LOG_INDEX (be_bytes 8 sequence) (be_bytes 8 offset)) ;;
  meta ← pc_encoded (pc_meta {| nm_current_sequence := wrap_u64 (sequence + 1); nm_last_hash := blake3 serialized;
                             nm_entry_count := wrap_u64 (sequence + 1);
                             nm_file_size := offset + 4 + Z.of_nat (length serialized);
                             nm_last_snapshot_sequence := None |});
  on_redb (redb_put NODE_LOG_META META_KEY meta) ;;
  modify (nl_set_last_hash (blake3 serialized)) ;;
  mret sequence.

Definition node_read_at_offset (offset : Z) : M NodeLog DbError NodeLogEntry :=
  buf ← on_file (read_frame offset);
  pc_decoded (pc_parse_node buf).

Definition read_entry (sequence : Z) : M NodeLog DbError (option NodeLogEntry) :=
  o ← on_redb (redb_get NODE_LOG_INDEX (be_bytes 8 sequence));
  match o with
  | None => mret None
  | Some b =>
      if negb (length b =? 8)%nat then fail (DbDeserialization "invalid offset length")
      else e ← node_read_at_offset (from_be_bytes b); mret (Some e)
  end.

(** The loop of [read_since] over [seq..current]. *)
Fixpoint read_range (count : nat) (seq : Z) : M NodeLog DbError (list NodeLogEntry) :=
  match count with
  | O => mret []
  | S count =>
      o ← read_entry seq;
      rest ← read_range count (seq + 1);
      mret (match o with Some e => e :: rest | None => rest end)
  end.

Definition node_read_since (since : Z) : M NodeLog DbError (list NodeLogEntry) :=
  current ← gets nl_sequence;
  read_range (Z.to_nat (current - since)) since.

(** [entries.windows(2)]: each entry names the hash of the one before it. *)
Fixpoint verify_windows (es : list NodeLogEntry) : M NodeLog DbError bool :=
  match es with
  | a :: (b :: _) as rest =>
      s ← pc_encoded (pc_node a);
      if bool_decide (ne_prev_hash b = blake3 s) then verify_windows rest else mret false
  | _ => mret true
  end.

(** The first entry against the one before it, or as the genesis entry. *)
Definition verify_first (from : Z) (e : NodeLogEntry) : M NodeLog DbError bool :=
  if 0 <? from then
    o ← read_entry (from - 1);
    match o with
    | Some prev => s ← pc_encoded (pc_node prev); mret (bool_decide (ne_prev_hash e = blake3 s))
    | None => mret true
    end
  else mret (bool_decide (ne_prev_hash e = zeros32)).

Definition verify_chain (from to : Z) : M NodeLog DbError bool :=
  if to <? from then mret true
  else
    entries ← node_read_since from;
    match entries with
    | [] => mret true
    | e :: _ =>
        ok ← verify_first from e;
        if ok : bool then verify_windows entries else mret false
    end.
End NodeLog.

(** ** What the log holds *)

Section NodeLogFacts.
Context `{NodeLogPostcard} `{Blake3}.
Context (node_ok : ∀ e, ∃ v, pc_node e = Ok v ∧ pc_parse_node v = Ok e).
Context (meta_ok : ∀ m, ∃ v, pc_meta m = Ok v ∧ pc_parse_meta v = Ok m).

Definition enc_node (e : NodeLogEntry) : list byte := match pc_node e with Ok v => v | Err _ => [] end.
Definition enc_meta (m : NodeLogMeta) : list byte := match pc_meta m with Ok v => v | Err _ => [] end.

Lemma enc_node_ok e : pc_node e = Ok (enc_node e) ∧ pc_parse_node (enc_node e) = Ok e.
Proof. unfold enc_node. destruct (node_ok e) as (v & -> & Hv). done. Qed.

Lemma enc_meta_ok m : pc_meta m = Ok (enc_meta m) ∧ pc_parse_meta (enc_meta m) = Ok m.
Proof. unfold enc_meta. destruct (meta_ok m) as (v & -> & Hv). done. Qed.

Definition node_bytes (es : list NodeLogEntry) : list byte := concat ((λ e, frame (enc_node e)) <$> es).

Definition node_fits (e : NodeLogEntry) : Prop := Z.of_nat (length (enc_node e)) < 2 ^ 32.

(** The file is the entries, and the index leads to each of them. *)
Record node_indexed (l : NodeLog) (T : gmap string Table) (es : list NodeLogEntry) : Prop := {
  ni_redb : nl_redb l = db T;
  ni_bytes : lf_bytes (nl_file l) = node_bytes es;
  ni_sequence : nl_sequence l = Z.of_nat (length es);
  ni_fits : Forall node_fits es;
  ni_small : Z.of_nat (length es) < 2 ^ 64 ∧ Z.of_nat (length (node_bytes es)) < 2 ^ 64;
  ni_index : ∃ x, T !! NODE_LOG_INDEX = Some x ∧
    ∀ i : Z, 0 <= i < 2 ^ 64 →
      x !! be_bytes 8 i = if decide (i < Z.of_nat (length es))
                          then Some (be_bytes 8 (Z.of_nat (length (node_bytes (take (Z.to_nat i) es))))) else None;
}.

(** The hashes chain the entries from [h] on. *)
Fixpoint chain_from (h : arr32) (es : list NodeLogEntry) : Prop :=
  match es with [] => True | e :: es => ne_prev_hash e = h ∧ chain_from (blake3 (enc_node e)) es end.

Definition chain_end (h : arr32) (es : list NodeLogEntry) : arr32 :=
  foldl (λ _ e, blake3 (enc_node e)) h es.

Lemma chain_from_app h es es' : chain_from h (es ++ es') ↔ chain_from h es ∧ chain_from (chain_end h es) es'.
Proof. revert h. induction es as [|e es IH]; intros h; simpl; [naive_solver|]. rewrite IH. naive_solver. Qed.

Lemma node_bytes_app es es' : node_bytes (es ++ es') = node_bytes es ++ node_bytes es'.
Proof. unfold node_bytes. by rewrite fmap_app, concat_app. Qed.

Lemma node_bytes_one e : node_bytes [e] = frame (enc_node e).
Proof. unfold node_bytes. simpl. by rewrite app_nil_r. Qed.

Lemma node_bytes_take i es : (length (node_bytes (take i es)) <= length (node_bytes es))%nat.
Proof. rewrite <- (take_drop i es) at 2. rewrite node_bytes_app, length_app. lia. Qed.

Lemma node_frame_at es i e : Forall node_fits es → es !! i = Some e →
  frame_at (node_bytes es) (Z.of_nat (length (node_bytes (take i es)))) (enc_node e).
Proof.
  intros Hf He. assert (node_fits e) as Hfit by (rewrite Forall_lookup in Hf; by apply (Hf i)).
  rewrite <- (take_drop_middle es i e He) at 1. change (e :: drop (S i) es) with ([e] ++ drop (S i) es).
  rewrite !node_bytes_app, node_bytes_one, app_assoc. by apply frame_at_app, frame_at_end.
Qed.

(** Reading moves the cursor only. *)
Lemma node_indexed_file l T es f : node_indexed l T es → lf_bytes f = lf_bytes (nl_file l) →
  node_indexed (nl_set_file f l) T es.
Proof. intros [] Hf. split; try done. simpl. congruence. Qed.

Lemma read_entry_indexed l T es i : node_indexed l T es → 0 <= i < 2 ^ 64 →
  ∃ f, read_entry i l = (nl_set_file f l, Ok (es !! Z.to_nat i)) ∧ lf_bytes f = lf_bytes (nl_file l).
Proof.
  intros Hl Hi. destruct (ni_index _ _ _ Hl) as (x & Hx & Hlook). unfold read_entry, on_redb.
  rewrite run_bind, run_zoom, (ni_redb _ _ _ Hl), (get_db _ _ _ _ Hx), (Hlook i Hi). cbn [fst snd].
  assert (nl_set_redb (db T) l = l) as -> by (rewrite <- (ni_redb _ _ _ Hl); by destruct l).
  destruct (decide _) as [Hlt|Hge].
  - destruct (lookup_lt_is_Some_2 es (Z.to_nat i)) as [e He]; [lia|]. rewrite be_bytes_length. cbn [Nat.eqb negb].
    pose proof (node_frame_at _ _ _ (ni_fits _ _ _ Hl) He) as Hat. rewrite <- (ni_bytes _ _ _ Hl) in Hat.
    destruct (read_frame_at _ _ _ Hat) as (f & Hr & Hf). exists f. split; [|done].
    pose proof (node_bytes_take (Z.to_nat i) es). destruct (ni_small _ _ _ Hl) as [_ Hsm].
    unfold node_read_at_offset, on_file. rewrite !run_bind, run_zoom. cbn [fst snd].
    rewrite from_to_be_bytes, Z.mod_small by (change (256 ^ Z.of_nat 8) with (2 ^ 64); lia).
    rewrite Hr. unfold pc_decoded. simpl. rewrite (proj2 (enc_node_ok e)), He. done.
  - exists (nl_file l). split; [|done]. rewrite (lookup_ge_None_2 es (Z.to_nat i)) by lia. by destruct l.
Qed.

Lemma read_range_indexed count : ∀ l T es i, node_indexed l T es → 0 <= i → i + Z.of_nat count <= Z.of_nat (length es) →
  ∃ f, read_range count i l = (nl_set_file f l, Ok (take count (drop (Z.to_nat i) es))) ∧
    lf_bytes f = lf_bytes (nl_file l).
Proof.
  induction count as [|count IH]; intros l T es i Hl Hi Hc.
  - exists (nl_file l). split; [|done]. simpl. by destruct l.
  - destruct (ni_small _ _ _ Hl) as [Hsm _]. cbn [read_range].
    destruct (read_entry_indexed _ _ _ i Hl ltac:(lia)) as (f & Hr & Hf). rewrite (run_bind_ok _ _ _ _ _ Hr).
    destruct (IH _ _ _ (i + 1) (node_indexed_file _ _ _ _ Hl Hf) ltac:(lia) ltac:(lia)) as (f' & Hr' & Hf').
    rewrite (run_bind_ok _ _ _ _ _ Hr'). exists f'. split; [|by rewrite Hf'].
    destruct (lookup_lt_is_Some_2 es (Z.to_nat i)) as [e He]; [lia|]. rewrite He.
    rewrite (drop_S _ _ _ He). simpl. by replace (Z.to_nat (i + 1)) with (S (Z.to_nat i)) by lia.
Qed.

Lemma read_since_indexed l T es n : node_indexed l T es → 0 <= n →
  ∃ f, node_read_since n l = (nl_set_file f l, Ok (drop (Z.to_nat n) es)) ∧ lf_bytes f = lf_bytes (nl_file l).
Proof.
  intros Hl Hn. unfold node_read_since. rewrite run_gets_bind, (ni_sequence _ _ _ Hl).
  destruct (decide (n <= Z.of_nat (length es))) as [Hle|Hgt].
  - destruct (read_range_indexed (Z.to_nat (Z.of_nat (length es) - n)) _ _ _ n Hl Hn ltac:(lia)) as (f & Hr & Hf).
    exists f. split; [|done]. rewrite Hr. by rewrite take_ge by (rewrite length_drop; lia).
  - exists (nl_file l). split; [|done]. rewrite drop_ge by lia.
    replace (Z.to_nat (Z.of_nat (length es) - n)) with 0%nat by lia. by destruct l.
Qed.

(** ** Appending *)

Definition next_entry (l : NodeLog) (now : Z) (ev : NodeEvent) : NodeLogEntry :=
  {| ne_sequence := nl_sequence l; ne_timestamp_millis := now; ne_event := ev; ne_prev_hash := nl_last_hash l |}.

Definition next_meta (l : NodeLog) (e : NodeLogEntry) : NodeLogMeta :=
  {| nm_current_sequence := wrap_u64 (nl_sequence l + 1); nm_last_hash := blake3 (enc_node e);
     nm_entry_count := wrap_u64 (nl_sequence l + 1);
     nm_file_size := Z.of_nat (length (lf_bytes (nl_file l))) + 4 + Z.of_nat (length (enc_node e));
     nm_last_snapshot_sequence := None |}.

Definition index_added (l : NodeLog) (T : gmap string Table) : gmap string Table :=
  <[NODE_LOG_INDEX := <[be_bytes 8 (nl_sequence l) := be_bytes 8 (Z.of_nat (length (lf_bytes (nl_file l))))]>
                       (default ∅ (T !! NODE_LOG_INDEX))]> T.

Definition meta_added (m : NodeLogMeta) (T : gmap string Table) : gmap string Table :=
  <[NODE_LOG_META := <[META_KEY := enc_meta m]> (default ∅ (T !! NODE_LOG_META))]> T.

Definition file_added (e : NodeLogEntry) (f : LogFile) : LogFile :=
  {| lf_bytes := lf_bytes f ++ frame (enc_node e); lf_pos := length (lf_bytes f) + length (frame (enc_node e)) |}.

(** Executes the calls on the file and the database. *)
Ltac node_run :=
  cbv beta iota zeta delta
    [mbind M_bind mret M_ret on_file on_redb zoom append_frame io_ok wi_seek wi_write wi_sync nl_file nl_redb
     nl_set_file nl_set_redb nl_set_sequence nl_set_last_hash nl_sequence nl_last_hash redb_put next_fault
     modify db rd_faults rd_tables redb_set_table table_of tail].

(** Runs an append whose entry is [e]. *)
Ltac run_node_append e :=
  unfold node_append, pc_encoded; rewrite run_gets_bind, run_bind; cbn [modify]; rewrite run_gets_bind;
  match goal with |- context [pc_node ?x] => change x with e end;
  rewrite (proj1 (enc_node_ok e)), run_bind, run_ret; node_run;
  rewrite (proj1 (enc_meta_ok _)); by node_run.

Lemma node_append_ok now ev l T : nl_redb l = db T →
  let e := next_entry l now ev in
  node_append io_ok now ev l =
  ({| nl_file := file_added e (nl_file l); nl_sequence := wrap_u64 (nl_sequence l + 1);
      nl_last_hash := blake3 (enc_node e); nl_redb := db (meta_added (next_meta l e) (index_added l T)) |},
   Ok (nl_sequence l)).
Proof.
  intros HT e. destruct l as [f n h r]. simpl in HT. subst r. run_node_append e.
Qed.

(** The database fails to write the metadata. *)
Lemma node_append_meta_fails now ev l T m : nl_redb l = {| rd_tables := T; rd_faults := [None; Some m] |} →
  let e := next_entry l now ev in
  node_append io_ok now ev l =
  ({| nl_file := file_added e (nl_file l); nl_sequence := wrap_u64 (nl_sequence l + 1);
      nl_last_hash := nl_last_hash l; nl_redb := db (index_added l T) |}, Err (DbIo m)).
Proof.
  intros HT e. destruct l as [f n h r]. simpl in HT. subst r. run_node_append e.
Qed.

(** Both leave the file and the index in order. *)
Lemma node_indexed_snoc l l' T T' es e : node_indexed l T es → node_fits e →
  Z.of_nat (length es) + 1 < 2 ^ 64 → Z.of_nat (length (node_bytes (es ++ [e]))) < 2 ^ 64 →
  nl_redb l' = db T' → T' !! NODE_LOG_INDEX = index_added l T !! NODE_LOG_INDEX →
  lf_bytes (nl_file l') = lf_bytes (nl_file l) ++ frame (enc_node e) →
  nl_sequence l' = wrap_u64 (nl_sequence l + 1) → node_indexed l' T' (es ++ [e]).
Proof.
  intros Hl Hfit Hn Hb Hr HT Hf Hs. destruct Hl as [Hr0 Hb0 Hs0 Hf0 Hsm0 (x & Hx & Hlook)]. split.
  - done.
  - by rewrite Hf, Hb0, node_bytes_app, node_bytes_one.
  - rewrite Hs, Hs0, length_app. rewrite wrap_u64_small by (split; lia). simpl. lia.
  - apply Forall_app. by split; [|constructor].
  - rewrite length_app. split; [simpl; lia|done].
  - rewrite HT. unfold index_added. rewrite lookup_insert_eq, Hx, Hs0, Hb0. eexists. split; [done|].
    intros i Hi. rewrite length_app. cbn [length default from_option id].
    destruct (decide (i = Z.of_nat (length es))) as [->|Hne].
    + rewrite lookup_insert_eq, decide_True by lia. by rewrite Nat2Z.id, take_app_length.
    + rewrite lookup_insert_ne, (Hlook i Hi) by (intros ?%be_u64_inj; lia).
      destruct (decide (i < Z.of_nat (length es))).
      * rewrite decide_True by lia. by rewrite take_app_le by lia.
      * by rewrite decide_False by lia.
Qed.

(** ** The chain *)

Record node_chained (l : NodeLog) (T : gmap string Table) (es : list NodeLogEntry) : Prop := {
  nc_chain : chain_from zeros32 es;
  nc_last : nl_last_hash l = chain_end zeros32 es;
  nc_meta : ∃ y, T !! NODE_LOG_META = Some y ∧
    match y !! META_KEY with
    | None => es = []
    | Some v => ∃ m, v = enc_meta m ∧ nm_current_sequence m = Z.of_nat (length es) ∧
                     nm_last_hash m = chain_end zeros32 es
    end;
}.

Lemma node_append_holds now ev l T es :
  let e := next_entry l now ev in
  node_indexed l T es → node_chained l T es → node_fits e →
  Z.of_nat (length es) + 1 < 2 ^ 64 → Z.of_nat (length (node_bytes (es ++ [e]))) < 2 ^ 64 →
  ∃ l' T', node_append io_ok now ev l = (l', Ok (Z.of_nat (length es))) ∧ node_indexed l' T' (es ++ [e]) ∧
    node_chained l' T' (es ++ [e]).
Proof.
  intros e Hl Hc Hfit Hn Hb. eexists _, _. rewrite (node_append_ok _ _ _ _ (ni_redb _ _ _ Hl)). fold e.
  rewrite (ni_sequence _ _ _ Hl). split; [done|]. split.
  - eapply node_indexed_snoc; try done.
    + unfold meta_added. by rewrite lookup_insert_ne.
    + simpl. by rewrite (ni_sequence _ _ _ Hl).
  - destruct Hc as [Hch Hlast (y & Hy & Hm)]. split.
    + apply chain_from_app. split; [done|]. simpl. split; [by rewrite <- Hlast|done].
    + unfold chain_end. rewrite foldl_app. done.
    + unfold meta_added. rewrite lookup_insert_eq. eexists. split; [done|]. rewrite lookup_insert_eq.
      eexists. split; [done|]. simpl. rewrite (ni_sequence _ _ _ Hl), length_app, wrap_u64_small by (split; lia).
      split; [simpl; lia|]. unfold chain_end. by rewrite foldl_app.
Qed.

(** ** Verification *)

Fixpoint windows_ok (es : list NodeLogEntry) : bool :=
  match es with
  | a :: (b :: _) as rest => bool_decide (ne_prev_hash b = blake3 (enc_node a)) && windows_ok rest
  | _ => true
  end.

Lemma verify_windows_run es l : verify_windows es l = (l, Ok (windows_ok es)).
Proof.
  induction es as [|a [|b es] IH]; [done..|]. cbn [verify_windows windows_ok]. unfold pc_encoded.
  rewrite (proj1 (enc_node_ok a)), run_bind, run_ret. by case_bool_decide.
Qed.

Lemma windows_ok_chain e es : windows_ok (e :: es) = true ↔ chain_from (blake3 (enc_node e)) es.
Proof.
  revert e. induction es as [|b es IH]; intros e; [done|]. cbn [windows_ok chain_from].
  rewrite andb_true_iff, bool_decide_eq_true. by rewrite <- IH.
Qed.

Lemma chain_end_take es i prev h : es !! i = Some prev → chain_end h (take (S i) es) = blake3 (enc_node prev).
Proof. intros Hi. rewrite (take_S_r _ _ _ Hi). unfold chain_end. by rewrite foldl_app. Qed.

Lemma verify_first_run l T es from e : node_indexed l T es → 0 <= from → es !! Z.to_nat from = Some e →
  ∃ f b, verify_first from e l = (nl_set_file f l, Ok b) ∧ lf_bytes f = lf_bytes (nl_file l) ∧
    (b = true ↔ ne_prev_hash e = chain_end zeros32 (take (Z.to_nat from) es)).
Proof.
  intros Hl Hfrom He. pose proof (lookup_lt_Some _ _ _ He) as Hlt. destruct (ni_small _ _ _ Hl) as [Hsm _].
  unfold verify_first. destruct (Z.ltb_spec 0 from) as [Hpos|Hzero].
  - destruct (read_entry_indexed _ _ _ (from - 1) Hl ltac:(lia)) as (f & Hr & Hf). rewrite (run_bind_ok _ _ _ _ _ Hr).
    destruct (lookup_lt_is_Some_2 es (Z.to_nat (from - 1))) as [prev Hprev]; [lia|]. rewrite Hprev.
    unfold pc_encoded. rewrite (proj1 (enc_node_ok prev)), run_bind, run_ret, run_ret. eexists f, _. split; [done|].
    split; [done|]. rewrite bool_decide_eq_true. replace (Z.to_nat from) with (S (Z.to_nat (from - 1))) by lia.
    by rewrite (chain_end_take _ _ _ _ Hprev).
  - exists (nl_file l). eexists. rewrite run_ret. split; [by destruct l|]. split; [done|].
    rewrite bool_decide_eq_true. by replace (Z.to_nat from) with 0%nat by lia.
Qed.

(** The verification from an entry on succeeds when the entries from it on are
    chained to those before it, whatever [to] is. *)
Lemma verify_chain_run l T es from to : node_indexed l T es → 0 <= from <= to →
  ∃ f b, verify_chain from to l = (nl_set_file f l, Ok b) ∧
    (b = true ↔ chain_from (chain_end zeros32 (take (Z.to_nat from) es)) (drop (Z.to_nat from) es)).
Proof.
  intros Hl Hfrom. unfold verify_chain. destruct (Z.ltb_spec to from); [lia|].
  destruct (read_since_indexed _ _ _ from Hl ltac:(lia)) as (f & Hr & Hf). rewrite (run_bind_ok _ _ _ _ _ Hr).
  destruct (es !! Z.to_nat from) as [e|] eqn:He.
  - rewrite (drop_S _ _ _ He). cbn [chain_from]. pose proof (node_indexed_file _ _ _ _ Hl Hf) as Hl'.
    destruct (verify_first_run _ _ _ from e Hl' ltac:(lia) He) as (f' & b & Hv & Hf' & Hb).
    rewrite (run_bind_ok _ _ _ _ _ Hv). destruct b.
    + rewrite verify_windows_run. eexists f', _. split; [done|]. rewrite windows_ok_chain. naive_solver.
    + exists f', false. split; [done|]. naive_solver.
  - rewrite drop_ge by by apply lookup_ge_None. exists f, true. split; [done|]. done.
Qed.

(** The entries after [to] are verified too. *)
Lemma verify_chain_ignores_to from to to' l : from <= to → from <= to' → verify_chain from to l = verify_chain from to' l.
Proof. intros. unfold verify_chain. destruct (Z.ltb_spec to from), (Z.ltb_spec to' from); done || lia. Qed.

(** Two chains of one length that end in the same hash are the same, or two
    entries have one hash. *)
Theorem chain_determined h es es' :
  chain_from h es → chain_from h es' → length es = length es' → chain_end h es = chain_end h es' →
  es = es' ∨ ∃ a b, a ≠ b ∧ blake3 (enc_node a) = blake3 (enc_node b).
Proof.
  revert es'. induction es as [|a es IH] using rev_ind; intros es'.
  - intros _ _ Hlen _. left. symmetry. by apply length_zero_iff_nil.
  - destruct es' as [|b es' _] using rev_ind; [rewrite length_app; simpl; lia|].
    rewrite !chain_from_app, !length_app. simpl. intros (Hc & Ha & _) (Hc' & Hb & _) Hlen.
    unfold chain_end at 1 2. rewrite !foldl_app. simpl. intros Hend.
    destruct (decide (ne_prev_hash a = ne_prev_hash b)) as [Heq|Hne].
    + destruct (IH es' Hc Hc' ltac:(lia) ltac:(congruence)) as [->|?]; [|by right].
      destruct (decide (a = b)) as [->|Hab]; [by left|]. right. eauto.
    + right. exists a, b. split; [congruence|done].
Qed.

(** ** The specification *)

(** The entries that recording events makes, from a number and a hash on. *)
Fixpoint chain_entries (n : Z) (h : arr32) (evs : list (Z * NodeEvent)) : list NodeLogEntry :=
  match evs with
  | [] => []
  | (now, ev) :: evs =>
      let e := {| ne_sequence := n; ne_timestamp_millis := now; ne_event := ev; ne_prev_hash := h |} in
      e :: chain_entries (n + 1) (blake3 (enc_node e)) evs
  end.

Fixpoint node_appends (evs : list (Z * NodeEvent)) : M NodeLog DbError unit :=
  match evs with
  | [] => mret tt
  | (now, ev) :: evs => node_append io_ok now ev ;; node_appends evs
  end.

Lemma node_appends_holds evs : ∀ l T es,
  node_indexed l T es → node_chained l T es →
  let es' := es ++ chain_entries (Z.of_nat (length es)) (chain_end zeros32 es) evs in
  Forall node_fits es' → Z.of_nat (length es') < 2 ^ 64 → Z.of_nat (length (node_bytes es')) < 2 ^ 64 →
  ∃ l' T', node_appends evs l = (l', Ok tt) ∧ node_indexed l' T' es' ∧ node_chained l' T' es'.
Proof.
  induction evs as [|[now ev] evs IH]; intros l T es Hl Hc es' Hfits Hlen Hbytes; subst es'.
  - exists l, T. rewrite app_nil_r. done.
  - cbn [chain_entries] in *. rewrite <- (ni_sequence _ _ _ Hl), <- (nc_last _ _ _ Hc) in *.
    fold (next_entry l now ev) in *. set (e := next_entry l now ev) in *.
    rewrite cons_middle, app_assoc in *. apply Forall_app in Hfits as Hfe. destruct Hfe as [Hfe _].
    apply Forall_app in Hfe as [_ Hfe]. apply Forall_cons_1 in Hfe as [Hfe _].
    rewrite node_bytes_app, length_app in Hbytes. rewrite !length_app in Hlen. cbn [length] in Hlen.
    destruct (node_append_holds now ev l T es Hl Hc Hfe) as (l1 & T1 & Hr & Hl1 & Hc1); [lia|fold e; lia|].
    cbn [node_appends]. rewrite (run_bind_ok _ _ _ _ _ Hr). fold e in Hl1, Hc1.
    specialize (IH l1 T1 (es ++ [e]) Hl1 Hc1).
    replace (Z.of_nat (length (es ++ [e]))) with (nl_sequence l + 1) in IH
      by (rewrite (ni_sequence _ _ _ Hl), length_app; simpl; lia).
    replace (chain_end zeros32 (es ++ [e])) with (blake3 (enc_node e)) in IH
      by (unfold chain_end; by rewrite foldl_app).
    apply IH; [done| |]; rewrite ?node_bytes_app, ?length_app; cbn [length]; rewrite ?node_bytes_app, ?length_app in *; lia.
Qed.

(** A restart finds the log where it was. *)
Lemma node_reopen l T es : node_indexed l T es → node_chained l T es →
  ∃ l', node_log_open None (lf_bytes (nl_file l)) (db T) = Ok l' ∧ node_indexed l' T es ∧ node_chained l' T es.
Proof.
  intros Hl Hc. destruct (nc_meta _ _ _ Hc) as (y & Hy & Hm). unfold node_log_open, load_meta.
  rewrite run_bind, (get_db _ _ _ _ Hy).
  assert (∀ n h, n = Z.of_nat (length es) → h = chain_end zeros32 es →
    let l' := {| nl_file := log_file_open (lf_bytes (nl_file l)); nl_sequence := n; nl_last_hash := h; nl_redb := db T |} in
    node_indexed l' T es ∧ node_chained l' T es) as Hres.
  { intros n h -> -> l'. split.
    - destruct Hl. by split.
    - destruct Hc. by split. }
  destruct (y !! META_KEY) as [v|].
  - destruct Hm as (m & -> & Hn & Hh). unfold pc_decoded. rewrite (proj2 (enc_meta_ok m)), run_bind, run_ret, run_ret.
    eexists. split; [done|]. by apply Hres.
  - subst es. rewrite run_ret. eexists. split; [done|]. by apply Hres.
Qed.

Lemma node_observe l T es : node_indexed l T es → chain_from zeros32 es →
  (∀ i, 0 <= i < 2 ^ 64 → ∃ k', read_entry i l = (k', Ok (es !! Z.to_nat i))) ∧
  (∀ n, 0 <= n → ∃ k', node_read_since n l = (k', Ok (drop (Z.to_nat n) es))) ∧
  (∀ from to, 0 <= from <= to → ∃ k', verify_chain from to l = (k', Ok true)).
Proof.
  intros Hl Hc. split; [|split].
  - intros i Hi. destruct (read_entry_indexed _ _ _ i Hl Hi) as (f & Hr & _). eauto.
  - intros n Hn. destruct (read_since_indexed _ _ _ n Hl Hn) as (f & Hr & _). eauto.
  - intros from to Hft. destruct (verify_chain_run _ _ _ from to Hl Hft) as (f & b & Hr & Hb).
    rewrite Hr. rewrite (proj2 Hb); [eauto|]. rewrite <- (take_drop (Z.to_nat from) es) in Hc.
    by apply chain_from_app in Hc as [_ Hc].
Qed.

(** A new database has empty tables. *)
Lemma redb_open_fresh :
  ∃ T, redb_open None None (db ∅) = (db T, Ok tt) ∧ T !! NODE_LOG_INDEX = Some ∅ ∧ T !! NODE_LOG_META = Some ∅.
Proof.
  eexists. split; [reflexivity|]. split.
  all: by repeat first [rewrite lookup_insert_eq | rewrite lookup_insert_ne by done].
Qed.

Lemma node_open_fresh T : T !! NODE_LOG_INDEX = Some ∅ → T !! NODE_LOG_META = Some ∅ →
  ∃ l, node_log_open None [] (db T) = Ok l ∧ node_indexed l T [] ∧ node_chained l T [].
Proof.
  intros Hi Hm. unfold node_log_open, load_meta. rewrite run_bind, (get_db _ _ _ _ Hm), lookup_empty, run_ret.
  eexists. split; [done|]. split; split; try done.
  - exists ∅. split; [done|]. intros i Hi0. rewrite lookup_empty, decide_False by (simpl; lia). done.
  - exists ∅. split; [done|]. by rewrite lookup_empty.
Qed.

(** C14. The events recorded on a new database are read back as a chain of entries,
    one by one and from any number on; the chain verifies everywhere, also
    after a restart. *)
Theorem node_log_spec evs :
  let es := chain_entries 0 zeros32 evs in
  Forall node_fits es → Z.of_nat (length es) < 2 ^ 64 → Z.of_nat (length (node_bytes es)) < 2 ^ 64 →
  ∃ T l0 l T' l', redb_open None None (db ∅) = (db T, Ok tt) ∧ node_log_open None [] (db T) = Ok l0 ∧
    node_appends evs l0 = (l, Ok tt) ∧ nl_redb l = db T' ∧
    node_log_open None (lf_bytes (nl_file l)) (db T') = Ok l' ∧ nl_sequence l' = nl_sequence l ∧
    ∀ k, k = l ∨ k = l' →
      (∀ i, 0 <= i < 2 ^ 64 → ∃ k', read_entry i k = (k', Ok (es !! Z.to_nat i))) ∧
      (∀ n, 0 <= n → ∃ k', node_read_since n k = (k', Ok (drop (Z.to_nat n) es))) ∧
      (∀ from to, 0 <= from <= to → ∃ k', verify_chain from to k = (k', Ok true)).
Proof.
  intros es Hfits Hlen Hbytes. destruct redb_open_fresh as (T & HT & Hidx & Hmeta).
  destruct (node_open_fresh _ Hidx Hmeta) as (l0 & Hl0 & Hi0 & Hc0).
  destruct (node_appends_holds evs l0 T [] Hi0 Hc0 Hfits Hlen Hbytes) as (l & T' & Hrun & Hi & Hc).
  destruct (node_reopen _ _ _ Hi Hc) as (l' & Hl' & Hi' & Hc').
  exists T, l0, l, T', l'. repeat (split; [done|]). split; [by apply ni_redb in Hi|]. split; [done|].
  split; [by rewrite (ni_sequence _ _ _ Hi), (ni_sequence _ _ _ Hi')|].
  intros k [->| ->]; eapply node_observe; [done|apply (nc_chain _ _ _ Hc)|done|apply (nc_chain _ _ _ Hc')].
Qed.

(** ** A failure of the database *)

(** An append whose metadata cannot be written leaves its entry in the log and
    in the index, but not in the chain: after the next append the log does not
    verify any more, unless the two hashes collide. *)
Theorem failed_meta_breaks_chain l T es m now ev now' ev' :
  nl_redb l = {| rd_tables := T; rd_faults := [None; Some m] |} →
  node_indexed (nl_set_redb (db T) l) T es → chain_from zeros32 es → nl_last_hash l = chain_end zeros32 es →
  let e := next_entry l now ev in
  let e' := {| ne_sequence := nl_sequence l + 1; ne_timestamp_millis := now'; ne_event := ev';
               ne_prev_hash := nl_last_hash l |} in
  node_fits e → node_fits e' → Z.of_nat (length es) + 2 < 2 ^ 64 →
  Z.of_nat (length (node_bytes (es ++ [e; e']))) < 2 ^ 64 → blake3 (enc_node e) ≠ nl_last_hash l →
  ∃ l1 l2 n, node_append io_ok now ev l = (l1, Err (DbIo m)) ∧ node_append io_ok now' ev' l1 = (l2, Ok n) ∧
    ∀ to, 0 <= to → ∃ l3, verify_chain 0 to l2 = (l3, Ok false).
Proof.
  intros HT Hl Hch Hlast e e' Hfe Hfe' Hn Hb Hcoll.
  change [e; e'] with ([e] ++ [e']) in Hb. rewrite app_assoc in Hb.
  assert (Z.of_nat (length (node_bytes (es ++ [e]))) < 2 ^ 64) as Hb1
    by (rewrite (node_bytes_app (es ++ [e])), length_app in Hb; lia).
  pose proof (node_append_meta_fails now ev l T m HT) as Hr1. cbv zeta in Hr1. fold e in Hr1.
  match type of Hr1 with _ = (?x, _) => set (l1 := x) in Hr1 end.
  assert (node_indexed l1 (index_added l T) (es ++ [e])) as Hl1.
  { by eapply (node_indexed_snoc (nl_set_redb (db T) l)); try done; lia. }
  pose proof (node_append_ok now' ev' l1 _ eq_refl) as Hr2. cbv zeta in Hr2.
  assert (next_entry l1 now' ev' = e') as He'.
  { unfold next_entry, e', l1. simpl. rewrite (ni_sequence _ _ _ Hl : nl_sequence l = _).
    by rewrite wrap_u64_small by (split; lia). }
  rewrite He' in Hr2. match type of Hr2 with _ = (?x, _) => set (l2 := x) in Hr2 end.
  assert (∃ T2, node_indexed l2 T2 ((es ++ [e]) ++ [e'])) as [T2 Hl2].
  { eexists. eapply (node_indexed_snoc l1); try done; [rewrite length_app; simpl; lia|].
    unfold meta_added. by rewrite lookup_insert_ne. }
  exists l1, l2. eexists. split; [done|]. split; [done|]. intros to Hto.
  destruct (verify_chain_run _ _ _ 0 to Hl2 ltac:(lia)) as (f & b & Hv & Hbt). rewrite Hv. exists (nl_set_file f l2).
  destruct b; [|done]. exfalso. apply proj1 in Hbt. specialize (Hbt eq_refl).
  apply chain_from_app in Hbt as [_ [Hprev _]]. unfold chain_end in Hprev. rewrite foldl_app in Hprev.
  apply Hcoll. symmetry. exact Hprev.
Qed.
End NodeLogFacts.
