(* ===== verification/PendingLog.v ===== *)
(** * The persistent store of pending events

    Models [indras-storage/src/persistent.rs]: the pending events of [Pending]
    behind a log of lines, each the base64 text of a [postcard] pc_encoded entry,
    written before a change and replayed at the start.  [PendingLog] keeps the
    bytes of the file and those the [BufWriter] has not written yet, which a
    restart does not find; a flush that fails has written any part of them.  The [postcard] encoding of the
    entries is a parameter. *)

From S2P Require Import Prelude Bytes Packet Pending.

Local Open Scope string_scope.
Local Open Scope Z_scope.
Local Open Scope list_scope.

(** ** Base64 *)

Definition ALPHABET : list byte :=
  as_bytes "ABCDEFGHIJKLMNOPQRSTUVWXYZabcdefghijklmnopqrstuvwxyz0123456789+/".

Definition alphabet_char (n : Z) : byte := default x00 (ALPHABET !! Z.to_nat n).

(** The four indices of a group of three bytes. *)
Definition sextet0 (b0 : Z) : Z := Z.shiftr b0 2.
Definition sextet1 (b0 b1 : Z) : Z := Z.lor (Z.shiftl (Z.land b0 3) 4) (Z.shiftr b1 4).
Definition sextet2 (b1 b2 : Z) : Z := Z.lor (Z.shiftl (Z.land b1 15) 2) (Z.shiftr b2 6).
Definition sextet3 (b2 : Z) : Z := Z.land b2 63.

Definition b64_pad : byte := "=".

Fixpoint base64_encode (data : list byte) : list byte :=
  match data with
  | [] => []
  | [a] =>
      let b0 := byte_val a in
      [alphabet_char (sextet0 b0); alphabet_char (sextet1 b0 0); b64_pad; b64_pad]
  | [a; b] =>
      let b0 := byte_val a in let b1 := byte_val b in
      [alphabet_char (sextet0 b0); alphabet_char (sextet1 b0 b1); alphabet_char (sextet2 b1 0); b64_pad]
  | a :: b :: c :: data =>
      let b0 := byte_val a in let b1 := byte_val b in let b2 := byte_val c in
      [alphabet_char (sextet0 b0); alphabet_char (sextet1 b0 b1); alphabet_char (sextet2 b1 b2);
       alphabet_char (sextet3 b2)] ++ base64_encode data
  end.

Definition decode_char (c : byte) : Result Z string :=
  let z := byte_val c in
  if (65 <=? z) && (z <=? 90) then Ok (z - 65)
  else if (97 <=? z) && (z <=? 122) then Ok (z - 97 + 26)
  else if (48 <=? z) && (z <=? 57) then Ok (z - 48 + 52)
  else if z =? 43 then Ok 62
  else if z =? 47 then Ok 63
  else if z =? 61 then Ok 0
  else Err "Invalid base64 character".

(** The groups of four characters.  A character outside ASCII is invalid, so
    that groups of bytes fail where groups of characters do. *)
Fixpoint decode_chunks (l : list byte) : Result (list byte) string :=
  match l with
  | c0 :: c1 :: c2 :: c3 :: l =>
      let? b0 := decode_char c0 in
      let? b1 := decode_char c1 in
      let? b2 := decode_char c2 in
      let? b3 := decode_char c3 in
      let? rest := decode_chunks l in
      Ok ([byte_of_Z (Z.lor (Z.shiftl b0 2) (Z.shiftr b1 4))]
          ++ (if bool_decide (c2 = b64_pad) then [] else [byte_of_Z (Z.lor (Z.shiftl b1 4) (Z.shiftr b2 2))])
          ++ (if bool_decide (c3 = b64_pad) then [] else [byte_of_Z (Z.lor (Z.shiftl b2 6) b3)])
          ++ rest)
  | _ => Ok []
  end.

Definition base64_decode (input : list byte) : Result (list byte) string :=
  let input := trim input in
  if negb (length input mod 4 =? 0)%nat then Err "Invalid base64 length"
  else decode_chunks input.

(** ** The log *)

Inductive LogEntry : Type :=
| MarkPending (peer_bytes : list byte) (event_id : EventId)
| MarkDelivered (peer_bytes : list byte) (event_id : EventId)
| MarkDeliveredUpTo (peer_bytes : list byte) (up_to : EventId)
| ClearPending (peer_bytes : list byte).

Class LogPostcard : Type := {
  pc_log : LogEntry → Result (list byte) string;
  pc_parse_log : list byte → Result LogEntry string;
}.

Record PersistentPendingStore : Type := {
  pl_mem : InMemoryPendingStore;
  pl_file : list byte;
  pl_buffer : list byte;
  pl_open : bool;
  sync_writes : bool;
}.

Definition pl_set_mem (m : InMemoryPendingStore) (s : PersistentPendingStore) : PersistentPendingStore :=
  {| pl_mem := m; pl_file := pl_file s; pl_buffer := pl_buffer s; pl_open := pl_open s;
     sync_writes := sync_writes s |}.

Definition pl_set_log (file buffer : list byte) (s : PersistentPendingStore) : PersistentPendingStore :=
  {| pl_mem := pl_mem s; pl_file := file; pl_buffer := buffer; pl_open := pl_open s;
     sync_writes := sync_writes s |}.

Definition pl_set_open (b : bool) (s : PersistentPendingStore) : PersistentPendingStore :=
  {| pl_mem := pl_mem s; pl_file := pl_file s; pl_buffer := pl_buffer s; pl_open := b;
     sync_writes := sync_writes s |}.

(** A failure of the file: how much was written, and the error. *)
Abbreviation IoFault := (option (nat * string)).

(** The capacity of tokio's [BufWriter]. *)
Definition BUF_CAPACITY : nat := 8 * 1024.

(** [flush_buf]: what is written leaves the buffer. *)
Definition flush_buf (io : IoFault) : M PersistentPendingStore PendingError unit := λ s,
  match io with
  | Some (n, m) => (pl_set_log (pl_file s ++ take n (pl_buffer s)) (drop n (pl_buffer s)) s, Err (SeIo m))
  | None => (pl_set_log (pl_file s ++ pl_buffer s) [] s, Ok tt)
  end.

Definition write_through (io : IoFault) (l : list byte) : M PersistentPendingStore PendingError unit := λ s,
  match io with
  | Some (n, m) => (pl_set_log (pl_file s ++ take n l) (pl_buffer s) s, Err (SeIo m))
  | None => (pl_set_log (pl_file s ++ l) (pl_buffer s) s, Ok tt)
  end.

(** [BufWriter::write_all]: the buffer is written when the bytes do not fit
    beside what it holds; bytes as many as its capacity go to the file. *)
Definition buf_write (io : IoFault) (l : list byte) : M PersistentPendingStore PendingError unit :=
  full ← gets (λ s, (BUF_CAPACITY <? length (pl_buffer s) + length l)%nat);
  (if full : bool then flush_buf io else mret tt) ;;
  if (BUF_CAPACITY <=? length l)%nat then write_through io l
  else modify (λ s, pl_set_log (pl_file s) (pl_buffer s ++ l) s).

(** The failures of the two writes and of the flush of one entry. *)
Record LogIo : Type := { lio_text : IoFault; lio_newline : IoFault; lio_flush : IoFault }.

Definition log_io_ok : LogIo := {| lio_text := None; lio_newline := None; lio_flush := None |}.

Section PersistentPending.
Context {I : Type} `{PeerIdentity I} `{LogPostcard}.
Implicit Types (p : I).

Definition apply_entry (e : LogEntry) (m : InMemoryPendingStore) : InMemoryPendingStore :=
  match e with
  | MarkPending k id =>
      let events := default ∅ (pending m !! k) in
      if bool_decide (id ∈ events) then set_peer_pending k events (total_count m) m
      else set_peer_pending k ({[ id ]} ∪ events) (wrap_u64 (total_count m + 1)) m
  | MarkDelivered k id =>
      match pending m !! k with
      | Some events =>
          if bool_decide (id ∈ events) then set_peer_pending k (events ∖ {[ id ]}) (usize_sub (total_count m) 1) m
          else m
      | None => m
      end
  | MarkDeliveredUpTo k up_to =>
      match pending m !! k with
      | Some events =>
          let to_remove := retain (delivered_up_to up_to) (events_in_order events) in
          let count := Z.of_nat (length to_remove) in
          set_peer_pending k (foldl (λ e id, e ∖ {[ id ]}) events to_remove)
            (if 0 <? count then usize_sub (total_count m) count else total_count m) m
      | None => m
      end
  | ClearPending k =>
      match pending m !! k with
      | Some events =>
          {| pending := delete k (pending m); quota := quota m;
             total_count := usize_sub (total_count m) (Z.of_nat (size events)) |}
      | None => m
      end
  end.

(** One line of the log. *)
Definition parse_line (line : list byte) : option LogEntry :=
  match pc_parse_log line with
  | Ok e => Some e
  | Err _ =>
      match base64_decode line with
      | Ok d => match pc_parse_log d with Ok e => Some e | Err _ => None end
      | Err _ => None
      end
  end.

(** The loop of [load]: a line that is not UTF-8 ends it with an error, one
    that does not parse is skipped. *)
Fixpoint load_lines (ls : list (list byte)) (m : InMemoryPendingStore) : Result InMemoryPendingStore PendingError :=
  match ls with
  | [] => Ok m
  | line :: ls =>
      if negb (utf8_valid line) then Err (SeIo "stream did not contain valid UTF-8")
      else if bool_decide (trim line = []) then load_lines ls m
      else load_lines ls (match parse_line line with Some e => apply_entry e m | None => m end)
  end.

(** [with_options] on what the file holds, [None] when there is none; the
    first argument is a failure to create the directory or to open the file. *)
Definition with_options (os : option string) (q : QuotaManager) (sync : bool) (file : option (list byte))
    : Result PersistentPendingStore PendingError :=
  match os with
  | Some m => Err (SeIo m)
  | None =>
      let? mem := load_lines (lines (default [] file)) (pending_with_quota q) in
      Ok {| pl_mem := mem; pl_file := default [] file; pl_buffer := []; pl_open := true; sync_writes := sync |}
  end.

Definition pending_log_new (os : option string) (file : option (list byte)) :=
  with_options os quota_default true file.

(** The line of an entry. *)
Definition pl_write_entry (io : LogIo) (e : LogEntry) : M PersistentPendingStore PendingError unit :=
  opened ← gets pl_open;
  if negb opened then fail (SeIo "Log file not open")
  else
    bytes ← match pc_log e with Ok b => mret b | Err m => fail (SeSerialization m) end;
    buf_write (lio_text io) (base64_encode bytes) ;;
    buf_write (lio_newline io) [x0a] ;;
    sync ← gets sync_writes;
    if sync : bool then flush_buf (lio_flush io) else mret tt.

Definition pl_flush (io : IoFault) : M PersistentPendingStore PendingError unit :=
  opened ← gets pl_open;
  if opened : bool then flush_buf io else mret tt.

(** The entries of the current state, in the order a [DashMap] iterates. *)
Definition state_entries (m : InMemoryPendingStore) : list LogEntry :=
  concat ((λ x, MarkPending x.1 <$> events_in_order x.2) <$> map_to_list (pending m)).

Definition entry_line (e : LogEntry) : Result (list byte) PendingError :=
  match pc_log e with Ok b => Ok (base64_encode b ++ [x0a]) | Err m => Err (SeSerialization m) end.

Fixpoint entry_lines (es : list LogEntry) : Result (list byte) PendingError :=
  match es with
  | [] => Ok []
  | e :: es => let? l := entry_line e in let? rest := entry_lines es in Ok (l ++ rest)
  end.

(** The points where the file system can fail a compaction: writing the new
    file, renaming it, opening the log again. *)
Record CompactIo : Type := { cio_temp : option string; cio_rename : option string; cio_open : option string }.

(** [compact]: the new file is written aside, the writer closed (what it had
    buffered is lost), the file renamed and opened again. *)
Definition pl_compact (io : CompactIo) : M PersistentPendingStore PendingError unit := λ s,
  match cio_temp io with
  | Some m => (s, Err (SeIo m))
  | None =>
      match entry_lines (state_entries (pl_mem s)) with
      | Err e => (s, Err e)
      | Ok l =>
          let s := pl_set_open false (pl_set_log (pl_file s) [] s) in
          match cio_rename io with
          | Some m => (s, Err (SeIo m))
          | None =>
              let s := pl_set_log l [] s in
              match cio_open io with
              | Some m => (s, Err (SeIo m))
              | None => (pl_set_open true s, Ok tt)
              end
          end
      end
  end.

Definition pl_total_pending (s : PersistentPendingStore) : Z := total_pending (pl_mem s).
Definition pl_peer_count (s : PersistentPendingStore) : nat := pending_peer_count (pl_mem s).
Definition pl_is_empty (s : PersistentPendingStore) : bool := pending_is_empty (pl_mem s).
Definition pl_quota (s : PersistentPendingStore) : QuotaManager := quota (pl_mem s).

(** The change of the in-memory state is the in-memory store's. *)
Definition on_mem (m : M InMemoryPendingStore PendingError unit) : M PersistentPendingStore PendingError unit :=
  zoom pl_mem pl_set_mem m.

Definition pl_mark_pending (io : LogIo) p (id : EventId) : M PersistentPendingStore PendingError unit :=
  full ← gets (λ s, would_exceed_total_quota (quota (pl_mem s)) (total_count (pl_mem s)));
  if full : bool then fail SeCapacityExceeded
  else pl_write_entry io (MarkPending (pid_as_bytes p) id) ;; on_mem (mark_pending p id).

Definition pl_pending_for p (s : PersistentPendingStore) : Result (list EventId) PendingError :=
  events_pending_for p (pl_mem s).

Definition pl_mark_delivered (io : LogIo) p (id : EventId) : M PersistentPendingStore PendingError unit :=
  pl_write_entry io (MarkDelivered (pid_as_bytes p) id) ;; on_mem (mark_delivered p id).

Definition pl_mark_delivered_up_to (io : LogIo) p (up_to : EventId) : M PersistentPendingStore PendingError unit :=
  pl_write_entry io (MarkDeliveredUpTo (pid_as_bytes p) up_to) ;; on_mem (mark_delivered_up_to p up_to).

Definition pl_clear_pending (io : LogIo) p : M PersistentPendingStore PendingError unit :=
  pl_write_entry io (ClearPending (pid_as_bytes p)) ;; on_mem (clear_pending p).
End PersistentPending.

(** ** Base64 round trip *)

(** The characters a line has. *)
Definition b64_char (b : byte) : bool :=
  bool_decide (b ∈ ALPHABET) || bool_decide (b = b64_pad).

(** The test of a value against its character. *)
Definition alphabet_test (z : Z) : bool :=
  bool_decide (decode_char (alphabet_char z) = Ok z)
  && (bool_decide (alphabet_char z ≠ b64_pad) && bool_decide (alphabet_char z ∈ ALPHABET)).

Lemma alphabet_ok z : 0 <= z < 64 →
  decode_char (alphabet_char z) = Ok z ∧ alphabet_char z ≠ b64_pad ∧ alphabet_char z ∈ ALPHABET.
Proof.
  intros Hz. assert (alphabet_test z = true) as Hall.
  { apply (below_all alphabet_test 64); [by vm_compute|done]. }
  unfold alphabet_test in Hall. rewrite !andb_true_iff, !bool_decide_eq_true in Hall. done.
Qed.

Lemma lor_shift a b k : 0 <= k → 0 <= b < 2 ^ k → Z.lor (Z.shiftl a k) b = a * 2 ^ k + b.
Proof.
  intros Hk Hb. rewrite Z.shiftl_mul_pow2 by done. symmetry. apply Z.add_nocarry_lor.
  apply Z.bits_inj'. intros n Hn. rewrite Z.land_spec, Z.bits_0.
  destruct (Z.lt_ge_cases n k) as [Hlt|Hge].
  - by rewrite Z.mul_pow2_bits_low.
  - assert (Z.testbit b n = false) as ->; [|by rewrite andb_false_r]. apply Z.testbit_false; [lia|].
    rewrite Z.div_small; [done|]. split; [lia|]. eapply Z.lt_le_trans; [apply Hb|]. by apply Z.pow_le_mono_r.
Qed.

(** Linear arithmetic with divisions by constants. *)
Ltac dlia := Z.to_euclidean_division_equations; lia.

Lemma sextet0_eq b0 : sextet0 b0 = b0 / 4.
Proof. unfold sextet0. by rewrite Z.shiftr_div_pow2. Qed.

Lemma sextet1_eq b0 b1 : 0 <= b1 < 256 → sextet1 b0 b1 = b0 mod 4 * 16 + b1 / 16.
Proof.
  intros Hb. unfold sextet1. rewrite Z.shiftr_div_pow2 by done. change (2 ^ 4) with 16.
  rewrite lor_shift by (change (2 ^ 4) with 16; dlia). by rewrite (Z.land_ones b0 2 ltac:(done) : Z.land b0 3 = _).
Qed.

Lemma sextet2_eq b1 b2 : 0 <= b2 < 256 → sextet2 b1 b2 = b1 mod 16 * 4 + b2 / 64.
Proof.
  intros Hb. unfold sextet2. rewrite Z.shiftr_div_pow2 by done. change (2 ^ 6) with 64.
  rewrite lor_shift by (change (2 ^ 2) with 4; dlia). by rewrite (Z.land_ones b1 4 ltac:(done) : Z.land b1 15 = _).
Qed.

Lemma sextet3_eq b2 : sextet3 b2 = b2 mod 64.
Proof. unfold sextet3. by rewrite (Z.land_ones b2 6 ltac:(done) : Z.land b2 63 = _). Qed.

Lemma byte_of_Z_eq z b : z mod 256 = byte_val b → byte_of_Z z = b.
Proof. intros Hz. apply byte_val_inj. by rewrite byte_val_of_Z. Qed.

(** The three bytes of a group. *)
Lemma group_byte0 b0 y : 0 <= y < 256 →
  byte_of_Z (Z.lor (Z.shiftl (sextet0 (byte_val b0)) 2) (Z.shiftr (sextet1 (byte_val b0) y) 4)) = b0.
Proof.
  intros Hy. pose proof (byte_val_range b0). apply byte_of_Z_eq.
  rewrite sextet0_eq, sextet1_eq, Z.shiftr_div_pow2 by done. change (2 ^ 4) with 16.
  assert (0 <= (byte_val b0 mod 4 * 16 + y / 16) / 16 < 4) by dlia.
  rewrite lor_shift by (change (2 ^ 2) with 4; dlia). change (2 ^ 2) with 4. dlia.
Qed.

Lemma group_byte1 x b1 y : 0 <= y < 256 →
  byte_of_Z (Z.lor (Z.shiftl (sextet1 x (byte_val b1)) 4) (Z.shiftr (sextet2 (byte_val b1) y) 2)) = b1.
Proof.
  intros Hy. pose proof (byte_val_range b1). apply byte_of_Z_eq.
  rewrite sextet1_eq, sextet2_eq, Z.shiftr_div_pow2 by done. change (2 ^ 2) with 4.
  assert (0 <= (byte_val b1 mod 16 * 4 + y / 64) / 4 < 16) by dlia.
  rewrite lor_shift by (change (2 ^ 4) with 16; dlia). change (2 ^ 4) with 16. dlia.
Qed.

Lemma group_byte2 x b2 :
  byte_of_Z (Z.lor (Z.shiftl (sextet2 x (byte_val b2)) 6) (sextet3 (byte_val b2))) = b2.
Proof.
  pose proof (byte_val_range b2). apply byte_of_Z_eq. rewrite sextet2_eq, sextet3_eq by done.
  rewrite lor_shift by (change (2 ^ 6) with 64; dlia). change (2 ^ 6) with 64. dlia.
Qed.

Lemma sextet_ranges b0 b1 b2 : 0 <= b0 < 256 → 0 <= b1 < 256 → 0 <= b2 < 256 →
  0 <= sextet0 b0 < 64 ∧ 0 <= sextet1 b0 b1 < 64 ∧ 0 <= sextet2 b1 b2 < 64 ∧ 0 <= sextet3 b2 < 64.
Proof. intros. rewrite sextet0_eq, sextet1_eq, sextet2_eq, sextet3_eq by done. dlia. Qed.

Lemma decode_base64 n : ∀ l, (length l <= n)%nat → decode_chunks (base64_encode l) = Ok l.
Proof.
  induction n as [|n IH]; intros [|a [|b [|c l]]] Hl; simpl in Hl; try lia; [done..| | |].
  all: pose proof (byte_val_range a); try pose proof (byte_val_range b); try pose proof (byte_val_range c).
  - destruct (sextet_ranges (byte_val a) 0 0) as (R0 & R1 & _ & _); [lia..|].
    cbn [base64_encode decode_chunks].
    rewrite (proj1 (alphabet_ok _ R0)), (proj1 (alphabet_ok _ R1)). simpl. by rewrite group_byte0 by lia.
  - destruct (sextet_ranges (byte_val a) (byte_val b) 0) as (R0 & R1 & R2 & _); [lia..|].
    destruct (alphabet_ok _ R2) as (E2 & N2 & _). cbn [base64_encode decode_chunks].
    rewrite (proj1 (alphabet_ok _ R0)), (proj1 (alphabet_ok _ R1)), E2. simpl.
    rewrite bool_decide_false by done. by rewrite group_byte0, group_byte1 by lia.
  - destruct (sextet_ranges (byte_val a) (byte_val b) (byte_val c)) as (R0 & R1 & R2 & R3); [lia..|].
    destruct (alphabet_ok _ R2) as (E2 & N2 & _), (alphabet_ok _ R3) as (E3 & N3 & _).
    cbn [base64_encode app decode_chunks].
    rewrite (proj1 (alphabet_ok _ R0)), (proj1 (alphabet_ok _ R1)), E2, E3, (IH l) by lia. cbn [rbind].
    rewrite !bool_decide_false by done. rewrite group_byte0, group_byte1, group_byte2 by lia. done.
Qed.

Lemma encode_shape n : ∀ l, (length l <= n)%nat →
  (length (base64_encode l) mod 4 = 0)%nat ∧ Forall (λ b, b64_char b = true) (base64_encode l) ∧
  (l ≠ [] → ∃ c r, base64_encode l = c :: r ∧ c ∈ ALPHABET).
Proof.
  assert (∀ z, 0 <= z < 64 → b64_char (alphabet_char z) = true) as Hc.
  { intros z Hz. unfold b64_char. rewrite bool_decide_true; [done|]. by apply alphabet_ok. }
  induction n as [|n IH]; intros [|a [|b [|c l]]] Hl; simpl in Hl; try lia; [done..| | |].
  all: pose proof (byte_val_range a); try pose proof (byte_val_range b); try pose proof (byte_val_range c).
  - destruct (sextet_ranges (byte_val a) 0 0) as (R0 & R1 & _ & _); [lia..|]. cbn [base64_encode].
    split; [done|]. split; [repeat constructor; auto|]. intros _. eexists _, _. split; [done|]. by apply alphabet_ok.
  - destruct (sextet_ranges (byte_val a) (byte_val b) 0) as (R0 & R1 & R2 & _); [lia..|]. cbn [base64_encode].
    split; [done|]. split; [repeat constructor; auto|]. intros _. eexists _, _. split; [done|]. by apply alphabet_ok.
  - destruct (sextet_ranges (byte_val a) (byte_val b) (byte_val c)) as (R0 & R1 & R2 & R3); [lia..|].
    destruct (IH l ltac:(lia)) as (Hm & Hf & _). cbn [base64_encode app].
    split; [|split; [repeat constructor; auto|intros _; eexists _, _; split; [done|by apply alphabet_ok]]].
    cbn [length]. replace (S (S (S (S (length (base64_encode l)))))) with (length (base64_encode l) + 1 * 4)%nat by lia.
    by rewrite Nat.Div0.mod_add.
Qed.

(** No white space in them. *)
Definition starts_none (ps : list (list byte)) (b : byte) : bool :=
  forallb (λ p, match p with [] => false | x :: _ => negb (bool_decide (x = b)) end) ps.

Lemma strip_any_none ps b l : starts_none ps b = true → strip_any ps (b :: l) = None.
Proof.
  induction ps as [|p ps IH]; [done|]. unfold starts_none. cbn [forallb strip_any]. fold (starts_none ps b).
  rewrite andb_true_iff. intros [Hp Hps]. destruct p as [|x p]; [done|]. cbn [strip_bytes].
  rewrite negb_true_iff in Hp. rewrite Hp. by apply IH.
Qed.

Lemma strip_any_b64 b l : b64_char b = true →
  strip_any white_space (b :: l) = None ∧ strip_any ((@rev byte) <$> white_space) (b :: l) = None.
Proof.
  intros Hb. assert (b ∈ b64_pad :: ALPHABET) as Hin.
  { unfold b64_char in Hb. apply orb_true_iff in Hb as [Hb|Hb]; apply bool_decide_eq_true in Hb; apply elem_of_cons; auto. }
  assert (forallb (λ b, starts_none white_space b && starts_none ((@rev byte) <$> white_space) b)
    (b64_pad :: ALPHABET) = true) as Hall by by vm_compute.
  rewrite forallb_forall in Hall. apply list_elem_of_In, Hall, andb_true_iff in Hin as [H1 H2].
  split; by apply strip_any_none.
Qed.

Lemma strip_while_b64 n l : Forall (λ b, b64_char b = true) l →
  strip_while n white_space l = l ∧ strip_while n ((@rev byte) <$> white_space) l = l.
Proof.
  intros Hl. destruct n as [|n]; [done|]. cbn [strip_while]. destruct l as [|b l]; [done|].
  apply Forall_cons in Hl as [Hb _]. destruct (strip_any_b64 b l Hb) as [-> ->]. done.
Qed.

Lemma trim_b64 l : Forall (λ b, b64_char b = true) l → trim l = l.
Proof.
  intros Hl. unfold trim. rewrite (proj1 (strip_while_b64 _ _ Hl)).
  rewrite (proj2 (strip_while_b64 (length l) (rev l) (Forall_rev Hl))). apply rev_involutive.
Qed.

Lemma base64_roundtrip l : base64_decode (base64_encode l) = Ok l.
Proof.
  destruct (encode_shape (length l) l (le_n _)) as (Hm & Hf & _). unfold base64_decode.
  rewrite trim_b64, Hm by done. simpl. by apply (decode_base64 (length l)).
Qed.

Lemma utf8_b64 l : Forall (λ b, b64_char b = true) l → utf8_valid l = true.
Proof.
  induction 1 as [|b l Hb _ IH]; [done|]. cbn [utf8_valid].
  assert (byte_in 0 127 b = true) as ->; [by destruct b|done].
Qed.

Lemma strip_cr_b64 l : Forall (λ b, b64_char b = true) l → strip_cr l = l.
Proof.
  intros Hl. unfold strip_cr. destruct (last l) as [b|] eqn:Hb; [|done].
  apply last_Some in Hb as [l' ->]. apply Forall_app in Hl as [_ Hb]. apply Forall_cons in Hb as [Hb _]. by destruct b.
Qed.

Lemma lines_loop_b64 l : Forall (λ b, b64_char b = true) l → ∀ acc rest,
  lines_loop (l ++ x0a :: rest) acc = strip_cr (acc ++ l) :: lines_loop rest [].
Proof.
  induction 1 as [|b l Hb _ IH]; intros acc rest; [simpl; by rewrite app_nil_r|]. cbn [app lines_loop].
  rewrite bool_decide_false by (intros ->; done). by rewrite IH, <- app_assoc.
Qed.

(** A line is read back. *)
Lemma lines_b64 l rest : Forall (λ b, b64_char b = true) l → lines (l ++ [x0a] ++ rest) = l :: lines rest.
Proof. intros Hl. unfold lines. simpl. rewrite lines_loop_b64 by done. simpl. by rewrite strip_cr_b64. Qed.

(** So is an unfinished one at the end. *)
Lemma lines_loop_last l : Forall (λ b, b64_char b = true) l → ∀ acc, acc ++ l ≠ [] → lines_loop l acc = [acc ++ l].
Proof.
  induction 1 as [|b l Hb _ IH]; intros acc Hne; cbn [lines_loop].
  - rewrite app_nil_r in *. by destruct acc.
  - rewrite bool_decide_false by (intros ->; done). rewrite IH; rewrite <- app_assoc; done.
Qed.

(** ** Replay *)

Definition key_events (k : list byte) (m : InMemoryPendingStore) : gset EventId := default ∅ (pending m !! k).

(** What an entry does to the events of a peer. *)
Definition entry_effect (e : LogEntry) (k : list byte) (E : gset EventId) : gset EventId :=
  match e with
  | MarkPending k' id => if decide (k = k') then {[ id ]} ∪ E else E
  | MarkDelivered k' id => if decide (k = k') then E ∖ {[ id ]} else E
  | MarkDeliveredUpTo k' up_to =>
      if decide (k = k') then filter (λ id, delivered_up_to up_to id = false) E else E
  | ClearPending k' => if decide (k = k') then ∅ else E
  end.

Lemma key_events_set k k' E t m : key_events k (set_peer_pending k' E t m) = if decide (k = k') then E else key_events k m.
Proof. unfold key_events. simpl. rewrite lookup_insert. case_decide; case_decide; naive_solver. Qed.

Lemma remove_delivered up_to (E : gset EventId) :
  foldl (λ e id, e ∖ {[ id ]}) E (retain (delivered_up_to up_to) (events_in_order E)) =
  filter (λ id, delivered_up_to up_to id = false) E.
Proof.
  rewrite remove_all_eq. destruct (events_in_order_spec E) as (_ & _ & Hin & _). apply set_eq. intros id.
  rewrite elem_of_difference, elem_of_list_to_set, elem_of_retain, Hin, elem_of_filter.
  destruct (delivered_up_to up_to id); naive_solver.
Qed.

Lemma apply_entry_events e m k : key_events k (apply_entry e m) = entry_effect e k (key_events k m).
Proof.
  destruct e as [k' id|k' id|k' up|k']; simpl.
  - case_bool_decide as Hid; rewrite key_events_set; case_decide; subst; unfold key_events; set_solver.
  - destruct (pending m !! k') as [E|] eqn:HE; [case_bool_decide as Hid; rewrite ?key_events_set|];
      case_decide; subst; try done; unfold key_events; rewrite HE; set_solver.
  - destruct (pending m !! k') as [E|] eqn:HE; rewrite ?key_events_set; case_decide; subst; try done;
      unfold key_events; rewrite HE; simpl; [apply remove_delivered|set_solver].
  - destruct (pending m !! k') as [E|] eqn:HE; unfold key_events; simpl; rewrite ?lookup_delete;
      repeat case_decide; subst; try done; by rewrite HE.
Qed.

Lemma entry_effect_mono e k E E' : E ⊆ E' → entry_effect e k E ⊆ entry_effect e k E'.
Proof. intros HE. destruct e; simpl; case_decide; set_solver. Qed.

Lemma evict_all_subset ids : ∀ E t, (evict_all ids E t).1 ⊆ E.
Proof. induction ids as [|id ids IH]; intros E t; simpl; [done|]. etrans; [apply IH|]. set_solver. Qed.

Section PersistentFacts.
Context {I : Type} `{PeerIdentity I} `{LogPostcard}.
(** [postcard] decodes what it encodes, which is not empty, and rejects what
    starts with a letter of base64: the number of a variant comes first. *)
Context (log_ok : ∀ e v, pc_log e = Ok v → pc_parse_log v = Ok e ∧ v ≠ []).
Context (text_rejected : ∀ c l, c ∈ ALPHABET → is_ok (pc_parse_log (c :: l)) = false).

Inductive pl_op : Type :=
| PlMark (p : I) (id : EventId)
| PlDelivered (p : I) (id : EventId)
| PlUpTo (p : I) (up_to : EventId)
| PlClear (p : I).

Definition op_log_entry (op : pl_op) : LogEntry :=
  match op with
  | PlMark p id => MarkPending (pid_as_bytes p) id
  | PlDelivered p id => MarkDelivered (pid_as_bytes p) id
  | PlUpTo p up_to => MarkDeliveredUpTo (pid_as_bytes p) up_to
  | PlClear p => ClearPending (pid_as_bytes p)
  end.

Definition run_pl_op (io : LogIo) (op : pl_op) : M PersistentPendingStore PendingError unit :=
  match op with
  | PlMark p id => pl_mark_pending io p id
  | PlDelivered p id => pl_mark_delivered io p id
  | PlUpTo p up_to => pl_mark_delivered_up_to io p up_to
  | PlClear p => pl_clear_pending io p
  end.

(** The change of the in-memory state. *)
Definition mem_op (op : pl_op) : M InMemoryPendingStore PendingError unit :=
  match op with
  | PlMark p id => mark_pending p id
  | PlDelivered p id => mark_delivered p id
  | PlUpTo p up_to => mark_delivered_up_to p up_to
  | PlClear p => clear_pending p
  end.

(** The entry makes the peer's oldest events go. *)
Definition op_evicts (op : pl_op) (m : InMemoryPendingStore) : bool :=
  match op with
  | PlMark p _ => would_exceed_peer_quota (quota m) (Z.of_nat (size (key_events (pid_as_bytes p) m)))
  | _ => false
  end.

Definition op_full (op : pl_op) (m : InMemoryPendingStore) : bool :=
  match op with PlMark _ _ => would_exceed_total_quota (quota m) (total_count m) | _ => false end.

Lemma mem_op_exact op m : op_full op m = false → op_evicts op m = false →
  mem_op op m = (apply_entry (op_log_entry op) m, Ok tt).
Proof.
  destruct op as [p id|p id|p up|p]; simpl; intros Hf He.
  - unfold mark_pending. rewrite Hf. unfold key_events in He. rewrite He. by case_bool_decide.
  - unfold mark_delivered. destruct (pending m !! _); [by case_bool_decide|done].
  - unfold mark_delivered_up_to. by destruct (pending m !! _).
  - unfold clear_pending. by destruct (pending m !! _).
Qed.

Lemma mem_op_subset op m k : op_full op m = false →
  ∃ m', mem_op op m = (m', Ok tt) ∧ key_events k m' ⊆ entry_effect (op_log_entry op) k (key_events k m).
Proof.
  intros Hf. destruct (op_evicts op m) eqn:He.
  2: { eexists. split; [by apply mem_op_exact|]. by rewrite apply_entry_events. }
  destruct op as [p id| | |]; [|done..]. simpl in *. unfold mark_pending. rewrite Hf.
  unfold key_events at 1 in He. fold (key_events (pid_as_bytes p) m) in *. rewrite He.
  destruct (evict_all _ _ _) as [E t] eqn:Hev.
  match type of Hev with evict_all ?ids ?E0 ?t0 = _ =>
    pose proof (evict_all_subset ids E0 t0) as HE; rewrite Hev in HE end. simpl in HE.
  case_bool_decide; eexists; (split; [done|]); rewrite key_events_set; case_decide; subst; set_solver.
Qed.

(** ** Writing *)

Definition log_content (s : PersistentPendingStore) : list byte := pl_file s ++ pl_buffer s.

Lemma buf_write_ok l s : ∃ f b, buf_write None l s = (pl_set_log f b s, Ok tt) ∧ f ++ b = log_content s ++ l.
Proof.
  unfold buf_write, log_content. rewrite run_gets_bind, run_bind.
  destruct (Nat.ltb_spec BUF_CAPACITY (length (pl_buffer s) + length l)) as [Hfull|Hroom].
  - cbn [flush_buf]. destruct (Nat.leb_spec BUF_CAPACITY (length l)); eexists _, _; (split; [done|]); [|done].
    simpl. by rewrite app_nil_r.
  - rewrite run_ret. destruct (Nat.leb_spec BUF_CAPACITY (length l)) as [Hbig|Hsmall].
    + assert (pl_buffer s = []) as Hb by (destruct (pl_buffer s); [done|simpl in Hroom; lia]).
      eexists _, _. split; [done|]. by rewrite Hb, !app_nil_r.
    + eexists _, _. split; [done|]. simpl. by rewrite app_assoc.
Qed.

(** Where the file can end after an entry: where it did, or after what was there
    before, after the text or after the line. *)
Definition written_to (s : PersistentPendingStore) (v f : list byte) : Prop :=
  f = pl_file s ∨ f = log_content s ∨ f = log_content s ++ base64_encode v ∨ f = log_content s ++ base64_encode v ++ [x0a].

Lemma buf_write_file l s f b : buf_write None l s = (pl_set_log f b s, Ok tt) →
  f = pl_file s ∨ f = log_content s ∨ f = log_content s ++ l.
Proof.
  unfold buf_write, log_content. rewrite run_gets_bind, run_bind.
  destruct (Nat.ltb_spec BUF_CAPACITY (length (pl_buffer s) + length l)) as [Hfull|Hroom].
  - cbn [flush_buf]. destruct (Nat.leb_spec BUF_CAPACITY (length l)); intros [= <- _]; auto.
  - rewrite run_ret. destruct (Nat.leb_spec BUF_CAPACITY (length l)) as [Hbig|Hsmall]; intros [= <- _]; [|by left].
    assert (pl_buffer s = []) as -> by (destruct (pl_buffer s); [done|simpl in Hroom; lia]). rewrite app_nil_r. auto.
Qed.

(** An entry that is written adds its line. *)
Lemma pl_write_entry_ok e v s : pl_open s = true → pc_log e = Ok v →
  ∃ f b, pl_write_entry log_io_ok e s = (pl_set_log f b s, Ok tt) ∧
    f ++ b = log_content s ++ base64_encode v ++ [x0a] ∧ (sync_writes s = true → b = []) ∧ written_to s v f.
Proof.
  intros Ho Hv. unfold pl_write_entry. rewrite run_gets_bind, Ho. cbn [negb]. rewrite Hv, run_bind, run_ret.
  destruct (buf_write_ok (base64_encode v) s) as (f & b & Hw & Hc). rewrite (run_bind_ok _ _ _ _ _ Hw).
  destruct (buf_write_ok [x0a] (pl_set_log f b s)) as (f' & b' & Hw' & Hc'). pose proof Hw' as Hw''. rewrite (run_bind_ok _ _ _ _ _ Hw').
  rewrite run_gets_bind. assert (f' ++ b' = log_content s ++ base64_encode v ++ [x0a]) as Hfb.
  { rewrite Hc'. unfold log_content at 1. simpl. by rewrite Hc, <- app_assoc. }
  cbn [sync_writes pl_set_log]. destruct (sync_writes s).
  - cbn. eexists _, []. rewrite app_nil_r. split; [done|]. split; [done|]. split; [done|]. unfold written_to. auto.
  - eexists _, _. split; [done|]. split; [done|]. split; [done|]. unfold written_to.
    pose proof (buf_write_file _ _ _ _ Hw) as Hf. pose proof (buf_write_file _ _ _ _ Hw'') as Hf'.
    change (log_content (pl_set_log f b s)) with (f ++ b) in Hf'. rewrite Hc in Hf'. cbn [pl_file pl_set_log] in Hf'.
    rewrite <- app_assoc in Hf'. naive_solver.
Qed.

(** The text of the entries. *)
Definition log_text (es : list LogEntry) : list byte :=
  concat ((λ e, match pc_log e with Ok v => base64_encode v ++ [x0a] | Err _ => [] end) <$> es).

Lemma log_text_snoc es e v : pc_log e = Ok v → log_text (es ++ [e]) = log_text es ++ base64_encode v ++ [x0a].
Proof. intros Hv. unfold log_text. rewrite fmap_app, concat_app. simpl. by rewrite Hv, app_nil_r. Qed.

Lemma parse_line_ok e v : pc_log e = Ok v → parse_line (base64_encode v) = Some e.
Proof.
  intros Hv. destruct (log_ok e v Hv) as [Hp Hne].
  destruct (encode_shape (length v) v (le_n _)) as (_ & _ & Hhd). destruct (Hhd Hne) as (c & r & Heq & Hc).
  unfold parse_line. rewrite base64_roundtrip, Hp, Heq. pose proof (text_rejected c r Hc).
  by destruct (pc_parse_log (c :: r)).
Qed.

(** Reading the text of entries applies them in their order. *)
Lemma load_text es m : Forall (λ e, is_ok (pc_log e) = true) es →
  load_lines (lines (log_text es)) m = Ok (foldl (λ m e, apply_entry e m) m es).
Proof.
  intros Hes. revert m. induction Hes as [|e es He _ IH]; intros m; [done|].
  destruct (pc_log e) as [v|] eqn:Hv; [|done].
  assert (log_text (e :: es) = base64_encode v ++ [x0a] ++ log_text es) as ->
    by (unfold log_text; simpl; rewrite Hv; by rewrite <- app_assoc).
  destruct (encode_shape (length v) v (le_n _)) as (_ & Hf & Hhd).
  destruct (Hhd (proj2 (log_ok e v Hv))) as (c & r & Heq & _).
  rewrite lines_b64 by done. cbn [load_lines]. rewrite (utf8_b64 _ Hf), (trim_b64 _ Hf), (parse_line_ok e v Hv).
  rewrite bool_decide_false by by rewrite Heq. apply IH.
Qed.

(** ** Compaction *)

Lemma entry_lines_ok es l : entry_lines es = Ok l → l = log_text es ∧ Forall (λ e, is_ok (pc_log e) = true) es.
Proof.
  revert l. induction es as [|e es IH]; intros l; cbn [entry_lines]; [by intros [= <-]|].
  unfold entry_line. destruct (pc_log e) as [v|] eqn:Hv; [|done]. cbn [rbind].
  destruct (entry_lines es) as [r|]; [|done]. intros [= <-]. destruct (IH r eq_refl) as [-> Hes].
  split; [|constructor; [by rewrite Hv|done]]. unfold log_text. simpl. by rewrite Hv.
Qed.

Lemma marks_events es : (∀ e, e ∈ es → ∃ k id, e = MarkPending k id) → ∀ m k id,
  id ∈ key_events k (foldl (λ m e, apply_entry e m) m es) ↔ id ∈ key_events k m ∨ MarkPending k id ∈ es.
Proof.
  induction es as [|e es IH]; intros Hes m k id; [set_solver|]. cbn [foldl].
  destruct (Hes e) as (k' & id' & ->); [by constructor|].
  rewrite IH by (intros; apply Hes; by constructor). rewrite apply_entry_events. simpl. rewrite elem_of_cons.
  case_decide as Hk; [subst; rewrite elem_of_union, elem_of_singleton; naive_solver|naive_solver].
Qed.

Lemma elem_of_state_entries m e :
  e ∈ state_entries m ↔ ∃ k id, e = MarkPending k id ∧ id ∈ key_events k m.
Proof.
  unfold state_entries, key_events. rewrite list_elem_of_In, in_concat. setoid_rewrite <- list_elem_of_In.
  setoid_rewrite list_elem_of_fmap. split.
  - intros (l & ([k E] & -> & Hk%elem_of_map_to_list) & He). apply list_elem_of_fmap in He as (id & -> & Hid).
    exists k, id. rewrite Hk. split; [done|]. destruct (events_in_order_spec E) as (_ & _ & Hin & _). by apply Hin.
  - intros (k & id & -> & Hid). destruct (pending m !! k) as [E|] eqn:Hk; [|set_solver]. simpl in Hid.
    destruct (events_in_order_spec E) as (_ & _ & Hin & _).
    exists (MarkPending k <$> events_in_order E). split; [|apply list_elem_of_fmap; exists id; by rewrite Hin].
    exists (k, E). split; [done|]. by apply elem_of_map_to_list.
Qed.

(** ** Runs *)

(** What is done to a store between two starts: operations, flushes and
    compactions. *)
Inductive pl_action : Type := PaOp (op : pl_op) | PaFlush | PaCompact.

Definition compact_io_ok : CompactIo := {| cio_temp := None; cio_rename := None; cio_open := None |}.

(** An action where no file fails; one that the quota rejects changes nothing.
    Beside the store stands whether its memory lacks events of the log, since
    evictions are not logged. *)
Definition run_pl_action (x : PersistentPendingStore * bool) (a : pl_action) : PersistentPendingStore * bool :=
  match a with
  | PaOp op => ((run_pl_op log_io_ok op x.1).1, x.2 || op_evicts op (pl_mem x.1))
  | PaFlush => ((pl_flush None x.1).1, x.2)
  | PaCompact => let '(s, r) := pl_compact compact_io_ok x.1 in (s, if is_ok r then false else x.2)
  end.

Definition run_pl_ops (l : list pl_action) (x : PersistentPendingStore * bool) : PersistentPendingStore * bool :=
  foldl run_pl_action x l.

Definition loggable (a : pl_action) : Prop :=
  match a with PaOp op => is_ok (pc_log (op_log_entry op)) = true | _ => True end.

Definition replay (q : QuotaManager) (es : list LogEntry) : InMemoryPendingStore :=
  foldl (λ m e, apply_entry e m) (pending_with_quota q) es.

(** The replay of entries has all events of the memory, and no others unless
    some were evicted. *)
Definition covers (q : QuotaManager) (es : list LogEntry) (m : InMemoryPendingStore) (evicted : bool) : Prop :=
  Forall (λ e, is_ok (pc_log e) = true) es ∧
  (∀ k, key_events k m ⊆ key_events k (replay q es)) ∧
  (evicted = false → ∀ k, key_events k m = key_events k (replay q es)).

Record log_covers (q : QuotaManager) (sync : bool) (s : PersistentPendingStore) (evicted : bool) : Prop := {
  lc_open : pl_open s = true;
  lc_synced : sync_writes s = sync ∧ (sync = true → pl_buffer s = []);
  lc_entries : ∃ es, log_content s = log_text es ∧ covers q es (pl_mem s) evicted;
}.

(** A file of whole lines, the last of which may lack its end. *)
Definition file_at (es : list LogEntry) (file : list byte) : Prop :=
  file = log_text es ∨ ∃ es' e v, es = es' ++ [e] ∧ pc_log e = Ok v ∧ file = log_text es' ++ base64_encode v.

Definition file_covers (q : QuotaManager) (file : list byte) (x : PersistentPendingStore * bool) : Prop :=
  ∃ es, file_at es file ∧ covers q es (pl_mem x.1) x.2.

Lemma run_pl_op_eq op s : pl_open s = true → is_ok (pc_log (op_log_entry op)) = true →
  (op_full op (pl_mem s) = true ∧ (run_pl_op log_io_ok op s).1 = s) ∨
  (op_full op (pl_mem s) = false ∧ ∃ v f b, pc_log (op_log_entry op) = Ok v ∧
     (run_pl_op log_io_ok op s).1 = pl_set_mem (mem_op op (pl_mem s)).1 (pl_set_log f b s) ∧
     f ++ b = log_content s ++ base64_encode v ++ [x0a] ∧ (sync_writes s = true → b = []) ∧ written_to s v f).
Proof.
  intros Ho Hok. destruct (pc_log (op_log_entry op)) as [v|] eqn:Hv; [|done].
  destruct (pl_write_entry_ok _ v s Ho Hv) as (f & b & Hw & Hc & Hb & Hf0).
  assert (∀ m, ((pl_write_entry log_io_ok (op_log_entry op) ;; on_mem m) s).1 = pl_set_mem (m (pl_mem s)).1 (pl_set_log f b s)) as Hrun.
  { intros m. rewrite (run_bind_ok _ _ _ _ _ Hw). unfold on_mem. by rewrite run_zoom. }
  destruct op as [p id|p id|p up|p]; simpl in *.
  - unfold pl_mark_pending. rewrite run_gets_bind. destruct (would_exceed_total_quota _ _) eqn:Hf; [by left|].
    right. split; [done|]. exists v, f, b. split; [done|]. split; [apply Hrun|done].
  - right. split; [done|]. exists v, f, b. split; [done|]. split; [apply Hrun|done].
  - right. split; [done|]. exists v, f, b. split; [done|]. split; [apply Hrun|done].
  - right. split; [done|]. exists v, f, b. split; [done|]. split; [apply Hrun|done].
Qed.

Lemma covers_snoc q es m evicted op : covers q es m evicted → is_ok (pc_log (op_log_entry op)) = true → op_full op m = false →
  covers q (es ++ [op_log_entry op]) (mem_op op m).1 (evicted || op_evicts op m).
Proof.
  intros (Hes & Hsub & Hexact) Hok Hf. split; [apply Forall_app; split; [done|by constructor]|].
  assert (Hr : ∀ k, key_events k (replay q (es ++ [op_log_entry op])) = entry_effect (op_log_entry op) k (key_events k (replay q es))).
  { intros k. unfold replay. rewrite foldl_app. cbn [foldl]. apply apply_entry_events. }
  split.
  - intros k. rewrite Hr. destruct (mem_op_subset op m k Hf) as (m' & -> & Hk). etrans; [exact Hk|]. apply entry_effect_mono, Hsub.
  - intros [He Hev]%orb_false_iff k. rewrite Hr, (mem_op_exact _ _ Hf Hev). cbn [fst]. by rewrite apply_entry_events, (Hexact He k).
Qed.

Lemma covers_evicted q es m evicted : covers q es m evicted → ∀ b, covers q es m (evicted || b).
Proof. intros (? & ? & Hexact) b. split_and!; [done..|]. intros [??]%orb_false_iff. by apply Hexact. Qed.

(** What compaction writes. *)
Lemma covers_state q m l : entry_lines (state_entries m) = Ok l → l = log_text (state_entries m) ∧ covers q (state_entries m) m false.
Proof.
  intros [-> Hes]%entry_lines_ok. split; [done|]. split; [done|].
  assert (Heq : ∀ k, key_events k m = key_events k (replay q (state_entries m))); [|split; intros; by rewrite Heq].
  intros k. apply set_eq. intros id. unfold replay. rewrite marks_events.
  - rewrite elem_of_state_entries. unfold key_events at 2. cbn [pending pending_with_quota]. rewrite lookup_empty. cbn [default from_option].
    split; [intros Hid; right; eauto|]. intros [?|(k' & id' & [= -> ->] & Hid)]; [set_solver|done].
  - intros e (k' & id' & -> & _)%elem_of_state_entries. eauto.
Qed.

Lemma compact_cases q s : pl_open s = true →
  (pl_compact compact_io_ok s).1 = s ∧ is_ok (pl_compact compact_io_ok s).2 = false ∨
  ∃ es, (pl_compact compact_io_ok s).1 = pl_set_log (log_text es) [] s ∧ is_ok (pl_compact compact_io_ok s).2 = true ∧
    covers q es (pl_mem s) false.
Proof.
  intros Ho. unfold pl_compact. cbn [compact_io_ok cio_temp cio_rename cio_open].
  destruct (entry_lines _) as [l|] eqn:Hl; [right|by left]. destruct (covers_state q _ _ Hl) as [-> Hc].
  eexists. split; [|split; [done|exact Hc]]. destruct s. simpl in *. subst. done.
Qed.

Lemma run_action_covers q sync a x : loggable a → log_covers q sync x.1 x.2 →
  log_covers q sync (run_pl_action x a).1 (run_pl_action x a).2.
Proof.
  destruct x as [s evicted]. intros Hok [Ho [Hsy Hbuf] (es & Htext & Hc)]. cbn [fst snd] in *. destruct a as [op| |]; cbn [run_pl_action fst snd].
  - destruct (run_pl_op_eq op s Ho Hok) as [[Hf ->]|(Hf & v & f & b & Hv & -> & Hfb & Hb & _)].
    + split; [done..|]. exists es. split; [done|]. by apply covers_evicted.
    + split; [done|by rewrite Hsy in Hb|]. exists (es ++ [op_log_entry op]). split; [|by apply covers_snoc].
      unfold log_content. simpl. by rewrite Hfb, Htext, (log_text_snoc _ _ v).
  - unfold pl_flush. rewrite run_gets_bind, Ho. split; [done..|]. exists es. unfold log_content. simpl. rewrite app_nil_r. done.
  - destruct (compact_cases q s Ho) as [[Hs Hr]|(es' & Hs & Hr & Hc')]; destruct (pl_compact compact_io_ok s) as [s1 r];
      cbn [fst snd] in *; subst; rewrite Hr.
    + by split; [..|exists es].
    + split; [done..|]. exists es'. unfold log_content. simpl. rewrite app_nil_r. done.
Qed.

Lemma run_pl_ops_covers q sync l : ∀ x, Forall loggable l → log_covers q sync x.1 x.2 →
  log_covers q sync (run_pl_ops l x).1 (run_pl_ops l x).2.
Proof.
  induction l as [|a l IH]; intros x Hl Hx; [done|]. apply Forall_cons in Hl as [Ha Hl].
  apply IH; [done|]. by apply run_action_covers.
Qed.

(** The file is behind by some of the last actions. *)
Lemma file_behind q sync l x : Forall loggable l → log_covers q sync x.1 x.2 → file_covers q (pl_file x.1) x →
  ∃ kept lost, l = kept ++ lost ∧ file_covers q (pl_file (run_pl_ops l x).1) (run_pl_ops kept x).
Proof.
  intros Hl Hx Hf. induction l as [|a l IH] using rev_ind; [by exists [], []|].
  apply Forall_app in Hl as [Hl Ha]. apply Forall_cons in Ha as [Ha _]. destruct (IH Hl) as (kept & lost & -> & Hk).
  pose proof (run_pl_ops_covers q sync _ x Hl Hx) as [Ho _ (es & Htext & Hc)].
  unfold run_pl_ops at 1. rewrite foldl_app. cbn [foldl]. fold (run_pl_ops (kept ++ lost) x).
  set (y := run_pl_ops (kept ++ lost) x) in *.
  assert (Hold : ∃ kept' lost', (kept ++ lost) ++ [a] = kept' ++ lost' ∧ file_covers q (pl_file y.1) (run_pl_ops kept' x)).
  { exists kept, (lost ++ [a]). split; [by rewrite app_assoc|done]. }
  assert (Hnow : ∀ file, file_covers q file (run_pl_action y a) →
    ∃ kept' lost', (kept ++ lost) ++ [a] = kept' ++ lost' ∧ file_covers q file (run_pl_ops kept' x)).
  { intros file Hfile. exists ((kept ++ lost) ++ [a]), []. split; [by rewrite app_nil_r|].
    unfold run_pl_ops. rewrite foldl_app. exact Hfile. }
  assert (Hbefore : ∃ kept' lost', (kept ++ lost) ++ [a] = kept' ++ lost' ∧ file_covers q (log_content y.1) (run_pl_ops kept' x)).
  { exists (kept ++ lost), [a]. split; [done|]. exists es. split; [by left|exact Hc]. }
  destruct a as [op| |]; cbn [run_pl_action fst].
  - destruct (run_pl_op_eq op y.1 Ho Ha) as [[_ ->]|(Hf' & v & f & b & Hv & Hrun & _ & _ & Hw)]; [exact Hold|].
    rewrite Hrun. cbn [pl_file pl_set_mem pl_set_log]. destruct Hw as [->|[->|[->| ->]]]; [exact Hold|exact Hbefore|..];
      apply Hnow; exists (es ++ [op_log_entry op]); cbn [run_pl_action fst snd]; rewrite Hrun; cbn [pl_mem pl_set_mem]; (split; [|by apply covers_snoc]).
    + right. exists es, (op_log_entry op), v. by rewrite Htext.
    + left. by rewrite Htext, (log_text_snoc _ _ v).
  - apply Hnow. exists es. cbn [run_pl_action fst snd]. unfold pl_flush. rewrite run_gets_bind, Ho. split; [by left|done].
  - destruct (compact_cases q y.1 Ho) as [[Hs Hr]|(es' & Hs & Hr & Hc')].
    + destruct (pl_compact compact_io_ok y.1) as [s1 r]. cbn [fst] in *. subst. exact Hold.
    + apply Hnow. exists es'. cbn [run_pl_action]. destruct (pl_compact compact_io_ok y.1) as [s1 r]. cbn [fst snd] in *. subst.
      rewrite Hr. split; [by left|done].
Qed.

Lemma load_at es file m : file_at es file → Forall (λ e, is_ok (pc_log e) = true) es →
  load_lines (lines file) m = Ok (foldl (λ m e, apply_entry e m) m es).
Proof.
  intros [->|(es' & e & v & -> & Hv & ->)] Hes; [by apply load_text|]. apply Forall_app in Hes as [Hes _].
  destruct (encode_shape (length v) v (le_n _)) as (_ & Hf & Hhd). destruct (Hhd (proj2 (log_ok e v Hv))) as (c & r & Heq & _).
  rewrite foldl_app. cbn [foldl]. revert m. induction Hes as [|e' es' He _ IH]; intros m.
  - change (log_text [] ++ base64_encode v) with (base64_encode v). unfold lines.
    rewrite (lines_loop_last _ Hf []) by (cbn [app]; by rewrite Heq). cbn [app load_lines].
    rewrite (utf8_b64 _ Hf), (trim_b64 _ Hf), (parse_line_ok e v Hv). rewrite bool_decide_false by by rewrite Heq. done.
  - destruct (pc_log e') as [w|] eqn:Hw; [|done].
    assert (log_text (e' :: es') ++ base64_encode v = base64_encode w ++ [x0a] ++ log_text es' ++ base64_encode v) as ->
      by (unfold log_text; simpl; rewrite Hw; by rewrite <- !app_assoc).
    destruct (encode_shape (length w) w (le_n _)) as (_ & Hfw & Hhdw). destruct (Hhdw (proj2 (log_ok e' w Hw))) as (c' & r' & Heqw & _).
    rewrite lines_b64 by done. cbn [load_lines]. rewrite (utf8_b64 _ Hfw), (trim_b64 _ Hfw), (parse_line_ok e' w Hw).
    rewrite bool_decide_false by by rewrite Heqw. apply IH.
Qed.

Lemma pending_for_events p s l : pl_pending_for p s = Ok l → ∀ id, id ∈ l ↔ id ∈ key_events (pid_as_bytes p) (pl_mem s).
Proof.
  unfold pl_pending_for, events_pending_for, key_events. intros Hl id. destruct (pending _ !! _) as [E|]; injection Hl as <-.
  - destruct (events_in_order_spec E) as (_ & _ & Hin & _). apply Hin.
  - set_solver.
Qed.

Lemma pending_for_eq p s : pl_pending_for p s = Ok (events_in_order (key_events (pid_as_bytes p) (pl_mem s))).
Proof. unfold pl_pending_for, events_pending_for, key_events. by destruct (pending _ !! _). Qed.

(** A file with the lines of entries. *)
Definition log_file (file : option (list byte)) : Prop :=
  ∃ es, default [] file = log_text es ∧ Forall (λ e, is_ok (pc_log e) = true) es.

Lemma start_covers q sync file s0 : log_file file → with_options None q sync file = Ok s0 →
  log_covers q sync s0 false ∧ pl_buffer s0 = [] ∧ file_covers q (pl_file s0) (s0, false).
Proof.
  intros (es & Htext & Hes) Hs. unfold with_options in Hs. rewrite Htext, (load_text es) in Hs by done. injection Hs as <-.
  assert (Hc : covers q es (replay q es) false) by (split; [done|split; intros; done]).
  split; [|split; [done|]].
  - split; [done..|]. exists es. unfold log_content. simpl. by rewrite app_nil_r.
  - exists es. split; [by left|done].
Qed.

Lemma restart_covers q sync file x : file_covers q file x → ∃ s', with_options None q sync (Some file) = Ok s' ∧
  (∀ k, key_events k (pl_mem x.1) ⊆ key_events k (pl_mem s')) ∧ (x.2 = false → ∀ k, key_events k (pl_mem s') = key_events k (pl_mem x.1)).
Proof.
  intros (es & Hat & Hes & Hsub & Hexact). unfold with_options. cbn [default from_option id]. rewrite (load_at es) by done.
  cbn [rbind]. eexists. split; [done|]. split; [done|]. intros He k. symmetry. by apply Hexact.
Qed.

Lemma covers_on_file q sync s evicted : log_covers q sync s evicted → pl_buffer s = [] → file_covers q (pl_file s) (s, evicted).
Proof.
  intros [_ _ (es & Htext & Hc)] Hb. exists es. split; [|exact Hc]. left. unfold log_content in Htext. by rewrite Hb, app_nil_r in Htext.
Qed.

(** C37. Where no input or output fails, for a store that was started on a log
    of its own, or on none, and went through any operations, flushes and
    compactions: its buffer is empty after every action if it syncs its writes,
    and after a flush in any case.  A restart reads the file, without what is
    still in the buffer: it finds every event that was pending after some
    prefix of the actions since the buffer was last empty (after all of them if
    it is empty now), and no other event unless one was evicted since the last
    compaction, evictions not being logged. *)
Theorem persistent_pending_spec q sync file s0 before after t s :
  log_file file → with_options None q sync file = Ok s0 → Forall loggable (before ++ after) →
  run_pl_ops before (s0, false) = t → pl_buffer t.1 = [] → run_pl_ops after t = s →
  (sync = true → pl_buffer s.1 = []) ∧ pl_buffer (pl_flush None s.1).1 = [] ∧
  (pl_buffer s.1 = [] → log_file (Some (pl_file s.1))) ∧
  ∃ kept lost s', after = kept ++ lost ∧ (pl_buffer s.1 = [] → lost = []) ∧
    with_options None q sync (Some (pl_file s.1)) = Ok s' ∧
    let u := run_pl_ops kept t in
    (∀ p l l', pl_pending_for p u.1 = Ok l → pl_pending_for p s' = Ok l' → l ⊆ l') ∧
    (u.2 = false → ∀ p, pl_pending_for p s' = pl_pending_for p u.1).
Proof.
  intros Hfile Hs0 [Hb Ha]%Forall_app Ht Hbuf Hs. destruct (start_covers _ _ _ _ Hfile Hs0) as (Hc0 & _ & _).
  pose proof (run_pl_ops_covers q sync before (s0, false) Hb Hc0) as Hct. rewrite Ht in Hct.
  pose proof (run_pl_ops_covers q sync after t Ha Hct) as Hcs. rewrite Hs in Hcs.
  split; [by apply (lc_synced _ _ _ _ Hcs)|]. split; [unfold pl_flush; by rewrite run_gets_bind, (lc_open _ _ _ _ Hcs)|]. split.
  { intros He. destruct Hcs as [_ _ (es & Htext & Hes & _)]. exists es. unfold log_content in Htext. by rewrite He, app_nil_r in Htext. }
  assert (∃ kept lost, after = kept ++ lost ∧ (pl_buffer s.1 = [] → lost = []) ∧ file_covers q (pl_file s.1) (run_pl_ops kept t))
    as (kept & lost & Hsplit & Hnone & Hcov).
  { destruct (decide (pl_buffer s.1 = [])) as [He|He].
    - exists after, []. rewrite app_nil_r. split; [done|]. split; [done|]. rewrite Hs. destruct s. by eapply covers_on_file.
    - destruct (file_behind q sync after t Ha Hct) as (kept & lost & -> & Hk); [destruct t; by eapply covers_on_file|].
      rewrite Hs in Hk. by exists kept, lost. }
  destruct (restart_covers q sync _ _ Hcov) as (s' & Hs' & Hsub & Hexact). exists kept, lost, s'. split; [done|]. split; [done|]. split; [done|]. split.
  - intros p l l' Hl Hl' id. rewrite (pending_for_events _ _ _ Hl), (pending_for_events _ _ _ Hl'). apply Hsub.
  - intros He p. by rewrite !pending_for_eq, (Hexact He).
Qed.

(** Evictions are not logged: an event that made room for another one is
    pending again after a restart. *)
Theorem evicted_event_returns q sync s p ev x :
  log_covers q sync s false → is_ok (pc_log (MarkPending (pid_as_bytes p) ev)) = true →
  x ∈ key_events (pid_as_bytes p) (pl_mem s) →
  let s1 := (run_pl_op log_io_ok (PlMark p ev) s).1 in
  x ∉ key_events (pid_as_bytes p) (pl_mem s1) →
  ∃ s', with_options None q sync (Some (log_content s1)) = Ok s' ∧ x ∈ key_events (pid_as_bytes p) (pl_mem s').
Proof.
  intros Hc Hok Hx s1 Hgone.
  destruct Hc as [Ho [Hsy Hbuf] (es & Htext & Hes & Hsub & Hexact)].
  destruct (run_pl_op_eq (PlMark p ev) s Ho Hok) as [[_ Hs1]|(_ & v & f & b & Hv & Hs1 & Hfb & _ & _)].
  { unfold s1 in Hgone. by rewrite Hs1 in Hgone. }
  assert (log_content s1 = log_text (es ++ [MarkPending (pid_as_bytes p) ev])) as ->.
  { unfold s1. rewrite Hs1. unfold log_content at 1. simpl. by rewrite Hfb, Htext, (log_text_snoc _ _ v). }
  unfold with_options. cbn [default from_option id]. rewrite load_text by (apply Forall_app; by repeat constructor).
  cbn [rbind]. eexists. split; [done|]. rewrite foldl_app. cbn [foldl pl_mem]. rewrite apply_entry_events.
  simpl. rewrite decide_True by done. apply elem_of_union_r. by apply Hsub.
Qed.

End PersistentFacts.
