(* ===== verification/Storage.v ===== *)
(** * The composite storage

    Models [indras-storage/src/composite.rs]: the event logs of the interfaces
    ([AppendLog]), opened when they are first used, the blob store
    ([ContentStore]), the structured storage ([RedbStore]) and the node's log
    ([NodeLog]), which holds the one database that the stores share.  What the
    operating system answers to one operation is a record [StorageIo]. *)

From S2P Require Import Prelude Bytes Packet Pending Bundle RelayConfig Wire BlobStore RelayAuth Documents.
From S2P Require Import ContentStore RedbStore AppendLog NodeLog.

Local Open Scope string_scope.
Local Open Scope Z_scope.
Local Open Scope list_scope.

Record CompositeStorageConfig : Type := {
  csc_base_dir : string;
  csc_event_log : EventLogConfig;
  csc_redb : RedbStorageConfig;
  csc_blobs : BlobStoreConfig;
  blob_threshold : Z;
}.

Definition composite_with_base_dir (dir : string) : CompositeStorageConfig :=
  {| csc_base_dir := dir;
     csc_event_log := {| elc_base_dir := dir +:+ "/logs"; max_segment_size := max_segment_size event_log_config_default;
                         sync_on_write := sync_on_write event_log_config_default;
                         index_cache_size := index_cache_size event_log_config_default |};
     csc_redb := {| rc_db_path := dir +:+ "/indras.redb"; rc_cache_size := rc_cache_size redb_config_default |};
     csc_blobs := blob_store_config_default;
     blob_threshold := 4096 |}.

Definition composite_config_default : CompositeStorageConfig := composite_with_base_dir "./data".

(** The open logs, the files of the others, the blobs, and the node's log with
    the database. *)
Record CompositeStorage : Type := {
  cs_logs : gmap arr32 EventLog;
  cs_disk : gmap arr32 (list byte);
  cs_blobs : DiskBlobs;
  cs_node : NodeLog;
  cs_config : CompositeStorageConfig;
}.

Definition cs_set_logs (l : gmap arr32 EventLog) (s : CompositeStorage) : CompositeStorage :=
  {| cs_logs := l; cs_disk := cs_disk s; cs_blobs := cs_blobs s; cs_node := cs_node s; cs_config := cs_config s |}.

Definition cs_set_blobs (b : DiskBlobs) (s : CompositeStorage) : CompositeStorage :=
  {| cs_logs := cs_logs s; cs_disk := cs_disk s; cs_blobs := b; cs_node := cs_node s; cs_config := cs_config s |}.

Definition cs_set_node (n : NodeLog) (s : CompositeStorage) : CompositeStorage :=
  {| cs_logs := cs_logs s; cs_disk := cs_disk s; cs_blobs := cs_blobs s; cs_node := n; cs_config := cs_config s |}.

Record StorageIo : Type := {
  si_open : option string;
  si_write : WriteIo;
  si_read : option string;
  si_store : option StoreFault;
  si_blob : option string;
}.

Definition storage_io_ok : StorageIo :=
  {| si_open := None; si_write := io_ok; si_read := None; si_store := None; si_blob := None |}.

Section Composite.
Context {I : Type} `{PeerIdentity I} `{RecordPostcard} `{EntryPostcard} `{NodeLogPostcard} `{Blake3}.
Implicit Types (p : I) (f : arr32).

(** [CompositeStorage::new] on the files and the database found. *)
Definition composite_new (dir db_dir create blobs node : option string) (c : CompositeStorageConfig)
    (logs : gmap arr32 (list byte)) (blob_files : gmap (list string) (list byte)) (node_file : list byte) (r : RedbStorage) : Result CompositeStorage DbError :=
  match dir with
  | Some m => Err (DbIo m)
  | None =>
      match redb_open db_dir create r with
      | (_, Err e) => Err e
      | (r, Ok _) =>
          let? b := disk_blobs_new blobs (csc_blobs c) blob_files in
          let? n := node_log_open node node_file r in
          Ok {| cs_logs := ∅; cs_disk := logs; cs_blobs := b; cs_node := n; cs_config := c |}
      end
  end.

Definition on_cs_redb {A} (m : M RedbStorage DbError A) : M CompositeStorage DbError A :=
  zoom (λ s, nl_redb (cs_node s)) (λ r s, cs_set_node (nl_set_redb r (cs_node s)) s) m.

Definition on_blobs {A} (m : M DiskBlobs DbError A) : M CompositeStorage DbError A := zoom cs_blobs cs_set_blobs m.

(** [event_log]: the open log of an interface, opened when there is none. *)
Definition cs_event_log (os : option string) f : M CompositeStorage DbError EventLog := λ s,
  match cs_logs s !! f with
  | Some l => (s, Ok l)
  | None =>
      match event_log_new os f (csc_event_log (cs_config s)) (default [] (cs_disk s !! f)) with
      | Ok l => (cs_set_logs (<[f := l]> (cs_logs s)) s, Ok l)
      | Err e => (s, Err e)
      end
  end.

(** A call on the shared log of an interface. *)
Definition on_event_log {A} (os : option string) f (m : M EventLog DbError A) : M CompositeStorage DbError A := λ s,
  match cs_event_log os f s with
  | (s, Err e) => (s, Err e)
  | (s, Ok l) => let '(l', r) := m l in (cs_set_logs (<[f := l']> (cs_logs s)) s, r)
  end.

(** The payload goes to the log, or to the blobs and its reference to the log. *)
Definition record_payload (io : StorageIo) (threshold now : Z) f (id : EventId) (payload : list byte)
    : M CompositeStorage DbError Z :=
  if threshold <=? Z.of_nat (length payload) then
    c ← on_blobs (blob_store (si_store io) payload);
    on_event_log (si_open io) f (append_with_blob (si_write io) now id (blob_ref_new (cr_hash c) (cr_size c)))
  else on_event_log (si_open io) f (el_append (si_write io) now id payload).

Definition append_event (io : StorageIo) (now : Z) f (id : EventId) (payload : list byte) : M CompositeStorage DbError Z :=
  cs_event_log (si_open io) f ;;
  threshold ← gets (λ s, blob_threshold (cs_config s));
  sequence ← record_payload io threshold now f id payload;
  ignore (on_cs_redb (increment_events now f)) ;;
  mret sequence.

Definition cs_get_event (io : StorageIo) f (id : EventId) : M CompositeStorage DbError (option EventLogEntry) :=
  on_event_log (si_open io) f (el_read_event (si_read io) id).

Definition events_since (io : StorageIo) f (since : Z) : M CompositeStorage DbError (list EventLogEntry) :=
  on_event_log (si_open io) f (read_since (si_read io) since).

Definition resolve_blob (io : StorageIo) (c : ContentRef) : M CompositeStorage DbError (list byte) :=
  reads (λ s, blob_load (si_blob io) c (cs_blobs s)).

Definition store_blob (io : StorageIo) (data : list byte) : M CompositeStorage DbError ContentRef :=
  on_blobs (blob_store (si_store io) data).

Definition delete_blob (io : StorageIo) (c : ContentRef) : M CompositeStorage DbError bool :=
  on_blobs (blob_delete (si_blob io) c).

Definition cs_create_interface (now : Z) f (name : option string) : M CompositeStorage DbError unit :=
  let r := interface_record_new now f in
  on_cs_redb (interface_upsert (match name with Some n => ir_with_name n r | None => r end)).

Definition register_peer (now : Z) p (name : option string) : M CompositeStorage DbError unit :=
  let r := peer_record_new now (pid_as_bytes p) in
  on_cs_redb (peer_upsert p (match name with Some n => pr_with_name n r | None => r end)).

Definition cs_add_member (now : Z) f p : M CompositeStorage DbError unit :=
  on_cs_redb (add_member f p (membership_record_new now (pid_as_bytes p))).

Definition update_sync_state (now : Z) p f (heads : list arr32) : M CompositeStorage DbError unit :=
  on_cs_redb (update_heads now p f heads).

Definition cs_acknowledge_events p f (up_to : EventId) : M CompositeStorage DbError unit :=
  on_cs_redb (acknowledge_events p f up_to).

Definition queue_for_delivery (now : Z) p f (id : EventId) : M CompositeStorage DbError unit :=
  on_cs_redb (queue_pending now p f id).

Definition cs_pending_for p f : M CompositeStorage DbError (list EventId) :=
  l ← on_cs_redb (queued_pending p f);
  mret (pdr_event_id <$> l).

Definition cs_compact : M CompositeStorage DbError unit := on_cs_redb redb_compact.

(** [close]: the open logs one after the other, until one fails. *)
Fixpoint close_logs (sync : arr32 → option string) (l : list (arr32 * EventLog)) : M CompositeStorage DbError unit :=
  match l with
  | [] => mret tt
  | (f, _) :: l => on_event_log None f (log_close (sync f)) ;; close_logs sync l
  end.

Definition cs_close (sync : arr32 → option string) : M CompositeStorage DbError unit :=
  logs ← gets cs_logs;
  close_logs sync (map_to_list logs).
End Composite.

(** ** Appending and reading *)

(** The events of each interface. *)
Abbreviation EventMap := (gmap arr32 (gmap EventId EventLogEntry)).

Section CompositeFacts.
Context {I : Type} `{PeerIdentity I} `{RecordPostcard} `{EntryPostcard} `{NodeLogPostcard} `{Blake3}.
Context (postcard_ok : ∀ e s, postcard_entry e = Ok s → postcard_parse_entry s = Ok e).

(** The log of an interface as [event_log] finds it: open, or opened on its
    file, which may be missing. *)
Definition found_log (s : CompositeStorage) (f : arr32) : Result EventLog DbError :=
  match cs_logs s !! f with
  | Some l => Ok l
  | None => event_log_new None f (csc_event_log (cs_config s)) (default [] (cs_disk s !! f))
  end.

Record storage_holds (s : CompositeStorage) (m : EventMap) : Prop := {
  sth_logs : ∀ f, ∃ l, found_log s f = Ok l ∧ log_holds l (default ∅ (m !! f));
  sth_blobs : blobs_ok (cs_blobs s);
}.

(** The number the next event of an interface gets. *)
Definition log_sequence (s : CompositeStorage) (f : arr32) : Z :=
  match found_log s f with Ok l => el_sequence l | Err _ => 0 end.

(** A storage opened on existing files: each has some entries, the last of
    which may have been cut short, or is missing. *)
Lemma composite_new_holds c logs blob_files node_file r s es :
  composite_new None None None None None c logs blob_files node_file r = Ok s →
  (∀ f, Forall entry_written (default [] (es !! f)) ∧
     ∃ t, torn_tail t ∧ default [] (logs !! f) = log_bytes (default [] (es !! f)) ++ t) →
  blobs_ok {| db_config := csc_blobs c; db_files := blob_files |} →
  storage_holds s (entries_map <$> (es : gmap arr32 (list EventLogEntry))).
Proof.
  unfold composite_new. destruct (redb_open _ _ _) as [r' []]; [|done]. cbn [rbind disk_blobs_new].
  destruct (node_log_open _ _ _) as [n|]; [|done]. intros [= <-] Hlogs Hb. split; [|done].
  intros f. destruct (Hlogs f) as (Hes & t & Ht & Hf). unfold found_log. cbn [cs_logs cs_config cs_disk]. rewrite lookup_empty, Hf.
  destruct (reopen_entries postcard_ok f (csc_event_log c) _ t Hes Ht) as (l & Hl & Hh & _). exists l. split; [exact Hl|].
  rewrite lookup_fmap. by destruct (es !! f).
Qed.

(** After [event_log] the log is open. *)
Lemma cs_event_log_holds s m f : storage_holds s m →
  ∃ s' l, cs_event_log None f s = (s', Ok l) ∧ cs_logs s' !! f = Some l ∧ storage_holds s' m ∧
    cs_blobs s' = cs_blobs s ∧ cs_config s' = cs_config s ∧ el_sequence l = log_sequence s f.
Proof.
  intros Hs. destruct (sth_logs _ _ Hs f) as (l & Hf & Hl). unfold cs_event_log, log_sequence. rewrite Hf. unfold found_log in Hf.
  destruct (cs_logs s !! f) as [l0|] eqn:Hopen; [exists s, l; by simplify_eq|]. rewrite Hf.
  exists (cs_set_logs (<[f := l]> (cs_logs s)) s), l. split; [done|]. split; [simpl; by rewrite lookup_insert_eq|].
  split; [|done]. destruct Hs as [Ho Hb]. split; [|done]. intros g. unfold found_log. simpl.
  destruct (decide (f = g)) as [<-|Hne]; [rewrite lookup_insert_eq; eauto|]. rewrite lookup_insert_ne by done. apply Ho.
Qed.

Lemma open_log_holds s m f l : storage_holds s m → cs_logs s !! f = Some l → log_holds l (default ∅ (m !! f)).
Proof. intros Hs Hl. destruct (sth_logs _ _ Hs f) as (l' & Hf & Hh). unfold found_log in Hf. rewrite Hl in Hf. by simplify_eq. Qed.

(** Replacing a log whose events are those of [x]. *)
Lemma storage_holds_log s m f l x : storage_holds s m → log_holds l x →
  storage_holds (cs_set_logs (<[f := l]> (cs_logs s)) s) (<[f := x]> m).
Proof.
  intros [Ho Hb] Hl. split; [|done]. intros g. unfold found_log. simpl.
  destruct (decide (f = g)) as [<-|Hne]; [rewrite !lookup_insert_eq; eauto|]. rewrite !lookup_insert_ne by done. apply Ho.
Qed.

Lemma get_event_holds s m f id : storage_holds s m →
  ∃ s', cs_get_event storage_io_ok f id s = (s', Ok (default ∅ (m !! f) !! id)).
Proof.
  intros Hs. destruct (cs_event_log_holds _ _ f Hs) as (s1 & l & Hl & Hlog & Hs1 & _).
  unfold cs_get_event, on_event_log. cbn [si_open si_read storage_io_ok]. rewrite Hl.
  destruct (read_event_holds postcard_ok _ _ id (open_log_holds _ _ _ _ Hs1 Hlog)) as (f' & -> & _). eauto.
Qed.

Lemma increment_keeps now f s : ∃ n, (ignore (on_cs_redb (increment_events now f)) s) = (cs_set_node n s, Ok tt).
Proof. unfold ignore, on_cs_redb. rewrite run_zoom. eauto. Qed.

Lemma storage_holds_node s m n : storage_holds s m → storage_holds (cs_set_node n s) m.
Proof. by intros []. Qed.

(** Appending to an open log. *)
Lemma on_log_append s m f op l : storage_holds s m → cs_logs s !! f = Some l →
  entry_fits (op_entry op (el_sequence l)) → is_ok (postcard_entry (op_entry op (el_sequence l))) = true →
  op_io op = io_ok →
  ∃ s', on_event_log None f (run_log_op op) s = (s', Ok (el_sequence l)) ∧ cs_blobs s' = cs_blobs s ∧
    let e := op_entry op (el_sequence l) in
    storage_holds s' (<[f := <[le_event_id e := e]> (default ∅ (m !! f))]> m).
Proof.
  intros Hs Hl Hfit Hok Hio. set (e := op_entry op (el_sequence l)) in *.
  unfold on_event_log, cs_event_log. rewrite Hl, run_log_op_eq, Hio. fold e.
  pose proof (open_log_holds _ _ _ _ Hs Hl) as Hh.
  assert (log_holds (set_sequence (wrap_u64 (el_sequence l + 1)) l) (default ∅ (m !! f))) as Hh' by done.
  destruct (write_entry io_ok e _) as [l' r] eqn:Hw.
  assert (r = Ok tt) as ->.
  { unfold write_entry in Hw. destruct (postcard_entry e); [|done]. cbn [set_sequence el_open] in Hw.
    rewrite (proj1 Hh) in Hw. cbn in Hw. by injection Hw. }
  destruct (write_entry_holds _ _ _ _ _ _ Hh' Hfit Hw) as [Hl' _].
  eexists. split; [done|]. split; [done|]. by apply storage_holds_log.
Qed.

(** The operation on the log that records an event. *)
Definition record_op (threshold now : Z) (id : EventId) (payload : list byte) : log_op :=
  if threshold <=? Z.of_nat (length payload)
  then LogAppendBlob io_ok now id (blob_ref_new (blake3 payload) (Z.of_nat (length payload)))
  else LogAppend io_ok now id payload.

(** The entry has the payload, or a reference to a blob with its content. *)
Definition entry_resolves (s : CompositeStorage) (payload : list byte) (e : EventLogEntry) : Prop :=
  match le_blob_ref e with
  | None => le_payload e = payload
  | Some b =>
      br_size b = Z.of_nat (length payload) ∧
      ∃ x, resolve_blob storage_io_ok {| cr_hash := br_hash b; cr_size := br_size b |} s = (s, Ok x) ∧
        (x = payload ∨ x ≠ payload ∧ blake3 x = blake3 payload)
  end.

Lemma store_payload s m f payload : storage_holds s m →
  Z.of_nat (length payload) <= max_blob_size (db_config (cs_blobs s)) →
  ∃ s', on_blobs (blob_store None payload) s = (s', Ok (content_ref_from_data payload)) ∧
    storage_holds s' m ∧ cs_logs s' !! f = cs_logs s !! f ∧
    ∃ x, blob_load None (content_ref_from_data payload) (cs_blobs s') = Ok x ∧
      (x = payload ∨ x ≠ payload ∧ blake3 x = blake3 payload).
Proof.
  intros Hs Hlen. destruct (blob_store None payload (cs_blobs s)) as [b r] eqn:Hb.
  destruct (blob_store_spec _ _ _ _ _ (sth_blobs _ _ Hs) Hb) as (Hok & _ & _ & Hr & Hload).
  specialize (Hr eq_refl). destruct (Z.ltb_spec (max_blob_size (db_config (cs_blobs s))) (Z.of_nat (length payload))); [lia|].
  subst r. exists (cs_set_blobs b s). unfold on_blobs. rewrite run_zoom, Hb. split; [done|].
  split; [destruct Hs; by split|]. split; [done|]. by apply Hload.
Qed.

Lemma record_event_holds s m threshold now f id payload l :
  let op := record_op threshold now id payload in
  storage_holds s m → cs_logs s !! f = Some l → entry_fits (op_entry op (el_sequence l)) →
  is_ok (postcard_entry (op_entry op (el_sequence l))) = true →
  Z.of_nat (length payload) <= max_blob_size (db_config (cs_blobs s)) →
  ∃ s', record_payload storage_io_ok threshold now f id payload s = (s', Ok (el_sequence l)) ∧
    let e := op_entry op (el_sequence l) in
    storage_holds s' (<[f := <[le_event_id e := e]> (default ∅ (m !! f))]> m) ∧ entry_resolves s' payload e.
Proof.
  intros op Hs Hlog Hfit Hok Hlen. unfold op, record_op, record_payload in *. cbn [si_open si_store si_write storage_io_ok].
  destruct (threshold <=? Z.of_nat (length payload)).
  - destruct (store_payload s m f payload Hs Hlen) as (s1 & Hst & Hs1 & Hlog1 & x & Hx & Hxx).
    rewrite (run_bind_ok _ _ _ _ _ Hst). rewrite Hlog in Hlog1.
    destruct (on_log_append _ _ _ _ _ Hs1 Hlog1 Hfit Hok eq_refl) as (s2 & Hr & Hb2 & Hs2).
    exists s2. split; [exact Hr|]. split; [exact Hs2|]. split; [done|]. exists x. split; [|done].
    unfold resolve_blob. rewrite run_reads. simpl. by rewrite Hb2, <- Hx.
  - destruct (on_log_append _ _ _ _ _ Hs Hlog Hfit Hok eq_refl) as (s2 & Hr & _ & Hs2).
    exists s2. split; [exact Hr|]. by split; [exact Hs2|].
Qed.

(** C39. For logs and blobs in order, be they open, closed on disk or not there
    yet, where no input or output fails, the entry encodes within the limit and
    the payload is no larger than a blob may be: an appended event gets the
    next number of its interface and is read back as its entry, with its
    payload or a reference to a blob that loads as the payload (up to a
    collision of BLAKE3).  All other events of all interfaces are read as
    before; an earlier entry with the same identifier is replaced. *)
Theorem append_event_spec s m now f id payload :
  let threshold := blob_threshold (cs_config s) in
  let op := record_op threshold now id payload in
  let n := log_sequence s f in
  let e := op_entry op n in
  storage_holds s m → entry_fits e → is_ok (postcard_entry e) = true →
  Z.of_nat (length payload) <= max_blob_size (db_config (cs_blobs s)) →
  ∃ s', append_event storage_io_ok now f id payload s = (s', Ok n) ∧
    le_event_id e = id ∧ le_sequence e = n ∧ entry_resolves s' payload e ∧
    ∀ g id', ∃ s'', cs_get_event storage_io_ok g id' s' =
      (s'', Ok (if decide ((g, id') = (f, id)) then Some e else default ∅ (m !! g) !! id')).
Proof.
  intros threshold op n e Hs Hfit Hok Hlen.
  destruct (cs_event_log_holds _ _ f Hs) as (s1 & l & Hl & Hlog & Hs1 & Hb1 & Hc1 & Hn1).
  unfold e, n in *. clear e n. rewrite <- Hn1 in *.
  assert (Z.of_nat (length payload) <= max_blob_size (db_config (cs_blobs s1))) as Hlen1 by by rewrite Hb1.
  destruct (record_event_holds s1 m threshold now f id payload l Hs1 Hlog Hfit Hok Hlen1) as (s2 & Hr2 & Hs2 & Hres).
  fold op in Hs2, Hres.
  destruct (increment_keeps now f s2) as [node Hn]. exists (cs_set_node node s2). split.
  { unfold append_event. cbn [si_open si_store si_write storage_io_ok]. rewrite (run_bind_ok _ _ _ _ _ Hl), run_gets_bind.
    rewrite Hc1. fold threshold. rewrite (run_bind_ok _ _ _ _ _ Hr2), (run_bind_ok _ _ _ _ _ Hn). done. }
  assert (le_event_id (op_entry op (el_sequence l)) = id) as Hid by (unfold op, record_op; by destruct (_ <=? _)).
  split; [done|]. split; [apply op_sequence|]. split.
  { unfold entry_resolves in *. destruct (le_blob_ref _); [|done]. destruct Hres as (Hsz & x & Hx & Hxx).
    split; [done|]. exists x. split; [|done]. unfold resolve_blob in *. rewrite run_reads in *. simpl in *. congruence. }
  intros g id'. destruct (get_event_holds _ _ g id' (storage_holds_node _ _ node Hs2)) as [s'' Hg]. exists s''.
  rewrite Hg, Hid. f_equal. f_equal. destruct (decide (f = g)) as [<-|Hne].
  - rewrite lookup_insert_eq. cbn [default from_option]. destruct (decide (id' = id)) as [->|Hi].
    + rewrite decide_True by done. apply lookup_insert_eq.
    + rewrite decide_False by congruence. by apply lookup_insert_ne.
  - rewrite lookup_insert_ne by done. by rewrite decide_False by congruence.
Qed.
End CompositeFacts.
