(* ===== verification/Messaging.v ===== *)
(** * Messaging

    Models [indras-messaging/src]: messages and envelopes ([message.rs]), the
    history of messages with its two maps ([history.rs]), the schema of typed
    content with its validator and registry ([schema.rs]) and the client that
    sends and receives over gossip ([client.rs], [error.rs]).  The two locks of
    the history are never poisoned, as nothing panics while it holds one; a
    call is one step except where the locks are looked at one by one.  Nonces
    and clocks are arguments, as are the answers of gossip; the events that
    gossip accepted are kept with the client.  [postcard] and [serde_json] are
    parameters. *)

From S2P Require Import Prelude Artifact Packet Pending Wire EventStore Sealing.

Local Open Scope string_scope.
Local Open Scope Z_scope.
Local Open Scope list_scope.

(** ** Messages *)

Record MessageId : Type := { mid_interface : arr32; mid_sequence : Z; mid_nonce : list byte }.

#[global] Instance MessageId_eq_dec : EqDecision MessageId.
Proof. solve_decision. Defined.

#[global] Instance MessageId_countable : Countable MessageId.
Proof.
  refine (inj_countable' (λ m, (mid_interface m, mid_sequence m, mid_nonce m))
    (λ '(a, b, c), {| mid_interface := a; mid_sequence := b; mid_nonce := c |}) _).
  by intros [].
Defined.

Definition message_id_new (nonce : list byte) (f : arr32) (n : Z) : MessageId :=
  {| mid_interface := f; mid_sequence := n; mid_nonce := nonce |}.

Definition message_id_from_parts (f : arr32) (n : Z) (nonce : list byte) : MessageId :=
  {| mid_interface := f; mid_sequence := n; mid_nonce := nonce |}.

Inductive MessageContent : Type :=
| McText (s : string)
| McBinary (mime_type : string) (data : list byte)
| McFile (name : string) (size : Z) (hash : arr32)
| McReaction (target : MessageId) (reaction : string)
| McSystem (s : string).

Definition mc_is_text (c : MessageContent) : bool := match c with McText _ => true | _ => false end.

Definition mc_as_text (c : MessageContent) : option string := match c with McText s => Some s | _ => None end.

Record Message (I : Type) : Type := {
  msg_id : MessageId;
  msg_sender : I;
  msg_interface_id : arr32;
  msg_content : MessageContent;
  msg_timestamp : Z;
  msg_reply_to : option MessageId;
}.
Arguments msg_id {I} _.
Arguments msg_sender {I} _.
Arguments msg_interface_id {I} _.
Arguments msg_content {I} _.
Arguments msg_timestamp {I} _.
Arguments msg_reply_to {I} _.

Definition message_new {I} (nonce : list byte) (now : Z) (f : arr32) (sender : I) (n : Z) (c : MessageContent) : Message I :=
  {| msg_id := message_id_new nonce f n; msg_sender := sender; msg_interface_id := f; msg_content := c;
     msg_timestamp := now; msg_reply_to := None |}.

Definition message_reply {I} (nonce : list byte) (now : Z) (f : arr32) (sender : I) (n : Z) (c : MessageContent)
    (reply_to : MessageId) : Message I :=
  {| msg_id := message_id_new nonce f n; msg_sender := sender; msg_interface_id := f; msg_content := c;
     msg_timestamp := now; msg_reply_to := Some reply_to |}.

Definition message_text {I} (nonce : list byte) (now : Z) (f : arr32) (sender : I) (n : Z) (s : string) : Message I :=
  message_new nonce now f sender n (McText s).

Record EncryptionMetadata : Type := { em_key_id : arr32; em_nonce : list byte }.

Record MessageEnvelope (I : Type) : Type := {
  me_message : Message I;
  me_encryption : option EncryptionMetadata;
}.
Arguments me_message {I} _.
Arguments me_encryption {I} _.

Definition envelope_unencrypted {I} (m : Message I) : MessageEnvelope I :=
  {| me_message := m; me_encryption := None |}.

Definition envelope_encrypted {I} (m : Message I) (key_id : arr32) (nonce : list byte) : MessageEnvelope I :=
  {| me_message := m; me_encryption := Some {| em_key_id := key_id; em_nonce := nonce |} |}.

(** ** History *)

Record MessageFilter (I : Type) : Type := {
  mf_interface_id : option arr32;
  mf_sender : option I;
  mf_since : option Z;
  mf_until : option Z;
  mf_text_only : bool;
  mf_limit : option nat;
  mf_offset : nat;
}.
Arguments mf_interface_id {I} _.
Arguments mf_sender {I} _.
Arguments mf_since {I} _.
Arguments mf_until {I} _.
Arguments mf_text_only {I} _.
Arguments mf_limit {I} _.
Arguments mf_offset {I} _.

Definition filter_default {I} : MessageFilter I :=
  {| mf_interface_id := None; mf_sender := None; mf_since := None; mf_until := None; mf_text_only := false;
     mf_limit := None; mf_offset := 0 |}.

Definition filter_interface {I} (f : arr32) (x : MessageFilter I) : MessageFilter I :=
  {| mf_interface_id := Some f; mf_sender := mf_sender x; mf_since := mf_since x; mf_until := mf_until x;
     mf_text_only := mf_text_only x; mf_limit := mf_limit x; mf_offset := mf_offset x |}.

Definition filter_sender {I} (p : I) (x : MessageFilter I) : MessageFilter I :=
  {| mf_interface_id := mf_interface_id x; mf_sender := Some p; mf_since := mf_since x; mf_until := mf_until x;
     mf_text_only := mf_text_only x; mf_limit := mf_limit x; mf_offset := mf_offset x |}.

Definition filter_since {I} (t : Z) (x : MessageFilter I) : MessageFilter I :=
  {| mf_interface_id := mf_interface_id x; mf_sender := mf_sender x; mf_since := Some t; mf_until := mf_until x;
     mf_text_only := mf_text_only x; mf_limit := mf_limit x; mf_offset := mf_offset x |}.

Definition filter_until {I} (t : Z) (x : MessageFilter I) : MessageFilter I :=
  {| mf_interface_id := mf_interface_id x; mf_sender := mf_sender x; mf_since := mf_since x; mf_until := Some t;
     mf_text_only := mf_text_only x; mf_limit := mf_limit x; mf_offset := mf_offset x |}.

Definition filter_text_only {I} (x : MessageFilter I) : MessageFilter I :=
  {| mf_interface_id := mf_interface_id x; mf_sender := mf_sender x; mf_since := mf_since x; mf_until := mf_until x;
     mf_text_only := true; mf_limit := mf_limit x; mf_offset := mf_offset x |}.

Definition filter_limit {I} (n : nat) (x : MessageFilter I) : MessageFilter I :=
  {| mf_interface_id := mf_interface_id x; mf_sender := mf_sender x; mf_since := mf_since x; mf_until := mf_until x;
     mf_text_only := mf_text_only x; mf_limit := Some n; mf_offset := mf_offset x |}.

Definition filter_offset {I} (n : nat) (x : MessageFilter I) : MessageFilter I :=
  {| mf_interface_id := mf_interface_id x; mf_sender := mf_sender x; mf_since := mf_since x; mf_until := mf_until x;
     mf_text_only := mf_text_only x; mf_limit := mf_limit x; mf_offset := n |}.

(** [max_per_interface] is 0 for no limit. *)
Record MessageHistory (I : Type) : Type := {
  mh_messages : gmap arr32 (gmap Z (Message I));
  mh_id_index : gmap MessageId (arr32 * Z);
  mh_max : nat;
}.
Arguments mh_messages {I} _.
Arguments mh_id_index {I} _.
Arguments mh_max {I} _.

Section History.
Context {I : Type} `{PeerIdentity I}.
Implicit Types (m : Message I) (h : MessageHistory I) (ms : gmap Z (Message I)).

Definition history_with_limit (n : nat) : MessageHistory I :=
  {| mh_messages := ∅; mh_id_index := ∅; mh_max := n |}.

Definition history_new : MessageHistory I := history_with_limit 0.

(** The entries of a [BTreeMap] from sequence numbers, in its order. *)
Definition in_sequence ms : list (Z * Message I) := sort_by (by_key fst) (map_to_list ms).

Definition interface_messages (f : arr32) h : gmap Z (Message I) := default ∅ (mh_messages h !! f).

(** Where the limit is reached the first message makes room. *)
Definition evict (n : nat) ms (index : gmap MessageId (arr32 * Z)) : gmap Z (Message I) * gmap MessageId (arr32 * Z) :=
  if ((0 <? n) && (n <=? size ms))%nat then
    match in_sequence ms with
    | (oldest_seq, oldest_msg) :: _ => (delete oldest_seq ms, delete (msg_id oldest_msg) index)
    | [] => (ms, index)
    end
  else (ms, index).

Definition history_store m h : MessageHistory I :=
  let f := msg_interface_id m in
  let n := mid_sequence (msg_id m) in
  let '(ms, index) := evict (mh_max h) (interface_messages f h) (mh_id_index h) in
  {| mh_messages := <[f := <[n := m]> ms]> (mh_messages h);
     mh_id_index := <[msg_id m := (f, n)]> index;
     mh_max := mh_max h |}.

Definition history_get (id : MessageId) h : option (Message I) :=
  '(f, n) ← mh_id_index h !! id; ms ← mh_messages h !! f; ms !! n.

(** The filters of [query], each of which skips a message. *)
Definition passes (x : MessageFilter I) m : bool :=
  match mf_sender x with Some p => bool_decide (msg_sender m = p) | None => true end
  && match mf_since x with Some t => negb (msg_timestamp m <? t) | None => true end
  && match mf_until x with Some t => negb (t <? msg_timestamp m) | None => true end
  && negb (mf_text_only x && negb (mc_is_text (msg_content m))).

Definition searched_interfaces (x : MessageFilter I) h : list arr32 :=
  match mf_interface_id x with
  | Some f => [f]
  | None => sort_by arr32_leb (map_to_list (mh_messages h)).*1
  end.

Definition collected (x : MessageFilter I) h : list (Message I) :=
  concat ((λ f, match mh_messages h !! f with
                | Some ms => retain (passes x) (in_sequence ms).*2
                | None => []
                end) <$> searched_interfaces x h).

Definition history_query (x : MessageFilter I) h : list (Message I) :=
  let results := drop (mf_offset x) (sort_by (by_key msg_timestamp) (collected x h)) in
  match mf_limit x with Some n => take n results | None => results end.

Definition history_since (f : arr32) (n : Z) h : list (Message I) :=
  match mh_messages h !! f with
  | Some ms => (retain (λ x, n <=? x.1) (in_sequence ms)).*2
  | None => []
  end.

Definition history_latest (f : arr32) (count : nat) h : list (Message I) :=
  match mh_messages h !! f with
  | Some ms => rev (take count (rev (in_sequence ms).*2))
  | None => []
  end.

Definition history_count (f : arr32) h : nat := match mh_messages h !! f with Some ms => size ms | None => 0 end.

Definition history_total_count h : nat := sum_list (size <$> (map_to_list (mh_messages h)).*2).

Definition history_clear (f : arr32) h : MessageHistory I :=
  match mh_messages h !! f with
  | Some ms =>
      {| mh_messages := delete f (mh_messages h);
         mh_id_index := foldl (λ i x, delete (msg_id x.2) i) (mh_id_index h) (in_sequence ms);
         mh_max := mh_max h |}
  | None => h
  end.
End History.

(** ** Typed content *)

Record SchemaVersion : Type := { sv_major : Z; sv_minor : Z }.

#[global] Instance SchemaVersion_eq_dec : EqDecision SchemaVersion.
Proof. solve_decision. Defined.

Definition CURRENT : SchemaVersion := {| sv_major := 1; sv_minor := 0 |}.

Definition schema_version_new (major minor : Z) : SchemaVersion := {| sv_major := major; sv_minor := minor |}.

Definition is_compatible_with (a b : SchemaVersion) : bool := (sv_major a =? sv_major b) && (sv_minor b <=? sv_minor a).

Definition can_read (a content_version : SchemaVersion) : bool := is_compatible_with a content_version.

Definition is_newer_than (a b : SchemaVersion) : bool :=
  (sv_major b <? sv_major a) || ((sv_major a =? sv_major b) && (sv_minor b <? sv_minor a)).

Definition version_display (v : SchemaVersion) : string :=
  i64_to_string (sv_major v) +:+ "." +:+ i64_to_string (sv_minor v).

Inductive SchemaError : Type :=
| IncompatibleVersion (expected actual : SchemaVersion)
| UnknownContentType (t : string)
| ValidationFailed (s : string)
| MissingField (field : string)
| InvalidField (field reason : string)
| ContentTooLarge (size max : Z)
| ScDeserializationError (s : string).

Module content_types.
Definition TEXT : string := "indras.message.text".
Definition BINARY : string := "indras.message.binary".
Definition FILE : string := "indras.message.file".
Definition REACTION : string := "indras.message.reaction".
Definition SYSTEM : string := "indras.message.system".
Definition CUSTOM_JSON : string := "indras.message.custom.json".
Definition CUSTOM_BINARY : string := "indras.message.custom.binary".
End content_types.

Record TypedContent : Type := {
  tc_content_type : string;
  tc_schema_version : SchemaVersion;
  tc_data : list byte;
  tc_metadata : gmap string string;
}.

Definition typed_content_new (t : string) (v : SchemaVersion) (d : list byte) : TypedContent :=
  {| tc_content_type := t; tc_schema_version := v; tc_data := d; tc_metadata := ∅ |}.

Definition with_current_version (t : string) (d : list byte) : TypedContent := typed_content_new t CURRENT d.

Definition tc_with_metadata (k v : string) (c : TypedContent) : TypedContent :=
  {| tc_content_type := tc_content_type c; tc_schema_version := tc_schema_version c; tc_data := tc_data c;
     tc_metadata := <[k := v]> (tc_metadata c) |}.

Definition tc_text (s : string) : TypedContent := with_current_version content_types.TEXT (as_bytes s).

Definition tc_binary (mime_type : string) (d : list byte) : TypedContent :=
  tc_with_metadata "mime_type" mime_type (with_current_version content_types.BINARY d).

Definition tc_system (s : string) : TypedContent := with_current_version content_types.SYSTEM (as_bytes s).

(** [serde_json] at a type, and at [serde_json::Value]. *)
Class JsonText (T : Type) : Type := {
  json_to_vec : T → Result (list byte) string;
  json_from_slice : list byte → Result T string;
}.

Class JsonValue : Type := json_value : list byte → Result unit string.

Definition custom_json {T} `{JsonText T} (type_name : string) (value : T) : Result TypedContent SchemaError :=
  match json_to_vec value with
  | Ok d => Ok (tc_with_metadata "custom_type" type_name (with_current_version content_types.CUSTOM_JSON d))
  | Err e => Err (ScDeserializationError e)
  end.

Definition tc_as_text (c : TypedContent) : option string :=
  if bool_decide (tc_content_type c = content_types.TEXT) || bool_decide (tc_content_type c = content_types.SYSTEM)
  then from_utf8 (tc_data c) else None.

Definition as_custom_json {T} `{JsonText T} (c : TypedContent) : Result T SchemaError :=
  if negb (bool_decide (tc_content_type c = content_types.CUSTOM_JSON)) then Err (UnknownContentType (tc_content_type c))
  else match json_from_slice (tc_data c) with Ok v => Ok v | Err e => Err (ScDeserializationError e) end.

Definition data_size (c : TypedContent) : Z := Z.of_nat (length (tc_data c)).

Definition is_builtin_type (c : TypedContent) : bool := starts_with "indras.message." (tc_content_type c).

Record ValidationConfig : Type := {
  max_content_size : Z;
  max_text_length : Z;
  allow_unknown_types : bool;
  strict_versions : bool;
}.

Definition validation_config_default : ValidationConfig :=
  {| max_content_size := 10 * 1024 * 1024; max_text_length := 100000; allow_unknown_types := true;
     strict_versions := false |}.

Record ContentValidator : Type := {
  cv_config : ValidationConfig;
  cv_custom_validators : gmap string (TypedContent → Result unit SchemaError);
}.

Definition validator_with_config (c : ValidationConfig) : ContentValidator :=
  {| cv_config := c; cv_custom_validators := ∅ |}.

Definition validator_new : ContentValidator := validator_with_config validation_config_default.

Definition register_validator (t : string) (f : TypedContent → Result unit SchemaError) (v : ContentValidator) : ContentValidator :=
  {| cv_config := cv_config v; cv_custom_validators := <[t := f]> (cv_custom_validators v) |}.

(** [chars().count()] on UTF-8. *)
Definition char_count (l : list byte) : Z := Z.of_nat (length (retain (λ b, negb (continuation b)) l)).

Definition validate_text (v : ContentValidator) (c : TypedContent) : Result unit SchemaError :=
  match from_utf8 (tc_data c) with
  | None => Err (ValidationFailed "Text content must be valid UTF-8")
  | Some _ =>
      if max_text_length (cv_config v) <? char_count (tc_data c) then
        Err (InvalidField "text" ("Text exceeds maximum length of " +:+ i64_to_string (max_text_length (cv_config v)) +:+ " characters"))
      else Ok tt
  end.

Definition has_field (k : string) (c : TypedContent) : Result unit SchemaError :=
  match tc_metadata c !! k with Some _ => Ok tt | None => Err (MissingField k) end.

Definition validate_binary (c : TypedContent) : Result unit SchemaError := has_field "mime_type" c.

Definition validate_file (c : TypedContent) : Result unit SchemaError :=
  let? _ := has_field "filename" c in has_field "size" c.

Definition validate_reaction (c : TypedContent) : Result unit SchemaError :=
  let? _ := has_field "target_message_id" c in
  match tc_data c with [] => Err (ValidationFailed "Reaction cannot be empty") | _ => Ok tt end.

Definition validate_custom_json `{JsonValue} (c : TypedContent) : Result unit SchemaError :=
  match json_value (tc_data c) with Ok _ => Ok tt | Err e => Err (ValidationFailed ("Invalid JSON: " +:+ e)) end.

(** The match on the type. *)
Definition validate_builtin `{JsonValue} (v : ContentValidator) (c : TypedContent) : Result unit SchemaError :=
  let t := tc_content_type c in
  if bool_decide (t = content_types.TEXT) || bool_decide (t = content_types.SYSTEM) then validate_text v c
  else if bool_decide (t = content_types.BINARY) then validate_binary c
  else if bool_decide (t = content_types.FILE) then validate_file c
  else if bool_decide (t = content_types.REACTION) then validate_reaction c
  else if bool_decide (t = content_types.CUSTOM_JSON) then validate_custom_json c
  else if bool_decide (t = content_types.CUSTOM_BINARY) then Ok tt
  else if negb (allow_unknown_types (cv_config v)) && negb (is_builtin_type c) then Err (UnknownContentType t)
  else Ok tt.

Definition validate `{JsonValue} (v : ContentValidator) (c : TypedContent) : Result unit SchemaError :=
  if max_content_size (cv_config v) <? data_size c then
    Err (ContentTooLarge (data_size c) (max_content_size (cv_config v)))
  else if strict_versions (cv_config v) && negb (can_read CURRENT (tc_schema_version c)) then
    Err (IncompatibleVersion CURRENT (tc_schema_version c))
  else
    let? _ := validate_builtin v c in
    match cv_custom_validators v !! tc_content_type c with Some f => f c | None => Ok tt end.

Record SchemaMigration : Type := {
  sm_from_version : SchemaVersion;
  sm_to_version : SchemaVersion;
  sm_content_type : string;
}.

Definition migration_new (t : string) (from to : SchemaVersion) : SchemaMigration :=
  {| sm_from_version := from; sm_to_version := to; sm_content_type := t |}.

Definition applies_to (m : SchemaMigration) (c : TypedContent) : bool :=
  bool_decide (tc_content_type c = sm_content_type m) && bool_decide (tc_schema_version c = sm_from_version m).

Record ContentTypeInfo : Type := {
  cti_type_id : string;
  cti_description : string;
  cti_current_version : SchemaVersion;
  cti_min_supported_version : SchemaVersion;
}.

Record SchemaRegistry : Type := {
  sr_content_types : gmap string ContentTypeInfo;
  sr_migrations : list SchemaMigration;
}.

Definition register_type (i : ContentTypeInfo) (r : SchemaRegistry) : SchemaRegistry :=
  {| sr_content_types := <[cti_type_id i := i]> (sr_content_types r); sr_migrations := sr_migrations r |}.

Definition builtin_types : list (string * string) :=
  [(content_types.TEXT, "Plain text message"); (content_types.BINARY, "Binary data with MIME type");
   (content_types.FILE, "File reference"); (content_types.REACTION, "Reaction to another message");
   (content_types.SYSTEM, "System message"); (content_types.CUSTOM_JSON, "Custom JSON content");
   (content_types.CUSTOM_BINARY, "Custom binary content")].

Definition register_builtin_types (r : SchemaRegistry) : SchemaRegistry :=
  foldl (λ r '(t, d), {| sr_content_types := <[t := {| cti_type_id := t; cti_description := d; cti_current_version := CURRENT;
                                                     cti_min_supported_version := schema_version_new 1 0 |}]> (sr_content_types r);
                         sr_migrations := sr_migrations r |}) r builtin_types.

Definition registry_new : SchemaRegistry := register_builtin_types {| sr_content_types := ∅; sr_migrations := [] |}.

Definition get_type_info (t : string) (r : SchemaRegistry) : option ContentTypeInfo := sr_content_types r !! t.

Definition type_is_registered (t : string) (r : SchemaRegistry) : bool := bool_decide (is_Some (sr_content_types r !! t)).

(** In the unspecified order of the map. *)
Definition all_types (r : SchemaRegistry) : list ContentTypeInfo := (map_to_list (sr_content_types r)).*2.

Definition register_migration (m : SchemaMigration) (r : SchemaRegistry) : SchemaRegistry :=
  {| sr_content_types := sr_content_types r; sr_migrations := sr_migrations r ++ [m] |}.

Definition find_migrations (c : TypedContent) (r : SchemaRegistry) : list SchemaMigration :=
  retain (λ m, applies_to m c) (sr_migrations r).

(** ** The client *)

Inductive MessagingError : Type :=
| MeInterfaceNotFound (s : string) | MeNotMember | MeEncryptionFailed (s : string) | MeDecryptionFailed (s : string)
| MeSerializationFailed (s : string) | MeGossipError (s : string) | MeSyncError (s : string) | MeStorageError (s : string)
| MeInvalidFormat (s : string) | MeMessageNotFound | MeInvalidInvite (s : string) | MeAlreadyJoined | MeChannelClosed
| MeOther (s : string).

Class MessagePostcard (I : Type) : Type := {
  pc_message : Message I → Result (list byte) string;
  pc_parse_message : list byte → Result (Message I) string;
}.

Class MessagePostcardLaws (I : Type) `{MessagePostcard I} : Prop :=
  message_roundtrip m l : pc_message m = Ok l → pc_parse_message l = Ok m.

Record JoinedInterface (I : Type) : Type := {
  ji_key : InterfaceKey;
  ji_next_sequence : Z;
  ji_members : list I;
}.
Arguments ji_key {I} _.
Arguments ji_next_sequence {I} _.
Arguments ji_members {I} _.

(** [mcl_gossip]: the events the gossip node took for broadcast, by topic. *)
Record MessagingClient (I : Type) : Type := {
  mcl_identity : I;
  mcl_gossip : list (arr32 * LogEvent I);
  mcl_interfaces : gmap arr32 (JoinedInterface I);
  mcl_history : MessageHistory I;
}.
Arguments mcl_identity {I} _.
Arguments mcl_gossip {I} _.
Arguments mcl_interfaces {I} _.
Arguments mcl_history {I} _.

Section Client.
Context {I : Type} `{PeerIdentity I} `{DefaultHasher I} `{MessagePostcard I}.
Implicit Types (c : MessagingClient I) (m : Message I).

Definition client_with_history (i : I) (h : MessageHistory I) : MessagingClient I :=
  {| mcl_identity := i; mcl_gossip := []; mcl_interfaces := ∅; mcl_history := h |}.

Definition client_new (i : I) : MessagingClient I := client_with_history i history_new.

Definition set_interfaces (x : gmap arr32 (JoinedInterface I)) c : MessagingClient I :=
  {| mcl_identity := mcl_identity c; mcl_gossip := mcl_gossip c; mcl_interfaces := x; mcl_history := mcl_history c |}.

Definition set_history (h : MessageHistory I) c : MessagingClient I :=
  {| mcl_identity := mcl_identity c; mcl_gossip := mcl_gossip c; mcl_interfaces := mcl_interfaces c; mcl_history := h |}.

Definition set_gossip (g : list (arr32 * LogEvent I)) c : MessagingClient I :=
  {| mcl_identity := mcl_identity c; mcl_gossip := g; mcl_interfaces := mcl_interfaces c; mcl_history := mcl_history c |}.

Definition joined_as (key : InterfaceKey) c : JoinedInterface I :=
  {| ji_key := key; ji_next_sequence := 1; ji_members := [mcl_identity c] |}.

(** [gossip] is the error of subscribing to the topic, [f] and [k] are random. *)
Definition client_create_interface (gossip : option string) (f k : arr32) : M (MessagingClient I) MessagingError (arr32 * InterfaceKey) :=
  let key := {| ik_key := k; ik_interface_id := f |} in
  match gossip with
  | Some e => fail (MeGossipError e)
  | None => modify (λ c, set_interfaces (<[f := joined_as key c]> (mcl_interfaces c)) c) ;; mret (f, key)
  end.

Definition is_joined (f : arr32) c : bool := bool_decide (is_Some (mcl_interfaces c !! f)).

Definition join_interface (gossip : option string) (key : InterfaceKey) : M (MessagingClient I) MessagingError arr32 :=
  let f := ik_interface_id key in
  joined ← gets (is_joined f);
  if joined : bool then fail MeAlreadyJoined
  else match gossip with
       | Some e => fail (MeGossipError e)
       | None => modify (λ c, set_interfaces (<[f := joined_as key c]> (mcl_interfaces c)) c) ;; mret f
       end.

(** [InterfaceId::to_string]. *)
Definition interface_display (f : arr32) : string := hex (take 8 (arr32_bytes f)).

Definition leave_interface (f : arr32) : M (MessagingClient I) MessagingError unit :=
  joined ← gets (is_joined f);
  if joined : bool then modify (λ c, set_interfaces (delete f (mcl_interfaces c)) c)
  else fail (MeInterfaceNotFound (interface_display f)).

Definition get_interface_key (f : arr32) c : option InterfaceKey := ji_key <$> mcl_interfaces c !! f.

(** [next_sequence.fetch_add(1)]. *)
Definition next_sequence (f : arr32) : M (MessagingClient I) MessagingError Z :=
  o ← gets (λ c, mcl_interfaces c !! f);
  match o with
  | None => fail (MeInterfaceNotFound (interface_display f))
  | Some j =>
      modify (λ c, set_interfaces (<[f := {| ji_key := ji_key j; ji_next_sequence := wrap_u64 (ji_next_sequence j + 1);
                                            ji_members := ji_members j |}]> (mcl_interfaces c)) c) ;;
      mret (ji_next_sequence j)
  end.

(** The rest of [send] and of [reply]: encode, broadcast, store. *)
Definition publish (gossip : option string) (now : Z) (f : arr32) (n : Z) m : M (MessagingClient I) MessagingError MessageId :=
  match pc_message m with
  | Err e => fail (MeSerializationFailed e)
  | Ok bytes =>
      match gossip with
      | Some e => fail (MeGossipError e)
      | None =>
          modify (λ c, set_gossip (mcl_gossip c ++ [(f, le_message now (mcl_identity c) n bytes)]) c) ;;
          modify (λ c, set_history (history_store m (mcl_history c)) c) ;;
          mret (msg_id m)
      end
  end.

Definition client_send (gossip : option string) (nonce : list byte) (now now' : Z) (f : arr32) (x : MessageContent)
    : M (MessagingClient I) MessagingError MessageId :=
  n ← next_sequence f;
  i ← gets mcl_identity;
  publish gossip now' f n (message_new nonce now f i n x).

Definition send_text gossip nonce now now' (f : arr32) (s : string) : M (MessagingClient I) MessagingError MessageId :=
  client_send gossip nonce now now' f (McText s).

Definition client_reply (gossip : option string) (nonce : list byte) (now now' : Z) (f : arr32) (reply_to : MessageId)
    (x : MessageContent) : M (MessagingClient I) MessagingError MessageId :=
  n ← next_sequence f;
  i ← gets mcl_identity;
  publish gossip now' f n (message_reply nonce now f i n x reply_to).

(** What the receiver task does with an event of its topic: the message that
    is stored and handed to the subscribers, if any. *)
Definition client_receive (e : LogEvent I) c : MessagingClient I * option (Message I) :=
  match e with
  | LeMessage _ sender content _ =>
      if bool_decide (sender = mcl_identity c) then (c, None)
      else match pc_parse_message content with
           | Ok m => (set_history (history_store m (mcl_history c)) c, Some m)
           | Err _ => (c, None)
           end
  | _ => (c, None)
  end.

Definition joined_interfaces c : list arr32 := (map_to_list (mcl_interfaces c)).*1.

Definition client_members (f : arr32) c : option (list I) := ji_members <$> mcl_interfaces c !! f.
End Client.

(** ** The history refines a map from identifiers

    The history keeps two maps in step.  Where every place, a sequence number
    of an interface, is used for one message only, it behaves as one map from
    identifiers to messages that forgets the first message of an interface
    when its limit is reached. *)

Section HistorySpec.
Context {I : Type} `{PeerIdentity I}.
Implicit Types (m o : Message I) (h : MessageHistory I) (s : gmap MessageId (Message I)).

Definition seq_of m : Z := mid_sequence (msg_id m).

Definition slot m : arr32 * Z := (msg_interface_id m, seq_of m).

(** The messages of an interface, by their number. *)
Definition slots (f : arr32) s : list (Message I) :=
  sort_by (by_key seq_of) (retain (λ m, bool_decide (msg_interface_id m = f)) (map_to_list s).*2).

Definition spec_evict (n : nat) (f : arr32) s : gmap MessageId (Message I) :=
  if ((0 <? n) && (n <=? length (slots f s)))%nat then
    match slots f s with o :: _ => delete (msg_id o) s | [] => s end
  else s.

Inductive history_op : Type := HStore (m : Message I) | HClear (f : arr32).

Definition spec_op (n : nat) (op : history_op) s : gmap MessageId (Message I) :=
  match op with
  | HStore m => <[msg_id m := m]> (spec_evict n (msg_interface_id m) s)
  | HClear f => filter (λ x, msg_interface_id x.2 ≠ f) s
  end.

Definition run_op (op : history_op) h : MessageHistory I :=
  match op with HStore m => history_store m h | HClear f => history_clear f h end.

(** A message names its interface twice; its place is free, or holds it. *)
Definition op_fresh (op : history_op) s : Prop :=
  match op with
  | HStore m => mid_interface (msg_id m) = msg_interface_id m ∧
      ∀ id o, s !! id = Some o → slot o = slot m → id = msg_id m
  | HClear _ => True
  end.

Fixpoint fresh_run (n : nat) (ops : list history_op) s : Prop :=
  match ops with [] => True | op :: ops => op_fresh op s ∧ fresh_run n ops (spec_op n op s) end.

Definition at_slot (p : arr32 * Z) h : option (Message I) := interface_messages p.1 h !! p.2.

Record refines h s : Prop := {
  ref_slots p m : at_slot p h = Some m ↔ s !! msg_id m = Some m ∧ slot m = p;
  ref_index id : mh_id_index h !! id = slot <$> s !! id;
  ref_ids id m : s !! id = Some m → msg_id m = id ∧ mid_interface id = msg_interface_id m;
}.

Lemma elem_of_values s m id : s !! id = Some m → m ∈ (map_to_list s).*2.
Proof. intros Hm. apply list_elem_of_fmap. exists (id, m). by rewrite elem_of_map_to_list. Qed.

Lemma values_elem s m : m ∈ (map_to_list s).*2 → ∃ id, s !! id = Some m.
Proof. intros ([id m'] & -> & Hm)%list_elem_of_fmap. exists id. by apply elem_of_map_to_list. Qed.

Lemma elem_of_slots h s f m : refines h s → m ∈ slots f s ↔ s !! msg_id m = Some m ∧ msg_interface_id m = f.
Proof.
  intros Hr. unfold slots. rewrite (sort_by_perm (by_key seq_of)), elem_of_retain, bool_decide_eq_true. split.
  - intros [(id & Hm)%values_elem Hf]. destruct (ref_ids _ _ Hr _ _ Hm) as [-> _]. done.
  - intros [Hm Hf]. by split; [eapply elem_of_values|].
Qed.

Lemma values_NoDup h s : refines h s → NoDup (map_to_list s).*2.
Proof.
  intros Hr. apply NoDup_fmap_2_strong; [|apply NoDup_map_to_list].
  intros [i m] [j m'] Hi Hj E. rewrite elem_of_map_to_list in Hi, Hj. simpl in E. subst m'.
  destruct (ref_ids _ _ Hr _ _ Hi) as [<- _], (ref_ids _ _ Hr _ _ Hj) as [<- _]. done.
Qed.

Lemma slots_NoDup h s f : refines h s → NoDup (slots f s).
Proof. intros Hr. unfold slots. rewrite (sort_by_perm (by_key seq_of)). by eapply NoDup_retain, values_NoDup. Qed.

Lemma elem_of_in_sequence (ms : gmap Z (Message I)) n m : (n, m) ∈ in_sequence ms ↔ ms !! n = Some m.
Proof. unfold in_sequence. by rewrite (sort_by_perm (by_key fst)), elem_of_map_to_list. Qed.

Lemma in_sequence_length (ms : gmap Z (Message I)) : length (in_sequence ms) = size ms.
Proof. unfold in_sequence. by rewrite (sort_by_perm (by_key fst)), length_map_to_list. Qed.

Lemma in_sequence_seq h s f n m : refines h s → (n, m) ∈ in_sequence (interface_messages f h) → n = seq_of m.
Proof.
  intros Hr Hm%elem_of_in_sequence. apply (ref_slots _ _ Hr (f, n)) in Hm as [_ Hs]. by injection Hs.
Qed.

(** The second components, sorted by a key that the first ones are. *)
Lemma sorted_snd (l : list (Z * Message I)) : (∀ n m, (n, m) ∈ l → n = seq_of m) →
  StronglySorted (λ x y, by_key fst x y = true) l → StronglySorted (λ x y, by_key seq_of x y = true) l.*2.
Proof.
  intros Hl Hs. induction Hs as [|[n m] l Hs IH Hall]; simpl; constructor.
  - apply IH. intros n' m' Hm. apply Hl. by apply list_elem_of_further.
  - rewrite Forall_fmap. rewrite Forall_forall in Hall |- *. intros [n' m'] Hm. simpl.
    specialize (Hall _ Hm). unfold by_key in *. simpl in *.
    by rewrite <- (Hl n m), <- (Hl n' m') by (by constructor).
Qed.

(** Both sides list an interface in the same order. *)
Lemma in_sequence_slots h s f : refines h s → (in_sequence (interface_messages f h)).*2 = slots f s.
Proof.
  intros Hr. set (l := in_sequence (interface_messages f h)).
  assert (Hl : ∀ n m, (n, m) ∈ l → n = seq_of m) by (intros n m; by eapply in_sequence_seq).
  assert (Hin : ∀ m, m ∈ l.*2 ↔ m ∈ slots f s).
  { intros m. rewrite (elem_of_slots h s f m Hr). split.
    - intros ([n m'] & -> & Hm)%list_elem_of_fmap. simpl. pose proof (proj1 (elem_of_in_sequence _ _ _) Hm) as Hm'.
      apply (ref_slots _ _ Hr (f, n)) in Hm' as [? Hs]. by injection Hs.
    - intros [Hm Hf]. apply list_elem_of_fmap. exists (seq_of m, m). split; [done|].
      apply elem_of_in_sequence. apply (ref_slots _ _ Hr (f, seq_of m)). unfold slot. by rewrite Hf. }
  eapply (StronglySorted_unique_strong (λ x y, by_key seq_of x y = true)).
  - intros a b Ha Hb Hab Hba. apply Hin in Ha.
    apply (elem_of_slots _ _ _ _ Hr) in Ha as [Ha Hfa]. apply (elem_of_slots _ _ _ _ Hr) in Hb as [Hb Hfb].
    unfold by_key in *. assert (Hk : seq_of a = seq_of b) by lia.
    assert (Hsa : at_slot (f, seq_of a) h = Some a) by (apply (ref_slots _ _ Hr); unfold slot; by rewrite Hfa).
    assert (Hsb : at_slot (f, seq_of b) h = Some b) by (apply (ref_slots _ _ Hr); unfold slot; by rewrite Hfb).
    rewrite Hk in Hsa. congruence.
  - apply sorted_snd; [done|]. apply sort_by_sorted. apply _.
  - apply sort_by_sorted. apply _.
  - apply NoDup_Permutation; [|by eapply slots_NoDup|done].
    apply NoDup_fmap_2_strong; [|unfold l, in_sequence; rewrite (sort_by_perm (by_key fst)); apply NoDup_map_to_list].
    intros [n m] [n' m'] Hm Hm' E. simpl in E. subst m'. by rewrite (Hl n m), (Hl n' m).
Qed.
(** A place of a changed history. *)
Lemma at_slot_insert p ms h i n : at_slot p {| mh_messages := <[i := ms]> (mh_messages h); mh_id_index := n; mh_max := mh_max h |} =
  if decide (p.1 = i) then ms !! p.2 else at_slot p h.
Proof.
  unfold at_slot, interface_messages. simpl. case_decide as E.
  - rewrite E. by rewrite lookup_insert_eq.
  - by rewrite lookup_insert_ne by congruence.
Qed.

Lemma refines_remove h s p o : refines h s → at_slot p h = Some o →
  refines {| mh_messages := <[p.1 := delete p.2 (interface_messages p.1 h)]> (mh_messages h);
             mh_id_index := delete (msg_id o) (mh_id_index h); mh_max := mh_max h |} (delete (msg_id o) s).
Proof.
  intros Hr Ho. destruct (proj1 (ref_slots _ _ Hr p o) Ho) as [Hs Hp]. split.
  - intros q m. rewrite at_slot_insert.
    assert (Hq : at_slot q h = Some m ∧ q ≠ p ↔ delete (msg_id o) s !! msg_id m = Some m ∧ slot m = q).
    { rewrite (ref_slots _ _ Hr q m). rewrite lookup_delete_Some. split.
      - intros [[Hm <-] Hne]. repeat split; try done. intros E. rewrite <- E in Hm. congruence.
      - intros [[Hne Hm] <-]. repeat split; try done. intros E. apply Hne.
        assert (at_slot p h = Some m) by (apply (ref_slots _ _ Hr); done). congruence. }
    rewrite <- Hq. destruct q as [f n], p as [g k]; simpl. case_decide as E; simplify_eq/=.
    + rewrite lookup_delete_Some. unfold at_slot. simpl. naive_solver.
    + naive_solver.
  - intros id. simpl. destruct (decide (id = msg_id o)) as [->|Hne].
    + by rewrite !lookup_delete_eq.
    + rewrite !lookup_delete_ne by done. apply (ref_index _ _ Hr).
  - intros id m [_ Hm]%lookup_delete_Some. by apply (ref_ids _ _ Hr).
Qed.

Lemma refines_same h s i : refines h s →
  refines {| mh_messages := <[i := interface_messages i h]> (mh_messages h); mh_id_index := mh_id_index h; mh_max := mh_max h |} s.
Proof.
  intros Hr. split; [|apply Hr|apply Hr]. intros q m. rewrite at_slot_insert.
  rewrite <- (ref_slots _ _ Hr q m). case_decide as E; [|done]. unfold at_slot. by rewrite E.
Qed.

Lemma refines_insert h s m : refines h s → op_fresh (HStore m) s →
  refines {| mh_messages := <[msg_interface_id m := <[seq_of m := m]> (interface_messages (msg_interface_id m) h)]> (mh_messages h);
             mh_id_index := <[msg_id m := slot m]> (mh_id_index h); mh_max := mh_max h |} (<[msg_id m := m]> s).
Proof.
  intros Hr [Hwf Hfree]. split.
  - intros q m'. rewrite at_slot_insert.
    assert (Hq : (q = slot m ∧ m' = m) ∨ (q ≠ slot m ∧ at_slot q h = Some m') ↔
                 <[msg_id m := m]> s !! msg_id m' = Some m' ∧ slot m' = q).
    { rewrite lookup_insert_Some, (ref_slots _ _ Hr q m'). split.
      - intros [[-> ->]|[Hne [Hm Hq]]]; [by auto|]. split; [|done]. right. split; [|done].
        intros E. apply Hne. rewrite <- Hq. unfold slot, seq_of. rewrite E.
        destruct (ref_ids _ _ Hr _ _ Hm) as [_ Hi]. congruence.
      - intros [[[E ->]|[Hne Hm]] <-]; [by left|]. right. split; [|done].
        intros E. apply Hne. symmetry. by apply (Hfree _ _ Hm). }
    rewrite <- Hq. destruct q as [f n]. unfold slot. simpl. case_decide as E; simplify_eq/=.
    + rewrite lookup_insert_Some. unfold at_slot. simpl. split; [|naive_solver].
      intros [[-> ->]|[Hne Hm]]; [by left|]. right. split; [|done]. intros [= E]. congruence.
    + naive_solver.
  - intros id. simpl. destruct (decide (id = msg_id m)) as [->|Hne].
    + by rewrite !lookup_insert_eq.
    + rewrite !lookup_insert_ne by done. apply (ref_index _ _ Hr).
  - intros id m' [[<- <-]|[_ Hm]]%lookup_insert_Some; [done|]. by apply (ref_ids _ _ Hr).
Qed.

(** The eviction of the code and that of the map take the same message. *)
Lemma refines_evict h s f : refines h s →
  let '(ms, index) := evict (mh_max h) (interface_messages f h) (mh_id_index h) in
  refines {| mh_messages := <[f := ms]> (mh_messages h); mh_id_index := index; mh_max := mh_max h |} (spec_evict (mh_max h) f s).
Proof.
  intros Hr. unfold evict, spec_evict. rewrite <- (in_sequence_slots h s f Hr), length_fmap, in_sequence_length.
  destruct (_ && _)%nat; [|by apply refines_same].
  destruct (in_sequence (interface_messages f h)) as [|[n o] l] eqn:El; simpl; [by apply refines_same|].
  assert (Ho : (n, o) ∈ in_sequence (interface_messages f h)) by (rewrite El; by constructor).
  apply (refines_remove h s (f, n) o Hr). by apply elem_of_in_sequence.
Qed.

Lemma spec_evict_subseteq n f s : spec_evict n f s ⊆ s.
Proof.
  unfold spec_evict. destruct (_ && _)%nat; [|done]. destruct (slots f s); [done|]. apply delete_subseteq.
Qed.

Lemma refines_store h s m : refines h s → op_fresh (HStore m) s → refines (history_store m h) (spec_op (mh_max h) (HStore m) s).
Proof.
  intros Hr [Hwf Hfree]. pose proof (refines_evict h s (msg_interface_id m) Hr) as He.
  unfold history_store. destruct (evict _ _ _) as [ms index]. apply (refines_insert _ _ m) in He.
  - simpl in He. unfold interface_messages in He. simpl in He. rewrite lookup_insert_eq, insert_insert_eq in He. apply He.
  - split; [done|]. intros id o Ho. apply Hfree. eapply lookup_weaken; [done|]. apply spec_evict_subseteq.
Qed.

Lemma foldl_delete_lookup (l : list (Z * Message I)) (i : gmap MessageId (arr32 * Z)) id :
  foldl (λ i x, delete (msg_id x.2) i) i l !! id = if bool_decide (id ∈ msg_id <$> l.*2) then None else i !! id.
Proof.
  revert i. induction l as [|[n m] l IH]; intros i; simpl; [done|]. rewrite IH.
  destruct (decide (id = msg_id m)) as [->|Hne].
  - rewrite lookup_delete_eq. rewrite (bool_decide_eq_true_2 (_ ∈ _ :: _)) by (by constructor). by case_bool_decide.
  - rewrite lookup_delete_ne by done. erewrite (bool_decide_ext (_ ∈ _ :: _)); [done|].
    rewrite elem_of_cons. naive_solver.
Qed.

Lemma refines_clear h s f : refines h s → refines (history_clear f h) (spec_op (mh_max h) (HClear f) s).
Proof.
  intros Hr. unfold history_clear. simpl. destruct (mh_messages h !! f) as [ms|] eqn:Hms.
  - assert (Hi : interface_messages f h = ms) by (unfold interface_messages; by rewrite Hms).
    split.
    + intros q m. rewrite map_lookup_filter_Some. simpl.
      assert (Hq : at_slot q h = Some m ∧ q.1 ≠ f ↔ (s !! msg_id m = Some m ∧ msg_interface_id m ≠ f) ∧ slot m = q).
      { rewrite (ref_slots _ _ Hr q m). split; [intros [[? <-] ?]|intros [[? ?] <-]]; done. }
      rewrite <- Hq. unfold at_slot, interface_messages. simpl. destruct (decide (q.1 = f)) as [->|Hne].
      * rewrite lookup_delete_eq. simpl. rewrite lookup_empty. naive_solver.
      * rewrite lookup_delete_ne by done. naive_solver.
    + intros id. simpl. rewrite foldl_delete_lookup, <- Hi, (in_sequence_slots h s f Hr), map_lookup_filter.
      rewrite (ref_index _ _ Hr id). destruct (s !! id) as [m|] eqn:Hm; simpl; [|by case_bool_decide].
      destruct (ref_ids _ _ Hr _ _ Hm) as [<- _]. case_bool_decide as E; case_guard as G; try done.
      * exfalso. apply list_elem_of_fmap in E as (m' & E & Hm'). apply (elem_of_slots _ _ _ _ Hr) in Hm' as [Hs' Hf].
        rewrite <- E in Hs'. rewrite Hm in Hs'. congruence.
      * exfalso. apply E. apply list_elem_of_fmap. exists m. split; [done|]. apply (elem_of_slots _ _ _ _ Hr).
        split; [done|]. destruct (decide (msg_interface_id m = f)); done.
    + intros id m [Hm _]%map_lookup_filter_Some. by apply (ref_ids _ _ Hr).
  - rewrite map_filter_id; [done|]. intros id m Hm Hf. destruct (ref_ids _ _ Hr _ _ Hm) as [<- _].
    assert (Ha : at_slot (slot m) h = Some m) by (apply (ref_slots _ _ Hr); done).
    unfold at_slot, interface_messages in Ha. simpl in *. by rewrite Hf, Hms in Ha.
Qed.

Lemma run_op_max op h : mh_max (run_op op h) = mh_max h.
Proof.
  destruct op as [m|f]; simpl.
  - unfold history_store. by destruct (evict _ _ _).
  - unfold history_clear. by destruct (_ !! f).
Qed.

Lemma refines_op op h s : refines h s → op_fresh op s → refines (run_op op h) (spec_op (mh_max h) op s).
Proof. destruct op; [by apply refines_store|]. intros Hr _. by apply refines_clear. Qed.

Lemma refines_run n ops h s : mh_max h = n → refines h s → fresh_run n ops s →
  refines (foldl (λ h op, run_op op h) h ops) (foldl (λ s op, spec_op n op s) s ops).
Proof.
  revert h s. induction ops as [|op ops IH]; intros h s Hn Hr Hf; [done|]. destruct Hf as [Hop Hf]. simpl. apply IH; [|subst n; by apply refines_op|done].
  by rewrite run_op_max.
Qed.

Lemma refines_new n : refines (history_with_limit n) ∅.
Proof. split; intros *; simpl; rewrite ?lookup_empty; try done. unfold at_slot, interface_messages. simpl. rewrite !lookup_empty. naive_solver. Qed.
(** The messages a filter selects, wherever they are. *)
Definition selected (x : MessageFilter I) m : bool :=
  match mf_interface_id x with Some f => bool_decide (msg_interface_id m = f) | None => true end && passes x m.

Lemma NoDup_concat_by {A B} (key : B → A) (g : A → list B) (l : list A) : NoDup l →
  (∀ a b, b ∈ g a → key b = a) → (∀ a, NoDup (g a)) → NoDup (concat (g <$> l)).
Proof.
  intros Hl Hk Hg. induction Hl as [|a l Ha Hl IH]; simpl; [constructor|]. apply NoDup_app. split; [done|]. split; [|done].
  intros b Hb Hc. apply Ha. apply list_elem_of_In, in_concat in Hc as (lb & Hin & Hb').
  apply list_elem_of_In, list_elem_of_fmap in Hin as (a' & -> & Ha'). apply list_elem_of_In in Hb'.
  by rewrite <- (Hk _ _ Hb), (Hk _ _ Hb').
Qed.

Lemma interface_lookup h f : (match mh_messages h !! f with Some ms => (in_sequence ms).*2 | None => [] end) =
  (in_sequence (interface_messages f h)).*2.
Proof. unfold interface_messages. by destruct (mh_messages h !! f). Qed.

Lemma collected_slots x h s : refines h s →
  collected x h = concat ((λ f, retain (passes x) (slots f s)) <$> searched_interfaces x h).
Proof.
  intros Hr. unfold collected. f_equal. apply list_fmap_ext. intros _ f _.
  rewrite <- (in_sequence_slots h s f Hr), <- interface_lookup. by destruct (_ !! f).
Qed.

Lemma searched_NoDup x h : NoDup (searched_interfaces x h).
Proof.
  unfold searched_interfaces. destruct (mf_interface_id x); [apply NoDup_singleton|].
  rewrite (sort_by_perm arr32_leb). apply NoDup_fst_map_to_list.
Qed.

Lemma collected_perm x h s : refines h s → collected x h ≡ₚ retain (selected x) (map_to_list s).*2.
Proof.
  intros Hr. rewrite (collected_slots x h s Hr). apply NoDup_Permutation.
  - apply (NoDup_concat_by msg_interface_id); [apply searched_NoDup| |].
    + intros f m [Hm _]%elem_of_retain. by apply (elem_of_slots _ _ _ _ Hr) in Hm as [_ ?].
    + intros f. by eapply NoDup_retain, slots_NoDup.
  - by eapply NoDup_retain, values_NoDup.
  - intros m. rewrite elem_of_retain. unfold selected. rewrite andb_true_iff. rewrite list_elem_of_In, in_concat. split.
    + intros (l & Hl%list_elem_of_In & Hm%list_elem_of_In). apply list_elem_of_fmap in Hl as (f & -> & Hf).
      apply elem_of_retain in Hm as [Hm Hp]. apply (elem_of_slots _ _ _ _ Hr) in Hm as [Hm <-].
      split; [by eapply elem_of_values|]. split; [|done]. unfold searched_interfaces in Hf.
      destruct (mf_interface_id x); [|done]. apply list_elem_of_singleton in Hf as <-. by apply bool_decide_eq_true_2.
    + intros [(id & Hm)%values_elem [Hf Hp]]. destruct (ref_ids _ _ Hr _ _ Hm) as [<- _].
      exists (retain (passes x) (slots (msg_interface_id m) s)). rewrite <- !list_elem_of_In. split.
      * apply list_elem_of_fmap. exists (msg_interface_id m). split; [done|]. unfold searched_interfaces.
        destruct (mf_interface_id x) as [f|]; [apply bool_decide_eq_true in Hf as ->; by constructor|].
        assert (Ha : at_slot (slot m) h = Some m) by (apply (ref_slots _ _ Hr); done).
        unfold at_slot, interface_messages in Ha. simpl in Ha. rewrite (sort_by_perm arr32_leb), list_elem_of_fmap.
        destruct (mh_messages h !! msg_interface_id m) as [ms|] eqn:E; [|simpl in Ha; by rewrite lookup_empty in Ha].
        exists (msg_interface_id m, ms). by rewrite elem_of_map_to_list.
      * apply elem_of_retain. split; [|done]. by apply (elem_of_slots _ _ _ _ Hr).
Qed.

Lemma get_refines h s id : refines h s → history_get id h = s !! id.
Proof.
  intros Hr. unfold history_get. rewrite (ref_index _ _ Hr id). destruct (s !! id) as [m|] eqn:Hm; simpl; [|done].
  destruct (ref_ids _ _ Hr _ _ Hm) as [<- _].
  assert (Ha : at_slot (slot m) h = Some m) by (apply (ref_slots _ _ Hr); done).
  unfold at_slot, interface_messages in Ha. simpl in Ha. destruct (_ !! msg_interface_id m); simpl in *; [done|].
  by rewrite lookup_empty in Ha.
Qed.

Lemma retain_fmap_snd (l : list (Z * Message I)) n : (∀ k m, (k, m) ∈ l → k = seq_of m) →
  (retain (λ x, n <=? x.1) l).*2 = retain (λ m, n <=? seq_of m) l.*2.
Proof.
  induction l as [|[k m] l IH]; intros Hl; [done|]. rewrite fmap_cons. cbn [retain fst snd]. rewrite (Hl k m) by constructor.
  assert (IH' := IH (λ k m Hm, Hl k m (list_elem_of_further _ _ _ Hm))). clear IH.
  destruct (n <=? seq_of m); [by rewrite fmap_cons, IH'|done].
Qed.

Lemma since_refines h s f n : refines h s → history_since f n h = retain (λ m, n <=? seq_of m) (slots f s).
Proof.
  intros Hr. rewrite <- (in_sequence_slots h s f Hr), <- retain_fmap_snd by (intros k m; by eapply in_sequence_seq).
  unfold history_since, interface_messages. by destruct (_ !! f).
Qed.

Lemma latest_refines h s f n : refines h s → history_latest f n h = drop (length (slots f s) - n) (slots f s).
Proof.
  intros Hr. rewrite <- (in_sequence_slots h s f Hr), <- interface_lookup. unfold history_latest.
  destruct (_ !! f); [|by rewrite drop_nil]. by rewrite firstn_rev, rev_involutive.
Qed.

Lemma count_refines h s f : refines h s → history_count f h = length (slots f s).
Proof.
  intros Hr. rewrite <- (in_sequence_slots h s f Hr), length_fmap, in_sequence_length.
  unfold history_count, interface_messages. by destruct (_ !! f).
Qed.

Lemma by_key_sorted (k : Message I → Z) l : StronglySorted (λ a b, k a <= k b) (sort_by (by_key k) l).
Proof.
  pose proof (sort_by_sorted (by_key k) l) as Hs. induction Hs as [|m l' Hs IH Hall]; constructor; [done|].
  eapply Forall_impl; [done|]. intros m'. apply Z.leb_le.
Qed.

(** A limit bounds every interface. *)
Definition bounded h : Prop := (0 < mh_max h)%nat → ∀ f, (history_count f h <= mh_max h)%nat.

Lemma count_interface h f : history_count f h = size (interface_messages f h).
Proof. unfold history_count, interface_messages. by destruct (_ !! f). Qed.

Lemma evict_size h f : (0 < mh_max h)%nat → (size (interface_messages f h) <= mh_max h)%nat →
  (size (evict (mh_max h) (interface_messages f h) (mh_id_index h)).1 < mh_max h)%nat.
Proof.
  intros Hn Hs. unfold evict. destruct ((0 <? mh_max h) && _)%nat eqn:E.
  - destruct (in_sequence (interface_messages f h)) as [|[k o] l] eqn:El.
    + simpl. rewrite <- in_sequence_length, El. done.
    + simpl. rewrite map_size_delete_Some; [|exists o; apply elem_of_in_sequence; rewrite El; by constructor]. apply andb_true_iff in E as [_ E%Nat.leb_le]. lia.
  - simpl. apply andb_false_iff in E as [E|E]; [apply Nat.ltb_ge in E|apply Nat.leb_gt in E]; lia.
Qed.

Lemma bounded_op op h : bounded h → bounded (run_op op h).
Proof.
  intros Hb Hn g. rewrite run_op_max in *. specialize (Hb Hn). rewrite count_interface. destruct op as [m|f]; simpl.
  - unfold history_store. pose proof (evict_size h (msg_interface_id m) Hn) as He.
    destruct (evict _ _ _) as [ms index]. rewrite <- count_interface in He. specialize (He (Hb _)). simpl in *.
    unfold interface_messages. simpl. destruct (decide (g = msg_interface_id m)) as [->|Hne].
    + rewrite lookup_insert_eq. simpl. rewrite map_size_insert. destruct (ms !! _); simpl; lia.
    + rewrite lookup_insert_ne by done. specialize (Hb g). by rewrite count_interface in Hb.
  - unfold history_clear. destruct (mh_messages h !! f) eqn:E; [|by rewrite <- count_interface].
    unfold interface_messages. simpl. destruct (decide (g = f)) as [->|Hne].
    + rewrite lookup_delete_eq. change (0 <= mh_max h)%nat. lia.
    + rewrite lookup_delete_ne by done. specialize (Hb g). by rewrite count_interface in Hb.
Qed.

(** C38. After any stores and clears that use each place for one message, the
    history answers as the map from identifiers: by identifier, by number, the
    latest, the number of messages; a query returns what its filter selects, in
    the order of time, and pages of it with offset and limit.  No interface has
    more messages than the limit. *)
Theorem history_refines_map n ops : fresh_run n ops ∅ →
  let h := foldl (λ h op, run_op op h) (history_with_limit n) ops in
  let s := foldl (λ s op, spec_op n op s) ∅ ops in
  (∀ id, history_get id h = s !! id) ∧
  (∀ f k, history_since f k h = retain (λ m, k <=? seq_of m) (slots f s)) ∧
  (∀ f k, history_latest f k h = drop (length (slots f s) - k) (slots f s)) ∧
  (∀ f, history_count f h = length (slots f s)) ∧
  (∀ x, ∃ l, l ≡ₚ retain (selected x) (map_to_list s).*2 ∧ StronglySorted (λ a b, msg_timestamp a <= msg_timestamp b) l ∧
     history_query x h = match mf_limit x with Some k => take k (drop (mf_offset x) l) | None => drop (mf_offset x) l end) ∧
  ((0 < n)%nat → ∀ f, (history_count f h <= n)%nat).
Proof.
  intros Hf h s. assert (Hr : refines h s) by (by apply refines_run; [|apply refines_new|]).
  split; [intros id; by apply get_refines|]. split; [intros f k; by apply since_refines|].
  split; [intros f k; by apply latest_refines|]. split; [intros f; by apply count_refines|]. split.
  - intros x. exists (sort_by (by_key msg_timestamp) (collected x h)). split; [|split; [|done]].
    + rewrite (sort_by_perm (by_key msg_timestamp)). by apply collected_perm.
    + apply by_key_sorted.
  - assert (Hb : bounded h).
    { apply (foldl_invariant bounded); [intros; by apply bounded_op|]. intros ? f. unfold history_count. simpl.
      rewrite lookup_empty. lia. }
    assert (Hm : mh_max h = n).
    { apply (foldl_invariant (λ h, mh_max h = n)); [|done]. intros. by rewrite run_op_max. }
    unfold bounded in Hb. by rewrite Hm in Hb.
Qed.
End HistorySpec.

(** ** Messages that share a place

    The second message takes the place of the first, whose identifier then
    finds the second. *)

Section Collisions.
Context {I : Type} `{PeerIdentity I} `{DefaultHasher I} `{MessagePostcard I}.
Implicit Types (c : MessagingClient I) (m : Message I) (h : MessageHistory I).

Lemma store_max m h : mh_max (history_store m h) = mh_max h.
Proof. exact (run_op_max (HStore m) h). Qed.

Lemma evict_unlimited h f : mh_max h = 0%nat →
  evict (mh_max h) (interface_messages f h) (mh_id_index h) = (interface_messages f h, mh_id_index h).
Proof. by intros ->. Qed.

Lemma store_get m h : history_get (msg_id m) (history_store m h) = Some m.
Proof.
  unfold history_get, history_store. destruct (evict _ _ _) as [ms index]. simpl.
  rewrite lookup_insert_eq. simpl. rewrite lookup_insert_eq. simpl. by rewrite lookup_insert_eq.
Qed.

Lemma store_index m h : mh_max h = 0%nat → mh_id_index (history_store m h) = <[msg_id m := slot m]> (mh_id_index h).
Proof. intros Hm. unfold history_store. by rewrite evict_unlimited. Qed.

Lemma store_slot m h p : mh_max h = 0%nat → at_slot p (history_store m h) = if decide (p = slot m) then Some m else at_slot p h.
Proof.
  intros Hm. unfold history_store. rewrite evict_unlimited by done. rewrite at_slot_insert. destruct p as [f n]. simpl.
  case_decide as E; simplify_eq.
  - destruct (decide (n = seq_of m)) as [->|Hne].
    + rewrite decide_True by done. by rewrite lookup_insert_eq.
    + rewrite decide_False by (unfold slot; congruence). by rewrite lookup_insert_ne.
  - rewrite decide_False; [done|]. unfold slot. congruence.
Qed.

Lemma get_at_slot id h : history_get id h = p ← mh_id_index h !! id; at_slot p h.
Proof.
  unfold history_get, at_slot, interface_messages. destruct (mh_id_index h !! id) as [[f n]|]; simpl; [|done].
  by destruct (mh_messages h !! f).
Qed.

(** Two messages of one place: the identifier of the first finds the second. *)
Theorem same_place_confused m m' h : mh_max h = 0%nat → slot m = slot m' → msg_id m ≠ msg_id m' →
  history_get (msg_id m) (history_store m' (history_store m h)) = Some m'.
Proof.
  intros Hm Hs Hne. assert (Hm1 : mh_max (history_store m h) = 0%nat) by (by rewrite store_max).
  rewrite get_at_slot, store_index, lookup_insert_ne, store_index, lookup_insert_eq by done. simpl.
  by rewrite store_slot, decide_True by done.
Qed.

(** *** The client *)

Definition sent_message (nonce : list byte) (now : Z) (f : arr32) (j : JoinedInterface I) c (x : MessageContent) : Message I :=
  message_new nonce now f (mcl_identity c) (ji_next_sequence j) x.

Definition advanced (j : JoinedInterface I) : JoinedInterface I :=
  {| ji_key := ji_key j; ji_next_sequence := wrap_u64 (ji_next_sequence j + 1); ji_members := ji_members j |}.

Lemma next_sequence_ok f j c : mcl_interfaces c !! f = Some j →
  next_sequence f c = (set_interfaces (<[f := advanced j]> (mcl_interfaces c)) c, Ok (ji_next_sequence j)).
Proof. intros Hj. unfold next_sequence. by rewrite run_gets_bind, Hj. Qed.

Lemma send_publishes gossip nonce now now' f x j c : mcl_interfaces c !! f = Some j →
  client_send gossip nonce now now' f x c =
  publish gossip now' f (ji_next_sequence j) (sent_message nonce now f j c x) (set_interfaces (<[f := advanced j]> (mcl_interfaces c)) c).
Proof.
  intros Hj. unfold client_send. by rewrite (run_bind_ok _ _ _ _ _ (next_sequence_ok _ _ _ Hj)), run_gets_bind.
Qed.

(** A send that succeeds: its event, its history and the next number. *)
Lemma send_ok nonce now now' f x j c bytes : mcl_interfaces c !! f = Some j →
  let m := sent_message nonce now f j c x in
  pc_message m = Ok bytes →
  ∃ c', client_send None nonce now now' f x c = (c', Ok (msg_id m)) ∧
    mcl_identity c' = mcl_identity c ∧
    mcl_gossip c' = mcl_gossip c ++ [(f, le_message now' (mcl_identity c) (ji_next_sequence j) bytes)] ∧
    mcl_history c' = history_store m (mcl_history c) ∧
    mcl_interfaces c' = <[f := advanced j]> (mcl_interfaces c).
Proof.
  intros Hj m Hp. rewrite (send_publishes _ _ _ _ _ _ _ _ Hj). unfold publish. fold m. rewrite Hp.
  eexists. split; [reflexivity|]. done.
Qed.

(** What one client sends, another that receives the event stores and hands to
    its subscribers; its history then finds it. *)
Theorem send_receive `{!MessagePostcardLaws I} nonce now now' f x j a b bytes : mcl_interfaces a !! f = Some j →
  mcl_identity a ≠ mcl_identity b → pc_message (sent_message nonce now f j a x) = Ok bytes →
  ∃ a' e b', client_send None nonce now now' f x a = (a', Ok (msg_id (sent_message nonce now f j a x))) ∧
    mcl_gossip a' = mcl_gossip a ++ [(f, e)] ∧
    client_receive e b = (b', Some (sent_message nonce now f j a x)) ∧
    (∀ c, c = a' ∨ c = b' → history_get (msg_id (sent_message nonce now f j a x)) (mcl_history c) = Some (sent_message nonce now f j a x)).
Proof.
  intros Hj Hne Hp. destruct (send_ok nonce now now' f x j a bytes Hj Hp) as (a' & Hs & _ & Hg & Hh & _).
  eexists _, _, _. split; [exact Hs|]. split; [exact Hg|]. split.
  - unfold le_message. simpl. rewrite bool_decide_eq_false_2 by done. by rewrite (message_roundtrip _ _ Hp).
  - intros c [-> | ->]; [rewrite Hh|simpl]; apply store_get.
Qed.

(** Every client numbers its messages from 1: when two members have each sent
    one, the history of the first finds the message of the second under the
    identifier of its own. *)
Theorem first_messages_collide `{!MessagePostcardLaws I} nonce nonce' t t' u u' f x y j j' a b bytes bytes' :
  mcl_interfaces a !! f = Some j → mcl_interfaces b !! f = Some j' → ji_next_sequence j = ji_next_sequence j' →
  mcl_identity a ≠ mcl_identity b → nonce ≠ nonce' → mh_max (mcl_history a) = 0%nat →
  pc_message (sent_message nonce t f j a x) = Ok bytes → pc_message (sent_message nonce' u f j' b y) = Ok bytes' →
  ∃ a1 b1 e a2, client_send None nonce t t' f x a = (a1, Ok (msg_id (sent_message nonce t f j a x))) ∧
    client_send None nonce' u u' f y b = (b1, Ok (msg_id (sent_message nonce' u f j' b y))) ∧
    mcl_gossip b1 = mcl_gossip b ++ [(f, e)] ∧
    client_receive e a1 = (a2, Some (sent_message nonce' u f j' b y)) ∧
    history_get (msg_id (sent_message nonce t f j a x)) (mcl_history a2) = Some (sent_message nonce' u f j' b y).
Proof.
  intros Hj Hj' Hn Hne Hnonce Hmax Hp Hp'.
  destruct (send_ok nonce t t' f x j a bytes Hj Hp) as (a1 & Hs & Hi & _ & Hh & _).
  destruct (send_ok nonce' u u' f y j' b bytes' Hj' Hp') as (b1 & Hs' & _ & Hg' & _ & _).
  eexists _, _, _, _. split; [exact Hs|]. split; [exact Hs'|]. split; [exact Hg'|]. split.
  - unfold le_message. simpl. rewrite Hi, bool_decide_eq_false_2 by done. by rewrite (message_roundtrip _ _ Hp').
  - simpl. rewrite Hh. apply same_place_confused; [done| |].
    + unfold slot, seq_of. simpl. by rewrite Hn.
    + unfold sent_message. simpl. unfold message_id_new. congruence.
Qed.

(** The key of the interface has no part in what is sent. *)
Theorem send_ignores_key nonce now now' f x j k c : mcl_interfaces c !! f = Some j →
  let j' := {| ji_key := k; ji_next_sequence := ji_next_sequence j; ji_members := ji_members j |} in
  mcl_gossip (client_send None nonce now now' f x (set_interfaces (<[f := j']> (mcl_interfaces c)) c)).1 =
  mcl_gossip (client_send None nonce now now' f x c).1.
Proof.
  intros Hj j'. rewrite (send_publishes _ _ _ _ _ _ _ _ Hj), (send_publishes _ _ _ _ f x j') by apply lookup_insert_eq.
  change (sent_message nonce now f j' _ x) with (sent_message nonce now f j c x). unfold publish. by destruct (pc_message _).
Qed.

(** A message is filed under the interface it names, whatever topic it came
    from and whoever it names as its sender. *)
Theorem received_as_named `{!MessagePostcardLaws I} id sender t m bytes c : sender ≠ mcl_identity c → pc_message m = Ok bytes →
  ∃ c', client_receive (LeMessage id sender bytes t) c = (c', Some m) ∧ at_slot (slot m) (mcl_history c') = Some m.
Proof.
  intros Hne Hp. simpl. rewrite bool_decide_eq_false_2 by done. rewrite (message_roundtrip _ _ Hp).
  eexists. split; [done|]. simpl. unfold history_store. destruct (evict _ _ _) as [ms index].
  rewrite at_slot_insert. simpl. rewrite decide_True by done. apply lookup_insert_eq.
Qed.
End Collisions.

(** ** The two locks of the history

    The operations at the level of their locks.  A thread holds locks and has
    a rest of its operation; it takes a lock for writing when no other thread
    holds it, for reading when no other thread writes. *)

Inductive HistoryLock : Type := Messages | IdIndex.

#[global] Instance HistoryLock_eq_dec : EqDecision HistoryLock.
Proof. solve_decision. Defined.

Inductive LockAction : Type := Acquire (l : HistoryLock) (write : bool) | Release (l : HistoryLock).

Record LockThread : Type := { lt_held : list (HistoryLock * bool); lt_rest : list LockAction }.

(** [store], which takes the index once more where it evicts; guards are
    dropped in the reverse order. *)
Definition store_locks (evicting : bool) : list LockAction :=
  Acquire Messages true :: (if evicting then [Acquire IdIndex true; Release IdIndex] else [])
  ++ [Acquire IdIndex true; Release IdIndex; Release Messages].

(** [get], which stops early when the index does not have the identifier. *)
Definition get_locks (found : bool) : list LockAction :=
  Acquire IdIndex false :: (if found then [Acquire Messages false; Release Messages] else []) ++ [Release IdIndex].

(** [query], [since], [latest], [count] and [total_count]. *)
Definition read_locks : list LockAction := [Acquire Messages false; Release Messages].

Definition clear_locks (present : bool) : list LockAction :=
  Acquire Messages true :: (if present then [Acquire IdIndex true; Release IdIndex] else []) ++ [Release Messages].

Definition thread_of (p : list LockAction) : LockThread := {| lt_held := []; lt_rest := p |}.

(** No other thread [u] stands in the way of a lock. *)
Definition admits (l : HistoryLock) (write : bool) (u : LockThread) : bool :=
  negb (any (λ x, bool_decide (x.1 = l) && (write || x.2)) (lt_held u)).

Definition thread_step (i : nat) (ts : list LockThread) : option (list LockThread) :=
  t ← ts !! i;
  match lt_rest t with
  | [] => None
  | Acquire l w :: p =>
      if bool_decide (Forall (λ u, admits l w u = true) (delete i ts)) then
        Some (<[i := {| lt_held := (l, w) :: lt_held t; lt_rest := p |}]> ts)
      else None
  | Release l :: p => Some (<[i := {| lt_held := retain (λ x, negb (bool_decide (x.1 = l))) (lt_held t); lt_rest := p |}]> ts)
  end.

Definition lock_step (ts ts' : list LockThread) : Prop := ∃ i, thread_step i ts = Some ts'.

Definition all_done (ts : list LockThread) : Prop := Forall (λ t, lt_rest t = []) ts.

(** A thread that stores and one that looks a message up can block each other:
    the first holds the messages and waits for the index, the second the other
    way round. *)
Theorem store_get_deadlock evicting : ∃ ts, rtc lock_step (thread_of <$> [store_locks evicting; get_locks true]) ts ∧
  ¬ all_done ts ∧ ∀ ts', ¬ lock_step ts ts'.
Proof.
  set (storing := {| lt_held := [(Messages, true)]; lt_rest := tail (store_locks evicting) |}).
  set (getting := {| lt_held := [(IdIndex, false)]; lt_rest := tail (get_locks true) |}).
  exists [storing; getting]. split; [|split].
  - apply (rtc_l _ _ [storing; thread_of (get_locks true)]); [by exists 0%nat|]. apply rtc_once. by exists 1%nat.
  - intros Hd. unfold all_done in Hd. rewrite !Forall_cons in Hd. by destruct Hd as (_ & ? & _).
  - intros ts' [i Hi]. destruct i as [|[|i]]; by destruct evicting.
Qed.

(** An operation that takes the messages before the index, and each once. *)
Fixpoint ordered_locks (held : list (HistoryLock * bool)) (p : list LockAction) : Prop :=
  match p with
  | [] => held = []
  | Acquire l w :: p =>
      match l with Messages => held = [] | IdIndex => ∀ w', (IdIndex, w') ∉ held end ∧ ordered_locks ((l, w) :: held) p
  | Release l :: p => ordered_locks (retain (λ x, negb (bool_decide (x.1 = l))) held) p
  end.

Definition ordered_thread (t : LockThread) : Prop := ordered_locks (lt_held t) (lt_rest t).

Lemma ordered_programs : (∀ b, ordered_thread (thread_of (store_locks b))) ∧ ordered_thread (thread_of read_locks) ∧
  (∀ b, ordered_thread (thread_of (clear_locks b))).
Proof.
  unfold ordered_thread. split; [|split]; [intros []|idtac|intros []]; simpl; split_and!; try done;
    intros w; rewrite ?elem_of_cons; set_solver.
Qed.

Lemma ordered_step ts ts' : lock_step ts ts' → Forall ordered_thread ts → Forall ordered_thread ts'.
Proof.
  intros [i Hi] Hts. unfold thread_step in Hi. destruct (ts !! i) as [t|] eqn:Ht; [|done]. simpl in Hi.
  assert (Ho : ordered_thread t) by (by eapply Forall_lookup_1). unfold ordered_thread in Ho.
  destruct (lt_rest t) as [|[l w|l] p]; [done| |].
  - case_bool_decide; [|done]. injection Hi as <-. apply Forall_insert; [done|]. by destruct Ho.
  - injection Hi as <-. by apply Forall_insert.
Qed.

Lemma admits_free l w u : (∀ w', (l, w') ∉ lt_held u) → admits l w u = true.
Proof.
  intros Hf. unfold admits. apply negb_true_iff, any_false. intros [l' w'] Hin. simpl.
  case_bool_decide as E; [|done]. subst l'. by apply Hf in Hin.
Qed.

(** A thread whose next lock nobody holds can go on. *)
Lemma thread_can_step ts i t : ts !! i = Some t → lt_rest t ≠ [] →
  (∀ l w p, lt_rest t = Acquire l w :: p → ∀ u w', u ∈ ts → (l, w') ∉ lt_held u) → ∃ ts', lock_step ts ts'.
Proof.
  intros Ht Hr Hfree. destruct (lt_rest t) as [|[l w|l] p] eqn:E; [done| |].
  - eexists. exists i. unfold thread_step. rewrite Ht. simpl. rewrite E. rewrite bool_decide_eq_true_2; [done|].
    apply Forall_delete, Forall_forall. intros u Hu. apply admits_free. intros w'. by eapply Hfree.
  - eexists. exists i. unfold thread_step. rewrite Ht. simpl. by rewrite E.
Qed.

Lemma holds_dec (l : HistoryLock) (ts : list LockThread) : (∃ t w, t ∈ ts ∧ (l, w) ∈ lt_held t) ∨ ∀ t w, t ∈ ts → (l, w) ∉ lt_held t.
Proof.
  destruct (any (λ t, any (λ x, bool_decide (x.1 = l)) (lt_held t)) ts) eqn:E.
  - apply any_true in E as (t & Ht & ([l' w] & Hx & <-%bool_decide_eq_true)%any_true). left. by exists t, w.
  - right. intros t w Ht Hw. rewrite any_false in E. specialize (E t Ht). rewrite any_false in E.
    specialize (E _ Hw). simpl in E. by rewrite bool_decide_eq_true_2 in E.
Qed.

(** Threads that take the messages first never block one another: as long as
    one has something left to do, some thread can go on. *)
Theorem ordered_locks_progress ts ts' : Forall ordered_thread ts → rtc lock_step ts ts' → all_done ts' ∨ ∃ ts'', lock_step ts' ts''.
Proof.
  intros Hts Hrun. assert (Ho : Forall ordered_thread ts').
  { eapply (rtc_invariant (Forall ordered_thread)); [|done|done]. intros x y Hx Hy. by eapply ordered_step. }
  clear Hts Hrun ts. rename ts' into ts. rewrite Forall_forall in Ho.
  assert (Hrest : ∀ t x, t ∈ ts → x ∈ lt_held t → lt_rest t ≠ []).
  { intros t x Ht Hx E. specialize (Ho t Ht). unfold ordered_thread in Ho. rewrite E in Ho. simpl in Ho. rewrite Ho in Hx. by apply not_elem_of_nil in Hx. }
  destruct (holds_dec IdIndex ts) as [(t & w & Ht & Hw)|Hi].
  { right. apply list_elem_of_lookup in Ht as Hi. destruct Hi as [i Hi]. eapply (thread_can_step ts i t Hi); [by eapply Hrest|].
    intros l w' p E. specialize (Ho t Ht). unfold ordered_thread in Ho. rewrite E in Ho. destruct Ho as [Ho _].
    destruct l; [rewrite Ho in Hw; by apply not_elem_of_nil in Hw|by apply Ho in Hw]. }
  destruct (holds_dec Messages ts) as [(t & w & Ht & Hw)|Hm].
  { right. apply list_elem_of_lookup in Ht as Hj. destruct Hj as [i Hj]. eapply (thread_can_step ts i t Hj); [by eapply Hrest|].
    intros l w' p E u w'' Hu. specialize (Ho t Ht). unfold ordered_thread in Ho. rewrite E in Ho. destruct Ho as [Ho _].
    destruct l; [rewrite Ho in Hw; by apply not_elem_of_nil in Hw|by apply Hi]. }
  destruct (decide (Forall (λ t, lt_rest t = []) ts)) as [Hd|Hd]; [by left|right].
  apply not_Forall_Exists, Exists_exists in Hd as (t & Ht & Hr); [|intros x; destruct (lt_rest x); by (left + right)].
  apply list_elem_of_lookup in Ht as [i Hj]. apply (thread_can_step ts i t Hj Hr). intros [] w p _ u w' Hu; [by apply Hm|by apply Hi].
Qed.

(** ** Typed content *)

Lemma from_utf8_bytes s : utf8_valid (as_bytes s) = true → from_utf8 (as_bytes s) = Some s.
Proof. intros Hs. unfold from_utf8. rewrite Hs. f_equal. apply string_of_list_byte_of_string. Qed.

(** Text is read back, and passes the validator within the limits. *)
Lemma text_content_spec `{JsonValue} v s : utf8_valid (as_bytes s) = true →
  Z.of_nat (length (as_bytes s)) <= max_content_size (cv_config v) → char_count (as_bytes s) <= max_text_length (cv_config v) →
  cv_custom_validators v = ∅ → ∀ c, c = tc_text s ∨ c = tc_system s → tc_as_text c = Some s ∧ validate v c = Ok tt.
Proof.
  intros Hs Hl Hn Hv c Hc. assert (Hd : tc_data c = as_bytes s ∧ tc_schema_version c = CURRENT ∧
    (bool_decide (tc_content_type c = content_types.TEXT) || bool_decide (tc_content_type c = content_types.SYSTEM)) = true)
    by (by destruct Hc as [-> | ->]).
  destruct Hd as (Hd & Hver & Ht). split.
  - unfold tc_as_text. by rewrite Ht, Hd, from_utf8_bytes.
  - unfold validate, validate_builtin, validate_text, data_size. rewrite Ht, Hd, Hver, from_utf8_bytes by done.
    rewrite (proj2 (Z.ltb_ge _ _) Hl), (proj2 (Z.ltb_ge _ _) Hn), andb_false_r, Hv. simpl. by rewrite lookup_empty.
Qed.

(** Content passes exactly when it is not too large, in a version that can be
    read where this is asked for, complete for its type, and accepted by the
    validator registered for the type. *)
Lemma validate_accepts `{JsonValue} v c : validate v c = Ok tt ↔
  data_size c <= max_content_size (cv_config v) ∧
  (strict_versions (cv_config v) = true → sv_major (tc_schema_version c) = 1 ∧ sv_minor (tc_schema_version c) <= 0) ∧
  validate_builtin v c = Ok tt ∧ (∀ f, cv_custom_validators v !! tc_content_type c = Some f → f c = Ok tt).
Proof.
  unfold validate, can_read, is_compatible_with. destruct (Z.ltb_spec (max_content_size (cv_config v)) (data_size c)); [split; [done|lia]|].
  assert (Hv : strict_versions (cv_config v) && negb ((sv_major CURRENT =? sv_major (tc_schema_version c)) && (sv_minor (tc_schema_version c) <=? sv_minor CURRENT)) = false
    ↔ (strict_versions (cv_config v) = true → sv_major (tc_schema_version c) = 1 ∧ sv_minor (tc_schema_version c) <= 0)).
  { destruct (strict_versions (cv_config v)); cbn [andb]; [|naive_solver].
    rewrite negb_false_iff, andb_true_iff, Z.eqb_eq, Z.leb_le. cbn [CURRENT sv_major sv_minor]. naive_solver. }
  destruct (strict_versions (cv_config v) && _).
  - split; [done|]. intros (_ & Hs & _). by apply Hv in Hs.
  - destruct (validate_builtin v c) as [[]|e]; simpl; [|naive_solver].
    destruct (cv_custom_validators v !! tc_content_type c) as [f|]; simpl; naive_solver.
Qed.

(** The versions a version can read are those below it in a partial order. *)
Lemma can_read_order : (∀ a, can_read a a = true) ∧ (∀ a b c, can_read a b = true → can_read b c = true → can_read a c = true) ∧
  (∀ a b, can_read a b = true → can_read b a = true → a = b) ∧ ∀ a b, can_read a b = true → a = b ∨ is_newer_than a b = true.
Proof.
  unfold can_read, is_compatible_with, is_newer_than. split_and!; intros; destruct_and?; repeat match goal with
    | H : _ && _ = true |- _ => apply andb_true_iff in H as [?%Z.eqb_eq ?%Z.leb_le] end.
  - rewrite Z.eqb_refl, Z.leb_refl. done.
  - apply andb_true_iff. rewrite Z.eqb_eq, Z.leb_le. lia.
  - destruct a, b; simpl in *; f_equal; lia.
  - destruct (decide (sv_minor a = sv_minor b)); [left; destruct a, b; simpl in *; f_equal; lia|right].
    apply orb_true_iff. right. apply andb_true_iff. rewrite Z.eqb_eq, Z.ltb_lt. lia.
Qed.
