(* ===== verification/Keystore.v ===== *)
(** * Key files

    Models [indras-node/src/keystore.rs]: the keystore of a node ([Keystore]),
    its encryption under a passphrase ([EncryptedKeystore]) and the keystore of
    a pass story ([StoryKeystore]).  The directory maps file names to bytes; it
    carries the answers of the file system to the calls to come, where a failed
    write leaves the file as it was or a prefix of the new bytes, and the random
    bytes still to be drawn.  New keys are arguments.  ChaCha20-Poly1305,
    Argon2id and the key formats are parameters; transport keys are 32 bytes.
    Sizes in the texts of key errors and log output are left out. *)

From S2P Require Import Prelude Bytes Crypto Pending Bundle BlobStore BundleStore Sealing Recovery.

Local Open Scope string_scope.
Local Open Scope Z_scope.
Local Open Scope list_scope.

(** [Argon2id] version 0x13 with memory, iterations, parallelism and output
    length, on a password and a salt. *)
Class Argon2 : Type := argon2id : Z → Z → Z → nat → list byte → list byte → Result (list byte) string.

(** ** The directory *)

Definition IROH_KEY_FILENAME : string := "identity.key".
Definition PQ_SIGNING_KEY_FILENAME : string := "identity_sk.pq".
Definition PQ_VERIFYING_KEY_FILENAME : string := "identity_pk.pq".
Definition PQ_KEM_DK_FILENAME : string := "kem_dk.pq".
Definition PQ_KEM_EK_FILENAME : string := "kem_ek.pq".
Definition ENCRYPTED_SUFFIX : string := ".enc".
Definition SALT_FILENAME : string := "keystore.salt".
Definition STORY_TOKEN_FILENAME : string := "story.token".
Definition STORY_SALT_FILENAME : string := "story.salt".

(** A failed call: how much of a write reached the file ([None]: it was not
    opened), and the error. *)
Abbreviation FsFault := (option nat * string)%type.

Record KeyDir : Type := {
  kd_files : gmap string (list byte);
  kd_io : list (option FsFault);
  kd_random : list byte;
}.

Definition kd_set_files (f : gmap string (list byte)) (d : KeyDir) : KeyDir :=
  {| kd_files := f; kd_io := kd_io d; kd_random := kd_random d |}.

Definition io_answer (d : KeyDir) : KeyDir * option FsFault :=
  match kd_io d with
  | [] => (d, None)
  | a :: l => ({| kd_files := kd_files d; kd_io := l; kd_random := kd_random d |}, a)
  end.

Definition keystore_failed {A} (text e : string) : Result A NodeError := Err (NodeKeystore (text +:+ e)).

Definition file_exists (name : string) (d : KeyDir) : bool := bool_decide (is_Some (kd_files d !! name)).

(** [std::fs::create_dir_all]. *)
Definition create_dir : M KeyDir NodeError unit := λ d,
  match io_answer d with
  | (d, None) => (d, Ok tt)
  | (d, Some (_, e)) => (d, keystore_failed "Failed to create keystore dir: " e)
  end.

(** [std::fs::write]. *)
Definition write_file (text name : string) (bytes : list byte) : M KeyDir NodeError unit := λ d,
  match io_answer d with
  | (d, None) => (kd_set_files (<[name := bytes]> (kd_files d)) d, Ok tt)
  | (d, Some (Some n, e)) => (kd_set_files (<[name := take n bytes]> (kd_files d)) d, keystore_failed text e)
  | (d, Some (None, e)) => (d, keystore_failed text e)
  end.

Definition NOT_FOUND : string := "No such file or directory (os error 2)".

(** [std::fs::read]. *)
Definition read_file (err : string → NodeError) (name : string) : M KeyDir NodeError (list byte) := λ d,
  match kd_files d !! name with
  | None => (d, Err (err NOT_FOUND))
  | Some bytes => match io_answer d with (d, None) => (d, Ok bytes) | (d, Some (_, e)) => (d, Err (err e)) end
  end.

Definition keystore_error (text e : string) : NodeError := NodeKeystore (text +:+ e).

Definition set_restrictive_permissions (name : string) : M KeyDir NodeError unit := λ d,
  match io_answer d with
  | (d, None) => (d, Ok tt)
  | (d, Some (_, e)) => (d, keystore_failed "Failed to set key permissions: " e)
  end.

(** [std::fs::remove_file]; an absent file is an error. *)
Definition remove_file (name : string) : M KeyDir NodeError unit := λ d,
  match kd_files d !! name with
  | None => (d, keystore_failed "Failed to delete key file: " NOT_FOUND)
  | Some _ =>
      match io_answer d with
      | (d, None) => (kd_set_files (delete name (kd_files d)) d, Ok tt)
      | (d, Some (_, e)) => (d, keystore_failed "Failed to delete key file: " e)
      end
  end.

Definition delete_file (name : string) : M KeyDir NodeError unit :=
  there ← gets (file_exists name);
  if there : bool then remove_file name else mret tt.

(** [fill_bytes] on [n] bytes; the supply does not run out. *)
Definition random_bytes (n : nat) : M KeyDir NodeError (list byte) := λ d,
  ({| kd_files := kd_files d; kd_io := kd_io d; kd_random := drop n (kd_random d) |},
   Ok (take n (kd_random d ++ replicate n x00))).

Section Keystore.
Context `{Aead} `{Dilithium} `{Kem} `{Argon2}.

(** ** Plain keys *)

(** [SecretKey::from_bytes] after the check of the length. *)
Definition iroh_from_bytes (text : string) (bytes : list byte) : M KeyDir NodeError arr32 :=
  match to_arr32 bytes with
  | Some k => mret k
  | None => fail (NodeKeystore (text +:+ "expected 32 bytes, got " +:+ i64_to_string (Z.of_nat (length bytes))))
  end.

Definition identity_from_bytes (text : string) (sk pk : list byte) : M KeyDir NodeError PQIdentity :=
  match pq_identity_from_keypair_bytes sk pk with
  | Ok i => mret i
  | Err _ => fail (NodeKeystore (text +:+ "Invalid key"))
  end.

Definition kem_from_bytes (text : string) (dk ek : list byte) : M KeyDir NodeError PQKemKeyPair :=
  match kem_from_keypair_bytes dk ek with
  | Ok k => mret k
  | Err e => fail (NodeKeystore (text +:+ seal_error_message e))
  end.

Definition load_iroh : M KeyDir NodeError arr32 :=
  bytes ← read_file (keystore_error "Failed to read iroh key file: ") IROH_KEY_FILENAME;
  iroh_from_bytes "Invalid iroh key file: " bytes.

Definition save_iroh (key : arr32) : M KeyDir NodeError unit :=
  create_dir ;;
  write_file "Failed to write iroh key file: " IROH_KEY_FILENAME (arr32_bytes key) ;;
  set_restrictive_permissions IROH_KEY_FILENAME.

Definition keystore_exists (d : KeyDir) : bool := file_exists IROH_KEY_FILENAME d.

Definition load_or_generate_iroh (fresh : arr32) : M KeyDir NodeError arr32 :=
  there ← gets keystore_exists;
  if there : bool then load_iroh else save_iroh fresh ;; mret fresh.

Definition pq_identity_exists (d : KeyDir) : bool :=
  file_exists PQ_SIGNING_KEY_FILENAME d && file_exists PQ_VERIFYING_KEY_FILENAME d.

Definition load_pq_identity : M KeyDir NodeError PQIdentity :=
  sk ← read_file (keystore_error "Failed to read PQ signing key file: ") PQ_SIGNING_KEY_FILENAME;
  pk ← read_file (keystore_error "Failed to read PQ verifying key file: ") PQ_VERIFYING_KEY_FILENAME;
  identity_from_bytes "Invalid PQ identity files: " sk pk.

Definition save_pq_identity (i : PQIdentity) : M KeyDir NodeError unit :=
  create_dir ;;
  write_file "Failed to write PQ signing key file: " PQ_SIGNING_KEY_FILENAME (pq_identity_to_keypair_bytes i).1 ;;
  set_restrictive_permissions PQ_SIGNING_KEY_FILENAME ;;
  write_file "Failed to write PQ verifying key file: " PQ_VERIFYING_KEY_FILENAME (pq_identity_to_keypair_bytes i).2.

Definition load_or_generate_pq_identity (fresh : PQIdentity) : M KeyDir NodeError PQIdentity :=
  there ← gets pq_identity_exists;
  if there : bool then load_pq_identity else save_pq_identity fresh ;; mret fresh.

Definition pq_kem_exists (d : KeyDir) : bool := file_exists PQ_KEM_DK_FILENAME d && file_exists PQ_KEM_EK_FILENAME d.

Definition load_pq_kem : M KeyDir NodeError PQKemKeyPair :=
  dk ← read_file (keystore_error "Failed to read PQ KEM decapsulation key file: ") PQ_KEM_DK_FILENAME;
  ek ← read_file (keystore_error "Failed to read PQ KEM encapsulation key file: ") PQ_KEM_EK_FILENAME;
  kem_from_bytes "Invalid PQ KEM key files: " dk ek.

Definition save_pq_kem (k : PQKemKeyPair) : M KeyDir NodeError unit :=
  create_dir ;;
  write_file "Failed to write PQ KEM decapsulation key file: " PQ_KEM_DK_FILENAME (kem_to_keypair_bytes k).1 ;;
  set_restrictive_permissions PQ_KEM_DK_FILENAME ;;
  write_file "Failed to write PQ KEM encapsulation key file: " PQ_KEM_EK_FILENAME (kem_to_keypair_bytes k).2.

Definition load_or_generate_pq_kem (fresh : PQKemKeyPair) : M KeyDir NodeError PQKemKeyPair :=
  there ← gets pq_kem_exists;
  if there : bool then load_pq_kem else save_pq_kem fresh ;; mret fresh.

Definition keystore_delete : M KeyDir NodeError unit :=
  delete_file IROH_KEY_FILENAME ;;
  delete_file PQ_SIGNING_KEY_FILENAME ;;
  delete_file PQ_VERIFYING_KEY_FILENAME ;;
  delete_file PQ_KEM_DK_FILENAME ;;
  delete_file PQ_KEM_EK_FILENAME.

(** ** Keys under a passphrase *)

Record EncryptedKeystore : Type := {
  eks_inner : KeyDir;
  eks_key : option arr32;
  eks_encrypted : bool;
}.

Definition eks_set_inner (d : KeyDir) (k : EncryptedKeystore) : EncryptedKeystore :=
  {| eks_inner := d; eks_key := eks_key k; eks_encrypted := eks_encrypted k |}.

Definition eks_set_key (o : option arr32) (k : EncryptedKeystore) : EncryptedKeystore :=
  {| eks_inner := eks_inner k; eks_key := o; eks_encrypted := eks_encrypted k |}.

Definition eks_set_encrypted (b : bool) (k : EncryptedKeystore) : EncryptedKeystore :=
  {| eks_inner := eks_inner k; eks_key := eks_key k; eks_encrypted := b |}.

Definition on_dir {A} (m : M KeyDir NodeError A) : M EncryptedKeystore NodeError A := zoom eks_inner eks_set_inner m.

Definition encrypted_new (d : KeyDir) : EncryptedKeystore := {| eks_inner := d; eks_key := None; eks_encrypted := true |}.

Definition new_unencrypted (d : KeyDir) : EncryptedKeystore := {| eks_inner := d; eks_key := None; eks_encrypted := false |}.

Definition eks_is_locked (k : EncryptedKeystore) : bool := eks_encrypted k && bool_decide (eks_key k = None).

Definition ensure_unlocked : M EncryptedKeystore NodeError unit :=
  locked ← gets eks_is_locked;
  if locked : bool then fail (NodeKeystore "Keystore is locked. Call unlock() with passphrase first.") else mret tt.

Definition eks_lock (k : EncryptedKeystore) : EncryptedKeystore := eks_set_key None k.

Definition encrypted_path (name : string) : string := name +:+ ENCRYPTED_SUFFIX.

Definition create_new_salt : M KeyDir NodeError (list byte) :=
  create_dir ;;
  salt ← random_bytes 16;
  write_file "Failed to write salt file: " SALT_FILENAME salt ;;
  set_restrictive_permissions SALT_FILENAME ;;
  mret salt.

Definition load_or_create_salt : M KeyDir NodeError (list byte) :=
  there ← gets (file_exists SALT_FILENAME);
  if there : bool then read_file (keystore_error "Failed to read salt file: ") SALT_FILENAME else create_new_salt.

(** The output has the 32 bytes asked for. *)
Definition derive_key {S} (passphrase : string) (salt : list byte) : M S NodeError arr32 :=
  match argon2id 19456 2 1 32 (as_bytes passphrase) salt with
  | Ok bytes => mret (default zeros32 (to_arr32 bytes))
  | Err e => fail (NodeKeystore ("Failed to derive key: " +:+ e))
  end.

Definition unlock (passphrase : string) : M EncryptedKeystore NodeError unit :=
  encrypted ← gets eks_encrypted;
  if negb encrypted then mret tt
  else if bool_decide (passphrase = "") then fail (NodeKeystore "Passphrase cannot be empty")
  else
    salt ← on_dir load_or_create_salt;
    key ← derive_key passphrase salt;
    modify (eks_set_key (Some key)).

(** The nonce is put before the ciphertext. *)
Definition eks_encrypt (key : option arr32) (plaintext : list byte) : M KeyDir NodeError (list byte) :=
  key ← ok_or key (NodeKeystore "No encryption key");
  nonce ← random_bytes NONCE_SIZE;
  match aead_encrypt key nonce plaintext with
  | Ok c => mret (nonce ++ c)
  | Err e => fail (NodeKeystore ("Encryption failed: " +:+ e))
  end.

Definition eks_decrypt {S} (key : option arr32) (data : list byte) : M S NodeError (list byte) :=
  if (length data <? NONCE_SIZE)%nat then fail (NodeKeystore "Data too short")
  else
    key ← ok_or key (NodeKeystore "No encryption key");
    match aead_decrypt key (take NONCE_SIZE data) (drop NONCE_SIZE data) with
    | Ok p => mret p
    | Err e => fail (NodeKeystore ("Decryption failed (wrong passphrase?): " +:+ e))
    end.

Definition save_encrypted_file (name : string) (plaintext : list byte) : M EncryptedKeystore NodeError unit :=
  key ← gets eks_key;
  on_dir (create_dir ;;
          encrypted ← eks_encrypt key plaintext;
          write_file "Failed to write file: " name encrypted ;;
          set_restrictive_permissions name).

Definition load_encrypted_file (name : string) : M EncryptedKeystore NodeError (list byte) :=
  data ← on_dir (read_file (keystore_error "Failed to read file: ") name);
  key ← gets eks_key;
  eks_decrypt key data.

(** The encrypted file, or else the plain one, or else an error. *)
Definition load_encrypted_or_plain (read_error missing name : string) : M EncryptedKeystore NodeError (list byte) :=
  sealed ← gets (λ k, file_exists (encrypted_path name) (eks_inner k));
  plain ← gets (λ k, file_exists name (eks_inner k));
  if sealed : bool then load_encrypted_file (encrypted_path name)
  else if plain : bool then on_dir (read_file (keystore_error read_error) name)
  else fail (NodeKeystore missing).

Definition save_iroh_encrypted (key : arr32) : M EncryptedKeystore NodeError unit :=
  save_encrypted_file (encrypted_path IROH_KEY_FILENAME) (arr32_bytes key).

Definition load_iroh_encrypted : M EncryptedKeystore NodeError arr32 :=
  bytes ← load_encrypted_or_plain "Failed to read key file: " "No iroh key file found" IROH_KEY_FILENAME;
  on_dir (iroh_from_bytes "Invalid iroh key: " bytes).

Definition save_pq_identity_encrypted (i : PQIdentity) : M EncryptedKeystore NodeError unit :=
  save_encrypted_file (encrypted_path PQ_SIGNING_KEY_FILENAME) (pq_identity_to_keypair_bytes i).1 ;;
  save_encrypted_file (encrypted_path PQ_VERIFYING_KEY_FILENAME) (pq_identity_to_keypair_bytes i).2.

Definition load_pq_identity_encrypted : M EncryptedKeystore NodeError PQIdentity :=
  sk ← load_encrypted_or_plain "Failed to read file: " "No PQ signing key file found" PQ_SIGNING_KEY_FILENAME;
  pk ← load_encrypted_or_plain "Failed to read file: " "No PQ verifying key file found" PQ_VERIFYING_KEY_FILENAME;
  on_dir (identity_from_bytes "Invalid PQ identity: " sk pk).

Definition save_pq_kem_encrypted (k : PQKemKeyPair) : M EncryptedKeystore NodeError unit :=
  save_encrypted_file (encrypted_path PQ_KEM_DK_FILENAME) (kem_to_keypair_bytes k).1 ;;
  save_encrypted_file (encrypted_path PQ_KEM_EK_FILENAME) (kem_to_keypair_bytes k).2.

Definition load_pq_kem_encrypted : M EncryptedKeystore NodeError PQKemKeyPair :=
  dk ← load_encrypted_or_plain "Failed to read file: " "No PQ KEM decapsulation key file found" PQ_KEM_DK_FILENAME;
  ek ← load_encrypted_or_plain "Failed to read file: " "No PQ KEM encapsulation key file found" PQ_KEM_EK_FILENAME;
  on_dir (kem_from_bytes "Invalid PQ KEM key pair: " dk ek).

(** The operations of [EncryptedKeystore] on a key: locked ones are refused,
    the others go to the encrypted files or to the plain ones. *)
Definition when_unlocked {A} (sealed : M EncryptedKeystore NodeError A) (plain : M KeyDir NodeError A)
    : M EncryptedKeystore NodeError A :=
  ensure_unlocked ;;
  encrypted ← gets eks_encrypted;
  if encrypted : bool then sealed else on_dir plain.

Definition eks_load_iroh : M EncryptedKeystore NodeError arr32 := when_unlocked load_iroh_encrypted load_iroh.
Definition eks_save_iroh (key : arr32) : M EncryptedKeystore NodeError unit := when_unlocked (save_iroh_encrypted key) (save_iroh key).
Definition eks_load_pq_identity : M EncryptedKeystore NodeError PQIdentity := when_unlocked load_pq_identity_encrypted load_pq_identity.
Definition eks_save_pq_identity (i : PQIdentity) : M EncryptedKeystore NodeError unit :=
  when_unlocked (save_pq_identity_encrypted i) (save_pq_identity i).
Definition eks_load_pq_kem : M EncryptedKeystore NodeError PQKemKeyPair := when_unlocked load_pq_kem_encrypted load_pq_kem.
Definition eks_save_pq_kem (k : PQKemKeyPair) : M EncryptedKeystore NodeError unit := when_unlocked (save_pq_kem_encrypted k) (save_pq_kem k).

Definition encrypted_iroh_key_exists (d : KeyDir) : bool := file_exists (encrypted_path IROH_KEY_FILENAME) d.

Definition encrypted_pq_identity_exists (d : KeyDir) : bool :=
  file_exists (encrypted_path PQ_SIGNING_KEY_FILENAME) d && file_exists (encrypted_path PQ_VERIFYING_KEY_FILENAME) d.

Definition encrypted_pq_kem_exists (d : KeyDir) : bool :=
  file_exists (encrypted_path PQ_KEM_DK_FILENAME) d && file_exists (encrypted_path PQ_KEM_EK_FILENAME) d.

Definition eks_exists (k : EncryptedKeystore) : bool :=
  encrypted_iroh_key_exists (eks_inner k) || keystore_exists (eks_inner k).

Definition any_identity_exists (k : EncryptedKeystore) : bool :=
  encrypted_pq_identity_exists (eks_inner k) || pq_identity_exists (eks_inner k).

Definition any_kem_exists (k : EncryptedKeystore) : bool :=
  encrypted_pq_kem_exists (eks_inner k) || pq_kem_exists (eks_inner k).

Definition eks_load_or_generate_iroh (fresh : arr32) : M EncryptedKeystore NodeError arr32 :=
  ensure_unlocked ;;
  there ← gets eks_exists;
  if there : bool then eks_load_iroh else eks_save_iroh fresh ;; mret fresh.

Definition eks_load_or_generate_pq_identity (fresh : PQIdentity) : M EncryptedKeystore NodeError PQIdentity :=
  ensure_unlocked ;;
  there ← gets any_identity_exists;
  if there : bool then eks_load_pq_identity else eks_save_pq_identity fresh ;; mret fresh.

Definition eks_load_or_generate_pq_kem (fresh : PQKemKeyPair) : M EncryptedKeystore NodeError PQKemKeyPair :=
  ensure_unlocked ;;
  there ← gets any_kem_exists;
  if there : bool then eks_load_pq_kem else eks_save_pq_kem fresh ;; mret fresh.

(** [if exists { Some(load()?) } else { None }] and [if let Some(x) { save(x)? }]. *)
Definition load_if {A} (there : EncryptedKeystore → bool) (load : M EncryptedKeystore NodeError A) : M EncryptedKeystore NodeError (option A) :=
  b ← gets there;
  if b : bool then x ← load; mret (Some x) else mret None.

Definition save_if {A} (o : option A) (save : A → M EncryptedKeystore NodeError unit) : M EncryptedKeystore NodeError unit :=
  match o with Some x => save x | None => mret tt end.

Definition change_passphrase (new_passphrase : string) : M EncryptedKeystore NodeError unit :=
  locked ← gets eks_is_locked;
  if locked : bool then fail (NodeKeystore "Keystore is locked")
  else if bool_decide (new_passphrase = "") then fail (NodeKeystore "New passphrase cannot be empty")
  else
    iroh ← load_if eks_exists eks_load_iroh;
    identity ← load_if any_identity_exists eks_load_pq_identity;
    kem ← load_if any_kem_exists eks_load_pq_kem;
    salt ← on_dir create_new_salt;
    key ← derive_key new_passphrase salt;
    modify (eks_set_key (Some key)) ;;
    save_if iroh eks_save_iroh ;;
    save_if identity eks_save_pq_identity ;;
    save_if kem eks_save_pq_kem.

Definition migrate_to_encrypted (passphrase : string) : M EncryptedKeystore NodeError unit :=
  already ← gets (λ k, eks_encrypted k && bool_decide (is_Some (eks_key k)));
  if already : bool then fail (NodeKeystore "Already encrypted")
  else
    modify (eks_set_encrypted false) ;;
    iroh ← load_if (λ k, keystore_exists (eks_inner k)) eks_load_iroh;
    identity ← load_if (λ k, pq_identity_exists (eks_inner k)) eks_load_pq_identity;
    kem ← load_if (λ k, pq_kem_exists (eks_inner k)) eks_load_pq_kem;
    modify (eks_set_encrypted true) ;;
    unlock passphrase ;;
    save_if iroh (λ k, eks_save_iroh k ;; ignore (on_dir (remove_file IROH_KEY_FILENAME))) ;;
    save_if identity (λ i, eks_save_pq_identity i ;;
                           ignore (on_dir (remove_file PQ_SIGNING_KEY_FILENAME)) ;;
                           ignore (on_dir (remove_file PQ_VERIFYING_KEY_FILENAME))) ;;
    save_if kem (λ k, eks_save_pq_kem k ;;
                      ignore (on_dir (remove_file PQ_KEM_DK_FILENAME)) ;;
                      ignore (on_dir (remove_file PQ_KEM_EK_FILENAME))).

(** ** The keystore of a story *)

Record StoryKeystore : Type := {
  sk_inner : EncryptedKeystore;
  sk_verification_token : option arr32;
}.

Definition sk_set_inner (k : EncryptedKeystore) (s : StoryKeystore) : StoryKeystore :=
  {| sk_inner := k; sk_verification_token := sk_verification_token s |}.

Definition sk_set_token (o : option arr32) (s : StoryKeystore) : StoryKeystore :=
  {| sk_inner := sk_inner s; sk_verification_token := o |}.

Definition on_keys {A} (m : M EncryptedKeystore NodeError A) : M StoryKeystore NodeError A := zoom sk_inner sk_set_inner m.

Definition story_keystore_new (d : KeyDir) : StoryKeystore := {| sk_inner := encrypted_new d; sk_verification_token := None |}.

Definition save_verification_token (token : arr32) : M KeyDir NodeError unit :=
  create_dir ;;
  write_file "Failed to write verification token: " STORY_TOKEN_FILENAME (arr32_bytes token) ;;
  set_restrictive_permissions STORY_TOKEN_FILENAME.

Definition load_verification_token : M KeyDir NodeError arr32 :=
  bytes ← read_file (λ e, NodeStoryAuth ("No verification token found: " +:+ e)) STORY_TOKEN_FILENAME;
  match to_arr32 bytes with
  | Some t => mret t
  | None => fail (NodeStoryAuth ("Invalid verification token: expected 32 bytes, got " +:+ i64_to_string (Z.of_nat (length bytes))))
  end.

Definition save_story_salt (salt : list byte) : M KeyDir NodeError unit :=
  create_dir ;;
  write_file "Failed to write story salt: " STORY_SALT_FILENAME salt ;;
  set_restrictive_permissions STORY_SALT_FILENAME.

Definition load_story_salt : M KeyDir NodeError (list byte) :=
  read_file (λ e, NodeStoryAuth ("No story salt found: " +:+ e)) STORY_SALT_FILENAME.

(** The keys that [initialize] generates where there are none. *)
Record NodeKeys : Type := { nk_iroh : arr32; nk_identity : PQIdentity; nk_kem : PQKemKeyPair }.

Definition story_initialize (fresh : NodeKeys) (key token : arr32) (salt : list byte) : M StoryKeystore NodeError unit :=
  on_keys (on_dir (save_story_salt salt)) ;;
  on_keys (on_dir (save_verification_token token)) ;;
  modify (sk_set_token (Some token)) ;;
  on_keys (modify (eks_set_key (Some key))) ;;
  on_keys (eks_load_or_generate_iroh (nk_iroh fresh)) ;;
  on_keys (eks_load_or_generate_pq_identity (nk_identity fresh)) ;;
  on_keys (eks_load_or_generate_pq_kem (nk_kem fresh)) ;;
  mret tt.

Definition story_authenticate (key token : arr32) : M StoryKeystore NodeError unit :=
  stored ← on_keys (on_dir load_verification_token);
  if negb (bool_decide (stored = token)) then
    fail (NodeStoryAuth "Story verification failed — this doesn't match the stored story")
  else
    on_keys (modify (eks_set_key (Some key))) ;;
    modify (sk_set_token (Some token)).

Definition verify_token (token : arr32) : M StoryKeystore NodeError bool :=
  stored ← on_keys (on_dir load_verification_token);
  mret (bool_decide (stored = token)).

Definition rotate_story (new_key new_token : arr32) (new_salt : list byte) : M StoryKeystore NodeError unit :=
  locked ← gets (λ s, eks_is_locked (sk_inner s));
  if locked : bool then fail (NodeStoryAuth "Must authenticate with current story before rotating")
  else
    iroh ← on_keys eks_load_iroh;
    identity ← on_keys eks_load_pq_identity;
    kem ← on_keys eks_load_pq_kem;
    on_keys (modify (eks_set_key (Some new_key))) ;;
    on_keys (eks_save_iroh iroh) ;;
    on_keys (eks_save_pq_identity identity) ;;
    on_keys (eks_save_pq_kem kem) ;;
    on_keys (on_dir (save_story_salt new_salt)) ;;
    on_keys (on_dir (save_verification_token new_token)) ;;
    modify (sk_set_token (Some new_token)).

Definition story_is_initialized (s : StoryKeystore) : bool :=
  file_exists STORY_TOKEN_FILENAME (eks_inner (sk_inner s)) && file_exists STORY_SALT_FILENAME (eks_inner (sk_inner s)).

Definition story_lock (s : StoryKeystore) : StoryKeystore := sk_set_inner (eks_lock (sk_inner s)) s.

Definition story_is_locked (s : StoryKeystore) : bool := eks_is_locked (sk_inner s).

Definition story_load_or_generate_iroh (fresh : arr32) : M StoryKeystore NodeError arr32 := on_keys (eks_load_or_generate_iroh fresh).
Definition story_load_or_generate_pq_identity (fresh : PQIdentity) : M StoryKeystore NodeError PQIdentity :=
  on_keys (eks_load_or_generate_pq_identity fresh).
Definition story_load_or_generate_pq_kem (fresh : PQKemKeyPair) : M StoryKeystore NodeError PQKemKeyPair :=
  on_keys (eks_load_or_generate_pq_kem fresh).
End Keystore.

(** ** Files on a working disk *)

Section KeystoreFacts.
Context `{Aead} `{Dilithium} `{Kem} `{Argon2}.
Context `{!AeadLaws, !KeyBytesLaws}.
(** The cipher takes nonces of its size and texts that are not too long; the
    keys have a fixed size far below. *)
Definition short (p : list byte) : Prop := Z.of_nat (length p) < 2 ^ 32.
Context (aead_total : ∀ k n p, length n = NONCE_SIZE → short p → ∃ c, aead_encrypt k n p = Ok c).
Context (identity_short : ∀ i, short (pq_identity_to_keypair_bytes i).1 ∧ short (pq_identity_to_keypair_bytes i).2).
Context (kem_short : ∀ k : PQKemKeyPair, short (kem_to_keypair_bytes k).1 ∧ short (kem_to_keypair_bytes k).2).
Context (kem_bytes : ∀ k : PQKemKeyPair, kem_from_keypair_bytes (kem_to_keypair_bytes k).1 (kem_to_keypair_bytes k).2 = Ok k).
Implicit Types (d : KeyDir) (k : EncryptedKeystore) (s : StoryKeystore).

Lemma io_quiet d : kd_io d = [] → io_answer d = (d, None).
Proof. unfold io_answer. by intros ->. Qed.

Lemma create_dir_quiet d : kd_io d = [] → create_dir d = (d, Ok tt).
Proof. intros Hq. unfold create_dir. by rewrite io_quiet. Qed.

Lemma permissions_quiet name d : kd_io d = [] → set_restrictive_permissions name d = (d, Ok tt).
Proof. intros Hq. unfold set_restrictive_permissions. by rewrite io_quiet. Qed.

Lemma write_quiet text name b d : kd_io d = [] → write_file text name b d = (kd_set_files (<[name := b]> (kd_files d)) d, Ok tt).
Proof. intros Hq. unfold write_file. by rewrite io_quiet. Qed.

Lemma read_quiet err name b d : kd_io d = [] → kd_files d !! name = Some b → read_file err name d = (d, Ok b).
Proof. intros Hq Hb. unfold read_file. by rewrite Hb, io_quiet. Qed.

(** An unlocked keystore on a working disk. *)
Definition ready (key : arr32) k : Prop := eks_key k = Some key ∧ eks_encrypted k = true ∧ kd_io (eks_inner k) = [].

(** The file was sealed under the key. *)
Definition opens (key : arr32) (b p : list byte) : Prop :=
  ∃ n c, b = n ++ c ∧ length n = NONCE_SIZE ∧ aead_encrypt key n p = Ok c.

Definition sealed (key : arr32) (name : string) (p : list byte) d : Prop :=
  ∃ b, kd_files d !! encrypted_path name = Some b ∧ opens key b p.

Lemma random_length n d : length (take n (kd_random d ++ replicate n x00)) = n.
Proof. rewrite length_take, length_app, length_replicate. lia. Qed.

Lemma iroh_short a : short (arr32_bytes a).
Proof. unfold short. by rewrite arr32_length. Qed.

Lemma encrypt_opens key p d : short p → ∃ b r, eks_encrypt (Some key) p d =
  ({| kd_files := kd_files d; kd_io := kd_io d; kd_random := r |}, Ok b) ∧
  ∃ n c, b = n ++ c ∧ length n = NONCE_SIZE ∧ aead_encrypt key n p = Ok c.
Proof.
  intros Hp. set (n := take NONCE_SIZE (kd_random d ++ replicate NONCE_SIZE x00)).
  destruct (aead_total key n p (random_length _ _) Hp) as [c Hc]. exists (n ++ c), (drop NONCE_SIZE (kd_random d)). split.
  - unfold eks_encrypt. rewrite !run_bind. simpl. rewrite run_bind. unfold random_bytes at 1. fold n. by rewrite Hc.
  - exists n, c. split; [done|]. split; [apply random_length|done].
Qed.

(** One file is written, the others stay. *)
Lemma save_sealed key name p k : ready key k → short p → ∃ k', save_encrypted_file (encrypted_path name) p k = (k', Ok tt) ∧
  ready key k' ∧ sealed key name p (eks_inner k') ∧
  ∀ n, n ≠ encrypted_path name → kd_files (eks_inner k') !! n = kd_files (eks_inner k) !! n.
Proof.
  intros (Hk & He & Hq) Hp. unfold save_encrypted_file. rewrite run_gets_bind, Hk. unfold on_dir. rewrite run_zoom.
  rewrite (run_bind_ok _ _ _ _ _ (create_dir_quiet _ Hq)).
  destruct (encrypt_opens key p (eks_inner k) Hp) as (b & r & Henc & n & c & -> & Hn & Hc). rewrite (run_bind_ok _ _ _ _ _ Henc).
  erewrite run_bind_ok by (apply write_quiet; exact Hq). rewrite permissions_quiet by done. simpl.
  eexists. split; [reflexivity|]. split; [done|]. split.
  - exists (n ++ c). split; [apply lookup_insert_eq|]. by exists n, c.
  - intros m Hm. simpl. by rewrite lookup_insert_ne.
Qed.

(** What is read back, or not, of a sealed file. *)
Lemma load_found key key' e m name p k : ready key' k → sealed key name p (eks_inner k) → ∃ n c,
  aead_encrypt key n p = Ok c ∧ load_encrypted_or_plain e m name k = (k,
    match aead_decrypt key' n c with Ok q => Ok q | Err e => Err (NodeKeystore ("Decryption failed (wrong passphrase?): " +:+ e)) end).
Proof.
  intros (Hk & He & Hq) (b & Hb & n & c & -> & Hn & Hc). exists n, c. split; [done|].
  unfold load_encrypted_or_plain. rewrite !run_gets_bind.
  unfold file_exists at 1. rewrite Hb, bool_decide_eq_true_2 by done. unfold load_encrypted_file, on_dir.
  rewrite run_bind, run_zoom, (read_quiet _ _ _ _ Hq Hb). simpl. rewrite run_gets_bind. unfold eks_decrypt. simpl.
  rewrite Hk. rewrite (proj2 (Nat.ltb_ge _ _)) by (rewrite length_app; lia). rewrite run_bind. simpl.
  rewrite take_app_length', drop_app_length' by done. assert (Hsame : eks_set_inner (eks_inner k) k = k) by (by destruct k).
  rewrite Hsame. by destruct (aead_decrypt key' n c).
Qed.

Lemma load_sealed key e m name p k : ready key k → sealed key name p (eks_inner k) → load_encrypted_or_plain e m name k = (k, Ok p).
Proof. intros Hr Hs. destruct (load_found key key e m name p k Hr Hs) as (n & c & Hc & ->). by rewrite (aead_opens _ _ _ _ Hc). Qed.

(** Only the files with these names change. *)
Definition changed_only (ns : list string) k k' : Prop :=
  ∀ n, n ∉ ns → kd_files (eks_inner k') !! n = kd_files (eks_inner k) !! n.

Ltac other_name := apply (bool_decide_unpack _); vm_compute; reflexivity.

Lemma changed_trans ns ns' a b c : changed_only ns a b → changed_only ns' b c → changed_only (ns ++ ns') a c.
Proof. intros Ha Hb n Hn. rewrite not_elem_of_app in Hn. destruct Hn. rewrite Hb by done. by apply Ha. Qed.

Lemma sealed_frame key name p ns k k' : changed_only ns k k' → encrypted_path name ∉ ns →
  sealed key name p (eks_inner k) → sealed key name p (eks_inner k').
Proof. intros Hc Hn (b & Hb & Ho). exists b. by rewrite Hc. Qed.

Record keys_sealed (key : arr32) (x : NodeKeys) d : Prop := {
  ks_iroh : sealed key IROH_KEY_FILENAME (arr32_bytes (nk_iroh x)) d;
  ks_signing : sealed key PQ_SIGNING_KEY_FILENAME (pq_identity_to_keypair_bytes (nk_identity x)).1 d;
  ks_verifying : sealed key PQ_VERIFYING_KEY_FILENAME (pq_identity_to_keypair_bytes (nk_identity x)).2 d;
  ks_dk : sealed key PQ_KEM_DK_FILENAME (kem_to_keypair_bytes (nk_kem x)).1 d;
  ks_ek : sealed key PQ_KEM_EK_FILENAME (kem_to_keypair_bytes (nk_kem x)).2 d;
}.

Lemma identity_bytes i : pq_identity_from_keypair_bytes (pq_identity_to_keypair_bytes i).1 (pq_identity_to_keypair_bytes i).2 = Ok i.
Proof.
  destruct i as [sk pk]. unfold pq_identity_from_keypair_bytes. simpl.
  rewrite secret_key_size, public_key_size, !Nat.eqb_refl. simpl. by rewrite secret_key_parses, public_key_parses.
Qed.

Lemma unlocked_ready key k : ready key k → ensure_unlocked k = (k, Ok tt).
Proof. intros (Hk & He & _). unfold ensure_unlocked. rewrite run_gets_bind. unfold eks_is_locked. by rewrite He, Hk. Qed.

Lemma when_unlocked_ready {A} (m : M EncryptedKeystore NodeError A) plain key k : ready key k → when_unlocked m plain k = m k.
Proof.
  intros Hr. unfold when_unlocked. rewrite (run_bind_ok _ _ _ _ _ (unlocked_ready _ _ Hr)), run_gets_bind.
  destruct Hr as (_ & -> & _). done.
Qed.

Lemma on_dir_same {A} (m : M KeyDir NodeError A) k r : m (eks_inner k) = (eks_inner k, r) → on_dir m k = (k, r).
Proof. intros Hm. unfold on_dir. rewrite run_zoom, Hm. unfold eks_set_inner. by destruct k. Qed.

Lemma load_iroh_ready key x k : ready key k → keys_sealed key x (eks_inner k) → eks_load_iroh k = (k, Ok (nk_iroh x)).
Proof.
  intros Hr Hs. unfold eks_load_iroh. rewrite (when_unlocked_ready _ _ _ _ Hr). unfold load_iroh_encrypted.
  rewrite (run_bind_ok _ _ _ _ _ (load_sealed _ _ _ _ _ _ Hr (ks_iroh _ _ _ Hs))).
  apply on_dir_same. unfold iroh_from_bytes. by rewrite to_arr32_bytes.
Qed.

Lemma load_identity_ready key x k : ready key k → keys_sealed key x (eks_inner k) → eks_load_pq_identity k = (k, Ok (nk_identity x)).
Proof.
  intros Hr Hs. unfold eks_load_pq_identity. rewrite (when_unlocked_ready _ _ _ _ Hr). unfold load_pq_identity_encrypted.
  rewrite (run_bind_ok _ _ _ _ _ (load_sealed _ _ _ _ _ _ Hr (ks_signing _ _ _ Hs))),
    (run_bind_ok _ _ _ _ _ (load_sealed _ _ _ _ _ _ Hr (ks_verifying _ _ _ Hs))).
  apply on_dir_same. unfold identity_from_bytes. by rewrite identity_bytes.
Qed.

Lemma load_kem_ready key x k : ready key k → keys_sealed key x (eks_inner k) → eks_load_pq_kem k = (k, Ok (nk_kem x)).
Proof.
  intros Hr Hs. unfold eks_load_pq_kem. rewrite (when_unlocked_ready _ _ _ _ Hr). unfold load_pq_kem_encrypted.
  rewrite (run_bind_ok _ _ _ _ _ (load_sealed _ _ _ _ _ _ Hr (ks_dk _ _ _ Hs))),
    (run_bind_ok _ _ _ _ _ (load_sealed _ _ _ _ _ _ Hr (ks_ek _ _ _ Hs))).
  apply on_dir_same. unfold kem_from_bytes. by rewrite kem_bytes.
Qed.

(** The three saves, in this order. *)
Definition sealed_names : list string :=
  encrypted_path <$> [IROH_KEY_FILENAME; PQ_SIGNING_KEY_FILENAME; PQ_VERIFYING_KEY_FILENAME; PQ_KEM_DK_FILENAME; PQ_KEM_EK_FILENAME].

Lemma save_one key name p k : ready key k → short p → ∃ k', save_encrypted_file (encrypted_path name) p k = (k', Ok tt) ∧
  ready key k' ∧ sealed key name p (eks_inner k') ∧ changed_only [encrypted_path name] k k'.
Proof.
  intros Hr Hsh. destruct (save_sealed key name p k Hr Hsh) as (k' & Hs & Hr' & Hp & Hc). exists k'. split_and!; try done.
  intros n Hn. apply Hc. intros ->. apply Hn. by constructor.
Qed.

Lemma save_two key name p name' p' k : ready key k → short p ∧ short p' → encrypted_path name ≠ encrypted_path name' →
  ∃ k', (save_encrypted_file (encrypted_path name) p ;; save_encrypted_file (encrypted_path name') p') k = (k', Ok tt) ∧
  ready key k' ∧ sealed key name p (eks_inner k') ∧ sealed key name' p' (eks_inner k') ∧
  changed_only [encrypted_path name; encrypted_path name'] k k'.
Proof.
  intros Hr [Hp Hp'] Hne. destruct (save_one key name p k Hr Hp) as (k1 & He1 & Hr1 & Hs1 & Hc1).
  destruct (save_one key name' p' k1 Hr1 Hp') as (k2 & He2 & Hr2 & Hs2 & Hc2). exists k2.
  split; [by rewrite (run_bind_ok _ _ _ _ _ He1)|]. split; [done|]. split.
  - eapply sealed_frame; [done| |done]. by intros E%list_elem_of_singleton; apply Hne.
  - split; [done|]. exact (changed_trans _ _ _ _ _ Hc1 Hc2).
Qed.

Lemma save_keys key x k : ready key k → ∃ k1 k2 k3,
  eks_save_iroh (nk_iroh x) k = (k1, Ok tt) ∧ eks_save_pq_identity (nk_identity x) k1 = (k2, Ok tt) ∧
  eks_save_pq_kem (nk_kem x) k2 = (k3, Ok tt) ∧ ready key k3 ∧ keys_sealed key x (eks_inner k3) ∧ changed_only sealed_names k k3 ∧
  ready key k1 ∧ ready key k2 ∧ (∀ n, n = PQ_KEM_DK_FILENAME ∨ n = PQ_KEM_EK_FILENAME ∨ n = encrypted_path PQ_KEM_DK_FILENAME →
    kd_files (eks_inner k2) !! n = kd_files (eks_inner k) !! n) ∧
  (∀ n, n ≠ encrypted_path IROH_KEY_FILENAME → kd_files (eks_inner k1) !! n = kd_files (eks_inner k) !! n).
Proof.
  intros Hr. unfold eks_save_iroh, eks_save_pq_identity, eks_save_pq_kem.
  destruct (save_one key IROH_KEY_FILENAME (arr32_bytes (nk_iroh x)) k Hr (iroh_short _)) as (k1 & He1 & Hr1 & Hs1 & Hc1).
  destruct (save_two key PQ_SIGNING_KEY_FILENAME (pq_identity_to_keypair_bytes (nk_identity x)).1 PQ_VERIFYING_KEY_FILENAME
              (pq_identity_to_keypair_bytes (nk_identity x)).2 k1 Hr1 (identity_short _)) as (k2 & He2 & Hr2 & Hs2 & Hv2 & Hc2); [done|].
  destruct (save_two key PQ_KEM_DK_FILENAME (kem_to_keypair_bytes (nk_kem x)).1 PQ_KEM_EK_FILENAME
              (kem_to_keypair_bytes (nk_kem x)).2 k2 Hr2 (kem_short _)) as (k3 & He3 & Hr3 & Hs3 & Hv3 & Hc3); [done|].
  exists k1, k2, k3. rewrite (when_unlocked_ready _ _ _ _ Hr), (when_unlocked_ready _ _ _ _ Hr1), (when_unlocked_ready _ _ _ _ Hr2).
  split_and!; try done.
  - split; try done.
    + eapply sealed_frame; [exact Hc3|other_name|]. eapply sealed_frame; [exact Hc2|other_name|done].
    + eapply sealed_frame; [exact Hc3|other_name|done].
    + eapply sealed_frame; [exact Hc3|other_name|done].
  - exact (changed_trans _ _ _ _ _ Hc1 (changed_trans _ _ _ _ _ Hc2 Hc3)).
  - intros n Hn. apply (changed_trans _ _ _ _ _ Hc1 Hc2). destruct Hn as [-> | [-> | ->]]; other_name.
  - intros n Hn. apply Hc1. by intros ?%list_elem_of_singleton.
Qed.
Lemma sealed_exists key n p d : sealed key n p d → file_exists (encrypted_path n) d = true.
Proof. intros (b & Hb & _). unfold file_exists. by rewrite Hb. Qed.

Lemma keys_exist key x k : keys_sealed key x (eks_inner k) → eks_exists k = true ∧ any_identity_exists k = true ∧ any_kem_exists k = true.
Proof.
  intros [Ei Es Ev Ed Ee]. unfold eks_exists, any_identity_exists, any_kem_exists, encrypted_iroh_key_exists, encrypted_pq_identity_exists, encrypted_pq_kem_exists.
  by rewrite (sealed_exists _ _ _ _ Ei), (sealed_exists _ _ _ _ Es), (sealed_exists _ _ _ _ Ev), (sealed_exists _ _ _ _ Ed), (sealed_exists _ _ _ _ Ee).
Qed.

(** *** Stories *)

Record story_ok (key token : arr32) (salt : list byte) (x : NodeKeys) s : Prop := {
  so_ready : ready key (sk_inner s);
  so_keys : keys_sealed key x (eks_inner (sk_inner s));
  so_token : kd_files (eks_inner (sk_inner s)) !! STORY_TOKEN_FILENAME = Some (arr32_bytes token);
  so_salt : kd_files (eks_inner (sk_inner s)) !! STORY_SALT_FILENAME = Some salt;
}.

Lemma on_keys_run {A} (m : M EncryptedKeystore NodeError A) s k r : m (sk_inner s) = (k, r) → on_keys m s = (sk_set_inner k s, r).
Proof. intros Hm. unfold on_keys. by rewrite run_zoom, Hm. Qed.

Lemma on_dir_run {A} (m : M KeyDir NodeError A) k d r : m (eks_inner k) = (d, r) → on_dir m k = (eks_set_inner d k, r).
Proof. intros Hm. unfold on_dir. by rewrite run_zoom, Hm. Qed.

Lemma save_salt_quiet salt d : kd_io d = [] →
  save_story_salt salt d = (kd_set_files (<[STORY_SALT_FILENAME := salt]> (kd_files d)) d, Ok tt).
Proof.
  intros Hq. unfold save_story_salt. rewrite (run_bind_ok _ _ _ _ _ (create_dir_quiet _ Hq)).
  rewrite (run_bind_ok _ _ _ _ _ (write_quiet _ _ _ _ Hq)). by apply permissions_quiet.
Qed.

Lemma save_token_quiet token d : kd_io d = [] →
  save_verification_token token d = (kd_set_files (<[STORY_TOKEN_FILENAME := arr32_bytes token]> (kd_files d)) d, Ok tt).
Proof.
  intros Hq. unfold save_verification_token. rewrite (run_bind_ok _ _ _ _ _ (create_dir_quiet _ Hq)).
  rewrite (run_bind_ok _ _ _ _ _ (write_quiet _ _ _ _ Hq)). by apply permissions_quiet.
Qed.

Lemma load_token_quiet token d : kd_io d = [] → kd_files d !! STORY_TOKEN_FILENAME = Some (arr32_bytes token) →
  load_verification_token d = (d, Ok token).
Proof.
  intros Hq Ht. unfold load_verification_token. rewrite (run_bind_ok _ _ _ _ _ (read_quiet _ _ _ _ Hq Ht)). by rewrite to_arr32_bytes.
Qed.

(** Saving the salt and the token keeps the keys. *)
Definition with_files (f : gmap string (list byte)) k : EncryptedKeystore := eks_set_inner (kd_set_files f (eks_inner k)) k.

Lemma insert_changed name b k : changed_only [name] k (with_files (<[name := b]> (kd_files (eks_inner k))) k).
Proof. intros n Hn. simpl. rewrite lookup_insert_ne; [done|]. intros ->. apply Hn. by constructor. Qed.

Lemma keys_frame key x ns k k' : changed_only ns k k' → Forall (λ n, n ∉ ns) sealed_names →
  keys_sealed key x (eks_inner k) → keys_sealed key x (eks_inner k').
Proof.
  intros Hc Hn [? ? ? ? ?]. unfold sealed_names in Hn. simpl in Hn. rewrite !Forall_cons in Hn.
  destruct Hn as (? & ? & ? & ? & ? & _). split; by eapply sealed_frame.
Qed.

(** Salt and token of [initialize] and of [rotate_story], in either order. *)
Lemma restory key token salt x k tok : ready key k → keys_sealed key x (eks_inner k) →
  let f := kd_files (eks_inner k) in
  story_ok key token salt x {| sk_inner := with_files (<[STORY_TOKEN_FILENAME := arr32_bytes token]> (<[STORY_SALT_FILENAME := salt]> f)) k;
                               sk_verification_token := tok |}.
Proof.
  intros (Hk & He & Hq) Hs f. split; [done| |apply lookup_insert_eq|].
  - eapply (keys_frame _ _ ([STORY_SALT_FILENAME] ++ [STORY_TOKEN_FILENAME])); [|other_name|exact Hs].
    eapply changed_trans; [apply insert_changed|]. apply (insert_changed _ _ (with_files _ k)).
  - simpl. rewrite lookup_insert_ne by done. apply lookup_insert_eq.
Qed.

Lemma rotate_ok key token salt x s key' token' salt' : story_ok key token salt x s →
  ∃ s', rotate_story key' token' salt' s = (s', Ok tt) ∧ story_ok key' token' salt' x s'.
Proof.
  intros [Hr Hs Ht Hsalt]. unfold rotate_story. rewrite run_gets_bind.
  assert (Hl : eks_is_locked (sk_inner s) = false) by (destruct Hr as (Hk & He & _); unfold eks_is_locked; by rewrite He, Hk).
  rewrite Hl. rewrite (run_bind_ok _ _ _ _ _ (on_keys_run _ _ _ _ (load_iroh_ready _ _ _ Hr Hs))).
  erewrite run_bind_ok by (apply on_keys_run; by apply (load_identity_ready key x)).
  erewrite run_bind_ok by (apply on_keys_run; by apply (load_kem_ready key x)).
  erewrite run_bind_ok by (by apply on_keys_run).
  assert (Hr' : ready key' (eks_set_key (Some key') (sk_inner s))) by (by destruct Hr as (_ & ? & ?)).
  destruct (save_keys key' x _ Hr') as (k1 & k2 & k3 & He1 & He2 & He3 & Hr3 & Hs3 & Hc3 & _).
  erewrite run_bind_ok by (apply on_keys_run; exact He1). erewrite run_bind_ok by (apply on_keys_run; exact He2).
  erewrite run_bind_ok by (apply on_keys_run; exact He3).
  erewrite run_bind_ok by (apply on_keys_run, on_dir_run, save_salt_quiet; by destruct Hr3 as (_ & _ & ?)).
  erewrite run_bind_ok by (apply on_keys_run, on_dir_run, save_token_quiet; by destruct Hr3 as (_ & _ & ?)).
  eexists. split; [reflexivity|]. apply (restory key' token' salt' x k3 (Some token') Hr3 Hs3).
Qed.

(** A new process opens the directory. *)
Definition restarted s : StoryKeystore := story_keystore_new (eks_inner (sk_inner s)).

Lemma authenticate_ok key token salt x s : story_ok key token salt x s →
  ∃ s', story_authenticate key token (restarted s) = (s', Ok tt) ∧ story_ok key token salt x s'.
Proof.
  intros [(Hk & He & Hq) Hs Ht Hsalt]. unfold story_authenticate.
  erewrite run_bind_ok by (apply on_keys_run, on_dir_run, load_token_quiet; [exact Hq|exact Ht]).
  rewrite bool_decide_eq_true_2 by done. cbn [negb]. erewrite run_bind_ok by (by apply on_keys_run).
  eexists. split; [reflexivity|]. by split.
Qed.

Lemma authenticate_refused key token salt x s key' token' : story_ok key token salt x s → token' ≠ token →
  story_authenticate key' token' (restarted s) =
  (restarted s, Err (NodeStoryAuth "Story verification failed — this doesn't match the stored story")).
Proof.
  intros [(Hk & He & Hq) Hs Ht Hsalt] Hne. unfold story_authenticate.
  erewrite run_bind_ok by (apply on_keys_run, on_dir_run, load_token_quiet; [exact Hq|exact Ht]).
  by rewrite bool_decide_eq_false_2.
Qed.
(** No key has been saved in this directory. *)
Definition no_keys d : Prop := ∀ n, n ∈ [IROH_KEY_FILENAME; PQ_SIGNING_KEY_FILENAME; PQ_VERIFYING_KEY_FILENAME; PQ_KEM_DK_FILENAME;
  PQ_KEM_EK_FILENAME] ++ sealed_names → kd_files d !! n = None.

Lemma absent n d : kd_files d !! n = None → file_exists n d = false.
Proof. intros Hn. unfold file_exists. rewrite Hn. done. Qed.

Lemma generate_iroh a key k k' : ready key k → kd_files (eks_inner k) !! IROH_KEY_FILENAME = None →
  kd_files (eks_inner k) !! encrypted_path IROH_KEY_FILENAME = None →
  eks_save_iroh a k = (k', Ok tt) → eks_load_or_generate_iroh a k = (k', Ok a).
Proof.
  intros Hr Hn Hn' Hs. unfold eks_load_or_generate_iroh. rewrite (run_bind_ok _ _ _ _ _ (unlocked_ready _ _ Hr)), run_gets_bind.
  unfold eks_exists, encrypted_iroh_key_exists, keystore_exists. rewrite !absent by done. simpl. by rewrite (run_bind_ok _ _ _ _ _ Hs).
Qed.

Lemma generate_identity a key k k' : ready key k → kd_files (eks_inner k) !! PQ_SIGNING_KEY_FILENAME = None →
  kd_files (eks_inner k) !! encrypted_path PQ_SIGNING_KEY_FILENAME = None →
  eks_save_pq_identity a k = (k', Ok tt) → eks_load_or_generate_pq_identity a k = (k', Ok a).
Proof.
  intros Hr Hn Hn' Hs. unfold eks_load_or_generate_pq_identity. rewrite (run_bind_ok _ _ _ _ _ (unlocked_ready _ _ Hr)), run_gets_bind.
  unfold any_identity_exists, encrypted_pq_identity_exists, pq_identity_exists. rewrite !(absent _ _ Hn), !(absent _ _ Hn').
  simpl. by rewrite (run_bind_ok _ _ _ _ _ Hs).
Qed.

Lemma generate_kem a key k k' : ready key k → kd_files (eks_inner k) !! PQ_KEM_DK_FILENAME = None →
  kd_files (eks_inner k) !! encrypted_path PQ_KEM_DK_FILENAME = None →
  eks_save_pq_kem a k = (k', Ok tt) → eks_load_or_generate_pq_kem a k = (k', Ok a).
Proof.
  intros Hr Hn Hn' Hs. unfold eks_load_or_generate_pq_kem. rewrite (run_bind_ok _ _ _ _ _ (unlocked_ready _ _ Hr)), run_gets_bind.
  unfold any_kem_exists, encrypted_pq_kem_exists, pq_kem_exists. rewrite !(absent _ _ Hn), !(absent _ _ Hn').
  simpl. by rewrite (run_bind_ok _ _ _ _ _ Hs).
Qed.

Lemma initialize_ok x key token salt d : kd_io d = [] → no_keys d →
  ∃ s, story_initialize x key token salt (story_keystore_new d) = (s, Ok tt) ∧ story_ok key token salt x s.
Proof.
  intros Hq Hno. unfold story_initialize.
  erewrite run_bind_ok by (apply on_keys_run, on_dir_run, save_salt_quiet; exact Hq).
  erewrite run_bind_ok by (apply on_keys_run, on_dir_run, save_token_quiet; exact Hq).
  erewrite run_bind_ok by reflexivity. erewrite run_bind_ok by (by apply on_keys_run).
  set (f := <[STORY_TOKEN_FILENAME := arr32_bytes token]> (<[STORY_SALT_FILENAME := salt]> (kd_files d))).
  set (k := {| eks_inner := kd_set_files f d; eks_key := Some key; eks_encrypted := true |}).
  assert (Hr : ready key k) by done. assert (Hfree : no_keys (eks_inner k)).
  { intros n Hn. simpl. unfold f. rewrite !lookup_insert_ne; [by apply Hno| |]; intros <-; revert Hn; other_name. }
  destruct (save_keys key x k Hr) as (k1 & k2 & k3 & He1 & He2 & He3 & Hr3 & Hs3 & Hc3 & Hr1 & Hr2 & Hk2 & Hk1).
  erewrite run_bind_ok by (apply on_keys_run, (generate_iroh _ key); [exact Hr|apply Hfree; other_name|apply Hfree; other_name|exact He1]).
  erewrite run_bind_ok by (apply on_keys_run, (generate_identity _ key);
    [exact Hr1|simpl; rewrite Hk1 by done; apply Hfree; other_name|simpl; rewrite Hk1 by done; apply Hfree; other_name|exact He2]).
  erewrite run_bind_ok by (apply on_keys_run, (generate_kem _ key);
    [exact Hr2|simpl; rewrite Hk2 by auto; apply Hfree; other_name|simpl; rewrite Hk2 by auto; apply Hfree; other_name|exact He3]).
  eexists. split; [reflexivity|]. split; [done|done| |]; simpl; rewrite Hc3 by other_name; simpl; unfold f.
  - apply lookup_insert_eq.
  - rewrite lookup_insert_ne by done. apply lookup_insert_eq.
Qed.

(** An opened keystore gives its keys. *)
Lemma story_loads key token salt x s : story_ok key token salt x s →
  (∀ a, story_load_or_generate_iroh a s = (s, Ok (nk_iroh x))) ∧
  (∀ i, story_load_or_generate_pq_identity i s = (s, Ok (nk_identity x))) ∧
  (∀ q, story_load_or_generate_pq_kem q s = (s, Ok (nk_kem x))).
Proof.
  intros [Hr Hk _ _]. pose proof (unlocked_ready _ _ Hr) as Hu. destruct (keys_exist _ _ _ Hk) as (Ei & En & Em).
  assert (Hsame : ∀ A (m : M EncryptedKeystore NodeError A) r, m (sk_inner s) = (sk_inner s, r) → on_keys m s = (s, r)).
  { intros A m r Hm. rewrite (on_keys_run _ _ _ _ Hm). by destruct s. }
  split_and!; intros; apply Hsame.
  - unfold eks_load_or_generate_iroh. rewrite (run_bind_ok _ _ _ _ _ Hu), run_gets_bind, Ei. by apply (load_iroh_ready key).
  - unfold eks_load_or_generate_pq_identity. rewrite (run_bind_ok _ _ _ _ _ Hu), run_gets_bind, En. by apply (load_identity_ready key).
  - unfold eks_load_or_generate_pq_kem. rewrite (run_bind_ok _ _ _ _ _ Hu), run_gets_bind, Em. by apply (load_kem_ready key).
Qed.

(** Stories one after the other: key, token and salt of each. *)
Abbreviation Story := (arr32 * arr32 * list byte)%type.

Fixpoint rotations (l : list Story) : M StoryKeystore NodeError unit :=
  match l with [] => mret tt | (key, token, salt) :: l => rotate_story key token salt ;; rotations l end.

Definition last_story (first : Story) (l : list Story) : Story := default first (last l).

Lemma rotations_ok l key token salt x s : story_ok key token salt x s → ∃ s', rotations l s = (s', Ok tt) ∧
  let '(key', token', salt') := last_story (key, token, salt) l in story_ok key' token' salt' x s'.
Proof.
  revert key token salt s. induction l as [|[[key' token'] salt'] l IH]; intros key token salt s Hs; [by exists s|].
  destruct (rotate_ok _ _ _ _ _ key' token' salt' Hs) as (s1 & He1 & Hs1). destruct (IH _ _ _ _ Hs1) as (s2 & He2 & Hs2).
  exists s2. split; [simpl; by rewrite (run_bind_ok _ _ _ _ _ He1)|]. unfold last_story in *.
  destruct l as [|y l]; [done|]. rewrite last_cons_cons. destruct (last (y :: l)) eqn:E; [done|]. by apply last_None in E.
Qed.

(** The keys generated when a story keystore is initialised are the ones the
    last of any stories opens after a restart; its salt is on file, and no other
    token opens the keystore or changes anything. *)
Theorem story_keystore_spec x d first l : kd_io d = [] → no_keys d →
  let '(key0, token0, salt0) := first in
  let '(key, token, salt) := last_story first l in
  ∃ s0 s1 s2, story_initialize x key0 token0 salt0 (story_keystore_new d) = (s0, Ok tt) ∧ rotations l s0 = (s1, Ok tt) ∧
    load_story_salt (eks_inner (sk_inner (restarted s1))) = (eks_inner (sk_inner s1), Ok salt) ∧
    story_authenticate key token (restarted s1) = (s2, Ok tt) ∧
    (∀ a, story_load_or_generate_iroh a s2 = (s2, Ok (nk_iroh x))) ∧
    (∀ i, story_load_or_generate_pq_identity i s2 = (s2, Ok (nk_identity x))) ∧
    (∀ q, story_load_or_generate_pq_kem q s2 = (s2, Ok (nk_kem x))) ∧
    ∀ key' token', token' ≠ token → ∃ e, story_authenticate key' token' (restarted s1) = (restarted s1, Err (NodeStoryAuth e)).
Proof.
  intros Hq Hno. destruct first as [[key0 token0] salt0].
  destruct (initialize_ok x key0 token0 salt0 d Hq Hno) as (s0 & He0 & Hs0).
  destruct (rotations_ok l _ _ _ _ _ Hs0) as (s1 & He1 & Hs1).
  destruct (last_story (key0, token0, salt0) l) as [[key token] salt].
  destruct (authenticate_ok _ _ _ _ _ Hs1) as (s2 & He2 & Hs2). exists s0, s1, s2.
  destruct (story_loads _ _ _ _ _ Hs2) as (Li & Ln & Lk). split_and!; try done.
  - apply read_quiet; [by destruct (so_ready _ _ _ _ _ Hs1) as (_ & _ & ?)|apply Hs1].
  - intros key' token' Hne. eexists. by apply (authenticate_refused _ _ _ _ _ _ _ Hs1).
Qed.
(** *** Changing the passphrase *)

Context (argon2_total : ∀ p salt, short p → short salt → (8 <= length salt)%nat → ∃ b, argon2id 19456 2 1 32 p salt = Ok b).

Definition key_of_passphrase (pass : string) (salt : list byte) : arr32 :=
  match argon2id 19456 2 1 32 (as_bytes pass) salt with Ok b => default zeros32 (to_arr32 b) | Err _ => zeros32 end.

Lemma derive_ok {S} pass salt (t : S) : short (as_bytes pass) → length salt = 16%nat →
  derive_key pass salt t = (t, Ok (key_of_passphrase pass salt)).
Proof.
  intros Hp Hl. unfold derive_key, key_of_passphrase. destruct (argon2_total (as_bytes pass) salt Hp) as [b ->]; [|lia|done].
  unfold short. lia.
Qed.

Lemma new_salt_quiet d : kd_io d = [] → ∃ salt r, create_new_salt d =
  ({| kd_files := <[SALT_FILENAME := salt]> (kd_files d); kd_io := []; kd_random := r |}, Ok salt) ∧ length salt = 16%nat.
Proof.
  intros Hq. unfold create_new_salt. rewrite (run_bind_ok _ _ _ _ _ (create_dir_quiet _ Hq)). rewrite run_bind.
  unfold random_bytes at 1. erewrite run_bind_ok by (by apply write_quiet). erewrite run_bind_ok by (by apply permissions_quiet).
  rewrite run_ret. unfold kd_set_files. simpl. rewrite Hq. eexists _, _. split; [reflexivity|]. apply (random_length 16).
Qed.

Lemma load_if_some {A} there (load : M EncryptedKeystore NodeError A) k a : there k = true → load k = (k, Ok a) → load_if there load k = (k, Ok (Some a)).
Proof. intros Ht Hl. unfold load_if. rewrite run_gets_bind, Ht. by rewrite (run_bind_ok _ _ _ _ _ Hl). Qed.

(** After a change of the passphrase the same keys open with the new one, also
    in a new process. *)
Theorem change_passphrase_spec pass key x k : pass ≠ "" → short (as_bytes pass) → ready key k → keys_sealed key x (eks_inner k) →
  ∃ k' k'', change_passphrase pass k = (k', Ok tt) ∧ unlock pass (encrypted_new (eks_inner k')) = (k'', Ok tt) ∧
    eks_load_iroh k'' = (k'', Ok (nk_iroh x)) ∧ eks_load_pq_identity k'' = (k'', Ok (nk_identity x)) ∧ eks_load_pq_kem k'' = (k'', Ok (nk_kem x)).
Proof.
  intros Hp Hshort Hr Hs. destruct (keys_exist _ _ _ Hs) as (Ei & En & Em).
  destruct (new_salt_quiet (eks_inner k)) as (salt & r & Hsalt & Hlen); [by destruct Hr as (_ & _ & ?)|].
  set (d := {| kd_files := <[SALT_FILENAME := salt]> (kd_files (eks_inner k)); kd_io := []; kd_random := r |}).
  set (key' := key_of_passphrase pass salt). set (k0 := {| eks_inner := d; eks_key := Some key'; eks_encrypted := true |}).
  destruct (save_keys key' x k0) as (k1 & k2 & k3 & He1 & He2 & He3 & Hr3 & Hs3 & Hc3 & _); [done|].
  assert (Hrun : change_passphrase pass k = (k3, Ok tt)).
  { unfold change_passphrase. rewrite run_gets_bind. destruct Hr as (Hk & He & Hq) eqn:E. clear E.
    assert (Hl : eks_is_locked k = false) by (unfold eks_is_locked; by rewrite He, Hk). rewrite Hl, bool_decide_eq_false_2 by done.
    rewrite (run_bind_ok _ _ _ _ _ (load_if_some _ _ _ _ Ei (load_iroh_ready key x k Hr Hs))),
      (run_bind_ok _ _ _ _ _ (load_if_some _ _ _ _ En (load_identity_ready key x k Hr Hs))),
      (run_bind_ok _ _ _ _ _ (load_if_some _ _ _ _ Em (load_kem_ready key x k Hr Hs))).
    erewrite run_bind_ok by (apply on_dir_run; exact Hsalt). rewrite (run_bind_ok _ _ _ _ _ (derive_ok _ _ _ Hshort Hlen)).
    fold key' d. erewrite run_bind_ok by reflexivity. unfold eks_set_key, eks_set_inner. simpl. rewrite He. fold k0.
    rewrite (run_bind_ok _ _ _ _ _ He1), (run_bind_ok _ _ _ _ _ He2). done. }
  set (k4 := {| eks_inner := eks_inner k3; eks_key := Some key'; eks_encrypted := true |}).
  assert (Hr4 : ready key' k4) by (by destruct Hr3 as (_ & _ & ?)).
  exists k3, k4. split; [done|]. split.
  - unfold unlock. rewrite run_gets_bind. simpl. rewrite bool_decide_eq_false_2 by done.
    assert (Hf : kd_files (eks_inner k3) !! SALT_FILENAME = Some salt) by (rewrite Hc3 by other_name; apply lookup_insert_eq).
    erewrite run_bind_ok.
    2: { apply on_dir_run. unfold load_or_create_salt. rewrite run_gets_bind. unfold file_exists. simpl. rewrite Hf, bool_decide_eq_true_2 by done.
         apply read_quiet; [apply Hr4|exact Hf]. }
    by rewrite (run_bind_ok _ _ _ _ _ (derive_ok _ _ _ Hshort Hlen)).
  - split_and!; [by apply (load_iroh_ready key')|by apply (load_identity_ready key')|by apply (load_kem_ready key')].
Qed.

(** A migration that fails on a damaged key file leaves the keystore in plain
    mode: keys saved afterwards are not encrypted. *)
Theorem failed_migration_plain pass d b : kd_io d = [] → kd_files d !! IROH_KEY_FILENAME = Some b → length b ≠ 32%nat →
  ∃ k e, migrate_to_encrypted pass (encrypted_new d) = (k, Err e) ∧
    ∀ a, ∃ k', eks_save_iroh a k = (k', Ok tt) ∧ kd_files (eks_inner k') !! IROH_KEY_FILENAME = Some (arr32_bytes a).
Proof.
  intros Hq Hb Hl. assert (Hn : to_arr32 b = None) by (unfold to_arr32; by destruct (decide _)).
  eexists (new_unencrypted d), _. split.
  - unfold migrate_to_encrypted. rewrite run_gets_bind. simpl. rewrite run_bind. simpl. rewrite run_bind. unfold load_if at 1.
    rewrite run_gets_bind. unfold keystore_exists, file_exists. simpl. rewrite Hb, bool_decide_eq_true_2, run_bind by done.
    unfold eks_load_iroh, when_unlocked. rewrite run_bind. simpl. rewrite run_gets_bind. simpl.
    rewrite (on_dir_same _ _ (Err (NodeKeystore ("Invalid iroh key file: " +:+ "expected 32 bytes, got " +:+ i64_to_string (Z.of_nat (length b)))))); [done|].
    unfold load_iroh. simpl. rewrite (run_bind_ok _ _ _ _ _ (read_quiet _ _ _ _ Hq Hb)). unfold iroh_from_bytes. by rewrite Hn.
  - intros a. eexists. split.
    + unfold eks_save_iroh, when_unlocked. rewrite run_bind. simpl. rewrite run_gets_bind. simpl. apply on_dir_run. unfold save_iroh. simpl.
      rewrite (run_bind_ok _ _ _ _ _ (create_dir_quiet _ Hq)), (run_bind_ok _ _ _ _ _ (write_quiet _ _ _ _ Hq)). by apply permissions_quiet.
    + simpl. apply lookup_insert_eq.
Qed.
(** Where one of the two files of an identity is missing, the other is
    overwritten with a new identity. *)
Theorem half_identity_replaced fresh d sk : kd_io d = [] → kd_files d !! PQ_SIGNING_KEY_FILENAME = Some sk →
  kd_files d !! PQ_VERIFYING_KEY_FILENAME = None →
  ∃ d', load_or_generate_pq_identity fresh d = (d', Ok fresh) ∧
    kd_files d' !! PQ_SIGNING_KEY_FILENAME = Some (pq_identity_to_keypair_bytes fresh).1.
Proof.
  intros Hq Hs Hn. unfold load_or_generate_pq_identity. rewrite run_gets_bind. unfold pq_identity_exists.
  rewrite (absent _ _ Hn), andb_false_r. eexists. split.
  - erewrite run_bind_ok; [reflexivity|]. unfold save_pq_identity. rewrite (run_bind_ok _ _ _ _ _ (create_dir_quiet _ Hq)).
    erewrite run_bind_ok by (apply write_quiet; exact Hq). erewrite run_bind_ok by (apply permissions_quiet; exact Hq).
    apply write_quiet. exact Hq.
  - simpl. rewrite lookup_insert_ne by done. apply lookup_insert_eq.
Qed.

(** *** Losing the keys

    A file opens under the key it was sealed with only. *)

Context (aead_wrong_key : ∀ key key' n p c, aead_encrypt key n p = Ok c → key' ≠ key → ∃ e, aead_decrypt key' n c = Err e).

Lemma load_iroh_wrong key key' p k : ready key' k → sealed key IROH_KEY_FILENAME p (eks_inner k) → key' ≠ key →
  ∃ e, eks_load_iroh k = (k, Err (NodeKeystore e)).
Proof.
  intros Hr Hs Hne. unfold eks_load_iroh. rewrite (when_unlocked_ready _ _ _ _ Hr). unfold load_iroh_encrypted.
  destruct (load_found key key' "Failed to read key file: " "No iroh key file found" _ _ _ Hr Hs) as (n & c & Hc & Hl).
  destruct (aead_wrong_key _ key' _ _ _ Hc Hne) as [e He]. rewrite He in Hl. rewrite run_bind, Hl. by eexists.
Qed.

(** Initialising a directory that has a story already replaces its salt and its
    token and fails on its keys: the old story is refused from then on, and the
    new one does not open the keys. *)
Theorem initialize_twice_locks_out key token salt x s key' token' salt' y : story_ok key token salt x s → key' ≠ key → token' ≠ token →
  ∃ s' e s'' e', story_initialize y key' token' salt' (restarted s) = (s', Err (NodeKeystore e)) ∧
    (∃ e'', story_authenticate key token (restarted s') = (restarted s', Err (NodeStoryAuth e''))) ∧
    story_authenticate key' token' (restarted s') = (s'', Ok tt) ∧ eks_load_iroh (sk_inner s'') = (sk_inner s'', Err (NodeKeystore e')).
Proof.
  intros [(Hk & He & Hq) Hs Ht Hsalt] Hkey Htok.
  set (f := <[STORY_TOKEN_FILENAME := arr32_bytes token']> (<[STORY_SALT_FILENAME := salt']> (kd_files (eks_inner (sk_inner s))))).
  set (k := {| eks_inner := kd_set_files f (eks_inner (sk_inner s)); eks_key := Some key'; eks_encrypted := true |}).
  assert (Hr : ready key' k) by done.
  assert (Hi : sealed key IROH_KEY_FILENAME (arr32_bytes (nk_iroh x)) (eks_inner k)).
  { destruct (ks_iroh _ _ _ Hs) as (b & Hb & Ho). exists b. split; [|done]. simpl. unfold f. by rewrite !lookup_insert_ne. }
  destruct (load_iroh_wrong _ _ _ _ Hr Hi Hkey) as [e Hload].
  assert (Hq' : kd_io (eks_inner k) = []) by done.
  assert (Ht' : kd_files (eks_inner k) !! STORY_TOKEN_FILENAME = Some (arr32_bytes token')) by apply lookup_insert_eq.
  exists {| sk_inner := k; sk_verification_token := Some token' |}, e, {| sk_inner := k; sk_verification_token := Some token' |}, e. split_and!.
  - unfold story_initialize. erewrite run_bind_ok by (apply on_keys_run, on_dir_run, save_salt_quiet; exact Hq).
    erewrite run_bind_ok by (apply on_keys_run, on_dir_run, save_token_quiet; exact Hq).
    erewrite run_bind_ok by reflexivity. erewrite run_bind_ok by (by apply on_keys_run).
    erewrite run_bind_err; [reflexivity|]. apply on_keys_run. unfold eks_load_or_generate_iroh.
    rewrite (run_bind_ok _ _ _ _ _ (unlocked_ready _ _ Hr)), run_gets_bind. unfold eks_exists, encrypted_iroh_key_exists.
    rewrite (sealed_exists _ _ _ _ Hi). exact Hload.
  - eexists. unfold story_authenticate. erewrite run_bind_ok by (apply on_keys_run, on_dir_run, load_token_quiet; [exact Hq'|exact Ht']).
    by rewrite bool_decide_eq_false_2.
  - unfold story_authenticate. erewrite run_bind_ok by (apply on_keys_run, on_dir_run, load_token_quiet; [exact Hq'|exact Ht']).
    rewrite bool_decide_eq_true_2 by done. done.
  - exact Hload.
Qed.
(** *** A disk that fails in the middle of a rotation *)

Definition with_io (l : list (option FsFault)) k : EncryptedKeystore :=
  eks_set_inner {| kd_files := kd_files (eks_inner k); kd_io := l; kd_random := kd_random (eks_inner k) |} k.

Definition unlocked_with (key : arr32) k : Prop := eks_key k = Some key ∧ eks_encrypted k = true.

Lemma when_unlocked_with {A} (m : M EncryptedKeystore NodeError A) plain key k : unlocked_with key k → when_unlocked m plain k = m k.
Proof.
  intros (Hk & He). unfold when_unlocked, ensure_unlocked. rewrite run_bind, run_gets_bind. unfold eks_is_locked. rewrite He, Hk. simpl.
  rewrite run_gets_bind. by rewrite He.
Qed.

Lemma load_sealed_io key e m name p l k : unlocked_with key k → kd_io (eks_inner k) = None :: l → sealed key name p (eks_inner k) →
  load_encrypted_or_plain e m name k = (with_io l k, Ok p).
Proof.
  intros (Hk & He) Hq (b & Hb & n & c & -> & Hn & Hc). unfold load_encrypted_or_plain. rewrite !run_gets_bind.
  unfold file_exists at 1. rewrite Hb, bool_decide_eq_true_2 by done. unfold load_encrypted_file.
  erewrite run_bind_ok by (apply on_dir_run; unfold read_file; rewrite Hb; unfold io_answer; rewrite Hq; reflexivity). rewrite run_gets_bind. unfold eks_decrypt. simpl.
  rewrite Hk. rewrite (proj2 (Nat.ltb_ge _ _)) by (rewrite length_app; lia). rewrite run_bind. simpl.
  rewrite take_app_length', drop_app_length' by done. by rewrite (aead_opens _ _ _ _ Hc).
Qed.

Lemma save_sealed_io key name p l k : unlocked_with key k → short p → kd_io (eks_inner k) = None :: None :: None :: l →
  ∃ k', save_encrypted_file (encrypted_path name) p k = (k', Ok tt) ∧ unlocked_with key k' ∧ kd_io (eks_inner k') = l ∧
  sealed key name p (eks_inner k') ∧ changed_only [encrypted_path name] k k'.
Proof.
  intros (Hk & He) Hp Hq. unfold save_encrypted_file. rewrite run_gets_bind, Hk.
  set (d := {| kd_files := kd_files (eks_inner k); kd_io := None :: None :: l; kd_random := kd_random (eks_inner k) |}).
  destruct (encrypt_opens key p d Hp) as (b & r & Henc & Hb). eexists. split.
  { apply on_dir_run. erewrite run_bind_ok by (unfold create_dir, io_answer; rewrite Hq; reflexivity). fold d.
    rewrite (run_bind_ok _ _ _ _ _ Henc). erewrite run_bind_ok by reflexivity. reflexivity. }
  split; [done|]. split; [done|]. split.
  - exists b. split; [apply lookup_insert_eq|done].
  - intros m Hm. simpl. rewrite lookup_insert_ne; [done|]. intros <-. apply Hm. by constructor.
Qed.

(** A rotation whose disk fails between the first and the second key leaves the
    first under the new key and the token of the old story: the old story is
    accepted but no longer opens the keys. *)
Theorem rotate_failure_locks_out key token x s key' token' salt' o e :
  unlocked_with key (sk_inner s) → keys_sealed key x (eks_inner (sk_inner s)) →
  kd_files (eks_inner (sk_inner s)) !! STORY_TOKEN_FILENAME = Some (arr32_bytes token) →
  kd_io (eks_inner (sk_inner s)) = replicate 8 None ++ [Some (o, e)] → key' ≠ key →
  ∃ s' e1 s'' e2, rotate_story key' token' salt' s = (s', Err (NodeKeystore e1)) ∧
    story_authenticate key token (restarted s') = (s'', Ok tt) ∧ eks_load_iroh (sk_inner s'') = (sk_inner s'', Err (NodeKeystore e2)).
Proof.
  intros Hu Hs Ht Hio Hne. simpl in Hio.
  assert (Hu' : ∀ l, unlocked_with key (with_io l (sk_inner s))) by done.
  assert (Hs' : ∀ l, keys_sealed key x (eks_inner (with_io l (sk_inner s)))) by (intros l; by destruct Hs).
  set (k0 := eks_set_key (Some key') (with_io [None; None; None; Some (o, e)] (sk_inner s))).
  destruct (save_sealed_io key' IROH_KEY_FILENAME (arr32_bytes (nk_iroh x)) [Some (o, e)] k0) as (k1 & Hsave & Hu1 & Hio1 & Hsl & Hc); [by destruct Hu|apply iroh_short|done|].
  set (s1 := {| sk_inner := with_io [] k1; sk_verification_token := sk_verification_token s |}).
  assert (Hrun : rotate_story key' token' salt' s = (s1, Err (NodeKeystore ("Failed to create keystore dir: " +:+ e)))).
  { unfold rotate_story. rewrite run_gets_bind. assert (Hl : eks_is_locked (sk_inner s) = false) by (destruct Hu as (Hk & He); unfold eks_is_locked; by rewrite He, Hk).
    rewrite Hl. erewrite run_bind_ok.
    2: { apply on_keys_run. unfold eks_load_iroh. rewrite (when_unlocked_with _ _ _ _ Hu). unfold load_iroh_encrypted.
         erewrite run_bind_ok by (by eapply load_sealed_io; [..|apply Hs]). apply on_dir_same. unfold iroh_from_bytes. by rewrite to_arr32_bytes. }
    erewrite run_bind_ok.
    2: { apply on_keys_run. unfold eks_load_pq_identity. rewrite (when_unlocked_with _ _ key) by apply Hu'. unfold load_pq_identity_encrypted.
         erewrite run_bind_ok by (by eapply load_sealed_io; [..|apply Hs']). erewrite run_bind_ok by (by eapply load_sealed_io; [..|apply Hs']).
         apply on_dir_same. unfold identity_from_bytes. by rewrite identity_bytes. }
    erewrite run_bind_ok.
    2: { apply on_keys_run. unfold eks_load_pq_kem. rewrite (when_unlocked_with _ _ key) by apply Hu'. unfold load_pq_kem_encrypted.
         erewrite run_bind_ok by (by eapply load_sealed_io; [..|apply Hs']). erewrite run_bind_ok by (by eapply load_sealed_io; [..|apply Hs']).
         apply on_dir_same. unfold kem_from_bytes. by rewrite kem_bytes. }
    erewrite run_bind_ok by (by apply on_keys_run). erewrite run_bind_ok.
    2: { apply on_keys_run. unfold eks_save_iroh. rewrite (when_unlocked_with _ _ key') by (by destruct Hu). exact Hsave. }
    apply run_bind_err. rewrite (on_keys_run _ _ (with_io [] k1) (Err (NodeKeystore ("Failed to create keystore dir: " +:+ e)))); [done|].
    unfold eks_save_pq_identity. rewrite (when_unlocked_with _ _ key') by done. apply run_bind_err.
    unfold save_encrypted_file. rewrite run_gets_bind. apply on_dir_run, run_bind_err. unfold create_dir, io_answer. simpl. by rewrite Hio1. }
  set (k2 := {| eks_inner := eks_inner (with_io [] k1); eks_key := Some key; eks_encrypted := true |}).
  destruct (load_iroh_wrong key' key (arr32_bytes (nk_iroh x)) k2) as [e2 Hload]; [done|done|congruence|].
  exists s1, ("Failed to create keystore dir: " +:+ e), {| sk_inner := k2; sk_verification_token := Some token |}, e2. split; [done|]. split; [|done].
  unfold story_authenticate. erewrite run_bind_ok.
  2: { apply on_keys_run, on_dir_run, (load_token_quiet token); [done|]. simpl. rewrite (Hc STORY_TOKEN_FILENAME) by other_name. exact Ht. }
  rewrite bool_decide_eq_true_2 by done. done.
Qed.
End KeystoreFacts.
