(* ===== verification/StoryAuth.v ===== *)
(** * Pass stories

    Models the authentication by a story: [indras-crypto/src/pass_story.rs]
    (normalisation, canonical encoding, key derivation), [word_frequencies.rs]
    and [entropy.rs] (the estimate of a story's entropy in binary64),
    [story_template.rs], and [indras-sync-engine/src/rehearsal.rs] and
    [story_auth.rs], which compose them with the keystore of [Keystore].  NFC
    and lower-casing go by Unicode tables and are parameters, as are [log2],
    Argon2id, HKDF, BLAKE3 and the JSON of the schedule and of the manifest.
    Slots are arrays of 23 strings, here lists; instants count nanoseconds, and
    a call reads the clock once.  The numbers in the text of the entropy error
    are left out. *)

From Stdlib Require Import Floats.SpecFloat.
From S2P Require Import Prelude Float Bytes Crypto Pending Bundle BlobStore Documents BundleStore Sealing Recovery Keystore.

Local Open Scope string_scope.
Local Open Scope Z_scope.
Local Open Scope list_scope.

(** ** What is used of other crates *)

(** Unicode NFC and [str::to_lowercase], on UTF-8. *)
Class UnicodeText : Type := { nfc : list byte → list byte; to_lowercase : list byte → list byte }.

(** [Hkdf::<Sha512>::new(None, ikm)] and [expand] on an info string. *)
Class HkdfSha512 : Type := hkdf_expand : list byte → list byte → nat → Result (list byte) string.

Class Log2F64 : Type := log2 : f64 → f64.

(** ** Errors *)

(** The constructors of [CryptoError] that stories use. *)
Inductive StoryError : Type :=
| SlotCountMismatch (expected actual : nat)
| NullByteInSlot
| EntropyBelowThreshold (total required : f64) (weak_slots : list nat)
| InvalidStory (s : string)
| KeyDerivationFailed (s : string).

Definition nat_text (n : nat) : string := i64_to_string (Z.of_nat n).

(** The text of an error; the entropy and the slots are left out of it. *)
Definition story_error_message (e : StoryError) : string :=
  match e with
  | SlotCountMismatch e a => "Story slot count mismatch: expected " +:+ nat_text e +:+ ", got " +:+ nat_text a
  | NullByteInSlot => "Null byte found in story slot"
  | EntropyBelowThreshold _ _ _ => "Story entropy below threshold"
  | InvalidStory s => "Invalid story: " +:+ s
  | KeyDerivationFailed s => "Key derivation failed: " +:+ s
  end.

(** ** Normalisation and encoding *)

Definition STORY_SLOT_COUNT : nat := 23.
Definition MIN_ENTROPY_BITS : f64 := f64_of_Z 256.
Definition ARGON2_MEMORY_KIB : Z := 262144.
Definition ARGON2_ITERATIONS : Z := 4.
Definition ARGON2_PARALLELISM : Z := 4.
Definition ARGON2_OUTPUT_LEN : nat := 64.
Definition SLOT_DELIMITER : byte := x00.

(** The loop over the characters: [prev_was_space] starts as true.  No
    encoding of a white space starts with a continuation byte, so that the
    other characters can be copied byte by byte. *)
Fixpoint collapse (fuel : nat) (prev_was_space : bool) (l : list byte) : list byte :=
  match fuel, l with
  | S fuel, b :: t =>
      match strip_any white_space l with
      | Some r => if prev_was_space then collapse fuel true r else x20 :: collapse fuel true r
      | None => b :: collapse fuel false t
      end
  | _, _ => []
  end.

Definition pop_space (l : list byte) : list byte :=
  if bool_decide (last l = Some x20) then removelast l else l.

Definition normalize_slot `{UnicodeText} (raw : string) : string :=
  let lowered := to_lowercase (nfc (as_bytes raw)) in
  string_of_list_byte (pop_space (collapse (length lowered) true lowered)).

(** The check of each slot, with its number. *)
Fixpoint check_slots (i : nat) (slots : list string) : Result unit StoryError :=
  match slots with
  | [] => Ok tt
  | s :: slots =>
      if bool_decide (SLOT_DELIMITER ∈ as_bytes s) then Err NullByteInSlot
      else if bool_decide (s = "") then Err (InvalidStory ("Slot " +:+ nat_text (S i) +:+ " is empty"))
      else check_slots (S i) slots
  end.

Fixpoint join_slots (slots : list string) : list byte :=
  match slots with
  | [] => []
  | [s] => as_bytes s
  | s :: slots => as_bytes s ++ SLOT_DELIMITER :: join_slots slots
  end.

Definition canonical_encode (slots : list string) : Result (list byte) StoryError :=
  let? _ := check_slots 0 slots in Ok (join_slots slots).

(** ** Key derivation *)

Record StorySubkeys : Type := {
  sub_identity : list byte;
  sub_encryption : list byte;
  sub_signing : list byte;
  sub_recovery : list byte;
}.

Definition derive_master_key `{Argon2} (canonical salt : list byte) : Result (list byte) StoryError :=
  match argon2id ARGON2_MEMORY_KIB ARGON2_ITERATIONS ARGON2_PARALLELISM ARGON2_OUTPUT_LEN canonical salt with
  | Ok k => Ok k
  | Err e => Err (KeyDerivationFailed ("Argon2id failed: " +:+ e))
  end.

Definition expand_to `{HkdfSha512} (master : list byte) (info : string) : Result (list byte) StoryError :=
  match hkdf_expand master (as_bytes info) 32 with
  | Ok k => Ok k
  | Err e => Err (KeyDerivationFailed ("HKDF expand failed: " +:+ e))
  end.

Definition expand_subkeys `{HkdfSha512} (master : list byte) : Result StorySubkeys StoryError :=
  let? identity := expand_to master "indras-pass-story-identity" in
  let? encryption := expand_to master "indras-pass-story-encryption" in
  let? signing := expand_to master "indras-pass-story-signing" in
  let? recovery := expand_to master "indras-pass-story-recovery" in
  Ok {| sub_identity := identity; sub_encryption := encryption; sub_signing := signing; sub_recovery := recovery |}.

Definition derive_keys_from_story `{UnicodeText} `{Argon2} `{HkdfSha512} (raw_slots : list string) (salt : list byte)
    : Result StorySubkeys StoryError :=
  let? canonical := canonical_encode (normalize_slot <$> raw_slots) in
  let? master := derive_master_key canonical salt in
  expand_subkeys master.

Definition story_verification_token `{Blake3} (master : list byte) : arr32 := blake3 master.

(** ** Word frequencies *)

Definition UNKNOWN_WORD_ENTROPY : f64 := f64_of_Z 16.
Definition MIN_WORD_ENTROPY : f64 := f64_one.
Definition MAX_WORD_ENTROPY : f64 := f64_of_Z 20.

(** Words with their rank, in the order of the source. *)
Definition words : list (string * Z) :=
  [("the", 1); ("be", 2); ("to", 3); ("of", 4); ("and", 5); ("a", 6); ("in", 7); ("that", 8); ("have", 9); ("i", 10);
   ("it", 11); ("for", 12); ("not", 13); ("on", 14); ("with", 15); ("he", 16); ("as", 17); ("you", 18); ("do", 19);
   ("at", 20); ("this", 21); ("but", 22); ("his", 23); ("by", 24); ("from", 25); ("they", 26); ("we", 27);
   ("say", 28); ("her", 29); ("she", 30); ("or", 31); ("an", 32); ("will", 33); ("my", 34); ("one", 35); ("all", 36);
   ("would", 37); ("there", 38); ("their", 39); ("what", 40); ("up", 41); ("out", 42); ("if", 43); ("about", 44);
   ("who", 45); ("get", 46); ("which", 47); ("go", 48); ("me", 49); ("when", 50); ("make", 51); ("can", 52);
   ("like", 53); ("time", 54); ("no", 55); ("just", 56); ("him", 57); ("know", 58); ("take", 59); ("people", 60);
   ("into", 61); ("year", 62); ("your", 63); ("good", 64); ("some", 65); ("could", 66); ("them", 67); ("see", 68);
   ("other", 69); ("than", 70); ("then", 71); ("now", 72); ("look", 73); ("only", 74); ("come", 75); ("its", 76);
   ("over", 77); ("think", 78); ("also", 79); ("back", 80); ("after", 81); ("use", 82); ("two", 83); ("how", 84);
   ("our", 85); ("work", 86); ("first", 87); ("well", 88); ("way", 89); ("even", 90); ("new", 91); ("want", 92);
   ("because", 93); ("any", 94); ("these", 95); ("give", 96); ("day", 97); ("most", 98); ("us", 99); ("great", 100);
   ("life", 101); ("man", 102); ("world", 103); ("hand", 104); ("part", 105); ("child", 106); ("eye", 107);
   ("woman", 108); ("place", 109); ("find", 110); ("thing", 111); ("tell", 112); ("night", 113); ("home", 114);
   ("head", 115); ("heart", 116); ("old", 117); ("big", 118); ("long", 119); ("high", 120); ("small", 121);
   ("house", 122); ("water", 123); ("keep", 124); ("body", 125); ("turn", 126); ("face", 127); ("door", 128);
   ("name", 129); ("room", 130); ("end", 131); ("play", 132); ("move", 133); ("light", 134); ("down", 135);
   ("point", 136); ("city", 137); ("run", 138); ("change", 139); ("story", 140); ("father", 141); ("mother", 142);
   ("earth", 143); ("side", 144); ("begin", 145); ("power", 146); ("live", 147); ("land", 148); ("learn", 149);
   ("school", 150); ("air", 151); ("friend", 152); ("family", 153); ("love", 154); ("road", 155); ("word", 156);
   ("book", 157); ("war", 158); ("young", 159); ("line", 160); ("left", 161); ("walk", 162); ("need", 163);
   ("death", 164); ("far", 165); ("king", 166); ("tree", 167); ("food", 168); ("dark", 169); ("fire", 170);
   ("fear", 171); ("hope", 172); ("dream", 173); ("mountain", 174); ("river", 175); ("sun", 176); ("sea", 177);
   ("star", 178); ("sword", 179); ("stone", 180); ("music", 181); ("voice", 182); ("song", 183); ("gold", 184);
   ("wind", 185); ("sleep", 186); ("rain", 187); ("white", 188); ("black", 189); ("red", 190); ("blood", 191);
   ("garden", 192); ("god", 193); ("open", 194); ("fall", 195); ("hour", 196); ("lost", 197); ("true", 198);
   ("force", 199); ("ground", 200); ("shadow", 201); ("silence", 202); ("darkness", 203); ("strength", 204);
   ("path", 205); ("journey", 206); ("spirit", 207); ("soul", 208); ("truth", 209); ("wisdom", 210);
   ("courage", 211); ("magic", 212); ("monster", 213); ("hero", 214); ("guide", 215); ("bridge", 216);
   ("forest", 217); ("tower", 218); ("wall", 219); ("mirror", 220); ("dragon", 221); ("shield", 222); ("armor", 223);
   ("battle", 224); ("kingdom", 225); ("castle", 226); ("village", 227); ("storm", 228); ("flame", 229);
   ("ice", 230); ("iron", 231); ("silver", 232); ("secret", 233); ("treasure", 234); ("key", 235); ("gate", 236);
   ("window", 237); ("child", 238); ("brother", 239); ("sister", 240); ("teacher", 241); ("master", 242);
   ("student", 243); ("warrior", 244); ("stranger", 245); ("friend", 246); ("enemy", 247); ("ghost", 248);
   ("angel", 249); ("devil", 250); ("beast", 251); ("wolf", 252); ("bird", 253); ("snake", 254); ("fish", 255);
   ("horse", 256); ("cat", 257); ("dog", 258); ("bear", 259); ("lion", 260); ("ocean", 261); ("lake", 262);
   ("island", 263); ("desert", 264); ("sky", 265); ("moon", 266); ("cloud", 267); ("thunder", 268); ("cave", 269);
   ("dust", 270); ("ash", 271); ("bone", 272); ("steel", 273); ("glass", 274); ("wood", 275); ("silk", 276);
   ("music", 277); ("dance", 278); ("sing", 279); ("cry", 280); ("laugh", 281); ("smile", 282); ("anger", 283);
   ("sorrow", 284); ("joy", 285); ("peace", 286); ("pain", 287); ("wound", 288); ("heal", 289); ("break", 290);
   ("build", 291); ("create", 292); ("destroy", 293); ("remember", 294); ("forget", 295); ("promise", 296);
   ("betray", 297); ("trust", 298); ("faith", 299); ("doubt", 300); ("compass", 301); ("lantern", 302);
   ("candle", 303); ("rope", 304); ("map", 305); ("knife", 306); ("crown", 307); ("ring", 308); ("chain", 309);
   ("bell", 310); ("clock", 311); ("wheel", 312); ("basket", 313); ("bread", 314); ("wine", 315); ("honey", 316);
   ("salt", 317); ("copper", 318); ("bronze", 319); ("marble", 320); ("crystal", 321); ("emerald", 322);
   ("ruby", 323); ("pearl", 324); ("diamond", 325); ("sapphire", 326); ("anchor", 327); ("lighthouse", 328);
   ("harbor", 329); ("tide", 330); ("wave", 331); ("shore", 332); ("cliff", 333); ("valley", 334); ("meadow", 335);
   ("orchard", 336); ("harvest", 337); ("winter", 338); ("spring", 339); ("summer", 340); ("autumn", 341);
   ("frost", 342); ("snow", 343); ("fog", 344); ("ember", 345); ("spark", 346); ("blaze", 347); ("torch", 348);
   ("furnace", 349); ("forge", 350); ("hammer", 351); ("anvil", 352); ("needle", 353); ("thread", 354);
   ("loom", 355); ("cloth", 356); ("ink", 357); ("pen", 358); ("scroll", 359); ("letter", 360); ("library", 361);
   ("cathedral", 362); ("temple", 363); ("altar", 364); ("throne", 365); ("scepter", 366); ("banner", 367);
   ("flag", 368); ("drum", 369); ("flute", 370); ("harp", 371); ("violin", 372); ("piano", 373); ("guitar", 374);
   ("trumpet", 375); ("whistle", 376); ("echo", 377); ("riddle", 378); ("puzzle", 379); ("maze", 380);
   ("labyrinth", 381); ("spiral", 382); ("circle", 383); ("square", 384); ("triangle", 385); ("arrow", 386);
   ("spear", 387); ("bow", 388); ("dagger", 389); ("axe", 390); ("helm", 391); ("cloak", 392); ("boots", 393);
   ("gloves", 394); ("mask", 395); ("veil", 396); ("raven", 397); ("owl", 398); ("hawk", 399); ("eagle", 400);
   ("falcon", 401); ("dove", 402); ("sparrow", 403); ("swan", 404); ("fox", 405); ("deer", 406); ("rabbit", 407);
   ("spider", 408); ("butterfly", 409); ("moth", 410); ("beetle", 411); ("bee", 412); ("rose", 413); ("lily", 414);
   ("oak", 415); ("willow", 416); ("ivy", 417); ("thorn", 418); ("root", 419); ("seed", 420); ("bloom", 421);
   ("wither", 422); ("moss", 423); ("fern", 424); ("mushroom", 425); ("poison", 426); ("remedy", 427);
   ("potion", 428); ("elixir", 429); ("alchemy", 430); ("science", 431); ("philosophy", 432); ("astronomy", 433);
   ("wanderer", 434); ("pilgrim", 435); ("traveler", 436); ("exile", 437); ("refugee", 438); ("orphan", 439);
   ("thief", 440); ("merchant", 441); ("sailor", 442); ("farmer", 443); ("baker", 444); ("smith", 445);
   ("weaver", 446); ("potter", 447); ("painter", 448); ("sculptor", 449); ("poet", 450); ("singer", 451);
   ("dancer", 452); ("healer", 453); ("scholar", 454); ("priest", 455); ("monk", 456); ("knight", 457);
   ("soldier", 458); ("hunter", 459); ("shepherd", 460); ("guard", 461); ("scout", 462); ("spy", 463);
   ("judge", 464); ("prophet", 465); ("witch", 466); ("wizard", 467); ("sorcerer", 468); ("enchantment", 469);
   ("spell", 470); ("curse", 471); ("blessing", 472); ("miracle", 473); ("destiny", 474); ("fate", 475);
   ("fortune", 476); ("sacrifice", 477); ("redemption", 478); ("forgiveness", 479); ("revenge", 480); ("honor", 481);
   ("glory", 482); ("shame", 483); ("pride", 484); ("humility", 485); ("patience", 486); ("persistence", 487);
   ("resilience", 488); ("innocence", 489); ("guilt", 490); ("mercy", 491); ("justice", 492); ("freedom", 493);
   ("prison", 494); ("escape", 495); ("return", 496); ("beginning", 497); ("ending", 498); ("threshold", 499);
   ("crossing", 500)].

(** A word that is listed twice has its second rank. *)
Definition WORD_FREQUENCIES : gmap string Z := foldl (λ m x, <[x.1 := x.2]> m) ∅ words.

Definition word_rank (word : string) : option Z := WORD_FREQUENCIES !! word.

(** [f64::max] and [f64::clamp]. *)
Definition f64_max (x y : f64) : f64 := if is_nan x then y else if is_nan y then x else if SFltb x y then y else x.

Definition f64_clamp (lo hi x : f64) : f64 :=
  let x := if SFltb x lo then lo else x in if SFltb hi x then hi else x.

Definition base_entropy `{Log2F64} (word : string) : f64 :=
  match word_rank word with
  | Some rank => f64_clamp MIN_WORD_ENTROPY MAX_WORD_ENTROPY (f64_add (log2 (f64_of_Z rank)) f64_one)
  | None => UNKNOWN_WORD_ENTROPY
  end.

(** The words expected at a position, and their penalty. *)
Definition expected_words (position : nat) : list string * f64 :=
  match position with
  | 0 => (["darkness"; "shadow"; "home"; "village"; "city"; "town"; "house"; "farm"; "world"], f64_of_Z 2)
  | 1 => (["child"; "boy"; "girl"; "dreamer"; "nobody"; "stranger"; "orphan"; "student"], f64_of_Z 2)
  | 2 => (["stranger"; "message"; "letter"; "dream"; "voice"; "fate"; "destiny"; "death"], f64_ratio 3 2)
  | 3 => (["hope"; "change"; "truth"; "light"; "knowledge"; "power"; "freedom"; "purpose"], f64_ratio 3 2)
  | 4 | 5 => (["fear"; "doubt"; "weakness"; "pride"; "shame"; "guilt"; "pain"; "loss"; "anger"], f64_of_Z 2)
  | 6 => (["door"; "gate"; "bridge"; "path"; "road"; "threshold"; "window"; "portal"], f64_of_Z 2)
  | 7 => (["darkness"; "unknown"; "wilderness"; "forest"; "desert"; "city"; "light"; "world"], f64_ratio 3 2)
  | 8 => (["teacher"; "master"; "wizard"; "stranger"; "elder"; "sage"; "guide"; "woman"; "man"], f64_of_Z 2)
  | 9 => (["truth"; "path"; "way"; "light"; "strength"; "power"; "wisdom"; "secret"], f64_ratio 3 2)
  | 10 | 11 | 12 => (["sword"; "shield"; "weapon"; "tool"; "fire"; "strength"; "friend"; "ally"; "trust"; "courage"], f64_one)
  | 13 => (["sword"; "shield"; "heart"; "hope"; "faith"; "trust"; "courage"; "spirit"; "will"], f64_ratio 3 2)
  | 14 => (["darkness"; "death"; "evil"; "fear"; "silence"; "nothing"; "stone"; "truth"], f64_ratio 3 2)
  | 15 => (["sword"; "key"; "light"; "crystal"; "treasure"; "crown"; "gem"; "stone"; "gift"], f64_ratio 3 2)
  | 16 => (["hope"; "truth"; "freedom"; "light"; "power"; "peace"; "love"; "life"; "joy"], f64_ratio 3 2)
  | 17 | 18 => (["light"; "truth"; "treasure"; "knowledge"; "path"; "road"; "darkness"; "fire"], f64_one)
  | 19 => (["child"; "boy"; "girl"; "fool"; "coward"; "nobody"; "stranger"; "shadow"], f64_ratio 3 2)
  | 20 => (["hero"; "warrior"; "king"; "queen"; "master"; "healer"; "leader"; "sage"], f64_ratio 3 2)
  | 21 | 22 => (["light"; "truth"; "wisdom"; "hope"; "love"; "peace"; "story"; "memory"; "knowledge"], f64_one)
  | _ => ([], f64_zero)
  end%nat.

Definition positional_entropy `{Log2F64} (word : string) (position : nat) : f64 :=
  let base := base_entropy word in
  let penalty := if bool_decide (word ∈ (expected_words position).1) then (expected_words position).2 else f64_zero in
  f64_max (f64_sub base penalty) MIN_WORD_ENTROPY.

(** ** Entropy *)

Definition SEMANTIC_CLUSTER_PENALTY : f64 := f64_ratio 3 2.
Definition WEAK_SLOT_THRESHOLD : f64 := f64_of_Z 6.

Definition SEMANTIC_CLUSTERS : list (list string * list string) :=
  [(["light"; "bright"; "glow"; "shine"; "radiance"; "sun"; "dawn"; "flame"; "fire"; "spark"],
    ["dark"; "darkness"; "shadow"; "night"; "gloom"; "dusk"; "shade"; "black"]);
   (["sword"; "blade"; "knife"; "dagger"; "weapon"; "spear"; "axe"],
    ["shield"; "armor"; "helm"; "defense"; "guard"; "protection"]);
   (["hope"; "dream"; "wish"; "desire"; "faith"],
    ["fear"; "doubt"; "despair"; "dread"; "terror"; "anxiety"]);
   (["love"; "heart"; "passion"; "devotion"; "affection"],
    ["hate"; "anger"; "rage"; "fury"; "wrath"]);
   (["life"; "birth"; "grow"; "bloom"; "spring"],
    ["death"; "end"; "wither"; "decay"; "fall"; "winter"]);
   (["water"; "river"; "ocean"; "sea"; "lake"; "rain"; "wave"; "tide"],
    ["fire"; "flame"; "blaze"; "ember"; "spark"; "burn"; "ash"]);
   (["knowledge"; "wisdom"; "truth"; "understanding"; "insight"],
    ["ignorance"; "blind"; "fool"; "confusion"; "mystery"])].

Definition slot_entropy `{Log2F64} (word : string) (position : nat) : f64 := positional_entropy word position.

Definition slot_word (slots : list string) (i : nat) : string := default "" (slots !! i).

(** The inner loop for one pair of groups and one slot. *)
Definition penalize_near (slots : list string) (c : list string * list string) (per_slot : list f64) (i : nat) : list f64 :=
  let in_a k := bool_decide (slot_word slots k ∈ c.1) in
  let in_b k := bool_decide (slot_word slots k ∈ c.2) in
  if negb (in_a i) && negb (in_b i) then per_slot
  else
    foldl (λ per j,
      if (in_a i && in_a j) || (in_b i && in_b j) || (in_a i && in_b j) || (in_b i && in_a j)
      then alter (λ x, f64_max (f64_sub x SEMANTIC_CLUSTER_PENALTY) MIN_WORD_ENTROPY) j per else per)
      per_slot (seq (S i) (Nat.min STORY_SLOT_COUNT (i + 4) - S i)).

Definition apply_clustering_penalty (slots : list string) (per_slot : list f64) : list f64 :=
  foldl (λ per c, foldl (penalize_near slots c) per (seq 0 STORY_SLOT_COUNT)) per_slot SEMANTIC_CLUSTERS.

Definition penalize_same (slots : list string) (per_slot : list f64) (i : nat) : list f64 :=
  foldl (λ per j, if bool_decide (slot_word slots i = slot_word slots j) then <[j := MIN_WORD_ENTROPY]> per else per)
    per_slot (seq (S i) (STORY_SLOT_COUNT - S i)).

Definition apply_duplicate_penalty (slots : list string) (per_slot : list f64) : list f64 :=
  foldl (penalize_same slots) per_slot (seq 0 STORY_SLOT_COUNT).

Definition f64_sum (l : list f64) : f64 := foldl f64_add f64_zero l.

Definition story_entropy `{Log2F64} (slots : list string) : f64 * list f64 :=
  let per_slot := imap (λ i w, slot_entropy w i) slots in
  let per_slot := apply_duplicate_penalty slots (apply_clustering_penalty slots per_slot) in
  (f64_sum per_slot, per_slot).

Definition weak_slots (per_slot : list f64) : list nat :=
  (retain (λ x, SFltb x.2 WEAK_SLOT_THRESHOLD) (imap (λ i e, (i, e)) per_slot)).*1.

Definition entropy_gate `{Log2F64} (slots : list string) : Result unit StoryError :=
  let '(total, per_slot) := story_entropy slots in
  if SFleb MIN_ENTROPY_BITS total then Ok tt
  else Err (EntropyBelowThreshold total MIN_ENTROPY_BITS (weak_slots per_slot)).

(** ** Templates *)

Record StoryStage : Type := { st_name : string; st_description : string; st_template : string; st_slot_count : nat }.

Record StoryTemplate : Type := { stages : list StoryStage }.

Definition default_template : StoryTemplate := {| stages :=
  [{| st_name := "The Ordinary World"; st_description := "before the journey began";
      st_template := "There was a time before all of this, when the world was small and certain. In the land of `_____`, I was known among my people as `_____`."; st_slot_count := 2 |};
   {| st_name := "The Call"; st_description := "the summons that could not be ignored";
      st_template := "But certainty is a fragile thing. One day, from beyond the edges of everything I knew, `_____` arrived bearing `_____` — and the silence that followed held a question I could not unask."; st_slot_count := 2 |};
   {| st_name := "Refusal of the Call"; st_description := "the weight that held you back";
      st_template := "I turned away at first. I nearly refused the call, bound by my `_____` and haunted by my `_____`. Who was I to answer what the world demanded?"; st_slot_count := 2 |};
   {| st_name := "Crossing the Threshold"; st_description := "the point of no return";
      st_template := "Yet something in me moved despite my fear. I crossed through the `_____` into the uncharted realm of `_____`, and the door sealed shut behind me like a breath held too long."; st_slot_count := 2 |};
   {| st_name := "The Mentor"; st_description := "the guide who appeared when needed";
      st_template := "I was not alone in that strange country. There, a `_____` unveiled the hidden `_____` that had eluded me — and for the first time, I understood that the journey had chosen me as much as I had chosen it."; st_slot_count := 2 |};
   {| st_name := "Tests and Allies"; st_description := "trials that forged new strength";
      st_template := "The path grew harder, and the world tested what I was becoming. Through many trials I learned to forge `_____` from `_____` and `_____`. Each failure taught me a language I had never spoken."; st_slot_count := 3 |};
   {| st_name := "The Ordeal"; st_description := "the crucible of transformation";
      st_template := "Then came the hour I had been warned about, the one no preparation could soften. In the deepest dark, my `_____` was shattered against `_____`. I lay in the wreckage and could not tell bone from stone."; st_slot_count := 2 |};
   {| st_name := "The Reward"; st_description := "what rose from the ashes";
      st_template := "But even ruin has a voice, if you are quiet enough to hear it. From that silence rose a `_____` that whispered of `_____` — and I understood at last what the ordeal had been protecting."; st_slot_count := 2 |};
   {| st_name := "The Road Back"; st_description := "the long journey home";
      st_template := "The way home was longer than the way out. I bore the `_____` homeward through the vast `_____`, and with each step the world I had left behind grew stranger and more dear."; st_slot_count := 2 |};
   {| st_name := "Resurrection"; st_description := "the final transformation";
      st_template := "When at last I returned, I found that I was the one who had changed. Where once I had been a `_____`, I emerged reborn as a `_____` — and the familiar world shimmered with meanings I could not have seen before."; st_slot_count := 2 |};
   {| st_name := "Return with the Elixir"; st_description := "what you carry into the world";
      st_template := "This is the story I carry now, woven into the marrow of who I am. Now and forevermore I carry `_____` and `_____`, and the journey lives in every word I speak."; st_slot_count := 2 |}] |}.

Definition total_slots (t : StoryTemplate) : nat := sum_list (st_slot_count <$> stages t).

(** The loop over stages and groups. *)
Fixpoint check_shape (i : nat) (sts : list StoryStage) (grouped : list (list string)) : Result unit StoryError :=
  match sts, grouped with
  | st :: sts, g :: grouped =>
      if negb (length g =? st_slot_count st)%nat then
        Err (InvalidStory ("Stage '" +:+ st_name st +:+ "' (#" +:+ nat_text (S i) +:+ ") expects " +:+ nat_text (st_slot_count st)
                             +:+ " slots, got " +:+ nat_text (length g)))
      else check_shape (S i) sts grouped
  | _, _ => Ok tt
  end.

Definition validate_shape (t : StoryTemplate) (grouped : list (list string)) : Result unit StoryError :=
  if negb (length grouped =? length (stages t))%nat then Err (SlotCountMismatch (length (stages t)) (length grouped))
  else check_shape 0 (stages t) grouped.

Fixpoint boundaries_from (offset : nat) (sts : list StoryStage) : list (nat * nat) :=
  match sts with
  | [] => []
  | st :: sts => (offset, (offset + st_slot_count st)%nat) :: boundaries_from (offset + st_slot_count st) sts
  end.

Definition stage_boundaries (t : StoryTemplate) : list (nat * nat) := boundaries_from 0 (stages t).

Record PassStory : Type := { ps_template : StoryTemplate; ps_slots : list string }.

Fixpoint check_nonempty (text : string) (i : nat) (slots : list string) : Result unit StoryError :=
  match slots with
  | [] => Ok tt
  | s :: slots =>
      if bool_decide (s = "") then Err (InvalidStory ("Slot " +:+ nat_text (S i) +:+ text)) else check_nonempty text (S i) slots
  end.

Definition from_raw `{UnicodeText} (raw_slots : list string) : Result PassStory StoryError :=
  if negb (total_slots default_template =? 23)%nat then
    Err (InvalidStory ("Template has " +:+ nat_text (total_slots default_template) +:+ " slots, expected 23"))
  else
    let normalized := normalize_slot <$> raw_slots in
    let? _ := check_nonempty " is empty after normalization" 0 normalized in
    Ok {| ps_template := default_template; ps_slots := normalized |}.

Definition from_normalized (slots : list string) : Result PassStory StoryError :=
  let? _ := check_nonempty " is empty" 0 slots in
  Ok {| ps_template := default_template; ps_slots := slots |}.

(** [str::replacen(.., 1)]. *)
Fixpoint replace_first (p r s : string) : string :=
  match strip_prefix p s with
  | Some t => r +:+ t
  | None => match s with "" => "" | String c s => String c (replace_first p r s) end
  end.

(** The blanks of one stage; [slots] are those not used yet. *)
Fixpoint fill_stage (n : nat) (filled : string) (slots : list string) : string * list string :=
  match n, slots with
  | S n, s :: slots => fill_stage n (replace_first "`_____`" ("`" +:+ s +:+ "`") filled) slots
  | _, _ => (filled, slots)
  end.

Fixpoint render_stages (first : bool) (sts : list StoryStage) (slots : list string) : string :=
  match sts with
  | [] => ""
  | st :: sts =>
      let '(filled, slots) := fill_stage (st_slot_count st) (st_template st) slots in
      (if first then "" else String "010" "") +:+ filled +:+ render_stages false sts slots
  end.

Definition story_render (s : PassStory) : string := render_stages true (stages (ps_template s)) (ps_slots s).

Definition story_canonical (s : PassStory) : Result (list byte) StoryError := canonical_encode (ps_slots s).

Definition grouped_slots (s : PassStory) : list (list string) :=
  (λ b, take (b.2 - b.1) (drop b.1 (ps_slots s))) <$> stage_boundaries (ps_template s).

(** ** Rehearsals *)

Record RehearsalState : Type := {
  rh_created_at : Z;
  rh_last_rehearsal : option Z;
  rh_rehearsal_count : Z;
  rh_next_rehearsal : Z;
  rh_consecutive_successes : Z;
}.

Definition days (n : Z) : Z := n * 86400 * 10 ^ 9.

Definition rehearsal_new (now : Z) : RehearsalState :=
  {| rh_created_at := now; rh_last_rehearsal := None; rh_rehearsal_count := 0; rh_next_rehearsal := now + days 1;
     rh_consecutive_successes := 0 |}.

Definition record_success (now : Z) (r : RehearsalState) : RehearsalState :=
  let count := wrap_u32 (rh_rehearsal_count r + 1) in
  {| rh_created_at := rh_created_at r; rh_last_rehearsal := Some now; rh_rehearsal_count := count;
     rh_next_rehearsal := now + (if count =? 1 then days 2 else if count =? 2 then days 4 else days 30);
     rh_consecutive_successes := wrap_u32 (rh_consecutive_successes r + 1) |}.

Definition record_failure (now : Z) (r : RehearsalState) : RehearsalState :=
  {| rh_created_at := rh_created_at r; rh_last_rehearsal := Some now; rh_rehearsal_count := rh_rehearsal_count r;
     rh_next_rehearsal := now + days 1; rh_consecutive_successes := 0 |}.

Definition rehearsal_is_due (now : Z) (r : RehearsalState) : bool := rh_next_rehearsal r <=? now.

Definition days_since_creation (now : Z) (r : RehearsalState) : Z := Z.quot (now - rh_created_at r) (days 1).

(** ** The authentication flow *)

Definition REHEARSAL_STATE_FILENAME : string := "rehearsal.json".
Definition MANIFEST_FILENAME : string := "steward_recovery.json".

Inductive AuthResult : Type := AuthSuccess | AuthFailed | AuthRehearsalDue.

(** [NodeError::to_string], for the errors a keystore returns. *)
Definition node_error_text (e : NodeError) : string :=
  match e with
  | NodeKeystore m => "Keystore error: " +:+ m
  | NodeStoryAuth m => "Story auth error: " +:+ m
  | NodeIo m => "IO error: " +:+ m
  | _ => "error"
  end.

Definition steward_error_text (e : StewardRecoveryError) : string :=
  match e with
  | SreCrypto e => "crypto error: " +:+ seal_error_message e
  | SreThresholdTooSmall k => "threshold k must be >= 2 (got " +:+ i64_to_string k +:+ ")"
  | SreInvalidStewardCount n k =>
      "steward count " +:+ nat_text n +:+ " cannot satisfy threshold " +:+ i64_to_string k +:+ " (need k <= n <= 255)"
  end.

Section StoryAuth.
Context `{Aead} `{Dilithium} `{Kem} `{Argon2} `{HkdfSha512} `{Blake3} `{Log2F64}.
Context `{!Codec RehearsalState} `{!Codec StewardManifest} `{!Sharks} `{!Codec ShamirShare}.

Record StoryAuth : Type := {
  au_keystore : StoryKeystore;
  au_rehearsal : RehearsalState;
  au_salt : list byte;
}.

Definition au_set_keystore (k : StoryKeystore) (a : StoryAuth) : StoryAuth :=
  {| au_keystore := k; au_rehearsal := au_rehearsal a; au_salt := au_salt a |}.

Definition au_set_rehearsal (r : RehearsalState) (a : StoryAuth) : StoryAuth :=
  {| au_keystore := au_keystore a; au_rehearsal := r; au_salt := au_salt a |}.

Definition au_set_salt (l : list byte) (a : StoryAuth) : StoryAuth :=
  {| au_keystore := au_keystore a; au_rehearsal := au_rehearsal a; au_salt := l |}.

(** A keystore on the directory, before [create_account] or [authenticate]. *)
Definition auth_start (now : Z) (d : KeyDir) : StoryAuth :=
  {| au_keystore := story_keystore_new d; au_rehearsal := rehearsal_new now; au_salt := [] |}.

(** The directory that stays behind. *)
Definition au_dir (a : StoryAuth) : KeyDir := eks_inner (sk_inner (au_keystore a)).

Definition refuse {A} (reason : string) : M StoryAuth IndraError A := fail (IeStoryAuth reason).

(** A call on the keystore, whose error becomes a reason. *)
Definition on_keystore {A} (text : string) (m : M StoryKeystore NodeError A) : M StoryAuth IndraError A := λ a,
  match m (au_keystore a) with
  | (k, Ok x) => (au_set_keystore k a, Ok x)
  | (k, Err e) => (au_set_keystore k a, Err (IeStoryAuth (text +:+ node_error_text e)))
  end.

Definition on_files {A} (m : M KeyDir NodeError A) : M StoryKeystore NodeError A := on_keys (on_dir m).

Definition story_result {A} (text : string) (r : Result A StoryError) : M StoryAuth IndraError A :=
  match r with Ok x => mret x | Err e => refuse (text +:+ story_error_message e) end.

(** The master key and the subkeys of a story. *)
Definition derive_story (story : PassStory) (salt : list byte) : M StoryAuth IndraError (list byte * StorySubkeys) :=
  canonical ← story_result "Canonical encoding failed: " (story_canonical story);
  master ← story_result "Key derivation failed: " (derive_master_key canonical salt);
  subkeys ← story_result "Key expansion failed: " (expand_subkeys master);
  mret (master, subkeys).

Definition subkey_32 (reason : string) (k : StorySubkeys) : M StoryAuth IndraError arr32 :=
  match to_arr32 (sub_encryption k) with Some a => mret a | None => refuse reason end.

(** [std::fs::write] on a file beside the keys. *)
Definition write_beside (text name : string) (bytes : list byte) : M StoryAuth IndraError unit := λ a,
  match on_files (write_file "" name bytes) (au_keystore a) with
  | (k, Ok x) => (au_set_keystore k a, Ok x)
  | (k, Err (NodeKeystore e)) => (au_set_keystore k a, Err (IeStoryAuth (text +:+ e)))
  | (k, Err e) => (au_set_keystore k a, Err (IeStoryAuth (text +:+ node_error_text e)))
  end.

Definition save_rehearsal_state : M StoryAuth IndraError unit :=
  r ← gets au_rehearsal;
  match c_encode r with
  | Ok bytes => write_beside "Failed to write rehearsal state: " REHEARSAL_STATE_FILENAME bytes
  | Err e => refuse ("Failed to serialize rehearsal state: " +:+ e)
  end.

Definition load_or_default_rehearsal (now : Z) : M StoryAuth IndraError RehearsalState := λ a,
  if file_exists REHEARSAL_STATE_FILENAME (au_dir a) then
    match on_files (read_file NodeIo REHEARSAL_STATE_FILENAME) (au_keystore a) with
    | (k, Ok bytes) => (au_set_keystore k a, Ok match c_decode bytes with Ok r => r | Err _ => rehearsal_new now end)
    | (k, Err _) => (au_set_keystore k a, Ok (rehearsal_new now))
    end
  else (a, Ok (rehearsal_new now)).

(** [user_id || timestamp]. *)
Definition story_salt (user_id : list byte) (timestamp : Z) : list byte := user_id ++ le_bytes 8 timestamp.

Definition create_account (fresh : NodeKeys) (now : Z) (story : PassStory) (user_id : list byte) (timestamp : Z)
    : M StoryAuth IndraError unit :=
  story_result "" (entropy_gate (ps_slots story)) ;;
  let salt := story_salt user_id timestamp in
  keys ← derive_story story salt;
  let token := story_verification_token keys.1 in
  key ← subkey_32 "Invalid encryption key length" keys.2;
  on_keystore "Keystore initialization failed: " (story_initialize fresh key token salt) ;;
  modify (λ a, au_set_salt salt (au_set_rehearsal (rehearsal_new now) a)) ;;
  save_rehearsal_state.

(** The salt of an initialised keystore. *)
Definition existing_salt : M StoryAuth IndraError (list byte) :=
  there ← gets (λ a, story_is_initialized (au_keystore a));
  if there : bool then on_keystore "Failed to load salt: " (on_files load_story_salt)
  else refuse "No story keystore found — create an account first".

(** [match keystore.authenticate(..) { Ok(()) => {} Err(_) => .. }]. *)
Definition try_keystore (m : M StoryKeystore NodeError unit) : M StoryAuth IndraError bool := λ a,
  match m (au_keystore a) with
  | (k, Ok _) => (au_set_keystore k a, Ok true)
  | (k, Err _) => (au_set_keystore k a, Ok false)
  end.

Definition authenticate (now : Z) (story : PassStory) : M StoryAuth IndraError AuthResult :=
  salt ← existing_salt;
  keys ← derive_story story salt;
  let token := story_verification_token keys.1 in
  key ← subkey_32 "Invalid encryption key length" keys.2;
  ok ← try_keystore (story_authenticate key token);
  rehearsal ← load_or_default_rehearsal now;
  if negb ok then modify (λ a, au_set_salt salt (au_set_rehearsal rehearsal a)) ;; mret AuthFailed
  else
    let due := rehearsal_is_due now rehearsal in
    modify (λ a, au_set_salt salt (au_set_rehearsal (if due then record_success now rehearsal else rehearsal) a)) ;;
    save_rehearsal_state ;;
    mret (if due then AuthRehearsalDue else AuthSuccess).

(** The stages are not compared: the list is always empty. *)
Definition recovery_hint (attempted : PassStory) (recovery_key : list byte) (a : StoryAuth) : Result (list nat) IndraError := Ok [].

Definition auth_rotate (now : Z) (new_story : PassStory) (user_id : list byte) (timestamp : Z) : M StoryAuth IndraError unit :=
  story_result "" (entropy_gate (ps_slots new_story)) ;;
  let salt := story_salt user_id timestamp in
  keys ← derive_story new_story salt;
  let token := story_verification_token keys.1 in
  key ← subkey_32 "Invalid encryption key length" keys.2;
  on_keystore "Key rotation failed: " (rotate_story key token salt) ;;
  modify (λ a, au_set_salt salt (au_set_rehearsal (rehearsal_new now) a)) ;;
  save_rehearsal_state.

Definition render_story (story : PassStory) : string := story_render story.

Definition save_manifest (m : StewardManifest) : M StoryAuth IndraError unit :=
  match c_encode m with
  | Ok bytes => write_beside "Steward recovery: io error: " MANIFEST_FILENAME bytes
  | Err e => refuse ("Steward recovery: manifest serialization error: " +:+ e)
  end.

(** Random bytes as in [prepare_recovery]. *)
Definition prepare_steward_recovery (rnd : list byte) (rnds : list (list byte * list byte)) (now : Z) (story : PassStory)
    (stewards : list (list byte * PQEncapsulationKey)) (k v : Z) : M StoryAuth IndraError PreparedRecovery :=
  salt ← existing_salt;
  keys ← derive_story story salt;
  matches ← on_keystore "Token verification failed: " (verify_token (story_verification_token keys.1));
  if negb matches then refuse "Story does not match the stored keystore"
  else
    subkey ← subkey_32 "Invalid encryption subkey length" keys.2;
    match prepare_recovery rnd rnds now subkey stewards k v with
    | Err e => refuse ("Steward recovery: " +:+ steward_error_text e)
    | Ok prepared => save_manifest (pr_manifest prepared) ;; mret prepared
    end.

Definition auth_lock (a : StoryAuth) : StoryAuth := au_set_keystore (story_lock (au_keystore a)) a.
End StoryAuth.

(** ** Normalised slots *)

(** A byte that is copied is not a space. *)
Lemma copied_not_space b t : strip_any white_space (b :: t) = None → b ≠ x20.
Proof. by intros Hs ->. Qed.

(** Spaces are single, and none comes first where one came before. *)
Fixpoint single_spaces (prev_was_space : bool) (l : list byte) : Prop :=
  match l with
  | [] => True
  | b :: l => if bool_decide (b = x20) then prev_was_space = false ∧ single_spaces true l else single_spaces false l
  end.

Lemma collapse_single fuel prev l : single_spaces prev (collapse fuel prev l).
Proof.
  revert prev l. induction fuel as [|fuel IH]; intros prev [|b t]; try done. cbn [collapse].
  destruct (strip_any white_space (b :: t)) as [r|] eqn:E.
  - destruct prev; [apply IH|]. cbn [single_spaces]. rewrite bool_decide_eq_true_2 by done. split; [done|apply IH].
  - cbn [single_spaces]. rewrite bool_decide_eq_false_2 by (by eapply copied_not_space). apply IH.
Qed.

Lemma single_spaces_removelast prev l : single_spaces prev l → single_spaces prev (removelast l).
Proof.
  revert prev. induction l as [|b [|c l] IH]; intros prev Hl; [done..|]. change (removelast (b :: c :: l)) with (b :: removelast (c :: l)).
  cbn [single_spaces] in *. case_bool_decide; [destruct Hl as [? Hl]; split; [done|]|]; by apply IH.
Qed.

Lemma single_spaces_last prev l : single_spaces prev l → last l = Some x20 → last (removelast l) ≠ Some x20.
Proof.
  revert prev. induction l as [|b [|c l] IH]; intros prev Hl Hx; [done|done|].
  change (removelast (b :: c :: l)) with (b :: removelast (c :: l)). rewrite last_cons_cons in Hx.
  destruct l as [|d l].
  - simpl in *. injection Hx as ->. intros [= ->]. by destruct Hl as (_ & Hf & _).
  - assert (Hl' : ∃ q, single_spaces q (c :: d :: l)) by (cbn [single_spaces] in Hl; case_bool_decide; eexists; apply Hl).
    destruct Hl' as [q Hq]. specialize (IH q Hq Hx). change (removelast (c :: d :: l)) with (c :: removelast (d :: l)) in *.
    by rewrite last_cons_cons.
Qed.

(** A normalised slot has no space at its ends and no two in a row. *)
Theorem normalize_slot_spaces `{UnicodeText} raw :
  single_spaces true (as_bytes (normalize_slot raw)) ∧ last (as_bytes (normalize_slot raw)) ≠ Some x20.
Proof.
  unfold normalize_slot. set (l := collapse _ true _). assert (Hl : single_spaces true l) by apply collapse_single.
  unfold as_bytes. rewrite list_byte_of_string_of_list_byte. unfold pop_space. case_bool_decide as E; [|done].
  split; [by apply single_spaces_removelast|]. by eapply single_spaces_last.
Qed.

(** ** Canonical encoding *)

Definition slot_ok (s : string) : Prop := SLOT_DELIMITER ∉ as_bytes s ∧ s ≠ "".

Lemma check_slots_ok i slots : check_slots i slots = Ok tt ↔ Forall slot_ok slots.
Proof.
  revert i. induction slots as [|s slots IH]; intros i; cbn [check_slots]; [by split|]. rewrite Forall_cons, <- (IH (S i)). unfold slot_ok.
  case_bool_decide; [naive_solver|]. case_bool_decide; naive_solver.
Qed.

Lemma split_delimiter (a b r s : list byte) : SLOT_DELIMITER ∉ a → SLOT_DELIMITER ∉ b →
  a ++ SLOT_DELIMITER :: r = b ++ SLOT_DELIMITER :: s → a = b ∧ r = s.
Proof.
  revert b. induction a as [|x a IH]; intros [|y b] Ha Hb E; simpl in E; [by injection E|..].
  - injection E as <- _. destruct Hb. by constructor.
  - injection E as -> _. destruct Ha. by constructor.
  - injection E as -> E. rewrite not_elem_of_cons in Ha, Hb. destruct (IH b) as [-> ->]; naive_solver.
Qed.

Lemma join_slots_inj a b : Forall slot_ok a → Forall slot_ok b → join_slots a = join_slots b → a = b.
Proof.
  assert (Hne : ∀ s l, slot_ok s → join_slots (s :: l) ≠ []).
  { intros s l [_ Hs]. destruct l; simpl; [|by destruct (as_bytes s)]. intros E. apply Hs, as_bytes_inj. by rewrite E. }
  assert (Hd : ∀ (x y r : list byte), SLOT_DELIMITER ∉ x → x ≠ y ++ SLOT_DELIMITER :: r).
  { intros x y r Hx ->. apply Hx. rewrite elem_of_app. right. by constructor. }
  revert b. induction a as [|s a IH]; intros [|t b] Ha Hb E; [done|by apply Forall_cons in Hb as [? _]; destruct (Hne t b)|..].
  { apply Forall_cons in Ha as [? _]. by destruct (Hne s a). }
  apply Forall_cons in Ha as [[Hs Hs'] Ha]. apply Forall_cons in Hb as [[Ht Ht'] Hb].
  destruct a as [|s2 a], b as [|t2 b].
  - f_equal. by apply as_bytes_inj.
  - by destruct (Hd _ _ _ Hs E).
  - symmetry in E. by destruct (Hd _ _ _ Ht E).
  - change (join_slots (?x :: ?y :: ?l)) with (as_bytes x ++ SLOT_DELIMITER :: join_slots (y :: l)) in E.
    destruct (split_delimiter _ _ _ _ Hs Ht E) as [E1 E2]. f_equal; [by apply as_bytes_inj|by apply IH].
Qed.

(** Different stories have different encodings. *)
Theorem canonical_encode_inj a b c : canonical_encode a = Ok c → canonical_encode b = Ok c → a = b.
Proof.
  unfold canonical_encode. destruct (check_slots 0 a) as [[]|] eqn:Ea; [|done]. destruct (check_slots 0 b) as [[]|] eqn:Eb; [|done].
  cbn [rbind]. intros [= <-] [= E]. apply check_slots_ok in Ea, Eb. by apply join_slots_inj.
Qed.

(** ** Templates *)

Lemma boundaries_groups off sts (slots : list string) : (sum_list (st_slot_count <$> sts) + off = length slots)%nat →
  concat ((λ b, take (b.2 - b.1) (drop b.1 slots)) <$> boundaries_from off sts) = drop off slots ∧
  length <$> ((λ b, take (b.2 - b.1) (drop b.1 slots)) <$> boundaries_from off sts) = st_slot_count <$> sts.
Proof.
  revert off. induction sts as [|st sts IH]; intros off Hl.
  - simpl in *. split; [|done]. by rewrite drop_ge by lia.
  - change (sum_list (st_slot_count <$> st :: sts)) with (st_slot_count st + sum_list (st_slot_count <$> sts))%nat in Hl.
    cbn [boundaries_from]. rewrite !fmap_cons. cbn [concat fst snd].
    destruct (IH (off + st_slot_count st)%nat) as [Hc Hn]; [lia|]. rewrite Hc, Hn. replace (off + st_slot_count st - off)%nat with (st_slot_count st) by lia.
    split.
    + rewrite <- drop_drop. apply take_drop.
    + f_equal. rewrite length_take, length_drop. lia.
Qed.

Lemma check_shape_ok i sts grouped : length <$> grouped = st_slot_count <$> sts → check_shape i sts grouped = Ok tt.
Proof.
  revert i grouped. induction sts as [|st sts IH]; intros i [|g grouped] E; try done. injection E as E1 E2. cbn [check_shape].
  rewrite E1, Nat.eqb_refl. by apply IH.
Qed.

(** The groups of a story fit the template, and together are its slots. *)
Theorem grouped_slots_spec story : ps_template story = default_template → length (ps_slots story) = 23%nat →
  concat (grouped_slots story) = ps_slots story ∧ validate_shape default_template (grouped_slots story) = Ok tt.
Proof.
  intros Ht Hl. unfold grouped_slots, stage_boundaries. rewrite Ht.
  destruct (boundaries_groups 0 (stages default_template) (ps_slots story)) as [Hc Hn]; [by rewrite Hl|]. split; [exact Hc|].
  unfold validate_shape. rewrite !length_fmap. apply (f_equal length) in Hn as Hn'. rewrite !length_fmap in Hn'. rewrite Hn', Nat.eqb_refl.
  simpl negb. cbv iota. by apply check_shape_ok.
Qed.

(** ** Entropy *)

(** The second place of a word in the list decides its rank. *)
Example repeated_ranks : word_rank "child" = Some 238 ∧ word_rank "friend" = Some 246 ∧ word_rank "music" = Some 277.
Proof. vm_compute. done. Qed.

Lemma foldl_ext_in {A B} (f g : A → B → A) l a : (∀ x a, x ∈ l → f a x = g a x) → foldl f a l = foldl g a l.
Proof.
  revert a. induction l as [|x l IH]; intros a Hfg; simpl; [done|]. rewrite (Hfg x a) by constructor.
  apply IH. intros y b Hy. apply Hfg. by constructor.
Qed.

Lemma foldl_keeps {A B} (P : A → Prop) (f : A → B → A) l a : (∀ a x, x ∈ l → P a → P (f a x)) → P a → P (foldl f a l).
Proof.
  revert a. induction l as [|x l IH]; intros a Hf Ha; simpl; [done|]. apply IH; [|by apply Hf; [constructor|]].
  intros b y Hy. apply Hf. by constructor.
Qed.

(** The penalty for clusters leaves the first slot as it is. *)
Lemma clustering_first slots per e : head per = Some e → length per = STORY_SLOT_COUNT →
  head (apply_clustering_penalty slots per) = Some e ∧ length (apply_clustering_penalty slots per) = STORY_SLOT_COUNT.
Proof.
  intros He Hl. unfold apply_clustering_penalty.
  apply (foldl_keeps (λ per, head per = Some e ∧ length per = STORY_SLOT_COUNT)); [|done]. intros p c _ Hp.
  apply (foldl_keeps (λ per, head per = Some e ∧ length per = STORY_SLOT_COUNT)); [|done]. intros p' i _ Hp'.
  unfold penalize_near. destruct (_ && _); [done|].
  apply (foldl_keeps (λ per, head per = Some e ∧ length per = STORY_SLOT_COUNT)); [|done]. intros p'' j Hj [Hh Hn].
  destruct (_ || _); [|done]. rewrite length_alter. split; [|done]. rewrite elem_of_seq in Hj.
  destruct p''; [done|]. destruct j; [lia|]. done.
Qed.

Lemma same_word_penalty w i per : (i < STORY_SLOT_COUNT)%nat → penalize_same (replicate STORY_SLOT_COUNT w) per i =
  foldl (λ per j, <[j := MIN_WORD_ENTROPY]> per) per (seq (S i) (STORY_SLOT_COUNT - S i)).
Proof.
  intros Hi. unfold penalize_same. apply foldl_ext_in. intros j p Hj. rewrite elem_of_seq in Hj.
  unfold slot_word. rewrite !lookup_replicate_2 by lia. by rewrite bool_decide_eq_true_2.
Qed.

Lemma same_word_entropy w per e : head per = Some e → length per = STORY_SLOT_COUNT →
  apply_duplicate_penalty (replicate STORY_SLOT_COUNT w) per = e :: replicate 22 MIN_WORD_ENTROPY.
Proof.
  intros He Hl. unfold apply_duplicate_penalty.
  rewrite (foldl_ext_in _ (λ per i, foldl (λ per j, <[j := MIN_WORD_ENTROPY]> per) per (seq (S i) (STORY_SLOT_COUNT - S i)))).
  - do 23 (destruct per as [|? per]; [done|]). destruct per; [|done]. by injection He as ->.
  - intros i p Hi. rewrite elem_of_seq in Hi. apply same_word_penalty. lia.
Qed.

(** A story that repeats one word is refused, whatever the word: all slots but
    the first are weak. *)
Theorem repeated_word_refused `{Log2F64} w : word_rank w = None →
  ∃ total, entropy_gate (replicate STORY_SLOT_COUNT w) = Err (EntropyBelowThreshold total MIN_ENTROPY_BITS (seq 1 22)).
Proof.
  intros Hw. unfold entropy_gate, story_entropy. set (per := imap _ _). set (e := slot_entropy w 0).
  destruct (clustering_first (replicate STORY_SLOT_COUNT w) per e) as [Hh Hl]; [done..|].
  rewrite (same_word_entropy w _ e Hh Hl).
  assert (He : e = f64_of_Z 16 ∨ e = f64_of_Z 14).
  { unfold e, slot_entropy, positional_entropy, base_entropy. rewrite Hw. case_bool_decide; [right|left]; vm_compute; done. }
  exists (f64_sum (e :: replicate 22 MIN_WORD_ENTROPY)). clearbody e. clear Hh Hl. destruct He as [-> | ->]; vm_compute; reflexivity.
Qed.

(** ** Accounts *)

Section StoryAuthFacts.
Context `{Aead} `{Dilithium} `{Kem} `{Argon2} `{HkdfSha512} `{Blake3} `{Log2F64}.
Context `{!Codec RehearsalState} `{!AeadLaws, !KeyBytesLaws}.
(** The cipher takes nonces of its size and texts that are not too long, Argon2
    salts of at least eight bytes; the keys have a fixed size. *)
Context (aead_total : ∀ k n p, length n = NONCE_SIZE → short p → ∃ c, aead_encrypt k n p = Ok c).
Context (identity_short : ∀ i, short (pq_identity_to_keypair_bytes i).1 ∧ short (pq_identity_to_keypair_bytes i).2).
Context (kem_short : ∀ k : PQKemKeyPair, short (kem_to_keypair_bytes k).1 ∧ short (kem_to_keypair_bytes k).2).
Context (kem_bytes : ∀ k : PQKemKeyPair, kem_from_keypair_bytes (kem_to_keypair_bytes k).1 (kem_to_keypair_bytes k).2 = Ok k).
Context (argon2_total : ∀ p salt, short p → short salt → (8 <= length salt)%nat →
  ∃ b, argon2id ARGON2_MEMORY_KIB ARGON2_ITERATIONS ARGON2_PARALLELISM ARGON2_OUTPUT_LEN p salt = Ok b).
Context (hkdf_total : ∀ m i, ∃ b, hkdf_expand m i 32 = Ok b ∧ length b = 32%nat).
Context (rehearsal_json : ∀ r : RehearsalState, ∃ b, c_encode r = Ok b ∧ c_decode b = Ok r).
Implicit Types (a : StoryAuth) (d : KeyDir) (story : PassStory).

(** What can be hashed: a story with a canonical form that is not too long, and a
    salt of at least eight bytes. *)
Definition encodable story : Prop :=
  match story_canonical story with Ok c => short c | Err _ => False end.
Definition usable (salt : list byte) : Prop := short salt ∧ (8 <= length salt)%nat.

Lemma story_salt_usable user ts : short (story_salt user ts) → usable (story_salt user ts).
Proof. intros Hs. split; [done|]. unfold story_salt. rewrite length_app, le_bytes_length. lia. Qed.

(** The master key and the encryption key of a story. *)
Definition master_of story (salt : list byte) : list byte :=
  match story_canonical story with
  | Ok c => match derive_master_key c salt with Ok m => m | Err _ => [] end
  | Err _ => []
  end.

Definition key_of_story story (salt : list byte) : arr32 :=
  match hkdf_expand (master_of story salt) (as_bytes "indras-pass-story-encryption") 32 with
  | Ok b => default zeros32 (to_arr32 b)
  | Err _ => zeros32
  end.

Definition token_of_story story (salt : list byte) : arr32 := story_verification_token (master_of story salt).

Lemma expand_ok m i : ∃ b, expand_to m i = Ok b ∧ length b = 32%nat ∧ hkdf_expand m (as_bytes i) 32 = Ok b.
Proof. destruct (hkdf_total m (as_bytes i)) as (b & Hb & Hl). exists b. unfold expand_to. by rewrite Hb. Qed.

Lemma derive_story_ok story salt a : encodable story → usable salt → ∃ sub,
  derive_story story salt a = (a, Ok (master_of story salt, sub)) ∧
  ∀ reason a', subkey_32 reason sub a' = (a', Ok (key_of_story story salt)).
Proof.
  intros Hc [Hsh Hlong]. unfold encodable in Hc. unfold key_of_story, master_of. destruct (story_canonical story) as [c|] eqn:Ec; [|done].
  destruct (argon2_total c salt Hc Hsh Hlong) as [m Hm]. assert (Hmk : derive_master_key c salt = Ok m) by (unfold derive_master_key; by rewrite Hm).
  destruct (expand_ok m "indras-pass-story-identity") as (b1 & E1 & _ & _), (expand_ok m "indras-pass-story-encryption") as (b2 & E2 & L2 & X2),
    (expand_ok m "indras-pass-story-signing") as (b3 & E3 & _ & _), (expand_ok m "indras-pass-story-recovery") as (b4 & E4 & _ & _).
  assert (Hx : expand_subkeys m = Ok {| sub_identity := b1; sub_encryption := b2; sub_signing := b3; sub_recovery := b4 |})
    by (unfold expand_subkeys; by rewrite E1, E2, E3, E4).
  rewrite Hmk, X2. eexists. split.
  - unfold derive_story. rewrite Ec. erewrite run_bind_ok by reflexivity. rewrite Hmk. erewrite run_bind_ok by reflexivity.
    rewrite Hx. erewrite run_bind_ok by reflexivity. reflexivity.
  - intros reason a'. unfold subkey_32, to_arr32. simpl. by destruct (decide (length b2 = 32%nat)).
Qed.

(** The story opens the keystore, and the schedule is on file. *)
Record account_ok story (salt : list byte) (x : NodeKeys) (r : RehearsalState) a : Prop := {
  ac_story : story_ok (key_of_story story salt) (token_of_story story salt) salt x (au_keystore a);
  ac_salt : usable salt;
  ac_schedule : ∃ b, kd_files (au_dir a) !! REHEARSAL_STATE_FILENAME = Some b ∧ c_decode b = Ok r;
}.

Ltac other_name := apply (bool_decide_unpack _); vm_compute; reflexivity.

(** Writing the schedule keeps the keystore. *)
Lemma save_schedule_ok key token salt x r a : story_ok key token salt x (au_keystore a) → au_rehearsal a = r →
  ∃ a', save_rehearsal_state a = (a', Ok tt) ∧ story_ok key token salt x (au_keystore a') ∧
    (∃ b, kd_files (au_dir a') !! REHEARSAL_STATE_FILENAME = Some b ∧ c_decode b = Ok r).
Proof.
  intros [(Hk & He & Hq) Hs Ht Hl] <-. unfold save_rehearsal_state. rewrite run_gets_bind.
  destruct (rehearsal_json (au_rehearsal a)) as (b & -> & Hb). unfold write_beside, on_files.
  erewrite on_keys_run by (apply on_dir_run, write_quiet; exact Hq). eexists. split; [reflexivity|]. split.
  - split; [done| |simpl; by rewrite lookup_insert_ne|simpl; by rewrite lookup_insert_ne].
    eapply (keys_frame _ _ [REHEARSAL_STATE_FILENAME]); [apply insert_changed|other_name|exact Hs].
  - exists b. split; [apply lookup_insert_eq|done].
Qed.

(** The end of [create_account] and of [rotate]. *)
Lemma reschedule_ok story salt x now a : usable salt → story_ok (key_of_story story salt) (token_of_story story salt) salt x (au_keystore a) →
  ∃ a', (modify (λ a, au_set_salt salt (au_set_rehearsal (rehearsal_new now) a)) ;; save_rehearsal_state) a = (a', Ok tt) ∧
    account_ok story salt x (rehearsal_new now) a'.
Proof.
  intros Hu Hs. destruct (save_schedule_ok _ _ _ _ (rehearsal_new now) (au_set_salt salt (au_set_rehearsal (rehearsal_new now) a)) Hs eq_refl)
    as (a' & Ha & Hsa & Hr). exists a'. split; [|by split]. by erewrite run_bind_ok by reflexivity.
Qed.

Lemma on_keystore_ok {A} text (m : M StoryKeystore NodeError A) a s r : m (au_keystore a) = (s, Ok r) →
  on_keystore text m a = (au_set_keystore s a, Ok r).
Proof. intros Hm. unfold on_keystore. by rewrite Hm. Qed.

Lemma create_account_ok x now story user ts d : kd_io d = [] → no_keys d → entropy_gate (ps_slots story) = Ok tt →
  encodable story → short (story_salt user ts) → ∃ a, create_account x now story user ts (auth_start now d) = (a, Ok tt) ∧
  account_ok story (story_salt user ts) x (rehearsal_new now) a.
Proof.
  intros Hq Hno Hg Hc Hu%story_salt_usable. set (salt := story_salt user ts) in *. unfold create_account. rewrite Hg. erewrite run_bind_ok by reflexivity.
  destruct (derive_story_ok story salt (auth_start now d) Hc Hu) as (sub & Hd & Hk).
  rewrite (run_bind_ok _ _ _ _ _ Hd). erewrite run_bind_ok by apply Hk.
  destruct (initialize_ok aead_total identity_short kem_short x (key_of_story story salt) (token_of_story story salt) salt d Hq Hno) as (s & Hi & Hs).
  erewrite run_bind_ok by (apply on_keystore_ok; exact Hi).
  apply (reschedule_ok story salt x now (au_set_keystore s (auth_start now d)) Hu Hs).
Qed.

Lemma auth_rotate_ok story salt x r a now story' user ts : account_ok story salt x r a → entropy_gate (ps_slots story') = Ok tt →
  encodable story' → short (story_salt user ts) → ∃ a', auth_rotate now story' user ts a = (a', Ok tt) ∧
  account_ok story' (story_salt user ts) x (rehearsal_new now) a'.
Proof.
  intros [Hs _ _] Hg Hc Hu%story_salt_usable. set (salt' := story_salt user ts) in *. unfold auth_rotate. rewrite Hg. erewrite run_bind_ok by reflexivity.
  destruct (derive_story_ok story' salt' a Hc Hu) as (sub & Hd & Hk). rewrite (run_bind_ok _ _ _ _ _ Hd). erewrite run_bind_ok by apply Hk.
  destruct (rotate_ok aead_total identity_short kem_short kem_bytes _ _ _ _ _ (key_of_story story' salt') (token_of_story story' salt') salt' Hs) as (s & Hi & Hs').
  erewrite run_bind_ok by (apply on_keystore_ok; exact Hi).
  apply (reschedule_ok story' salt' x now (au_set_keystore s a) Hu Hs').
Qed.

Lemma existing_salt_ok story salt x r a now : account_ok story salt x r a →
  existing_salt (auth_start now (au_dir a)) = (auth_start now (au_dir a), Ok salt).
Proof.
  intros [[(Hk & He & Hq) Hs Ht Hl] _ _]. unfold existing_salt. rewrite run_gets_bind. unfold story_is_initialized, file_exists.
  change (eks_inner (sk_inner (au_keystore (auth_start now (au_dir a))))) with (eks_inner (sk_inner (au_keystore a))).
  rewrite Ht, Hl. rewrite !bool_decide_eq_true_2 by done. cbn [andb].
  erewrite on_keystore_ok; [reflexivity|]. unfold on_files.
  erewrite on_keys_run by (apply on_dir_run, read_quiet; [exact Hq|exact Hl]). reflexivity.
Qed.

Lemma load_schedule_ok r b a now : kd_io (au_dir a) = [] → kd_files (au_dir a) !! REHEARSAL_STATE_FILENAME = Some b → c_decode b = Ok r →
  ∃ a', load_or_default_rehearsal now a = (a', Ok r) ∧ au_keystore a' = au_keystore a.
Proof.
  intros Hq Hb Hr. unfold load_or_default_rehearsal, file_exists. rewrite Hb. rewrite bool_decide_eq_true_2 by done. unfold on_files.
  erewrite on_keys_run by (apply on_dir_run, read_quiet; [exact Hq|exact Hb]). cbv beta iota. rewrite Hr. eexists. split; [reflexivity|].
  simpl. unfold au_dir. unfold sk_set_inner, eks_set_inner. by destruct (au_keystore a) as [[] ?].
Qed.

(** The story of the account, in a new process. *)
Lemma authenticate_same story salt x r a now story' : account_ok story salt x r a → encodable story' →
  master_of story' salt = master_of story salt →
  ∃ a', authenticate now story' (auth_start now (au_dir a)) = (a', Ok (if rehearsal_is_due now r then AuthRehearsalDue else AuthSuccess)) ∧
    account_ok story salt x (if rehearsal_is_due now r then record_success now r else r) a'.
Proof.
  intros Ha Hc Hm. unfold authenticate. rewrite (run_bind_ok _ _ _ _ _ (existing_salt_ok _ _ _ _ _ now Ha)).
  destruct (derive_story_ok story' salt (auth_start now (au_dir a)) Hc (ac_salt _ _ _ _ _ Ha)) as (sub & Hd & Hk). rewrite (run_bind_ok _ _ _ _ _ Hd). erewrite run_bind_ok by apply Hk.
  assert (Hkey : key_of_story story' salt = key_of_story story salt) by (unfold key_of_story; by rewrite Hm).
  cbn [fst]. rewrite Hkey. change (story_verification_token (master_of story' salt)) with (token_of_story story' salt).
  assert (Htok : token_of_story story' salt = token_of_story story salt) by (unfold token_of_story; by rewrite Hm). rewrite Htok.
  destruct Ha as [Hs Hu (b & Hb & Hr)]. destruct (authenticate_ok _ _ _ _ _ Hs) as (s & Hau & Hs').
  assert (Hfiles : eks_inner (sk_inner s) = au_dir a).
  { unfold story_authenticate in Hau. erewrite run_bind_ok in Hau by (apply on_keys_run, on_dir_run, load_token_quiet; [apply Hs|apply Hs]).
    rewrite bool_decide_eq_true_2 in Hau by done. by injection Hau as <-. }
  assert (Htry : try_keystore (story_authenticate (key_of_story story salt) (token_of_story story salt)) (auth_start now (au_dir a)) =
    (au_set_keystore s (auth_start now (au_dir a)), Ok true)).
  { unfold try_keystore. change (au_keystore (auth_start now (au_dir a))) with (restarted (au_keystore a)). by rewrite Hau. }
  rewrite (run_bind_ok _ _ _ _ _ Htry).
  destruct (load_schedule_ok r b (au_set_keystore s (auth_start now (au_dir a))) now) as (a1 & Hl & Hk1); [apply Hs'|unfold au_dir at 1; simpl; by rewrite Hfiles|done|].
  rewrite (run_bind_ok _ _ _ _ _ Hl). cbn [negb]. erewrite run_bind_ok by reflexivity.
  set (r' := if rehearsal_is_due now r then record_success now r else r).
  destruct (save_schedule_ok (key_of_story story salt) (token_of_story story salt) salt x r' (au_set_salt salt (au_set_rehearsal r' a1))) as (a' & Hsave & Hs2 & Hr2);
    [simpl; by rewrite Hk1|done|].
  exists a'. rewrite (run_bind_ok _ _ _ _ _ Hsave). split; [done|by split].
Qed.

(** Any other story, up to a collision of BLAKE3. *)
Lemma authenticate_other story salt x r a now story' : account_ok story salt x r a → encodable story' →
  token_of_story story' salt ≠ token_of_story story salt →
  ∃ a', authenticate now story' (auth_start now (au_dir a)) = (a', Ok AuthFailed) ∧ au_dir a' = au_dir a ∧ story_is_locked (au_keystore a') = true.
Proof.
  intros Ha Hc Hne. unfold authenticate. rewrite (run_bind_ok _ _ _ _ _ (existing_salt_ok _ _ _ _ _ now Ha)).
  destruct (derive_story_ok story' salt (auth_start now (au_dir a)) Hc (ac_salt _ _ _ _ _ Ha)) as (sub & Hd & Hk). rewrite (run_bind_ok _ _ _ _ _ Hd). erewrite run_bind_ok by apply Hk.
  cbn [fst]. change (story_verification_token (master_of story' salt)) with (token_of_story story' salt).
  destruct Ha as [Hs Hu (b & Hb & Hr)].
  assert (Htry : try_keystore (story_authenticate (key_of_story story' salt) (token_of_story story' salt)) (auth_start now (au_dir a)) =
    (auth_start now (au_dir a), Ok false)).
  { unfold try_keystore. change (au_keystore (auth_start now (au_dir a))) with (restarted (au_keystore a)).
    by rewrite (authenticate_refused _ _ _ _ _ _ _ Hs Hne). }
  rewrite (run_bind_ok _ _ _ _ _ Htry).
  destruct (load_schedule_ok r b (auth_start now (au_dir a)) now) as (a1 & Hl & Hk1); [apply Hs|done|done|].
  rewrite (run_bind_ok _ _ _ _ _ Hl). cbn [negb]. eexists. split; [reflexivity|]. unfold au_dir. simpl. rewrite Hk1. done.
Qed.
(** The stories of an account: when, which story, and the parts of its salt. *)
Record StoryEntry : Type := { se_now : Z; se_story : PassStory; se_user : list byte; se_timestamp : Z }.

Definition se_salt (e : StoryEntry) : list byte := story_salt (se_user e) (se_timestamp e).

Definition accepted (e : StoryEntry) : Prop :=
  entropy_gate (ps_slots (se_story e)) = Ok tt ∧ encodable (se_story e) ∧ short (se_salt e).

Fixpoint auth_rotations (l : list StoryEntry) : M StoryAuth IndraError unit :=
  match l with
  | [] => mret tt
  | e :: l => auth_rotate (se_now e) (se_story e) (se_user e) (se_timestamp e) ;; auth_rotations l
  end.

Lemma auth_rotations_ok l e x a : account_ok (se_story e) (se_salt e) x (rehearsal_new (se_now e)) a → Forall accepted l →
  ∃ a', auth_rotations l a = (a', Ok tt) ∧
    let e' := default e (last l) in account_ok (se_story e') (se_salt e') x (rehearsal_new (se_now e')) a'.
Proof.
  revert e a. induction l as [|e' l IH]; intros e a Ha Hl; [by exists a|]. apply Forall_cons in Hl as [(Hg & Hc & Hu) Hl].
  destruct (auth_rotate_ok _ _ _ _ _ (se_now e') (se_story e') (se_user e') (se_timestamp e') Ha Hg Hc Hu) as (a1 & He1 & Ha1).
  destruct (IH e' a1 Ha1 Hl) as (a2 & He2 & Ha2). exists a2. split; [simpl; by rewrite (run_bind_ok _ _ _ _ _ He1)|].
  destruct l as [|y l]; [done|]. rewrite last_cons_cons. destruct (last (y :: l)) eqn:E; [done|]. by apply last_None in E.
Qed.

(** C22. Where no input or output fails, the directory has no keys yet and the
    stories pass the entropy check and can be hashed: an account that was
    created with one story and rotated through others opens, in a new process, for the last story: the keys are those generated
    at first, and a rehearsal is due from one day after the last change.  A
    story with another token (that is, up to collisions, another one) is refused, and leaves the directory and the
    keystore as they are. *)
Theorem story_auth_spec x d first l now story : kd_io d = [] → no_keys d → Forall accepted (first :: l) →
  encodable story →
  let e := default first (last l) in
  ∃ a a', create_account x (se_now first) (se_story first) (se_user first) (se_timestamp first) (auth_start (se_now first) d) = (a, Ok tt) ∧
    auth_rotations l a = (a', Ok tt) ∧
    (master_of story (se_salt e) = master_of (se_story e) (se_salt e) →
       ∃ a'', authenticate now story (auth_start now (au_dir a')) =
           (a'', Ok (if se_now e + days 1 <=? now then AuthRehearsalDue else AuthSuccess)) ∧
         let s := au_keystore a'' in
         (∀ k, story_load_or_generate_iroh k s = (s, Ok (nk_iroh x))) ∧
         (∀ i, story_load_or_generate_pq_identity i s = (s, Ok (nk_identity x))) ∧
         (∀ q, story_load_or_generate_pq_kem q s = (s, Ok (nk_kem x)))) ∧
    (blake3 (master_of story (se_salt e)) ≠ blake3 (master_of (se_story e) (se_salt e)) →
       ∃ a'', authenticate now story (auth_start now (au_dir a')) = (a'', Ok AuthFailed) ∧
         au_dir a'' = au_dir a' ∧ story_is_locked (au_keystore a'') = true).
Proof.
  intros Hq Hno Hall Hc e. apply Forall_cons in Hall as [(Hg & Hf & Hu) Hl].
  destruct (create_account_ok x (se_now first) (se_story first) (se_user first) (se_timestamp first) d Hq Hno Hg Hf Hu) as (a & He1 & Ha).
  destruct (auth_rotations_ok l first x a Ha Hl) as (a' & He2 & Ha'). fold e in Ha'. exists a, a'. split; [done|]. split; [done|]. split.
  - intros Hm. destruct (authenticate_same _ _ _ _ _ now story Ha' Hc Hm) as (a'' & He3 & Ha''). exists a''. split; [exact He3|].
    destruct Ha'' as [Hs _ _]. by eapply story_loads.
  - intros Hne. by eapply authenticate_other.
Qed.
End StoryAuthFacts.
