(* ===== verification/WitnessesStorage.v ===== *)
(** * Concrete instances: offline delivery, vaults on a braid and storage

    As in [Witnesses], for the theorems about the event store, the bundle store
    and the manager of offline delivery; about vaults on a braid; and about the
    event logs, the database, the node's log, the log of pending events and the
    composite storage; and about message histories and story accounts.  Peers are integers, hashed to themselves, or simulated
    identities; the [postcard] encodings are replaced by toy ones that satisfy
    the laws the theorems ask for, BLAKE3 by a function that keeps what it
    hashes short. *)

From S2P Require Import Prelude Packet Pending Bundle Router Expiration Dtn BlobStore BundleStore EventStore Delivery WitnessesNet.

Section OfflineDelivery.
(** ** Event store *)

Definition greeting : LogEvent Z := LeMessage {| sender_hash := 9; ev_sequence := 1 |} 9 [x68; x69] 0.
(** Of two members one confirms the event, the other everything; then it is
    pruned. *)
Definition es_ops : list (es_op (I := Z)) :=
  [OpAppend greeting; OpMarkDelivered 1 {| sender_hash := 9; ev_sequence := 1 |}; OpMarkAllDelivered 2].

Lemma ops_acknowledged : acknowledged (foldl run_ob_op (ob_start {[ 1; 2 ]}) es_ops).
Proof.
  intros p box.
  assert (ob_boxes (foldl run_ob_op (ob_start {[ 1; 2 ]}) es_ops) = {[ 1 := []; 2 := [] ]}) as -> by (vm_compute; reflexivity).
  intros [[<- <-]|[_ [<- <-]%lookup_singleton_Some]]%lookup_insert_Some; eexists; split; [vm_compute; reflexivity|constructor|vm_compute; reflexivity|constructor].
Qed.

Lemma event_store_refines_witness :
  es_pending_for 2 (run_es_op (es_with_members_and_hash {[ 1; 2 ]} 7) (OpAppend greeting)) = [greeting] ∧
  es_pending_for 1 (foldl run_es_op (es_with_members_and_hash {[ 1; 2 ]} 7) es_ops) = [] ∧
  let o := foldl run_ob_op (ob_start {[ 1; 2 ]}) es_ops in ob_boxes (run_ob_op o OpPrune) = ob_boxes o.
Proof.
  split; [|split].
  - destruct (event_store_refines {[ 1; 2 ]} 7 [OpAppend greeting]) as (_ & _ & Hp & _).
    destruct (Hp 2) as (_ & He & _). etransitivity; [exact He|]. vm_compute. reflexivity.
  - destruct (event_store_refines {[ 1; 2 ]} 7 es_ops) as (_ & _ & Hp & _).
    destruct (Hp 1) as (_ & He & _). etransitivity; [exact He|]. vm_compute. reflexivity.
  - destruct (event_store_refines {[ 1; 2 ]} 7 es_ops) as (_ & _ & _ & _ & Hack). apply Hack, ops_acknowledged.
Defined.

(** ** Offline delivery *)

#[local] Instance mod_hasher : DefaultHasher Z := λ i, i mod 2 ^ 64.

Lemma mod_hasher_u64 (i : Z) : 0 <= hash_identity i < 2 ^ 64.
Proof. apply Z.mod_pos_bound. lia. Qed.

#[local] Instance plain_chrono : Chrono := {| chrono_from_std := Some; chrono_max := 2 ^ 63 |}.

#[local] Instance ClassOfService_eq_dec : EqDecision ClassOfService.
Proof. solve_decision. Defined.
#[local] Instance CustodyTransfer_eq_dec : EqDecision (CustodyTransfer Z).
Proof. solve_decision. Defined.
#[local] Instance Bundle_eq_dec : EqDecision (Bundle Z).
Proof. solve_decision. Defined.

(** Only custody messages have a code. *)
#[local] Instance toy_node : NodePostcard := {|
  postcard_network := λ _, Err "unsupported"%string;
  postcard_parse_network := λ _, Err "unsupported"%string;
  postcard_signed := λ m,
    match snm_message m with
    | NmDtnCustody c => Ok (toy_encode (snm_version m, dcm_custody_bytes c, snm_signature m, snm_sender_verifying_key m))
    | _ => Err "unsupported"%string
    end;
  postcard_parse_signed := λ l,
    match toy_decode l with
    | Some (v, c, s, k) =>
        Ok {| snm_version := v; snm_message := NmDtnCustody {| dcm_custody_bytes := c |}; snm_signature := s;
              snm_sender_verifying_key := k |}
    | None => Err "unexpected end"%string
    end;
|}.

Lemma toy_signed_law m v : postcard_signed m = Ok v → postcard_parse_signed v = Ok m.
Proof.
  destruct m as [ver [| | | | |[c]] s k]; try done. intros [= <-]. cbn. by rewrite toy_decode_encode.
Qed.

Definition note : SignedNetworkMessage :=
  {| snm_version := 1; snm_message := NmDtnCustody {| dcm_custody_bytes := [x2a] |}; snm_signature := [];
     snm_sender_verifying_key := [] |}.
Definition note_bytes : list byte := toy_encode (1, [x2a], @nil byte, @nil byte).
Definition offline_node : DtnManager Z := dtn_manager_new 0 dtn_config_default bundle_store_empty 5.
Definition note_bundle : Bundle Z := wrap_message 1000 77 note_bytes 6 Normal offline_node.

(** Only the bundle of the example has a code. *)
#[local] Instance toy_bundle : BundlePostcard Z := {|
  postcard_bundle := λ b, if bool_decide (b = note_bundle) then Ok [x01] else Err "unsupported"%string;
  postcard_parse_bundle := λ l, if bool_decide (l = [x01]) then Ok note_bundle else Err "unexpected end"%string;
|}.

Lemma toy_bundle_law (b : Bundle Z) v : postcard_bundle b = Ok v → postcard_parse_bundle v = Ok b.
Proof. cbn. case_bool_decide as Hb; [|done]. intros [= <-]. by rewrite Hb. Qed.

Lemma enqueue_drain_witness :
  ∃ d' b l' l, dm_enqueue None 1000 77 note 6 Normal offline_node = (d', Ok (bundle_id b)) ∧
    unwrap_bundle b = Ok note ∧ drain_for None 6 d' = Ok l' ∧ l' ≡ₚ [b] ∧
    drain_for None 6 (foldl run_dm_op d' [DoEncounter 1 9; DoCleanup None (λ _, None) 2000 2]) = Ok l ∧ b ∈ l.
Proof.
  destruct (enqueue_drain mod_hasher_u64 toy_bundle_law toy_signed_law offline_node ∅ 1000 77 note note_bytes 6 Normal)
    as (d' & b & He & Hu & _ & (l & l' & Hl & Hl' & Hp) & _ & _ & Hlater).
  - apply holds_empty.
  - vm_compute. split; congruence.
  - reflexivity.
  - change (is_ok (postcard_bundle note_bundle) = true). cbn. by rewrite bool_decide_true.
  - apply lookup_empty.
  - assert (b = note_bundle) as Hb.
    { assert (l = []) as -> by (vm_compute in Hl; congruence).
      apply (elem_of_drain mod_hasher_u64 toy_bundle_law d' {[ bundle_id note_bundle := note_bundle ]} 6 l' b) in Hl' as Hin.
      - assert (Hbl : b ∈ l') by (rewrite Hp; left). apply Hin in Hbl as [Hbl _].
        by apply lookup_singleton_Some in Hbl as [_ ->].
      - destruct (holds_enqueue mod_hasher_u64 offline_node ∅ 1000 77 note note_bytes 6 Normal) as (d2 & He2 & Hh);
          [apply holds_empty|vm_compute; split; congruence|reflexivity|cbn; by rewrite bool_decide_true| |].
        + intros x. by rewrite lookup_empty.
        + assert (d2 = d') as <- by congruence. exact Hh. }
    destruct (Hlater [DoEncounter 1 9; DoCleanup None (λ _, None) 2000 2]) as (l2 & Hl2 & Hin2).
    { rewrite Hb. split; [exact Logic.I|]. split; [vm_compute; reflexivity|exact Logic.I]. }
    exists d', b, l', l2. split; [exact He|]. split; [exact Hu|]. split; [exact Hl'|]. split; [|split; [exact Hl2|exact Hin2]].
    assert (l = []) as -> by (vm_compute in Hl; congruence). exact Hp.
Defined.
End OfflineDelivery.

From S2P Require Import Prelude Bytes Crypto Pending RelayConfig Wire BlobStore.
From S2P Require Import Index Changeset Braid BraidFacts Documents SyncDocs ContentStore AgentBraid VaultSync VaultWatch VaultSyncFacts.
From S2P Require Import Witnesses WitnessesNet WitnessesDoc.

Section BraidVaults.
Local Open Scope Z_scope.

#[local] Existing Instance toy_blake3.
#[local] Existing Instance toy_dilithium.
#[local] Existing Instance toy_dilithium_laws.
#[local] Existing Instance toy_changeset_postcard.
#[local] Existing Instance toy_stored.
#[local] Existing Instance blank_codec.

(** Nothing fails. *)
Definition calm (now : Z) : VaultIo := {|
  io_now := now; io_instant := now; io_random := λ _, now; io_doc := None; io_store := λ _, None; io_load := λ _, None;
  io_mkdir := λ _, None; io_write := λ _, None; io_remove := λ _, None; io_relay_db := None; io_arrivals := λ _, [];
  io_list := None; io_delete := λ _, None |}.

Definition no_blobs : DiskBlobs := {| db_config := blob_store_config_default; db_files := ∅ |}.

Definition vault_on (d : BraidDag) (b : DiskBlobs) : SyncVault unit := {|
  sv_user := alice; sv_identity := toy_identity x01; sv_local := {| vfd_files := ∅ |};
  sv_dag := {| d_name := "braid-dag"; d_state := d; d_snapshot := None; d_changes := [] |};
  sv_blobs := b; sv_disk := ∅; sv_watcher := Some watcher_empty; sv_relay := None; sv_trust := ∅;
  sv_inner := agent_braid_new alice |}.

Lemma vault_on_ok d b : braid_ok d → blobs_ok b → vault_ok (vault_on d b).
Proof.
  intros Hd Hb. by split.
Qed.

(** ** A run *)

Definition memo : list byte := [x68; x69].
Definition memo_index : SymlinkIndex := {| entries := {[ "note.md"%string := {| ca_hash := blake3 memo; ca_size := 2 |} ]} |}.

Definition written : SyncVault unit := (write_file_content (calm 10) "note.md" memo (vault_on dag_new no_blobs)).1.
Definition landed : SyncVault unit := (vault_agent_land (calm 11) "helper" "tidy" memo_index (evidence_human alice None 11) written).1.
Definition merged_in : SyncVault unit := (vault_merge_agent (calm 12) "helper" landed).1.
Definition promoted : SyncVault unit := (promote (calm 13) "publish" merged_in).1.
Definition collected : SyncVault unit := (gc_blobs (calm 14) promoted).1.

Lemma vault_run_safe_witness : braid_ok (outer collected) ∧ blobs_ok (sv_blobs collected) ∧ blob_at (sv_blobs collected) (blake3 memo) = Some memo.
Proof.
  assert (Hv : vault_ok (vault_on dag_new no_blobs)).
  { apply vault_on_ok; [apply braid_ok_new|apply blobs_ok_new]. }
  assert (Hr : rtc (vault_step braid_ok) (vault_on dag_new no_blobs) promoted).
  { eapply rtc_l; [apply (VsWrite _ _ (calm 10))|]. eapply rtc_l; [apply (VsLand _ _ (calm 11))|].
    eapply rtc_l; [apply (VsMergeAgent _ _ (calm 12))|]. apply rtc_once, (VsPromote _ _ (calm 13)). }
  destruct (vault_run_safe braid_ok _ promoted collected (blake3 memo) memo Hv Hr (VsGc _ _ (calm 14))) as (_ & Hb & Ho & Hkeep).
  split; [by apply Ho|]. split; [exact Hb|]. apply Hkeep; [vm_compute; reflexivity|].
  unfold referenced. match goal with |- ?P => refine (bool_decide_unpack P _) end. vm_compute. exact Logic.I.
Defined.

(** ** A merge and a promotion *)

Definition bob_changeset : Changeset :=
  changeset_with_index bob [] "hello" memo_index None (evidence_human bob None 5) 5 (toy_identity x02).
Definition with_bob : SyncVault unit :=
  vault_on (dag_commit bob_changeset bob memo_index 5 dag_new) (blob_store None memo no_blobs).1.

Lemma with_bob_ok : vault_ok with_bob.
Proof.
  apply vault_on_ok.
  - apply (dag_commit_ok bob_changeset); [apply braid_ok_new|done].
  - apply blob_store_grows, blobs_ok_new.
Qed.

Lemma merge_from_peer_spec_witness :
  is_ok (merge_from_peer (calm 20) bob with_bob).2 = true ∧
  entries (my_index (merge_from_peer (calm 20) bob with_bob).1) !! "note.md"%string = Some {| ca_hash := blake3 memo; ca_size := 2 |}.
Proof.
  split; [vm_compute; reflexivity|].
  destruct (merge_from_peer (calm 20) bob with_bob) as [v' r] eqn:E.
  destruct (merge_from_peer_spec (calm 20) bob {| head := cs_id bob_changeset; head_index := memo_index; updated_ms := 5 |}
    with_bob v' r with_bob_ok) as [Hi _]; [vm_compute; reflexivity|exact E|].
  simpl. rewrite Hi. vm_compute. reflexivity.
Defined.

Lemma merged_in_ok : vault_ok merged_in.
Proof.
  assert (Hk : vault_kept (∀ d, braid_ok d → braid_ok d) merged_in).
  { eapply vault_step_kept; [|apply (VsMergeAgent _ _ (calm 12))]. eapply vault_step_kept; [|apply (VsLand _ _ (calm 11))].
    eapply vault_step_kept; [|apply (VsWrite _ _ (calm 10))]. apply vault_ok_kept, vault_on_ok; [apply braid_ok_new|apply blobs_ok_new]. }
  destruct Hk as [Ho ????]. split; auto.
Qed.

Lemma promote_spec_witness : is_ok (promote (calm 13) "publish" merged_in).2 = true ∧
  my_index promoted = memo_index ∧ agent_head (sv_inner promoted) "helper" = None ∧
  cs_verify_signature (promote_changeset (calm 13) "publish" memo_index merged_in) (pq_identity_verifying_key (toy_identity x01)) = true.
Proof.
  split; [vm_compute; reflexivity|].
  pose proof (promote_spec (calm 13) "publish" merged_in promoted _ merged_in_ok eq_refl (surjective_pairing _)) as Hs.
  assert (Hu : user_head (sv_inner merged_in) = Some {| head := default zeros32 (head <$> user_head (sv_inner merged_in));
    head_index := memo_index; updated_ms := 12 |}) by (vm_compute; reflexivity).
  rewrite Hu in Hs. destruct Hs as (Hi & _ & _ & _ & _ & Hsig). split; [|split].
  - unfold my_index. rewrite Hi. reflexivity.
  - vm_compute. reflexivity.
  - exact Hsig.
Defined.
End BraidVaults.

From S2P Require Import Prelude Bytes Packet Pending Bundle RelayConfig Wire BlobStore Documents.
From S2P Require Import Witnesses WitnessesNet RelayAuth ContentStore RedbStore AppendLog NodeLog PendingLog Storage.

Section PersistentStorage.
Local Open Scope string_scope.
Local Open Scope Z_scope.
Local Open Scope list_scope.

Definition room : arr32 := arr32_fill x07.
Definition hall : arr32 := arr32_fill x08.

(** ** Events logs *)

#[local] Instance BlobRef_countable : Countable BlobRef.
Proof. by apply (inj_countable' (λ b, (br_hash b, br_size b)) (λ x, {| br_hash := x.1; br_size := x.2 |})); intros []. Defined.

(** The sequence number in eight bytes, then the rest. *)
#[local] Instance toy_entry : EntryPostcard := {|
  postcard_entry := λ e,
    if bool_decide (in_u64 (le_sequence e))
    then Ok (be_bytes 8 (le_sequence e) ++
             toy_encode (le_event_id e, le_timestamp_millis e, le_payload e, le_blob_ref e))
    else Err "out of range";
  postcard_parse_entry := λ l,
    match toy_decode (drop 8 l) with
    | Some (id, t, p, b) =>
        Ok {| le_event_id := id; le_sequence := from_be_bytes (take 8 l); le_timestamp_millis := t;
              le_payload := p; le_blob_ref := b |}
    | None => Err "unexpected end"
    end;
|}.

Lemma toy_entry_law e s : postcard_entry e = Ok s → postcard_parse_entry s = Ok e.
Proof.
  cbv [postcard_entry postcard_parse_entry toy_entry]. case_bool_decide as Hr; [|done].
  match goal with |- Ok ?x = Ok s → _ => intros Hs; assert (x = s) as <- by congruence; clear Hs end.
  rewrite drop_app_length' by by rewrite be_bytes_length. rewrite take_app_length' by by rewrite be_bytes_length.
  rewrite toy_decode_encode, from_to_be_bytes, Z.mod_small by exact Hr. by destruct e.
Qed.

Definition first_id : EventId := {| sender_hash := 5; ev_sequence := 1 |}.
Definition second_id : EventId := {| sender_hash := 3; ev_sequence := 1 |}.
Definition torn_io : WriteIo := {| wi_seek := None; wi_write := Some (7%nat, "disk full"); wi_sync := None |}.

Definition some_appends : list log_op :=
  [LogAppend io_ok 100 first_id [x61]; LogAppend torn_io 101 second_id [x62]; LogAppend io_ok 102 second_id [x63]].

Lemma entry_fits_toy e :
  0 < Z.of_nat (length (toy_encode (le_event_id e, le_timestamp_millis e, le_payload e, le_blob_ref e))) <= 1000000 →
  entry_fits e.
Proof.
  intros Hl s. cbv [postcard_entry toy_entry]. case_bool_decide; [|done].
  match goal with |- Ok ?x = Ok s → _ => intros Hs; assert (x = s) as <- by congruence; clear Hs end. rewrite length_app, be_bytes_length.
  unfold MAX_ENTRY_LEN. lia.
Qed.

Definition log_start : EventLog :=
  {| el_interface_id := room; el_config := event_log_config_default; el_open := true; el_file := log_file_open [];
     el_index := ∅; el_sequence := 0; el_offset := 0 |}.

(** A failed write in between: the second event is written again. *)
Lemma event_log_spec_witness :
  is_ok (run_log_op (LogAppend torn_io 101 second_id [x62]) (run_log (take 1 some_appends) log_start []).1).2 = false ∧
  ∃ l', el_read_event None second_id (run_log some_appends log_start []).1 =
    (l', Ok (Some (log_entry_new 102 second_id 2 [x63]))).
Proof.
  split; [vm_compute; reflexivity|].
  destruct (event_log_spec toy_entry_law room event_log_config_default some_appends log_start
    (run_log some_appends log_start []).1 (run_log some_appends log_start []).2) as (_ & Hread & _).
  - reflexivity.
  - repeat first [apply Forall_nil_2 | apply Forall_cons_2; [intros n; apply entry_fits_toy; vm_compute; split; [reflexivity|discriminate]|]].
  - vm_compute. reflexivity.
  - vm_compute. reflexivity.
  - destruct (Hread second_id) as [l' Hl]. exists l'. rewrite Hl. apply f_equal. vm_compute. reflexivity.
Defined.

(** ** The database *)

#[local] Instance InterfaceRecord_eq_dec : EqDecision InterfaceRecord.
Proof. solve_decision. Defined.
#[local] Instance InterfaceRecord_countable : Countable InterfaceRecord.
Proof.
  by apply (inj_countable' (λ r, (ir_interface_id r, ir_name r, ir_description r, ir_created_at_millis r,
      ir_last_activity_millis r, ir_event_count r, ir_member_count r, ir_encrypted r, ir_encrypted_key r))
    (λ '(a, b, c, d, e, f, g, h, k), Build_InterfaceRecord a b c d e f g h k)); intros [].
Defined.

#[local] Instance MembershipRecord_eq_dec : EqDecision MembershipRecord.
Proof. solve_decision. Defined.
#[local] Instance MembershipRecord_countable : Countable MembershipRecord.
Proof.
  by apply (inj_countable' (λ r, (mr_peer_id r, mr_joined_at_millis r, mr_role r, mr_active r, mr_last_activity_millis r))
    (λ '(a, b, c, d, e), Build_MembershipRecord a b c d e)); intros [].
Defined.

Definition toy_parse {A} `{Countable A} (l : list byte) : Result A string :=
  match toy_decode l with Some a => Ok a | None => Err "unexpected end" end.

Lemma toy_parse_encode {A} `{Countable A} (a : A) : toy_parse (toy_encode a) = Ok a.
Proof. unfold toy_parse. by rewrite toy_decode_encode. Qed.

#[local] Instance toy_records : RecordPostcard := {|
  pc_peer := λ _, Err "unsupported"; pc_parse_peer := λ _, Err "unsupported";
  pc_interface := λ r, Ok (toy_encode r); pc_parse_interface := toy_parse;
  pc_member := λ r, Ok (toy_encode r); pc_parse_member := toy_parse;
  pc_sync := λ _, Err "unsupported"; pc_parse_sync := λ _, Err "unsupported";
  pc_pending := λ _, Err "unsupported"; pc_parse_pending := λ _, Err "unsupported";
|}.

Lemma toy_interface_law r : ∃ v, pc_interface r = Ok v ∧ pc_parse_interface v = Ok r.
Proof. exists (toy_encode r). split; [done|]. apply toy_parse_encode. Qed.

Lemma toy_member_law r : ∃ v, pc_member r = Ok v ∧ pc_parse_member v = Ok r.
Proof. exists (toy_encode r). split; [done|]. apply toy_parse_encode. Qed.

(** Two members join, one leaves, another interface is deleted. *)
Definition some_ops : list (if_op SimulationIdentity) :=
  [OpUpsert (interface_record_new 1 room); OpUpsert (interface_record_new 1 hall);
   OpAdd room pA (membership_record_new 2 (pid_as_bytes pA)); OpAdd room pB (membership_record_new 3 (pid_as_bytes pB));
   OpAdd hall pA (membership_record_new 4 (pid_as_bytes pA)); OpRemove room pA; OpDelete hall].

Lemma interface_store_spec_witness :
  ∃ r, is_member room pB r = (r, Ok true) ∧ is_member room pA r = (r, Ok false) ∧ is_member hall pA r = (r, Ok false) ∧
    interface_get hall r = (r, Ok None).
Proof.
  destruct (interface_store_spec toy_interface_law toy_member_law some_ops)
    as (r0 & r & _ & _ & Hget & _ & Hmem & _).
  exists r. rewrite !Hmem, Hget. repeat split; apply f_equal; vm_compute; reflexivity.
Defined.

(** ** The node's log *)

(** An event as a number of its variant and fields of each type. *)
Abbreviation node_fields := (nat * bool * Z * EventId * option string * string * list byte * list byte * arr32)%type.

Definition fields_of (e : NodeEvent) : node_fields :=
  let z := zeros32 in let i := {| sender_hash := 0; ev_sequence := 0 |} in
  match e with
  | NodeStarted f => (0%nat, false, 0, i, None, "", [], [], f)
  | NodeStopped => (1%nat, false, 0, i, None, "", [], [], z)
  | InterfaceCreated f n => (2%nat, false, 0, i, n, "", [], [], f)
  | InterfaceJoined f => (3%nat, false, 0, i, None, "", [], [], f)
  | InterfaceLeft f => (4%nat, false, 0, i, None, "", [], [], f)
  | MemberAdded f p => (5%nat, false, 0, i, None, "", [], p, f)
  | EventReceived f id s n => (6%nat, false, n, id, None, "", [], s, f)
  | SyncReceived f p n => (7%nat, false, n, i, None, "", [], p, f)
  | EventAckReceived f p id => (8%nat, false, 0, id, None, "", [], p, f)
  | EventSent f id p => (9%nat, false, 0, id, None, "", [], p, f)
  | SyncSent f p n => (10%nat, false, n, i, None, "", [], p, f)
  | DtnHandoff f p n => (11%nat, false, n, i, None, "", [], p, f)
  | DtnRelayed b p q => (12%nat, false, 0, i, None, b, q, p, z)
  | DtnDelivered b p => (13%nat, false, 0, i, None, b, [], p, z)
  | DtnReceived b p u => (14%nat, u, 0, i, None, b, [], p, z)
  end.

Definition event_of_fields (x : node_fields) : NodeEvent :=
  let '(t, u, n, id, o, s, q, p, f) := x in
  match t with
  | 0 => NodeStarted f | 1 => NodeStopped | 2 => InterfaceCreated f o | 3 => InterfaceJoined f
  | 4 => InterfaceLeft f | 5 => MemberAdded f p | 6 => EventReceived f id p n | 7 => SyncReceived f p n
  | 8 => EventAckReceived f p id | 9 => EventSent f id p | 10 => SyncSent f p n | 11 => DtnHandoff f p n
  | 12 => DtnRelayed s p q | 13 => DtnDelivered s p | _ => DtnReceived s p u
  end%nat.

#[local] Instance NodeEvent_countable : Countable NodeEvent.
Proof. by apply (inj_countable' fields_of event_of_fields); intros []. Defined.

#[local] Instance NodeLogEntry_countable : Countable NodeLogEntry.
Proof.
  by apply (inj_countable' (λ e, (ne_sequence e, ne_timestamp_millis e, ne_prev_hash e, ne_event e))
    (λ '(a, b, d, c), Build_NodeLogEntry a b c d)); intros [].
Defined.

#[local] Instance NodeLogMeta_eq_dec : EqDecision NodeLogMeta.
Proof. solve_decision. Defined.
#[local] Instance NodeLogMeta_countable : Countable NodeLogMeta.
Proof.
  by apply (inj_countable' (λ m, (nm_current_sequence m, nm_last_hash m, nm_entry_count m, nm_file_size m, nm_last_snapshot_sequence m))
    (λ '(a, b, c, d, e), Build_NodeLogMeta a b c d e)); intros [].
Defined.

#[local] Instance toy_node_log : NodeLogPostcard := {|
  pc_node := λ e, Ok (toy_encode e); pc_parse_node := toy_parse;
  pc_meta := λ m, Ok (toy_encode m); pc_parse_meta := toy_parse;
|}.

Lemma toy_node_law e : ∃ v, pc_node e = Ok v ∧ pc_parse_node v = Ok e.
Proof. exists (toy_encode e). split; [done|]. apply toy_parse_encode. Qed.

Lemma toy_meta_law m : ∃ v, pc_meta m = Ok v ∧ pc_parse_meta v = Ok m.
Proof. exists (toy_encode m). split; [done|]. apply toy_parse_encode. Qed.

#[local] Instance storage_blake3 : Blake3 := λ l,
  arr32_fill (byte_of_Z (foldl (λ h b, (31 * h + byte_val b) mod 251) 0 l)).

Definition node_events : list (Z * NodeEvent) :=
  [(10, NodeStarted room); (11, NodeStopped)].

Lemma node_log_spec_witness :
  ∃ l l', verify_chain 1 2 l = (l', Ok true) ∧ ∃ l'', node_read_since 1 l = (l'', Ok (drop 1 (chain_entries 0 zeros32 node_events))).
Proof.
  destruct (node_log_spec toy_node_law toy_meta_law node_events)
    as (T & l0 & l & T' & l2 & _ & _ & _ & _ & _ & _ & Hall).
  - repeat first [apply Forall_nil_2 | apply Forall_cons_2; [vm_compute; reflexivity|]].
  - vm_compute. reflexivity.
  - vm_compute. reflexivity.
  - destruct (Hall l2 (or_intror eq_refl)) as (_ & Hsince & Hver). destruct (Hver 1 2 ltac:(lia)) as [l' Hl'].
    destruct (Hsince 1 ltac:(lia)) as [l'' Hl'']. exists l2, l'. split; [exact Hl'|]. exists l''. exact Hl''.
Defined.

(** ** The log of pending events *)

Definition entry_code (e : LogEntry) : nat * EventId * list byte :=
  let i := {| sender_hash := 0; ev_sequence := 0 |} in
  match e with
  | MarkPending p id => (0%nat, id, p)
  | MarkDelivered p id => (1%nat, id, p)
  | MarkDeliveredUpTo p id => (2%nat, id, p)
  | ClearPending p => (3%nat, i, p)
  end.

Definition entry_of_code (x : nat * EventId * list byte) : LogEntry :=
  let '(t, id, p) := x in
  match t with
  | 0 => MarkPending p id | 1 => MarkDelivered p id | 2 => MarkDeliveredUpTo p id | _ => ClearPending p
  end%nat.

(** A zero first, which is no letter. *)
#[local] Instance toy_log : LogPostcard := {|
  pc_log := λ e, Ok (x00 :: toy_encode (entry_code e));
  pc_parse_log := λ l,
    match l with
    | x00 :: l => match toy_decode l with Some x => Ok (entry_of_code x) | None => Err "unexpected end" end
    | _ => Err "no such variant"
    end;
|}.

Lemma toy_log_law e v : pc_log e = Ok v → pc_parse_log v = Ok e ∧ v ≠ [].
Proof. intros [= <-]. split; [|done]. cbn. rewrite toy_decode_encode. by destruct e. Qed.

Lemma toy_log_text c l : c ∈ ALPHABET → is_ok (pc_parse_log (c :: l)) = false.
Proof.
  intros Hc. destruct c; [|done..]. exfalso. revert Hc.
  apply (bool_decide_eq_false_1 (x00 ∈ ALPHABET)). by vm_compute.
Qed.

Definition pending_ops : list (pl_action (I := SimulationIdentity)) :=
  [PaOp (PlMark pA first_id); PaOp (PlMark pB first_id); PaOp (PlMark pA second_id); PaCompact; PaOp (PlDelivered pA first_id); PaOp (PlClear pB)].

Definition pending_start (sync : bool) : PersistentPendingStore :=
  {| pl_mem := pending_with_quota (quota_new 2 10); pl_file := []; pl_buffer := []; pl_open := true; sync_writes := sync |}.

Definition pending_end (sync : bool) := run_pl_ops pending_ops (pending_start sync, false).

(** A store that syncs its writes restarts with the same events; one that does
    not may forget that an event was delivered. *)
Lemma persistent_pending_spec_witness :
  (∃ s, with_options None (quota_new 2 10) true (Some (pl_file (pending_end true).1)) = Ok s ∧ pl_pending_for pA s = Ok [second_id]) ∧
  (∃ s, with_options None (quota_new 2 10) false (Some (pl_file (pending_end false).1)) = Ok s ∧
     ∃ kept lost, pending_ops = kept ++ lost ∧ pl_pending_for pA s = pl_pending_for pA (run_pl_ops kept (pending_start false, false)).1).
Proof.
  assert (Hfile : log_file None) by (exists []; split; [done|constructor]).
  assert (Hall : Forall loggable ([] ++ pending_ops)) by
    (repeat first [apply Forall_nil_2 | apply Forall_cons_2; [vm_compute; done|]]).
  split.
  - destruct (persistent_pending_spec toy_log_law toy_log_text (quota_new 2 10) true None (pending_start true) [] pending_ops
      (pending_start true, false) (pending_end true) Hfile eq_refl Hall eq_refl eq_refl eq_refl)
      as (Hsync & _ & _ & kept & lost & s & Hk & Hl & Hs & _ & Heq).
    rewrite (Hl (Hsync eq_refl)), app_nil_r in Hk. subst kept.
    exists s. split; [exact Hs|]. rewrite Heq by (vm_compute; reflexivity). vm_compute. reflexivity.
  - destruct (persistent_pending_spec toy_log_law toy_log_text (quota_new 2 10) false None (pending_start false) [] pending_ops
      (pending_start false, false) (pending_end false) Hfile eq_refl Hall eq_refl eq_refl eq_refl)
      as (_ & _ & _ & kept & lost & s & Hk & _ & Hs & _ & Heq).
    exists s. split; [exact Hs|]. exists kept, lost. split; [exact Hk|]. apply Heq.
    assert (Hev : ∀ n, (n <= 6)%nat → (run_pl_ops (take n pending_ops) (pending_start false, false)).2 = false).
    { intros n Hn. do 7 (destruct n as [|n]; [vm_compute; reflexivity|]). lia. }
    assert (kept = take (length kept) pending_ops) as -> by (by rewrite Hk, take_app_length).
    apply Hev. apply (f_equal length) in Hk. rewrite length_app in Hk. simpl in Hk. lia.
Defined.

(** ** The composite storage *)

Definition small_config : CompositeStorageConfig :=
  {| csc_base_dir := "./data"; csc_event_log := event_log_config_default; csc_redb := redb_config_default;
     csc_blobs := blob_store_config_default; blob_threshold := 3 |}.

(** A file with one event. *)
Definition old_entry : EventLogEntry := log_entry_new 3 second_id 0 [x61].
Definition old_logs : gmap arr32 (list byte) := {[ room := log_bytes [old_entry] ]}.

Definition storage_empty : CompositeStorage :=
  {| cs_logs := ∅; cs_disk := ∅; cs_blobs := {| db_config := blob_store_config_default; db_files := ∅ |};
     cs_node := {| nl_file := log_file_open []; nl_sequence := 0; nl_last_hash := zeros32; nl_redb := db ∅ |};
     cs_config := small_config |}.

Definition storage_start : CompositeStorage :=
  match composite_new None None None None None small_config old_logs ∅ [] (db ∅) with Ok s => s | Err _ => storage_empty end.

Lemma storage_opens : composite_new None None None None None small_config old_logs ∅ [] (db ∅) = Ok storage_start.
Proof. reflexivity. Qed.

Definition long_payload : list byte := [x61; x62; x63; x64].

Lemma old_logs_ok f : let es := {[ room := [old_entry] ]} : gmap arr32 (list EventLogEntry) in
  Forall entry_written (default [] (es !! f)) ∧ ∃ t, torn_tail t ∧ default [] (old_logs !! f) = log_bytes (default [] (es !! f)) ++ t.
Proof.
  intros es. unfold es, old_logs. destruct (decide (f = room)) as [->|Hne].
  - rewrite !lookup_singleton_eq. split; [|exists []; split; [apply torn_nil|by rewrite app_nil_r]].
    apply Forall_singleton. split; [vm_compute; reflexivity|]. split; vm_compute; [reflexivity|discriminate].
  - rewrite !lookup_singleton_ne by done. split; [constructor|]. exists []. split; [apply torn_nil|done].
Qed.

(** In a storage opened on that file, a payload that is stored as a blob; the
    old event is still there. *)
Lemma append_event_spec_witness :
  ∃ s' s'' e, append_event storage_io_ok 7 room first_id long_payload storage_start = (s', Ok 1) ∧
    cs_get_event storage_io_ok room first_id s' = (s'', Ok (Some e)) ∧ le_payload e = [] ∧ entry_resolves s' long_payload e ∧
    ∃ s3, cs_get_event storage_io_ok room second_id s' = (s3, Ok (Some old_entry)).
Proof.
  pose proof (composite_new_holds toy_entry_law small_config old_logs ∅ [] (db ∅) _ _ storage_opens old_logs_ok (blobs_ok_new _)) as Hh.
  destruct (append_event_spec toy_entry_law storage_start _ 7 room first_id long_payload Hh) as (s' & Ha & _ & _ & Hres & Hget).
  - apply entry_fits_toy. vm_compute. split; [reflexivity|discriminate].
  - vm_compute. reflexivity.
  - vm_compute. discriminate.
  - exists s'. destruct (Hget room first_id) as [s'' Hg]. exists s''. eexists.
    split; [rewrite Ha; vm_compute; reflexivity|].
    split; [rewrite Hg; rewrite decide_True by reflexivity; reflexivity|].
    split; [vm_compute; reflexivity|]. split; [exact Hres|].
    destruct (Hget room second_id) as [s3 Hg3]. exists s3. rewrite Hg3. vm_compute. reflexivity.
Defined.
End PersistentStorage.

From S2P Require Import Sealing Recovery Messaging Keystore Float StoryAuth.

Section Accounts.
Local Open Scope string_scope.
Local Open Scope Z_scope.
Local Open Scope list_scope.

(** ** Message histories *)

Definition hello_from (sender : SimulationIdentity) (n : Z) : Message SimulationIdentity :=
  {| msg_id := message_id_from_parts room n [x01]; msg_sender := sender; msg_interface_id := room; msg_content := McText "hi";
     msg_timestamp := n; msg_reply_to := None |}.

(** A history of one message: the second evicts the first. *)
Definition two_stores : list (history_op (I := SimulationIdentity)) := [HStore (hello_from pA 1); HStore (hello_from pB 2)].

Lemma history_refines_map_witness :
  let h := foldl (λ h op, run_op op h) (history_with_limit 1) two_stores in
  history_get (msg_id (hello_from pA 1)) h = None ∧ history_get (msg_id (hello_from pB 2)) h = Some (hello_from pB 2) ∧
  ∀ f, (history_count f h <= 1)%nat.
Proof.
  intros h. destruct (history_refines_map 1 two_stores) as (Hget & _ & _ & _ & _ & Hmax).
  - split; [split; [reflexivity|]|split; [split; [reflexivity|]|exact I]].
    + intros id o Ho. by rewrite lookup_empty in Ho.
    + intros id o Ho Hs. cbn [spec_op] in Ho. apply lookup_insert_Some in Ho as [[_ <-]|[_ Ho]]; [by vm_compute in Hs|].
      assert (He : spec_evict 1 room (∅ : gmap MessageId (Message SimulationIdentity)) = ∅) by (vm_compute; reflexivity).
      simpl in Ho. rewrite He in Ho. by rewrite lookup_empty in Ho.
  - unfold h. rewrite !Hget. split; [vm_compute; reflexivity|]. split; [vm_compute; reflexivity|]. apply Hmax. lia.
Defined.

(** ** Stories *)

(** The ciphertext starts with the key. *)
#[local] Instance keyed_aead : Aead := {|
  aead_encrypt := λ k _ p, Ok (arr32_bytes k ++ p);
  aead_decrypt := λ k _ c, if bool_decide (take 32 c = arr32_bytes k) then Ok (drop 32 c) else Err "aead::Error" |}.
#[local] Instance keyed_aead_laws : AeadLaws.
Proof.
  intros k n p c [= <-]. cbn. rewrite take_app_length' by (symmetry; apply arr32_length). rewrite bool_decide_true by done.
  by rewrite drop_app_length' by (symmetry; apply arr32_length).
Qed.

Lemma keyed_aead_total k n p : length n = NONCE_SIZE → short p → ∃ c, aead_encrypt k n p = Ok c.
Proof. by eexists. Qed.

#[local] Existing Instance toy_dilithium.
#[local] Existing Instance toy_kem.
#[local] Existing Instance storage_blake3.
#[local] Instance toy_key_bytes : KeyBytesLaws.
Proof. by split. Qed.

Lemma toy_kem_bytes (k : PQKemKeyPair) : kem_from_keypair_bytes (kem_to_keypair_bytes k).1 (kem_to_keypair_bytes k).2 = Ok k.
Proof.
  destruct k as [a b]. unfold kem_from_keypair_bytes, kem_to_keypair_bytes. simpl. rewrite !arr32_length. simpl.
  by rewrite !to_arr32_bytes.
Qed.

#[local] Instance plain_argon2 : Argon2 := λ _ _ _ _ p salt, Ok (p ++ salt).
#[local] Instance plain_hkdf : HkdfSha512 := λ m _ _, Ok (replicate 32 (byte_of_Z (Z.of_nat (length m)))).

Lemma plain_argon2_total p salt : short p → short salt → (8 <= length salt)%nat →
  ∃ b, argon2id ARGON2_MEMORY_KIB ARGON2_ITERATIONS ARGON2_PARALLELISM ARGON2_OUTPUT_LEN p salt = Ok b.
Proof. by eexists. Qed.

Lemma toy_identity_short i : short (pq_identity_to_keypair_bytes i).1 ∧ short (pq_identity_to_keypair_bytes i).2.
Proof. by destruct i. Qed.

Lemma toy_kem_short (k : PQKemKeyPair) : short (kem_to_keypair_bytes k).1 ∧ short (kem_to_keypair_bytes k).2.
Proof. unfold short, kem_to_keypair_bytes. simpl. by rewrite !arr32_length. Qed.

Lemma plain_hkdf_total m i : ∃ b, hkdf_expand m i 32 = Ok b ∧ length b = 32%nat.
Proof. by eexists. Qed.

#[local] Instance plain_log2 : Log2F64 := λ x, x.

#[local] Instance RehearsalState_eq_dec : EqDecision RehearsalState.
Proof. solve_decision. Defined.
#[local] Instance RehearsalState_countable : Countable RehearsalState.
Proof.
  by apply (inj_countable' (λ r, (rh_created_at r, rh_last_rehearsal r, rh_rehearsal_count r, rh_next_rehearsal r, rh_consecutive_successes r))
    (λ '(a, b, c, d, e), Build_RehearsalState a b c d e)); intros [].
Defined.
#[local] Instance rehearsal_codec : Codec RehearsalState := {| c_encode := λ r, Ok (toy_encode r); c_decode := toy_parse |}.

Lemma toy_rehearsal_law (r : RehearsalState) : ∃ b, c_encode r = Ok b ∧ c_decode b = Ok r.
Proof. exists (toy_encode r). split; [done|]. apply toy_parse_encode. Qed.

(** Twenty-three words that are in no list. *)
Definition made_up (suffix : string) : PassStory :=
  {| ps_template := default_template;
     ps_slots := (λ i, String.append "zq" (String.append (nat_text i) suffix)) <$> List.seq 0 23 |}.

Definition empty_dir : KeyDir := {| kd_files := ∅; kd_io := []; kd_random := [] |}.
Definition account_keys : NodeKeys := {| nk_iroh := arr32_fill x05; nk_identity := toy_identity x06; nk_kem := keypair (arr32_fill x07) |}.
Definition first_story : StoryEntry := {| se_now := 0; se_story := made_up "x"; se_user := [x01]; se_timestamp := 10 |}.
Definition second_story : StoryEntry := {| se_now := 50; se_story := made_up "yz"; se_user := [x01]; se_timestamp := 60 |}.

(** The account opens for the second story, two days later with a reminder,
    and no longer for the first. *)
Lemma story_auth_spec_witness :
  ∃ a a', create_account account_keys 0 (made_up "x") [x01] 10 (auth_start 0 empty_dir) = (a, Ok tt) ∧
    auth_rotations [second_story] a = (a', Ok tt) ∧
    (∃ a'', authenticate (days 2) (made_up "yz") (auth_start (days 2) (au_dir a')) = (a'', Ok AuthRehearsalDue)) ∧
    (∃ a'', authenticate (days 2) (made_up "x") (auth_start (days 2) (au_dir a')) = (a'', Ok AuthFailed)).
Proof.
  assert (Hall : Forall accepted [first_story; second_story]) by
    (repeat first [apply Forall_nil_2 | apply Forall_cons_2; [split_and!; vm_compute; reflexivity|]]).
  assert (Hno : no_keys empty_dir) by (intros n _; apply lookup_empty).
  pose proof (λ now story, story_auth_spec keyed_aead_total toy_identity_short toy_kem_short toy_kem_bytes plain_argon2_total plain_hkdf_total
    toy_rehearsal_law account_keys empty_dir first_story [second_story]
    now story eq_refl Hno Hall) as Hspec.
  destruct (Hspec (days 2) (made_up "yz")) as (a & a' & He & Hr & Hsame & _); [vm_compute; reflexivity|].
  destruct (Hspec (days 2) (made_up "x")) as (b & b' & He' & Hr' & _ & Hother); [vm_compute; reflexivity|].
  assert (b = a) as -> by (rewrite He in He'; congruence). assert (b' = a') as -> by (rewrite Hr in Hr'; congruence).
  exists a, a'. split; [exact He|]. split; [exact Hr|]. split.
  - destruct (Hsame eq_refl) as (a'' & Ha & _). by exists a''.
  - destruct Hother as (a'' & Ha & _); [vm_compute; discriminate|]. by exists a''.
Defined.
End Accounts.
